(* ===== verification/_CoqProject ===== *)
-Q . S2P
Prelude.v
Json.v
SyncPull.v
SyncPush.v
SyncModel.v
SyncConvergence.v
SyncRemint.v
SyncEngine.v
ContactsConflict.v
JsText.v
ConnEntry.v
ConnGrants.v
ConnStore.v
ConnUpsert.v
ConnReceived.v
ConnWriters.v
ConnReplicas.v
ConnInvariant.v
ConnDirectory.v
ConnLaws.v
ConnDemo.v
CeremonyEvents.v
Menders.v
MenderRunner.v
MenderAudit.v
AccountDocument.v
LadderRungs.v
ResourceController.v
LadderDemo.v
AccountLog.v
LogStore.v
KeyRotation.v
LadderIndex.v
LadderInventory.v
ClientListing.v
ClientRevocation.v
AccountEntry.v
RevocationHistory.v
StrikeSafety.v
ClientDemo.v
EntryDiscipline.v
EntryDemo.v
Descriptors.v
UserKeyRoster.v
RosterConvergence.v
UserKeyCascade.v
RosterCascade.v
RosterPolicy.v
AccountClients.v
EpochLibraryDemo.v
RosterDemo.v
ClientKeyRecord.v
KeyringRecord.v
UnlockRecord.v
RecordDemo.v
AnnexDocument.v
AnnexLog.v
AnnexGenesis.v
AnnexDiscipline.v
AnnexGc.v
AnnexGcSafety.v
AnnexDemo.v
StandingCredential.v
StandingSafety.v
CredentialRetirement.v
StandingDemo.v
RetirementDemo.v
RecoverySpend.v
RecoverySafety.v
RecoveryLaws.v
RecoveryDemo.v
LadderCeremonies.v
LadderSafety.v
LadderSafetyDemo.v
LastClient.v
LastClientSafety.v
LastClientDemo.v
AnnexHeal.v
AnnexHealSafety.v
AnnexHealDemo.v
