(* ===== verification/Prelude.v ===== *)
(** * wallet-core: the verification development's root

    wallet-core is the shared core of the wallet apps: the engine that
    replicates encrypted resources between a client and a storage server, the
    Connections Directory, the account's did:webvh identity log with the
    clients and credentials it licenses, the user key roster with the
    cascade that re-keys every collection onto it, the records that carry a
    credential's keys, the auxiliary log a credential's visits write, the
    ceremonies that bind, retire, spend and forget, and the framework that
    runs repairs. This library models those parts as the code writes them and
    proves what they promise.

    ** How the program is represented

    A JavaScript value that crosses a boundary (a stored body, a wire
    document, a decrypted payload) is a [json] ([Json.v]); a value the types
    fix is a record or an inductive type of its own. [undefined] is [None].
    A string is its UTF-8 text, bytes are a string of characters, and a number
    is the integer or the rational it denotes.

    A synchronous function that may throw is a [result]; an [async] one is a
    computation [comp W A] over a world [W] (this file). The world is a
    parameter of every component, and every seam the code is handed (a store,
    a port, a callback, a clock, a logger) is an arbitrary transformer of it,
    so what is proved covers whatever else runs while the function is
    suspended at an [await]. Where a theorem needs a seam to behave, a named
    contract or class of laws says how, and a concrete instance in one of the
    demo files meets it.

    [Promise.all] over a list is run in the order of the list: the tasks of
    such a fan-out are started in that order, no task reads another's result,
    and a theorem about their joint outcome says what each leaves, not the
    order in which the requests of two of them interleave at the server.
    The sync engine's scheduler is the exception: there the interleaving is
    the subject, and it is a step relation.

    ** The parts

    Replication, [src/src/sync/]. [SyncPull.v] is the two seams, the
    projection of a document and the paging loop; [SyncPush.v] the conditional
    writes; [SyncRemint.v] the re-encryption of pending
    replicas; [SyncEngine.v] the single-flight scheduler as a machine over
    frames, whose environment makes reentrant calls and throws;
    [ContactsConflict.v] the head-of-a-contact conflict rule. [SyncModel.v] is
    a reference server and store, and [SyncConvergence.v] the end-to-end
    theorems over them. Shown: a pull applies every pending document in feed
    order, whatever the paging, and resumes from any failure; a push is one
    conditional write per dirty replica; two replicas converge; at most one
    run is live, a request is served, a stop is final, the retry delay is
    capped.

    The Connections Directory, [src/src/connections/] and
    [src/src/labelText.ts]. [JsText.v] is JavaScript text and times;
    [ConnEntry.v] the entry codec and the writer policy; [ConnGrants.v] the
    grants; [ConnStore.v] ids, storage and listing; [ConnUpsert.v] and
    [ConnReceived.v] every write; [ConnWriters.v] and [ConnReplicas.v] the
    writer and replica members. [ConnInvariant.v], [ConnDirectory.v] and
    [ConnLaws.v] show that every write is a compare-and-swap on the body just
    read, that the body put parses and keeps what the write is not about, that
    no live channel or latest record is lost, and that retirement is thorough;
    [ConnDemo.v] is a concrete directory.

    Ceremonies and repairs, [src/src/ceremonyEvents.ts] and
    [src/src/menders/]. [CeremonyEvents.v] is the event channel, [Menders.v]
    the invariant census and the registry, [MenderRunner.v] the runner,
    [MenderAudit.v] the audit. Shown: a run concludes once and never changes
    its body's outcome; a block runs exactly the due steps, in order, and
    never rejects; the audit is empty exactly for a complete declaration.

    The account log, [src/src/resourceLog/] and [src/src/webvh/].
    [AccountDocument.v] reads and merges documents; [LadderRungs.v] attributes
    ladder rungs and states, with no walk, what a rung is;
    [ResourceController.v] is the controller view, the ceremony-tail license
    and what that license guarantees; [AccountLog.v] locates, verifies and
    pins the log (every accepted log extends the ones before); [LogStore.v]
    publishes by compare-and-swap; [KeyRotation.v] rotates an update key (no
    stop strands the client); [LadderIndex.v] and [LadderInventory.v] derive
    and read back a credential's ladder; [ClientListing.v] lists the enrolled
    clients (the single pass is the per-client reading);
    [ClientRevocation.v] says what a removal takes; [AccountEntry.v] is the
    one seam every client-signed entry goes through, with the enrollment and
    the revocation that run through it. [RevocationHistory.v] and
    [StrikeSafety.v] show, over every history of entries, that a removal ends
    all its client could sign with and leaves every other client able, and
    that a strike does too; [EntryDiscipline.v] carries the evidence of a run
    (which heads it read or wrote, which entry each put rests on) through
    every seam, and shows that an enrollment only adds. [LadderDemo.v],
    [ClientDemo.v] and [EntryDemo.v] are concrete logs.

    The user key, [src/src/keys/] and [src/src/clients/].
    [Descriptors.v] is the epoch descriptor, its store and the storage
    client's recipient operations with their contract; [UserKeyRoster.v] the
    roster and its convergence onto the account document;
    [UserKeyCascade.v] the collections' move onto the current key and what it
    leaves; [RosterCascade.v] the two tails and the whole of a revocation,
    which cuts its client off from the roster and from every collection it
    reports; [RosterPolicy.v] the roster at login, whose pin is never served
    an older epoch, and the governed store; [AccountClients.v] the listing an
    app shows. [RosterConvergence.v] shows that a convergence leaves no drift
    or nothing changed. [EpochLibraryDemo.v] and [RosterDemo.v] are a
    recipient library that meets the contract and a concrete revocation.

    The records, [src/src/keys/clientKeyRecord.ts], [src/src/keyring/] and
    [src/src/unlock/unlockRecord.ts]. [ClientKeyRecord.v] is the local record
    of a client's keys; [KeyringRecord.v] the frame, the proof and the keyring
    record; [UnlockRecord.v] the record of a standing credential. Shown: the
    codecs round trip and return only well-formed records; a host cannot move
    a bound credential to another account; a re-mint replaces the delegations
    and nothing else. [RecordDemo.v] is a concrete record library.

    The client annex, [src/src/clientAnnex/log.ts], [gc.ts] and
    [src/src/webvh/standingZcap.ts], [clientAnnexDid.ts], [pwsIdStore.ts]: the
    auxiliary log a credential's visits write. [AnnexDocument.v] is the policy
    of a standing delegation, the names and the service entries; [AnnexLog.v]
    a log store over the storage client, the writer rule and the entries of a
    visit, a renewal, a strike and a commitment; [AnnexGenesis.v] a
    generation's first entry, the delegations and the account's pointer;
    [AnnexGc.v] the swap and the collection. [AnnexDiscipline.v] shows that
    over every history the log admits a plain set of writers, that each
    ceremony puts only the entries that rule states, that a re-point never
    overtakes another and that a visit returns only in the generation the
    account points at; [AnnexGcSafety.v] that a pass deletes only on evidence
    gathered since the account log was last written, and when it is due.
    [AnnexHeal.v], [heal.ts], is what a visit mends before it enrolls: the
    record's two delegations, the pointed generation, its Space;
    [AnnexHealSafety.v] shows that only what was answered dead is replaced.
    [AnnexDemo.v] is a concrete annex and [AnnexHealDemo.v] a visit to one
    whose Space is gone.

    Standing credentials, [src/src/unlock/standingWebvh.ts] and [retire.ts].
    [StandingCredential.v] is the read before a bind, the bind, the strike of
    rungs and the compaction of a ladder; [StandingSafety.v] the bind's whole
    ceremony and what its entries rest on; [CredentialRetirement.v] the
    retirement of one credential, from the strike to the cascade.
    [StandingDemo.v] and [RetirementDemo.v] run them.

    Recovery, [src/src/recovery/continuation.ts], [recoveryWebvh.ts] and
    [src/src/clientAnnex/recoveryLadderAnchored.ts]. [RecoverySpend.v] is the
    two entries of a spend, from an enrolled client and from a fresh ladder,
    and a code's issuance and revocation; [RecoverySafety.v] what the second
    entry strikes, publishes and keeps; [RecoveryLaws.v] what the two
    ceremonies promise over any store, and what a spend reports when it is run
    again. [RecoveryDemo.v] is a concrete spend.

    Ladder-signed ceremonies, [ladderAnchored.ts], [forget.ts],
    [forgetLast.ts] and [zcap.ts] of [src/src/clientAnnex/].
    [LadderCeremonies.v] is the entry a credential's ladder signs with no
    enrolled client at hand, the forgetting of a client and the anchored
    revocation; [LadderSafety.v] shows that a forgetting that returns has cut
    the forgotten client off. [LastClient.v] is the transition that retires
    the last client of an account: the anchor's checks, the staged signer, the
    tail; [LastClientSafety.v] that it removes its client last, and only
    behind a standing anchor. [LadderSafetyDemo.v] and [LastClientDemo.v] run
    both.

    ** How the parts meet

    A ceremony composes them. A revocation ([RosterCascade.runClientRevocation])
    edits the account log through [AccountEntry.signAccountEntry], reads back
    the document with the readers of [AccountDocument.v], rotates the roster
    onto it through the governed store of [RosterPolicy.v], whose appends
    [ResourceController.v] admits under the license that reads the same log,
    adopts the fresh key and cascades the collections. The directory's entries
    are listed beside the log's clients by [AccountClients.v]. A credential's
    unlock record carries the ladder seed [LadderIndex.v] derives its
    rungs from, and those rungs are what it finds in the log. A retirement, a
    forgetting and the last client's transition end in the same tail, so they
    share its lemmas: what a run told its log, which head each entry rests on
    and what the cascade leaves are stated once, in [EntryDiscipline.v] and
    [RosterCascade.v]. Menders run any of these as steps.

    ** Bounds and fuel

    Every loop of the modelled code has a bound in the code, and the model
    runs exactly it: three rounds of a conditional directory write, three
    attempts after a lost log race, two more around a threaded head, four
    re-mint passes, [LADDER_MAX_SCAN] rungs of a ladder. The exceptions are
    the pull's paging loop, whose rounds the server decides: it takes a fuel,
    running out of it is an outcome of its own, and [SyncPull.pull_complete]
    proves that one more round than there are pending documents is enough
    ([SyncConvergence.sync_cycle_converges] that the whole cycle returns). The
    other recursions follow a list or a string.

    ** What is a parameter

    Code outside [src/]: the did:webvh kernel (resolving, creating and
    updating a log), the resource-log kernel and its readers, the storage
    client (ports, ciphers, the recipient operations of a descriptor, path
    rules), the cryptographic libraries (HKDF, HMAC, signatures, multihash,
    base64url) and the platform ([Date], [URL], [fetch]). Each is a class or
    a section variable. What is relied on of one is a class of laws next to
    it: [JsHostLaws], [Base64Laws], [Base64Inverse], [DocumentReadersLaws],
    [ChainLaws], [FragmentReaderLaws], [EpochLibraryLaws], [UnlockHashLaws],
    [RecordLibraryLaws] and the like. No law makes a hash injective except
    where a theorem names it as a premise; [UnlockRecord] hands over the
    collision instead.

    ** Not modelled

    - [src/src/space/], [src/src/testing/], [src/src/audiences/], the
      [index.ts] files: requests to a server in the order of the calls, test
      doubles, constants and re-exports, with no state of their own.
    - [establish.ts], [mend.ts] and [selfEnroll.ts] of
      [src/src/clientAnnex/], [src/src/enrollment/] and [src/src/genesis/]:
      ceremonies above the seams modelled here (establishing an annex and the
      mender steps over one, the run of a self-enrollment, an enrollment link,
      an account's first entry). Each composes entries of the log, the roster
      and the records that are modelled.
    - [src/src/keyring/kdf.ts], [unlockIdentity.ts], [unlockSpace.ts]: the
      password hash and the requests of one Space.
    - [src/src/keys/spaceEpochs.ts], [rosterStore.ts],
      [collectionLogStore.ts], [src/src/descriptors/]: adapters that bind the
      governed store of [RosterPolicy.v] to one collection's resources.
    - of the modelled files: the genesis half of [didWebvh.ts], the
      projection's first publication, the memo of a verified controller, the
      renewal readers of [grants.ts]. The manifest's component notes say what
      each leaves out. *)

From stdpp Require Export base tactics option list numbers strings gmap fin_maps sets sorting pretty.
From Stdlib Require Export Lia ZArith.

(** ** JavaScript outcomes *)

(** A thrown value. The code classifies every error by its [name]
    ([src/src/errorName.ts]), never by its class, so a thrown value is its
    [name] beside a payload that tells two errors of one name apart. *)
Record js_error := JsError {
  err_name : string;
  err_detail : string
}.

#[export] Instance js_error_eq_dec : EqDecision js_error.
Proof. solve_decision. Defined.

(** The settled outcome of a call: it returned a value or it threw. *)
Inductive result (A : Type) :=
  | Ok (a : A)
  | Throw (e : js_error).
Arguments Ok {A} a.
Arguments Throw {A} e.

#[export] Instance result_eq_dec {A} `{!EqDecision A} : EqDecision (result A).
Proof. solve_decision. Defined.

(** ** Computations over a world

    An [async] function of the program is a computation over the state of
    everything it can reach through its injected seams: the store, the
    server, the log, the abort signal, and whatever else runs while the
    function is suspended at an [await]. The world type is a parameter of
    every component, and a seam is an arbitrary transformer of it, so a
    theorem about a component covers every interleaving the seams can
    produce at the component's [await]s. *)
Definition comp (W A : Type) : Type := W → result A * W.

#[export] Instance comp_ret W : MRet (comp W) := λ A a w, (Ok a, w).
#[export] Instance comp_bind W : MBind (comp W) := λ A B k c w,
  match c w with
  | (Ok a, w') => k a w'
  | (Throw e, w') => (Throw e, w')
  end.
#[export] Instance comp_throw W : MThrow js_error (comp W) := λ A e w, (Throw e, w).

(** A synchronous computation has no world. *)
#[export] Instance result_ret : MRet result := λ A a, Ok a.
#[export] Instance result_bind : MBind result := λ A B k r,
  match r with Ok a => k a | Throw e => Throw e end.
#[export] Instance result_throw : MThrow js_error result := λ A e, Throw e.

Lemma result_bind_ok {A B} (r : result A) (k : A → result B) b :
  r ≫= k = Ok b ↔ ∃ a, r = Ok a ∧ k a = Ok b.
Proof. destruct r; cbn; naive_solver. Qed.

(** [try c catch h]. *)
Definition try_catch {W A} (c : comp W A) (h : js_error → comp W A) : comp W A :=
  λ w, match c w with
       | (Ok a, w') => (Ok a, w')
       | (Throw e, w') => h e w'
       end.

(** [try c finally f], where [f] is synchronous and cannot throw. *)
Definition finally {W A} (c : comp W A) (f : W → W) : comp W A :=
  λ w, let '(r, w') := c w in (r, f w').

(** A synchronous read of the world, such as [signal.aborted]. *)
Definition gets {W A} (f : W → A) : comp W A := λ w, (Ok (f w), w).

(** A synchronous change of the world. *)
Definition modify {W} (f : W → W) : comp W () := λ w, (Ok (), f w).

(** A synchronous expression that may throw, inside an [async] body. *)
Lemma mapM_result_ok {A B} (f : A → result B) xs ys : mapM f xs = Ok ys → Forall2 (λ x y, f x = Ok y) xs ys.
Proof.
  revert ys. induction xs as [|x xs IH]; intros ys; cbn; [by intros [= <-]|].
  destruct (f x) as [y|] eqn:Hx; [|done]. cbn. destruct (mapM f xs) as [ys'|]; [|done].
  intros [= <-]. constructor; [done|by apply IH].
Qed.

Definition lift {W A} (r : result A) : comp W A := λ w, (r, w).

(** [Promise.all(xs.map(f))]: the calls are made in order and the results
    collected in the order of [xs]; the first rejection is the result. *)
Fixpoint promise_all {W A B} (f : A → comp W B) (xs : list A) : comp W (list B) :=
  match xs with
  | [] => mret []
  | x :: xs => y ← f x; ys ← promise_all f xs; mret (y :: ys)
  end.

(** ** Closure state

    A mutable binding a closure keeps is a component of the world. *)
Class Cell (W S : Type) := {
  get_cell : W → S;
  set_cell : S → W → W
}.

Class CellLaws (W S : Type) `{!Cell W S} : Prop :=
  get_set_cell : ∀ (w : W) (s : S), get_cell (set_cell s w) = s.

(** ** Partial-correctness triples

    [{{P}} c {{Q | R}}]: from every world satisfying [P] the computation
    either returns a value and a world satisfying [Q], or throws with an
    error and a world satisfying [R]. Computations are total functions, so a
    triple also says that the computation settles. *)
Definition triple {W A} (P : W → Prop) (c : comp W A)
    (Q : A → W → Prop) (R : js_error → W → Prop) : Prop :=
  ∀ w, P w → match c w with
             | (Ok a, w') => Q a w'
             | (Throw e, w') => R e w'
             end.

(** The triple whose postconditions say that [I] still holds. *)
Abbreviation preserves I c := (triple I%function c (λ _, I%function) (λ _, I%function)).

Create HintDb triple discriminated.
#[export] Hint Constants Opaque : triple.

Section triple.
Context {W : Type}.
Implicit Types P : W → Prop.

Lemma triple_conseq {A} P P' (c : comp W A) Q Q' R R' :
  triple P c Q R → (∀ w, P' w → P w) →
  (∀ a w, Q a w → Q' a w) → (∀ e w, R e w → R' e w) →
  triple P' c Q' R'.
Proof. intros Hc HP HQ HR w Hw. specialize (Hc w (HP w Hw)). destruct (c w) as [[]]; eauto. Qed.

Lemma triple_ret {A} (a : A) P (Q : A → W → Prop) R :
  (∀ w, P w → Q a w) → triple P (mret a) Q R.
Proof. intros H w. apply H. Qed.

Lemma triple_throw {A} e P (Q : A → W → Prop) (R : js_error → W → Prop) :
  (∀ w, P w → R e w) → triple P (mthrow e) Q R.
Proof. intros H w. apply H. Qed.

Lemma triple_bind {A B} P (c : comp W A) (k : A → comp W B) M Q R :
  triple P c M R → (∀ a, triple (M a) (k a) Q R) → triple P (c ≫= k) Q R.
Proof.
  intros Hc Hk w Hw. unfold mbind, comp_bind. specialize (Hc w Hw).
  destruct (c w) as [[a|e] w']; [by apply Hk|done].
Qed.

Lemma triple_try {A} P (c : comp W A) h Q R E :
  triple P c Q E → (∀ e, triple (E e) (h e) Q R) → triple P (try_catch c h) Q R.
Proof.
  intros Hc Hh w Hw. unfold try_catch. specialize (Hc w Hw).
  destruct (c w) as [[a|e] w']; [done|by apply Hh].
Qed.

Lemma triple_gets {A} (f : W → A) P (Q : A → W → Prop) R :
  (∀ w, P w → Q (f w) w) → triple P (gets f) Q R.
Proof. intros H w. apply H. Qed.

Lemma triple_modify (f : W → W) P (Q : () → W → Prop) R :
  (∀ w, P w → Q () (f w)) → triple P (modify f) Q R.
Proof. intros H w. apply H. Qed.

Lemma triple_lift {A} (r : result A) P (Q : A → W → Prop) (R : js_error → W → Prop) :
  (∀ w, P w → match r with Ok a => Q a w | Throw e => R e w end) →
  triple P (lift r) Q R.
Proof. intros H w Hw. specialize (H w Hw). by destruct r. Qed.

(** An invariant every element's call preserves is preserved by the whole
    concurrent map. *)
Lemma preserves_promise_all {A B} (I : W → Prop) (f : A → comp W B) xs :
  (∀ x, preserves I (f x)) → preserves I (promise_all f xs).
Proof.
  intros Hf. induction xs as [|x xs IH]; simpl; [by apply triple_ret|].
  eapply triple_bind; [apply Hf|intros y].
  eapply triple_bind; [apply IH|intros ys]. by apply triple_ret.
Qed.
End triple.

#[export] Hint Resolve triple_ret triple_throw triple_gets triple_modify
  preserves_promise_all : triple.

(** One step of a computation whose outcome is known. *)
Lemma comp_bind_ok {W A B} (c : comp W A) (k : A → comp W B) w a w' :
  c w = (Ok a, w') → (c ≫= k) w = k a w'.
Proof. unfold mbind, comp_bind. by intros ->. Qed.

Lemma comp_bind_throw {W A B} (c : comp W A) (k : A → comp W B) w e w' :
  c w = (Throw e, w') → (c ≫= k) w = (Throw e, w').
Proof. unfold mbind, comp_bind. by intros ->. Qed.

Lemma comp_bind_assoc {W A B C} (c : comp W A) (k : A → comp W B) (k' : B → comp W C) w :
  ((c ≫= k) ≫= k') w = (c ≫= λ a, k a ≫= k') w.
Proof. unfold mbind, comp_bind. by destruct (c w) as [[] ?]. Qed.

(** ** Loops

    [for (;;)] with [break]: the body returns the next loop state, to go
    round again or to leave with. The fuel bounds the rounds; [None] is the
    fuel running out, which no run of the program shows. *)
Inductive round (S : Type) :=
  | Continue (s : S)
  | Break (s : S).
Arguments Continue {S} s.
Arguments Break {S} s.

Fixpoint loop {W S} (fuel : nat) (body : S → comp W (round S)) (s : S) : comp W (option S) :=
  match fuel with
  | 0 => mret None
  | S fuel =>
      r ← body s;
      match r with
      | Continue s => loop fuel body s
      | Break s => mret (Some s)
      end
  end.

Section loop.
Context {W S : Type} (body : S → comp W (round S)).

(** More fuel changes nothing once a run has ended. *)
Lemma loop_fuel_mono n m s w r w' :
  loop n body s w = (r, w') → r ≠ Ok None → n ≤ m → loop m body s w = (r, w').
Proof.
  revert m s w. induction n as [|n IH]; intros m s w Hl Hr Hle; simpl in Hl.
  - by injection Hl as <- <-.
  - destruct m as [|m]; [lia|]. simpl. unfold mbind, comp_bind in *.
    destruct (body s w) as [[[s'|s']|e] w1]; [|done..].
    apply IH; [done..|lia].
Qed.

(** An invariant of the body is an invariant of the loop. *)
Lemma loop_invariant (I : S → W → Prop) (Q : S → W → Prop) R n s :
  (∀ s, triple (I s) (body s)
          (λ r w, match r with Continue s' => I s' w | Break s' => Q s' w end) R) →
  triple (I s) (loop n body s) (λ o w, ∀ s', o = Some s' → Q s' w) R.
Proof.
  intros Hb. revert s. induction n as [|n IH]; intros s; simpl.
  - apply triple_ret. naive_solver.
  - eapply triple_bind; [apply Hb|]. intros [s'|s']; [apply IH|].
    apply triple_ret. naive_solver.
Qed.

(** A measure every further round decreases bounds the fuel. *)
Lemma loop_terminates (I : S → W → Prop) (μ : S → W → nat) n s w :
  (∀ s w, I s w → ∀ s' w', body s w = (Ok (Continue s'), w') →
     I s' w' ∧ μ s' w' < μ s w) →
  I s w → μ s w < n → (loop n body s w).1 ≠ Ok None.
Proof.
  intros Hdec. revert s w. induction n as [|n IH]; intros s w HI Hn; [lia|].
  simpl. unfold mbind, comp_bind.
  destruct (body s w) as [[[s'|s']|e] w1] eqn:Hb; [|done..].
  destruct (Hdec _ _ HI _ _ Hb) as [HI' Hlt]. apply IH; [done|lia].
Qed.
End loop.

(** ** Lists and maps *)

Lemma triple_promise_all {W A B} (P : W → Prop) (f : A → comp W B) (g : A → B) R xs :
  (∀ x, triple P (f x) (λ y w, y = g x ∧ P w) R) →
  triple P (promise_all f xs) (λ ys w, ys = g <$> xs ∧ P w) R.
Proof.
  intros Hf. induction xs as [|x xs IH]; simpl; [by apply triple_ret|].
  eapply triple_bind; [apply Hf|intros y w [-> Hw]]. revert w Hw.
  change (triple P (ys ← promise_all f xs; mret (g x :: ys))
    (λ ys w, ys = g x :: (g <$> xs) ∧ P w) R).
  eapply triple_bind; [apply IH|intros ys]. apply triple_ret. by intros w [-> ?].
Qed.

(** A fact of the start world is a hypothesis of the triple. *)
Lemma triple_pure {W A} (φ : Prop) (P : W → Prop) (c : comp W A) Q R :
  (φ → triple P c Q R) → triple (λ w, φ ∧ P w) c Q R.
Proof. intros H w [??]. by apply H. Qed.

Lemma triple_weaken {W A} (P P' : W → Prop) (c : comp W A) Q R :
  triple P c Q R → (∀ w, P' w → P w) → triple P' c Q R.
Proof. intros Hc HP w Hw. by apply Hc, HP. Qed.

(** [new Map(entries)]: a later entry replaces an earlier one. *)
Definition mapOfEntries {A} (entries : list (string * A)) : gmap string A :=
  foldl (λ m kv, <[kv.1 := kv.2]> m) ∅ entries.

Lemma mapOfEntries_lookup_aux {A} (l : list (string * A)) (m : gmap string A) k v :
  NoDup (fst <$> l) → (k, v) ∈ l ∨ (k ∉ (fst <$> l) ∧ m !! k = Some v) →
  (foldl (λ m kv, <[kv.1 := kv.2]> m) m l) !! k = Some v.
Proof.
  revert m. induction l as [|[k' v'] l IH]; intros m Hnd Hk; simpl in *.
  - destruct Hk as [?%elem_of_nil|[_ ?]]; done.
  - apply NoDup_cons in Hnd as [Hk' Hnd]. apply IH; [done|].
    destruct Hk as [[Heq|?]%elem_of_cons|[[? ?]%not_elem_of_cons ?]].
    + simplify_eq. right. split; [done|]. apply lookup_insert_eq.
    + by left.
    + right. split; [done|]. by rewrite lookup_insert_ne.
Qed.

Lemma mapOfEntries_lookup {A} (l : list (string * A)) k v :
  NoDup (fst <$> l) → (k, v) ∈ l → mapOfEntries l !! k = Some v.
Proof. intros. apply mapOfEntries_lookup_aux; auto. Qed.

Lemma elem_of_zip_fmap {A B C} (f : A → B) (g : A → C) l x :
  x ∈ l → (f x, g x) ∈ zip (f <$> l) (g <$> l).
Proof. induction 1; simpl; set_solver. Qed.

Lemma fst_zip_fmap {A B C} (f : A → B) (g : A → C) l :
  (zip (f <$> l) (g <$> l)).*1 = f <$> l.
Proof. by rewrite fst_zip by (by rewrite !length_fmap). Qed.

Lemma NoDup_fmap_eq {A B} (f : A → B) (l : list A) x y :
  NoDup (f <$> l) → x ∈ l → y ∈ l → f x = f y → x = y.
Proof.
  intros Hnd [i Hi]%list_elem_of_lookup [j Hj]%list_elem_of_lookup Heq.
  assert (i = j) as ->; [|congruence].
  eapply (NoDup_lookup (f <$> l) i j (f x)); [done|..]; rewrite list_lookup_fmap.
  - by rewrite Hi.
  - by rewrite Hj, Heq.
Qed.

Lemma triple_exists {W A X} (P : X → W → Prop) (c : comp W A) Q R :
  (∀ x, triple (P x) c Q R) → triple (λ w, ∃ x, P x w) c Q R.
Proof. intros H w [x Hw]. by eapply H. Qed.

Lemma triple_post {W A} P (c : comp W A) (Q Q' : A → W → Prop) (R R' : js_error → W → Prop) :
  triple P c Q R → (∀ a w, Q a w → Q' a w) → (∀ e w, R e w → R' e w) → triple P c Q' R'.
Proof. intros. by eapply triple_conseq. Qed.

Lemma triple_throws {W A} P (c : comp W A) (Q : A → W → Prop) (R R' : js_error → W → Prop) :
  triple P c Q R → (∀ e w, R e w → R' e w) → triple P c Q R'.
Proof. intros. by eapply triple_conseq. Qed.

Lemma filter_all {A} (P : A → Prop) `{!∀ x, Decision (P x)} (l : list A) :
  (∀ x, x ∈ l → P x) → filter P l = l.
Proof.
  induction l as [|x l IH]; intros HP; [done|].
  rewrite filter_cons, decide_True by set_solver. f_equal. set_solver.
Qed.

Lemma filter_none {A} (P : A → Prop) `{!∀ x, Decision (P x)} (l : list A) :
  (∀ x, x ∈ l → ¬ P x) → filter P l = [].
Proof.
  induction l as [|x l IH]; intros HP; [done|].
  rewrite filter_cons, decide_False by set_solver. set_solver.
Qed.

Lemma StronglySorted_filter {A} (R : relation A) (P : A → Prop) `{!∀ x, Decision (P x)} (l : list A) :
  StronglySorted R l → StronglySorted R (filter P l).
Proof.
  induction 1 as [|x l Hl IH Hx]; [constructor|].
  rewrite filter_cons. case_decide; [|done]. constructor; [done|].
  rewrite Forall_forall in Hx |- *. intros y [_ Hy]%list_elem_of_filter. auto.
Qed.

Lemma NoDup_fmap_filter {A B} (f : A → B) (P : A → Prop) `{!∀ x, Decision (P x)} (l : list A) :
  NoDup (f <$> l) → NoDup (f <$> filter P l).
Proof.
  induction l as [|x l IH]; [done|]. rewrite fmap_cons, filter_cons.
  intros [Hx Hnd]%NoDup_cons. case_decide; [|auto]. rewrite fmap_cons. constructor; [|auto].
  intros (y&Hy&[_ Hin]%list_elem_of_filter)%list_elem_of_fmap. apply Hx. rewrite Hy.
  by apply list_elem_of_fmap_2.
Qed.

(** ** Collections of JavaScript values *)

(** [xs.filter(f)] and [xs.some(f)] where [f] may throw. *)
Fixpoint filterM {A} (f : A → result bool) (xs : list A) : result (list A) :=
  match xs with
  | [] => Ok []
  | x :: xs => b ← f x; ys ← filterM f xs; Ok (if b : bool then x :: ys else ys)
  end.

Fixpoint someM {A} (f : A → result bool) (xs : list A) : result bool :=
  match xs with
  | [] => Ok false
  | x :: xs => b ← f x; if b : bool then Ok true else someM f xs
  end.

Fixpoint forM_ {A} (f : A → result ()) (xs : list A) : result () :=
  match xs with
  | [] => Ok ()
  | x :: xs => f x;; forM_ f xs
  end.

(** [[...new Set(xs)]]: the first occurrence of each element. *)
Fixpoint js_dedup {A} `{!EqDecision A} (xs : list A) : list A :=
  match xs with
  | [] => []
  | x :: xs => x :: filter (λ y, y ≠ x) (js_dedup xs)
  end.

(** [Map.set]: an existing key keeps its position. *)
Fixpoint assoc_set {K V} `{!EqDecision K} (k : K) (v : V) (m : list (K * V)) : list (K * V) :=
  match m with
  | [] => [(k, v)]
  | (k', v') :: m => if decide (k = k') then (k', v) :: m else (k', v') :: assoc_set k v m
  end.
Fixpoint assoc_get {K V} `{!EqDecision K} (k : K) (m : list (K * V)) : option V :=
  match m with
  | [] => None
  | (k', v) :: m => if decide (k = k') then Some v else assoc_get k m
  end.

Lemma assoc_get_set {K V} `{!EqDecision K} (k k' : K) (v : V) m :
  assoc_get k (assoc_set k' v m) = if decide (k = k') then Some v else assoc_get k m.
Proof.
  induction m as [|[k1 v1] m IH]; simpl; [done|].
  repeat (case_decide; simplify_eq/=; try done).
Qed.

Lemma elem_of_js_dedup {A} `{!EqDecision A} (xs : list A) x : x ∈ js_dedup xs ↔ x ∈ xs.
Proof.
  induction xs as [|y xs IH]; simpl; [done|].
  rewrite !elem_of_cons, list_elem_of_filter, IH. destruct (decide (x = y)); naive_solver.
Qed.

Lemma NoDup_js_dedup {A} `{!EqDecision A} (xs : list A) : NoDup (js_dedup xs).
Proof.
  induction xs as [|x xs IH]; cbn; constructor; [|by apply NoDup_filter].
  rewrite list_elem_of_filter. by intros [? _].
Qed.

(** A relation transitive on the elements of a sorted list orders all of it. *)
Lemma Sorted_StronglySorted_on {A} (P : A → Prop) (R : relation A) l :
  (∀ x y z, P x → P y → P z → R x y → R y z → R x z) →
  Forall P l → Sorted R l → StronglySorted R l.
Proof.
  intros Htrans HP. induction 1 as [|x l Hl IH Hx]; [constructor|].
  apply Forall_cons in HP as [Hpx HP]. specialize (IH HP). constructor; [done|].
  destruct Hx as [|y l Hxy]; [constructor|].
  apply Forall_cons in HP as [Hpy HP]. inversion IH as [|? ? _ Hy]; subst. constructor; [done|].
  rewrite Forall_forall in HP, Hy |- *. eauto.
Qed.

(** Positions and elements of an indexed list, with what a filter leaves. *)
Lemma imap_pair_fst {A} (xs : list A) : (imap pair xs).*1 = seq 0 (length xs).
Proof. by rewrite fmap_imap, (imap_seq_0 _ (λ n, n)), list_fmap_id. Qed.

Lemma imap_tag_snd {A B} (tag : nat → B) (xs : list A) : (imap (λ i x, (tag i, x)) xs).*2 = xs.
Proof.
  apply list_eq. intros i. rewrite list_lookup_fmap, list_lookup_imap. by destruct (xs !! i).
Qed.
Lemma imap_pair_snd {A} (xs : list A) : (imap pair xs).*2 = xs.
Proof. apply (imap_tag_snd (λ i, i)). Qed.

Lemma sublist_fmap_mono {A B} (f : A → B) l k : l `sublist_of` k → f <$> l `sublist_of` f <$> k.
Proof. induction 1; rewrite ?fmap_cons; by constructor. Qed.

Lemma positions_sublist {A} (P : nat * A → Prop) `{!∀ x, Decision (P x)} (xs : list A) :
  (filter P (imap pair xs)).*2 `sublist_of` xs.
Proof. rewrite <-(imap_pair_snd xs) at 2. apply sublist_fmap_mono, sublist_filter. Qed.

Lemma positions_length {A} (xs : list A) (ns : list nat) : NoDup ns →
  length (filter (λ x : nat * A, x.1 ∈ ns) (imap pair xs)) ≤ length ns.
Proof.
  intros Hnd. rewrite <-(length_fmap fst). apply submseteq_length, NoDup_submseteq.
  - eapply sublist_NoDup; [|apply sublist_fmap_mono, sublist_filter].
    rewrite imap_pair_fst. apply NoDup_seq.
  - intros i ([j x]&->&[? _]%list_elem_of_filter)%list_elem_of_fmap. done.
Qed.

Lemma positions_elem {A} (P : nat * A → Prop) `{!∀ x, Decision (P x)} (xs : list A) x :
  x ∈ (filter P (imap pair xs)).*2 ↔ ∃ i, P (i, x) ∧ xs !! i = Some x.
Proof.
  rewrite list_elem_of_fmap. split.
  - intros ([i y]&->&[HP (j&z&[= -> ->]&Hj)%elem_of_lookup_imap]%list_elem_of_filter). eauto.
  - intros (i&HP&Hi). exists (i, x). split; [done|]. apply list_elem_of_filter.
    split; [done|]. apply elem_of_lookup_imap. eauto.
Qed.

(** A sublist as long as the list is the list: the program compares lengths to
    tell whether a filter dropped anything. *)
Lemma sublist_length_eq {A} (l k : list A) : l `sublist_of` k → length k ≤ length l → l = k.
Proof.
  induction 1 as [|x l k H IH|x l k H IH]; simpl; intros Hlen; [done|f_equal; apply IH; lia|].
  apply sublist_length in H. lia.
Qed.

Lemma StronglySorted_lookup {A} (R : relation A) l j k x y :
  StronglySorted R l → l !! j = Some x → l !! k = Some y → j < k → R x y.
Proof.
  intros Hl. revert j k. induction Hl as [|z l Hl IH Hz]; intros j k Hj Hk Hlt; [done|].
  destruct k as [|k]; [lia|]. simpl in Hk. destruct j as [|j]; simplify_eq/=.
  - rewrite Forall_forall in Hz. by eapply Hz, list_elem_of_lookup_2.
  - apply (IH j k); [done..|lia].
Qed.

Lemma imap_pair_sorted {A} (xs : list A) : StronglySorted (λ a b, a.1 < b.1) (imap pair xs).
Proof.
  assert (∀ n, StronglySorted (λ a b : nat * A, a.1 < b.1) (imap (λ i x, (n + i, x)) xs)) as H.
  { induction xs as [|x xs IH]; intros n; simpl; [constructor|]. constructor.
    - erewrite imap_ext; [apply (IH (S n))|]. intros i y _. simpl. f_equal. lia.
    - apply Forall_forall. intros [j y] (i&z&[= -> ->]&_)%elem_of_lookup_imap. simpl. lia. }
  apply (H 0).
Qed.

(** What a filter by position leaves keeps the order of the positions. *)
Lemma positions_mono {A} (P : nat * A → Prop) `{!∀ x, Decision (P x)} (xs : list A) j k p q x y :
  filter P (imap pair xs) !! j = Some (p, x) → filter P (imap pair xs) !! k = Some (q, y) →
  p ≤ q → j ≤ k.
Proof.
  intros Hj Hk Hle. destruct (decide (j ≤ k)) as [|Hgt]; [done|].
  pose proof (StronglySorted_lookup _ _ k j _ _ (StronglySorted_filter _ P _ (imap_pair_sorted xs))
    Hk Hj ltac:(lia)) as Hlt. simpl in Hlt. lia.
Qed.

Lemma assoc_get_elem {K V} `{!EqDecision K} (k : K) (v : V) m : assoc_get k m = Some v → (k, v) ∈ m.
Proof.
  induction m as [|[k' v'] m IH]; simpl; [done|]. case_decide; intros; simplify_eq; set_solver.
Qed.

Lemma assoc_get_fmap {K V V'} `{!EqDecision K} (k : K) (f : V → V') (m : list (K * V)) :
  assoc_get k ((λ a, (a.1, f a.2)) <$> m) = f <$> assoc_get k m.
Proof. induction m as [|[k' v] m IH]; cbn; [done|]. by case_decide. Qed.

Lemma assoc_get_snoc {K V} `{!EqDecision K} (k : K) m (a : K * V) :
  assoc_get k (m ++ [a]) =
  match assoc_get k m with Some v => Some v | None => if decide (k = a.1) then Some a.2 else None end.
Proof. destruct a as [k0 v0]. induction m as [|[k' v] m IH]; cbn; [done|]. rewrite IH. repeat case_decide; done. Qed.

Lemma assoc_get_None {K V} `{!EqDecision K} (k : K) (m : list (K * V)) : assoc_get k m = None ↔ k ∉ m.*1.
Proof.
  induction m as [|[k' v] m IH]; cbn; [set_solver|]. rewrite not_elem_of_cons. case_decide; naive_solver.
Qed.

(** A run of [Map.set]s of one value. *)
Lemma assoc_get_sets {K V} `{!EqDecision K} (k : K) (v : V) ks m :
  assoc_get k (foldl (λ m k', assoc_set k' v m) m ks) = if decide (k ∈ ks) then Some v else assoc_get k m.
Proof.
  revert m. induction ks as [|k' ks IH]; intros m; cbn [foldl]; [by rewrite decide_False by set_solver|].
  rewrite IH, assoc_get_set. repeat case_decide; set_solver.
Qed.

Lemma js_dedup_snoc {A} `{!EqDecision A} (xs : list A) x :
  js_dedup (xs ++ [x]) = if decide (x ∈ xs) then js_dedup xs else js_dedup xs ++ [x].
Proof.
  induction xs as [|y xs IH]; cbn; [by rewrite decide_False by set_solver|]. rewrite IH.
  destruct (decide (x = y)) as [->|Hne].
  - rewrite (decide_True (P := y ∈ y :: xs)) by set_solver. f_equal. case_decide; [done|].
    rewrite filter_app, filter_cons_False, filter_nil, app_nil_r; naive_solver.
  - destruct (decide (x ∈ xs)); [by rewrite decide_True by set_solver|].
    rewrite decide_False by set_solver. rewrite filter_app, (filter_cons_True _ x); done.
Qed.

Lemma filter_js_dedup {A} `{!EqDecision A} (P : A → Prop) `{!∀ x, Decision (P x)} (xs : list A) :
  filter P (js_dedup xs) = js_dedup (filter P xs).
Proof.
  induction xs as [|x xs IH]; [done|]. cbn [js_dedup]. rewrite !filter_cons. case_decide as Hx; cbn [js_dedup].
  - f_equal. rewrite <- IH, !list_filter_filter. apply list_filter_iff. intros y. tauto.
  - rewrite <- IH, list_filter_filter. apply list_filter_iff. intros y. naive_solver.
Qed.

Lemma js_dedup_app {A} `{!EqDecision A} (xs ys : list A) :
  js_dedup (xs ++ ys) = js_dedup xs ++ filter (λ y, y ∉ xs) (js_dedup ys).
Proof.
  induction xs as [|x xs IH]; cbn [js_dedup app].
  - induction (js_dedup ys) as [|y zs IHz]; [done|]. rewrite filter_cons_True by set_solver. by f_equal.
  - rewrite IH, filter_app. do 2 f_equal. rewrite list_filter_filter. apply list_filter_iff. set_solver.
Qed.
