(* ===== verification/Json.v ===== *)
(** * JSON values

    The values a stored body, a decrypted payload and a wire document carry.
    A JavaScript string is represented by its UTF-8 text, a number by the
    rational it denotes (every finite double is one), and an object by its
    members in insertion order. [undefined] is the absence of a value, so an
    optional member is an [option json]. *)

From S2P Require Import Prelude.
From Stdlib Require QArith_base.

#[local] Set Warnings "-register-all".

Abbreviation Q := QArith_base.Q.

Inductive json :=
  | JNull
  | JBool (b : bool)
  | JNum (q : Q)
  | JStr (s : string)
  | JArr (xs : list json)
  | JObj (members : list (string * json)).

(** The induction principle that reaches the elements of an array and the
    members of an object. *)
Section json_ind.
Variable P : json → Prop.
Hypothesis Hnull : P JNull.
Hypothesis Hbool : ∀ b, P (JBool b).
Hypothesis Hnum : ∀ q, P (JNum q).
Hypothesis Hstr : ∀ s, P (JStr s).
Hypothesis Harr : ∀ xs, Forall P xs → P (JArr xs).
Hypothesis Hobj : ∀ ms, Forall (λ m, P m.2) ms → P (JObj ms).

Fixpoint json_ind' (j : json) : P j :=
  match j with
  | JNull => Hnull
  | JBool b => Hbool b
  | JNum q => Hnum q
  | JStr s => Hstr s
  | JArr xs => Harr xs
      ((fix go l := match l return Forall P l with
                    | [] => Forall_nil_2 P
                    | x :: l => Forall_cons_2 P x l (json_ind' x) (go l)
                    end) xs)
  | JObj ms => Hobj ms
      ((fix go l := match l return Forall (λ m, P m.2) l with
                    | [] => Forall_nil_2 _
                    | m :: l => Forall_cons_2 (λ m, P m.2) m l (json_ind' m.2) (go l)
                    end) ms)
  end.
End json_ind.

#[export] Instance Q_eq_dec : EqDecision Q.
Proof. solve_decision. Defined.

#[export] Instance json_eq_dec : EqDecision json.
Proof.
  refine (fix go (x y : json) : Decision (x = y) :=
    match x, y return Decision (x = y) with
    | JNull, JNull => left eq_refl
    | JBool a, JBool b => cast_if (decide (a = b))
    | JNum a, JNum b => cast_if (decide (a = b))
    | JStr a, JStr b => cast_if (decide (a = b))
    | JArr a, JArr b => cast_if (@list_eq_dec json go a b)
    | JObj a, JObj b => cast_if (@list_eq_dec (string * json)
        (@prod_eq_dec string _ json go) a b)
    | _, _ => right _
    end); clear go; abstract congruence.
Defined.

(** [value !== undefined && value !== null]: the value, when there is one. *)
Definition present (v : option json) : option json :=
  match v with
  | None | Some JNull => None
  | Some j => Some j
  end.

(** ** Objects

    [o.k], [{...o, k: v}] and [delete o.k] over the members of an object. *)
Definition members : Type := list (string * json).

Fixpoint get_member (k : string) (o : members) : option json :=
  match o with
  | [] => None
  | (k', v) :: o => if decide (k = k') then Some v else get_member k o
  end.

Fixpoint set_member (k : string) (v : json) (o : members) : members :=
  match o with
  | [] => [(k, v)]
  | (k', v') :: o =>
      if decide (k = k') then (k, v) :: o else (k', v') :: set_member k v o
  end.

Fixpoint delete_member (k : string) (o : members) : members :=
  match o with
  | [] => []
  | (k', v') :: o =>
      if decide (k = k') then delete_member k o else (k', v') :: delete_member k o
  end.

(** [{...o, ...p}]. *)
Definition spread (o p : members) : members :=
  foldl (λ o m, set_member m.1 m.2 o) o p.

(** [v !== null && typeof v === 'object'], and the members it is read by: an
    array is an object that has none of them. *)
Definition js_object (v : option json) : option members :=
  match v with Some (JObj o) => Some o | Some (JArr _) => Some [] | _ => None end.

Lemma get_set_member_eq k v o : get_member k (set_member k v o) = Some v.
Proof. induction o as [|[k' v'] o IH]; simpl; repeat (case_decide; simpl); done. Qed.

Lemma get_set_member_ne k k' v o :
  k ≠ k' → get_member k (set_member k' v o) = get_member k o.
Proof.
  intros. induction o as [|[k1 v1] o IH]; simpl; repeat (case_decide; simplify_eq/=); done.
Qed.

Lemma get_delete_member_eq k o : get_member k (delete_member k o) = None.
Proof. induction o as [|[k' v'] o IH]; simpl; repeat (case_decide; simpl); done. Qed.

Lemma get_delete_member_ne k k' o :
  k ≠ k' → get_member k (delete_member k' o) = get_member k o.
Proof.
  intros. induction o as [|[k1 v1] o IH]; simpl; repeat (case_decide; simplify_eq/=); done.
Qed.

Lemma get_spread_notin k o p :
  k ∉ p.*1 → get_member k (spread o p) = get_member k o.
Proof.
  revert o. induction p as [|[k' v'] p IH]; intros o Hk; [done|]. simpl.
  rewrite IH by set_solver. apply get_set_member_ne. set_solver.
Qed.

Lemma set_member_set_member k v o : set_member k v (set_member k v o) = set_member k v o.
Proof.
  induction o as [|[k' v'] o IH]; simpl; [by rewrite decide_True|].
  case_decide; simpl; [by rewrite decide_True|]. by rewrite decide_False, IH by done.
Qed.

Lemma delete_member_absent k o : get_member k o = None → delete_member k o = o.
Proof.
  induction o as [|[k' v'] o IH]; simpl; [done|]. case_decide; [done|]. intros Hn. by rewrite IH.
Qed.
