(* ===== verification/SyncPull.v ===== *)
(** * The replication engine's seams

    The wire types and the two interfaces of [src/src/sync/types.ts]: the
    server port [PwsSyncPort], which the storage client implements, and the
    replica-side [SyncStore]. Every method is a computation over the world
    type [W], so a method may change any part of the world, a local write
    landing while it runs included. *)

From S2P Require Import Prelude Json.

(** A feed position, issued by the server and compared by equality only. *)
Abbreviation SyncCheckpoint := string.

(** One document of the changes feed, with the members this engine reads. *)
Record WireDoc := {
  doc_id : string;
  doc_deleted : bool;
  doc_updatedAt : string;
  doc_checkpoint : SyncCheckpoint;
  doc_etag : option string;
  doc_writerId : option string;
  doc_data : option json
}.

(** The server's current state of a live resource. *)
Record MasterState := {
  master_etag : option string;
  master_updatedAt : string;
  master_data : option json
}.

(** What a write the server accepted answers with. *)
Record WriteAck := { ack_etag : option string }.

(** A store's own revision token: a string or a counter. *)
Inductive revision_token :=
  | RevString (s : string)
  | RevNumber (n : Z).

#[export] Instance revision_token_eq_dec : EqDecision revision_token.
Proof. solve_decision. Defined.

(** A dirty resource replica awaiting push. [data] is [JNull] for a
    tombstone. *)
Record SyncedResourceReplica := {
  rep_id : string;
  rep_acked : bool;
  rep_etag : option string;
  rep_updatedAt : string;
  rep_deleted : bool;
  rep_data : json;
  rep_revision : option revision_token
}.

(** What a pulled or reconciled document does to the decrypted read-model. *)
Inductive ProjectionAction :=
  | ProjUpsert (payload : json)
  | ProjDelete
  | ProjNone.

#[export] Instance ProjectionAction_eq_dec : EqDecision ProjectionAction.
Proof. solve_decision. Defined.

(** A conditional content write: [If-Match] over [put_ifMatch], or create-only
    under [put_ifNoneMatch]. *)
Record PutRequest := {
  put_id : string;
  put_data : json;
  put_ifMatch : option string;
  put_ifNoneMatch : bool;
  put_writerId : option string
}.

Record DeleteRequest := {
  del_id : string;
  del_ifMatch : option string;
  del_writerId : option string
}.

(** The storage client's port for one feed. *)
Record PwsSyncPort (W : Type) := {
  port_query : option SyncCheckpoint → nat → comp W (list WireDoc * option SyncCheckpoint);
  port_putContent : PutRequest → comp W WriteAck;
  port_deleteContent : DeleteRequest → comp W (option WriteAck);
  port_get : string → comp W (option MasterState)
}.
Arguments port_query {W}.
Arguments port_putContent {W}.
Arguments port_deleteContent {W}.
Arguments port_get {W}.

(** The 412 policy of a mutable collection. *)
Definition ResolveConflict (W : Type) : Type := string → json → comp W ().

(** The local-persistence seam, pre-bound to one feed. *)
Record SyncStore (W : Type) := {
  getCheckpoint : comp W (option SyncCheckpoint);
  getDirtyResourceReplicas : comp W (list SyncedResourceReplica);
  applyPulledPage :
    list WireDoc → SyncCheckpoint → gmap string ProjectionAction → comp W ();
  markPushed : string → option string → option revision_token → comp W ();
  markDeletedPushed : string → option string → option revision_token → comp W ();
  adoptLatest : string → option MasterState → ProjectionAction → comp W ();
  heldRevisions : option (list (string * string) → comp W (gset string));
  replacePending :
    option (string → string → json → option revision_token → comp W bool)
}.
Arguments getCheckpoint {W}.
Arguments getDirtyResourceReplicas {W}.
Arguments applyPulledPage {W}.
Arguments markPushed {W}.
Arguments markDeletedPushed {W}.
Arguments adoptLatest {W}.
Arguments heldRevisions {W}.
Arguments replacePending {W}.

(** The classifiers the storage client exports beside its error classes. The
    client documents them as matching the classes' names, which differ, so
    no error is two signals at once. *)
Class SyncSignals := {
  isSyncConflictError : js_error → bool;
  isSyncNotFoundError : js_error → bool;
  isIntegrityError : js_error → bool;
  isUnknownEpochError : js_error → bool
}.

(** The wallet's log sink. A sink the app installs may throw. *)
Record Logger (W : Type) := {
  log_warn : string → string → comp W ()
}.
Arguments log_warn {W}.

(** A sink that never throws, as the package's own console sink. *)
Class QuietLogger {W} (log : Logger W) : Prop :=
  log_warn_quiet : ∀ msg id w, ∃ w', log_warn log msg id w = (Ok (), w').

(** [signal?.aborted]: an absent signal reads as not aborted. *)
Definition AbortSignal (W : Type) : Type := option (W → bool).

Definition aborted {W} (signal : AbortSignal W) : comp W bool :=
  gets (λ w, match signal with Some s => s w | None => false end).

(** * The pull loop

    [src/src/sync/pull.ts]: the projection of one pulled document, echo
    suppression, and the loop that pages the changes feed into the store. *)

Section Pull.
Context {W : Type} `{!SyncSignals} (log : Logger W).

Definition projectionForDoc (doc : WireDoc)
    (decryptDoc : string → json → comp W json)
    (validatePayload : option (json → result bool)) : comp W ProjectionAction :=
  if doc_deleted doc then mret ProjDelete
  else match present (doc_data doc) with
  | None => mret ProjNone
  | Some data =>
      try_catch
        (payload ← decryptDoc (doc_id doc) data;
         valid ← match validatePayload with
                 | Some validate => lift (validate payload)
                 | None => mret true
                 end;
         if valid : bool then mret (ProjUpsert payload)
         else
           log_warn log "Skipping malformed synced document (no projection)" (doc_id doc);;
           mret ProjNone)
        (λ err,
           if isIntegrityError err then
             log_warn log "Skipping synced document sealed for another resource id (no projection)"
               (doc_id doc);;
             mret ProjNone
           else
             log_warn log "Skipping undecryptable synced document (no projection)" (doc_id doc);;
             mret ProjNone)
  end.

Definition sameCheckpoint (left : option SyncCheckpoint) (right : option SyncCheckpoint) : bool :=
  match left, right with
  | Some l, Some r => bool_decide (l = r)
  | _, _ => false
  end.

(** The page's own-writer candidates: live, with an [etag], labelled
    [writerId]. *)
Definition echoCandidates (writerId : string) (documents : list WireDoc) : list (string * string) :=
  omap (λ doc,
    match doc_etag doc with
    | Some etag =>
        if negb (doc_deleted doc) && bool_decide (doc_writerId doc = Some writerId)
        then Some (doc_id doc, etag) else None
    | None => None
    end) documents.

Definition heldEchoes (store : SyncStore W) (documents : list WireDoc)
    (writerId : option string) : comp W (gset string) :=
  match writerId, heldRevisions store with
  | Some writerId, Some held =>
      let candidates := echoCandidates writerId documents in
      match candidates with
      | [] => mret ∅
      | _ =>
          confirmed ← held candidates;
          mret (list_to_set (filter (λ id, id ∈ confirmed) candidates.*1))
      end
  | _, _ => mret ∅
  end.

Record PullResult := { applied : nat; suppressed : nat }.

(** One turn of the loop in [runPull]. *)
Definition pullRound (port : PwsSyncPort W) (store : SyncStore W) (batchSize : nat)
    (decryptDoc : string → json → comp W json)
    (validatePayload : option (json → result bool))
    (writerId : option string) (signal : AbortSignal W)
    (acc : PullResult) : comp W (round PullResult) :=
  stop ← aborted signal;
  if stop : bool then mret (Break acc) else
  checkpoint ← getCheckpoint store;
  page ← port_query port checkpoint batchSize;
  let '(documents, next) := page in
  match documents, next with
  | [], _ | _, None => mret (Break acc)
  | _, Some next =>
      held ← heldEchoes store documents writerId;
      actions ← promise_all (λ doc,
        if decide (doc_id doc ∈ held) then mret ProjNone
        else projectionForDoc doc decryptDoc validatePayload) documents;
      let projections := mapOfEntries (zip (doc_id <$> documents) actions) in
      stop ← aborted signal;
      if stop : bool then mret (Break acc) else
      applyPulledPage store documents next projections;;
      let acc := {| applied := applied acc + length documents;
                    suppressed := suppressed acc + size held |} in
      if sameCheckpoint checkpoint (Some next) then mret (Break acc)
      else mret (Continue acc)
  end.

(** [None] is the fuel running out. *)
Definition runPull (fuel : nat) (port : PwsSyncPort W) (store : SyncStore W)
    (batchSize : nat) (decryptDoc : string → json → comp W json)
    (validatePayload : option (json → result bool))
    (writerId : option string) (signal : AbortSignal W) : comp W (option PullResult) :=
  loop fuel
    (pullRound port store batchSize decryptDoc validatePayload writerId signal)
    {| applied := 0; suppressed := 0 |}.
End Pull.

(** ** What one document projects to

    The outcome of the decrypt and of the payload guard decide the action;
    no outcome of either escapes as a throw. *)
Definition projectionSpec (validatePayload : option (json → result bool))
    (doc : WireDoc) (decrypted : result json) : ProjectionAction :=
  if doc_deleted doc then ProjDelete
  else match present (doc_data doc) with
  | None => ProjNone
  | Some _ =>
      match decrypted with
      | Throw _ => ProjNone
      | Ok payload =>
          match validatePayload with
          | None => ProjUpsert payload
          | Some validate =>
              match validate payload with
              | Ok true => ProjUpsert payload
              | _ => ProjNone
              end
          end
      end
  end.

(** ** The environment a pull runs in

    What a pull relies on, as an interface: the server's feed, the store's
    cursor and reconciled state, and the seams between them. [at_view s] is
    the set of worlds whose feed, cursor and replica are those of [s]. *)
Record PullView (R : Type) := {
  pv_feed : list WireDoc;
  pv_cursor : option SyncCheckpoint;
  pv_replica : R
}.
Arguments pv_feed {R}.
Arguments pv_cursor {R}.
Arguments pv_replica {R}.

Class PullEnv (W R : Type) := {
  pull_view : W → PullView R;
  (** The server's order on the positions it issues. *)
  feed_position : SyncCheckpoint → nat;
  (** Reconciling one document, with its projection action, into the replica. *)
  reconcile : R → WireDoc → ProjectionAction → R;
  (** The replica records exactly this validator for the resource. *)
  holds_revision : R → string → string → Prop;
  (** The outcome of opening an envelope addressed to a resource id. *)
  open_envelope : string → json → result json;
  (** The payload guard of the collection. *)
  payload_guard : option (json → result bool);
  (** What ties the replica to the feed between pages. *)
  feed_invariant : list WireDoc → R → Prop;
  (** The errors a network or storage seam may raise. *)
  seam_error : js_error → Prop
}.

(** The documents of the feed past the cursor. *)
Definition pv_rest {W R} `{!PullEnv W R} (s : PullView R) : list WireDoc :=
  match pv_cursor s with
  | None => pv_feed s
  | Some c => filter (λ d, feed_position c < feed_position (doc_checkpoint d)) (pv_feed s)
  end.

Definition at_view {W R} `{!PullEnv W R} (s : PullView R) (w : W) : Prop := pull_view w = s.
Definition failed_at {W R} `{!PullEnv W R} (s : PullView R) (e : js_error) (w : W) : Prop :=
  seam_error e ∧ at_view s w.

(** The action a document of the feed reconciles with. *)
Definition doc_action {W R} `{!PullEnv W R} (doc : WireDoc) : ProjectionAction :=
  projectionSpec payload_guard doc
    (open_envelope (doc_id doc) (default JNull (doc_data doc))).

Definition reconcile_all {W R} `{!PullEnv W R} : R → list WireDoc → R :=
  foldl (λ r d, reconcile r d (doc_action d)).

(** The contracts of the seams. *)
Class PullContract {W R} `{!PullEnv W R} (log : Logger W) (port : PwsSyncPort W)
    (store : SyncStore W) (decryptDoc : string → json → comp W json) : Prop := {
  (** A page is a non-empty prefix of what is past the position, at most the
      size the server clamps to, with the position of its last document. *)
  query_page (s : PullView R) limit : 0 < limit →
    triple (at_view s) (port_query port (pv_cursor s) limit)
      (λ page w, at_view s w ∧ ∃ k, page.1 = take k (pv_rest s) ∧
         (pv_rest s ≠ [] → page.1 ≠ []) ∧ page.2 = doc_checkpoint <$> last page.1)
      (failed_at s);
  checkpoint_read (s : PullView R) :
    triple (at_view s) (getCheckpoint store)
      (λ c w, c = pv_cursor s ∧ at_view s w) (failed_at s);
  (** One transaction: the page is reconciled in order and the cursor moves,
      or nothing happens. *)
  page_applied (s : PullView R) documents next projections :
    triple (at_view s) (applyPulledPage store documents next projections)
      (λ _, at_view {| pv_feed := pv_feed s; pv_cursor := Some next;
              pv_replica := foldl (λ r d, reconcile r d
                 (default ProjNone (projections !! doc_id d))) (pv_replica s) documents |})
      (failed_at s);
  (** The cipher opens outside the store and always answers the same. *)
  decrypt_pure (s : PullView R) id envelope w : at_view s w →
    (decryptDoc id envelope w).1 = open_envelope id envelope ∧
    at_view s (decryptDoc id envelope w).2;
  log_pure (s : PullView R) msg id :
    triple (at_view s) (log_warn log msg id) (λ _, at_view s) (λ _ _, False);
  (** The store confirms only revisions it records. *)
  held_truthful (s : PullView R) held asked : heldRevisions store = Some held →
    NoDup (fst <$> asked) →
    triple (at_view s) (held asked)
      (λ ids w, at_view s w ∧ ∀ id etag, (id, etag) ∈ asked → id ∈ ids →
         holds_revision (pv_replica s) id etag)
      (failed_at s);
  (** The projection already reflects a revision the replica records. *)
  echo_reflected feed r d etag : feed_invariant feed r → d ∈ feed →
    doc_etag d = Some etag → holds_revision r (doc_id d) etag →
    reconcile r d ProjNone = reconcile r d (doc_action d);
  held_stable r d a id etag : id ≠ doc_id d →
    holds_revision (reconcile r d a) id etag ↔ holds_revision r id etag;
  invariant_reconciled feed r d : feed_invariant feed r → d ∈ feed →
    feed_invariant feed (reconcile r d (doc_action d))
}.

(** The view after the first [n] documents past the cursor. *)
Definition advance {W R} `{!PullEnv W R} (n : nat) (s : PullView R) : PullView R := {|
  pv_feed := pv_feed s;
  pv_cursor := match last (take n (pv_rest s)) with
               | Some d => Some (doc_checkpoint d)
               | None => pv_cursor s
               end;
  pv_replica := reconcile_all (pv_replica s) (take n (pv_rest s))
|}.

(** A feed lists each resource once, in the order of its positions. *)
Definition before {W R} `{!PullEnv W R} (d d' : WireDoc) : Prop :=
  feed_position (doc_checkpoint d) < feed_position (doc_checkpoint d').
Definition well_formed_feed {W R} `{!PullEnv W R} (feed : list WireDoc) : Prop :=
  NoDup (doc_id <$> feed) ∧ StronglySorted before feed.

(** ** Positions in the feed *)

Section Positions.
Context {W R : Type} `{!PullEnv W R}.
Implicit Types s : PullView R.

Lemma after_suffix (n : nat) feed : StronglySorted before feed →
  ∃ pre, feed = pre ++ filter (λ d, n < feed_position (doc_checkpoint d)) feed.
Proof.
  induction feed as [|d feed IH]; intros Hs; [by exists []|].
  apply StronglySorted_cons in Hs as [Hd Hs]. rewrite filter_cons. case_decide as Hn.
  - exists []. simpl. f_equal. symmetry. apply filter_all.
    rewrite Forall_forall in Hd. intros d' Hd'%Hd. unfold before in Hd'. lia.
  - destruct (IH Hs) as [pre Hpre]. exists (d :: pre). simpl. by f_equal.
Qed.

Lemma after_middle pre d post : StronglySorted before (pre ++ d :: post) →
  filter (λ d', feed_position (doc_checkpoint d) < feed_position (doc_checkpoint d'))
    (pre ++ d :: post) = post.
Proof.
  intros Hs. rewrite filter_app, filter_cons, decide_False by lia.
  rewrite filter_none; [simpl; apply filter_all|].
  - apply StronglySorted_app_1_r, StronglySorted_cons in Hs as [Hs _].
    by rewrite Forall_forall in Hs.
  - intros d' Hd'.
    assert (before d' d) as Hb by (eapply StronglySorted_app_1_elem_of; [done|done|by left]).
    unfold before in Hb. lia.
Qed.

Lemma pv_rest_suffix s : well_formed_feed (pv_feed s) →
  ∃ pre, pv_feed s = pre ++ pv_rest s.
Proof.
  intros [_ Hs]. unfold pv_rest. destruct (pv_cursor s) as [c|]; [|by exists []].
  by apply after_suffix.
Qed.

Lemma pv_rest_subseteq s d : d ∈ pv_rest s → d ∈ pv_feed s.
Proof.
  unfold pv_rest. destruct (pv_cursor s); [|done]. by intros [_ ?]%list_elem_of_filter.
Qed.

Lemma pv_rest_NoDup s :
  well_formed_feed (pv_feed s) → NoDup (doc_id <$> pv_rest s).
Proof.
  intros Hwf. destruct (pv_rest_suffix s Hwf) as [pre Hpre]. destruct Hwf as [Hnd _].
  rewrite Hpre, fmap_app in Hnd. by apply NoDup_app in Hnd as (_&_&?).
Qed.

Lemma advance_0 s : advance 0 s = s.
Proof. by destruct s. Qed.

Lemma advance_min n s : advance (n `min` length (pv_rest s)) s = advance n s.
Proof. unfold advance. by rewrite <-take_take, (take_ge _ (length _)). Qed.

Lemma advance_rest n s :
  well_formed_feed (pv_feed s) → pv_rest (advance n s) = drop n (pv_rest s).
Proof.
  intros Hwf. destruct (pv_rest_suffix s Hwf) as [pre Hpre]. destruct Hwf as [_ Hs].
  unfold pv_rest at 1, advance; simpl.
  destruct (last (take n (pv_rest s))) as [d|] eqn:Hlast.
  - apply last_Some in Hlast as [l' Hl]. pose proof (take_drop n (pv_rest s)) as Htd.
    rewrite Hl in Htd.
    assert (pv_feed s = (pre ++ l') ++ d :: drop n (pv_rest s)) as Heq
      by (rewrite Hpre at 1; rewrite <-Htd at 1; by rewrite <-!app_assoc).
    rewrite Heq in Hs |- *. by apply after_middle.
  - apply last_None in Hlast. change (pv_rest s = drop n (pv_rest s)).
    pose proof (take_drop n (pv_rest s)) as Htd. by rewrite Hlast in Htd.
Qed.

Lemma advance_advance m n s :
  well_formed_feed (pv_feed s) → advance m (advance n s) = advance (n + m) s.
Proof.
  intros Hwf. unfold advance at 1. rewrite advance_rest by done. unfold advance; simpl.
  rewrite <-(take_take_drop (pv_rest s) n m). unfold reconcile_all. rewrite foldl_app. f_equal.
  rewrite last_app. by destruct (last (take m _)).
Qed.

(** A position past the cursor is never the cursor again. *)
Lemma rest_cursor_fresh s d : d ∈ pv_rest s → pv_cursor s ≠ Some (doc_checkpoint d).
Proof.
  intros Hd Hc. unfold pv_rest in Hd. rewrite Hc in Hd.
  apply list_elem_of_filter in Hd as [? _]. lia.
Qed.
End Positions.

(** ** One document, one page *)

Section PullProofs.
Context {W R : Type} `{!SyncSignals} `{!PullEnv W R}.
Context {log : Logger W} {port : PwsSyncPort W} {store : SyncStore W}.
Context {decryptDoc : string → json → comp W json}.
Context `{!PullContract log port store decryptDoc}.
Implicit Types s : PullView R.

Lemma log_run s msg id w : at_view s w →
  ∃ w', log_warn log msg id w = (Ok (), w') ∧ at_view s w'.
Proof.
  intros Hw. pose proof (log_pure s msg id w Hw) as Hl.
  destruct (log_warn log msg id w) as [[[]|e] w']; [by exists w'|done].
Qed.

Lemma log_then_run {A} s msg id (a : A) w : at_view s w →
  ∃ w', (log_warn log msg id;; mret a) w = (Ok a, w') ∧ at_view s w'.
Proof.
  intros Hw. destruct (log_run s msg id w Hw) as (w'&Hl&Hv). exists w'.
  unfold mbind, comp_bind. by rewrite Hl.
Qed.

Lemma projectionForDoc_run s doc w : at_view s w →
  ∃ w', projectionForDoc log doc decryptDoc payload_guard w = (Ok (doc_action doc), w') ∧
    at_view s w'.
Proof.
  intros Hw. unfold projectionForDoc, doc_action, projectionSpec.
  destruct (doc_deleted doc); [by exists w|].
  destruct (doc_data doc) as [data|]; [|by exists w].
  destruct (present (Some data)) as [data'|] eqn:Hdata; [|by exists w].
  replace data' with data by (by destruct data; simplify_eq/=). simpl default.
  destruct (decrypt_pure s (doc_id doc) data w Hw) as [He Hv].
  unfold try_catch, mbind, comp_bind.
  destruct (decryptDoc (doc_id doc) data w) as [[p|e] w1]; simpl in *; rewrite <-He.
  2: destruct (isIntegrityError e); by apply log_then_run.
  destruct payload_guard as [v|]; simpl; [|by exists w1].
  unfold lift. destruct (v p) as [[|]|e].
  - by exists w1.
  - edestruct log_run as (w2&->&?); [done|]. by exists w2.
  - destruct (isIntegrityError e); by apply log_then_run.
Qed.

Lemma echoCandidates_elem me documents id etag :
  (id, etag) ∈ echoCandidates me documents →
  ∃ d, d ∈ documents ∧ doc_id d = id ∧ doc_etag d = Some etag ∧
    doc_deleted d = false ∧ doc_writerId d = Some me.
Proof.
  unfold echoCandidates. rewrite list_elem_of_omap. intros (d&Hd&He). exists d.
  destruct (doc_etag d); [|done].
  destruct (doc_deleted d); simplify_eq/=. case_bool_decide; naive_solver.
Qed.

Lemma echoCandidates_NoDup me documents :
  NoDup (doc_id <$> documents) → NoDup (fst <$> echoCandidates me documents).
Proof.
  unfold echoCandidates. induction documents as [|d documents IH]; [by constructor|].
  rewrite fmap_cons. intros [Hd Hnd]%NoDup_cons. simpl.
  destruct (doc_etag d) as [etag|]; [|by apply IH].
  destruct (negb _ && _); [|by apply IH]. rewrite fmap_cons. constructor; [|by apply IH].
  intros ([id e]&Hid&Hin)%list_elem_of_fmap. simpl in Hid. subst id.
  destruct (echoCandidates_elem me documents (doc_id d) e) as (d'&Hd'&Hid&_); [done|].
  apply Hd. rewrite <-Hid. by apply list_elem_of_fmap_2.
Qed.

Lemma heldEchoes_triple s documents writerId : NoDup (doc_id <$> documents) →
  triple (at_view s) (heldEchoes store documents writerId)
    (λ held w, (∀ d, d ∈ documents → doc_id d ∈ held →
       ∃ etag, doc_etag d = Some etag ∧ holds_revision (pv_replica s) (doc_id d) etag) ∧
       at_view s w) (failed_at s).
Proof.
  intros Hnd. unfold heldEchoes.
  destruct writerId as [me|]; [|apply triple_ret; set_solver].
  destruct (heldRevisions store) as [held|] eqn:Hheld; [|apply triple_ret; set_solver].
  destruct (echoCandidates me documents) as [|c cs] eqn:Hc; [apply triple_ret; set_solver|].
  rewrite <-Hc.
  eapply triple_bind; [by apply held_truthful; [|by apply echoCandidates_NoDup]|].
  intros confirmed. apply triple_ret. intros w [Hw Hconf]. split; [|done].
  intros d Hd Hin. rewrite elem_of_list_to_set, list_elem_of_filter, list_elem_of_fmap in Hin.
  destruct Hin as [Hin ([id etag]&Hid&Hcand)]. simpl in Hid. subst id.
  destruct (echoCandidates_elem _ _ _ _ Hcand) as (d'&Hd'&Hid&He&_).
  replace d with d' by (by eapply NoDup_fmap_eq). exists etag. split; [done|].
  rewrite Hid. by apply Hconf.
Qed.

(** The action the loop collects for a document of a page. *)
Definition page_action (held : gset string) (doc : WireDoc) : ProjectionAction :=
  if decide (doc_id doc ∈ held) then ProjNone else doc_action doc.

Lemma actions_triple s (held : gset string) documents :
  triple (at_view s)
    (promise_all (λ doc,
        if decide (doc_id doc ∈ held) then mret ProjNone
        else projectionForDoc log doc decryptDoc payload_guard) documents)
    (λ acts w, acts = page_action held <$> documents ∧ at_view s w) (failed_at s).
Proof.
  apply triple_promise_all. intros doc w Hw. unfold page_action.
  case_decide; [done|]. by destruct (projectionForDoc_run s doc w Hw) as (w'&->&?).
Qed.

(** Suppressing a held echo reconciles to the same replica. *)
Lemma reconcile_page held feed r documents :
  NoDup (doc_id <$> documents) → (∀ d, d ∈ documents → d ∈ feed) → feed_invariant feed r →
  (∀ d, d ∈ documents → doc_id d ∈ held →
     ∃ etag, doc_etag d = Some etag ∧ holds_revision r (doc_id d) etag) →
  foldl (λ r d, reconcile r d (page_action held d)) r documents = reconcile_all r documents ∧
  feed_invariant feed (reconcile_all r documents).
Proof.
  revert r. induction documents as [|d documents IH]; intros r Hnd Hin Hinv Hheld; [done|].
  apply NoDup_cons in Hnd as [Hd Hnd]. simpl.
  assert (reconcile r d (page_action held d) = reconcile r d (doc_action d)) as Heq.
  { unfold page_action. case_decide as Hh; [|done].
    destruct (Hheld d) as (etag&?&?); [set_solver..|].
    eapply echo_reflected; [done|apply Hin; set_solver|done..]. }
  rewrite Heq. apply IH; [done|set_solver|by apply invariant_reconciled; [|apply Hin; set_solver]|].
  intros d' Hd' Hh. destruct (Hheld d') as (etag&?&?); [set_solver..|]. exists etag.
  split; [done|]. apply held_stable; [|done]. intros Hid. apply Hd. rewrite <-Hid.
  by apply list_elem_of_fmap_2.
Qed.

Lemma page_fold (held : gset string) r documents :
  NoDup (doc_id <$> documents) →
  foldl (λ r d, reconcile r d (default ProjNone
     (mapOfEntries (zip (doc_id <$> documents) (page_action held <$> documents)) !! doc_id d)))
    r documents =
  foldl (λ r d, reconcile r d (page_action held d)) r documents.
Proof.
  intros Hnd.
  assert (∀ d, d ∈ documents → default ProjNone
     (mapOfEntries (zip (doc_id <$> documents) (page_action held <$> documents)) !! doc_id d)
     = page_action held d) as Hl.
  { intros d Hd. erewrite mapOfEntries_lookup; [done|by rewrite fst_zip_fmap|].
    by apply elem_of_zip_fmap. }
  revert Hl. generalize (zip (doc_id <$> documents) (page_action held <$> documents)) as es.
  clear Hnd. revert r. induction documents as [|d documents IH]; intros r es Hl; [done|].
  simpl. rewrite Hl by set_solver. apply IH. set_solver.
Qed.

(** A page that is a prefix of the rest moves the view forward by its length. *)
Lemma page_view s held k next :
  well_formed_feed (pv_feed s) → feed_invariant (pv_feed s) (pv_replica s) →
  doc_checkpoint <$> last (take k (pv_rest s)) = Some next →
  (∀ d, d ∈ take k (pv_rest s) → doc_id d ∈ held →
     ∃ etag, doc_etag d = Some etag ∧ holds_revision (pv_replica s) (doc_id d) etag) →
  {| pv_feed := pv_feed s; pv_cursor := Some next;
     pv_replica := foldl (λ r d, reconcile r d (page_action held d)) (pv_replica s)
                     (take k (pv_rest s)) |} = advance k s ∧
  feed_invariant (pv_feed s) (pv_replica (advance k s)).
Proof.
  intros Hwf Hinv Hlast Hheld. unfold advance; simpl.
  assert (NoDup (doc_id <$> take k (pv_rest s))) as Hnd.
  { pose proof (pv_rest_NoDup s Hwf) as Hnd. rewrite <-(take_drop k (pv_rest s)), fmap_app in Hnd.
    by apply NoDup_app in Hnd as [? _]. }
  assert (∀ d, d ∈ take k (pv_rest s) → d ∈ pv_feed s) as Hsub.
  { intros d Hd. apply pv_rest_subseteq. rewrite <-(take_drop k (pv_rest s)). set_solver. }
  destruct (reconcile_page held (pv_feed s) _ _ Hnd Hsub Hinv Hheld) as [-> ?].
  split; [|done]. destruct (last _); by simplify_eq/=.
Qed.

Lemma advance_invariant n s :
  feed_invariant (pv_feed s) (pv_replica s) →
  feed_invariant (pv_feed s) (pv_replica (advance n s)).
Proof.
  unfold advance; simpl. assert (∀ d, d ∈ take n (pv_rest s) → d ∈ pv_feed s) as Hin.
  { intros d Hd. apply pv_rest_subseteq. rewrite <-(take_drop n (pv_rest s)). set_solver. }
  revert Hin. generalize (pv_replica s), (pv_feed s), (take n (pv_rest s)) as ds.
  intros r feed ds. revert r. induction ds as [|d ds IH]; intros r Hin Hr; [done|].
  simpl. apply IH; [set_solver|]. apply invariant_reconciled; [done|]. set_solver.
Qed.

(** The loop's invariant: the world is where the first [applied acc]
    documents past the start put it. *)
Definition pull_at s (acc : PullResult) (w : W) : Prop :=
  applied acc ≤ length (pv_rest s) ∧ at_view (advance (applied acc) s) w ∧
  feed_invariant (pv_feed s) (pv_replica (advance (applied acc) s)).

Definition pull_failed s (e : js_error) (w : W) : Prop :=
  ∃ n, n ≤ length (pv_rest s) ∧ failed_at (advance n s) e w.

Lemma pull_failed_intro s n e w :
  n ≤ length (pv_rest s) → failed_at (advance n s) e w → pull_failed s e w.
Proof. intros; by exists n. Qed.

Context (batchSize : nat) (writerId : option string) (signal : AbortSignal W).
Context (Hbatch : 0 < batchSize).

(** What one turn does from a view: it reconciles the next [m] documents,
    at least one if it goes round again, and all of them if it leaves
    without an abort. *)
Definition round_post s acc (r : round PullResult) (w : W) : Prop :=
  ∃ m, m ≤ length (pv_rest s) ∧ at_view (advance m s) w ∧
    feed_invariant (pv_feed s) (pv_replica (advance m s)) ∧
    match r with
    | Continue acc' => applied acc' = applied acc + m ∧ 0 < m
    | Break acc' => applied acc' = applied acc + m ∧
                    (signal = None → m = length (pv_rest s))
    end.

Lemma round_post_stay s acc w :
  feed_invariant (pv_feed s) (pv_replica s) → at_view s w →
  (signal = None → pv_rest s = []) → round_post s acc (Break acc) w.
Proof.
  intros Hinv Hw Hsig. exists 0. rewrite !advance_0. repeat split; [lia|done..|lia|].
  intros ->%Hsig. done.
Qed.

Lemma aborted_triple (P : W → Prop) :
  triple P (aborted signal) (λ stop w, (stop = true → signal ≠ None) ∧ P w) (λ _ _, False).
Proof. apply triple_gets. intros w Hw. split; [|done]. by destruct signal. Qed.

Lemma apply_page_triple s acc held k next : well_formed_feed (pv_feed s) →
  feed_invariant (pv_feed s) (pv_replica s) → pv_rest s ≠ [] →
  take k (pv_rest s) ≠ [] → doc_checkpoint <$> last (take k (pv_rest s)) = Some next →
  (∀ d, d ∈ take k (pv_rest s) → doc_id d ∈ held →
     ∃ etag, doc_etag d = Some etag ∧ holds_revision (pv_replica s) (doc_id d) etag) →
  triple (at_view s)
    (applyPulledPage store (take k (pv_rest s)) next
       (mapOfEntries (zip (doc_id <$> take k (pv_rest s))
                          (page_action held <$> take k (pv_rest s))));;
     let acc := {| applied := applied acc + length (take k (pv_rest s));
                   suppressed := suppressed acc + size held |} in
     if sameCheckpoint (pv_cursor s) (Some next) then mret (Break acc)
     else mret (Continue acc))
    (round_post s acc) (failed_at s).
Proof.
  intros Hwf Hinv Hrest Hne Hnext Hheld.
  assert (NoDup (doc_id <$> take k (pv_rest s))) as Hnd.
  { pose proof (pv_rest_NoDup s Hwf) as Hnd. rewrite <-(take_drop k (pv_rest s)), fmap_app in Hnd.
    by apply NoDup_app in Hnd as [? _]. }
  eapply triple_bind; [apply page_applied|]. intros []. rewrite page_fold by done.
  destruct (page_view s held k next Hwf Hinv Hnext Hheld) as [-> Hinv'].
  replace (sameCheckpoint _ _) with false.
  2:{ destruct (last _) as [d|] eqn:Hd; simplify_eq/=. apply last_Some in Hd as [l Hl].
      assert (pv_cursor s ≠ Some (doc_checkpoint d)).
      { apply rest_cursor_fresh. rewrite <-(take_drop k (pv_rest s)), Hl. set_solver. }
      unfold sameCheckpoint. destruct (pv_cursor s); [|done].
      by rewrite bool_decide_eq_false_2 by congruence. }
  apply triple_ret. intros w Hw. exists (length (take k (pv_rest s))).
  rewrite length_take, advance_min. split_and!; [lia|done..|].
  destruct k; [done|]. destruct (pv_rest s); simpl; [done|lia].
Qed.

Lemma pullRound_view s acc : well_formed_feed (pv_feed s) →
  feed_invariant (pv_feed s) (pv_replica s) →
  triple (at_view s)
    (pullRound log port store batchSize decryptDoc payload_guard writerId signal acc)
    (round_post s acc) (failed_at s).
Proof.
  intros Hwf Hinv. unfold pullRound.
  eapply triple_bind; [eapply triple_conseq; [apply aborted_triple|done..]|].
  intros stop. simpl. apply triple_pure; intros Hstop.
  destruct stop; [by apply triple_ret; intros w ?; apply round_post_stay; [..|intros ?%Hstop]|].
  eapply triple_bind; [apply checkpoint_read|]. intros c. simpl.
  apply triple_pure; intros ->.
  eapply triple_bind; [by apply query_page|]. intros [documents next]. simpl.
  intros w (Hw&k&->&Hne&->). revert w Hw.
  destruct (take k (pv_rest s)) as [|d ds] eqn:Hpage.
  { apply triple_ret. intros w Hw. apply round_post_stay; [done..|].
    intros _. destruct (pv_rest s); [done|]. by destruct Hne. }
  destruct (doc_checkpoint <$> last (d :: ds)) as [next|] eqn:Hnext.
  2:{ apply fmap_None, last_None in Hnext. done. }
  assert (pv_rest s ≠ []) as Hrest by (intros E; by rewrite E, take_nil in Hpage).
  rewrite <-Hpage in Hne, Hnext |- *.
  assert (NoDup (doc_id <$> take k (pv_rest s))) as Hnd.
  { pose proof (pv_rest_NoDup s Hwf) as Hnd. rewrite <-(take_drop k (pv_rest s)), fmap_app in Hnd.
    by apply NoDup_app in Hnd as [? _]. }
  eapply triple_bind; [by apply heldEchoes_triple|]. intros held. simpl.
  apply triple_pure; intros Hheld.
  eapply triple_bind; [apply actions_triple|]. intros acts. simpl.
  apply triple_pure; intros ->.
  eapply triple_bind; [eapply triple_conseq; [apply aborted_triple|done..]|].
  intros stop'. simpl. apply triple_pure; intros Hstop'.
  destruct stop'; [by apply triple_ret; intros w ?; apply round_post_stay; [..|intros ?%Hstop']|].
  apply apply_page_triple; auto.
Qed.

Lemma pullRound_triple s acc : well_formed_feed (pv_feed s) →
  triple (pull_at s acc)
    (pullRound log port store batchSize decryptDoc payload_guard writerId signal acc)
    (λ r w, match r with
            | Continue acc' => pull_at s acc' w ∧ applied acc < applied acc'
            | Break acc' => pull_at s acc' w ∧
                            (signal = None → applied acc' = length (pv_rest s))
            end)
    (pull_failed s).
Proof.
  intros Hwf w (Hn&Hw&Hinv). set (s' := advance (applied acc) s) in *.
  assert (length (pv_rest s') = length (pv_rest s) - applied acc) as Hlen
    by (unfold s'; by rewrite advance_rest, length_drop).
  pose proof (pullRound_view s' acc Hwf Hinv w Hw) as Hr.
  destruct (pullRound _ _ _ _ _ _ _ _ acc w) as [[r|e] w'].
  - destruct Hr as (m&Hm&Hw'&Hinv'&Hr). unfold s' in Hw', Hinv'.
    rewrite advance_advance in Hw', Hinv' by done. unfold pull_at.
    destruct r as [acc'|acc']; destruct Hr as [-> Hr]; repeat split; try done; try lia.
    intros ->%Hr. lia.
  - by exists (applied acc).
Qed.
End PullProofs.

(** ** The loop *)

Section PullLoop.
Context {W R : Type} `{!SyncSignals} `{!PullEnv W R}.
Context {log : Logger W} {port : PwsSyncPort W} {store : SyncStore W}.
Context {decryptDoc : string → json → comp W json}.
Context `{!PullContract log port store decryptDoc}.
Context (batchSize : nat) (writerId : option string).
Implicit Types s : PullView R.

Definition pull (fuel : nat) (signal : AbortSignal W) : comp W (option PullResult) :=
  runPull log fuel port store batchSize decryptDoc payload_guard writerId signal.

Lemma pull_start s w :
  pull_view w = s → feed_invariant (pv_feed s) (pv_replica s) →
  pull_at s {| applied := 0; suppressed := 0 |} w.
Proof. intros Hw Hinv. unfold pull_at; simpl. rewrite advance_0. split; [lia|done]. Qed.

Lemma pull_triple fuel signal s : 0 < batchSize → well_formed_feed (pv_feed s) →
  triple (pull_at s {| applied := 0; suppressed := 0 |}) (pull fuel signal)
    (λ o w, ∀ res, o = Some res → pull_at s res w ∧
       (signal = None → applied res = length (pv_rest s)))
    (pull_failed s).
Proof.
  intros Hb Hwf. unfold pull, runPull.
  apply loop_invariant with (I := pull_at s)
    (Q := λ res w, pull_at s res w ∧ (signal = None → applied res = length (pv_rest s))).
  intros acc. eapply triple_conseq; [by apply pullRound_triple|done| |done].
  intros [acc'|acc'] w; naive_solver.
Qed.

(** A pull of [n] pending documents ends within [n + 1] turns. *)
Lemma pull_terminates fuel signal s w : 0 < batchSize → well_formed_feed (pv_feed s) →
  pull_at s {| applied := 0; suppressed := 0 |} w →
  length (pv_rest s) < fuel → (pull fuel signal w).1 ≠ Ok None.
Proof.
  intros Hb Hwf Hw Hfuel. unfold pull, runPull.
  apply loop_terminates with (I := pull_at s)
    (μ := λ acc _, length (pv_rest s) - applied acc); [|done|simpl; lia].
  intros acc w1 Hw1 acc' w2 Hrun.
  pose proof (pullRound_triple batchSize writerId signal Hb s acc Hwf w1 Hw1) as Hr.
  rewrite Hrun in Hr. destruct Hr as [Hr Hlt]. split; [done|].
  destruct Hr as [? _]. lia.
Qed.

(** A settled pull left the replica at some prefix of what was pending. *)
Lemma pull_outcome fuel signal s w : 0 < batchSize → well_formed_feed (pv_feed s) →
  pull_at s {| applied := 0; suppressed := 0 |} w →
  (pull fuel signal w).1 ≠ Ok None →
  ∃ n, n ≤ length (pv_rest s) ∧ pull_view (pull fuel signal w).2 = advance n s ∧
    match (pull fuel signal w).1 with
    | Ok o => ∃ res, o = Some res ∧ applied res = n ∧
        feed_invariant (pv_feed s) (pv_replica (advance n s)) ∧
        (signal = None → n = length (pv_rest s))
    | Throw e => seam_error e
    end.
Proof.
  intros Hb Hwf Hw Hnn. pose proof (pull_triple fuel signal s Hb Hwf w Hw) as Ht.
  destruct (pull fuel signal w) as [[[res|]|e] w']; simpl in *; [|done|].
  - destruct (Ht _ eq_refl) as [(?&?&?) ?]. exists (applied res). naive_solver.
  - destruct Ht as (n&?&?&?). by exists n.
Qed.
End PullLoop.

(** An invariant every seam preserves is preserved by a pull. *)
Section PullPreserves.
Context {W : Type} `{!SyncSignals} (I : W → Prop).
Context (log : Logger W) (port : PwsSyncPort W) (store : SyncStore W).
Context (decryptDoc : string → json → comp W json).
Context (Hlog : ∀ msg id, preserves I (log_warn log msg id)).
Context (Hquery : ∀ cp limit, preserves I (port_query port cp limit)).
Context (Hcursor : preserves I (getCheckpoint store)).
Context (Hheld : ∀ held asked, heldRevisions store = Some held → preserves I (held asked)).
Context (Happly : ∀ ds cp ps, preserves I (applyPulledPage store ds cp ps)).
Context (Hdecrypt : ∀ id envelope, preserves I (decryptDoc id envelope)).

Lemma projectionForDoc_preserves doc guard :
  preserves I (projectionForDoc log doc decryptDoc guard).
Proof.
  assert (∀ msg id, preserves I (log_warn log msg id;; mret ProjNone)) as Hl.
  { intros. eapply triple_bind; [apply Hlog|]. intros []. by apply triple_ret. }
  unfold projectionForDoc. destruct (doc_deleted doc); [by apply triple_ret|].
  destruct (present _); [|by apply triple_ret].
  eapply triple_try with (E := λ _, I); [|intros e; by destruct (isIntegrityError e)].
  eapply triple_bind; [apply Hdecrypt|]. intros payload. eapply triple_bind with (M := λ _, I).
  - destruct guard; [|by apply triple_ret]. apply triple_lift. intros w Hw. by case_match.
  - intros [|]; [by apply triple_ret|apply Hl].
Qed.

Lemma runPull_preserves fuel batchSize guard writerId signal :
  preserves I (runPull log fuel port store batchSize decryptDoc guard writerId signal).
Proof.
  assert (∀ s, preserves I (aborted (W := W) s)) as Ha by (intros; by apply triple_gets).
  unfold runPull. generalize {| applied := 0; suppressed := 0 |} as acc.
  induction fuel as [|fuel IH]; intros acc; simpl; [by apply triple_ret|].
  eapply triple_bind with (M := λ _, I); [|by intros [|]; [apply IH|apply triple_ret]].
  unfold pullRound. eapply triple_bind; [apply Ha|]. intros [|]; [by apply triple_ret|].
  eapply triple_bind; [apply Hcursor|]. intros cp. eapply triple_bind; [apply Hquery|].
  intros [[|d ds] [next|]]; try by apply triple_ret.
  eapply triple_bind with (M := λ _, I).
  { unfold heldEchoes. destruct writerId; [|by apply triple_ret].
    destruct (heldRevisions store) as [held|] eqn:Hh; [|by apply triple_ret].
    destruct (echoCandidates _ _); [by apply triple_ret|].
    eapply triple_bind; [by apply Hheld|]. intros ?. by apply triple_ret. }
  intros held. eapply triple_bind.
  { apply preserves_promise_all. intros doc. case_decide; [by apply triple_ret|].
    apply projectionForDoc_preserves. }
  intros acts. eapply triple_bind; [apply Ha|]. intros [|]; [by apply triple_ret|].
  eapply triple_bind; [apply Happly|]. intros [].
  by destruct (sameCheckpoint _ _); apply triple_ret.
Qed.
End PullPreserves.

(** Over a feed that lists each resource once, a pull with no abort and
    no failing seam returns, once it is given one turn more than there are
    pending documents; it applied every pending document, in feed order, with
    the action the document's own decrypt and payload guard decide, and it
    left the cursor at the last one. The result depends neither on the batch
    size, nor on how short the server cuts its pages, nor on which of the
    replica's own echoes the store suppressed. *)
Theorem pull_complete {W R} `{!SyncSignals} `{!PullEnv W R} {log : Logger W} {port store decryptDoc}
    `{!PullContract log port store decryptDoc} batchSize writerId fuel (s : PullView R) w :
  0 < batchSize → well_formed_feed (pv_feed s) →
  pull_view w = s → feed_invariant (pv_feed s) (pv_replica s) →
  (∀ e, ¬ seam_error e) → length (pv_rest s) < fuel →
  ∃ res w',
    runPull log fuel port store batchSize decryptDoc payload_guard writerId None w
      = (Ok (Some res), w') ∧
    applied res = length (pv_rest s) ∧
    pull_view w' = {|
      pv_feed := pv_feed s;
      pv_cursor := match last (pv_rest s) with
                   | Some d => Some (doc_checkpoint d)
                   | None => pv_cursor s
                   end;
      pv_replica := reconcile_all (pv_replica s) (pv_rest s)
    |}.
Proof.
  intros Hb Hwf Hw Hinv Herr Hfuel. pose proof (pull_start s w Hw Hinv) as Hat.
  pose proof (pull_terminates batchSize writerId fuel None s w Hb Hwf Hat Hfuel) as Hnn.
  destruct (pull_outcome batchSize writerId fuel None s w Hb Hwf Hat Hnn) as (n&Hn&Hv&Ho).
  change (runPull log fuel port store batchSize decryptDoc payload_guard writerId None)
    with (pull (log := log) (port := port) (store := store) (decryptDoc := decryptDoc)
            batchSize writerId fuel None).
  destruct (pull _ _ _ _ w) as [[o|e] w']; simpl in *; [|by apply Herr in Ho].
  destruct Ho as (res&->&Hres&_&Hall). rewrite (Hall eq_refl) in Hv, Hres.
  exists res, w'. rewrite Hv. unfold advance. by rewrite take_ge.
Qed.

(** However a pull ends -- caught up, aborted between decrypt and apply,
    or rejected by a failing query or store transaction -- the store holds
    exactly a prefix of the pending documents, and a later pull that returns
    without an abort reaches the very state one uninterrupted pull reaches. *)
Theorem pull_resumes {W R} `{!SyncSignals} `{!PullEnv W R} {log : Logger W} {port store decryptDoc}
    `{!PullContract log port store decryptDoc} batchSize batchSize' writerId writerId'
    signal fuel fuel' (s : PullView R) w r w1 res w2 :
  0 < batchSize → 0 < batchSize' → well_formed_feed (pv_feed s) →
  pull_view w = s → feed_invariant (pv_feed s) (pv_replica s) →
  runPull log fuel port store batchSize decryptDoc payload_guard writerId signal w = (r, w1) →
  r ≠ Ok None →
  runPull log fuel' port store batchSize' decryptDoc payload_guard writerId' None w1
    = (Ok (Some res), w2) →
  (∃ n, n ≤ length (pv_rest s) ∧ pull_view w1 = advance n s) ∧
  pull_view w2 = advance (length (pv_rest s)) s.
Proof.
  intros Hb Hb' Hwf Hw Hinv Hrun Hr Hrun'.
  pose proof (pull_start s w Hw Hinv) as Hat.
  pose proof (pull_outcome batchSize writerId fuel signal s w Hb Hwf Hat) as Ho.
  unfold pull in Ho. rewrite Hrun in Ho. destruct (Ho Hr) as (n&Hn&Hv&_). simpl in Hv.
  split; [by exists n|].
  pose proof (pull_start (advance n s) w1 Hv (advance_invariant n s Hinv)) as Hat'.
  pose proof (pull_outcome batchSize' writerId' fuel' None (advance n s) w1 Hb' Hwf Hat') as Ho'.
  unfold pull in Ho'. rewrite Hrun' in Ho'. destruct Ho' as (m&Hm&Hv'&Ho'); [done|].
  simpl in *. destruct Ho' as (res'&_&_&_&Hall). rewrite Hv', (Hall eq_refl).
  rewrite advance_advance, advance_rest, length_drop by done. f_equal. lia.
Qed.

(** A document's projection never throws, whatever its decrypt and its
    payload guard do: a tombstone deletes, a live document with a body that
    opens and passes the guard upserts its payload, and every other document
    leaves the projection alone. One poison document cannot wedge the feed. *)
Theorem projectionForDoc_total {W} `{!SyncSignals} (log : Logger W) `{!QuietLogger log}
    (doc : WireDoc) (decryptDoc : string → json → comp W json) validatePayload w :
  ∃ w', projectionForDoc log doc decryptDoc validatePayload w =
    (Ok (projectionSpec validatePayload doc
           (decryptDoc (doc_id doc) (default JNull (doc_data doc)) w).1), w').
Proof.
  assert (∀ msg id w, ∃ w', (log_warn log msg id;; mret ProjNone) w = (Ok ProjNone, w')) as Hlog.
  { intros msg id w1. destruct (log_warn_quiet msg id w1) as [w' Hl]. exists w'.
    unfold mbind, comp_bind. by rewrite Hl. }
  unfold projectionForDoc, projectionSpec.
  destruct (doc_deleted doc); [by exists w|].
  destruct (doc_data doc) as [data|]; [|by exists w].
  destruct (present (Some data)) as [data'|] eqn:Hdata; [|by exists w].
  replace data' with data by (by destruct data; simplify_eq/=). simpl default.
  unfold try_catch, mbind at 1, comp_bind at 1.
  destruct (decryptDoc (doc_id doc) data w) as [[p|e] w1]; simpl.
  2: destruct (isIntegrityError e); apply Hlog.
  unfold mbind, comp_bind, lift. destruct validatePayload as [v|]; simpl; [|by exists w1].
  destruct (v p) as [[|]|e]; [by exists w1| |destruct (isIntegrityError e); apply Hlog].
  destruct (log_warn_quiet "Skipping malformed synced document (no projection)" (doc_id doc) w1)
    as [w2 ->]. by exists w2.
Qed.
