(* ===== verification/SyncPush.v ===== *)
(** * The push loop

    [src/src/sync/push.ts]: the conditional write each dirty replica becomes,
    the settlement of a refused one, and the sequential loop over the dirty
    replicas of a feed. *)

From S2P Require Import Prelude Json SyncPull.

Section Push.
Context {W : Type} `{!SyncSignals}.
Context (port : PwsSyncPort W) (store : SyncStore W).

(** Pushes a dirty live replica; the result is [conflictResolved]. *)
Definition pushUpsert (replica : SyncedResourceReplica)
    (resolveConflict : option (ResolveConflict W)) (writerId : option string) : comp W bool :=
  try_catch
    (ack ← port_putContent port {|
       put_id := rep_id replica;
       put_data := rep_data replica;
       put_ifMatch := if rep_acked replica then rep_etag replica else None;
       put_ifNoneMatch := negb (rep_acked replica);
       put_writerId := writerId
     |};
     markPushed store (rep_id replica) (ack_etag ack) (rep_revision replica);;
     mret false)
    (λ err,
       if negb (isSyncConflictError err) then mthrow err
       else match resolveConflict with
       | Some resolve =>
           resolve (rep_id replica) (rep_data replica);;
           mret true
       | None =>
           master ← port_get port (rep_id replica);
           match master with
           | None => adoptLatest store (rep_id replica) None ProjDelete
           | Some latest => adoptLatest store (rep_id replica) (Some latest) ProjNone
           end;;
           mret false
       end).

(** One conditional delete: [true] when it is settled. *)
Definition tryDelete (id : string) (ifMatch : option string)
    (revision : option revision_token) (writerId : option string) : comp W bool :=
  try_catch
    (ack ← port_deleteContent port
       {| del_id := id; del_ifMatch := ifMatch; del_writerId := writerId |};
     markDeletedPushed store id (ack ≫= ack_etag) revision;;
     mret true)
    (λ err,
       if isSyncNotFoundError err then
         markDeletedPushed store id None revision;;
         mret true
       else if isSyncConflictError err then mret false
       else mthrow err).

(** Pushes a dirty tombstone. *)
Definition pushDelete (replica : SyncedResourceReplica) (writerId : option string) : comp W () :=
  let firstIfMatch := if rep_acked replica then rep_etag replica else None in
  settled ← tryDelete (rep_id replica) firstIfMatch (rep_revision replica) writerId;
  if settled : bool then mret ()
  else
    master ← port_get port (rep_id replica);
    match master with
    | None => markDeletedPushed store (rep_id replica) None (rep_revision replica)
    | Some master =>
        tryDelete (rep_id replica) (master_etag master) (rep_revision replica) writerId;;
        mret ()
    end.

Record PushResult := { pushed : nat; conflictsResolved : nat }.

(** The loop over the replicas the store listed. *)
Fixpoint pushReplicas (replicas : list SyncedResourceReplica)
    (resolveConflict : option (ResolveConflict W)) (writerId : option string)
    (signal : AbortSignal W) (acc : PushResult) : comp W PushResult :=
  match replicas with
  | [] => mret acc
  | replica :: replicas =>
      stop ← aborted signal;
      if stop : bool then mret acc
      else
        conflictResolved ←
          (if rep_deleted replica then pushDelete replica writerId;; mret false
           else pushUpsert replica resolveConflict writerId);
        pushReplicas replicas resolveConflict writerId signal {|
          pushed := pushed acc + 1;
          conflictsResolved := conflictsResolved acc + (if conflictResolved : bool then 1 else 0)
        |}
  end.

Definition runPush (resolveConflict : option (ResolveConflict W))
    (writerId : option string) (signal : AbortSignal W) : comp W PushResult :=
  replicas ← getDirtyResourceReplicas store;
  pushReplicas replicas resolveConflict writerId signal
    {| pushed := 0; conflictsResolved := 0 |}.
End Push.

(** ** The wire trace of a push

    A port and a store over [W] lifted to a world that also records, in
    order, every request the port was sent and what it answered. *)
Inductive wire_event :=
  | EvPut (req : PutRequest) (answer : result WriteAck)
  | EvDelete (req : DeleteRequest) (answer : result (option WriteAck))
  | EvGet (id : string) (answer : result (option MasterState)).

Section Traced.
Context {W : Type}.

Definition untraced {A} (c : comp W A) : comp (W * list wire_event) A :=
  λ '(w, t), let '(r, w') := c w in (r, (w', t)).
Definition traced {A} (ev : result A → wire_event) (c : comp W A) :
    comp (W * list wire_event) A :=
  λ '(w, t), let '(r, w') := c w in (r, (w', t ++ [ev r])).

Definition tracedPort (port : PwsSyncPort W) : PwsSyncPort (W * list wire_event) := {|
  port_query := λ cp limit, untraced (port_query port cp limit);
  port_putContent := λ req, traced (EvPut req) (port_putContent port req);
  port_deleteContent := λ req, traced (EvDelete req) (port_deleteContent port req);
  port_get := λ id, traced (EvGet id) (port_get port id)
|}.

Definition tracedStore (store : SyncStore W) : SyncStore (W * list wire_event) := {|
  getCheckpoint := untraced (getCheckpoint store);
  getDirtyResourceReplicas := untraced (getDirtyResourceReplicas store);
  applyPulledPage := λ ds cp ps, untraced (applyPulledPage store ds cp ps);
  markPushed := λ id e r, untraced (markPushed store id e r);
  markDeletedPushed := λ id e r, untraced (markDeletedPushed store id e r);
  adoptLatest := λ id l p, untraced (adoptLatest store id l p);
  heldRevisions := (λ held asked, untraced (held asked)) <$> heldRevisions store;
  replacePending := (λ replace id id' e r, untraced (replace id id' e r)) <$> replacePending store
|}.

Definition tracedResolver (r : ResolveConflict W) : ResolveConflict (W * list wire_event) :=
  λ id data, untraced (r id data).
Definition tracedSignal (s : AbortSignal W) : AbortSignal (W * list wire_event) :=
  (λ f w, f w.1) <$> s.
End Traced.

(** The precondition a replica's first write carries: the stored validator
    once the server has acknowledged it, and nothing before. *)
Definition replicaIfMatch (replica : SyncedResourceReplica) : option string :=
  if rep_acked replica then rep_etag replica else None.

Definition upsertRequest (writerId : option string) (replica : SyncedResourceReplica) : PutRequest := {|
  put_id := rep_id replica;
  put_data := rep_data replica;
  put_ifMatch := replicaIfMatch replica;
  put_ifNoneMatch := negb (rep_acked replica);
  put_writerId := writerId
|}.

Definition deleteRequest (writerId : option string) (replica : SyncedResourceReplica)
    (ifMatch : option string) : DeleteRequest :=
  {| del_id := rep_id replica; del_ifMatch := ifMatch; del_writerId := writerId |}.

(** What one replica puts on the wire. A live replica is one conditional
    write, then at most one read, and none where a resolver is injected. A
    tombstone is one conditional delete, then at most one read, and a second
    delete only over the validator of the live master that read returned. *)
Inductive replica_trace (writerId : option string) (resolver : bool)
    (replica : SyncedResourceReplica) : list wire_event → Prop :=
  | trace_put a :
      rep_deleted replica = false →
      replica_trace writerId resolver replica [EvPut (upsertRequest writerId replica) a]
  | trace_put_get a g :
      rep_deleted replica = false → resolver = false →
      replica_trace writerId resolver replica
        [EvPut (upsertRequest writerId replica) a; EvGet (rep_id replica) g]
  | trace_delete a :
      rep_deleted replica = true →
      replica_trace writerId resolver replica
        [EvDelete (deleteRequest writerId replica (replicaIfMatch replica)) a]
  | trace_delete_get a g :
      rep_deleted replica = true →
      replica_trace writerId resolver replica
        [EvDelete (deleteRequest writerId replica (replicaIfMatch replica)) a;
         EvGet (rep_id replica) g]
  | trace_delete_get_delete a m a' :
      rep_deleted replica = true →
      replica_trace writerId resolver replica
        [EvDelete (deleteRequest writerId replica (replicaIfMatch replica)) a;
         EvGet (rep_id replica) (Ok (Some m));
         EvDelete (deleteRequest writerId replica (master_etag m)) a'].
#[export] Hint Constructors replica_trace : core.

Section TraceProofs.
Context {W : Type} `{!SyncSignals}.
Notation TW := (W * list wire_event)%type.
Context (port : PwsSyncPort W) (store : SyncStore W).
Context (resolve : option (ResolveConflict W)) (writerId : option string).
Context (signal : AbortSignal W).

Definition calls (t : list wire_event) (w : TW) : Prop := w.2 = t.

Lemma untraced_triple {A} (c : comp W A) t :
  triple (calls t) (untraced c) (λ _, calls t) (λ _, calls t).
Proof. intros [w t'] Hw. unfold calls in *; simpl in *. by destruct (c w) as [[] ?]. Qed.

Lemma traced_triple {A} ev (c : comp W A) t :
  triple (calls t) (traced ev c) (λ a, calls (t ++ [ev (Ok a)]))
    (λ e, calls (t ++ [ev (Throw e)])).
Proof. intros [w t'] Hw. unfold calls in *; simpl in *. subst. by destruct (c w) as [[] ?]. Qed.

(** The calls past [t] are one replica's. *)
Definition extends (t : list wire_event) (r : SyncedResourceReplica) (w : TW) : Prop :=
  ∃ t', replica_trace writerId (bool_decide (is_Some resolve)) r t' ∧ w.2 = t ++ t'.

Lemma extends_intro t r t' w :
  replica_trace writerId (bool_decide (is_Some resolve)) r t' → calls (t ++ t') w → extends t r w.
Proof. intros ? ?. by exists t'. Qed.

Abbreviation tport := (tracedPort port).
Abbreviation tstore := (tracedStore store).
Abbreviation tresolve := (tracedResolver <$> resolve).

(** Closes an [extends] goal from the recorded calls in [H]. *)
Ltac by_trace H :=
  unfold calls in H; rewrite <-?app_assoc in H; simpl in H;
  eapply extends_intro; [|exact H];
  repeat match goal with Hrs : resolve = _ |- _ => rewrite Hrs end;
  by eauto.

Lemma tryDelete_trace id ifMatch revision t :
  let post := λ w, ∃ a, calls (t ++ [EvDelete {| del_id := id; del_ifMatch := ifMatch;
                                                 del_writerId := writerId |} a]) w in
  triple (calls t) (tryDelete tport tstore id ifMatch revision writerId)
    (λ _, post) (λ _, post).
Proof.
  intros post. unfold tryDelete. eapply triple_try with (E := λ _, post).
  - eapply triple_bind; [eapply triple_throws; [apply traced_triple|by intros e; eexists]|].
    intros ack. eapply triple_bind.
    + eapply triple_throws; [apply untraced_triple|by eexists].
    + intros []. apply triple_ret. by eexists.
  - intros e. apply triple_exists; intros a.
    destruct (isSyncNotFoundError e); [|destruct (isSyncConflictError e)].
    + eapply triple_bind; [eapply triple_throws; [apply untraced_triple|by eexists]|].
      intros []. apply triple_ret. by eexists.
    + apply triple_ret. by eexists.
    + apply triple_throw. by eexists.
Qed.

Lemma pushDelete_trace r t : rep_deleted r = true →
  triple (calls t) (pushDelete tport tstore r writerId) (λ _, extends t r) (λ _, extends t r).
Proof.
  intros Hdel. unfold pushDelete.
  eapply triple_bind; [eapply triple_throws; [apply tryDelete_trace|]|].
  { intros e w [a Ha]. by_trace Ha. }
  intros settled. apply triple_exists; intros a. destruct settled.
  { apply triple_ret. intros w Hw. by_trace Hw. }
  eapply triple_bind; [eapply triple_throws; [apply traced_triple|]|].
  { intros e w Hw. by_trace Hw. }
  intros [m|]; rewrite <-app_assoc; simpl.
  - eapply triple_bind; [eapply triple_throws; [apply tryDelete_trace|]|].
    + intros e w [a' Hw]. by_trace Hw.
    + intros ?. apply triple_exists; intros a'. apply triple_ret. intros w Hw. by_trace Hw.
  - eapply triple_post; [apply untraced_triple|..].
    all: intros ? w Hw; by_trace Hw.
Qed.

Lemma pushUpsert_trace r t : rep_deleted r = false →
  triple (calls t) (pushUpsert tport tstore r tresolve writerId)
    (λ cr w, (resolve = None → cr = false) ∧ extends t r w) (λ _, extends t r).
Proof.
  intros Hdel. unfold pushUpsert.
  set (post := λ w, ∃ a, calls (t ++ [EvPut (upsertRequest writerId r) a]) w).
  assert (∀ w, post w → extends t r w) as Hext
    by (intros w [a Ha]; by_trace Ha).
  eapply triple_try with (E := λ _, post).
  - eapply triple_bind; [eapply triple_throws; [apply traced_triple|by intros e; eexists]|].
    intros ack. eapply triple_bind.
    + eapply triple_throws; [apply untraced_triple|by eexists].
    + intros []. apply triple_ret. intros w Hw. split; [done|]. apply Hext. by eexists.
  - intros e. destruct (negb (isSyncConflictError e)); [by apply triple_throw|].
    apply triple_exists; intros a. destruct resolve as [rs|] eqn:Hrs; simpl.
    + eapply triple_bind; [eapply triple_throws; [apply untraced_triple|]|].
      * intros ? w Hw. apply Hext. by exists a.
      * intros []. apply triple_ret. intros w Hw. split; [done|]. apply Hext. by exists a.
    + eapply triple_bind; [eapply triple_throws; [apply traced_triple|]|].
      * intros ? w Hw. by_trace Hw.
      * intros master.
        eapply triple_bind with (M := λ _, calls ((t ++ [EvPut (upsertRequest writerId r) a]) ++
          [EvGet (rep_id r) (Ok master)])).
        -- destruct master; (eapply triple_throws; [apply untraced_triple|]).
           all: intros ? w Hw; by_trace Hw.
        -- intros []. apply triple_ret. intros w Hw. split; [done|]. by_trace Hw.
Qed.

(** The calls past [t] are those of a prefix of [replicas], in order. *)
Definition pushed_trace t (replicas : list SyncedResourceReplica) (w : TW) : Prop :=
  ∃ ts, Forall2 (replica_trace writerId (bool_decide (is_Some resolve))) replicas ts ∧
    w.2 = t ++ concat ts.

Lemma pushed_trace_nil t w : calls t w → pushed_trace t [] w.
Proof. intros Hw. exists []. split; [by constructor|]. by rewrite app_nil_r. Qed.

Lemma pushed_trace_cons t r replicas w :
  (∃ t', replica_trace writerId (bool_decide (is_Some resolve)) r t' ∧
     pushed_trace (t ++ t') replicas w) → pushed_trace t (r :: replicas) w.
Proof.
  intros (t'&Hr&ts&Hts&Hw). exists (t' :: ts). split; [by constructor|].
  by rewrite Hw, <-app_assoc.
Qed.

Lemma pushReplicas_trace replicas acc t :
  triple (calls t)
    (pushReplicas tport tstore replicas tresolve writerId (tracedSignal signal) acc)
    (λ res w, ∃ n, n ≤ length replicas ∧ pushed_trace t (take n replicas) w ∧
       pushed res = pushed acc + n ∧ (signal = None → n = length replicas) ∧
       conflictsResolved acc ≤ conflictsResolved res ≤ conflictsResolved acc + n ∧
       (resolve = None → conflictsResolved res = conflictsResolved acc))
    (λ _ w, ∃ n, n ≤ length replicas ∧ pushed_trace t (take n replicas) w).
Proof.
  revert acc t. induction replicas as [|r replicas IH]; intros acc t; simpl.
  { apply triple_ret. intros w Hw. exists 0. split_and!; [lia|by apply pushed_trace_nil|lia..]. }
  eapply triple_bind with (M := λ stop w, (stop = true → signal ≠ None) ∧ calls t w).
  { apply triple_gets. intros w Hw. split; [|done]. by destruct signal. }
  intros stop. apply triple_pure; intros Hstop. destruct stop.
  { apply triple_ret. intros w Hw. exists 0.
    split_and!; [lia|by apply pushed_trace_nil|lia|by intros ?%Hstop|lia..]. }
  eapply triple_bind with (M := λ cr w, (resolve = None → cr = false) ∧ extends t r w).
  { eapply triple_throws with (R := λ _ w, extends t r w).
    - destruct (rep_deleted r) eqn:Hdel.
      + eapply triple_bind; [by apply pushDelete_trace|]. intros []. by apply triple_ret.
      + by apply pushUpsert_trace.
    - intros e w (t'&Ht'&Hw). exists 1. split; [lia|]. simpl.
      exists [t']. split; [by repeat constructor|]. simpl. by rewrite app_nil_r. }
  intros cr. apply triple_pure; intros Hcr. apply triple_exists; intros t'.
  apply triple_pure; intros Ht'.
  eapply triple_conseq; [apply (IH _ (t ++ t'))|done| |].
  - intros res w (n&Hn&Htr&Hp&Hs&Hc&Hc'). exists (S n). simpl in *.
    split_and!; [lia|apply pushed_trace_cons; eauto|lia|by intros Hn'; rewrite (Hs Hn')
                |destruct cr; lia..|].
    intros Hres. rewrite Hc', Hcr by done. lia.
  - intros e w (n&Hn&Htr). exists (S n). split; [simpl; lia|].
    apply pushed_trace_cons. eauto.
Qed.
End TraceProofs.


(** What a push puts on the wire. Over any server, store and interleaving,
    the calls of [runPush] are those of a prefix of the dirty replicas, in the
    store's order and never interleaved: a never-acknowledged replica is
    written create-only, an acknowledged one over its own stored validator and
    no other, every write carries the injected [writerId], a second delete
    happens only over the validator of the live master the re-read returned,
    and no read follows a write where a resolver settles the conflicts. The
    prefix is all of them unless a signal is injected or a seam throws, and
    [conflictsResolved] stays zero without a resolver. *)
Theorem push_wire_discipline {W} `{!SyncSignals} (port : PwsSyncPort W) (store : SyncStore W)
    (resolve : option (ResolveConflict W)) writerId (signal : AbortSignal W) w :
  let '(r, (w', calls)) := runPush (tracedPort port) (tracedStore store)
    (tracedResolver <$> resolve) writerId (tracedSignal signal) (w, []) in
  match (getDirtyResourceReplicas store w).1 with
  | Throw e => r = Throw e ∧ calls = []
  | Ok replicas => ∃ n traces,
      n ≤ length replicas ∧ calls = concat traces ∧
      Forall2 (replica_trace writerId (bool_decide (is_Some resolve))) (take n replicas) traces ∧
      ∀ res, r = Ok res →
        pushed res = n ∧ conflictsResolved res ≤ n ∧
        (signal = None → n = length replicas) ∧
        (resolve = None → conflictsResolved res = 0)
  end.
Proof.
  unfold runPush, mbind at 1, comp_bind at 1. simpl.
  destruct (getDirtyResourceReplicas store w) as [[replicas|e] w1]; [|done]. simpl.
  pose proof (pushReplicas_trace port store resolve writerId signal replicas
    {| pushed := 0; conflictsResolved := 0 |} [] (w1, []) eq_refl) as Ht.
  destruct (pushReplicas _ _ _ _ _ _ _ (w1, [])) as [[res|e] [w' t]]; simpl in *.
  - destruct Ht as (n&Hn&(ts&Hts&Hc)&Hp&Hs&Hcr&Hcr'). exists n, ts. simpl in *.
    split_and!; [done..|]. intros res' [= <-]. naive_solver lia.
  - destruct Ht as (n&Hn&ts&Hts&Hc). by exists n, ts.
Qed.
