(* ===== verification/SyncModel.v ===== *)
(** * A reference server and a reference store

    A conforming changes-feed server and the reconciling store of the
    protocol suite ([src/test/node/sync.test.ts], [InMemoryStore]), as
    instances of the seams of [SyncPull]. They show that the contracts the
    pull and the push are proved against can be met, and the convergence
    theorem of [SyncConvergence] is about them. *)

From S2P Require Import Prelude Json SyncPull SyncPush.

(** ** The storage client's signals, matched by name *)

Definition conflict_error : js_error := JsError "PwsSyncConflictError" "".
Definition not_found_error : js_error := JsError "PwsSyncNotFoundError" "".

#[export] Instance signals_by_name : SyncSignals := {
  isSyncConflictError e := bool_decide (err_name e = "PwsSyncConflictError");
  isSyncNotFoundError e := bool_decide (err_name e = "PwsSyncNotFoundError");
  isIntegrityError e := bool_decide (err_name e = "IntegrityError");
  isUnknownEpochError e := bool_decide (err_name e = "UnknownEpochError")
}.

(** ** The server *)

(** One resource of the feed. Its tick is its position and its validator. *)
Record SrvDoc := {
  sd_id : string;
  sd_tick : nat;
  sd_deleted : bool;
  sd_data : json;
  sd_writerId : option string
}.

Record ServerState := { srv_docs : list SrvDoc; srv_tick : nat }.

(** An opaque token for a tick. *)
Fixpoint stamp (n : nat) : string :=
  match n with 0 => EmptyString | S n => String (Ascii.ascii_of_nat 105) (stamp n) end.

Lemma length_stamp n : String.length (stamp n) = n.
Proof. induction n; simpl; congruence. Qed.

#[export] Instance stamp_inj : Inj (=) (=) stamp.
Proof. intros m n H. by rewrite <-(length_stamp m), H, length_stamp. Qed.

Definition wireDoc (d : SrvDoc) : WireDoc := {|
  doc_id := sd_id d;
  doc_deleted := sd_deleted d;
  doc_updatedAt := stamp (sd_tick d);
  doc_checkpoint := stamp (sd_tick d);
  doc_etag := Some (stamp (sd_tick d));
  doc_writerId := sd_writerId d;
  doc_data := if sd_deleted d then None else Some (sd_data d)
|}.

Definition findDoc (id : string) (docs : list SrvDoc) : option SrvDoc :=
  head (filter (λ d, sd_id d = id) docs).

(** A write re-positions its resource at the end of the feed. *)
Definition writeDoc (id : string) (deleted : bool) (data : json) (writerId : option string)
    (s : ServerState) : ServerState := {|
  srv_docs := filter (λ d, sd_id d ≠ id) (srv_docs s) ++
    [{| sd_id := id; sd_tick := S (srv_tick s); sd_deleted := deleted; sd_data := data;
        sd_writerId := writerId |}];
  srv_tick := S (srv_tick s)
|}.

Definition etagMismatch (ifMatch : option string) (existing : option SrvDoc) : bool :=
  match ifMatch with
  | None => false
  | Some e => match existing with
              | None => true
              | Some d => negb (bool_decide (stamp (sd_tick d) = e))
              end
  end.

Definition serverPut (req : PutRequest) (s : ServerState) : result WriteAck * ServerState :=
  let existing := findDoc (put_id req) (srv_docs s) in
  if put_ifNoneMatch req && bool_decide (is_Some existing) then (Throw conflict_error, s)
  else if etagMismatch (put_ifMatch req) existing then (Throw conflict_error, s)
  else (Ok {| ack_etag := Some (stamp (S (srv_tick s))) |},
        writeDoc (put_id req) false (put_data req) (put_writerId req) s).

Definition serverDelete (req : DeleteRequest) (s : ServerState) :
    result (option WriteAck) * ServerState :=
  match findDoc (del_id req) (srv_docs s) with
  | None => (Throw not_found_error, s)
  | Some d =>
      if sd_deleted d then (Throw not_found_error, s)
      else if etagMismatch (del_ifMatch req) (Some d) then (Throw conflict_error, s)
      else (Ok (Some {| ack_etag := Some (stamp (S (srv_tick s))) |}),
            writeDoc (del_id req) true JNull (del_writerId req) s)
  end.

Definition serverGet (id : string) (s : ServerState) : option MasterState :=
  match findDoc id (srv_docs s) with
  | None => None
  | Some d =>
      if sd_deleted d then None
      else Some {| master_etag := Some (stamp (sd_tick d));
                   master_updatedAt := stamp (sd_tick d);
                   master_data := Some (sd_data d) |}
  end.

(** A page past [checkpoint], cut to [limit] and to the server's own clamp. *)
Definition serverQuery (clamp : nat) (checkpoint : option SyncCheckpoint) (limit : nat)
    (s : ServerState) : list WireDoc * option SyncCheckpoint :=
  let feed := wireDoc <$> srv_docs s in
  let rest := match checkpoint with
              | None => feed
              | Some c => filter (λ d, String.length c < String.length (doc_checkpoint d)) feed
              end in
  let page := take (limit `min` S clamp) rest in
  (page, doc_checkpoint <$> last page).

(** ** The store *)

Record Row := {
  row_acked : bool;
  row_etag : option string;
  row_updatedAt : string;
  row_deleted : bool;
  row_data : json;
  row_dirty : bool;
  row_revision : nat
}.

Record StoreBody := {
  rows : gmap string Row;
  projection : gmap string json;
  nextRevision : nat
}.

Record StoreState := { st_cursor : option SyncCheckpoint; st_body : StoreBody }.

(** [existing?.revision ?? this.bumpRevision()] *)
Definition keptRevision (existing : option Row) (b : StoreBody) : nat :=
  match existing with Some row => row_revision row | None => S (nextRevision b) end.
Definition bumpedRevision (existing : option Row) (b : StoreBody) : nat :=
  match existing with Some _ => nextRevision b | None => S (nextRevision b) end.

Definition applyProjection (id : string) (action : ProjectionAction)
    (p : gmap string json) : gmap string json :=
  match action with
  | ProjUpsert payload => <[id := payload]> p
  | ProjDelete => delete id p
  | ProjNone => p
  end.

(** The state a settled resource's row takes, and its projection. *)
Definition settleRow (id : string) (etag : option string) (updatedAt : string) (deleted : bool)
    (data : json) (action : ProjectionAction) (b : StoreBody) : StoreBody :=
  let existing := rows b !! id in {|
    rows := <[id := {| row_acked := true; row_etag := etag; row_updatedAt := updatedAt;
                       row_deleted := deleted; row_data := data; row_dirty := false;
                       row_revision := keptRevision existing b |}]> (rows b);
    projection := applyProjection id action (projection b);
    nextRevision := bumpedRevision existing b
  |}.

(** A pulled document meeting a pending local write only refreshes the
    validator the write's push will carry. *)
Definition refreshRow (id : string) (row : Row) (etag : option string) (updatedAt : string)
    (b : StoreBody) : StoreBody := {|
  rows := <[id := {| row_acked := true; row_etag := etag; row_updatedAt := updatedAt;
                     row_deleted := row_deleted row; row_data := row_data row;
                     row_dirty := row_dirty row; row_revision := row_revision row |}]> (rows b);
  projection := projection b;
  nextRevision := nextRevision b
|}.

Definition reconcileDoc (b : StoreBody) (d : WireDoc) (action : ProjectionAction) : StoreBody :=
  let pending := match rows b !! doc_id d with
                 | Some row => if row_dirty row then Some row else None
                 | None => None
                 end in
  if doc_deleted d then
    settleRow (doc_id d) (doc_etag d) (doc_updatedAt d) true JNull ProjDelete b
  else match pending with
  | Some row => refreshRow (doc_id d) row (doc_etag d) (doc_updatedAt d) b
  | None => settleRow (doc_id d) (doc_etag d) (doc_updatedAt d) false
              (default JNull (doc_data d)) action b
  end.

(** A push ack: dirty stays set when the revision moved under the push. *)
Definition ackRow (id : string) (etag : option string) (revision : option revision_token)
    (b : StoreBody) : StoreBody :=
  match rows b !! id with
  | None => b
  | Some row =>
      let stale := match revision with
                   | Some r => negb (bool_decide (r = RevNumber (Z.of_nat (row_revision row))))
                   | None => false
                   end in {|
        rows := <[id := {| row_acked := true;
                           row_etag := match etag with Some _ => etag | None => row_etag row end;
                           row_updatedAt := row_updatedAt row; row_deleted := row_deleted row;
                           row_data := row_data row; row_dirty := stale;
                           row_revision := row_revision row |}]> (rows b);
        projection := projection b;
        nextRevision := nextRevision b |}
  end.

Definition ackDeletedRow (id : string) (etag : option string) (revision : option revision_token)
    (b : StoreBody) : StoreBody :=
  match rows b !! id with
  | None => b
  | Some row =>
      let stale := match revision with
                   | Some r => negb (bool_decide (r = RevNumber (Z.of_nat (row_revision row))))
                   | None => false
                   end in {|
        rows := <[id := {| row_acked := true;
                           row_etag := match etag with Some _ => etag | None => row_etag row end;
                           row_updatedAt := row_updatedAt row;
                           row_deleted := if stale then row_deleted row else true;
                           row_data := if stale then row_data row else JNull;
                           row_dirty := if stale then row_dirty row else false;
                           row_revision := row_revision row |}]> (rows b);
        projection := projection b;
        nextRevision := nextRevision b |}
  end.

Definition adoptRow (id : string) (latest : option MasterState) (action : ProjectionAction)
    (b : StoreBody) : StoreBody :=
  let row := rows b !! id in
  match latest with
  | None => settleRow id None (default "" (row_updatedAt <$> row)) true JNull action b
  | Some m => settleRow id (master_etag m) (master_updatedAt m) false
                (default (default JNull (row_data <$> row)) (master_data m)) action b
  end.

Definition replicaOf (id : string) (row : Row) : SyncedResourceReplica := {|
  rep_id := id; rep_acked := row_acked row; rep_etag := row_etag row;
  rep_updatedAt := row_updatedAt row; rep_deleted := row_deleted row;
  rep_data := row_data row; rep_revision := Some (RevNumber (Z.of_nat (row_revision row)))
|}.

Definition dirtyReplicas (b : StoreBody) : list SyncedResourceReplica :=
  omap (λ kv, if row_dirty kv.2 then Some (replicaOf kv.1 kv.2) else None) (map_to_list (rows b)).

(** [heldRevisions]: the ids whose row records exactly that validator. *)
Definition heldIds (b : StoreBody) (asked : list (string * string)) : gset string :=
  list_to_set (omap (λ p, match rows b !! p.1 with
                          | Some row => if bool_decide (row_etag row = Some p.2)
                                        then Some p.1 else None
                          | None => None
                          end) asked).

(** ** The world: one server and one replica *)

Record world := { server : ServerState; store : StoreState }.

Definition onServer {A} (f : ServerState → result A * ServerState) : comp world A :=
  λ w, let '(r, s) := f (server w) in (r, {| server := s; store := store w |}).
Definition onBody (f : StoreBody → StoreBody) : comp world () :=
  modify (λ w, {| server := server w;
                  store := {| st_cursor := st_cursor (store w); st_body := f (st_body (store w)) |} |}).

Definition refPort (clamp : nat) : PwsSyncPort world := {|
  port_query cp limit := gets (λ w, serverQuery clamp cp limit (server w));
  port_putContent req := onServer (serverPut req);
  port_deleteContent req := onServer (serverDelete req);
  port_get id := gets (λ w, serverGet id (server w))
|}.

Definition applyPage (documents : list WireDoc) (next : SyncCheckpoint)
    (projections : gmap string ProjectionAction) (s : StoreState) : StoreState := {|
  st_cursor := Some next;
  st_body := foldl (λ b d, reconcileDoc b d (default ProjNone (projections !! doc_id d)))
               (st_body s) documents
|}.

Definition refStore : SyncStore world := {|
  getCheckpoint := gets (λ w, st_cursor (store w));
  getDirtyResourceReplicas := gets (λ w, dirtyReplicas (st_body (store w)));
  applyPulledPage documents next projections :=
    modify (λ w, {| server := server w; store := applyPage documents next projections (store w) |});
  markPushed id etag revision := onBody (ackRow id etag revision);
  markDeletedPushed id etag revision := onBody (ackDeletedRow id etag revision);
  adoptLatest id latest action := onBody (adoptRow id latest action);
  heldRevisions := Some (λ asked, gets (λ w, heldIds (st_body (store w)) asked));
  replacePending := None
|}.

(** A log sink that drops its lines. *)
Definition nullLogger : Logger world := {| log_warn _ _ := mret () |}.

#[export] Instance nullLogger_quiet : QuietLogger nullLogger.
Proof. intros msg id w. by exists w. Qed.

(** ** The contracts are met *)

Lemma reconcileDoc_ne b d a id : id ≠ doc_id d →
  rows (reconcileDoc b d a) !! id = rows b !! id ∧
  projection (reconcileDoc b d a) !! id = projection b !! id.
Proof.
  intros Hne. unfold reconcileDoc, settleRow, refreshRow.
  assert (∀ a', applyProjection (doc_id d) a' (projection b) !! id = projection b !! id) as Hp
    by (intros []; simpl; rewrite ?lookup_insert_ne, ?lookup_delete_ne by done; done).
  destruct (doc_deleted d); simpl; [by rewrite lookup_insert_ne, lookup_delete_ne|].
  repeat case_match; simpl; rewrite lookup_insert_ne by done; by rewrite ?Hp.
Qed.

(** A document that is not deleted never deletes a projection. *)
Lemma projectionSpec_live guard d o :
  doc_deleted d = false → projectionSpec guard d o ≠ ProjDelete.
Proof. unfold projectionSpec. intros ->. by repeat case_match. Qed.

Section Model.
Context (clamp : nat) (openEnvelope : string → json → result json)
  (guard : option (json → result bool)).

Definition refDecrypt (id : string) (envelope : json) : comp world json :=
  lift (openEnvelope id envelope).

Definition docProjection (d : WireDoc) : ProjectionAction :=
  projectionSpec guard d (openEnvelope (doc_id d) (default JNull (doc_data d))).

(** Where a clean row records a document's validator, the projection holds
    what that document projects to. *)
Definition projectionReflects (feed : list WireDoc) (b : StoreBody) : Prop :=
  NoDup (doc_id <$> feed) ∧
  ∀ d row p, d ∈ feed → doc_deleted d = false → rows b !! doc_id d = Some row →
    row_dirty row = false → row_etag row = doc_etag d → docProjection d = ProjUpsert p →
    projection b !! doc_id d = Some p.

#[export] Instance refEnv : PullEnv world StoreBody := {|
  pull_view w := {| pv_feed := wireDoc <$> srv_docs (server w);
                    pv_cursor := st_cursor (store w); pv_replica := st_body (store w) |};
  feed_position := String.length;
  reconcile := reconcileDoc;
  holds_revision b id etag := ∃ row, rows b !! id = Some row ∧ row_etag row = Some etag;
  open_envelope := openEnvelope;
  payload_guard := guard;
  feed_invariant := projectionReflects;
  seam_error _ := False
|}.

Lemma projection_of_settled feed b d : NoDup (doc_id <$> feed) → projectionReflects feed b →
  d ∈ feed → projectionReflects feed (reconcileDoc b d (docProjection d)).
Proof.
  intros Hnd [_ Hb] Hd. split; [done|]. intros d' row p Hd' Hlive Hrow Hclean Hetag Hp.
  destruct (decide (doc_id d' = doc_id d)) as [Hid|Hne].
  2:{ destruct (reconcileDoc_ne b d (docProjection d) _ Hne) as [Hr ->].
      rewrite Hr in Hrow. by eapply Hb. }
  assert (d' = d) as -> by (by eapply NoDup_fmap_eq). revert Hrow.
  unfold reconcileDoc. rewrite Hlive, Hp. unfold settleRow, refreshRow.
  repeat case_match; simplify_eq/=; rewrite lookup_insert_eq; intros; simplify_eq/=; try congruence.
  all: by rewrite lookup_insert_eq.
Qed.

#[export] Instance refContract :
  PullContract nullLogger (refPort clamp) refStore refDecrypt.
Proof.
  split; unfold triple, at_view, failed_at.
  - intros s limit Hl w <-. simpl. split; [done|]. eexists. split_and!; [reflexivity| |done].
    unfold pv_rest; simpl. destruct limit as [|limit]; [lia|]. simpl.
    destruct (st_cursor (store w)); simpl;
      [by destruct (filter _ _)|by destruct (srv_docs (server w))].
  - intros s w <-. done.
  - intros s documents next projections w <-. done.
  - intros s id envelope w <-. done.
  - intros s msg id w <-. done.
  - intros s held asked [= <-] Hnd w <-. simpl. split; [done|].
    intros id etag Hin Hheld. unfold heldIds in Hheld.
    apply elem_of_list_to_set, list_elem_of_omap in Hheld as ([id' etag']&Hin'&Hrow).
    simpl in Hrow. destruct (rows (st_body (store w)) !! id') as [row|] eqn:Hr; [|done].
    case_bool_decide as He; simplify_eq/=.
    assert ((id, etag) = (id, etag')) as [= ->] by (by eapply (NoDup_fmap_eq fst)). eauto.
  - intros feed b d etag [Hnd Hb] Hd Het (row&Hrow&Hr). simpl. unfold reconcileDoc.
    destruct (doc_deleted d) eqn:Hlive; [done|]. rewrite Hrow.
    destruct (row_dirty row) eqn:Hdirty; [done|]. unfold settleRow. f_equal. simpl.
    destruct (doc_action d) as [p| |] eqn:Ha; [|by apply projectionSpec_live in Ha|done].
    simpl. rewrite insert_id; [done|]. eapply Hb; [done..|congruence|done].
  - intros b d a id etag Hne. simpl. by destruct (reconcileDoc_ne b d a id Hne) as [-> _].
  - intros feed b d Hb Hd. by apply projection_of_settled; [apply Hb|..].
Qed.
End Model.

(** A page that lists one id twice: the replica's own echo, and another
    writer's revision under the same id. The suppression is keyed by the id
    alone, so the other revision is not decrypted either, though the store
    never confirmed it. *)
Example echo_suppresses_its_namesake :
  let own := {| doc_id := "a"; doc_deleted := false; doc_updatedAt := "1"; doc_checkpoint := "1";
                doc_etag := Some "e1"; doc_writerId := Some "me"; doc_data := Some JNull |} in
  let other := {| doc_id := "a"; doc_deleted := false; doc_updatedAt := "2"; doc_checkpoint := "2";
                  doc_etag := Some "e2"; doc_writerId := Some "you";
                  doc_data := Some (JStr "theirs") |} in
  let row := {| row_acked := true; row_etag := Some "e1"; row_updatedAt := "1";
                row_deleted := false; row_data := JNull; row_dirty := false; row_revision := 1 |} in
  let w := {| server := {| srv_docs := []; srv_tick := 0 |};
              store := {| st_cursor := None;
                          st_body := {| rows := {["a" := row]}; projection := ∅;
                                        nextRevision := 1 |} |} |} in
  (bool_decide ("a" ∈ heldIds (st_body (store w)) [("a", "e2")]),
   match (heldEchoes refStore [own; other] (Some "me") w).1 with
   | Ok held => bool_decide (doc_id other ∈ held)
   | Throw _ => false
   end) = (false, true).
Proof. vm_compute. reflexivity. Qed.
