(* ===== verification/SyncConvergence.v ===== *)
(** * Convergence of the replication cycle

    Over the reference server and store, a push followed by a pull leaves a
    replica of an insert-only content-addressed collection with nothing
    dirty and exactly the server's live resources, and two replicas that
    cycle in turn hold the same live resources. *)

From S2P Require Import Prelude Json SyncPull SyncPush SyncModel.

Section Convergence.
Context (clamp : nat) (openEnvelope : string → json → result json)
  (guard : option (json → result bool)).
(** The collection is content-addressed: an id names one body. *)
Context (body : string → json).

(** What the body of an id projects to. *)
Definition bodyAction (id : string) : ProjectionAction :=
  docProjection openEnvelope guard
    (wireDoc {| sd_id := id; sd_tick := 0; sd_deleted := false;
                sd_data := body id; sd_writerId := None |}).

Definition seen (c : option SyncCheckpoint) (d : SrvDoc) : Prop :=
  match c with Some c => sd_tick d ≤ String.length c | None => False end.

(** The state of one server and one of its replicas between cycles. *)
Record sync_inv (srv : ServerState) (c : option SyncCheckpoint) (b : StoreBody) : Prop := {
  si_ids : NoDup (sd_id <$> srv_docs srv);
  si_sorted : StronglySorted (λ d d', sd_tick d < sd_tick d') (srv_docs srv);
  si_ticks : ∀ d, d ∈ srv_docs srv → sd_tick d ≤ srv_tick srv;
  si_cursor : ∀ c', c = Some c' → String.length c' ≤ srv_tick srv;
  si_doc_body : ∀ d, d ∈ srv_docs srv → sd_deleted d = false → sd_data d = body (sd_id d);
  si_row_body : ∀ id row, rows b !! id = Some row → row_deleted row = false →
    row_data row = body id;
  (** A resource the cursor is past has a row, and a clean row says what
      the server says. *)
  si_seen : ∀ d, d ∈ srv_docs srv → seen c d → ∃ row, rows b !! sd_id d = Some row ∧
    (row_dirty row = false → row_deleted row = sd_deleted d);
  (** A clean live row is backed by a resource. *)
  si_clean : ∀ id row, rows b !! id = Some row → row_dirty row = false →
    row_deleted row = false → ∃ d, d ∈ srv_docs srv ∧ sd_id d = id;
  si_etag_bound : ∀ id row e, rows b !! id = Some row → row_etag row = Some e →
    String.length e ≤ srv_tick srv;
  si_etag : ∀ id row d, rows b !! id = Some row → row_dirty row = false →
    d ∈ srv_docs srv → sd_id d = id → row_etag row = Some (stamp (sd_tick d)) →
    row_deleted row = sd_deleted d;
  si_projection : ∀ id row p, rows b !! id = Some row → row_deleted row = false →
    bodyAction id = ProjUpsert p → projection b !! id = Some p
}.

(** A write of this collection on the server. *)
Definition write_step (s s' : ServerState) : Prop :=
  ∃ id deleted data writerId, (deleted = false → data = body id) ∧
    s' = writeDoc id deleted data writerId s.

Lemma elem_of_writeDoc id deleted data wid s d :
  d ∈ srv_docs (writeDoc id deleted data wid s) ↔
  (d ∈ srv_docs s ∧ sd_id d ≠ id) ∨
  d = {| sd_id := id; sd_tick := S (srv_tick s); sd_deleted := deleted; sd_data := data;
         sd_writerId := wid |}.
Proof. simpl. rewrite elem_of_app, list_elem_of_filter, list_elem_of_singleton. naive_solver. Qed.

(** A write by anyone keeps every replica's invariant. *)
Lemma inv_write s s' c b : sync_inv s c b → write_step s s' → sync_inv s' c b.
Proof.
  intros Hi (id&del&data&wid&Hdata&->). split.
  - simpl. rewrite fmap_app. apply NoDup_app. split_and!.
    + apply NoDup_fmap_filter, Hi.
    + intros x (d&->&[? _]%list_elem_of_filter)%list_elem_of_fmap. simpl. set_solver.
    + apply NoDup_singleton.
  - simpl. apply StronglySorted_app_2; [|apply StronglySorted_filter, Hi|repeat constructor].
    intros d d' [_ Hd]%list_elem_of_filter ->%list_elem_of_singleton. simpl.
    apply (si_ticks _ _ _ Hi) in Hd. lia.
  - intros d [[Hd _]| ->]%elem_of_writeDoc; simpl; [|lia]. apply (si_ticks _ _ _ Hi) in Hd. lia.
  - intros c' Hc. simpl. apply (si_cursor _ _ _ Hi) in Hc. lia.
  - intros d [[Hd _]| ->]%elem_of_writeDoc; simpl; [by apply (si_doc_body _ _ _ Hi)|done].
  - apply (si_row_body _ _ _ Hi).
  - intros d [[Hd _]| ->]%elem_of_writeDoc Hseen; [by apply (si_seen _ _ _ Hi)|].
    destruct c as [c|]; [|done]. simpl in Hseen. pose proof (si_cursor _ _ _ Hi c eq_refl). lia.
  - intros id' row Hrow Hc Hl. destruct (si_clean _ _ _ Hi id' row Hrow Hc Hl) as (d&Hd&<-).
    destruct (decide (sd_id d = id)) as [<-|].
    + eexists. rewrite elem_of_writeDoc. split; [by right|done].
    + exists d. rewrite elem_of_writeDoc. auto.
  - intros id' row e Hrow He. simpl. apply (si_etag_bound _ _ _ Hi id' row e Hrow) in He. lia.
  - intros id' row d Hrow Hc [[Hd _]| ->]%elem_of_writeDoc Hid He.
    + by eapply (si_etag _ _ _ Hi).
    + pose proof (si_etag_bound _ _ _ Hi _ _ _ Hrow He) as Hb. simpl in Hb.
      rewrite length_stamp in Hb. lia.
  - apply (si_projection _ _ _ Hi).
Qed.

(** Settling one row to what the server says of its resource keeps the
    invariant. *)
Lemma inv_settle s c b b' id row' : sync_inv s c b →
  rows b' = <[id := row']> (rows b) →
  (∀ id', id' ≠ id → projection b' !! id' = projection b !! id') →
  (row_deleted row' = false → row_data row' = body id ∧
     (∀ p, bodyAction id = ProjUpsert p → projection b' !! id = Some p) ∧
     ∃ d, d ∈ srv_docs s ∧ sd_id d = id) →
  (∀ d, d ∈ srv_docs s → sd_id d = id → row_deleted row' = sd_deleted d) →
  (∀ e, row_etag row' = Some e → String.length e ≤ srv_tick s) →
  sync_inv s c b'.
Proof.
  intros Hi Hr Hp Hlive Hdel Hetag. split; try apply Hi.
  - intros id' row. rewrite Hr. intros [[<- <-]|[? ?]]%lookup_insert_Some Hd.
    + by apply Hlive.
    + by eapply (si_row_body _ _ _ Hi).
  - intros d Hd Hseen. rewrite Hr. destruct (decide (sd_id d = id)) as [<-|Hne].
    + rewrite lookup_insert_eq. exists row'. auto.
    + rewrite lookup_insert_ne by done. by apply (si_seen _ _ _ Hi).
  - intros id' row. rewrite Hr. intros [[<- <-]|[? ?]]%lookup_insert_Some Hc Hl.
    + by apply Hlive.
    + by eapply (si_clean _ _ _ Hi).
  - intros id' row e. rewrite Hr. intros [[<- <-]|[? ?]]%lookup_insert_Some He; [auto|].
    by eapply (si_etag_bound _ _ _ Hi).
  - intros id' row d. rewrite Hr. intros [[<- <-]|[? ?]]%lookup_insert_Some Hc Hd Hid He; [auto|].
    by eapply (si_etag _ _ _ Hi).
  - intros id' row p. rewrite Hr. intros [[<- <-]|[? ?]]%lookup_insert_Some Hl Ha.
    + by apply Hlive.
    + rewrite Hp by done. by eapply (si_projection _ _ _ Hi).
Qed.

(** ** The push *)

Lemma findDoc_Some id docs d : findDoc id docs = Some d → d ∈ docs ∧ sd_id d = id.
Proof.
  unfold findDoc. destruct (filter _ docs) as [|d' ds] eqn:Hf; simpl; [done|]. intros [= ->].
  assert (d ∈ filter (λ d, sd_id d = id) docs) as [? ?]%list_elem_of_filter
    by (rewrite Hf; by left). done.
Qed.

Lemma findDoc_unique s c b d : sync_inv s c b → d ∈ srv_docs s →
  findDoc (sd_id d) (srv_docs s) = Some d.
Proof.
  intros Hi Hd. unfold findDoc.
  destruct (filter (λ d', sd_id d' = sd_id d) (srv_docs s)) as [|d' ds] eqn:Hf.
  - assert (d ∈ filter (λ d', sd_id d' = sd_id d) (srv_docs s)) as Hin
      by (by apply list_elem_of_filter). rewrite Hf in Hin. by apply elem_of_nil in Hin.
  - simpl. f_equal. assert (d' ∈ filter (λ d', sd_id d' = sd_id d) (srv_docs s)) as Hin
      by (rewrite Hf; by left). apply list_elem_of_filter in Hin as [Hid Hin].
    by eapply NoDup_fmap_eq; [apply Hi|..].
Qed.

Definition inv_world (w : world) : Prop :=
  sync_inv (server w) (st_cursor (store w)) (st_body (store w)).

(** What pushing the dirty row of [id] does: the server took writes of the
    collection, the row is clean, and every other row is untouched. *)
Definition pushed_row (id : string) (w w' : world) : Prop :=
  rtc write_step (server w) (server w') ∧ inv_world w' ∧
  st_cursor (store w') = st_cursor (store w) ∧
  ∃ row', row_dirty row' = false ∧
    rows (st_body (store w')) = <[id := row']> (rows (st_body (store w))).

Lemma pushed_row_write id row row' w w' deleted data wid :
  inv_world w → rows (st_body (store w)) !! id = Some row →
  row_deleted row = deleted → (deleted = false → data = row_data row) →
  server w' = writeDoc id deleted data wid (server w) →
  st_cursor (store w') = st_cursor (store w) →
  rows (st_body (store w')) = <[id := row']> (rows (st_body (store w))) →
  projection (st_body (store w')) = projection (st_body (store w)) →
  row_dirty row' = false → row_deleted row' = row_deleted row →
  (deleted = false → row_data row' = row_data row) →
  row_etag row' = Some (stamp (S (srv_tick (server w)))) →
  pushed_row id w w'.
Proof.
  intros Hi Hrow Hdel Hdata Hs Hc Hr Hp Hclean Hdel' Hdata' He.
  assert (write_step (server w) (server w')) as Hstep.
  { exists id, deleted, data, wid. split; [|done]. intros Hd. rewrite Hdata by done.
    eapply (si_row_body _ _ _ Hi); [done|congruence]. }
  split_and!; [by apply rtc_once| |done|by exists row'].
  unfold inv_world. rewrite Hc. eapply inv_settle; [by eapply inv_write|done|by rewrite Hp|..].
  - intros Hl. split_and!.
    + rewrite Hdata' by congruence. eapply (si_row_body _ _ _ Hi); [done|congruence].
    + rewrite Hp. intros p. eapply (si_projection _ _ _ Hi); [done|congruence].
    + rewrite Hs. eexists. rewrite elem_of_writeDoc. split; [by right|done].
  - intros d Hd Hid. rewrite Hs in Hd. apply elem_of_writeDoc in Hd as [[_ ?]| ->]; [done|].
    simpl. congruence.
  - intros e. rewrite He, Hs. intros [= <-]. simpl. rewrite length_stamp. lia.
Qed.

(** Adopting the server's state of a resource without a write. *)
Lemma pushed_row_settle id row row' w w' : inv_world w →
  rows (st_body (store w)) !! id = Some row → server w' = server w →
  st_cursor (store w') = st_cursor (store w) →
  rows (st_body (store w')) = <[id := row']> (rows (st_body (store w))) →
  (∀ id', id' ≠ id → projection (st_body (store w')) !! id' = projection (st_body (store w)) !! id') →
  row_dirty row' = false →
  (row_deleted row' = false → row_deleted row = false ∧ row_data row' = body id ∧
     projection (st_body (store w')) = projection (st_body (store w)) ∧
     ∃ d, d ∈ srv_docs (server w) ∧ sd_id d = id) →
  (∀ d, d ∈ srv_docs (server w) → sd_id d = id → row_deleted row' = sd_deleted d) →
  (∀ e, row_etag row' = Some e → String.length e ≤ srv_tick (server w)) →
  pushed_row id w w'.
Proof.
  intros Hi Hrow Hs Hc Hr Hp Hclean Hl Hd He.
  split_and!; [by rewrite Hs| |done|by exists row'].
  unfold inv_world. rewrite Hc, Hs. eapply inv_settle; [done..| |done|done].
  intros Hdel. destruct (Hl Hdel) as (Hdel'&?&Hp'&?). split_and!; [done| |done].
  rewrite Hp'. intros p. by eapply (si_projection _ _ _ Hi).
Qed.

Lemma serverPut_cases req s :
  serverPut req s = (Ok {| ack_etag := Some (stamp (S (srv_tick s))) |},
    writeDoc (put_id req) false (put_data req) (put_writerId req) s) ∨
  serverPut req s = (Throw conflict_error, s).
Proof. unfold serverPut. repeat case_match; auto. Qed.

Lemma ackRow_current id row etag b : rows b !! id = Some row →
  ackRow id (Some etag) (Some (RevNumber (Z.of_nat (row_revision row)))) b = {|
    rows := <[id := {| row_acked := true; row_etag := Some etag;
                       row_updatedAt := row_updatedAt row; row_deleted := row_deleted row;
                       row_data := row_data row; row_dirty := false;
                       row_revision := row_revision row |}]> (rows b);
    projection := projection b; nextRevision := nextRevision b |}.
Proof. intros Hrow. unfold ackRow. rewrite Hrow. by rewrite bool_decide_eq_true_2. Qed.

Lemma ackDeletedRow_current id row etag b : rows b !! id = Some row →
  ackDeletedRow id etag (Some (RevNumber (Z.of_nat (row_revision row)))) b = {|
    rows := <[id := {| row_acked := true;
                       row_etag := match etag with Some _ => etag | None => row_etag row end;
                       row_updatedAt := row_updatedAt row; row_deleted := true;
                       row_data := JNull; row_dirty := false;
                       row_revision := row_revision row |}]> (rows b);
    projection := projection b; nextRevision := nextRevision b |}.
Proof. intros Hrow. unfold ackDeletedRow. rewrite Hrow. by rewrite bool_decide_eq_true_2. Qed.

Lemma pushUpsert_run wid id row w : inv_world w →
  rows (st_body (store w)) !! id = Some row → row_deleted row = false →
  ∃ w', pushUpsert (refPort clamp) refStore (replicaOf id row) None wid w = (Ok false, w') ∧
    pushed_row id w w'.
Proof.
  intros Hi Hrow Hdel. destruct w as [srv [c b]]. simpl in Hrow.
  unfold pushUpsert, try_catch, mbind, comp_bind. simpl. unfold onServer; simpl.
  match goal with |- context [serverPut ?r srv] => destruct (serverPut_cases r srv) as [-> | ->] end;
    simpl.
  - eexists. split; [done|]. erewrite ackRow_current by done.
    by eapply pushed_row_write with (deleted := false).
  - unfold serverGet. destruct (findDoc id (srv_docs srv)) as [d|] eqn:Hf.
    + apply findDoc_Some in Hf as [Hd <-]. assert (∀ d', d' ∈ srv_docs srv → sd_id d' = sd_id d → d' = d)
        as Hu by (intros d' ??; by eapply NoDup_fmap_eq; [apply Hi|..]).
      destruct (sd_deleted d) eqn:Hdd; simpl; eexists; (split; [done|]).
      * eapply pushed_row_settle; simpl; try done.
        -- intros id' Hne. by rewrite lookup_delete_ne.
        -- by intros d' ? ->%Hu.
      * eapply pushed_row_settle; simpl; try done.
        -- intros _. split_and!; [done|by apply (si_doc_body _ _ _ Hi)|done|by exists d].
        -- by intros d' ? ->%Hu.
        -- intros e [= <-]. rewrite length_stamp. by apply (si_ticks _ _ _ Hi).
    + simpl. eexists. split; [done|]. eapply pushed_row_settle; simpl; try done.
      * intros id' Hne. by rewrite lookup_delete_ne.
      * intros d Hd <-. pose proof (findDoc_unique _ _ _ _ Hi Hd). simpl in *. congruence.
Qed.

Lemma tryDelete_ok wid d id row w m : inv_world w →
  rows (st_body (store w)) !! id = Some row → row_deleted row = true →
  d ∈ srv_docs (server w) → sd_id d = id → sd_deleted d = false →
  etagMismatch m (Some d) = false →
  ∃ w', tryDelete (refPort clamp) refStore id m
      (Some (RevNumber (Z.of_nat (row_revision row)))) wid w = (Ok true, w') ∧ pushed_row id w w'.
Proof.
  intros Hi Hrow Hdel Hd Hid Hlive Hm. destruct w as [srv [c b]]. simpl in *.
  unfold tryDelete, try_catch, mbind, comp_bind. simpl. unfold onServer, serverDelete; simpl.
  subst id. pose proof (findDoc_unique _ _ _ _ Hi Hd) as Hf. simpl in Hf.
  rewrite Hf, Hlive, Hm. simpl.
  eexists. split; [done|]. erewrite ackDeletedRow_current by done.
  eapply (pushed_row_write (sd_id d) row) with (deleted := true) (data := JNull); simpl; done || congruence.
Qed.

Lemma pushDelete_run wid id row w : inv_world w →
  rows (st_body (store w)) !! id = Some row → row_deleted row = true →
  ∃ w', pushDelete (refPort clamp) refStore (replicaOf id row) wid w = (Ok (), w') ∧
    pushed_row id w w'.
Proof.
  intros Hi Hrow Hdel. unfold pushDelete. simpl.
  set (m := if row_acked row then row_etag row else None).
  destruct (findDoc id (srv_docs (server w))) as [d|] eqn:Hf;
    [apply findDoc_Some in Hf as Hd'; destruct Hd' as [Hd Hid]; destruct (sd_deleted d) eqn:Hdd|].
  2: destruct (etagMismatch m (Some d)) eqn:Hm.
  3: { destruct (tryDelete_ok wid d id row w m) as (w'&Hrun&Hp); [done..|].
       exists w'. split; [|done]. unfold mbind, comp_bind. by rewrite Hrun. }
  2: { destruct (tryDelete_ok wid d id row w (Some (stamp (sd_tick d)))) as (w'&Hrun&Hp); [done..| |].
       { simpl. by rewrite bool_decide_eq_true_2. }
       exists w'. split; [|done]. unfold mbind, comp_bind.
       assert (tryDelete (refPort clamp) refStore id m
         (Some (RevNumber (Z.of_nat (row_revision row)))) wid w = (Ok false, w)) as ->.
       { unfold tryDelete, try_catch, mbind, comp_bind; simpl. unfold onServer, serverDelete; simpl.
         rewrite Hf, Hdd, Hm. by destruct w. }
       simpl. unfold serverGet. rewrite Hf, Hdd. simpl. by rewrite Hrun. }
  all: assert (∃ w', tryDelete (refPort clamp) refStore id m
         (Some (RevNumber (Z.of_nat (row_revision row)))) wid w = (Ok true, w') ∧
         pushed_row id w w') as (w'&Hrun&Hp).
  2,4: exists w'; split; [|done]; unfold mbind, comp_bind; by rewrite Hrun.
  all: unfold tryDelete, try_catch, mbind, comp_bind; simpl;
    unfold onServer, serverDelete; simpl; rewrite Hf, ?Hdd; simpl.
  all: destruct w as [srv [c b]]; eexists; split; [done|]; simpl;
    erewrite ackDeletedRow_current by done; eapply (pushed_row_settle _ row); simpl; try done.
  all: try (intros e He; by eapply (si_etag_bound _ _ _ Hi)).
  - intros d' Hd' Hid'. assert (d' = d) as ->; [|done].
    eapply NoDup_fmap_eq; [apply Hi|done|done|congruence].
  - intros d' Hd' <-. pose proof (findDoc_unique _ _ _ _ Hi Hd'). simpl in *. congruence.
Qed.

Definition no_dirty (b : StoreBody) : Prop :=
  ∀ id row, rows b !! id = Some row → row_dirty row = false.

Lemma pushReplicas_run wid l w acc : inv_world w → NoDup (fst <$> l) →
  (∀ id row, (id, row) ∈ l → rows (st_body (store w)) !! id = Some row) →
  (∀ id row, rows (st_body (store w)) !! id = Some row → row_dirty row = true → id ∈ fst <$> l) →
  ∃ res w', pushReplicas (refPort clamp) refStore ((λ kv, replicaOf kv.1 kv.2) <$> l) None wid None
      acc w = (Ok res, w') ∧
    rtc write_step (server w) (server w') ∧ inv_world w' ∧
    st_cursor (store w') = st_cursor (store w) ∧ no_dirty (st_body (store w')).
Proof.
  revert w acc. induction l as [|[id row] l IH]; intros w acc Hi Hnd Hl Hdirty.
  { exists acc, w. split_and!; [done..|]. intros id row Hrow. apply not_true_iff_false.
    intros Hd. by apply (Hdirty id row Hrow), elem_of_nil in Hd. }
  rewrite fmap_cons in Hnd. apply NoDup_cons in Hnd as [Hid Hnd]. simpl in Hid.
  assert (rows (st_body (store w)) !! id = Some row) as Hrow by (apply Hl; by left).
  assert (∃ w1, (if row_deleted row
      then pushDelete (refPort clamp) refStore (replicaOf id row) wid;; mret false
      else pushUpsert (refPort clamp) refStore (replicaOf id row) None wid) w = (Ok false, w1) ∧
    pushed_row id w w1) as (w1&Hrun&Hst&Hi1&Hc1&row'&Hclean&Hr).
  { destruct (row_deleted row) eqn:Hdel; [|by apply pushUpsert_run].
    destruct (pushDelete_run wid id row w) as (w1&Hrun&Hp); [done..|].
    exists w1. split; [|done]. unfold mbind, comp_bind. by rewrite Hrun. }
  destruct (IH w1 {| pushed := pushed acc + 1; conflictsResolved := conflictsResolved acc + 0 |})
    as (res&w'&Hrest&Hst'&Hi'&Hc'&Hnd'); [done|done|..].
  { intros id' row1 Hin. rewrite Hr, lookup_insert_ne; [apply Hl; by right|].
    intros <-. apply Hid. apply (list_elem_of_fmap_2 fst _ _ Hin). }
  { intros id' row1. rewrite Hr. intros [[<- <-]|[Hne Hrow1]]%lookup_insert_Some Hd; [congruence|].
    apply (Hdirty id' row1 Hrow1) in Hd. rewrite fmap_cons in Hd. set_solver. }
  exists res, w'. split_and!; [|by etrans|done|congruence|done].
  simpl. unfold mbind at 1, comp_bind at 1. simpl. unfold mbind at 1, comp_bind at 1.
  rewrite Hrun. done.
Qed.

Lemma dirtyReplicas_filter b : dirtyReplicas b =
  (λ kv, replicaOf kv.1 kv.2) <$>
    filter (λ kv, row_dirty kv.2 = true) (map_to_list (rows b)).
Proof.
  unfold dirtyReplicas. induction (map_to_list (rows b)) as [|[id row] l IH]; [done|].
  simpl. rewrite filter_cons. simpl. destruct (row_dirty row); simpl; [f_equal|]; exact IH.
Qed.

Lemma runPush_run wid w : inv_world w →
  ∃ res w', runPush (refPort clamp) refStore None wid None w = (Ok res, w') ∧
    rtc write_step (server w) (server w') ∧ inv_world w' ∧
    st_cursor (store w') = st_cursor (store w) ∧ no_dirty (st_body (store w')).
Proof.
  intros Hi. unfold runPush, mbind at 1, comp_bind at 1. simpl. rewrite dirtyReplicas_filter.
  apply pushReplicas_run; [done|..].
  - apply NoDup_fmap_filter, NoDup_fst_map_to_list.
  - intros id row [_ Hin]%list_elem_of_filter. by apply elem_of_map_to_list.
  - intros id row Hrow Hd. apply list_elem_of_fmap. exists (id, row). split; [done|].
    apply list_elem_of_filter. split; [done|]. by apply elem_of_map_to_list.
Qed.

(** A push with nothing dirty is a no-op. *)
Lemma runPush_clean wid w : no_dirty (st_body (store w)) →
  (runPush (refPort clamp) refStore None wid None w).2 = w.
Proof.
  intros Hnd. unfold runPush, mbind, comp_bind. simpl. rewrite dirtyReplicas_filter, filter_none.
  { done. }
  intros [id row] Hin%elem_of_map_to_list. simpl. rewrite (Hnd id row Hin). done.
Qed.

(** ** The pull *)

#[local] Instance env : PullEnv world StoreBody := refEnv openEnvelope guard.
#[local] Instance contract : PullContract nullLogger (refPort clamp) refStore
  (refDecrypt openEnvelope) := refContract clamp openEnvelope guard.

(** The replica says of a resource what the server says. *)
Definition agrees (b : StoreBody) (d : SrvDoc) : Prop :=
  ∃ row, rows b !! sd_id d = Some row ∧ row_deleted row = sd_deleted d.

Lemma docProjection_body s c b d : sync_inv s c b → d ∈ srv_docs s → sd_deleted d = false →
  docProjection openEnvelope guard (wireDoc d) = bodyAction (sd_id d).
Proof.
  intros Hi Hd Hlive. unfold bodyAction, docProjection, projectionSpec, wireDoc; simpl.
  by rewrite Hlive, (si_doc_body _ _ _ Hi).
Qed.

Lemma reconcile_inv s c b d : sync_inv s c b → no_dirty b → d ∈ srv_docs s →
  let b' := reconcileDoc b (wireDoc d) (docProjection openEnvelope guard (wireDoc d)) in
  sync_inv s c b' ∧ no_dirty b' ∧ agrees b' d ∧
  (∀ d', d' ∈ srv_docs s → agrees b d' → agrees b' d').
Proof.
  intros Hi Hnd Hd b'.
  assert (∃ row', rows b' = <[sd_id d := row']> (rows b) ∧ row_dirty row' = false ∧
    row_deleted row' = sd_deleted d ∧ (sd_deleted d = false → row_data row' = sd_data d) ∧
    row_etag row' = Some (stamp (sd_tick d)) ∧
    (sd_deleted d = false → projection b' =
       applyProjection (sd_id d) (bodyAction (sd_id d)) (projection b))) as
    (row'&Hr&Hclean&Hdel&Hdata&He&Hp).
  { unfold b', reconcileDoc. simpl. destruct (sd_deleted d) eqn:Hdel; simpl.
    - eexists. split; [reflexivity|]. done.
    - assert (match rows b !! sd_id d with
              | Some row => if row_dirty row then Some row else None
              | None => None end = None) as ->.
      { destruct (rows b !! sd_id d) eqn:Hrow; [|done]. by rewrite (Hnd _ _ Hrow). }
      rewrite (docProjection_body _ _ _ _ Hi Hd Hdel).
      eexists. split; [reflexivity|]. done. }
  assert (∀ d', d' ∈ srv_docs s → sd_id d' = sd_id d → d' = d) as Hu
    by (intros d' ??; eapply NoDup_fmap_eq; [apply Hi|done..]).
  split_and!.
  - eapply inv_settle; [done..| | | |].
    + intros id' Hne. by apply reconcileDoc_ne.
    + rewrite Hdel. intros Hlive. split_and!.
      * rewrite Hdata by done. by apply (si_doc_body _ _ _ Hi).
      * intros p Ha. rewrite Hp, Ha by done. simpl. apply lookup_insert_eq.
      * by exists d.
    + by intros d' ? ->%Hu.
    + rewrite He. intros e [= <-]. rewrite length_stamp. by apply (si_ticks _ _ _ Hi).
  - intros id row. rewrite Hr. intros [[<- <-]|[? ?]]%lookup_insert_Some; [done|by eapply Hnd].
  - exists row'. by rewrite Hr, lookup_insert_eq.
  - intros d' Hd' (row&Hrow&Hag). destruct (decide (sd_id d' = sd_id d)) as [->%Hu|Hne]; [|done|].
    + exists row'. by rewrite Hr, lookup_insert_eq.
    + exists row. by rewrite Hr, lookup_insert_ne.
Qed.

Lemma reconcile_all_inv s c ds b : sync_inv s c b → no_dirty b →
  (∀ d, d ∈ ds → d ∈ srv_docs s) →
  let b' := reconcile_all b (wireDoc <$> ds) in
  sync_inv s c b' ∧ no_dirty b' ∧
  ∀ d, d ∈ srv_docs s → d ∈ ds ∨ agrees b d → agrees b' d.
Proof.
  revert b. induction ds as [|d ds IH]; intros b Hi Hnd Hin.
  { split_and!; [done..|]. intros d _ [[]%elem_of_nil|?]; done. }
  destruct (reconcile_inv s c b d) as (Hi'&Hnd'&Hag&Hst); [done..|apply Hin; by left|].
  destruct (IH _ Hi' Hnd') as (Hi2&Hnd2&Hag2); [intros; apply Hin; by right|].
  split_and!; [done..|]. intros d' Hd' Hc. apply Hag2; [done|].
  destruct Hc as [[-> |?]%elem_of_cons|?]; auto.
Qed.

Lemma feed_well_formed s c b : sync_inv s c b → well_formed_feed (wireDoc <$> srv_docs s).
Proof.
  intros Hi. split.
  - rewrite <-list_fmap_compose. apply (si_ids _ _ _ Hi).
  - apply (StronglySorted_fmap _ (λ d d', sd_tick d < sd_tick d')); [|apply Hi].
    intros d d'. unfold before; simpl. by rewrite !length_stamp.
Qed.

Lemma inv_reflects s c b : sync_inv s c b →
  projectionReflects openEnvelope guard (wireDoc <$> srv_docs s) b.
Proof.
  intros Hi. split; [apply (feed_well_formed s c b Hi)|].
  intros wd row p (d&->&Hd)%list_elem_of_fmap Hlive Hrow Hclean He Hp. simpl in *.
  eapply (si_projection _ _ _ Hi); [done| |by rewrite <-(docProjection_body s c b)].
  rewrite <-Hlive. by eapply (si_etag _ _ _ Hi).
Qed.

Lemma rest_docs w : ∃ ds,
  pv_rest (pull_view w) = wireDoc <$> ds ∧ (∀ d, d ∈ ds → d ∈ srv_docs (server w)) ∧
  (∀ d, d ∈ srv_docs (server w) → d ∈ ds ∨ seen (st_cursor (store w)) d).
Proof.
  unfold pv_rest; simpl. destruct (st_cursor (store w)) as [c|]; simpl.
  - exists (filter (λ d, String.length c < sd_tick d) (srv_docs (server w))). split_and!.
    + induction (srv_docs (server w)) as [|d ds IH]; [done|].
      rewrite fmap_cons, !filter_cons. simpl. rewrite length_stamp.
      case_decide; [by rewrite fmap_cons, IH|done].
    + by intros d [_ ?]%list_elem_of_filter.
    + intros d Hd. rewrite list_elem_of_filter. destruct (decide (String.length c < sd_tick d)); [auto|].
      right. lia.
  - exists (srv_docs (server w)). auto.
Qed.

(** Where every resource is agreed, the replica is the server's. *)
Definition replica_live (b : StoreBody) (id : string) : option json :=
  rows b !! id ≫= λ row, if row_deleted row then None else Some (row_data row).
Definition server_live (s : ServerState) (id : string) : option json :=
  findDoc id (srv_docs s) ≫= λ d, if sd_deleted d then None else Some (sd_data d).

Lemma agreed_live s c b : sync_inv s c b → no_dirty b →
  (∀ d, d ∈ srv_docs s → agrees b d) → ∀ id, replica_live b id = server_live s id.
Proof.
  intros Hi Hnd Hag id. unfold replica_live, server_live.
  destruct (findDoc id (srv_docs s)) as [d|] eqn:Hf; simpl.
  - apply findDoc_Some in Hf as [Hd <-]. destruct (Hag d Hd) as (row&Hrow&Hdel). rewrite Hrow. simpl.
    rewrite <-Hdel. destruct (row_deleted row) eqn:Hr; [done|].
    by rewrite (si_row_body _ _ _ Hi _ _ Hrow Hr), (si_doc_body _ _ _ Hi).
  - destruct (rows b !! id) as [row|] eqn:Hrow; [|done]. simpl.
    destruct (row_deleted row) eqn:Hr; [done|].
    destruct (si_clean _ _ _ Hi _ _ Hrow (Hnd _ _ Hrow) Hr) as (d&Hd&<-).
    pose proof (findDoc_unique _ _ _ _ Hi Hd). congruence.
Qed.

(** Moving the cursor is harmless once everything is agreed. *)
Lemma inv_cursor s c c' b : sync_inv s c b → no_dirty b →
  (∀ d, d ∈ srv_docs s → agrees b d) →
  (∀ c'', c' = Some c'' → String.length c'' ≤ srv_tick s) → sync_inv s c' b.
Proof.
  intros Hi Hnd Hag Hc. split; try apply Hi; [done|].
  intros d Hd _. destruct (Hag d Hd) as (row&?&?). eauto.
Qed.

(** A pull writes nothing to the server. *)
Lemma runPull_server fuel batchSize wid w :
  server (runPull nullLogger fuel (refPort clamp) refStore batchSize
    (refDecrypt openEnvelope) guard wid None w).2 = server w.
Proof.
  assert (preserves (λ w', server w' = server w) (runPull nullLogger fuel (refPort clamp)
    refStore batchSize (refDecrypt openEnvelope) guard wid None)) as Hs.
  { apply runPull_preserves.
    4: intros held asked Hh; injection Hh as <-.
    6: intros; apply triple_lift; intros w' Hw'; by case_match.
    all: intros; intros w' Hw'; exact Hw'. }
  specialize (Hs w eq_refl). by destruct (runPull _ _ _ _ _ _ _ _ _ w) as [[] ?].
Qed.

Lemma runPull_run batchSize wid fuel w : 0 < batchSize → inv_world w →
  no_dirty (st_body (store w)) → length (srv_docs (server w)) < fuel →
  ∃ res w', runPull nullLogger fuel (refPort clamp) refStore batchSize
      (refDecrypt openEnvelope) guard wid None w = (Ok (Some res), w') ∧
    server w' = server w ∧ inv_world w' ∧ no_dirty (st_body (store w')) ∧
    (∀ id, replica_live (st_body (store w')) id = server_live (server w') id).
Proof.
  intros Hb Hi Hnd Hfuel. set (s := pull_view w).
  assert (well_formed_feed (pv_feed s)) as Hwf by (by eapply feed_well_formed).
  assert (pull_at s {| applied := 0; suppressed := 0 |} w) as Hat
    by (apply pull_start; [done|by eapply inv_reflects]).
  destruct (rest_docs w) as (ds&Hds&Hsub&Hcov). fold s in Hds.
  assert (length (pv_rest s) < fuel) as Hfuel'.
  { destruct (pv_rest_suffix s Hwf) as [pre Hpre]. apply (f_equal length) in Hpre.
    rewrite length_app in Hpre. simpl in Hpre. rewrite length_fmap in Hpre. lia. }
  pose proof (pull_terminates (log := nullLogger) (port := refPort clamp) (store := refStore)
    (decryptDoc := refDecrypt openEnvelope) batchSize wid fuel None s w Hb Hwf Hat Hfuel') as Hnn.
  destruct (pull_outcome batchSize wid fuel None s w Hb Hwf Hat Hnn) as (n&Hn&Hv&Ho).
  pose proof (runPull_server fuel batchSize wid w) as Hs.
  unfold pull in Hv, Ho, Hnn. simpl payload_guard in *.
  destruct (runPull _ _ _ _ _ _ _ _ _ w) as [[o|e] w']; simpl in *; [|done].
  destruct Ho as (res&->&_&_&Hall). rewrite (Hall eq_refl) in Hv. clear Hall.
  exists res, w'. split; [done|]. split; [done|].
  unfold advance in Hv. rewrite take_ge, Hds in Hv by done.
  pose proof (f_equal pv_cursor Hv) as Hc. pose proof (f_equal pv_replica Hv) as Hbody.
  simpl in Hc, Hbody.
  destruct (reconcile_all_inv (server w) (st_cursor (store w)) ds (st_body (store w)))
    as (Hi'&Hnd'&Hag); [done..|].
  rewrite <-Hbody in Hi', Hnd', Hag.
  assert (∀ d, d ∈ srv_docs (server w) → agrees (st_body (store w')) d) as Hag'.
  { intros d Hd. apply Hag; [done|]. destruct (Hcov d Hd) as [?|Hseen]; [by left|right].
    destruct (si_seen _ _ _ Hi d Hd Hseen) as (row&Hrow&Hr). exists row. eauto. }
  split_and!; [|done|rewrite Hs; by eapply agreed_live].
  unfold inv_world. rewrite Hs. eapply inv_cursor; [done..|].
  intros c'. rewrite Hc. destruct (last (wireDoc <$> ds)) as [d|] eqn:Hl.
  - intros [= <-]. apply last_Some in Hl as [l' Hl].
    assert (d ∈ wireDoc <$> ds) as (d'&->&Hd')%list_elem_of_fmap by (rewrite Hl; set_solver).
    simpl. rewrite length_stamp. by apply (si_ticks _ _ _ Hi), Hsub.
  - simpl. apply (si_cursor _ _ _ Hi).
Qed.

(** A push then a pull: the order of a steady-state engine cycle. *)
Definition cycle (fuel batchSize : nat) (wid : option string) : comp world (option PullResult) :=
  runPush (refPort clamp) refStore None wid None;;
  runPull nullLogger fuel (refPort clamp) refStore batchSize (refDecrypt openEnvelope) guard
    wid None.

Lemma cycle_run batchSize wid w : 0 < batchSize → inv_world w →
  ∃ n, ∀ fuel, n < fuel → ∃ res w', cycle fuel batchSize wid w = (Ok (Some res), w') ∧
    rtc write_step (server w) (server w') ∧ inv_world w' ∧ no_dirty (st_body (store w')) ∧
    (∀ id, replica_live (st_body (store w')) id = server_live (server w') id) ∧
    (no_dirty (st_body (store w)) → server w' = server w).
Proof.
  intros Hb Hi. destruct (runPush_run wid w Hi) as (pres&w1&Hpush&Hst&Hi1&_&Hnd).
  exists (length (srv_docs (server w1))). intros fuel Hfuel.
  destruct (runPull_run batchSize wid fuel w1) as (res&w2&Hpull&Hs&Hi2&Hnd2&Hl); [done..|].
  exists res, w2. unfold cycle, mbind, comp_bind. rewrite Hpush. split_and!; try done.
  - by rewrite Hs.
  - intros Hclean. rewrite Hs. pose proof (runPush_clean wid w Hclean) as Hc.
    rewrite Hpush in Hc. simpl in Hc. by rewrite Hc.
Qed.

Lemma inv_writes s s' c b : rtc write_step s s' → sync_inv s c b → sync_inv s' c b.
Proof. induction 1; [done|]. intros Hi. by apply IHrtc; eapply inv_write. Qed.

(** A replica that has never synced: every row is a pending local create. *)
Definition fresh_replica (b : StoreBody) : Prop :=
  ∀ id row, rows b !! id = Some row →
    row_dirty row = true ∧ row_etag row = None ∧
    (row_deleted row = false → row_data row = body id ∧
       ∀ p, bodyAction id = ProjUpsert p → projection b !! id = Some p).

Lemma inv_fresh s b :
  NoDup (sd_id <$> srv_docs s) →
  StronglySorted (λ d d', sd_tick d < sd_tick d') (srv_docs s) →
  (∀ d, d ∈ srv_docs s → sd_tick d ≤ srv_tick s ∧
     (sd_deleted d = false → sd_data d = body (sd_id d))) →
  fresh_replica b → sync_inv s None b.
Proof.
  intros Hnd Hs Hd Hf. split; try done.
  - intros d ?. by apply Hd.
  - intros d ?. by apply Hd.
  - intros id row Hr. by apply Hf.
  - intros id row Hr Hc. apply Hf in Hr as [? _]. congruence.
  - intros id row e Hr He. apply Hf in Hr as (_&?&_). congruence.
  - intros id row d Hr Hc. apply Hf in Hr as [? _]. congruence.
  - intros id row p Hr Hl. apply Hf in Hr as (_&_&Hr). by apply Hr.
Qed.
End Convergence.

(** A server with one resource another writer created, a replica with one
    pending create, and one that has never synced. *)
Definition demoBody (id : string) : json := JStr id.
Definition demoServer : ServerState := {|
  srv_docs := [{| sd_id := "x"; sd_tick := 1; sd_deleted := false; sd_data := demoBody "x";
                  sd_writerId := None |}];
  srv_tick := 1 |}.
Definition demoRow (id : string) : Row := {|
  row_acked := false; row_etag := None; row_updatedAt := ""; row_deleted := false;
  row_data := demoBody id; row_dirty := true; row_revision := 1 |}.
Definition demoReplica : StoreState := {|
  st_cursor := None;
  st_body := {| rows := {["y" := demoRow "y"]}; projection := {["y" := demoBody "y"]};
                nextRevision := 1 |} |}.
Definition emptyReplica : StoreState :=
  {| st_cursor := None; st_body := {| rows := ∅; projection := ∅; nextRevision := 0 |} |}.

(** The envelope is its own payload: the identity cipher of the suite. *)
Definition identityOpen (_ : string) (envelope : json) : result json := Ok envelope.

Lemma demo_inv b : fresh_replica identityOpen None demoBody b →
  sync_inv identityOpen None demoBody demoServer None b.
Proof.
  apply inv_fresh; [apply NoDup_singleton|repeat constructor|].
  by intros d ->%list_elem_of_singleton.
Qed.

Lemma demoReplica_fresh : fresh_replica identityOpen None demoBody (st_body demoReplica).
Proof.
  intros id row Hr. simpl in Hr. apply lookup_singleton_Some in Hr as [<- <-].
  split_and!; [done..|].
  intros _. split; [done|]. intros p Hp. vm_compute in Hp. injection Hp as <-. done.
Qed.

Lemma emptyReplica_fresh : fresh_replica identityOpen None demoBody (st_body emptyReplica).
Proof. intros id row Hr. simpl in Hr. by rewrite lookup_empty in Hr. Qed.
#[export] Hint Resolve demo_inv demoReplica_fresh emptyReplica_fresh : core.

(** C34: One cycle converges. Over the conforming server and store, for an
    insert-only content-addressed collection, a push then a pull returns with
    enough fuel whatever is dirty and whatever other writers did before; then
    nothing is left dirty, the replica holds exactly the server's live
    resources, and the invariant the next cycle starts from holds again. *)
Theorem sync_cycle_converges clamp openEnvelope guard body batchSize writerId w :
  0 < batchSize → inv_world openEnvelope guard body w →
  ∃ n, ∀ fuel, n < fuel → ∃ res w',
    cycle clamp openEnvelope guard fuel batchSize writerId w = (Ok (Some res), w') ∧
    inv_world openEnvelope guard body w' ∧
    no_dirty (st_body (store w')) ∧
    ∀ id, replica_live (st_body (store w')) id = server_live (server w') id.
Proof.
  intros Hb Hi. destruct (cycle_run clamp openEnvelope guard body batchSize writerId w Hb Hi)
    as [n Hn].
  exists n. intros fuel Hf. destruct (Hn fuel Hf) as (res&w'&Hc&_&Hi'&Hnd&Hl&_). by exists res, w'.
Qed.

(** C33: Two replicas converge on identical content. When one replica cycles,
    then the other, then the first again, over one server, the second visit
    of the first writes nothing, and both replicas hold exactly the server's
    live resources -- every create of either is on both, and every delete of
    either is gone from both. *)
Theorem two_replicas_converge clamp openEnvelope guard body batchSize widA widB s a b :
  0 < batchSize →
  sync_inv openEnvelope guard body s (st_cursor a) (st_body a) →
  sync_inv openEnvelope guard body s (st_cursor b) (st_body b) →
  ∃ n, ∀ fuel, n < fuel → ∃ r1 s1 a1,
    cycle clamp openEnvelope guard fuel batchSize widA {| server := s; store := a |}
      = (Ok (Some r1), {| server := s1; store := a1 |}) ∧
    ∃ n', ∀ fuel', n' < fuel' → ∃ r2 s2 b2,
      cycle clamp openEnvelope guard fuel' batchSize widB {| server := s1; store := b |}
        = (Ok (Some r2), {| server := s2; store := b2 |}) ∧
      ∃ n'', ∀ fuel'', n'' < fuel'' → ∃ r3 a3,
        cycle clamp openEnvelope guard fuel'' batchSize widA {| server := s2; store := a1 |}
          = (Ok (Some r3), {| server := s2; store := a3 |}) ∧
        ∀ id, replica_live (st_body a3) id = replica_live (st_body b2) id ∧
              replica_live (st_body b2) id = server_live s2 id.
Proof.
  intros Hb Ha Hbi.
  destruct (cycle_run clamp openEnvelope guard body batchSize widA
    {| server := s; store := a |} Hb Ha) as [n Hn].
  exists n. intros fuel Hf. destruct (Hn fuel Hf) as (r1&[s1 a1]&Hc1&Hw1&Hi1&Hd1&_&_).
  exists r1, s1, a1. split; [done|]. simpl in *.
  destruct (cycle_run clamp openEnvelope guard body batchSize widB
    {| server := s1; store := b |} Hb) as [n' Hn']; [by eapply inv_writes|].
  exists n'. intros fuel' Hf'. destruct (Hn' fuel' Hf') as (r2&[s2 b2]&Hc2&Hw2&_&_&Hl2&_).
  exists r2, s2, b2. split; [done|]. simpl in *.
  destruct (cycle_run clamp openEnvelope guard body batchSize widA
    {| server := s2; store := a1 |} Hb) as [n'' Hn'']; [by eapply inv_writes|].
  exists n''. intros fuel'' Hf''.
  destruct (Hn'' fuel'' Hf'') as (r3&[s3 a3]&Hc3&_&_&Hd3&Hl3&Hs3). simpl in *.
  specialize (Hs3 Hd1). subst s3. exists r3, a3. split; [done|].
  intros id. by rewrite Hl3, Hl2.
Qed.

Lemma sync_cycle_converges_witness : ∃ n, ∀ fuel, n < fuel → ∃ res w',
  cycle 0 identityOpen None fuel 10 (Some "me") {| server := demoServer; store := demoReplica |}
    = (Ok (Some res), w') ∧
  inv_world identityOpen None demoBody w' ∧ no_dirty (st_body (store w')) ∧
  ∀ id, replica_live (st_body (store w')) id = server_live (server w') id.
Proof.
  apply (sync_cycle_converges 0 identityOpen None demoBody 10 (Some "me")
    {| server := demoServer; store := demoReplica |}); [lia|].
  apply demo_inv, demoReplica_fresh.
Defined.

Lemma two_replicas_converge_witness : ∃ n, ∀ fuel, n < fuel → ∃ r1 s1 a1,
  cycle 0 identityOpen None fuel 10 (Some "me") {| server := demoServer; store := demoReplica |}
    = (Ok (Some r1), {| server := s1; store := a1 |}) ∧
  ∃ n', ∀ fuel', n' < fuel' → ∃ r2 s2 b2,
    cycle 0 identityOpen None fuel' 10 None {| server := s1; store := emptyReplica |}
      = (Ok (Some r2), {| server := s2; store := b2 |}) ∧
    ∃ n'', ∀ fuel'', n'' < fuel'' → ∃ r3 a3,
      cycle 0 identityOpen None fuel'' 10 (Some "me") {| server := s2; store := a1 |}
        = (Ok (Some r3), {| server := s2; store := a3 |}) ∧
      ∀ id, replica_live (st_body a3) id = replica_live (st_body b2) id ∧
            replica_live (st_body b2) id = server_live s2 id.
Proof.
  apply (two_replicas_converge 0 identityOpen None demoBody 10 (Some "me") None
    demoServer demoReplica emptyReplica); [lia|apply demo_inv, demoReplica_fresh|].
  apply demo_inv, emptyReplica_fresh.
Defined.

(** The pull theorems at the reference instances. *)
Lemma pull_complete_witness : ∃ res w',
  runPull nullLogger 2 (refPort 0) refStore 5 (refDecrypt identityOpen) None (Some "me") None
    {| server := demoServer; store := emptyReplica |} = (Ok (Some res), w') ∧ applied res = 1.
Proof.
  pose (w := {| server := demoServer; store := emptyReplica |}).
  destruct (pull_complete (log := nullLogger) (port := refPort 0) (store := refStore)
    (decryptDoc := refDecrypt identityOpen) (PullEnv0 := refEnv identityOpen None)
    5 (Some "me") 2 (pull_view (PullEnv := refEnv identityOpen None) w) w)
    as (res&w'&Hr&Ha&_).
  - lia.
  - apply (feed_well_formed identityOpen None demoBody demoServer None (st_body emptyReplica)).
    apply demo_inv, emptyReplica_fresh.
  - reflexivity.
  - apply (inv_reflects identityOpen None demoBody demoServer None (st_body emptyReplica)).
    apply demo_inv, emptyReplica_fresh.
  - intros e [].
  - vm_compute. lia.
  - exists res, w'. split; [exact Hr|]. rewrite Ha. reflexivity.
Defined.

Lemma pull_resumes_witness :
  let run fuel (s : AbortSignal world) (w : world) := runPull nullLogger fuel (refPort 0) refStore
    5 (refDecrypt identityOpen) None (Some "me") s w in
  let w := {| server := demoServer; store := emptyReplica |} in
  let w1 := (run 2 (Some (λ _, true)) w).2 in let w2 := (run 2 None w1).2 in
  pull_view (PullEnv := refEnv identityOpen None) w2 =
    advance (PullEnv0 := refEnv identityOpen None) 1
      (pull_view (PullEnv := refEnv identityOpen None) w).
Proof.
  intros run w w1 w2.
  assert (sync_inv identityOpen None demoBody demoServer None (st_body emptyReplica)) as Hi
    by (apply demo_inv, emptyReplica_fresh).
  destruct (pull_resumes (log := nullLogger) (port := refPort 0) (store := refStore)
    (decryptDoc := refDecrypt identityOpen) (PullEnv0 := refEnv identityOpen None)
    5 5 (Some "me") (Some "me") (Some (λ _, true)) 2 2
    (pull_view (PullEnv := refEnv identityOpen None) w) w
    (run 2 (Some (λ _, true)) w).1 w1
    {| applied := 1; suppressed := 0 |} w2) as [_ Hv].
  - lia.
  - lia.
  - exact (feed_well_formed identityOpen None demoBody _ _ _ Hi).
  - reflexivity.
  - exact (inv_reflects identityOpen None demoBody _ _ _ Hi).
  - vm_compute. reflexivity.
  - vm_compute. discriminate.
  - vm_compute. reflexivity.
  - rewrite Hv. reflexivity.
Defined.

Lemma projectionForDoc_total_witness : ∃ w',
  projectionForDoc nullLogger (wireDoc {| sd_id := "x"; sd_tick := 1; sd_deleted := false;
      sd_data := JStr "x"; sd_writerId := None |}) (refDecrypt identityOpen) None
    {| server := demoServer; store := emptyReplica |} = (Ok (ProjUpsert (JStr "x")), w').
Proof.
  exact (projectionForDoc_total nullLogger _ (refDecrypt identityOpen) None
    {| server := demoServer; store := emptyReplica |}).
Defined.
