(* ===== verification/SyncRemint.v ===== *)
(** * The create-loss re-mint

    [src/src/sync/remint.ts]: re-encrypting the pending resource replicas
    whose envelopes the adopted descriptor cannot route, before the next
    push, with local writes landing at any of its awaits. *)

From S2P Require Import Prelude Json SyncPull.

(** The document cipher of one collection. *)
Record DocCipher (W : Type) := {
  encrypt : json → comp W (string * json);
  decrypt : string → json → comp W json
}.
Arguments encrypt {W}.
Arguments decrypt {W}.

Definition MAX_REMINT_ATTEMPTS : nat := 5.

(** What a pass carries: the re-mint count, the replaces the store skipped
    in this pass, and the refusals of every pass. *)
Record RemintPass := {
  reminted : nat;
  skipped : list string;
  misaddressed : gset string
}.

Record RemintResult := { pending : nat; remintedTotal : nat }.

(** What the probe of a replica's envelope under the adopted cipher says. *)
Inductive probe := Routable | Misaddressed | Unroutable.

(** Dirty, never-acked and live. *)
Definition isPending (replica : SyncedResourceReplica) : Prop :=
  rep_deleted replica = false ∧ rep_acked replica = false ∧ rep_data replica ≠ JNull.

#[export] Instance isPending_dec replica : Decision (isPending replica).
Proof. unfold isPending. apply _. Defined.

Section Remint.
Context {W : Type} `{!SyncSignals} (log : Logger W) (store : SyncStore W).
Context (replacePending : string → string → json → option revision_token → comp W bool).
Context (cipher : DocCipher W) (decryptStale : string → json → comp W json).

Definition remintReplica (p : RemintPass) (replica : SyncedResourceReplica) : comp W RemintPass :=
  if decide (rep_id replica ∈ misaddressed p) then mret p
  else
    let envelope := rep_data replica in
    outcome ← try_catch
      (decrypt cipher (rep_id replica) envelope;; mret Routable)
      (λ err,
         if isIntegrityError err then
           log_warn log "Leaving a pending resource replica sealed for another resource id"
             (rep_id replica);;
           mret Misaddressed
         else if negb (isUnknownEpochError err) then mthrow err
         else mret Unroutable);
    match outcome with
    | Routable => mret p
    | Misaddressed =>
        mret {| reminted := reminted p; skipped := skipped p;
                misaddressed := {[rep_id replica]} ∪ misaddressed p |}
    | Unroutable =>
        payload ← decryptStale (rep_id replica) envelope;
        minted ← encrypt cipher payload;
        applied ← replacePending (rep_id replica) minted.1 minted.2 (rep_revision replica);
        mret (if applied : bool
              then {| reminted := reminted p + 1; skipped := skipped p;
                      misaddressed := misaddressed p |}
              else {| reminted := reminted p; skipped := skipped p ++ [rep_id replica];
                      misaddressed := misaddressed p |})
    end.

Fixpoint remintPass (signal : AbortSignal W) (replicas : list SyncedResourceReplica)
    (p : RemintPass) : comp W RemintPass :=
  match replicas with
  | [] => mret p
  | replica :: replicas =>
      stop ← aborted signal;
      if stop : bool then mret p
      else p ← remintReplica p replica; remintPass signal replicas p
  end.

(** The attempts left, the first pass's count, and the pass before. *)
Fixpoint remintAttempts (signal : AbortSignal W) (attempts : nat) (pending : option nat)
    (p : RemintPass) : comp W (option nat * RemintPass) :=
  match attempts with
  | 0 => mret (pending, p)
  | S attempts =>
      stop ← aborted signal;
      if stop : bool then mret (pending, p)
      else
        replicas ← getDirtyResourceReplicas store;
        let pendingReplicas := filter isPending replicas in
        let pending := Some (default (length pendingReplicas) pending) in
        p ← remintPass signal pendingReplicas
              {| reminted := reminted p; skipped := []; misaddressed := misaddressed p |};
        stop ← (if decide (skipped p = []) then mret true else aborted signal);
        if stop : bool then mret (pending, p) else remintAttempts signal attempts pending p
  end.

Definition gaveUp : js_error := JsError "Error" "Re-mint gave up".

Definition remintPendingEnvelopes (signal : AbortSignal W) : comp W RemintResult :=
  r ← remintAttempts signal MAX_REMINT_ATTEMPTS None
        {| reminted := 0; skipped := []; misaddressed := ∅ |};
  stop ← (if decide (skipped r.2 = []) then mret true else aborted signal);
  if stop : bool then mret {| pending := default 0 r.1; remintedTotal := reminted r.2 |}
  else mthrow gaveUp.
End Remint.

(** ** What a pass relies on

    The pending rows of the store, and the ids a local write has touched
    since the last snapshot of them. Every seam may let local writes in; a
    write is a change of a row whose id is recorded in [written]. *)
Class RemintEnv (W : Type) := {
  pending_rows : W → gmap string json;
  written : W → gset string;
  (** The envelopes the adopted cipher opens at an id. *)
  routable : string → json → Prop;
  (** The envelopes it refuses as sealed for another resource. *)
  foreign : string → json → Prop
}.

(** Between two worlds only local writes happened. *)
Definition interferes {W} `{!RemintEnv W} (w w' : W) : Prop :=
  written w ⊆ written w' ∧
  ∀ id, id ∉ written w' → pending_rows w' !! id = pending_rows w !! id.

(** A row the pass may leave as it is. *)
Definition tolerated {W} `{!RemintEnv W} (refused : gset string) (w : W) (id : string)
    (envelope : json) : Prop :=
  id ∈ written w ∨ routable id envelope ∨ id ∈ refused.

Class RemintContract {W} `{!SyncSignals} `{!RemintEnv W} (log : Logger W) (store : SyncStore W)
    (replacePending : string → string → json → option revision_token → comp W bool)
    (cipher : DocCipher W) (decryptStale : string → json → comp W json) : Prop := {
  (** Every pending row not written meanwhile is in the snapshot. *)
  snapshot_complete w replicas w' :
    getDirtyResourceReplicas store w = (Ok replicas, w') →
    ∀ id envelope, pending_rows w' !! id = Some envelope → id ∉ written w' →
      ∃ r, r ∈ replicas ∧ isPending r ∧ rep_id r = id ∧ rep_data r = envelope;
  decrypt_interferes id envelope w : interferes w (decrypt cipher id envelope w).2;
  decrypt_classifies id envelope w :
    match (decrypt cipher id envelope w).1 with
    | Ok _ => routable id envelope
    | Throw e => isIntegrityError e = true → foreign id envelope
    end;
  stale_interferes id envelope w : interferes w (decryptStale id envelope w).2;
  log_interferes msg id w : interferes w (log_warn log msg id w).2;
  encrypt_interferes payload w : interferes w (encrypt cipher payload w).2;
  (** A fresh encryption is readable under the id it minted. *)
  encrypt_routable payload w id envelope :
    (encrypt cipher payload w).1 = Ok (id, envelope) → routable id envelope;
  replace_skipped id newId envelope revision w w' :
    replacePending id newId envelope revision w = (Ok false, w') → interferes w w';
  (** An applied replace moves the row to its new id, in one transaction. *)
  replace_applied id newId envelope revision w w' :
    replacePending id newId envelope revision w = (Ok true, w') →
    written w ⊆ written w' ∧
    ∀ id' envelope', id' ∉ written w' → pending_rows w' !! id' = Some envelope' →
      if decide (id' = newId) then envelope' = envelope
      else id' ≠ id ∧ pending_rows w !! id' = Some envelope'
}.

Section RemintProofs.
Context {W : Type} `{!SyncSignals} `{!RemintEnv W}.
Context {log : Logger W} {store : SyncStore W}.
Context {replacePending : string → string → json → option revision_token → comp W bool}.
Context {cipher : DocCipher W} {decryptStale : string → json → comp W json}.
Context `{!RemintContract log store replacePending cipher decryptStale}.

#[local] Instance interferes_preorder : PreOrder (interferes (W := W)).
Proof.
  split; [by intros w; split|]. intros w w1 w2 [Hs1 Hp1] [Hs2 Hp2]. split; [set_solver|].
  intros id Hid. rewrite Hp2, Hp1 by set_solver. done.
Qed.

(** Every pending row is tolerable, or still ahead of the pass as it was
    snapshot, or waits for another pass. *)
Definition pass_inv (ahead : list SyncedResourceReplica) (p : RemintPass) (w : W) : Prop :=
  (∀ id envelope, pending_rows w !! id = Some envelope →
     tolerated (misaddressed p) w id envelope ∨ id ∈ skipped p ∨
     ∃ r, r ∈ ahead ∧ rep_id r = id ∧ rep_data r = envelope).

Lemma pass_inv_interferes ahead p w w' :
  interferes w w' → pass_inv ahead p w → pass_inv ahead p w'.
Proof.
  intros [Hs Hp] Hi id envelope Hrow. destruct (decide (id ∈ written w')) as [|Hid].
  { left. by left. }
  rewrite Hp in Hrow by done.
  destruct (Hi id envelope Hrow) as [[?|[?|?]]|Hr]; unfold tolerated; set_solver.
Qed.

(** Only refusals of the cipher are recorded as misaddressed. *)
Definition refusals_inv (p : RemintPass) : Prop :=
  ∀ id, id ∈ misaddressed p → ∃ envelope, foreign id envelope.

Lemma interferes_triple {A} (c : comp W A) ahead p :
  (∀ w, interferes w (c w).2) → preserves (pass_inv ahead p) c.
Proof.
  intros Hc w Hw. specialize (Hc w).
  destruct (c w) as [[] w']; by eapply pass_inv_interferes.
Qed.

Lemma pass_inv_drop r ahead p w :
  pass_inv (r :: ahead) p w →
  routable (rep_id r) (rep_data r) ∨ rep_id r ∈ misaddressed p ∨ rep_id r ∈ skipped p →
  pass_inv ahead p w.
Proof.
  intros Hi Hr id envelope Hrow.
  destruct (Hi id envelope Hrow) as [?|[?|(r'&[->|?]%elem_of_cons&<-&<-)]]; [auto..| |].
  - unfold tolerated. naive_solver.
  - right; right. eauto.
Qed.

Lemma pass_inv_replaced r ahead p newId envelope revision w w' :
  pass_inv (r :: ahead) p w → routable newId envelope →
  replacePending (rep_id r) newId envelope revision w = (Ok true, w') →
  pass_inv ahead p w'.
Proof.
  intros Hi Hroute Hrep id env Hrow. destruct (replace_applied _ _ _ _ _ _ Hrep) as [Hs Hp].
  destruct (decide (id ∈ written w')) as [|Hid]; [by left; left|].
  specialize (Hp id env Hid Hrow). case_decide; [subst; by left; right; left|].
  clear Hrow. destruct Hp as [Hne Hrow].
  destruct (Hi id env Hrow) as [[?|[?|?]]|[?|(r'&[->|?]%elem_of_cons&<-&<-)]];
    unfold tolerated; [set_solver..|done|]. right; right. eauto.
Qed.

Abbreviation remintReplica' := (remintReplica log replacePending cipher decryptStale).

Lemma remintReplica_triple r ahead p : refusals_inv p →
  triple (pass_inv (r :: ahead) p) (remintReplica' p r)
    (λ p' w, refusals_inv p' ∧ pass_inv ahead p' w) (λ _ _, True).
Proof.
  intros Href. unfold remintReplica. case_decide as Hmis.
  { apply triple_ret. intros w Hw. split; [done|]. by eapply pass_inv_drop; [|eauto]. }
  eapply triple_bind with (M := λ o w, pass_inv (r :: ahead) p w ∧ match o with
    | Routable => routable (rep_id r) (rep_data r)
    | Misaddressed => foreign (rep_id r) (rep_data r)
    | Unroutable => True
    end).
  { eapply triple_try with (E := λ e w, (isIntegrityError e = true → foreign (rep_id r) (rep_data r)) ∧
      pass_inv (r :: ahead) p w).
    - intros w Hw. pose proof (decrypt_interferes (rep_id r) (rep_data r) w) as Hd.
      pose proof (decrypt_classifies (rep_id r) (rep_data r) w) as Hc.
      unfold mbind, comp_bind.
      destruct (decrypt cipher (rep_id r) (rep_data r) w) as [[a|e] w']; simpl in *.
      all: apply (pass_inv_interferes _ _ _ _ Hd) in Hw; by split.
    - intros e. apply triple_pure; intros Hf. destruct (isIntegrityError e).
      + eapply triple_bind; [eapply triple_throws;
          [apply interferes_triple; intros; apply log_interferes|done]|].
        intros []. apply triple_ret. auto.
      + destruct (negb _); [by apply triple_throw|]. by apply triple_ret. }
  intros o. destruct o.
  - apply triple_ret. intros w [Hw Hr]. split; [done|]. by eapply pass_inv_drop; [|eauto].
  - apply triple_ret. intros w [Hw Hr]. split; simpl.
    + intros id [->%elem_of_singleton|?]%elem_of_union; eauto.
    + eapply (pass_inv_drop r); [|right; left; simpl; set_solver]. intros id env Hrow.
      destruct (Hw id env Hrow) as [[?|[?|?]]|?]; unfold tolerated; simpl; set_solver.
  - eapply triple_weaken with (P := pass_inv (r :: ahead) p); [|by intros w [??]].
    eapply triple_bind; [eapply triple_throws;
      [apply interferes_triple; intros; apply stale_interferes|done]|].
    intros payload.
    eapply triple_bind with (M := λ m w, routable m.1 m.2 ∧ pass_inv (r :: ahead) p w).
    { intros w Hw. pose proof (encrypt_interferes payload w) as He.
      pose proof (encrypt_routable payload w) as Hr.
      destruct (encrypt cipher payload w) as [[[id env]|e] w']; simpl in *; [|done].
      split; [by apply Hr|by eapply pass_inv_interferes]. }
    intros [newId env]. simpl. apply triple_pure; intros Hroute.
    intros w Hw. unfold mbind, comp_bind.
    destruct (replacePending (rep_id r) newId env (rep_revision r) w) as [[[|]|e] w'] eqn:Hrep;
      [..|done]; simpl.
    + split; [done|]. pose proof (pass_inv_replaced _ _ _ _ _ _ _ _ Hw Hroute Hrep) as Hi.
      intros id' env' Hrow. by destruct (Hi id' env' Hrow) as [?|?]; [left|right].
    + split; [done|]. apply replace_skipped in Hrep.
      apply (pass_inv_interferes _ _ _ _ Hrep) in Hw.
      eapply (pass_inv_drop r); [|right; right; simpl; set_solver]. intros id' env' Hrow.
      destruct (Hw id' env' Hrow) as [?|[?|?]]; simpl; set_solver.
Qed.

Lemma remintPass_triple replicas p : refusals_inv p →
  triple (pass_inv replicas p)
    (remintPass log replacePending cipher decryptStale None replicas p)
    (λ p' w, refusals_inv p' ∧ pass_inv [] p' w) (λ _ _, True).
Proof.
  revert p. induction replicas as [|r replicas IH]; intros p Href; simpl; [by apply triple_ret|].
  eapply triple_bind with (M := λ stop w, stop = false ∧ pass_inv (r :: replicas) p w);
    [by apply triple_gets|].
  intros stop. apply triple_pure; intros ->.
  eapply triple_bind; [by apply remintReplica_triple|].
  intros p'. apply triple_pure; intros Href'. by apply IH.
Qed.

(** An attempt that skipped nothing left every pending row tolerable. *)
Lemma remintAttempts_triple n count p : refusals_inv p → n ≠ 0 ∨ skipped p ≠ [] →
  triple (λ _, True)
    (remintAttempts log store replacePending cipher decryptStale None n count p)
    (λ r w, refusals_inv r.2 ∧ (skipped r.2 = [] → pass_inv [] r.2 w)) (λ _ _, True).
Proof.
  revert count p. induction n as [|n IH]; intros count p Href Hn; simpl.
  { apply triple_ret. intros w _. split; [done|]. by destruct Hn. }
  eapply triple_bind with (M := λ stop w, stop = false ∧ True); [by apply triple_gets|].
  intros stop. apply triple_pure; intros ->.
  eapply triple_bind with (M := λ replicas w, pass_inv (filter isPending replicas)
    {| reminted := reminted p; skipped := []; misaddressed := misaddressed p |} w).
  { intros w _. pose proof (snapshot_complete w) as Hc.
    destruct (getDirtyResourceReplicas store w) as [[replicas|e] w'] eqn:Hd; [|done].
    intros id envelope Hrow. destruct (decide (id ∈ written w')); [by left; left|].
    destruct (Hc replicas w' eq_refl id envelope Hrow) as (r&?&?&?&?); [done|].
    right; right. exists r. by rewrite list_elem_of_filter. }
  intros replicas. eapply triple_bind; [by apply remintPass_triple|].
  intros p'. apply triple_pure; intros Href'.
  eapply triple_bind with (M := λ stop w, stop = bool_decide (skipped p' = []) ∧ pass_inv [] p' w).
  { case_decide as Hs; [rewrite bool_decide_true by done|rewrite bool_decide_false by done];
      [by apply triple_ret|by apply triple_gets]. }
  intros stop. apply triple_pure; intros ->. case_bool_decide as Hs.
  - apply triple_ret. auto.
  - eapply triple_weaken; [by apply IH; auto|done].
Qed.
End RemintProofs.

(** What a re-mint that returns guarantees the push. With no abort, and
    with local writes landing at any await, a normal return leaves no pending
    row sealed under an epoch the adopted descriptor does not carry: each one
    opens under the adopted cipher, or a local write touched it after the last
    snapshot, or the cipher refused its id as sealed for another resource. *)
Theorem remint_settles {W} `{!SyncSignals} `{!RemintEnv W} (log : Logger W) store replacePending
    cipher decryptStale `{!RemintContract log store replacePending cipher decryptStale} w res w' :
  remintPendingEnvelopes log store replacePending cipher decryptStale None w = (Ok res, w') →
  ∃ refused : gset string,
    (∀ id, id ∈ refused → ∃ envelope, foreign id envelope) ∧
    ∀ id envelope, pending_rows w' !! id = Some envelope →
      id ∈ written w' ∨ routable id envelope ∨ id ∈ refused.
Proof.
  unfold remintPendingEnvelopes, mbind, comp_bind. intros Hrun.
  pose proof (remintAttempts_triple (log := log) (store := store) (replacePending := replacePending)
    (cipher := cipher) (decryptStale := decryptStale) MAX_REMINT_ATTEMPTS None
    {| reminted := 0; skipped := []; misaddressed := ∅ |}) as Ht.
  assert (refusals_inv {| reminted := 0; skipped := []; misaddressed := ∅ |}) as Hr0
    by (intros id; simpl; set_solver).
  specialize (Ht Hr0 (or_introl (Nat.neq_succ_0 4)) w I).
  destruct (remintAttempts _ _ _ _ _ _ _ _ _ w) as [[r|e] w1]; [|done].
  destruct Ht as [Href Hinv]. case_decide as Hs; simpl in Hrun; [|done].
  injection Hrun as _ <-. exists (misaddressed r.2). split; [done|].
  intros id envelope Hrow.
  destruct (Hinv Hs id envelope Hrow) as [?|[Hin|(r'&Hr&_)]]; [done|..].
  - rewrite Hs in Hin. by apply elem_of_nil in Hin.
  - by apply elem_of_nil in Hr.
Qed.

(** The re-mint is idempotent. Where the adopted cipher opens every
    pending row, a run scans the pending replicas and changes nothing,
    whatever the stale opener, the fresh encryption and the store's replace
    would have done. *)
Theorem remint_idempotent {W} `{!SyncSignals} (log : Logger W) store replacePending
    (cipher : DocCipher W) decryptStale w replicas :
  getDirtyResourceReplicas store w = (Ok replicas, w) →
  (∀ r, r ∈ replicas → isPending r →
     ∃ payload, decrypt cipher (rep_id r) (rep_data r) w = (Ok payload, w)) →
  remintPendingEnvelopes log store replacePending cipher decryptStale None w =
    (Ok {| pending := length (filter isPending replicas); remintedTotal := 0 |}, w).
Proof.
  intros Hd Hopen.
  assert (∀ rs p, (∀ r, r ∈ rs → ∃ payload, decrypt cipher (rep_id r) (rep_data r) w = (Ok payload, w)) →
    remintPass log replacePending cipher decryptStale None rs p w = (Ok p, w)) as Hpass.
  { induction rs as [|r rs IH]; intros p Hrs; [done|]. cbn [remintPass].
    rewrite (comp_bind_ok _ _ _ false w) by done.
    rewrite (comp_bind_ok _ _ _ p w); [apply IH; set_solver|].
    unfold remintReplica. case_decide; [done|].
    destruct (Hrs r) as [payload Hr]; [set_solver|].
    unfold try_catch, mbind, comp_bind. by rewrite Hr. }
  unfold remintPendingEnvelopes.
  assert (∀ n p, ∃ p', remintAttempts log store replacePending cipher decryptStale None (S n) None p w
    = (Ok (Some (length (filter isPending replicas)), p'), w) ∧
    reminted p' = reminted p ∧ skipped p' = []) as Hrun.
  { intros n p. eexists. split; [|split]; [cbn [remintAttempts]|..].
    - rewrite (comp_bind_ok _ _ _ false w), (comp_bind_ok _ _ _ _ _ Hd) by done.
      erewrite (comp_bind_ok (remintPass _ _ _ _ _ _ _));
        [|by apply Hpass; intros r [? ?]%list_elem_of_filter; auto].
      by rewrite (comp_bind_ok _ _ _ true w).
    - done.
    - done. }
  destruct (Hrun 4 {| reminted := 0; skipped := []; misaddressed := ∅ |}) as (p'&Hp&Hr&Hs).
  unfold MAX_REMINT_ATTEMPTS. rewrite (comp_bind_ok _ _ _ _ _ Hp). simpl.
  rewrite decide_True by done. rewrite (comp_bind_ok _ _ _ true w) by done. by rewrite Hr.
Qed.

(** ** A concrete store with scripted local writes *)

Module Demo.

(** Rows with their revisions; each probe of the cipher lets one more group
    of scripted local writes in. *)
Record RemintWorld := {
  rw_rows : gmap string (json * nat);
  rw_written : gset string;
  rw_script : list (list (string * json))
}.

Definition localWrite (w : RemintWorld) (write : string * json) : RemintWorld := {|
  rw_rows := <[write.1 := (write.2, S (default 0 (snd <$> rw_rows w !! write.1)))]> (rw_rows w);
  rw_written := {[write.1]} ∪ rw_written w;
  rw_script := rw_script w
|}.

Definition runScript (w : RemintWorld) : RemintWorld :=
  match rw_script w with
  | [] => w
  | group :: script =>
      foldl localWrite {| rw_rows := rw_rows w; rw_written := rw_written w; rw_script := script |} group
  end.

(** An envelope names the resource and the epoch it is sealed under. *)
Definition envelopeFor (id epoch : string) : json := JArr [JStr id; JStr epoch].

Definition openWith (epoch id : string) (envelope : json) : result json :=
  match envelope with
  | JArr [JStr id'; JStr epoch'] =>
      if decide (id' ≠ id) then Throw (JsError "IntegrityError" "")
      else if decide (epoch' = epoch) then Ok (JStr id) else Throw (JsError "UnknownEpochError" "")
  | _ => Throw (JsError "TypeError" "")
  end.

#[export] Instance signals : SyncSignals := {
  isSyncConflictError e := bool_decide (err_name e = "PwsSyncConflictError");
  isSyncNotFoundError e := bool_decide (err_name e = "PwsSyncNotFoundError");
  isIntegrityError e := bool_decide (err_name e = "IntegrityError");
  isUnknownEpochError e := bool_decide (err_name e = "UnknownEpochError")
}.

Definition demoCipher : DocCipher RemintWorld := {|
  encrypt payload w :=
    (match payload with
     | JStr id => Ok (String.append id "'", envelopeFor (String.append id "'") "new")
     | _ => Throw (JsError "TypeError" "")
     end, w);
  decrypt id envelope w := (openWith "new" id envelope, runScript w)
|}.

Definition demoStale (id : string) (envelope : json) : comp RemintWorld json :=
  lift (openWith "old" id envelope).

Definition rowReplica (row : string * (json * nat)) : SyncedResourceReplica := {|
  rep_id := row.1; rep_acked := false; rep_etag := None; rep_updatedAt := "";
  rep_deleted := false; rep_data := row.2.1; rep_revision := Some (RevNumber (Z.of_nat row.2.2))
|}.

Definition unsupported {A} : comp RemintWorld A := lift (Throw (JsError "Error" "unsupported")).

(** Only the two members a re-mint calls do anything. *)
Definition demoStore : SyncStore RemintWorld := {|
  getCheckpoint := mret None;
  getDirtyResourceReplicas := λ w,
    (Ok (rowReplica <$> map_to_list (rw_rows w)),
     {| rw_rows := rw_rows w; rw_written := ∅; rw_script := rw_script w |});
  applyPulledPage _ _ _ := unsupported;
  markPushed _ _ _ := unsupported;
  markDeletedPushed _ _ _ := unsupported;
  adoptLatest _ _ _ := unsupported;
  heldRevisions := None;
  replacePending := None
|}.

Definition demoReplace (id newId : string) (envelope : json) (revision : option revision_token) :
    comp RemintWorld bool := λ w,
  match rw_rows w !! id with
  | Some (_, n) =>
      if decide (revision = Some (RevNumber (Z.of_nat n))) then
        (Ok true, {| rw_rows := <[newId := (envelope, S n)]> (delete id (rw_rows w));
                     rw_written := rw_written w; rw_script := rw_script w |})
      else (Ok false, w)
  | None => (Ok false, w)
  end.

Definition demoLog : Logger RemintWorld := {| log_warn _ _ := mret () |}.

#[export] Instance demoEnv : RemintEnv RemintWorld := {
  pending_rows w := omap (λ row, if decide (row.1 = JNull) then None else Some row.1) (rw_rows w);
  written := rw_written;
  routable id envelope := ∃ payload, openWith "new" id envelope = Ok payload;
  foreign id envelope := ∃ id' epoch, envelope = envelopeFor id' epoch ∧ id' ≠ id
}.

Lemma runScript_interferes w : interferes w (runScript w).
Proof.
  unfold runScript. destruct (rw_script w) as [|group script]; [split; [set_solver|done]|].
  assert (∀ w', rw_written w ⊆ rw_written w' →
    (∀ id, id ∉ rw_written w' → rw_rows w' !! id = rw_rows w !! id) →
    interferes w (foldl localWrite w' group)) as Hg; [|by apply Hg].
  induction group as [|[id env] group IH]; intros w' Hs Hr; simpl.
  - split; [done|]. intros id Hid. simpl. by rewrite !lookup_omap, Hr.
  - apply IH; [set_solver|]. intros id' Hid'. simpl in *.
    rewrite lookup_insert_ne by set_solver. apply Hr. set_solver.
Qed.

Lemma idle (w : RemintWorld) : interferes w w.
Proof. by split. Qed.
#[local] Hint Resolve idle runScript_interferes : core.

#[export] Instance demoContract : RemintContract demoLog demoStore demoReplace demoCipher demoStale.
Proof.
  split; simpl; try done.
  - intros w replicas w' [= <- <-] id envelope Hrow _. simpl in *.
    rewrite lookup_omap in Hrow. destruct (rw_rows w !! id) as [[env n]|] eqn:Hid; [|done].
    simpl in Hrow. case_decide; simplify_eq/=.
    exists (rowReplica (id, (envelope, n))). split; [|done].
    by apply list_elem_of_fmap_2, elem_of_map_to_list.
  - intros id envelope w. destruct (openWith "new" id envelope) eqn:Ho; [eauto|].
    intros Hf. unfold openWith in Ho. repeat case_match; simplify_eq/=; try done.
    by eexists _, _.
  - intros payload w id envelope Hp. destruct payload; simplify_eq.
    eexists. unfold openWith, envelopeFor. by destruct (decide (_ ≠ _)).
  - intros id newId envelope revision w w' Hr. unfold demoReplace in Hr.
    repeat case_match; simplify_eq; auto.
  - intros id newId envelope revision w w' Hr. unfold demoReplace in Hr.
    repeat case_match; simplify_eq. split; [done|]. intros id' env' _. simpl.
    rewrite !lookup_omap. destruct (decide (id' = newId)) as [->|Hne].
    + rewrite lookup_insert_eq. simpl. destruct (decide (envelope = JNull)); naive_solver.
    + rewrite lookup_insert_ne by done. destruct (decide (id' = id)) as [->|].
      * by rewrite lookup_delete_eq.
      * by rewrite lookup_delete_ne.
Qed.

(** A store with a replica sealed under the losing epoch and one sealed for
    another resource, and the local writes of a run. *)
Definition demoWorld (script : list (list (string * json))) : RemintWorld := {|
  rw_rows := {["m" := (envelopeFor "other" "old", 0)]} ∪ {["s" := (envelopeFor "s" "old", 0)]};
  rw_written := ∅; rw_script := script |}.

Definition demoRemint : comp RemintWorld RemintResult :=
  remintPendingEnvelopes demoLog demoStore demoReplace demoCipher demoStale None.

(** A run that meets a racing write settles it in its second pass. *)
Definition racing : RemintWorld := demoWorld [[("s", envelopeFor "s" "old")]; [("s", envelopeFor "s" "old")]].

(** Both replicas are rewritten under the losing epoch while the first pass
    is under way, the misaddressed one under its own id. *)
Definition rewritten : RemintWorld :=
  demoWorld [[("s", envelopeFor "s" "old")]; [("m", envelopeFor "m" "old")]].

(** The refusals are kept by id across the attempts, so a row whose refused
    envelope a local write has replaced is not probed again: the run returns
    while that row, which its last snapshot holds, is sealed under the epoch
    the adopted descriptor does not carry. *)
Lemma misaddressed_outlives_its_envelope :
  ∃ res w', demoRemint rewritten = (Ok res, w') ∧
    pending_rows w' !! "m" = Some (envelopeFor "m" "old") ∧ "m" ∉ written w' ∧
    openWith "new" "m" (envelopeFor "m" "old") = Throw (JsError "UnknownEpochError" "") ∧
    openWith "old" "m" (envelopeFor "m" "old") = Ok (JStr "m").
Proof.
  eexists _, _. split; [vm_compute; reflexivity|]. split_and!; [vm_compute; reflexivity| |done|done].
  apply (bool_decide_eq_true_1 _). vm_compute. reflexivity.
Qed.
End Demo.

Import Demo.

Lemma remint_settles_witness : ∃ res w',
  demoRemint racing = (Ok res, w') ∧ remintedTotal res = 1 ∧
  ∃ refused : gset string,
    (∀ id, id ∈ refused → ∃ envelope, foreign id envelope) ∧
    ∀ id envelope, pending_rows w' !! id = Some envelope →
      id ∈ written w' ∨ routable id envelope ∨ id ∈ refused.
Proof.
  eexists _, _. split; [vm_compute; reflexivity|]. split; [reflexivity|].
  eapply (remint_settles demoLog demoStore demoReplace demoCipher demoStale
    racing). vm_compute. reflexivity.
Defined.

(** A store whose only pending row is sealed under the adopted epoch. *)
Definition settledWorld : RemintWorld := {|
  rw_rows := {["s" := (envelopeFor "s" "new", 0)]}; rw_written := ∅;
  rw_script := [] |}.

Lemma remint_idempotent_witness :
  demoRemint settledWorld = (Ok {| pending := 1; remintedTotal := 0 |}, settledWorld).
Proof.
  apply (remint_idempotent demoLog demoStore demoReplace demoCipher demoStale
    settledWorld [rowReplica ("s", (envelopeFor "s" "new", 0))]).
  - vm_compute. reflexivity.
  - intros r ->%list_elem_of_singleton _. by eexists.
Defined.
