(* ===== verification/SyncEngine.v ===== *)
(** * The engine's scheduler

    [src/src/sync/engine.ts]: the single-flight run loop of one feed, its
    cycle, its status transitions, its memoized provisioning and its backoff,
    as a machine whose app code -- the callbacks, the seams, and the callers
    of [sync], [stop] and [invalidateProvisioning] -- is the environment. *)

From S2P Require Import Prelude.
From Stdlib Require Import QArith Qminmax Lqa.
#[local] Open Scope nat_scope.

Inductive SyncStatus := Idle | Syncing | Synced | Error.

#[export] Instance SyncStatus_eq_dec : EqDecision SyncStatus.
Proof. solve_decision. Defined.

(** The awaited calls of a cycle, with what the cycle has at hand at each:
    the generation [ensureProvisioned] was called under, whether this is the
    first cycle, and the documents pulled so far. *)
Inductive seam :=
  | EnsureProvisioned (generation : nat)
  | RemintPending
  | IsMigrated
  | FirstPull
  | RunLazyMigration (firstCycle : bool) (appliedTotal : nat)
  | StampMigrated (appliedTotal : nat)
  | Push (appliedTotal : nat)
  | Pull (appliedTotal : nat)
  | StampLastSynced (appliedTotal : nat).

(** Where a run is suspended: at a seam of its cycle, or at the await of a
    cycle that has returned or thrown. *)
Inductive suspension :=
  | AtSeam (p : seam)
  | CycleReturned
  | CycleThrew.

(** What follows an [onStatusChange] call. *)
Inductive status_cont :=
  | AfterSyncing (r : nat)
  | AfterSynced (r : nat)
  | AfterError (r : nat)
  | AfterIdle.

(** App code the engine called synchronously, and what its return goes on
    with: a status callback, the synchronous part of a seam, or
    [onPullApplied]. *)
Inductive app_code :=
  | InStatus (k : status_cont)
  | InSeam (r : nat) (p : seam)
  | InPullApplied (r : nat).

(** The synchronous call stack. [Assign r] is [this.currentRun = this.run()]
    waiting for the synchronous part of run [r]. *)
Inductive frame :=
  | App (a : app_code)
  | Assign (r : nat).

(** What the machine did, for the theorems to speak of. *)
Inductive event :=
  | EvRequest
  | EvStop
  | EvInvalidate
  | EvStatus (st : SyncStatus)
  | EvCycle (r : nat) (generation : nat)
  | EvCall (r : nat) (p : seam)
  | EvProvisioned (generation : nat)
  | EvSchedule (delay : Q)
  | EvRejected (r : nat).

(** The engine's fields; then the abort signals that have fired, the runs
    suspended at an await, the call stack, the next run's number and the
    history, newest first. A run's number is its abort controller's. *)
Record engine := {
  status : SyncStatus;
  running : bool;
  rerunRequested : bool;
  stopped : bool;
  failureCount : nat;
  currentRun : option nat;
  abortController : option nat;
  cancelRetry : option Q;
  provisioned : bool;
  provisioningGeneration : nat;
  abortedRuns : gset nat;
  suspended : gmap nat suspension;
  stack : list frame;
  nextRun : nat;
  log : list event
}.

Definition set_status (x : SyncStatus) (s : engine) : engine :=
  {| status := x; running := running s; rerunRequested := rerunRequested s; stopped := stopped
     s; failureCount := failureCount s; currentRun := currentRun s; abortController :=
     abortController s; cancelRetry := cancelRetry s; provisioned := provisioned s;
     provisioningGeneration := provisioningGeneration s; abortedRuns := abortedRuns s; suspended
     := suspended s; stack := stack s; nextRun := nextRun s; log := log s |}.
Definition set_running (x : bool) (s : engine) : engine :=
  {| status := status s; running := x; rerunRequested := rerunRequested s; stopped := stopped s;
     failureCount := failureCount s; currentRun := currentRun s; abortController :=
     abortController s; cancelRetry := cancelRetry s; provisioned := provisioned s;
     provisioningGeneration := provisioningGeneration s; abortedRuns := abortedRuns s; suspended
     := suspended s; stack := stack s; nextRun := nextRun s; log := log s |}.
Definition set_rerunRequested (x : bool) (s : engine) : engine :=
  {| status := status s; running := running s; rerunRequested := x; stopped := stopped s;
     failureCount := failureCount s; currentRun := currentRun s; abortController :=
     abortController s; cancelRetry := cancelRetry s; provisioned := provisioned s;
     provisioningGeneration := provisioningGeneration s; abortedRuns := abortedRuns s; suspended
     := suspended s; stack := stack s; nextRun := nextRun s; log := log s |}.
Definition set_stopped (x : bool) (s : engine) : engine :=
  {| status := status s; running := running s; rerunRequested := rerunRequested s; stopped := x;
     failureCount := failureCount s; currentRun := currentRun s; abortController :=
     abortController s; cancelRetry := cancelRetry s; provisioned := provisioned s;
     provisioningGeneration := provisioningGeneration s; abortedRuns := abortedRuns s; suspended
     := suspended s; stack := stack s; nextRun := nextRun s; log := log s |}.
Definition set_failureCount (x : nat) (s : engine) : engine :=
  {| status := status s; running := running s; rerunRequested := rerunRequested s; stopped :=
     stopped s; failureCount := x; currentRun := currentRun s; abortController :=
     abortController s; cancelRetry := cancelRetry s; provisioned := provisioned s;
     provisioningGeneration := provisioningGeneration s; abortedRuns := abortedRuns s; suspended
     := suspended s; stack := stack s; nextRun := nextRun s; log := log s |}.
Definition set_currentRun (x : option nat) (s : engine) : engine :=
  {| status := status s; running := running s; rerunRequested := rerunRequested s; stopped :=
     stopped s; failureCount := failureCount s; currentRun := x; abortController :=
     abortController s; cancelRetry := cancelRetry s; provisioned := provisioned s;
     provisioningGeneration := provisioningGeneration s; abortedRuns := abortedRuns s; suspended
     := suspended s; stack := stack s; nextRun := nextRun s; log := log s |}.
Definition set_abortController (x : option nat) (s : engine) : engine :=
  {| status := status s; running := running s; rerunRequested := rerunRequested s; stopped :=
     stopped s; failureCount := failureCount s; currentRun := currentRun s; abortController :=
     x; cancelRetry := cancelRetry s; provisioned := provisioned s; provisioningGeneration :=
     provisioningGeneration s; abortedRuns := abortedRuns s; suspended := suspended s; stack :=
     stack s; nextRun := nextRun s; log := log s |}.
Definition set_cancelRetry (x : option Q) (s : engine) : engine :=
  {| status := status s; running := running s; rerunRequested := rerunRequested s; stopped :=
     stopped s; failureCount := failureCount s; currentRun := currentRun s; abortController :=
     abortController s; cancelRetry := x; provisioned := provisioned s; provisioningGeneration
     := provisioningGeneration s; abortedRuns := abortedRuns s; suspended := suspended s; stack
     := stack s; nextRun := nextRun s; log := log s |}.
Definition set_provisioned (x : bool) (s : engine) : engine :=
  {| status := status s; running := running s; rerunRequested := rerunRequested s; stopped :=
     stopped s; failureCount := failureCount s; currentRun := currentRun s; abortController :=
     abortController s; cancelRetry := cancelRetry s; provisioned := x; provisioningGeneration
     := provisioningGeneration s; abortedRuns := abortedRuns s; suspended := suspended s; stack
     := stack s; nextRun := nextRun s; log := log s |}.
Definition set_provisioningGeneration (x : nat) (s : engine) : engine :=
  {| status := status s; running := running s; rerunRequested := rerunRequested s; stopped :=
     stopped s; failureCount := failureCount s; currentRun := currentRun s; abortController :=
     abortController s; cancelRetry := cancelRetry s; provisioned := provisioned s;
     provisioningGeneration := x; abortedRuns := abortedRuns s; suspended := suspended s; stack
     := stack s; nextRun := nextRun s; log := log s |}.
Definition set_abortedRuns (x : gset nat) (s : engine) : engine :=
  {| status := status s; running := running s; rerunRequested := rerunRequested s; stopped :=
     stopped s; failureCount := failureCount s; currentRun := currentRun s; abortController :=
     abortController s; cancelRetry := cancelRetry s; provisioned := provisioned s;
     provisioningGeneration := provisioningGeneration s; abortedRuns := x; suspended :=
     suspended s; stack := stack s; nextRun := nextRun s; log := log s |}.
Definition set_suspended (x : gmap nat suspension) (s : engine) : engine :=
  {| status := status s; running := running s; rerunRequested := rerunRequested s; stopped :=
     stopped s; failureCount := failureCount s; currentRun := currentRun s; abortController :=
     abortController s; cancelRetry := cancelRetry s; provisioned := provisioned s;
     provisioningGeneration := provisioningGeneration s; abortedRuns := abortedRuns s; suspended
     := x; stack := stack s; nextRun := nextRun s; log := log s |}.
Definition set_stack (x : list frame) (s : engine) : engine :=
  {| status := status s; running := running s; rerunRequested := rerunRequested s; stopped :=
     stopped s; failureCount := failureCount s; currentRun := currentRun s; abortController :=
     abortController s; cancelRetry := cancelRetry s; provisioned := provisioned s;
     provisioningGeneration := provisioningGeneration s; abortedRuns := abortedRuns s; suspended
     := suspended s; stack := x; nextRun := nextRun s; log := log s |}.
Definition set_nextRun (x : nat) (s : engine) : engine :=
  {| status := status s; running := running s; rerunRequested := rerunRequested s; stopped :=
     stopped s; failureCount := failureCount s; currentRun := currentRun s; abortController :=
     abortController s; cancelRetry := cancelRetry s; provisioned := provisioned s;
     provisioningGeneration := provisioningGeneration s; abortedRuns := abortedRuns s; suspended
     := suspended s; stack := stack s; nextRun := x; log := log s |}.
Definition set_log (x : list event) (s : engine) : engine :=
  {| status := status s; running := running s; rerunRequested := rerunRequested s; stopped :=
     stopped s; failureCount := failureCount s; currentRun := currentRun s; abortController :=
     abortController s; cancelRetry := cancelRetry s; provisioned := provisioned s;
     provisioningGeneration := provisioningGeneration s; abortedRuns := abortedRuns s; suspended
     := suspended s; stack := stack s; nextRun := nextRun s; log := x |}.

Definition emit (e : event) (s : engine) : engine := set_log (e :: log s) s.
Definition push_frame (f : frame) (s : engine) : engine := set_stack (f :: stack s) s.

(** A seam's outcome. A count is the documents applied or the conflicts
    resolved; [isMigrated] answers [true] as a non-zero count. *)
Inductive outcome :=
  | Resolved (n : nat)
  | Rejected.

(** What the environment does next: a call of the engine's three methods,
    from outside or from the app code on top of the stack; that code
    returning or throwing; the retry timer firing; a suspended run resuming. *)
Inductive label :=
  | CallSync
  | CallStop
  | CallInvalidate
  | Return
  | ThrowUp
  | Timer
  | Resume (r : nat) (o : outcome).

(** The injected configuration: is [remintPending] wired, the backoff's two
    delays, and the jitter's draws, one for each length of the history. *)
Class SyncEngineDeps := {
  remintPending : bool;
  baseDelayMs : Q;
  maxDelayMs : Q;
  random : nat → Q
}.

Section Engine.
Context `{!SyncEngineDeps}.

Definition initial : engine := {|
  status := Idle; running := false; rerunRequested := false; stopped := false;
  failureCount := 0; currentRun := None; abortController := None; cancelRetry := None;
  provisioned := false; provisioningGeneration := 0;
  abortedRuns := ∅; suspended := ∅; stack := []; nextRun := 0; log := []
|}.

(** The synchronous part of a run has ended: its caller's assignment runs. *)
Definition returnToCaller (s : engine) : engine :=
  match stack s with
  | Assign r :: rest => set_currentRun (Some r) (set_stack rest s)
  | _ => s
  end.

Definition suspend (r : nat) (p : suspension) (s : engine) : engine :=
  returnToCaller (set_suspended (<[r := p]> (suspended s)) s).

Definition isAborted (r : nat) (s : engine) : bool := bool_decide (r ∈ abortedRuns s).

Definition clearRetry (s : engine) : engine := set_cancelRetry None s.

Definition retryDelay (failureCount : nat) (draw : Q) : Q :=
  (Qmin (baseDelayMs * inject_Z (2 ^ Z.of_nat failureCount)) maxDelayMs *
   ((1 # 2) + (1 # 2) * draw))%Q.

Definition scheduleRetry (s : engine) : engine :=
  let delay := retryDelay (failureCount s) (random (length (log s))) in
  emit (EvSchedule delay)
    (set_cancelRetry (Some delay) (set_failureCount (failureCount s + 1) s)).

(** The [finally] of a run. *)
Definition finish (s : engine) : engine := set_currentRun None (set_running false s).

Definition callSeam (r : nat) (p : seam) (s : engine) : engine :=
  push_frame (App (InSeam r p)) (emit (EvCall r p) s).

(** A cycle from the [remintPending] branch on. *)
Definition afterProvisioning (r : nat) (s : engine) : engine :=
  if isAborted r s then suspend r CycleReturned s
  else callSeam r (if remintPending then RemintPending else IsMigrated) s.

Definition startCycle (r : nat) (s : engine) : engine :=
  let s := emit (EvCycle r (provisioningGeneration s)) (set_rerunRequested false s) in
  if provisioned s then afterProvisioning r s
  else callSeam r (EnsureProvisioned (provisioningGeneration s)) s.

(** Past an onStatusChange call. *)
Definition afterStatus (k : status_cont) (s : engine) : engine :=
  match k with
  | AfterSyncing r => startCycle r (set_abortController (Some r) s)
  | AfterSynced r => finish s
  | AfterError r => finish (scheduleRetry s)
  | AfterIdle => s
  end.

Definition setStatus (st : SyncStatus) (k : status_cont) (s : engine) : engine :=
  if decide (status s = st) then afterStatus k s
  else push_frame (App (InStatus k)) (emit (EvStatus st) (set_status st s)).

(** The [catch] of a run. *)
Definition catchRun (r : nat) (s : engine) : engine :=
  if negb (isAborted r s) && negb (stopped s) then setStatus Error (AfterError r) s
  else finish s.

(** The loop test of a run, after a cycle that returned. *)
Definition afterCycle (r : nat) (s : engine) : engine :=
  if rerunRequested s && negb (isAborted r s) && negb (stopped s) then startCycle r s
  else if negb (isAborted r s) && negb (stopped s) then
    setStatus Synced (AfterSynced r) (set_failureCount 0 s)
  else finish s.

(** A seam of the cycle resolved. *)
Definition afterSeam (r : nat) (p : seam) (n : nat) (s : engine) : engine :=
  match p with
  | EnsureProvisioned generation =>
      let s := emit (EvProvisioned generation) s in
      afterProvisioning r
        (if decide (generation = provisioningGeneration s) then set_provisioned true s else s)
  | RemintPending =>
      if isAborted r s then suspend r CycleReturned s else callSeam r IsMigrated s
  | IsMigrated =>
      if decide (n = 0) then callSeam r FirstPull s else callSeam r (RunLazyMigration false 0) s
  | FirstPull =>
      if isAborted r s then suspend r CycleReturned s
      else callSeam r (RunLazyMigration true n) s
  | RunLazyMigration firstCycle appliedTotal =>
      if isAborted r s then suspend r CycleReturned s
      else if firstCycle then callSeam r (StampMigrated appliedTotal) s
      else callSeam r (Push appliedTotal) s
  | StampMigrated appliedTotal =>
      if isAborted r s then suspend r CycleReturned s else callSeam r (Push appliedTotal) s
  | Push appliedTotal =>
      if isAborted r s then suspend r CycleReturned s
      else callSeam r (Pull appliedTotal)
             (if decide (0 < n) then set_rerunRequested true s else s)
  | Pull appliedTotal =>
      if isAborted r s then suspend r CycleReturned s
      else callSeam r (StampLastSynced (appliedTotal + n)) s
  | StampLastSynced appliedTotal =>
      if decide (0 < appliedTotal) then push_frame (App (InPullApplied r)) s
      else suspend r CycleReturned s
  end.

Definition resume (r : nat) (p : suspension) (o : outcome) (s : engine) : engine :=
  let s := set_suspended (delete r (suspended s)) s in
  match p, o with
  | AtSeam p, Resolved n => afterSeam r p n s
  | AtSeam p, Rejected => suspend r CycleThrew s
  | CycleReturned, _ => afterCycle r s
  | CycleThrew, _ => catchRun r s
  end.

Definition run (s : engine) : engine :=
  let r := nextRun s in
  setStatus Syncing (AfterSyncing r)
    (clearRetry (set_running true (push_frame (Assign r) (set_nextRun (S r) s)))).

Definition sync (s : engine) : engine :=
  if stopped s then s
  else
    let s := emit EvRequest s in
    if running s && bool_decide (is_Some (currentRun s)) then set_rerunRequested true s
    else run s.

Definition invalidateProvisioning (s : engine) : engine :=
  emit EvInvalidate
    (set_provisioned false (set_provisioningGeneration (provisioningGeneration s + 1) s)).

Definition stop (s : engine) : engine :=
  let s := emit EvStop (set_stopped true s) in
  let s := match abortController s with
           | Some r => set_abortedRuns ({[r]} ∪ abortedRuns s) s
           | None => s
           end in
  setStatus Idle AfterIdle (clearRetry s).

Definition timer (s : engine) : engine := sync (set_cancelRetry None s).

(** App code returned. *)
Definition appReturns (a : app_code) (s : engine) : engine :=
  match a with
  | InStatus k => afterStatus k s
  | InSeam r p => suspend r (AtSeam p) s
  | InPullApplied r => suspend r CycleReturned s
  end.

(** App code threw: out of [run] before its [try], into its [catch], out of
    its [catch], out of [stop], or as a rejection of the cycle. *)
Definition appThrows (a : app_code) (s : engine) : engine :=
  match a with
  | InStatus (AfterSyncing r) => returnToCaller (emit (EvRejected r) s)
  | InStatus (AfterSynced r) => catchRun r s
  | InStatus (AfterError r) => finish (emit (EvRejected r) s)
  | InStatus AfterIdle => s
  | InSeam r p => suspend r CycleThrew s
  | InPullApplied r => suspend r CycleThrew s
  end.

(** App code is in control: outside every synchronous call of the engine, or
    inside the one on top of the stack. *)
Definition appInControl (s : engine) : bool :=
  match stack s with
  | [] | App _ :: _ => true
  | Assign _ :: _ => false
  end.

Definition step (s : engine) (l : label) : option engine :=
  match l with
  | CallSync => if appInControl s then Some (sync s) else None
  | CallStop => if appInControl s then Some (stop s) else None
  | CallInvalidate => if appInControl s then Some (invalidateProvisioning s) else None
  | Return =>
      match stack s with
      | App a :: rest => Some (appReturns a (set_stack rest s))
      | _ => None
      end
  | ThrowUp =>
      match stack s with
      | App a :: rest => Some (appThrows a (set_stack rest s))
      | _ => None
      end
  | Timer =>
      match stack s, cancelRetry s with
      | [], Some _ => Some (timer s)
      | _, _ => None
      end
  | Resume r o =>
      match stack s, suspended s !! r with
      | [], Some p => Some (resume r p o s)
      | _, _ => None
      end
  end.

(** The states a history of the environment leads to. *)
Fixpoint steps (s : engine) (ls : list label) : option engine :=
  match ls with
  | [] => Some s
  | l :: ls => step s l ≫= λ s, steps s ls
  end.

Inductive reachable : engine → Prop :=
  | reachable_initial : reachable initial
  | reachable_step s l s' : reachable s → step s l = Some s' → reachable s'.
End Engine.

(** ** Polite app code

    The callbacks of the package's own consumers only forward the status: they
    neither call the engine back synchronously nor throw. Under them the
    engine is what its doc says. *)
Definition polite (s : engine) (l : label) : Prop :=
  match l with
  | CallSync | CallStop | CallInvalidate => stack s = []
  | ThrowUp => ∀ k rest, stack s ≠ App (InStatus k) :: rest
  | _ => True
  end.

(** The last request has not been followed by a cycle yet. *)
Fixpoint owed (log : list event) : bool :=
  match log with
  | [] => false
  | EvRequest :: _ => true
  | EvCycle _ _ :: _ => false
  | _ :: log => owed log
  end.

(** A run, suspended or with app code of its own on the stack. *)
Definition owner (a : app_code) : option nat :=
  match a with
  | InStatus (AfterSyncing r) | InStatus (AfterSynced r) | InStatus (AfterError r) => Some r
  | InStatus AfterIdle => None
  | InSeam r _ | InPullApplied r => Some r
  end.

Definition live (s : engine) (r : nat) : Prop :=
  is_Some (suspended s !! r) ∨ ∃ a, App a ∈ stack s ∧ owner a = Some r.

(** Events a stopped engine may still add: its one live run unwinding. *)
Definition unwinding (e : event) : Prop :=
  match e with
  | EvStop | EvInvalidate | EvProvisioned _ => True
  | EvCall _ (FirstPull | RunLazyMigration _ _) => True
  | _ => False
  end.

(** The generation that was current when the run's last cycle began. *)
Fixpoint cycle_generation (r : nat) (log : list event) : option nat :=
  match log with
  | [] => None
  | EvCycle r' g :: log => if decide (r' = r) then Some g else cycle_generation r log
  | _ :: log => cycle_generation r log
  end.

(** A provisioning call has resolved that began no earlier than the run's
    last cycle, as the invalidations count time. *)
Definition vouched (log : list event) (r : nat) : Prop :=
  ∃ g g', cycle_generation r log = Some g ∧ g ≤ g' ∧ EvProvisioned g' ∈ log.

Definition seam_ok (log : list event) (r : nat) (p : seam) : Prop :=
  match p with
  | EnsureProvisioned g => cycle_generation r log = Some g
  | _ => vouched log r
  end.

Lemma seam_ok_cons e log r p : seam_ok log r p → (∀ g, e ≠ EvCycle r g) →
  seam_ok (e :: log) r p.
Proof.
  intros Hok He. assert (cycle_generation r (e :: log) = cycle_generation r log) as Hg.
  { destruct e; try done. simpl. rewrite decide_False; [done|]. intros ->. by destruct (He generation). }
  assert (vouched log r → vouched (e :: log) r) as Hv.
  { intros (g&g'&?&?&?). exists g, g'. rewrite Hg. split_and!; [done..|by right]. }
  destruct p; simpl in *; auto. by rewrite Hg.
Qed.

Section EngineProofs.
Context `{!SyncEngineDeps}.

Inductive polite_reachable : engine → Prop :=
  | polite_initial : polite_reachable initial
  | polite_step s l s' : polite_reachable s → polite s l → step s l = Some s' →
      polite_reachable s'.

(** Run [r] has control, inside [sync] until its first await. *)
Record executing (r : nat) (start : bool) (s : engine) : Prop := {
  ex_stack : stack s = if start then [Assign r] else [];
  ex_suspended : suspended s = ∅;
  ex_running : running s = true;
  ex_current : currentRun s = if start then None else Some r;
  ex_controller : abortController s = Some r;
  ex_retry : cancelRetry s = None;
  ex_start : start = true → stopped s = false;
  ex_signals : if stopped s then r ∈ abortedRuns s else abortedRuns s = ∅;
  ex_status : status s = if stopped s then Idle else Syncing;
  ex_owed : owed (log s) = true → stopped s = false → rerunRequested s = true
}.

Record resting (s : engine) : Prop := {
  rs_suspended : suspended s = ∅;
  rs_running : running s = false;
  rs_current : currentRun s = None;
  rs_signals : stopped s = false → abortedRuns s = ∅;
  rs_stopped : stopped s = true → status s = Idle ∧ cancelRetry s = None;
  rs_retry : is_Some (cancelRetry s) ↔ status s = Error;
  rs_status : status s ≠ Syncing;
  rs_owed : owed (log s) = true → stopped s = false → is_Some (cancelRetry s)
}.

Inductive at_await : engine → Prop :=
  | await_none s : resting s → stack s = [] → at_await s
  | await_run r p s : executing r false (set_suspended ∅ s) → suspended s = {[r := p]} → at_await s.

(** The three callbacks of a run's own transitions. *)
Record transition (current : option nat) (st : SyncStatus) (s : engine) : Prop := {
  tr_current : currentRun s = current;
  tr_suspended : suspended s = ∅;
  tr_running : running s = true;
  tr_retry : cancelRetry s = None;
  tr_stopped : stopped s = false;
  tr_signals : abortedRuns s = ∅;
  tr_status : status s = st
}.

Inductive polite_inv : engine → Prop :=
  | inv_await s : at_await s → polite_inv s
  | inv_seam r start p rest s : stack s = App (InSeam r p) :: rest →
      executing r start (set_stack rest s) → polite_inv s
  | inv_applied r s : stack s = [App (InPullApplied r)] →
      executing r false (set_stack [] s) → polite_inv s
  | inv_syncing r s : stack s = [App (InStatus (AfterSyncing r)); Assign r] →
      transition None Syncing s → polite_inv s
  | inv_synced r s : stack s = [App (InStatus (AfterSynced r))] → owed (log s) = false →
      transition (Some r) Synced s → polite_inv s
  | inv_error r s : stack s = [App (InStatus (AfterError r))] → transition (Some r) Error s → polite_inv s
  | inv_idle s : stack s = [App (InStatus AfterIdle)] → stopped s = true →
      at_await (set_stack [] s) → polite_inv s.

Lemma executing_aborted r start s : executing r start s → isAborted r s = stopped s.
Proof.
  intros He. pose proof (ex_signals _ _ _ He) as Hs. unfold isAborted.
  destruct (stopped s); [by apply bool_decide_eq_true|].
  apply bool_decide_eq_false. rewrite Hs. set_solver.
Qed.

Lemma suspend_inv r start p s : executing r start s → polite_inv (suspend r p s).
Proof.
  intros He. apply inv_await. destruct He as [Hst Hsu Hru Hcu Hco Hre Hsta Hsi Hstt How].
  unfold suspend, returnToCaller. simpl. rewrite Hst.
  destruct start; eapply (await_run r p); [split| |split|]; simpl; try done;
    by rewrite Hsu, insert_empty.
Qed.

Lemma callSeam_inv r start p s : executing r start s → polite_inv (callSeam r p s).
Proof.
  intros He. eapply (inv_seam r start); [reflexivity|].
  destruct He. by split.
Qed.
#[local] Hint Resolve suspend_inv callSeam_inv : core.

Lemma afterProvisioning_inv r start s : executing r start s →
  polite_inv (afterProvisioning r s).
Proof. intros He. unfold afterProvisioning. destruct (isAborted r s); eauto. Qed.

(** The state a cycle starts from: nothing is asked of [owed]. *)
Lemma startCycle_inv r start s : executing r start (set_rerunRequested true s) →
  polite_inv (startCycle r s).
Proof.
  intros He. unfold startCycle.
  assert (executing r start (emit (EvCycle r (provisioningGeneration s)) (set_rerunRequested false s)))
    as He' by (destruct He; by split).
  simpl. destruct (provisioned s); eauto using afterProvisioning_inv.
Qed.

Lemma finish_resting r s : executing r false s →
  (owed (log s) = true → stopped s = true) → status s ≠ Syncing → status s ≠ Error →
  at_await (finish s).
Proof.
  intros [Hst Hsu Hru Hcu Hco Hre Hsta Hsi Hstt How] Ho Hs He. apply await_none; [|done].
  split; simpl; try done.
  - intros Hf. by rewrite Hf in Hsi.
  - intros Ht. by rewrite Ht in Hstt.
  - rewrite Hre. by split; [intros []|].
  - intros Hl Hf. rewrite (Ho Hl) in Hf. done.
Qed.

Lemma executing_transition r st s : executing r false s → stopped s = false →
  transition (Some r) st (set_status st s).
Proof. intros [] Hf. split; simpl; try done. by rewrite Hf in *. Qed.

Lemma afterCycle_inv r s : executing r false s → polite_inv (afterCycle r s).
Proof.
  intros He. unfold afterCycle. rewrite (executing_aborted _ _ _ He).
  destruct (stopped s) eqn:Hf; simpl.
  - rewrite andb_false_r. simpl. apply inv_await, (finish_resting r); [done|done|..];
      rewrite (ex_status _ _ _ He), Hf; done.
  - destruct (rerunRequested s) eqn:Hr; simpl.
    + apply (startCycle_inv r false). destruct He. by split.
    + unfold setStatus. simpl. rewrite decide_False by (rewrite (ex_status _ _ _ He), Hf; done).
      eapply (inv_synced r); [by simpl; rewrite (ex_stack _ _ _ He)|simpl|].
      * destruct (owed (log s)) eqn:Ho; [|done]. pose proof (ex_owed _ _ _ He Ho Hf). congruence.
      * destruct (executing_transition r Synced s He Hf). by split.
Qed.

Lemma catchRun_inv r s : executing r false s → polite_inv (catchRun r s).
Proof.
  intros He. unfold catchRun. rewrite (executing_aborted _ _ _ He).
  destruct (stopped s) eqn:Hf; simpl.
  - apply inv_await, (finish_resting r); [done|done|..];
      rewrite (ex_status _ _ _ He), Hf; done.
  - unfold setStatus. rewrite decide_False by (rewrite (ex_status _ _ _ He), Hf; done).
    eapply (inv_error r); [by simpl; rewrite (ex_stack _ _ _ He)|].
    destruct (executing_transition r Error s He Hf). by split.
Qed.

Lemma afterSeam_inv r p n s : executing r false s →
  polite_inv (afterSeam r p n s).
Proof.
  intros He. destruct p; simpl.
  1: apply (afterProvisioning_inv r false); case_decide; destruct He; by split.
  1-5,7: repeat case_match; eauto.
  2:{ case_decide; [|eauto]. eapply (inv_applied r); [simpl; by rewrite (ex_stack _ _ _ He)|].
      destruct He; by split. }
  destruct (isAborted r s); [eauto|]. apply (callSeam_inv r false).
  case_decide; [|done]. destruct He; by split.
Qed.

Lemma resume_inv r p o s : executing r false (set_suspended ∅ s) → suspended s = {[r := p]} →
  polite_inv (resume r p o s).
Proof.
  intros He Hs. unfold resume.
  assert (set_suspended (delete r (suspended s)) s = set_suspended ∅ s) as ->
    by (rewrite Hs; by rewrite delete_singleton_eq).
  destruct p as [p| |]; [destruct o|..].
  - by apply afterSeam_inv.
  - by eapply suspend_inv.
  - by apply afterCycle_inv.
  - by apply catchRun_inv.
Qed.

Lemma afterStatus_inv k rest s : polite_inv s → stack s = App (InStatus k) :: rest →
  polite_inv (afterStatus k (set_stack rest s)).
Proof.
  intros Hi Hst. inversion Hi as [s' Ha|r start p rest' s' Hst'|r s' Hst'|r s' Hst' Htr
    |r s' Hst' How Htr|r s' Hst' Htr|s' Hst' Hstop Ha]; subst s'; try (rewrite Hst in Hst'; simplify_eq).
  - destruct Ha as [s Ha Hs|r p s He Hs].
    + congruence.
    + pose proof (ex_stack _ _ _ He). simpl in *. congruence.
  - simpl. apply (startCycle_inv r true). destruct Htr as [Hcu Hsu Hru Hre Hsp Hsi Hss].
    split; simpl; try done.
    all: by rewrite Hsp.
  - simpl. apply inv_await, await_none; [|done]. destruct Htr as [Hcu Hsu Hru Hre Hsp Hsi Hss].
    split; simpl; try done; try congruence.
    + rewrite Hre, Hss. by split; [intros []|].
  - simpl. apply inv_await, await_none; [|done]. destruct Htr as [Hcu Hsu Hru Hre Hsp Hsi Hss].
    split; simpl; try done; try congruence.
  - simpl. by apply inv_await.
Qed.

Lemma appReturns_inv a rest s : polite_inv s → stack s = App a :: rest →
  polite_inv (appReturns a (set_stack rest s)).
Proof.
  intros Hi Hst. destruct a as [k|r p|r]; [by apply afterStatus_inv|..]; simpl.
  all: inversion Hi as [s' Ha|r' start p' rest' s' Hst' He|r' s' Hst' He|r' s' Hst'|r' s' Hst'
    |r' s' Hst'|s' Hst']; subst s'; try (rewrite Hst in Hst'; simplify_eq).
  1,3: destruct Ha as [s Ha Hs|r' p' s He Hs]; [congruence|];
    pose proof (ex_stack _ _ _ He); simpl in *; congruence.
  - by eapply suspend_inv.
  - by eapply suspend_inv.
Qed.

Lemma appThrows_inv a rest s : polite_inv s → stack s = App a :: rest →
  (∀ k, a ≠ InStatus k) → polite_inv (appThrows a (set_stack rest s)).
Proof.
  intros Hi Hst Hk. destruct a as [k|r p|r]; [by destruct (Hk k)|..]; simpl.
  all: inversion Hi as [s' Ha|r' start p' rest' s' Hst' He|r' s' Hst' He|r' s' Hst'|r' s' Hst'
    |r' s' Hst'|s' Hst']; subst s'; try (rewrite Hst in Hst'; simplify_eq).
  1,3: destruct Ha as [s Ha Hs|r' p' s He Hs]; [congruence|];
    pose proof (ex_stack _ _ _ He); simpl in *; congruence.
  - by eapply suspend_inv.
  - by eapply suspend_inv.
Qed.

Lemma stack_nil_await s : polite_inv s → stack s = [] → at_await s.
Proof.
  intros Hi Hst. by inversion Hi; subst; try congruence.
Qed.

Lemma sync_inv s : at_await s → stack s = [] → polite_inv (sync s).
Proof.
  intros Ha Hst. unfold sync. destruct (stopped s) eqn:Hstop; [by apply inv_await|].
  destruct Ha as [s Hr _|r p s He Hs].
  - simpl. rewrite (rs_running _ Hr). simpl. unfold run, setStatus. simpl.
    rewrite decide_False by apply Hr.
    eapply (inv_syncing (nextRun s)); simpl; [by rewrite Hst|].
    destruct Hr. split; simpl; auto.
  - pose proof (ex_running _ _ _ He) as Hru. pose proof (ex_current _ _ _ He) as Hcu.
    simpl in *. rewrite Hru, Hcu. simpl.
    apply inv_await. eapply (await_run r p); [|done]. destruct He. split; simpl in *; done.
Qed.

Lemma at_await_emit e s : at_await s → owed (e :: log s) = owed (log s) → at_await (emit e s).
Proof.
  intros [s' Hr Hs|r p s' He Hs] Ho; [apply await_none|eapply await_run]; try done.
  - destruct Hr. split; try done. by rewrite <-Ho in rs_owed0.
  - destruct He. split; try done. simpl in Ho, ex_owed0. by rewrite <-Ho in ex_owed0.
Qed.

Lemma stop_inv s : at_await s → stack s = [] → polite_inv (stop s).
Proof.
  intros Ha Hst.
  set (s1 := clearRetry (match abortController s with
    | Some r => set_abortedRuns ({[r]} ∪ abortedRuns s) (emit EvStop (set_stopped true s))
    | None => emit EvStop (set_stopped true s) end)).
  assert (stack s1 = [] ∧ stopped s1 = true ∧ status s1 = status s ∧
    at_await (set_status Idle s1)) as (Hs1&Hsp&Hss&Haw).
  { unfold s1. split_and!; try by destruct (abortController s).
    destruct Ha as [s Hr _|r p s He Hs].
    - apply await_none; [|by destruct (abortController s)].
      destruct Hr. split; destruct (abortController s); simpl; naive_solver.
    - pose proof (ex_controller _ _ _ He) as Hc. simpl in Hc. rewrite Hc.
      eapply (await_run r p); [|done]. destruct He. split; simpl in *; try done. set_solver. }
  unfold stop, setStatus. change (clearRetry _) with s1. clearbody s1. case_decide as Hd.
  - simpl. apply inv_await. destruct s1; simpl in *. subst. by rewrite Hd.
  - eapply inv_idle; simpl; [by rewrite Hs1|done|].
    replace (set_stack _ _) with (emit (EvStatus Idle) (set_status Idle s1))
      by (destruct s1; simpl in *; by subst).
    by apply at_await_emit.
Qed.

Lemma invalidate_inv s : at_await s → polite_inv (invalidateProvisioning s).
Proof.
  intros Ha. apply inv_await.
  destruct Ha as [s Hr Hs|r p s He Hs]; [apply await_none|eapply await_run]; try done.
  - destruct Hr. by split.
  - destruct He. by split.
Qed.

Lemma step_inv s l s' : polite_inv s → polite s l → step s l = Some s' → polite_inv s'.
Proof.
  intros Hi Hp Hs. destruct l; simpl in *.
  1-3: destruct (appInControl s); [injection Hs as <-|done];
    pose proof (stack_nil_await s Hi Hp); auto using sync_inv, stop_inv, invalidate_inv.
  - destruct (stack s) as [|[a|] rest] eqn:Hst; simplify_eq. by apply appReturns_inv.
  - destruct (stack s) as [|[a|] rest] eqn:Hst; simplify_eq. apply appThrows_inv; [done..|].
    intros k ->. by eapply Hp.
  - destruct (stack s) eqn:Hst, (cancelRetry s) eqn:Hr; simplify_eq.
    pose proof (stack_nil_await s Hi Hst) as Ha. unfold timer.
    destruct Ha as [s Hre _|r p s He _].
    2:{ pose proof (ex_retry _ _ _ He). simpl in *. congruence. }
    unfold sync. simpl.
    assert (stopped s = false) as Hsp.
    { destruct (stopped s) eqn:Hsp; [|done]. apply (rs_stopped _ Hre) in Hsp as [_ ?]. congruence. }
    rewrite Hsp, (rs_running _ Hre). simpl. unfold run, setStatus. simpl.
    rewrite decide_False by apply Hre.
    eapply (inv_syncing (nextRun s)); simpl; [by rewrite Hst|].
    destruct Hre. split; simpl; auto.
  - destruct (stack s) eqn:Hst, (suspended s !! r) as [p|] eqn:Hr; simplify_eq.
    destruct (stack_nil_await s Hi Hst) as [s Hre _|r' p' s He Hs].
    + rewrite (rs_suspended _ Hre) in Hr. by rewrite lookup_empty in Hr.
    + rewrite Hs in Hr. apply lookup_singleton_Some in Hr as [-> ->]. by apply resume_inv.
Qed.

Lemma initial_inv : polite_inv initial.
Proof. apply inv_await, await_none; [|done]. by split; simpl; try done; intros []. Qed.

Lemma polite_reachable_inv s : polite_reachable s → polite_inv s.
Proof. induction 1; [apply initial_inv|by eapply step_inv]. Qed.

(** What each shape of the machine says of its live runs. *)
Lemma live_none s : suspended s = ∅ → (∀ a, App a ∈ stack s → owner a = None) → ∀ r, ¬ live s r.
Proof.
  intros Hs Ha r [Hr|(a&Hin&Ho)].
  - rewrite Hs, lookup_empty in Hr. by destruct Hr.
  - apply Ha in Hin. congruence.
Qed.

Lemma live_one s r : suspended s = ∅ → (∀ a, App a ∈ stack s → owner a = Some r) →
  (∃ a, App a ∈ stack s) → ∀ r', live s r' ↔ r' = r.
Proof.
  intros Hs Ha [a Hin] r'. unfold live. rewrite Hs, lookup_empty. split.
  - intros [[? ?]|(a'&Hin'&Ho)]; [done|]. apply Ha in Hin'. congruence.
  - intros ->. right. eauto.
Qed.

(** At most one run is live, and [running] says whether there is one. *)
Definition one_run (s : engine) : Prop :=
  (running s = false ∧ ∀ r, ¬ live s r) ∨
  (running s = true ∧ ∃ r, (∀ r', live s r' ↔ r' = r) ∧
     (currentRun s = Some r ∨ currentRun s = None ∧ stack s ≠ [])).

Lemma await_live s rest : at_await (set_stack [] s) → stack s = rest →
  (∀ a, App a ∈ rest → owner a = None) → one_run s.
Proof.
  intros Ha Hst Hrest. remember (set_stack [] s) as s0 eqn:Hs0.
  destruct Ha as [s0 Hr _|r p s0 He Hs]; subst s0.
  - left. split; [apply Hr|]. apply live_none; [apply Hr|by rewrite Hst].
  - right. split; [apply (ex_running _ _ _ He)|]. exists r.
    split; [|left; apply (ex_current _ _ _ He)]. intros r'. unfold live. simpl in Hs.
    rewrite Hs, Hst. split.
    + intros [[p' Hp]|(a&Hin&Ho)].
      * by apply lookup_singleton_Some in Hp as [-> _].
      * apply Hrest in Hin. congruence.
    + intros ->. left. rewrite lookup_singleton_eq. eauto.
Qed.

Lemma app_live s r a rest : suspended s = ∅ → stack s = App a :: rest → owner a = Some r →
  (∀ a, App a ∉ rest) → running s = true →
  currentRun s = Some r ∨ currentRun s = None → one_run s.
Proof.
  intros Hs Hst Ho Hrest Hru Hc. right. split; [done|]. exists r. split.
  - apply live_one; [done|rewrite Hst..]; [|exists a; left].
    intros a' [[= ->]|Hin]%elem_of_cons; [done|]. by destruct (Hrest a').
  - rewrite Hst. naive_solver.
Qed.

Lemma polite_live s : polite_inv s → one_run s.
Proof.
  assert (∀ a, App a ∉ @nil frame) as Hnil by set_solver.
  assert (∀ r a, App a ∉ [Assign r]) as Hass by set_solver.
  intros [s0 Ha|r start p rest s0 Hst He|r s0 Hst He|r s0 Hst Htr|r s0 Hst Ho Htr|r s0 Hst Htr
    |s0 Hst Hstop Ha].
  - assert (stack s0 = []) as Hst by (destruct Ha as [|r p s1 He]; [done|apply (ex_stack _ _ _ He)]).
    eapply await_live; [|done|set_solver]. destruct s0; simpl in *. by subst.
  - pose proof (ex_stack _ _ _ He) as Hrest. pose proof (ex_current _ _ _ He) as Hcu. simpl in *.
    eapply (app_live _ r); [apply (ex_suspended _ _ _ He)|done|done|..|apply (ex_running _ _ _ He)|].
    + rewrite Hrest. by destruct start.
    + rewrite Hcu. destruct start; auto.
  - eapply (app_live _ r); [apply (ex_suspended _ _ _ He)|done|done|done|apply (ex_running _ _ _ He)|].
    left. apply (ex_current _ _ _ He).
  - destruct Htr. by eapply (app_live _ r); [..|right].
  - destruct Htr. by eapply (app_live _ r); [..|left].
  - destruct Htr. by eapply (app_live _ r); [..|left].
  - eapply await_live; [done..|]. intros a [[= ->]|?%elem_of_nil]%elem_of_cons; done.
Qed.

(** Where the engine is, from outside. *)
Definition served (s : engine) : Prop :=
  stopped s = false → stack s = [] →
  (running s = true → status s = Syncing ∧ cancelRetry s = None ∧
     (owed (log s) = true → rerunRequested s = true)) ∧
  (running s = false → (owed (log s) = true → is_Some (cancelRetry s)) ∧
     (is_Some (cancelRetry s) ↔ status s = Error)).

Lemma polite_served s : polite_inv s → served s.
Proof.
  intros Hi Hsp Hst. destruct (stack_nil_await s Hi Hst) as [s Hr _|r p s He Hs].
  - rewrite (rs_running _ Hr). split; [done|]. intros _.
    split; [intros Ho; by apply (rs_owed _ Hr)|apply (rs_retry _ Hr)].
  - pose proof (ex_running _ _ _ He) as Hru. pose proof (ex_status _ _ _ He) as Hss.
    pose proof (ex_owed _ _ _ He) as How. pose proof (ex_retry _ _ _ He) as Hre. simpl in *.
    rewrite Hru. rewrite Hsp in Hss. split; [|done]. intros _. split_and!; auto.
Qed.

(** ** A stopped engine unwinds *)
Record halted (s : engine) : Prop := {
  ht_stopped : stopped s = true;
  ht_status : status s = Idle;
  ht_retry : cancelRetry s = None;
  ht_suspended : ∀ r p, suspended s !! r = Some p → r ∈ abortedRuns s;
  ht_stack : ∀ f, f ∈ stack s → f = App (InStatus AfterIdle) ∨
    ∃ r, r ∈ abortedRuns s ∧ ((∃ p, f = App (InSeam r p)) ∨ f = App (InPullApplied r))
}.

Definition extends_by (P : event → Prop) (s s' : engine) : Prop :=
  ∃ evs, Forall P evs ∧ log s' = evs ++ log s.

#[local] Instance extends_preorder P : PreOrder (extends_by P).
Proof.
  split; [by exists []|]. intros s1 s2 s3 (l1&H1&E1) (l2&H2&E2). exists (l2 ++ l1).
  split; [by apply Forall_app|]. by rewrite E2, E1, app_assoc.
Qed.

Lemma extends_one (P : event → Prop) e s s' : P e → log s' = e :: log s → extends_by P s s'.
Proof. intros He Hl. exists [e]. by repeat constructor. Qed.

Lemma extends_same P s s' : log s' = log s → extends_by P s s'.
Proof. intros Hl. exists []. by repeat constructor. Qed.

Definition unwinds (s s' : engine) : Prop := halted s' ∧ extends_by unwinding s s'.

Lemma halted_aborted s r : halted s → r ∈ abortedRuns s → isAborted r s = true.
Proof. intros. by apply bool_decide_eq_true. Qed.

Lemma halted_suspend r p s : halted s → r ∈ abortedRuns s → unwinds s (suspend r p s).
Proof.
  intros [Hs Hst Hr Hsu Hstk] Ha. unfold suspend, returnToCaller. simpl.
  assert (match stack s with Assign _ :: _ => False | _ => True end) as Hna.
  { destruct (stack s) as [|[|r'] rest]; [done..|].
    by destruct (Hstk (Assign r')) as [|(?&_&[[? ?]|?])]; [left|..]. }
  destruct (stack s) as [|[a|r'] rest] eqn:Hstack; [..|done].
  all: split; [|by apply extends_same].
  all: split; simpl; try done; [|by rewrite Hstack].
  all: intros r' p' [[<- _]|[_ ?]]%lookup_insert_Some; eauto.
Qed.

Lemma halted_seam r p s : halted s → r ∈ abortedRuns s → unwinding (EvCall r p) →
  unwinds s (callSeam r p s).
Proof.
  intros [Hs Hst Hr Hsu Hstk] Ha Hp. split; [|by eapply extends_one].
  split; simpl; try done. intros f [->|Hf]%elem_of_cons; [right|by apply Hstk]. eauto.
Qed.

Lemma halted_afterSeam r p n s : halted s → r ∈ abortedRuns s →
  unwinds s (afterSeam r p n s).
Proof.
  intros Hh Ha. pose proof (halted_aborted s r Hh Ha) as Hab.
  assert (∀ e, unwinding e → halted (emit e s)) as Hemit by (destruct Hh; by split).
  destruct p; simpl; rewrite ?Hab; try by apply halted_suspend.
  - set (s1 := emit (EvProvisioned generation) s).
    assert (halted s1) as Hh1 by by apply Hemit.
    set (s2 := if decide (generation = provisioningGeneration s) then set_provisioned true s1 else s1).
    assert (unwinds s s2 ∧ abortedRuns s2 = abortedRuns s) as [[Hh2 He2] Ha2].
    { unfold s2. split; [|by case_decide]. split; [case_decide; [destruct Hh1; by split|done]|].
      apply (extends_one _ (EvProvisioned generation)); [done|by case_decide]. }
    unfold afterProvisioning. rewrite (halted_aborted s2) by (try rewrite Ha2; done).
    destruct (halted_suspend r CycleReturned s2) as [? ?]; [done|by rewrite Ha2|].
    split; [done|by etrans].
  - case_decide; by apply halted_seam.
  - case_decide; [|by apply halted_suspend]. split; [|by apply extends_same].
    destruct Hh as [Hs Hst Hr Hsu Hstk]. split; simpl; try done.
    intros f [->|Hf]%elem_of_cons; [right|by apply Hstk]. eauto.
Qed.

Lemma halted_finish s : halted s → unwinds s (finish s).
Proof. intros []. split; [by split|by apply extends_same]. Qed.

Lemma halted_pop a rest s : halted s → stack s = App a :: rest → halted (set_stack rest s) ∧
  (a = InStatus AfterIdle ∨ ∃ r, r ∈ abortedRuns s ∧ ((∃ p, a = InSeam r p) ∨ a = InPullApplied r)).
Proof.
  intros [Hs Hst Hr Hsu Hstk] Hstack. split.
  - split; simpl; try done. intros f Hf. apply Hstk. rewrite Hstack. by right.
  - destruct (Hstk (App a)) as [[= ->]|(r&?&[[p [= ->]]|[= ->]])]; [rewrite Hstack; left|..];
      [by left|right; exists r; eauto..].
Qed.

Lemma halted_step s l s' : halted s → step s l = Some s' → unwinds s s'.
Proof.
  intros Hh Hs. destruct l; simpl in *.
  - destruct (appInControl s); simplify_eq. unfold sync. rewrite (ht_stopped _ Hh).
    by split.
  - destruct (appInControl s); simplify_eq. unfold stop, setStatus.
    assert (halted (clearRetry (match abortController s with
      | Some r => set_abortedRuns ({[r]} ∪ abortedRuns s) (emit EvStop (set_stopped true s))
      | None => emit EvStop (set_stopped true s) end))) as Hh'.
    { destruct Hh as [? ? ? Hsu Hstk]. destruct (abortController s); split; simpl; try done.
      - intros r p Hp. apply Hsu in Hp. set_solver.
      - intros f [?|(r&?&?)]%Hstk; [by left|right]. exists r. set_solver. }
    rewrite decide_True by apply Hh'.
    split; [exact Hh'|].
    eapply (extends_one _ EvStop); [done|]. simpl. by destruct (abortController s).
  - destruct (appInControl s); simplify_eq. split; [destruct Hh; by split|].
    by apply (extends_one _ EvInvalidate).
  - destruct (stack s) as [|[a|] rest] eqn:Hst; simplify_eq.
    destruct (halted_pop _ _ _ Hh Hst) as [Hp [->|(r&Hr&[[p ->]| ->])]]; simpl.
    + by split; [|apply extends_same].
    + destruct (halted_suspend r (AtSeam p) _ Hp Hr). by split.
    + destruct (halted_suspend r CycleReturned _ Hp Hr). by split.
  - destruct (stack s) as [|[a|] rest] eqn:Hst; simplify_eq.
    destruct (halted_pop _ _ _ Hh Hst) as [Hp [->|(r&Hr&[[p ->]| ->])]]; simpl.
    + by split; [|apply extends_same].
    + destruct (halted_suspend r CycleThrew _ Hp Hr). by split.
    + destruct (halted_suspend r CycleThrew _ Hp Hr). by split.
  - rewrite (ht_retry _ Hh) in Hs. by destruct (stack s).
  - destruct (stack s) eqn:Hst, (suspended s !! r) as [p|] eqn:Hr; simplify_eq.
    pose proof (ht_suspended _ Hh _ _ Hr) as Ha. unfold resume.
    assert (halted (set_suspended (delete r (suspended s)) s)) as Hh'.
    { destruct Hh as [? ? ? Hsu Hstk]. split; simpl; try done.
      intros r' p' [_ ?]%lookup_delete_Some. eauto. }
    change (extends_by unwinding s) with
      (extends_by unwinding (set_suspended (delete r (suspended s)) s)).
    change (unwinds s) with (unwinds (set_suspended (delete r (suspended s)) s)).
    destruct p as [p| |]; [destruct o|..].
    + by apply halted_afterSeam.
    + by apply halted_suspend.
    + unfold afterCycle. rewrite (halted_aborted _ r Hh' Ha), !andb_false_r. by apply halted_finish.
    + unfold catchRun. rewrite (halted_aborted _ r Hh' Ha). by apply halted_finish.
Qed.

Lemma halted_steps s ls s' : halted s → steps s ls = Some s' → unwinds s s'.
Proof.
  revert s. induction ls as [|l ls IH]; intros s Hh Hs; simpl in Hs.
  { injection Hs as <-. by split. }
  destruct (step s l) as [s1|] eqn:H1; simpl in Hs; [|done].
  destruct (halted_step _ _ _ Hh H1) as [Hh1 He1].
  destruct (IH _ Hh1 Hs) as [Hh2 He2]. split; [done|by etrans].
Qed.

Lemma polite_halted s : polite_inv s → stopped s = true → halted s.
Proof.
  assert (∀ s, at_await s → stopped s = true → stack s = [] → halted s) as Hawait.
  { intros s0 Ha Hsp Hst. destruct Ha as [s1 Hr _|r p s1 He Hs].
    - destruct (rs_stopped _ Hr Hsp) as [Hi Hc]. split; try done.
      + intros r p. rewrite (rs_suspended _ Hr). by rewrite lookup_empty.
      + rewrite Hst. set_solver.
    - pose proof (ex_signals _ _ _ He) as Hsi. pose proof (ex_status _ _ _ He) as Hss.
      pose proof (ex_retry _ _ _ He) as Hre. simpl in *. rewrite Hsp in *. split; try done.
      + rewrite Hs. by intros r' p' [-> _]%lookup_singleton_Some.
      + rewrite Hst. set_solver. }
  intros Hi Hsp.
  assert (∀ r start rest a, executing r start (set_stack rest s) → stack s = App a :: rest →
    ((∃ p, a = InSeam r p) ∨ a = InPullApplied r) → halted s) as Hexec.
  { intros r start rest a [Hst Hsu Hru Hcu Hco Hre Hsta Hsi Hss How] Hstack Ha. simpl in *.
    rewrite Hsp in *. destruct start; [by specialize (Hsta eq_refl)|]. subst rest.
    split; try done; [rewrite Hsu; intros ? ?; by rewrite lookup_empty|].
    rewrite Hstack. intros f [->|?%elem_of_nil]%elem_of_cons; [right|done].
    exists r. split; [done|]. destruct Ha as [[p ->]| ->]; eauto. }
  destruct Hi as [s0 Ha|r start p rest s0 Hst He|r s0 Hst He|r s0 Hst Htr|r s0 Hst Ho Htr|r s0 Hst Htr
    |s0 Hst Hstop Ha].
  - apply Hawait; [done..|]. destruct Ha as [|r p s1 He]; [done|apply (ex_stack _ _ _ He)].
  - eapply Hexec; eauto.
  - eapply Hexec; eauto.
  - destruct Htr. congruence.
  - destruct Htr. congruence.
  - destruct Htr. congruence.
  - destruct (Hawait _ Ha Hsp eq_refl) as [? ? ? ? ?]. split; try done. rewrite Hst.
    intros f [->|?%elem_of_nil]%elem_of_cons; [by left|done].
Qed.

(** ** Provisioning, under any app code *)

Definition owners (s : engine) : list nat :=
  omap (λ f, match f with App a => owner a | Assign _ => None end) (stack s).

(** Run [r] stands nowhere: it has control. *)
Definition absent (r : nat) (s : engine) : Prop :=
  r ∉ owners s ∧ suspended s !! r = None ∧ r < nextRun s.

(** Where each run may stand, given the history. *)
Definition seat_ok (log : list event) (p : suspension) (r : nat) : Prop :=
  match p with AtSeam p => seam_ok log r p | _ => True end.

Definition app_ok (log : list event) (a : app_code) : Prop :=
  match a with InSeam r p => seam_ok log r p | _ => True end.

Record ordered (s : engine) : Prop := {
  or_memo : provisioned s = true → EvProvisioned (provisioningGeneration s) ∈ log s;
  or_history : ∀ l1 r p l2, log s = l1 ++ EvCall r p :: l2 → seam_ok l2 r p;
  or_suspended : ∀ r p, suspended s !! r = Some p → seat_ok (log s) p r;
  or_stack : ∀ a, App a ∈ stack s → app_ok (log s) a;
  or_owners : NoDup (owners s);
  or_owner : ∀ r, r ∈ owners s → suspended s !! r = None ∧ r < nextRun s;
  or_fresh : ∀ r p, suspended s !! r = Some p → r < nextRun s
}.

Lemma ordered_emit e s : ordered s → (∀ r g, e ≠ EvCycle r g) → (∀ r p, e ≠ EvCall r p) →
  ordered (emit e s).
Proof.
  intros [Hm Hh Hs Hst Ho How Hf] Hc Hcall.
  assert (∀ r p, seam_ok (log s) r p → seam_ok (e :: log s) r p) as Hok
    by (intros; apply seam_ok_cons; [done|]; intros; by apply Hc).
  split; simpl; try done.
  - intros Hp. right. auto.
  - intros l1 r p l2 Hl. destruct l1 as [|e' l1]; simplify_eq/=; [by destruct (Hcall r p)|].
    by eapply Hh.
  - intros r [p| |] Hr; simpl; auto. apply Hok, (Hs r (AtSeam p) Hr).
  - intros [k|r p|r] Ha; simpl; auto. apply Hok, (Hst _ Ha).
Qed.

(** Fields no clause reads. *)
Lemma ordered_frame s s' : ordered s → provisioned s' = provisioned s →
  provisioningGeneration s' = provisioningGeneration s → log s' = log s →
  suspended s' = suspended s → stack s' = stack s → nextRun s' = nextRun s → ordered s'.
Proof.
  intros [Hm Hh Hs Hst Ho How Hf] E1 E2 E3 E4 E5 E6.
  assert (owners s' = owners s) as E7 by (unfold owners; by rewrite E5).
  split; rewrite ?E1, ?E2, ?E3, ?E4, ?E5, ?E6, ?E7; done.
Qed.

Lemma ordered_push a s : ordered s → app_ok (log s) a →
  (∀ r, owner a = Some r → absent r s) → ordered (push_frame (App a) s).
Proof.
  intros [Hm Hh Hs Hst Ho How Hf] Ha Hr. split; simpl; try done.
  - intros a' [[= ->]|?]%elem_of_cons; auto.
  - unfold owners; simpl. destruct (owner a) as [r|] eqn:Hoa; [|done]. constructor; [|done].
    by destruct (Hr r eq_refl) as [? _].
  - intros r. unfold owners; simpl. destruct (owner a) as [r'|] eqn:Hoa; [|apply How].
    intros [->|?]%elem_of_cons; [|by apply How]. by destruct (Hr r' eq_refl) as (_&?&?).
Qed.

Lemma ordered_call r p s : ordered s → seam_ok (log s) r p → absent r s →
  ordered (callSeam r p s).
Proof.
  intros Hi Hok Habs. unfold callSeam.
  assert (ordered (emit (EvCall r p) s)) as Hi'.
  { destruct Hi as [Hm Hh Hs Hst Ho How Hf].
    assert (∀ r' p', seam_ok (log s) r' p' → seam_ok (EvCall r p :: log s) r' p') as Hcons
      by (intros; by apply seam_ok_cons).
    split; simpl; try done.
    - intros ?. right. auto.
    - intros l1 r' p' l2 Hl. destruct l1 as [|e l1]; simplify_eq/=; [done|]. by eapply Hh.
    - intros r' [p'| |] Hr; simpl; auto. apply Hcons, (Hs r' (AtSeam p') Hr).
    - intros [k|r' p'|r'] Ha; simpl; auto. apply Hcons, (Hst _ Ha). }
  apply ordered_push; [done| |].
  - simpl. by apply seam_ok_cons.
  - by intros r' [= <-].
Qed.

Lemma ordered_return s : ordered s → ordered (returnToCaller s).
Proof.
  intros Hi. unfold returnToCaller. destruct (stack s) as [|[a|r] rest] eqn:Hst; [done..|].
  destruct Hi as [Hm Hh Hs Hst' Ho How Hf].
  assert (owners s = owners (set_currentRun (Some r) (set_stack rest s))) as Hown
    by (unfold owners; simpl; by rewrite Hst).
  rewrite Hown in Ho, How. split; simpl; try done.
  intros a Ha. apply Hst'. rewrite Hst. by right.
Qed.

Lemma ordered_suspend r p s : ordered s → seat_ok (log s) p r → absent r s →
  ordered (suspend r p s).
Proof.
  intros Hi Hok (Hno&Hs0&Hlt). apply ordered_return.
  destruct Hi as [Hm Hh Hs Hst Ho How Hf]. split; simpl; try done.
  - intros r' p' [[<- <-]|[? ?]]%lookup_insert_Some; auto.
  - intros r' Hr'. rewrite lookup_insert_ne by (intros ->; done). by apply How.
  - intros r' p' [[<- <-]|[? ?]]%lookup_insert_Some; eauto.
Qed.
#[local] Hint Resolve ordered_suspend ordered_call : core.

Lemma ordered_afterProvisioning r s : ordered s → vouched (log s) r → absent r s →
  ordered (afterProvisioning r s).
Proof.
  intros Hi Hv Habs. unfold afterProvisioning. destruct (isAborted r s); [by apply ordered_suspend|].
  apply ordered_call; [done| |done]. by destruct remintPending.
Qed.

Lemma ordered_startCycle r s : ordered s → absent r s → ordered (startCycle r s).
Proof.
  intros Hi Habs. unfold startCycle.
  set (s1 := emit (EvCycle r (provisioningGeneration s)) (set_rerunRequested false s)).
  assert (ordered s1 ∧ absent r s1) as [Hi1 Habs1].
  { split; [|done]. destruct Hi as [Hm Hh Hs Hst Ho How Hf]. destruct Habs as (Hno&Hs0&Hlt).
    split; simpl; try done.
    - intros ?. right. auto.
    - intros l1 r' p' l2 Hl. destruct l1 as [|e l1]; simplify_eq/=. by eapply Hh.
    - intros r' [p'| |] Hr; simpl; auto.
      apply seam_ok_cons; [apply (Hs r' (AtSeam p') Hr)|]. intros g [= <-]. congruence.
    - intros [k|r' p'|r'] Ha; simpl; auto.
      apply seam_ok_cons; [apply (Hst _ Ha)|]. intros g [= <-].
      apply Hno. unfold owners. rewrite list_elem_of_omap. eauto. }
  assert (cycle_generation r (log s1) = Some (provisioningGeneration s)) as Hg
    by (simpl; by rewrite decide_True).
  destruct (provisioned s1) eqn:Hp.
  - apply ordered_afterProvisioning; [done| |done].
    exists (provisioningGeneration s), (provisioningGeneration s).
    split_and!; [done|lia|apply (or_memo _ Hi1 Hp)].
  - by apply ordered_call.
Qed.

Lemma ordered_afterStatus k s : ordered s → (∀ r, owner (InStatus k) = Some r → absent r s) →
  ordered (afterStatus k s).
Proof.
  intros Hi Habs. destruct k as [r|r|r|]; simpl in *.
  - apply ordered_startCycle; [by apply (ordered_frame s)|]. by destruct (Habs r eq_refl).
  - by apply (ordered_frame s).
  - apply (ordered_frame (scheduleRetry s)); [|done..]. unfold scheduleRetry.
    by apply ordered_emit; [apply (ordered_frame s)|..].
  - done.
Qed.

Lemma ordered_setStatus st k s : ordered s → (∀ r, owner (InStatus k) = Some r → absent r s) →
  ordered (setStatus st k s).
Proof.
  intros Hi Habs. unfold setStatus. case_decide; [by apply ordered_afterStatus|].
  apply ordered_push; [|done..]. by apply ordered_emit; [apply (ordered_frame s)|..].
Qed.

Lemma ordered_catchRun r s : ordered s → absent r s → ordered (catchRun r s).
Proof.
  intros Hi Habs. unfold catchRun. destruct (_ && _).
  - apply ordered_setStatus; [done|]. by intros ? [= <-].
  - by apply (ordered_frame s).
Qed.

Lemma ordered_afterCycle r s : ordered s → absent r s → ordered (afterCycle r s).
Proof.
  intros Hi Habs. unfold afterCycle. destruct (_ && _); [by apply ordered_startCycle|].
  destruct (_ && _); [|by apply (ordered_frame s)].
  apply ordered_setStatus; [by apply (ordered_frame s)|]. by intros ? [= <-].
Qed.

Lemma ordered_afterSeam r p n s : ordered s → seam_ok (log s) r p → absent r s →
  ordered (afterSeam r p n s).
Proof.
  intros Hi Hok Habs. destruct p; simpl in *.
  1:{ set (s1 := emit (EvProvisioned generation) s).
    assert (ordered s1) as Hi1 by by apply ordered_emit.
    set (s2 := if decide (generation = provisioningGeneration s) then set_provisioned true s1 else s1).
    assert (ordered s2 ∧ log s2 = log s1 ∧ absent r s2) as (Hi2&Hl2&Habs2).
    { unfold s2. case_decide as Hg; [|done]. split; [|done].
      destruct Hi1 as [Hm Hh Hs Hst Ho How Hf]. split; simpl; try done.
      intros _. rewrite <-Hg. by left. }
    apply ordered_afterProvisioning; [done| |done]. rewrite Hl2.
    exists generation, generation. split_and!; [done|lia|by left]. }
  1-5,7: repeat case_match; (by apply ordered_suspend) || (by apply ordered_call).
  2:{ case_match; [|by apply ordered_suspend]. apply ordered_push; [done..|]. by intros ? [= <-]. }
  destruct (isAborted r s); [by apply ordered_suspend|].
  apply ordered_call; [|by case_decide..]. case_decide; [by apply (ordered_frame s)|done].
Qed.

Lemma ordered_resume r p o s : ordered s → stack s = [] → suspended s !! r = Some p →
  ordered (resume r p o s).
Proof.
  intros Hi Hst Hr. unfold resume. set (s1 := set_suspended (delete r (suspended s)) s).
  assert (ordered s1 ∧ absent r s1) as [Hi1 Habs].
  { split.
    - destruct Hi as [Hm Hh Hs Hst' Ho How Hf]. split; simpl; try done.
      + intros r' p' [? ?]%lookup_delete_Some. auto.
      + intros r'. unfold owners. simpl. rewrite Hst. set_solver.
      + intros r' p' [? ?]%lookup_delete_Some. eauto.
    - split_and!; [|by simpl; rewrite lookup_delete_eq|by eapply (or_fresh _ Hi)].
      unfold owners. simpl. rewrite Hst. set_solver. }
  pose proof (or_suspended _ Hi _ _ Hr) as Hok.
  destruct p as [p| |]; [destruct o|..].
  - by apply ordered_afterSeam.
  - by apply ordered_suspend.
  - by apply ordered_afterCycle.
  - by apply ordered_catchRun.
Qed.

Lemma ordered_pop a rest s : ordered s → stack s = App a :: rest →
  ordered (set_stack rest s) ∧ app_ok (log s) a ∧
  (∀ r, owner a = Some r → absent r (set_stack rest s)).
Proof.
  intros [Hm Hh Hs Hst Ho How Hf] Hstack.
  assert (owners s = match owner a with Some r => [r] | None => [] end ++
    owners (set_stack rest s)) as Hown
    by (unfold owners; rewrite Hstack; simpl; by destruct (owner a)).
  rewrite Hown in Ho, How. split_and!.
  - split; simpl; try done.
    + intros a' ?. apply Hst. rewrite Hstack. by right.
    + by apply NoDup_app in Ho as (_&_&?).
    + intros r Hr. apply How. set_solver.
  - apply Hst. rewrite Hstack. by left.
  - intros r Hr. rewrite Hr in *. destruct (How r) as [? ?]; [set_solver|].
    apply NoDup_app in Ho as (_&Hn&_). split_and!; [|done..]. apply Hn. set_solver.
Qed.

Lemma ordered_sync s : ordered s → ordered (sync s).
Proof.
  intros Hi. unfold sync. destruct (stopped s); [done|].
  assert (ordered (emit EvRequest s)) as Hi1 by by apply ordered_emit.
  destruct (_ && _); [by apply (ordered_frame (emit EvRequest s))|].
  unfold run. apply ordered_setStatus.
  - destruct Hi1 as [Hm Hh Hs Hst Ho How Hf]. split; simpl in *; try done.
    + intros a [?|?]%elem_of_cons; [done|auto].
    + intros r Hr. destruct (How r Hr). split; [done|lia].
    + intros r p Hp. apply Hf in Hp. lia.
  - intros r [= <-]. destruct Hi as [Hm Hh Hs Hst Ho How Hf]. split_and!; simpl; [..|lia].
    + unfold owners. simpl. intros Hr. apply How in Hr as [_ ?]. lia.
    + destruct (suspended s !! nextRun s) as [p|] eqn:Hp; [|done]. apply Hf in Hp. lia.
Qed.

Lemma ordered_stop s : ordered s → ordered (stop s).
Proof.
  intros Hi. unfold stop. apply ordered_setStatus; [|done].
  apply (ordered_frame (emit EvStop s)); [by apply ordered_emit|..].
  all: simpl; by destruct (abortController s).
Qed.

Lemma ordered_step s l s' : ordered s → step s l = Some s' → ordered s'.
Proof.
  intros Hi Hs. destruct l; simpl in *.
  - destruct (appInControl s); simplify_eq. by apply ordered_sync.
  - destruct (appInControl s); simplify_eq. by apply ordered_stop.
  - destruct (appInControl s); simplify_eq. unfold invalidateProvisioning.
    apply ordered_emit; [|done..]. destruct Hi. by split.
  - destruct (stack s) as [|[a|] rest] eqn:Hst; simplify_eq.
    destruct (ordered_pop _ _ _ Hi Hst) as (Hp&Hok&Habs).
    destruct a; simpl in *; [by apply ordered_afterStatus|by apply ordered_suspend; auto..].
  - destruct (stack s) as [|[a|] rest] eqn:Hst; simplify_eq.
    destruct (ordered_pop _ _ _ Hi Hst) as (Hp&Hok&Habs).
    destruct a as [[r|r|r|]|r p|r]; simpl in *; [..|by apply ordered_suspend; auto|by apply ordered_suspend; auto].
    + by apply ordered_return, ordered_emit.
    + apply ordered_catchRun; auto.
    + apply (ordered_frame (emit (EvRejected r) (set_stack rest s))); [|done..]. by apply ordered_emit.
    + done.
  - destruct (stack s), (cancelRetry s); simplify_eq. apply ordered_sync. by apply (ordered_frame s).
  - destruct (stack s) eqn:Hst, (suspended s !! r) as [p|] eqn:Hr; simplify_eq.
    by apply ordered_resume.
Qed.

Lemma initial_ordered : ordered initial.
Proof.
  split; simpl; try done.
  - intros l1 r p l2 Hl. by destruct l1.
  - intros a Ha. set_solver.
  - constructor.
  - intros r Hr. set_solver.
Qed.

Lemma reachable_ordered s : reachable s → ordered s.
Proof. induction 1; [apply initial_ordered|by eapply ordered_step]. Qed.

(** ** Backoff *)

(** Every delay is one the backoff computed. *)
Definition computed (d : Q) : Prop := ∃ n i, d = retryDelay n (random i).
Definition delays_ok (s : engine) : Prop :=
  ∀ d, EvSchedule d ∈ log s ∨ cancelRetry s = Some d → computed d.

Lemma delays_emit e s : delays_ok s → (∀ d, e ≠ EvSchedule d) → delays_ok (emit e s).
Proof. intros Hs He d [[<-|?]%elem_of_cons|?]; [by destruct (He d)|..]; apply Hs; auto. Qed.

Lemma delays_frame s s' : delays_ok s → log s' = log s →
  cancelRetry s' = cancelRetry s ∨ cancelRetry s' = None → delays_ok s'.
Proof. intros Hs Hl Hc d. rewrite Hl. intros [?|Hd]; apply Hs; [by left|right; destruct Hc; congruence]. Qed.

Lemma delays_scheduleRetry s : delays_ok s → delays_ok (scheduleRetry s).
Proof.
  intros Hs d Hd.
  assert (d = retryDelay (failureCount s) (random (length (log s))) ∨ EvSchedule d ∈ log s)
    as [->|?]; [|by eexists _, _|apply Hs; by left].
  destruct Hd as [[Hd|?]%elem_of_cons|Hd]; [left|by right|left]; simpl in Hd; congruence.
Qed.

(** Closes [delays_ok] goals by the shape of the state. *)
Ltac delays :=
  repeat match goal with
  | |- delays_ok (if ?b then _ else _) => destruct b
  | |- delays_ok (match ?x with _ => _ end) => destruct x
  | |- delays_ok (emit _ _) => apply delays_emit; [|done]
  | |- delays_ok (finish ?s) => eapply (delays_frame s); [|reflexivity|by left]
  | |- delays_ok (clearRetry ?s) => eapply (delays_frame s); [|reflexivity|by right]
  | |- delays_ok (set_cancelRetry None ?s) => eapply (delays_frame s); [|reflexivity|by right]
  | |- delays_ok (scheduleRetry _) => apply delays_scheduleRetry
  | |- delays_ok (_ _ ?s) => eapply (delays_frame s); [|reflexivity|by left]
  | H : delays_ok ?s |- delays_ok ?s => exact H
  end.

Lemma delays_suspend r p s : delays_ok s → delays_ok (suspend r p s).
Proof. intros Hs. unfold suspend, returnToCaller. simpl. delays. Qed.

Lemma delays_startCycle r s : delays_ok s → delays_ok (startCycle r s).
Proof.
  intros Hs. unfold startCycle, afterProvisioning, callSeam. cbv zeta.
  repeat first [apply delays_suspend|progress delays].
Qed.

Lemma delays_setStatus st k s : delays_ok s → delays_ok (setStatus st k s).
Proof.
  intros Hs. unfold setStatus, afterStatus. destruct (decide _); [destruct k|]; 
    repeat first [apply delays_startCycle|progress delays].
Qed.

Lemma delays_step s l s' : delays_ok s → step s l = Some s' → delays_ok s'.
Proof.
  intros Hs Hl.
  assert (∀ r p n s, delays_ok s → delays_ok (afterSeam r p n s)) as Hseam.
  { clear. intros r p n s Hs. destruct p; simpl; unfold afterProvisioning, callSeam;
      repeat first [apply delays_suspend|progress delays]. }
  assert (∀ s, delays_ok s → delays_ok (sync s)) as Hsync.
  { clear. intros s Hs. unfold sync, run. cbv zeta.
    repeat first [apply delays_setStatus|progress delays]. }
  assert (∀ r s, delays_ok s → delays_ok (catchRun r s)) as Hcatch.
  { clear. intros r s Hs. unfold catchRun. repeat first [apply delays_setStatus|progress delays]. }
  assert (∀ k s, delays_ok s → delays_ok (afterStatus k s)) as Hstatus.
  { clear. intros k s Hs. destruct k; simpl;
      repeat first [apply delays_startCycle|progress delays]. }
  destruct l; simpl in Hl.
  1-3: destruct (appInControl s); simplify_eq.
  - by apply Hsync.
  - unfold stop. cbv zeta. repeat first [apply delays_setStatus|progress delays].
  - unfold invalidateProvisioning. delays.
  - destruct (stack s) as [|[a|] rest]; simplify_eq.
    destruct a; simpl; [apply Hstatus; delays|apply delays_suspend; delays..].
  - destruct (stack s) as [|[a|] rest]; simplify_eq.
    destruct a as [[]| |]; simpl; unfold returnToCaller;
      repeat first [apply delays_suspend|apply Hcatch|progress delays].
  - destruct (stack s), (cancelRetry s); simplify_eq. apply Hsync. unfold timer. delays.
  - destruct (stack s), (suspended s !! r) as [p|]; simplify_eq. unfold resume. cbv zeta.
    destruct p as [p| |]; [destruct o|..]; [apply Hseam; delays|apply delays_suspend; delays|..].
    + unfold afterCycle.
      repeat first [apply delays_startCycle|apply delays_setStatus|progress delays].
    + apply Hcatch. delays.
Qed.

Lemma reachable_delays s : reachable s → delays_ok s.
Proof.
  induction 1; [|by eapply delays_step]. intros d [?%elem_of_nil|?]; done.
Qed.

Lemma retryDelay_bounds n draw : (0 <= baseDelayMs)%Q → (0 <= maxDelayMs)%Q →
  (0 <= draw)%Q → (draw <= 1)%Q →
  let capped := Qmin (baseDelayMs * inject_Z (2 ^ Z.of_nat n)) maxDelayMs in
  (capped * (1 # 2) <= retryDelay n draw)%Q ∧ (retryDelay n draw <= capped)%Q ∧
  (capped <= maxDelayMs)%Q.
Proof.
  intros Hb Hm H0 H1 capped. unfold retryDelay. fold capped.
  assert (0 <= capped)%Q as Hc.
  { apply Q.min_glb; [|done]. apply Qmult_le_0_compat; [done|].
    change 0%Q with (inject_Z 0). rewrite <-Zle_Qle. apply Z.pow_nonneg. lia. }
  split_and!; [nra|nra|apply Q.le_min_r].
Qed.
End EngineProofs.

(** C35: Single flight. Under callbacks that neither call the engine back nor
    throw, at most one run is ever live, and [running] says exactly whether
    there is one, however calls, timers and seams interleave. *)
Theorem single_flight `{!SyncEngineDeps} s : polite_reachable s →
  (∀ r r', live s r → live s r' → r = r') ∧ (running s = true ↔ ∃ r, live s r).
Proof.
  intros Hs. destruct (polite_live s (polite_reachable_inv s Hs)) as [[Hr Hl]|(Hr&r&Hl&_)].
  - rewrite Hr. split; [intros r r' Hlr; by apply Hl in Hlr|]. split; [done|].
    intros [r Hlr]. by apply Hl in Hlr.
  - rewrite Hr. split; [intros r1 r2 ->%Hl ->%Hl; done|]. split; [|done]. exists r. by apply Hl.
Qed.


(** Stopping is final. Once a stop has landed, whatever the app calls, and
    however its seams and callbacks end, the status stays [idle], no timer is
    armed, no cycle starts, and the engine calls no seam again save the first
    pull and the sweep of a run that was waiting on [isMigrated]; in
    particular nothing is pushed, pulled past that, or stamped. *)
Theorem stop_is_final `{!SyncEngineDeps} s ls s' : polite_reachable s → stopped s = true →
  steps s ls = Some s' →
  stopped s' = true ∧ status s' = Idle ∧ cancelRetry s' = None ∧
  ∃ evs, log s' = evs ++ log s ∧
    Forall (λ e, match e with
                 | EvStop | EvInvalidate | EvProvisioned _ => True
                 | EvCall _ (FirstPull | RunLazyMigration _ _) => True
                 | _ => False
                 end) evs.
Proof.
  intros Hs Hsp Hl. pose proof (polite_halted s (polite_reachable_inv s Hs) Hsp) as Hh.
  destruct (halted_steps _ _ _ Hh Hl) as [[H1 H2 H3 _ _] (evs&He&Hlog)].
  split_and!; [done..|]. exists evs. split; [done|]. exact He.
Qed.

(** The descriptor precedes the content. Under any app code at all --
    callbacks that call back, throw, invalidate or stop -- every call of the
    re-mint, the sweep, a pull, a push or a stamp is preceded by a
    provisioning call that resolved, and that began no earlier, counted in
    invalidations, than the calling run's current cycle; and the memo is set
    only while a call begun since the last invalidation has resolved. *)
Theorem provisioned_before_content `{!SyncEngineDeps} s : reachable s →
  (∀ later r p earlier, log s = later ++ EvCall r p :: earlier →
     (∀ g, p ≠ EnsureProvisioned g) →
     ∃ g g', cycle_generation r earlier = Some g ∧ g ≤ g' ∧ EvProvisioned g' ∈ earlier) ∧
  (provisioned s = true → EvProvisioned (provisioningGeneration s) ∈ log s).
Proof.
  intros Hs. pose proof (reachable_ordered s Hs) as Ho. split; [|apply (or_memo _ Ho)].
  intros later r p earlier Hlog Hp. pose proof (or_history _ Ho _ _ _ _ Hlog) as Hok.
  destruct p; try exact Hok. by destruct (Hp generation).
Qed.

(** The backoff stays inside its cap. Under any app code, an armed retry
    waits between half and all of an exponential step capped at [maxDelayMs],
    for draws of the jitter in [0, 1]. Delays are rationals: the code's doubles
    round the same formula. *)
Theorem retry_within_cap `{!SyncEngineDeps} s d : reachable s →
  (0 <= baseDelayMs)%Q → (0 <= maxDelayMs)%Q → (∀ i, (0 <= random i)%Q ∧ (random i <= 1)%Q) →
  cancelRetry s = Some d →
  ∃ n, let capped := Qmin (baseDelayMs * inject_Z (2 ^ Z.of_nat n)) maxDelayMs in
    (capped * (1 # 2) <= d)%Q ∧ (d <= capped)%Q ∧ (d <= maxDelayMs)%Q.
Proof.
  intros Hs Hb Hm Hr Hc.
  destruct (reachable_delays s Hs d) as (n&i&->); [by right|]. exists n. intros capped.
  destruct (retryDelay_bounds n (random i)) as (H1&H2&H3); [done|done|apply Hr..|].
  split_and!; [done..|]. by eapply Qle_trans.
Qed.

(** ** A concrete engine *)

#[local] Instance demoDeps : SyncEngineDeps := {
  remintPending := true; baseDelayMs := 1000 # 1; maxDelayMs := 60000 # 1; random _ := 0%Q
}.

(** App code returns at once; a seam's answer follows its call. *)
Definition quickRun (r : nat) (outcomes : list outcome) : list label :=
  outcomes ≫= λ o, [Resume r o; Return].

(** A first cycle whose seams all answer, one document pulled. *)
Definition firstCycle (r : nat) : list outcome :=
  [Resolved 0; Resolved 0; Resolved 0; Resolved 1; Resolved 0; Resolved 0; Resolved 0; Resolved 0;
   Resolved 0; Resolved 0].

Definition demoRun : list label := [CallSync; Return; Return] ++ quickRun 0 (firstCycle 0).

(** Follows labels from the initial state. *)
Fixpoint polite_labels (s : engine) (ls : list label) : Prop :=
  match ls with
  | [] => True
  | l :: ls => polite s l ∧ match step s l with Some s => polite_labels s ls | None => True end
  end.

Lemma steps_polite ls s s' : polite_reachable s → polite_labels s ls → steps s ls = Some s' →
  polite_reachable s'.
Proof.
  revert s. induction ls as [|l ls IH]; intros s Hs Hp Hl; simpl in *; [by simplify_eq|].
  destruct Hp as [Hp Hps]. destruct (step s l) as [s1|] eqn:H1; simpl in Hl; [|done].
  apply (IH s1); [|done..]. by eapply polite_step.
Qed.

Lemma steps_reachable ls s s' : reachable s → steps s ls = Some s' → reachable s'.
Proof.
  revert s. induction ls as [|l ls IH]; intros s Hs Hl; simpl in *; [by simplify_eq|].
  destruct (step s l) as [s1|] eqn:H1; simpl in Hl; [|done]. apply (IH s1); [|done].
  by eapply reachable_step.
Qed.

Lemma demo_status : (status <$> steps initial demoRun) = Some Synced.
Proof. vm_compute. reflexivity. Qed.

(** The state the labels lead to. *)
Definition after (ls : list label) : engine := default initial (steps initial ls).

Lemma after_steps ls : is_Some (steps initial ls) → steps initial ls = Some (after ls).
Proof. unfold after. by intros [s ->]. Qed.

(** A push that fails, and the label history up to a later external call. *)
Definition failedRun : list label :=
  [CallSync; Return; Return] ++ quickRun 0 [Resolved 0; Resolved 0; Resolved 1; Resolved 0] ++
  [Resume 0 Rejected; Resume 0 Rejected; Return].

(** A run with a request and a stop landing while [isMigrated] is awaited. *)
Definition stoppedRun : list label :=
  [CallSync; Return; Return] ++ quickRun 0 [Resolved 0; Resolved 0] ++ [CallSync; CallStop; Return].

Lemma after_polite ls : is_Some (steps initial ls) → polite_labels initial ls →
  polite_reachable (after ls).
Proof. intros Hs Hp. eapply steps_polite; [apply polite_initial|done|by apply after_steps]. Qed.

Lemma after_reachable ls : is_Some (steps initial ls) → reachable (after ls).
Proof. intros Hs. eapply steps_reachable; [constructor|by apply after_steps]. Qed.

Lemma stoppedRun_polite : polite_reachable (after stoppedRun).
Proof. apply after_polite; vm_compute; [by eexists|repeat split]. Qed.

Lemma failedRun_polite : polite_reachable (after failedRun).
Proof. apply after_polite; vm_compute; [by eexists|repeat split]. Qed.

Lemma demoRun_reachable : reachable (after demoRun).
Proof. apply after_reachable. vm_compute. by eexists. Qed.

Lemma failedRun_reachable : reachable (after failedRun).
Proof. apply after_reachable. vm_compute. by eexists. Qed.

Lemma single_flight_witness :
  running (after stoppedRun) = true ∧ (∃ r, live (after stoppedRun) r) ∧
  ∀ r r', live (after stoppedRun) r → live (after stoppedRun) r' → r = r'.
Proof.
  destruct (single_flight (after stoppedRun) stoppedRun_polite) as [H1 H2].
  split; [vm_compute; reflexivity|]. split; [|exact H1]. apply H2. vm_compute. reflexivity.
Defined.


(** What follows the stop: a refused request, and the run unwinding. *)
Definition unwind : list label :=
  [CallSync; Resume 0 (Resolved 0); Return; Resume 0 (Resolved 3); Resume 0 (Resolved 0)].
Definition unwound : engine := default initial (steps (after stoppedRun) unwind).

Lemma stop_is_final_witness :
  stopped unwound = true ∧ status unwound = Idle ∧ cancelRetry unwound = None ∧
  running unwound = false.
Proof.
  destruct (stop_is_final (after stoppedRun) unwind unwound stoppedRun_polite) as (H1&H2&H3&_).
  - vm_compute. reflexivity.
  - vm_compute. reflexivity.
  - split; [exact H1|]. split; [exact H2|]. split; [exact H3|]. vm_compute. reflexivity.
Defined.

Lemma provisioned_before_content_witness :
  provisioned (after demoRun) = true ∧
  EvProvisioned (provisioningGeneration (after demoRun)) ∈ log (after demoRun).
Proof.
  destruct (provisioned_before_content (after demoRun) demoRun_reachable) as [_ H2].
  assert (provisioned (after demoRun) = true) as Hp by (vm_compute; reflexivity).
  split; [exact Hp|by apply H2].
Defined.

Lemma retry_within_cap_witness : ∃ d, cancelRetry (after failedRun) = Some d ∧
  (d <= maxDelayMs)%Q.
Proof.
  destruct (cancelRetry (after failedRun)) as [d|] eqn:Hd; [|vm_compute in Hd; discriminate].
  exists d. split; [reflexivity|].
  destruct (retry_within_cap (after failedRun) d failedRun_reachable) as (n&_&_&H3).
  - vm_compute. discriminate.
  - vm_compute. discriminate.
  - intros i. split; vm_compute; discriminate.
  - exact Hd.
  - exact H3.
Defined.

(** ** What app code that calls back can do

    The doc of [sync] says that it is single-flight, that writes landing
    mid-cycle are not lost and that it never rejects, and the doc of [stop]
    that it aborts any in-flight cycle and resets to idle. Each fails for a
    status callback that calls back synchronously, or that throws. *)

(** [sync] from the [syncing] callback starts a second concurrent run:
    [running] is set but [currentRun] is not assigned yet. *)
Example reentrant_sync_runs_twice :
  let s := after [CallSync; CallSync; Return; Return] in live s 0 ∧ live s 1.
Proof.
  set (s := after _).
  assert (stack s = [App (InSeam 0 (EnsureProvisioned 0)); Assign 0]) as Hst by (vm_compute; reflexivity).
  assert (suspended s !! 1 = Some (AtSeam (EnsureProvisioned 0))) as Hsu by (vm_compute; reflexivity).
  split; [right|left; rewrite Hsu; eauto].
  exists (InSeam 0 (EnsureProvisioned 0)). rewrite Hst. split; [left|reflexivity].
Qed.

(** [sync] from the [synced] callback is lost: it flags a rerun of a loop that
    has ended. *)
Example sync_from_synced_is_lost :
  let s := after (removelast demoRun ++ [CallSync; Return]) in
  (running s, stack s, owed (log s), cancelRetry s, status s) = (false, [], true, None, Synced).
Proof. vm_compute. reflexivity. Qed.

(** [stop] from the [syncing] callback aborts nothing: the run's controller is
    created after the callback returns, and the whole cycle runs. *)
Example stop_from_syncing_pushes :
  let s := after ([CallSync; CallStop; Return; Return; Return] ++
    quickRun 0 [Resolved 0; Resolved 0; Resolved 1; Resolved 0]) in
  (stopped s, take 2 (log s), take 2 (reverse (log s))) =
    (true, [EvCall 0 (Push 0); EvCall 0 (RunLazyMigration false 0)],
     [EvRequest; EvStatus Syncing]) ∧ nth_error (reverse (log s)) 2 = Some EvStop.
Proof. vm_compute. split; reflexivity. Qed.

(** [stop] from the [error] callback leaves a retry timer armed. *)
Example stop_from_error_arms_retry :
  let s := after (removelast failedRun ++ [CallStop; Return; Return]) in
  (stopped s, stack s, bool_decide (is_Some (cancelRetry s))) = (true, [], true).
Proof. vm_compute. reflexivity. Qed.

(** A [syncing] callback that throws rejects the call and leaves [running]
    set with no run live: every later request only flags a rerun. *)
Example throwing_callback_wedges :
  let s := after [CallSync; ThrowUp; CallSync] in
  (running s, stack s, owed (log s), cancelRetry s, log s) =
    (true, [], true, None, [EvRequest; EvRejected 0; EvStatus Syncing; EvRequest]) ∧
  map_to_list (suspended s) = [].
Proof. vm_compute. split; reflexivity. Qed.
