(* ===== verification/ContactsConflict.v ===== *)
(** * The contacts conflict rule

    [src/src/sync/contactsConflict.ts]: which side of a write-write conflict
    over a mutable contact head wins. The envelope predicate, the payload
    guard, the comparison and the cipher are the libraries' the module
    imports, and parameters here. *)

From S2P Require Import Prelude Json SyncPull.

Inductive ContactConflictWinner := Remote | Local.
Inductive ConflictSide := RemoteSide | LocalSide.

#[export] Instance ContactConflictWinner_eq_dec : EqDecision ContactConflictWinner.
Proof. solve_decision. Defined.

(** [Promise.allSettled] over a side: the outcome, never a rejection. *)
Definition settled {W A} (c : comp W A) : comp W (result A) :=
  λ w, let '(r, w') := c w in (Ok r, w').

(** [isEncryptedEnvelope], [isContactHeadPayload] and [remotePayloadWins]. *)
Class HeadRules := {
  isEncryptedEnvelope : json → bool;
  isContactHeadPayload : json → bool;
  remotePayloadWins : json → json → bool
}.

Section Resolver.
Context {W : Type} `{!SyncSignals} `{!HeadRules}.

Definition asHead (body : json) : option json :=
  if isContactHeadPayload body then Some body else None.

Definition contactHeadPayloadOf (id : string) (data : option json)
    (cipher : option (string → json → comp W json)) : comp W (option json) :=
  match present data with
  | None => mret None
  | Some data =>
      if negb (isEncryptedEnvelope data) then
        mret (match cipher with Some _ => None | None => asHead data end)
      else match cipher with
      | None => mret None
      | Some decrypt =>
          body ← try_catch (body ← decrypt id data; mret (Some body))
            (λ err, if isIntegrityError err then mthrow err else mret None);
          mret (body ≫= asHead)
      end
  end.

Definition reportRefusal (onIntegrityRefusal : option (ConflictSide → js_error → comp W ()))
    (side : ConflictSide) (r : result (option json)) : comp W () :=
  match r with
  | Throw err =>
      if isIntegrityError err then
        match onIntegrityRefusal with Some report => report side err | None => mret () end
      else mret ()
  | Ok _ => mret ()
  end.

Definition resolveContactHeadConflict (id : string) (remote local : option json)
    (cipher : option (string → json → comp W json)) (remoteDeleted localDeleted : bool)
    (onIntegrityRefusal : option (ConflictSide → js_error → comp W ())) :
    comp W ContactConflictWinner :=
  if remoteDeleted || localDeleted then mret Remote
  else
    remoteResult ← settled (contactHeadPayloadOf id remote cipher);
    localResult ← settled (contactHeadPayloadOf id local cipher);
    reportRefusal onIntegrityRefusal RemoteSide remoteResult;;
    reportRefusal onIntegrityRefusal LocalSide localResult;;
    remoteHead ← lift remoteResult;
    localHead ← lift localResult;
    mret (match remoteHead, localHead with
          | Some remoteHead, Some localHead =>
              if remotePayloadWins remoteHead localHead then Remote else Local
          | None, Some _ => Local
          | _, _ => Remote
          end).
End Resolver.

(** ** What a side is worth

    Over a cipher whose opening of an envelope depends on the envelope alone. *)
Section Worth.
Context `{!SyncSignals} `{!HeadRules} (openEnvelope : string → json → result json).

(** The three ways a side can stand: refused, unreachable, or a head. *)
Inductive side_worth := Refused (e : js_error) | Unreachable | Head (payload : json).

Definition worth (encrypted : bool) (id : string) (data : option json) : side_worth :=
  match present data with
  | None => Unreachable
  | Some data =>
      if isEncryptedEnvelope data then
        if encrypted then
          match openEnvelope id data with
          | Ok body => if isContactHeadPayload body then Head body else Unreachable
          | Throw e => if isIntegrityError e then Refused e else Unreachable
          end
        else Unreachable
      else if encrypted then Unreachable
      else if isContactHeadPayload data then Head data else Unreachable
  end.

(** The decision, by what the two sides are worth. *)
Definition decision (remote local : side_worth) : result ContactConflictWinner :=
  match remote, local with
  | Refused e, _ | _, Refused e => Throw e
  | Head r, Head l => Ok (if remotePayloadWins r l then Remote else Local)
  | Unreachable, Head _ => Ok Local
  | _, Unreachable => Ok Remote
  end.

(** The sides a decision reports, in order. *)
Definition refusals (remote local : side_worth) : list (ConflictSide * js_error) :=
  match remote with Refused e => [(RemoteSide, e)] | _ => [] end ++
  match local with Refused e => [(LocalSide, e)] | _ => [] end.

(** The world is the list of reports so far. *)
Abbreviation Reports := (list (ConflictSide * js_error)).

Definition cipherOf (encrypted : bool) : option (string → json → comp Reports json) :=
  if encrypted then Some (λ id envelope, lift (openEnvelope id envelope)) else None.

Definition recordRefusal (side : ConflictSide) (e : js_error) : comp Reports () :=
  modify (λ w, w ++ [(side, e)]).

Lemma contactHeadPayloadOf_worth encrypted id data w :
  contactHeadPayloadOf id data (cipherOf encrypted) w =
    (match worth encrypted id data with
     | Refused e => Throw e
     | Unreachable => Ok None
     | Head p => Ok (Some p)
     end, w).
Proof.
  unfold contactHeadPayloadOf, worth, cipherOf, asHead. destruct (present data) as [d|]; [|done].
  destruct encrypted, (isEncryptedEnvelope d) eqn:He; simpl; try done.
  - unfold try_catch, mbind, comp_bind, lift. destruct (openEnvelope id d) as [b|e]; simpl.
    + by destruct (isContactHeadPayload b).
    + by destruct (isIntegrityError e).
  - by destruct (isContactHeadPayload d).
Qed.

Lemma worth_refused encrypted id data e :
  worth encrypted id data = Refused e → isIntegrityError e = true.
Proof. unfold worth. repeat case_match; try done. by intros [= <-]. Qed.

Lemma resolve_worth encrypted id remote local w :
  resolveContactHeadConflict id remote local (cipherOf encrypted) false false (Some recordRefusal) w
  = (decision (worth encrypted id remote) (worth encrypted id local),
     w ++ refusals (worth encrypted id remote) (worth encrypted id local)).
Proof.
  unfold resolveContactHeadConflict. simpl.
  erewrite comp_bind_ok; [|unfold settled; by rewrite contactHeadPayloadOf_worth].
  erewrite comp_bind_ok; [|unfold settled; by rewrite contactHeadPayloadOf_worth].
  pose proof (worth_refused encrypted id remote) as Hr.
  pose proof (worth_refused encrypted id local) as Hl. unfold refusals, decision.
  destruct (worth encrypted id remote) as [er| |pr]; [pose proof (Hr _ eq_refl) as Her|..].
  all: destruct (worth encrypted id local) as [el| |pl]; [pose proof (Hl _ eq_refl) as Hel|..].
  all: unfold reportRefusal, recordRefusal, mbind, comp_bind, modify, lift; simpl;
    rewrite ?Her, ?Hel; simpl; rewrite ?app_nil_r, <-?app_assoc; done.
Qed.
End Worth.

(** The conflict rule decides by what each side is worth alone. With no
    tombstone, a head beats an unreachable side, two heads are compared, two
    unreachable sides leave the remote, and an integrity refusal of either
    side leaves the resolver, the remote's first, with no winner; every refused
    side has been reported once, the remote's first. With a tombstone on
    either side the remote wins and nothing is opened. *)
Theorem contact_conflict_decided `{!SyncSignals} `{!HeadRules} openEnvelope encrypted id
    remote local remoteDeleted localDeleted reports :
  resolveContactHeadConflict id remote local (cipherOf openEnvelope encrypted)
    remoteDeleted localDeleted (Some recordRefusal) reports =
  if remoteDeleted || localDeleted then (Ok Remote, reports)
  else
    (decision (worth openEnvelope encrypted id remote) (worth openEnvelope encrypted id local),
     reports ++ refusals (worth openEnvelope encrypted id remote)
                  (worth openEnvelope encrypted id local)).
Proof.
  destruct (remoteDeleted || localDeleted) eqn:Hd.
  - unfold resolveContactHeadConflict. by rewrite Hd.
  - apply orb_false_elim in Hd as [-> ->]. apply resolve_worth.
Qed.

(** The body a resolution keeps. *)
Definition kept (winner : ContactConflictWinner) (remote local : option json) : option json :=
  match winner with Remote => remote | Local => local end.

(** Two replicas converge. When each of two replicas meets the other's
    body as the remote side, and the comparison prefers one of the two bodies
    whichever side it stands on, both keep the same body -- as soon as one of
    them is a readable head. A plaintext body never wins under a cipher. *)
Theorem contact_conflict_symmetric `{!SyncSignals} `{!HeadRules} openEnvelope encrypted id
    (x y : option json) reports reports' winner winner' w w' :
  (∀ p q, worth openEnvelope encrypted id x = Head p → worth openEnvelope encrypted id y = Head q →
     remotePayloadWins q p = negb (remotePayloadWins p q)) →
  (∃ p, worth openEnvelope encrypted id x = Head p ∨ worth openEnvelope encrypted id y = Head p) →
  resolveContactHeadConflict id y x (cipherOf openEnvelope encrypted) false false
    (Some recordRefusal) reports = (Ok winner, w) →
  resolveContactHeadConflict id x y (cipherOf openEnvelope encrypted) false false
    (Some recordRefusal) reports' = (Ok winner', w') →
  kept winner y x = kept winner' x y ∧
  (encrypted = true → ∀ d, kept winner y x = Some d → isEncryptedEnvelope d = true).
Proof.
  intros Hanti [p Hp]. rewrite !resolve_worth. intros [= Hw _] [= Hw' _].
  assert (kept winner y x = kept winner' x y ∧ ∃ q,
    worth openEnvelope encrypted id (kept winner y x) = Head q) as [Hk [q Hq]].
  { destruct (worth openEnvelope encrypted id x) as [ex| |px] eqn:Hx;
      destruct (worth openEnvelope encrypted id y) as [ey| |py] eqn:Hy;
      simpl in *; simplify_eq; simpl; try (by eauto).
    - by destruct Hp.
    - pose proof (Hanti _ _ eq_refl eq_refl) as Hn.
      destruct (remotePayloadWins px py); rewrite Hn; simpl; eauto. }
  split; [done|]. intros -> d Hd. rewrite Hd in Hq. unfold worth in Hq.
  destruct (present (Some d)) as [d'|] eqn:Hpd; [|done].
  assert (d' = d) as -> by (destruct d; simplify_eq/=; done).
  by destruct (isEncryptedEnvelope d).
Qed.

(** ** A concrete rule: envelopes are one-element arrays, heads are stamps *)

#[local] Instance demoSignals : SyncSignals := {
  isSyncConflictError _ := false;
  isSyncNotFoundError _ := false;
  isIntegrityError e := bool_decide (err_name e = "IntegrityError");
  isUnknownEpochError _ := false
}.

#[local] Instance demoRules : HeadRules := {
  isEncryptedEnvelope d := match d with JArr [_] => true | _ => false end;
  isContactHeadPayload d := match d with JNum _ => true | _ => false end;
  remotePayloadWins r l :=
    match r, l with JNum r, JNum l => QArith_base.Qle_bool l r | _, _ => true end
}.

Definition demoOpen (_ : string) (envelope : json) : result json :=
  match envelope with JArr [body] => Ok body | _ => Throw (JsError "TypeError" "") end.

Lemma contact_conflict_symmetric_witness :
  let x := Some (JArr [JNum (QArith_base.Qmake 1 1)]) in let y := Some (JArr [JNum (QArith_base.Qmake 2 1)]) in
  kept Remote y x = kept Local x y.
Proof.
  intros x y.
  destruct (contact_conflict_symmetric demoOpen true "c" x y [] [] Remote Local [] []) as [H _].
  - intros p q [= <-] [= <-]. reflexivity.
  - exists (JNum (QArith_base.Qmake 1 1)). left. reflexivity.
  - vm_compute. reflexivity.
  - vm_compute. reflexivity.
  - exact H.
Defined.
