(* ===== verification/JsText.v ===== *)
(** * Text, times and URLs

    JavaScript strings as the UTF-8 text they denote, the display-name rule of
    [src/src/labelText.ts], and the host functions the directory reads times
    and URLs through. A lone surrogate, which no UTF-8 text denotes, is out of
    the model. *)

From S2P Require Import Prelude.
From Stdlib Require Import Ascii.
#[local] Open Scope N_scope.

(** ** Code points *)

Definition byte (a : ascii) : N := N_of_ascii a.

(** The code points of a text, by the lead byte of each. *)
Fixpoint code_points (s : string) : list N :=
  match s with
  | EmptyString => []
  | String a s1 =>
      let b := byte a in
      if b <? 128 then b :: code_points s1
      else if b <? 224 then
        match s1 with
        | String a1 s2 => ((b mod 32) * 64 + byte a1 mod 64) :: code_points s2
        | _ => []
        end
      else if b <? 240 then
        match s1 with
        | String a1 (String a2 s3) =>
            ((b mod 16) * 4096 + (byte a1 mod 64) * 64 + byte a2 mod 64) :: code_points s3
        | _ => []
        end
      else
        match s1 with
        | String a1 (String a2 (String a3 s4)) =>
            ((b mod 8) * 262144 + (byte a1 mod 64) * 4096 + (byte a2 mod 64) * 64 +
             byte a3 mod 64) :: code_points s4
        | _ => []
        end
  end.

Definition char (n : N) : ascii := ascii_of_N n.

Definition encode_point (c : N) (rest : string) : string :=
  if c <? 128 then String (char c) rest
  else if c <? 2048 then String (char (192 + c / 64)) (String (char (128 + c mod 64)) rest)
  else if c <? 65536 then
    String (char (224 + c / 4096))
      (String (char (128 + (c / 64) mod 64)) (String (char (128 + c mod 64)) rest))
  else
    String (char (240 + c / 262144))
      (String (char (128 + (c / 4096) mod 64))
        (String (char (128 + (c / 64) mod 64)) (String (char (128 + c mod 64)) rest))).

Definition of_code_points (cs : list N) : string := foldr encode_point EmptyString cs.

(** What the decoding of any text stays below. *)
Definition point_bound : N := 2097152.

Lemma byte_char n : n < 256 → byte (char n) = n.
Proof. apply N_ascii_embedding. Qed.

(** Linear arithmetic with quotients and remainders. *)
Ltac divmod := zify; Z.to_euclidean_division_equations; lia.

Lemma code_points_encode c rest : c < point_bound →
  code_points (encode_point c rest) = c :: code_points rest.
Proof.
  unfold point_bound. intros Hc. unfold encode_point.
  destruct (N.ltb_spec c 128); [|destruct (N.ltb_spec c 2048); [|destruct (N.ltb_spec c 65536)]].
  all: cbn [code_points]; rewrite !byte_char by divmod.
  - by destruct (N.ltb_spec c 128); [|lia].
  - destruct (N.ltb_spec (192 + c / 64) 128); [divmod|].
    destruct (N.ltb_spec (192 + c / 64) 224); [|divmod].
    f_equal. divmod.
  - destruct (N.ltb_spec (224 + c / 4096) 128); [divmod|].
    destruct (N.ltb_spec (224 + c / 4096) 224); [divmod|].
    destruct (N.ltb_spec (224 + c / 4096) 240); [|divmod].
    f_equal. divmod.
  - destruct (N.ltb_spec (240 + c / 262144) 128); [divmod|].
    destruct (N.ltb_spec (240 + c / 262144) 224); [divmod|].
    destruct (N.ltb_spec (240 + c / 262144) 240); [divmod|].
    f_equal. divmod.
Qed.

Lemma code_points_of cs : Forall (λ c, c < point_bound) cs → code_points (of_code_points cs) = cs.
Proof.
  induction 1 as [|c cs Hc Hcs IH]; [done|]. simpl. by rewrite code_points_encode, IH.
Qed.

Lemma code_points_bound s : Forall (λ c, c < point_bound) (code_points s).
Proof.
  assert (∀ n s, (String.length s ≤ n)%nat → Forall (λ c, c < point_bound) (code_points s)) as H;
    [|by eapply H].
  unfold point_bound. clear s. induction n as [|n IH]; intros s Hn.
  { by destruct s; simpl in *; [constructor|lia]. }
  destruct s as [|a s1]; [constructor|]. simpl in Hn. cbn [code_points].
  assert (byte a < 256) by apply N_ascii_bounded.
  repeat case_match; try (by constructor).
  all: constructor; [|apply IH; simpl in *; lia].
  all: repeat match goal with |- context [byte ?a mod ?m] =>
    lazymatch goal with H : byte a mod m < m |- _ => fail | _ =>
      pose proof (N.mod_lt (byte a) m ltac:(lia)) end end; 
    repeat match goal with H : (_ <? _) = true |- _ => apply N.ltb_lt in H end; lia.
Qed.

(** A string's [length]: its UTF-16 code units. *)
Definition utf16_units (c : N) : list N :=
  if c <? 65536 then [c]
  else [55296 + (c - 65536) / 1024; 56320 + (c - 65536) mod 1024].
Definition code_units (s : string) : list N := code_points s ≫= utf16_units.
Definition js_length (s : string) : nat := length (code_units s).

(** [left <= right] on strings: lexicographic over the code units. *)
Fixpoint units_le (l r : list N) : bool :=
  match l, r with
  | [], _ => true
  | _ :: _, [] => false
  | x :: l, y :: r => if x <? y then true else if y <? x then false else units_le l r
  end.
Definition js_le (l r : string) : Prop := units_le (code_units l) (code_units r) = true.
#[export] Instance js_le_dec l r : Decision (js_le l r).
Proof. unfold js_le. apply _. Defined.
Definition js_lt (l r : string) : bool := negb (units_le (code_units r) (code_units l)).

(** [Array.prototype.sort] with no comparison function. *)
Definition js_sort (xs : list string) : list string := merge_sort js_le xs.

Definition startsWith (s prefix : string) : bool := String.prefix prefix s.
Definition endsWith (s suffix : string) : bool :=
  let n := (String.length s - String.length suffix)%nat in
  bool_decide (String.substring n (String.length suffix) s = suffix) &&
  bool_decide (String.length suffix ≤ String.length s)%nat.

(** ** [src/src/labelText.ts] *)

Definition ONBOARDING_LABEL_MAX_LENGTH : nat := 64.

Definition between (lo hi c : N) : bool := (lo <=? c) && (c <=? hi).

Definition LABEL_STRIPPED_CHARACTERS (c : N) : bool :=
  between 0 31 c || between 127 159 c || (c =? 8206) || (c =? 8207) ||
  between 8234 8238 c || between 8294 8297 c.

(** White space and line terminators, as [String.prototype.trim] reads them. *)
Definition is_space (c : N) : bool :=
  between 9 13 c || (c =? 32) || (c =? 160) || (c =? 5760) || between 8192 8202 c ||
  (c =? 8232) || (c =? 8233) || (c =? 8239) || (c =? 8287) || (c =? 12288) || (c =? 65279).

Fixpoint drop_spaces (cs : list N) : list N :=
  match cs with
  | c :: cs' => if is_space c then drop_spaces cs' else cs
  | [] => []
  end.
Definition trim_points (cs : list N) : list N := reverse (drop_spaces (reverse (drop_spaces cs))).
Definition trim (s : string) : string := of_code_points (trim_points (code_points s)).

(** The code points of the stripped, trimmed text. *)
Definition stripped_points (value : string) : list N :=
  trim_points (filter (λ c, LABEL_STRIPPED_CHARACTERS c = false) (code_points value)).

Definition strippedDisplayText (value : string) : string :=
  of_code_points (stripped_points value).

Definition normalizeDisplayName (value : string) : option string :=
  let length := length (stripped_points value) in
  if bool_decide (length = 0%nat) || bool_decide (ONBOARDING_LABEL_MAX_LENGTH < length)%nat
  then None else Some (strippedDisplayText value).

(** *** Trimming is idempotent *)

Lemma drop_spaces_suffix cs : ∃ pre, cs = pre ++ drop_spaces cs.
Proof.
  induction cs as [|c cs [pre IH]]; simpl; [by exists []|].
  destruct (is_space c); [exists (c :: pre); simpl; congruence|by exists []].
Qed.

Lemma drop_spaces_head cs : match drop_spaces cs with c :: _ => is_space c = false | [] => True end.
Proof. induction cs as [|c cs IH]; simpl; [done|]. by destruct (is_space c) eqn:?. Qed.

Lemma drop_spaces_id cs :
  match cs with c :: _ => is_space c = false | [] => True end → drop_spaces cs = cs.
Proof. destruct cs as [|c cs]; simpl; [done|]. by intros ->. Qed.

Lemma trim_points_ends cs :
  match trim_points cs with c :: _ => is_space c = false | [] => True end ∧
  match reverse (trim_points cs) with c :: _ => is_space c = false | [] => True end.
Proof.
  unfold trim_points. rewrite reverse_involutive. split; [|apply drop_spaces_head].
  pose proof (drop_spaces_head cs) as Hh. set (l := drop_spaces cs) in *.
  destruct (drop_spaces_suffix (reverse l)) as [pre Hpre].
  apply (f_equal reverse) in Hpre. rewrite reverse_involutive, reverse_app in Hpre.
  destruct (reverse (drop_spaces (reverse l))) as [|c r]; [done|].
  rewrite Hpre in Hh. done.
Qed.

Lemma trim_points_idem cs : trim_points (trim_points cs) = trim_points cs.
Proof.
  destruct (trim_points_ends cs) as [H1 H2]. unfold trim_points at 1.
  by rewrite (drop_spaces_id (trim_points cs) H1), (drop_spaces_id _ H2), reverse_involutive.
Qed.

Lemma trim_points_incl cs c : c ∈ trim_points cs → c ∈ cs.
Proof.
  unfold trim_points. rewrite elem_of_reverse. intros Hc.
  destruct (drop_spaces_suffix (reverse (drop_spaces cs))) as [pre Hpre].
  assert (c ∈ reverse (drop_spaces cs)) as Hin by (rewrite Hpre; set_solver).
  rewrite elem_of_reverse in Hin. destruct (drop_spaces_suffix cs) as [pre' Hpre'].
  rewrite Hpre'. set_solver.
Qed.

Lemma stripped_points_clean value c : c ∈ stripped_points value →
  LABEL_STRIPPED_CHARACTERS c = false ∧ c < point_bound.
Proof.
  intros [Hc Hin]%trim_points_incl%list_elem_of_filter. split; [done|].
  pose proof (code_points_bound value) as Hb. rewrite Forall_forall in Hb. auto.
Qed.

Lemma stripped_points_idem value :
  stripped_points (strippedDisplayText value) = stripped_points value.
Proof.
  unfold stripped_points at 1, strippedDisplayText.
  rewrite code_points_of by (apply Forall_forall; intros c Hc; by eapply stripped_points_clean).
  rewrite filter_all by (intros c Hc; by eapply stripped_points_clean).
  apply trim_points_idem.
Qed.

Lemma normalizeDisplayName_idem value name :
  normalizeDisplayName value = Some name → normalizeDisplayName name = Some name.
Proof.
  unfold normalizeDisplayName. destruct (_ || _) eqn:Hl; [done|]. intros [= <-].
  rewrite stripped_points_idem, Hl. unfold strippedDisplayText at 1.
  by rewrite stripped_points_idem.
Qed.

Lemma normalizeDisplayName_spec value name : normalizeDisplayName value = Some name →
  (1 ≤ length (code_points name) ≤ 64)%nat ∧
  (∀ c, c ∈ code_points name → LABEL_STRIPPED_CHARACTERS c = false).
Proof.
  unfold normalizeDisplayName. destruct (_ || _) eqn:Hl; [done|]. intros [= <-].
  apply orb_false_elim in Hl as [H1%bool_decide_eq_false H2%bool_decide_eq_false].
  unfold strippedDisplayText.
  rewrite code_points_of by (apply Forall_forall; intros c Hc; by eapply stripped_points_clean).
  unfold ONBOARDING_LABEL_MAX_LENGTH in H2. split; [lia|].
  intros c Hc. by eapply stripped_points_clean.
Qed.

(** ** Host functions *)

(** [Date.parse] ([None] is [NaN]), [Date.prototype.toISOString] over an epoch
    millisecond, and [new URL(value).href] ([None] where the constructor
    throws). ECMA-262 leaves [Date.parse] to the host outside its own format,
    and URLs are the WHATWG host API. *)
Class JsHost := {
  date_parse : string → option Z;
  toISOString : Z → string;
  url_href : string → option string
}.

(** The time values a [Date] holds. *)
Definition time_value (ms : Z) : Prop := (Z.abs ms ≤ 8640000000000000)%Z.

(** What the platform documents of them. *)
Class JsHostLaws `{!JsHost} : Prop := {
  date_parse_iso ms : time_value ms → date_parse (toISOString ms) = Some ms;
  url_href_idem url href : url_href url = Some href → url_href href = Some href;
  url_href_slash url href : url_href url = Some href → endsWith url "/" = true →
    endsWith href "/" = true
}.
