(* ===== verification/ConnEntry.v ===== *)
(** * The connections directory entry

    [src/src/connections/entry.ts]: the vocabularies, the writer policy, and
    the codec every reader of the directory runs over a stored body. A
    capability, a grant wrapper, an outbox item, a writer member and a replica
    item are kept verbatim, as the objects the body carried. *)

From S2P Require Import Prelude Json JsText.
From Stdlib Require QArith_base Qreduction.

Definition CONNECTION_ENTRY_VERSION : Z := 1.

Definition CONNECTION_KINDS : list string :=
  ["app"; "agent"; "wallet-client"; "contact"; "replica-server"].
Definition REPLICA_SERVER_KIND : string := "replica-server".
Definition GRANT_KINDS : list string := ["grant"; "share"].
Definition RECEIVED_GRANT_KINDS : list string := ["inbox"].
Definition CONNECTION_SEED_BYTES : nat := 32.
Definition CONNECTION_SEED_TEXT_LENGTH : nat := 43.

(** ** Reading members *)

(** [isJsonObject]. *)
Definition as_object (v : option json) : option members :=
  match v with Some (JObj o) => Some o | _ => None end.
Definition as_string (v : option json) : option string :=
  match v with Some (JStr s) => Some s | _ => None end.
Definition as_array (v : option json) : option (list json) :=
  match v with Some (JArr xs) => Some xs | _ => None end.
(** [typeof v === 'number' && Number.isInteger(v)]. *)
Definition as_integer (v : option json) : option Z :=
  match v with
  | Some (JNum q) =>
      let q := Qreduction.Qred q in
      if decide (QArith_base.Qden q = 1%positive) then Some (QArith_base.Qnum q) else None
  | _ => None
  end.

(** A member that may be absent: absent, or read by [f]. *)
Definition optional {A} (f : option json → option A) (v : option json) : option (option A) :=
  match v with None => Some None | Some _ => Some <$> f v end.

Definition when (b : bool) : option () := if b then Some () else None.

(** [v.k] of a verbatim object, and its string members. *)
Definition member (k : string) (v : json) : option json :=
  match v with JObj o => get_member k o | _ => None end.
Definition string_member (k : string) (v : json) : string := default "" (as_string (member k v)).

(** The base64url codec the directory decodes seeds and ids with. *)
Class Base64 := {
  b64_decode : string → option string;
  b64_encode : string → string
}.

Class Base64Laws `{!Base64} : Prop := {
  b64_decode_encode bytes : b64_decode (b64_encode bytes) = Some bytes;
  (** Four characters carry three bytes, with no padding. *)
  b64_length bytes : js_length (b64_encode bytes) = (String.length bytes * 4 + 2) `div` 3
}.

Section Codec.
Context {host : JsHost} {base64 : Base64}.

(** ** The known members' shapes *)

(** A string [Date.parse] reads as a time. *)
Definition as_timestamp (v : option json) : option string :=
  s ← as_string v; if decide (is_Some (date_parse s)) then Some s else None.

Definition as_nonempty (v : option json) : option string :=
  s ← as_string v; if decide (s = "") then None else Some s.

Definition isActionList (v : json) : bool :=
  match v with
  | JStr _ => true
  | JArr xs => forallb (λ x, match x with JStr _ => true | _ => false end) xs
  | _ => false
  end.

Definition parseConnectionZcap (value : option json) : option json :=
  o ← as_object value;
  _ ← as_nonempty (get_member "id" o);
  _ ← as_string (get_member "controller" o);
  _ ← as_string (get_member "invocationTarget" o);
  _ ← when (match get_member "allowedAction" o with None => true | Some v => isActionList v end);
  _ ← as_timestamp (get_member "expires" o);
  value.

Definition parseGrantRecord (value : json) : option json :=
  o ← as_object (Some value);
  _ ← parseConnectionZcap (get_member "zcap" o);
  _ ← as_string (get_member "grantKind" o);
  _ ← as_timestamp (get_member "grantedAt" o);
  _ ← optional as_timestamp (get_member "renewedAt" o);
  Some value.

Definition parseReceivedGrantRecord (value : json) : option json :=
  o ← as_object (Some value);
  _ ← parseConnectionZcap (get_member "zcap" o);
  _ ← as_string (get_member "grantKind" o);
  _ ← as_timestamp (get_member "receivedAt" o);
  Some value.

Definition parseOutboxItem (value : json) : option json :=
  o ← as_object (Some value);
  _ ← as_object (get_member "message" o);
  _ ← as_timestamp (get_member "createdAt" o);
  Some value.

Definition decodeConnectionSeed (value : option json) : option string :=
  s ← as_string value;
  if decide (js_length s = CONNECTION_SEED_TEXT_LENGTH) then
    bytes ← b64_decode s;
    if decide (String.length bytes = CONNECTION_SEED_BYTES) then Some bytes else None
  else None.

Definition isSpaceContainerUrl (value : option json) : bool :=
  match as_string value with
  | Some s => endsWith s "/" && bool_decide (is_Some (url_href s))
  | None => false
  end.

Definition spaceContainerUrl (value : string) : result string :=
  if isSpaceContainerUrl (Some (JStr value)) then
    match url_href value with
    | Some href => Ok href
    | None => Throw (JsError "TypeError" "Invalid URL")
    end
  else Throw (JsError "TypeError" "A Space container URL is an absolute URL ending with a slash").

Definition isConnectionFreshId (value : option json) : bool :=
  bool_decide (is_Some (decodeConnectionSeed value)).

Definition isCollectionList (v : json) : bool :=
  match v with
  | JArr xs => negb (bool_decide (xs = [])) &&
      forallb (λ x, match x with JStr s => negb (bool_decide (s = "")) | _ => false end) xs
  | _ => false
  end.

Definition absent_or (f : option json → bool) (v : option json) : bool :=
  match v with None => true | Some _ => f v end.

Definition parseReplica (value : json) : option json :=
  o ← as_object (Some value);
  _ ← when (isSpaceContainerUrl (get_member "fromSpace" o));
  _ ← when (isConnectionFreshId (get_member "spaceId" o));
  _ ← when (absent_or isConnectionFreshId (get_member "registrationId" o));
  _ ← when (absent_or isConnectionFreshId (get_member "pendingRegistrationId" o));
  _ ← when (match get_member "collections" o with None => true | Some v => isCollectionList v end);
  _ ← optional as_timestamp (get_member "stoppedAt" o);
  _ ← optional as_timestamp (get_member "restartedAt" o);
  _ ← optional as_timestamp (get_member "lostAt" o);
  Some value.

(** The one record kind the codec rewrites: its label is normalized. *)
Definition parseWriter (value : json) : option json :=
  o ← as_object (Some value);
  _ ← as_nonempty (get_member "writerId" o);
  label ← as_string (get_member "label" o);
  _ ← as_timestamp (get_member "lastSeen" o);
  _ ← match get_member "active" o with Some (JBool b) => Some b | _ => None end;
  label ← normalizeDisplayName label;
  Some (JObj (set_member "label" (JStr label) o)).

(** ** The entry *)

Record ConnectionEntry := {
  e_version : Z;
  e_kind : string;
  e_id : option string;
  e_name : option string;
  e_label : option string;
  e_origin : option string;
  e_url : option string;
  e_appKey : option string;
  e_firstSeen : string;
  e_lastSeen : string;
  e_retired : option string;
  e_declined : option string;
  e_seed : option string;
  e_seedTag : option string;
  e_grants : list json;
  e_grantsReceived : list json;
  e_outbox : list json;
  e_writers : list json;
  e_replicas : list json
}.

(** A DID. *)
Definition as_did (v : option json) : option string :=
  s ← as_string v; if startsWith s "did:" then Some s else None.

(** A stored display name, normalized. *)
Definition as_name (v : option json) : option string := as_string v ≫= normalizeDisplayName.

Definition as_seed (v : option json) : option string :=
  _ ← decodeConnectionSeed v; as_string v.

(** [list.map(parse)], none of the elements refused. *)
Definition as_list (parse : json → option json) (v : option json) : option (list json) :=
  as_array v ≫= mapM parse.

(** [(list ?? []).map(parse)]. *)
Definition as_optional_list (parse : json → option json) (v : option json) : option (list json) :=
  match v with None => Some [] | Some _ => as_list parse v end.

Definition parseConnectionEntry (body : json) : option ConnectionEntry :=
  o ← as_object (Some body);
  version ← as_integer (get_member "version" o);
  _ ← when (bool_decide (1 ≤ version)%Z);
  kind ← as_nonempty (get_member "kind" o);
  id ← optional as_did (get_member "id" o);
  name ← optional as_name (get_member "name" o);
  label ← optional as_name (get_member "label" o);
  origin ← optional as_string (get_member "origin" o);
  url ← optional as_string (get_member "url" o);
  appKey ← optional as_nonempty (get_member "appKey" o);
  firstSeen ← as_timestamp (get_member "firstSeen" o);
  lastSeen ← as_timestamp (get_member "lastSeen" o);
  retired ← optional as_timestamp (get_member "retired" o);
  declined ← optional as_timestamp (get_member "declined" o);
  seed ← optional as_seed (get_member "seed" o);
  seedTag ← optional as_seed (get_member "seedTag" o);
  _ ← when (bool_decide (is_Some seed ↔ is_Some seedTag));
  parsedGrants ← as_list parseGrantRecord (get_member "grants" o);
  parsedReceived ← as_optional_list parseReceivedGrantRecord (get_member "grantsReceived" o);
  parsedOutbox ← as_optional_list parseOutboxItem (get_member "outbox" o);
  parsedWriters ← as_list parseWriter (get_member "writers" o);
  parsedReplicas ← as_optional_list parseReplica (get_member "replicas" o);
  _ ← when (bool_decide (parsedReplicas = [] ∨ kind = REPLICA_SERVER_KIND));
  _ ← when (bool_decide (is_Some id ∨ length parsedWriters = 1));
  Some {|
    e_version := version; e_kind := kind; e_id := id; e_name := name; e_label := label;
    e_origin := origin; e_url := url; e_appKey := appKey; e_firstSeen := firstSeen;
    e_lastSeen := lastSeen; e_retired := retired; e_declined := declined; e_seed := seed;
    e_seedTag := seedTag; e_grants := parsedGrants; e_grantsReceived := parsedReceived;
    e_outbox := parsedOutbox; e_writers := parsedWriters; e_replicas := parsedReplicas
  |}.

Definition isWritableConnectionEntry (entry : ConnectionEntry) : bool :=
  bool_decide (e_version entry = CONNECTION_ENTRY_VERSION).

Definition connectionKindOf (entry : ConnectionEntry) : option string :=
  if decide (e_kind entry ∈ CONNECTION_KINDS) then Some (e_kind entry) else None.

Definition grantKindOf (grant : json) : string :=
  if decide (string_member "grantKind" grant = "share") then "share" else "grant".

(** An integer as a JSON number. *)
Definition jint (z : Z) : json := JNum (QArith_base.inject_Z z).

Definition newConnectionEntry (kind did : string) (now : Z) : members :=
  let stamp := toISOString now in
  [("version", jint CONNECTION_ENTRY_VERSION); ("kind", JStr kind); ("id", JStr did);
   ("firstSeen", JStr stamp); ("lastSeen", JStr stamp); ("grants", JArr []);
   ("grantsReceived", JArr []); ("outbox", JArr []); ("writers", JArr [])].
End Codec.

(** ** What the codec reads *)
Section CodecProofs.
Context {host : JsHost} {base64 : Base64}.

(** The equations of an accepted body, a member at a time. *)
Record reads (o : members) (e : ConnectionEntry) : Prop := {
  rd_version : as_integer (get_member "version" o) = Some (e_version e);
  rd_positive : (1 ≤ e_version e)%Z;
  rd_kind : as_nonempty (get_member "kind" o) = Some (e_kind e);
  rd_id : optional as_did (get_member "id" o) = Some (e_id e);
  rd_name : optional as_name (get_member "name" o) = Some (e_name e);
  rd_label : optional as_name (get_member "label" o) = Some (e_label e);
  rd_origin : optional as_string (get_member "origin" o) = Some (e_origin e);
  rd_url : optional as_string (get_member "url" o) = Some (e_url e);
  rd_appKey : optional as_nonempty (get_member "appKey" o) = Some (e_appKey e);
  rd_firstSeen : as_timestamp (get_member "firstSeen" o) = Some (e_firstSeen e);
  rd_lastSeen : as_timestamp (get_member "lastSeen" o) = Some (e_lastSeen e);
  rd_retired : optional as_timestamp (get_member "retired" o) = Some (e_retired e);
  rd_declined : optional as_timestamp (get_member "declined" o) = Some (e_declined e);
  rd_seed : optional as_seed (get_member "seed" o) = Some (e_seed e);
  rd_seedTag : optional as_seed (get_member "seedTag" o) = Some (e_seedTag e);
  rd_tagged : is_Some (e_seed e) ↔ is_Some (e_seedTag e);
  rd_grants : as_list parseGrantRecord (get_member "grants" o) = Some (e_grants e);
  rd_grantsReceived : as_optional_list parseReceivedGrantRecord (get_member "grantsReceived" o)
    = Some (e_grantsReceived e);
  rd_outbox : as_optional_list parseOutboxItem (get_member "outbox" o) = Some (e_outbox e);
  rd_writers : as_list parseWriter (get_member "writers" o) = Some (e_writers e);
  rd_replicas : as_optional_list parseReplica (get_member "replicas" o) = Some (e_replicas e);
  rd_replicaKind : e_replicas e = [] ∨ e_kind e = REPLICA_SERVER_KIND;
  rd_keyless : is_Some (e_id e) ∨ length (e_writers e) = 1
}.

Lemma when_Some b u : when b = Some u ↔ b = true.
Proof. destruct b, u; simpl; naive_solver. Qed.

Lemma parse_reads o e : parseConnectionEntry (JObj o) = Some e ↔ reads o e.
Proof.
  unfold parseConnectionEntry. simpl. split.
  - intros H. repeat (apply bind_Some in H as (?&?&H)).
    repeat match goal with H : when _ = Some _ |- _ =>
      apply when_Some, bool_decide_eq_true in H end.
    simplify_eq. by split.
  - intros [Hv Hp Hk Hid Hn Hl Ho Hu Ha Hf Hls Hr Hd Hs Hst Ht Hg Hgr Hob Hw Hre Hrk Hkl].
    rewrite Hv. simpl. rewrite (bool_decide_true _ Hp), Hk. simpl.
    rewrite Hid. simpl. rewrite Hn. simpl. rewrite Hl. simpl. rewrite Ho. simpl. rewrite Hu. simpl.
    rewrite Ha. simpl. rewrite Hf. simpl. rewrite Hls. simpl. rewrite Hr. simpl. rewrite Hd. simpl.
    rewrite Hs. simpl. rewrite Hst. simpl. rewrite (bool_decide_true _ Ht). simpl.
    rewrite Hg. simpl. rewrite Hgr. simpl. rewrite Hob. simpl. rewrite Hw. simpl. rewrite Hre. simpl.
    rewrite (bool_decide_true _ Hrk). simpl. rewrite (bool_decide_true _ Hkl). simpl.
    by destruct e.
Qed.

(** *** Records are read verbatim *)

Lemma parseGrantRecord_id v v' : parseGrantRecord v = Some v' → v' = v.
Proof. unfold parseGrantRecord. intros H. repeat (apply bind_Some in H as (?&?&H)). congruence. Qed.
Lemma parseReceivedGrantRecord_id v v' : parseReceivedGrantRecord v = Some v' → v' = v.
Proof.
  unfold parseReceivedGrantRecord. intros H. repeat (apply bind_Some in H as (?&?&H)). congruence.
Qed.
Lemma parseOutboxItem_id v v' : parseOutboxItem v = Some v' → v' = v.
Proof. unfold parseOutboxItem. intros H. repeat (apply bind_Some in H as (?&?&H)). congruence. Qed.
Lemma parseReplica_id v v' : parseReplica v = Some v' → v' = v.
Proof. unfold parseReplica. intros H. repeat (apply bind_Some in H as (?&?&H)). congruence. Qed.

(** A writer member is read to one that reads as itself. *)
Lemma parseWriter_idem v v' : parseWriter v = Some v' → parseWriter v' = Some v'.
Proof.
  unfold parseWriter. intros H.
  apply bind_Some in H as (o&Ho&H). apply bind_Some in H as (w&Hw&H).
  apply bind_Some in H as (l&Hl&H). apply bind_Some in H as (ls&Hls&H).
  apply bind_Some in H as (a&Ha&H). apply bind_Some in H as (l'&Hl'&[= <-]). simpl.
  rewrite get_set_member_eq, !get_set_member_ne by discriminate.
  rewrite Hw. simpl. rewrite Hls. simpl. rewrite Ha. simpl.
  rewrite (normalizeDisplayName_idem _ _ Hl'). simpl. by rewrite set_member_set_member.
Qed.

(** A parser whose results read as themselves. *)
Class Stable (parse : json → option json) : Prop :=
  stable v v' : parse v = Some v' → parse v' = Some v'.

#[export] Instance parseGrantRecord_stable : Stable parseGrantRecord.
Proof. intros v v' H. by pose proof (parseGrantRecord_id _ _ H) as ->. Qed.
#[export] Instance parseReceivedGrantRecord_stable : Stable parseReceivedGrantRecord.
Proof. intros v v' H. by pose proof (parseReceivedGrantRecord_id _ _ H) as ->. Qed.
#[export] Instance parseOutboxItem_stable : Stable parseOutboxItem.
Proof. intros v v' H. by pose proof (parseOutboxItem_id _ _ H) as ->. Qed.
#[export] Instance parseReplica_stable : Stable parseReplica.
Proof. intros v v' H. by pose proof (parseReplica_id _ _ H) as ->. Qed.
#[export] Instance parseWriter_stable : Stable parseWriter.
Proof. intros v v'. apply parseWriter_idem. Qed.

(** Records that read as themselves. *)
Definition fixed (parse : json → option json) (xs : list json) : Prop :=
  Forall (λ x, parse x = Some x) xs.

Lemma mapM_fixed parse xs : fixed parse xs → mapM parse xs = Some xs.
Proof. intros H. apply mapM_Some. by induction H; constructor. Qed.

Lemma as_list_fixed parse xs : fixed parse xs → as_list parse (Some (JArr xs)) = Some xs.
Proof. apply mapM_fixed. Qed.

Lemma as_optional_list_fixed parse xs : fixed parse xs →
  as_optional_list parse (Some (JArr xs)) = Some xs.
Proof. apply mapM_fixed. Qed.

Lemma as_list_Some `{!Stable parse} v xs : as_list parse v = Some xs → fixed parse xs.
Proof.
  unfold as_list. intros (l&_&H)%bind_Some. apply mapM_Some in H.
  unfold fixed. induction H; constructor; [by eapply stable|done].
Qed.

Lemma as_optional_list_Some `{!Stable parse} v xs :
  as_optional_list parse v = Some xs → fixed parse xs.
Proof. destruct v; simpl; [apply as_list_Some|]. intros [= <-]. constructor. Qed.

Lemma fixed_app parse xs ys : fixed parse xs → fixed parse ys → fixed parse (xs ++ ys).
Proof. intros. by apply Forall_app. Qed.
Lemma fixed_filter parse (P : json → Prop) `{!∀ x, Decision (P x)} xs :
  fixed parse xs → fixed parse (filter P xs).
Proof. unfold fixed. rewrite !Forall_forall. intros Hxs x [_ Hx]%list_elem_of_filter. auto. Qed.
Lemma fixed_nil parse : fixed parse [].
Proof. constructor. Qed.

Section Entry.
Context o e (Hr : reads o e).
Lemma grants_fixed : fixed parseGrantRecord (e_grants e).
Proof. eapply as_list_Some, (rd_grants _ _ Hr). Qed.
Lemma received_fixed : fixed parseReceivedGrantRecord (e_grantsReceived e).
Proof. eapply as_optional_list_Some, (rd_grantsReceived _ _ Hr). Qed.
Lemma outbox_fixed : fixed parseOutboxItem (e_outbox e).
Proof. eapply as_optional_list_Some, (rd_outbox _ _ Hr). Qed.
Lemma writers_fixed : fixed parseWriter (e_writers e).
Proof. eapply as_list_Some, (rd_writers _ _ Hr). Qed.
Lemma replicas_fixed : fixed parseReplica (e_replicas e).
Proof. eapply as_optional_list_Some, (rd_replicas _ _ Hr). Qed.
End Entry.

Context {laws : JsHostLaws}.

Lemma as_timestamp_iso ms : time_value ms →
  as_timestamp (Some (JStr (toISOString ms))) = Some (toISOString ms).
Proof. intros. unfold as_timestamp. simpl. rewrite date_parse_iso by done. by rewrite decide_True. Qed.

Lemma as_name_normalized value name : normalizeDisplayName value = Some name →
  as_name (Some (JStr name)) = Some name.
Proof. apply normalizeDisplayName_idem. Qed.

End CodecProofs.

(** Reads through the writes of concrete members. *)
Ltac members :=
  repeat first
    [ rewrite get_set_member_eq | rewrite get_set_member_ne by discriminate
    | rewrite get_delete_member_eq | rewrite get_delete_member_ne by discriminate ].

(** ** The writer policy *)

Definition DAY_MS : Z := 24 * 60 * 60 * 1000.

Record ConnectionWriterPolicy := {
  inactiveAfterMs : Z;
  maxWriters : Z;
  touchIntervalMs : Z
}.

Definition CONNECTION_WRITER_POLICY : ConnectionWriterPolicy := {|
  inactiveAfterMs := 90 * DAY_MS;
  maxWriters := 8;
  touchIntervalMs := DAY_MS
|}.

(** [Partial<ConnectionWriterPolicy>] spread over the defaults. *)
Definition connectionWriterPolicy (policy : option Z * option Z * option Z) :
    ConnectionWriterPolicy :=
  let '(inactive, max, touch) := policy in {|
    inactiveAfterMs := default (inactiveAfterMs CONNECTION_WRITER_POLICY) inactive;
    maxWriters := default (maxWriters CONNECTION_WRITER_POLICY) max;
    touchIntervalMs := default (touchIntervalMs CONNECTION_WRITER_POLICY) touch
  |}.
