(* ===== verification/ConnGrants.v ===== *)
(** * Grants

    [src/src/connections/grants.ts]: the grants a directory reader accepts,
    their scopes, and the received channels. *)

From S2P Require Import Prelude Json JsText ConnEntry.

(** [baseServerUrlOf] of the storage client. *)
Class ServerPaths := { baseServerUrlOf : string → result string }.

(** A member of a verbatim capability. *)
Definition zcap_id (zcap : json) : string := string_member "id" zcap.
Definition zcap_controller (zcap : json) : string := string_member "controller" zcap.
Definition zcap_target (zcap : json) : string := string_member "invocationTarget" zcap.
Definition zcap_expires (zcap : json) : string := string_member "expires" zcap.
Definition zcap_actions (zcap : json) : option json := member "allowedAction" zcap.
(** [record.zcap] *)
Definition zcap_of (record : json) : json := default JNull (member "zcap" record).

Record ConnectionGrant := {
  g_zcapId : string;
  g_controller : string;
  g_target : string;
  g_allowedAction : option json;
  g_expires : string;
  g_grantKind : string;
  g_grantedAt : string;
  g_zcap : json
}.

Record ConnectionReceivedGrant := {
  r_zcapId : string;
  r_controller : string;
  r_target : string;
  r_allowedAction : option json;
  r_expires : string;
  r_grantKind : string;
  r_receivedAt : string;
  r_zcap : json
}.

(** [allowedAction], a string or an array of strings, as a sorted list. *)
Definition normalizedActions (allowedAction : option json) : list string :=
  match allowedAction with
  | None => []
  | Some (JStr action) => [action]
  | Some (JArr actions) => js_sort (omap (λ a, as_string (Some a)) actions)
  | Some _ => []
  end.

Definition allowsAction (allowedAction : option json) (action : string) : bool :=
  bool_decide (action ∈ normalizedActions allowedAction).

(** The value the scope key serializes: two keys are the same text exactly
    when they are the same value. *)
Definition grantScopeKey (zcap : json) : json :=
  JArr [JStr (zcap_controller zcap); JStr (zcap_target zcap);
        JArr (JStr <$> normalizedActions (zcap_actions zcap))].

Section Grants.
Context {host : JsHost} {base64 : Base64} {paths : ServerPaths}.

Definition isTargetInSpace (target spaceUrl : string) : result bool :=
  space ← spaceContainerUrl spaceUrl;
  Ok (match url_href target with
      | Some normalized => startsWith normalized space
      | None => false
      end).

Definition isTargetInAnySpace (target : string) (spaceUrls : list string) : result bool :=
  someM (λ spaceUrl, isTargetInSpace target spaceUrl) spaceUrls.

Definition fromSpaceOf (item : json) : string := string_member "fromSpace" item.

Definition accountContainerUrls (entry : option ConnectionEntry) (spaceUrl : string) :
    result (list string) :=
  match entry with
  | None => Ok [spaceUrl]
  | Some entry =>
      if decide (e_replicas entry = []) then Ok [spaceUrl]
      else
        baseServerUrl ← baseServerUrlOf spaceUrl;
        own ← filterM (λ fromSpace, base ← baseServerUrlOf fromSpace;
                                    Ok (bool_decide (base = baseServerUrl)))
                (fromSpaceOf <$> e_replicas entry);
        Ok (js_dedup (spaceUrl :: own))
  end.

Definition asGrant (grant : json) : ConnectionGrant :=
  let zcap := zcap_of grant in {|
    g_zcapId := zcap_id zcap; g_controller := zcap_controller zcap; g_target := zcap_target zcap;
    g_allowedAction := zcap_actions zcap; g_expires := zcap_expires zcap;
    g_grantKind := grantKindOf grant; g_grantedAt := string_member "grantedAt" grant;
    g_zcap := zcap |}.

Definition connectionGrants (entry : ConnectionEntry) (spaceUrl : string) :
    result (list ConnectionGrant) :=
  spaceUrls ← accountContainerUrls (Some entry) spaceUrl;
  kept ← filterM (λ grant,
    match e_id entry with
    | None => Ok false
    | Some id =>
        if decide (zcap_controller (zcap_of grant) = id) then
          isTargetInAnySpace (zcap_target (zcap_of grant)) spaceUrls
        else Ok false
    end) (e_grants entry);
  Ok (asGrant <$> (kept : list json)).

Definition grantTargets (grants : list ConnectionGrant) : list string :=
  js_dedup (g_target <$> grants).

(** [a <= b] and [a >= b] on the times [Date.parse] reads, [NaN] in neither. *)
Definition time_le (a b : option Z) : bool :=
  match a, b with Some a, Some b => (a <=? b)%Z | _, _ => false end.

Definition isExpired (now : Z) (grant : ConnectionGrant) : bool :=
  time_le (date_parse (g_expires grant)) (Some now).

Definition splitGrantsByExpiry (grants : list ConnectionGrant) (now : Z) :
    list ConnectionGrant * list ConnectionGrant :=
  (filter (λ g, isExpired now g = false) grants, filter (λ g, isExpired now g = true) grants).

Definition asReceived (record : json) : ConnectionReceivedGrant :=
  let zcap := zcap_of record in {|
    r_zcapId := zcap_id zcap; r_controller := zcap_controller zcap; r_target := zcap_target zcap;
    r_allowedAction := zcap_actions zcap; r_expires := zcap_expires zcap;
    r_grantKind := string_member "grantKind" record;
    r_receivedAt := string_member "receivedAt" record; r_zcap := zcap |}.

Definition receivedGrants (entry : ConnectionEntry) (pairwiseDid spaceUrl : string) :
    result (list ConnectionReceivedGrant) :=
  match e_retired entry with
  | Some _ => Ok []
  | None =>
      kept ← filterM (λ record,
        let zcap := zcap_of record in
        if decide (zcap_controller zcap = pairwiseDid) then
          inside ← isTargetInSpace (zcap_target zcap) spaceUrl;
          Ok (negb inside &&
              negb (bool_decide (string_member "grantKind" record = "inbox") &&
                    negb (allowsAction (zcap_actions zcap) "POST")))
        else Ok false) (e_grantsReceived entry);
      Ok (asReceived <$> (kept : list json))
  end.

Definition receivedGrantLapsed (expires receivedAt : string) (now maxLifetimeMs : Z) : bool :=
  match date_parse receivedAt with
  | None => true
  | Some receivedAt =>
      match date_parse expires with
      | Some expires => (Z.min (receivedAt + maxLifetimeMs) expires <=? now)%Z
      | None => false
      end
  end.

(** The loop's [best] and [bestExpires]. *)
Definition liveInboxChannel (grants : list ConnectionReceivedGrant) (now maxLifetimeMs : Z) :
    option ConnectionReceivedGrant :=
  fst <$> foldl (λ best grant,
    if negb (bool_decide (r_grantKind grant = "inbox")) ||
       receivedGrantLapsed (r_expires grant) (r_receivedAt grant) now maxLifetimeMs
    then best
    else
      let expiresAt := date_parse (r_expires grant) in
      match best with
      | None => Some (grant, expiresAt)
      | Some (_, bestExpires) =>
          if time_le bestExpires expiresAt then Some (grant, expiresAt) else best
      end) None grants.

(** One turn of the loop over the capabilities, from the [index]th. *)
Fixpoint latestFrom (zcaps : list json) (index : nat) (rest : list json)
    (latest : list (json * nat)) : list (json * nat) :=
  match rest with
  | [] => latest
  | zcap :: rest =>
      let scope := grantScopeKey zcap in
      let later :=
        match assoc_get scope latest with
        | None => true
        | Some held =>
            time_le (date_parse (zcap_expires (default JNull (zcaps !! held))))
                    (date_parse (zcap_expires zcap))
        end in
      latestFrom zcaps (S index) rest (if later then assoc_set scope index latest else latest)
  end.

Definition latestIndexPerScope (zcaps : list json) : list (json * nat) :=
  latestFrom zcaps 0 zcaps [].

Definition latestGrantsPerScope (grants : list ConnectionGrant) : list ConnectionGrant :=
  omap (λ index, grants !! index) (snd <$> latestIndexPerScope (g_zcap <$> grants)).
End Grants.
