(* ===== verification/ConnStore.v ===== *)
(** * The directory's store and its listing

    [src/src/connections/resourceId.ts], [store.ts] and [read.ts]: the
    resource id a party's entry sits at, the storage seam with its adapter
    over an encrypted collection, and the one listing read. *)

From S2P Require Import Prelude Json JsText ConnEntry.

(** The directory's keyed MAC (HMAC-SHA-256 under the blinded-index key) over
    bytes, and the identifier encoding of 16 bytes. *)
Class DirectoryKey := {
  keyedMac : string → string;
  edvIdFromBytes : string → string
}.

Definition CONNECTIONS_ID_PREFIX : string := "connections/v1".

(** Which of the two arms an id is derived from. *)
Inductive id_arm := ByDid (did : string) | ByWriter (writerId : string).

Section ResourceId.
Context {base64 : Base64} {key : DirectoryKey}.

Definition armInput (arm : id_arm) : string :=
  match arm with
  | ByDid did => String.append "did:" did
  | ByWriter writerId => String.append "writer:" writerId
  end.

Definition connectionResourceId (arm : id_arm) : string :=
  edvIdFromBytes (String.substring 0 16
    (keyedMac (String.append CONNECTIONS_ID_PREFIX (String.append "|" (armInput arm))))).

Definition seedTagBytes (seedBytes : string) : string :=
  keyedMac (String.append CONNECTIONS_ID_PREFIX (String.append "|seed:" seedBytes)).

Definition connectionSeedTag (seed : string) : result string :=
  match decodeConnectionSeed (Some (JStr seed)) with
  | None => Throw (JsError "TypeError" "A connection seed is 43 characters of base64url")
  | Some seedBytes => Ok (b64_encode (seedTagBytes seedBytes))
  end.

Definition verifyConnectionSeedTag (seed seedTag : string) : bool :=
  match decodeConnectionSeed (Some (JStr seed)), decodeConnectionSeed (Some (JStr seedTag)) with
  | Some seedBytes, Some tagBytes => bool_decide (seedTagBytes seedBytes = tagBytes)
  | _, _ => false
  end.

(** The resource id a stored body claims by its own members. *)
Definition claimedResourceId (body : json) : option string :=
  match body with
  | JObj o =>
      match get_member "id" o with
      | Some (JStr did) => Some (connectionResourceId (ByDid did))
      | _ =>
          match get_member "writers" o with
          | Some (JArr [writer]) =>
              match member "writerId" writer with
              | Some (JStr writerId) => Some (connectionResourceId (ByWriter writerId))
              | _ => None
              end
          | _ => None
          end
      end
  | _ => None
  end.
End ResourceId.

(** ** The seam *)

Record StoredConnection := {
  st_resourceId : string;
  st_etag : option string;
  st_body : option json;
  st_readError : option js_error
}.

Record PutConnection := {
  pc_resourceId : string;
  pc_body : members;
  pc_ifMatch : option string;
  pc_ifNoneMatch : bool
}.

Record ConnectionsStore (W : Type) := {
  store_list : comp W (option (list StoredConnection));
  store_get : string → comp W (option (json * option string));
  store_put : PutConnection → comp W (option string)
}.
Arguments store_list {W}.
Arguments store_get {W}.
Arguments store_put {W}.

(** The storage client's collection handle, and its cipher's [decrypt]. *)
Record CollectionDoc := { cd_id : string; cd_etag : option string; cd_data : json }.
Record Collection (W : Type) := {
  coll_documents : comp W (option (list CollectionDoc));
  coll_getWithEtag : string → comp W (option (json * option string));
  coll_put : string → members → option string → bool → comp W (option string)
}.
Arguments coll_documents {W}.
Arguments coll_getWithEtag {W}.
Arguments coll_put {W}.

Section Adapter.
Context {W : Type} (collection : Collection W) (cipherDecrypt : string → json → comp W json).

Definition openDocument (doc : CollectionDoc) : comp W StoredConnection :=
  try_catch
    (body ← cipherDecrypt (cd_id doc) (cd_data doc);
     mret {| st_resourceId := cd_id doc; st_etag := cd_etag doc; st_body := Some body;
             st_readError := None |})
    (λ err, mret {| st_resourceId := cd_id doc; st_etag := cd_etag doc; st_body := None;
                    st_readError := Some err |}).

Definition pwsConnectionsStore : ConnectionsStore W := {|
  store_list :=
    documents ← coll_documents collection;
    match documents with
    | None => mret None
    | Some documents => listed ← promise_all openDocument documents; mret (Some listed)
    end;
  store_get resourceId := coll_getWithEtag collection resourceId;
  store_put p := coll_put collection (pc_resourceId p) (pc_body p) (pc_ifMatch p) (pc_ifNoneMatch p)
|}.
End Adapter.

(** ** The listing read *)

Record ReadConnection := {
  rc_resourceId : string;
  rc_etag : option string;
  rc_entry : ConnectionEntry;
  rc_body : json
}.

Record ConnectionsListing := {
  l_entries : list ReadConnection;
  l_unreadable : list string;
  l_unparseable : list string
}.

Section Read.
Context {host : JsHost} {base64 : Base64} {key : DirectoryKey}.

(** One stored resource, appended to the listing so far. *)
Definition listOne (listing : ConnectionsListing) (item : StoredConnection) : ConnectionsListing :=
  match st_readError item, st_body item with
  | None, Some body =>
      if decide (claimedResourceId body = Some (st_resourceId item)) then
        match parseConnectionEntry body with
        | None => {| l_entries := l_entries listing; l_unreadable := l_unreadable listing;
                     l_unparseable := l_unparseable listing ++ [st_resourceId item] |}
        | Some entry =>
            {| l_entries := l_entries listing ++
                 [{| rc_resourceId := st_resourceId item; rc_etag := st_etag item;
                     rc_entry := entry; rc_body := body |}];
               l_unreadable := l_unreadable listing; l_unparseable := l_unparseable listing |}
        end
      else listing
  | _, _ => {| l_entries := l_entries listing;
               l_unreadable := l_unreadable listing ++ [st_resourceId item];
               l_unparseable := l_unparseable listing |}
  end.

Definition emptyListing : ConnectionsListing :=
  {| l_entries := []; l_unreadable := []; l_unparseable := [] |}.

Definition readConnections {W} (store : ConnectionsStore W) : comp W (option ConnectionsListing) :=
  stored ← store_list store;
  mret (foldl listOne emptyListing <$> stored).

Definition findConnection (listing : ConnectionsListing) (did : string) : option ReadConnection :=
  head (filter (λ item, e_id (rc_entry item) = Some did) (l_entries listing)).

(** *** What a listing holds *)

(** A stored resource that opened, at the id it claims. *)
Definition at_home (item : StoredConnection) (body : json) : Prop :=
  st_readError item = None ∧ st_body item = Some body ∧
  claimedResourceId body = Some (st_resourceId item).

(** The resources that count under each heading, in the store's order. *)
Definition entryOf (item : StoredConnection) : option ReadConnection :=
  match st_readError item, st_body item with
  | None, Some body =>
      if decide (claimedResourceId body = Some (st_resourceId item)) then
        entry ← parseConnectionEntry body;
        Some {| rc_resourceId := st_resourceId item; rc_etag := st_etag item;
                rc_entry := entry; rc_body := body |}
      else None
  | _, _ => None
  end.

Definition unreadableOf (item : StoredConnection) : option string :=
  match st_readError item, st_body item with
  | None, Some _ => None
  | _, _ => Some (st_resourceId item)
  end.

Definition unparseableOf (item : StoredConnection) : option string :=
  match st_readError item, st_body item with
  | None, Some body =>
      if decide (claimedResourceId body = Some (st_resourceId item)) then
        match parseConnectionEntry body with Some _ => None | None => Some (st_resourceId item) end
      else None
  | _, _ => None
  end.

Lemma listing_omap stored l :
  foldl listOne l stored = {|
    l_entries := l_entries l ++ omap entryOf stored;
    l_unreadable := l_unreadable l ++ omap unreadableOf stored;
    l_unparseable := l_unparseable l ++ omap unparseableOf stored |}.
Proof.
  revert l. induction stored as [|item stored IH]; intros l; simpl.
  { rewrite !app_nil_r. by destruct l. }
  rewrite IH. unfold listOne, entryOf, unreadableOf, unparseableOf.
  destruct (st_readError item), (st_body item); simpl; rewrite <-?app_assoc; try done.
  case_decide; [|done]. destruct (parseConnectionEntry _); simpl; by rewrite <-?app_assoc.
Qed.
End Read.

(** What one listing read holds. The entries are, in the store's order,
    exactly the resources that opened, sit at the id their own body claims and
    parse; what did not open is named unreadable, what sits at its own id and
    does not parse is named unparseable, and a body at an id it does not claim
    -- a copy, a misplaced write, a planted body -- is reported nowhere. *)
Theorem listing_is_at_home {W} `{!JsHost} `{!Base64} `{!DirectoryKey}
    (store : ConnectionsStore W) w :
  match store_list store w with
  | (Throw e, w') => readConnections store w = (Throw e, w')
  | (Ok None, w') => readConnections store w = (Ok None, w')
  | (Ok (Some stored), w') => ∃ l, readConnections store w = (Ok (Some l), w') ∧
      (∀ r, r ∈ l_entries l ↔ ∃ item, item ∈ stored ∧ at_home item (rc_body r) ∧
         parseConnectionEntry (rc_body r) = Some (rc_entry r) ∧
         rc_resourceId r = st_resourceId item ∧ rc_etag r = st_etag item) ∧
      (∀ id, id ∈ l_unreadable l ↔ ∃ item, item ∈ stored ∧ st_resourceId item = id ∧
         ¬ (st_readError item = None ∧ is_Some (st_body item))) ∧
      (∀ id, id ∈ l_unparseable l ↔ ∃ item body, item ∈ stored ∧ st_resourceId item = id ∧
         at_home item body ∧ parseConnectionEntry body = None)
  end.
Proof.
  unfold readConnections, mbind, comp_bind.
  destruct (store_list store w) as [[[stored|]|e] w']; [|done..].
  eexists. split; [reflexivity|]. rewrite listing_omap. simpl.
  setoid_rewrite list_elem_of_omap. split_and!.
  - intros r. f_equiv. intros item. unfold entryOf, at_home.
    destruct (st_readError item), (st_body item) as [body|]; try naive_solver.
    case_decide; [|naive_solver]. destruct (parseConnectionEntry body) eqn:Hp; simpl.
    + split; [by intros [? [= <-]]|]. intros (?&(?&[= Hb]&?)&He&?&?). split; [done|].
      rewrite <-Hb, Hp in He. destruct r; simpl in *. by simplify_eq.
    + split; [by intros [? ?]|]. intros (?&(?&[= Hb]&?)&He&_). by rewrite <-Hb, Hp in He.
  - intros id. f_equiv. intros item. unfold unreadableOf.
    destruct (st_readError item), (st_body item); naive_solver.
  - intros id. f_equiv. intros item. unfold unparseableOf, at_home.
    destruct (st_readError item), (st_body item) as [body|]; try naive_solver.
    case_decide; [|naive_solver]. destruct (parseConnectionEntry body) eqn:Hp; naive_solver.
Qed.

(** A listing never fails over a body it cannot open: through the adapter,
    a document whose decrypt throws is listed with its error beside the
    others, under any cipher, and the listing has one resource for each
    document of the feed, in the feed's order. *)
Theorem unreadable_never_fails_the_list {W} (collection : Collection W) cipherDecrypt w documents w' :
  coll_documents collection w = (Ok (Some documents), w') →
  ∃ stored w'', store_list (pwsConnectionsStore collection cipherDecrypt) w = (Ok (Some stored), w'') ∧
    (st_resourceId <$> stored) = (cd_id <$> documents) ∧
    (st_etag <$> stored) = (cd_etag <$> documents) ∧
    ∀ item, item ∈ stored → is_Some (st_body item) ↔ st_readError item = None.
Proof.
  intros Hd.
  assert (∀ ds w, ∃ stored w', promise_all (openDocument cipherDecrypt) ds w = (Ok stored, w') ∧
    (st_resourceId <$> stored) = (cd_id <$> ds) ∧ (st_etag <$> stored) = (cd_etag <$> ds) ∧
    ∀ item, item ∈ stored → is_Some (st_body item) ↔ st_readError item = None) as Hall.
  { clear. induction ds as [|d ds IH]; intros w; simpl.
    { exists [], w. split_and!; [done..|]. set_solver. }
    assert (∃ item w1, openDocument cipherDecrypt d w = (Ok item, w1) ∧
      st_resourceId item = cd_id d ∧ st_etag item = cd_etag d ∧
      (is_Some (st_body item) ↔ st_readError item = None)) as (item&w1&Hi&Hid&He&Hb).
    { unfold openDocument, try_catch, mbind, comp_bind.
      destruct (cipherDecrypt (cd_id d) (cd_data d) w) as [[b|e] w1]; (do 2 eexists);
        (split; [reflexivity|]); simpl; split_and!; try done; split; try done; by intros []. }
    destruct (IH w1) as (stored&w2&Hs&Hids&Hes&Hbs).
    exists (item :: stored), w2. rewrite (comp_bind_ok _ _ _ _ _ Hi), (comp_bind_ok _ _ _ _ _ Hs).
    split_and!; [done|by rewrite !fmap_cons, Hid, Hids|by rewrite !fmap_cons, He, Hes|]. intros i [->|?]%elem_of_cons; auto. }
  simpl. rewrite (comp_bind_ok _ _ _ _ _ Hd).
  destruct (Hall documents w') as (stored&w2&Hs&?&?&?). exists stored, w2.
  by rewrite (comp_bind_ok _ _ _ _ _ Hs).
Qed.
