(* ===== verification/ConnUpsert.v ===== *)
(** * The directory's conditional writes

    [src/src/connections/upsert.ts]: the compare-and-swap loop every write
    goes through, and the write each flow makes. *)

From S2P Require Import Prelude Json JsText ConnEntry ConnGrants ConnStore.

Definition PRECONDITION_FAILED_ERROR_NAME : string := "PreconditionFailedError".
Definition WRITE_ATTEMPTS : nat := 3.
(** [REVOCATION_CLOCK_SKEW_MS] of [src/src/webvh/standingZcap.ts]. *)
Definition REVOCATION_CLOCK_SKEW_MS : Z := 10 * 60 * 1000.

Definition TypeError {A} (detail : string) : result A := Throw (JsError "TypeError" detail).
Definition Error {A} (detail : string) : result A := Throw (JsError "Error" detail).

(** What a write that did not happen reports. *)
Inductive NoWrite := Absent | Unchanged.

Inductive WriteOutcome (Stop : Type) := Created | Updated | Stopped (stop : Stop).
Arguments Created {Stop}.
Arguments Updated {Stop}.
Arguments Stopped {Stop} stop.

Record WritableConnection := {
  wc_entry : ConnectionEntry;
  wc_body : members;
  wc_etag : option string
}.

Inductive ConnectionChange (Stop : Type) := Write (body : members) | Stop_ (stop : Stop).
Arguments Write {Stop} body.
Arguments Stop_ {Stop} stop.

Definition isLostConnectionRace (err : js_error) : bool :=
  bool_decide (err_name err = PRECONDITION_FAILED_ERROR_NAME).

Definition requireConnectionEtag (etag : option string) : result string :=
  match etag with
  | Some etag => Ok etag
  | None => Throw (JsError "NotSupportedError" "its read returned no ETag")
  end.

(** [did:key] recognition of the storage client. *)
Class DidKeys := { isEd25519DidKey : string → bool }.
Definition DID_KEY_PREFIX : string := "did:key:".
Definition signingKeyMultibaseOfDid `{!DidKeys} (did : string) : option string :=
  if isEd25519DidKey did then
    Some (String.substring (String.length DID_KEY_PREFIX)
            (String.length did - String.length DID_KEY_PREFIX) did)
  else None.

Section Loop.
Context {host : JsHost} {base64 : Base64} {key : DirectoryKey}.

Definition writableConnection (resourceId : string) (stored : json) (etag : option string) :
    result WritableConnection :=
  match parseConnectionEntry stored, stored with
  | Some entry, JObj body =>
      if decide (claimedResourceId stored = Some resourceId) then
        if isWritableConnectionEntry entry then
          Ok {| wc_entry := entry; wc_body := body; wc_etag := etag |}
        else Error "newer than this build's; this build refuses to write over it"
      else Error "cannot be parsed as the entry for this id; this build refuses to write over it"
  | _, _ => Error "cannot be parsed as the entry for this id; this build refuses to write over it"
  end.

Context {W : Type} (store : ConnectionsStore W) (resourceId : string).

(** What one attempt reads: the entry to change, or the outcome a body this
    build cannot write settles the call with. *)
Definition readCurrent {Stop} (unwritable : option Stop) :
    comp W (Stop + option WritableConnection) :=
  stored ← store_get store resourceId;
  match stored with
  | None => mret (inr None)
  | Some (body, etag) =>
      match writableConnection resourceId body etag with
      | Ok current => mret (inr (Some current))
      | Throw err =>
          match unwritable with
          | None => mthrow err
          | Some outcome => mret (inl outcome)
          end
      end
  end.

(** The conditional write of one attempt. *)
Definition putChange {Stop} (current : option WritableConnection) (body : members) :
    comp W (WriteOutcome Stop) :=
  match current with
  | None =>
      store_put store {| pc_resourceId := resourceId; pc_body := body; pc_ifMatch := None;
                         pc_ifNoneMatch := true |};;
      mret Created
  | Some current =>
      etag ← lift (requireConnectionEtag (wc_etag current));
      store_put store {| pc_resourceId := resourceId; pc_body := body; pc_ifMatch := Some etag;
                         pc_ifNoneMatch := false |};;
      mret Updated
  end.

Fixpoint writeAttempts {Stop}
    (change : option WritableConnection → comp W (ConnectionChange Stop))
    (unwritable : option Stop) (attempts : nat) (lastRace : js_error) : comp W (WriteOutcome Stop) :=
  match attempts with
  | 0 => mthrow lastRace
  | S attempts =>
      current ← readCurrent unwritable;
      match current with
      | inl outcome => mret (Stopped outcome)
      | inr current =>
          next ← change current;
          match next with
          | Stop_ stop => mret (Stopped stop)
          | Write body =>
              raced ← try_catch (outcome ← putChange current body; mret (inr outcome))
                (λ err, if isLostConnectionRace err then mret (inl err) else mthrow err);
              match raced with
              | inl err => writeAttempts change unwritable attempts err
              | inr outcome => mret outcome
              end
          end
      end
  end.

Definition writeConnection {Stop}
    (change : option WritableConnection → comp W (ConnectionChange Stop))
    (unwritable : option Stop) : comp W (WriteOutcome Stop) :=
  writeAttempts change unwritable WRITE_ATTEMPTS (JsError "undefined" "").
End Loop.

Definition writePartyConnection {W} `{!JsHost} `{!Base64} `{!DirectoryKey} (store : ConnectionsStore W)
    (did : string) (change : option WritableConnection → result (ConnectionChange NoWrite)) :
    comp W (WriteOutcome NoWrite) :=
  writeConnection store (connectionResourceId (ByDid did)) (λ current, lift (change current)) None.

(** ** Checks the writes share *)
Section Checks.
Context {host : JsHost} {base64 : Base64} {paths : ServerPaths} {key : DirectoryKey}.

Definition assertKind (entry : ConnectionEntry) (kind : string) : result () :=
  if decide (e_kind entry = kind) then Ok ()
  else Throw (JsError "ConnectionKindMismatchError" (e_kind entry)).

Definition requiredConnectionZcap (value : json) : result json :=
  match parseConnectionZcap (Some value) with
  | Some zcap => Ok zcap
  | None => TypeError "must carry a capability with an id, a controller, and an invocation target"
  end.

Definition checkedDelegatedZcap (did : string) (value : json) : result json :=
  zcap ← requiredConnectionZcap value;
  if decide (zcap_controller zcap = did) then Ok zcap
  else TypeError "A grant to record must be delegated to the party".

Definition assertTargetInSpaces (zcap : json) (spaceUrls : list string) : result () :=
  inside ← isTargetInAnySpace (zcap_target zcap) spaceUrls;
  if inside : bool then Ok ()
  else TypeError "A grant to record must target one of the account's Spaces".

Definition assertPullGrantActions (zcap : json) : result () :=
  if decide (normalizedActions (zcap_actions zcap) = ["GET"]) then Ok ()
  else TypeError "A pull grant allows GET and nothing else".

Definition checkedGrant (did : string) (grant : json * string) : result json :=
  zcap ← checkedDelegatedZcap did grant.1;
  if decide (grant.2 ∈ GRANT_KINDS) then Ok zcap else TypeError "Unknown grant kind".

Definition expiresAtOf (zcap : json) : option Z := date_parse (zcap_expires zcap).

Definition expiredBeyondSkew (zcap : json) (now : Z) : bool :=
  match expiresAtOf zcap with
  | Some expires => (expires + REVOCATION_CLOCK_SKEW_MS <=? now)%Z
  | None => false
  end.

Definition latestPerScope (grants : list json) : list (json * nat) :=
  latestIndexPerScope (zcap_of <$> grants).

(** [xs.findIndex(f)], with the element. *)
Fixpoint findIndex {A} (f : A → bool) (xs : list A) : option (nat * A) :=
  match xs with
  | [] => None
  | x :: xs => if f x then Some (0, x) else prod_map S id <$> findIndex f xs
  end.

Definition renewedGrantRecord (entry : ConnectionEntry) (zcap : json) (sourceZcapId stamp : string) :
    result json :=
  match findIndex (λ grant, bool_decide (zcap_id (zcap_of grant) = sourceZcapId)) (e_grants entry) with
  | None => Error "is no longer on the connections entry"
  | Some (sourceIndex, source) =>
      let scope := grantScopeKey (zcap_of source) in
      if decide (grantScopeKey zcap ≠ scope) then
        TypeError "must keep its controller, invocation target, and allowed actions"
      else if decide (assoc_get scope (latestPerScope (e_grants entry)) ≠ Some sourceIndex) then
        Error "is no longer the latest of its scope; a concurrent renewal superseded it"
      else if time_le (expiresAtOf zcap) (expiresAtOf (zcap_of source)) then
        Error "must expire strictly later than the record it renews"
      else Ok (JObj [("zcap", zcap); ("grantKind", JStr (string_member "grantKind" source));
                     ("grantedAt", JStr (string_member "grantedAt" source));
                     ("renewedAt", JStr stamp)])
  end.

Definition envelopeZcaps (message : json) : option (list json) :=
  match member "object" message with
  | Some (JObj object) => as_array (get_member "zcaps" object)
  | _ => None
  end.

Definition parsedZcapId (value : json) : option string :=
  zcap_id <$> parseConnectionZcap (Some value).

Definition assertEnvelopeCarries (message : json) (zcapIds : list string) : result () :=
  match envelopeZcaps message with
  | None | Some [] => TypeError "message must carry a non-empty object.zcaps list"
  | Some zcaps =>
      let messageIds := js_dedup (parsedZcapId <$> zcaps) in
      let recordedIds := js_dedup zcapIds in
      if bool_decide (length messageIds ≠ length recordedIds) ||
         existsb (λ id, match id with
                        | None => true
                        | Some id => negb (bool_decide (id ∈ recordedIds))
                        end) messageIds
      then TypeError "message's zcaps must be exactly the recorded zcaps"
      else Ok ()
  end.

Definition assertPairwiseSeed (seed seedTag : option string) : result () :=
  match seed, seedTag with
  | None, None => Ok ()
  | Some seed, Some seedTag =>
      if verifyConnectionSeedTag seed seedTag then Ok ()
      else TypeError "The connection seed's tag does not verify under this directory's key"
  | _, _ => TypeError "A connection seed is written with its tag, or not"
  end.

(** [{...value, k: v}] of a verbatim object. *)
Definition with_member (k : string) (v : json) (value : json) : json :=
  match value with JObj o => JObj (set_member k v o) | _ => value end.

(** Does a pending zcap stay beside the new envelope. *)
Definition stays (supersedes : json → bool) (value : json) : bool :=
  match parseConnectionZcap (Some value) with
  | None => true
  | Some zcap => negb (supersedes zcap)
  end.

(** One pending item once the zcaps the new envelope supersedes are gone. *)
Definition supersedeItem (supersedes : json → bool) (item : json) : option json :=
  let message := default JNull (member "message" item) in
  match envelopeZcaps message with
  | None => Some item
  | Some zcaps =>
      let kept := filter (λ value, stays supersedes value = true) zcaps in
      if decide (length kept = length zcaps) then Some item
      else if decide (kept = []) then None
      else Some (with_member "message"
             (with_member "object"
                (with_member "zcaps" (JArr kept) (default JNull (member "object" message)))
                message) item)
  end.

Definition outboxItem (message : json) (stamp : string) : json :=
  JObj [("message", message); ("createdAt", JStr stamp)].

Definition supersedeAndQueueEnvelope (outbox : list json) (message : json) (stamp : string)
    (supersedes : json → bool) : list json :=
  omap (supersedeItem supersedes) outbox ++ [outboxItem message stamp].
End Checks.

(** [{k: v}] where [v] is defined. *)
Definition declare (k : string) (v : option string) : members :=
  match v with Some v => [(k, JStr v)] | None => [] end.

(** ** The writes *)
Section Writes.
Context {host : JsHost} {base64 : Base64} {paths : ServerPaths} {key : DirectoryKey}.
Context {didKeys : DidKeys}.
Abbreviation Change := (ConnectionChange NoWrite).

(** *** [recordGrants] *)

Record RecordGrants := {
  rg_did : string;
  rg_kind : string;
  rg_spaceUrl : option string;
  rg_grants : list (json * string);
  rg_name : option string;
  rg_origin : option string;
  rg_url : option string;
  rg_appKey : option string;
  rg_seed : option string;
  rg_seedTag : option string;
  rg_message : option json;
  rg_unlessRetired : bool;
  rg_now : Z
}.

Definition grantRecord (zcap : json) (grantKind stamp : string) : json :=
  JObj [("zcap", zcap); ("grantKind", JStr grantKind); ("grantedAt", JStr stamp)].

(** The checked grants to record, one for each zcap id; [seen] are the ids so
    far. *)
Fixpoint recordedGrants (did kind stamp : string) (seen : list string)
    (grants : list (json * string)) : result (list json) :=
  match grants with
  | [] => Ok []
  | grant :: grants =>
      zcap ← checkedGrant did grant;
      (if decide (kind = REPLICA_SERVER_KIND) then assertPullGrantActions zcap else Ok ());;
      if decide (zcap_id zcap ∈ seen) then recordedGrants did kind stamp seen grants
      else
        recorded ← recordedGrants did kind stamp (zcap_id zcap :: seen) grants;
        Ok (grantRecord zcap grant.2 stamp :: recorded)
  end.

Definition declaredMembers (q : RecordGrants) : members :=
  declare "name" (rg_name q ≫= normalizeDisplayName) ++ declare "origin" (rg_origin q) ++
  declare "url" (rg_url q) ++ declare "appKey" (rg_appKey q).

(** The seed written beside an entry that has none. *)
Definition withSeed (seed seedTag : option string) (stored : option string) (body : members) :
    result members :=
  match seed with
  | None => Ok body
  | Some s =>
      match stored with
      | None => Ok (spread body (declare "seed" seed ++ declare "seedTag" seedTag))
      | Some held =>
          if decide (held = s) then Ok body
          else Error "The connections entry already carries a different pairwise seed"
      end
  end.

Definition recordGrantsChange (q : RecordGrants) (recorded : list json)
    (current : option WritableConnection) : result Change :=
  let stored := wc_entry <$> current in
  let stamp := toISOString (rg_now q) in
  match stored with
  | Some entry => assertKind entry (rg_kind q)
  | None => Ok ()
  end;;
  if match stored with
     | Some entry => rg_unlessRetired q && bool_decide (is_Some (e_retired entry))
     | None => false
     end
  then Ok (Stop_ Unchanged)
  else
    match rg_spaceUrl q with
    | None => Ok ()
    | Some spaceUrl =>
        spaceUrls ← accountContainerUrls stored spaceUrl;
        forM_ (λ grant, assertTargetInSpaces (zcap_of grant) spaceUrls) recorded
    end;;
    let held := (λ grant, zcap_id (zcap_of grant)) <$> from_option e_grants [] stored in
    let body :=
      match current with
      | None =>
          spread (newConnectionEntry (rg_kind q) (rg_did q) (rg_now q))
            (declaredMembers q ++ [("grants", JArr recorded)])
      | Some current =>
          delete_member "declined" (delete_member "retired"
            (spread (wc_body current)
               (declaredMembers q ++
                [("lastSeen", JStr stamp);
                 ("grants", JArr (e_grants (wc_entry current) ++
                    filter (λ grant, zcap_id (zcap_of grant) ∉ held) recorded))])))
      end in
    body ← withSeed (rg_seed q) (rg_seedTag q) (stored ≫= e_seed) body;
    Ok (Write (match rg_message q with
      | None => body
      | Some message =>
          set_member "outbox"
            (JArr (supersedeAndQueueEnvelope (from_option e_outbox [] stored) message stamp
               (λ zcap, bool_decide (zcap_id zcap ∈ (zcap_id ∘ zcap_of <$> recorded))))) body
      end)).

(** The checks [recordGrants] makes before it reads anything. *)
Definition recordGrantsPrepare (q : RecordGrants) : result (list json) :=
  assertPairwiseSeed (rg_seed q) (rg_seedTag q);;
  (if negb (bool_decide (rg_grants q = [])) && bool_decide (rg_spaceUrl q = None)
   then TypeError "A grant to record needs the account Space's container URL" else Ok ());;
  recorded ← recordedGrants (rg_did q) (rg_kind q) (toISOString (rg_now q)) [] (rg_grants q);
  match rg_message q with
  | None => Ok ()
  | Some message =>
      assertEnvelopeCarries message ((λ grant, zcap_id (zcap_of grant)) <$> recorded)
  end;;
  Ok recorded.

Definition recordGrants {W} (store : ConnectionsStore W) (q : RecordGrants) :
    comp W (WriteOutcome NoWrite) :=
  recorded ← lift (recordGrantsPrepare q);
  writePartyConnection store (rg_did q) (recordGrantsChange q recorded).

(** *** [removeGrants], [retireConnection] and [unretireConnection] *)

Definition removeGrantsChange (zcapIds : list string) (current : option WritableConnection) :
    result Change :=
  match current with
  | None => Ok (Stop_ Absent)
  | Some current =>
      let grants := e_grants (wc_entry current) in
      let kept := filter (λ grant, zcap_id (zcap_of grant) ∉ zcapIds) grants in
      if decide (length kept = length grants) then Ok (Stop_ Unchanged)
      else Ok (Write (set_member "grants" (JArr kept) (wc_body current)))
  end.

Definition removeGrants {W} (store : ConnectionsStore W) (did : string) (zcapIds : list string) :
    comp W (WriteOutcome NoWrite) :=
  writePartyConnection store did (removeGrantsChange zcapIds).

Definition retireConnectionChange (handled : list string) (spaceUrl : option string) (now : Z)
    (current : option WritableConnection) : result Change :=
  match current with
  | None => Ok (Stop_ Absent)
  | Some current =>
      let entry := wc_entry current in
      partyGrants ← match spaceUrl with
                    | None => Ok []
                    | Some spaceUrl => connectionGrants entry spaceUrl
                    end;
      let unhandled := filter (λ grant, g_zcapId grant ∉ handled) (partyGrants : list _) in
      if decide (unhandled ≠ []) then Error "grant(s) this revocation did not handle"
      else if decide (e_replicas entry ≠ []) then Error "still lists replica Space(s)"
      else if bool_decide (is_Some (e_retired entry)) && bool_decide (e_grants entry = []) &&
              bool_decide (e_grantsReceived entry = []) && bool_decide (e_outbox entry = []) &&
              bool_decide (e_appKey entry = None)
      then Ok (Stop_ Unchanged)
      else
        Ok (Write (delete_member "appKey"
          (spread (wc_body current)
             [("grants", JArr []); ("grantsReceived", JArr []); ("outbox", JArr []);
              ("retired", JStr (default (toISOString now) (e_retired entry)))])))
  end.

Definition retireConnection {W} (store : ConnectionsStore W) (did : string) (handled : list string)
    (spaceUrl : option string) (now : Z) : comp W (WriteOutcome NoWrite) :=
  writePartyConnection store did (retireConnectionChange handled spaceUrl now).

Definition unretireConnectionChange (kind : string) (now : Z)
    (current : option WritableConnection) : result Change :=
  match current with
  | None => Ok (Stop_ Absent)
  | Some current =>
      assertKind (wc_entry current) kind;;
      match e_retired (wc_entry current) with
      | None => Ok (Stop_ Unchanged)
      | Some _ =>
          Ok (Write (delete_member "retired"
            (set_member "lastSeen" (JStr (toISOString now)) (wc_body current))))
      end
  end.

Definition unretireConnection {W} (store : ConnectionsStore W) (did kind : string) (now : Z) :
    comp W (WriteOutcome NoWrite) :=
  writePartyConnection store did (unretireConnectionChange kind now).

(** *** [setConnectionLabel] *)

Record SetLabel := {
  sl_did : string;
  sl_kind : string;
  sl_label : option string;
  sl_name : option string;
  sl_enrolledSigningKeys : option (list string);
  sl_now : Z
}.

Definition setLabelChange (q : SetLabel) (trimmedLabel normalizedLabel normalizedName : option string)
    (current : option WritableConnection) : result Change :=
  match current with
  | None =>
      match signingKeyMultibaseOfDid (sl_did q) with
      | Some multibase =>
          if bool_decide (sl_kind q = "wallet-client") &&
             bool_decide (multibase ∈ default [] (sl_enrolledSigningKeys q))
          then Ok (Write (spread (newConnectionEntry (sl_kind q) (sl_did q) (sl_now q))
                 (declare "name" normalizedName ++ declare "label" normalizedLabel)))
          else Error "No connections entry stands for this party"
      | None => Error "No connections entry stands for this party"
      end
  | Some current =>
      assertKind (wc_entry current) (sl_kind q);;
      let body := match trimmedLabel, normalizedLabel with
                  | None, _ => wc_body current
                  | Some _, Some label => set_member "label" (JStr label) (wc_body current)
                  | Some _, None => delete_member "label" (wc_body current)
                  end in
      let body := match normalizedName with
                  | Some name => set_member "name" (JStr name) body
                  | None => body
                  end in
      if bool_decide (get_member "label" body = get_member "label" (wc_body current)) &&
         bool_decide (get_member "name" body = get_member "name" (wc_body current))
      then Ok (Stop_ Unchanged)
      else Ok (Write body)
  end.

(** The label as given, trimmed; then normalized when it is not empty. *)
Definition checkedLabel (label : option string) : result (option string * option string) :=
  let trimmed := trim <$> label in
  match trimmed with
  | None | Some EmptyString => Ok (trimmed, None)
  | Some text =>
      match normalizeDisplayName text with
      | Some normalized => Ok (trimmed, Some normalized)
      | None => TypeError "A label is 1 to 64 code points"
      end
  end.

Definition setConnectionLabel {W} (store : ConnectionsStore W) (q : SetLabel) :
    comp W (WriteOutcome NoWrite) :=
  labels ← lift (checkedLabel (sl_label q));
  writePartyConnection store (sl_did q)
    (setLabelChange q labels.1 labels.2 (sl_name q ≫= normalizeDisplayName)).
End Writes.
