(* ===== verification/ConnReceived.v ===== *)
(** * The agent side of the directory's writes

    The rest of [src/src/connections/upsert.ts]: the capabilities a party
    handed the wallet, the renewals of its own grants, the outbox, and the
    prune of superseded records. *)

From Stdlib Require Import Ascii.
From S2P Require Import Prelude Json JsText ConnEntry ConnGrants ConnStore ConnUpsert.

(** ** [STRICT_ISO_8601] *)

Definition is_digit (a : ascii) : bool := (N.leb 48 (byte a)) && (N.leb (byte a) 57).
Definition is_char (c : ascii) (a : ascii) : bool := bool_decide (a = c).

(** A fixed-width pattern, and what is left after it. *)
Fixpoint eat (pattern : list (ascii → bool)) (s : string) : option string :=
  match pattern, s with
  | [], _ => Some s
  | p :: pattern, String a s => if p a then eat pattern s else None
  | _ :: _, EmptyString => None
  end.

Definition dash : ascii := "-".
Definition colon : ascii := ":".
Definition upperT : ascii := "T".
Definition upperZ : ascii := "Z".
Definition plus_sign : ascii := "+".
Definition dot : ascii := ".".

Definition date_time : list (ascii → bool) :=
  [is_digit; is_digit; is_digit; is_digit; is_char dash; is_digit; is_digit; is_char dash;
   is_digit; is_digit; is_char upperT; is_digit; is_digit; is_char colon; is_digit; is_digit;
   is_char colon; is_digit; is_digit].
Definition offset_pattern : list (ascii → bool) :=
  [λ a, is_char plus_sign a || is_char dash a; is_digit; is_digit; is_char colon; is_digit; is_digit].

(** [(Z|[+-]\d{2}:\d{2})$] *)
Definition is_zone (s : string) : bool :=
  bool_decide (eat [is_char upperZ] s = Some EmptyString) ||
  bool_decide (eat offset_pattern s = Some EmptyString).

(** [\d*] *)
Fixpoint skip_digits (s : string) : string :=
  match s with
  | String a s' => if is_digit a then skip_digits s' else s
  | EmptyString => s
  end.

Definition STRICT_ISO_8601 (s : string) : bool :=
  match eat date_time s with
  | None => false
  | Some rest =>
      is_zone rest ||
      match eat [is_char dot; is_digit] rest with
      | Some rest => is_zone (skip_digits rest)
      | None => false
      end
  end.

Section Received.
Context {host : JsHost} {base64 : Base64} {paths : ServerPaths} {key : DirectoryKey}.
Abbreviation Change := (ConnectionChange NoWrite).

(** ** [recordReceivedGrants] *)

Record RecordReceived := {
  rr_did : string;
  rr_pairwiseDid : string;
  rr_spaceUrl : string;
  rr_grants : list (json * string);
  rr_channelMaxLifetimeMs : Z;
  rr_now : Z
}.

Definition receivedRecord (zcap : json) (grantKind stamp : string) : json :=
  JObj [("zcap", zcap); ("grantKind", JStr grantKind); ("receivedAt", JStr stamp)].

Definition checkedReceived (q : RecordReceived) (grant : json * string) : result json :=
  zcap ← requiredConnectionZcap grant.1;
  if decide (zcap_controller zcap ≠ rr_pairwiseDid q) then
    TypeError "A received grant must be delegated to the pairwise DID"
  else
    inside ← isTargetInSpace (zcap_target zcap) (rr_spaceUrl q);
    if inside : bool then TypeError "A received grant must target the party, not this Space"
    else if decide (grant.2 ∉ RECEIVED_GRANT_KINDS) then TypeError "Unknown received grant kind"
    else if bool_decide (grant.2 = "inbox") && negb (allowsAction (zcap_actions zcap) "POST") then
      TypeError "An inbox grant must allow POST"
    else if negb (STRICT_ISO_8601 (zcap_expires zcap)) then
      TypeError "A received grant's expires must be an ISO 8601 date-time"
    else Ok (receivedRecord zcap grant.2 (toISOString (rr_now q))).

(** A merged record with its identity: the position of the stored object it
    is, or [None] for a fresh one. *)
Definition Merged : Type := list (option nat * json).

Definition time_lt (a b : option Z) : bool :=
  match a, b with Some a, Some b => (a <? b)%Z | _, _ => false end.

Definition sameChannel (record held : json) : bool :=
  bool_decide (string_member "grantKind" held = string_member "grantKind" record) &&
  bool_decide (zcap_target (zcap_of held) = zcap_target (zcap_of record)).

(** One incoming record merged into the list. *)
Definition mergeOne (now maxLifetimeMs : Z) (merged : Merged) (record : json) : Merged :=
  if existsb (λ held, bool_decide (zcap_id (zcap_of held.2) = zcap_id (zcap_of record))) merged
  then merged
  else match findIndex (λ held, sameChannel record held.2) merged with
  | None => merged ++ [(None, record)]
  | Some (index, held) =>
      if time_lt (expiresAtOf (zcap_of held.2)) (expiresAtOf (zcap_of record)) ||
         receivedGrantLapsed (zcap_expires (zcap_of held.2)) (string_member "receivedAt" held.2)
           now maxLifetimeMs
      then <[index := (None, record)]> merged
      else merged
  end.

Definition recordReceivedChange (q : RecordReceived) (incoming : list json)
    (current : option WritableConnection) : result Change :=
  match current with
  | None => Ok (Stop_ Absent)
  | Some current =>
      let entry := wc_entry current in
      match e_retired entry with
      | Some _ => Error "The connections entry is retired; it records no received grants"
      | None =>
          let stored := imap (λ i record, (Some i, record)) (e_grantsReceived entry) in
          let merged := foldl (mergeOne (rr_now q) (rr_channelMaxLifetimeMs q)) stored incoming in
          let kept := filter (λ record, expiredBeyondSkew (zcap_of record.2) (rr_now q) = false)
                        merged in
          if bool_decide (length kept = length (e_grantsReceived entry)) &&
             bool_decide (fst <$> kept = Some <$> seq 0 (length kept))
          then Ok (Stop_ Unchanged)
          else Ok (Write (set_member "grantsReceived" (JArr (snd <$> kept)) (wc_body current)))
      end
  end.

Definition recordReceivedGrants {W} (store : ConnectionsStore W) (q : RecordReceived) :
    comp W (WriteOutcome NoWrite) :=
  incoming ← lift (mapM (checkedReceived q) (rr_grants q));
  writePartyConnection store (rr_did q) (recordReceivedChange q incoming).

(** ** [recordRenewedGrants] *)

Record RecordRenewed := {
  rn_did : string;
  rn_pairwiseDid : string;
  rn_spaceUrl : string;
  rn_renewals : list (json * string);
  rn_message : json;
  rn_channelMaxLifetimeMs : Z;
  rn_now : Z
}.

Definition checkedRenewal (q : RecordRenewed) (renewal : json * string) : result (json * string) :=
  zcap ← checkedDelegatedZcap (rn_did q) renewal.1;
  assertTargetInSpaces zcap [rn_spaceUrl q];;
  Ok (zcap, renewal.2).

Definition recordRenewedPrepare (q : RecordRenewed) : result (list (json * string)) :=
  (if decide (rn_renewals q = []) then
     TypeError "A renewal write needs at least one renewed grant" else Ok ());;
  renewed ← mapM (checkedRenewal q) (rn_renewals q);
  (if decide (length (js_dedup (renewed : list (json * string)).*2) ≠ length renewed) then
     TypeError "Each renewed grant must renew a different record" else Ok ());;
  assertEnvelopeCarries (rn_message q) (zcap_id <$> renewed.*1);;
  Ok renewed.

Definition recordRenewedChange (q : RecordRenewed) (renewed : list (json * string))
    (current : option WritableConnection) : result Change :=
  match current with
  | None => Ok (Stop_ Absent)
  | Some current =>
      let entry := wc_entry current in
      let stamp := toISOString (rn_now q) in
      match e_retired entry with
      | Some _ => Error "The connections entry is retired; its grants are not renewed"
      | None =>
          received ← receivedGrants entry (rn_pairwiseDid q) (rn_spaceUrl q);
          match liveInboxChannel received (rn_now q) (rn_channelMaxLifetimeMs q) with
          | None => Error "The connections entry holds no live inbox channel"
          | Some _ =>
              appended ← mapM (λ renewal, renewedGrantRecord entry renewal.1 renewal.2 stamp) renewed;
              Ok (Write (spread (wc_body current)
                [("grants", JArr (e_grants entry ++ appended));
                 ("outbox", JArr (supersedeAndQueueEnvelope (e_outbox entry) (rn_message q) stamp
                    (λ zcap, bool_decide
                       (grantScopeKey zcap ∈ (grantScopeKey ∘ fst <$> renewed)))))]))
          end
      end
  end.

Definition recordRenewedGrants {W} (store : ConnectionsStore W) (q : RecordRenewed) :
    comp W (WriteOutcome NoWrite) :=
  renewed ← lift (recordRenewedPrepare q);
  writePartyConnection store (rn_did q) (recordRenewedChange q renewed).

(** ** The outbox, the prune and the small writes *)

(** Writes a list member back without the elements [keep] drops. *)
Definition settleOutboxChange (createdAt : string) (current : option WritableConnection) :
    result Change :=
  match current with
  | None => Ok (Stop_ Absent)
  | Some current =>
      let outbox := e_outbox (wc_entry current) in
      let kept := filter (λ item, member "createdAt" item ≠ Some (JStr createdAt)) outbox in
      if decide (length kept = length outbox) then Ok (Stop_ Unchanged)
      else Ok (Write (set_member "outbox" (JArr kept) (wc_body current)))
  end.

Definition settleOutboxItem {W} (store : ConnectionsStore W) (did createdAt : string) :
    comp W (WriteOutcome NoWrite) :=
  writePartyConnection store did (settleOutboxChange createdAt).

(** A grant record the prune keeps, by its position. *)
Definition prunedAway (latest : list nat) (deadChains : list string) (now : Z)
    (grant : nat * json) : bool :=
  negb (bool_decide (grant.1 ∈ latest)) &&
  (expiredBeyondSkew (zcap_of grant.2) now || bool_decide (zcap_id (zcap_of grant.2) ∈ deadChains)).

(** A pending item none of whose capabilities is worth delivering. *)
Definition deadItem (now : Z) (item : json) : bool :=
  match envelopeZcaps (default JNull (member "message" item)) with
  | None | Some [] => false
  | Some zcaps => forallb (λ value, match parseConnectionZcap (Some value) with
                                    | Some zcap => expiredBeyondSkew zcap now
                                    | None => false
                                    end) zcaps
  end.

Definition pruneSupersededChange (deadChains : list string) (now : Z)
    (current : option WritableConnection) : result Change :=
  match current with
  | None => Ok (Stop_ Absent)
  | Some current =>
      let entry := wc_entry current in
      let latest := snd <$> latestPerScope (e_grants entry) in
      let grants := snd <$> filter (λ grant, prunedAway latest deadChains now grant = false)
                              (imap pair (e_grants entry)) in
      let outbox := filter (λ item, deadItem now item = false) (e_outbox entry) in
      if bool_decide (length grants = length (e_grants entry)) &&
         bool_decide (length outbox = length (e_outbox entry))
      then Ok (Stop_ Unchanged)
      else Ok (Write (spread (wc_body current) [("grants", JArr grants); ("outbox", JArr outbox)]))
  end.

Definition pruneSupersededGrants {W} (store : ConnectionsStore W) (did : string)
    (deadChains : list string) (now : Z) : comp W (WriteOutcome NoWrite) :=
  writePartyConnection store did (pruneSupersededChange deadChains now).

Definition clearReceivedChange (current : option WritableConnection) : result Change :=
  match current with
  | None => Ok (Stop_ Absent)
  | Some current =>
      if bool_decide (e_grantsReceived (wc_entry current) = []) &&
         bool_decide (e_outbox (wc_entry current) = [])
      then Ok (Stop_ Unchanged)
      else Ok (Write (spread (wc_body current) [("grantsReceived", JArr []); ("outbox", JArr [])]))
  end.

Definition clearReceivedGrants {W} (store : ConnectionsStore W) (did : string) :
    comp W (WriteOutcome NoWrite) :=
  writePartyConnection store did clearReceivedChange.

Definition dropReceivedChange (zcapId : string) (current : option WritableConnection) :
    result Change :=
  match current with
  | None => Ok (Stop_ Absent)
  | Some current =>
      let received := e_grantsReceived (wc_entry current) in
      let kept := filter (λ record, zcap_id (zcap_of record) ≠ zcapId) received in
      if decide (length kept = length received) then Ok (Stop_ Unchanged)
      else Ok (Write (set_member "grantsReceived" (JArr kept) (wc_body current)))
  end.

Definition dropReceivedGrant {W} (store : ConnectionsStore W) (did zcapId : string) :
    comp W (WriteOutcome NoWrite) :=
  writePartyConnection store did (dropReceivedChange zcapId).

Definition markDeclinedChange (now : Z) (current : option WritableConnection) : result Change :=
  match current with
  | None => Ok (Stop_ Absent)
  | Some current =>
      match e_declined (wc_entry current) with
      | Some _ => Ok (Stop_ Unchanged)
      | None => Ok (Write (set_member "declined" (JStr (toISOString now)) (wc_body current)))
      end
  end.

Definition markDeclined {W} (store : ConnectionsStore W) (did : string) (now : Z) :
    comp W (WriteOutcome NoWrite) :=
  writePartyConnection store did (markDeclinedChange now).
End Received.

(** * Every directory write is a compare-and-swap

    What [writeConnection] puts on the wire: at most three rounds of a read
    and a write conditional on exactly that read. *)

Inductive store_event :=
  | EvGet (answer : result (option (json * option string)))
  | EvPut (req : PutConnection) (answer : result (option string)).

Section Traced.
Context {W : Type}.

Definition recorded_call {A} (ev : result A → store_event) (c : comp W A) :
    comp (W * list store_event) A :=
  λ '(w, t), let '(r, w') := c w in (r, (w', t ++ [ev r])).

(** A store over a world that also records the reads and writes made of it. *)
Definition tracedConnections (store : ConnectionsStore W) :
    ConnectionsStore (W * list store_event) := {|
  store_list := λ '(w, t), let '(r, w') := store_list store w in (r, (w', t));
  store_get id := recorded_call EvGet (store_get store id);
  store_put req := recorded_call (EvPut req) (store_put store req)
|}.
End Traced.

Section Race.
Context {host : JsHost} {base64 : Base64} {key : DirectoryKey}.
Context {W Stop : Type} (store : ConnectionsStore W) (resourceId : string).
Context (change : option WritableConnection → result (ConnectionChange Stop)).
Context (unwritable : option Stop).

(** What one attempt decides over what it read. *)
Definition decided (stored : option (json * option string)) : result (ConnectionChange Stop) :=
  match stored with
  | None => change None
  | Some (body, etag) =>
      match writableConnection resourceId body etag with
      | Ok current => change (Some current)
      | Throw err => match unwritable with None => Throw err | Some stop => Ok (Stop_ stop) end
      end
  end.

(** The write an attempt makes of its decision: create-only over nothing, and
    over the validator that came with the very body it was computed from. *)
Inductive conditional_put : option (json * option string) → PutConnection → Prop :=
  | put_create body : decided None = Ok (Write body) →
      conditional_put None {| pc_resourceId := resourceId; pc_body := body; pc_ifMatch := None;
                              pc_ifNoneMatch := true |}
  | put_update stored etag body : decided (Some (stored, Some etag)) = Ok (Write body) →
      conditional_put (Some (stored, Some etag))
        {| pc_resourceId := resourceId; pc_body := body; pc_ifMatch := Some etag;
           pc_ifNoneMatch := false |}.

(** A round another writer won. *)
Inductive lost_round : list store_event → Prop :=
  | lost stored req err : conditional_put stored req → isLostConnectionRace err = true →
      lost_round [EvGet (Ok stored); EvPut req (Throw err)].

(** The last round, by the call's outcome. *)
Inductive last_round : result (WriteOutcome Stop) → list store_event → Prop :=
  | last_created req ack : conditional_put None req →
      last_round (Ok Created) [EvGet (Ok None); EvPut req (Ok ack)]
  | last_updated stored req ack : conditional_put (Some stored) req →
      last_round (Ok Updated) [EvGet (Ok (Some stored)); EvPut req (Ok ack)]
  | last_stopped stored stop : decided stored = Ok (Stop_ stop) →
      last_round (Ok (Stopped stop)) [EvGet (Ok stored)]
  | last_unread err : last_round (Throw err) [EvGet (Throw err)]
  | last_refused stored err : decided stored = Throw err →
      last_round (Throw err) [EvGet (Ok stored)]
  | last_unversioned stored body err : decided (Some (stored, None)) = Ok (Write body) →
      requireConnectionEtag None = Throw err →
      last_round (Throw err) [EvGet (Ok (Some (stored, None)))]
  | last_failed stored req err : conditional_put stored req → isLostConnectionRace err = false →
      last_round (Throw err) [EvGet (Ok stored); EvPut req (Throw err)].
#[local] Hint Constructors conditional_put last_round lost_round : core.

(** The error the last lost round threw. *)
Definition raceError (lastRace : js_error) (races : list (list store_event)) : js_error :=
  match last races with
  | Some [_; EvPut _ (Throw err)] => err
  | _ => lastRace
  end.

(** Lost rounds, then the round that settles the call, or as many lost rounds
    as there are attempts. *)
Inductive ends (r : result (WriteOutcome Stop)) (attempts : nat) (lastRace : js_error)
    (calls : list store_event) : Prop :=
  | ends_settled races final : Forall lost_round races → calls = concat races ++ final →
      length races < attempts → last_round r final → ends r attempts lastRace calls
  | ends_exhausted races : Forall lost_round races → calls = concat races →
      length races = attempts → r = Throw (raceError lastRace races) → ends r attempts lastRace calls.

Lemma ends_last r attempts lastRace calls : last_round r calls → ends r (S attempts) lastRace calls.
Proof. intros Hl. eapply (ends_settled _ _ _ _ [] calls); [constructor|done|simpl; lia|done]. Qed.

Lemma ends_lost r attempts lastRace stored req err calls :
  conditional_put stored req → isLostConnectionRace err = true → ends r attempts err calls →
  ends r (S attempts) lastRace (EvGet (Ok stored) :: EvPut req (Throw err) :: calls).
Proof.
  intros Hc Hl H. set (round := [EvGet (Ok stored); EvPut req (Throw err)]).
  assert (lost_round round) as Hround by (by constructor).
  destruct H as [races final Hr -> Hn Hf|races Hr -> Hn ->].
  - eapply (ends_settled _ _ _ _ (round :: races) final); [by constructor|done|simpl; lia|done].
  - eapply (ends_exhausted _ _ _ _ (round :: races)); [by constructor|done|simpl; lia|].
    f_equal. unfold raceError. destruct races as [|r1 races]; [done|]. rewrite last_cons_cons.
    destruct (last (r1 :: races)) eqn:Hlast; [|by apply last_None in Hlast].
    apply last_Some in Hlast as [? Hlast]. rewrite Hlast in Hr.
    apply Forall_app in Hr as [_ [H _]%Forall_cons]. by destruct H.
Qed.

Lemma writableConnection_etag body etag current :
  writableConnection resourceId body etag = Ok current → wc_etag current = etag.
Proof.
  unfold writableConnection. intros H. repeat case_match; by simplify_eq.
Qed.

(** What a call over the traced store leaves: the same result, and the calls
    it appended. *)
Definition leaves {A} (c : comp (W * list store_event) A) (w : W * list store_event)
    (Q : result A → list store_event → Prop) : Prop :=
  ∃ calls, (c w).2.2 = w.2 ++ calls ∧ Q (c w).1 calls.

(** The rest of an attempt that writes [req]. *)
#[local] Ltac put_round IH req :=
  destruct (store_put store req _) as [[ack|err] w2]; simpl;
  [ eexists; split; [by rewrite <-app_assoc|]; apply ends_last; by constructor
  | destruct (isLostConnectionRace err) eqn:Hlost; simpl;
    [ edestruct IH as (calls&Hcalls&Hends);
      eexists (_ :: _ :: calls); split; [rewrite Hcalls; simpl; by rewrite <-!app_assoc|];
      apply ends_lost; [done..|]; exact Hends
    | eexists; split; [by rewrite <-app_assoc|]; apply ends_last; by constructor ] ].

Lemma writeAttempts_ends attempts lastRace w :
  leaves (writeAttempts (tracedConnections store) resourceId (λ c, lift (change c)) unwritable
            attempts lastRace) w (λ r calls, ends r attempts lastRace calls).
Proof.
  unfold leaves. revert lastRace w. induction attempts as [|n IH]; intros lastRace [w t].
  { exists []. rewrite app_nil_r. split; [done|]. by eapply (ends_exhausted _ _ _ _ []). }
  cbn [writeAttempts]. unfold readCurrent, mbind, comp_bind, recorded_call. simpl.
  destruct (store_get store resourceId w) as [[stored|e] w1]; simpl.
  2:{ exists [EvGet (Throw e)]. split; [done|]. by apply ends_last. }
  assert (∀ r, last_round r [EvGet (Ok stored)] →
    ∃ calls, t ++ [EvGet (Ok stored)] = t ++ calls ∧ ends r (S n) lastRace calls) as Hsettled.
  { intros r Hr. eexists. split; [done|]. by apply ends_last. }
  destruct stored as [[body etag]|]; simpl.
  - destruct (writableConnection resourceId body etag) as [current|err] eqn:Hw; simpl.
    + pose proof (writableConnection_etag _ _ _ Hw) as He.
      destruct (change (Some current)) as [[next|stop]|err] eqn:Hc; simpl.
      * unfold try_catch, putChange, comp_bind, mbind, lift. rewrite He.
        destruct etag as [etag|]; simpl;
          [|apply Hsettled; eapply last_unversioned; [|done]; simpl; by rewrite Hw].
        set (req := {| pc_body := next |}).
        assert (conditional_put (Some (body, Some etag)) req) by (constructor; simpl; by rewrite Hw).
        put_round IH req.
      * apply Hsettled. constructor. simpl. by rewrite Hw.
      * apply Hsettled. constructor. simpl. by rewrite Hw.
    + destruct unwritable eqn:Hu; simpl; apply Hsettled; constructor; simpl; by rewrite Hw, ?Hu.
  - destruct (change None) as [[next|stop]|err] eqn:Hc; simpl; [|apply Hsettled; by constructor..].
    unfold try_catch, putChange, comp_bind, mbind, lift. simpl.
    set (req := {| pc_body := next |}).
    assert (conditional_put None req) by (by constructor).
    put_round IH req.
Qed.
End Race.

(** Every directory write is a compare-and-swap. Over any store, whatever
    other writers do between a read and a write, and for any decision
    [change], a call makes at most three rounds; each is one read and at most
    one write, of the body decided over exactly what that round read: create-only
    over an absent resource, conditional on the validator read with the body
    otherwise. Every round before the last was lost to another writer's
    accepted write; the call reports [Created] or [Updated] only after its own
    write was accepted, stops or refuses without writing, and throws the last
    lost race's own error when all three rounds are lost. *)
Theorem write_is_compare_and_swap {W Stop} `{!JsHost} `{!Base64} `{!DirectoryKey}
    (store : ConnectionsStore W) resourceId
    (change : option WritableConnection → result (ConnectionChange Stop)) unwritable w :
  leaves (writeConnection (tracedConnections store) resourceId (λ current, lift (change current))
            unwritable) w
    (λ r calls, ends resourceId change unwritable r 3 (JsError "undefined" "") calls).
Proof. apply writeAttempts_ends. Qed.
