(* ===== verification/ConnWriters.v ===== *)
(** * Writer members

    [src/src/connections/writers.ts]: registering the app's own browser
    context as a writer, touching its member, the inactivity sweep, and the
    resolution of a writer to its label. *)

From S2P Require Import Prelude Json JsText ConnEntry ConnStore ConnUpsert.

(** ** Seams *)

Record WriterFirstSeenRecord := {
  fs_accountDid : string;
  fs_writerId : string;
  fs_firstSessionAt : string;
  fs_lastTouchedAt : option string
}.

(** The device's record of its first session under this writer id. *)
Record WriterFirstSeenStore (W : Type) := {
  fs_get : comp W (option json);
  fs_put : WriterFirstSeenRecord → comp W ()
}.
Arguments fs_get {W}.
Arguments fs_put {W}.

Inductive WriterRegistrationOutcome :=
  | deferred | fresh | registered | touched | raced | unlisted | retired | kind_mismatch | refused.

Inductive WriterTouchOutcome :=
  | touch_unregistered | touch_retired | touch_fresh | touch_touched | touch_refused | touch_raced.

#[export] Instance WriterRegistrationOutcome_eq_dec : EqDecision WriterRegistrationOutcome.
Proof. solve_decision. Defined.

(** ** Members *)

Definition writer_id (writer : json) : string := string_member "writerId" writer.
Definition writer_label (writer : json) : string := string_member "label" writer.
Definition writer_active (writer : json) : bool :=
  match member "active" writer with Some (JBool b) => b | _ => false end.

(** The members of a JSON object. *)
Definition object_members (value : json) : members := default [] (as_object (Some value)).

Section Writers.
Context {host : JsHost}.

Definition effectiveLastSeen (writer : json) (now : Z) : option Z :=
  (λ at_, Z.min at_ now) <$> date_parse (string_member "lastSeen" writer).

(** [newestFirst]'s comparison is negative: [left] sorts before [right]. *)
Definition newer (now : Z) (left right : json) : bool :=
  match effectiveLastSeen left now, effectiveLastSeen right now with
  | Some l, Some r => if decide (l = r) then js_lt (writer_id left) (writer_id right) else (r <? l)%Z
  | _, _ => js_lt (writer_id left) (writer_id right)
  end.

(** The sort is stable; a member keeps its position in the entry as its
    identity. *)
Definition not_older (now : Z) (left right : nat * json) : Prop := newer now right.2 left.2 = false.
#[export] Instance not_older_dec now l r : Decision (not_older now l r).
Proof. unfold not_older. apply _. Defined.

Definition newestFirst (writers : list json) (now : Z) : list (nat * json) :=
  merge_sort (not_older now) (imap pair writers).

(** The positions of the newest [n] members. *)
Definition newestIndices (writers : list json) (now n : Z) : list nat :=
  (take (Z.to_nat (Z.max n 0)) (newestFirst writers now)).*1.

Definition ownMember (writerId label : string) (now : Z) : json :=
  JObj [("writerId", JStr writerId); ("label", JStr label); ("lastSeen", JStr (toISOString now));
        ("active", JBool true)].

Definition touch (now : Z) (writer : json) : json :=
  with_member "active" (JBool true) (with_member "lastSeen" (JStr (toISOString now)) writer).

Definition touchedWriters (writers : list json) (member : nat) (now : Z) : list json :=
  imap (λ i writer, if decide (i = member) then touch now writer else writer) writers.

(** [writers.find(writer => writer.writerId === writerId)], with its position. *)
Definition findWriter (writers : list json) (writerId : string) : option (nat * json) :=
  findIndex (λ writer, bool_decide (writer_id writer = writerId)) writers.

Definition parseFirstSeenRecord (body : option json) : option WriterFirstSeenRecord :=
  o ← as_object body;
  accountDid ← as_string (get_member "accountDid" o);
  writerId ← as_string (get_member "writerId" o);
  firstSessionAt ← as_timestamp (get_member "firstSessionAt" o);
  lastTouchedAt ← optional as_timestamp (get_member "lastTouchedAt" o);
  Some {| fs_accountDid := accountDid; fs_writerId := writerId;
          fs_firstSessionAt := firstSessionAt; fs_lastTouchedAt := lastTouchedAt |}.

(** The members an own member that is not listed yet joins. *)
Definition admitWriter (writers : list json) (own : json) (now maxWriters : Z) : list json :=
  let kept := newestIndices writers now (maxWriters - 1) in
  (filter (λ writer, writer.1 ∈ kept) (imap pair writers)).*2 ++ [own].

(** The change, and whether it adds the member. *)
Definition withOwnWriter (current : option WritableConnection) (did writerId label : string)
    (listedInDocument : bool) (now : Z) (policy : ConnectionWriterPolicy) :
    ConnectionChange WriterRegistrationOutcome * bool :=
  let own := ownMember writerId label now in
  match current with
  | None =>
      if listedInDocument then
        (Write (spread (newConnectionEntry "wallet-client" did now)
                  [("name", JStr label); ("writers", JArr [own])]), true)
      else (Stop_ unlisted, false)
  | Some current =>
      let entry := wc_entry current in
      if decide (e_kind entry ≠ "wallet-client") then (Stop_ kind_mismatch, false)
      else if bool_decide (is_Some (e_retired entry)) && negb listedInDocument
      then (Stop_ retired, false)
      else
        let existing := findWriter (e_writers entry) writerId in
        let writers :=
          match existing with
          | Some (index, _) => touchedWriters (e_writers entry) index now
          | None => admitWriter (e_writers entry) own now (maxWriters policy)
          end in
        (Write (delete_member "retired"
           (spread (wc_body current)
              [("lastSeen", JStr (toISOString now)); ("writers", JArr writers)])),
         bool_decide (existing = None))
  end.

(** ** [registerConnectionWriter] *)
Section Register.
Context {base64 : Base64} {key : DirectoryKey} {W : Type}.

(** A write whose error may be another writer's. *)
Definition racedAs {V Stop} (raced_ : Stop) (write : comp V (WriteOutcome Stop)) :
    comp V (WriteOutcome Stop) :=
  try_catch write
    (λ err, if isLostConnectionRace err then mret (Stopped raced_) else mthrow err).

(** The store, beside the function's local variable [written]. *)
Definition withLocal {L} (store : ConnectionsStore W) : ConnectionsStore (W * L) :=
  let keep {A} (c : comp W A) : comp (W * L) A := λ '(w, l), let '(r, w') := c w in (r, (w', l)) in {|
    store_list := keep (store_list store);
    store_get id := keep (store_get store id);
    store_put req := keep (store_put store req)
  |}.

(** Runs over the local variable's first value, with its last one. *)
Definition localVariable {L A} (l : L) (c : comp (W * L) A) : comp W (A * L) := λ w,
  match c (w, l) with
  | (Ok a, (w', l')) => (Ok (a, l'), w')
  | (Throw err, (w', _)) => (Throw err, w')
  end.

Record RegisterWriter := {
  rw_accountDid : string;
  rw_did : string;
  rw_writerId : string;
  rw_label : string;
  rw_listedInDocument : bool;
  rw_sessionStartedAt : Z;
  rw_now : Z;
  rw_policy : option Z * option Z * option Z
}.

Definition ownRecord (q : RegisterWriter) (record : WriterFirstSeenRecord) : bool :=
  bool_decide (fs_accountDid record = rw_accountDid q) &&
  bool_decide (fs_writerId record = rw_writerId q).

(** The first session is this one, or a later one. *)
Definition startedIn (record : WriterFirstSeenRecord) (sessionStartedAt : Z) : bool :=
  match date_parse (fs_firstSessionAt record) with
  | Some first => (sessionStartedAt <=? first)%Z
  | None => false
  end.

Definition touchedRecently (record : WriterFirstSeenRecord) (now interval : Z) : bool :=
  match fs_lastTouchedAt record ≫= date_parse with
  | Some touchedAt => (now - touchedAt <? interval)%Z
  | None => false
  end.

(** [change]: decides, and sets [written]. *)
Definition registrationChange (q : RegisterWriter) (name : string)
    (current : option WritableConnection) :
    comp (W * WriterRegistrationOutcome) (ConnectionChange WriterRegistrationOutcome) := λ '(w, _),
  let '(next, added) := withOwnWriter current (rw_did q) (rw_writerId q) name
    (rw_listedInDocument q) (rw_now q) (connectionWriterPolicy (rw_policy q)) in
  (Ok next, (w, if added then registered else touched)).

Definition registerConnectionWriter (store : ConnectionsStore W) (local : WriterFirstSeenStore W)
    (q : RegisterWriter) : comp W WriterRegistrationOutcome :=
  let resolved := connectionWriterPolicy (rw_policy q) in
  match normalizeDisplayName (rw_label q) with
  | None => lift (TypeError "A writer label is 1 to 64 code points")
  | Some name =>
      body ← fs_get local;
      let deferFirst :=
        fs_put local {| fs_accountDid := rw_accountDid q; fs_writerId := rw_writerId q;
                        fs_firstSessionAt := toISOString (rw_sessionStartedAt q);
                        fs_lastTouchedAt := None |};;
        mret deferred in
      match parseFirstSeenRecord body with
      | None => deferFirst
      | Some firstSeen =>
          if negb (ownRecord q firstSeen) then deferFirst
          else if startedIn firstSeen (rw_sessionStartedAt q) then mret deferred
          else if touchedRecently firstSeen (rw_now q) (touchIntervalMs resolved) then mret fresh
          else
            done ← localVariable touched (racedAs raced
              (writeConnection (withLocal store) (connectionResourceId (ByDid (rw_did q)))
                 (registrationChange q name) (Some refused)));
            let '(outcome, written) := done : WriteOutcome WriterRegistrationOutcome * _ in
            (match outcome with
             | Stopped raced => mret ()
             | _ => fs_put local {| fs_accountDid := fs_accountDid firstSeen;
                      fs_writerId := fs_writerId firstSeen;
                      fs_firstSessionAt := fs_firstSessionAt firstSeen;
                      fs_lastTouchedAt := Some (toISOString (rw_now q)) |}
             end);;
            mret match outcome with Created | Updated => written | Stopped outcome => outcome end
      end
  end.

(** ** [touchConnectionWriter] *)

(** The position of the member to touch, or why there is none. *)
Definition memberToTouch (entry : ConnectionEntry) (writerId : string) (now : Z)
    (policy : ConnectionWriterPolicy) : WriterTouchOutcome + nat :=
  match e_retired entry, findWriter (e_writers entry) writerId with
  | Some _, _ => inl touch_retired
  | None, None => inl touch_unregistered
  | None, Some (index, writer) =>
      match effectiveLastSeen writer now with
      | Some seen => if (now - seen <? touchIntervalMs policy)%Z then inl touch_fresh else inr index
      | None => inr index
      end
  end.

Definition touchChange (writerId : string) (now : Z) (policy : ConnectionWriterPolicy)
    (current : option WritableConnection) : result (ConnectionChange WriterTouchOutcome) :=
  match current with
  | None => Ok (Stop_ touch_unregistered)
  | Some current =>
      match memberToTouch (wc_entry current) writerId now policy with
      | inl stop => Ok (Stop_ stop)
      | inr member =>
          Ok (Write (set_member "writers"
            (JArr (touchedWriters (e_writers (wc_entry current)) member now)) (wc_body current)))
      end
  end.

Definition holdsWriter (writerId : string) (item : ReadConnection) : bool :=
  bool_decide (is_Some (findWriter (e_writers (rc_entry item)) writerId)).

Definition touchConnectionWriter (store : ConnectionsStore W) (listing : ConnectionsListing)
    (writerId : string) (now : Z) (policy : option Z * option Z * option Z) :
    comp W WriterTouchOutcome :=
  let resolved := connectionWriterPolicy policy in
  match findIndex (holdsWriter writerId) (l_entries listing) with
  | None => mret touch_unregistered
  | Some (_, found) =>
      match memberToTouch (rc_entry found) writerId now resolved with
      | inl stop => mret stop
      | inr _ =>
          outcome ← racedAs touch_raced
            (writeConnection store (rc_resourceId found)
               (λ current, lift (touchChange writerId now resolved current)) (Some touch_refused));
          mret match outcome : WriteOutcome _ with
               | Created | Updated => touch_touched
               | Stopped outcome => outcome
               end
      end
  end.

(** ** [sweepConnectionWriters] *)

Definition expired (policy : ConnectionWriterPolicy) (now : Z) (writer : json) : bool :=
  match effectiveLastSeen writer now with
  | Some seen => (inactiveAfterMs policy <? now - seen)%Z
  | None => false
  end.

Definition marked (policy : ConnectionWriterPolicy) (now : Z) (writer : json) : bool :=
  writer_active writer && expired policy now writer.

Definition keptIndices (entry : ConnectionEntry) (now : Z) (policy : ConnectionWriterPolicy) :
    list nat := newestIndices (e_writers entry) now (maxWriters policy).

(** The members a sweep keeps and the ones it drops, each in the entry's
    order. *)
Definition keptWriters (entry : ConnectionEntry) (now : Z) (policy : ConnectionWriterPolicy) :
    list json :=
  (filter (λ writer, writer.1 ∈ keptIndices entry now policy) (imap pair (e_writers entry))).*2.
Definition droppedWriters (entry : ConnectionEntry) (now : Z) (policy : ConnectionWriterPolicy) :
    list json :=
  (filter (λ writer, writer.1 ∉ keptIndices entry now policy) (imap pair (e_writers entry))).*2.

Record SweptWriters := {
  sw_writers : list json;
  sw_markedInactive : list string;
  sw_dropped : list string
}.

Definition markWriter (policy : ConnectionWriterPolicy) (now : Z) (writer : json) : json :=
  if marked policy now writer then with_member "active" (JBool false) writer else writer.

Definition sweptWriters (entry : ConnectionEntry) (now : Z) (policy : ConnectionWriterPolicy) :
    option SweptWriters :=
  let kept := keptWriters entry now policy in
  let markedInactive := writer_id <$> filter (λ writer, marked policy now writer = true) kept in
  let dropped := writer_id <$> droppedWriters entry now policy in
  if bool_decide (markedInactive = []) && bool_decide (dropped = []) then None
  else Some {| sw_writers := markWriter policy now <$> kept;
               sw_markedInactive := markedInactive; sw_dropped := dropped |}.

Record ConnectionWritersSweep := {
  cs_entries : list ReadConnection;
  cs_markedInactive : list string;
  cs_dropped : list string;
  cs_failed : list (string * js_error)
}.

Definition withWriters (entry : ConnectionEntry) (writers : list json) : ConnectionEntry := {|
  e_version := e_version entry; e_kind := e_kind entry; e_id := e_id entry;
  e_name := e_name entry; e_label := e_label entry; e_origin := e_origin entry;
  e_url := e_url entry; e_appKey := e_appKey entry; e_firstSeen := e_firstSeen entry;
  e_lastSeen := e_lastSeen entry; e_retired := e_retired entry; e_declined := e_declined entry;
  e_seed := e_seed entry; e_seedTag := e_seedTag entry; e_grants := e_grants entry;
  e_grantsReceived := e_grantsReceived entry; e_outbox := e_outbox entry; e_writers := writers;
  e_replicas := e_replicas entry |}.

(** One entry of the listing. *)
Definition sweepOne (store : ConnectionsStore W) (now : Z) (policy : ConnectionWriterPolicy)
    (sweep : ConnectionWritersSweep) (item : ReadConnection) : comp W ConnectionWritersSweep :=
  let keep failed := {|
    cs_entries := cs_entries sweep ++ [item]; cs_markedInactive := cs_markedInactive sweep;
    cs_dropped := cs_dropped sweep; cs_failed := cs_failed sweep ++ failed |} in
  match (if isWritableConnectionEntry (rc_entry item)
         then sweptWriters (rc_entry item) now policy else None), rc_etag item with
  | Some swept, Some etag =>
      let body := set_member "writers" (JArr (sw_writers swept)) (object_members (rc_body item)) in
      try_catch
        (etag ← store_put store {| pc_resourceId := rc_resourceId item; pc_body := body;
                                   pc_ifMatch := Some etag; pc_ifNoneMatch := false |};
         mret {|
           cs_entries := cs_entries sweep ++
             [{| rc_resourceId := rc_resourceId item; rc_etag := etag;
                 rc_entry := withWriters (rc_entry item) (sw_writers swept);
                 rc_body := JObj body |}];
           cs_markedInactive := cs_markedInactive sweep ++ sw_markedInactive swept;
           cs_dropped := cs_dropped sweep ++ sw_dropped swept; cs_failed := cs_failed sweep |})
        (λ err, mret (keep (if isLostConnectionRace err then [] else [(rc_resourceId item, err)])))
  | _, _ => mret (keep [])
  end.

Fixpoint sweepEntries (store : ConnectionsStore W) (now : Z) (policy : ConnectionWriterPolicy)
    (items : list ReadConnection) (sweep : ConnectionWritersSweep) : comp W ConnectionWritersSweep :=
  match items with
  | [] => mret sweep
  | item :: items =>
      sweep ← sweepOne store now policy sweep item;
      sweepEntries store now policy items sweep
  end.

(** The listing with the swept entries, and what was swept. *)
Definition sweepConnectionWriters (store : ConnectionsStore W) (listing : ConnectionsListing)
    (now : Z) (policy : option Z * option Z * option Z) :
    comp W (ConnectionsListing * ConnectionWritersSweep) :=
  sweep ← sweepEntries store now (connectionWriterPolicy policy) (l_entries listing)
    {| cs_entries := []; cs_markedInactive := []; cs_dropped := []; cs_failed := [] |};
  mret ({| l_entries := cs_entries sweep; l_unreadable := l_unreadable listing;
           l_unparseable := l_unparseable listing |}, sweep).
End Register.
End Writers.

(** ** [resolveWriter] *)

Record ResolvedWriter := {
  res_label : string;
  res_active : bool;
  res_retired : bool;
  res_clientSigningKeyMultibase : option string
}.

Fixpoint resolveWriter `{!DidKeys} (writerId : string) (entries : list ConnectionEntry)
    (enrolledSigningKeys : list string) : option ResolvedWriter :=
  match entries with
  | [] => None
  | entry :: entries =>
      match findWriter (e_writers entry) writerId with
      | None => resolveWriter writerId entries enrolledSigningKeys
      | Some (_, member) =>
          Some {|
            res_label := match e_label entry with
                         | Some label => label
                         | None => default (writer_label member) (e_name entry)
                         end;
            res_active := writer_active member;
            res_retired := bool_decide (is_Some (e_retired entry));
            res_clientSigningKeyMultibase :=
              multibase ← e_id entry ≫= signingKeyMultibaseOfDid;
              if decide (multibase ∈ enrolledSigningKeys) then Some multibase else None
          |}
      end
  end.

(** ** The writer order *)

Lemma units_le_total l r : units_le l r = true ∨ units_le r l = true.
Proof.
  revert r. induction l as [|x l IH]; intros [|y r]; simpl; auto.
  destruct (x <? y)%N eqn:Hxy, (y <? x)%N eqn:Hyx; auto.
Qed.

Lemma units_le_trans l m r : units_le l m = true → units_le m r = true → units_le l r = true.
Proof.
  revert m r. induction l as [|x l IH]; intros [|y m] [|z r]; simpl; try done.
  destruct (N.ltb_spec x y), (N.ltb_spec y x), (N.ltb_spec y z), (N.ltb_spec z y),
    (N.ltb_spec x z), (N.ltb_spec z x); try done; try lia. apply IH.
Qed.

Lemma js_lt_asymm l r : js_lt l r = true → js_lt r l = false.
Proof.
  unfold js_lt. intros H%negb_true_iff. apply negb_false_iff.
  destruct (units_le_total (code_units l) (code_units r)); congruence.
Qed.

Section WritersOrder.
Context {host : JsHost}.

Lemma newer_asymm now l r : newer now l r = true → newer now r l = false.
Proof.
  unfold newer. destruct (effectiveLastSeen l now) as [a|], (effectiveLastSeen r now) as [b|];
    try apply js_lt_asymm.
  destruct (decide (a = b)), (decide (b = a)); subst; try done; [apply js_lt_asymm|].
  rewrite Z.ltb_lt, Z.ltb_ge. lia.
Qed.

#[export] Instance not_older_total now : Total (not_older now).
Proof.
  intros l r. unfold not_older. destruct (newer now r.2 l.2) eqn:H; [right|by left].
  by apply newer_asymm.
Qed.

(** The member's [lastSeen] is a time. *)
Definition timed (now : Z) (writer : nat * json) : Prop := is_Some (effectiveLastSeen writer.2 now).

Lemma not_older_trans now x y z : timed now x → timed now y → timed now z →
  not_older now x y → not_older now y z → not_older now x z.
Proof.
  intros [a Ha] [b Hb] [c Hc]. unfold not_older, newer. rewrite Ha, Hb, Hc.
  destruct (decide (b = a)), (decide (c = b)), (decide (c = a)); subst; try done;
    rewrite ?Z.ltb_ge; unfold js_lt; rewrite ?negb_false_iff; try lia.
  intros. by eapply units_le_trans.
Qed.

Lemma newestFirst_perm writers now : newestFirst writers now ≡ₚ imap pair writers.
Proof. apply merge_sort_Permutation. Qed.

Lemma newestFirst_indices writers now : (newestFirst writers now).*1 ≡ₚ seq 0 (length writers).
Proof.
  by rewrite newestFirst_perm, imap_pair_fst.
Qed.

Lemma newestFirst_sorted writers now : Forall (λ w, is_Some (effectiveLastSeen w now)) writers →
  StronglySorted (not_older now) (newestFirst writers now).
Proof.
  intros Hw. apply (Sorted_StronglySorted_on (timed now)).
  - apply not_older_trans.
  - apply Forall_forall. rewrite Forall_forall in Hw. setoid_rewrite newestFirst_perm.
    intros x (i&w&->&Hi)%elem_of_lookup_imap. by eapply Hw, list_elem_of_lookup_2.
  - apply Sorted_merge_sort, _.
Qed.

Lemma newestIndices_NoDup writers now n : NoDup (newestIndices writers now n).
Proof.
  unfold newestIndices. rewrite fmap_take.
  eapply sublist_NoDup; [|apply sublist_take].
  rewrite newestFirst_indices. apply NoDup_seq.
Qed.

Lemma newestIndices_length writers now n :
  length (newestIndices writers now n) = Z.to_nat (Z.max n 0) `min` length writers.
Proof.
  unfold newestIndices.
  by rewrite length_fmap, length_take, newestFirst_perm, length_imap.
Qed.

(** With room for every member, every one is kept. *)
Lemma newestIndices_all writers now n i :
  (Z.of_nat (length writers) ≤ Z.max n 0)%Z → i < length writers → i ∈ newestIndices writers now n.
Proof.
  intros Hn Hi. unfold newestIndices. rewrite take_ge.
  - rewrite newestFirst_indices. apply elem_of_seq. lia.
  - rewrite newestFirst_perm, length_imap. lia.
Qed.

End WritersOrder.

Section Sweep.
Context {host : JsHost}.
Implicit Types (entry : ConnectionEntry) (now : Z) (policy : ConnectionWriterPolicy).

Lemma newestIndices_cut writers now n i j a b :
  Forall (λ w, is_Some (effectiveLastSeen w now)) writers →
  writers !! i = Some a → writers !! j = Some b →
  i ∈ newestIndices writers now n → j ∉ newestIndices writers now n → newer now b a = false.
Proof.
  intros Hw Hi Hj Hin Hout. pose proof (newestFirst_sorted _ now Hw) as Hsort.
  unfold newestIndices in Hin, Hout. set (k := Z.to_nat (Z.max n 0)) in *.
  apply list_elem_of_fmap in Hin as ([i' a']&->&Hin). simpl in *.
  assert (∀ m x, (m, x) ∈ newestFirst writers now → writers !! m = Some x) as Hat.
  { intros m x Hx. rewrite newestFirst_perm in Hx. by apply elem_of_lookup_imap in Hx as (?&?&[= -> ->]&?). }
  assert ((j, b) ∈ drop k (newestFirst writers now)) as Hd.
  { assert ((j, b) ∈ newestFirst writers now) as Hjb.
    { rewrite newestFirst_perm. apply elem_of_lookup_imap. eauto. }
    rewrite <-(take_drop k (newestFirst writers now)) in Hjb.
    apply elem_of_app in Hjb as [Hjb|]; [|done].
    destruct Hout. apply list_elem_of_fmap. by exists (j, b). }
  rewrite <-(take_drop k (newestFirst writers now)) in Hsort.
  pose proof (StronglySorted_app_1_elem_of _ _ _ _ _ Hsort Hin Hd) as Hle.
  assert (a' = a) as -> by (apply elem_of_sublist with (2 := sublist_take _ _) in Hin; apply Hat in Hin; congruence).
  exact Hle.
Qed.

Lemma markWriter_marked policy now w : marked policy now (markWriter policy now w) = false.
Proof.
  unfold markWriter. destruct (marked policy now w) eqn:Hm; [|done].
  destruct w; try done. unfold marked, writer_active. simpl. by rewrite get_set_member_eq.
Qed.

Lemma keptWriters_length entry now policy :
  (Z.of_nat (length (keptWriters entry now policy)) ≤ Z.max (maxWriters policy) 0)%Z.
Proof.
  unfold keptWriters. rewrite length_fmap.
  pose proof (positions_length (e_writers entry) (keptIndices entry now policy)
    (newestIndices_NoDup _ _ _)).
  unfold keptIndices in *. rewrite newestIndices_length in *. lia.
Qed.

(** A sweep with room for every member keeps every one. *)
Lemma kept_all entry now policy :
  (Z.of_nat (length (e_writers entry)) ≤ Z.max (maxWriters policy) 0)%Z →
  keptWriters entry now policy = e_writers entry ∧ droppedWriters entry now policy = [].
Proof.
  intros Hn. unfold keptWriters, droppedWriters.
  assert (∀ x, x ∈ imap pair (e_writers entry) → x.1 ∈ keptIndices entry now policy) as Hall.
  { intros x (i&w&->&Hi)%elem_of_lookup_imap. apply newestIndices_all; [done|].
    by eapply lookup_lt_Some. }
  rewrite filter_all by done. rewrite imap_pair_snd. split; [done|].
  rewrite filter_none; [done|]. naive_solver.
Qed.

Lemma sweptWriters_None entry now policy : sweptWriters entry now policy = None ↔
  Forall (λ w, marked policy now w = false) (keptWriters entry now policy) ∧
  droppedWriters entry now policy = [].
Proof.
  unfold sweptWriters. rewrite Forall_forall. case_match eqn:H.
  - apply andb_true_iff in H as [Hm Hd]. apply bool_decide_eq_true in Hm, Hd.
    split; [intros _|done]. apply fmap_nil_inv in Hm, Hd. split; [|done].
    intros w Hw. destruct (marked policy now w) eqn:Hmw; [|done].
    assert (w ∈ @nil json) as []%not_elem_of_nil. rewrite <-Hm. by apply list_elem_of_filter.
  - split; [done|]. intros [Hm Hd]. apply andb_false_iff in H as [H|H];
      apply bool_decide_eq_false in H; destruct H; [|by rewrite Hd].
    rewrite filter_none; [done|]. intros w Hw. by rewrite (Hm w Hw).
Qed.

Lemma reads_timed `{!Base64} o entry now : reads o entry →
  Forall (λ w, is_Some (effectiveLastSeen w now)) (e_writers entry).
Proof.
  intros Hr%writers_fixed. eapply Forall_impl; [exact Hr|]. intros w Hw. unfold parseWriter in Hw.
  apply bind_Some in Hw as (m&Hm&Hw). apply bind_Some in Hw as (?&_&Hw).
  apply bind_Some in Hw as (?&_&Hw). apply bind_Some in Hw as (seen&Hseen&_).
  destruct w; simplify_eq/=. unfold as_timestamp in Hseen.
  apply bind_Some in Hseen as (s&Hs&Hseen). case_decide as Ht; [|done].
  unfold effectiveLastSeen, string_member. simpl. rewrite Hs. simpl.
  by destruct Ht as [t ->].
Qed.
End Sweep.

(** The inactivity sweep of an entry. It keeps at most the policy's number
    of members, in the entry's order, and never drops a member newer than one
    it keeps (a clock ahead of the sweep's counts as the sweep's own time); it
    changes a kept member only to mark an active one past the inactivity
    bound; it reports exactly what it marked and dropped; and it is settled:
    a second sweep of what it wrote does nothing. *)
Theorem sweep_keeps_the_newest `{!JsHost} `{!Base64} o entry now policy :
  reads o entry →
  let kept := keptWriters entry now policy in
  let dropped := droppedWriters entry now policy in
  kept `sublist_of` e_writers entry ∧ dropped `sublist_of` e_writers entry ∧
  kept ++ dropped ≡ₚ e_writers entry ∧
  (Z.of_nat (length kept) ≤ Z.max (maxWriters policy) 0)%Z ∧
  (∀ k d, k ∈ kept → d ∈ dropped → newer now d k = false) ∧
  match sweptWriters entry now policy with
  | None => kept = e_writers entry ∧ Forall (λ w, marked policy now w = false) kept
  | Some swept =>
      sw_writers swept = markWriter policy now <$> kept ∧
      sw_markedInactive swept = writer_id <$> filter (λ w, marked policy now w = true) kept ∧
      sw_dropped swept = writer_id <$> dropped ∧
      sweptWriters (withWriters entry (sw_writers swept)) now policy = None
  end.
Proof.
  intros Hr kept dropped. pose proof (reads_timed _ _ now Hr) as Ht.
  assert (kept ++ dropped ≡ₚ e_writers entry) as Hperm.
  { unfold kept, dropped, keptWriters, droppedWriters. rewrite <-fmap_app.
    rewrite filter_app_complement. by rewrite imap_pair_snd. }
  split_and!; [apply positions_sublist..|done|apply keptWriters_length| |].
  - intros k d (i&Hki&Hk)%positions_elem (j&Hdj&Hd)%positions_elem.
    by eapply newestIndices_cut.
  - destruct (sweptWriters entry now policy) as [swept|] eqn:Hs.
    + unfold sweptWriters in Hs. case_match; [done|]. injection Hs as <-. simpl.
      split_and!; [done..|]. apply sweptWriters_None.
      destruct (kept_all (withWriters entry (markWriter policy now <$> keptWriters entry now policy)) now policy) as [-> ->].
      { simpl. rewrite length_fmap. apply keptWriters_length. }
      split; [|done]. simpl. apply Forall_fmap, Forall_true, markWriter_marked.
    + apply sweptWriters_None in Hs as [Hm Hd]. split; [|done].
      fold dropped in Hd. rewrite Hd, app_nil_r in Hperm.
      apply sublist_length_eq; [apply positions_sublist|by rewrite Hperm].
Qed.
