(* ===== verification/ConnReplicas.v ===== *)
(** * Replica-server entries

    [src/src/connections/replicas.ts]: the writes of an entry that stands for
    a server replicating the account's Spaces, and of the items it lists. *)

From S2P Require Import Prelude Json JsText ConnEntry ConnGrants ConnStore ConnUpsert.

Inductive ReplicaMarker := stoppedAt | restartedAt | lostAt.
#[export] Instance ReplicaMarker_eq_dec : EqDecision ReplicaMarker.
Proof. solve_decision. Defined.

(** The member a marker is. *)
Definition marker_key (marker : ReplicaMarker) : string :=
  match marker with
  | stoppedAt => "stoppedAt"
  | restartedAt => "restartedAt"
  | lostAt => "lostAt"
  end.
Definition REPLICA_MARKERS : list ReplicaMarker := [stoppedAt; restartedAt; lostAt].

(** [delete v.k] of a verbatim object. *)
Definition without_member (k : string) (value : json) : json :=
  match value with JObj o => JObj (delete_member k o) | _ => value end.

Section Replicas.
Context {host : JsHost} {base64 : Base64} {paths : ServerPaths} {key : DirectoryKey}.
Abbreviation Change := (ConnectionChange NoWrite).

Definition namedSourceSpaces (fromSpaces : option (list string)) : result (option (list string)) :=
  match fromSpaces with
  | None => Ok None
  | Some fromSpaces =>
      named ← mapM spaceContainerUrl fromSpaces;
      let named := js_dedup (named : list string) in
      if decide (named = []) then TypeError "A marker write names at least one source Space"
      else Ok (Some named)
  end.

Definition assertFreshId (value : string) : result () :=
  if isConnectionFreshId (Some (JStr value)) then Ok ()
  else TypeError "is 32 random bytes as base64url with no padding".

Definition replicaIndex (entry : ConnectionEntry) (fromSpace : string) : result (nat * json) :=
  match findIndex (λ item, bool_decide (fromSpaceOf item = fromSpace)) (e_replicas entry) with
  | Some found => Ok found
  | None => Error "The connections entry lists no replica of the Space"
  end.

Definition withReplica (entry : ConnectionEntry) (index : nat) (item : json) : list json :=
  imap (λ heldIndex held, if decide (heldIndex = index) then item else held) (e_replicas entry).

(** ** [recordReplicas] *)

Record RecordReplicas := {
  rp_did : string;
  rp_url : string;
  rp_replicas : list (string * string);
  rp_name : option string;
  rp_seed : option string;
  rp_seedTag : option string;
  rp_now : Z
}.

Definition replicaItem (fromSpace spaceId : string) : json :=
  JObj [("fromSpace", JStr fromSpace); ("spaceId", JStr spaceId)].

(** The loop over the items; [incoming] are the ones checked so far. *)
Fixpoint incomingReplicas (replicas : list (string * string)) (incoming : list json) :
    result (list json) :=
  match replicas with
  | [] => Ok incoming
  | (value, spaceId) :: replicas =>
      fromSpace ← spaceContainerUrl value;
      assertFreshId spaceId;;
      if existsb (λ item, bool_decide (fromSpaceOf item = fromSpace)) incoming
      then TypeError "A replica-server entry lists one replica per source Space"
      else incomingReplicas replicas (incoming ++ [replicaItem fromSpace spaceId])
  end.

Definition recordReplicasPrepare (q : RecordReplicas) : result (list json) :=
  (if decide (is_Some (rp_seed q) ↔ is_Some (rp_seedTag q)) then Ok ()
   else TypeError "A connection seed is written with its tag, or not");;
  incomingReplicas (rp_replicas q) [].

Definition declaredReplicas (q : RecordReplicas) : members :=
  declare "name" (rp_name q ≫= normalizeDisplayName) ++ [("url", JStr (rp_url q))].

Definition declaredSeed (seed seedTag : option string) : members :=
  declare "seed" seed ++ declare "seedTag" seedTag.

Definition recordReplicasChange (q : RecordReplicas) (incoming : list json)
    (current : option WritableConnection) : result Change :=
  match current with
  | None =>
      Ok (Write (spread (newConnectionEntry REPLICA_SERVER_KIND (rp_did q) (rp_now q))
            (declaredReplicas q ++ declaredSeed (rp_seed q) (rp_seedTag q) ++
             [("replicas", JArr incoming)])))
  | Some current =>
      let entry := wc_entry current in
      assertKind entry REPLICA_SERVER_KIND;;
      if match rp_seed q, e_seed entry with
         | Some seed, Some held => negb (bool_decide (held = seed))
         | _, _ => false
         end
      then Error "The connections entry already carries a different pairwise seed"
      else if existsb (λ item, bool_decide (is_Some (member "lostAt" item)) &&
                               bool_decide (fromSpaceOf item ∈ fromSpaceOf <$> incoming))
                (e_replicas entry)
      then Error "is marked lost; it is removed before the Space is registered again"
      else
        Ok (Write (delete_member "declined" (delete_member "retired"
          (spread (wc_body current)
             (declaredReplicas q ++ [("lastSeen", JStr (toISOString (rp_now q)))] ++
              match e_seed entry with
              | None => declaredSeed (rp_seed q) (rp_seedTag q)
              | Some _ => []
              end ++
              [("replicas", JArr (e_replicas entry ++
                 filter (λ item, fromSpaceOf item ∉ fromSpaceOf <$> e_replicas entry) incoming))])))))
  end.

Definition recordReplicas {W} (store : ConnectionsStore W) (q : RecordReplicas) :
    comp W (WriteOutcome NoWrite) :=
  incoming ← lift (recordReplicasPrepare q);
  writePartyConnection store (rp_did q) (recordReplicasChange q incoming).

(** ** [recordReplicaGrant] *)

Record RecordReplicaGrant := {
  rpg_did : string;
  rpg_fromSpace : string;
  rpg_zcap : json;
  rpg_pendingRegistrationId : option string;
  rpg_renews : option string;
  rpg_now : Z
}.

(** The normalized source Space and the checked capability. *)
Definition recordReplicaGrantPrepare (q : RecordReplicaGrant) : result (string * json) :=
  fromSpace ← spaceContainerUrl (rpg_fromSpace q);
  (if bool_decide (is_Some (rpg_pendingRegistrationId q)) && bool_decide (is_Some (rpg_renews q))
   then TypeError "A first registration has no recorded grant to renew" else Ok ());;
  zcap ← checkedDelegatedZcap (rpg_did q) (rpg_zcap q);
  assertTargetInSpaces zcap [fromSpace];;
  assertPullGrantActions zcap;;
  from_option assertFreshId (Ok ()) (rpg_pendingRegistrationId q);;
  Ok (fromSpace, zcap).

(** The items once the pending registration id is recorded; [None] when the
    item carries it already. *)
Definition pendingReplicas (entry : ConnectionEntry) (index : nat) (item : json)
    (pendingRegistrationId : option string) : result (option (list json)) :=
  match pendingRegistrationId with
  | None => Ok None
  | Some id =>
      if decide (is_Some (member "registrationId" item)) then
        Error "is registered already; a replacement mints no new registration id"
      else
        let pending := as_string (member "pendingRegistrationId" item) in
        if bool_decide (is_Some pending) && negb (bool_decide (pending = Some id)) then
          Error "has a registration pending; it settles or is removed before another id is recorded"
        else if decide (pending = Some id) then Ok None
        else Ok (Some (withReplica entry index
                         (with_member "pendingRegistrationId" (JStr id) item)))
  end.

Definition recordReplicaGrantChange (q : RecordReplicaGrant) (fromSpace : string) (zcap : json)
    (current : option WritableConnection) : result Change :=
  match current with
  | None => Ok (Stop_ Absent)
  | Some current =>
      let entry := wc_entry current in
      let stamp := toISOString (rpg_now q) in
      assertKind entry REPLICA_SERVER_KIND;;
      if decide (is_Some (e_retired entry)) then
        Error "The connections entry is retired; it records no pull grants"
      else
        found ← replicaIndex entry fromSpace;
        let '(index, item) := found : nat * json in
        let grantHeld := existsb (λ grant, bool_decide (zcap_id (zcap_of grant) = zcap_id zcap))
                           (e_grants entry) in
        record ← match rpg_renews q with
                 | None => Ok (grantRecord zcap "grant" stamp)
                 | Some renews => renewedGrantRecord entry zcap renews stamp
                 end;
        replicas ← pendingReplicas entry index item (rpg_pendingRegistrationId q);
        match grantHeld, (replicas : option (list json)) with
        | true, None => Ok (Stop_ Unchanged)
        | _, _ =>
            Ok (Write (spread (wc_body current)
              ((if grantHeld then [] else [("grants", JArr (e_grants entry ++ [record]))]) ++
               [("replicas", JArr (default (e_replicas entry) replicas))])))
        end
  end.

Definition recordReplicaGrant {W} (store : ConnectionsStore W) (q : RecordReplicaGrant) :
    comp W (WriteOutcome NoWrite) :=
  checked ← lift (recordReplicaGrantPrepare q);
  writePartyConnection store (rpg_did q) (recordReplicaGrantChange q checked.1 checked.2).

(** ** [settleReplicaRegistration] *)

Definition settleReplicaChange (fromSpace registrationId : string)
    (current : option WritableConnection) : result Change :=
  match current with
  | None => Ok (Stop_ Absent)
  | Some current =>
      let entry := wc_entry current in
      assertKind entry REPLICA_SERVER_KIND;;
      found ← replicaIndex entry fromSpace;
      let '(index, item) := found : nat * json in
      let pending := member "pendingRegistrationId" item in
      if bool_decide (member "registrationId" item = Some (JStr registrationId)) &&
         bool_decide (pending = None)
      then Ok (Stop_ Unchanged)
      else if decide (pending ≠ Some (JStr registrationId)) then
        Error "has no pending registration to settle"
      else
        let settled := without_member "pendingRegistrationId"
                         (with_member "registrationId" (JStr registrationId) item) in
        Ok (Write (set_member "replicas" (JArr (withReplica entry index settled)) (wc_body current)))
  end.

Definition settleReplicaRegistration {W} (store : ConnectionsStore W)
    (did fromSpace registrationId : string) : comp W (WriteOutcome NoWrite) :=
  fromSpace ← lift (spaceContainerUrl fromSpace);
  lift (assertFreshId registrationId);;
  writePartyConnection store did (settleReplicaChange fromSpace registrationId).

(** ** Markers *)

(** [apply] over the named items, all of them when none is named. *)
Definition applied (named : option (list string)) (apply : json → option json) (item : json) :
    option json :=
  match named with
  | None => apply item
  | Some named => if decide (fromSpaceOf item ∈ named) then apply item else None
  end.

(** [finish] may change the body further, and says whether it did. *)
Definition writeMarkersChange (named : option (list string)) (apply : json → option json)
    (finish : ConnectionEntry → members → members * bool)
    (current : option WritableConnection) : result Change :=
  match current with
  | None => Ok (Stop_ Absent)
  | Some current =>
      let entry := wc_entry current in
      assertKind entry REPLICA_SERVER_KIND;;
      forM_ (λ fromSpace, replicaIndex entry fromSpace;; Ok ()) (default [] named);;
      let changed := existsb (λ item, bool_decide (is_Some (applied named apply item)))
                       (e_replicas entry) in
      let replicas := (λ item, default item (applied named apply item)) <$> e_replicas entry in
      let '(body, finished) :=
        finish entry (set_member "replicas" (JArr replicas) (wc_body current)) in
      if negb finished && negb changed then Ok (Stop_ Unchanged) else Ok (Write body)
  end.

Definition writeReplicaMarkers {W} (store : ConnectionsStore W) (did : string)
    (fromSpaces : option (list string)) (apply : json → option json)
    (finish : ConnectionEntry → members → members * bool) : comp W (WriteOutcome NoWrite) :=
  named ← lift (namedSourceSpaces fromSpaces);
  writePartyConnection store did (writeMarkersChange named apply finish).

Definition setMarker (marker : ReplicaMarker) (stamp : string) (item : json) : option json :=
  match member (marker_key marker) item with
  | None => Some (with_member (marker_key marker) (JStr stamp) item)
  | Some _ => None
  end.

(** A restart withdraws the entry's declined stamp. *)
Definition finishMarker (marker : ReplicaMarker) (entry : ConnectionEntry) (body : members) :
    members * bool :=
  if decide (marker = restartedAt) then
    (delete_member "declined" body, bool_decide (is_Some (e_declined entry)))
  else (body, false).

Definition setReplicaMarker {W} (store : ConnectionsStore W) (did : string) (marker : ReplicaMarker)
    (fromSpaces : option (list string)) (now : Z) : comp W (WriteOutcome NoWrite) :=
  writeReplicaMarkers store did fromSpaces (setMarker marker (toISOString now))
    (finishMarker marker).

Definition clearMarker (marker : ReplicaMarker) (item : json) : option json :=
  match member (marker_key marker) item with
  | None => None
  | Some _ => Some (without_member (marker_key marker) item)
  end.

Definition clearReplicaMarker {W} (store : ConnectionsStore W) (did : string)
    (marker : ReplicaMarker) (fromSpaces : option (list string)) : comp W (WriteOutcome NoWrite) :=
  writeReplicaMarkers store did fromSpaces (clearMarker marker) (λ _ body, (body, false)).

(** ** [removeReplica] *)

Definition removeReplicaChange (fromSpace : string) (current : option WritableConnection) :
    result Change :=
  match current with
  | None => Ok (Stop_ Absent)
  | Some current =>
      let entry := wc_entry current in
      assertKind entry REPLICA_SERVER_KIND;;
      let kept := filter (λ item, fromSpaceOf item ≠ fromSpace) (e_replicas entry) in
      if decide (length kept = length (e_replicas entry)) then Ok (Stop_ Unchanged)
      else
        standing ← filterM (λ grant, isTargetInSpace (zcap_target (zcap_of grant)) fromSpace)
                     (e_grants entry);
        if decide ((standing : list json) ≠ []) then
          Error "The connections entry still records pull grant(s) on the Space"
        else Ok (Write (set_member "replicas" (JArr kept) (wc_body current)))
  end.

Definition removeReplica {W} (store : ConnectionsStore W) (did fromSpace : string) :
    comp W (WriteOutcome NoWrite) :=
  fromSpace ← lift (spaceContainerUrl fromSpace);
  writePartyConnection store did (removeReplicaChange fromSpace).
End Replicas.
