(* ===== verification/ConnInvariant.v ===== *)
(** * What every directory writer writes

    One theorem over every writer of [src/src/connections/upsert.ts],
    [replicas.ts] and [writers.ts]: the bodies they put are bodies this build
    reads back and may write over again, at the id they claim, with everything
    the write is not about kept verbatim. *)

From S2P Require Import Prelude Json JsText ConnEntry ConnGrants ConnStore ConnUpsert.
From S2P Require Import ConnReceived ConnWriters ConnReplicas.

(** ** The codec, a member at a time *)
Section Members.
Context {host : JsHost} {base64 : Base64}.

(** What the codec asks of each member it knows, for a body this build may
    write over. *)
Definition codec : list (string * (option json → Prop)) :=
  [("version", λ v, as_integer v = Some CONNECTION_ENTRY_VERSION);
   ("kind", λ v, is_Some (as_nonempty v));
   ("id", λ v, is_Some (optional as_did v));
   ("name", λ v, is_Some (optional as_name v));
   ("label", λ v, is_Some (optional as_name v));
   ("origin", λ v, is_Some (optional as_string v));
   ("url", λ v, is_Some (optional as_string v));
   ("appKey", λ v, is_Some (optional as_nonempty v));
   ("firstSeen", λ v, is_Some (as_timestamp v));
   ("lastSeen", λ v, is_Some (as_timestamp v));
   ("retired", λ v, is_Some (optional as_timestamp v));
   ("declined", λ v, is_Some (optional as_timestamp v));
   ("seed", λ v, is_Some (optional as_seed v));
   ("seedTag", λ v, is_Some (optional as_seed v));
   ("grants", λ v, is_Some (as_list parseGrantRecord v));
   ("grantsReceived", λ v, is_Some (as_optional_list parseReceivedGrantRecord v));
   ("outbox", λ v, is_Some (as_optional_list parseOutboxItem v));
   ("writers", λ v, is_Some (as_list parseWriter v));
   ("replicas", λ v, is_Some (as_optional_list parseReplica v))].

Definition member_ok (k : string) (v : option json) : Prop :=
  match assoc_get k codec with Some ok => ok v | None => True end.

(** The constraints between members. *)
Definition seeds_paired (o : members) : Prop :=
  is_Some (get_member "seed" o) ↔ is_Some (get_member "seedTag" o).
Definition replicas_owned (o : members) : Prop :=
  as_optional_list parseReplica (get_member "replicas" o) = Some [] ∨
  as_nonempty (get_member "kind" o) = Some REPLICA_SERVER_KIND.
Definition keyed (o : members) : Prop :=
  is_Some (get_member "id" o) ∨
  ∃ writer, as_list parseWriter (get_member "writers" o) = Some [writer].

Record writable_body (o : members) : Prop := {
  wb_members k : member_ok k (get_member k o);
  wb_seeds : seeds_paired o;
  wb_replicas : replicas_owned o;
  wb_keyed : keyed o
}.

Lemma optional_is_Some {A} (f : option json → option A) v x :
  optional f v = Some x → is_Some x ↔ is_Some v.
Proof.
  destruct v as [v|]; simpl; [|intros [= <-]; split; by intros []].
  intros (y&_&->)%fmap_Some. split; eauto.
Qed.

Lemma reads_writable o e : reads o e → e_version e = CONNECTION_ENTRY_VERSION → writable_body o.
Proof.
  intros Hr Hv. split.
  - intros k. unfold member_ok, codec. simpl.
    repeat (case_decide; [subst k|]); try done; try (eexists; by apply Hr).
    rewrite <-Hv. apply Hr.
  - unfold seeds_paired. rewrite <-(optional_is_Some _ _ _ (rd_seed _ _ Hr)).
    rewrite <-(optional_is_Some _ _ _ (rd_seedTag _ _ Hr)). apply Hr.
  - unfold replicas_owned. rewrite (rd_replicas _ _ Hr), (rd_kind _ _ Hr).
    destruct (rd_replicaKind _ _ Hr) as [Hn|Hn]; rewrite Hn; auto.
  - unfold keyed. rewrite (rd_writers _ _ Hr). destruct (rd_keyless _ _ Hr) as [H|H].
    + left. by apply (optional_is_Some _ _ _ (rd_id _ _ Hr)).
    + right. destruct (e_writers e) as [|w [|? ?]]; [done| |done]. eauto.
Qed.

Lemma writable_reads o : writable_body o →
  ∃ e, reads o e ∧ e_version e = CONNECTION_ENTRY_VERSION.
Proof.
  intros [Hm Hs Hrep Hkey].
  assert (∀ k, match assoc_get k codec with Some ok => ok (get_member k o) | None => True end)
    as H by exact Hm. clear Hm.
  pose proof (H "version"). destruct (H "kind") as [kind ?]. destruct (H "id") as [id ?].
  destruct (H "name") as [name ?]. destruct (H "label") as [label ?].
  destruct (H "origin") as [origin ?]. destruct (H "url") as [url ?].
  destruct (H "appKey") as [appKey ?]. destruct (H "firstSeen") as [firstSeen ?].
  destruct (H "lastSeen") as [lastSeen ?]. destruct (H "retired") as [retired ?].
  destruct (H "declined") as [declined ?]. destruct (H "seed") as [seed Hseed].
  destruct (H "seedTag") as [seedTag Htag]. destruct (H "grants") as [grants ?].
  destruct (H "grantsReceived") as [received ?]. destruct (H "outbox") as [outbox ?].
  destruct (H "writers") as [writers Hw]. destruct (H "replicas") as [replicas Hr].
  exists (Build_ConnectionEntry CONNECTION_ENTRY_VERSION kind id name label origin url appKey
    firstSeen lastSeen retired declined seed seedTag grants received outbox writers replicas).
  split; [|done]. split; simpl; try assumption; try done.
  - rewrite (optional_is_Some _ _ _ Hseed), (optional_is_Some _ _ _ Htag). exact Hs.
  - destruct Hrep as [Hrep|Hrep]; [left|right]; congruence.
  - destruct Hkey as [Hkey|[w Hkey]]; [left|right].
    + by eapply optional_is_Some.
    + assert (writers = [w]) as -> by congruence. done.
Qed.
End Members.

(** ** Patches *)

Create HintDb codec discriminated.

Section Patch.
Context {host : JsHost} {base64 : Base64} {key : DirectoryKey}.

(** Every member reads, and outside [K] every member is the stored one. *)
Definition members_ok (o : members) : Prop := ∀ k, member_ok k (get_member k o).
Definition same_outside (K : list string) (o body : members) : Prop :=
  ∀ k, k ∉ K → get_member k body = get_member k o.

Lemma writable_members o : writable_body o → members_ok o.
Proof. by intros []. Qed.
Lemma members_ok_set k v o : member_ok k (Some v) → members_ok o → members_ok (set_member k v o).
Proof.
  intros Hv Ho k'. destruct (decide (k' = k)) as [->|]; [by rewrite get_set_member_eq|].
  by rewrite get_set_member_ne.
Qed.
Lemma members_ok_delete k o : member_ok k None → members_ok o → members_ok (delete_member k o).
Proof.
  intros Hv Ho k'. destruct (decide (k' = k)) as [->|]; [by rewrite get_delete_member_eq|].
  by rewrite get_delete_member_ne.
Qed.
Lemma members_ok_spread p o :
  Forall (λ m, member_ok m.1 (Some m.2)) p → members_ok o → members_ok (spread o p).
Proof.
  intros Hp. revert o. induction Hp as [|[k v] p Hv Hp IH]; intros o Ho; [done|].
  apply IH. by apply members_ok_set.
Qed.

Lemma same_refl K o : same_outside K o o.
Proof. done. Qed.
Lemma same_set K k v o b : k ∈ K → same_outside K o b → same_outside K o (set_member k v b).
Proof. intros Hk Hb k' Hk'. rewrite get_set_member_ne by set_solver. by apply Hb. Qed.
Lemma same_delete K k o b : k ∈ K → same_outside K o b → same_outside K o (delete_member k b).
Proof. intros Hk Hb k' Hk'. rewrite get_delete_member_ne by set_solver. by apply Hb. Qed.
Lemma same_spread K p o b : Forall (λ m, m.1 ∈ K) p → same_outside K o b →
  same_outside K o (spread b p).
Proof.
  intros Hp. revert b. induction Hp as [|[k v] p Hk Hp IH]; intros b Hb; [done|].
  apply IH. by apply same_set.
Qed.

(** Members the flows of [upsert.ts] rewrite freely, and every member any
    writer rewrites. The version, the kind, the id and [firstSeen] are not
    among them. *)
Definition PLAIN : list string :=
  ["name"; "label"; "origin"; "url"; "appKey"; "lastSeen"; "retired"; "declined"; "grants";
   "grantsReceived"; "outbox"].
Definition REWRITTEN : list string := PLAIN ++ ["seed"; "seedTag"; "writers"; "replicas"].

(** A body written over a stored one. *)
Record keeps (o body : members) : Prop := {
  kp_verbatim : same_outside REWRITTEN o body;
  kp_seed v : get_member "seed" o = Some v →
    get_member "seed" body = Some v ∧ get_member "seedTag" body = get_member "seedTag" o
}.

(** A write over a stored body: readable and writable again, at the same
    home. *)
Definition over (o body : members) : Prop :=
  writable_body body ∧ keeps o body ∧ claimedResourceId (JObj body) = claimedResourceId (JObj o).

Lemma claimed_same o body : get_member "id" body = get_member "id" o →
  get_member "writers" body = get_member "writers" o →
  claimedResourceId (JObj body) = claimedResourceId (JObj o).
Proof. simpl. by intros -> ->. Qed.

(** Patched members read, and the constraints between members still hold. *)
Lemma patch_over K o body : writable_body o → members_ok body → same_outside K o body →
  K ⊆ REWRITTEN →
  ("seed" ∉ K ∧ "seedTag" ∉ K ∨ get_member "seed" o = None ∧ seeds_paired body) →
  ("replicas" ∉ K ∨ replicas_owned body) →
  ("writers" ∉ K ∨ keyed body ∧ claimedResourceId (JObj body) = claimedResourceId (JObj o)) →
  over o body.
Proof.
  intros [Hm Hs Hr Hk] Hb Hsame HK Hseed Hrep Hkey.
  assert (∀ k, k ∉ REWRITTEN → get_member k body = get_member k o) as Hver.
  { intros k Hnot. apply Hsame. set_solver. }
  assert (get_member "id" body = get_member "id" o) as Hid by (by apply Hver, (bool_decide_unpack _)).
  split_and!; [split|split|]; [done|..|exact Hver| |].
  - destruct Hseed as [[H1 H2]|[_ H]]; [|done]. unfold seeds_paired. by rewrite !Hsame.
  - destruct Hrep as [H|H]; [|done]. unfold replicas_owned.
    rewrite (Hsame _ H), (Hver "kind"); [done|]. by apply (bool_decide_unpack _).
  - destruct Hkey as [H|[H _]]; [|done]. unfold keyed. by rewrite (Hsame _ H), Hid.
  - intros v Hv. destruct Hseed as [[H1 H2]|[H _]]; [|congruence]. by rewrite !Hsame.
  - destruct Hkey as [H|[_ H]]; [|done]. apply claimed_same; auto.
Qed.

Lemma plain_over o body : writable_body o → members_ok body → same_outside PLAIN o body →
  over o body.
Proof.
  intros. apply (patch_over PLAIN); try done; [by apply (bool_decide_unpack _)|left..];
    try split; by apply (bool_decide_unpack _).
Qed.
End Patch.

(** ** Records the writers build *)
Section Records.
Context {host : JsHost} {base64 : Base64} {paths : ServerPaths} {key : DirectoryKey}.
Context {laws : JsHostLaws}.

Lemma parseConnectionZcap_id v z : parseConnectionZcap (Some v) = Some z → z = v.
Proof. unfold parseConnectionZcap. intros H. repeat (apply bind_Some in H as (?&?&H)). congruence. Qed.

Lemma requiredConnectionZcap_Ok v z : requiredConnectionZcap v = Ok z →
  z = v ∧ parseConnectionZcap (Some z) = Some z.
Proof.
  unfold requiredConnectionZcap. case_match eqn:Hp; [|done]. intros [= <-].
  pose proof (parseConnectionZcap_id _ _ Hp) as ->. done.
Qed.

Lemma as_timestamp_str v s : as_timestamp v = Some s → v = Some (JStr s).
Proof.
  unfold as_timestamp. intros (t&Ht&Hd)%bind_Some. case_decide; simplify_eq.
  by destruct v as [[]|]; simplify_eq/=.
Qed.

Lemma grantRecord_parses z grantKind now : parseConnectionZcap (Some z) = Some z → time_value now →
  parseGrantRecord (grantRecord z grantKind (toISOString now)) =
    Some (grantRecord z grantKind (toISOString now)).
Proof.
  intros Hz Hn. unfold parseGrantRecord. simpl. rewrite Hz. simpl. by rewrite as_timestamp_iso.
Qed.

Lemma receivedRecord_parses z grantKind now : parseConnectionZcap (Some z) = Some z →
  time_value now →
  parseReceivedGrantRecord (receivedRecord z grantKind (toISOString now)) =
    Some (receivedRecord z grantKind (toISOString now)).
Proof.
  intros Hz Hn. unfold parseReceivedGrantRecord. simpl. rewrite Hz. simpl.
  by rewrite as_timestamp_iso.
Qed.

Lemma outboxItem_parses message now : is_Some (as_object (Some message)) → time_value now →
  parseOutboxItem (outboxItem message (toISOString now)) =
    Some (outboxItem message (toISOString now)).
Proof.
  intros [o Ho] Hn. unfold parseOutboxItem. simpl. simpl in Ho. rewrite Ho. simpl.
  by rewrite as_timestamp_iso.
Qed.

Lemma supersedeItem_parses supersedes item item' :
  parseOutboxItem item = Some item → supersedeItem supersedes item = Some item' →
  parseOutboxItem item' = Some item'.
Proof.
  intros Hp. unfold supersedeItem. case_match eqn:He; [|by intros [= <-]].
  case_decide; [by intros [= <-]|]. case_decide; [done|]. intros [= <-].
  unfold parseOutboxItem in *. apply bind_Some in Hp as (o&Ho&Hp).
  apply bind_Some in Hp as (m&Hm&Hp). apply bind_Some in Hp as (c&Hc&_).
  destruct item; simplify_eq/=. rewrite get_set_member_eq, get_set_member_ne by done.
  destruct (get_member "message" o) as [[| | | | |message]|]; simplify_eq/=. by rewrite Hc.
Qed.

Lemma supersede_fixed outbox message now supersedes :
  fixed parseOutboxItem outbox → is_Some (as_object (Some message)) → time_value now →
  fixed parseOutboxItem (supersedeAndQueueEnvelope outbox message (toISOString now) supersedes).
Proof.
  intros Ho Hm Hn. unfold supersedeAndQueueEnvelope. apply fixed_app.
  - apply Forall_forall. intros item' (item&Hi&Hs)%list_elem_of_omap.
    eapply supersedeItem_parses; [|done]. unfold fixed in Ho. rewrite Forall_forall in Ho. auto.
  - constructor; [by apply outboxItem_parses|constructor].
Qed.

Lemma findIndex_Some {A} (f : A → bool) xs i x : findIndex f xs = Some (i, x) →
  xs !! i = Some x ∧ f x = true.
Proof.
  revert i. induction xs as [|y xs IH]; intros i; simpl; [done|].
  destruct (f y) eqn:Hy; [by intros [= <- <-]|].
  intros ([j z]&Hj&[= -> ->])%fmap_Some. simpl. by apply IH.
Qed.

Lemma renewedGrantRecord_parses o e zcap sourceZcapId now record :
  reads o e → parseConnectionZcap (Some zcap) = Some zcap → time_value now →
  renewedGrantRecord e zcap sourceZcapId (toISOString now) = Ok record →
  parseGrantRecord record = Some record.
Proof.
  intros Hr Hz Hn. unfold renewedGrantRecord.
  destruct (findIndex _ _) as [[index source]|] eqn:Hf; [|done].
  apply findIndex_Some in Hf as [Hsource _]. repeat case_match; try done. intros [= <-].
  pose proof (grants_fixed _ _ Hr) as Hg. unfold fixed in Hg. rewrite Forall_forall in Hg.
  apply list_elem_of_lookup_2, Hg in Hsource.
  unfold parseGrantRecord in *. apply bind_Some in Hsource as (m&Hm&Hp).
  apply bind_Some in Hp as (z&Hzm&Hp). apply bind_Some in Hp as (k&Hk&Hp).
  apply bind_Some in Hp as (g&Hg'&_). destruct source; simplify_eq/=.
  rewrite Hz. simpl. unfold string_member. simpl. rewrite (as_timestamp_str _ _ Hg'). simpl.
  rewrite <-(as_timestamp_str _ _ Hg'), Hg'. simpl. by rewrite as_timestamp_iso.
Qed.
End Records.

(** ** Replica items and writer members *)

(** A parser that accepts an item as it is. *)
Abbreviation accepts parse item := (parse item = Some item).

Section Items.
Context {host : JsHost} {base64 : Base64} {paths : ServerPaths} {key : DirectoryKey}.
Context {laws : JsHostLaws}.

(** What the codec asks of a replica item. *)
Record replica_ok (o : members) : Prop := {
  rep_fromSpace : isSpaceContainerUrl (get_member "fromSpace" o) = true;
  rep_spaceId : isConnectionFreshId (get_member "spaceId" o) = true;
  rep_registrationId : absent_or isConnectionFreshId (get_member "registrationId" o) = true;
  rep_pending : absent_or isConnectionFreshId (get_member "pendingRegistrationId" o) = true;
  rep_collections : match get_member "collections" o with
                    | None => true
                    | Some v => isCollectionList v
                    end = true;
  rep_markers marker : is_Some (optional as_timestamp (get_member (marker_key marker) o))
}.

Lemma parseReplica_ok item : accepts parseReplica item ↔ ∃ o, item = JObj o ∧ replica_ok o.
Proof.
  unfold parseReplica. split.
  - intros H. apply bind_Some in H as (o&Ho&H). destruct item; simplify_eq/=. exists o.
    split; [done|]. repeat (apply bind_Some in H as (?&?&H)).
    repeat match goal with H : when _ = Some _ |- _ => apply when_Some in H end.
    split; try done. intros []; eauto.
  - intros (o&->&[Hf Hs Hr Hp Hc Hm]). simpl. rewrite Hf, Hs, Hr, Hp, Hc. simpl.
    destruct (Hm stoppedAt) as [? Ha], (Hm restartedAt) as [? Hb], (Hm lostAt) as [? Hl].
    simpl in *. rewrite Ha. simpl. rewrite Hb. simpl. by rewrite Hl.
Qed.

Lemma assertFreshId_Ok value u : assertFreshId value = Ok u →
  isConnectionFreshId (Some (JStr value)) = true.
Proof. unfold assertFreshId. by case_match. Qed.

Lemma spaceContainerUrl_Ok value url : spaceContainerUrl value = Ok url →
  isSpaceContainerUrl (Some (JStr url)) = true.
Proof.
  unfold spaceContainerUrl, isSpaceContainerUrl. simpl.
  destruct (endsWith value "/") eqn:He; [|done]. destruct (url_href value) eqn:Hu; [|done].
  intros [= <-]. rewrite (url_href_slash _ _ Hu He). rewrite (url_href_idem _ _ Hu). done.
Qed.

Lemma replicaItem_accepted value fromSpace spaceId u :
  spaceContainerUrl value = Ok fromSpace → assertFreshId spaceId = Ok u →
  accepts parseReplica (replicaItem fromSpace spaceId).
Proof.
  intros Hf%spaceContainerUrl_Ok Hs%assertFreshId_Ok. apply parseReplica_ok. eexists.
  split; [done|]. split; try done. intros []; by eexists.
Qed.

Lemma incomingReplicas_accepted replicas incoming items :
  fixed parseReplica incoming → incomingReplicas replicas incoming = Ok items →
  fixed parseReplica items.
Proof.
  revert incoming. induction replicas as [|[value spaceId] replicas IH]; intros incoming Hin; simpl.
  { by intros [= <-]. }
  destruct (spaceContainerUrl value) as [fromSpace|] eqn:Hf; [|done]. simpl.
  destruct (assertFreshId spaceId) as [u|] eqn:Hs; [|done]. simpl.
  case_match; [done|]. apply IH, fixed_app; [done|].
  constructor; [by eapply replicaItem_accepted|constructor].
Qed.

Lemma setPending_accepted id item u : assertFreshId id = Ok u → accepts parseReplica item →
  accepts parseReplica (with_member "pendingRegistrationId" (JStr id) item).
Proof.
  intros Hid%assertFreshId_Ok (o&->&[])%parseReplica_ok. apply parseReplica_ok. eexists.
  split; [done|]. split; members; try done. intros marker.
  specialize (rep_markers0 marker). destruct marker; simpl in *; by members.
Qed.

Lemma settled_accepted id item u : assertFreshId id = Ok u → accepts parseReplica item →
  accepts parseReplica (without_member "pendingRegistrationId"
                          (with_member "registrationId" (JStr id) item)).
Proof.
  intros Hid%assertFreshId_Ok (o&->&[])%parseReplica_ok. apply parseReplica_ok. eexists.
  split; [done|]. split; members; try done. intros marker.
  specialize (rep_markers0 marker). destruct marker; simpl in *; by members.
Qed.

Lemma setMarker_accepted marker now item item' : time_value now → accepts parseReplica item →
  setMarker marker (toISOString now) item = Some item' → accepts parseReplica item'.
Proof.
  intros Hn (o&->&[])%parseReplica_ok. unfold setMarker. destruct (member _ _); [done|]. intros [= <-].
  apply parseReplica_ok. eexists. split; [done|].
  split; [destruct marker; simpl; by members..|]. intros marker'.
  destruct (decide (marker' = marker)) as [->|Hne].
  - rewrite get_set_member_eq. simpl. by rewrite as_timestamp_iso.
  - rewrite get_set_member_ne by (by destruct marker, marker'). auto.
Qed.

Lemma clearMarker_accepted marker item item' : accepts parseReplica item →
  clearMarker marker item = Some item' → accepts parseReplica item'.
Proof.
  intros (o&->&[])%parseReplica_ok. unfold clearMarker. destruct (member _ _); [|done]. intros [= <-].
  apply parseReplica_ok. eexists. split; [done|].
  split; [destruct marker; simpl; by members..|]. intros marker'.
  destruct (decide (marker' = marker)) as [->|Hne].
  - rewrite get_delete_member_eq. eauto.
  - rewrite get_delete_member_ne by (by destruct marker, marker'). auto.
Qed.

(** What the codec asks of a writer member. *)
Lemma parseWriter_ok item : accepts parseWriter item ↔ ∃ o, item = JObj o ∧
  is_Some (as_nonempty (get_member "writerId" o)) ∧
  (∃ label, get_member "label" o = Some (JStr label) ∧ normalizeDisplayName label = Some label) ∧
  is_Some (as_timestamp (get_member "lastSeen" o)) ∧ ∃ b, get_member "active" o = Some (JBool b).
Proof.
  unfold parseWriter. split.
  - intros H. apply bind_Some in H as (o&Ho&H). destruct item; simplify_eq/=. exists o.
    apply bind_Some in H as (?&?&H). apply bind_Some in H as (l&Hl&H).
    apply bind_Some in H as (?&?&H). apply bind_Some in H as (b&Hb&H).
    apply bind_Some in H as (l'&Hl'&[= Heq]).
    assert (get_member "label" o = Some (JStr l')) as Hlabel.
    { rewrite <-Heq. by rewrite get_set_member_eq. }
    rewrite Hlabel in Hl. injection Hl as <-. split_and!; eauto.
    destruct (get_member "active" o) as [[]|]; simplify_eq; eauto.
  - intros (o&->&[w Hw]&(l&Hl&Hn)&[s Hs]&[b Hb]). simpl. rewrite Hw. simpl. rewrite Hl. simpl.
    rewrite Hs. simpl. rewrite Hb. simpl. rewrite Hn. simpl. do 2 f_equal.
    clear -Hl. induction o as [|[k v] o IH]; [done|]. simpl in *.
    case_decide; [by simplify_eq|]. f_equal. auto.
Qed.

Lemma ownMember_accepted writerId value label now : writerId ≠ "" → time_value now →
  normalizeDisplayName value = Some label → accepts parseWriter (ownMember writerId label now).
Proof.
  intros Hw Hn Hl. apply parseWriter_ok. eexists. split; [done|]. simpl. split_and!.
  - unfold as_nonempty. simpl. by rewrite decide_False.
  - exists label. split; [done|]. by eapply normalizeDisplayName_idem.
  - by rewrite as_timestamp_iso.
  - eauto.
Qed.

Lemma touch_accepted now item : time_value now → accepts parseWriter item →
  accepts parseWriter (touch now item).
Proof.
  intros Hn (o&->&Hw&Hl&Hs&Hb)%parseWriter_ok. apply parseWriter_ok. eexists. split; [done|].
  members. split_and!; try done; [by rewrite as_timestamp_iso|eauto].
Qed.

Lemma markWriter_accepted policy now item : accepts parseWriter item →
  accepts parseWriter (markWriter policy now item).
Proof.
  intros H. unfold markWriter. case_match; [|done].
  apply parseWriter_ok in H as (o&->&Hw&Hl&Hs&Hb). apply parseWriter_ok. eexists.
  split; [done|]. members. split_and!; eauto.
Qed.

Lemma fixed_imap parse (f : nat → json → json) xs :
  fixed parse xs → (∀ i x, accepts parse x → accepts parse (f i x)) → fixed parse (imap f xs).
Proof.
  unfold fixed. rewrite !Forall_forall. intros Hxs Hf y (i&x&->&Hx)%elem_of_lookup_imap.
  by eapply Hf, Hxs, list_elem_of_lookup_2.
Qed.

Lemma fixed_sublist parse xs ys : fixed parse ys → xs `sublist_of` ys → fixed parse xs.
Proof.
  unfold fixed. rewrite !Forall_forall. intros H Hs x Hx. apply H. by eapply elem_of_sublist.
Qed.
End Items.

(** ** The members each write sets *)
Section Ok.
Context {host : JsHost} {base64 : Base64} {paths : ServerPaths} {key : DirectoryKey}.
Context {laws : JsHostLaws}.

Lemma ok_lastSeen now : time_value now → member_ok "lastSeen" (Some (JStr (toISOString now))).
Proof. intros. unfold member_ok. simpl. rewrite as_timestamp_iso by done. eauto. Qed.
Lemma ok_declined now : time_value now → member_ok "declined" (Some (JStr (toISOString now))).
Proof. intros. unfold member_ok. simpl. rewrite as_timestamp_iso by done. simpl. eauto. Qed.
Lemma ok_retired s : as_timestamp (Some (JStr s)) = Some s → member_ok "retired" (Some (JStr s)).
Proof. intros H. unfold member_ok. simpl. rewrite H. simpl. eauto. Qed.
Lemma ok_no_retired : member_ok "retired" None.
Proof. by eexists. Qed.
Lemma ok_no_declined : member_ok "declined" None.
Proof. by eexists. Qed.
Lemma ok_no_appKey : member_ok "appKey" None.
Proof. by eexists. Qed.
Lemma ok_no_label : member_ok "label" None.
Proof. by eexists. Qed.
Lemma ok_name value name : normalizeDisplayName value = Some name →
  member_ok "name" (Some (JStr name)).
Proof. intros H%as_name_normalized. unfold member_ok. simpl. rewrite H. simpl. eauto. Qed.
Lemma ok_label value label : normalizeDisplayName value = Some label →
  member_ok "label" (Some (JStr label)).
Proof. intros H%as_name_normalized. unfold member_ok. simpl. rewrite H. simpl. eauto. Qed.
Lemma ok_url url : member_ok "url" (Some (JStr url)).
Proof. unfold member_ok. simpl. eauto. Qed.
Lemma ok_origin origin : member_ok "origin" (Some (JStr origin)).
Proof. unfold member_ok. simpl. eauto. Qed.
Lemma ok_appKey appKey : appKey ≠ "" → member_ok "appKey" (Some (JStr appKey)).
Proof.
  intros Hk. unfold member_ok. simpl. unfold as_nonempty. simpl. rewrite decide_False by done.
  simpl. eauto.
Qed.
Lemma ok_seed k seed : k ∈ ["seed"; "seedTag"] → is_Some (decodeConnectionSeed (Some (JStr seed))) →
  member_ok k (Some (JStr seed)).
Proof.
  intros Hk [bytes Hb]. unfold member_ok, as_seed.
  apply elem_of_cons in Hk as [->|Hk%list_elem_of_singleton]; [|subst]; simpl; unfold as_seed;
    rewrite Hb; simpl; eauto.
Qed.
Lemma ok_grants xs : fixed parseGrantRecord xs → member_ok "grants" (Some (JArr xs)).
Proof. intros H%as_list_fixed. unfold member_ok. simpl. eauto. Qed.
Lemma ok_received xs : fixed parseReceivedGrantRecord xs →
  member_ok "grantsReceived" (Some (JArr xs)).
Proof. intros H%as_list_fixed. unfold member_ok. simpl. eauto. Qed.
Lemma ok_outbox xs : fixed parseOutboxItem xs → member_ok "outbox" (Some (JArr xs)).
Proof. intros H%as_list_fixed. unfold member_ok. simpl. eauto. Qed.
Lemma ok_writers xs : fixed parseWriter xs → member_ok "writers" (Some (JArr xs)).
Proof. intros H%as_list_fixed. unfold member_ok. simpl. eauto. Qed.
Lemma ok_replicas xs : fixed parseReplica xs → member_ok "replicas" (Some (JArr xs)).
Proof. intros H%as_list_fixed. unfold member_ok. simpl. eauto. Qed.

Lemma ok_declare k v : (∀ s, v = Some s → member_ok k (Some (JStr s))) →
  Forall (λ m, member_ok m.1 (Some m.2)) (declare k v).
Proof. intros H. destruct v; simpl; constructor; eauto. Qed.
Lemma same_declare (K : list string) k v : k ∈ K → Forall (λ m : string * json, m.1 ∈ K) (declare k v).
Proof. intros H. destruct v; simpl; constructor; eauto. Qed.
Lemma ok_declare_name v : Forall (λ m, member_ok m.1 (Some m.2))
  (declare "name" (v ≫= normalizeDisplayName)).
Proof. apply ok_declare. intros s (value&_&H)%bind_Some. by eapply ok_name. Qed.

Lemma newConnectionEntry_ok kind did now :
  kind ≠ "" → startsWith did "did:" = true → time_value now →
  members_ok (newConnectionEntry kind did now).
Proof.
  intros Hk Hd Hn k. unfold member_ok, codec. simpl.
  repeat (case_decide; [subst k; simpl; try (by eexists); try done|]); try done.
  - unfold as_nonempty. simpl. rewrite decide_False by done. eauto.
  - unfold as_did. simpl. rewrite Hd. simpl. eauto.
  - rewrite as_timestamp_iso by done. eauto.
  - rewrite as_timestamp_iso by done. eauto.
Qed.
End Ok.

#[export] Hint Resolve ok_lastSeen ok_declined ok_retired ok_no_retired ok_no_declined ok_no_appKey
  ok_no_label ok_name ok_label ok_url ok_origin ok_appKey ok_grants ok_received ok_outbox
  ok_writers ok_replicas ok_declare_name ok_declare same_declare
  members_ok_set members_ok_delete members_ok_spread same_refl same_set same_delete same_spread
  fixed_app fixed_filter fixed_nil grants_fixed received_fixed outbox_fixed writers_fixed
  replicas_fixed writable_members : codec.
#[export] Hint Extern 1 (Forall _ (_ :: _)) => constructor : codec.
#[export] Hint Extern 1 (Forall _ []) => constructor : codec.
#[export] Hint Extern 1 (Forall _ (_ ++ _)) => apply Forall_app; split : codec.
#[export] Hint Extern 1 (_ ∈ _) => by apply (bool_decide_unpack _) : codec.
#[export] Hint Extern 1 (_ ⊆ _) => by apply (bool_decide_unpack _) : codec.

(** ** Each change *)
Section Changes.
Context {host : JsHost} {base64 : Base64} {paths : ServerPaths} {key : DirectoryKey}.
Context {laws : JsHostLaws}.

(** A change whose bodies are sound: created at [rid], or written over a body
    this build reads there. *)
Record sound_change {Stop} (rid : string)
    (change : option WritableConnection → result (ConnectionChange Stop)) : Prop := {
  sc_create body : change None = Ok (Write body) →
    writable_body body ∧ claimedResourceId (JObj body) = Some rid;
  sc_update o e etag body : reads o e → e_version e = CONNECTION_ENTRY_VERSION →
    claimedResourceId (JObj o) = Some rid →
    change (Some {| wc_entry := e; wc_body := o; wc_etag := etag |}) = Ok (Write body) → over o body
}.

Lemma result_bind_Ok {A B} (r : result A) (k : A → result B) b :
  r ≫= k = Ok b → ∃ a, r = Ok a ∧ k a = Ok b.
Proof. destruct r; [by eauto|done]. Qed.

(** A change that only ever writes over an entry, and touches plain members. *)
Lemma plain_change {Stop} rid (change : option WritableConnection → result (ConnectionChange Stop)) :
  (∀ body, change None ≠ Ok (Write body)) →
  (∀ o e etag body, reads o e → 
    change (Some {| wc_entry := e; wc_body := o; wc_etag := etag |}) = Ok (Write body) →
    (members_ok o → members_ok body) ∧ same_outside PLAIN o body) →
  sound_change rid change.
Proof.
  intros Hnone Hsome. split; [by intros body ?%Hnone|].
  intros o e etag body Hr Hv _ Hc. destruct (Hsome _ _ _ _ Hr Hc) as [Hok Hsame].
  pose proof (reads_writable _ _ Hr Hv) as Hw. apply plain_over; [done|exact (Hok (wb_members _ Hw))|done].
Qed.

Ltac plain_change :=
  apply plain_change;
  [ done
  | intros o e etag body Hr Hc; simpl in Hc; repeat (apply result_bind_Ok in Hc as (?&?&Hc));
    repeat case_match; simplify_eq; split; [intros Ho|]; eauto 12 with codec ].

Lemma removeGrants_sound rid zcapIds : sound_change rid (removeGrantsChange zcapIds).
Proof. unfold removeGrantsChange. plain_change. Qed.

Lemma settleOutbox_sound rid createdAt : sound_change rid (settleOutboxChange createdAt).
Proof. unfold settleOutboxChange. plain_change. Qed.

Lemma clearReceived_sound rid : sound_change rid clearReceivedChange.
Proof. unfold clearReceivedChange. plain_change. Qed.

Lemma dropReceived_sound rid zcapId : sound_change rid (dropReceivedChange zcapId).
Proof. unfold dropReceivedChange. plain_change. Qed.

Lemma markDeclined_sound rid now : time_value now → sound_change rid (markDeclinedChange now).
Proof. unfold markDeclinedChange. intros. plain_change. Qed.

Lemma unretire_sound rid kind now : time_value now →
  sound_change rid (unretireConnectionChange kind now).
Proof. unfold unretireConnectionChange. intros. plain_change. Qed.

Lemma reads_retired o e s : reads o e → e_retired e = Some s → as_timestamp (Some (JStr s)) = Some s.
Proof.
  intros Hr He. pose proof (rd_retired _ _ Hr) as Ht. rewrite He in Ht.
  destruct (get_member "retired" o) as [v|]; [|done]. simpl in Ht.
  apply fmap_Some in Ht as (?&Ht&[= <-]). by rewrite <-(as_timestamp_str _ _ Ht).
Qed.

Lemma retire_sound rid handled spaceUrl now : time_value now →
  sound_change rid (retireConnectionChange handled spaceUrl now).
Proof.
  unfold retireConnectionChange. intros. apply plain_change; [done|].
  intros o e etag body Hr Hc. simpl in Hc. apply result_bind_Ok in Hc as (?&_&Hc).
  repeat case_match; simplify_eq.
  assert (member_ok "retired" (Some (JStr (default (toISOString now) (e_retired e))))).
  { apply ok_retired. destruct (e_retired e) eqn:He; simpl; [by eapply reads_retired|].
    by apply as_timestamp_iso. }
  split; [intros Ho|]; eauto 12 with codec.
Qed.

Lemma prune_sound rid deadChains now : sound_change rid (pruneSupersededChange deadChains now).
Proof.
  unfold pruneSupersededChange. apply plain_change; [done|].
  intros o e etag body Hr Hc. simpl in Hc. case_match; simplify_eq.
  split; [intros Ho|by eauto 12 with codec].
  apply members_ok_set; [by eauto with codec|]. apply members_ok_set; [|done].
  apply ok_grants. eapply fixed_sublist; [by eapply grants_fixed|apply positions_sublist].
Qed.

(** *** [recordReceivedGrants] *)

Lemma mergeOne_fixed now lifetime merged record :
  fixed parseReceivedGrantRecord merged.*2 → accepts parseReceivedGrantRecord record →
  fixed parseReceivedGrantRecord (mergeOne now lifetime merged record).*2.
Proof.
  intros Hm Hr. unfold mergeOne. case_match; [done|].
  destruct (findIndex _ _) as [[index held]|].
  - destruct (_ || _); [|done]. rewrite (list_fmap_insert snd (merged : list _)). by apply Forall_insert.
  - rewrite fmap_app. apply fixed_app; [done|]. by repeat constructor.
Qed.

Lemma merged_fixed now lifetime incoming merged :
  fixed parseReceivedGrantRecord merged.*2 → fixed parseReceivedGrantRecord incoming →
  fixed parseReceivedGrantRecord (foldl (mergeOne now lifetime) merged incoming).*2.
Proof.
  intros Hm Hi. revert merged Hm. induction Hi; intros merged Hm; simpl; [done|].
  by apply IHHi, mergeOne_fixed.
Qed.

Lemma recordReceived_sound rid q incoming :
  fixed parseReceivedGrantRecord incoming → sound_change rid (recordReceivedChange q incoming).
Proof.
  unfold recordReceivedChange. intros Hi. apply plain_change; [done|].
  intros o e etag body Hr Hc. simpl in Hc. case_match; [done|]. case_match; simplify_eq.
  split; [intros Ho|by eauto 12 with codec].
  apply members_ok_set; [|done]. apply ok_received.
  eapply fixed_sublist; [|apply sublist_fmap_mono, sublist_filter]. apply merged_fixed; [|done].
  rewrite imap_tag_snd. by eapply received_fixed.
Qed.

Lemma checkedReceived_fixed q grants incoming : time_value (rr_now q) →
  mapM (checkedReceived q) grants = Ok incoming → fixed parseReceivedGrantRecord incoming.
Proof.
  intros Hn. revert incoming. induction grants as [|grant grants IH]; intros incoming; simpl.
  { intros [= <-]. constructor. }
  intros (record&Hrec&(rest&Hrest&[= <-])%result_bind_Ok)%result_bind_Ok.
  constructor; [|by apply IH]. unfold checkedReceived in Hrec.
  apply result_bind_Ok in Hrec as (z&[_ Hz]%requiredConnectionZcap_Ok&Hrec).
  case_match; [done|]. apply result_bind_Ok in Hrec as (inside&_&Hrec).
  repeat case_match; simplify_eq. by apply receivedRecord_parses.
Qed.

(** *** [recordRenewedGrants] *)

Lemma checkedDelegatedZcap_Ok did v z : checkedDelegatedZcap did v = Ok z →
  parseConnectionZcap (Some z) = Some z ∧ zcap_controller z = did.
Proof.
  unfold checkedDelegatedZcap. intros (z'&[-> Hp]%requiredConnectionZcap_Ok&H)%result_bind_Ok.
  case_match; simplify_eq. done.
Qed.

Lemma mapM_Ok {A B} (f : A → result B) xs ys : mapM f xs = Ok ys → Forall2 (λ x y, f x = Ok y) xs ys.
Proof.
  revert ys. induction xs as [|x xs IH]; intros ys; simpl; [intros [= <-]; constructor|].
  intros (y&Hy&(ys'&Hys&[= <-])%result_bind_Ok)%result_bind_Ok. constructor; auto.
Qed.

Lemma recordRenewed_sound rid q renewed : time_value (rn_now q) →
  recordRenewedPrepare q = Ok renewed → is_Some (as_object (Some (rn_message q))) →
  sound_change rid (recordRenewedChange q renewed).
Proof.
  intros Hn Hprep Hm. unfold recordRenewedChange. apply plain_change; [done|].
  assert (Forall (λ r, parseConnectionZcap (Some r.1) = Some r.1) renewed) as Hz.
  { unfold recordRenewedPrepare in Hprep. apply result_bind_Ok in Hprep as (?&_&Hprep).
    apply result_bind_Ok in Hprep as (r&Hmap%mapM_Ok&Hprep).
    apply result_bind_Ok in Hprep as (?&_&Hprep). apply result_bind_Ok in Hprep as (?&_&[= <-]).
    eapply Forall2_Forall_r; [exact Hmap|]. apply Forall_true. intros r1 r2 Hc.
    apply result_bind_Ok in Hc as (z&Hz%checkedDelegatedZcap_Ok&Hc).
    apply result_bind_Ok in Hc as (?&_&[= <-]). apply Hz. }
  intros o e etag body Hr Hc. simpl in Hc. case_match; [done|].
  apply result_bind_Ok in Hc as (received&_&Hc). case_match; [|done].
  apply result_bind_Ok in Hc as (appended&Happ%mapM_Ok&[= <-]).
  assert (fixed parseGrantRecord appended).
  { eapply Forall2_Forall_r; [exact Happ|]. eapply Forall_impl; [exact Hz|].
    intros r Hz' record. by apply (renewedGrantRecord_parses o). }
  split; [intros Ho|by eauto 12 with codec].
  apply members_ok_set; [|by eauto with codec].
  apply ok_outbox, supersede_fixed; [by eapply outbox_fixed|done..].
Qed.
End Changes.

(** ** The changes that may create an entry *)
Section Creating.
Context {host : JsHost} {base64 : Base64} {paths : ServerPaths} {key : DirectoryKey}.
Context {laws : JsHostLaws}.

(** A patch of a fresh entry. *)
Lemma created_sound K kind did now body :
  kind ≠ "" → startsWith did "did:" = true → time_value now → members_ok body →
  same_outside K (newConnectionEntry kind did now) body → "id" ∉ K → "kind" ∉ K →
  ("seed" ∉ K ∧ "seedTag" ∉ K ∨ seeds_paired body) →
  ("replicas" ∉ K ∨ kind = REPLICA_SERVER_KIND) →
  writable_body body ∧ claimedResourceId (JObj body) = Some (connectionResourceId (ByDid did)).
Proof.
  intros Hk Hd Hn Hb Hsame Hid Hkind Hseed Hrep.
  pose proof (Hsame _ Hid) as Hid'. pose proof (Hsame _ Hkind) as Hkind'. simpl in Hid', Hkind'.
  split; [split; [done|..]|simpl; by rewrite Hid'].
  - destruct Hseed as [[H1 H2]|]; [|done]. unfold seeds_paired.
    by rewrite (Hsame _ H1), (Hsame _ H2).
  - unfold replicas_owned. destruct Hrep as [H|H].
    + left. by rewrite (Hsame _ H).
    + right. rewrite Hkind', H. unfold as_nonempty. simpl. done.
  - left. rewrite Hid'. eauto.
Qed.

(** *** [setConnectionLabel] *)

Lemma checkedLabel_normal label trimmed normalized : checkedLabel label = Ok (trimmed, normalized) →
  ∀ s, normalized = Some s → ∃ value, normalizeDisplayName value = Some s.
Proof.
  unfold checkedLabel. intros H s ->. destruct (trim <$> label) as [text|]; [|done].
  destruct text; [done|]. destruct (normalizeDisplayName _) eqn:Hn; [|done]. simplify_eq. eauto.
Qed.

Lemma setLabel_sound `{!DidKeys} q trimmed normalized :
  startsWith (sl_did q) "did:" = true → time_value (sl_now q) →
  checkedLabel (sl_label q) = Ok (trimmed, normalized) →
  sound_change (connectionResourceId (ByDid (sl_did q)))
    (setLabelChange q trimmed normalized (sl_name q ≫= normalizeDisplayName)).
Proof.
  intros Hd Hn Hl. pose proof (checkedLabel_normal _ _ _ Hl) as Hnormal.
  assert (∀ s, normalized = Some s → member_ok "label" (Some (JStr s))) as Hlabel.
  { intros s [value Hv]%Hnormal. by eapply ok_label. }
  assert (∀ s, sl_name q ≫= normalizeDisplayName = Some s → member_ok "name" (Some (JStr s))) as Hname.
  { intros s (value&_&Hv)%bind_Some. by eapply ok_name. }
  generalize dependent (sl_name q ≫= normalizeDisplayName). intros name Hname. split.
  - intros body Hc. simpl in Hc. case_match; [|done]. case_match eqn:Hb; [|done]. simplify_eq.
    apply andb_true_iff in Hb as [Hkind%bool_decide_eq_true _].
    rewrite Hkind. apply (created_sound PLAIN "wallet-client" (sl_did q) (sl_now q));
      [done|done|done| | |by apply (bool_decide_unpack _)..|left|left].
    + apply members_ok_spread; [|by apply newConnectionEntry_ok]. eauto with codec.
    + eauto with codec.
    + split; by apply (bool_decide_unpack _).
    + by apply (bool_decide_unpack _).
  - intros o e etag body Hr Hv _ Hc. simpl in Hc. apply result_bind_Ok in Hc as (?&_&Hc).
    case_match; [done|]. simplify_eq. pose proof (reads_writable _ _ Hr Hv) as Hw.
    apply plain_over; [done|..].
    + destruct name, trimmed, normalized; simpl; eauto 12 with codec.
    + destruct name, trimmed, normalized; simpl; eauto 12 with codec.
Qed.

(** *** [recordGrants] *)

Lemma recordedGrants_fixed did kind now seen grants recorded : time_value now →
  recordedGrants did kind (toISOString now) seen grants = Ok recorded →
  fixed parseGrantRecord recorded.
Proof.
  intros Hn. revert seen recorded. induction grants as [|grant grants IH]; intros seen recorded; simpl.
  { intros [= <-]. constructor. }
  intros (z&Hz&(u&_&H)%result_bind_Ok)%result_bind_Ok.
  unfold checkedGrant in Hz. apply result_bind_Ok in Hz as (z'&[Hp _]%checkedDelegatedZcap_Ok&Hz).
  destruct (decide (grant.2 ∈ _)); simplify_eq.
  destruct (decide (zcap_id z ∈ seen)); [by eapply IH|]. apply result_bind_Ok in H as (rest&Hrest&[= <-]).
  constructor; [by apply grantRecord_parses|by eapply IH].
Qed.

(** A seed a write may carry: both parts decode. *)
Definition seed_pair (seed seedTag : option string) : Prop :=
  match seed, seedTag with
  | None, None => True
  | Some seed, Some seedTag => is_Some (decodeConnectionSeed (Some (JStr seed))) ∧
                               is_Some (decodeConnectionSeed (Some (JStr seedTag)))
  | _, _ => False
  end.

Lemma assertPairwiseSeed_Ok seed seedTag u : assertPairwiseSeed seed seedTag = Ok u →
  seed_pair seed seedTag.
Proof.
  unfold assertPairwiseSeed, seed_pair, verifyConnectionSeedTag.
  destruct seed, seedTag; try done. case_match eqn:Hv; [|done]. intros _.
  destruct (decodeConnectionSeed (Some (JStr s))), (decodeConnectionSeed (Some (JStr s0)));
    by eauto.
Qed.

(** What the declared seed members leave. *)
Lemma declaredSeed_ok seed seedTag : seed_pair seed seedTag →
  Forall (λ m, member_ok m.1 (Some m.2)) (declare "seed" seed ++ declare "seedTag" seedTag).
Proof.
  destruct seed, seedTag; simpl; try done. intros [? ?].
  repeat constructor; (apply ok_seed; [by apply (bool_decide_unpack _)|done]).
Qed.

Lemma declaredSeed_paired seed seedTag o : seed_pair seed seedTag → is_Some seed →
  get_member "seed" (spread o (declare "seed" seed ++ declare "seedTag" seedTag)) =
    JStr <$> seed ∧
  get_member "seedTag" (spread o (declare "seed" seed ++ declare "seedTag" seedTag)) =
    JStr <$> seedTag.
Proof. destruct seed, seedTag; simpl; try done. intros _ _. by members. Qed.

(** The members [withSeed] leaves: none set, or both over an entry with none. *)
Lemma withSeed_Ok seed seedTag stored body body' : seed_pair seed seedTag →
  withSeed seed seedTag stored body = Ok body' →
  body' = body ∨ stored = None ∧ is_Some seed ∧
    body' = spread body (declare "seed" seed ++ declare "seedTag" seedTag).
Proof.
  unfold withSeed. destruct seed; [|by intros _ [= <-]; left].
  destruct stored; [case_match; [|done]; intros _ [= <-]; by left|].
  intros _ [= <-]. eauto.
Qed.

Definition PLAIN_SEED : list string := PLAIN ++ ["seed"; "seedTag"].

Lemma same_mono K K' o body : K ⊆ K' → same_outside K o body → same_outside K' o body.
Proof. intros HK H k Hk. apply H. set_solver. Qed.

(** The last steps of [recordGrants], over the body its grants are in. *)
Lemma recordGrants_finish q recorded ref body stored outbox body' :
  time_value (rg_now q) → seed_pair (rg_seed q) (rg_seedTag q) →
  (∀ m, rg_message q = Some m → is_Some (as_object (Some m))) →
  fixed parseOutboxItem outbox → members_ok body → same_outside PLAIN ref body →
  (b ← withSeed (rg_seed q) (rg_seedTag q) stored body;
   Ok (Write (Stop:=NoWrite) match rg_message q with
      | None => b
      | Some message =>
          set_member "outbox"
            (JArr (supersedeAndQueueEnvelope outbox message (toISOString (rg_now q))
               (λ zcap, bool_decide (zcap_id zcap ∈ (zcap_id ∘ zcap_of <$> (recorded : list json)))))) b
      end)) = Ok (Write body') →
  members_ok body' ∧
  (same_outside PLAIN ref body' ∨
   stored = None ∧ same_outside PLAIN_SEED ref body' ∧ seeds_paired body').
Proof.
  intros Hn Hs Hm Ho Hok Hsame (b&Hb&Hbody)%result_bind_Ok.
  assert (∃ b', body' = b' ∧ (b' = b ∨ ∃ xs, fixed parseOutboxItem xs ∧
    b' = set_member "outbox" (JArr xs) b)) as (b'&->&Hb').
  { destruct (rg_message q) as [m|]; simplify_eq; [|by eauto]. eexists. split; [done|]. right.
    eexists. split; [|done]. apply supersede_fixed; auto. }
  clear Hbody. apply withSeed_Ok in Hb; [|done].
  assert (members_ok b) as Hokb.
  { destruct Hb as [->|(_&_&->)]; [done|]. apply members_ok_spread; [|done].
    by apply declaredSeed_ok. }
  split; [destruct Hb' as [->|(xs&?&->)]; eauto with codec|].
  destruct Hb as [->|(->&Hseed&->)].
  - left. destruct Hb' as [->|(xs&?&->)]; eauto with codec.
  - right. split; [done|]. destruct (declaredSeed_paired _ _ body Hs Hseed) as [H1 H2].
    apply (same_mono _ PLAIN_SEED) in Hsame; [|by apply (bool_decide_unpack _)].
    assert (same_outside PLAIN_SEED ref (spread body
      (declare "seed" (rg_seed q) ++ declare "seedTag" (rg_seedTag q)))) as Hspread.
    { apply same_spread; [|done]. eauto with codec. }
    split.
    + destruct Hb' as [->|(xs&?&->)]; [done|]. eauto with codec.
    + unfold seeds_paired. assert (is_Some (rg_seed q) ↔ is_Some (rg_seedTag q)).
      { destruct (rg_seed q), (rg_seedTag q); simpl in Hs; try done; by split; eauto. }
      destruct Hb' as [->|(xs&?&->)]; members; rewrite H1, H2, !fmap_is_Some; done.
Qed.

(** What a caller of [recordGrants] passes: a DID, a named kind, no empty app
    key, and a message that is an object. *)
Record recordGrants_input (q : RecordGrants) : Prop := {
  rgi_did : startsWith (rg_did q) "did:" = true;
  rgi_kind : rg_kind q ≠ "";
  rgi_appKey : rg_appKey q ≠ Some "";
  rgi_message m : rg_message q = Some m → is_Some (as_object (Some m));
  rgi_now : time_value (rg_now q)
}.

Lemma declaredMembers_ok q : rg_appKey q ≠ Some "" →
  Forall (λ m, member_ok m.1 (Some m.2)) (declaredMembers q).
Proof.
  intros Ha. unfold declaredMembers. apply Forall_app; split; [by eauto with codec|].
  apply Forall_app; split; [by eauto with codec|]. apply Forall_app; split; [by eauto with codec|].
  apply ok_declare. intros s Hs. apply ok_appKey. congruence.
Qed.

Lemma declaredMembers_plain q : Forall (λ m : string * json, m.1 ∈ PLAIN) (declaredMembers q).
Proof. unfold declaredMembers. eauto 12 with codec. Qed.

#[local] Hint Resolve declaredMembers_ok declaredMembers_plain : codec.

Lemma recordGrants_sound q recorded : recordGrants_input q → recordGrantsPrepare q = Ok recorded →
  sound_change (connectionResourceId (ByDid (rg_did q))) (recordGrantsChange q recorded).
Proof.
  intros [Hd Hk Ha Hm Hn] (u&Hseed%assertPairwiseSeed_Ok&Hprep)%result_bind_Ok.
  apply result_bind_Ok in Hprep as (?&_&Hprep).
  apply result_bind_Ok in Hprep as (r&Hrec&Hprep).
  apply result_bind_Ok in Hprep as (?&_&[= ->]).
  apply recordedGrants_fixed in Hrec; [|done]. split.
  - intros body Hc. unfold recordGrantsChange in Hc. simpl in Hc.
    apply result_bind_Ok in Hc as (?&_&Hc).
    eapply (recordGrants_finish _ _ (newConnectionEntry (rg_kind q) (rg_did q) (rg_now q)))
      in Hc as [Hok Hsame]; [|done|done|done|constructor| |].
    + apply (created_sound PLAIN_SEED (rg_kind q) (rg_did q) (rg_now q));
        [done|done|done|done| |by apply (bool_decide_unpack _)..| |].
      * destruct Hsame as [Hsame|(_&Hsame&_)]; [|done].
        eapply same_mono; [|done]. by apply (bool_decide_unpack _).
      * right. destruct Hsame as [Hsame|(_&_&?)]; [|done]. unfold seeds_paired.
        by rewrite !Hsame by (by apply (bool_decide_unpack _)).
      * left. by apply (bool_decide_unpack _).
    + apply members_ok_spread; [|by apply newConnectionEntry_ok]. eauto with codec.
    + eauto with codec.
  - intros o e etag body Hr Hv _ Hc. unfold recordGrantsChange in Hc. simpl in Hc.
    pose proof (reads_writable _ _ Hr Hv) as Hw.
    apply result_bind_Ok in Hc as (?&_&Hc). case_match; [done|].
    apply result_bind_Ok in Hc as (?&_&Hc).
    eapply (recordGrants_finish _ _ o) in Hc as [Hok Hsame];
      [|done|done|done|by eapply outbox_fixed| |].
    + destruct Hsame as [Hsame|(Hnone&Hsame&Hpaired)]; [by apply plain_over|].
      apply (patch_over PLAIN_SEED); [done|done|done|by apply (bool_decide_unpack _)| | |].
      * right. split; [|done]. 
        pose proof (optional_is_Some _ _ _ (rd_seed _ _ Hr)) as Hiff. rewrite Hnone in Hiff.
        destruct (get_member "seed" o); [|done]. destruct Hiff as [_ []]; by eauto.
      * left. by apply (bool_decide_unpack _).
      * left. by apply (bool_decide_unpack _).
    + apply members_ok_delete, members_ok_delete, members_ok_spread; eauto with codec.
      apply Forall_app; split; [by eauto with codec|]. repeat constructor; simpl; eauto with codec.
    + eauto 12 with codec.
Qed.

(** *** Replica entries *)

Definition REPLICAS : list string := PLAIN ++ ["replicas"].

Lemma owned_by_server e o body : reads o e → e_kind e = REPLICA_SERVER_KIND →
  get_member "kind" body = get_member "kind" o → replicas_owned body.
Proof. intros Hr Hk Heq. right. by rewrite Heq, (rd_kind _ _ Hr), Hk. Qed.

Lemma assertKind_Ok e kind u : assertKind e kind = Ok u → e_kind e = kind.
Proof. unfold assertKind. by case_decide. Qed.

Lemma fixed_withReplica o e index item : reads o e → accepts parseReplica item →
  fixed parseReplica (withReplica e index item).
Proof.
  intros Hr Hi. eapply (fixed_imap _ (λ i held, if decide (i = index) then item else held));
    [by eapply replicas_fixed|]. intros i x Hx. by case_decide.
Qed.

Lemma replica_at o e fromSpace index item : reads o e →
  replicaIndex e fromSpace = Ok (index, item) → accepts parseReplica item.
Proof.
  intros Hr. unfold replicaIndex. destruct (findIndex _ _) as [[i x]|] eqn:Hf; [|done].
  intros [= -> ->]. apply findIndex_Some in Hf as [Hf _]. apply list_elem_of_lookup_2 in Hf.
  pose proof (replicas_fixed _ _ Hr) as Hfix. unfold fixed in Hfix.
  rewrite Forall_forall in Hfix. auto.
Qed.

(** A change of a server's entry that only ever writes over it. *)
Lemma replica_change rid (change : option WritableConnection → result (ConnectionChange NoWrite)) :
  (∀ body, change None ≠ Ok (Write body)) →
  (∀ o e etag body, reads o e →
    change (Some {| wc_entry := e; wc_body := o; wc_etag := etag |}) = Ok (Write body) →
    e_kind e = REPLICA_SERVER_KIND ∧ (members_ok o → members_ok body) ∧
    same_outside REPLICAS o body) →
  sound_change rid change.
Proof.
  intros Hnone Hsome. split; [by intros body ?%Hnone|].
  intros o e etag body Hr Hv _ Hc. destruct (Hsome _ _ _ _ Hr Hc) as (Hk&Hok&Hsame).
  pose proof (reads_writable _ _ Hr Hv) as Hw.
  apply (patch_over REPLICAS); [done|exact (Hok (wb_members _ Hw))|done|
    by apply (bool_decide_unpack _)|left|right|left].
  - split; by apply (bool_decide_unpack _).
  - eapply owned_by_server; [done..|]. apply Hsame. by apply (bool_decide_unpack _).
  - by apply (bool_decide_unpack _).
Qed.

Lemma settleReplica_sound rid fromSpace registrationId u : assertFreshId registrationId = Ok u →
  sound_change rid (settleReplicaChange fromSpace registrationId).
Proof.
  intros Hid. apply replica_change; [done|]. intros o e etag body Hr Hc.
  unfold settleReplicaChange in Hc. simpl in Hc.
  apply result_bind_Ok in Hc as (?&Hk%assertKind_Ok&Hc).
  apply result_bind_Ok in Hc as ([index item]&Hi&Hc). repeat case_match; simplify_eq.
  split_and!; [done|intros Ho|by eauto with codec]. apply members_ok_set; [|done].
  eapply ok_replicas, fixed_withReplica; [done|].
  eapply settled_accepted; [done|]. by eapply replica_at.
Qed.

Lemma markers_sound rid named apply_ finish :
  (∀ item item', accepts parseReplica item → apply_ item = Some item' → accepts parseReplica item') →
  (∀ e body, (finish e body).1 = body ∨ (finish e body).1 = delete_member "declined" body) →
  sound_change rid (writeMarkersChange named apply_ finish).
Proof.
  intros Happly Hfinish. apply replica_change; [done|]. intros o e etag body Hr Hc.
  unfold writeMarkersChange in Hc. simpl in Hc.
  apply result_bind_Ok in Hc as (?&Hk%assertKind_Ok&Hc).
  apply result_bind_Ok in Hc as (?&_&Hc).
  set (body' := set_member "replicas" _ _) in Hc. specialize (Hfinish e body').
  destruct (finish e body') as [b finished]. simpl in Hfinish.
  destruct (_ && _); simplify_eq.
  assert (fixed parseReplica ((λ item, default item (applied named apply_ item)) <$> e_replicas e)).
  { apply Forall_fmap. pose proof (replicas_fixed _ _ Hr) as Hfix.
    eapply Forall_impl; [exact Hfix|]. intros item Hi. simpl.
    destruct (applied named apply_ item) as [item'|] eqn:Ha; [|done]. simpl.
    unfold applied in Ha. destruct named; [case_decide; [|done]|]; exact (Happly _ _ Hi Ha). }
  split; [done|]. split; [intros Ho|]; destruct Hfinish as [->| ->]; unfold body'; eauto with codec.
Qed.

Lemma removeReplica_sound rid fromSpace : sound_change rid (removeReplicaChange fromSpace).
Proof.
  apply replica_change; [done|]. intros o e etag body Hr Hc.
  unfold removeReplicaChange in Hc. simpl in Hc.
  apply result_bind_Ok in Hc as (?&Hk%assertKind_Ok&Hc). case_decide; [done|].
  apply result_bind_Ok in Hc as (standing&_&Hc). case_decide; [done|]. simplify_eq.
  split_and!; [done|intros Ho|]; eauto with codec.
Qed.

Lemma recordReplicaGrant_sound rid q fromSpace zcap : time_value (rpg_now q) →
  recordReplicaGrantPrepare q = Ok (fromSpace, zcap) →
  sound_change rid (recordReplicaGrantChange q fromSpace zcap).
Proof.
  intros Hn Hprep.
  assert (parseConnectionZcap (Some zcap) = Some zcap ∧
    ∀ id, rpg_pendingRegistrationId q = Some id → ∃ u, assertFreshId id = Ok u) as [Hz Hid].
  { unfold recordReplicaGrantPrepare in Hprep.
    apply result_bind_Ok in Hprep as (?&_&Hprep). apply result_bind_Ok in Hprep as (?&_&Hprep).
    apply result_bind_Ok in Hprep as (z&[Hp _]%checkedDelegatedZcap_Ok&Hprep).
    apply result_bind_Ok in Hprep as (?&_&Hprep). apply result_bind_Ok in Hprep as (?&_&Hprep).
    apply result_bind_Ok in Hprep as (u&Hu&[= <- <-]). split; [done|].
    intros id Hid. rewrite Hid in Hu. eauto. }
  apply replica_change; [done|]. intros o e etag body Hr Hc.
  unfold recordReplicaGrantChange in Hc. simpl in Hc.
  apply result_bind_Ok in Hc as (?&Hk%assertKind_Ok&Hc). case_decide; [done|].
  apply result_bind_Ok in Hc as ([index item]&Hi&Hc).
  apply result_bind_Ok in Hc as (record&Hrecord&Hc).
  apply result_bind_Ok in Hc as (replicas&Hreplicas&Hc).
  assert (accepts parseGrantRecord record) as Hrec.
  { destruct (rpg_renews q); [by eapply renewedGrantRecord_parses|].
    simplify_eq. by apply grantRecord_parses. }
  assert (fixed parseReplica (default (e_replicas e) replicas)) as Hfix.
  { unfold pendingReplicas in Hreplicas. destruct (rpg_pendingRegistrationId q) as [id|] eqn:Hq;
      [|simplify_eq; by eapply replicas_fixed].
    destruct (Hid id) as [u Hu]; [done|]. destruct (decide (is_Some _)); [done|].
    destruct (_ && _); [done|]. case_decide; simplify_eq; simpl; [by eapply replicas_fixed|].
    eapply fixed_withReplica; [done|]. eapply setPending_accepted; [done|]. by eapply replica_at. }
  assert (fixed parseGrantRecord (e_grants e ++ [record])).
  { apply fixed_app; [by eapply grants_fixed|]. by repeat constructor. }
  split; [done|]. destruct (existsb _ _), replicas; simplify_eq;
    (split; [intros Ho|]; simpl; eauto with codec).
Qed.

Lemma spread_app o p q : spread o (p ++ q) = spread (spread o p) q.
Proof. apply foldl_app. Qed.

Lemma spread_cons o m p : spread o (m :: p) = spread (spread o [m]) p.
Proof. done. Qed.

Lemma declared_seeds_paired seed seedTag b : seed_pair seed seedTag → seeds_paired b →
  seeds_paired (spread b (declaredSeed seed seedTag)).
Proof.
  unfold declaredSeed, seeds_paired. destruct seed, seedTag; simpl; try done. intros _ _. members.
  by split; eauto.
Qed.

Lemma seeds_paired_same o b : get_member "seed" b = get_member "seed" o →
  get_member "seedTag" b = get_member "seedTag" o → seeds_paired o → seeds_paired b.
Proof. unfold seeds_paired. by intros -> ->. Qed.

Definition SERVER : list string := REPLICAS ++ ["seed"; "seedTag"].

Lemma declaredReplicas_ok q : Forall (λ m, member_ok m.1 (Some m.2)) (declaredReplicas q).
Proof. unfold declaredReplicas. eauto with codec. Qed.
Lemma declaredReplicas_plain q : Forall (λ m : string * json, m.1 ∈ PLAIN) (declaredReplicas q).
Proof. unfold declaredReplicas. eauto with codec. Qed.
Lemma declaredSeed_server seed seedTag :
  Forall (λ m : string * json, m.1 ∈ SERVER) (declaredSeed seed seedTag).
Proof. unfold declaredSeed. eauto with codec. Qed.
#[local] Hint Resolve declaredReplicas_ok declaredReplicas_plain declaredSeed_server
  declaredSeed_ok : codec.

Lemma recordReplicas_sound q incoming :
  startsWith (rp_did q) "did:" = true → time_value (rp_now q) →
  seed_pair (rp_seed q) (rp_seedTag q) → recordReplicasPrepare q = Ok incoming →
  sound_change (connectionResourceId (ByDid (rp_did q))) (recordReplicasChange q incoming).
Proof.
  intros Hd Hn Hs Hprep.
  apply result_bind_Ok in Hprep as (?&_&Hin%incomingReplicas_accepted); [|constructor].
  assert (PLAIN ⊆ SERVER) as Hsub by (by apply (bool_decide_unpack _)). split.
  - intros body [= <-]. rewrite !spread_app. simpl.
    set (fresh := newConnectionEntry _ _ _).
    assert (same_outside PLAIN fresh (spread fresh (declaredReplicas q))) as Hfirst
      by eauto with codec.
    apply (created_sound SERVER REPLICA_SERVER_KIND (rp_did q) (rp_now q)); try done;
      [| |by apply (bool_decide_unpack _)..| |by right].
    + apply members_ok_set; [by eauto with codec|]. apply members_ok_spread; [by eauto with codec|].
      apply members_ok_spread; [by eauto with codec|]. by apply newConnectionEntry_ok.
    + apply same_set; [by apply (bool_decide_unpack _)|]. apply same_spread; [by eauto with codec|].
      by eapply same_mono.
    + right. apply (seeds_paired_same (spread (spread fresh (declaredReplicas q))
        (declaredSeed (rp_seed q) (rp_seedTag q)))); [by members..|]. apply declared_seeds_paired; [done|].
      eapply (seeds_paired_same fresh); [by apply Hfirst, (bool_decide_unpack _)..|].
      by split; intros [].
  - intros o e etag body Hr Hv _ Hc. unfold recordReplicasChange in Hc. cbn [wc_entry wc_body] in Hc.
    pose proof (reads_writable _ _ Hr Hv) as Hw.
    apply result_bind_Ok in Hc as (?&Hk%assertKind_Ok&Hc).
    match type of Hc with (if ?b then _ else _) = _ => destruct b; [done|] end.
    destruct (existsb _ _); [done|]. simplify_eq. rewrite spread_app, spread_cons, spread_app.
    set (base := spread (spread o _) _).
    assert (members_ok base ∧ same_outside PLAIN o base) as [Hokb Hsameb].
    { unfold base. split.
      - apply members_ok_spread; [by eauto with codec|]. apply members_ok_spread; eauto with codec.
      - apply same_spread; [by eauto with codec|]. eauto with codec. }
    set (seeded := spread base _).
    assert (members_ok seeded ∧ seeds_paired seeded ∧
      (same_outside PLAIN o seeded ∨ get_member "seed" o = None ∧ same_outside SERVER o seeded))
      as (Hoks&Hpair&Hsames).
    { assert (seeds_paired base).
      { eapply (seeds_paired_same o); [by apply Hsameb, (bool_decide_unpack _)..|].
        by apply wb_seeds. }
      unfold seeded. destruct (e_seed e) eqn:Hseed; [split_and!; by auto|].
      split_and!; [by eauto with codec|by apply declared_seeds_paired|]. right. split.
      - pose proof (optional_is_Some _ _ _ (rd_seed _ _ Hr)) as Hiff. rewrite Hseed in Hiff.
        destruct (get_member "seed" o); [|done]. destruct Hiff as [_ []]; by eauto.
      - apply same_spread; [by eauto with codec|]. by eapply same_mono. }
    clearbody seeded. simpl.
    set (body := delete_member "declined" _).
    assert (members_ok body) as Hok.
    { apply members_ok_delete, members_ok_delete, members_ok_set; eauto with codec. }
    assert (replicas_owned body) as Howned.
    { eapply owned_by_server; [done..|]. unfold body. members.
      destruct Hsames as [Hsames|[_ Hsames]]; by apply Hsames, (bool_decide_unpack _). }
    destruct Hsames as [Hsames|[Hnone Hsames]].
    + apply (patch_over REPLICAS); [done|done| |by apply (bool_decide_unpack _)|left|by right|left].
      * apply (same_mono _ REPLICAS) in Hsames; [|by apply (bool_decide_unpack _)].
        unfold body. eauto with codec.
      * split; by apply (bool_decide_unpack _).
      * by apply (bool_decide_unpack _).
    + apply (patch_over SERVER); [done|done| |by apply (bool_decide_unpack _)|right|by right|left].
      * unfold body. eauto with codec.
      * split; [done|]. unfold body. apply (seeds_paired_same seeded); [by members..|done].
      * by apply (bool_decide_unpack _).
Qed.
End Creating.

(** ** The writer-member changes *)
Section WriterChanges.
Context {host : JsHost} {base64 : Base64} {paths : ServerPaths} {key : DirectoryKey}.
Context {laws : JsHostLaws}.

Definition WRITERS : list string := PLAIN ++ ["writers"].

(** Which member a writer record names. *)
Abbreviation names w := (member "writerId" w).

Lemma parseWriter_names raw w : parseWriter raw = Some w → names w = names raw.
Proof.
  unfold parseWriter. intros (o&Ho&H)%bind_Some. destruct raw; simplify_eq/=.
  do 4 (apply bind_Some in H as (?&_&H)). apply bind_Some in H as (?&_&[= <-]). simpl. by members.
Qed.
Lemma touch_names now w : names (touch now w) = names w.
Proof. destruct w; try done. simpl. by members. Qed.
Lemma markWriter_names policy now w : names (markWriter policy now w) = names w.
Proof. unfold markWriter. case_match; [|done]. destruct w; try done. simpl. by members. Qed.

(** The id a stored entry claims, by its arm. *)
Lemma claimed_by_id o e did : reads o e → e_id e = Some did →
  claimedResourceId (JObj o) = Some (connectionResourceId (ByDid did)).
Proof.
  intros Hr He. pose proof (rd_id _ _ Hr) as Hid. rewrite He in Hid. simpl.
  destruct (get_member "id" o) as [v|]; [|done]. simpl in Hid.
  apply fmap_Some in Hid as (s&Hs&[= <-]). unfold as_did in Hs.
  apply bind_Some in Hs as (t&Ht&Hs). case_match; simplify_eq. by destruct v; simplify_eq/=.
Qed.

Lemma keyless_id o e : reads o e → e_id e = None → get_member "id" o = None.
Proof.
  intros Hr He. pose proof (optional_is_Some _ _ _ (rd_id _ _ Hr)) as Hid. rewrite He in Hid.
  destruct (get_member "id" o); [|done]. destruct Hid as [_ []]; by eauto.
Qed.

Lemma keyless_writer o e : reads o e → e_id e = None →
  ∃ raw w, get_member "writers" o = Some (JArr [raw]) ∧ e_writers e = [w] ∧ names w = names raw.
Proof.
  intros Hr He. destruct (rd_keyless _ _ Hr) as [[? H]|H]; [congruence|].
  pose proof (rd_writers _ _ Hr) as Hw. unfold as_list in Hw.
  apply bind_Some in Hw as (raws&Hraws&Hw). apply mapM_Some in Hw.
  destruct (e_writers e) as [|w [|? ?]]; try done.
  inversion Hw as [|raw ? raws' ? Hraw Hnil]; subst. inversion Hnil; subst.
  destruct (get_member "writers" o) as [[| | | |xs|]|]; simplify_eq/=.
  exists raw, w. split_and!; [done..|by apply parseWriter_names].
Qed.

(** Writers written over the stored ones: any list under an id, the one member
    itself without one. *)
Lemma writers_over o e body writers : reads o e → e_version e = CONNECTION_ENTRY_VERSION →
  members_ok body → same_outside WRITERS o body →
  get_member "writers" body = Some (JArr writers) → fixed parseWriter writers →
  (e_id e = None → ∀ w, e_writers e = [w] → ∃ w', writers = [w'] ∧ names w' = names w) →
  over o body.
Proof.
  intros Hr Hv Hok Hsame Hw Hfix Hone. pose proof (reads_writable _ _ Hr Hv) as Hwb.
  apply (patch_over WRITERS); [done|done|done|by apply (bool_decide_unpack _)|left|left|right].
  - split; by apply (bool_decide_unpack _).
  - by apply (bool_decide_unpack _).
  - assert (get_member "id" body = get_member "id" o) as Hid
      by (by apply Hsame, (bool_decide_unpack _)).
    destruct (e_id e) as [did|] eqn:He.
    + split.
      * left. rewrite Hid. by apply (optional_is_Some _ _ _ (rd_id _ _ Hr)), (mk_is_Some _ did).
      * rewrite (claimed_by_id _ _ _ Hr He). pose proof (claimed_by_id _ _ _ Hr He) as Hc.
        simpl in Hc |- *. rewrite Hid. destruct (get_member "id" o) as [[]|] eqn:Ho; try done;
          by pose proof (rd_id _ _ Hr) as Hi; rewrite Ho, He in Hi.
    + destruct (keyless_writer _ _ Hr He) as (raw&w&Hraw&Hws&Hn).
      destruct (Hone eq_refl w Hws) as (w'&->&Hn'). pose proof (keyless_id _ _ Hr He) as Hno.
      split; [|simpl; by rewrite Hid, Hno, Hw, Hraw, Hn', Hn].
      right. exists w'. by rewrite Hw, as_list_fixed.
Qed.

Lemma touched_fixed e o index now : reads o e → time_value now →
  fixed parseWriter (touchedWriters (e_writers e) index now).
Proof.
  intros Hr Hn. eapply (fixed_imap _ (λ i w, if decide (i = index) then touch now w else w));
    [by eapply writers_fixed|]. intros i x Hx. case_decide; [by apply touch_accepted|done].
Qed.

Lemma touched_one e index now w : e_writers e = [w] →
  ∃ w', touchedWriters (e_writers e) index now = [w'] ∧ names w' = names w.
Proof.
  intros ->. unfold touchedWriters. simpl. eexists. split; [done|]. case_decide; [|done].
  apply touch_names.
Qed.

Lemma touch_sound rid writerId now policy : time_value now →
  sound_change rid (touchChange writerId now policy).
Proof.
  intros Hn. split; [done|]. intros o e etag body Hr Hv _ Hc. simpl in Hc.
  destruct (memberToTouch _ _ _ _) as [|index]; simplify_eq.
  pose proof (reads_writable _ _ Hr Hv) as Hw. pose proof (touched_fixed _ _ index _ Hr Hn).
  eapply writers_over; [done..| | | |done|].
  - eauto with codec.
  - eauto with codec.
  - by members.
  - intros _ w Hws. by apply touched_one.
Qed.

(** No writer's id sits at the DID's resource id. *)
Definition no_collision (did : string) : Prop :=
  ∀ writerId, connectionResourceId (ByWriter writerId) ≠ connectionResourceId (ByDid did).

Lemma claimed_keyed o e did : reads o e → no_collision did →
  claimedResourceId (JObj o) = Some (connectionResourceId (ByDid did)) → is_Some (e_id e).
Proof.
  intros Hr Hcol Hc. destruct (e_id e) eqn:He; [by eauto|].
  destruct (keyless_writer _ _ Hr He) as (raw&w&Hraw&_). simpl in Hc.
  rewrite (keyless_id _ _ Hr He), Hraw in Hc. destruct (names raw) as [[]|]; simplify_eq.
  by destruct (Hcol s).
Qed.

Lemma admit_fixed o e own now n : reads o e → accepts parseWriter own →
  fixed parseWriter (admitWriter (e_writers e) own now n).
Proof.
  intros Hr Hown. apply fixed_app; [|by repeat constructor].
  eapply fixed_sublist; [by eapply writers_fixed|apply positions_sublist].
Qed.

Lemma withOwnWriter_sound did writerId value label listed now policy :
  startsWith did "did:" = true → writerId ≠ "" → time_value now →
  normalizeDisplayName value = Some label → no_collision did →
  sound_change (connectionResourceId (ByDid did))
    (λ current, Ok (withOwnWriter current did writerId label listed now policy).1).
Proof.
  intros Hd Hw Hn Hl Hcol.
  pose proof (ownMember_accepted _ _ _ _ Hw Hn Hl) as Hown. split.
  - intros body Hc. unfold withOwnWriter in Hc. destruct listed; [|done]. cbn [fst] in Hc.
    assert (body = spread (newConnectionEntry "wallet-client" did now)
      [("name", JStr label); ("writers", JArr [ownMember writerId label now])]) as ->
      by (by injection Hc).
    assert (fixed parseWriter [ownMember writerId label now]) by (by repeat constructor).
    assert (member_ok "name" (Some (JStr label))) by (by eapply ok_name).
    apply (created_sound WRITERS "wallet-client" did now);
      [done|done|done| | |by apply (bool_decide_unpack _)..|left|left].
    + apply members_ok_spread; [by eauto with codec|]. by apply newConnectionEntry_ok.
    + eauto with codec.
    + split; by apply (bool_decide_unpack _).
    + by apply (bool_decide_unpack _).
  - intros o e etag body Hr Hv Hclaim Hc. unfold withOwnWriter in Hc. cbn [wc_entry wc_body] in Hc.
    case_decide; [done|]. destruct (_ && _); [done|].
    set (writers := match findWriter _ _ with Some _ => _ | None => _ end) in Hc.
    assert (fixed parseWriter writers) as Hfix.
    { unfold writers. destruct (findWriter _ _) as [[index ?]|]; [by eapply touched_fixed|].
      by eapply admit_fixed. }
    simpl in Hc. simplify_eq. pose proof (reads_writable _ _ Hr Hv) as Hwb.
    eapply (writers_over _ _ _ writers); [done..| | | |done|].
    + eauto 12 with codec.
    + eauto 12 with codec.
    + by members.
    + intros He. by destruct (claimed_keyed _ _ _ Hr Hcol Hclaim) as [? ?]; congruence.
Qed.
End WriterChanges.
