(* ===== verification/ConnDirectory.v ===== *)
(** * The directory's writers, together

    Every operation that writes an entry, as one type, and the theorem that
    each of them only ever puts a sound body. *)

From S2P Require Import Prelude Json JsText ConnEntry ConnGrants ConnStore ConnUpsert.
From S2P Require Import ConnReceived ConnWriters ConnReplicas ConnInvariant.

Section Directory.
Context {host : JsHost} {base64 : Base64} {paths : ServerPaths} {key : DirectoryKey}.
Context {didKeys : DidKeys} {laws : JsHostLaws}.

(** A write over what the same attempt read: this build parses the body and
    may write over it again, it sits at the id it claims, it is conditional on
    the read, and over a stored body it keeps everything a writer does not
    rewrite. *)
Definition sound_put (stored : option (json * option string)) (req : PutConnection) : Prop :=
  (∃ entry, parseConnectionEntry (JObj (pc_body req)) = Some entry ∧
     isWritableConnectionEntry entry = true) ∧
  claimedResourceId (JObj (pc_body req)) = Some (pc_resourceId req) ∧
  match stored with
  | None => pc_ifMatch req = None ∧ pc_ifNoneMatch req = true
  | Some (old, etag) => is_Some etag ∧ pc_ifMatch req = etag ∧
      ∃ o, old = JObj o ∧ keeps o (pc_body req)
  end.

(** Every write of a sequence of calls comes directly after a read, and is
    sound over it. *)
Definition sound_calls (calls : list store_event) : Prop :=
  ∀ pre req answer post, calls = pre ++ EvPut req answer :: post →
    ∃ pre' stored, pre = pre' ++ [EvGet (Ok stored)] ∧ sound_put stored req.

Definition sound_run {W A} (c : comp (W * list store_event) A) : Prop :=
  ∀ w, leaves c w (λ _ calls, sound_calls calls).

Lemma sound_calls_nil : sound_calls [].
Proof. by intros [|? ?] ? ? ?. Qed.

Lemma sound_calls_app xs ys : sound_calls xs → sound_calls ys → sound_calls (xs ++ ys).
Proof.
  intros Hx Hy pre req answer post Heq.
  apply app_eq_inv in Heq as [(k&->&Heq)|(k&->&Heq)].
  - destruct k as [|ev k]; simplify_eq/=.
    + rewrite app_nil_r in *. destruct (Hy [] _ _ _ eq_refl) as (pre'&?&Hp&_).
      by destruct pre'.
    + by eapply Hx.
  - destruct (Hy k _ _ _ Heq) as (pre'&stored&->&Hs). exists (xs ++ pre'), stored.
    by rewrite app_assoc.
Qed.

Lemma sound_calls_get stored : sound_calls [EvGet stored].
Proof. intros [|? [|? ?]] req answer post Heq; simplify_eq/=; done. Qed.

Lemma sound_calls_round stored req answer : sound_put stored req →
  sound_calls [EvGet (Ok stored); EvPut req answer].
Proof.
  intros Hs pre req' answer' post Heq.
  destruct pre as [|ev [|ev' pre]]; simplify_eq/=; [|by destruct pre].
  by exists [], stored.
Qed.

Section Rules.
Context {W : Type}.
Implicit Types w : W * list store_event.

Lemma sound_ret {A} (a : A) : sound_run (W:=W) (mret a).
Proof. intros w. exists []. rewrite app_nil_r. split; [done|apply sound_calls_nil]. Qed.
Lemma sound_lift {A} (r : result A) : sound_run (W:=W) (lift r).
Proof. intros w. exists []. rewrite app_nil_r. split; [done|apply sound_calls_nil]. Qed.
Lemma sound_bind {A B} (c : comp _ A) (k : A → comp _ B) :
  sound_run (W:=W) c → (∀ a, sound_run (k a)) → sound_run (c ≫= k).
Proof.
  intros Hc Hk w. destruct (Hc w) as (xs&Hxs&Hsx). unfold leaves, mbind, comp_bind.
  destruct (c w) as [[a|e] w1]; simpl in *; [|by exists xs].
  destruct (Hk a w1) as (ys&Hys&Hsy). exists (xs ++ ys). split; [|by apply sound_calls_app].
  by rewrite Hys, Hxs, app_assoc.
Qed.
Lemma sound_try {A} (c : comp _ A) h :
  sound_run (W:=W) c → (∀ e, sound_run (h e)) → sound_run (try_catch c h).
Proof.
  intros Hc Hh w. destruct (Hc w) as (xs&Hxs&Hsx). unfold leaves, try_catch.
  destruct (c w) as [[a|e] w1]; simpl in *; [by exists xs|].
  destruct (Hh e w1) as (ys&Hys&Hsy). exists (xs ++ ys). split; [|by apply sound_calls_app].
  by rewrite Hys, Hxs, app_assoc.
Qed.
End Rules.

(** A sound change makes sound writes. *)
Lemma conditional_put_sound {Stop} rid (change : option WritableConnection → result (ConnectionChange Stop))
    unwritable stored req : sound_change rid change →
  conditional_put rid change unwritable stored req → sound_put stored req.
Proof.
  intros [Hcreate Hupdate]. destruct 1 as [body Hc|old etag body Hc]; unfold sound_put;
    cbn [pc_body pc_resourceId pc_ifMatch pc_ifNoneMatch decided] in *.
  - destruct (Hcreate _ Hc) as [(e&Hr&Hv)%writable_reads Hclaim].
    split_and!; [|done..]. exists e. split; [by apply parse_reads|]. by apply bool_decide_eq_true.
  - destruct (writableConnection rid old (Some etag)) as [current|err] eqn:Hw;
      [|by destruct unwritable].
    unfold writableConnection in Hw. destruct (parseConnectionEntry old) as [e|] eqn:Hp; [|done].
    destruct old as [| | | | |o]; try done. case_decide as Hclaim; [|done].
    destruct (isWritableConnectionEntry e) eqn:Hv; [|done]. injection Hw as <-.
    apply bool_decide_eq_true in Hv. apply parse_reads in Hp.
    destruct (Hupdate _ _ _ _ Hp Hv Hclaim Hc) as ((e'&Hr'&Hv')%writable_reads&Hk&Hcl).
    split_and!; [|by rewrite Hcl|by eauto..].
    exists e'. split; [by apply parse_reads|]. by apply bool_decide_eq_true.
Qed.

Lemma ends_sound {Stop} rid (change : option WritableConnection → result (ConnectionChange Stop))
    unwritable r attempts lastRace calls : sound_change rid change →
  ends rid change unwritable r attempts lastRace calls → sound_calls calls.
Proof.
  intros Hs. assert (∀ races, Forall (lost_round rid change unwritable) races →
    sound_calls (concat races)) as Hraces.
  { induction 1 as [|round races Hround Hraces IH]; [apply sound_calls_nil|].
    apply sound_calls_app; [|done]. destruct Hround. apply sound_calls_round.
    by eapply conditional_put_sound. }
  destruct 1 as [races final Hr -> _ Hf|races Hr -> _ _]; [|by apply Hraces].
  apply sound_calls_app; [by apply Hraces|].
  destruct Hf; try apply sound_calls_get; apply sound_calls_round; by eapply conditional_put_sound.
Qed.

Lemma write_sound {W Stop} (store : ConnectionsStore W) rid
    (change : option WritableConnection → result (ConnectionChange Stop)) unwritable :
  sound_change rid change →
  sound_run (writeConnection (tracedConnections store) rid (λ c, lift (change c)) unwritable).
Proof.
  intros Hs w. destruct (writeAttempts_ends store rid change unwritable WRITE_ATTEMPTS
    (JsError "undefined" "") w) as (calls&Hcalls&Hends).
  exists calls. split; [exact Hcalls|]. by eapply ends_sound.
Qed.

(** ** The registration's local variable *)
Section Local.
Context {V L : Type}.

(** Running beside a local variable is running, whatever the variable is. *)
Definition erases {A} (c : comp (V * L) A) (c' : comp V A) : Prop :=
  ∀ v l, ∃ l', c (v, l) = ((c' v).1, ((c' v).2, l')).

Lemma erases_ret {A} (a : A) : erases (mret a) (mret a).
Proof. intros v l. by exists l. Qed.
Lemma erases_throw {A} (e : js_error) : erases (A:=A) (mthrow e) (mthrow e).
Proof. intros v l. by exists l. Qed.
Lemma erases_lift {A} (r : result A) : erases (lift r) (lift r).
Proof. intros v l. by exists l. Qed.
Lemma erases_bind {A B} (c : comp (V * L) A) c' (k : A → comp (V * L) B) k' :
  erases c c' → (∀ a, erases (k a) (k' a)) → erases (c ≫= k) (c' ≫= k').
Proof.
  intros Hc Hk v l. unfold mbind, comp_bind. destruct (Hc v l) as [l1 ->].
  destruct (c' v) as [[a|e] v1]; simpl; [apply Hk|by exists l1].
Qed.
Lemma erases_try {A} (c : comp (V * L) A) c' h h' :
  erases c c' → (∀ e, erases (h e) (h' e)) → erases (try_catch c h) (try_catch c' h').
Proof.
  intros Hc Hh v l. unfold try_catch. destruct (Hc v l) as [l1 ->].
  destruct (c' v) as [[a|e] v1]; simpl; [by exists l1|apply Hh].
Qed.

Lemma withLocal_writeAttempts {Stop} (store : ConnectionsStore V) rid
    (change : option WritableConnection → comp (V * L) (ConnectionChange Stop)) change' unwritable
    n lastRace : (∀ current, erases (change current) (change' current)) →
  erases (writeAttempts (withLocal store) rid change unwritable n lastRace)
    (writeAttempts store rid change' unwritable n lastRace).
Proof.
  intros Hchange. revert lastRace. induction n as [|n IH]; intros lastRace; [apply erases_throw|].
  assert (∀ id, erases (store_get (withLocal store) id) (store_get store id)) as Hget.
  { intros id v l. exists l. simpl. by destruct (store_get store id v). }
  assert (∀ req, erases (store_put (withLocal store) req) (store_put store req)) as Hput.
  { intros req v l. exists l. simpl. by destruct (store_put store req v). }
  assert (∀ e : js_error, erases (A:=js_error + WriteOutcome Stop)
    (if isLostConnectionRace e then mret (inl e) else mthrow e)
    (if isLostConnectionRace e then mret (inl e) else mthrow e)) as Hrace.
  { intros e. case_match; [apply erases_ret|apply erases_throw]. }
  cbn [writeAttempts]. unfold readCurrent, putChange.
  repeat first
    [ apply erases_bind; [|intros] | apply erases_try; [|intros] | apply erases_ret
    | apply erases_throw | apply erases_lift | apply Hget | apply Hput | apply Hrace | apply Hchange
    | apply IH | case_match ].
Qed.
End Local.

(** ** The writer operations *)

(** A seam that is not the store leaves the record of calls alone. *)
Definition untraced {W A} (c : comp W A) : comp (W * list store_event) A :=
  λ '(w, t), let '(r, w') := c w in (r, (w', t)).
Definition tracedLocal {W} (local : WriterFirstSeenStore W) :
    WriterFirstSeenStore (W * list store_event) := {|
  fs_get := untraced (fs_get local);
  fs_put record := untraced (fs_put local record)
|}.

Lemma sound_untraced {W A} (c : comp W A) : sound_run (untraced c).
Proof.
  intros [w t]. exists []. unfold untraced. destruct (c w). simpl. rewrite app_nil_r.
  split; [done|apply sound_calls_nil].
Qed.

Lemma sound_local {W L A} (l : L) (c : comp ((W * list store_event) * L) A) c' :
  erases c c' → sound_run c' → sound_run (localVariable l c).
Proof.
  intros He Hs w. destruct (Hs w) as (calls&Hcalls&Hsc). exists calls.
  unfold localVariable. destruct (He w l) as [l' ->].
  destruct (c' w) as [[a|e] w']; simpl in *; by split.
Qed.

Lemma sound_raced {W Stop} raced_ (write : comp (W * list store_event) (WriteOutcome Stop)) :
  sound_run write → sound_run (racedAs raced_ write).
Proof.
  intros Hw. apply sound_try; [done|]. intros e. case_match; [apply sound_ret|].
  apply (sound_lift (Throw e)).
Qed.

Lemma register_run {W} (store : ConnectionsStore W) local q :
  startsWith (rw_did q) "did:" = true → rw_writerId q ≠ "" → time_value (rw_now q) →
  no_collision (rw_did q) →
  sound_run (registerConnectionWriter (tracedConnections store) (tracedLocal local) q).
Proof.
  intros Hd Hw Hn Hcol. unfold registerConnectionWriter.
  destruct (normalizeDisplayName (rw_label q)) as [name|] eqn:Hl; [|apply sound_lift].
  apply sound_bind; [apply sound_untraced|intros body].
  assert (∀ record, sound_run (fs_put (tracedLocal local) record;; mret deferred)) as Hdefer.
  { intros record. apply sound_bind; [apply sound_untraced|intros []; apply sound_ret]. }
  destruct (parseFirstSeenRecord body) as [firstSeen|]; [|apply Hdefer].
  destruct (negb _); [apply Hdefer|]. destruct (startedIn _ _); [apply sound_ret|].
  destruct (touchedRecently _ _ _); [apply sound_ret|]. apply sound_bind.
  - set (f := λ current, (withOwnWriter current (rw_did q) (rw_writerId q) name
      (rw_listedInDocument q) (rw_now q) (connectionWriterPolicy (rw_policy q))).1).
    eapply (sound_local _ _ (racedAs raced (writeConnection (tracedConnections store)
      (connectionResourceId (ByDid (rw_did q))) (λ current, lift (Ok (f current))) (Some refused)))).
    + apply erases_try; [apply withLocal_writeAttempts|].
      * intros current v l. unfold registrationChange, f.
        destruct (withOwnWriter _ _ _ _ _ _ _) as [next added]. by eexists.
      * intros e. case_match; [apply erases_ret|apply erases_throw].
    + apply sound_raced, (write_sound _ _ (λ current, Ok (f current))).
      by eapply withOwnWriter_sound.
  - intros [outcome written]. apply sound_bind; [|intros _; apply sound_ret].
    destruct outcome as [| |[]]; first [apply sound_untraced|apply sound_ret].
Qed.

Lemma touch_run {W} (store : ConnectionsStore W) listing writerId now policy : time_value now →
  sound_run (touchConnectionWriter (tracedConnections store) listing writerId now policy).
Proof.
  intros Hn. unfold touchConnectionWriter.
  destruct (findIndex _ _) as [[? found]|]; [|apply sound_ret].
  destruct (memberToTouch _ _ _ _); [apply sound_ret|].
  apply sound_bind; [|intros outcome; apply sound_ret]. apply sound_raced, write_sound.
  by apply touch_sound.
Qed.
End Directory.

(** Every operation that writes an entry over the store, with its arguments. *)
Inductive directory_write :=
  | RecordGrants_ (q : RecordGrants)
  | RemoveGrants_ (did : string) (zcapIds : list string)
  | RetireConnection_ (did : string) (handled : list string) (spaceUrl : option string) (now : Z)
  | UnretireConnection_ (did kind : string) (now : Z)
  | SetConnectionLabel_ (q : SetLabel)
  | RecordReceivedGrants_ (q : RecordReceived)
  | RecordRenewedGrants_ (q : RecordRenewed)
  | SettleOutboxItem_ (did createdAt : string)
  | PruneSupersededGrants_ (did : string) (deadChains : list string) (now : Z)
  | ClearReceivedGrants_ (did : string)
  | DropReceivedGrant_ (did zcapId : string)
  | MarkDeclined_ (did : string) (now : Z)
  | RecordReplicas_ (q : RecordReplicas)
  | RecordReplicaGrant_ (q : RecordReplicaGrant)
  | SettleReplicaRegistration_ (did fromSpace registrationId : string)
  | SetReplicaMarker_ (did : string) (marker : ReplicaMarker) (fromSpaces : option (list string))
      (now : Z)
  | ClearReplicaMarker_ (did : string) (marker : ReplicaMarker) (fromSpaces : option (list string))
  | RemoveReplica_ (did fromSpace : string)
  | RegisterConnectionWriter_ (q : RegisterWriter)
  | TouchConnectionWriter_ (listing : ConnectionsListing) (writerId : string) (now : Z)
      (policy : option Z * option Z * option Z).

Section Run.
Context {host : JsHost} {base64 : Base64} {paths : ServerPaths} {key : DirectoryKey}.
Context {didKeys : DidKeys}.

Definition run_write {W} (store : ConnectionsStore W) (local : WriterFirstSeenStore W)
    (op : directory_write) : comp W () :=
  match op with
  | RecordGrants_ q => recordGrants store q;; mret ()
  | RemoveGrants_ did zcapIds => removeGrants store did zcapIds;; mret ()
  | RetireConnection_ did handled spaceUrl now => retireConnection store did handled spaceUrl now;; mret ()
  | UnretireConnection_ did kind now => unretireConnection store did kind now;; mret ()
  | SetConnectionLabel_ q => setConnectionLabel store q;; mret ()
  | RecordReceivedGrants_ q => recordReceivedGrants store q;; mret ()
  | RecordRenewedGrants_ q => recordRenewedGrants store q;; mret ()
  | SettleOutboxItem_ did createdAt => settleOutboxItem store did createdAt;; mret ()
  | PruneSupersededGrants_ did deadChains now => pruneSupersededGrants store did deadChains now;; mret ()
  | ClearReceivedGrants_ did => clearReceivedGrants store did;; mret ()
  | DropReceivedGrant_ did zcapId => dropReceivedGrant store did zcapId;; mret ()
  | MarkDeclined_ did now => markDeclined store did now;; mret ()
  | RecordReplicas_ q => recordReplicas store q;; mret ()
  | RecordReplicaGrant_ q => recordReplicaGrant store q;; mret ()
  | SettleReplicaRegistration_ did fromSpace registrationId =>
      settleReplicaRegistration store did fromSpace registrationId;; mret ()
  | SetReplicaMarker_ did marker fromSpaces now => setReplicaMarker store did marker fromSpaces now;; mret ()
  | ClearReplicaMarker_ did marker fromSpaces => clearReplicaMarker store did marker fromSpaces;; mret ()
  | RemoveReplica_ did fromSpace => removeReplica store did fromSpace;; mret ()
  | RegisterConnectionWriter_ q => registerConnectionWriter store local q;; mret ()
  | TouchConnectionWriter_ listing writerId now policy =>
      touchConnectionWriter store listing writerId now policy;; mret ()
  end.

(** What the operations' callers pass: DIDs, clocks a [Date] can hold, a
    message that is an object, and decodable seeds. A write that can create an
    entry, or add a member to one, needs the party's DID; the others take any
    text. *)
Definition passed (op : directory_write) : Prop :=
  match op with
  | RecordGrants_ q => recordGrants_input q
  | RetireConnection_ _ _ _ now | UnretireConnection_ _ _ now | MarkDeclined_ _ now
  | SetReplicaMarker_ _ _ _ now | TouchConnectionWriter_ _ _ now _ => time_value now
  | SetConnectionLabel_ q => startsWith (sl_did q) "did:" = true ∧ time_value (sl_now q)
  | RecordReceivedGrants_ q => time_value (rr_now q)
  | RecordRenewedGrants_ q => time_value (rn_now q) ∧ is_Some (as_object (Some (rn_message q)))
  | RecordReplicas_ q => startsWith (rp_did q) "did:" = true ∧ time_value (rp_now q) ∧
      seed_pair (rp_seed q) (rp_seedTag q)
  | RecordReplicaGrant_ q => time_value (rpg_now q)
  | RegisterConnectionWriter_ q => startsWith (rw_did q) "did:" = true ∧ rw_writerId q ≠ "" ∧
      time_value (rw_now q) ∧ no_collision (rw_did q)
  | _ => True
  end.

Context {laws : JsHostLaws}.

Lemma prepared_sound {W A Stop} (r : result A) (c : A → comp (W * list store_event) Stop) :
  (∀ a, r = Ok a → sound_run (c a)) → sound_run (lift r ≫= c).
Proof.
  intros Hc. destruct r as [a|e].
  - intros w. apply (Hc a eq_refl).
  - intros w. exists []. rewrite app_nil_r. split; [done|apply sound_calls_nil].
Qed.

(** An operation that checks its arguments, then writes. *)
Ltac writes :=
  repeat (apply prepared_sound; let a := fresh "a" in let Ha := fresh "Ha" in intros a Ha);
  apply write_sound.

Lemma run_write_sound {W} (store : ConnectionsStore W) local op : passed op →
  sound_run (run_write (tracedConnections store) (tracedLocal local) op).
Proof.
  intros Hop. destruct op; simpl in Hop |- *;
    (apply sound_bind; [|intros _; apply sound_ret]).
  - writes. by apply recordGrants_sound.
  - writes. apply removeGrants_sound.
  - writes. by apply retire_sound.
  - writes. by apply unretire_sound.
  - destruct Hop. apply prepared_sound. intros [trimmed normalized] Hl. apply write_sound.
    by apply setLabel_sound.
  - writes. eapply recordReceived_sound, checkedReceived_fixed; done.
  - destruct Hop. writes. by apply recordRenewed_sound.
  - writes. apply settleOutbox_sound.
  - writes. apply prune_sound.
  - writes. apply clearReceived_sound.
  - writes. apply dropReceived_sound.
  - writes. by apply markDeclined_sound.
  - destruct Hop as (?&?&?). writes. by apply recordReplicas_sound.
  - apply prepared_sound. intros [fromSpace zcap] Hz. apply write_sound.
    by apply recordReplicaGrant_sound.
  - writes. by eapply settleReplica_sound.
  - writes. apply markers_sound; [intros; by eapply setMarker_accepted|].
    intros e body. unfold finishMarker. case_decide; auto.
  - writes. apply markers_sound; [intros; by eapply clearMarker_accepted|]. by left.
  - writes. apply removeReplica_sound.
  - destruct Hop as (?&?&?&?). by apply register_run.
  - by apply touch_run.
Qed.
End Run.


(** ** The sweep's writes *)
Section Sweep.
Context {host : JsHost} {base64 : Base64} {paths : ServerPaths} {key : DirectoryKey}.
Context {laws : JsHostLaws}.

(** A listed entry is what its body reads as, at home. *)
Definition listed (item : ReadConnection) : Prop :=
  parseConnectionEntry (rc_body item) = Some (rc_entry item) ∧
  claimedResourceId (rc_body item) = Some (rc_resourceId item).

Lemma swept_over o e now policy swept : reads o e → e_version e = CONNECTION_ENTRY_VERSION →
  (1 ≤ maxWriters policy)%Z → sweptWriters e now policy = Some swept →
  over o (set_member "writers" (JArr (sw_writers swept)) o).
Proof.
  intros Hr Hv Hmax Hs. unfold sweptWriters in Hs. case_match; [done|]. simplify_eq. simpl.
  assert (fixed parseWriter (markWriter policy now <$> keptWriters e now policy)) as Hfix.
  { apply Forall_fmap. eapply Forall_impl; [|intros w; by apply markWriter_accepted].
    eapply fixed_sublist; [by eapply writers_fixed|apply positions_sublist]. }
  pose proof (reads_writable _ _ Hr Hv) as Hw.
  eapply writers_over; [done..| | |by members|done|].
  - eauto with codec.
  - eauto with codec.
  - intros _ w Hone. destruct (kept_all e now policy) as [-> _]; [rewrite Hone; simpl; lia|].
    rewrite Hone. eexists. split; [done|apply markWriter_names].
Qed.

Lemma swept_put item now policy swept etag : listed item → (1 ≤ maxWriters policy)%Z →
  isWritableConnectionEntry (rc_entry item) = true →
  sweptWriters (rc_entry item) now policy = Some swept → rc_etag item = Some etag →
  sound_put (Some (rc_body item, rc_etag item))
    {| pc_resourceId := rc_resourceId item;
       pc_body := set_member "writers" (JArr (sw_writers swept)) (object_members (rc_body item));
       pc_ifMatch := Some etag; pc_ifNoneMatch := false |}.
Proof.
  intros [Hp Hclaim] Hmax Hv%bool_decide_eq_true Hs He.
  destruct (rc_body item) as [| | | | |o]; try done. apply parse_reads in Hp.
  destruct (swept_over _ _ _ _ _ Hp Hv Hmax Hs) as ((e'&Hr'&Hv')%writable_reads&Hk&Hcl).
  unfold sound_put. cbn [pc_body pc_resourceId pc_ifMatch]. change (object_members (JObj o)) with o.
  split_and!; [|by rewrite Hcl|by rewrite He; eauto|done|by eauto].
  exists e'. split; [by apply parse_reads|]. by apply bool_decide_eq_true.
Qed.

Lemma sweepEntries_puts {W} (store : ConnectionsStore W) now policy all items sweep w :
  Forall listed all → items ⊆ all → (1 ≤ maxWriters policy)%Z →
  leaves (sweepEntries (tracedConnections store) now policy items sweep) w
    (λ _ calls, ∀ ev, ev ∈ calls → ∃ req answer item, ev = EvPut req answer ∧ item ∈ all ∧
       sound_put (Some (rc_body item, rc_etag item)) req).
Proof.
  intros Hall Hsub Hmax. revert sweep w. induction items as [|item items IH]; intros sweep [w t].
  { exists []. rewrite app_nil_r. split; [done|]. set_solver. }
  simpl. assert (item ∈ all) as Hin by set_solver. rewrite Forall_forall in Hall.
  unfold leaves, mbind, comp_bind, sweepOne.
  assert (∀ sweep, leaves (sweepEntries (tracedConnections store) now policy items sweep) (w, t)
    (λ _ calls, ∀ ev, ev ∈ calls → ∃ req answer item, ev = EvPut req answer ∧ item ∈ all ∧
       sound_put (Some (rc_body item, rc_etag item)) req)) as Hrest.
  { intros sweep'. apply IH. set_solver. }
  destruct (isWritableConnectionEntry (rc_entry item)) eqn:Hv; [|apply Hrest].
  destruct (sweptWriters (rc_entry item) now policy) as [swept|] eqn:Hs; [|apply Hrest].
  destruct (rc_etag item) as [etag|] eqn:He; [|apply Hrest].
  pose proof (swept_put _ _ _ _ _ (Hall _ Hin) Hmax Hv Hs He) as Hput.
  unfold try_catch, mbind, comp_bind, recorded_call. simpl. unfold recorded_call.
  match goal with |- context [store_put store ?req w] => set (r := req) in * end.
  assert (∀ answer w1 next, ∃ calls,
    (sweepEntries (tracedConnections store) now policy items next (w1, t ++ [EvPut r answer])).2.2 =
      t ++ calls ∧
    ∀ ev, ev ∈ calls → ∃ req answer item, ev = EvPut req answer ∧ item ∈ all ∧
      sound_put (Some (rc_body item, rc_etag item)) req) as Hput_rest.
  { intros answer w1 next.
    destruct (IH ltac:(set_solver) next (w1, t ++ [EvPut r answer])) as (calls&Hcalls&Hc).
    exists (EvPut r answer :: calls). split; [rewrite Hcalls; simpl; by rewrite <-app_assoc|].
    intros ev [->|Hev]%elem_of_cons; [|by apply Hc]. by exists r, answer, item. }
  destruct (store_put store r w) as [[ack|err] w1]; apply Hput_rest.
Qed.
End Sweep.

(** The inactivity sweep's writes are sound. Over a listing of the
    directory and any store, every call the sweep makes is a write over one
    listed entry, conditional on the validator it was listed with, of a body
    this build parses and may write over again at the same resource id, with
    everything but the writers kept. *)
Theorem sweep_writes_are_sound {W} `{!JsHost} `{!Base64} `{!DirectoryKey} `{!JsHostLaws}
    (store : ConnectionsStore W) listing now policy w :
  Forall listed (l_entries listing) → (1 ≤ maxWriters (connectionWriterPolicy policy))%Z →
  leaves (sweepConnectionWriters (tracedConnections store) listing now policy) w
    (λ _ calls, ∀ ev, ev ∈ calls → ∃ req answer item, ev = EvPut req answer ∧
       item ∈ l_entries listing ∧ sound_put (Some (rc_body item, rc_etag item)) req).
Proof.
  intros Hl Hmax. unfold sweepConnectionWriters, leaves, mbind, comp_bind.
  destruct (sweepEntries_puts store now (connectionWriterPolicy policy) (l_entries listing)
    (l_entries listing) {| cs_entries := []; cs_markedInactive := []; cs_dropped := [];
                           cs_failed := [] |} w Hl ltac:(done) Hmax) as (calls&Hcalls&Hputs).
  exists calls. destruct (sweepEntries _ _ _ _ _ _) as [[sweep|e] w1]; simpl in *; by split.
Qed.
