(* ===== verification/ConnLaws.v ===== *)
(** * The latest record of each scope

    What [latestIndexPerScope] of [src/src/connections/grants.ts] selects, and
    that the prune of superseded records never touches it. *)

From S2P Require Import Prelude Json JsText ConnEntry ConnGrants ConnStore ConnUpsert ConnReceived ConnWriters ConnReplicas ConnInvariant.

Section Latest.
Context {host : JsHost}.

Definition expiry (zcap : json) : option Z := date_parse (zcap_expires zcap).
Definition dated (zcap : json) : Prop := is_Some (expiry zcap).

(** The capability at [i] is the latest of its scope: none of the scope
    expires later, and none listed after it expires as late. *)
Definition latest_at (zcaps : list json) (i : nat) (zcap : json) : Prop :=
  zcaps !! i = Some zcap ∧
  ∀ j other, zcaps !! j = Some other → grantScopeKey other = grantScopeKey zcap →
    time_lt (expiry other) (expiry zcap) = true ∨
    expiry other = expiry zcap ∧ j ≤ i.

Lemma latest_at_unique zcaps i j z z' : latest_at zcaps i z → latest_at zcaps j z' →
  grantScopeKey z = grantScopeKey z' → i = j.
Proof.
  intros [Hi Hz] [Hj Hz'] Hs. destruct (Hz _ _ Hj (eq_sym Hs)) as [H|[He H]],
    (Hz' _ _ Hi Hs) as [H'|[He' H']]; unfold time_lt in *; repeat case_match; simplify_eq; lia.
Qed.

(** What the loop holds for a scope once it has seen [seen]. *)
Definition holds (seen : list json) (scope : json) (held : option nat) : Prop :=
  match held with
  | None => ∀ j other, seen !! j = Some other → grantScopeKey other ≠ scope
  | Some i => ∃ zcap, latest_at seen i zcap ∧ grantScopeKey zcap = scope
  end.

Lemma lookup_snoc_inv {A} (l : list A) x j y : (l ++ [x]) !! j = Some y →
  l !! j = Some y ∨ j = length l ∧ y = x.
Proof. intros [H|[H [? ?]%list_lookup_singleton_Some]]%lookup_app_Some; [auto|right]. split; [lia|done]. Qed.

Lemma holds_skip seen z scope held : holds seen scope held → grantScopeKey z ≠ scope →
  holds (seen ++ [z]) scope held.
Proof.
  intros Hh Hne. destruct held as [i|]; simpl in *.
  - destruct Hh as (zh&[Hi Hz]&Hs). exists zh. split; [split; [by apply lookup_app_l_Some|]|done].
    intros j o [Hj|[-> ->]]%lookup_snoc_inv Ho; [by apply Hz|congruence].
  - intros j o [Hj|[-> ->]]%lookup_snoc_inv; [by eapply Hh|done].
Qed.

Lemma time_le_lt a b : time_le a b = false → is_Some a → is_Some b → time_lt b a = true.
Proof. intros H [x ->] [y ->]. simpl in *. apply Z.leb_gt in H. by apply Z.ltb_lt. Qed.

Lemma holds_step seen z held : dated z → Forall dated seen → holds seen (grantScopeKey z) held →
  holds (seen ++ [z]) (grantScopeKey z)
    (if match held with
        | None => true
        | Some i => time_le (expiry (default JNull (seen !! i))) (expiry z)
        end then Some (length seen) else held).
Proof.
  intros Hz Hseen Hh. rewrite Forall_forall in Hseen.
  assert ((seen ++ [z]) !! length seen = Some z) as Hlast by by rewrite list_lookup_middle.
  destruct held as [i|]; simpl in *.
  - destruct Hh as (zh&[Hi Hzh]&Hs). rewrite Hi. simpl.
    assert (dated zh) as [eh Heh] by (by eapply Hseen, list_elem_of_lookup_2). destruct Hz as [ez Hez].
    destruct (time_le (expiry zh) (expiry z)) eqn:Hle.
    + exists z. split; [split; [done|]|done]. rewrite Heh, Hez in Hle. apply Z.leb_le in Hle.
      intros j o [Hj|[-> ->]]%lookup_snoc_inv Ho; [|by right].
      pose proof (lookup_lt_Some _ _ _ Hj).
      destruct (Hzh j o Hj) as [H'|[H' _]]; [congruence|..]; rewrite Heh, Hez in *.
      * left. destruct (expiry o); [|done]. simpl in *. apply Z.ltb_lt in H'. apply Z.ltb_lt. lia.
      * rewrite H'. simpl. destruct (decide (eh = ez)) as [->|]; [right; split; [done|lia]|].
        left. apply Z.ltb_lt. lia.
    + exists zh. split; [split; [by apply lookup_app_l_Some|]|done].
      intros j o [Hj|[-> ->]]%lookup_snoc_inv Ho; [by apply Hzh|].
      left. apply time_le_lt; [done|by eexists..].
  - exists z. split; [split; [done|]|done].
    intros j o [Hj|[-> ->]]%lookup_snoc_inv Ho; [by destruct (Hh j o Hj)|by right].
Qed.

(** The loop over the capabilities from the [n]th on. *)
Lemma latestFrom_holds zcaps seen rest latest : Forall dated zcaps → zcaps = seen ++ rest →
  (∀ scope, holds seen scope (assoc_get scope latest)) →
  ∀ scope, holds zcaps scope (assoc_get scope (latestFrom zcaps (length seen) rest latest)).
Proof.
  intros Hd. revert seen latest. induction rest as [|z rest IH]; intros seen latest Hz Hheld scope; simpl.
  { rewrite app_nil_r in Hz. by subst. }
  rewrite <-(Nat.add_1_r (length seen)).
  change 1 with (length [z]). rewrite <-length_app. apply IH; [by rewrite <-app_assoc|].
  clear scope. intros scope. subst zcaps. apply Forall_app in Hd as [Hseen [Hz _]%Forall_cons].
  set (later := match assoc_get (grantScopeKey z) latest with None => _ | Some _ => _ end).
  assert (assoc_get scope (if later then assoc_set (grantScopeKey z) (length seen) latest else latest)
    = if decide (scope = grantScopeKey z) then if later then Some (length seen) else
        assoc_get scope latest else assoc_get scope latest) as ->.
  { destruct later; [by rewrite assoc_get_set|]. by case_decide. }
  case_decide as Hs; [subst scope|by apply holds_skip].
  pose proof (holds_step seen z _ Hz Hseen (Hheld (grantScopeKey z))) as Hstep.
  replace later with (match assoc_get (grantScopeKey z) latest with
    | None => true | Some i => time_le (expiry (default JNull (seen !! i))) (expiry z) end); [done|].
  unfold later. specialize (Hheld (grantScopeKey z)).
  destruct (assoc_get (grantScopeKey z) latest) as [i|]; [|done]. simpl in Hheld.
  destruct Hheld as (zh&[Hi _]&_). by rewrite Hi, (lookup_app_l_Some _ _ _ _ Hi).
Qed.

(** For each scope of dated capabilities, the loop selects its latest one. *)
Lemma latestIndexPerScope_holds zcaps scope : Forall dated zcaps →
  holds zcaps scope (assoc_get scope (latestIndexPerScope zcaps)).
Proof.
  intros Hd. apply (latestFrom_holds zcaps [] zcaps []); [done..|]. intros scope' j other Hj. done.
Qed.
End Latest.

Section Prune.
Context {host : JsHost} {base64 : Base64} {paths : ServerPaths} {key : DirectoryKey}.

Lemma grants_dated grants : fixed parseGrantRecord grants → Forall dated (zcap_of <$> grants).
Proof.
  intros Hg. apply Forall_fmap. eapply Forall_impl; [exact Hg|]. intros g Hp.
  unfold parseGrantRecord in Hp. apply bind_Some in Hp as (o&Ho&Hp).
  apply bind_Some in Hp as (z&Hz&_). destruct g; simplify_eq/=.
  unfold parseConnectionZcap in Hz. apply bind_Some in Hz as (m&Hm&Hz).
  repeat (apply bind_Some in Hz as (?&?&Hz)). unfold dated, expiry, zcap_expires, zcap_of.
  destruct (get_member "zcap" o) as [[]|] eqn:Hzo; simplify_eq/=. rewrite Hzo. simpl.
  match goal with H : as_timestamp _ = Some _ |- _ => unfold as_timestamp in H;
    apply bind_Some in H as (s&Hs&Hd) end.
  unfold string_member. simpl. rewrite Hs. simpl. by case_decide.
Qed.

(** The record of a scope that the grants' latest capability is in. *)
Definition latestRecord (grants : list json) (scope : json) : option json :=
  i ← assoc_get scope (latestPerScope grants); grants !! i.

(** Dropping records that are not the latest of their scope changes no scope's
    latest record. *)
Lemma drop_superseded grants (P : nat * json → Prop) `{!∀ x, Decision (P x)} scope :
  Forall dated (zcap_of <$> grants) →
  (∀ i g, grants !! i = Some g → i ∈ (latestPerScope grants).*2 → P (i, g)) →
  latestRecord (filter P (imap pair grants)).*2 scope = latestRecord grants scope.
Proof.
  intros Hd HP. set (kept := filter P (imap pair grants)).
  assert (∀ k p g, kept !! k = Some (p, g) → grants !! p = Some g) as Hat.
  { intros k p g Hk. apply list_elem_of_lookup_2 in Hk. apply list_elem_of_filter in Hk as [_ Hk].
    by apply elem_of_lookup_imap in Hk as (?&?&[= -> ->]&?). }
  assert (Forall dated (zcap_of <$> kept.*2)) as Hdk.
  { rewrite Forall_forall in Hd |- *. intros z (g&->&Hg)%list_elem_of_fmap.
    apply Hd, list_elem_of_fmap_2. eapply elem_of_sublist; [exact Hg|apply positions_sublist]. }
  unfold latestRecord, latestPerScope.
  pose proof (latestIndexPerScope_holds _ scope Hd) as Hall.
  pose proof (latestIndexPerScope_holds _ scope Hdk) as Hkept.
  destruct (assoc_get scope (latestIndexPerScope (zcap_of <$> grants))) as [i|] eqn:Hi; simpl in Hall |- *.
  - destruct Hall as (z&[Hz Hlast]&Hs). rewrite list_lookup_fmap in Hz.
    apply fmap_Some in Hz as (g&Hg&->).
    assert ((i, g) ∈ kept) as [k Hk]%list_elem_of_lookup.
    { apply list_elem_of_filter. split; [|apply elem_of_lookup_imap; eauto]. apply HP; [done|].
      apply list_elem_of_fmap. exists (scope, i). split; [done|]. by apply assoc_get_elem. }
    assert (latest_at (zcap_of <$> kept.*2) k (zcap_of g)) as Hlk.
    { split; [by rewrite !list_lookup_fmap, Hk|]. intros j o Hj.
      rewrite !list_lookup_fmap in Hj. destruct (kept !! j) as [[p g']|] eqn:Hj'; simplify_eq/=.
      intros Ho.
      destruct (Hlast p (zcap_of g')) as [|[He Hle]]; [|done|by left|].
      - by rewrite list_lookup_fmap, (Hat _ _ _ Hj').
      - right. split; [done|]. by eapply positions_mono. }
    destruct (assoc_get scope (latestIndexPerScope (zcap_of <$> kept.*2))) as [k'|]; simpl in Hkept |- *.
    + destruct Hkept as (z'&Hz'&Hs').
      assert (k' = k) as -> by (eapply latest_at_unique; [done..|congruence]).
      rewrite list_lookup_fmap, Hk. simpl. by rewrite Hg.
    + exfalso. apply (Hkept k (zcap_of g)); [|done]. by rewrite !list_lookup_fmap, Hk.
  - destruct (assoc_get scope (latestIndexPerScope (zcap_of <$> kept.*2))) as [k'|]; [|done].
    simpl in Hkept. destruct Hkept as (z'&[Hz' _]&Hs'). exfalso.
    rewrite !list_lookup_fmap in Hz'. destruct (kept !! k') as [[p g]|] eqn:Hk; simplify_eq/=.
    apply (Hall p (zcap_of g)); [|done]. by rewrite list_lookup_fmap, (Hat _ _ _ Hk).
Qed.
End Prune.


(** * What the directory's writes do

    The functional laws of the outbox, of the retirement, of the received
    channels and of the recorded grants. *)

(** ** The outbox *)
Section Outbox.
Context {host : JsHost}.

(** The capabilities an item, and an outbox, still has to deliver. *)
Definition pendingOf (item : json) : list json :=
  default [] (envelopeZcaps (default JNull (member "message" item))).
Definition pending (outbox : list json) : list json := concat (pendingOf <$> outbox).

Lemma supersedeItem_pending supersedes item :
  from_option pendingOf [] (supersedeItem supersedes item) =
    filter (λ value, stays supersedes value = true) (pendingOf item).
Proof.
  unfold supersedeItem, pendingOf.
  destruct (envelopeZcaps (default JNull (member "message" item))) as [zcaps|] eqn:He;
    simpl; [|by rewrite He].
  case_decide as Hlen.
  { simpl. rewrite He. simpl. symmetry. apply sublist_length_eq; [apply sublist_filter|]. lia. }
  case_decide as Hnil; [by rewrite Hnil|]. simpl.
  destruct item as [| | | | |o]; simpl in He; try done. simpl. rewrite get_set_member_eq. simpl.
  destruct (get_member "message" o) as [[| | | | |m]|]; simpl in He; try done. simpl.
  unfold envelopeZcaps in He |- *. simpl in He |- *. rewrite get_set_member_eq. simpl.
  destruct (get_member "object" m) as [[| | | | |obj]|]; try done. simpl.
  by rewrite get_set_member_eq.
Qed.

Lemma supersedeItem_createdAt supersedes item item' : supersedeItem supersedes item = Some item' →
  member "createdAt" item' = member "createdAt" item.
Proof.
  unfold supersedeItem. case_match; [|by intros [= <-]]. case_decide; [by intros [= <-]|].
  case_decide; [done|]. intros [= <-]. destruct item; try done. simpl. by members.
Qed.
End Outbox.

(** Queueing an envelope supersedes exactly what it replaces. The new
    outbox ends with the new item; what its other items still have to deliver
    is, in order, what the outbox had to deliver less the capabilities the new
    envelope supersedes; and each of those items is an item of the outbox,
    under the creation stamp a settle finds it by. *)
Theorem envelope_supersedes `{!JsHost} outbox message stamp supersedes :
  ∃ kept, supersedeAndQueueEnvelope outbox message stamp supersedes =
      kept ++ [outboxItem message stamp] ∧
    pending kept = filter (λ value, stays supersedes value = true) (pending outbox) ∧
    ∀ item', item' ∈ kept → ∃ item, item ∈ outbox ∧
      member "createdAt" item' = member "createdAt" item.
Proof.
  eexists. split; [done|]. split.
  - induction outbox as [|item outbox IH]; [done|]. simpl. unfold pending in *. simpl.
    rewrite filter_app. rewrite <-supersedeItem_pending. setoid_rewrite <-IH.
    by destruct (supersedeItem supersedes item).
  - intros item' (item&Hi&Hs)%list_elem_of_omap. exists item. split; [done|].
    by eapply supersedeItem_createdAt.
Qed.

(** ** Live channels *)
Section Channel.
Context {host : JsHost}.

Definition inbox_live (now lifetime : Z) (grant : ConnectionReceivedGrant) : Prop :=
  r_grantKind grant = "inbox" ∧
  receivedGrantLapsed (r_expires grant) (r_receivedAt grant) now lifetime = false.

Lemma inbox_live_test now lifetime grant :
  negb (bool_decide (r_grantKind grant = "inbox")) ||
    receivedGrantLapsed (r_expires grant) (r_receivedAt grant) now lifetime = false ↔
  inbox_live now lifetime grant.
Proof.
  unfold inbox_live. by rewrite orb_false_iff, negb_false_iff, bool_decide_eq_true.
Qed.
End Channel.

(** The live inbox channel. Over grants whose expiries are times, the
    selection is an inbox grant that has not lapsed and that no such grant
    outlives, and there is none exactly when every inbox grant has lapsed. *)
Theorem live_inbox_outlives `{!JsHost} grants now lifetime :
  Forall (λ g, is_Some (date_parse (r_expires g))) grants →
  match liveInboxChannel grants now lifetime with
  | None => ∀ g, g ∈ grants → ¬ inbox_live now lifetime g
  | Some best => best ∈ grants ∧ inbox_live now lifetime best ∧
      ∀ g, g ∈ grants → inbox_live now lifetime g →
        time_le (date_parse (r_expires g)) (date_parse (r_expires best)) = true
  end.
Proof.
  intros Hd. unfold liveInboxChannel.
  set (step := λ best grant, _).
  assert (∀ rest seen acc, grants = seen ++ rest →
    match acc with
    | None => ∀ g, g ∈ seen → ¬ inbox_live now lifetime g
    | Some (best, t) => t = date_parse (r_expires best) ∧ best ∈ seen ∧
        inbox_live now lifetime best ∧ ∀ g, g ∈ seen → inbox_live now lifetime g →
        time_le (date_parse (r_expires g)) t = true
    end →
    match fst <$> foldl step acc rest with
    | None => ∀ g, g ∈ grants → ¬ inbox_live now lifetime g
    | Some best => best ∈ grants ∧ inbox_live now lifetime best ∧
        ∀ g, g ∈ grants → inbox_live now lifetime g →
        time_le (date_parse (r_expires g)) (date_parse (r_expires best)) = true
    end) as Hloop.
  { induction rest as [|g rest IH]; intros seen acc Heq Hacc; simpl.
    { rewrite app_nil_r in Heq. subst. destruct acc as [[best t]|]; simpl; [|done].
      destruct Hacc as (->&?&?&?). auto. }
    apply (IH (seen ++ [g])); [by rewrite <-app_assoc|].
    assert (is_Some (date_parse (r_expires g))) as [tg Htg].
    { rewrite Forall_forall in Hd. apply Hd. rewrite Heq. set_solver. }
    unfold step. destruct (_ || _) eqn:Htest.
    - assert (¬ inbox_live now lifetime g) as Hdead.
      { rewrite <-inbox_live_test. by rewrite Htest. }
      destruct acc as [[best t]|]; [|set_solver]. destruct Hacc as (?&?&?&?). split_and!; set_solver.
    - apply inbox_live_test in Htest as Hlive. destruct acc as [[best t]|].
      + destruct Hacc as (->&Hin&Hbl&Hmax).
        assert (is_Some (date_parse (r_expires best))) as [tb Htb].
        { rewrite Forall_forall in Hd. apply Hd. rewrite Heq. set_solver. }
        destruct (time_le _ _) eqn:Hle; split_and!; try done; try set_solver.
        * intros g' [Hg'| ->%list_elem_of_singleton]%elem_of_app Hl'; [|by rewrite Htg; apply Z.leb_refl].
          specialize (Hmax _ Hg' Hl'). rewrite Htb, Htg in *. simpl in *.
          destruct (date_parse (r_expires g')); [|done]. simpl in *. apply Z.leb_le in Hmax, Hle.
          apply Z.leb_le. lia.
        * intros g' [Hg'| ->%list_elem_of_singleton]%elem_of_app Hl'; [by apply Hmax|].
          rewrite Htb, Htg in *. simpl in *. apply Z.leb_gt in Hle. apply Z.leb_le. lia.
      + split_and!; [done|set_solver|done|].
        intros g' [Hg'| ->%list_elem_of_singleton]%elem_of_app Hl'; [by destruct (Hacc g')|].
        rewrite Htg. apply Z.leb_refl. }
  apply (Hloop grants [] None); [done|]. set_solver.
Qed.

(** ** Retirement *)

Lemma reads_unique `{!JsHost} `{!Base64} o e e' : reads o e → reads o e' → e = e'.
Proof. intros Hr%parse_reads Hr'%parse_reads. congruence. Qed.

(** The entry a retirement leaves. *)
Definition retired_entry `{!JsHost} (now : Z) (entry : ConnectionEntry) : ConnectionEntry := {|
  e_version := e_version entry; e_kind := e_kind entry; e_id := e_id entry;
  e_name := e_name entry; e_label := e_label entry; e_origin := e_origin entry;
  e_url := e_url entry; e_appKey := None; e_firstSeen := e_firstSeen entry;
  e_lastSeen := e_lastSeen entry;
  e_retired := Some (default (toISOString now) (e_retired entry));
  e_declined := e_declined entry; e_seed := e_seed entry; e_seedTag := e_seedTag entry;
  e_grants := []; e_grantsReceived := []; e_outbox := []; e_writers := e_writers entry;
  e_replicas := e_replicas entry |}.

Lemma retired_reads `{!JsHost} `{!Base64} `{!JsHostLaws} o entry now :
  reads o entry → time_value now →
  reads (delete_member "appKey" (spread o
    [("grants", JArr []); ("grantsReceived", JArr []); ("outbox", JArr []);
     ("retired", JStr (default (toISOString now) (e_retired entry)))])) (retired_entry now entry).
Proof.
  intros Hr Hn. assert (as_timestamp (Some (JStr (default (toISOString now) (e_retired entry)))) =
    Some (default (toISOString now) (e_retired entry))) as Ht.
  { destruct (e_retired entry) eqn:He; simpl; [by eapply reads_retired|by apply as_timestamp_iso]. }
  unfold retired_entry. set (stamp := default _ _) in *. clearbody stamp.
  destruct Hr. split; simpl; members; try done. simpl. by rewrite Ht.
Qed.

(** A retirement is thorough and refuses to lose a grant. Over an entry of
    the directory it throws when a grant to the account's Spaces was not
    handled or a replica is still listed, stops when the entry is retired and
    empty already, and otherwise writes the entry retired -- under the stamp
    it was first retired with -- with no grant, no received capability, no
    pending item and no app key, everything else as it was; retiring what was
    written again changes nothing. *)
Theorem retirement_is_thorough `{!JsHost} `{!Base64} `{!ServerPaths} `{!JsHostLaws}
    o entry etag handled spaceUrl now :
  reads o entry → time_value now →
  let change := retireConnectionChange handled spaceUrl now in
  match change (Some {| wc_entry := entry; wc_body := o; wc_etag := etag |}) with
  | Throw err => e_replicas entry ≠ [] ∨ ∃ url, spaceUrl = Some url ∧
      match connectionGrants entry url with
      | Ok grants => ∃ grant, grant ∈ grants ∧ g_zcapId grant ∉ handled
      | Throw err' => err = err'
      end
  | Ok (Stop_ stop) => stop = Unchanged ∧ is_Some (e_retired entry) ∧ e_grants entry = [] ∧
      e_grantsReceived entry = [] ∧ e_outbox entry = [] ∧ e_appKey entry = None
  | Ok (Write body) =>
      (∀ url, spaceUrl = Some url → ∃ grants, connectionGrants entry url = Ok grants ∧
         ∀ grant, grant ∈ grants → g_zcapId grant ∈ handled) ∧ e_replicas entry = [] ∧
      reads body (retired_entry now entry) ∧
      ∀ entry' etag', reads body entry' →
        (∀ url, spaceUrl = Some url → connectionGrants entry' url = Ok []) →
        change (Some {| wc_entry := entry'; wc_body := body; wc_etag := etag' |}) = Ok (Stop_ Unchanged)
  end.
Proof.
  intros Hr Hn change. unfold change, retireConnectionChange. cbn [wc_entry wc_body].
  set (party := match spaceUrl with None => _ | Some _ => _ end).
  destruct party as [grants|err] eqn:Hparty; simpl.
  2:{ right. unfold party in Hparty. destruct spaceUrl as [url|]; [|done]. exists url.
      by rewrite Hparty. }
  case_decide as Hunhandled.
  { right. unfold party in Hparty. destruct spaceUrl as [url|]; [|by simplify_eq].
    exists url. split; [done|]. rewrite Hparty.
    destruct (filter _ _) as [|g gs] eqn:Hf; [done|]. exists g.
    assert (g ∈ g :: gs) as Hg by set_solver. rewrite <-Hf in Hg.
    apply list_elem_of_filter in Hg as [??]. done. }
  case_decide as Hrep; [by left|].
  destruct (_ && _) eqn:Hdone.
  { repeat (apply andb_true_iff in Hdone as [Hdone ?]). by repeat match goal with
      Hb : bool_decide _ = true |- _ => apply bool_decide_eq_true in Hb end. }
  clear Hdone. pose proof (retired_reads _ _ _ Hr Hn) as Hbody.
  split_and!; [|done|exact Hbody|].
  - intros url ->. exists grants. split; [done|]. intros g Hg. apply dec_stable. intros Hno.
    assert (g ∈ @nil ConnectionGrant) as []%not_elem_of_nil. rewrite <-Hunhandled.
    by apply list_elem_of_filter.
  - intros entry' etag' Hr' Hempty. rewrite <-(reads_unique _ _ _ Hbody Hr') in *. simpl.
    destruct spaceUrl as [url|]; [rewrite (Hempty url) by done|]; simpl; by rewrite Hrep.
Qed.

(** ** Received channels *)
Section Received.
Context {host : JsHost} {base64 : Base64} {paths : ServerPaths} {key : DirectoryKey}.

(** What makes two received records one channel. *)
Definition channel (record : json) : string * string :=
  (string_member "grantKind" record, zcap_target (zcap_of record)).

Lemma sameChannel_iff record held : sameChannel record held = true ↔ channel held = channel record.
Proof.
  unfold sameChannel, channel. rewrite andb_true_iff, !bool_decide_eq_true. split; [by intros [-> ->]|by intros [= -> ->]].
Qed.

Lemma findIndex_None {A} (f : A → bool) xs : findIndex f xs = None → ∀ x, x ∈ xs → f x = false.
Proof.
  induction xs as [|y xs IH]; simpl; [set_solver|]. destruct (f y) eqn:Hy; [done|].
  intros Hf%fmap_None x [->|Hx]%elem_of_cons; auto.
Qed.

Definition lapsed (now lifetime : Z) (record : json) : bool :=
  receivedGrantLapsed (zcap_expires (zcap_of record)) (string_member "receivedAt" record) now lifetime.

Definition expiresOf (record : json) : option Z := expiresAtOf (zcap_of record).

(** A record that stands for a live one: the record itself, or a live one of
    its channel that expires later. *)
Definition stands_for (now lifetime : Z) (record held : json) : Prop :=
  channel record = channel held ∧ lapsed now lifetime record = false ∧
  (record = held ∨ time_lt (expiresOf held) (expiresOf record) = true).

Lemma stands_for_trans now lifetime a b c :
  stands_for now lifetime a b → stands_for now lifetime b c → stands_for now lifetime a c.
Proof.
  intros (H1&H2&H3) (H4&H5&H6). split_and!; [congruence|done|].
  destruct H3 as [->|H3], H6 as [->|H6]; auto. right. unfold time_lt in *.
  repeat case_match; try done. rewrite Z.ltb_lt in *. lia.
Qed.

(** A record received now, expiring later than a live one, is live. *)
Lemma received_now_live now lifetime held record : (0 < lifetime)%Z →
  date_parse (string_member "receivedAt" record) = Some now →
  lapsed now lifetime held = false → is_Some (expiresOf held) →
  time_lt (expiresOf held) (expiresOf record) = true → lapsed now lifetime record = false.
Proof.
  unfold lapsed, receivedGrantLapsed, expiresOf, expiresAtOf, time_lt.
  intros Hl -> Hlive [t Ht] Hlt. rewrite Ht in *. destruct (date_parse (string_member "receivedAt" held)); [|done].
  destruct (date_parse (zcap_expires (zcap_of record))); [|done].
  rewrite Z.leb_gt in *. rewrite Z.ltb_lt in *. lia.
Qed.

Lemma mergeOne_channels now lifetime (merged : Merged) record : (0 < lifetime)%Z →
  date_parse (string_member "receivedAt" record) = Some now →
  NoDup (channel ∘ snd <$> merged) → Forall (λ r, is_Some (expiresOf r)) merged.*2 →
  NoDup (channel ∘ snd <$> mergeOne now lifetime merged record) ∧
  ∀ held, held ∈ merged.*2 → lapsed now lifetime held = false →
    ∃ r, r ∈ (mergeOne now lifetime merged record).*2 ∧ stands_for now lifetime r held.
Proof.
  intros Hl Hnow Hnd Hdated.
  assert (∀ held, held ∈ merged.*2 → lapsed now lifetime held = false →
    ∃ r, r ∈ merged.*2 ∧ stands_for now lifetime r held) as Hkeep.
  { intros held Hin Hlive. exists held. split; [done|]. split_and!; auto. }
  unfold mergeOne. destruct (existsb _ _); [done|].
  destruct (findIndex _ _) as [[index [tag held]]|] eqn:Hf.
  - destruct (_ || _) eqn:Hreplace; [|done]. simpl in Hreplace.
    apply findIndex_Some in Hf as [Hi Hc%sameChannel_iff]. simpl in Hc. split.
    + rewrite (list_fmap_insert _ (merged : list _)), list_insert_id; [done|].
      rewrite list_lookup_fmap, Hi. simpl. by rewrite Hc.
    + intros h [j Hj]%list_elem_of_lookup Hlive. rewrite (list_fmap_insert snd (merged : list _)). simpl.
      destruct (decide (j = index)) as [->|Hne].
      * rewrite list_lookup_fmap, Hi in Hj. injection Hj as <-. exists record.
        split; [apply list_elem_of_lookup; exists index; apply list_lookup_insert_eq|].
        { rewrite length_fmap. by eapply lookup_lt_Some. }
        pose proof Hlive as Hlive'. unfold lapsed in Hlive'. rewrite Hlive', orb_false_r in Hreplace.
        split_and!; [done| |by right]. eapply received_now_live; [done..| |done].
        rewrite Forall_forall in Hdated. apply Hdated, list_elem_of_fmap. exists (tag, held).
        split; [done|]. by eapply list_elem_of_lookup_2.
      * exists h. split; [|split_and!; auto]. apply list_elem_of_lookup. exists j.
        by rewrite list_lookup_insert_ne.
  - pose proof (findIndex_None _ _ Hf) as Hnone. split.
    + rewrite (fmap_app _ (merged : list _)). apply NoDup_app. split_and!; [done| |apply NoDup_singleton].
      intros c ([i h]&->&Hin)%list_elem_of_fmap Hc%list_elem_of_singleton. simpl in Hc.
      specialize (Hnone _ Hin). simpl in Hnone.
      by rewrite (proj2 (sameChannel_iff record h)) in Hnone.
    + intros h Hin Hlive. exists h. rewrite (fmap_app _ (merged : list _)).
      split; [set_solver|]. split_and!; auto.
Qed.
End Received.

Section ReceivedFold.
Context {host : JsHost} {base64 : Base64} {paths : ServerPaths} {key : DirectoryKey}.
Context {laws : JsHostLaws}.

(** What [checkedReceived] lets through: a record received now, of a dated
    capability. *)
Definition received_at (now : Z) (record : json) : Prop :=
  date_parse (string_member "receivedAt" record) = Some now ∧ is_Some (expiresOf record).

Lemma zcap_dated z : parseConnectionZcap (Some z) = Some z → is_Some (expiresAtOf z).
Proof.
  unfold parseConnectionZcap. intros H. apply bind_Some in H as (m&Hm&H).
  repeat (apply bind_Some in H as (?&?&H)). destruct z; simplify_eq/=.
  unfold expiresAtOf, zcap_expires, string_member. simpl.
  match goal with Ht : as_timestamp _ = Some _ |- _ =>
    unfold as_timestamp in Ht; apply bind_Some in Ht as (s&Hs&Ht) end.
  rewrite Hs. simpl. by case_decide.
Qed.

Lemma received_dated record : accepts parseReceivedGrantRecord record → is_Some (expiresOf record).
Proof.
  unfold parseReceivedGrantRecord. intros H. apply bind_Some in H as (m&Hm&H).
  apply bind_Some in H as (z&Hz&_). destruct record; simplify_eq/=.
  destruct (get_member "zcap" m) as [v|] eqn:Hv; [|done].
  pose proof (parseConnectionZcap_id _ _ Hz) as ->.
  unfold expiresOf, zcap_of. simpl. rewrite Hv. simpl. by apply zcap_dated.
Qed.

Lemma checkedReceived_at q grants incoming : time_value (rr_now q) →
  mapM (checkedReceived q) grants = Ok incoming → Forall (received_at (rr_now q)) incoming.
Proof.
  intros Hn H. pose proof (checkedReceived_fixed _ _ _ Hn H) as Hfix.
  apply mapM_Ok in H. unfold fixed in Hfix. apply Forall_forall. intros r Hr.
  rewrite Forall_forall in Hfix. split; [|by apply received_dated, Hfix].
  apply list_elem_of_lookup in Hr as [i Hi].
  destruct (Forall2_lookup_r _ _ _ _ _ H Hi) as (grant&_&Hc). unfold checkedReceived in Hc.
  apply result_bind_Ok in Hc as (z&_&Hc). case_match; [done|].
  apply result_bind_Ok in Hc as (inside&_&Hc). repeat case_match; simplify_eq.
  unfold string_member. simpl. by apply date_parse_iso.
Qed.

Lemma mergeOne_dated now lifetime merged record :
  Forall (λ r, is_Some (expiresOf r)) merged.*2 → is_Some (expiresOf record) →
  Forall (λ r, is_Some (expiresOf r)) (mergeOne now lifetime merged record).*2.
Proof.
  intros Hm Hr. unfold mergeOne. case_match; [done|].
  destruct (findIndex _ _) as [[index held]|].
  - destruct (_ || _); [|done]. rewrite (list_fmap_insert snd (merged : list _)).
    by apply Forall_insert.
  - rewrite (fmap_app snd (merged : list _)). apply Forall_app. by repeat constructor.
Qed.

Lemma merged_channels now lifetime incoming merged : (0 < lifetime)%Z →
  Forall (received_at now) incoming →
  NoDup (channel ∘ snd <$> merged) → Forall (λ r, is_Some (expiresOf r)) merged.*2 →
  NoDup (channel ∘ snd <$> foldl (mergeOne now lifetime) merged incoming) ∧
  ∀ held, held ∈ merged.*2 → lapsed now lifetime held = false →
    ∃ r, r ∈ (foldl (mergeOne now lifetime) merged incoming).*2 ∧ stands_for now lifetime r held.
Proof.
  intros Hl Hi. revert merged. induction Hi as [|record incoming [Hat Hd] Hi IH]; intros merged Hnd Hm.
  { split; [done|]. intros held Hin Hlive. exists held. split; [done|]. split_and!; auto. }
  destruct (mergeOne_channels now lifetime merged record Hl Hat Hnd Hm) as [Hnd' Hkeep].
  destruct (IH (mergeOne now lifetime merged record) Hnd' ltac:(by apply mergeOne_dated)) as [Hnd'' Hkeep'].
  split; [done|]. intros held Hin Hlive. destruct (Hkeep held Hin Hlive) as (r&Hr&Hs).
  destruct (Hkeep' r Hr ltac:(apply Hs)) as (r'&Hr'&Hs'). exists r'. split; [done|].
  by eapply stands_for_trans.
Qed.

Lemma live_not_expired now lifetime record : is_Some (expiresOf record) →
  lapsed now lifetime record = false → expiredBeyondSkew (zcap_of record) now = false.
Proof.
  unfold lapsed, receivedGrantLapsed, expiredBeyondSkew, expiresOf, expiresAtOf.
  intros [t Ht] Hl. rewrite Ht in *. destruct (date_parse (string_member "receivedAt" record)); [|done].
  apply Z.leb_gt in Hl. apply Z.leb_gt. unfold REVOCATION_CLOCK_SKEW_MS. lia.
Qed.
End ReceivedFold.

(** A received channel never regresses. Recording what a party handed the
    wallet, over an entry with one record for each channel, either changes
    nothing or writes a list with one record for each channel in which every
    channel that was live still is: under its old record, or under one that
    expires later. *)
Theorem received_channels_never_regress `{!JsHost} `{!Base64} `{!ServerPaths} `{!JsHostLaws}
    o entry etag q incoming :
  reads o entry → time_value (rr_now q) → (0 < rr_channelMaxLifetimeMs q)%Z →
  mapM (checkedReceived q) (rr_grants q) = Ok incoming →
  NoDup (channel <$> e_grantsReceived entry) →
  match recordReceivedChange q incoming
          (Some {| wc_entry := entry; wc_body := o; wc_etag := etag |}) with
  | Throw _ => is_Some (e_retired entry)
  | Ok (Stop_ stop) => stop = Unchanged
  | Ok (Write body) => ∃ kept, body = set_member "grantsReceived" (JArr kept) o ∧
      NoDup (channel <$> kept) ∧
      ∀ held, held ∈ e_grantsReceived entry →
        lapsed (rr_now q) (rr_channelMaxLifetimeMs q) held = false →
        ∃ r, r ∈ kept ∧ stands_for (rr_now q) (rr_channelMaxLifetimeMs q) r held
  end.
Proof.
  intros Hr Hn Hl Hin%checkedReceived_at Hnd; [|done]. unfold recordReceivedChange.
  cbn [wc_entry wc_body]. destruct (e_retired entry) eqn:Hret; [by eexists|].
  set (stored := imap (λ i record, (Some i, record)) (e_grantsReceived entry)).
  destruct (_ && _); [done|]. eexists. split; [done|].
  assert (stored.*2 = e_grantsReceived entry) as Hstored by apply imap_tag_snd.
  assert (Forall (λ r, is_Some (expiresOf r)) stored.*2) as Hdated.
  { rewrite Hstored. eapply Forall_impl; [by eapply received_fixed|]. apply received_dated. }
  destruct (merged_channels (rr_now q) _ _ stored Hl Hin) as [Hnd' Hkeep]; [|done|].
  { rewrite list_fmap_compose, Hstored. done. }
  set (merged := foldl _ _ _) in *. split.
  - rewrite <-list_fmap_compose. eapply sublist_NoDup; [exact Hnd'|].
    apply sublist_fmap_mono, sublist_filter.
  - intros held Hheld Hlive. rewrite <-Hstored in Hheld.
    destruct (Hkeep held Hheld Hlive) as (r&Hr'&Hs). exists r. split; [|done].
    apply list_elem_of_fmap in Hr' as (x&->&Hx). apply list_elem_of_fmap. exists x. split; [done|].
    apply list_elem_of_filter. split; [|done]. destruct Hs as (_&Hlr&_).
    assert (Forall (λ r, is_Some (expiresOf r)) merged.*2) as Hm.
    { unfold merged. clear -Hdated Hin. revert Hdated. generalize stored.
      induction Hin as [|record incoming [_ Hd] _ IH]; intros s Hs; simpl; [done|].
      by apply IH, mergeOne_dated. }
    rewrite Forall_forall in Hm. eapply live_not_expired; [|done].
    by apply Hm, list_elem_of_fmap_2.
Qed.
