(* ===== verification/ConnDemo.v ===== *)
(** * A concrete directory

    A platform, a directory key and a few entries, at which the directory's
    theorems are applied. The platform writes a time as its sign and its binary
    digits, and knows one URL scheme; the key is the identity on what tells two
    arms apart. *)

From S2P Require Import Prelude Json JsText ConnEntry ConnGrants ConnStore ConnUpsert.
From S2P Require Import ConnReceived ConnWriters ConnReplicas ConnInvariant.
From S2P Require Import ConnDirectory ConnLaws.
From Stdlib Require Import Ascii.

Module Demo.

(** ** The platform *)

Fixpoint digits (p : positive) : string :=
  match p with
  | xH => "H"
  | xO p => String "0"%char (digits p)
  | xI p => String "1"%char (digits p)
  end.
Fixpoint read_digits (s : string) : option positive :=
  match s with
  | "H" => Some xH
  | String "0"%char s => xO <$> read_digits s
  | String "1"%char s => xI <$> read_digits s
  | _ => None
  end.

Lemma read_digits_digits p : read_digits (digits p) = Some p.
Proof. induction p; simpl; try (by rewrite IHp); done. Qed.

Definition show_time (ms : Z) : string :=
  match ms with
  | Z0 => "0"
  | Zpos p => String "+"%char (digits p)
  | Zneg p => String "-"%char (digits p)
  end.
Definition read_time (s : string) : option Z :=
  match s with
  | "0" => Some 0%Z
  | String "+"%char s => Zpos <$> read_digits s
  | String "-"%char s => Zneg <$> read_digits s
  | _ => None
  end.

#[export] Instance demo_host : JsHost := {|
  date_parse := read_time;
  toISOString := show_time;
  url_href s := if startsWith s "https://" then Some s else None
|}.

#[export] Instance demo_laws : JsHostLaws.
Proof.
  split.
  - intros [|p|p] _; simpl; [done|..]; by rewrite read_digits_digits.
  - intros url href. simpl. case_match eqn:Hs; [|done]. intros [= <-]. by rewrite Hs.
  - intros url href. simpl. case_match; [|done]. by intros [= <-].
Qed.

#[export] Instance demo_base64 : Base64 := {|
  b64_decode s := Some (String.substring 0 32 s);
  b64_encode s := s
|}.
#[export] Instance demo_paths : ServerPaths := {| baseServerUrlOf _ := Ok "https://host/" |}.
(** The input without its common prefix. *)
#[export] Instance demo_key : DirectoryKey := {|
  keyedMac s := String.substring 15 (String.length s - 15) s;
  edvIdFromBytes s := s
|}.
#[export] Instance demo_didKeys : DidKeys := {| isEd25519DidKey s := startsWith s "did:key:" |}.

Lemma demo_no_collision : no_collision "did:key:z1".
Proof. intros writerId. unfold connectionResourceId. simpl. discriminate. Qed.

(** ** Entries *)

Definition space : string := "https://host/s/".
Definition far : string := "https://other/t/".
Definition did : string := "did:key:z1".

Definition capability (id controller target : string) (action : string) (expires : Z) : json :=
  JObj [("id", JStr id); ("controller", JStr controller); ("invocationTarget", JStr target);
        ("allowedAction", JStr action); ("expires", JStr (show_time expires))].

Definition grant_of (id : string) (expires : Z) : json :=
  grantRecord (capability id did space "GET" expires) "grant" (show_time 1).

Definition writer (id : string) (seen : Z) : json :=
  JObj [("writerId", JStr id); ("label", JStr "Laptop"); ("lastSeen", JStr (show_time seen));
        ("active", JBool true)].

(** An agent granted the same scope three times, with one received channel and
    two writers. *)
Definition body : members :=
  [("version", jint 1); ("kind", JStr "agent"); ("id", JStr did);
   ("firstSeen", JStr (show_time 1)); ("lastSeen", JStr (show_time 2));
   ("grants", JArr [grant_of "u1" 10; grant_of "u2" 30; grant_of "u3" 20]);
   ("grantsReceived", JArr [receivedRecord (capability "r1" "did:key:me" far "POST" 2000) "inbox"
                              (show_time 5)]);
   ("outbox", JArr []);
   ("writers", JArr [writer "w1" 3; writer "w2" 9]); ("later", JStr "kept")].

Definition entry : ConnectionEntry :=
  default {| e_version := 0; e_kind := ""; e_id := None; e_name := None; e_label := None;
    e_origin := None; e_url := None; e_appKey := None; e_firstSeen := ""; e_lastSeen := "";
    e_retired := None; e_declined := None; e_seed := None; e_seedTag := None; e_grants := [];
    e_grantsReceived := []; e_outbox := []; e_writers := []; e_replicas := [] |}
    (parseConnectionEntry (JObj body)).

Lemma body_reads : reads body entry.
Proof. apply parse_reads. vm_compute. reflexivity. Qed.

Definition current : WritableConnection :=
  {| wc_entry := entry; wc_body := body; wc_etag := Some "e1" |}.

(** Five minutes past the first grant's expiry, with the skew. *)
Definition later : Z := 700000.

Example prune_drops_the_expired :
  match pruneSupersededChange [] later (Some current) with
  | Ok (Write b) => get_member "grants" b
  | _ => None
  end = Some (JArr [grant_of "u2" 30]).
Proof. vm_compute. reflexivity. Qed.

(** A directory with one entry, and a store over it that answers. *)
Definition store : ConnectionsStore nat := {|
  store_list := mret (Some [{| st_resourceId := connectionResourceId (ByDid did);
                               st_etag := Some "e1"; st_body := Some (JObj body);
                               st_readError := None |}]);
  store_get id := mret (Some (JObj body, Some "e1"));
  store_put _ := mret (Some "e2")
|}.
Definition local : WriterFirstSeenStore nat := {|
  fs_get := mret None;
  fs_put _ := mret ()
|}.

Definition item : ReadConnection := {|
  rc_resourceId := connectionResourceId (ByDid did); rc_etag := Some "e1"; rc_entry := entry;
  rc_body := JObj body |}.
Definition listing : ConnectionsListing :=
  {| l_entries := [item]; l_unreadable := []; l_unparseable := [] |}.

Lemma item_listed : listed item.
Proof. split; vm_compute; reflexivity. Qed.
End Demo.
Import Demo.

Lemma unreadable_never_fails_the_list_witness :
  ∃ stored w, store_list (pwsConnectionsStore {|
      coll_documents := λ w : nat, (Ok (Some [{| cd_id := "a"; cd_etag := None; cd_data := JNull |}]), w);
      coll_getWithEtag := λ _, mret None; coll_put := λ _ _ _ _, mret None |}
      (λ _ _, mthrow (JsError "DecryptError" ""))) 0 = (Ok (Some stored), w) ∧
    (st_resourceId <$> stored) = ["a"] ∧ (st_etag <$> stored) = [None] ∧
    ∀ item, item ∈ stored → is_Some (st_body item) ↔ st_readError item = None.
Proof.
  apply (unreadable_never_fails_the_list {|
      coll_documents := λ w : nat, (Ok (Some [{| cd_id := "a"; cd_etag := None; cd_data := JNull |}]), w);
      coll_getWithEtag := λ _, mret None; coll_put := λ _ _ _ _, mret None |}
      (λ _ _, mthrow (JsError "DecryptError" "")) 0
      [{| cd_id := "a"; cd_etag := None; cd_data := JNull |}] 0). reflexivity.
Defined.

Definition demo_policy : ConnectionWriterPolicy := connectionWriterPolicy (None, Some 1%Z, None).

Lemma sweep_keeps_the_newest_witness :
  ∃ swept, sweptWriters entry later demo_policy = Some swept ∧ sw_dropped swept = ["w1"] ∧
    sweptWriters (withWriters entry (sw_writers swept)) later demo_policy = None.
Proof.
  pose proof (sweep_keeps_the_newest body entry later demo_policy body_reads) as (_&_&_&_&_&H).
  destruct (sweptWriters entry later demo_policy) as [swept|] eqn:Hs.
  - exists swept. destruct H as (_&_&Hd&Hn). split; [reflexivity|]. split; [|exact Hn].
    rewrite Hd. vm_compute. reflexivity.
  - exfalso. vm_compute in Hs. discriminate.
Defined.


Lemma sweep_writes_are_sound_witness :
  leaves (sweepConnectionWriters (tracedConnections store) listing later (None, Some 1%Z, None)) (0, [])
    (λ _ calls, ∀ ev, ev ∈ calls → ∃ req answer item, ev = EvPut req answer ∧
       item ∈ l_entries listing ∧ sound_put (Some (rc_body item, rc_etag item)) req).
Proof.
  apply (sweep_writes_are_sound store listing later (None, Some 1%Z, None) (0, [])).
  - constructor; [exact item_listed|constructor].
  - vm_compute. discriminate.
Defined.


Definition demo_channels : list ConnectionReceivedGrant :=
  asReceived <$> e_grantsReceived entry.

Lemma live_inbox_outlives_witness :
  ∃ best, liveInboxChannel demo_channels 10 1000 = Some best ∧ best ∈ demo_channels.
Proof.
  pose proof (live_inbox_outlives demo_channels 10 1000) as H.
  destruct (liveInboxChannel demo_channels 10 1000) as [best|] eqn:Hb.
  - exists best. split; [reflexivity|]. apply H. repeat constructor. vm_compute. by eexists.
  - exfalso. vm_compute in Hb. discriminate.
Defined.

Lemma retirement_is_thorough_witness :
  ∃ b, retireConnectionChange ["u1"; "u2"; "u3"] (Some space) later (Some current) = Ok (Write b) ∧
    reads b (retired_entry later entry).
Proof.
  pose proof (retirement_is_thorough body entry (Some "e1") ["u1"; "u2"; "u3"] (Some space) later
    body_reads) as H.
  destruct (retireConnectionChange ["u1"; "u2"; "u3"] (Some space) later (Some current))
    as [[b|stop]|err] eqn:Hb.
  - exists b. split; [reflexivity|]. unfold current in Hb. cbv zeta in H. rewrite Hb in H.
    apply H. vm_compute. discriminate.
  - exfalso. vm_compute in Hb. discriminate.
  - exfalso. vm_compute in Hb. discriminate.
Defined.

Definition demo_received : RecordReceived := {|
  rr_did := did; rr_pairwiseDid := "did:key:me"; rr_spaceUrl := space; rr_grants := [];
  rr_channelMaxLifetimeMs := 1000; rr_now := 10 |}.

Lemma received_channels_never_regress_witness :
  recordReceivedChange demo_received [] (Some current) = Ok (Stop_ Unchanged).
Proof.
  pose proof (received_channels_never_regress body entry (Some "e1") demo_received [] body_reads) as H.
  destruct (recordReceivedChange demo_received [] (Some current)) as [[b|stop]|err] eqn:Hb.
  - exfalso. vm_compute in Hb. discriminate.
  - unfold current in Hb. rewrite Hb in H. do 2 f_equal. apply H.
    + vm_compute. discriminate.
    + reflexivity.
    + reflexivity.
    + apply (bool_decide_unpack _). vm_compute. reflexivity.
  - exfalso. vm_compute in Hb. discriminate.
Defined.
