(* ===== verification/CeremonyEvents.v ===== *)
(** * The ceremony event channel

    [src/src/ceremonyEvents.ts] over the [Logger] seam of [src/src/log.ts]
    and the error names of [src/src/errorName.ts]: an emitter per ceremony
    run, whose closure state is a cell of the world, and the mender event. A
    logger is an arbitrary transformer of the world, so it may throw and may
    call the emitter again. *)

From S2P Require Import Prelude Json JsText.
From Stdlib Require Import Ascii.

(** ** Thrown values *)

(** What a thrown value is when it is looked at: an [Error] and the reading
    of its [name], another object with a [name], [undefined], or anything
    else. A reading may itself throw. *)
Inductive Thrown :=
  | ThrownError (name : result string)
  | ThrownNamed (name : result string)
  | ThrownUndefined
  | ThrownOther.

Class ThrownShape := thrown_shape : js_error → Thrown.

(** The shape of the errors the program and its libraries throw. *)
Definition plain_shape : ThrownShape := λ err, ThrownError (Ok (err_name err)).

Definition errorNameOf {shape : ThrownShape} (err : js_error) : result string :=
  match thrown_shape err with
  | ThrownError name => name
  | ThrownNamed name => name
  | ThrownUndefined | ThrownOther => Ok "Error"
  end.

Definition safeErrorName {shape : ThrownShape} (err : js_error) : string :=
  match errorNameOf err with Ok name => name | Throw _ => "Error" end.

(** [err !== undefined], of an optional error argument. *)
Definition given_error {shape : ThrownShape} (err : option js_error) : option js_error :=
  match err with
  | Some e => match thrown_shape e with ThrownUndefined => None | _ => Some e end
  | None => None
  end.

(** ** The logger *)

Inductive Level := debug | info | warn | error.
#[export] Instance Level_eq_dec : EqDecision Level.
Proof. solve_decision. Defined.

(** What a [data] member of an event holds. *)
Inductive datum :=
  | DJson (j : json)
  | DErr (err : js_error).
#[export] Instance datum_eq_dec : EqDecision datum.
Proof. solve_decision. Defined.
Abbreviation DText s := (DJson (JStr s)).

(** A log call's [data]. *)
Abbreviation event_data := (gmap string datum).

Record Event := mkEvent {
  event_level : Level;
  event_msg : string;
  event_members : event_data
}.

Definition Logger (W : Type) : Type := Event → comp W ().

(** Emits one event, swallowing anything the logger throws. *)
Definition emit {W} (log : Logger W) (level : Level) (msg : string) (data : event_data) : comp W () :=
  try_catch (log (mkEvent level msg data)) (λ _, mret ()).

(** [stageNotifier]: a throwing notifier is swallowed with a warning through
    the package's own logger. *)
Definition stageNotifier {W} (log : Logger W) (onStage : option (string → comp W ())) (stage : string) : comp W () :=
  match onStage with
  | None => mret ()
  | Some notify =>
      try_catch (notify stage) (λ err, log (mkEvent warn "A stage notifier threw (ignored)"
        (<["stage" := DText stage]> {["err" := DErr err]})))
  end.

(** ** Detail *)

Definition RESERVED_KEYS : gset string :=
  list_to_set ["ceremony"; "run"; "stage"; "outcome"; "invariant"; "errorName"; "err"].

(** A value read from a detail object: a JSON value, or one no JSON value
    denotes (a function, a symbol, a bigint, [undefined]). *)
Inductive unknown :=
  | UJson (j : json)
  | UOther.

(** A detail argument at run time: not an object; an object whose key list
    throws, as a proxy's may; or its own enumerable keys, each with the
    reading of its value. *)
Inductive Detail :=
  | NoDetail
  | ThrowingKeys
  | DetailOf (reads : list (string * result unknown)).

Definition is_scalar (j : json) : bool :=
  match j with JStr _ | JNum _ | JBool _ => true | _ => false end.

(** [copied[key] = value]. Assigning a scalar to ["__proto__"] changes
    nothing. *)
Definition assign_key (key : string) (value : json) (copied : event_data) : event_data :=
  if decide (key = "__proto__") then copied else <[key := DJson value]> copied.

Definition copyKey (copied : event_data) (key : string) (value : result unknown) : event_data :=
  if decide (key ∈ RESERVED_KEYS) then copied
  else match value with
       | Ok (UJson j) => if is_scalar j then assign_key key j copied else copied
       | _ => copied
       end.

Definition scalarDetail (detail : Detail) : event_data :=
  match detail with
  | NoDetail | ThrowingKeys => ∅
  | DetailOf reads => foldl (λ copied kv, copyKey copied kv.1 kv.2) ∅ reads
  end.

(** [{ ...members, ...scalarDetail(detail) }]: a detail key would win. *)
Definition with_detail (data : event_data) (detail : Detail) : event_data :=
  scalarDetail detail ∪ data.

Lemma copyKey_reserved copied key value k :
  k ∈ RESERVED_KEYS → copyKey copied key value !! k = copied !! k.
Proof.
  intros Hk. unfold copyKey. case_decide; [done|].
  assert (key ≠ k) by (by intros ->).
  destruct value as [[j|]|]; [|done..]. destruct (is_scalar j); [|done].
  unfold assign_key. case_decide; [done|]. by rewrite lookup_insert_ne.
Qed.

(** No detail sets a member the helpers own. *)
Lemma scalarDetail_reserved detail k : k ∈ RESERVED_KEYS → scalarDetail detail !! k = None.
Proof.
  intros Hk. destruct detail as [| |reads]; [done..|]. unfold scalarDetail.
  change (None (A:=datum)) with ((∅ : event_data) !! k). generalize (∅ : event_data).
  induction reads as [|[key value] reads IH]; intros copied; [done|]. cbn [foldl fst snd].
  by rewrite IH, copyKey_reserved.
Qed.

Lemma with_detail_reserved data detail k :
  k ∈ RESERVED_KEYS → with_detail data detail !! k = data !! k.
Proof. intros Hk. unfold with_detail. by rewrite lookup_union_r by by apply scalarDetail_reserved. Qed.

(** Every copied member is a scalar of the detail. *)
Lemma scalarDetail_scalar detail k v :
  scalarDetail detail !! k = Some v → ∃ j, v = DJson j ∧ is_scalar j = true.
Proof.
  destruct detail as [| |reads]; [done..|]. unfold scalarDetail.
  assert (∀ copied : event_data,
    (∀ k v, copied !! k = Some v → ∃ j, v = DJson j ∧ is_scalar j = true) →
    foldl (λ copied kv, copyKey copied kv.1 kv.2) copied reads !! k = Some v →
    ∃ j, v = DJson j ∧ is_scalar j = true) as H; [|by apply (H ∅)].
  induction reads as [|[key value] reads IH]; intros copied Hc; cbn [foldl fst snd]; [apply Hc|].
  apply IH. clear k v IH. intros k v. unfold copyKey.
  case_decide; [apply Hc|]. destruct value as [[j|]|]; [|apply Hc..].
  destruct (is_scalar j) eqn:Hj; [|apply Hc].
  unfold assign_key. case_decide; [apply Hc|].
  rewrite lookup_insert_Some. intros [[_ <-]|[_ ?]]; eauto.
Qed.

(** ** Identifiers a server chose *)

Definition servedIdentifier (value : string) : string :=
  let stripped := stripped_points value in
  if decide (length stripped ≤ ONBOARDING_LABEL_MAX_LENGTH) then of_code_points stripped
  else (of_code_points (take ONBOARDING_LABEL_MAX_LENGTH stripped) ++ "...")%string.

(** [Math.random().toString(36).slice(2, 10).padEnd(8, '0')], of the base-36
    numeral the platform drew. *)
Fixpoint padEnd (width : nat) (s : string) : string :=
  match width, s with
  | 0, _ => s
  | S width, EmptyString => String "0"%char (padEnd width EmptyString)
  | S width, String a s => String a (padEnd width s)
  end.
Definition mintRunId (drawn : string) : string := padEnd 8 (String.substring 2 8 drawn).

(** ** The outcome levels *)

(** [MendOutcomeKind] of [src/src/menders/vocabulary.ts], which is also the
    ceremony outcome. *)
Inductive MendOutcomeKind := clean | noop | partial | refused | failed.
#[export] Instance MendOutcomeKind_eq_dec : EqDecision MendOutcomeKind.
Proof. solve_decision. Defined.

Definition outcome_text (kind : MendOutcomeKind) : string :=
  match kind with
  | clean => "clean" | noop => "noop" | partial => "partial"
  | refused => "refused" | failed => "failed"
  end.

#[export] Instance outcome_text_inj : Inj (=) (=) outcome_text.
Proof. by intros [] []. Qed.

(** Total on the outcomes, so [menderEvent]'s [?? 'error'] is never taken. *)
Definition OUTCOME_LEVELS (kind : MendOutcomeKind) : Level :=
  match kind with
  | clean => info | noop => debug | partial => warn | refused => warn | failed => error
  end.

(** ** One run's emitter *)

Record EmitterState := mkEmitter {
  emittedStages : gset string;
  outcomeEmitted : bool
}.

(** What [ceremonyEvents] starts its closure with. *)
Definition fresh_emitter : EmitterState := mkEmitter ∅ false.

(** The arguments of [ceremonyEvents], with the run id it minted. *)
Record CeremonyRun := mkRun {
  ceremony : string;
  runId : string;
  refusals : list string;
  pending : list string
}.

Section emitter.
Context {W : Type} {cell : Cell W EmitterState} {shape : ThrownShape}.
Variables (log : Logger W) (r : CeremonyRun).

Definition run_data (key value : string) (detail : Detail) : event_data :=
  with_detail (<["ceremony" := DText (ceremony r)]> (<["run" := DText (runId r)]> {[key := DText value]}))
    detail.

Definition stage (name : string) (detail : Detail) : comp W () :=
  st ← gets get_cell;
  if decide (name ∈ emittedStages st) then mret ()
  else
    modify (set_cell (mkEmitter ({[name]} ∪ emittedStages st) (outcomeEmitted st)));;
    emit log debug "ceremony stage" (run_data "stage" name detail).

(** [data.errorName] and [data.err], when an error is given. *)
Definition error_members (err : option js_error) (data : event_data) : event_data :=
  match given_error err with
  | Some e => <["err" := DErr e]> (<["errorName" := DText (safeErrorName e)]> data)
  | None => data
  end.

Definition outcome (kind : MendOutcomeKind) (detail : Detail) (err : option js_error) : comp W () :=
  st ← gets get_cell;
  if outcomeEmitted st then mret ()
  else
    modify (set_cell (mkEmitter (emittedStages st) true));;
    emit log (OUTCOME_LEVELS kind) "ceremony outcome"
      (error_members err (run_data "outcome" (outcome_text kind) detail)).

(** How [run] names a throw. *)
Definition thrown_outcome (e : js_error) : MendOutcomeKind :=
  let name := safeErrorName e in
  if decide (name ∈ pending r) then noop
  else if decide (name ∈ refusals r) then refused else failed.

(** The outcome of a call as a value, for the code after its [try]. *)
Definition attempt {A} (c : comp W A) : comp W (result A) :=
  λ w, let '(x, w') := c w in (Ok x, w').

Definition run {T} (fn : comp W T) (classify : T → comp W (MendOutcomeKind * Detail)) : comp W T :=
  x ← attempt fn;
  match x with
  | Throw e => outcome (thrown_outcome e) NoDetail (Some e);; mthrow e
  | Ok value =>
      try_catch ('(kind, detail) ← classify value; outcome kind detail None) (λ _, mret ());;
      mret value
  end.

(** [classify] when the caller passes none. *)
Definition always_clean {T} (_ : T) : comp W (MendOutcomeKind * Detail) := mret (clean, NoDetail).

(** A log line never fails a ceremony. *)
Lemma emit_returns level msg data w : (emit log level msg data w).1 = Ok ().
Proof. unfold emit, try_catch. by destruct (log _ w) as [[[]|e] w']. Qed.

Lemma outcome_returns kind detail err w : (outcome kind detail err w).1 = Ok ().
Proof.
  unfold outcome, gets, modify, mbind, comp_bind. destruct (outcomeEmitted _); [done|].
  apply emit_returns.
Qed.
End emitter.

(** ** The mender event *)

(** The members of a report entry the event carries: the runner's whole entry
    is in [Menders]. *)
Record MendReportEntry := mkEntry {
  entry_invariant : string;
  entry_outcome : MendOutcomeKind;
  entry_detail : Detail;
  entry_errorName : option string;
  entry_ceremonies : option (list string)
}.

Definition text_member (key : string) (value : option string) (data : event_data) : event_data :=
  match value with Some s => <[key := DText s]> data | None => data end.

(** The event one entry makes. *)
Definition mender_data {shape : ThrownShape} (entry : MendReportEntry) (ceremony run : option string)
    (err : option js_error) : event_data :=
  let data := with_detail (<["invariant" := DText (entry_invariant entry)]>
    {["outcome" := DText (outcome_text (entry_outcome entry))]}) (entry_detail entry) in
  let data := text_member "run" run
    (text_member "ceremony" ceremony (text_member "errorName" (entry_errorName entry) data)) in
  match given_error err with Some e => <["err" := DErr e]> data | None => data end.

Definition menderEvent {W} {shape : ThrownShape} (log : Logger W) (entry : MendReportEntry)
    (ceremony run : option string) (err : option js_error) : comp W () :=
  try_catch
    (emit log (OUTCOME_LEVELS (entry_outcome entry)) "ceremony mender"
      (mender_data entry ceremony run err))
    (λ _, mret ()).

(** ** What a run leaves in the diagnostics *)

(** A world that keeps the events logged, beside the emitter's state and
    everything else. *)
Record EventWorld (V : Type) := mkEventWorld {
  emitter_state : EmitterState;
  logged : list Event;
  elsewhere : V
}.
Arguments mkEventWorld {V}.
Arguments emitter_state {V}.
Arguments logged {V}.
Arguments elsewhere {V}.

#[export] Instance event_world_cell V : Cell (EventWorld V) EmitterState := {|
  get_cell := emitter_state;
  set_cell st w := mkEventWorld st (logged w) (elsewhere w)
|}.

(** A logger that records the event and then does whatever it does. *)
Definition recorded {V} (react : Event → comp (EventWorld V) ()) : Logger (EventWorld V) :=
  λ ev, modify (λ w, mkEventWorld (emitter_state w) (logged w ++ [ev]) (elsewhere w));; react ev.

Section orderly.
Context {V : Type} {shape : ThrownShape}.
Variables (react : Event → comp (EventWorld V) ()) (r : CeremonyRun).
Local Notation log := (recorded react).

(** The events of this run, by message. *)
Definition of_run (msg : string) (evs : list Event) : list Event :=
  filter (λ ev, event_members ev !! "run" = Some (DText (runId r)) ∧ event_msg ev = msg) evs.

Definition stage_name (ev : Event) : option string :=
  match event_members ev !! "stage" with Some (DText name) => Some name | _ => None end.

Definition stages_of (evs : list Event) : list string := omap stage_name (of_run "ceremony stage" evs).
Definition outcomes_of (evs : list Event) : list Event := of_run "ceremony outcome" evs.

(** The closure's state is what the diagnostics show. *)
Definition tidy (w : EventWorld V) : Prop :=
  NoDup (stages_of (logged w)) ∧
  list_to_set (stages_of (logged w)) = emittedStages (emitter_state w) ∧
  length (outcomes_of (logged w)) = if outcomeEmitted (emitter_state w) then 1 else 0.

(** A computation that keeps the diagnostics in step and unsays nothing. *)
Definition orderly {A} (c : comp (EventWorld V) A) : Prop :=
  ∀ w, tidy w → tidy (c w).2 ∧ logged w `prefix_of` logged (c w).2.

Lemma of_run_app msg evs evs' : of_run msg (evs ++ evs') = of_run msg evs ++ of_run msg evs'.
Proof. apply filter_app. Qed.

Lemma orderly_ret {A} (a : A) : orderly (mret a).
Proof. by intros w Hw. Qed.

Lemma orderly_bind {A B} (c : comp (EventWorld V) A) (k : A → comp (EventWorld V) B) :
  orderly c → (∀ a, orderly (k a)) → orderly (c ≫= k).
Proof.
  intros Hc Hk w Hw. unfold mbind, comp_bind. specialize (Hc w Hw).
  destruct (c w) as [[a|e] w']; [|done]. cbn in Hc. destruct Hc as [Hw' Hp].
  destruct (Hk a w' Hw') as [? Hp']. split; [done|by etrans].
Qed.

Lemma orderly_attempt {A} (c : comp (EventWorld V) A) : orderly c → orderly (attempt c).
Proof. intros Hc w Hw. specialize (Hc w Hw). unfold attempt. by destruct (c w). Qed.

Lemma orderly_try {A} (c : comp (EventWorld V) A) h :
  orderly c → (∀ e, orderly (h e)) → orderly (try_catch c h).
Proof.
  intros Hc Hh w Hw. unfold try_catch. specialize (Hc w Hw).
  destruct (c w) as [[a|e] w']; [done|]. cbn in Hc. destruct Hc as [Hw' Hp].
  destruct (Hh e w' Hw') as [? Hp']. split; [done|by etrans].
Qed.

Lemma orderly_throw {A} (e : js_error) : orderly (A:=A) (mthrow e).
Proof. by intros w Hw. Qed.

(** Setting the closure's state and logging the event that goes with it. *)
Lemma orderly_emit st level msg data w :
  (∀ ev, orderly (react ev)) →
  tidy (mkEventWorld st (logged w ++ [mkEvent level msg data]) (elsewhere w)) →
  let w' := ((modify (set_cell st);; emit log level msg data) w).2 in
  tidy w' ∧ logged w ++ [mkEvent level msg data] `prefix_of` logged w'.
Proof.
  intros Hreact Ht. destruct (Hreact (mkEvent level msg data) _ Ht) as [Ht' Hp].
  cbn in Hp. unfold emit, try_catch, recorded, modify, mbind, comp_bind. cbn.
  by destruct (react _ _) as [[]].
Qed.

Lemma run_member key value detail : key ∈ ["stage"; "outcome"] →
  run_data r key value detail !! "run" = Some (DText (runId r)) ∧
  run_data r key value detail !! key = Some (DText value).
Proof.
  intros Hk. unfold run_data.
  assert (key ∈ RESERVED_KEYS) by (apply elem_of_list_to_set; set_solver).
  assert ("ceremony" ≠ key ∧ "run" ≠ key) as [] by set_solver.
  rewrite !with_detail_reserved by (done || by apply elem_of_list_to_set; set_solver).
  split; [by rewrite lookup_insert_ne, lookup_insert_eq|].
  by rewrite !lookup_insert_ne, lookup_singleton_eq.
Qed.

Lemma error_member err data k : k ≠ "err" → k ≠ "errorName" →
  error_members err data !! k = data !! k.
Proof. intros. unfold error_members. case_match; [|done]. by rewrite !lookup_insert_ne. Qed.

Lemma orderly_stage name detail : (∀ ev, orderly (react ev)) → orderly (stage log r name detail).
Proof.
  intros Hreact w Hw. destruct (run_member "stage" name detail) as [Hrun Hstage]; [set_solver|].
  unfold stage, gets. rewrite (comp_bind_ok _ _ w (emitter_state w) w) by done.
  case_decide as Hin; [done|]. destruct Hw as (Hnd & Hset & Hout).
  assert (stages_of (logged w ++ [mkEvent debug "ceremony stage" (run_data r "stage" name detail)])
    = stages_of (logged w) ++ [name]) as Happ.
  { unfold stages_of. rewrite of_run_app, omap_app. f_equal. unfold of_run.
    rewrite filter_cons, decide_True by done. cbn. unfold stage_name. cbn. by rewrite Hstage. }
  eapply orderly_emit in Hreact as [Ht Hp]; [split; [exact Ht|by eapply prefix_app_l]|].
  split; [|split]; cbn [logged emitter_state emittedStages outcomeEmitted].
  - rewrite Happ. apply NoDup_app. split; [done|]. split; [|apply NoDup_singleton].
    intros x Hx ->%list_elem_of_singleton. apply Hin. rewrite <- Hset. by apply elem_of_list_to_set.
  - rewrite Happ, list_to_set_app_L, Hset. set_solver.
  - unfold outcomes_of. rewrite of_run_app, length_app. unfold outcomes_of in Hout. rewrite Hout.
    unfold of_run at 1. rewrite filter_cons, decide_False by (by intros [_ [=]]). cbn. lia.
Qed.

(** The event an outcome call makes. *)
Definition outcome_event (kind : MendOutcomeKind) (detail : Detail) (err : option js_error) : Event :=
  mkEvent (OUTCOME_LEVELS kind) "ceremony outcome"
    (error_members err (run_data r "outcome" (outcome_text kind) detail)).

Lemma outcome_run_member kind detail err :
  event_members (outcome_event kind detail err) !! "run" = Some (DText (runId r)).
Proof.
  destruct (run_member "outcome" (outcome_text kind) detail) as [Hrun _]; [set_solver|].
  cbn. by rewrite error_member.
Qed.

Lemma outcome_logs kind detail err w :
  (∀ ev, orderly (react ev)) → tidy w →
  let w' := (outcome log r kind detail err w).2 in
  tidy w' ∧ logged w `prefix_of` logged w' ∧
  (outcomeEmitted (emitter_state w) = false →
   logged w ++ [outcome_event kind detail err] `prefix_of` logged w').
Proof.
  intros Hreact Hw. pose proof (outcome_run_member kind detail err) as Hrun.
  unfold outcome, gets. rewrite (comp_bind_ok _ _ w (emitter_state w) w) by done.
  destruct (outcomeEmitted (emitter_state w)) eqn:Hem; [done|].
  destruct Hw as (Hnd & Hset & Hout). rewrite Hem in Hout.
  eapply orderly_emit in Hreact as [Ht Hp].
  { split; [exact Ht|]. split; [by eapply prefix_app_l|]. intros _. exact Hp. }
  assert (stages_of (logged w ++ [outcome_event kind detail err]) = stages_of (logged w)) as Hst.
  { unfold stages_of. rewrite of_run_app, omap_app. unfold of_run at 2.
    rewrite filter_cons, decide_False by (by intros [_ [=]]). cbn. by rewrite app_nil_r. }
  split; [|split]; cbn [logged emitter_state emittedStages outcomeEmitted].
  1,2: by fold (outcome_event kind detail err); rewrite Hst.
  unfold outcomes_of in *. rewrite of_run_app, length_app, Hout. unfold of_run.
  by rewrite filter_cons, decide_True.
Qed.

Lemma orderly_outcome kind detail err : (∀ ev, orderly (react ev)) → orderly (outcome log r kind detail err).
Proof. intros Hreact w Hw. destruct (outcome_logs kind detail err w) as (? & ? & ?); auto. Qed.

#[local] Hint Resolve orderly_ret orderly_bind orderly_attempt orderly_try orderly_throw
  orderly_outcome orderly_stage : orderly.

Lemma orderly_run {T} (fn : comp _ T) classify :
  (∀ ev, orderly (react ev)) → orderly fn → (∀ v, orderly (classify v)) →
  orderly (run log r fn classify).
Proof.
  intros Hreact Hfn Hcl. unfold run. apply orderly_bind; [auto with orderly|].
  intros [v|e]; apply orderly_bind; auto with orderly.
  apply orderly_try; [|auto with orderly]. apply orderly_bind; [done|]. intros [kind detail].
  auto with orderly.
Qed.

(** The run ended with exactly this outcome event. *)
Definition concluded (ev : Event) (w : EventWorld V) : Prop := outcomes_of (logged w) = [ev].

Lemma outcome_concludes kind detail err w :
  (∀ ev, orderly (react ev)) → tidy w → outcomeEmitted (emitter_state w) = false →
  concluded (outcome_event kind detail err) (outcome log r kind detail err w).2.
Proof.
  intros Hreact Hw Hem. destruct (outcome_logs kind detail err w) as (Hw' & _ & Hp); [done..|].
  destruct (Hp Hem) as [rest Hrest]. pose proof (outcome_run_member kind detail err) as Hrun.
  destruct Hw' as (_ & _ & Hlen). destruct Hw as (_ & _ & Hlen0). rewrite Hem in Hlen0.
  unfold concluded. revert Hlen. rewrite Hrest. unfold outcomes_of in *.
  rewrite !of_run_app. apply nil_length_inv in Hlen0 as ->.
  assert (of_run "ceremony outcome" [outcome_event kind detail err] = [outcome_event kind detail err]) as ->.
  { unfold of_run. by rewrite filter_cons, decide_True. }
  rewrite app_nil_l, length_app. intros Hlen.
  destruct (of_run "ceremony outcome" rest); [done|].
  rewrite !length_cons in Hlen. case_match; lia.
Qed.
End orderly.


