(* ===== verification/Menders.v ===== *)
(** * The mender registry and its runner

    [src/src/menders/]: the closed vocabularies, the invariant census, the
    declarations and registration sites, the registry built over them, and
    the runner that executes one chain's registrations under its warn-and-skip
    discipline. A converger, a logger and an outcome callback are arbitrary
    transformers of the world. *)

From S2P Require Import Prelude Json JsText CeremonyEvents.

(** ** Vocabulary *)

(** [AUTHORITIES]; the constructor of the authority [none] is [no_authority]. *)
Inductive Authority := no_authority | account | enrolled | ladder.
Inductive Trigger :=
  | remembered_login_chain | transient_login_chain | login_routing | ceremony_tail | encounter.
Inductive AccountShape := ladder_anchored | enrolled_shape.
Inductive GapKind := gap_none | gap_unreachable.
Inductive SessionKind := remembered | transient.

#[export] Instance Authority_eq_dec : EqDecision Authority.
Proof. solve_decision. Defined.
#[export] Instance Trigger_eq_dec : EqDecision Trigger.
Proof. solve_decision. Defined.
#[export] Instance AccountShape_eq_dec : EqDecision AccountShape.
Proof. solve_decision. Defined.
#[export] Instance GapKind_eq_dec : EqDecision GapKind.
Proof. solve_decision. Defined.
#[export] Instance SessionKind_eq_dec : EqDecision SessionKind.
Proof. solve_decision. Defined.

Definition AUTHORITIES : list Authority := [no_authority; account; enrolled; ladder].
Definition TRIGGERS : list Trigger :=
  [remembered_login_chain; transient_login_chain; login_routing; ceremony_tail; encounter].
Definition CHAIN_TRIGGERS : list Trigger := [remembered_login_chain; transient_login_chain].
Definition ACCOUNT_SHAPES : list AccountShape := [ladder_anchored; enrolled_shape].
Definition MEND_OUTCOMES : list MendOutcomeKind := [clean; noop; partial; refused; failed].
Definition GAP_KINDS : list GapKind := [gap_none; gap_unreachable].

Definition trigger_text (t : Trigger) : string :=
  match t with
  | remembered_login_chain => "remembered-login-chain"
  | transient_login_chain => "transient-login-chain"
  | login_routing => "login-routing"
  | ceremony_tail => "ceremony-tail"
  | encounter => "encounter"
  end.

(** An [InvariantId] is one string of the census. *)
Definition INVARIANT_IDS : list string := [
  "roster-wraps-exactly-the-document-key-set";
  "governed-log-heads-anchor-past-the-membership-change";
  "collection-epochs-name-the-current-user-key";
  "unlock-registry-opens-under-the-current-user-key";
  "registry-passphrase-entry-names-the-standing-credential";
  "passkey-entry-carries-its-standing-configuration";
  "registry-lists-the-passphrase-method";
  "standing-delegations-verify-under-the-current-document";
  "registry-records-the-committed-ladder-rung";
  "unlock-record-points-at-the-account-did";
  "account-pointer-names-the-account-did";
  "space-controller-is-the-account-did";
  "roster-and-collection-epochs-exist";
  "registry-records-the-establishing-credential";
  "annex-generation-is-reachable";
  "generation-delegation-is-current";
  "acting-credential-manage-zcap-is-current";
  "did-web-projection-matches-the-log";
  "no-annex-generation-outlives-its-pointer";
  "client-key-record-matches-the-pointed-account";
  "this-browser-is-still-an-enrolled-client";
  "no-client-key-record-stays-pending";
  "recovery-spend-is-completed";
  "retired-credential-leaves-no-annex-inventory";
  "document-lists-the-acting-credential";
  "keystore-controller-is-the-account-did";
  "account-document-publishes-an-authentication-key";
  "every-document-key-agreement-entry-has-a-locatable-credential";
  "no-unlock-space-outlives-its-credential";
  "no-keystore-outlives-its-account";
  "saved-recovery-codes-locate-their-account";
  "standard-collections-are-provisioned";
  "no-auxiliary-space-stands-unnamed";
  "no-registered-writer-outlives-its-expiry";
  "every-grantee-of-the-wallet-has-a-connection-entry";
  "roster-log-head-anchors-past-the-membership-change";
  "inbox-is-drained";
  "agent-grants-are-current";
  "no-withdrawn-party-holds-a-live-pairwise-channel";
  "pointed-annex-names-every-replica-server";
  "replica-pull-grants-are-current";
  "replica-space-controller-is-the-account-did"
].

(** ** Declarations and sites *)

Record LoginRoute := mkRoute { popup : bool }.

(** The members of a declaration the code reads. [holdsWhen] is never called
    here; only its presence is read. [when] is a predicate of the route. *)
Record InvariantDeclaration := mkDeclaration {
  decl_id : string;
  standsOn : list AccountShape;
  authority : Authority;
  triggers : list Trigger;
  ceremonies : list string;
  decl_warn : string;
  when : option (LoginRoute → bool);
  holdsWhen : bool
}.

(** A registration site, which is a [Registration] when it carries a
    converger. A site is an object, and the runner compares the seed by
    identity: [ref] is that identity. *)
Record RegistrationSite (Deps W : Type) := mkSite {
  ref : nat;
  trigger : Trigger;
  reports : list string;
  guardedBy : option string;
  reachedBy : option (list SessionKind);
  converge : option (Deps → comp W (list MendReportEntry))
}.
Arguments mkSite {Deps W}.
Arguments ref {Deps W}.
Arguments trigger {Deps W}.
Arguments reports {Deps W}.
Arguments guardedBy {Deps W}.
Arguments reachedBy {Deps W}.
Arguments converge {Deps W}.

Definition type_error (msg : string) : js_error := JsError "TypeError" msg.

(** The two authorities an account-ceremony context resolves to. *)
Inductive ResolvedAuthority := resolved_enrolled | resolved_ladder.
Definition resolved (kind : ResolvedAuthority) : Authority :=
  match kind with resolved_enrolled => enrolled | resolved_ladder => ladder end.

Definition heldAuthorities (kind : option ResolvedAuthority) : list Authority :=
  match kind with
  | Some kind => [no_authority; account; resolved kind]
  | None => [no_authority]
  end.

(** ** The registry *)

Section registry.
Context {Deps W : Type}.
Local Notation Site := (RegistrationSite Deps W).

Abbreviation Index := (gmap string InvariantDeclaration).

(** The readers close over the table, the sites and the index. *)
Record MenderRegistry := mkRegistry {
  all : list InvariantDeclaration;
  index : Index;
  sites : list Site
}.

Definition byId (registry : MenderRegistry) (id : string) : option InvariantDeclaration :=
  index registry !! id.

Fixpoint buildIndex (declarations : list InvariantDeclaration) (idx : Index) : result Index :=
  match declarations with
  | [] => Ok idx
  | decl :: declarations =>
      match idx !! decl_id decl with
      | Some _ => mthrow (type_error ("An invariant is declared twice: " ++ decl_id decl))
      | None => buildIndex declarations (<[decl_id decl := decl]> idx)
      end
  end.

Definition requireDeclared (idx : Index) (id : string) : result InvariantDeclaration :=
  match idx !! id with
  | Some decl => Ok decl
  | None => mthrow (type_error ("A registration reports an undeclared invariant: " ++ id))
  end.

Fixpoint requireAll (idx : Index) (ids : list string) : result () :=
  match ids with
  | [] => Ok ()
  | id :: ids => _ ← requireDeclared idx id; requireAll idx ids
  end.

(** [backedBy]: the ids the sites of the two reach triggers report. *)
Record Backed := mkBacked { by_encounter : gset string; by_tail : gset string }.
Definition backing (t : Trigger) (backed : Backed) : gset string :=
  match t with encounter => by_encounter backed | ceremony_tail => by_tail backed | _ => ∅ end.
Definition back (t : Trigger) (ids : list string) (backed : Backed) : Backed :=
  match t with
  | encounter => mkBacked (by_encounter backed ∪ list_to_set ids) (by_tail backed)
  | ceremony_tail => mkBacked (by_encounter backed) (by_tail backed ∪ list_to_set ids)
  | _ => backed
  end.

(** [trigger === 'encounter' || trigger === 'ceremony-tail']. *)
Definition is_reach (t : Trigger) : bool :=
  match t with encounter | ceremony_tail => true | _ => false end.

Definition checkSite (idx : Index) (backed : Backed) (site : Site) : result Backed :=
  _ ← requireAll idx (reports site);
  if bool_decide (guardedBy site ≠ None ∧ trigger site ≠ login_routing) then
    mthrow (type_error ("A " ++ trigger_text (trigger site) ++
      " site carries a guard; only a login-routing site may"))
  else if is_reach (trigger site) then
    match reachedBy site with
    | None | Some [] => mthrow (type_error ("A " ++ trigger_text (trigger site) ++
        " site names no session kind that reaches it: " ++ String.concat ", " (reports site)))
    | Some _ => Ok (back (trigger site) (reports site) backed)
    end
  else Ok backed.

Fixpoint checkSites (idx : Index) (backed : Backed) (ss : list Site) : result Backed :=
  match ss with
  | [] => Ok backed
  | site :: ss => backed ← checkSite idx backed site; checkSites idx backed ss
  end.

(** One declaration's triggers, in [reachTriggers] order. *)
Definition checkBacked (backed : Backed) (decl : InvariantDeclaration) (t : Trigger) : result () :=
  if bool_decide (t ∈ triggers decl ∧ decl_id decl ∉ backing t backed) then
    mthrow (type_error ("An invariant lists the " ++ trigger_text t ++ " trigger but no " ++
      trigger_text t ++ " site reports it: " ++ decl_id decl))
  else Ok ().

Fixpoint checkDeclarations (backed : Backed) (declarations : list InvariantDeclaration) : result () :=
  match declarations with
  | [] => Ok ()
  | decl :: declarations =>
      _ ← checkBacked backed decl encounter;
      _ ← checkBacked backed decl ceremony_tail;
      checkDeclarations backed declarations
  end.

Definition menderRegistry (declarations : list InvariantDeclaration) (ss : list Site) : result MenderRegistry :=
  idx ← buildIndex declarations ∅;
  backed ← checkSites idx (mkBacked ∅ ∅) ss;
  _ ← checkDeclarations backed declarations;
  Ok (mkRegistry declarations idx ss).

(** Whether one declaration admits the session and the route. *)
Definition admitsDeclaration (held : list Authority) (route : option LoginRoute)
    (decl : InvariantDeclaration) : bool :=
  bool_decide (authority decl ∈ held) &&
  match route, when decl with
  | Some route, Some when => when route
  | _, _ => true
  end.

(** [every] over the reports, stopping at the first that is not admitted. *)
Fixpoint admitsAll (registry : MenderRegistry) (held : list Authority) (route : option LoginRoute)
    (ids : list string) : result bool :=
  match ids with
  | [] => Ok true
  | id :: ids =>
      decl ← requireDeclared (index registry) id;
      if admitsDeclaration held route decl then admitsAll registry held route ids else Ok false
  end.

Definition admits (registry : MenderRegistry) (site : Site) (held : list Authority)
    (route : option LoginRoute) : result bool :=
  admitsAll registry held route (reports site).

(** [filter] with a predicate that may throw. *)
Fixpoint filter_result {A} (p : A → result bool) (xs : list A) : result (list A) :=
  match xs with
  | [] => Ok []
  | x :: xs => b ← p x; ys ← filter_result p xs; Ok (if b : bool then x :: ys else ys)
  end.

Definition dueAt (registry : MenderRegistry) (held : list Authority) (t : Trigger)
    (route : option LoginRoute) : result (list Site) :=
  filter_result
    (λ site, if decide (trigger site = t) then admits registry site held route else Ok false)
    (sites registry).
End registry.
Arguments MenderRegistry : clear implicits.

(** ** What a constructed registry is *)

Section registry_laws.
Context {Deps W : Type}.
Local Notation Site := (RegistrationSite Deps W).
Implicit Types (decl : InvariantDeclaration) (site : Site) (registry : MenderRegistry Deps W).

(** The session holds every authority a site's invariants declare, and the
    route admits each. *)
Definition admissible (held : list Authority) (route : option LoginRoute) (decl : InvariantDeclaration) : Prop :=
  authority decl ∈ held ∧ ∀ here pred, route = Some here → when decl = Some pred → pred here = true.

Definition authorized registry held route site : Prop :=
  ∀ id, id ∈ reports site → ∃ decl, decl ∈ all registry ∧ decl_id decl = id ∧ admissible held route decl.

(** What the readers may rely on: the index is the table's, every reported
    invariant is declared, and a reach site names its reach. *)
Record well_formed registry : Prop := {
  wf_unique : NoDup (decl_id <$> all registry);
  wf_index : ∀ id decl, byId registry id = Some decl ↔ decl ∈ all registry ∧ decl_id decl = id;
  wf_declared : ∀ site id, site ∈ sites registry → id ∈ reports site → is_Some (byId registry id);
  wf_guard : ∀ site, site ∈ sites registry → guardedBy site ≠ None → trigger site = login_routing;
  wf_reach : ∀ site, site ∈ sites registry → is_reach (trigger site) = true →
    ∃ kind kinds, reachedBy site = Some (kind :: kinds);
  wf_backed : ∀ decl t, decl ∈ all registry → is_reach t = true → t ∈ triggers decl →
    ∃ site, site ∈ sites registry ∧ trigger site = t ∧ decl_id decl ∈ reports site
}.

Lemma buildIndex_ok declarations idx idx' :
  buildIndex declarations idx = Ok idx' ↔
  NoDup (decl_id <$> declarations) ∧ (∀ decl, decl ∈ declarations → idx !! decl_id decl = None) ∧
  idx' = foldl (λ m decl, <[decl_id decl := decl]> m) idx declarations.
Proof.
  revert idx. induction declarations as [|decl declarations IH]; intros idx; cbn.
  { split; [|by intros (_ & _ & ->)]. intros [= ->]. repeat split; [constructor|set_solver]. }
  rewrite NoDup_cons. destruct (idx !! decl_id decl) as [d|] eqn:Hd.
  - split; [done|]. intros (_ & Hn & _). by rewrite (Hn decl) in Hd by set_solver.
  - rewrite IH. setoid_rewrite lookup_insert_None. setoid_rewrite elem_of_cons.
    setoid_rewrite list_elem_of_fmap. split.
    + intros (Hnd & Hn & ->). split; [split; [|done]|split; [|done]].
      * intros (y & Heq & Hy). by destruct (Hn y Hy).
      * intros d [->|Hy]; [done|]. by destruct (Hn d Hy).
    + intros ([Hni Hnd] & Hn & ->). split; [done|]. split; [|done].
      intros d Hy. split; [auto|]. intros Heq. apply Hni. eauto.
Qed.

Lemma index_lookup declarations (idx : gmap string InvariantDeclaration) id decl :
  NoDup (decl_id <$> declarations) → (∀ decl, decl ∈ declarations → idx !! decl_id decl = None) →
  foldl (λ m decl, <[decl_id decl := decl]> m) idx declarations !! id = Some decl ↔
  (decl ∈ declarations ∧ decl_id decl = id) ∨ idx !! id = Some decl.
Proof.
  revert idx. induction declarations as [|d declarations IH]; intros idx Hnd Hn; cbn; [set_solver|].
  apply NoDup_cons in Hnd as [Hni Hnd]. rewrite IH; [|done|].
  - rewrite lookup_insert_Some, elem_of_cons.
    specialize (Hn d ltac:(set_solver)). split.
    + intros [[? ?]|[[<- <-]|[? ?]]]; auto.
    + intros [[[->|Hd] <-]|Hi]; [auto|auto|]. right. right. split; [|done]. intros Heq. congruence.
  - intros d' Hd'. apply lookup_insert_None. split; [apply Hn; set_solver|].
    intros Heq. apply Hni. rewrite Heq. by apply list_elem_of_fmap_2.
Qed.

Lemma requireAll_ok (idx : gmap string InvariantDeclaration) ids :
  requireAll idx ids = Ok () ↔ ∀ id, id ∈ ids → is_Some (idx !! id).
Proof.
  induction ids as [|id ids IH]; cbn; [set_solver|].
  rewrite result_bind_ok. unfold requireDeclared. setoid_rewrite elem_of_cons.
  destruct (idx !! id) as [d|] eqn:Hd.
  - split.
    + intros (? & _ & H). pose proof (proj1 IH H). naive_solver.
    + intros H. exists d. split; [done|apply IH]. naive_solver.
  - split; [by intros (? & [=] & _)|]. intros H. destruct (H id) as [? ?]; [auto|congruence].
Qed.

(** What one site's checks ask. *)
Definition site_ok (idx : gmap string InvariantDeclaration) site : Prop :=
  (∀ id, id ∈ reports site → is_Some (idx !! id)) ∧
  (guardedBy site ≠ None → trigger site = login_routing) ∧
  (is_reach (trigger site) = true → ∃ kind kinds, reachedBy site = Some (kind :: kinds)).

Lemma checkSite_ok idx backed site backed' :
  checkSite idx backed site = Ok backed' ↔
  site_ok idx site ∧ backed' = back (trigger site) (reports site) backed.
Proof.
  unfold checkSite, site_ok. rewrite result_bind_ok.
  assert (∀ P, (∃ a, requireAll idx (reports site) = Ok a ∧ P) ↔
    (∀ id, id ∈ reports site → is_Some (idx !! id)) ∧ P) as ->.
  { intros P. rewrite <- requireAll_ok. split; [intros [[] ?]|intros []; eexists]; eauto. }
  case_bool_decide as Hg.
  { split; [by intros [_ [=]]|]. intros ((_ & Hg' & _) & _). naive_solver. }
  assert (guardedBy site ≠ None → trigger site = login_routing) as Hg'.
  { intros Hn. destruct (decide (trigger site = login_routing)); [done|]. by destruct Hg. }
  destruct (is_reach (trigger site)) eqn:Hr.
  - destruct (reachedBy site) as [[|k ks]|].
    + split; [by intros [_ [=]]|]. intros ((_ & _ & H) & _). by destruct H as (? & ? & ?).
    + split; [intros [? [= <-]]|]; naive_solver.
    + split; [by intros [_ [=]]|]. intros ((_ & _ & H) & _). by destruct H as (? & ? & ?).
  - assert (back (trigger site) (reports site) backed = backed) as -> by by destruct (trigger site).
    naive_solver.
Qed.

Lemma checkSites_ok idx backed ss backed' :
  checkSites idx backed ss = Ok backed' ↔
  (∀ site, site ∈ ss → site_ok idx site) ∧
  backed' = foldl (λ b site, back (trigger site) (reports site) b) backed ss.
Proof.
  revert backed. induction ss as [|site ss IH]; intros backed; cbn.
  { split; [intros [= ->]; split; [set_solver|done]|by intros [_ ->]]. }
  rewrite result_bind_ok. setoid_rewrite checkSite_ok. setoid_rewrite elem_of_cons. split.
  - intros (? & [? ->] & [? ->]%IH). naive_solver.
  - intros [? ->]. eexists. split; [split; eauto|]. apply IH. naive_solver.
Qed.

Lemma elem_of_backing t backed ss id : is_reach t = true →
  id ∈ backing t (foldl (λ b site, back (trigger site) (reports site) b) backed ss) ↔
  id ∈ backing t backed ∨ ∃ site, site ∈ ss ∧ trigger site = t ∧ id ∈ reports site.
Proof.
  intros Ht. revert backed. induction ss as [|site ss IH]; intros backed; cbn; [set_solver|].
  rewrite IH. setoid_rewrite elem_of_cons.
  assert (id ∈ backing t (back (trigger site) (reports site) backed) ↔
    id ∈ backing t backed ∨ trigger site = t ∧ id ∈ reports site) as ->; [|naive_solver].
  destruct t; [done..| |]; destruct (trigger site); cbn; set_solver.
Qed.

Lemma checkDeclarations_ok backed declarations :
  checkDeclarations backed declarations = Ok () ↔
  ∀ decl t, decl ∈ declarations → is_reach t = true → t ∈ triggers decl → decl_id decl ∈ backing t backed.
Proof.
  induction declarations as [|decl declarations IH]; cbn; [set_solver|].
  rewrite result_bind_ok. setoid_rewrite (result_bind_ok (A:=unit) (B:=unit)). setoid_rewrite elem_of_cons.
  assert (∀ t u, checkBacked backed decl t = Ok u ↔
    (t ∈ triggers decl → decl_id decl ∈ backing t backed)) as Hc.
  { intros t []. unfold checkBacked. case_bool_decide as H.
    - split; [done|]. intros H'. destruct H as [Ht Hn]. by destruct (Hn (H' Ht)).
    - split; [|done]. intros _ Ht. destruct (decide (decl_id decl ∈ backing t backed)); [done|].
      by destruct H. }
  setoid_rewrite Hc. setoid_rewrite IH. split.
  - intros (_ & He & _ & Htl & Hr) d t [->|Hd]; [|by apply Hr]. by destruct t.
  - intros H. exists (). split; [by apply (H decl encounter); auto|].
    exists (). split; [by apply (H decl ceremony_tail); auto|]. eauto.
Qed.

(** What the construction accepts. *)
Definition consistent (declarations : list InvariantDeclaration) (ss : list Site) : Prop :=
  NoDup (decl_id <$> declarations) ∧
  (∀ site, site ∈ ss →
    (∀ id, id ∈ reports site → id ∈ decl_id <$> declarations) ∧
    (guardedBy site ≠ None → trigger site = login_routing) ∧
    (is_reach (trigger site) = true → ∃ kind kinds, reachedBy site = Some (kind :: kinds))) ∧
  (∀ decl t, decl ∈ declarations → is_reach t = true → t ∈ triggers decl →
    ∃ site, site ∈ ss ∧ trigger site = t ∧ decl_id decl ∈ reports site).

Lemma menderRegistry_inv declarations (ss : list Site) registry :
  menderRegistry declarations ss = Ok registry ↔
  NoDup (decl_id <$> declarations) ∧
  (∀ site, site ∈ ss → site_ok (index registry) site) ∧
  (∀ decl t, decl ∈ declarations → is_reach t = true → t ∈ triggers decl →
    ∃ site, site ∈ ss ∧ trigger site = t ∧ decl_id decl ∈ reports site) ∧
  registry = mkRegistry declarations
    (foldl (λ m decl, <[decl_id decl := decl]> m) ∅ declarations) ss.
Proof.
  unfold menderRegistry. rewrite result_bind_ok. setoid_rewrite result_bind_ok.
  setoid_rewrite (result_bind_ok (A:=())). setoid_rewrite buildIndex_ok. setoid_rewrite checkSites_ok. split.
  - intros (idx & (Hnd & _ & ->) & backed & [Hss ->] & [] & Hd & [= <-]).
    pose proof (proj1 (checkDeclarations_ok _ _) Hd) as Hd'. clear Hd. rename Hd' into Hd.
    split_and!; [done|done| |done]. intros decl t Hdecl Ht Htr.
    specialize (Hd decl t Hdecl Ht Htr). apply elem_of_backing in Hd as [Hd|Hd]; [|done..].
    by destruct t; [..|set_solver|set_solver].
  - intros (Hnd & Hss & Hd & ->). eexists. split; [split_and!; [done| |done]; set_solver|].
    eexists. split; [split; [done|done]|]. exists (). split; [|done].
    apply checkDeclarations_ok. intros decl t ? Ht ?. apply elem_of_backing; [done|]. right. eauto.
Qed.

Lemma declared_index declarations id :
  NoDup (decl_id <$> declarations) →
  is_Some (foldl (λ m decl, <[decl_id decl := decl]> m) (∅ : gmap string InvariantDeclaration) declarations !! id)
  ↔ id ∈ decl_id <$> declarations.
Proof.
  intros Hnd. unfold is_Some. setoid_rewrite index_lookup; [|done|set_solver].
  rewrite list_elem_of_fmap. set_solver.
Qed.

Lemma menderRegistry_wf declarations (ss : list Site) registry :
  menderRegistry declarations ss = Ok registry →
  well_formed registry ∧ all registry = declarations ∧ sites registry = ss.
Proof.
  rewrite menderRegistry_inv. intros (Hnd & Hss & Hd & ->). split; [|done].
  unfold site_ok in Hss. constructor; cbn in *; [done| |set_solver|set_solver|set_solver|done].
  intros id decl. unfold byId. cbn. rewrite index_lookup; set_solver.
Qed.

Lemma menderRegistry_consistent declarations (ss : list Site) :
  (∃ registry, menderRegistry declarations ss = Ok registry) ↔ consistent declarations ss.
Proof.
  setoid_rewrite menderRegistry_inv. unfold consistent. split.
  - intros (registry & Hnd & Hss & Hd & ->). split_and!; [done| |done]. intros site Hsite.
    destruct (Hss site Hsite) as (Hr & ? & ?). split_and!; [|done..].
    intros id Hid. apply declared_index; [done|]. by apply Hr.
  - intros (Hnd & Hss & Hd). eexists. split_and!; [done| |done|done]. intros site Hsite.
    destruct (Hss site Hsite) as (Hr & ? & ?). split_and!; [|done..].
    intros id Hid. apply declared_index; [done|]. by apply Hr.
Qed.

(** Every refusal is a [TypeError]. *)
Lemma menderRegistry_type_error declarations (ss : list Site) err :
  menderRegistry declarations ss = Throw err → err_name err = "TypeError".
Proof.
  assert (∀ A B (r : result A) (k : A → result B) e, r ≫= k = Throw e →
    r = Throw e ∨ ∃ a, r = Ok a ∧ k a = Throw e) as Hbind.
  { intros A B [a|e0] k e; cbn; [eauto|]. intros [= ->]. auto. }
  unfold menderRegistry. intros [H|(idx & _ & [H|(backed & _ & [H|(? & _ & [=])]%Hbind)]%Hbind)]%Hbind.
  - revert H. generalize (∅ : gmap string InvariantDeclaration).
    induction declarations as [|d ds IH]; intros idx; cbn; [done|]. destruct (idx !! _); [|apply IH]. by intros [= <-].
  - revert H. generalize (mkBacked ∅ ∅). induction ss as [|site ss IH]; intros backed; cbn; [done|].
    intros [H|(? & _ & H)]%Hbind; [|by eapply IH]. revert H. unfold checkSite.
    intros [H|(? & _ & H)]%Hbind.
    + revert H. induction (reports site) as [|id ids IHids]; cbn; [done|].
      unfold requireDeclared. destruct (idx !! id); cbn; [done|]. by intros [= <-].
    + destruct (bool_decide _); [by injection H as <-|]. destruct (is_reach _); [|done].
      destruct (reachedBy site) as [[|]|]; [..|]; by injection H as <- || done.
  - revert H. induction declarations as [|d ds IH]; cbn; [done|]. unfold checkBacked.
    repeat case_bool_decide; cbn; [by intros [= <-]..|done].
Qed.

(** ** Admission *)

Lemma filter_result_ok {A} (p : A → result bool) xs :
  (∀ x, x ∈ xs → ∃ b, p x = Ok b) →
  filter_result p xs = Ok (base.filter (λ x, p x = Ok true) xs).
Proof.
  induction xs as [|x xs IH]; cbn; [done|]. intros H.
  destruct (H x) as [b Hb]; [set_solver|]. rewrite Hb. cbn. rewrite IH by set_solver. cbn.
  destruct b; [by rewrite decide_True|by rewrite decide_False].
Qed.


Section wf.
Context (registry : MenderRegistry Deps W) (Hwf : well_formed registry).

Lemma wf_requireDeclared id decl :
  requireDeclared (index registry) id = Ok decl ↔ decl ∈ all registry ∧ decl_id decl = id.
Proof.
  rewrite <- (wf_index _ Hwf). unfold requireDeclared, byId.
  destruct (index registry !! id) as [d|]; naive_solver.
Qed.

Lemma wf_same_id d d' : d ∈ all registry → d' ∈ all registry → decl_id d = decl_id d' → d = d'.
Proof. apply NoDup_fmap_eq, wf_unique, Hwf. Qed.

Lemma admitsDeclaration_spec held route decl :
  admitsDeclaration held route decl = true ↔ admissible held route decl.
Proof.
  unfold admitsDeclaration, admissible. rewrite andb_true_iff, bool_decide_eq_true.
  destruct route as [here|], (when decl) as [pred|]; naive_solver.
Qed.

Lemma admits_true site held route :
  admits registry site held route = Ok true ↔ authorized registry held route site.
Proof.
  unfold admits, authorized. induction (reports site) as [|id ids IH]; cbn; [set_solver|].
  rewrite result_bind_ok. setoid_rewrite wf_requireDeclared. setoid_rewrite elem_of_cons. split.
  - intros (decl & [Hd Hid] & H). destruct (admitsDeclaration held route decl) eqn:Ha; [|done].
    pose proof (proj1 IH H). apply admitsDeclaration_spec in Ha. naive_solver.
  - intros H. destruct (H id) as (decl & Hd & Hid & Ha); [auto|]. exists decl. split; [done|].
    apply admitsDeclaration_spec in Ha as ->. apply IH. auto.
Qed.

(** Reading the reports of a site whose invariants are declared never
    throws. *)
Lemma admits_total site held route :
  (∀ id, id ∈ reports site → is_Some (byId registry id)) → ∃ b, admits registry site held route = Ok b.
Proof.
  unfold admits. induction (reports site) as [|id ids IH]; cbn; [eauto|]. intros H.
  destruct (H id) as [decl Hd]; [set_solver|]. apply (wf_index _ Hwf), wf_requireDeclared in Hd as ->. cbn.
  destruct (admitsDeclaration held route decl); [|eauto]. apply IH. set_solver.
Qed.

(** The due sites of a constructed registry are its own, in list order. *)
Lemma dueAt_ok held t route :
  ∃ due, dueAt registry held t route = Ok due ∧ due `sublist_of` sites registry ∧
    ∀ site, site ∈ due ↔ site ∈ sites registry ∧ trigger site = t ∧ authorized registry held route site.
Proof.
  unfold dueAt. rewrite filter_result_ok.
  - eexists. split; [done|]. split; [apply sublist_filter|]. intros site. rewrite list_elem_of_filter.
    case_decide; [rewrite admits_true|]; naive_solver.
  - intros site Hsite. case_decide; [|eauto]. apply admits_total. intros id. by apply wf_declared.
Qed.
End wf.
End registry_laws.

(** C39: the registry's construction throws a [TypeError] exactly on an
    inconsistent table (a declaration id twice, a report of an undeclared
    invariant, a guard on a site that is not a routing site, a reach site
    that names no session kind, a reach trigger no site backs); over a
    constructed registry [byId] reads the table and [dueAt] never throws and
    is exactly the trigger's sites whose every reported invariant is declared
    under an authority the session holds and on a route it admits, in list
    order. *)
Theorem registry_construction {Deps W} declarations (ss : list (RegistrationSite Deps W)) :
  match menderRegistry declarations ss with
  | Throw err => err_name err = "TypeError" ∧ ¬ consistent declarations ss
  | Ok registry =>
      consistent declarations ss ∧
      (∀ id decl, byId registry id = Some decl ↔ decl ∈ declarations ∧ decl_id decl = id) ∧
      ∀ held t route, ∃ due, dueAt registry held t route = Ok due ∧ due `sublist_of` ss ∧
        ∀ site, site ∈ due ↔ site ∈ ss ∧ trigger site = t ∧ authorized registry held route site
  end.
Proof.
  destruct (menderRegistry declarations ss) as [registry|err] eqn:Hr.
  - destruct (menderRegistry_wf _ _ _ Hr) as (Hwf & <- & <-). split_and!.
    + apply menderRegistry_consistent. eauto.
    + apply Hwf.
    + intros. by apply dueAt_ok.
  - split; [by eapply menderRegistry_type_error|]. intros [registry ?]%menderRegistry_consistent. congruence.
Qed.
