(* ===== verification/MenderRunner.v ===== *)
(** * The mender runner

    [src/src/menders/runner.ts]: the report accumulator, the discipline one
    registration runs under, and the block that runs a chain's
    registrations. *)

From S2P Require Import Prelude Json JsText CeremonyEvents Menders.

Definition MEND_REPORT_SHAPE_ERROR : string := "MendReportShapeError".

(** ** The accumulator *)

(** The closure of one accumulator. [assembled] is what [settled] resolved
    with, once it has. *)
Record Accumulated := mkAccumulated {
  recordedEntries : list MendReportEntry;
  assembled : option (list MendReportEntry)
}.
Definition fresh_accumulator : Accumulated := mkAccumulated [] None.

Record MendReportAccumulator (W : Type) := mkAccumulator {
  report : MendReportEntry → option js_error → comp W ();
  entries : comp W (list MendReportEntry);
  settle : comp W (list MendReportEntry)
}.
Arguments report {W}.
Arguments entries {W}.
Arguments settle {W}.

Section accumulator.
Context {W : Type} {cell : Cell W Accumulated} {shape : ThrownShape}.

Definition mendReportAccumulator (logger : option (Logger W)) : MendReportAccumulator W := {|
  report entry err :=
    modify (λ w, let acc := get_cell w in
      set_cell (mkAccumulated (recordedEntries acc ++ [entry]) (assembled acc)) w);;
    match logger with
    | Some log => menderEvent log entry None None err
    | None => mret ()
    end;
  entries := gets (λ w, recordedEntries (get_cell w));
  settle :=
    acc ← gets get_cell;
    match assembled acc with
    | Some entries => mret entries
    | None =>
        modify (set_cell (mkAccumulated (recordedEntries acc) (Some (recordedEntries acc))));;
        mret (recordedEntries acc)
    end
|}.
End accumulator.

(** [for (const x of xs) { await f(x) }]. *)
Fixpoint for_each {W A} (f : A → comp W ()) (xs : list A) : comp W () :=
  match xs with
  | [] => mret ()
  | x :: xs => f x;; for_each f xs
  end.

(** ** One registration *)

Section runner.
Context {Deps W : Type} {shape : ThrownShape}.
Local Notation Site := (RegistrationSite Deps W).

Definition matchesReports (site : Site) (es : list MendReportEntry) : bool :=
  bool_decide (entry_invariant <$> es = reports site).

Definition failedEntries (registry : MenderRegistry Deps W) (registration : Site)
    (errorName : string) : list MendReportEntry :=
  (λ id, mkEntry id failed NoDetail (Some errorName)
    (match ceremonies <$> byId registry id with
     | Some (c :: cs) => Some (c :: cs)
     | _ => None
     end)) <$> reports registration.

Definition isRegistration (site : Site) : bool := bool_decide (is_Some (converge site)).

Section registration.
Variables (registry : MenderRegistry Deps W) (deps : Deps) (logger : Logger W).

(** [await registration.converge(deps)]. *)
Definition callConverge (registration : Site) : comp W (list MendReportEntry) :=
  match converge registration with
  | Some f => f deps
  | None => mthrow (type_error "registration.converge is not a function")
  end.

Definition shapeWarning (registration : Site) : Event :=
  mkEvent CeremonyEvents.warn
    "A mender registration returned entries that do not match the invariants it reports"
    (<["trigger" := DText (trigger_text (trigger registration))]>
      {["reports" := DJson (JArr (JStr <$> reports registration))]}).

Definition convergeWarning (registration : Site) (err : js_error) (id : string) : Event :=
  mkEvent CeremonyEvents.warn
    (default ("Could not converge " ++ id)%string (decl_warn <$> byId registry id))
    (<["invariant" := DText id]> (<["trigger" := DText (trigger_text (trigger registration))]>
      {["err" := DErr err]})).

Definition convergeUnderDiscipline (registration : Site) : comp W (list MendReportEntry * bool) :=
  try_catch
    (es ← callConverge registration;
     if matchesReports registration es then mret (es, false)
     else
       logger (shapeWarning registration);;
       mret (failedEntries registry registration MEND_REPORT_SHAPE_ERROR, false))
    (λ err,
      for_each (λ id, logger (convergeWarning registration err id)) (reports registration);;
      name ← lift (errorNameOf err);
      mret (failedEntries registry registration name, true)).

(** The diagnostics twin of one entry. *)
Definition reportEntry (mends : option (MendReportAccumulator W)) (entry : MendReportEntry) : comp W () :=
  match mends with
  | Some mends => report mends entry None
  | None => menderEvent logger entry None None None
  end.

Definition runMenderRegistration (mends : option (MendReportAccumulator W)) (registration : Site) :
    comp W (list MendReportEntry * bool) :=
  outcome ← convergeUnderDiscipline registration;
  for_each (reportEntry mends) outcome.1;;
  mret outcome.
End registration.

(** ** One chain's block *)

Record BlockOptions := mkBlock {
  block_registry : MenderRegistry Deps W;
  block_trigger : Trigger;
  block_held : list Authority;
  block_route : LoginRoute;
  block_deps : Deps;
  block_logger : Logger W;
  block_registrations : option (list Site);
  block_seed : option Site;
  block_mends : option (MendReportAccumulator W);
  block_onOutcome : option (MendReportEntry → comp W ())
}.

(** [registration === seed]. *)
Definition is_seed (seed : option Site) (registration : Site) : bool :=
  match seed with Some seed => bool_decide (ref registration = ref seed) | None => false end.

(** The seed or an override registration listed under another trigger. *)
Fixpoint refuseMisplaced (t : Trigger) (supplied : list Site) : result () :=
  match supplied with
  | [] => Ok ()
  | site :: supplied =>
      if decide (trigger site = t) then refuseMisplaced t supplied
      else mthrow (type_error ("A " ++ trigger_text (trigger site) ++
        " registration was handed to the " ++ trigger_text t ++ " block"))
  end.

Definition blockSteps (o : BlockOptions) : result (list Site) :=
  let admitted site := admits (block_registry o) site (block_held o) (Some (block_route o)) in
  listed ← match block_registrations o with
           | Some rs => filter_result admitted rs
           | None => dueAt (block_registry o) (block_held o) (block_trigger o) (Some (block_route o))
           end;
  let listed := base.filter (λ site, isRegistration site = true) listed in
  match block_seed o with
  | Some seed => b ← admitted seed; Ok (if b : bool then seed :: listed else listed)
  | None => Ok listed
  end.

Fixpoint runSteps (o : BlockOptions) (reported : list MendReportEntry) (steps : list Site) :
    comp W (list MendReportEntry) :=
  match steps with
  | [] => mret reported
  | registration :: steps =>
      '(es, threw) ← runMenderRegistration (block_registry o) (block_deps o) (block_logger o)
         (block_mends o) registration;
      for_each (λ entry, match block_onOutcome o with Some f => f entry | None => mret () end) es;;
      if threw && is_seed (block_seed o) registration then mret (reported ++ es)
      else runSteps o (reported ++ es) steps
  end.

Definition runMenderBlock (o : BlockOptions) : comp W (list MendReportEntry) :=
  lift (refuseMisplaced (block_trigger o) (option_list (block_seed o) ++ default [] (block_registrations o)));;
  steps ← lift (blockSteps o);
  runSteps o [] steps.
End runner.
Arguments BlockOptions : clear implicits.

(** ** What a block does *)

Section block_laws.
Context {Deps W : Type} {shape : ThrownShape} {cell : Cell W Accumulated} {cell_laws : CellLaws W Accumulated}.
Local Notation Site := (RegistrationSite Deps W).
Implicit Types (site : Site) (registry : MenderRegistry Deps W).

Definition holding (acc : Accumulated) (w : W) : Prop := get_cell w = acc.

(** A computation outside the accumulator; one that also never throws. *)
Definition foreign {A} (c : comp W A) : Prop :=
  ∀ acc, triple (holding acc) c (λ _, holding acc) (λ _, holding acc).
Definition quiet {A} (c : comp W A) : Prop :=
  ∀ acc, triple (holding acc) c (λ _, holding acc) (λ _ _, False).

(** How one registration's run ends: with its converger's own entries when
    they name what it reports, with failed entries otherwise. *)
Inductive settled registry (deps : Deps) site : list MendReportEntry → bool → Prop :=
  | settled_converged f w w' es : converge site = Some f → f deps w = (Ok es, w') →
      entry_invariant <$> es = reports site → settled registry deps site es false
  | settled_misshapen f w w' es : converge site = Some f → f deps w = (Ok es, w') →
      entry_invariant <$> es ≠ reports site →
      settled registry deps site (failedEntries registry site MEND_REPORT_SHAPE_ERROR) false
  | settled_threw err w w' name : callConverge deps site w = (Throw err, w') → errorNameOf err = Ok name →
      settled registry deps site (failedEntries registry site name) true.

(** A block's report over its steps: each step's entries in order, up to a
    seed that threw. *)
Inductive block_report registry (deps : Deps) (seed : option Site) : list Site → list MendReportEntry → Prop :=
  | report_end : block_report registry deps seed [] []
  | report_step site steps es threw rest : settled registry deps site es threw →
      threw && is_seed seed site = false → block_report registry deps seed steps rest →
      block_report registry deps seed (site :: steps) (es ++ rest)
  | report_abort site steps es : settled registry deps site es true → is_seed seed site = true →
      block_report registry deps seed (site :: steps) es.

Lemma failedEntries_invariants registry site name :
  entry_invariant <$> failedEntries registry site name = reports site.
Proof. unfold failedEntries. rewrite <- list_fmap_compose. apply list_fmap_id. Qed.

(** Whatever the converger does, a registration reports exactly its
    invariants. *)
Lemma settled_invariants registry deps site es threw :
  settled registry deps site es threw → entry_invariant <$> es = reports site.
Proof. destruct 1; [done|apply failedEntries_invariants..]. Qed.

Lemma quiet_foreign {A} (c : comp W A) : quiet c → foreign c.
Proof. intros H acc. eapply triple_throws; [apply H|done]. Qed.

Lemma triple_for_each {A} (I : list A → W → Prop) (f : A → comp W ()) xs :
  (∀ pre x, triple (I pre) (f x) (λ _, I (pre ++ [x])) (λ _ _, False)) →
  ∀ pre, triple (I pre) (for_each f xs) (λ _, I (pre ++ xs)) (λ _ _, False).
Proof.
  intros Hf. induction xs as [|x xs IH]; intros pre; cbn.
  - apply triple_ret. by rewrite app_nil_r.
  - eapply triple_bind; [apply Hf|]. intros ?.
    replace (pre ++ x :: xs) with ((pre ++ [x]) ++ xs) by (by rewrite <- app_assoc). apply IH.
Qed.

Lemma quiet_for_each {A} (f : A → comp W ()) xs : (∀ x, quiet (f x)) → quiet (for_each f xs).
Proof. intros Hf acc. apply (triple_for_each (λ _, holding acc) f xs (λ _ x, Hf x acc) []). Qed.

Lemma menderEvent_quiet (log : Logger W) entry ceremony run err :
  (∀ ev, foreign (log ev)) → quiet (menderEvent log entry ceremony run err).
Proof.
  intros Hlog acc. unfold menderEvent, emit.
  apply (triple_try _ _ _ _ _ (λ _, holding acc)); [|intros e; by apply triple_ret].
  apply (triple_try _ _ _ _ _ (λ _, holding acc)); [apply Hlog|intros e; by apply triple_ret].
Qed.

(** The accumulator's report records the entry, whatever its logger does. *)
Lemma report_records (logger : option (Logger W)) entry err recorded asm :
  (∀ log ev, logger = Some log → foreign (log ev)) →
  triple (holding (mkAccumulated recorded asm)) (report (mendReportAccumulator logger) entry err)
    (λ _, holding (mkAccumulated (recorded ++ [entry]) asm)) (λ _ _, False).
Proof.
  intros Hlog. unfold mendReportAccumulator. cbn [report].
  eapply (triple_bind _ _ _ (λ _, holding (mkAccumulated (recorded ++ [entry]) asm))).
  - apply triple_modify. unfold holding. intros w Hw. by rewrite get_set_cell, Hw.
  - intros _. destruct logger as [log|]; [|by apply triple_ret]. by apply menderEvent_quiet; auto.
Qed.

Section registration.
Variables (registry : MenderRegistry Deps W) (deps : Deps) (logger : Logger W).
Hypothesis Hlogger : ∀ ev, quiet (logger ev).
Hypothesis Hname : ∀ err, ∃ name, errorNameOf err = Ok name.

Lemma discipline_settles site :
  (∀ f, converge site = Some f → foreign (f deps)) → ∀ acc,
  triple (holding acc) (convergeUnderDiscipline registry deps logger site)
    (λ out w, settled registry deps site out.1 out.2 ∧ holding acc w) (λ _ _, False).
Proof.
  intros Hf acc w Hw. unfold convergeUnderDiscipline, try_catch.
  assert (foreign (callConverge deps site)) as Hc.
  { unfold callConverge. destruct (converge site) as [f|] eqn:Hs; [by apply Hf|]. intros acc'. by apply triple_throw. }
  specialize (Hc acc w Hw). destruct (callConverge deps site w) as [[es|err] w'] eqn:Hcw.
  - rewrite (comp_bind_ok _ _ _ _ _ Hcw).
    assert (∃ f, converge site = Some f ∧ f deps w = (Ok es, w')) as (f & Hs & Hfw).
    { unfold callConverge in Hcw. destruct (converge site); [eauto|done]. }
    unfold matchesReports. case_bool_decide as Hm; cbn; [split; [by econstructor|done]|].
    pose proof (Hlogger (shapeWarning site) acc w' Hc) as Hl.
    unfold mbind, comp_bind. destruct (logger _ w') as [[[]|?] w'']; [|done].
    cbn. split; [by econstructor|done].
  - rewrite (comp_bind_throw _ _ _ _ _ Hcw). destruct (Hname err) as [name Hn].
    pose proof (quiet_for_each (λ id, logger (convergeWarning registry site err id)) (reports site)
      (λ id, Hlogger _) acc w' Hc) as Hl.
    unfold lift, mbind, comp_bind. destruct (for_each _ _ w') as [[[]|?] w'']; [|done].
    rewrite Hn. cbn. split; [by econstructor|done].
Qed.

Lemma registration_records mends_logger site recorded asm :
  (∀ log ev, mends_logger = Some log → foreign (log ev)) →
  (∀ f, converge site = Some f → foreign (f deps)) →
  triple (holding (mkAccumulated recorded asm))
    (runMenderRegistration registry deps logger (Some (mendReportAccumulator mends_logger)) site)
    (λ out w, settled registry deps site out.1 out.2 ∧ holding (mkAccumulated (recorded ++ out.1) asm) w)
    (λ _ _, False).
Proof.
  intros Hml Hf. unfold runMenderRegistration.
  eapply triple_bind; [by apply discipline_settles|]. intros out. apply triple_pure. intros Hs.
  eapply (triple_bind _ _ _ (λ _, holding (mkAccumulated (recorded ++ out.1) asm))).
  - pose proof (triple_for_each (λ es, holding (mkAccumulated (recorded ++ es) asm))
      (reportEntry logger (Some (mendReportAccumulator mends_logger))) out.1) as H.
    specialize (H ltac:(intros pre x; cbn beta; rewrite app_assoc; by apply report_records) []).
    cbn beta in H. by rewrite app_nil_r in H.
  - intros _. by apply triple_ret.
Qed.
End registration.

(** ** The block *)

Section block.
Variables (o : BlockOptions Deps W) (mends_logger : option (Logger W)).

(** The seed and the override registrations. *)
Definition supplied : list Site := option_list (block_seed o) ++ default [] (block_registrations o).

(** What the block needs of what it is handed: callables outside the
    accumulator, of which only a converger may throw. *)
Record tame_block : Prop := {
  tame_mends : block_mends o = Some (mendReportAccumulator mends_logger);
  tame_mends_logger : ∀ log ev, mends_logger = Some log → foreign (log ev);
  tame_logger : ∀ ev, quiet (block_logger o ev);
  tame_names : ∀ err, ∃ name, errorNameOf err = Ok name;
  tame_outcome : ∀ f entry, block_onOutcome o = Some f → quiet (f entry);
  tame_converge : ∀ site f, site ∈ supplied ++ sites (block_registry o) →
    converge site = Some f → foreign (f (block_deps o))
}.

Context (Htame : tame_block).

Lemma runSteps_reports steps reported recorded asm :
  (∀ site, site ∈ steps → site ∈ supplied ++ sites (block_registry o)) →
  triple (holding (mkAccumulated recorded asm)) (runSteps o reported steps)
    (λ out w, ∃ es, out = reported ++ es ∧
       block_report (block_registry o) (block_deps o) (block_seed o) steps es ∧
       holding (mkAccumulated (recorded ++ es) asm) w)
    (λ _ _, False).
Proof.
  revert reported recorded. induction steps as [|site steps IH]; intros reported recorded Hin; cbn [runSteps].
  { apply triple_ret. intros w Hw. exists []. rewrite !app_nil_r. split_and!; [done|constructor|done]. }
  rewrite (tame_mends Htame). eapply triple_bind.
  { apply registration_records; [apply Htame..|]. intros f. apply Htame, Hin. set_solver. }
  intros [es threw]. apply triple_pure. intros Hs. cbn [fst snd] in Hs |- *.
  eapply triple_bind.
  { apply quiet_for_each. intros entry. destruct (block_onOutcome o) as [f|] eqn:Hf;
      [by eapply tame_outcome|]. intros acc. by apply triple_ret. }
  intros ?. destruct (threw && is_seed (block_seed o) site) eqn:Ha.
  - apply triple_ret. intros w Hw. exists es. split_and!; [done| |done].
    apply andb_true_iff in Ha as [-> ?]. by apply report_abort.
  - eapply triple_post; [apply IH; set_solver| |done]. intros out w (rest & -> & Hr & Hw). exists (es ++ rest).
    rewrite !app_assoc. split_and!; [done|by eapply report_step|]. by rewrite <- app_assoc in Hw |- *.
Qed.

End block.

Section steps.
Variable o : BlockOptions Deps W.
Lemma refuseMisplaced_ok t ss : refuseMisplaced t ss = Ok () ↔ ∀ site, site ∈ ss → trigger site = t.
Proof.
  induction ss as [|site ss IH]; cbn; [set_solver|]. setoid_rewrite elem_of_cons.
  case_decide as Ht; [rewrite IH; naive_solver|]. split; [done|]. intros H. by destruct Ht; auto.
Qed.

(** The sites a block considers, beside its seed. *)
Definition candidates : list Site := default (sites (block_registry o)) (block_registrations o).

Definition due_here site : Prop :=
  trigger site = block_trigger o ∧
  authorized (block_registry o) (block_held o) (Some (block_route o)) site.

(** The steps of a block: the seed, when it is due, and every due candidate
    that carries a converger, in order. *)
Lemma blockSteps_ok :
  well_formed (block_registry o) →
  (∀ site, site ∈ supplied o → trigger site = block_trigger o ∧
     ∀ id, id ∈ reports site → is_Some (byId (block_registry o) id)) →
  ∃ first listed, blockSteps o = Ok (first ++ listed) ∧ listed `sublist_of` candidates ∧
    (∀ site, site ∈ listed ↔ site ∈ candidates ∧ due_here site ∧ is_Some (converge site)) ∧
    (∀ site, site ∈ first ↔ block_seed o = Some site ∧ due_here site) ∧ length first ≤ 1.
Proof.
  intros Hwf Hsup. unfold blockSteps.
  set (admitted := λ site, admits (block_registry o) site (block_held o) (Some (block_route o))).
  assert (∃ due, match block_registrations o with
    | Some rs => filter_result admitted rs
    | None => dueAt (block_registry o) (block_held o) (block_trigger o) (Some (block_route o)) end = Ok due ∧
    due `sublist_of` candidates ∧ ∀ site, site ∈ due ↔ site ∈ candidates ∧ due_here site)
    as (due & -> & Hsub & Hdue).
  { unfold candidates, due_here. unfold supplied in Hsup. destruct (block_registrations o) as [rs|]; cbn in *.
    - rewrite filter_result_ok.
      + eexists. split; [done|]. split; [apply sublist_filter|]. intros site.
        rewrite list_elem_of_filter. unfold admitted. rewrite (admits_true _ Hwf). set_solver.
      + intros site Hs. apply admits_total; [done|]. intros id. apply Hsup. set_solver.
    - by apply dueAt_ok. }
  cbn. set (listed := base.filter (λ site, isRegistration site = true) due).
  assert (∀ site, site ∈ listed ↔ site ∈ candidates ∧ due_here site ∧ is_Some (converge site)) as Hl.
  { intros site. unfold listed, isRegistration. rewrite list_elem_of_filter, bool_decide_eq_true, Hdue. tauto. }
  assert (listed `sublist_of` candidates) as Hls by (etrans; [apply sublist_filter|done]).
  unfold supplied in Hsup. destruct (block_seed o) as [seed|] eqn:Hseed; cbn in *.
  - destruct (Hsup seed) as [Ht Hd]; [set_solver|].
    destruct (admits_total _ Hwf seed (block_held o) (Some (block_route o)) Hd) as [b Hb].
    unfold admitted. rewrite Hb. cbn. destruct b.
    + exists [seed], listed. split_and!; [done..| |cbn; lia]. intros site.
      rewrite list_elem_of_singleton. unfold due_here. apply (admits_true _ Hwf) in Hb. naive_solver.
    + exists [], listed. split_and!; [done..| |cbn; lia]. intros site. rewrite elem_of_nil.
      split; [done|]. intros [[= ->] [_ Ha]]. apply (admits_true _ Hwf) in Ha. congruence.
  - exists [], listed. split_and!; [done..| |cbn; lia]. set_solver.
Qed.

Lemma steps_known first listed :
  (∀ site, site ∈ listed ↔ site ∈ candidates ∧ due_here site ∧ is_Some (converge site)) →
  (∀ site, site ∈ first ↔ block_seed o = Some site ∧ due_here site) →
  ∀ site, site ∈ first ++ listed → site ∈ supplied o ++ sites (block_registry o).
Proof.
  intros Hl Hf site. unfold supplied. rewrite !elem_of_app, Hl, Hf.
  intros [[-> _]|[Hc _]]; [set_solver|]. revert Hc. unfold candidates.
  destruct (block_registrations o); cbn; set_solver.
Qed.
End steps.
End block_laws.

(** A mender block handed a seed or registration of another trigger
    throws a [TypeError] before anything runs. Otherwise it never rejects: it
    runs the seed, when due, and then exactly the due candidates that carry a
    converger, in list order, where due means every reported invariant is
    declared under a held authority on an admitted route; its report is each
    step's entries in order, one per reported invariant, verbatim from a
    converger that names what it reports and [failed] with the error's name
    otherwise; a converger that throws never stops the block, unless it is
    the seed's, behind which nothing runs; and the accumulator has recorded
    exactly the report. *)
Theorem mender_block_contract {Deps W} {shape : ThrownShape} {cell : Cell W Accumulated}
    {cell_laws : CellLaws W Accumulated} declarations ss (o : BlockOptions Deps W) mends_logger w :
  ((∃ site, site ∈ supplied o ∧ trigger site ≠ block_trigger o) →
   ∃ msg, runMenderBlock o w = (Throw (type_error msg), w)) ∧
  (menderRegistry declarations ss = Ok (block_registry o) → tame_block o mends_logger →
   (∀ site, site ∈ supplied o → trigger site = block_trigger o ∧
      ∀ id, id ∈ reports site → id ∈ decl_id <$> declarations) →
   ∃ first listed out w', runMenderBlock o w = (Ok out, w') ∧
     listed `sublist_of` candidates o ∧
     (∀ site, site ∈ listed ↔ site ∈ candidates o ∧ due_here o site ∧ is_Some (converge site)) ∧
     (∀ site, site ∈ first ↔ block_seed o = Some site ∧ due_here o site) ∧ length first ≤ 1 ∧
     block_report (block_registry o) (block_deps o) (block_seed o) (first ++ listed) out ∧
     recordedEntries (get_cell w') = recordedEntries (get_cell w) ++ out).
Proof.
  split.
  - intros (site & Hs & Ht). unfold runMenderBlock. fold (supplied o).
    assert (∃ msg, refuseMisplaced (block_trigger o) (supplied o) = Throw (type_error msg)) as [msg Hm].
    { induction (supplied o) as [|s l IH]; [set_solver|]. cbn.
      case_decide; [apply IH; set_solver|]. eexists. done. }
    exists msg. by rewrite Hm.
  - intros Hr Htame Hsup. destruct (menderRegistry_wf _ _ _ Hr) as (Hwf & Hall & _).
    destruct (blockSteps_ok o Hwf) as (first & listed & Hsteps & Hl1 & Hl2 & Hf1 & Hf2).
    { intros site Hs. destruct (Hsup site Hs) as [? Hd]. split; [done|]. intros id Hid.
      apply Hd in Hid. apply list_elem_of_fmap in Hid as (decl & -> & Hdecl). exists decl.
      apply wf_index; [done|]. by rewrite Hall. }
    destruct (get_cell w) as [recorded asm] eqn:Hw.
    pose proof (runSteps_reports o mends_logger Htame (first ++ listed) [] recorded asm) as Hrun.
    specialize (Hrun ltac:(by eapply steps_known) w Hw).
    assert (runMenderBlock o w = runSteps o [] (first ++ listed) w) as ->.
    { unfold runMenderBlock. fold (supplied o).
      rewrite (proj2 (refuseMisplaced_ok _ _)) by apply Hsup.
      rewrite Hsteps. done. }
    destruct (runSteps o [] (first ++ listed) w) as [[out|] w']; [|done].
    destruct Hrun as (es & -> & Hrep & Hw'). exists first, listed, es, w'.
    split_and!; [done..|]. by rewrite Hw'.
Qed.

(** A remembered chain of three registrations over a ladder session: the
    first throws, the second needs an enrolled client, the third converges. *)
Module Demo.
#[local] Instance whole_cell : Cell Accumulated Accumulated := {| get_cell w := w; set_cell s _ := s |}.
#[local] Instance whole_cell_laws : CellLaws Accumulated Accumulated.
Proof. done. Qed.
#[local] Instance demo_shape : ThrownShape := plain_shape.

Definition declaration (id : string) (a : Authority) : InvariantDeclaration :=
  mkDeclaration id [ladder_anchored] a [remembered_login_chain] [] ("Could not mend " ++ id) None false.
Definition entry (id : string) (kind : MendOutcomeKind) : MendReportEntry := mkEntry id kind NoDetail None None.
Definition site (n : nat) (id : string) (c : comp Accumulated (list MendReportEntry)) :
    RegistrationSite () Accumulated :=
  mkSite n remembered_login_chain [id] None None (Some (λ _, c)).

Definition declarations : list InvariantDeclaration :=
  [declaration "a" account; declaration "b" enrolled; declaration "c" no_authority].
Definition index : list (RegistrationSite () Accumulated) :=
  [site 0 "a" (mthrow (JsError "NetworkError" "")); site 1 "b" (mret [entry "b" clean]);
   site 2 "c" (mret [entry "c" clean])].

Definition options (registry : MenderRegistry () Accumulated) : BlockOptions () Accumulated :=
  mkBlock registry remembered_login_chain (heldAuthorities (Some resolved_ladder)) (mkRoute false) ()
    (λ _, mret ()) None None (Some (mendReportAccumulator None)) None.

Lemma options_tame registry : sites registry = index → tame_block (options registry) None.
Proof.
  intros Hs. constructor; [done|done|by intros ev acc w|by eexists|done|].
  intros s f. unfold supplied. cbn. rewrite Hs.
  intros [->|[->|[->|[]%elem_of_nil]%elem_of_cons]%elem_of_cons]%elem_of_cons [= <-] acc w; done.
Qed.

Lemma mender_block_contract_witness :
  ∃ registry out w', menderRegistry declarations index = Ok registry ∧
    runMenderBlock (options registry) fresh_accumulator = (Ok out, w') ∧
    recordedEntries w' = [mkEntry "a" failed NoDetail (Some "NetworkError") None; entry "c" clean].
Proof.
  destruct (menderRegistry declarations index) as [registry|] eqn:Hr; [|by vm_compute in Hr].
  destruct (menderRegistry_wf _ _ _ Hr) as (_ & _ & Hs).
  destruct (mender_block_contract declarations index (options registry) None fresh_accumulator) as [_ H].
  destruct (H Hr (options_tame registry Hs)) as (first & listed & out & w' & Hrun & _ & _ & _ & _ & _ & Hrec);
    [by intros s Hsup; apply elem_of_nil in Hsup|].
  exists registry, out, w'. split; [done|]. split; [done|]. cbn in Hrec. change (get_cell w') with w' in Hrec.
  rewrite Hrec. vm_compute in Hr. injection Hr as <-. vm_compute in Hrun. by injection Hrun as <- _.
Defined.
End Demo.
