(* ===== verification/MenderAudit.v ===== *)
(** * The audit of a mender registry

    [src/src/menders/derive.ts]: the invariants a transient visit reaches, the
    gaps the registration index implies, and the two checks a wallet's audit
    makes of its declared allowlist and of the census. *)

From S2P Require Import Prelude Json JsText CeremonyEvents Menders.

Record DerivedGap := mkGap { gap_invariant : string; gap_kind : GapKind }.

(** The members of a declared row the comparison reads are those of a
    derived one. *)
Definition InvariantGap : Type := DerivedGap.

Section derive.
Context {Deps W : Type}.
Implicit Types (registry : MenderRegistry Deps W) (site : RegistrationSite Deps W).

Definition reportedIds registry : gset string := list_to_set (sites registry ≫= reports).

Definition transient_held : list Authority := heldAuthorities (Some resolved_ladder).

(** [site.reachedBy.includes('transient')]: a site with no list throws. *)
Definition reaches_transient site : result bool :=
  match reachedBy site with
  | Some kinds => Ok (bool_decide (transient ∈ kinds))
  | None => mthrow (type_error "site.reachedBy is undefined")
  end.

(** Whether a site counts beside the chain's: [routed || visited]. *)
Definition siteCounts registry site : result bool :=
  if bool_decide (trigger site = login_routing ∧ guardedBy site = None) then Ok true
  else if is_reach (trigger site) then
    b ← reaches_transient site;
    if b : bool then admits registry site transient_held None else Ok false
  else Ok false.

(** Whether an unreported detector is checked on a transient visit. *)
Definition checkedOnVisit (decl : InvariantDeclaration) : bool :=
  bool_decide (login_routing ∈ triggers decl) ||
  bool_decide (transient_login_chain ∈ triggers decl ∧ authority decl ∈ transient_held).

Definition transientReachableInvariants registry : result (list string) :=
  due ← dueAt registry transient_held transient_login_chain None;
  counted ← filter_result (siteCounts registry) (sites registry);
  let reported := reportedIds registry in
  let detected := base.filter (λ decl,
    decl_id decl ∉ reported ∧ holdsWhen decl = true ∧ checkedOnVisit decl = true) (all registry) in
  let reached : gset string :=
    list_to_set (due ≫= reports) ∪ list_to_set (counted ≫= reports) ∪ list_to_set (decl_id <$> detected) in
  Ok (decl_id <$> base.filter (λ decl, decl_id decl ∈ reached) (all registry)).

Definition declarationGap (reported reachable : gset string) (decl : InvariantDeclaration) : list DerivedGap :=
  if decide (decl_id decl ∉ reported) then [mkGap (decl_id decl) gap_none]
  else if decide (decl_id decl ∉ reachable ∧ ladder_anchored ∈ standsOn decl)
       then [mkGap (decl_id decl) gap_unreachable]
  else [].

Definition deriveGaps registry : result (list DerivedGap) :=
  reachable ← transientReachableInvariants registry;
  Ok (all registry ≫= declarationGap (reportedIds registry) (list_to_set reachable)).

(** A declared row covers a derived one. *)
Definition covers (derived declared : DerivedGap) : bool :=
  bool_decide (gap_invariant declared = gap_invariant derived) &&
  (bool_decide (gap_kind derived = gap_unreachable) || bool_decide (gap_kind declared = gap_none)).

Definition undeclaredGaps (derived : list DerivedGap) (declared : list InvariantGap) : list DerivedGap :=
  base.filter (λ gap, existsb (covers gap) declared = false) derived.

Definition undeclaredInvariants registry : list string :=
  let declared : gset string := list_to_set (decl_id <$> all registry) in
  base.filter (λ id, id ∉ declared) INVARIANT_IDS.

(** ** What the derivation says *)

(** Some site reports the invariant. *)
Definition is_reported registry (id : string) : Prop :=
  ∃ site, site ∈ sites registry ∧ id ∈ reports site.

(** A transient visit meets the site: on its own chain or by its own session
    kind, under an authority a ladder session holds; or at routing, outside
    the client-key-record probe. *)
Definition meets registry site : Prop :=
  match trigger site with
  | remembered_login_chain => False
  | transient_login_chain => authorized registry transient_held None site
  | login_routing => guardedBy site = None
  | ceremony_tail | encounter =>
      (∃ kinds, reachedBy site = Some kinds ∧ transient ∈ kinds) ∧
      authorized registry transient_held None site
  end.

(** A transient visit reaches the invariant: it meets a site that reports it,
    or the invariant is a detector no site reports that it checks. *)
Definition visit_reaches registry (decl : InvariantDeclaration) : Prop :=
  (∃ site, site ∈ sites registry ∧ decl_id decl ∈ reports site ∧ meets registry site) ∨
  (¬ is_reported registry (decl_id decl) ∧ holdsWhen decl = true ∧
   (login_routing ∈ triggers decl ∨
    transient_login_chain ∈ triggers decl ∧ authority decl ∈ [no_authority; account; ladder])).

Lemma elem_of_reportedIds registry id : id ∈ reportedIds registry ↔ is_reported registry id.
Proof.
  unfold reportedIds, is_reported. rewrite elem_of_list_to_set, list_elem_of_bind. naive_solver.
Qed.

Section wf.
Context (registry : MenderRegistry Deps W) (Hwf : well_formed registry).

Lemma siteCounts_ok site : site ∈ sites registry → ∃ b, siteCounts registry site = Ok b.
Proof.
  intros Hsite. unfold siteCounts, reaches_transient. case_bool_decide; [eauto|].
  destruct (is_reach (trigger site)) eqn:Hr; [|eauto].
  destruct (wf_reach _ Hwf site Hsite Hr) as (kind & kinds & ->). cbn.
  case_bool_decide; [|eauto]. apply admits_total; [done|]. intros id. by apply wf_declared.
Qed.

Lemma siteCounts_true site : site ∈ sites registry →
  siteCounts registry site = Ok true ↔ trigger site ≠ transient_login_chain ∧ meets registry site.
Proof.
  intros Hsite. unfold siteCounts, reaches_transient, meets.
  destruct (trigger site) eqn:Ht; cbn [is_reach].
  3: { case_bool_decide; naive_solver. }
  1,2: rewrite bool_decide_eq_false_2 by (by intros [? _]); naive_solver.
  all: rewrite bool_decide_eq_false_2 by (by intros [? _]).
  all: destruct (wf_reach _ Hwf site Hsite) as (kind & kinds & ->); [by rewrite Ht|]; cbn.
  all: case_bool_decide; [rewrite (admits_true _ Hwf)|]; naive_solver.
Qed.

(** The derivation is total over a constructed registry, and reaches exactly
    what a transient visit does, in table order. *)
Lemma transientReachable_spec :
  ∃ ids, transientReachableInvariants registry = Ok ids ∧
    ids `sublist_of` (decl_id <$> all registry) ∧
    ∀ decl, decl ∈ all registry → decl_id decl ∈ ids ↔ visit_reaches registry decl.
Proof.
  unfold transientReachableInvariants.
  destruct (dueAt_ok _ Hwf transient_held transient_login_chain None) as (due & -> & _ & Hdue). cbn.
  rewrite filter_result_ok by (intros; by apply siteCounts_ok). cbn.
  eexists. split; [done|]. split; [apply sublist_fmap_mono, sublist_filter|]. intros decl Hdecl.
  rewrite list_elem_of_fmap. setoid_rewrite list_elem_of_filter.
  setoid_rewrite elem_of_union. setoid_rewrite elem_of_union.
  setoid_rewrite elem_of_list_to_set. setoid_rewrite list_elem_of_bind. setoid_rewrite list_elem_of_fmap.
  setoid_rewrite list_elem_of_filter. setoid_rewrite elem_of_reportedIds. split.
  - intros (d & Hid & Hin & Hd). assert (d = decl) as -> by by eapply wf_same_id. clear Hid Hd.
    destruct Hin as [[(site & Hr & [Hs [Ht Ha]]%Hdue)|(site & Hr & [Hc Hs])]|(d & Hid & (Hn & Hh & Hck) & Hd)].
    + left. exists site. split_and!; [done..|]. unfold meets. by rewrite Ht.
    + left. apply siteCounts_true in Hc as [_ Hm]; [|done]. eauto.
    + assert (d = decl) as -> by by eapply wf_same_id. right. split_and!; [done..|].
      unfold checkedOnVisit in Hck. apply orb_true_iff in Hck as [Hck|Hck];
        apply bool_decide_eq_true in Hck; auto.
  - intros H. exists decl. split; [done|]. split; [|done].
    destruct H as [(site & Hs & Hr & Hm)|(Hn & Hh & Hck)].
    + left. destruct (decide (trigger site = transient_login_chain)) as [Ht|Ht].
      * left. exists site. split; [done|]. apply Hdue. split_and!; [done..|].
        unfold meets in Hm. by rewrite Ht in Hm.
      * right. exists site. split; [done|]. split; [|done]. by apply siteCounts_true.
    + right. exists decl. split; [done|]. split; [|done]. split_and!; [done..|].
      unfold checkedOnVisit. apply orb_true_iff. rewrite !bool_decide_eq_true. naive_solver.
Qed.

(** The gap of each declaration. *)
Definition gap_of (decl : InvariantDeclaration) (kind : GapKind) : Prop :=
  match kind with
  | gap_none => ¬ is_reported registry (decl_id decl)
  | gap_unreachable => is_reported registry (decl_id decl) ∧
      ladder_anchored ∈ standsOn decl ∧ ¬ visit_reaches registry decl
  end.

Lemma deriveGaps_spec :
  ∃ gaps, deriveGaps registry = Ok gaps ∧
    ∀ gap, gap ∈ gaps ↔ ∃ decl, decl ∈ all registry ∧ decl_id decl = gap_invariant gap ∧
      gap_of decl (gap_kind gap).
Proof.
  unfold deriveGaps. destruct transientReachable_spec as (ids & -> & _ & Hids). cbn.
  eexists. split; [done|]. intros [id kind]. rewrite list_elem_of_bind. cbn.
  assert (∀ decl, decl ∈ all registry →
    mkGap id kind ∈ declarationGap (reportedIds registry) (list_to_set ids) decl ↔
    decl_id decl = id ∧ gap_of decl kind) as Hgap; [|naive_solver].
  intros decl Hdecl. specialize (Hids decl Hdecl). unfold declarationGap, gap_of.
  pose proof (elem_of_reportedIds registry (decl_id decl)) as Hrep.
  case_decide as Hr; [|case_decide as Hu]; rewrite ?list_elem_of_singleton, ?elem_of_nil.
  - destruct kind; naive_solver.
  - rewrite elem_of_list_to_set in Hu. destruct kind; naive_solver.
  - rewrite elem_of_list_to_set in Hu. destruct kind; [naive_solver|].
    split; [done|]. intros (_ & _ & ? & ?). destruct Hu. split; [by rewrite Hids|done].
Qed.
(** A declaration has a gap, or is reported and reached where it must be. *)
Lemma declaration_gap decl : decl ∈ all registry →
  (∃ kind, gap_of decl kind) ∨
  is_reported registry (decl_id decl) ∧ (ladder_anchored ∈ standsOn decl → visit_reaches registry decl).
Proof.
  intros Hdecl. destruct transientReachable_spec as (ids & _ & _ & Hids). specialize (Hids decl Hdecl).
  destruct (decide (decl_id decl ∈ reportedIds registry)) as [Hr|Hr]; rewrite elem_of_reportedIds in Hr.
  - destruct (decide (ladder_anchored ∈ standsOn decl ∧ decl_id decl ∉ ids)) as [[Hs Hn]|Hn].
    + left. exists gap_unreachable. cbn. by rewrite <- Hids.
    + right. split; [done|]. intros Hs. apply Hids. destruct (decide (decl_id decl ∈ ids)); [done|].
      by destruct Hn.
  - left. by exists gap_none.
Qed.
End wf.

Lemma covers_true gap row :
  covers gap row = true ↔
  gap_invariant row = gap_invariant gap ∧ (gap_kind gap = gap_unreachable ∨ gap_kind row = gap_none).
Proof. unfold covers. by rewrite andb_true_iff, orb_true_iff, !bool_decide_eq_true. Qed.

Lemma filter_notin_nil (census declared : list string) :
  base.filter (λ id, id ∉@{gset string} list_to_set declared) census = [] ↔
  ∀ id, id ∈ census → id ∈ declared.
Proof.
  setoid_rewrite <- (elem_of_list_to_set (C:=gset string)) at 2.
  induction census as [|id census IH]; [set_solver|]. rewrite filter_cons.
  case_decide as Hid; [|rewrite IH; set_solver].
  split; [done|]. intros H. destruct Hid. apply H. set_solver.
Qed.

Lemma undeclaredInvariants_nil registry :
  undeclaredInvariants registry = [] ↔ ∀ id, id ∈ INVARIANT_IDS → id ∈ decl_id <$> all registry.
Proof. apply filter_notin_nil. Qed.

Lemma undeclaredGaps_nil derived declared :
  undeclaredGaps derived declared = [] ↔
  ∀ gap, gap ∈ derived → ∃ row, row ∈ declared ∧ covers gap row = true.
Proof.
  unfold undeclaredGaps. split.
  - intros Hnil gap Hgap. destruct (existsb (covers gap) declared) eqn:He.
    + apply existsb_exists in He as (row & Hrow%list_elem_of_In & ?). eauto.
    + assert (gap ∈ base.filter (λ gap, existsb (covers gap) declared = false) derived) as Hin
        by by apply list_elem_of_filter.
      rewrite Hnil in Hin. by apply elem_of_nil in Hin.
  - intros H. apply filter_none. intros gap Hgap He. destruct (H gap Hgap) as (row & Hrow & Hc).
    assert (existsb (covers gap) declared = true) by (apply existsb_exists; exists row;
      split; [by apply list_elem_of_In|done]). congruence.
Qed.
End derive.

(** The audit a wallet pins is exact: over a constructed registry the
    derivation throws nothing, and both checks come back empty if and only if
    every invariant of the census is declared, and every declared invariant
    is either reported at a site and, where a violation can stand on a
    ladder-anchored account, reached by a transient visit, or has an
    allowlist row, of kind [none] when no site reports it. *)
Theorem audit_is_exact {Deps W} declarations (ss : list (RegistrationSite Deps W)) registry
    (declared : list InvariantGap) :
  menderRegistry declarations ss = Ok registry →
  ∃ gaps, deriveGaps registry = Ok gaps ∧
    (undeclaredGaps gaps declared = [] ∧ undeclaredInvariants registry = [] ↔
     (∀ id, id ∈ INVARIANT_IDS → id ∈ decl_id <$> declarations) ∧
     ∀ decl, decl ∈ declarations →
       (is_reported registry (decl_id decl) ∧
        (ladder_anchored ∈ standsOn decl → visit_reaches registry decl)) ∨
       ∃ row, row ∈ declared ∧ gap_invariant row = decl_id decl ∧
         (¬ is_reported registry (decl_id decl) → gap_kind row = gap_none)).
Proof.
  intros Hr. destruct (menderRegistry_wf _ _ _ Hr) as (Hwf & Hall & _).
  destruct (deriveGaps_spec registry Hwf) as (gaps & Hg & Hgaps). exists gaps. split; [done|].
  pose proof (undeclaredGaps_nil gaps declared) as Hug. rewrite undeclaredInvariants_nil, <- Hall.
  split; intros [H1 H2]; split; try done.
  - intros decl Hdecl. destruct (declaration_gap registry Hwf decl Hdecl) as [[kind Hk]|?]; [|by left].
    right. pose proof (proj1 Hug H1 (mkGap (decl_id decl) kind)) as (row & Hrow & Hc).
    { apply Hgaps. by exists decl. }
    apply covers_true in Hc as [Hid Hc]. exists row. split_and!; [done..|]. intros Hn. cbn in Hc.
    destruct kind; [by destruct Hc|]. by destruct Hk.
  - apply Hug. intros [id kind] (decl & Hdecl & Hid & Hk)%Hgaps. cbn in Hid, Hk. subst id.
    setoid_rewrite covers_true. destruct (H2 decl Hdecl) as [[Hr' Hv]|(row & Hrow & Hid & Hn)].
    + destruct kind; [done|]. destruct Hk as (_ & ? & Hk). by destruct Hk; auto.
    + exists row. split_and!; [done..|]. destruct kind; [right; auto|by left].
Qed.

(** A table of one detector, which no transient visit can reach. *)
Lemma audit_is_exact_witness :
  let decl := mkDeclaration "inbox-is-drained" [ladder_anchored] account [encounter] [] "drain" None false in
  let site : RegistrationSite () () := mkSite 0 encounter ["inbox-is-drained"] None (Some [remembered]) None in
  ∃ registry, menderRegistry [decl] [site] = Ok registry ∧
    deriveGaps registry = Ok [mkGap "inbox-is-drained" gap_unreachable].
Proof.
  intros decl site.
  destruct (menderRegistry [decl] [site]) as [registry|] eqn:Hr; [|by vm_compute in Hr].
  destruct (audit_is_exact [decl] [site] registry [] Hr) as (gaps & Hg & _).
  exists registry. split; [done|]. rewrite Hg. vm_compute in Hr. injection Hr as <-.
  vm_compute in Hg. by injection Hg as <-.
Defined.
