(* ===== verification/AccountDocument.v ===== *)
(** * The account document

    [src/src/resourceLog/document.ts], the reading conventions every reader
    of an account document shares, and [src/src/webvh/mergeMethods.ts], the
    one merge every entry builder that adds methods goes through. How a
    relation resolves and which key a member names are the resource-log
    library's: they are the operations of [DocumentReaders], and what the
    code relies on of them is [DocumentReadersLaws]. *)

From S2P Require Import Prelude Json.

(** ** Documents *)

Record ResolvedKeyAgreementMethod := mkMethod {
  method_id : option string;
  method_type : option string;
  method_controller : option string;
  publicKeyMultibase : option string;
  publicKeyCommitment : option string;
  ladderCommitment : option string
}.

#[export] Instance ResolvedKeyAgreementMethod_eq_dec : EqDecision ResolvedKeyAgreementMethod.
Proof. solve_decision. Defined.

(** [string | { id?: string }]. *)
Inductive RelationEntry :=
  | Reference (id : string)
  | Embedded (method : ResolvedKeyAgreementMethod).

#[export] Instance RelationEntry_eq_dec : EqDecision RelationEntry.
Proof. solve_decision. Defined.

Inductive DocumentRelation :=
  | authentication | assertionMethod | keyAgreement | capabilityInvocation | capabilityDelegation.

#[export] Instance DocumentRelation_eq_dec : EqDecision DocumentRelation.
Proof. solve_decision. Defined.

Record AccountDocument := mkDocument {
  document_id : string;
  verificationMethod : option (list ResolvedKeyAgreementMethod);
  relationOf : DocumentRelation → option (list RelationEntry);
  doc_service : option (list members)
}.

(** [{}], of an entry that carries no document. *)
Definition empty_document : AccountDocument := mkDocument "" None (λ _, None) None.

(** ** The library's relation readers *)

Class DocumentReaders := {
  RelationMember : Type;
  memberId : RelationMember → option string;
  relationIds : option (list RelationEntry) → list string;
  resolvedRelationMethods : AccountDocument → DocumentRelation → list ResolvedKeyAgreementMethod;
  relationMembers : AccountDocument → DocumentRelation → list RelationMember;
  memberKeyMultibase : RelationMember → option string;
  relationKeysInOrder : AccountDocument → DocumentRelation → list string
}.

(** The library's [Set]: its members in order, or as a set. *)
Definition relationKeyMultibases `{!DocumentReaders} (doc : AccountDocument) (relation : DocumentRelation) : gset string :=
  list_to_set (relationKeysInOrder doc relation).

(** The members are the entries: their ids are the relation's, and the
    relation's keys are its members'. A member's key is the key of a method
    the document publishes for it. *)
Class DocumentReadersLaws `{!DocumentReaders} : Prop := {
  relationIds_members doc relation id :
    id ∈ relationIds (relationOf doc relation) ↔
    ∃ member, member ∈ relationMembers doc relation ∧ memberId member = Some id;
  relationKeys_members doc relation key :
    key ∈ relationKeyMultibases doc relation ↔
    ∃ member, member ∈ relationMembers doc relation ∧ memberKeyMultibase member = Some key
}.

Section readers.
Context {readers : DocumentReaders}.

Definition resolvedKeyAgreementMethods (doc : AccountDocument) : list ResolvedKeyAgreementMethod :=
  resolvedRelationMethods doc keyAgreement.

Definition credentialKeyAgreementMethods (doc : AccountDocument) (did : string) :
    list ResolvedKeyAgreementMethod :=
  filter (λ method, method_controller method = Some did) (resolvedKeyAgreementMethods doc).

(** The credential methods of a document that may be absent. *)
Definition credentialIds (doc : option AccountDocument) (did : string) : list (option string) :=
  method_id <$> (match doc with Some doc => credentialKeyAgreementMethods doc did | None => [] end).

Definition introducedCredentialKeys (doc : AccountDocument) (prevDoc : option AccountDocument)
    (did : string) : list string :=
  filter (λ id, Some id ∉ credentialIds prevDoc did) (omap id (credentialIds (Some doc) did)).

Definition retiredCredentialKeys (doc : AccountDocument) (prevDoc : option AccountDocument)
    (did : string) : list string :=
  filter (λ id, Some id ∉ credentialIds (Some doc) did) (omap id (credentialIds prevDoc did)).

(** A delegation member the document does not also invoke. *)
Definition ladderVmIds (doc : AccountDocument) : list string :=
  filter (λ id, id ∉ relationIds (relationOf doc capabilityInvocation))
    (relationIds (relationOf doc capabilityDelegation)).

Definition ladderVmMethods (doc : AccountDocument) : list ResolvedKeyAgreementMethod :=
  filter (λ method, match method_id method with
                    | Some id => bool_decide (id ∈ ladderVmIds doc)
                    | None => false
                    end = true)
    (resolvedRelationMethods doc capabilityDelegation).

Definition enrolledClientKeyMultibases (doc : AccountDocument) : gset string :=
  relationKeyMultibases doc capabilityInvocation.

(** The key a recognized ladder member names. *)
Definition ladderMemberKey (doc : AccountDocument) (member : RelationMember) : option string :=
  match memberId member with
  | Some id => if decide (id ∈ ladderVmIds doc) then memberKeyMultibase member else None
  | None => None
  end.

Definition ladderVmKeyMultibases (doc : AccountDocument) : gset string :=
  list_to_set (omap (ladderMemberKey doc) (relationMembers doc capabilityDelegation)).

(** ** The merge of new methods *)

Record Merged := mkMerged {
  verificationMethods : list ResolvedKeyAgreementMethod;
  merged_relation : DocumentRelation → list string
}.

(** [id !== undefined && retire(id)]. *)
Definition retired (retire : string → bool) (id : option string) : bool :=
  match id with Some id => retire id | None => false end.

Definition withReferences (retire : string → bool) (relation : option (list RelationEntry))
    (ids : option (list string)) : list string :=
  js_dedup (filter (λ id, retire id = false) (relationIds relation) ++ default [] ids).

(** [retire] defaults to retiring nothing. *)
Definition mergeVerificationMethods (doc : AccountDocument) (methods : list ResolvedKeyAgreementMethod)
    (relations : DocumentRelation → option (list string)) (retire : option (string → bool)) : Merged :=
  let retire := default (λ _, false) retire in
  mkMerged
    (filter (λ method, retired retire (method_id method) = false ∧
       method_id method ∉ (method_id <$> methods)) (default [] (verificationMethod doc)) ++ methods)
    (λ relation, withReferences retire (relationOf doc relation) (relations relation)).

(** The merge publishes every given method, once under its id, in place of
    any the document had there; it keeps every other method the predicate
    spares; and each relation lists its spared references and the given ids,
    each once. *)
Lemma merge_spec doc methods relations retire :
  let merged := mergeVerificationMethods doc methods relations retire in
  let retire := default (λ _, false) retire in
  (∀ method, method ∈ verificationMethods merged ↔
     method ∈ methods ∨
     (method ∈ default [] (verificationMethod doc) ∧ retired retire (method_id method) = false ∧
      method_id method ∉ (method_id <$> methods))) ∧
  (∀ relation, NoDup (merged_relation merged relation) ∧
     ∀ id, id ∈ merged_relation merged relation ↔
       (id ∈ relationIds (relationOf doc relation) ∧ retire id = false) ∨
       id ∈ default [] (relations relation)).
Proof.
  cbn. split.
  - intros method. rewrite elem_of_app, list_elem_of_filter. tauto.
  - intros relation. unfold withReferences. split; [apply NoDup_js_dedup|]. intros id.
    rewrite elem_of_js_dedup, elem_of_app, list_elem_of_filter. tauto.
Qed.

(** ** What recognition guarantees *)

Context {laws : DocumentReadersLaws}.

(** A ladder id is a delegation member's and no invocation member's. *)
Lemma elem_of_ladderVmIds doc id :
  id ∈ ladderVmIds doc ↔
  (∃ member, member ∈ relationMembers doc capabilityDelegation ∧ memberId member = Some id) ∧
  ¬ ∃ member, member ∈ relationMembers doc capabilityInvocation ∧ memberId member = Some id.
Proof. unfold ladderVmIds. rewrite list_elem_of_filter, !relationIds_members. tauto. Qed.

Lemma elem_of_ladderKeys doc key :
  key ∈ ladderVmKeyMultibases doc ↔
  ∃ member id, member ∈ relationMembers doc capabilityDelegation ∧ memberId member = Some id ∧
    memberKeyMultibase member = Some key ∧
    ¬ ∃ client, client ∈ relationMembers doc capabilityInvocation ∧ memberId client = Some id.
Proof.
  unfold ladderVmKeyMultibases. rewrite elem_of_list_to_set, list_elem_of_omap.
  unfold ladderMemberKey. split.
  - intros (member & Hm & Hk). destruct (memberId member) as [id|] eqn:Hid; [|done].
    case_decide as Hl; [|done]. apply elem_of_ladderVmIds in Hl as [_ Hn]. eauto 10.
  - intros (member & id & Hm & Hid & Hk & Hn). exists member. split; [done|].
    rewrite Hid, decide_True; [done|]. apply elem_of_ladderVmIds. eauto.
Qed.

(** The two key classes are disjoint wherever one key is published under one
    id. *)
Lemma key_classes_disjoint doc :
  (∀ m m' key, m ∈ relationMembers doc capabilityDelegation →
     m' ∈ relationMembers doc capabilityInvocation →
     memberKeyMultibase m = Some key → memberKeyMultibase m' = Some key → memberId m = memberId m') →
  ladderVmKeyMultibases doc ## enrolledClientKeyMultibases doc.
Proof.
  intros Hone key Hl Hc. apply elem_of_ladderKeys in Hl as (m & id & Hm & Hid & Hk & Hn).
  unfold enrolledClientKeyMultibases in Hc. apply relationKeys_members in Hc as (m' & Hm' & Hk').
  destruct Hn. exists m'. split; [done|]. rewrite <- Hid. symmetry. by eapply Hone.
Qed.
End readers.
