(* ===== verification/LadderRungs.v ===== *)
(** * Ladder-rung attribution

    [src/src/resourceLog/ladderRungs.ts]: which update keys are rungs of which
    standing ladder, read from a verified account log alone. The did:webvh
    library's hash of an update key and the reading of a verification
    method's fragment are parameters. *)

From S2P Require Import Prelude AccountDocument.

(** ** Log entries *)

(** One entry of a did:webvh log: the members the code reads. A proof is its
    [verificationMethod]. *)
Record DIDLogEntry := mkEntry {
  versionId : string;
  versionTime : string;
  p_method : option string;
  p_scid : option string;
  p_updateKeys : option (list string);
  p_nextKeyHashes : option (list string);
  state : option AccountDocument;
  proof : option (list (option string))
}.

Class WebvhKeys := {
  deriveNextKeyHash : string → string;
  vmFragmentOf : string → option string
}.

Section attribution.
Context {readers : DocumentReaders} {keys : WebvhKeys}.

Definition entrySignerKeysOf (entry : option DIDLogEntry) : gset string :=
  list_to_set (omap (λ vm, vm ≫= vmFragmentOf) (default [] (entry ≫= proof))).

(** A [Map] in insertion order. *)
Definition LadderRungKeys : Type := list (string * gset string).

Definition ownerOfRung (rungsByLadder : LadderRungKeys) (key : string) : option string :=
  fst <$> (list_find (λ lr, key ∈ lr.2) rungsByLadder ≫= λ found, Some found.2).

Definition addedMembers (next : list string) (previous : gset string) : list string :=
  js_dedup (filter (λ member, member ∉ previous) next).

(** [rungsByLadder.set(owner, (rungsByLadder.get(owner) ?? new Set()).add(key))]. *)
Definition creditRung (owner key : string) (rungsByLadder : LadderRungKeys) : LadderRungKeys :=
  assoc_set owner ({[key]} ∪ default ∅ (assoc_get owner rungsByLadder)) rungsByLadder.

(** [rungsByLadder.delete(ladder)]. *)
Definition dropLadder (ladder : string) (rungsByLadder : LadderRungKeys) : LadderRungKeys :=
  filter (λ lr, lr.1 ≠ ladder) rungsByLadder.

(** ** The walk's state *)

Record Walk := mkWalk {
  rungsByLadder : LadderRungKeys;
  claims : gmap string (option string);
  refused : gset string;
  climbs : gmap string string;
  previousLadderKeys : gset string;
  previousClientKeys : gset string;
  previousUpdateKeys : gset string;
  previousNextKeyHashes : gset string;
  updateKeys : list string;
  nextKeyHashes : list string
}.

Definition start : Walk := mkWalk [] ∅ ∅ ∅ ∅ ∅ ∅ ∅ [] [].

(** What one entry is read for, against the walk so far. *)
Record EntryReading := mkReading {
  r_updateKeys : list string;
  r_nextKeyHashes : list string;
  ladderKeys : gset string;
  clientKeys : gset string;
  introduced : list string;
  addedKeys : list string;
  addedHashes : list string;
  introducedClients : list string;
  signers : gset string
}.

Definition readEntry (w : Walk) (entry : DIDLogEntry) : EntryReading :=
  let updateKeys := default (updateKeys w) (p_updateKeys entry) in
  let nextKeyHashes := default (nextKeyHashes w) (p_nextKeyHashes entry) in
  let doc := default empty_document (state entry) in
  let ladderKeys := ladderVmKeyMultibases doc in
  let clientKeys := enrolledClientKeyMultibases doc in
  mkReading updateKeys nextKeyHashes ladderKeys clientKeys
    (addedMembers (elements ladderKeys) (previousLadderKeys w))
    (addedMembers updateKeys (previousUpdateKeys w))
    (addedMembers nextKeyHashes (previousNextKeyHashes w))
    (addedMembers (elements clientKeys) (previousClientKeys w))
    (entrySignerKeysOf (Some entry)).

(** The part of the walk the credits change. *)
Record Credits := mkCredits {
  c_rungs : LadderRungKeys;
  c_claims : gmap string (option string);
  c_refused : gset string;
  c_climbs : gmap string string
}.

(** A claimed hash whose pre-image the entry authorizes: the claim is spent
    whether or not it names a ladder. *)
Definition resolveClaim (c : Credits) (key : string) : Credits :=
  let hash := deriveNextKeyHash key in
  match c_claims c !! hash with
  | None => c
  | Some owner =>
      let rungs := match owner with
                   | Some owner => if decide (owner ∉ c_refused c) then creditRung owner key (c_rungs c)
                                   else c_rungs c
                   | None => c_rungs c
                   end in
      mkCredits rungs (delete hash (c_claims c)) (c_refused c) (c_climbs c)
  end.

(** [addedKeys.length === 1 ? addedKeys[0] : undefined]. *)
Definition revealedRung (e : EntryReading) : option string :=
  match addedKeys e with [key] => Some key | _ => None end.

(** The revealed rung, when it signed the entry. *)
Definition selfSigned (e : EntryReading) : option string :=
  match revealedRung e with
  | Some key => if decide (key ∈ signers e) then Some key else None
  | None => None
  end.

Definition climb (e : EntryReading) (c : Credits) : Credits :=
  match selfSigned e with
  | None => c
  | Some key =>
      let hash := deriveNextKeyHash key in
      let rungs := match c_climbs c !! hash with
                   | Some owner =>
                       if decide (owner ∉ c_refused c ∧ owner ∈ ladderKeys e ∧
                                  is_Some (assoc_get owner (c_rungs c)))
                       then creditRung owner key (c_rungs c) else c_rungs c
                   | None => c_rungs c
                   end in
      mkCredits rungs (c_claims c) (c_refused c) (delete hash (c_climbs c))
  end.

(** The ladder that holds the revealed key, once claims and climb have
    credited it. *)
Definition revealedOwner (e : EntryReading) (c : Credits) : option string :=
  revealedRung e ≫= ownerOfRung (c_rungs c).

(** The commitment arm: the one hash the entry commits is claimed for the
    ladder, a second claimant retiring the claim; anything else refuses the
    ladder. *)
Definition commitsRungZero (e : EntryReading) (c : Credits) : option string :=
  match addedHashes e with
  | [hash] => if decide (addedKeys e = [] ∨ revealedOwner e c ≠ None) then Some hash else None
  | _ => None
  end.

(** Rung 0 revealed outright, owned by no ladder and not a client's. *)
Definition revealsOwnRungZero (e : EntryReading) (c : Credits) : option string :=
  if decide (revealedOwner e c = None ∧ introducedClients e = []) then selfSigned e else None.

(** An entry that introduces one ladder: anchored on its own revealed key, on
    the one hash it commits, or refused. The hash claimed is returned. *)
Definition introduceOne (e : EntryReading) (c : Credits) (ladderKey : string) : Credits * option string :=
  let rungs := dropLadder ladderKey (c_rungs c) in
  let refused := c_refused c ∖ {[ladderKey]} in
  match revealsOwnRungZero e c, commitsRungZero e c with
  | Some revealed, _ =>
      (mkCredits (assoc_set ladderKey {[revealed]} rungs) (c_claims c) refused (c_climbs c), None)
  | None, Some hash =>
      (mkCredits rungs
         (<[hash := match c_claims c !! hash with Some _ => None | None => Some ladderKey end]> (c_claims c))
         refused (c_climbs c), Some hash)
  | None, None => (mkCredits rungs (c_claims c) ({[ladderKey]} ∪ refused) (c_climbs c), None)
  end.

(** Ladders introduced beside one another are all refused. *)
Definition refuseAll (ladders : list string) (c : Credits) : Credits :=
  mkCredits (foldl (λ m ladder, dropLadder ladder m) (c_rungs c) ladders) (c_claims c)
    (c_refused c ∪ list_to_set ladders) (c_climbs c).

Definition introduce (e : EntryReading) (c : Credits) : Credits * option string :=
  match introduced e with
  | [] => (c, None)
  | [ladderKey] => introduceOne e c ladderKey
  | ladders => (refuseAll ladders c, None)
  end.

(** The last newly committed hash, recorded against the ladder whose rung
    authorized and signed the entry. *)
Definition stageClimb (e : EntryReading) (claimedHere : option string) (c : Credits) : Credits :=
  match selfSigned e with
  | None => c
  | Some key =>
      match ownerOfRung (c_rungs c) key, last (addedHashes e) with
      | Some ladder, Some hash =>
          if decide (Some hash ≠ claimedHere) then
            mkCredits (c_rungs c) (c_claims c) (c_refused c) (<[hash := ladder]> (c_climbs c))
          else c
      | _, _ => c
      end
  end.

Definition credit (e : EntryReading) (c : Credits) : Credits :=
  let c := foldl resolveClaim c (addedKeys e) in
  let '(c, claimedHere) := introduce e (climb e c) in
  stageClimb e claimedHere c.

(** The rungs the version still authorizes, or that signed its entry. *)
Definition snapshotOf (e : EntryReading) (rungs : LadderRungKeys) : LadderRungKeys :=
  filter (λ lr, lr.2 ≠ ∅)
    ((λ lr, (lr.1, filter (λ rung, rung ∈ r_updateKeys e ∨ rung ∈ signers e) lr.2)) <$> rungs).

Definition creditsOf (w : Walk) : Credits := mkCredits (rungsByLadder w) (claims w) (refused w) (climbs w).

Definition walkEntry (w : Walk) (entry : DIDLogEntry) : Walk * LadderRungKeys :=
  let e := readEntry w entry in
  let c := credit e (creditsOf w) in
  (mkWalk (c_rungs c) (c_claims c) (c_refused c) (c_climbs c)
     (ladderKeys e) (clientKeys e) (list_to_set (r_updateKeys e)) (list_to_set (r_nextKeyHashes e))
     (r_updateKeys e) (r_nextKeyHashes e),
   snapshotOf e (c_rungs c)).

Fixpoint walkLog (w : Walk) (log : list DIDLogEntry) : list LadderRungKeys :=
  match log with
  | [] => []
  | entry :: log => let '(w, snapshot) := walkEntry w entry in snapshot :: walkLog w log
  end.

Definition attributeLadderRungsPerVersion (log : list DIDLogEntry) : list LadderRungKeys := walkLog start log.
End attribution.

(** * What a ladder rung is

    The rules of attribution stated over the log, with no walk: the keys and
    hashes in force after a prefix, what an entry adds, and the three ways a
    key becomes a rung. The walk of [LadderRungs] attributes nothing else. *)

Section provenance.
Context {readers : DocumentReaders} {keys : WebvhKeys}.
Variable log : list DIDLogEntry.

(** The parameter in force after the first [n] entries: the last one set. *)
Definition in_force (param : DIDLogEntry → option (list string)) (n : nat) : list string :=
  default [] (last (omap param (take n log))).

Definition document_at (i : nat) : AccountDocument :=
  default empty_document ((log !! i) ≫= state).

(** The keys of a class after the first [n] entries. *)
Definition class_at (class : AccountDocument → gset string) (n : nat) : gset string :=
  match n with 0 => ∅ | S i => class (document_at i) end.

(** What entry [i] adds to a parameter, in its order. *)
Definition adds (param : DIDLogEntry → option (list string)) (i : nat) : list string :=
  addedMembers (in_force param (S i)) (list_to_set (in_force param i)).

Definition signed_by (i : nat) (key : string) : Prop := key ∈ entrySignerKeysOf (log !! i).

(** Entry [i] reveals [key]: it authorizes that one new key, which signed
    it. *)
Definition reveals (i : nat) (key : string) : Prop :=
  adds p_updateKeys i = [key] ∧ signed_by i key.

(** Entry [i] introduces [ladder] and no other. *)
Definition binds (i : nat) (ladder : string) : Prop :=
  ladder ∈ class_at ladderVmKeyMultibases (S i) ∧ ladder ∉ class_at ladderVmKeyMultibases i ∧
  ∀ other, other ∈ class_at ladderVmKeyMultibases (S i) → other ∉ class_at ladderVmKeyMultibases i →
    other = ladder.

(** Entry [i] publishes no enrolled client it did not already. *)
Definition grows_no_client (i : nat) : Prop :=
  class_at enrolledClientKeyMultibases (S i) ⊆ class_at enrolledClientKeyMultibases i.

(** [rung ladder key i]: entry [i] makes [key] a rung of [ladder].
    - anchored outright, by the entry that introduces the ladder alone and
      reveals the key, growing no client;
    - anchored on a commitment, by an entry that authorizes the pre-image of
      the one hash committed where the ladder was introduced alone;
    - climbed onto, by an entry that reveals the pre-image of the hash a rung
      of the ladder committed last in the entry that revealed it, the ladder
      still standing. *)
Inductive rung (ladder : string) : string → nat → Prop :=
  | rung_anchored i key : binds i ladder → reveals i key → grows_no_client i → rung ladder key i
  | rung_committed i j key : binds j ladder → adds p_nextKeyHashes j = [deriveNextKeyHash key] →
      j < i → key ∈ adds p_updateKeys i → rung ladder key i
  | rung_climbed i j key prev k : rung ladder prev k → k ≤ j → reveals j prev →
      last (adds p_nextKeyHashes j) = Some (deriveNextKeyHash key) → j < i →
      reveals i key → ladder ∈ class_at ladderVmKeyMultibases (S i) → rung ladder key i.

(** ** The walk keeps to the rules *)

Definition justified (n : nat) (ladder key : string) : Prop := ∃ i, i < n ∧ rung ladder key i.

(** Entry [i] introduces the ladder, alone or beside others. *)
Definition introduces (i : nat) (ladder : string) : Prop :=
  ladder ∈ class_at ladderVmKeyMultibases (S i) ∧ ladder ∉ class_at ladderVmKeyMultibases i.

(** The ladder was last introduced, within the first [n] entries, beside
    another. *)
Definition ambiguous (n : nat) (ladder : string) : Prop :=
  ∃ i other, i < n ∧ introduces i ladder ∧ introduces i other ∧ other ≠ ladder ∧
    ∀ j, i < j → j < n → ¬ introduces j ladder.

(** What the credits may hold: rungs of the first [n] entries, and claims and
    climbs of the first [m]. *)
Record sound (n m : nat) (c : Credits) : Prop := {
  sound_unique : NoDup (c_rungs c).*1;
  sound_rungs ladder rungs key : (ladder, rungs) ∈ c_rungs c → key ∈ rungs → justified n ladder key;
  sound_claims hash ladder : c_claims c !! hash = Some (Some ladder) →
    ∃ j, j < m ∧ binds j ladder ∧ adds p_nextKeyHashes j = [hash];
  sound_climbs hash ladder : c_climbs c !! hash = Some ladder →
    ∃ j k prev, j < m ∧ k ≤ j ∧ rung ladder prev k ∧ reveals j prev ∧ last (adds p_nextKeyHashes j) = Some hash;
  sound_refused ladder : ladder ∈ c_refused c → ladder ∉ (c_rungs c).*1
}.

(** What the walk carries from entry to entry. *)
Definition carries (n : nat) (w : Walk) : Prop :=
  updateKeys w = in_force p_updateKeys n ∧ nextKeyHashes w = in_force p_nextKeyHashes n ∧
  previousUpdateKeys w = list_to_set (in_force p_updateKeys n) ∧
  previousNextKeyHashes w = list_to_set (in_force p_nextKeyHashes n) ∧
  previousLadderKeys w = class_at ladderVmKeyMultibases n ∧
  previousClientKeys w = class_at enrolledClientKeyMultibases n.

(** The reading of entry [i]. *)
Record reads_entry (i : nat) (e : EntryReading) : Prop := {
  reads_update : r_updateKeys e = in_force p_updateKeys (S i);
  reads_hashes : r_nextKeyHashes e = in_force p_nextKeyHashes (S i);
  reads_ladders : ladderKeys e = class_at ladderVmKeyMultibases (S i);
  reads_clients : clientKeys e = class_at enrolledClientKeyMultibases (S i);
  reads_introduced : introduced e = addedMembers (elements (class_at ladderVmKeyMultibases (S i)))
    (class_at ladderVmKeyMultibases i);
  reads_added : addedKeys e = adds p_updateKeys i;
  reads_added_hashes : addedHashes e = adds p_nextKeyHashes i;
  reads_new_clients : introducedClients e =
    addedMembers (elements (class_at enrolledClientKeyMultibases (S i))) (class_at enrolledClientKeyMultibases i);
  reads_signers : signers e = entrySignerKeysOf (log !! i)
}.

Lemma in_force_step param n entry : log !! n = Some entry →
  in_force param (S n) = default (in_force param n) (param entry).
Proof.
  intros Hn. unfold in_force. rewrite (take_S_r _ _ _ Hn), omap_app. cbn.
  destruct (param entry); [by rewrite last_snoc|by rewrite app_nil_r].
Qed.

Lemma readEntry_reads n w entry : log !! n = Some entry → carries n w → reads_entry n (readEntry w entry).
Proof.
  intros Hn (Hu & Hh & Hpu & Hph & Hpl & Hpc).
  assert (document_at n = default empty_document (state entry)) as Hdoc by by unfold document_at; rewrite Hn.
  unfold readEntry. rewrite Hu, Hh, Hpu, Hph, Hpl, Hpc.
  constructor; cbn; rewrite ?Hdoc, ?Hn; unfold adds; by rewrite ?(in_force_step _ _ _ Hn).
Qed.

Lemma elem_of_addedMembers next previous x : x ∈ addedMembers next previous ↔ x ∈ next ∧ x ∉ previous.
Proof. unfold addedMembers. rewrite elem_of_js_dedup, list_elem_of_filter. tauto. Qed.

Section entry.
Context (i : nat) (e : EntryReading) (He : reads_entry i e).

Lemma introduced_binds ladder : introduced e = [ladder] → binds i ladder.
Proof.
  rewrite (reads_introduced _ _ He). intros Heq.
  assert (∀ x, x ∈ class_at ladderVmKeyMultibases (S i) ∧ x ∉ class_at ladderVmKeyMultibases i ↔ x = ladder) as H.
  { intros x. rewrite <- list_elem_of_singleton, <- Heq, elem_of_addedMembers, elem_of_elements. done. }
  unfold binds. naive_solver.
Qed.

Lemma selfSigned_reveals key : selfSigned e = Some key → reveals i key.
Proof.
  unfold selfSigned, revealedRung, reveals, signed_by.
  rewrite <- (reads_added _ _ He), <- (reads_signers _ _ He).
  destruct (addedKeys e) as [|x [|]]; [done| |done]. case_decide; [|done]. by intros [= ->].
Qed.

Lemma introduces_no_client : introducedClients e = [] → grows_no_client i.
Proof.
  rewrite (reads_new_clients _ _ He). intros Hnil x Hx.
  destruct (decide (x ∈ class_at enrolledClientKeyMultibases i)); [done|].
  assert (x ∈ addedMembers (elements (class_at enrolledClientKeyMultibases (S i)))
    (class_at enrolledClientKeyMultibases i)) as Hin by (rewrite elem_of_addedMembers, elem_of_elements; done).
  rewrite Hnil in Hin. by apply elem_of_nil in Hin.
Qed.
End entry.

Lemma justified_mono n m ladder key : justified n ladder key → n ≤ m → justified m ladder key.
Proof. intros (i & ? & ?) ?. exists i. split; [lia|done]. Qed.

Lemma sound_mono n m n' m' c : sound n m c → n ≤ n' → m ≤ m' → sound n' m' c.
Proof.
  intros [Hu Hr Hcl Hcm Hrf] Hn Hm. constructor; [done|..|done].
  - intros. eapply justified_mono; [by eapply Hr|done].
  - intros hash ladder H. destruct (Hcl _ _ H) as (j & ? & ?). exists j. split; [lia|done].
  - intros hash ladder H. destruct (Hcm _ _ H) as (j & k & prev & ? & ?). exists j, k, prev. split; [lia|done].
Qed.

Lemma fst_assoc_set {V} (k : string) (v : V) m x : x ∈ (assoc_set k v m).*1 ↔ x = k ∨ x ∈ m.*1.
Proof.
  induction m as [|[k' v'] m IH]; cbn; [set_solver|]. case_decide as Hk; cbn.
  - subst. rewrite elem_of_cons. naive_solver.
  - rewrite !elem_of_cons, IH. naive_solver.
Qed.

Lemma NoDup_assoc_set {V} (k : string) (v : V) m : NoDup m.*1 → NoDup (assoc_set k v m).*1.
Proof.
  induction m as [|[k' v'] m IH]; cbn; intros Hnd; [constructor; [set_solver|constructor]|].
  apply NoDup_cons in Hnd as [Hk' Hnd]. case_decide; cbn; constructor; auto.
  rewrite fst_assoc_set. naive_solver.
Qed.

Lemma elem_of_assoc_set {V} (k : string) (v : V) m x y : NoDup m.*1 →
  (x, y) ∈ assoc_set k v m → (x = k ∧ y = v) ∨ (x ≠ k ∧ (x, y) ∈ m).
Proof.
  induction m as [|[k' v'] m IH]; cbn; intros Hnd.
  - intros [= -> ->]%list_elem_of_singleton. auto.
  - apply NoDup_cons in Hnd as [Hk' Hnd]. case_decide as Hk; rewrite !elem_of_cons.
    + subst. intros [[= -> ->]|Hin]; [auto|]. right. split; [|auto]. intros ->.
      destruct Hk'. by apply (list_elem_of_fmap_2 fst) in Hin.
    + intros [[= -> ->]|Hin]; [auto|]. destruct (IH Hnd Hin) as [?|[? ?]]; auto.
Qed.

Lemma assoc_get_of_elem {V} (k : string) (v : V) m : NoDup m.*1 → (k, v) ∈ m → assoc_get k m = Some v.
Proof.
  induction m as [|[k' v'] m IH]; cbn; intros Hnd; [by intros ?%elem_of_nil|].
  apply NoDup_cons in Hnd as [Hk' Hnd]. rewrite elem_of_cons. intros [[= -> ->]|Hin]; [by rewrite decide_True|].
  rewrite decide_False; [auto|]. intros ->. destruct Hk'. by apply (list_elem_of_fmap_2 fst) in Hin.
Qed.

(** Crediting a justified key to a ladder that is not refused. *)
Lemma creditRung_sound n m c ladder key :
  sound n m c → justified n ladder key → ladder ∉ c_refused c →
  sound n m (mkCredits (creditRung ladder key (c_rungs c)) (c_claims c) (c_refused c) (c_climbs c)).
Proof.
  intros [Hu Hr Hcl Hcm Hrf] Hj Hn. constructor; cbn; [by apply NoDup_assoc_set| |done|done|].
  - intros l rungs k Hin Hk. unfold creditRung in Hin.
    apply elem_of_assoc_set in Hin as [[-> ->]|[_ Hin]]; [|by eapply Hr|done].
    apply elem_of_union in Hk as [->%elem_of_singleton|Hk]; [done|].
    destruct (assoc_get ladder (c_rungs c)) as [old|] eqn:Ha; [|set_solver].
    apply assoc_get_elem in Ha. by eapply Hr.
  - intros l Hl. unfold creditRung. rewrite fst_assoc_set. intros [->|Hin]; [done|]. by eapply Hrf.
Qed.

(** The claims and climbs may shrink. *)
Lemma sound_shrink n m c claims climbs :
  sound n m c → claims ⊆ c_claims c → climbs ⊆ c_climbs c →
  sound n m (mkCredits (c_rungs c) claims (c_refused c) climbs).
Proof.
  intros [Hu Hr Hcl Hcm Hrf] Hs1 Hs2. constructor; cbn; [done..| | |done]; intros hash ladder H.
  - apply Hcl. by eapply lookup_weaken.
  - apply Hcm. by eapply lookup_weaken.
Qed.

Lemma elem_of_dropLadder ladder m x (y : gset string) : (x, y) ∈ dropLadder ladder m ↔ x ≠ ladder ∧ (x, y) ∈ m.
Proof. unfold dropLadder. by rewrite list_elem_of_filter. Qed.

Lemma fst_dropLadder ladder m x : x ∈ (dropLadder ladder m).*1 ↔ x ≠ ladder ∧ x ∈ m.*1.
Proof.
  rewrite !list_elem_of_fmap.
  split.
  - intros ([a b] & -> & [? ?]%elem_of_dropLadder). eauto.
  - intros (Hx & [a b] & -> & Hin). exists (a, b). split; [done|]. by apply elem_of_dropLadder.
Qed.

Lemma dropLadder_sound n m c ladder :
  sound n m c →
  sound n m (mkCredits (dropLadder ladder (c_rungs c)) (c_claims c) ({[ladder]} ∪ c_refused c) (c_climbs c)).
Proof.
  intros [Hu Hr Hcl Hcm Hrf]. constructor; cbn; [by apply NoDup_fmap_filter| |done|done|].
  - intros l rungs key [_ Hin]%elem_of_dropLadder. by eapply Hr.
  - intros l Hl. rewrite fst_dropLadder. intros [Hne Hin]. apply elem_of_union in Hl as [?%elem_of_singleton|Hl]; [done|].
    by eapply Hrf.
Qed.

(** Fewer refusals are sound too. *)
Lemma sound_forgive n m c refused : sound n m c → refused ⊆ c_refused c →
  sound n m (mkCredits (c_rungs c) (c_claims c) refused (c_climbs c)).
Proof. intros [Hu Hr Hcl Hcm Hrf] Hs. constructor; cbn; [done..|]. intros l Hl. apply Hrf. set_solver. Qed.

(** A ladder dropped and anchored afresh. *)
Lemma anchor_sound n m c ladder key :
  sound n m c → ladder ∉ (c_rungs c).*1 → justified n ladder key →
  sound n m (mkCredits (assoc_set ladder {[key]} (c_rungs c)) (c_claims c) (c_refused c ∖ {[ladder]}) (c_climbs c)).
Proof.
  intros [Hu Hr Hcl Hcm Hrf] Hn Hj. constructor; cbn; [by apply NoDup_assoc_set| |done|done|].
  - intros l rungs k Hin Hk. apply elem_of_assoc_set in Hin as [[-> ->]|[_ Hin]]; [|by eapply Hr|done].
    by apply elem_of_singleton in Hk as ->.
  - intros l Hl. rewrite fst_assoc_set. intros [->|Hin]; [set_solver|]. apply (Hrf l); [set_solver|done].
Qed.

Section credit.
Context (i : nat) (e : EntryReading) (He : reads_entry i e).

Lemma resolveClaim_sound c key : key ∈ adds p_updateKeys i → sound (S i) i c → sound (S i) i (resolveClaim c key).
Proof.
  intros Hkey Hc. unfold resolveClaim. destruct (c_claims c !! _) as [owner|] eqn:Hcl; [|done].
  destruct owner as [owner|]; [case_decide as Hrf|].
  2,3: apply sound_shrink; [done|apply delete_subseteq|done].
  destruct (sound_claims _ _ _ Hc _ _ Hcl) as (j & Hj & Hb & Ha).
  apply (sound_shrink (S i) i (mkCredits (creditRung owner key (c_rungs c)) (c_claims c) (c_refused c) (c_climbs c)));
    [|apply delete_subseteq|done].
  apply creditRung_sound; [done| |done]. exists i. split; [lia|]. by eapply rung_committed.
Qed.

Lemma resolveClaims_sound ks c : (∀ key, key ∈ ks → key ∈ adds p_updateKeys i) → sound (S i) i c →
  sound (S i) i (foldl resolveClaim c ks).
Proof.
  revert c. induction ks as [|key ks IH]; intros c Hks Hc; [done|]. cbn. apply IH; [set_solver|].
  apply resolveClaim_sound; [set_solver|done].
Qed.

Lemma climb_sound c : sound (S i) i c → sound (S i) i (climb e c).
Proof.
  intros Hc. unfold climb. destruct (selfSigned e) as [key|] eqn:Hs; [|done].
  apply (selfSigned_reveals i e He) in Hs.
  destruct (c_climbs c !! _) as [owner|] eqn:Hcm; [case_decide as Hg|].
  2,3: apply sound_shrink; [done|done|apply delete_subseteq].
  destruct Hg as (Hrf & Hl & _). destruct (sound_climbs _ _ _ Hc _ _ Hcm) as (j & k & prev & Hj & Hk & Hr & Hv & Hlast).
  apply (sound_shrink (S i) i (mkCredits (creditRung owner key (c_rungs c)) (c_claims c) (c_refused c) (c_climbs c)));
    [|done|apply delete_subseteq].
  apply creditRung_sound; [done| |done]. exists i. split; [lia|].
  eapply rung_climbed; [done..|]. by rewrite <- (reads_ladders _ _ He).
Qed.

Lemma introduceOne_sound c ladder : introduced e = [ladder] → sound (S i) i c →
  sound (S i) (S i) (introduceOne e c ladder).1.
Proof.
  intros Hi Hc. pose proof (introduced_binds i e He ladder Hi) as Hb.
  pose proof (dropLadder_sound (S i) i c ladder Hc) as Hd.
  assert (sound (S i) (S i) (mkCredits (dropLadder ladder (c_rungs c)) (c_claims c)
    ({[ladder]} ∪ c_refused c ∖ {[ladder]}) (c_climbs c))) as Hre.
  { eapply sound_mono; [|done|by apply Nat.le_succ_diag_r]. eapply (sound_forgive _ _ _ _ Hd). cbn. set_solver. }
  unfold introduceOne.
  destruct (revealsOwnRungZero e c) as [key|] eqn:Hrev; [|destruct (commitsRungZero e c) as [hash|] eqn:Hcom; [|done]].
  - unfold revealsOwnRungZero in Hrev. case_decide as Hg; [|done]. destruct Hg as [_ Hcl].
    apply (selfSigned_reveals i e He) in Hrev. apply (introduces_no_client i e He) in Hcl. cbn.
    assert (justified (S i) ladder key) as Hj by (exists i; split; [lia|by eapply rung_anchored]).
    apply (anchor_sound _ _ _ ladder key) in Hre; [|cbn; rewrite fst_dropLadder; tauto|done]. eapply (sound_forgive _ _ _ _ Hre). cbn. set_solver.
  - pose proof (sound_forgive _ _ _ (c_refused c ∖ {[ladder]}) Hre ltac:(cbn; set_solver)) as [Hu Hr Hcl Hcm Hrf].
    constructor; [done|done| |done|done]. cbn in *. intros h l Hl.
    apply lookup_insert_Some in Hl as [[<- Hl]|[_ Hl]]; [|by apply Hcl].
    destruct (c_claims c !! hash); [done|]. injection Hl as <-. exists i. split; [lia|]. split; [done|].
    rewrite <- (reads_added_hashes _ _ He). unfold commitsRungZero in Hcom.
    destruct (addedHashes e) as [|h [|]]; [done| |done]. case_decide; [|done]. by injection Hcom as ->.
Qed.

Lemma refuseAll_sound ladders c : sound (S i) i c → sound (S i) (S i) (refuseAll ladders c).
Proof.
  intros Hc. apply (sound_mono _ _ (S i) (S i)) in Hc; [|lia..]. unfold refuseAll.
  cut (∀ refused, sound (S i) (S i) (mkCredits (c_rungs c) (c_claims c) refused (c_climbs c)) →
    sound (S i) (S i) (mkCredits (foldl (λ m ladder, dropLadder ladder m) (c_rungs c) ladders) (c_claims c)
      (refused ∪ list_to_set ladders) (c_climbs c))).
  { intros H. apply H. by destruct c. }
  generalize (c_rungs c). induction ladders as [|l ladders IH]; intros rungs refused Hs; cbn.
  - eapply (sound_forgive _ _ _ _ Hs). cbn. set_solver.
  - apply (dropLadder_sound _ _ _ l) in Hs. cbn in Hs. apply IH in Hs.
    eapply (sound_forgive _ _ _ _ Hs). cbn. set_solver.
Qed.

Lemma introduce_sound c : sound (S i) i c → sound (S i) (S i) (introduce e c).1.
Proof.
  intros Hc. unfold introduce. destruct (introduced e) as [|ladder [|other ladders]] eqn:Hi.
  - eapply sound_mono; [done|lia..].
  - by apply introduceOne_sound.
  - by apply refuseAll_sound.
Qed.

Lemma ownerOfRung_elem m ladder key : ownerOfRung m key = Some ladder → ∃ rungs, (ladder, rungs) ∈ m ∧ key ∈ rungs.
Proof.
  unfold ownerOfRung. destruct (list_find _ m) as [[n [l rungs]]|] eqn:Hf; [|done]. cbn. intros [= <-].
  apply list_find_Some in Hf as (Hn & Hk & _). exists rungs. split; [by eapply list_elem_of_lookup_2|done].
Qed.

Lemma stageClimb_sound claimedHere c : sound (S i) (S i) c → sound (S i) (S i) (stageClimb e claimedHere c).
Proof.
  intros Hc. unfold stageClimb. destruct (selfSigned e) as [key|] eqn:Hs; [|done].
  apply (selfSigned_reveals i e He) in Hs.
  destruct (ownerOfRung (c_rungs c) key) as [ladder|] eqn:Ho; [|done].
  destruct (last (addedHashes e)) as [hash|] eqn:Hl; [|done]. case_decide; [|done].
  destruct Hc as [Hu Hr Hcl Hcm Hrf]. constructor; [done|done|done| |done]. cbn. intros h l Hh.
  apply lookup_insert_Some in Hh as [[<- <-]|[_ Hh]]; [|by apply Hcm].
  apply ownerOfRung_elem in Ho as (rungs & Hin & Hk). destruct (Hr _ _ _ Hin Hk) as (k & Hlt & Hrung).
  exists i, k, key. split; [lia|]. split; [lia|]. split; [done|]. split; [done|].
  by rewrite <- (reads_added_hashes _ _ He).
Qed.

Lemma credit_sound c : sound i i c → sound (S i) (S i) (credit e c).
Proof.
  intros Hc. unfold credit.
  assert (sound (S i) i (climb e (foldl resolveClaim c (addedKeys e)))) as Hc1.
  { apply climb_sound, resolveClaims_sound; [by rewrite (reads_added _ _ He)|]. eapply sound_mono; [done|lia..]. }
  apply introduce_sound in Hc1. destruct (introduce e _) as [c2 claimedHere]. by apply stageClimb_sound.
Qed.
End credit.

(** ** Refused ladders stay refused *)

Lemma resolveClaims_refused ks c : c_refused (foldl resolveClaim c ks) = c_refused c.
Proof.
  revert c. induction ks as [|key ks IH]; intros c; [done|]. cbn. rewrite IH. unfold resolveClaim.
  by destruct (c_claims c !! _).
Qed.

Lemma climb_refused e c : c_refused (climb e c) = c_refused c.
Proof. unfold climb. by destruct (selfSigned e). Qed.

Lemma stageClimb_refused e claimedHere c : c_refused (stageClimb e claimedHere c) = c_refused c.
Proof. unfold stageClimb. by repeat (case_match; try done). Qed.

Lemma introduces_elem i e ladder : reads_entry i e → ladder ∈ introduced e ↔ introduces i ladder.
Proof. intros He. rewrite (reads_introduced _ _ He), elem_of_addedMembers, elem_of_elements. done. Qed.

Lemma credit_refuses i e c ladder : reads_entry i e →
  (∀ l, ambiguous i l → l ∈ c_refused c) → ambiguous (S i) ladder → ladder ∈ c_refused (credit e c).
Proof.
  intros He Hc (j & other & Hj & Hl & Ho & Hne & Hno).
  unfold credit. set (c1 := climb e _).
  assert (c_refused c1 = c_refused c) as Hc1 by by unfold c1; rewrite climb_refused, resolveClaims_refused.
  destruct (introduce e c1) as [c2 claimedHere] eqn:Hi. rewrite stageClimb_refused.
  assert (c2 = (introduce e c1).1) as -> by by rewrite Hi. clear Hi. unfold introduce.
  destruct (decide (j = i)) as [->|Hji].
  - apply (introduces_elem i e _ He) in Hl, Ho.
    destruct (introduced e) as [|x [|y l]]; [set_solver|set_solver|]. cbn. set_solver.
  - assert (ladder ∈ c_refused c) as Hin.
    { apply Hc. exists j, other. split_and!; [lia|done..|]. intros k ? ?. apply Hno; lia. }
    assert (ladder ∉ introduced e) as Hni by (rewrite (introduces_elem i e _ He); apply Hno; lia).
    destruct (introduced e) as [|x [|y l]]; cbn; [set_solver| |set_solver].
    unfold introduceOne. destruct (revealsOwnRungZero e c1); [cbn; set_solver|].
    destruct (commitsRungZero e c1); cbn; set_solver.
Qed.

(** ** The walk *)

Record walked (n : nat) (w : Walk) : Prop := {
  walked_carries : carries n w;
  walked_sound : sound n n (creditsOf w);
  walked_refused ladder : ambiguous n ladder → ladder ∈ refused w
}.

Lemma start_walked : walked 0 start.
Proof.
  constructor.
  - by repeat split.
  - constructor; cbn; [constructor|set_solver|set_solver|set_solver|set_solver].
  - intros ladder (i & _ & Hi & _). lia.
Qed.

(** What a version's snapshot may name. *)
Definition justified_snapshot (i : nat) (snapshot : LadderRungKeys) : Prop :=
  ∀ ladder rungs, (ladder, rungs) ∈ snapshot →
    rungs ≠ ∅ ∧ ¬ ambiguous (S i) ladder ∧
    ∀ key, key ∈ rungs →
      (∃ j, j ≤ i ∧ rung ladder key j) ∧ (key ∈ in_force p_updateKeys (S i) ∨ signed_by i key).

Lemma walkEntry_walked n w entry : log !! n = Some entry → walked n w →
  walked (S n) (walkEntry w entry).1 ∧ justified_snapshot n (walkEntry w entry).2.
Proof.
  intros Hn [Hca Hs Hrf]. pose proof (readEntry_reads n w entry Hn Hca) as He.
  unfold walkEntry. revert He. generalize (readEntry w entry). intros e He. cbn.
  pose proof (credit_sound n e He _ Hs) as Hs'.
  pose proof (λ ladder, credit_refuses n e (creditsOf w) ladder He Hrf) as Hrf'. split.
  - constructor; cbn; [|by destruct (credit e (creditsOf w))|done].
    destruct He as [-> -> -> ->]. done.
  - intros ladder rungs (Hne & ([l rs] & [= -> ->] & Hin)%list_elem_of_fmap)%list_elem_of_filter. cbn in Hne.
    split; [done|]. split.
    + intros Hamb. apply Hrf' in Hamb. apply (sound_refused _ _ _ Hs' l Hamb).
      by apply (list_elem_of_fmap_2 fst) in Hin.
    + intros key [Hkey Hk]%elem_of_filter. split.
      * destruct (sound_rungs _ _ _ Hs' _ _ _ Hin Hk) as (j & ? & ?). exists j. split; [lia|done].
      * destruct He as [<- _ _ _ _ _ _ _ Hsg]. unfold signed_by. by rewrite <- Hsg.
Qed.

Lemma walkLog_justified n w rest : drop n log = rest → walked n w →
  length (walkLog w rest) = length rest ∧
  ∀ i snapshot, walkLog w rest !! i = Some snapshot → justified_snapshot (n + i) snapshot.
Proof.
  revert n w. induction rest as [|entry rest IH]; intros n w Hrest Hw; [done|]. cbn [walkLog].
  assert (log !! n = Some entry) as Hn by by rewrite <- (Nat.add_0_r n), <- lookup_drop, Hrest.
  destruct (walkEntry_walked n w entry Hn Hw) as [Hw' Hsnap].
  destruct (walkEntry w entry) as [w' snap]. cbn [fst snd length] in *.
  destruct (IH (S n) w') as [Hlen Hall]; [by rewrite <- Nat.add_1_r, <- drop_drop, Hrest|done|].
  split; [by rewrite Hlen|]. intros [|i] snapshot Hi; cbn in Hi.
  - injection Hi as <-. by rewrite Nat.add_0_r.
  - apply Hall in Hi. by rewrite <- Nat.add_succ_comm.
Qed.
End provenance.

