(* ===== verification/ResourceController.v ===== *)
(** * The controller view and the ceremony-tail license

    [src/src/resourceLog/controller.ts], [license.ts] and [logClass.ts]: the
    view of a verified account log a governed resource log is checked
    against, and the rule on which appends a ladder key may sign. *)

From Stdlib Require Ascii.
From S2P Require Import Prelude AccountDocument LadderRungs.

(** ** Inventories *)

Record ControllerInventory := mkInventory {
  inv_ladderKeys : gset string;
  inventoryKeys : gset string;
  enrolledClientKeys : gset string;
  entrySignerKeys : gset string;
  ladderRungKeys : LadderRungKeys
}.

Definition ResourceLogIntegrityError (msg : string) : js_error := JsError "ResourceLogIntegrityError" msg.
Definition ResourceLogLicenseError (msg : string) : js_error := JsError "ResourceLogLicenseError" msg.

Section controller.
Context {readers : DocumentReaders} {keys : WebvhKeys}.

(** A credential method's key material: the commitment, or else the key. *)
Definition inventoryKey (method : ResolvedKeyAgreementMethod) : option string :=
  match publicKeyCommitment method with
  | Some commitment => Some commitment
  | None => publicKeyMultibase method
  end.

(** S(V): the credential key material and the ladder keys. *)
Definition inventoryKeysOf (did : string) (doc : AccountDocument) : gset string :=
  ladderVmKeyMultibases doc ∪ list_to_set (omap inventoryKey (credentialKeyAgreementMethods doc did)).

(** Without the rung attribution, which the view computes on demand. *)
Definition inventoryOf (did : string) (doc : AccountDocument) (entry : DIDLogEntry) : ControllerInventory :=
  mkInventory (ladderVmKeyMultibases doc) (inventoryKeysOf did doc) (enrolledClientKeyMultibases doc)
    (entrySignerKeysOf (Some entry)) [].

Definition with_rungs (inventory : ControllerInventory) (rungs : LadderRungKeys) : ControllerInventory :=
  mkInventory (inv_ladderKeys inventory) (inventoryKeys inventory) (enrolledClientKeys inventory)
    (entrySignerKeys inventory) rungs.

(** ** The license *)

(** [setsEqual]: equal sizes, and every member of one in the other. *)
Definition setsEqual (left right : gset string) : bool :=
  bool_decide (size left = size right) && forallb (λ member, bool_decide (member ∈ right)) (elements left).

(** What the license reads of a controller view. *)
Record LicenseView := mkLicenseView {
  versionIds : list string;
  inventoryAt : option string → result ControllerInventory
}.

(** The version at an index, in range. *)
Definition versionAt (controller : LicenseView) (i : Z) : option string := versionIds controller !! Z.to_nat i.

(** [controllerVersionIndex === null || < 0 || >= controller.versionIds.length]. *)
Definition versionMissing (controller : LicenseView) (i : option Z) : bool :=
  match i with
  | None => true
  | Some i => bool_decide (i < 0)%Z || bool_decide (Z.of_nat (length (versionIds controller)) ≤ i)%Z
  end.

(** [signedByOwnLadder]: a rung the log attributes to the appending ladder
    signed the version's entry. *)
Definition signedByOwnLadder (inventory : ControllerInventory) (ladderProofKeys : list string) : bool :=
  match ladderProofKeys with
  | [] => false
  | key :: _ => bool_decide (default ∅ (assoc_get key (ladderRungKeys inventory)) ∩
                             entrySignerKeys inventory ≠ ∅)
  end.

(** [headControllerVersionIndex !== null && headControllerVersionIndex >= controllerVersionIndex]. *)
Definition alreadyCarried (head : option Z) (i : Z) : bool :=
  match head with Some head => bool_decide (i ≤ head)%Z | None => false end.

Definition assertLadderAppendLicensed (controller : LicenseView)
    (controllerVersionIndex headControllerVersionIndex : option Z) (proofKeys : list string) : result () :=
  if versionMissing controller controllerVersionIndex then
    mthrow (ResourceLogLicenseError
      "A ladder-signed append past the genesis entry cannot be licensed without a controller document version to license against.")
  else
    let i := default 0%Z controllerVersionIndex in
    inventory ← inventoryAt controller (versionAt controller i);
    let ladderProofKeys := filter (λ key, key ∈ inv_ladderKeys inventory) proofKeys in
    if bool_decide (1 < length ladderProofKeys) then
      mthrow (ResourceLogLicenseError "The append carries more than one ladder-signed proof (at most one ladder key may sign an entry, so a co-signing ladder key cannot spend the one-shot twice).")
    else
      previous ← if bool_decide (i = 0%Z) then Ok None
                 else (inventory ← inventoryAt controller (versionAt controller (i - 1)); Ok (Some inventory));
      let inventoryChanged := negb (setsEqual (inventoryKeys inventory) (from_option inventoryKeys ∅ previous)) in
      let clientSetChanged :=
        negb (setsEqual (enrolledClientKeys inventory) (from_option enrolledClientKeys ∅ previous)) in
      if negb inventoryChanged && negb (clientSetChanged && signedByOwnLadder inventory ladderProofKeys) then
        mthrow (ResourceLogLicenseError "The ladder-signed append carries a controller document version that neither changed the credential inventory nor changed the enrolled-client set under a rung of this ladder (a rotation against an unchanged document is never licensed).")
      else if alreadyCarried headControllerVersionIndex i then
        mthrow (ResourceLogLicenseError "The verified log head already carries an entry at or past this licensed document version (the license is one-shot).")
      else Ok ().

(** ** The view *)

(** The arguments of the admission hook. *)
Record AppendProof := mkProof {
  keyMultibase : string;
  controllerVersionId : option string;
  controllerVersionIndex : option Z;
  headControllerVersionIndex : option Z;
  proofKeys : list string
}.

Record WebvhResourceLogController := mkController {
  controller_did : string;
  controller_versions : list string;
  documentAt : option string → result AccountDocument;
  controller_inventoryAt : option string → result ControllerInventory;
  admitAppend : AppendProof → result ()
}.

Definition license_view (view : WebvhResourceLogController) : LicenseView :=
  mkLicenseView (controller_versions view) (controller_inventoryAt view).

(** What the construction reads off each entry: its version, its document,
    its inventory and its position. An entry without a document throws. *)
Record VersionRow := mkRow { row_doc : AccountDocument; row_inventory : ControllerInventory; row_position : nat }.

Fixpoint readRows (did : string) (position : nat) (log : list DIDLogEntry) (rows : gmap string VersionRow) :
    result (gmap string VersionRow) :=
  match log with
  | [] => Ok rows
  | entry :: log =>
      match state entry with
      | None => mthrow (JsError "TypeError" "Cannot read properties of undefined")
      | Some doc =>
          readRows did (S position) log (<[versionId entry := mkRow doc (inventoryOf did doc entry) position]> rows)
      end
  end.

Definition quoted (s : string) : string :=
  String (Ascii.ascii_of_nat 34) (s ++ String (Ascii.ascii_of_nat 34) EmptyString).
Definition versionRefusal (version : option string) : js_error :=
  ResourceLogIntegrityError ("The controller document did not resolve at version " ++
    quoted (default "<head>" version) ++ " (no document returned).").

(** The version asked for: [undefined] is the head's. *)
Definition resolvedVersion (log : list DIDLogEntry) (version : option string) : option string :=
  match version with Some version => Some version | None => versionId <$> last log end.

Definition lookupRow (log : list DIDLogEntry) (rows : gmap string VersionRow) (version : option string) :
    result VersionRow :=
  match resolvedVersion log version ≫= λ v, rows !! v with
  | Some row => Ok row
  | None => mthrow (versionRefusal version)
  end.

(** Ladder-signed appends meet the license; every other append is admitted. *)
Definition licensedAppend (view : LicenseView) (p : AppendProof) : result () :=
  inventory ← inventoryAt view (controllerVersionId p);
  if decide (keyMultibase p ∈ inv_ladderKeys inventory) then
    assertLadderAppendLicensed view (controllerVersionIndex p) (headControllerVersionIndex p) (proofKeys p)
  else Ok ().

Definition webvhResourceLogController (did : string) (log : list DIDLogEntry) : result WebvhResourceLogController :=
  rows ← readRows did 0 log ∅;
  let snapshots := attributeLadderRungsPerVersion log in
  let inventoryAt version :=
    row ← lookupRow log rows version;
    Ok (with_rungs (row_inventory row) (default [] (snapshots !! row_position row))) in
  let versions := versionId <$> log in
  Ok (mkController did versions
    (λ version, row ← lookupRow log rows version; Ok (row_doc row))
    inventoryAt
    (licensedAppend (mkLicenseView versions inventoryAt))).

(** ** The class dispatch *)

Inductive ResourceLogClass := user_key_roster | collection_descriptor | unknown_class (name : string).

Definition controllerForLogClass (controller : WebvhResourceLogController) (logClass : ResourceLogClass) :
    result WebvhResourceLogController :=
  match logClass with
  | user_key_roster => Ok controller
  | collection_descriptor =>
      Ok (mkController (controller_did controller) (controller_versions controller) (documentAt controller)
        (controller_inventoryAt controller) (λ _, Ok ()))
  | unknown_class name => mthrow (JsError "TypeError" ("Unknown resource-log class " ++ quoted name ++ "."))
  end.
End controller.

(** * What the ceremony-tail license guarantees

    Over a verified account log: what the controller view answers at each
    version, and what a user key roster log whose appends all passed the
    admission hook may hold. *)

Section license.
Context {readers : DocumentReaders} {keys : WebvhKeys}.
Variables (did : string) (log : list DIDLogEntry).

(** ** The view answers from the log *)

(** The inventory at entry [i], as the log states it. *)
Definition inventory_at (i : nat) : ControllerInventory :=
  mkInventory (class_at log ladderVmKeyMultibases (S i)) (class_at log (inventoryKeysOf did) (S i))
    (class_at log enrolledClientKeyMultibases (S i)) (entrySignerKeysOf (log !! i))
    (default [] (attributeLadderRungsPerVersion log !! i)).

Lemma readRows_keeps position rest rows rows' v row :
  readRows did position rest rows = Ok rows' → v ∉ versionId <$> rest → rows !! v = Some row → rows' !! v = Some row.
Proof.
  revert position rows. induction rest as [|entry rest IH]; intros position rows; cbn; [by intros [= ->]|].
  destruct (state entry) as [doc|]; [|done]. intros Hr Hv Hrow. apply (IH _ _ Hr); [set_solver|].
  rewrite lookup_insert_ne by set_solver. done.
Qed.

Lemma readRows_spec position rest rows rows' i entry :
  readRows did position rest rows = Ok rows' → NoDup (versionId <$> rest) → rest !! i = Some entry →
  ∃ doc, state entry = Some doc ∧
    rows' !! versionId entry = Some (mkRow doc (inventoryOf did doc entry) (position + i)).
Proof.
  revert position rows i. induction rest as [|entry' rest IH]; intros position rows i; cbn; [done|].
  destruct (state entry') as [doc|] eqn:Hdoc; [|done]. intros Hr [Hni Hnd]%NoDup_cons Hi.
  destruct i as [|i]; cbn in Hi.
  - injection Hi as ->. exists doc. split; [done|]. rewrite Nat.add_0_r.
    eapply readRows_keeps; [done|done|]. apply lookup_insert_eq.
  - destruct (IH _ _ _ Hr Hnd Hi) as (d & ? & ?). exists d. by rewrite Nat.add_succ_r.
Qed.

Context (view : WebvhResourceLogController).
Hypothesis Hview : webvhResourceLogController did log = Ok view.
Hypothesis Hversions : NoDup (versionId <$> log).

Lemma view_versions : controller_versions view = versionId <$> log.
Proof.
  unfold webvhResourceLogController in Hview. destruct (readRows _ _ _ _); [|done]. by injection Hview as <-.
Qed.

Lemma view_answers i entry version :
  log !! i = Some entry → resolvedVersion log version = Some (versionId entry) →
  controller_inventoryAt view version = Ok (inventory_at i).
Proof.
  intros Hi Hv. unfold webvhResourceLogController in Hview.
  destruct (readRows did 0 log ∅) as [rows|] eqn:Hr; [|done]. cbn in Hview. injection Hview as <-.
  destruct (readRows_spec _ _ _ _ _ _ Hr Hversions Hi) as (doc & Hdoc & Hrow).
  cbn. unfold lookupRow. rewrite Hv. cbn. rewrite Hrow. cbn. unfold inventory_at. cbn.
  assert (document_at log i = doc) as -> by by unfold document_at; rewrite Hi; cbn; rewrite Hdoc.
  by rewrite Hi.
Qed.

Lemma view_inventory i entry : log !! i = Some entry →
  controller_inventoryAt view (Some (versionId entry)) = Ok (inventory_at i).
Proof. intros Hi. by apply (view_answers i entry). Qed.

Lemma view_admits p : admitAppend view p = licensedAppend (license_view view) p.
Proof.
  unfold webvhResourceLogController in Hview. destruct (readRows _ _ _ _); [|done]. by injection Hview as <-.
Qed.

Lemma view_version i : versionAt (license_view view) (Z.of_nat i) = versionId <$> log !! i.
Proof. unfold versionAt. cbn. rewrite view_versions, Nat2Z.id, list_lookup_fmap. done. Qed.

(** ** One licensed append *)

Lemma setsEqual_true left right : setsEqual left right = true ↔ left = right.
Proof.
  unfold setsEqual. rewrite andb_true_iff, bool_decide_eq_true, forallb_forall. split.
  - intros [Hs Hm]. apply (set_eq (C:=gset string)).
    assert (left ⊆ right) as Hsub.
    { intros x Hx. specialize (Hm x). rewrite bool_decide_eq_true in Hm. apply Hm.
      by apply list_elem_of_In, elem_of_elements. }
    intros x. split; [apply Hsub|]. apply (set_subseteq_size_eq (C:=gset string)) in Hsub; [|lia].
    by rewrite Hsub.
  - intros ->. split; [done|]. intros x Hx. apply bool_decide_eq_true. by apply elem_of_elements, list_elem_of_In.
Qed.

(** The version's document changed the credential inventory, or changed the
    enrolled clients under a rung of this ladder. *)
Definition earns_shot (i : nat) (key : string) : Prop :=
  class_at log (inventoryKeysOf did) (S i) ≠ class_at log (inventoryKeysOf did) i ∨
  (class_at log enrolledClientKeyMultibases (S i) ≠ class_at log enrolledClientKeyMultibases i ∧
   ∃ key' j, j ≤ i ∧ rung log key key' j ∧ signed_by log i key').

Lemma previous_inventory (i : nat) (f : ControllerInventory → gset string) (class : AccountDocument → gset string)
    previous :
  i < length log → (∀ k, f (inventory_at k) = class_at log class (S k)) →
  (if bool_decide (Z.of_nat i = 0%Z) then Ok None
   else (inventory ← inventoryAt (license_view view) (versionAt (license_view view) (Z.of_nat i - 1));
         Ok (Some inventory))) = Ok previous →
  from_option f ∅ previous = class_at log class i.
Proof.
  intros Hlen Hf. case_bool_decide as Hi; [intros [= <-]; by destruct i|].
  destruct i as [|i]; [done|]. replace (Z.of_nat (S i) - 1)%Z with (Z.of_nat i) by lia.
  rewrite view_version. destruct (lookup_lt_is_Some_2 log i) as [entry He]; [lia|].
  rewrite He. cbn. rewrite (view_inventory _ _ He). cbn. intros [= <-]. apply Hf.
Qed.

Lemma licensed_append (i : nat) entry head pks key :
  log !! i = Some entry → key ∈ pks → key ∈ class_at log ladderVmKeyMultibases (S i) →
  admitAppend view (mkProof key (Some (versionId entry)) (Some (Z.of_nat i)) head pks) = Ok () →
  (∀ key', key' ∈ pks → key' ∈ class_at log ladderVmKeyMultibases (S i) → key' = key) ∧
  earns_shot i key ∧ (∀ h, head = Some h → (h < Z.of_nat i)%Z).
Proof.
  intros Hi Hk Hl. pose proof (lookup_lt_Some _ _ _ Hi) as Hlt.
  rewrite view_admits. unfold licensedAppend. cbn. rewrite (view_inventory _ _ Hi). cbn.
  rewrite decide_True by done. unfold assertLadderAppendLicensed. cbn.
  rewrite view_version, Hi. cbn. rewrite (view_inventory _ _ Hi). cbn.
  case_bool_decide as Hneg; [lia|]. rewrite bool_decide_eq_false_2; [|rewrite view_versions, length_fmap; lia]. cbn.
  set (ladderProofs := filter _ pks). case_bool_decide as Hone; [done|].
  assert (key ∈ ladderProofs) as Hkey by by apply list_elem_of_filter.
  assert (ladderProofs = [key]) as Hproofs.
  { destruct ladderProofs as [|k [|]]; [set_solver|set_solver|cbn in Hone; lia]. }
  rewrite result_bind_ok. intros (previous & Hprev & H).
  pose proof (previous_inventory i inventoryKeys (inventoryKeysOf did) previous Hlt ltac:(done) Hprev) as Hp1.
  pose proof (previous_inventory i enrolledClientKeys enrolledClientKeyMultibases previous Hlt ltac:(done) Hprev) as Hp2.
  rewrite Hp1, Hp2, Hproofs in H. clear Hprev Hp1 Hp2. split; [|split].
  - intros key' Hk' Hl'. assert (key' ∈ ladderProofs) as Hin by by apply list_elem_of_filter.
    rewrite Hproofs in Hin. by apply list_elem_of_singleton in Hin.
  - unfold earns_shot. cbn [class_at].
    destruct (negb (setsEqual (inventoryKeysOf did (document_at log i)) _)) eqn:Hic.
    { left. intros Heq. by rewrite (proj2 (setsEqual_true _ _) Heq) in Hic. }
    right. cbn [negb andb] in H.
    destruct (negb (setsEqual (enrolledClientKeyMultibases (document_at log i)) _)) eqn:Hcc; [|done].
    split; [intros Heq; by rewrite (proj2 (setsEqual_true _ _) Heq) in Hcc|].
    destruct (signedByOwnLadder _ [key]) eqn:Hs; [|done]. unfold signedByOwnLadder in Hs.
    apply bool_decide_eq_true, set_choose_L in Hs as [key' [Hr Hsig]%elem_of_intersection]. cbn in Hr, Hsig.
    destruct (attributeLadderRungsPerVersion log !! i) as [snapshot|] eqn:Hsnap; [|set_solver]. cbn in Hr.
    destruct (assoc_get key snapshot) as [rungs|] eqn:Ha; [|set_solver]. cbn in Hr.
    destruct (walkLog_justified log 0 start log eq_refl (start_walked log)) as [_ Hall].
    destruct (Hall i snapshot Hsnap key rungs (assoc_get_elem _ _ _ Ha)) as (_ & _ & Hrungs).
    destruct (Hrungs key' Hr) as [(j & ? & ?) _]. exists key', j. split_and!; [lia|done..].
  - intros h ->. destruct (negb _ && negb _); [done|]. cbn in H.
    unfold alreadyCarried in H. case_bool_decide; [done|lia].
Qed.

(** An append with no controller version is checked against the head, and a
    ladder key's is refused. *)
Lemma unversioned_append head pks key :
  key ∈ class_at log ladderVmKeyMultibases (length log) →
  admitAppend view (mkProof key None None head pks) ≠ Ok ().
Proof.
  intros Hl. rewrite view_admits. unfold licensedAppend. cbn [inventoryAt license_view controllerVersionId].
  rewrite result_bind_ok. intros (inventory & Hinv & H). revert H.
  assert (inv_ladderKeys inventory = class_at log ladderVmKeyMultibases (length log)) as Heq.
  { destruct (last log) as [entry|] eqn:Hlast.
    - assert (log !! (length log - 1) = Some entry) as Hi by (rewrite Nat.sub_1_r, <- last_lookup; exact Hlast).
      rewrite (view_answers _ _ _ Hi) in Hinv by (cbn; by rewrite Hlast). injection Hinv as <-.
      apply lookup_lt_Some in Hi. cbn. by replace (length log) with (S (length log - 1)) at 2 by lia.
    - unfold webvhResourceLogController in Hview. destruct (readRows _ _ _ _); [|done].
      injection Hview as <-. cbn in Hinv. unfold lookupRow in Hinv. cbn in Hinv. by rewrite Hlast in Hinv. }
  by rewrite decide_True by by rewrite Heq.
Qed.

(** ** A whole log *)

(** An append of the roster log: the position of the controller version it
    anchors at, and the keys of its proofs. *)
Record Append := mkAppend { append_version : option nat; append_keys : list string }.

(** The version the log's head stands at. *)
Definition head_version (h : list Append) : option nat := last (omap append_version h).

(** A log the library's verifier passed: the first entry is its creation;
    every other anchors at a version the controller has, no earlier than the
    head's, and passed the admission hook once per proof. *)
Inductive admitted : list Append → Prop :=
  | admitted_creation a : admitted [a]
  | admitted_extension h a : admitted h →
      (∀ v, append_version a = Some v → v < length log) →
      (∀ u v, head_version h = Some u → append_version a = Some v → u ≤ v) →
      (∀ key, key ∈ append_keys a → admitAppend view (mkProof key
         (append_version a ≫= λ v, versionId <$> log !! v) (Z.of_nat <$> append_version a)
         (Z.of_nat <$> head_version h) (append_keys a)) = Ok ()) →
      admitted (h ++ [a]).

(** A ladder key signed the append, at its version or, with none, at the
    head's. *)
Definition ladder_signed (a : Append) (key : string) : Prop :=
  key ∈ append_keys a ∧
  key ∈ class_at log ladderVmKeyMultibases (from_option S (length log) (append_version a)).

Lemma head_version_max h b u : admitted h → b ∈ h → append_version b = Some u →
  ∃ w, head_version h = Some w ∧ u ≤ w.
Proof.
  intros Hh. revert b u. induction Hh as [a|h a Hh IH Hr Hf _]; intros b u; unfold head_version in *.
  - intros ->%list_elem_of_singleton Hu. cbn. rewrite Hu. eauto.
  - rewrite omap_app. intros [Hb| ->%list_elem_of_singleton]%elem_of_app Hu; cbn.
    + destruct (IH b u Hb Hu) as (w & Hw & Hle). destruct (append_version a) as [v|] eqn:Hv.
      * rewrite last_snoc. exists v. split; [done|]. specialize (Hf w v Hw eq_refl). lia.
      * rewrite app_nil_r. eauto.
    + rewrite Hu, last_snoc. eauto.
Qed.

Lemma admitted_split h1 a h2 : admitted (h1 ++ a :: h2) → h1 ≠ [] →
  admitted h1 ∧ (∀ v, append_version a = Some v → v < length log) ∧
  ∀ key, key ∈ append_keys a → admitAppend view (mkProof key
    (append_version a ≫= λ v, versionId <$> log !! v) (Z.of_nat <$> append_version a)
    (Z.of_nat <$> head_version h1) (append_keys a)) = Ok ().
Proof.
  intros Hh Hne. remember (h1 ++ a :: h2) as h eqn:Heq. revert h2 Heq.
  induction Hh as [b|h b Hh IH Hr Hf Hk]; intros h2 Heq.
  - destruct h1 as [|c [|]]; done.
  - destruct (decide (h2 = [])) as [->|Hh2].
    + apply app_inj_tail in Heq as [-> ->]. done.
    + destruct (exists_last Hh2) as (h3 & c & ->). rewrite app_comm_cons, app_assoc in Heq.
      apply app_inj_tail in Heq as [-> _]. by apply (IH h3).
Qed.
End license.

(** C1: no ladder key can quietly rekey an account. In a user key roster log
    every entry of which passed the admission hook over a verified account
    log, every ladder-signed append past the first is signed by that one
    ladder alone, anchors at a document version that changed the credential
    inventory or changed the enrolled clients in an entry signed by a rung of
    that very ladder, and anchors strictly past every earlier append: a
    version is spent once, so while the account document stands still no
    ladder key can append at all. *)
Theorem ladder_appends_are_licensed {readers : DocumentReaders} {keys : WebvhKeys} did log view h1 a h2 key :
  webvhResourceLogController did log = Ok view → NoDup (versionId <$> log) →
  admitted log view (h1 ++ a :: h2) → h1 ≠ [] → ladder_signed log a key →
  ∃ v, append_version a = Some v ∧ v < length log ∧
    (∀ key', ladder_signed log a key' → key' = key) ∧
    earns_shot did log v key ∧
    ∀ b u, b ∈ h1 → append_version b = Some u → u < v.
Proof.
  intros Hview Hnd Hadm Hne [Hk Hl]. destruct (admitted_split _ _ _ _ _ Hadm Hne) as (Hh1 & Hr & Hadmit).
  specialize (Hadmit key Hk) as Hkey. unfold ladder_signed in *.
  destruct (append_version a) as [v|] eqn:Hv; cbn [from_option] in Hl |- *.
  2: { by apply (unversioned_append did log view Hview Hnd) in Hkey. }
  specialize (Hr v eq_refl). destruct (lookup_lt_is_Some_2 log v Hr) as [entry Hi].
  cbn in Hkey. rewrite Hi in Hkey. cbn in Hkey.
  destruct (licensed_append did log view Hview Hnd v entry _ _ key Hi Hk Hl Hkey) as (Hone & Hshot & Hhead).
  exists v. split_and!; [done|done| |done|].
  - intros key' [? ?]. by apply Hone.
  - intros b u Hb Hu. destruct (head_version_max log view h1 b u Hh1 Hb Hu) as (w & Hw & Hle).
    specialize (Hhead (Z.of_nat w)). rewrite Hw in Hhead. specialize (Hhead eq_refl). lia.
Qed.
