(* ===== verification/LadderDemo.v ===== *)
(** * Concrete account logs

    The library's readers over documents that embed their methods or name
    them, two account logs, and what attribution and the license say of
    them. *)

From S2P Require Import Prelude AccountDocument LadderRungs ResourceController.

Definition method_of (doc : AccountDocument) (entry : RelationEntry) : option ResolvedKeyAgreementMethod :=
  match entry with
  | Embedded method => Some method
  | Reference id => snd <$> list_find (λ m, method_id m = Some id) (default [] (verificationMethod doc))
  end.

Definition entry_id (entry : RelationEntry) : option string :=
  match entry with Embedded method => method_id method | Reference id => Some id end.

Definition entries_of (doc : AccountDocument) (relation : DocumentRelation) : list RelationEntry :=
  default [] (relationOf doc relation).

#[export] Instance demo_readers : DocumentReaders := {|
  RelationMember := option string * option string;
  memberId := fst;
  relationIds entries := omap entry_id (default [] entries);
  resolvedRelationMethods doc relation := omap (method_of doc) (entries_of doc relation);
  relationMembers doc relation :=
    (λ entry, (entry_id entry, method_of doc entry ≫= publicKeyMultibase)) <$> entries_of doc relation;
  memberKeyMultibase := snd;
  relationKeysInOrder doc relation :=
    omap (λ entry, method_of doc entry ≫= publicKeyMultibase) (entries_of doc relation)
|}.

#[export] Instance demo_laws : DocumentReadersLaws.
Proof.
  constructor; cbn; intros doc relation x.
  - fold (entries_of doc relation). rewrite list_elem_of_omap. split.
    + intros (entry & Hin & Hid). eexists. split; [by apply (list_elem_of_fmap_2 _ _ entry)|done].
    + intros (member & (entry & -> & Hin)%list_elem_of_fmap & Hid). eauto.
  - rewrite elem_of_list_to_set, list_elem_of_omap. split.
    + intros (entry & Hin & Hid). eexists. split; [by apply (list_elem_of_fmap_2 _ _ entry)|done].
    + intros (member & (entry & -> & Hin)%list_elem_of_fmap & Hid). eauto.
Qed.

#[export] Instance demo_keys : WebvhKeys := {|
  deriveNextKeyHash key := ("#" ++ key)%string;
  vmFragmentOf := Some
|}.

Definition key_method (id key : string) : ResolvedKeyAgreementMethod :=
  mkMethod (Some id) (Some "Multikey") None (Some key) None None.
Definition credential (id key : string) : ResolvedKeyAgreementMethod :=
  mkMethod (Some id) (Some "Multikey") (Some "did:account") (Some key) None None.

(** A document of enrolled clients, ladder VMs and credentials, by key. *)
Definition document (clients ladders credentials : list string) : AccountDocument :=
  mkDocument "did:account" None (λ relation, Some (match relation with
    | capabilityInvocation => (λ k, Embedded (key_method ("#" ++ k) k)) <$> clients
    | capabilityDelegation => (λ k, Embedded (key_method ("#" ++ k) k)) <$> (clients ++ ladders)
    | keyAgreement => (λ k, Embedded (credential ("#" ++ k) k)) <$> credentials
    | _ => []
    end)) None.

Definition log_entry (version : string) (signer : string) (updates hashes : list string) (doc : AccountDocument) :
    DIDLogEntry :=
  mkEntry version version None None (Some updates) (Some hashes) (Some doc) (Some [Some signer]).

(** A ladder-anchored genesis, and a passkey bound by the same ladder. *)
Definition account_log : list DIDLogEntry := [
  log_entry "1-a" "rung0" ["rung0"] ["#rung1"] (document [] ["ladder"] []);
  log_entry "2-b" "rung1" ["rung1"] ["#rung2"] (document [] ["ladder"] ["passkey"])
].

(** The genesis rung signed, and its successor was climbed onto. *)
Example climbs : attributeLadderRungsPerVersion account_log = [[("ladder", {["rung0"]})]; [("ladder", {["rung1"]})]].
Proof. vm_compute. reflexivity. Qed.

Lemma ladder_appends_are_licensed_witness :
  let a := mkAppend (Some 1) ["ladder"] in
  ∃ view, webvhResourceLogController "did:account" account_log = Ok view ∧
    admitted account_log view [mkAppend (Some 0) ["ladder"]; a] ∧
    ladder_signed account_log a "ladder" ∧ earns_shot "did:account" account_log 1 "ladder".
Proof.
  intros a.
  assert (∃ view, webvhResourceLogController "did:account" account_log = Ok view) as [view Hv] by (eexists; reflexivity).
  exists view. split; [exact Hv|].
  assert (NoDup (versionId <$> account_log)) as Hnd by (apply (bool_decide_unpack _); by vm_compute).
  assert (admitted account_log view [mkAppend (Some 0) ["ladder"]; a]) as Hadm.
  { apply (admitted_extension _ _ [mkAppend (Some 0) ["ladder"]]); [apply admitted_creation|cbn; intros v [= <-]; lia|
      cbn; intros u v [= <-] [= <-]; lia|].
    intros key ->%list_elem_of_singleton.
    assert (match webvhResourceLogController "did:account" account_log with
            | Ok view => admitAppend view (mkProof "ladder" (Some "2-b") (Some 1%Z) (Some 0%Z) ["ladder"])
            | Throw e => Throw e
            end = Ok ()) as Ha by (vm_compute; reflexivity).
    rewrite Hv in Ha. exact Ha. }
  assert (ladder_signed account_log a "ladder") as Hs.
  { split; [by apply list_elem_of_singleton|]. apply (bool_decide_unpack _). by vm_compute. }
  split; [exact Hadm|]. split; [exact Hs|].
  destruct (ladder_appends_are_licensed "did:account" account_log view [mkAppend (Some 0) ["ladder"]] a [] "ladder"
    Hv Hnd Hadm ltac:(done) Hs) as (v & [= <-] & _ & _ & Hshot & _).
  exact Hshot.
Defined.


(** A log that obeys prerotation (every key an entry authorizes is hashed in
    the entry before, and each entry is signed by a key it authorizes), in which ladder A's rung 0 is credited to
    ladder B too. B reveals [b2] and binds A on the hash of [a0]; it drops the
    hash and its own key; it reveals [b2] again, committing the hash of [a0]
    afresh; and [a0]'s entry then resolves the claim of A and the climb of
    B. *)
Definition contested_log : list DIDLogEntry := [
  log_entry "1" "b0" ["b0"] ["#b1"] (document [] ["B"] []);
  log_entry "2" "b1" ["b1"] ["#b1"; "#b2"] (document [] ["B"] []);
  log_entry "3" "b2" ["b1"; "b2"] ["#b1"; "#b2"; "#a0"] (document [] ["B"; "A"] []);
  log_entry "4" "b1" ["b1"] ["#b1"; "#b2"] (document [] ["B"; "A"] []);
  log_entry "5" "b2" ["b1"; "b2"] ["#b1"; "#b2"; "#a0"] (document [] ["B"; "A"] []);
  log_entry "6" "a0" ["b1"; "b2"; "a0"] [] (document ["client"] ["B"; "A"] [])
].

Definition last_rungs (ladder : string) : gset string :=
  default ∅ (assoc_get ladder (default [] (attributeLadderRungsPerVersion contested_log !! 5))).

Example one_rung_two_ladders : bool_decide ("a0" ∈ last_rungs "A" ∧ "a0" ∈ last_rungs "B") = true.
Proof. vm_compute. reflexivity. Qed.

(** The enrollment A's rung signed licenses an append by B. *)
Example other_ladder_licensed :
  match webvhResourceLogController "did:account" contested_log with
  | Ok view => admitAppend view (mkProof "B" (Some "6") (Some 5%Z) (Some 4%Z) ["B"])
  | Throw e => Throw e
  end = Ok ().
Proof. vm_compute. reflexivity. Qed.

(** One key under two ids is both an enrolled client's and a ladder's. *)
Definition twice_published : AccountDocument :=
  mkDocument "did:account" None (λ relation, match relation with
    | capabilityInvocation => Some [Embedded (key_method "#client" "k")]
    | capabilityDelegation => Some [Embedded (key_method "#other" "k")]
    | _ => None
    end) None.

Example key_classes_overlap :
  bool_decide ("k" ∈ ladderVmKeyMultibases twice_published ∧
               "k" ∈ enrolledClientKeyMultibases twice_published) = true.
Proof. vm_compute. reflexivity. Qed.
