(* ===== verification/AccountLog.v ===== *)
(** * The account's published log

    [src/src/webvh/verifyLog.ts], [src/src/webvh/builtOnHead.ts] and
    [src/src/webvh/logLocation.ts]: locating, fetching, resolving and
    checking the account's did:webvh log, and the chain-head pin that refuses
    a history behind the one already seen. The did:webvh library's parser,
    resolver and address functions, pws-client's path rules and the platform's
    [fetch] and [URL] are parameters. *)

From S2P Require Import Prelude Json JsText AccountDocument LadderRungs.

#[local] Open Scope Z_scope.

(** ** Numbers read from a version id *)

Definition digit_of (c : N) : option Z :=
  if between 48 57 c then Some (Z.of_N c - 48) else None.

Fixpoint read_digits (acc : option Z) (cs : list N) : option Z :=
  match cs with
  | c :: cs =>
      match digit_of c with
      | Some d => read_digits (Some (10 * default 0 acc + d)) cs
      | None => acc
      end
  | [] => acc
  end.

(** [Number.parseInt(text, 10)]: [None] is [NaN]. *)
Definition parseInt (text : string) : option Z :=
  match drop_spaces (code_points text) with
  | 45%N :: cs => Z.opp <$> read_digits None cs
  | 43%N :: cs => read_digits None cs
  | cs => read_digits None cs
  end.

(** The integers from here up round to [Infinity]. *)
Definition number_overflow : Z := 2 ^ 1024 - 2 ^ 970.

(** [Number.isInteger(n) && n >= 1], of a parsed number. *)
Definition as_ordinal (parsed : option Z) : option nat :=
  match parsed with
  | Some n => if decide (1 ≤ n < number_overflow) then Some (Z.to_nat n) else None
  | None => None
  end.

(** ** Locations *)

Definition DID_LOG_RESOURCE : string := "did.jsonl".
Definition ID_COLLECTION_id : string := "id".

Record LogLocation := mkLocation {
  logUrl : string;
  spaceUrl : string;
  spaceId : string;
  baseServerUrl : string;
  collectionId : string
}.

(** What the library and the storage client compute of a DID and a URL. *)
Class WebvhAddresses := {
  normalizeCreateDidAddress : string → string → list string → string → result string;
  SCID_PLACEHOLDER : string;
  getBaseUrl : string → result string;
  getFileUrl : string → result string;
  splitCollectionUrl : string → result (string * string);
  spaceIdOfUrl : string → result string;
  baseServerUrlOf : string → result string;
  resourceUrl : string → string → string → result string;
  resourceLogPinId : string → string → string → string;
  hrefOf : string → result string
}.

Section locations.
Context {addresses : WebvhAddresses}.

Definition didWebvhLogPaths (spaceId collectionId : string) : list string := ["space"; spaceId; collectionId].

Definition didWebvhControllerTemplate (baseServerUrl spaceId : string) (collectionId : option string) : result string :=
  normalizeCreateDidAddress baseServerUrl SCID_PLACEHOLDER
    (didWebvhLogPaths spaceId (default ID_COLLECTION_id collectionId)) "did:webvh controller template".

Definition didWebvhLogLocation (did : string) : result LogLocation :=
  base ← getBaseUrl did;
  '(spaceUrl, collectionId) ← splitCollectionUrl (base ++ "/");
  logUrl ← getFileUrl did;
  spaceId ← spaceIdOfUrl spaceUrl;
  baseServerUrl ← baseServerUrlOf spaceUrl;
  Ok (mkLocation logUrl spaceUrl spaceId baseServerUrl collectionId).

Definition accountLogUrl (spaceUrl : string) : result string :=
  resourceUrl spaceUrl ID_COLLECTION_id DID_LOG_RESOURCE.

Definition logResourcePinId (spaceId collectionId : string) : string :=
  resourceLogPinId spaceId collectionId DID_LOG_RESOURCE.

Definition accountLogPinId (spaceId : string) : string := logResourcePinId spaceId ID_COLLECTION_id.
End locations.

(** ** Resolution and pins *)

Abbreviation DIDLog := (list DIDLogEntry).

Record ResolutionMeta := mkMeta {
  meta_error : option string;
  meta_updateKeys : option (list string);
  meta_nextKeyHashes : option (list string)
}.

Record Resolution := mkResolution {
  resolved_did : option string;
  resolved_doc : option AccountDocument;
  resolved_meta : ResolutionMeta
}.

Class WebvhResolver := {
  readLogFromString : string → result DIDLog;
  resolveDIDFromLog : DIDLog → result Resolution
}.

Record PublishedWebvhLog := mkPublished {
  pub_log : DIDLog;
  pub_did : string;
  pub_doc : AccountDocument;
  pub_updateKeys : list string;
  pub_nextKeyHashes : list string;
  pub_meta : ResolutionMeta;
  pub_etag : option string
}.

Record VerifiedAccountLog := mkVerified {
  ver_doc : AccountDocument;
  ver_log : DIDLog;
  ver_updateKeys : list string;
  ver_nextKeyHashes : list string;
  ver_meta : ResolutionMeta
}.

Record ResourceLogHeadPin := mkPin { pin_method : string; pin_scid : string; pin_head : string }.
#[export] Instance ResourceLogHeadPin_eq_dec : EqDecision ResourceLogHeadPin.
Proof. solve_decision. Defined.

Record ResourceLogPinStore (W : Type) := mkPinStore {
  pin_read : string → comp W (option ResourceLogHeadPin);
  pin_write : string → ResourceLogHeadPin → comp W ()
}.
Arguments mkPinStore {W}.
Arguments pin_read {W}.
Arguments pin_write {W}.

Definition plain_error (msg : string) : js_error := JsError "Error" msg.
Definition ResourceLogContinuityError (reason : string) : js_error := JsError "ResourceLogContinuityError" reason.
Definition AccountLogMissingError : js_error :=
  JsError "AccountLogMissingError" "The account has no published DID log.".

Definition assertPublishedLogDid (published : PublishedWebvhLog) (expectedDid : option string) :
    result PublishedWebvhLog :=
  match expectedDid with
  | Some did =>
      if decide (pub_did published = did) then Ok published
      else mthrow (plain_error ("did:webvh: the published did.jsonl resolves to a different DID (" ++
        pub_did published ++ ") than expected (" ++ did ++ ")."))
  | None => Ok published
  end.

(** The pin a log establishes. *)
Definition head_pin (genesis head : DIDLogEntry) : ResourceLogHeadPin :=
  mkPin (default "" (p_method genesis)) (default "" (p_scid genesis)) (versionId head).

Definition checkAgainstPin (log : DIDLog) (served pin : ResourceLogHeadPin) : result () :=
  if decide (pin_method pin ≠ pin_method served) then mthrow (ResourceLogContinuityError "method-switch")
  else if decide (pin_scid pin ≠ pin_scid served) then mthrow (ResourceLogContinuityError "scid-switch")
  else match as_ordinal (parseInt (pin_head pin)) with
       | None => mthrow (ResourceLogContinuityError "fork")
       | Some ordinal =>
           match log !! (ordinal - 1)%nat with
           | None => mthrow (ResourceLogContinuityError "rollback")
           | Some entry =>
               if decide (versionId entry = pin_head pin) then Ok ()
               else mthrow (ResourceLogContinuityError "fork")
           end
       end.

Definition checkAccountLogContinuity (log : DIDLog) (pin : option ResourceLogHeadPin) : result ResourceLogHeadPin :=
  match head log, last log with
  | Some genesis, Some head =>
      let served := head_pin genesis head in
      _ ← (match pin with Some pin => checkAgainstPin log served pin | None => Ok () end);
      Ok served
  | _, _ => mthrow (plain_error "The account DID log is empty.")
  end.

(** ** Reading *)

(** A [fetch] response. *)
Record Response (W : Type) := mkResponse {
  status : Z;
  body_text : comp W string
}.
Arguments mkResponse {W}.
Arguments status {W}.
Arguments body_text {W}.

Section verify.
Context {W : Type} {addresses : WebvhAddresses} {resolver : WebvhResolver}.
Variables (fetch : string → comp W (Response W)) (showZ : Z → string).
Implicit Types (pinStore : ResourceLogPinStore W).

Definition checkAndAdvanceAccountLogPin pinStore (logId : string) (log : DIDLog) : comp W () :=
  pin ← pin_read pinStore logId;
  served ← lift (checkAccountLogContinuity log pin);
  if decide (pin_head <$> pin = Some (pin_head served)) then mret ()
  else pin_write pinStore logId served.

Definition adoptAccountLog (published : PublishedWebvhLog) (spaceId : string) (expectedDid : option string)
    (pinStore : option (ResourceLogPinStore W)) : comp W PublishedWebvhLog :=
  lift (assertPublishedLogDid published expectedDid);;
  match pinStore with
  | Some pinStore => checkAndAdvanceAccountLogPin pinStore (accountLogPinId spaceId) (pub_log published)
  | None => mret ()
  end;;
  mret published.

(** A string that is there and not empty. *)
Definition truthy (s : option string) : option string :=
  match s with Some "" => None | s => s end.

(** The resolved head of a log, or the refusal of one that does not
    resolve. *)
Definition resolvedHead (log : DIDLog) (refusal : option string → js_error) (etag : option string) :
    result PublishedWebvhLog :=
  resolution ← resolveDIDFromLog log;
  let meta := resolved_meta resolution in
  match truthy (meta_error meta), truthy (resolved_did resolution), resolved_doc resolution with
  | None, Some did, Some doc =>
      Ok (mkPublished log did doc (default [] (meta_updateKeys meta)) (default [] (meta_nextKeyHashes meta)) meta etag)
  | _, _, _ => mthrow (refusal (meta_error meta))
  end.

Definition unresolvedLog (error : option string) : js_error :=
  plain_error ("The account's DID log failed to resolve (" ++
    default "the resolver returned no DID document" error ++ ").").

Definition readAccountLog (url : string) : comp W (PublishedWebvhLog * string) :=
  response ← fetch url;
  if decide (status response = 404) then mthrow AccountLogMissingError
  else if negb (bool_decide (200 ≤ status response ≤ 299)) then
    mthrow (plain_error ("Fetching the account's DID log failed (HTTP " ++ showZ (status response) ++ ")."))
  else
    text ← body_text response;
    log ← lift (readLogFromString text);
    published ← lift (resolvedHead log unresolvedLog None);
    location ← lift (didWebvhLogLocation (pub_did published));
    href ← lift (hrefOf url);
    if decide (logUrl location = href) then mret (published, spaceId location)
    else mthrow (plain_error ("did:webvh: the published did.jsonl resolves to " ++ pub_did published ++
      ", whose log location (" ++ logUrl location ++ ") is not where it was served from (" ++ url ++ ").")).

Definition verifiedAccountLogOf (published : PublishedWebvhLog) : VerifiedAccountLog :=
  mkVerified (pub_doc published) (pub_log published) (pub_updateKeys published) (pub_nextKeyHashes published)
    (pub_meta published).

Definition verifyAccountLog (did : string) (pinStore : option (ResourceLogPinStore W))
    (published : option PublishedWebvhLog) : comp W VerifiedAccountLog :=
  location ← lift (didWebvhLogLocation did);
  '(head, space) ← (match published with
                    | None => readAccountLog (logUrl location)
                    | Some published => mret (published, spaceId location)
                    end);
  adoptAccountLog head space (Some did) pinStore;;
  mret (verifiedAccountLogOf head).

Definition discoverAccountLog (spaceUrl : string) (pinStore : option (ResourceLogPinStore W)) :
    comp W PublishedWebvhLog :=
  url ← lift (accountLogUrl spaceUrl);
  '(head, space) ← readAccountLog url;
  adoptAccountLog head space None pinStore.
End verify.

(** ** Resume markers *)

Record BuiltOnHead := mkBuiltOn { bo_scid : string; bo_versionId : string }.

(** A non-empty string member of an object. *)
Definition nonempty_member (key : string) (o : members) : option string :=
  match get_member key o with
  | Some (JStr s) => if decide (s = "") then None else Some s
  | _ => None
  end.

(** [assertBuiltOnHeadShape]: the marker it accepts. An array is an object
    with neither member. *)
Definition assertBuiltOnHeadShape (builtOnHead : option json) : result BuiltOnHead :=
  let refusal := JsError "TypeError" "The resume marker (builtOnHead) must carry a non-empty scid and versionId; a marker that cannot be compared would resume with no fork guard at all." in
  match builtOnHead with
  | Some (JObj o) =>
      match nonempty_member "scid" o, nonempty_member "versionId" o with
      | Some scid, Some versionId => Ok (mkBuiltOn scid versionId)
      | _, _ => mthrow refusal
      end
  | _ => mthrow refusal
  end.

Definition BuiltOnHeadNotReachedError (built : BuiltOnHead) : js_error :=
  JsError "BuiltOnHeadNotReachedError" ("did:webvh: the served account log has not reached the head this resumed ceremony was built on (scid " ++
    bo_scid built ++ ", version " ++ bo_versionId built ++ "); the resume is refused rather than rebuilt over it.").

Definition assertBuiltOnHeadReached (log : DIDLog) (built : BuiltOnHead) : result () :=
  let genesisScid := default "" (head log ≫= p_scid) in
  let reached := existsb (λ entry, bool_decide (versionId entry = bo_versionId built)) log in
  if bool_decide (genesisScid = bo_scid built) && reached then Ok ()
  else mthrow (BuiltOnHeadNotReachedError built).

#[local] Close Scope Z_scope.

(** * What the chain-head pin guarantees

    A client that verifies its account log under one pin slot only ever moves
    forward: each log it accepts extends every log it accepted before. *)

Section pins.
Context {W : Type} {addresses : WebvhAddresses} {resolver : WebvhResolver}.

(** A log the library resolves. *)
Definition resolvable (log : DIDLog) : Prop :=
  ∃ resolution did doc, resolveDIDFromLog log = Ok resolution ∧
    truthy (meta_error (resolved_meta resolution)) = None ∧
    truthy (resolved_did resolution) = Some did ∧ resolved_doc resolution = Some doc.

(** What did:webvh resolution checks: an entry's version id opens with its
    position, and, by the hash chain, names the history up to it. *)
Class ChainLaws : Prop := {
  version_ordinal log n entry : resolvable log → log !! n = Some entry →
    as_ordinal (parseInt (versionId entry)) = Some (S n);
  version_binds log log' n entry entry' : resolvable log → resolvable log' →
    log !! n = Some entry → log' !! n = Some entry' → versionId entry = versionId entry' →
    take (S n) log = take (S n) log'
}.
Context {laws : ChainLaws}.

(** The pin a log that resolves establishes. *)
Definition pins (log : DIDLog) (pin : ResourceLogHeadPin) : Prop :=
  resolvable log ∧ ∃ genesis entry, head log = Some genesis ∧ last log = Some entry ∧ pin = head_pin genesis entry.

Lemma pin_ordinal log pin : pins log pin → as_ordinal (parseInt (pin_head pin)) = Some (length log).
Proof.
  intros (Hr & genesis & entry & _ & Hl & ->). cbn. rewrite last_lookup in Hl.
  erewrite version_ordinal by done. apply lookup_lt_Some in Hl. f_equal. lia.
Qed.

Lemma continuity_establishes log pin served :
  resolvable log → checkAccountLogContinuity log pin = Ok served → pins log served.
Proof.
  unfold checkAccountLogContinuity. intros Hr. destruct (head log) as [genesis|] eqn:Hh; [|done].
  destruct (last log) as [entry|] eqn:Hl; [|done]. rewrite result_bind_ok. intros (? & _ & [= <-]).
  split; [done|]. by exists genesis, entry.
Qed.

(** A log that passes under a pin extends the log pinned. *)
Lemma continuity_extends log old pin served :
  resolvable log → pins old pin → checkAccountLogContinuity log (Some pin) = Ok served →
  old `prefix_of` log.
Proof.
  intros Hr Hpin. pose proof (pin_ordinal _ _ Hpin) as Hord.
  destruct Hpin as (Hr' & genesis & entry & _ & Hl & Heq).
  unfold checkAccountLogContinuity. destruct (head log); [|done]. destruct (last log); [|done].
  rewrite result_bind_ok. intros (? & Hc & _). unfold checkAgainstPin in Hc.
  case_decide; [done|]. case_decide; [done|]. rewrite Hord in Hc.
  destruct (log !! (length old - 1)) as [entry'|] eqn:Hn; [|done]. case_decide as Hv; [|done].
  rewrite Heq in Hv. cbn in Hv. rewrite last_lookup in Hl.
  assert (length old ≠ 0) as Hpos by (apply lookup_lt_Some in Hl; lia).
  replace (length old - 1) with (pred (length old)) in Hn by lia.
  pose proof (version_binds log old _ entry' entry Hr Hr' Hn Hl Hv) as Ht.
  replace (S (pred (length old))) with (length old) in Ht by lia.
  rewrite firstn_all in Ht. exists (drop (length old) log). rewrite <- Ht at 1. by rewrite take_drop.
Qed.

(** A log as long as the one it extends, pinned at the same head, is it. *)
Lemma same_head log old pin served :
  pins log served → pins old pin → old `prefix_of` log → pin_head pin = pin_head served → log = old.
Proof.
  intros Hl Ho [rest ->] Heq. pose proof (pin_ordinal _ _ Hl) as H1. pose proof (pin_ordinal _ _ Ho) as H2.
  rewrite Heq, H1 in H2. injection H2 as H2. rewrite length_app in H2.
  destruct rest; [by rewrite app_nil_r|cbn in H2; lia].
Qed.

(** A log that reached a recorded head extends the log it was recorded on. *)
Lemma reached_extends log old genesis entry :
  resolvable log → resolvable old → head old = Some genesis → last old = Some entry →
  assertBuiltOnHeadReached log (mkBuiltOn (default "" (p_scid genesis)) (versionId entry)) = Ok () →
  old `prefix_of` log.
Proof.
  intros Hr Hr' _ Hl. unfold assertBuiltOnHeadReached. cbn.
  destruct (bool_decide _ && _) eqn:H; [intros _|done]. apply andb_true_iff in H as [_ H].
  apply existsb_exists in H as (found & Hin & Hv). apply bool_decide_eq_true in Hv.
  apply list_elem_of_In, list_elem_of_lookup in Hin as [n Hn]. rewrite last_lookup in Hl.
  pose proof (version_ordinal _ _ _ Hr Hn) as H1. pose proof (version_ordinal _ _ _ Hr' Hl) as H2.
  rewrite Hv, H2 in H1. injection H1 as <-.
  assert (length old ≠ 0) as Hpos by (apply lookup_lt_Some in Hl; lia).
  pose proof (version_binds log old _ found entry Hr Hr' Hn Hl Hv) as Ht.
  replace (S (pred (length old))) with (length old) in Ht by lia.
  rewrite firstn_all in Ht. exists (drop (length old) log). rewrite <- Ht at 1. by rewrite take_drop.
Qed.

(** ** The slot *)

Context (slot : W → option ResourceLogHeadPin).
Variables (fetch : string → comp W (Response W)) (showZ : Z → string) (did : string).
Variable pinStore : ResourceLogPinStore W.

(** What the account's slot is: the one the DID's own location names. The
    store reads it back, and writes it or fails with it old or new. *)
Record slot_laws : Prop := {
  slot_reads space p : didWebvhLogLocation did ≫= (λ l, Ok (spaceId l)) = Ok space →
    triple (λ w, slot w = p) (pin_read pinStore (accountLogPinId space)) (λ r w, r = p ∧ slot w = p)
      (λ _ w, slot w = p);
  slot_writes space p pin : didWebvhLogLocation did ≫= (λ l, Ok (spaceId l)) = Ok space →
    triple (λ w, slot w = p) (pin_write pinStore (accountLogPinId space) pin) (λ _ w, slot w = Some pin)
      (λ _ w, slot w = p ∨ slot w = Some pin);
  fetch_keeps url p : triple (λ w, slot w = p) (fetch url)
    (λ response w, triple (λ w, slot w = p) (body_text response) (λ _ w, slot w = p) (λ _ w, slot w = p) ∧
       slot w = p)
    (λ _ w, slot w = p)
}.
Context (Hslot : slot_laws).

(** The last log accepted, and that the slot pins it. *)
Definition standing (last : option DIDLog) (w : W) : Prop :=
  match last with
  | None => slot w = None
  | Some log => ∃ pin, slot w = Some pin ∧ pins log pin
  end.

Definition extends (last : option DIDLog) (log : DIDLog) : Prop :=
  match last with None => True | Some old => old `prefix_of` log end.

Lemma advance_extends last log space :
  didWebvhLogLocation did ≫= (λ l, Ok (spaceId l)) = Ok space → resolvable log →
  triple (standing last) (checkAndAdvanceAccountLogPin pinStore (accountLogPinId space) log)
    (λ _ w, extends last log ∧ standing (Some log) w)
    (λ _ w, standing last w ∨ (extends last log ∧ standing (Some log) w)).
Proof.
  intros Hspace Hr w Hw. unfold checkAndAdvanceAccountLogPin, mbind, comp_bind.
  pose proof (slot_reads Hslot space (slot w) Hspace w eq_refl) as Hread.
  destruct (pin_read _ _ w) as [[pin|e] w1].
  2: { left. destruct last; cbn in Hw |- *; by rewrite Hread. }
  destruct Hread as [-> Hw1]. unfold lift.
  destruct (checkAccountLogContinuity log (slot w)) as [served|e] eqn:Hc.
  2: { left. destruct last; cbn in Hw |- *; by rewrite Hw1. }
  pose proof (continuity_establishes _ _ _ Hr Hc) as Hserved.
  assert (extends last log) as Hext.
  { destruct last as [old|]; [|done]. destruct Hw as (pin & Hpin & Hold). rewrite Hpin in Hc.
    by eapply continuity_extends. }
  case_decide as Hhead; cbn.
  - split; [done|]. destruct last as [old|]; [|by rewrite Hw in Hhead].
    destruct Hw as (pin & Hpin & Hold). exists pin. split; [by rewrite Hw1|].
    rewrite Hpin in Hhead. injection Hhead as Hhead. by rewrite (same_head log old pin served).
  - pose proof (slot_writes Hslot space (slot w) served Hspace w1 Hw1) as Hwrite.
    destruct (pin_write _ _ _ w1) as [[[]|e] w2].
    + split; [done|]. exists served. done.
    + destruct Hwrite as [Hw2|Hw2]; [left; destruct last; cbn in Hw |- *; by rewrite Hw2|].
      right. split; [done|]. by exists served.
Qed.

Lemma resolvedHead_ok log refusal etag published :
  resolvedHead log refusal etag = Ok published → resolvable log ∧ pub_log published = log.
Proof.
  unfold resolvedHead. rewrite result_bind_ok. intros (resolution & Hr & H).
  destruct (truthy (meta_error _)) eqn:He; [done|]. destruct (truthy (resolved_did _)) as [d|] eqn:Hd; [|done].
  destruct (resolved_doc _) as [doc|] eqn:Hdoc; [|done]. injection H as <-. split; [|done].
  by exists resolution, d, doc.
Qed.

(** The Space a DID's log lives in. *)
Definition space_of (d space : string) : Prop := didWebvhLogLocation d ≫= (λ l, Ok (spaceId l)) = Ok space.

Lemma readAccountLog_reads url p :
  triple (λ w, slot w = p) (readAccountLog fetch showZ url)
    (λ r w, resolvable (pub_log r.1) ∧ space_of (pub_did r.1) r.2 ∧ slot w = p) (λ _ w, slot w = p).
Proof.
  unfold readAccountLog. eapply triple_bind; [by apply fetch_keeps|]. intros response.
  apply triple_pure. intros Htext.
  case_decide; [by apply triple_throw|]. destruct (negb _); [by apply triple_throw|].
  eapply triple_bind; [exact Htext|]. intros text.
  eapply (triple_bind _ _ _ (λ _ w, slot w = p)).
  { apply triple_lift. intros w Hw. by destruct (readLogFromString text). }
  intros log.
  eapply (triple_bind _ _ _ (λ published w, resolvable (pub_log published) ∧ slot w = p)).
  { apply triple_lift. intros w Hw. destruct (resolvedHead log _ _) as [published|] eqn:Hr; [|done].
    apply resolvedHead_ok in Hr as [? ->]. done. }
  intros published. apply triple_pure. intros Hres.
  eapply (triple_bind _ _ _ (λ location w, didWebvhLogLocation (pub_did published) = Ok location ∧ slot w = p)).
  { apply triple_lift. intros w Hw. by destruct (didWebvhLogLocation _). }
  intros location. apply triple_pure. intros Hloc.
  eapply (triple_bind _ _ _ (λ _ w, slot w = p)).
  { apply triple_lift. intros w Hw. by destruct (hrefOf url). }
  intros href. case_decide; [|by apply triple_throw]. apply triple_ret. intros w Hw.
  split_and!; [done| |done]. unfold space_of. cbn. by rewrite Hloc.
Qed.

Lemma verify_extends last published :
  (∀ head, published = Some head → resolvable (pub_log head)) →
  triple (standing last) (verifyAccountLog fetch showZ did (Some pinStore) published)
    (λ v w, extends last (ver_log v) ∧ standing (Some (ver_log v)) w)
    (λ _ w, standing last w ∨ ∃ log, extends last log ∧ standing (Some log) w).
Proof.
  intros Hpub. unfold verifyAccountLog.
  eapply (triple_bind _ _ _ (λ location w, didWebvhLogLocation did = Ok location ∧ standing last w)).
  { apply triple_lift. intros w Hw. destruct (didWebvhLogLocation did); [done|by left]. }
  intros location. apply triple_pure. intros Hloc.
  eapply (triple_bind _ _ _ (λ r w, (resolvable (pub_log r.1) ∧ (pub_did r.1 = did → space_of did r.2)) ∧ standing last w)).
  { destruct published as [head|].
    - apply triple_ret. intros w Hw. split; [|done]. split; [by apply Hpub|]. intros _. unfold space_of. by rewrite Hloc.
    - intros w Hw. pose proof (readAccountLog_reads (logUrl location) (slot w) w eq_refl) as H.
      destruct (readAccountLog _ _ _ w) as [[r|e] w'].
      + destruct H as (? & Hs & Hw'). split; [split; [done|]|]; [by intros <-|].
        destruct last; cbn in Hw |- *; by rewrite Hw'.
      + left. destruct last; cbn in Hw |- *; by rewrite H. }
  intros [head space]. apply triple_pure. cbn [fst snd]. intros [Hres Hspace].
  eapply (triple_bind _ _ _ (λ _ w, extends last (pub_log head) ∧ standing (Some (pub_log head)) w)).
  2: { intros ?. by apply triple_ret. }
  unfold adoptAccountLog.
  eapply (triple_bind _ _ _ (λ _ w, pub_did head = did ∧ standing last w)).
  { apply triple_lift. intros w Hw. unfold assertPublishedLogDid. case_decide; [done|by left]. }
  intros ?. apply triple_pure. intros Hdid.
  eapply (triple_bind _ _ _ (λ _ w, extends last (pub_log head) ∧ standing (Some (pub_log head)) w)).
  { eapply triple_throws; [apply advance_extends; [by apply Hspace|done]|]. intros e w [?|?]; [by left|right; eauto]. }
  intros ?. by apply triple_ret.
Qed.

(** ** A client's history *)

(** The logs a client has accepted, oldest first: it starts with an empty
    slot, verifies over any responses or supplied heads, with any outcome,
    and the world may change in between in any way that leaves the slot. *)
Inductive accepted : W → list DIDLog → Prop :=
  | accepted_none w : slot w = None → accepted w []
  | accepted_world w w' logs : accepted w logs → slot w' = slot w → accepted w' logs
  | accepted_log w w' logs published v : accepted w logs →
      (∀ head, published = Some head → resolvable (pub_log head)) →
      verifyAccountLog fetch showZ did (Some pinStore) published w = (Ok v, w') →
      accepted w' (logs ++ [ver_log v])
  | accepted_refusal w w' logs published e : accepted w logs →
      (∀ head, published = Some head → resolvable (pub_log head)) →
      verifyAccountLog fetch showZ did (Some pinStore) published w = (Throw e, w') →
      accepted w' logs.

Lemma accepted_standing w logs : accepted w logs →
  ∃ last, standing last w ∧ (∀ log, log ∈ logs → ∃ old, last = Some old ∧ log `prefix_of` old) ∧
    ∀ i j l l', i ≤ j → logs !! i = Some l → logs !! j = Some l' → l `prefix_of` l'.
Proof.
  induction 1 as [w Hw|w w' logs Ha (last & Hst & Hin & Hmono) Heq
    |w w' logs published v Ha (last & Hst & Hin & Hmono) Hpub Hv
    |w w' logs published e Ha (last & Hst & Hin & Hmono) Hpub He].
  - exists None. split_and!; [done|set_solver|done].
  - exists last. split_and!; [|done..]. destruct last; cbn in *; by rewrite Heq.
  - pose proof (verify_extends last published Hpub w Hst) as H. rewrite Hv in H. destruct H as [Hext Hst'].
    assert (∀ log, log ∈ logs → log `prefix_of` ver_log v) as Hlogs.
    { intros log Hlog. destruct (Hin log Hlog) as (old & -> & Hp). by etrans. }
    exists (Some (ver_log v)). split_and!; [done| |].
    + intros log. rewrite elem_of_app, list_elem_of_singleton. intros [Hlog| ->]; eexists; split; [done|auto|done|done].
    + intros i j l l' Hij Hi Hj. apply lookup_snoc_Some in Hi as [[Hil Hi]|[-> <-]];
        apply lookup_snoc_Some in Hj as [[Hjl Hj]|[-> <-]].
      * exact (Hmono i j l l' Hij Hi Hj).
      * by apply Hlogs, list_elem_of_lookup_2 with i.
      * lia.
      * done.
  - pose proof (verify_extends last published Hpub w Hst) as H. rewrite He in H.
    destruct H as [?|(log & Hext & Hst')]; [by exists last|].
    exists (Some log). split_and!; [done| |done]. intros l Hl. destruct (Hin l Hl) as (old & -> & Hp).
    exists log. split; [done|]. by etrans.
Qed.
End pins.

(** C3: a client never goes back on its account's history. Over any sequence
    of verifications under one pin slot, through any responses of the host
    and any refusals and failures in between, every log accepted extends
    every log accepted before it, so no enrollment or revocation a client
    once accepted can be served away. *)
Theorem verified_logs_extend {W : Type} {addresses : WebvhAddresses} {resolver : WebvhResolver} {laws : ChainLaws}
    (slot : W → option ResourceLogHeadPin) fetch showZ did pinStore w logs i j log log' :
  slot_laws slot fetch did pinStore → accepted slot fetch showZ did pinStore w logs →
  i ≤ j → logs !! i = Some log → logs !! j = Some log' → log `prefix_of` log'.
Proof.
  intros Hslot Ha. destruct (accepted_standing slot fetch showZ did pinStore Hslot w logs Ha) as (_ & _ & _ & H).
  apply H.
Qed.

(** A host that serves a one-entry history, then its two-entry extension, then
    the one-entry history again. *)
Module Demo.
Definition entry (version : string) : DIDLogEntry := mkEntry version version (Some "m") (Some "s") None None None None.
Definition history : DIDLog := [entry "1-a"; entry "2-b"].

#[local] Instance addresses : WebvhAddresses := {|
  normalizeCreateDidAddress a _ _ _ := Ok a;
  SCID_PLACEHOLDER := "{SCID}";
  getBaseUrl d := Ok d;
  getFileUrl d := Ok (d ++ "/did.jsonl")%string;
  splitCollectionUrl u := Ok (u, "id");
  spaceIdOfUrl u := Ok u;
  baseServerUrlOf u := Ok u;
  resourceUrl s c r := Ok (s ++ c ++ r)%string;
  resourceLogPinId s c r := (s ++ c ++ r)%string;
  hrefOf := Ok
|}.

(** The entries this resolver knows, and the histories it resolves. *)
Definition known (e : DIDLogEntry) (version : string) : bool :=
  bool_decide (versionId e = version ∧ versionTime e = version ∧ p_method e = Some "m" ∧ p_scid e = Some "s" ∧
    p_updateKeys e = None ∧ p_nextKeyHashes e = None ∧ proof e = None) &&
  match state e with None => true | Some _ => false end.

Definition recognized (log : DIDLog) : bool :=
  match log with
  | [e] => known e "1-a"
  | [e; e'] => known e "1-a" && known e' "2-b"
  | _ => false
  end.

#[local] Instance resolver : WebvhResolver := {|
  readLogFromString text := Ok (if decide (text = "short") then take 1 history else history);
  resolveDIDFromLog log :=
    if recognized log then Ok (mkResolution (Some "did") (Some empty_document) (mkMeta None None None))
    else Throw (plain_error "unresolvable")
|}.

Lemma known_entry e version : known e version = true → e = entry version.
Proof.
  unfold known. intros [H Hs]%andb_true_iff. apply bool_decide_eq_true in H. destruct e, state; [done|].
  naive_solver.
Qed.

Lemma resolvable_history log : resolvable log → log = take 1 history ∨ log = history.
Proof.
  intros (resolution & did & doc & Hr & _). cbn in Hr. destruct (recognized log) eqn:Hrec; [|done].
  destruct log as [|e [|e' [|]]]; [done|left|right|done]; cbn in Hrec.
  - by rewrite (known_entry _ _ Hrec).
  - apply andb_true_iff in Hrec as [H1 H2]. by rewrite (known_entry _ _ H1), (known_entry _ _ H2).
Qed.

#[local] Instance chain_laws : ChainLaws.
Proof.
  constructor.
  - intros log n e [-> | ->]%resolvable_history; destruct n as [|[|n]]; cbn; intros [= <-]; by vm_compute.
  - intros log log' n e e' [-> | ->]%resolvable_history [-> | ->]%resolvable_history;
      destruct n as [|[|n]]; cbn; intros [= <-] [= <-]; done.
Qed.

(** The slot, and the bodies still to be served. *)
Definition world : Type := option ResourceLogHeadPin * list string.
Definition fetch (_ : string) : comp world (Response world) := λ w,
  (Ok (mkResponse 200%Z (λ w', (Ok (default "" (head w.2)), w'))), (w.1, tail w.2)).
Definition pinStore : ResourceLogPinStore world :=
  mkPinStore (λ _ w, (Ok w.1, w)) (λ _ pin w, (Ok (), (Some pin, w.2))).
Definition verify : comp world VerifiedAccountLog := verifyAccountLog fetch (λ _, "") "did" (Some pinStore) None.

Lemma demo_slot : slot_laws fst fetch "did" pinStore.
Proof.
  constructor.
  - intros space p _ [? ?] <-. done.
  - intros space p pin _ [? ?] <-. done.
  - intros url p [? ?] <-. split; [|done]. by intros [? ?] ?.
Qed.

Lemma verified_logs_extend_witness :
  let w0 := (None, ["short"; "long"; "short"]) in
  ∃ v1 w1 v2 w2 w3, verify w0 = (Ok v1, w1) ∧ verify w1 = (Ok v2, w2) ∧
    verify w2 = (Throw (ResourceLogContinuityError "rollback"), w3) ∧
    ver_log v1 `prefix_of` ver_log v2.
Proof.
  intros w0. destruct (verify w0) as [[v1|] w1] eqn:H1; [|by vm_compute in H1].
  assert (w1 = (Some (mkPin "m" "s" "1-a"), ["long"; "short"])) as Hw1 by by vm_compute in H1; injection H1 as _ <-.
  destruct (verify w1) as [[v2|] w2] eqn:H2; [|by rewrite Hw1 in H2; vm_compute in H2].
  assert (w2 = (Some (mkPin "m" "s" "2-b"), ["short"])) as Hw2.
  { rewrite Hw1 in H2. vm_compute in H2. by injection H2 as _ <-. }
  exists v1, w1, v2, w2, (Some (mkPin "m" "s" "2-b"), []). split; [done|]. split; [exact H2|].
  split; [rewrite Hw2; vm_compute; reflexivity|].
  apply (verified_logs_extend fst fetch (λ _, "") "did" pinStore w2 [ver_log v1; ver_log v2] 0 1);
    [apply demo_slot| |lia|done|done].
  change [ver_log v1; ver_log v2] with (([] ++ [ver_log v1]) ++ [ver_log v2]).
  apply (accepted_log _ _ _ _ _ w1 w2 _ None v2); [|done|exact H2].
  apply (accepted_log _ _ _ _ _ w0 w1 _ None v1); [by apply accepted_none|done|exact H1].
Defined.
End Demo.
