(* ===== verification/LogStore.v ===== *)
(** * Reading and publishing the log through the store seam

    The store half of [src/src/webvh/didWebvh.ts]: the ceremony-side read
    under the pin, the compare-and-swap publish that advances it, the retry
    after a lost race, and the log's effective parameters. *)

From S2P Require Import Prelude Json JsText AccountDocument LadderRungs AccountLog.

(** The rest of the did:webvh library, and the key derivation of
    [src/src/webvh/updateKeyMultibase.ts] over the Ed25519 library. A seed is
    its bytes. *)
Class WebvhWriter := {
  WebDoc : Type;
  Signer : Type;
  logToJsonlString : DIDLog → string;
  generateParallelDidWeb : string → AccountDocument → WebDoc;
  updateKeyMultibase : string → result string;
  updateKeySigner : string → result Signer
}.

Definition DID_DOCUMENT_RESOURCE : string := "did.json".

(** What a write carries. *)
Inductive Content {writer : WebvhWriter} :=
  | LogText (text : string)
  | WebDocument (doc : WebDoc).

Record PutIdResource {writer : WebvhWriter} := mkPut {
  put_resource : string;
  put_content : Content;
  put_contentType : string;
  put_ifMatch : option string;
  put_ifNoneMatch : bool
}.

Arguments LogText {writer}.
Arguments WebDocument {writer}.
Arguments mkPut {writer}.

(** The members of the seam these ceremonies use. A write resolves with
    nothing or with an optional validator. *)
Record WebvhIdStore {writer : WebvhWriter} (W : Type) := mkIdStore {
  getIdResourceRaw : string → comp W (option (string * option string));
  putIdResource : PutIdResource → comp W (option (option string));
  id_pinStore : ResourceLogPinStore W;
  id_logId : string
}.
Arguments mkIdStore {writer W}.
Arguments getIdResourceRaw {writer W}.
Arguments putIdResource {writer W}.
Arguments id_pinStore {writer W}.
Arguments id_logId {writer W}.

(** The class is this module's own, so only [putLogResource] throws it. *)
Definition WebvhLogConflictError : js_error :=
  JsError "WebvhLogConflictError" "did:webvh: the published did.jsonl changed under this ceremony (a concurrent ceremony extended the log); the entry was not appended.".

(** [err instanceof WebvhLogConflictError]. *)
Definition isLogConflict (err : js_error) : bool := bool_decide (err = WebvhLogConflictError).

(** ** Effective parameters *)

Fixpoint effectiveFrom (updateKeys nextKeyHashes : list string) (log : DIDLog) : list (list string * list string) :=
  match log with
  | [] => []
  | entry :: log =>
      let updateKeys := default updateKeys (p_updateKeys entry) in
      let nextKeyHashes := default nextKeyHashes (p_nextKeyHashes entry) in
      (updateKeys, nextKeyHashes) :: effectiveFrom updateKeys nextKeyHashes log
  end.
Definition effectiveParameters (log : DIDLog) : list (list string * list string) := effectiveFrom [] [] log.
Definition currentLogParameters (log : DIDLog) : list string * list string :=
  default ([], []) (last (effectiveParameters log)).

Definition pinOfLog (log : DIDLog) : result ResourceLogHeadPin := checkAccountLogContinuity log None.

Definition servedHead (log : DIDLog) : result BuiltOnHead :=
  pin ← pinOfLog log; Ok (mkBuiltOn (pin_scid pin) (pin_head pin)).

Section store.
Context {W : Type} {resolver : WebvhResolver} {writer : WebvhWriter} {keys : WebvhKeys}.
Implicit Types (idStore : WebvhIdStore W).

(** ** Reading *)

Definition brokenLog (error : option string) : js_error :=
  plain_error ("did:webvh: existing did.jsonl failed to resolve (" ++ default "undefined" error ++ ").").

Definition readPublishedLog idStore (expectedDid : option string) (absentIsAbsent : bool) :
    comp W (option PublishedWebvhLog) :=
  read ← getIdResourceRaw idStore DID_LOG_RESOURCE;
  match read with
  | None =>
      if absentIsAbsent then mret None
      else
        pin ← pin_read (id_pinStore idStore) (id_logId idStore);
        match pin with
        | Some _ => mthrow (ResourceLogContinuityError "rollback")
        | None => mret None
        end
  | Some (text, etag) =>
      log ← lift (readLogFromString text);
      published ← lift (resolvedHead log brokenLog etag);
      lift (assertPublishedLogDid published expectedDid);;
      checkAndAdvanceAccountLogPin (id_pinStore idStore) (id_logId idStore) log;;
      mret (Some published)
  end.

Definition readPublishedLogOrThrow idStore (expectedDid missingMessage : option string) : comp W PublishedWebvhLog :=
  published ← readPublishedLog idStore expectedDid false;
  match published with
  | Some published => mret published
  | None => mthrow (plain_error (default "did:webvh: did.jsonl is missing." missingMessage))
  end.

(** ** Publishing *)

Definition mapPrecondition (err : js_error) : js_error :=
  if decide (err_name err = "PreconditionFailedError") then WebvhLogConflictError else err.

Definition putLogResource idStore (log : DIDLog) (ifMatch : option string) (ifNoneMatch : bool) :
    comp W (option string) :=
  written ← try_catch
    (putIdResource idStore (mkPut DID_LOG_RESOURCE (LogText (logToJsonlString log)) "text/jsonl" ifMatch ifNoneMatch))
    (λ err, mthrow (mapPrecondition err));
  pin ← lift (pinOfLog log);
  pin_write (id_pinStore idStore) (id_logId idStore) pin;;
  mret (default None written).

Definition publishEntryPinned idStore (log : DIDLog) (ifMatch : option string) : comp W (option string) :=
  putLogResource idStore log ifMatch false.

Definition putDidWebProjection idStore (webDoc : WebDoc) : comp W () :=
  putIdResource idStore (mkPut DID_DOCUMENT_RESOURCE (WebDocument webDoc) "application/did+json" None false);;
  mret ().

Definition publishWebvhLog idStore (log : DIDLog) (webDoc : WebDoc) (ifMatch : option string) (ifNoneMatch : bool) :
    comp W (option string) :=
  written ← putLogResource idStore log ifMatch ifNoneMatch;
  putDidWebProjection idStore webDoc;;
  mret written.

(** The result of the library's [updateDID]. *)
Record Updated := mkUpdated {
  upd_did : string;
  upd_doc : AccountDocument;
  upd_log : DIDLog;
  upd_meta : ResolutionMeta;
  upd_webDoc : option WebDoc
}.

Definition publishUpdatedLog idStore (updated : Updated) (ifMatch : option string) : comp W (option string) :=
  match upd_webDoc updated with
  | None => mthrow (plain_error "did:webvh: updateDID returned no webDoc despite the did:web alsoKnownAs.")
  | Some webDoc => publishWebvhLog idStore (upd_log updated) webDoc ifMatch false
  end.

Definition concludeWithPublishedLog idStore (published : PublishedWebvhLog) : comp W (string * AccountDocument) :=
  putDidWebProjection idStore (generateParallelDidWeb (pub_did published) (pub_doc published));;
  mret (pub_did published, pub_doc published).

(** ** Retrying *)

(** [attempts] runs are left, the present one among them. *)
Fixpoint retryAttempts {A} (attempts : nat) (run : comp W A) : comp W A :=
  match attempts with
  | 0 => run
  | S attempts =>
      try_catch run (λ err,
        if negb (isLogConflict err) then mthrow err
        else match attempts with 0 => mthrow err | _ => retryAttempts attempts run end)
  end.

Definition withLogConflictRetry {A} (run : comp W A) : comp W A := retryAttempts 3 run.

Definition withThreadedHeadOnce {A} (published : option PublishedWebvhLog)
    (attempt : option PublishedWebvhLog → comp W A) : comp W A :=
  match published with
  | Some head =>
      try_catch (attempt (Some head)) (λ err,
        if negb (isLogConflict err) then mthrow err else withLogConflictRetry (attempt None))
  | None => withLogConflictRetry (attempt None)
  end.

Fixpoint uncommitted (hashes : list string) (updateKeys : list string) : bool :=
  match updateKeys with
  | [] => false
  | key :: updateKeys => negb (bool_decide (deriveNextKeyHash key ∈ hashes)) || uncommitted hashes updateKeys
  end.

Definition assertCarryOverCommitments (published : PublishedWebvhLog) : result () :=
  if uncommitted (pub_nextKeyHashes published) (pub_updateKeys published) then
    mthrow (plain_error "did:webvh: the published log does not carry the active update keys' own hashes in nextKeyHashes (it predates the carry-over commitment convention); re-provision the account first.")
  else Ok ().

Definition genesisNextKeyHashes (activeKeyMultibase stagedKeyMultibase : string) : list string :=
  [deriveNextKeyHash activeKeyMultibase; deriveNextKeyHash stagedKeyMultibase].
End store.
