(* ===== verification/KeyRotation.v ===== *)
(** * Rotating a client's update key

    [rotateWebvhUpdateKey] of [src/src/webvh/didWebvh.ts]: the ceremony that
    promotes a client's staged update key, with its persist-before-publish
    order, and what a client that stops at any point of it still holds. *)

From S2P Require Import Prelude Json JsText AccountDocument LadderRungs AccountLog LogStore.

(** ** The seeds a client holds *)

Record ClientWebvhUpdateKeys := mkUpdateKeys {
  updateSeed : string;
  stagedSeed : string;
  pendingStagedSeed : option string
}.
#[export] Instance ClientWebvhUpdateKeys_eq_dec : EqDecision ClientWebvhUpdateKeys.
Proof. solve_decision. Defined.

(** The multibases of the seeds, in role order. *)
Record UpdateKeyMultibases := mkMultibases {
  mb_update : string;
  mb_staged : string;
  mb_pendingStaged : option string
}.

Section rotation.
Context {W : Type} {resolver : WebvhResolver} {writer : WebvhWriter} {keys : WebvhKeys}.
Variable updateDID : DIDLog → ResolutionMeta → Signer → list string → list string → result Updated.
Variable randomSeed : comp W string.
Variable idStore : WebvhIdStore W.
Variable persistUpdateKeys : ClientWebvhUpdateKeys → comp W ().

Definition updateKeyMultibases (updateKeys : ClientWebvhUpdateKeys) : result UpdateKeyMultibases :=
  update ← updateKeyMultibase (updateSeed updateKeys);
  staged ← updateKeyMultibase (stagedSeed updateKeys);
  match pendingStagedSeed updateKeys with
  | Some seed => pending ← updateKeyMultibase seed; Ok (mkMultibases update staged (Some pending))
  | None => Ok (mkMultibases update staged None)
  end.

(** What the log has already promoted: the seed now active and the next one,
    when this client holds it. *)
Definition advancedSeeds (published : list string) (multibases : UpdateKeyMultibases)
    (updateKeys : ClientWebvhUpdateKeys) : option (string * option string) :=
  if decide (mb_staged multibases ∈ published) then
    Some (stagedSeed updateKeys, pendingStagedSeed updateKeys)
  else
    match mb_pendingStaged multibases, pendingStagedSeed updateKeys with
    | Some key, Some seed => if decide (key ∈ published) then Some (seed, None) else None
    | _, _ => None
    end.

(** The entry's parameters: the staged key in place of the active one, and
    its own hash and the new staged key's committed. *)
Definition rotatedKeys (published : PublishedWebvhLog) (multibases : UpdateKeyMultibases) : list string :=
  filter (λ key, key ≠ mb_update multibases) (pub_updateKeys published) ++ [mb_staged multibases].
Definition rotatedHashes (published : PublishedWebvhLog) (multibases : UpdateKeyMultibases) (newStaged : string) :
    list string :=
  js_dedup (filter (λ hash, hash ≠ deriveNextKeyHash (mb_update multibases)) (pub_nextKeyHashes published) ++
    [deriveNextKeyHash (mb_staged multibases); deriveNextKeyHash newStaged]).

Definition finishAdvanced (published : PublishedWebvhLog) (advanced : string * option string) : comp W string :=
  match advanced.2 with
  | None => mthrow (plain_error "did:webvh: the published log has advanced to a key whose committed next key this client does not hold; the log can no longer be rotated.")
  | Some staged =>
      persistUpdateKeys (mkUpdateKeys advanced.1 staged None);;
      concluded ← concludeWithPublishedLog idStore published;
      mret concluded.1
  end.

Definition rotateEntry (updateKeys : ClientWebvhUpdateKeys) (published : PublishedWebvhLog)
    (multibases : UpdateKeyMultibases) : comp W string :=
  if decide (mb_update multibases ∉ pub_updateKeys published) then
    mthrow (plain_error "did:webvh: the published log has diverged from this client's update keys (it authorizes neither the active nor the staged key); refusing to rotate.")
  else if decide (deriveNextKeyHash (mb_staged multibases) ∉ pub_nextKeyHashes published) then
    mthrow (plain_error "did:webvh: this client's update keys have diverged from the published log (the staged key is not the log-committed next key); refusing to rotate.")
  else
    newStagedSeed ← randomSeed;
    persistUpdateKeys (mkUpdateKeys (updateSeed updateKeys) (stagedSeed updateKeys) (Some newStagedSeed));;
    signer ← lift (updateKeySigner (stagedSeed updateKeys));
    newStaged ← lift (updateKeyMultibase newStagedSeed);
    updated ← lift (updateDID (pub_log published) (pub_meta published) signer
      (rotatedKeys published multibases) (rotatedHashes published multibases newStaged));
    publishUpdatedLog idStore updated (pub_etag published);;
    persistUpdateKeys (mkUpdateKeys (stagedSeed updateKeys) newStagedSeed None);;
    mret (upd_did updated).

Definition rotateWebvhUpdateKeyOnce (updateKeys : ClientWebvhUpdateKeys) (expectedDid : option string) : comp W string :=
  published ← readPublishedLog idStore expectedDid false;
  match published with
  | None => mthrow (plain_error "did:webvh: did.jsonl is missing; nothing to rotate.")
  | Some published =>
      multibases ← lift (updateKeyMultibases updateKeys);
      match advancedSeeds (pub_updateKeys published) multibases updateKeys with
      | Some advanced => finishAdvanced published advanced
      | None => rotateEntry updateKeys published multibases
      end
  end.

Definition rotateWebvhUpdateKey (updateKeys : ClientWebvhUpdateKeys) (expectedDid : option string) : comp W string :=
  withLogConflictRetry (rotateWebvhUpdateKeyOnce updateKeys expectedDid).
End rotation.

(** * A rotation never strands its client

    Whatever call of the ceremony fails, and wherever the client stops, the
    seeds it has persisted still reach the served log: it holds the key the
    log authorizes and the key the log commits next. Other clients may extend
    the log meanwhile, as long as they carry this client's keys over. *)

Section safety.
Context {W : Type} {resolver : WebvhResolver} {writer : WebvhWriter} {keys : WebvhKeys}.
Variable updateDID : DIDLog → ResolutionMeta → Signer → list string → list string → result Updated.
Variable randomSeed : comp W string.
Variable idStore : WebvhIdStore W.
Variable persistUpdateKeys : ClientWebvhUpdateKeys → comp W ().

(** ** The two sides *)

(** What the served log authorizes and commits, what the client has
    persisted, and which seeds are its own. *)
Variables (authorizes commits : W → string → Prop) (persisted : W → ClientWebvhUpdateKeys).
Variable own : string → Prop.

Definition mine (key : string) : Prop := ∃ seed, own seed ∧ updateKeyMultibase seed = Ok key.

(** The log's parameters, as far as this client's keys go. *)
Definition shows (A C : list string) (w : W) : Prop :=
  ∀ key, mine key → (key ∈ A ↔ authorizes w key) ∧ (deriveNextKeyHash key ∈ C ↔ commits w (deriveNextKeyHash key)).
Definition agree (A C A' C' : list string) : Prop :=
  ∀ key, mine key → (key ∈ A ↔ key ∈ A') ∧ (deriveNextKeyHash key ∈ C ↔ deriveNextKeyHash key ∈ C').

Definition at_state (A C : list string) (P : ClientWebvhUpdateKeys) (w : W) : Prop := shows A C w ∧ persisted w = P.

Definition owned (P : ClientWebvhUpdateKeys) : Prop :=
  own (updateSeed P) ∧ own (stagedSeed P) ∧ ∀ seed, pendingStagedSeed P = Some seed → own seed.

(** The log stands at the active key, the staged one committed. *)
Definition active (P : ClientWebvhUpdateKeys) (A C : list string) : Prop :=
  ∃ u s, updateKeyMultibase (updateSeed P) = Ok u ∧ updateKeyMultibase (stagedSeed P) = Ok s ∧
    u ∈ A ∧ s ∉ A ∧ deriveNextKeyHash s ∈ C.

(** The log stands at the staged key, the pending one committed. *)
Definition promoted (P : ClientWebvhUpdateKeys) (A C : list string) : Prop :=
  ∃ s seed p, updateKeyMultibase (stagedSeed P) = Ok s ∧ pendingStagedSeed P = Some seed ∧
    updateKeyMultibase seed = Ok p ∧ s ∈ A ∧ p ∉ A ∧ deriveNextKeyHash p ∈ C.

Definition recoverable (w : W) : Prop :=
  ∃ A C P, at_state A C P w ∧ owned P ∧ (active P A C ∨ promoted P A C).

(** A run may start from [given] when the client's persisted seeds are those,
    or those with another pending seed the log does not stand on. *)
Definition ready (given P : ClientWebvhUpdateKeys) (A C : list string) : Prop :=
  updateSeed given = updateSeed P ∧ stagedSeed given = stagedSeed P ∧
  (active P A C ∨ (pendingStagedSeed given = pendingStagedSeed P ∧ promoted P A C)).
Definition startable (given : ClientWebvhUpdateKeys) (w : W) : Prop :=
  ∃ A C P, at_state A C P w ∧ owned P ∧ ready given P A C.

(** Rotated: the old staged seed is active, and its successor committed. *)
Definition rotated (given : ClientWebvhUpdateKeys) (w : W) : Prop :=
  ∃ A C P, at_state A C P w ∧ owned P ∧ active P A C ∧ updateSeed P = stagedSeed given.

(** ** What is relied on

    The host serves this client's parameters as they stand; a write of the
    log takes effect or not, and not when it reports a failed precondition; a
    persist takes effect or not; minted seeds are fresh; the library's update
    sets the parameters it is given; and nothing but [putLogResource] throws
    its conflict. *)
Record rotation_laws : Prop := {
  law_read A C P : triple (at_state A C P) (getIdResourceRaw idStore DID_LOG_RESOURCE)
    (λ r w, (∀ text etag log resolution, r = Some (text, etag) → readLogFromString text = Ok log →
       resolveDIDFromLog log = Ok resolution →
       agree A C (default [] (meta_updateKeys (resolved_meta resolution)))
                 (default [] (meta_nextKeyHashes (resolved_meta resolution)))) ∧ at_state A C P w)
    (λ _, at_state A C P);
  law_pin_read A C P logId : preserves (at_state A C P) (pin_read (id_pinStore idStore) logId);
  law_pin_write A C P logId pin : preserves (at_state A C P) (pin_write (id_pinStore idStore) logId pin);
  law_put_log A C P log etag absent :
    triple (at_state A C P)
      (putIdResource idStore (mkPut DID_LOG_RESOURCE (LogText (logToJsonlString log)) "text/jsonl" etag absent))
      (λ _, at_state (currentLogParameters log).1 (currentLogParameters log).2 P)
      (λ e w, at_state A C P w ∨ (err_name e ≠ "PreconditionFailedError" ∧ e ≠ WebvhLogConflictError ∧
         at_state (currentLogParameters log).1 (currentLogParameters log).2 P w));
  law_put_doc A C P doc type :
    triple (at_state A C P) (putIdResource idStore (mkPut DID_DOCUMENT_RESOURCE (WebDocument doc) type None false))
      (λ _, at_state A C P) (λ e w, e ≠ WebvhLogConflictError ∧ at_state A C P w);
  law_pin_quiet logId pin w : ∀ e w', pin_write (id_pinStore idStore) logId pin w = (Throw e, w') → e ≠ WebvhLogConflictError;
  law_persist A C P next :
    triple (at_state A C P) (persistUpdateKeys next) (λ _, at_state A C next)
      (λ e w, e ≠ WebvhLogConflictError ∧ (at_state A C P w ∨ at_state A C next w));
  law_random A C P : triple (at_state A C P) randomSeed
    (λ seed w, (own seed ∧ ∀ m, updateKeyMultibase seed = Ok m → m ∉ A ∧ updateKeyMultibase (stagedSeed P) ≠ Ok m) ∧
       at_state A C P w)
    (λ _, at_state A C P);
  law_update log meta signer A C updated : updateDID log meta signer A C = Ok updated →
    currentLogParameters (upd_log updated) = (A, C)
}.
Context (laws : rotation_laws).

Lemma shows_agree A C A' C' P w : at_state A C P w → agree A C A' C' → at_state A' C' P w.
Proof.
  intros [Hs Hp] Ha. split; [|done]. intros key Hk. destruct (Hs key Hk), (Ha key Hk). naive_solver.
Qed.

Lemma active_agree P A C A' C' : owned P → agree A C A' C' → active P A C → active P A' C'.
Proof.
  intros (Hu & Hs & _) Ha (u & s & Hmu & Hms & H1 & H2 & H3). exists u, s.
  destruct (Ha u) as [Hau _]; [by exists (updateSeed P)|].
  destruct (Ha s) as [Has Hcs]; [by exists (stagedSeed P)|]. naive_solver.
Qed.

Lemma promoted_agree P A C A' C' : owned P → agree A C A' C' → promoted P A C → promoted P A' C'.
Proof.
  intros (Hu & Hs & Hp) Ha (s & seed & p & Hms & Hseed & Hmp & H1 & H2 & H3). exists s, seed, p.
  destruct (Ha p) as [Hap Hcp]; [exists seed; auto|].
  destruct (Ha s) as [Has _]; [by exists (stagedSeed P)|]. naive_solver.
Qed.

Lemma ready_agree given P A C A' C' : owned P → agree A C A' C' → ready given P A C → ready given P A' C'.
Proof.
  intros Ho Ha (? & ? & [H|[? H]]); split_and!; try done;
    [left; by eapply active_agree|right; split; [done|by eapply promoted_agree]].
Qed.

(** The read serves this client's parameters as they stand. *)
Lemma read_shows A C P expectedDid :
  triple (at_state A C P) (readPublishedLog idStore expectedDid false)
    (λ r w, match r with
            | Some pub => agree A C (pub_updateKeys pub) (pub_nextKeyHashes pub)
            | None => True
            end ∧ at_state A C P w)
    (λ _, at_state A C P).
Proof.
  unfold readPublishedLog. eapply triple_bind; [apply law_read, laws|]. intros [[text etag]|].
  - apply triple_pure. intros Hread.
    eapply (triple_bind _ _ _ (λ log w, readLogFromString text = Ok log ∧ at_state A C P w)).
    { apply triple_lift. intros w Hw. by destruct (readLogFromString text). }
    intros log. apply triple_pure. intros Hlog.
    eapply (triple_bind _ _ _ (λ pub w, agree A C (pub_updateKeys pub) (pub_nextKeyHashes pub) ∧ at_state A C P w)).
    { apply triple_lift. intros w Hw. destruct (resolvedHead log brokenLog etag) as [pub|] eqn:Hpub; [|done].
      split; [|done]. unfold resolvedHead in Hpub. rewrite result_bind_ok in Hpub.
      destruct Hpub as (resolution & Hr & Hpub). repeat (case_match; try done).
      injection Hpub as <-. by eapply Hread. }
    intros pub. apply triple_pure. intros Hagree.
    eapply (triple_bind _ _ _ (λ _, at_state A C P)).
    { apply triple_lift. intros w Hw. by destruct (assertPublishedLogDid _ _). }
    intros ?. eapply (triple_bind _ _ _ (λ _, at_state A C P)); [|intros ?; by apply triple_ret].
    unfold checkAndAdvanceAccountLogPin. eapply triple_bind; [apply law_pin_read, laws|]. intros pin.
    eapply (triple_bind _ _ _ (λ _, at_state A C P)).
    { apply triple_lift. intros w Hw. by destruct (checkAccountLogContinuity _ _). }
    intros served. case_decide; [by apply triple_ret|apply law_pin_write, laws].
  - apply triple_pure. intros _. eapply triple_bind; [apply law_pin_read, laws|]. intros [pin|].
    + by apply triple_throw.
    + by apply triple_ret.
Qed.

(** The error side of every step. *)
Definition failed_run (given : ClientWebvhUpdateKeys) (e : js_error) (w : W) : Prop :=
  recoverable w ∧ (e = WebvhLogConflictError → startable given w).

Lemma fail_at given A C P e w : at_state A C P w → owned P → ready given P A C → failed_run given e w.
Proof.
  intros Hw Ho Hr. split; [|intros _; by exists A, C, P]. exists A, C, P. split_and!; [done..|].
  destruct Hr as (_ & _ & [?|[_ ?]]); auto.
Qed.

Lemma put_fails given A C P A' C' e w :
  owned P → ready given P A C → (active P A' C' ∨ promoted P A' C') →
  at_state A C P w ∨ (err_name e ≠ "PreconditionFailedError" ∧ e ≠ WebvhLogConflictError ∧ at_state A' C' P w) →
  failed_run given (mapPrecondition e) w.
Proof.
  intros Ho Hr Hr' [Hw|(Hn & Hc & Hw)]; [by eapply fail_at|]. unfold mapPrecondition.
  rewrite decide_False by done. split; [|done]. by exists A', C', P.
Qed.

(** Publishing an entry that keeps the client recoverable. *)
Lemma publish_safe given A C P updated etag :
  let A' := (currentLogParameters (upd_log updated)).1 in
  let C' := (currentLogParameters (upd_log updated)).2 in
  owned P → ready given P A C → (active P A' C' ∨ promoted P A' C') →
  triple (at_state A C P) (publishUpdatedLog idStore updated etag) (λ _, at_state A' C' P) (failed_run given).
Proof.
  intros A' C' Ho Hr Hr'. unfold publishUpdatedLog.
  destruct (upd_webDoc updated) as [doc|]; [|apply triple_throw; intros w Hw; by eapply fail_at].
  assert (∀ e w, e ≠ WebvhLogConflictError → at_state A' C' P w → failed_run given e w) as Hafter.
  { intros e w He Hw. split; [|done]. by exists A', C', P. }
  unfold publishWebvhLog, putLogResource.
  eapply (triple_bind _ _ _ (λ _, at_state A' C' P)).
  - eapply (triple_bind _ _ _ (λ _, at_state A' C' P)).
    { eapply triple_try; [apply law_put_log, laws|]. intros e. apply triple_throw. intros w Hw. by eapply put_fails. }
    intros written. eapply (triple_bind _ _ _ (λ _, at_state A' C' P)).
    { apply triple_lift. intros w Hw. destruct (pinOfLog _) as [|e] eqn:He; [done|]. apply Hafter; [|done].
      unfold pinOfLog, checkAccountLogContinuity in He. repeat (case_match; try done).
      all: cbn in He; by injection He as <-. }
    intros pin. eapply (triple_bind _ _ _ (λ _, at_state A' C' P)); [|intros ?; by apply triple_ret].
    intros w Hw. pose proof (law_pin_write laws A' C' P (id_logId idStore) pin w Hw) as H.
    destruct (pin_write _ _ _ w) as [[[]|e] w'] eqn:Hpw; [done|]. apply Hafter; [|done].
    by eapply law_pin_quiet.
  - intros written. unfold putDidWebProjection.
    eapply (triple_bind _ _ _ (λ _, at_state A' C' P)); [|intros ?; by apply triple_ret].
    eapply (triple_bind _ _ _ (λ _, at_state A' C' P)); [|intros ?; by apply triple_ret].
    eapply triple_throws; [apply law_put_doc, laws|]. intros e w [? ?]. by apply Hafter.
Qed.

(** ** The two endings of an attempt *)

Lemma recoverable_failed given e w A C P :
  at_state A C P w → owned P → active P A C ∨ promoted P A C → e ≠ WebvhLogConflictError → failed_run given e w.
Proof. intros Hw Ho Ha He. split; [by exists A, C, P|done]. Qed.

(** A persist of seeds that suit the log as well as the present ones do. *)
Lemma persist_safe given A C P next :
  owned P → (active P A C ∨ promoted P A C) → owned next → active next A C →
  triple (at_state A C P) (persistUpdateKeys next) (λ _, at_state A C next) (failed_run given).
Proof.
  intros Ho Hr Hn Ha. eapply triple_throws; [apply law_persist, laws|].
  intros e w [He [Hw|Hw]]; eapply recoverable_failed; eauto.
Qed.

Lemma ready_stands given P A C : ready given P A C → active P A C ∨ promoted P A C.
Proof. intros (_ & _ & [?|[_ ?]]); auto. Qed.

Lemma lift_safe {A'} given A C P (r : result A') :
  owned P → ready given P A C →
  triple (at_state A C P) (lift r) (λ a w, r = Ok a ∧ at_state A C P w) (failed_run given).
Proof. intros Ho Hr. apply triple_lift. intros w Hw. destruct r; [done|by eapply fail_at]. Qed.

Lemma multibases_of given multibases : updateKeyMultibases given = Ok multibases →
  updateKeyMultibase (updateSeed given) = Ok (mb_update multibases) ∧
  updateKeyMultibase (stagedSeed given) = Ok (mb_staged multibases).
Proof.
  unfold updateKeyMultibases. rewrite result_bind_ok. intros (u & Hu & Hm). rewrite result_bind_ok in Hm.
  destruct Hm as (s & Hs & Hm). destruct (pendingStagedSeed given); [|by injection Hm as <-].
  rewrite result_bind_ok in Hm. by destruct Hm as (p & _ & [= <-]).
Qed.

(** A log that has advanced is never one a ready client stays behind on. *)
Lemma advanced_ready given P A C multibases advanced :
  ready given P A C → updateKeyMultibases given = Ok multibases → advancedSeeds A multibases given = Some advanced →
  advanced.2 = None ∨
  advanced.1 = stagedSeed P ∧ advanced.2 = pendingStagedSeed P ∧ promoted P A C.
Proof.
  intros (Hu & Hs & Hr) [_ Hms]%multibases_of.
  unfold advancedSeeds. case_decide as Hin.
  - intros [= <-]. right. destruct Hr as [(u' & s' & _ & Hs2 & _ & Hnot & _)|[Hp Hr]]; [|naive_solver].
    destruct Hnot. rewrite Hs, Hs2 in Hms. by injection Hms as ->.
  - intros Ha. left. repeat (case_match; try done). by injection Ha as <-.
Qed.

Lemma promoted_active P A C seed :
  promoted P A C → pendingStagedSeed P = Some seed → active (mkUpdateKeys (stagedSeed P) seed None) A C.
Proof. intros (s & seed' & p & Hs & Hseed & Hp & H) ?. simplify_eq. exists s, p. naive_solver. Qed.

Lemma finish_safe given A C P published advanced :
  owned P → ready given P A C →
  advanced.2 = None ∨ advanced.1 = stagedSeed P ∧ advanced.2 = pendingStagedSeed P ∧ promoted P A C →
  triple (at_state A C P) (finishAdvanced idStore persistUpdateKeys published advanced)
    (λ _, rotated given) (failed_run given).
Proof.
  intros Ho Hr Ha. unfold finishAdvanced. destruct advanced as [first [staged|]]; cbn [fst snd] in Ha |- *.
  2: { apply triple_throw. intros w Hw. by eapply fail_at. }
  destruct Ha as [|(-> & Hstaged & Hp)]; [done|].
  assert (active (mkUpdateKeys (stagedSeed P) staged None) A C) as Hact by by apply promoted_active.
  assert (owned (mkUpdateKeys (stagedSeed P) staged None)) as Hown.
  { destruct Ho as (? & ? & Hpend). split_and!; [done|by apply Hpend|done]. }
  eapply triple_bind; [by apply persist_safe; [|eapply ready_stands| |]|]. intros ?.
  unfold concludeWithPublishedLog, putDidWebProjection.
  eapply (triple_bind _ _ _ (λ _, at_state A C (mkUpdateKeys (stagedSeed P) staged None))).
  - eapply (triple_bind _ _ _ (λ _, at_state A C (mkUpdateKeys (stagedSeed P) staged None)));
      [|intros ?; by apply triple_ret].
    eapply (triple_bind _ _ _ (λ _, at_state A C (mkUpdateKeys (stagedSeed P) staged None)));
      [|intros ?; by apply triple_ret].
    eapply triple_throws; [apply law_put_doc, laws|]. intros e w [? ?]. by eapply recoverable_failed; eauto.
  - intros ?. apply triple_ret. intros w Hw. exists A, C, (mkUpdateKeys (stagedSeed P) staged None).
    destruct Hr as (_ & -> & _). done.
Qed.

(** The parameters of the entry carry a client over to its staged key. *)
Lemma rotated_promotes given published multibases newSeed n :
  updateKeyMultibase (stagedSeed given) = Ok (mb_staged multibases) →
  updateKeyMultibase newSeed = Ok n → n ∉ pub_updateKeys published → n ≠ mb_staged multibases →
  promoted (mkUpdateKeys (updateSeed given) (stagedSeed given) (Some newSeed))
    (rotatedKeys published multibases) (rotatedHashes published multibases n).
Proof.
  intros Hs Hn Hnot Hne. exists (mb_staged multibases), newSeed, n. unfold rotatedKeys, rotatedHashes.
  split_and!; try done; [set_solver| |rewrite elem_of_js_dedup; set_solver].
  rewrite elem_of_app, list_elem_of_filter, list_elem_of_singleton. naive_solver.
Qed.

Lemma rotate_entry_safe given published multibases P :
  owned P → ready given P (pub_updateKeys published) (pub_nextKeyHashes published) →
  updateKeyMultibases given = Ok multibases → mb_staged multibases ∉ pub_updateKeys published →
  triple (at_state (pub_updateKeys published) (pub_nextKeyHashes published) P)
    (rotateEntry updateDID randomSeed idStore persistUpdateKeys given published multibases)
    (λ _, rotated given) (failed_run given).
Proof.
  intros Ho Hr Hm Hnot. unfold rotateEntry. set (A := pub_updateKeys published) in *.
  set (C := pub_nextKeyHashes published) in *.
  assert (∀ e w, at_state A C P w → failed_run given e w) as Hfail by by intros; eapply fail_at.
  case_decide as Hin; [apply triple_throw; intros w; apply Hfail|]. case_decide as Hcommitted; [apply triple_throw; intros w; apply Hfail|].
  destruct (multibases_of _ _ Hm) as [Hmu Hms].
  destruct Ho as (Hou & Hos & Hop). pose proof Hr as (Hu & Hs & _). rewrite Hu in Hmu. rewrite Hs in Hms.
  eapply triple_bind; [eapply triple_throws; [apply law_random, laws|by apply Hfail]|].
  intros newSeed. apply triple_pure. intros [Hnew Hfresh].
  set (P1 := mkUpdateKeys (updateSeed given) (stagedSeed given) (Some newSeed)).
  assert (owned P1) as Ho1 by (split_and!; cbn; [congruence..|by intros ? [= <-]]).
  assert (active P1 A C) as Ha1.
  { exists (mb_update multibases), (mb_staged multibases). cbn. by rewrite Hu, Hs. }
  assert (ready given P1 A C) as Hr1 by (split_and!; auto).
  eapply triple_bind; [apply persist_safe; [done|by eapply ready_stands|done|done]|]. intros ?.
  eapply triple_bind; [by apply lift_safe|]. intros signer. apply triple_pure. intros _.
  eapply triple_bind; [by apply lift_safe|]. intros n. apply triple_pure. intros Hn.
  destruct (Hfresh _ Hn) as [Hnotin Hne]. rewrite Hms in Hne.
  eapply triple_bind; [by apply lift_safe|]. intros updated. apply triple_pure. intros Hupd.
  apply (law_update laws) in Hupd.
  assert (promoted P1 (rotatedKeys published multibases) (rotatedHashes published multibases n)) as Hp1.
  { apply rotated_promotes; [by rewrite Hs|done|done|congruence]. }
  eapply triple_bind; [apply (publish_safe given A C P1); [done|done|rewrite Hupd; auto]|].
  rewrite Hupd. cbn [fst snd]. intros ?.
  eapply triple_bind; [apply persist_safe; [done|auto| |by apply (promoted_active P1)]|].
  { by split_and!; cbn; [rewrite Hs|..]. }
  intros ?. apply triple_ret. intros w Hw. eexists _, _, _. split_and!; [exact Hw| | |done].
  - by split_and!; cbn; [rewrite Hs|..].
  - by apply (promoted_active P1).
Qed.

(** ** The ceremony *)

Lemma rotate_once_safe given expectedDid :
  triple (startable given)
    (rotateWebvhUpdateKeyOnce updateDID randomSeed idStore persistUpdateKeys given expectedDid)
    (λ _, rotated given) (failed_run given).
Proof.
  apply triple_exists. intros A. apply triple_exists. intros C. apply triple_exists. intros P.
  apply (triple_weaken (λ w, (owned P ∧ ready given P A C) ∧ at_state A C P w)); [|intros w (Hw & Ho & Hr); exact (conj (conj Ho Hr) Hw)].
  apply triple_pure. intros [Ho Hr]. unfold rotateWebvhUpdateKeyOnce.
  assert (∀ e w, at_state A C P w → failed_run given e w) as Hfail by by intros; eapply fail_at.
  eapply triple_bind; [eapply triple_throws; [apply read_shows|apply Hfail]|].
  intros [published|]; apply triple_pure; [|intros _; apply triple_throw; intros w; apply Hfail].
  intros Hagree. assert (ready given P (pub_updateKeys published) (pub_nextKeyHashes published)) as Hr'
    by by eapply ready_agree.
  eapply triple_weaken; [|intros w Hw; by eapply shows_agree].
  eapply triple_bind; [by apply lift_safe|]. intros multibases. apply triple_pure. intros Hm.
  destruct (advancedSeeds _ _ _) as [advanced|] eqn:Hadv.
  - apply finish_safe; [done|done|by eapply advanced_ready].
  - apply rotate_entry_safe; [done..|]. unfold advancedSeeds in Hadv. by case_decide.
Qed.

Lemma retry_safe {A} (Q : A → W → Prop) given run attempts :
  triple (startable given) run Q (failed_run given) →
  triple (startable given) (retryAttempts attempts run) Q (failed_run given).
Proof.
  intros Hrun. induction attempts as [|attempts IH]; [done|]. cbn.
  eapply triple_try; [exact Hrun|]. intros e. unfold isLogConflict. case_bool_decide as He; cbn.
  - destruct attempts; [by apply triple_throw|]. eapply triple_weaken; [exact IH|]. by intros w [_ H]; apply H.
  - by apply triple_throw.
Qed.

(** C2: Rotating the update key, through all three attempts of the conflict
    retry. From any state in which the persisted seeds are the given ones (a
    pending one left by a torn run aside) and reach the served log, a run that
    resolves leaves the given staged seed active, the log at its key and the
    next key's hash committed; a run that throws, at any call, leaves seeds
    persisted which still reach the served log: the log never depends on a
    seed that was not persisted. *)
Theorem rotation_never_strands given expectedDid :
  triple (startable given)
    (rotateWebvhUpdateKey updateDID randomSeed idStore persistUpdateKeys given expectedDid)
    (λ _, rotated given) (λ _, recoverable).
Proof.
  eapply triple_throws; [apply retry_safe, rotate_once_safe|]. by intros e w [? _].
Qed.
End safety.

(** A host and a client to run the ceremony on: some of the log's writes lose
    a race, and the client's storage fills up after some persists. *)
Module Demo.
Definition entry (version : string) (A C : list string) : DIDLogEntry :=
  mkEntry version version (Some "m") (Some "s") (Some A) (Some C) None None.

Definition before_log : DIDLog := [entry "1-a" ["u"] ["h:u"; "h:s"]].
Definition after_log : DIDLog := before_log ++ [entry "2-b" ["s"] ["h:s"; "h:n"]].

#[local] Instance keys : WebvhKeys := {| deriveNextKeyHash key := ("h:" ++ key)%string; vmFragmentOf := Some |}.

#[local] Instance resolver : WebvhResolver := {|
  readLogFromString text :=
    if decide (text = "before") then Ok before_log
    else if decide (text = "after") then Ok after_log else Throw (plain_error "unreadable");
  resolveDIDFromLog log :=
    Ok (mkResolution (Some "did") (Some empty_document)
      (mkMeta None (Some (currentLogParameters log).1) (Some (currentLogParameters log).2)))
|}.

#[local] Instance writer : WebvhWriter := {|
  WebDoc := ();
  Signer := ();
  logToJsonlString log :=
    if decide (currentLogParameters log = currentLogParameters before_log) then "before"
    else if decide (currentLogParameters log = currentLogParameters after_log) then "after" else "other";
  generateParallelDidWeb _ _ := ();
  updateKeyMultibase seed := Ok seed;
  updateKeySigner _ := Ok ()
|}.

Definition updateDID (log : DIDLog) (_ : ResolutionMeta) (_ : Signer) (A C : list string) : result Updated :=
  Ok (mkUpdated "did" empty_document (log ++ [entry "2-b" A C]) (mkMeta None (Some A) (Some C)) (Some tt)).

Record world := mkWorld { served : string; races : nat; seeds : ClientWebvhUpdateKeys; room : nat }.

Definition conflicted (w : world) : world := mkWorld (served w) (pred (races w)) (seeds w) (room w).
Definition put (write : PutIdResource) : comp world (option (option string)) := λ w,
  match put_content write with
  | WebDocument _ => (Ok None, w)
  | LogText text =>
      if decide (races w ≠ 0) then (Throw (JsError "PreconditionFailedError" ""), conflicted w)
      else if decide (text = "other") then (Throw (plain_error "unreadable"), w)
      else (Ok None, mkWorld text (races w) (seeds w) (room w))
  end.
Definition idStore : WebvhIdStore world :=
  mkIdStore (λ _ w, (Ok (Some (served w, None)), w)) put
    (mkPinStore (λ _, mret None) (λ _ _, mret ())) "id".
Definition persist (next : ClientWebvhUpdateKeys) : comp world () := λ w,
  match room w with
  | 0 => (Throw (plain_error "quota"), w)
  | S room => (Ok (), mkWorld (served w) (races w) next room)
  end.
Definition random : comp world string := λ w,
  if decide (served w = "before" ∧ stagedSeed (seeds w) ≠ "n") then (Ok "n", w) else (Throw (plain_error "entropy"), w).

Definition params (text : string) : list string * list string :=
  match readLogFromString text with Ok log => currentLogParameters log | Throw _ => ([], []) end.
Definition authorizes (w : world) (key : string) : Prop := key ∈ (params (served w)).1.
Definition commits (w : world) (hash : string) : Prop := hash ∈ (params (served w)).2.
Definition own (_ : string) : Prop := True.

Lemma params_written log : logToJsonlString log ≠ "other" → params (logToJsonlString log) = currentLogParameters log.
Proof. cbn. by repeat case_decide. Qed.

Lemma shows_served w : shows authorizes commits own (params (served w)).1 (params (served w)).2 w.
Proof. by intros key _. Qed.

Lemma effective_last A0 C0 log e A C : p_updateKeys e = Some A → p_nextKeyHashes e = Some C →
  last (effectiveFrom A0 C0 (log ++ [e])) = Some (A, C).
Proof.
  intros HA HC. revert A0 C0. induction log as [|e' log IH]; intros A0 C0; cbn; [by rewrite HA, HC|].
  rewrite last_cons. by rewrite IH.
Qed.

Lemma demo_laws : rotation_laws updateDID random idStore persist authorizes commits seeds own.
Proof.
  constructor.
  - intros A C P w [Hs Hp]. split; [|done]. intros text etag log resolution [= <- <-] Hlog [= <-] key Hk.
    destruct (Hs key Hk) as [HA HC]. unfold authorizes, commits, params in HA, HC. by rewrite Hlog in HA, HC.
  - by intros A C P logId w Hw.
  - by intros A C P logId pin w Hw.
  - intros A C P log etag absent w [Hs Hp]. unfold idStore, put. cbn [putIdResource put_content].
    case_decide; [left; split; [exact Hs|done]|]. case_decide as Htext; [by left|].
    rewrite <- (params_written log Htext). split; [exact (shows_served (mkWorld (logToJsonlString log) (races w) (seeds w) (room w)))|done].
  - by intros A C P doc type w Hw.
  - done.
  - intros A C P next w [Hs Hp]. unfold persist. destruct (room w); [split; [done|by left]|]. done.
  - intros A C P w [Hs <-]. unfold random. case_decide as Hd; [|done]. destruct Hd as [Ht Hst].
    split; [|done]. split; [done|]. intros m [= <-]. split; [|by intros [= ?]].
    assert (mine own "n") as Hn by by exists "n".
    rewrite (proj1 (Hs "n" Hn)). unfold authorizes. rewrite Ht. vm_compute. set_solver.
  - intros log meta signer A C updated [= <-]. unfold currentLogParameters, effectiveParameters. cbn.
    by rewrite (effective_last _ _ log _ A C).
Qed.

Definition given : ClientWebvhUpdateKeys := mkUpdateKeys "u" "s" None.
Definition rotate : comp world string := rotateWebvhUpdateKey updateDID random idStore persist given None.

Lemma demo_startable races room : startable authorizes commits seeds own given (mkWorld "before" races given room).
Proof.
  eexists _, _, given. split; [split; [exact (shows_served (mkWorld "before" races given room))|done]|]. split; [by split_and!|]. split_and!; [done..|].
  left. exists "u", "s". split_and!; [done..| | |]; vm_compute; set_solver.
Qed.

(** Two lost races, and a storage that is full by the last persist: the
    client still reaches the log. With room, it has rotated. *)
Lemma rotation_never_strands_witness :
  match rotate (mkWorld "before" 2 given 3) with
  | (Throw e, w) => e = plain_error "quota" ∧ served w = "after" ∧
      recoverable authorizes commits seeds own w
  | _ => False
  end ∧
  match rotate (mkWorld "before" 2 given 4) with
  | (Ok did, w) => did = "did" ∧ rotated authorizes commits seeds own given w
  | _ => False
  end.
Proof.
  pose proof (rotation_never_strands updateDID random idStore persist authorizes commits seeds own demo_laws
    given None _ (demo_startable 2 3)) as H3.
  pose proof (rotation_never_strands updateDID random idStore persist authorizes commits seeds own demo_laws
    given None _ (demo_startable 2 4)) as H4.
  split.
  - destruct (rotate (mkWorld "before" 2 given 3)) as [r w] eqn:Hr. unfold rotate in Hr. rewrite Hr in H3.
    vm_compute in Hr. injection Hr as <- <-. by split_and!.
  - destruct (rotate (mkWorld "before" 2 given 4)) as [r w] eqn:Hr. unfold rotate in Hr. rewrite Hr in H4.
    vm_compute in Hr. injection Hr as <- <-. by split_and!.
Defined.
End Demo.
