(* ===== verification/LadderIndex.v ===== *)
(** * The update-key ladder's derivation

    [src/src/webvh/ladderDerivation.ts]: the rungs and the ladder VM key a
    ladder seed yields. HKDF-SHA-256 is the hash library's; the key of a seed
    is [updateKeyMultibase]. *)

From Stdlib Require Ascii.
From S2P Require Import Prelude AccountDocument LadderRungs AccountLog LogStore.

(** [hkdf(sha256, ikm, salt, info, length)], over bytes. *)
Class HashLibrary := { hkdf_sha256 : string → string → string → nat → string }.

Definition LADDER_SALT : string := "freewallet/unlock/update-ladder/v1".
Definition LADDER_RUNG_INFO_PREFIX : string := "rung/".
Definition LADDER_VM_INFO : string := "vm".

Record LadderRung := mkRung { rung_index : Z; rung_seed : string; rung_keyMultibase : string }.
#[export] Instance LadderRung_eq_dec : EqDecision LadderRung.
Proof. solve_decision. Defined.

Section derivation.
Context {writer : WebvhWriter} {hashes : HashLibrary}.

Definition ladderDerive (ladderSeed info : string) : string := hkdf_sha256 ladderSeed LADDER_SALT info 32.

(** The label of a rung: its index in decimal. *)
Definition rungInfo (index : Z) : string := (LADDER_RUNG_INFO_PREFIX ++ pretty (Z.to_N index))%string.

Definition ladderRungSeed (ladderSeed : string) (index : Z) : result string :=
  if decide (index < 0)%Z then mthrow (plain_error "Invalid ladder rung index.")
  else Ok (ladderDerive ladderSeed (rungInfo index)).

Definition ladderRung (ladderSeed : string) (index : Z) : result LadderRung :=
  seed ← ladderRungSeed ladderSeed index;
  key ← updateKeyMultibase seed;
  Ok (mkRung index seed key).

Definition ladderVmSeed (ladderSeed : string) : string := ladderDerive ladderSeed LADDER_VM_INFO.

Definition ladderVmKeyMultibase (ladderSeed : string) : result string :=
  updateKeyMultibase (ladderVmSeed ladderSeed).
End derivation.

(** One salt, separate labels: no rung is derived under the VM's label, and
    no two rungs under one label. *)
Lemma rung_labels_distinct i j : (0 ≤ i)%Z → (0 ≤ j)%Z → rungInfo i = rungInfo j → i = j.
Proof. unfold rungInfo. intros Hi Hj H. simplify_eq/=. lia. Qed.

Lemma rung_label_not_vm i : rungInfo i ≠ LADDER_VM_INFO.
Proof. done. Qed.

(** * Reading a ladder in the account log: the index and the anchors

    The first half of [src/src/webvh/ladder.ts]: which rung of a seed the log
    commits, the positional index of the log every walk reads, the backward
    recovery of earlier rungs, and the anchor a credential's own member
    names. *)

Definition LADDER_MAX_SCAN : nat := 128.

Definition LadderAttributionError (msg : string) : js_error := JsError "LadderAttributionError" msg.
Definition NextKeyHashesEmptyError (msg : string) : js_error := JsError "NextKeyHashesEmptyError" msg.

Inductive LadderRungState := committed_rung | revealed_rung.
#[export] Instance LadderRungState_eq_dec : EqDecision LadderRungState.
Proof. solve_decision. Defined.

(** The indices the scan makes. *)
Definition scan_indices (maxScan : nat) : list Z := Z.of_nat <$> seq 0 maxScan.

Section seeded.
Context {writer : WebvhWriter} {hashes : HashLibrary} {keys : WebvhKeys}.

Definition deriveLadderRungs (ladderSeed : string) (maxScan : nat) : result (list (LadderRung * string)) :=
  mapM (λ index, rung ← ladderRung ladderSeed index; Ok (rung, deriveNextKeyHash (rung_keyMultibase rung)))
    (scan_indices maxScan).

(** The rungs the log authorizes, and those whose hash alone it commits. *)
Definition revealedRungs (A : list string) (scanned : list (LadderRung * string)) : list LadderRung :=
  (filter (λ s, rung_keyMultibase s.1 ∈ A) scanned).*1.
Definition committedRungs (A C : list string) (scanned : list (LadderRung * string)) : list LadderRung :=
  (filter (λ s, rung_keyMultibase s.1 ∉ A ∧ s.2 ∈ C) scanned).*1.

Definition attributeLadderRung (ladderSeed : string) (A C : list string) (maxScan : nat) :
    result (LadderRung * LadderRungState) :=
  scanned ← deriveLadderRungs ladderSeed maxScan;
  match revealedRungs A scanned, committedRungs A C scanned with
  | _ :: _ :: _, _ | _, _ :: _ :: _ =>
      mthrow (LadderAttributionError "The published log commits more than one rung of this ladder in the same role; refusing to self-enroll on an ambiguous attribution.")
  | [rung], _ => Ok (rung, revealed_rung)
  | [], [rung] => Ok (rung, committed_rung)
  | [], [] =>
      mthrow (LadderAttributionError "The published log commits no rung of this ladder; the credential has been revoked, was never published, or does not belong to this account.")
  end.
End seeded.

Definition assertNextKeyHashesRemain (nextKeyHashes : list string) (ceremony : string) : result (list string) :=
  match nextKeyHashes with
  | [] => mthrow (NextKeyHashesEmptyError ("did:webvh: " ++ ceremony ++
      " would publish an entry committing no next key hash, which switches prerotation off; the entry was not published."))
  | _ => Ok nextKeyHashes
  end.

(** ** The index *)

Record LadderEntryFacts := mkFacts {
  f_addedKeys : list string;
  f_removedKeys : list string;
  f_addedHashes : list string;
  f_signers : list string
}.

(** Where a hash was first committed. *)
Record LadderCommitOrigin := mkOrigin { entryIndex : nat; position : nat }.

Record IndexedLog := mkIndexed {
  params : list (list string * list string);
  facts : list LadderEntryFacts;
  commitIndex : gmap string LadderCommitOrigin
}.

(** [credentialVmId.split('#')[0]]. *)
Fixpoint before_hash (s : string) : string :=
  match s with
  | EmptyString => EmptyString
  | String c s => if decide (c = Ascii.ascii_of_nat 35) then EmptyString else String c (before_hash s)
  end.

(** [array.indexOf(value)]. *)
Definition index_of (x : string) (xs : list string) : option nat := fst <$> list_find (λ y, y = x) xs.

Section index.
Context {readers : DocumentReaders} {keys : WebvhKeys}.

Definition entrySigners (entry : option DIDLogEntry) : list string :=
  omap (λ vm, vm ≫= vmFragmentOf) (default [] (entry ≫= proof)).

Definition ladderSigned (entry : option DIDLogEntry) (ladderKeys : gset string) : bool :=
  bool_decide (Exists (λ key, key ∈ ladderKeys) (entrySigners entry)).

Definition credentialSurvives (entry : option DIDLogEntry) (vmId : option string) : bool :=
  match vmId, entry ≫= state with
  | Some vmId, Some doc => bool_decide (vmId ∈ relationIds (relationOf doc keyAgreement))
  | _, _ => false
  end.

(** The document of the entry before the one at [index]. *)
Definition entry_before (log : DIDLog) (index : nat) : option DIDLogEntry :=
  match index with 0 => None | S index => log !! index end.

Definition introducesLadderVm (log : DIDLog) (index : nat) : bool :=
  match (log !! index) ≫= state with
  | None => false
  | Some doc =>
      let standing := from_option ladderVmIds [] (entry_before log index ≫= state) in
      bool_decide (Exists (λ vmId, vmId ∉ standing) (ladderVmIds doc))
  end.

Definition factsOf (previous current : list string * list string) (entry : option DIDLogEntry) : LadderEntryFacts :=
  mkFacts (filter (λ key, key ∉ previous.1) current.1)
    (filter (λ key, key ∉ current.1) (js_dedup previous.1))
    (filter (λ hash, hash ∉ previous.2) current.2)
    (entrySigners entry).

(** [addedHashes.forEach((hash, at) => ...)]: the first commitment stands. *)
Fixpoint recordOrigins (entry pos : nat) (added : list string) (m : gmap string LadderCommitOrigin) :
    gmap string LadderCommitOrigin :=
  match added with
  | [] => m
  | hash :: added =>
      recordOrigins entry (S pos) added
        (match m !! hash with Some _ => m | None => <[hash := mkOrigin entry pos]> m end)
  end.

Fixpoint indexFrom (index : nat) (previous : list string * list string) (log : DIDLog)
    (params : list (list string * list string)) (m : gmap string LadderCommitOrigin) :
    list LadderEntryFacts * gmap string LadderCommitOrigin :=
  match params with
  | [] => ([], m)
  | current :: params =>
      let here := factsOf previous current (head log) in
      let '(rest, m) := indexFrom (S index) current (tail log) params
        (recordOrigins index 0 (f_addedHashes here) m) in
      (here :: rest, m)
  end.

Definition indexLadderLog (log : DIDLog) (params : list (list string * list string)) :
    list LadderEntryFacts * gmap string LadderCommitOrigin :=
  indexFrom 0 ([], []) log params ∅.

(** The memo of [ladderLogIndexes] holds what this computes: a log is not
    mutated. *)
Definition indexedLadderLog (log : DIDLog) : IndexedLog :=
  let params := effectiveParameters log in
  let '(facts, commitIndex) := indexLadderLog log params in
  mkIndexed params facts commitIndex.

(** ** Earlier rungs, backwards from the anchor *)

(** The key of one entry whose hash is the given one. *)
Definition keyOfHash (hash : string) (added : list string) : option string :=
  snd <$> list_find (λ key, deriveNextKeyHash key = hash) added.

(** The first entry from [index] on that retires a committing signer and
    reveals the pre-image. *)
Fixpoint revealFrom (index : nat) (fs : list LadderEntryFacts) (committerSigners : list string) (hash : string) :
    option (nat * string) :=
  match fs with
  | [] => None
  | candidate :: fs =>
      match (if bool_decide (Exists (λ key, key ∈ committerSigners) (f_removedKeys candidate))
             then keyOfHash hash (f_addedKeys candidate) else None) with
      | Some key => Some (index, key)
      | None => revealFrom (S index) fs committerSigners hash
      end
  end.

Definition findRungReveal (fs : list LadderEntryFacts) (after : nat) (committerSigners : list string)
    (hash : string) : option (nat * string) :=
  revealFrom (S after) (drop (S after) fs) committerSigners hash.

(** The rung before the one at [cursorHash], by the last-position rule (a
    climb) or the adjacency rule (a handover). *)
Definition earlierRung (log : DIDLog) (idx : IndexedLog) (credentialVmId : string) (seenHashes : gset string)
    (origin : LadderCommitOrigin) (originFacts : LadderEntryFacts) : option (string * string) :=
  if decide (position origin = length (f_addedHashes originFacts) - 1) then
    match f_addedKeys originFacts with
    | [predecessor] =>
        if bool_decide (predecessor ∈ f_signers originFacts) &&
           credentialSurvives (log !! entryIndex origin) (Some credentialVmId) then
          let hash := deriveNextKeyHash predecessor in
          let installsInventory :=
            negb (credentialSurvives (entry_before log (entryIndex origin)) (Some credentialVmId)) ||
            introducesLadderVm log (entryIndex origin) in
          if installsInventory && negb (bool_decide (hash ∈ f_addedHashes originFacts)) then None
          else if decide (hash ∈ seenHashes) then None
          else Some (predecessor, hash)
        else None
    | _ => None
    end
  else
    match position origin with
    | 0 => None
    | S at_ =>
        match f_addedHashes originFacts !! at_ with
        | None => None
        | Some partner =>
            if decide (partner ∈ seenHashes) then None
            else
              match findRungReveal (facts idx) (entryIndex origin) (f_signers originFacts) partner with
              | Some (index, key) =>
                  if credentialSurvives (log !! index) (Some credentialVmId) then Some (key, partner) else None
              | None => None
              end
        end
    end.

Fixpoint recoverFrom (steps : nat) (log : DIDLog) (idx : IndexedLog) (credentialVmId : string)
    (seenHashes : gset string) (cursorHash : string) (cursorEntry : option nat) : list (string * string) :=
  match steps with
  | 0 => []
  | S steps =>
      match commitIndex idx !! cursorHash with
      | None => []
      | Some origin =>
          if from_option (λ cursor, bool_decide (cursor ≤ entryIndex origin)) false cursorEntry then []
          else
            match facts idx !! entryIndex origin ≫= earlierRung log idx credentialVmId seenHashes origin with
            | None => []
            | Some (key, hash) =>
                (key, hash) :: recoverFrom steps log idx credentialVmId ({[hash]} ∪ seenHashes) hash
                  (Some (entryIndex origin))
            end
      end
  end.

Definition recoverEarlierRungs (log : DIDLog) (idx : IndexedLog) (anchorHash credentialVmId : string)
    (maxScan : nat) : list (string * string) :=
  recoverFrom maxScan log idx credentialVmId {[anchorHash]} anchorHash None.

(** ** The anchor a member names *)

(** Entries before [index], latest first. *)
Definition committedByRetiredSigner (fs : list LadderEntryFacts) (index : nat) (hash : string) : bool :=
  let retired := from_option f_removedKeys [] (fs !! index) in
  bool_decide (Exists (λ entry, hash ∈ f_addedHashes entry ∧ Exists (λ signer, signer ∈ retired) (f_signers entry))
    (take index fs)).

Record CommitmentReading := mkCommitment {
  named : option string;
  stands : bool;
  retargeted : bool;
  committed : bool
}.

(** The loop's locals; [None] until the member is first seen. *)
Definition readMember (idx : IndexedLog) (index : nat) (member : ResolvedKeyAgreementMethod)
    (reading : option CommitmentReading) : CommitmentReading :=
  let value := truthy (ladderCommitment member) in
  let here hash := bool_decide (hash ∈ from_option f_addedHashes [] (facts idx !! index)) in
  match reading with
  | Some r =>
      if stands r then
        if decide (value ≠ named r) then mkCommitment (named r) true true (committed r)
        else mkCommitment (named r) true (retargeted r)
               (committed r || match value with Some hash => here hash | None => false end)
      else mkCommitment value true false
             (match value with
              | Some hash => here hash || committedByRetiredSigner (facts idx) index hash
              | None => false
              end)
  | None =>
      mkCommitment value true false
        (match value with
         | Some hash => here hash || committedByRetiredSigner (facts idx) index hash
         | None => false
         end)
  end.

Definition credentialMember (doc : AccountDocument) (did credentialVmId : string) :
    option ResolvedKeyAgreementMethod :=
  snd <$> list_find (λ method, method_id method = Some credentialVmId) (credentialKeyAgreementMethods doc did).

Fixpoint readCommitment (idx : IndexedLog) (did credentialVmId : string) (index : nat) (log : DIDLog)
    (reading : option CommitmentReading) : option CommitmentReading :=
  match log with
  | [] => reading
  | entry :: log =>
      let reading :=
        match state entry with
        | None => reading
        | Some doc =>
            match credentialMember doc did credentialVmId with
            | None => (λ r, mkCommitment (named r) false (retargeted r) (committed r)) <$> reading
            | Some member => Some (readMember idx index member reading)
            end
        end in
      readCommitment idx did credentialVmId (S index) log reading
  end.

Definition credentialLadderCommitment (log : DIDLog) (credentialVmId : string) : option CommitmentReading :=
  let did := before_hash credentialVmId in
  if decide (did = "") then None else readCommitment (indexedLadderLog log) did credentialVmId 0 log None.

Definition credentialLadderAnchor (log : DIDLog) (credentialVmId : string) : option string :=
  match credentialLadderCommitment log credentialVmId with
  | Some r => if retargeted r || negb (committed r) then None else named r
  | None => None
  end.
End index.
