(* ===== verification/LadderInventory.v ===== *)
(** * What stands of a ladder

    The inventory walk of [src/src/webvh/ladder.ts]
    ([attributeLadderInventory]) and the readings over it: which keys, hashes
    and ladder VMs of the published log belong to one credential's ladder. *)

From S2P Require Import Prelude AccountDocument LadderRungs AccountLog LogStore LadderIndex.

Record LadderStandingInventory := mkInventoryOf {
  revealedKeys : list string;
  committedHashes : list string;
  ladderVmsStanding : list string
}.

#[export] Instance LadderStandingInventory_eq_dec : EqDecision LadderStandingInventory.
Proof. solve_decision. Defined.

(** A revealed rung and the hashes committed under it. *)
Record Pending := mkPending { pending_key : string; pending_claims : list string }.

(** The walk's locals. *)
Record Inventory := mkInv {
  i_ladderKeys : gset string;
  ladderHashes : gset string;
  handedOver : gset string;
  pending : option Pending;
  prevHashes : gset string;
  prevLadderVmIds : list string;
  prevEntryDoc : option AccountDocument;
  ladderVmClaims : gmap string bool
}.

(** What the ladder is known by before the walk. *)
Record Anchored := mkAnchored { a_keys : gset string; derivedHashes : gset string }.

Section inventory.
Context {readers : DocumentReaders} {keys : WebvhKeys}.

(** What one entry adds and introduces. *)
Record EntryView := mkView {
  v_index : nat;
  v_entry : option DIDLogEntry;
  v_params : list string * list string;
  v_facts : LadderEntryFacts;
  publishedVmIds : list string;
  newVmIds : list string;
  v_introduced : list string;
  foreignVmIntroduced : bool;
  installsForeignInventory : bool
}.

Definition viewEntry (credentialVmId : option string) (w : Inventory) (index : nat) (entry : option DIDLogEntry)
    (params : list string * list string) (here : LadderEntryFacts) : EntryView :=
  let doc := entry ≫= state in
  let publishedVmIds := from_option ladderVmIds [] doc in
  let newVmIds := filter (λ vmId, vmId ∉ prevLadderVmIds w) publishedVmIds in
  let introduced :=
    match before_hash <$> credentialVmId, doc with
    | Some did, Some doc => introducedCredentialKeys doc (prevEntryDoc w) did
    | _, _ => []
    end in
  let holdsStandingVm :=
    bool_decide (Exists (λ vmId, ladderVmClaims w !! vmId = Some true) (prevLadderVmIds w)) in
  let foreignVmIntroduced := bool_decide (newVmIds ≠ []) && holdsStandingVm in
  mkView index entry params here publishedVmIds newVmIds introduced foreignVmIntroduced
    (foreignVmIntroduced || bool_decide (Exists (λ id, Some id ≠ credentialVmId) introduced)).

Definition with_hashes (f : gset string → gset string) (w : Inventory) : Inventory :=
  mkInv (i_ladderKeys w) (f (ladderHashes w)) (handedOver w) (pending w) (prevHashes w) (prevLadderVmIds w)
    (prevEntryDoc w) (ladderVmClaims w).
Definition with_pending (p : option Pending) (w : Inventory) : Inventory :=
  mkInv (i_ladderKeys w) (ladderHashes w) (handedOver w) p (prevHashes w) (prevLadderVmIds w) (prevEntryDoc w)
    (ladderVmClaims w).

(** ** Completion *)

(** The first added key whose hash is among the claims takes that hash and
    the one after it. *)
Fixpoint transferredClaims (claims keyHashes : list string) : list string :=
  match keyHashes with
  | [] => []
  | hash :: keyHashes =>
      match index_of hash claims with
      | Some at_ => hash :: option_list (claims !! S at_)
      | None => transferredClaims claims keyHashes
      end
  end.

(** The claims a completion releases. *)
Definition releasedClaims (anchored : Anchored) (stands : bool) (transferred claims : list string) : list string :=
  filter (λ hash, hash ∈ transferred ∨ ¬ (stands = true ∨ hash ∈ derivedHashes anchored)) claims.

Definition complete (anchored : Anchored) (credentialVmId : option string) (v : EntryView) (w : Inventory) : Inventory :=
  match pending w with
  | Some p =>
      if decide (pending_key p ∉ (v_params v).1) then
        let transferred := transferredClaims (pending_claims p) (deriveNextKeyHash <$> f_addedKeys (v_facts v)) in
        let stands := credentialSurvives (v_entry v) credentialVmId in
        let released := releasedClaims anchored stands transferred (pending_claims p) in
        with_pending None (with_hashes (λ hs, hs ∖ list_to_set released) w)
      else w
  | None => w
  end.

(** ** Transfer without a completion *)

Definition transferable (anchored : Anchored) (w : Inventory) (hash : string) : bool :=
  bool_decide (hash ∈ ladderHashes w ∧ hash ∉ derivedHashes anchored ∧ hash ∉ handedOver w).

Definition transferOne (anchored : Anchored) (idx : IndexedLog) (w : Inventory) (hash : string) : Inventory :=
  if transferable anchored w hash then
    match commitIndex idx !! hash with
    | None => w
    | Some origin =>
        match f_addedHashes <$> facts idx !! entryIndex origin with
        | None => w
        | Some added =>
            if decide (position origin = length added - 1) then w
            else
              let staged := match added !! S (position origin) with
                            | Some staged => if transferable anchored w staged then [staged] else []
                            | None => []
                            end in
              let transferred := hash :: staged in
              with_pending
                ((λ p, mkPending (pending_key p) (filter (λ claim, claim ∉ transferred) (pending_claims p))) <$> pending w)
                (with_hashes (λ hs, hs ∖ list_to_set transferred) w)
        end
    end
  else w.

Definition transfer (anchored : Anchored) (idx : IndexedLog) (v : EntryView) (w : Inventory) : Inventory :=
  foldl (transferOne anchored idx) w (deriveNextKeyHash <$> f_addedKeys (v_facts v)).

(** ** Reveals *)

Definition revealsOf (v : EntryView) (w : Inventory) : list string :=
  filter (λ key, key ∈ i_ladderKeys w ∨ deriveNextKeyHash key ∈ ladderHashes w) (f_addedKeys (v_facts v)).

(** The replacement hashes of a retired signer's earlier attempts, latest
    first; [None] when an attempt has another shape. *)
Fixpoint replacementHashes (earlier : list LadderEntryFacts) (retiredSigners : list string) : option (list string) :=
  match earlier with
  | [] => Some []
  | attempt :: earlier =>
      if decide (¬ Exists (λ key, key ∈ retiredSigners) (f_signers attempt)) then
        replacementHashes earlier retiredSigners
      else
        match f_addedHashes attempt with
        | [_; _] => replacementHashes earlier retiredSigners
        | [_; _; replacement] => (λ rest, replacement :: rest) <$> replacementHashes earlier retiredSigners
        | _ => None
        end
  end.
Definition resumedRevealReplacementHashes (fs : list LadderEntryFacts) (before : nat) (retiredSigners : list string) :
    option (list string) :=
  replacementHashes (reverse (take before fs)) retiredSigners.

(** The hash handed over beside the revealed rung's. *)
Definition handover (idx : IndexedLog) (v : EntryView) (w : Inventory) (key : string) : option string :=
  let keyHash := deriveNextKeyHash key in
  if decide (keyHash ∈ prevHashes w) then
    match commitIndex idx !! keyHash with
    | None => None
    | Some origin =>
        match facts idx !! entryIndex origin with
        | None => None
        | Some originFacts =>
            let added := f_addedHashes originFacts in
            let successorLast := bool_decide (position origin + 2 = length added) in
            let retiredSigners := filter (λ signer, signer ∈ f_removedKeys (v_facts v)) (f_signers originFacts) in
            let resumedReveal :=
              bool_decide (position origin = 0) && bool_decide (length added = 2) &&
              bool_decide (0 < from_option length 0
                (resumedRevealReplacementHashes (facts idx) (entryIndex origin) retiredSigners)) in
            match added !! (position origin + 1) with
            | Some successor =>
                if (negb successorLast || resumedReveal) && bool_decide (retiredSigners ≠ []) then Some successor
                else None
            | None => None
            end
        end
    end
  else None.

Definition revealRung (idx : IndexedLog) (v : EntryView) (w : Inventory) (key : string) : Inventory :=
  let claims := if installsForeignInventory v then [] else f_addedHashes (v_facts v) in
  let w := mkInv ({[key]} ∪ i_ladderKeys w) (ladderHashes w ∪ list_to_set claims) (handedOver w)
             (Some (mkPending key claims)) (prevHashes w) (prevLadderVmIds w) (prevEntryDoc w) (ladderVmClaims w) in
  match handover idx v w key with
  | None => w
  | Some successor =>
      mkInv (i_ladderKeys w) ({[successor]} ∪ ladderHashes w) ({[successor]} ∪ handedOver w)
        (Some (mkPending key (successor :: claims))) (prevHashes w) (prevLadderVmIds w) (prevEntryDoc w)
        (ladderVmClaims w)
  end.

(** Hashes committed under the standing rung's signature join its claims. *)
Definition claimSigned (v : EntryView) (w : Inventory) : Inventory :=
  match pending w with
  | Some p =>
      if negb (installsForeignInventory v) && ladderSigned (v_entry v) (i_ladderKeys w) then
        with_pending (Some (mkPending (pending_key p) (pending_claims p ++ f_addedHashes (v_facts v))))
          (with_hashes (λ hs, hs ∪ list_to_set (f_addedHashes (v_facts v))) w)
      else w
  | None => w
  end.

Definition reveal (idx : IndexedLog) (v : EntryView) (w : Inventory) : result Inventory :=
  let ambiguous := LadderAttributionError
    "The published log reveals more than one rung of this ladder at once; refusing to attribute an ambiguous history." in
  match revealsOf v w, pending w with
  | _ :: _ :: _, _ | [_], Some _ => mthrow ambiguous
  | [key], None => Ok (revealRung idx v w key)
  | [], _ => Ok (claimSigned v w)
  end.

(** ** Ladder VMs *)

Definition ownsVm (anchored : Anchored) (credentialVmId : option string) (v : EntryView) (w : Inventory) : bool :=
  let one := bool_decide (length (newVmIds v) = 1) in
  let coIntroduced :=
    match credentialVmId with Some id => one && bool_decide (v_introduced v = [id]) | None => false end in
  let commitmentClaimed :=
    match credentialVmId with
    | Some id => one && bool_decide (Exists (λ hash, hash ∈ derivedHashes anchored) (f_addedHashes (v_facts v))) &&
        bool_decide (Forall (λ other, other = id) (v_introduced v))
    | None => false
    end in
  let signerClaimed :=
    one && ladderSigned (v_entry v) (i_ladderKeys w) && negb (foreignVmIntroduced v) &&
    (bool_decide (v_introduced v = []) ||
     match credentialVmId with Some id => bool_decide (id ∈ v_introduced v) | None => false end) in
  coIntroduced || commitmentClaimed || signerClaimed.

Definition claimVms (anchored : Anchored) (credentialVmId : option string) (v : EntryView) (w : Inventory) : Inventory :=
  let claim := ownsVm anchored credentialVmId v w in
  mkInv (i_ladderKeys w) (ladderHashes w) (handedOver w) (pending w) (list_to_set (v_params v).2)
    (js_dedup (publishedVmIds v)) (v_entry v ≫= state)
    (foldl (λ m vmId, <[vmId := claim]> m) (ladderVmClaims w) (newVmIds v)).

(** ** The walk *)

Definition inventoryEntry (anchored : Anchored) (credentialVmId : option string) (idx : IndexedLog) (w : Inventory)
    (index : nat) (entry : option DIDLogEntry) (params : list string * list string) (here : LadderEntryFacts) :
    result Inventory :=
  let v := viewEntry credentialVmId w index entry params here in
  w ← reveal idx v (transfer anchored idx v (complete anchored credentialVmId v w));
  Ok (claimVms anchored credentialVmId v w).

Fixpoint walkInventory (anchored : Anchored) (credentialVmId : option string) (idx : IndexedLog) (index : nat)
    (log : DIDLog) (ps : list (list string * list string)) (fs : list LadderEntryFacts) (w : Inventory) :
    result Inventory :=
  match ps, fs with
  | params :: ps, here :: fs =>
      w ← inventoryEntry anchored credentialVmId idx w index (head log) params here;
      walkInventory anchored credentialVmId idx (S index) (tail log) ps fs w
  | _, _ => Ok w
  end.

Definition inventoryStart (anchored : Anchored) : Inventory :=
  mkInv (a_keys anchored) (derivedHashes anchored) ∅ None ∅ [] None ∅.

(** What stands in the final parameters and the final document. *)
Definition standingOf (log : DIDLog) (w : Inventory) : LadderStandingInventory :=
  let final := currentLogParameters log in
  mkInventoryOf (filter (λ key, key ∈ i_ladderKeys w) final.1) (filter (λ hash, hash ∈ ladderHashes w) final.2)
    (filter (λ vmId, ladderVmClaims w !! vmId = Some true) (prevLadderVmIds w)).

Section anchors.
Context {writer : WebvhWriter} {hashes : HashLibrary}.

(** The anchor's forms, in the caller's order of preference. *)
Definition resolveAnchor (log : DIDLog) (anchorKey anchorHash credentialVmId : option string) : result string :=
  match anchorHash, anchorKey with
  | Some hash, _ => Ok hash
  | None, Some key => Ok (deriveNextKeyHash key)
  | None, None =>
      match credentialVmId ≫= credentialLadderAnchor log with
      | Some hash => Ok hash
      | None => mthrow (LadderAttributionError "The ladder walk was given no anchor, and the log names no ladder commitment on this credential's keyAgreement member; refusing to attribute an unanchored history.")
      end
  end.

(** The rungs known a priori: the seed's, or those recovered backwards. *)
Definition earlierOrSeeded (log : DIDLog) (idx : IndexedLog) (anchorHash : string) (ladderSeed credentialVmId : option string)
    (maxScan : nat) : result (list (string * string)) :=
  match ladderSeed, credentialVmId with
  | Some seed, _ =>
      scanned ← deriveLadderRungs seed maxScan;
      Ok (map (λ s, (rung_keyMultibase s.1, s.2)) scanned)
  | None, Some id => Ok (recoverEarlierRungs log idx anchorHash id maxScan)
  | None, None => Ok []
  end.

Definition attributeLadderInventory (log : DIDLog) (anchorKey suppliedAnchorHash ladderSeed credentialVmId : option string)
    (maxScan : nat) : result LadderStandingInventory :=
  let idx := indexedLadderLog log in
  anchorHash ← resolveAnchor log anchorKey suppliedAnchorHash credentialVmId;
  rungs ← earlierOrSeeded log idx anchorHash ladderSeed credentialVmId maxScan;
  let anchored := mkAnchored (list_to_set (option_list anchorKey ++ rungs.*1)) (list_to_set (anchorHash :: rungs.*2)) in
  w ← walkInventory anchored credentialVmId idx 0 log (params idx) (facts idx) (inventoryStart anchored);
  Ok (standingOf log w).

(** Fails closed: an unreadable ladder claims nothing. *)
Definition claimLadderInventory (log : DIDLog) (credentialVmId : string) (maxScan : nat) :
    option LadderStandingInventory :=
  match attributeLadderInventory log None None None (Some credentialVmId) maxScan with
  | Ok inventory => Some inventory
  | Throw _ => None
  end.

Definition standingCredentialLatentHashes (log : DIDLog) (maxScan : nat) : result (list string * list string) :=
  match last log with
  | None => Ok ([], [])
  | Some entry =>
      match state entry with
      | None => mthrow (JsError "TypeError" "Cannot read properties of undefined (reading 'id')")
      | Some doc =>
          let ids := omap method_id (credentialKeyAgreementMethods doc (document_id doc)) in
          Ok (js_dedup (ids ≫= λ id, from_option committedHashes [] (claimLadderInventory log id maxScan)),
              filter (λ id, claimLadderInventory log id maxScan = None) ids)
      end
  end.
End anchors.

Definition ladderVmIdsIntroducedStep (idx : IndexedLog) (did credentialVmId : string) (rungHash anchorKey : option string)
    (index : nat) (doc : AccountDocument) (prevDoc : option AccountDocument) (prevVmIds : list string) : list string :=
  let newVmIds := filter (λ vmId, vmId ∉ prevVmIds) (ladderVmIds doc) in
  let introduced := introducedCredentialKeys doc prevDoc did in
  let bind := facts idx !! index in
  let carriesAnchor :=
    bool_decide (credentialVmId ∈ introduced) || bool_decide (introduced = []) ||
    match rungHash with Some hash => bool_decide (hash ∈ from_option f_addedHashes [] bind) | None => false end ||
    match anchorKey with Some key => bool_decide (key ∈ from_option f_addedKeys [] bind) | None => false end in
  if carriesAnchor then newVmIds else [].

Fixpoint introducedFrom (idx : IndexedLog) (did credentialVmId : string) (rungHash anchorKey : option string)
    (index : nat) (log : DIDLog) (prevDoc : option AccountDocument) (prevVmIds : list string) : list string :=
  match log with
  | [] => []
  | entry :: log =>
      match state entry with
      | None => introducedFrom idx did credentialVmId rungHash anchorKey (S index) log prevDoc prevVmIds
      | Some doc =>
          ladderVmIdsIntroducedStep idx did credentialVmId rungHash anchorKey index doc prevDoc prevVmIds ++
          introducedFrom idx did credentialVmId rungHash anchorKey (S index) log (Some doc) (ladderVmIds doc)
      end
  end.

Definition ladderVmIdsIntroducedWithCredential (log : DIDLog) (credentialVmId : string)
    (anchorKeyMultibase anchorHash : option string) : list string :=
  let did := before_hash credentialVmId in
  if decide (did = "") then []
  else
    let rungHash := match anchorHash with Some hash => Some hash | None => deriveNextKeyHash <$> anchorKeyMultibase end in
    js_dedup (introducedFrom (indexedLadderLog log) did credentialVmId rungHash anchorKeyMultibase 0 log None []).
End inventory.
