(* ===== verification/ClientListing.v ===== *)
(** * The enrolled clients of an account log

    [src/src/webvh/listClients.ts]: the clients the document enrolls, the
    update key the log attributes to each, and which published key a
    delegation's signer names. Splitting a verification-method URL and
    finding the member it names are the resource-log library's. *)

From Stdlib Require Ascii.
From S2P Require Import Prelude JsText AccountDocument LadderRungs AccountLog LogStore LadderIndex.

Record EnrolledWebvhClient := mkClient {
  signingKeyMultibase : string;
  keyAgreementKeyMultibases : list string;
  client_updateKey : option string;
  addedAt : option string
}.

Class SignerReaders `{!DocumentReaders} := {
  parseVersionedVm : string → option (string * string);
  relationMemberNamed : AccountDocument → DocumentRelation → string → string → option RelationMember
}.

(** The effective parameters of a log, entry by entry. *)
Abbreviation LogParams := (list (list string * list string)).

Definition clientKeyAgreementController (signingKeyMultibase : string) : string := "did:key:" ++ signingKeyMultibase.

(** ** Strings *)

(** What follows the first number sign, when there is one. *)
Fixpoint after_hash (s : string) : option string :=
  match s with
  | EmptyString => None
  | String c s => if decide (c = Ascii.ascii_of_nat 35) then Some s else after_hash s
  end.

Fixpoint includes_char (c : Ascii.ascii) (s : string) : bool :=
  match s with
  | EmptyString => false
  | String c' s => bool_decide (c = c') || includes_char c s
  end.

(** [s.slice(n)]. *)
Fixpoint slice_from (n : nat) (s : string) : string :=
  match n, s with
  | 0, _ => s
  | S n, String _ s => slice_from n s
  | S _, EmptyString => EmptyString
  end.

Section listing.
Context {readers : DocumentReaders} {keys : WebvhKeys}.

(** ** Published keys *)

Definition documentKeyMultibases (doc : AccountDocument) : gset string :=
  list_to_set (
    default [] (verificationMethod doc) ≫= λ method,
      option_list (truthy (publicKeyMultibase method)) ++
      option_list (truthy (truthy (method_id method) ≫= vmFragmentOf))).

Definition didKeyMultibase (id : string) : option string :=
  let did := before_hash id in
  if startsWith did "did:key:" then
    let key := slice_from 8 did in
    if bool_decide (key = "") || includes_char (Ascii.ascii_of_nat 63) key then None
    else
      match after_hash id with
      | None => Some key
      | Some fragment => if decide (fragment = key) then Some key else None
      end
  else None.

Section signers.
Context {signers : SignerReaders}.

(** The reader over one document; its memo holds what this computes. *)
Definition delegationSignerKeyReader (doc : AccountDocument) (signerKeyId : string) : option string :=
  match parseVersionedVm signerKeyId with
  | None => None
  | Some (did, fragment) =>
      if startsWith did "did:key:" then
        match didKeyMultibase signerKeyId with
        | Some key => if decide (key ∈ relationKeyMultibases doc capabilityDelegation) then Some key else None
        | None => None
        end
      else relationMemberNamed doc capabilityDelegation did fragment ≫= memberKeyMultibase
  end.

Definition delegationSignerKey (doc : AccountDocument) (signerKeyId : string) : option string :=
  delegationSignerKeyReader doc signerKeyId.

Definition delegationKeyInDocument (doc : AccountDocument) (delegationKeyId : option string) : bool :=
  match delegationKeyId with
  | Some id => bool_decide (is_Some (delegationSignerKey doc id))
  | None => false
  end.
End signers.

Definition signerKeyNamed (id : string) (signerKey : option (string → option string)) : option string :=
  if negb (startsWith id "did:") then Some id
  else
    match didKeyMultibase id with
    | Some key => Some key
    | None => signerKey ≫= λ reader, reader id
    end.

Definition sameSigner (signerId otherId : string) (signerKey : option (string → option string)) : bool :=
  if decide (signerId = otherId) then true
  else
    match signerKeyNamed signerId signerKey with
    | Some key => bool_decide (signerKeyNamed otherId signerKey = Some key)
    | None => false
    end.

(** ** Marked key-agreement methods *)

Definition markedKeyAgreementMethods (doc : AccountDocument) (signingKeyMultibase : string) :
    list ResolvedKeyAgreementMethod :=
  filter (λ method, method_controller method = Some (clientKeyAgreementController signingKeyMultibase))
    (resolvedKeyAgreementMethods doc).

(** A method's key, or else the fragment of its id; an empty one is none. *)
Definition methodMultibase (method : ResolvedKeyAgreementMethod) : option string :=
  truthy (match publicKeyMultibase method with
          | Some key => Some key
          | None => truthy (method_id method) ≫= vmFragmentOf
          end).

Definition markedKeyAgreementMultibases (doc : AccountDocument) (signingKeyMultibase : string) : list string :=
  js_dedup (omap methodMultibase (markedKeyAgreementMethods doc signingKeyMultibase)).

Definition indexMethod (index : gmap string (list string)) (method : ResolvedKeyAgreementMethod) :
    gmap string (list string) :=
  match truthy (method_controller method), methodMultibase method with
  | Some controller, Some multibase =>
      match index !! controller with
      | Some group => if decide (multibase ∈ group) then index else <[controller := group ++ [multibase]]> index
      | None => <[controller := [multibase]]> index
      end
  | _, _ => index
  end.

Definition markedKeyAgreementIndex (doc : AccountDocument) : gmap string (list string) :=
  foldl indexMethod ∅ (resolvedKeyAgreementMethods doc).

(** ** Update-key attribution *)

Definition keysAt (params : LogParams) (index : nat) : list string := from_option fst [] (params !! index).

Definition addedUpdateKeys (params : LogParams) (index : nat) : list string :=
  let previous := match index with 0 => [] | S index => keysAt params index end in
  filter (λ key, key ∉ previous) (keysAt params index).

(** [revealed.length === 1 ? revealed[0] : undefined]. *)
Definition soleKey (revealed : list string) : option string :=
  match revealed with [key] => Some key | _ => None end.

(** An entry's effect on a client already tracked: a retired key is replaced
    by the one key the entry reveals. *)
Definition advanceKey (params : LogParams) (index : nat) (key : option string) : option string :=
  match key with
  | Some k => if decide (k ∈ keysAt params index) then Some k else soleKey (addedUpdateKeys params index)
  | None => None
  end.

Definition attributeEntry (params : LogParams) (addIndexes : list (string * nat)) (active : list (string * option string))
    (index : nat) : list (string * option string) :=
  foldl (λ active client, assoc_set client (soleKey (addedUpdateKeys params index)) active)
    ((λ a, (a.1, advanceKey params index a.2)) <$> active)
    ((filter (λ a, a.2 = index) addIndexes).*1).

(** A key the final entry does not authorize is none. *)
Definition authorizedKey (final : list string) (key : option string) : option string :=
  match key with Some key => if decide (key ∈ final) then Some key else None | None => None end.

Definition attributeActiveUpdateKeys (params : LogParams) (addIndexes : list (string * nat)) :
    list (string * option string) :=
  match addIndexes with
  | [] => []
  | a :: rest =>
      let first := foldl Nat.min a.2 rest.*2 in
      let active := foldl (attributeEntry params addIndexes) [] (seq first (length params - first)) in
      let final := keysAt params (length params - 1) in
      (λ a, (a.1, authorizedKey final a.2)) <$> active
  end.

Definition publishesClient (signingKeyMultibase : string) (entry : DIDLogEntry) : Prop :=
  signingKeyMultibase ∈ relationKeyMultibases (default empty_document (state entry)) capabilityInvocation.
#[export] Instance publishesClient_dec signingKeyMultibase entry : Decision (publishesClient signingKeyMultibase entry).
Proof. unfold publishesClient. apply _. Defined.

(** [-1] is [None]. *)
Definition clientAddIndex (log : DIDLog) (signingKeyMultibase : string) : option nat :=
  fst <$> list_find (publishesClient signingKeyMultibase) log.

Definition attributeClientUpdateKey (log : DIDLog) (signingKeyMultibase : string) : option string :=
  match clientAddIndex log signingKeyMultibase with
  | None => None
  | Some index =>
      assoc_get signingKeyMultibase
        (attributeActiveUpdateKeys (effectiveParameters log) [(signingKeyMultibase, index)]) ≫= id
  end.

Definition recordAdded (listed : gset string) (index : nat) (found : list (string * nat)) (key : string) :
    list (string * nat) :=
  if decide (key ∈ listed ∧ assoc_get key found = None) then found ++ [(key, index)] else found.

Fixpoint addIndexesFrom (listed : gset string) (index : nat) (log : DIDLog) (found : list (string * nat)) :
    list (string * nat) :=
  match log with
  | [] => found
  | entry :: log =>
      if decide (length found = size listed) then found
      else
        addIndexesFrom listed (S index) log
          (foldl (recordAdded listed index) found
             (js_dedup (relationKeysInOrder (default empty_document (state entry)) capabilityInvocation)))
  end.

Definition clientAddIndexes (log : DIDLog) (signingKeyMultibases : gset string) : list (string * nat) :=
  addIndexesFrom signingKeyMultibases 0 log [].

(** ** The listing *)

Definition enrolledClientVmIds (doc : AccountDocument) : list string := relationIds (relationOf doc capabilityInvocation).

Definition isLastEnrolledClient (doc : AccountDocument) (signingVmId : string) : bool :=
  bool_decide (signingVmId ∈ enrolledClientVmIds doc) &&
  forallb (λ id, bool_decide (id = signingVmId)) (enrolledClientVmIds doc).

Definition listClient (log : DIDLog) (addIndexes : list (string * nat)) (updateKeys : list (string * option string))
    (keyAgreementIndex : gmap string (list string)) (key : string) : EnrolledWebvhClient :=
  mkClient key (default [] (keyAgreementIndex !! clientKeyAgreementController key))
    (assoc_get key updateKeys ≫= id)
    (assoc_get key addIndexes ≫= λ index, versionTime <$> log !! index).

Definition listEnrolledWebvhClients (log : DIDLog) : list EnrolledWebvhClient :=
  match last log with
  | None => []
  | Some entry =>
      let doc := default empty_document (state entry) in
      let signingKeys := js_dedup (relationKeysInOrder doc capabilityInvocation) in
      let addIndexes := clientAddIndexes log (list_to_set signingKeys) in
      let updateKeys := attributeActiveUpdateKeys (effectiveParameters log) addIndexes in
      listClient log addIndexes updateKeys (markedKeyAgreementIndex doc) <$> signingKeys
  end.
End listing.

(** * The single-pass listing is the per-client reading

    [listEnrolledWebvhClients] reads every client in one pass over the log
    and one over the document; each row is what the readers of one client
    give for it. *)

Section attribution.
Context {readers : DocumentReaders} {keys : WebvhKeys}.

(** ** One client's walk of the log's tail *)

Definition tailWalk (params : LogParams) (i n : nat) : option string :=
  foldl (λ key index, advanceKey params index key) (soleKey (addedUpdateKeys params i)) (seq (S i) (n - S i)).

Lemma tailWalk_S params i n : i < n → tailWalk params i (S n) = advanceKey params n (tailWalk params i n).
Proof.
  intros Hlt. unfold tailWalk. replace (S n - S i) with (S (n - S i)) by lia. rewrite seq_S, foldl_app. cbn.
  by replace (S (i + (n - S i))) with n by lia.
Qed.

Lemma attributeEntry_get params addIndexes active index s :
  NoDup addIndexes.*1 →
  assoc_get s (attributeEntry params addIndexes active index) =
  if decide (assoc_get s addIndexes = Some index) then Some (soleKey (addedUpdateKeys params index))
  else advanceKey params index <$> assoc_get s active.
Proof.
  intros Hnd. unfold attributeEntry. rewrite assoc_get_sets, assoc_get_fmap.
  assert (s ∈ (filter (λ a : string * nat, a.2 = index) addIndexes).*1 ↔ assoc_get s addIndexes = Some index) as Hin.
  { rewrite list_elem_of_fmap. split.
    - intros ([s' i] & -> & [Hi Ha]%list_elem_of_filter). cbn in *. subst i.
      induction addIndexes as [|[s1 i1] rest IH]; [set_solver|]. apply NoDup_cons in Hnd as [Hn Hnd]. cbn in *.
      case_decide as Hs; [|apply IH; [done|set_solver]]. subst s1.
      apply elem_of_cons in Ha as [?|Ha]; [naive_solver|]. destruct Hn. apply list_elem_of_fmap. by exists (s', index).
    - intros H%assoc_get_elem. exists (s, index). split; [done|]. by apply list_elem_of_filter. }
  repeat case_decide; tauto.
Qed.

(** The pass from any start no later than the client's entry. *)
Lemma pass_get params addIndexes first n s i :
  NoDup addIndexes.*1 → assoc_get s addIndexes = Some i → first ≤ i →
  assoc_get s (foldl (attributeEntry params addIndexes) [] (seq first n)) =
  if decide (i < first + n) then Some (tailWalk params i (first + n)) else None.
Proof.
  intros Hnd Hs Hle. induction n as [|n IH]; [by rewrite decide_False by lia|].
  rewrite seq_S, foldl_app. cbn [foldl]. rewrite attributeEntry_get, IH by done. rewrite Hs.
  destruct (decide (Some i = Some (first + n))) as [[= ->]|Hne].
  - rewrite decide_True by lia. unfold tailWalk.
    replace (first + S n - S (first + n)) with 0 by lia. done.
  - rewrite Nat.add_succ_r. destruct (decide (i < first + n)) as [Hlt|].
    + rewrite decide_True by lia. by rewrite tailWalk_S by done.
    + rewrite decide_False; [done|]. assert (i ≠ first + n) by congruence. lia.
Qed.

Lemma foldl_min_le x xs y : y = x ∨ y ∈ xs → foldl Nat.min x xs ≤ y.
Proof.
  revert x y. induction xs as [|z xs IH]; intros x y Hy; cbn; [set_solver by lia|].
  destruct Hy as [-> | [-> |Hy]%elem_of_cons].
  - etrans; [apply IH; by left|lia].
  - etrans; [apply IH; by left|lia].
  - apply IH. by right.
Qed.

(** What the batch attributes to a client: its own tail walk, while the final
    entry authorizes it. *)
Definition attributed (params : LogParams) (i : nat) : option string :=
  authorizedKey (keysAt params (length params - 1)) (tailWalk params i (length params)).

Lemma attributeActive_get params addIndexes s i :
  NoDup addIndexes.*1 → assoc_get s addIndexes = Some i → i < length params →
  assoc_get s (attributeActiveUpdateKeys params addIndexes) = Some (attributed params i).
Proof.
  intros Hnd Hs Hi. destruct addIndexes as [|a rest] eqn:Ha; [done|]. unfold attributeActiveUpdateKeys.
  rewrite <- Ha in *. rewrite assoc_get_fmap.
  assert (foldl Nat.min a.2 rest.*2 ≤ i) as Hle.
  { apply foldl_min_le. apply assoc_get_elem in Hs. rewrite Ha in Hs.
    apply elem_of_cons in Hs as [<-|Hs]; [by left|right]. apply list_elem_of_fmap. by exists (s, i). }
  rewrite (pass_get _ _ _ _ s i) by done. rewrite decide_True by lia. cbn.
  by replace (foldl Nat.min a.2 rest.*2 + (length params - foldl Nat.min a.2 rest.*2)) with (length params) by lia.
Qed.

Lemma attributed_authorized params i key :
  attributed params i = Some key → key ∈ keysAt params (length params - 1).
Proof. unfold attributed, authorizedKey. repeat case_match; naive_solver. Qed.

Lemma attributed_only params addIndexes s :
  NoDup addIndexes.*1 → assoc_get s addIndexes = None → assoc_get s (attributeActiveUpdateKeys params addIndexes) = None.
Proof.
  intros Hnd Hs. destruct addIndexes as [|a rest] eqn:Ha; [done|]. unfold attributeActiveUpdateKeys.
  rewrite <- Ha in *. rewrite assoc_get_fmap.
  induction (seq _ _) as [|n ns IH] using rev_ind; [done|]. rewrite foldl_app. cbn [foldl].
  rewrite attributeEntry_get, Hs, decide_False by done.
  by destruct (assoc_get s (foldl _ _ _)).
Qed.

(** ** The enrollment moments *)

Lemma recordAdded_get listed index found ks s :
  s ∈ listed →
  assoc_get s (foldl (recordAdded listed index) found ks) =
  match assoc_get s found with
  | Some i => Some i
  | None => if decide (s ∈ ks) then Some index else None
  end.
Proof.
  intros Hs. revert found. induction ks as [|k ks IH]; intros found; cbn [foldl].
  - rewrite decide_False by set_solver. by destruct (assoc_get s found).
  - rewrite IH. unfold recordAdded. destruct (decide (k ∈ listed ∧ assoc_get k found = None)) as [Hk|Hk].
    + rewrite assoc_get_snoc. cbn. destruct (assoc_get s found) eqn:Hf; [done|].
      destruct (decide (s = k)) as [->|]; [by rewrite decide_True by set_solver|].
      destruct (decide (s ∈ ks)); [by rewrite decide_True by set_solver|by rewrite decide_False by set_solver].
    + destruct (assoc_get s found) eqn:Hf; [done|]. destruct (decide (s = k)) as [->|]; [naive_solver|].
      destruct (decide (s ∈ ks)); [by rewrite decide_True by set_solver|by rewrite decide_False by set_solver].
Qed.

Definition sound (listed : gset string) (found : list (string * nat)) : Prop :=
  NoDup found.*1 ∧ ∀ s, s ∈ found.*1 → s ∈ listed.

Lemma recordAdded_sound listed index found ks :
  sound listed found → sound listed (foldl (recordAdded listed index) found ks).
Proof.
  revert found. induction ks as [|k ks IH]; intros found Hf; [done|]. cbn. apply IH. unfold recordAdded.
  case_decide as Hk; [|done]. destruct Hf as [Hnd Hin], Hk as [Hl Hn]. rewrite assoc_get_None in Hn.
  split; rewrite fmap_app; cbn.
  - apply NoDup_app. split_and!; [done|set_solver|apply NoDup_singleton].
  - set_solver.
Qed.

Lemma addIndexesFrom_sound listed index log found :
  sound listed found → sound listed (addIndexesFrom listed index log found).
Proof.
  revert index found. induction log as [|entry log IH]; intros index found Hf; [done|]. cbn.
  case_decide; [done|]. by apply IH, recordAdded_sound.
Qed.

(** A full record holds every listed client. *)
Lemma full_record listed found s :
  sound listed found → length found = size listed → s ∈ listed → is_Some (assoc_get s found).
Proof.
  intros [Hnd Hin] Hlen Hs. destruct (assoc_get s found) eqn:Hg; [done|]. apply assoc_get_None in Hg.
  assert (size (list_to_set found.*1 ∪ {[s]} : gset string) ≤ size listed) as Hle by (apply subseteq_size; set_solver).
  rewrite size_union, size_singleton, size_list_to_set, length_fmap in Hle by (done || set_solver). lia.
Qed.

Lemma addIndexesFrom_get listed index log found s :
  sound listed found → s ∈ listed →
  assoc_get s (addIndexesFrom listed index log found) =
  match assoc_get s found with
  | Some i => Some i
  | None => (λ i, index + i) <$> clientAddIndex log s
  end.
Proof.
  intros Hf Hs. revert index found Hf. induction log as [|entry log IH]; intros index found Hf.
  { cbn. by destruct (assoc_get s found). }
  cbn [addIndexesFrom]. case_decide as Hlen.
  { destruct (full_record _ _ _ Hf Hlen Hs) as [i ->]. done. }
  rewrite IH, recordAdded_get by (done || by apply recordAdded_sound).
  destruct (assoc_get s found) eqn:Hg; [done|]. unfold clientAddIndex. cbn [list_find].
  rewrite (decide_ext (s ∈ js_dedup _) (publishesClient s entry)).
  2: { unfold publishesClient, relationKeyMultibases. by rewrite elem_of_js_dedup, elem_of_list_to_set. }
  case_decide; cbn; [by rewrite Nat.add_0_r|]. destruct (list_find _ log) as [[i e]|]; cbn; [|done]. f_equal. lia.
Qed.

Lemma clientAddIndexes_get log listed s :
  s ∈ listed → assoc_get s (clientAddIndexes log listed) = clientAddIndex log s.
Proof.
  intros Hs. unfold clientAddIndexes. rewrite addIndexesFrom_get; [|by split; [constructor|set_solver]|done].
  cbn. by destruct (clientAddIndex log s).
Qed.

(** ** The marked methods *)

Definition group_of (methods : list ResolvedKeyAgreementMethod) (controller : string) : list string :=
  js_dedup (omap methodMultibase (filter (λ method, method_controller method = Some controller) methods)).

Lemma indexMethod_get index methods method controller :
  controller ≠ "" → default [] (index !! controller) = group_of methods controller →
  default [] (indexMethod index method !! controller) = group_of (methods ++ [method]) controller.
Proof.
  intros Hne Hi. unfold group_of in *. rewrite filter_app, omap_app. unfold indexMethod.
  destruct (decide (method_controller method = Some controller)) as [Hc|Hc].
  - rewrite filter_cons_True, filter_nil by done. rewrite Hc. cbn [omap list_omap].
    replace (truthy (Some controller)) with (Some controller) by (by destruct controller).
    destruct (methodMultibase method) as [key|]; [|by rewrite app_nil_r].
    set (held := omap methodMultibase _) in *. rewrite js_dedup_snoc, <- Hi.
    assert (key ∈ default [] (index !! controller) ↔ key ∈ held) as Hin by by rewrite Hi, elem_of_js_dedup.
    destruct (index !! controller) as [group|] eqn:Hg; cbn in Hin |- *.
    + destruct (decide (key ∈ group)), (decide (key ∈ held)); try tauto; [by rewrite Hg|by rewrite lookup_insert_eq].
    + rewrite decide_False by set_solver. by rewrite lookup_insert_eq.
  - rewrite filter_cons_False, filter_nil by done. cbn [omap list_omap]. rewrite app_nil_r. rewrite <- Hi.
    destruct (truthy (method_controller method)) as [c|] eqn:Ht; [|done].
    assert (c ≠ controller) as Hcc.
    { intros ->. destruct (method_controller method) as [[]|]; cbn in Ht; naive_solver. }
    destruct (methodMultibase method); [|done].
    destruct (index !! c); repeat case_decide; by rewrite ?lookup_insert_ne by done.
Qed.

Lemma marked_index_get doc controller :
  controller ≠ "" →
  default [] (markedKeyAgreementIndex doc !! controller) = group_of (resolvedKeyAgreementMethods doc) controller.
Proof.
  intros Hne. unfold markedKeyAgreementIndex. induction (resolvedKeyAgreementMethods doc) as [|m ms IH] using rev_ind.
  - done.
  - rewrite foldl_app. cbn [foldl]. by apply indexMethod_get.
Qed.

Lemma effectiveFrom_length A C log : length (effectiveFrom A C log) = length log.
Proof. revert A C. induction log as [|e log IH]; intros A C; cbn; [done|]. by rewrite IH. Qed.

(** What one client's own readers give for it. *)
Definition client_reading (log : DIDLog) (doc : AccountDocument) (key : string) : EnrolledWebvhClient :=
  mkClient key (markedKeyAgreementMultibases doc key) (attributeClientUpdateKey log key)
    (clientAddIndex log key ≫= λ index, versionTime <$> log !! index).

Lemma attribute_client_get log addIndexes s :
  NoDup addIndexes.*1 → assoc_get s addIndexes = clientAddIndex log s →
  assoc_get s (attributeActiveUpdateKeys (effectiveParameters log) addIndexes) ≫= id =
  attributeClientUpdateKey log s.
Proof.
  intros Hnd Hs. unfold attributeClientUpdateKey. destruct (clientAddIndex log s) as [i|] eqn:Hi.
  - assert (i < length (effectiveParameters log)) as Hlt.
    { unfold effectiveParameters. rewrite effectiveFrom_length. unfold clientAddIndex in Hi.
      destruct (list_find _ log) as [[j e]|] eqn:Hf; [|done]. injection Hi as ->.
      apply list_find_Some in Hf as (Hl & _). by apply lookup_lt_Some in Hl. }
    rewrite (attributeActive_get _ addIndexes s i), (attributeActive_get _ [(s, i)] s i); try done.
    + apply NoDup_singleton.
    + cbn. by rewrite decide_True.
  - by rewrite attributed_only.
Qed.

Lemma listed_row log doc addIndexes key :
  NoDup addIndexes.*1 → assoc_get key addIndexes = clientAddIndex log key →
  listClient log addIndexes (attributeActiveUpdateKeys (effectiveParameters log) addIndexes)
    (markedKeyAgreementIndex doc) key = client_reading log doc key.
Proof.
  intros Hnd Hs. unfold listClient, client_reading. rewrite attribute_client_get, Hs by done.
  by rewrite marked_index_get.
Qed.

Lemma client_key_authorized log key k :
  attributeClientUpdateKey log key = Some k → k ∈ (currentLogParameters log).1.
Proof.
  unfold attributeClientUpdateKey. destruct (clientAddIndex log key) as [i|] eqn:Hi; [|done].
  destruct (decide (i < length (effectiveParameters log))) as [Hlt|Hge].
  - rewrite (attributeActive_get _ [(key, i)] key i); [|apply NoDup_singleton|cbn; by rewrite decide_True|done].
    intros Hk%attributed_authorized. unfold keysAt in Hk. unfold currentLogParameters. rewrite last_lookup.
    replace (pred (length (effectiveParameters log))) with (length (effectiveParameters log) - 1) by lia.
    destruct (_ !! _); [done|]. set_solver.
  - exfalso. apply Hge. unfold effectiveParameters. rewrite effectiveFrom_length. unfold clientAddIndex in Hi.
    destruct (list_find _ log) as [[j e]|] eqn:Hf; [|done]. injection Hi as ->.
    apply list_find_Some in Hf as (Hl & _). by apply lookup_lt_Some in Hl.
Qed.
End attribution.

(** C32: the listing of an account's clients, which attributes every client in
    one pass over the log and groups the key-agreement methods in one pass
    over the document, is client by client what the readers of one client
    give: one row per key the final document publishes under
    [capabilityInvocation], in its order, with the update key
    [attributeClientUpdateKey] names, the key-agreement keys its marker claims
    and the time of the first entry that published it; and an update key it
    names is one the log's head authorizes. *)
Theorem listing_is_per_client {readers : DocumentReaders} {keys : WebvhKeys} (log : DIDLog) entry :
  last log = Some entry →
  let doc := default empty_document (state entry) in
  listEnrolledWebvhClients log =
    client_reading log doc <$> js_dedup (relationKeysInOrder doc capabilityInvocation) ∧
  ∀ client key, client ∈ listEnrolledWebvhClients log → client_updateKey client = Some key →
    key ∈ (currentLogParameters log).1.
Proof.
  intros Hlast doc.
  assert (listEnrolledWebvhClients log =
    client_reading log doc <$> js_dedup (relationKeysInOrder doc capabilityInvocation)) as Heq.
  { unfold listEnrolledWebvhClients. rewrite Hlast. fold doc. apply list_fmap_ext. intros i key Hkey.
    apply list_elem_of_lookup_2 in Hkey. apply listed_row.
    - apply (addIndexesFrom_sound (list_to_set (js_dedup (relationKeysInOrder doc capabilityInvocation)))).
      split; [constructor|set_solver].
    - apply clientAddIndexes_get. by apply elem_of_list_to_set. }
  split; [done|]. intros client key. rewrite Heq. intros (s & -> & _)%list_elem_of_fmap Hk.
  exact (client_key_authorized _ _ _ Hk).
Qed.
