(* ===== verification/ClientRevocation.v ===== *)
(** * What removing a client strikes

    [src/src/webvh/revokeClient.ts]: the staged commitment the log attributes
    to a client, the keys, hashes and methods its removal strikes, and what no
    other edit may strike of the clients that stay. *)

From S2P Require Import Prelude Json JsText CeremonyEvents AccountDocument LadderRungs AccountLog LogStore LadderIndex LadderInventory ClientListing.

Record RevokedClientKeys := mkRevoked { revoked_signingKey : string; revoked_updateKey : string }.

(** The attribution's outcome: a hash or none, or the refusal with the
    candidates it carries. *)
Inductive StagedReading :=
  | Isolated (hash : option string)
  | AmbiguousStaged (candidates : list string).

Definition StagedCommitmentAmbiguousError : js_error :=
  JsError "StagedCommitmentAmbiguousError" "did:webvh: the revoked client's staged-key commitment cannot be isolated in nextKeyHashes -- more than one candidate hash survives the known-latent-hash exclusion, and the append-order rule cannot place one immediately after the client's update-key hash.".

Definition staged_result (reading : StagedReading) : result (option string) :=
  match reading with
  | Isolated hash => Ok hash
  | AmbiguousStaged _ => mthrow StagedCommitmentAmbiguousError
  end.

Section staged.
Context {keys : WebvhKeys}.
Implicit Types (params : LogParams).

Definition hashesAt params (index : nat) : list string := from_option snd [] (params !! index).

(** The hashes an entry adds, in its append order. *)
Definition orderedAdded params (index : nat) : list string :=
  let previous := match index with 0 => [] | S index => hashesAt params index end in
  filter (λ hash, hash ∉ previous) (hashesAt params index).

(** The addition after the client's own update-key hash. *)
Definition positionalSuccessor params (revokedHash : string) (index : nat) : option string :=
  index_of revokedHash (orderedAdded params index) ≫= λ anchor, orderedAdded params index !! S anchor.

Definition prune params (revokedHash : string) (known derived : list string) (index : nat) : list string :=
  filter (λ hash, hash ≠ revokedHash ∧ hash ∉ known ∧
            ¬ (hash ∈ derived ∧ Some hash ≠ positionalSuccessor params revokedHash index))
    (js_dedup (orderedAdded params index)).

Definition stagedByPosition params (revokedHash : string) (index : nat) (candidates : list string) : option string :=
  match positionalSuccessor params revokedHash index with
  | Some successor => if decide (successor ∈ candidates) then Some successor else None
  | None => None
  end.

(** The latest of the first [n] entries at which the value enters. *)
Definition enters (holds : nat → bool) (index : nat) : bool :=
  holds index && negb (match index with 0 => false | S index => holds index end).
Definition lastEntry (holds : nat → bool) (n : nat) : option nat := last (filter (λ i, enters holds i = true) (seq 0 n)).

Definition revealIndex params (key : string) : option nat :=
  lastEntry (λ i, bool_decide (key ∈ keysAt params i)) (length params).
Definition commitIndexOf params (hash : string) (revealed : nat) : option nat :=
  lastEntry (λ i, bool_decide (hash ∈ hashesAt params i)) (S revealed).

(** Several candidates are told apart by position, or not at all. *)
Definition isolate params (revokedHash : string) (index : nat) (candidates : list string) : StagedReading :=
  match candidates with
  | [] => Isolated None
  | [hash] => Isolated (Some hash)
  | _ =>
      match stagedByPosition params revokedHash index candidates with
      | Some hash => Isolated (Some hash)
      | None => AmbiguousStaged candidates
      end
  end.

Definition attributeStagedHash params (revokedUpdateKey : string) (known derived : list string) : StagedReading :=
  let revokedHash := deriveNextKeyHash revokedUpdateKey in
  match revealIndex params revokedUpdateKey with
  | None => Isolated None
  | Some revealed =>
      match prune params revokedHash known derived revealed with
      | [] =>
          match commitIndexOf params revokedHash revealed with
          | None => Isolated None
          | Some committed => isolate params revokedHash committed (prune params revokedHash known derived committed)
          end
      | atReveal => isolate params revokedHash revealed atReveal
      end
  end.
End staged.

(** ** The target *)

Record ClientRemovalTarget := mkTarget {
  signingVmId : string;
  keyAgreementVmIds : gset string;
  vmPresent : bool;
  removedUpdateKey : string;
  removedHash : string;
  keyPresent : bool;
  hashPresent : bool;
  present : bool
}.

Section target.
Context {readers : DocumentReaders} {keys : WebvhKeys}.

Definition vm_id (did fragment : string) : string := did ++ "#" ++ fragment.

Definition currentRevokedUpdateKey (published : PublishedWebvhLog) (revokedClient : RevokedClientKeys)
    (vmPresent : bool) : result string :=
  let supplied := revoked_updateKey revokedClient in
  if decide (supplied ∈ pub_updateKeys published) then Ok supplied
  else if negb vmPresent then Ok supplied
  else
    match truthy (attributeClientUpdateKey (pub_log published) (revoked_signingKey revokedClient)) with
    | Some attributed => Ok attributed
    | None => mthrow (plain_error "did:webvh: the update key supplied for the revoked client is not authorized by the log -- it either rotated away since the listing, or it is the client's staged key, committed but never revealed -- and the log attribution cannot isolate the client's current update key; re-list the enrolled clients and revoke with the active key the listing states.")
    end.

Definition isRemovedMethod (signingVmId : string) (keyAgreementVmIds : gset string) (method : ResolvedKeyAgreementMethod) :
    bool :=
  match method_id method with
  | Some id => bool_decide (id = signingVmId) || bool_decide (id ∈ keyAgreementVmIds)
  | None => false
  end.

Definition clientRemovalTarget (published : PublishedWebvhLog) (client : RevokedClientKeys) : result ClientRemovalTarget :=
  let did := pub_did published in
  let doc := pub_doc published in
  let signingVmId := vm_id did (revoked_signingKey client) in
  let keyAgreementVmIds : gset string :=
    list_to_set (vm_id did <$> markedKeyAgreementMultibases doc (revoked_signingKey client)) in
  let vmPresent := existsb (isRemovedMethod signingVmId keyAgreementVmIds) (default [] (verificationMethod doc)) in
  removedUpdateKey ← currentRevokedUpdateKey published client vmPresent;
  let removedHash := deriveNextKeyHash removedUpdateKey in
  let keyPresent := bool_decide (removedUpdateKey ∈ pub_updateKeys published) in
  let hashPresent := bool_decide (removedHash ∈ pub_nextKeyHashes published) in
  Ok (mkTarget signingVmId keyAgreementVmIds vmPresent removedUpdateKey removedHash keyPresent hashPresent
        (vmPresent || keyPresent || hashPresent)).

(** ** The removal's fields *)

(** The members of [updateDID]'s options the ceremonies set on a document. *)
Record DocumentFields := mkFields {
  fields_methods : list ResolvedKeyAgreementMethod;
  fields_relation : DocumentRelation → list string
}.

Record RemovalFields := mkRemoval {
  removal_updateKeys : list string;
  removal_nextKeyHashes : list string;
  removal_document : DocumentFields
}.

(** The references a relation keeps. *)
Definition keptReferences (doc : AccountDocument) (target : ClientRemovalTarget) (relation : DocumentRelation) :
    list string :=
  let ids := relationIds (relationOf doc relation) in
  match relation with
  | keyAgreement => filter (λ id, id ∉ keyAgreementVmIds target) ids
  | _ => filter (λ id, id ≠ signingVmId target) ids
  end.

(** A method without an id stays. *)
Definition keptMethod (target : ClientRemovalTarget) (method : ResolvedKeyAgreementMethod) : bool :=
  match truthy (method_id method) with
  | None => true
  | Some id => negb (bool_decide (id = signingVmId target) || bool_decide (id ∈ keyAgreementVmIds target))
  end.

Definition removalFields (published : PublishedWebvhLog) (target : ClientRemovalTarget) (stagedHash : option string) :
    RemovalFields :=
  let doc := pub_doc published in
  mkRemoval
    (filter (λ key, key ≠ removedUpdateKey target) (pub_updateKeys published))
    (filter (λ hash, hash ≠ removedHash target ∧ Some hash ≠ stagedHash) (pub_nextKeyHashes published))
    (mkFields
       (filter (λ method, keptMethod target method = true) (default [] (verificationMethod doc)))
       (keptReferences doc target)).

Section latent.
Context {W : Type} {writer : WebvhWriter} {hashes : HashLibrary} (logger : Logger W).

Definition jsonStrings (xs : list string) : datum := DJson (JArr (JStr <$> xs)).

Definition latentHashesToExclude (log : DIDLog) (vouched : list string) : comp W (list string * list string) :=
  '(derived, unclaimed) ← lift (standingCredentialLatentHashes log LADDER_MAX_SCAN);
  (if decide (unclaimed ≠ []) then
     logger (mkEvent info "Client removal: the latent commitments of some standing credentials could not be read off the log; their rungs are excluded from the staged-hash attribution only where the caller vouched for them"
       {["credentialVmIds" := jsonStrings unclaimed]})
   else mret ());;
  let unattributed := filter (λ hash, hash ∉ derived) vouched in
  (if decide (unattributed ≠ []) then
     logger (mkEvent info "Client removal: the caller vouched for latent commitments the log walk did not claim for any standing credential"
       {["hashes" := jsonStrings unattributed]})
   else mret ());;
  mret (vouched, derived).

Definition clientRemovalFields (published : PublishedWebvhLog) (target : ClientRemovalTarget)
    (knownLatentHashes : list string) : comp W RemovalFields :=
  stagedHash ← (if keyPresent target then
                  '(known, derived) ← latentHashesToExclude (pub_log published) knownLatentHashes;
                  lift (staged_result (attributeStagedHash (effectiveParameters (pub_log published))
                    (removedUpdateKey target) known derived))
                else mret None);
  mret (removalFields published target stagedHash).
End latent.

(** ** What the surviving clients hold *)

Record ClientProtection := mkProtection {
  kept_keys : gset string;
  kept_hashes : gset string;
  kept_ambiguous : list string
}.

Definition stagedHashes (reading : StagedReading) : list string :=
  match reading with
  | Isolated hash => option_list hash
  | AmbiguousStaged candidates => candidates
  end.

Definition protectClient params (did : string) (retired derived : list string) (kept : ClientProtection)
    (client : EnrolledWebvhClient) : ClientProtection :=
  if decide (Exists (λ multibase, vm_id did multibase ∈ retired) (keyAgreementKeyMultibases client)) then kept
  else
    match client_updateKey client with
    | None => mkProtection (kept_keys kept) (kept_hashes kept) (kept_ambiguous kept ++ [signingKeyMultibase client])
    | Some key =>
        mkProtection ({[key]} ∪ kept_keys kept)
          ({[deriveNextKeyHash key]} ∪ list_to_set (stagedHashes (attributeStagedHash params key [] derived)) ∪
             kept_hashes kept)
          (kept_ambiguous kept)
    end.

Definition survivingClientKeyProtection (log : DIDLog) (retiredVmIds derivedLatentHashes : list string) :
    ClientProtection :=
  match last log with
  | None => mkProtection ∅ ∅ []
  | Some entry =>
      let did := document_id (default empty_document (state entry)) in
      foldl (protectClient (effectiveParameters log) did retiredVmIds derivedLatentHashes) (mkProtection ∅ ∅ [])
        (listEnrolledWebvhClients log)
  end.
End target.
