(* ===== verification/AccountEntry.v ===== *)
(** * One account-log entry, whoever signs it

    [src/src/webvh/accountEntry.ts]: the seam every ceremony that extends
    [did.jsonl] writes through; and the enrollment and the revocation of a
    client, which do. *)

From S2P Require Import Prelude Json JsText CeremonyEvents AccountDocument LadderRungs AccountLog LogStore KeyRotation LadderIndex LadderInventory ClientListing ClientRevocation.

Inductive AccountLogSigner :=
  | enrolled (updateKeys : ClientWebvhUpdateKeys)
  | ladder (ladderSeed : string).

Inductive AccountEntrySigner :=
  | LogSigner (signer : AccountLogSigner)
  | committed_key (updateSeed : string).

(** What a build hands back. *)
Record AccountEntryFields := mkEntryFields {
  ef_updateKeys : option (list string);
  ef_nextKeyHashes : option (list string);
  ef_commitHashes : option (list string);
  ef_document : option DocumentFields;
  ef_services : option (list members)
}.

Definition no_fields : AccountEntryFields := mkEntryFields None None None None None.

Inductive ProjectionTiming := before_entry | after_entry.

Definition projectionTimingOf (signer : AccountEntrySigner) (removesInventory : bool) : ProjectionTiming :=
  match signer, removesInventory with
  | LogSigner (ladder _), true => before_entry
  | _, _ => after_entry
  end.

(** The attributed rung, its hash and its state. *)
Record LadderParts := mkParts { part_rung : LadderRung; part_hash : string; part_state : LadderRungState }.

(** What a ceremony reports of the head it concludes on. *)
Abbreviation concluded_head := (string * AccountDocument * DIDLog)%type.

Section entry.
Context {W : Type} {readers : DocumentReaders} {resolver : WebvhResolver} {writer : WebvhWriter}
  {hashes : HashLibrary} {keys : WebvhKeys}.

(** The library's [updateDID], which the seam calls with the fields the build
    set and the three it owns. *)
Definition UpdateDID : Type :=
  DIDLog → ResolutionMeta → Signer → option DocumentFields → option (list members) → list string → list string → result Updated.

Variables (updateDID : UpdateDID) (logger : Logger W).

Record AccountEntryOutcome := mkEntryOutcome {
  skipped : bool;
  out_published : PublishedWebvhLog;
  out_parts : option LadderParts;
  out_updated : option Updated;
  out_etag : option string
}.

Definition accountEntryHead (outcome : AccountEntryOutcome) : PublishedWebvhLog :=
  match out_updated outcome with
  | None => out_published outcome
  | Some updated =>
      mkPublished (upd_log updated) (upd_did updated) (upd_doc updated)
        (default [] (meta_updateKeys (upd_meta updated))) (default [] (meta_nextKeyHashes (upd_meta updated)))
        (upd_meta updated) (out_etag outcome)
  end.

Definition concludeUnchangedAccountEntry (projectionStore : option (WebvhIdStore W)) (timing : ProjectionTiming)
    (published : PublishedWebvhLog) : comp W concluded_head :=
  match projectionStore, timing with
  | Some store, after_entry => concludeWithPublishedLog store published;; mret ()
  | _, _ => mret ()
  end;;
  mret (pub_did published, pub_doc published, pub_log published).

Definition putProjection (updated : Updated) (store : WebvhIdStore W) : comp W () :=
  match upd_webDoc updated with
  | None => mthrow (plain_error "did:webvh: updateDID returned no webDoc despite the did:web alsoKnownAs.")
  | Some webDoc => putDidWebProjection store webDoc
  end.

Definition publishAccountEntry (idStore : WebvhIdStore W) (updated : Updated) (ifMatch : option string)
    (projectionStore : option (WebvhIdStore W)) (timing : ProjectionTiming) : comp W (option string) :=
  match projectionStore, timing with
  | Some store, before_entry =>
      try_catch (putProjection updated store) (λ err,
        logger (mkEvent warn "did:webvh: the pre-entry did:web projection PUT failed." {["err" := DErr err]}))
  | _, _ => mret ()
  end;;
  written ← putLogResource idStore (upd_log updated) ifMatch false;
  match projectionStore, timing with
  | Some store, after_entry => putProjection updated store
  | _, _ => mret ()
  end;;
  mret written.

Record BuildContext := mkContext {
  ctx_published : PublishedWebvhLog;
  ctx_parts : option LadderParts;
  concludeUnchanged : comp W concluded_head
}.

Record EntryOptions := mkEntryOptions {
  opt_idStore : WebvhIdStore W;
  opt_signer : AccountEntrySigner;
  opt_build : BuildContext → comp W (option AccountEntryFields);
  opt_skip : option (PublishedWebvhLog → comp W bool);
  opt_published : option PublishedWebvhLog;
  opt_expectedDid : option string;
  opt_builtOnHead : option json;
  opt_missingMessage : option string;
  opt_verb : option string;
  opt_projectionStore : option (WebvhIdStore W);
  opt_removesInventory : bool
}.

(** The ladder arm's attribution, fail-closed. *)
Definition attributeParts (signer : AccountEntrySigner) (published : PublishedWebvhLog) : result (option LadderParts) :=
  match signer with
  | LogSigner (ladder seed) =>
      '(rung, st) ← attributeLadderRung seed (pub_updateKeys published) (pub_nextKeyHashes published) LADDER_MAX_SCAN;
      Ok (Some (mkParts rung (deriveNextKeyHash (rung_keyMultibase rung)) st))
  | _ => Ok None
  end.

(** Who signs, and the parameters the entry states. *)
Record SignedParameters := mkSigned { sp_signer : Signer; sp_updateKeys : list string; sp_nextKeyHashes : list string }.

(** The revealing key of the ladder and committed arms: seed, key and hash. *)
Definition revealingKey (signer : AccountEntrySigner) (parts : option LadderParts) (published : PublishedWebvhLog)
    (verb : string) : result (string * string * string) :=
  match signer with
  | committed_key seed =>
      key ← updateKeyMultibase seed;
      let hash := deriveNextKeyHash key in
      if bool_decide (key ∈ pub_updateKeys published) || bool_decide (hash ∈ pub_nextKeyHashes published) then
        Ok (seed, key, hash)
      else
        mthrow (plain_error ("did:webvh: the published log neither authorizes this update key nor commits its hash; nothing licenses it to sign while " ++ verb ++ "."))
  | _ =>
      match parts with
      | Some p => Ok (rung_seed (part_rung p), rung_keyMultibase (part_rung p), part_hash p)
      | None => mthrow (JsError "TypeError" "Cannot read properties of undefined (reading 'rung')")
      end
  end.

Definition signedParameters (signer : AccountEntrySigner) (parts : option LadderParts) (published : PublishedWebvhLog)
    (verb : string) (entry : AccountEntryFields) : result SignedParameters :=
  let statedKeys := default (pub_updateKeys published) (ef_updateKeys entry) in
  let statedHashes := default (pub_nextKeyHashes published) (ef_nextKeyHashes entry) in
  let commitHashes := default [] (ef_commitHashes entry) in
  match signer with
  | LogSigner (enrolled seeds) =>
      activeKey ← updateKeyMultibase (updateSeed seeds);
      if decide (activeKey ∉ pub_updateKeys published) then
        mthrow (plain_error ("did:webvh: the published log does not authorize this client's active update key; finalize the pending rotation before " ++ verb ++ "."))
      else
        entrySigner ← updateKeySigner (updateSeed seeds);
        Ok (mkSigned entrySigner statedKeys (js_dedup (statedHashes ++ commitHashes)))
  | _ =>
      '(seed, key, hash) ← revealingKey signer parts published verb;
      entrySigner ← updateKeySigner seed;
      Ok (mkSigned entrySigner (js_dedup (statedKeys ++ [key])) (js_dedup (statedHashes ++ [hash] ++ commitHashes)))
  end.

(** The entry a build's fields make. *)
Definition signEntry (signer : AccountEntrySigner) (parts : option LadderParts) (published : PublishedWebvhLog)
    (verb : string) (entry : AccountEntryFields) : result Updated :=
  signed ← signedParameters signer parts published verb entry;
  assertCarryOverCommitments published;;
  updateDID (pub_log published) (pub_meta published) (sp_signer signed) (ef_document entry) (ef_services entry)
    (sp_updateKeys signed) (sp_nextKeyHashes signed).

Definition preamble (o : EntryOptions) : comp W PublishedWebvhLog :=
  built ← lift (match opt_builtOnHead o with
                | Some marker => built ← assertBuiltOnHeadShape (Some marker); Ok (Some built)
                | None => Ok None
                end);
  published ← (match opt_published o with
               | Some published => lift (assertPublishedLogDid published (opt_expectedDid o))
               | None => readPublishedLogOrThrow (opt_idStore o) (opt_expectedDid o) (opt_missingMessage o)
               end);
  match built with
  | Some built => lift (assertBuiltOnHeadReached (pub_log published) built)
  | None => mret ()
  end;;
  mret published.

Definition signAccountEntry (o : EntryOptions) : comp W AccountEntryOutcome :=
  let timing := projectionTimingOf (opt_signer o) (opt_removesInventory o) in
  published ← preamble o;
  skip ← (match opt_skip o with Some skip => skip published | None => mret false end);
  if (skip : bool) then mret (mkEntryOutcome true published None None None)
  else
    parts ← lift (attributeParts (opt_signer o) published);
    entry ← opt_build o (mkContext published parts
      (concludeUnchangedAccountEntry (opt_projectionStore o) timing published));
    match entry with
    | None => mret (mkEntryOutcome false published parts None None)
    | Some entry =>
        updated ← lift (signEntry (opt_signer o) parts published (default "extending the account log" (opt_verb o)) entry);
        written ← publishAccountEntry (opt_idStore o) updated (pub_etag published) (opt_projectionStore o) timing;
        mret (mkEntryOutcome false published parts (Some updated) written)
    end.
End entry.

(** * Enrolling and revoking a client

    The log halves of the two roster ceremonies: [src/src/webvh/enrollClient.ts],
    [revokeWebvhClient] of [src/src/webvh/revokeClient.ts], and the add-side
    builders of [src/src/webvh/didWebvh.ts]. The X25519 twin of a signing key
    is the storage client's. *)

Definition MULTIKEY_VM_TYPE : string := "Multikey".

(** [x25519RecipientFromDidKey], which refuses what is no Ed25519 key. *)
Class TwinLibrary := { x25519RecipientFromDidKey : string → result string }.

Record WebvhEnrollmentKeys := mkEnrollment {
  enroll_signingKey : string;
  enroll_keyAgreementKey : string;
  enroll_updateKey : string;
  enroll_stagedKey : string
}.

Section ceremonies.
Context {W : Type} {readers : DocumentReaders} {resolver : WebvhResolver} {writer : WebvhWriter}
  {hashes : HashLibrary} {keys : WebvhKeys} {twins : TwinLibrary}.
Variables (updateDID : UpdateDID) (logger : Logger W).

(** ** What a client contributes to the document *)

Definition keyAgreementTwinMultibase (signingKeyMultibase : string) : result string :=
  x25519RecipientFromDidKey ("did:key:" ++ signingKeyMultibase)%string.

Definition assertCanonicalClientKeys (signingKeyMultibase keyAgreementKeyMultibase : string) : result () :=
  twin ← keyAgreementTwinMultibase signingKeyMultibase;
  if decide (keyAgreementKeyMultibase = twin) then Ok ()
  else mthrow (plain_error "The client's key-agreement key is not the canonical X25519 twin of its signing key; it cannot be published under the controller marker, which would state a pairing this account cannot back.").

Definition multikey (controller id_controller key : string) : ResolvedKeyAgreementMethod :=
  mkMethod (Some (vm_id id_controller key)) (Some MULTIKEY_VM_TYPE) (Some controller) (Some key) None None.

Definition markedVerificationMethodPair (controller signingKey keyAgreementKey : string) :
    result (list ResolvedKeyAgreementMethod) :=
  assertCanonicalClientKeys signingKey keyAgreementKey;;
  Ok [multikey controller controller signingKey;
      multikey (clientKeyAgreementController signingKey) controller keyAgreementKey].

(** The ids each relation gains. *)
Definition clientRelations (controller signingKey keyAgreementKey : string) (relation : DocumentRelation) :
    option (list string) :=
  Some (match relation with
        | keyAgreement => [vm_id controller keyAgreementKey]
        | _ => [vm_id controller signingKey]
        end).

Definition clientAdditionFields (controller signingKey keyAgreementKey : string) :
    result (list ResolvedKeyAgreementMethod * (DocumentRelation → option (list string))) :=
  methods ← markedVerificationMethodPair controller signingKey keyAgreementKey;
  Ok (methods, clientRelations controller signingKey keyAgreementKey).

Definition mergedFields (merged : Merged) : DocumentFields :=
  mkFields (verificationMethods merged) (merged_relation merged).

(** ** Enrollment *)

(** The store the seam writes the projection through. *)
Definition ownProjection (signer : AccountLogSigner) (idStore : WebvhIdStore W) : option (WebvhIdStore W) :=
  match signer with enrolled _ => Some idStore | ladder _ => None end.

Definition enrollOptions (idStore : WebvhIdStore W) (signer : AccountLogSigner) (expectedDid : option string)
    (head : option PublishedWebvhLog) (build : BuildContext (W:=W) → comp W (option AccountEntryFields)) : EntryOptions :=
  mkEntryOptions idStore (LogSigner signer) build None head expectedDid None
    (Some "did:webvh: did.jsonl is missing; nothing to enroll into.") (Some "enrolling") (ownProjection signer idStore)
    false.

(** The head the next stage builds on. *)
Definition headOf (stage : AccountEntryOutcome) : option PublishedWebvhLog :=
  match out_updated stage with Some _ => None | None => Some (out_published stage) end.

(** [alreadyEnrolled], the local the commit's build sets, is a cell. *)
Context `{!Cell W (option concluded_head)}.

Definition commitBuild (newClient : WebvhEnrollmentKeys) (ctx : BuildContext (W:=W)) : comp W (option AccountEntryFields) :=
  let published := ctx_published ctx in
  let newUpdateKeyHash := deriveNextKeyHash (enroll_updateKey newClient) in
  let newStagedKeyHash := deriveNextKeyHash (enroll_stagedKey newClient) in
  if decide (enroll_updateKey newClient ∈ pub_updateKeys published) then
    head ← concludeUnchanged ctx;
    modify (set_cell (Some head));;
    mret None
  else if decide (newUpdateKeyHash ∈ pub_nextKeyHashes published ∧ newStagedKeyHash ∈ pub_nextKeyHashes published) then
    mret None
  else mret (Some (mkEntryFields None None (Some [newUpdateKeyHash; newStagedKeyHash]) None None)).

Definition revealBuild (ctx : BuildContext (W:=W)) : comp W (option AccountEntryFields) :=
  mret (match part_state <$> ctx_parts ctx with
        | Some revealed_rung => None
        | _ => Some no_fields
        end).

Definition addBuild (newClient : WebvhEnrollmentKeys) (ctx : BuildContext (W:=W)) : comp W (option AccountEntryFields) :=
  let published := ctx_published ctx in
  '(methods, relations) ← lift (clientAdditionFields (pub_did published) (enroll_signingKey newClient)
    (enroll_keyAgreementKey newClient));
  mret (Some (mkEntryFields (Some (js_dedup (pub_updateKeys published ++ [enroll_updateKey newClient]))) None None
    (Some (mergedFields (mergeVerificationMethods (pub_doc published) methods relations None))) None)).

Definition enrollWebvhClientOnce (idStore : WebvhIdStore W) (signer : AccountLogSigner) (newClient : WebvhEnrollmentKeys)
    (expectedDid : option string) : comp W (string * DIDLog) :=
  modify (set_cell None);;
  commit ← signAccountEntry updateDID logger (enrollOptions idStore signer expectedDid None (commitBuild newClient));
  alreadyEnrolled ← gets get_cell;
  match alreadyEnrolled : option concluded_head with
  | Some head => mret (head.1.1, head.2)
  | None =>
      last ← (match signer, out_updated commit with
              | ladder _, None =>
                  signAccountEntry updateDID logger (enrollOptions idStore signer expectedDid (headOf commit) revealBuild)
              | _, _ => mret commit
              end);
      added ← signAccountEntry updateDID logger (enrollOptions idStore signer expectedDid (headOf last) (addBuild newClient));
      mret (match out_updated added with
            | Some updated => (upd_did updated, upd_log updated)
            | None => (pub_did (out_published added), pub_log (out_published added))
            end)
  end.

Definition enrollWebvhClient (idStore : WebvhIdStore W) (signer : AccountLogSigner) (newClient : WebvhEnrollmentKeys)
    (expectedDid : option string) : comp W (string * DIDLog) :=
  withLogConflictRetry (enrollWebvhClientOnce idStore signer newClient expectedDid).

(** ** Revocation *)

(** An enrolled client is no target of its own revocation. *)
Definition refuseSelf (signer : AccountLogSigner) (target : ClientRemovalTarget) (revokedClient : RevokedClientKeys) :
    result () :=
  match signer with
  | enrolled seeds =>
      activeKey ← updateKeyMultibase (updateSeed seeds);
      if decide (removedUpdateKey target = activeKey ∨ revoked_updateKey revokedClient = activeKey) then
        mthrow (plain_error "did:webvh: a client cannot revoke itself; disconnect this client from another enrolled client instead.")
      else Ok ()
  | ladder _ => Ok ()
  end.

Definition revokeBuild (signer : AccountLogSigner) (revokedClient : RevokedClientKeys) (knownLatentHashes : list string)
    (ctx : BuildContext (W:=W)) : comp W (option AccountEntryFields) :=
  target ← lift (clientRemovalTarget (ctx_published ctx) revokedClient);
  lift (refuseSelf signer target revokedClient);;
  if present target then
    fields ← clientRemovalFields logger (ctx_published ctx) target knownLatentHashes;
    mret (Some (mkEntryFields (Some (removal_updateKeys fields)) (Some (removal_nextKeyHashes fields)) None
      (Some (removal_document fields)) None))
  else
    head ← concludeUnchanged ctx;
    modify (set_cell (Some head));;
    mret None.

Definition revokeWebvhClientOnce (idStore : WebvhIdStore W) (signer : AccountLogSigner)
    (projectionStore : option (WebvhIdStore W)) (revokedClient : RevokedClientKeys) (knownLatentHashes : list string)
    (expectedDid : option string) : comp W concluded_head :=
  modify (set_cell None);;
  outcome ← signAccountEntry updateDID logger
    (mkEntryOptions idStore (LogSigner signer) (revokeBuild signer revokedClient knownLatentHashes) None None expectedDid
       None (Some "did:webvh: did.jsonl is missing; nothing to revoke from.") (Some "revoking a client")
       (match projectionStore with Some store => Some store | None => ownProjection signer idStore end) true);
  concludedHead ← gets get_cell;
  mret (match concludedHead : option concluded_head, out_updated outcome with
        | Some head, _ => head
        | None, Some updated => (upd_did updated, upd_doc updated, upd_log updated)
        | None, None =>
            let published := out_published outcome in (pub_did published, pub_doc published, pub_log published)
        end).

Definition revokeWebvhClient (idStore : WebvhIdStore W) (signer : AccountLogSigner)
    (projectionStore : option (WebvhIdStore W)) (revokedClient : RevokedClientKeys) (knownLatentHashes : list string)
    (expectedDid : option string) : comp W concluded_head :=
  withLogConflictRetry
    (revokeWebvhClientOnce idStore signer projectionStore revokedClient knownLatentHashes expectedDid).
End ceremonies.
