(* ===== verification/RevocationHistory.v ===== *)
(** * A revocation strikes its client, and no other

    Histories of an account's parameters as the ceremonies make them:
    genesis, enrollments in their two entries, rotations, revocations, and
    any other entry that leaves the tracked clients alone. Over every such
    history the attribution of [revokeClient.ts] names a client's own staged
    commitment, so its removal ends all it could ever sign with and leaves
    every other client able to go on. *)

From S2P Require Import Prelude Json JsText CeremonyEvents AccountDocument LadderRungs AccountLog LogStore KeyRotation LadderIndex LadderInventory ClientListing ClientRevocation.

(** A client as its owner knows it: its two keys, and whether it has rotated
    since its enrollment. *)
Record TrackedClient := mkTracked { c_update : string; c_staged : string; c_rotated : bool }.
#[export] Instance TrackedClient_eq_dec : EqDecision TrackedClient.
Proof. solve_decision. Defined.

Definition keys_of_client (c : TrackedClient) : list string := [c_update c; c_staged c].
Definition keys_of_pair (p : string * string) : list string := [p.1; p.2].
Definition tracked (cs : list TrackedClient) (es : list (string * string)) : list string :=
  (cs ≫= keys_of_client) ++ (es ≫= keys_of_pair).

Section history.
Context {keys : WebvhKeys}.
Implicit Types (ps : LogParams) (A C : list string).

(** ** Histories *)

Definition fresh_key ps (key : string) : Prop :=
  ∀ i, key ∉ keysAt ps i ∧ deriveNextKeyHash key ∉ hashesAt ps i.

Definition same_keys (ks : list string) A A' : Prop := ∀ k, k ∈ ks → (k ∈ A' ↔ k ∈ A).
Definition same_hashes (ks : list string) C C' : Prop :=
  ∀ k, k ∈ ks → (deriveNextKeyHash k ∈ C' ↔ deriveNextKeyHash k ∈ C).

(** The attribution of a client's staged hash is not told that it is another
    party's; after a rotation no position protects it from the walk's claims
    either. *)
Definition unclaimed (c : TrackedClient) (known derived : list string) : Prop :=
  deriveNextKeyHash (c_staged c) ∉ known ∧
  (c_rotated c = true → deriveNextKeyHash (c_staged c) ∉ derived).

Inductive history : LogParams → list TrackedClient → list (string * string) → Prop :=
  | history_genesis u s :
      u ≠ s → history [([u], genesisNextKeyHashes u s)] [mkTracked u s false] []
  | history_commit ps A C cs es u s A' before after :
      history ps cs es → last ps = Some (A, C) →
      fresh_key ps u → fresh_key ps s → u ≠ s → u ∉ tracked cs es → s ∉ tracked cs es →
      same_keys (u :: s :: tracked cs es) A A' →
      (∀ k, k ∈ u :: s :: tracked cs es → deriveNextKeyHash k ∉ before ++ after) →
      history (ps ++ [(A', js_dedup (C ++ before ++ [deriveNextKeyHash u; deriveNextKeyHash s] ++ after))])
        cs ((u, s) :: es)
  | history_add ps A C cs es es' u s A' C' :
      history ps cs es → last ps = Some (A, C) →
      es ≡ₚ (u, s) :: es' → u ∈ A' → same_keys (s :: tracked cs es') A A' →
      C' ⊆ C → same_hashes (tracked cs es) C C' →
      history (ps ++ [(A', C')]) (mkTracked u s false :: cs) es'
  | history_rotate ps A C cs cs' es c n published multibases :
      history ps cs es → last ps = Some (A, C) → cs ≡ₚ c :: cs' →
      fresh_key ps n → n ∉ tracked cs es →
      pub_updateKeys published = A → pub_nextKeyHashes published = C →
      mb_update multibases = c_update c → mb_staged multibases = c_staged c →
      history (ps ++ [(rotatedKeys published multibases, rotatedHashes published multibases n)])
        (mkTracked (c_staged c) n true :: cs') es
  | history_revoke ps A C cs cs' es c known derived staged published target :
      history ps cs es → last ps = Some (A, C) → cs ≡ₚ c :: cs' →
      unclaimed c known derived →
      attributeStagedHash ps (c_update c) known derived = Isolated staged →
      pub_updateKeys published = A → pub_nextKeyHashes published = C →
      removedUpdateKey target = c_update c → removedHash target = deriveNextKeyHash (c_update c) →
      history (ps ++ [(filter (λ key, key ≠ removedUpdateKey target) A,
                       filter (λ hash, hash ≠ removedHash target ∧ Some hash ≠ staged) C)]) cs' es
  | history_other ps A C cs es A' C' :
      history ps cs es → last ps = Some (A, C) →
      same_keys (tracked cs es) A A' → same_hashes (tracked cs es) C C' →
      history (ps ++ [(A', C')]) cs es.

(** ** Reading a history that grows *)

Lemma keysAt_app_l ps e i : i < length ps → keysAt (ps ++ [e]) i = keysAt ps i.
Proof. intros Hi. unfold keysAt. by rewrite lookup_app_l. Qed.
Lemma hashesAt_app_l ps e i : i < length ps → hashesAt (ps ++ [e]) i = hashesAt ps i.
Proof. intros Hi. unfold hashesAt. by rewrite lookup_app_l. Qed.
Lemma keysAt_app_r ps e : keysAt (ps ++ [e]) (length ps) = e.1.
Proof. unfold keysAt. by rewrite list_lookup_middle by done. Qed.
Lemma hashesAt_app_r ps e : hashesAt (ps ++ [e]) (length ps) = e.2.
Proof. unfold hashesAt. by rewrite list_lookup_middle by done. Qed.

Lemma at_last ps A C : last ps = Some (A, C) →
  0 < length ps ∧ keysAt ps (length ps - 1) = A ∧ hashesAt ps (length ps - 1) = C.
Proof.
  intros Hl. rewrite last_lookup in Hl. unfold keysAt, hashesAt.
  replace (length ps - 1) with (pred (length ps)) by lia. rewrite Hl. split_and!; [|done..].
  destruct ps; [done|cbn; lia].
Qed.

Lemma orderedAdded_app_l ps e i : i < length ps → orderedAdded (ps ++ [e]) i = orderedAdded ps i.
Proof.
  intros Hi. unfold orderedAdded. rewrite hashesAt_app_l by done. destruct i; [done|]. by rewrite hashesAt_app_l by lia.
Qed.

Lemma orderedAdded_app_r ps A C e :
  last ps = Some (A, C) → orderedAdded (ps ++ [e]) (length ps) = filter (λ hash, hash ∉ C) e.2.
Proof.
  intros (Hlen & _ & HC)%at_last. unfold orderedAdded. rewrite hashesAt_app_r.
  destruct (length ps) as [|n] eqn:Hn; [lia|]. rewrite hashesAt_app_l by lia.
  rewrite <- HC. by replace (S n - 1) with n by lia.
Qed.

(** A value that has stood since the entry [r]. *)
Definition since (at_ : nat → list string) (n r : nat) (x : string) : Prop :=
  r < n ∧ (∀ i, r ≤ i < n → x ∈ at_ i) ∧ ∀ j, r = S j → x ∉ at_ j.

Lemma since_lastEntry at_ n m r x :
  since at_ n r x → r < m ≤ n → lastEntry (λ i, bool_decide (x ∈ at_ i)) m = Some r.
Proof.
  intros (Hr & Hin & Hout) Hm. unfold lastEntry.
  replace (seq 0 m) with (seq 0 (S r) ++ seq (S r) (m - S r)) by (rewrite <- seq_app; f_equal; lia).
  rewrite filter_app, (filter_none _ (seq (S r) (m - S r))).
  2: { intros i [Hi1 Hi2]%elem_of_seq. unfold enters. destruct i as [|i]; [lia|].
       rewrite (bool_decide_eq_true_2 (x ∈ at_ i)) by (apply Hin; lia). cbn. by rewrite andb_false_r. }
  rewrite app_nil_r, seq_S, filter_app, filter_cons_True, filter_nil, last_snoc; [done|].
  unfold enters. cbn. rewrite bool_decide_eq_true_2 by (apply Hin; lia). destruct r as [|r]; [done|].
  by rewrite bool_decide_eq_false_2 by by apply Hout.
Qed.

Lemma since_keys_snoc ps e r x :
  since (keysAt ps) (length ps) r x → x ∈ e.1 → since (keysAt (ps ++ [e])) (length (ps ++ [e])) r x.
Proof.
  intros (Hr & Hin & Hout) Hx. rewrite length_app. cbn. split_and!; [lia| |].
  - intros i Hi. destruct (decide (i < length ps)); [rewrite keysAt_app_l by done; apply Hin; lia|].
    replace i with (length ps) by lia. by rewrite keysAt_app_r.
  - intros j ->. rewrite keysAt_app_l by lia. by apply Hout.
Qed.

Lemma since_hashes_snoc ps e r x :
  since (hashesAt ps) (length ps) r x → x ∈ e.2 → since (hashesAt (ps ++ [e])) (length (ps ++ [e])) r x.
Proof.
  intros (Hr & Hin & Hout) Hx. rewrite length_app. cbn. split_and!; [lia| |].
  - intros i Hi. destruct (decide (i < length ps)); [rewrite hashesAt_app_l by done; apply Hin; lia|].
    replace i with (length ps) by lia. by rewrite hashesAt_app_r.
  - intros j ->. rewrite hashesAt_app_l by lia. by apply Hout.
Qed.

(** ** Commitments *)

(** The pair's hashes stand side by side among what one entry added. *)
Definition committed_at ps (u s : string) (i : nat) : Prop :=
  since (hashesAt ps) (length ps) i (deriveNextKeyHash u) ∧
  ∃ before after, deriveNextKeyHash u ∉ before ∧
    orderedAdded ps i = before ++ deriveNextKeyHash u :: deriveNextKeyHash s :: after.

(** How the log shows a client since the entry [r] that revealed its key. *)
Inductive origin ps (c : TrackedClient) (r : nat) : Prop :=
  | at_genesis : r = 0 → orderedAdded ps r = [deriveNextKeyHash (c_update c); deriveNextKeyHash (c_staged c)] →
      origin ps c r
  | by_enrollment i : i ≤ r → orderedAdded ps r = [] → committed_at ps (c_update c) (c_staged c) i → origin ps c r
  | by_rotation : c_rotated c = true → orderedAdded ps r = [deriveNextKeyHash (c_staged c)] → origin ps c r.

Definition head_holds ps (c : TrackedClient) : Prop :=
  ∃ A C, last ps = Some (A, C) ∧ c_update c ∈ A ∧ c_staged c ∉ A ∧
    deriveNextKeyHash (c_update c) ∈ C ∧ deriveNextKeyHash (c_staged c) ∈ C.

Definition client_stands ps (c : TrackedClient) : Prop :=
  head_holds ps c ∧ ∃ r, since (keysAt ps) (length ps) r (c_update c) ∧ origin ps c r.

Definition pair_waits ps (p : string * string) : Prop :=
  (∃ A C, last ps = Some (A, C) ∧ p.1 ∉ A ∧ p.2 ∉ A ∧ deriveNextKeyHash p.2 ∈ C) ∧
  ∃ i, committed_at ps p.1 p.2 i.

Definition roster_stands ps cs es : Prop :=
  NoDup (tracked cs es) ∧ Forall (client_stands ps) cs ∧ Forall (pair_waits ps) es.

Lemma committed_snoc ps e u s i :
  committed_at ps u s i → deriveNextKeyHash u ∈ e.2 → committed_at (ps ++ [e]) u s i.
Proof.
  intros [Hs (before & after & Hb & Ho)] Hu. split; [by apply since_hashes_snoc|]. exists before, after.
  split; [done|]. rewrite orderedAdded_app_l; [done|]. by destruct Hs.
Qed.

Lemma origin_snoc ps e c r :
  r < length ps → origin ps c r → deriveNextKeyHash (c_update c) ∈ e.2 → origin (ps ++ [e]) c r.
Proof.
  intros Hr [H0 Ho|i Hi Ho Hc|Hrot Ho] Hu.
  - apply at_genesis; [done|]. by rewrite orderedAdded_app_l.
  - eapply by_enrollment; [exact Hi| |by apply committed_snoc]. by rewrite orderedAdded_app_l.
  - apply by_rotation; [done|]. by rewrite orderedAdded_app_l.
Qed.

(** A client outlives any entry that leaves its two keys alone. *)
Lemma client_snoc ps A C A' C' c :
  last ps = Some (A, C) → client_stands ps c →
  same_keys (keys_of_client c) A A' → same_hashes (keys_of_client c) C C' → client_stands (ps ++ [(A', C')]) c.
Proof.
  intros Hl [(A0 & C0 & Hl' & Hu & Hs & Hhu & Hhs) (r & Hr & Ho)] HA HC. simplify_eq.
  assert (c_update c ∈ keys_of_client c ∧ c_staged c ∈ keys_of_client c) as [Hcu Hcs] by set_solver.
  rewrite <- (HA _ Hcu) in Hu. rewrite <- (HA _ Hcs) in Hs. rewrite <- (HC _ Hcu) in Hhu. rewrite <- (HC _ Hcs) in Hhs.
  split; [exists A', C'; by rewrite last_snoc|]. exists r.
  split; [by apply since_keys_snoc|]. apply origin_snoc; [by destruct Hr|done|done].
Qed.

Lemma pair_snoc ps A C A' C' p :
  last ps = Some (A, C) → pair_waits ps p →
  same_keys (keys_of_pair p) A A' → same_hashes (keys_of_pair p) C C' → pair_waits (ps ++ [(A', C')]) p.
Proof.
  intros Hl [(A0 & C0 & Hl' & Hu & Hs & Hhs) (i & Hi)] HA HC. simplify_eq.
  assert (p.1 ∈ keys_of_pair p ∧ p.2 ∈ keys_of_pair p) as [Hp1 Hp2] by set_solver.
  rewrite <- (HA _ Hp1) in Hu. rewrite <- (HA _ Hp2) in Hs. rewrite <- (HC _ Hp2) in Hhs.
  split; [exists A', C'; by rewrite last_snoc|]. exists i. apply committed_snoc; [done|]. apply (HC _ Hp1).
  destruct Hi as [(Hlt & Hin & _) _]. apply at_last in Hl as (? & _ & <-). apply Hin. lia.
Qed.

Lemma roster_snoc ps A C A' C' cs es :
  last ps = Some (A, C) → Forall (client_stands ps) cs → Forall (pair_waits ps) es →
  same_keys (tracked cs es) A A' → same_hashes (tracked cs es) C C' →
  Forall (client_stands (ps ++ [(A', C')])) cs ∧ Forall (pair_waits (ps ++ [(A', C')])) es.
Proof.
  intros Hl Hcs Hes HA HC. rewrite !Forall_forall in *. split.
  - intros c Hc. eapply client_snoc; [done|by apply Hcs|..]; intros k Hk; [apply HA|apply HC];
      apply elem_of_app; left; apply list_elem_of_bind; by exists c.
  - intros p Hp. eapply pair_snoc; [done|by apply Hes|..]; intros k Hk; [apply HA|apply HC];
      apply elem_of_app; right; apply list_elem_of_bind; by exists p.
Qed.

(** ** The attribution names the staged commitment *)

Context `{!Inj (=) (=) deriveNextKeyHash}.

Lemma successor_of ps u s i before after :
  deriveNextKeyHash u ∉ before → orderedAdded ps i = before ++ deriveNextKeyHash u :: deriveNextKeyHash s :: after →
  positionalSuccessor ps (deriveNextKeyHash u) i = Some (deriveNextKeyHash s).
Proof.
  intros Hb Ho. unfold positionalSuccessor, index_of. rewrite Ho.
  rewrite list_find_app_r by (apply list_find_None, Forall_forall; intros x Hx ->; done).
  cbn [list_find]. rewrite decide_True by done. cbn.
  by rewrite lookup_app_r, Nat.sub_succ_l, Nat.sub_diag by lia.
Qed.

Lemma isolate_kept ps hash i candidates staged :
  staged ∈ candidates → positionalSuccessor ps hash i = Some staged →
  isolate ps hash i candidates = Isolated (Some staged).
Proof.
  intros Hin Hs. destruct candidates as [|x [|y candidates]]; [set_solver|set_solver|].
  unfold isolate, stagedByPosition. by rewrite Hs, decide_True.
Qed.

Lemma pruned_pair ps u s i known derived :
  u ≠ s → deriveNextKeyHash s ∉ known → deriveNextKeyHash s ∈ orderedAdded ps i →
  positionalSuccessor ps (deriveNextKeyHash u) i = Some (deriveNextKeyHash s) →
  isolate ps (deriveNextKeyHash u) i (prune ps (deriveNextKeyHash u) known derived i) =
    Isolated (Some (deriveNextKeyHash s)) ∧ prune ps (deriveNextKeyHash u) known derived i ≠ [].
Proof.
  intros Hne Hk Hin Hs.
  assert (deriveNextKeyHash s ∈ prune ps (deriveNextKeyHash u) known derived i) as Hp.
  { unfold prune. rewrite list_elem_of_filter, elem_of_js_dedup, Hs. split; [|done].
    split_and!; [by intros ?%(inj deriveNextKeyHash)|done|naive_solver]. }
  split; [by apply isolate_kept|]. intros Hnil. rewrite Hnil in Hp. set_solver.
Qed.

Lemma attribution_exact ps c known derived :
  client_stands ps c → c_update c ≠ c_staged c → unclaimed c known derived →
  attributeStagedHash ps (c_update c) known derived = Isolated (Some (deriveNextKeyHash (c_staged c))).
Proof.
  intros [_ (r & Hr & Ho)] Hne [Hk Hd]. unfold attributeStagedHash, revealIndex.
  rewrite (since_lastEntry _ _ _ _ _ Hr) by (destruct Hr; lia).
  destruct Ho as [-> Ho|i Hi Ho [Hs (before & after & Hb & Hc)]|Hrot Ho].
  - destruct (pruned_pair ps (c_update c) (c_staged c) 0 known derived) as [Hiso Hnil]; [done..| | |].
    + rewrite Ho. set_solver.
    + apply (successor_of ps _ _ 0 [] []); [set_solver|done].
    + by destruct (prune _ _ _ _ _).
  - unfold prune at 1. rewrite Ho. cbn [js_dedup filter list_filter].
    unfold commitIndexOf. rewrite (since_lastEntry _ _ _ _ _ Hs) by (destruct Hr; lia).
    eapply pruned_pair; [done..| |by eapply successor_of]. rewrite Hc. set_solver.
  - assert (prune ps (deriveNextKeyHash (c_update c)) known derived r = [deriveNextKeyHash (c_staged c)]) as ->; [|done].
    unfold prune. rewrite Ho. cbn [js_dedup]. rewrite filter_nil.
    rewrite filter_cons_True, filter_nil; [done|]. split_and!; [by intros ?%(inj deriveNextKeyHash)|done|naive_solver].
Qed.

(** ** Every history keeps its clients *)

Lemma tracked_pair cs es u s : tracked cs ((u, s) :: es) ≡ₚ u :: s :: tracked cs es.
Proof. unfold tracked. cbn. rewrite <- !Permutation_middle. done. Qed.

#[local] Instance tracked_Permutation : Proper ((≡ₚ) ==> (≡ₚ) ==> (≡ₚ)) tracked.
Proof. intros cs cs' Hc es es' He. unfold tracked. by rewrite Hc, He. Qed.

Lemma commit_additions C before after u s :
  u ≠ s → deriveNextKeyHash u ∉ C → deriveNextKeyHash s ∉ C →
  deriveNextKeyHash u ∉ before → deriveNextKeyHash s ∉ before →
  ∃ before' after', deriveNextKeyHash u ∉ before' ∧
    filter (λ hash, hash ∉ C) (js_dedup (C ++ before ++ [deriveNextKeyHash u; deriveNextKeyHash s] ++ after)) =
    before' ++ deriveNextKeyHash u :: deriveNextKeyHash s :: after'.
Proof.
  intros Hne HuC HsC Hub Hsb.
  rewrite filter_js_dedup, filter_app, (filter_none _ C) by set_solver. rewrite !filter_app, app_nil_l.
  rewrite !filter_cons_True, filter_nil by done. rewrite js_dedup_app.
  set (before' := js_dedup (filter _ before)).
  assert (deriveNextKeyHash u ∉ before' ∧ deriveNextKeyHash s ∉ before') as [Hu' Hs'].
  { unfold before'. rewrite !elem_of_js_dedup, !list_elem_of_filter. naive_solver. }
  cbn [app js_dedup]. rewrite (filter_cons_True _ (deriveNextKeyHash s)) by by intros ?%(inj deriveNextKeyHash).
  rewrite !filter_cons_True by (rewrite list_elem_of_filter; naive_solver).
  by eexists before', _.
Qed.

Lemma rotation_additions C u s n :
  deriveNextKeyHash s ∈ C → deriveNextKeyHash n ∉ C →
  filter (λ hash, hash ∉ C) (js_dedup (filter (λ hash, hash ≠ deriveNextKeyHash u) C ++
    [deriveNextKeyHash s; deriveNextKeyHash n])) = [deriveNextKeyHash n].
Proof.
  intros Hs Hn. rewrite filter_js_dedup, filter_app, filter_none by (intros x Hx; rewrite list_elem_of_filter in Hx; naive_solver).
  cbn [app]. rewrite filter_cons_False, filter_cons_True, filter_nil by naive_solver. done.
Qed.

Lemma tracked_client cs cs' es c : cs ≡ₚ c :: cs' → tracked cs es ≡ₚ c_update c :: c_staged c :: tracked cs' es.
Proof. intros Hc. by rewrite Hc. Qed.

Lemma client_keys_distinct ps cs es c : roster_stands ps cs es → c ∈ cs → c_update c ≠ c_staged c.
Proof.
  intros (Hnd & _ & _) [cs' Hcs]%elem_of_Permutation. rewrite (tracked_client _ _ es _ Hcs), !NoDup_cons in Hnd.
  set_solver.
Qed.

Lemma commit_stands ps A C cs es u s A' before after :
  roster_stands ps cs es → last ps = Some (A, C) → fresh_key ps u → fresh_key ps s → u ≠ s →
  u ∉ tracked cs es → s ∉ tracked cs es → same_keys (u :: s :: tracked cs es) A A' →
  (∀ k, k ∈ u :: s :: tracked cs es → deriveNextKeyHash k ∉ before ++ after) →
  roster_stands (ps ++ [(A', js_dedup (C ++ before ++ [deriveNextKeyHash u; deriveNextKeyHash s] ++ after))])
    cs ((u, s) :: es).
Proof.
  intros (Hnd & Hcs & Hes) Hl Hfu Hfs Hne Hu Hs HA Hba. destruct (at_last _ _ _ Hl) as (Hlen & HkA & HkC).
  assert (u ∉ A ∧ s ∉ A ∧ deriveNextKeyHash u ∉ C ∧ deriveNextKeyHash s ∉ C) as (HuA & HsA & HuC & HsC).
  { rewrite <- HkA, <- HkC. split_and!; [apply Hfu|apply Hfs|apply Hfu|apply Hfs]. }
  destruct (commit_additions C before after u s) as (before' & after' & Hb' & Hadd); try done;
    [intros ?; eapply (Hba u); set_solver|intros ?; eapply (Hba s); set_solver|].
  destruct (roster_snoc ps A C A' (js_dedup (C ++ before ++ [deriveNextKeyHash u; deriveNextKeyHash s] ++ after))
    cs es) as [Hcs' Hes']; try done.
  { intros k Hk. apply HA. set_solver. }
  { intros k Hk. rewrite elem_of_js_dedup, !elem_of_app, !elem_of_cons. specialize (Hba k ltac:(set_solver)).
    assert (deriveNextKeyHash k ≠ deriveNextKeyHash u ∧ deriveNextKeyHash k ≠ deriveNextKeyHash s) by
      (split; intros ?%(inj deriveNextKeyHash); set_solver). set_solver. }
  split_and!; [|done|].
  - rewrite tracked_pair, !NoDup_cons. set_solver.
  - constructor; [|done]. split.
    + eexists _, _. rewrite last_snoc. split; [done|]. split_and!.
      * rewrite (HA u) by set_solver. done.
      * rewrite (HA s) by set_solver. done.
      * rewrite elem_of_js_dedup. set_solver.
    + exists (length ps). split; [split_and!|exists before', after'; split; [done|]].
      * rewrite length_app. cbn. lia.
      * intros i [Hi1 Hi2]. rewrite length_app in Hi2. cbn in Hi2. replace i with (length ps) by lia.
        rewrite hashesAt_app_r. cbn. rewrite elem_of_js_dedup. set_solver.
      * intros j Hj. rewrite hashesAt_app_l by lia. apply Hfu.
      * by rewrite (orderedAdded_app_r ps A C).
Qed.

Lemma add_stands ps A C cs es es' u s A' C' :
  roster_stands ps cs es → last ps = Some (A, C) → es ≡ₚ (u, s) :: es' → u ∈ A' →
  same_keys (s :: tracked cs es') A A' → C' ⊆ C → same_hashes (tracked cs es) C C' →
  roster_stands (ps ++ [(A', C')]) (mkTracked u s false :: cs) es'.
Proof.
  intros (Hnd & Hcs & Hes) Hl Hperm HuA' HA Hsub HC. destruct (at_last _ _ _ Hl) as (Hlen & HkA & HkC).
  assert (tracked cs es ≡ₚ u :: s :: tracked cs es') as Ht by by rewrite Hperm, tracked_pair.
  assert (pair_waits ps (u, s) ∧ Forall (pair_waits ps) es') as [Hp Hes'] by (rewrite Hperm in Hes; by apply Forall_cons in Hes).
  assert (same_hashes (u :: s :: tracked cs es') C C') as HC' by by intros k Hk; apply HC; rewrite Ht.
  destruct (roster_snoc ps A C A' C' cs es') as [Hcs' Hes'']; try done.
  { intros k Hk. apply HA. set_solver. } { intros k Hk. apply HC'. set_solver. }
  split_and!; [by rewrite (tracked_client _ cs es' (mkTracked u s false)); [cbn; rewrite <- Ht|]| |done].
  constructor; [|done]. destruct Hp as [(A0 & C0 & Hl' & Hu & Hs & Hhs) (i & Hi)]. simplify_eq/=.
  assert (deriveNextKeyHash u ∈ C') as HuC'.
  { apply (HC' u); [set_solver|]. destruct Hi as [(Hlt & Hin & _) _]. apply Hin. lia. }
  split.
  - exists A', C'. rewrite last_snoc. split; [done|]. cbn. split_and!; [done| |done|].
    + rewrite (HA s) by set_solver. done.
    + rewrite (HC' s) by set_solver. done.
  - exists (length ps). split; [split_and!|].
    + rewrite length_app. cbn. lia.
    + intros j [Hj1 Hj2]. rewrite length_app in Hj2. cbn in Hj2. replace j with (length ps) by lia.
      by rewrite keysAt_app_r.
    + intros j Hj. rewrite keysAt_app_l by lia. cbn. replace j with (length ps - 1) by lia. done.
    + apply (by_enrollment _ _ _ i); [destruct Hi as [[Hlt _] _]; lia| |by apply committed_snoc].
      erewrite orderedAdded_app_r by done. apply filter_none. set_solver.
Qed.

Lemma rotate_stands ps A C cs cs' es c n published multibases :
  roster_stands ps cs es → last ps = Some (A, C) → cs ≡ₚ c :: cs' → fresh_key ps n → n ∉ tracked cs es →
  pub_updateKeys published = A → pub_nextKeyHashes published = C →
  mb_update multibases = c_update c → mb_staged multibases = c_staged c →
  roster_stands (ps ++ [(rotatedKeys published multibases, rotatedHashes published multibases n)])
    (mkTracked (c_staged c) n true :: cs') es.
Proof.
  intros (Hnd & Hcs & Hes) Hl Hperm Hfresh Hn HA HC Hu Hs. destruct (at_last _ _ _ Hl) as (Hlen & HkA & HkC).
  pose proof (tracked_client _ _ es _ Hperm) as Ht. rewrite Ht in Hnd, Hn. rewrite !NoDup_cons in Hnd.
  rewrite Hperm in Hcs. apply Forall_cons in Hcs as [[(A0 & C0 & Hl' & HuA & HsA & HuC & HsC) _] Hcs]. simplify_eq.
  assert (n ∉ pub_updateKeys published ∧ deriveNextKeyHash n ∉ pub_nextKeyHashes published) as [HnA HnC].
  { rewrite <- HkA, <- HkC. apply Hfresh. }
  unfold rotatedKeys, rotatedHashes. rewrite Hu, Hs.
  destruct (roster_snoc ps (pub_updateKeys published) (pub_nextKeyHashes published)
    (filter (λ key, key ≠ c_update c) (pub_updateKeys published) ++ [c_staged c])
    (js_dedup (filter (λ hash, hash ≠ deriveNextKeyHash (c_update c)) (pub_nextKeyHashes published) ++
       [deriveNextKeyHash (c_staged c); deriveNextKeyHash n])) cs' es) as [Hcs' Hes']; try done.
  { intros k Hk. rewrite elem_of_app, list_elem_of_filter. set_solver. }
  { intros k Hk. rewrite elem_of_js_dedup, elem_of_app, list_elem_of_filter, !elem_of_cons.
    assert (∀ k', k ≠ k' → deriveNextKeyHash k ≠ deriveNextKeyHash k') as Hneq
      by (intros k' ? ?%(inj deriveNextKeyHash); done).
    pose proof (Hneq (c_update c) ltac:(set_solver)). pose proof (Hneq (c_staged c) ltac:(set_solver)).
    pose proof (Hneq n ltac:(set_solver)). set_solver. }
  split_and!; [| |done].
  - rewrite (tracked_client _ cs' es (mkTracked (c_staged c) n true)) by done. cbn [c_update c_staged]. rewrite !NoDup_cons. set_solver.
  - constructor; [|done]. split.
    + eexists _, _. rewrite last_snoc. split; [done|]. cbn [c_update c_staged]. split_and!.
      * set_solver.
      * rewrite elem_of_app, list_elem_of_filter. set_solver.
      * rewrite elem_of_js_dedup. set_solver.
      * rewrite elem_of_js_dedup. set_solver.
    + exists (length ps). split; [split_and!|].
      * rewrite length_app. cbn. lia.
      * intros j [Hj1 Hj2]. rewrite length_app in Hj2. cbn in Hj2. replace j with (length ps) by lia.
        rewrite keysAt_app_r. cbn. set_solver.
      * intros j Hj. rewrite keysAt_app_l by lia. cbn. replace j with (length ps - 1) by lia. by rewrite HkA.
      * apply by_rotation; [done|]. erewrite orderedAdded_app_r by done. by apply rotation_additions.
Qed.

Lemma revoke_stands ps A C cs cs' es c (removedKey removedHash : string) staged :
  roster_stands ps cs es → last ps = Some (A, C) → cs ≡ₚ c :: cs' →
  removedKey = c_update c → removedHash = deriveNextKeyHash (c_update c) →
  staged = Some (deriveNextKeyHash (c_staged c)) →
  roster_stands (ps ++ [(filter (λ key, key ≠ removedKey) A,
                         filter (λ hash, hash ≠ removedHash ∧ Some hash ≠ staged) C)]) cs' es.
Proof.
  intros (Hnd & Hcs & Hes) Hl Hperm -> -> ->.
  pose proof (tracked_client _ _ es _ Hperm) as Ht. rewrite Ht, !NoDup_cons in Hnd.
  rewrite Hperm in Hcs. apply Forall_cons in Hcs as [_ Hcs].
  destruct (roster_snoc ps A C (filter (λ key, key ≠ c_update c) A)
    (filter (λ hash, hash ≠ deriveNextKeyHash (c_update c) ∧ Some hash ≠ Some (deriveNextKeyHash (c_staged c))) C)
    cs' es) as [Hcs' Hes']; try done.
  { intros k Hk. rewrite list_elem_of_filter. set_solver. }
  { intros k Hk. rewrite list_elem_of_filter.
    assert (deriveNextKeyHash k ≠ deriveNextKeyHash (c_update c)) by (intros ?%(inj deriveNextKeyHash); set_solver).
    assert (deriveNextKeyHash k ≠ deriveNextKeyHash (c_staged c)) by (intros ?%(inj deriveNextKeyHash); set_solver).
    naive_solver. }
  split_and!; [|done..]. by apply Hnd.
Qed.

Lemma genesis_stands u s : u ≠ s → roster_stands [([u], genesisNextKeyHashes u s)] [mkTracked u s false] [].
Proof.
  intros Hne. split_and!; [| |done].
  - unfold tracked. cbn. rewrite !NoDup_cons, !elem_of_cons. split_and!; [|apply not_elem_of_nil|by constructor].
    intros [?|?%elem_of_nil]; done.
  - constructor; [|done]. split.
    + exists [u], (genesisNextKeyHashes u s). split_and!; [done|left|..].
      * rewrite elem_of_cons. intros [?|?%elem_of_nil]; [by apply Hne|done].
      * left.
      * right. left.
    + exists 0. split; [|by apply at_genesis]. split_and!; cbn; [lia| |done].
      intros i Hi. replace i with 0 by lia. left.
Qed.

Lemma history_stands ps cs es : history ps cs es → roster_stands ps cs es.
Proof.
  induction 1 as [u s Hne|ps A C cs es u s A' before after _ IH|ps A C cs es es' u s A' C' _ IH
    |ps A C cs cs' es c n published multibases _ IH|ps A C cs cs' es c known derived staged published target _ IH
      Hl Hperm Hun Hatt|ps A C cs es A' C' _ IH Hl HA HC].
  - by apply genesis_stands.
  - intros; by eapply commit_stands.
  - by eapply add_stands.
  - by eapply rotate_stands.
  - intros. eapply revoke_stands; [done..|].
    assert (c ∈ cs) as Hc by (rewrite Hperm; set_solver).
    rewrite (attribution_exact ps c known derived) in Hatt; [by injection Hatt| | |done].
    + destruct IH as (_ & Hcs & _). rewrite Forall_forall in Hcs. by apply Hcs.
    + by eapply client_keys_distinct.
  - destruct IH as (Hnd & Hcs & Hes). destruct (roster_snoc ps A C A' C' cs es) as [? ?]; done.
Qed.
End history.

(** ** The removal of a tracked client *)

Lemma vm_id_inj did fragment fragment' : vm_id did fragment = vm_id did fragment' → fragment = fragment'.
Proof.
  unfold vm_id. intros [= H]%(inj (String.app did)). exact H.
Qed.

Section removal.
Context {readers : DocumentReaders} {keys : WebvhKeys} {writer : WebvhWriter} {hashes : HashLibrary} {W : Type}.
Context `{!Inj (=) (=) deriveNextKeyHash}.

(** The active key a client lists resolves to itself. *)
Lemma target_of_active published client :
  revoked_updateKey client ∈ pub_updateKeys published →
  ∃ target, clientRemovalTarget published client = Ok target ∧
    removedUpdateKey target = revoked_updateKey client ∧
    removedHash target = deriveNextKeyHash (revoked_updateKey client) ∧ keyPresent target = true ∧
    signingVmId target = vm_id (pub_did published) (revoked_signingKey client).
Proof.
  intros Hin. unfold clientRemovalTarget, currentRevokedUpdateKey. rewrite decide_True by done. cbn.
  eexists. split_and!; [done|..]; cbn; [done|done| |done]. by apply bool_decide_eq_true_2.
Qed.

Lemma latent_read (logger : Logger W) log known derived ids w :
  (∀ event w, ∃ w', logger event w = (Ok (), w')) →
  standingCredentialLatentHashes log LADDER_MAX_SCAN = Ok (derived, ids) →
  ∃ w', latentHashesToExclude logger log known w = (Ok (known, derived), w').
Proof.
  intros Hlog Hd. unfold latentHashesToExclude, mbind, comp_bind, lift. rewrite Hd. cbn -[decide filter].
  assert (∀ (b : Prop) `{Decision b} event w, ∃ w', (if decide b then logger event else mret ()) w = (Ok (), w')) as Hif.
  { intros b ? event w0. case_decide; [apply Hlog|by eexists]. }
  edestruct (Hif (ids ≠ [])) as [w1 ->]. edestruct (Hif (filter (λ hash, hash ∉ derived) known ≠ [])) as [w2 ->].
  by eexists.
Qed.

(** What a listed client can still do at the log's head. *)
Definition able (updateKeys nextKeyHashes : list string) (d : TrackedClient) : Prop :=
  c_update d ∈ updateKeys ∧ c_staged d ∉ updateKeys ∧
  deriveNextKeyHash (c_update d) ∈ nextKeyHashes ∧ deriveNextKeyHash (c_staged d) ∈ nextKeyHashes.
Definition powerless (updateKeys nextKeyHashes : list string) (c : TrackedClient) : Prop :=
  c_update c ∉ updateKeys ∧ c_staged c ∉ updateKeys ∧
  deriveNextKeyHash (c_update c) ∉ nextKeyHashes ∧ deriveNextKeyHash (c_staged c) ∉ nextKeyHashes.

Lemma standing_able ps A C cs es d : history ps cs es → last ps = Some (A, C) → d ∈ cs → able A C d.
Proof.
  intros (_ & Hcs & _)%history_stands Hl Hd. rewrite Forall_forall in Hcs.
  destruct (Hcs d Hd) as [(A0 & C0 & Hl' & Hable) _]. by simplify_eq.
Qed.

Lemma removed_powerless published target c :
  able (pub_updateKeys published) (pub_nextKeyHashes published) c →
  removedUpdateKey target = c_update c → removedHash target = deriveNextKeyHash (c_update c) →
  let fields := removalFields published target (Some (deriveNextKeyHash (c_staged c))) in
  powerless (removal_updateKeys fields) (removal_nextKeyHashes fields) c.
Proof.
  intros (_ & Hs & _ & _) Hk Hh. unfold powerless. cbn. rewrite Hk, Hh, !list_elem_of_filter. naive_solver.
Qed.

Lemma removal_document_spares published target staged did signing key :
  signingVmId target = vm_id did signing → key ≠ signing → 
  (vm_id did key ∈ fields_relation (removal_document (removalFields published target staged)) capabilityInvocation ↔
   vm_id did key ∈ relationIds (relationOf (pub_doc published) capabilityInvocation)) ∧
  vm_id did signing ∉ fields_relation (removal_document (removalFields published target staged)) capabilityInvocation.
Proof.
  intros Hs Hne. cbn. rewrite !list_elem_of_filter, Hs. split; [|naive_solver].
  assert (vm_id did key ≠ vm_id did signing) by by intros ?%vm_id_inj. tauto.
Qed.
End removal.

(** C5: over every history of enrollments, rotations and revocations, the
    removal of a client by the active update key its listing states is
    exact. The ceremony's attribution isolates the one staged hash the client
    holds, provided no other party is known to hold it; so the entry it signs
    authorizes and commits none of the client's keys, leaves every other
    client its active key and both its commitments, takes the client's
    signing method out of [capabilityInvocation] and no other key's, and
    continues the history with the client gone. *)
Theorem revocation_is_exact {readers : DocumentReaders} {keys : WebvhKeys} {writer : WebvhWriter}
    {hashes : HashLibrary} {W} (logger : Logger W) `{!Inj (=) (=) deriveNextKeyHash}
    published client cs cs' es c known derived ids w :
  (∀ event w, ∃ w', logger event w = (Ok (), w')) →
  history (effectiveParameters (pub_log published)) cs es →
  last (effectiveParameters (pub_log published)) = Some (pub_updateKeys published, pub_nextKeyHashes published) →
  cs ≡ₚ c :: cs' → revoked_updateKey client = c_update c →
  standingCredentialLatentHashes (pub_log published) LADDER_MAX_SCAN = Ok (derived, ids) →
  unclaimed c known derived →
  ∃ target fields w',
    clientRemovalTarget published client = Ok target ∧
    clientRemovalFields logger published target known w = (Ok fields, w') ∧
    powerless (removal_updateKeys fields) (removal_nextKeyHashes fields) c ∧
    (∀ d, d ∈ cs' → able (removal_updateKeys fields) (removal_nextKeyHashes fields) d) ∧
    (∀ key, key ≠ revoked_signingKey client →
       let did := pub_did published in
       (vm_id did key ∈ fields_relation (removal_document fields) capabilityInvocation ↔
        vm_id did key ∈ relationIds (relationOf (pub_doc published) capabilityInvocation)) ∧
       vm_id did (revoked_signingKey client) ∉ fields_relation (removal_document fields) capabilityInvocation) ∧
    history (effectiveParameters (pub_log published) ++ [(removal_updateKeys fields, removal_nextKeyHashes fields)]) cs' es.
Proof.
  intros Hlog Hh Hl Hperm Hc Hd Hun. assert (c ∈ cs) as Hin by (rewrite Hperm; left).
  pose proof (standing_able _ _ _ _ _ _ Hh Hl Hin) as Hable. pose proof (history_stands _ _ _ Hh) as (_ & Hcs & _).
  rewrite Forall_forall in Hcs.
  assert (attributeStagedHash (effectiveParameters (pub_log published)) (c_update c) known derived =
    Isolated (Some (deriveNextKeyHash (c_staged c)))) as Hatt.
  { apply attribution_exact; [by apply Hcs| |done]. by eapply client_keys_distinct; [apply history_stands|]. }
  destruct (target_of_active published client) as (target & Ht & Hk & Hhash & Hp & Hvm); [rewrite Hc; apply Hable|].
  rewrite Hc in Hk, Hhash. destruct (latent_read logger _ known derived ids w Hlog Hd) as [w' Hw'].
  assert (history (effectiveParameters (pub_log published) ++
    [(removal_updateKeys (removalFields published target (Some (deriveNextKeyHash (c_staged c)))),
      removal_nextKeyHashes (removalFields published target (Some (deriveNextKeyHash (c_staged c)))))]) cs' es) as Hnext
    by by eapply history_revoke.
  eexists target, _, w'. split; [done|]. split.
  { unfold clientRemovalFields. rewrite Hp. unfold mbind, comp_bind. rewrite Hw'. unfold lift. rewrite Hk, Hatt. done. }
  split; [by apply removed_powerless|]. split; [|split; [|done]].
  - intros d Hd'. eapply standing_able; [exact Hnext|apply last_snoc|done].
  - intros key Hne. by apply removal_document_spares.
Qed.
