(* ===== verification/StrikeSafety.v ===== *)
(** * What retiring a credential strikes

    The striking half of [src/src/webvh/ladder.ts]: the rungs of retired
    credentials and of an abandoned recovery spend, and the guard that keeps
    what a surviving client holds. *)

From Stdlib Require QArith_base.
From S2P Require Import Prelude Json JsText CeremonyEvents AccountDocument LadderRungs AccountLog LogStore LadderIndex LadderInventory ClientListing ClientRevocation RevocationHistory.

Record StruckRungs := mkStruck {
  struckHashes : list string;
  struckKeys : list string;
  unclaimedCredentialVmIds : list string
}.

Section strike.
Context {W : Type} {readers : DocumentReaders} {writer : WebvhWriter} {hashes : HashLibrary} {keys : WebvhKeys}.
Variable logger : Logger W.

(** ** An abandoned spend *)

(** The last entry that added the hash. *)
Definition lastAddition (fs : list LadderEntryFacts) (hash : string) : option nat :=
  last ((filter (λ f : nat * LadderEntryFacts, hash ∈ f_addedHashes f.2) (imap pair fs)).*1).

Definition spendCandidates (log : DIDLog) (spentKey : string) (protectedHashes : list string) : list string :=
  let idx := indexedLadderLog log in
  match lastAddition (facts idx) (deriveNextKeyHash spentKey) with
  | None => []
  | Some issuedAt =>
      let standing := from_option snd [] (last (params idx)) in
      js_dedup (filter (λ hash, hash ∉ protectedHashes ∧ hash ∈ standing)
        (filter (λ f, spentKey ∈ f_signers f) (drop (S issuedAt) (facts idx)) ≫= f_addedHashes))
  end.

Definition abandonedSpendCommitments (log : DIDLog) (spentKeyMultibase : string) (protectedHashes : list string) :
    comp W (list string) :=
  let candidates := spendCandidates log spentKeyMultibase protectedHashes in
  if decide (candidates = []) then mret []
  else
    let surviving := survivingClientKeyProtection log [] candidates in
    if decide (kept_ambiguous surviving ≠ []) then
      logger (mkEvent warn "Withholding an abandoned spend strike: an enrolled client whose active update key the log cannot attribute would be unprotected"
        {["clients" := jsonStrings (kept_ambiguous surviving)]});;
      mret []
    else
      let kept := filter (λ hash, hash ∈ kept_hashes surviving) candidates in
      (if decide (kept ≠ []) then
         logger (mkEvent warn "Keeping abandoned spend commitments a surviving enrolled client holds"
           {["count" := DJson (JNum (QArith_base.inject_Z (Z.of_nat (length kept))))]})
       else mret ());;
      mret (filter (λ hash, hash ∉ kept_hashes surviving) candidates).

(** ** Retired credentials *)

Definition claimsOf (log : DIDLog) (credentialVmIds : list string) (maxScan : nat) :
    gmap string (option LadderStandingInventory) :=
  foldl (λ m id, <[id := claimLadderInventory log id maxScan]> m) ∅ credentialVmIds.

Definition claimedHashes (log : DIDLog) (credentialVmIds : list string) (maxScan : nat) : list string :=
  js_dedup (credentialVmIds ≫= λ id, from_option committedHashes [] (claimLadderInventory log id maxScan)).

(** The members a credential's inventory strikes, and whether any was
    withheld. *)
Definition struckOf (kept : gset string) (members : list string) : list string :=
  filter (λ member, member ∉ kept) members.
Definition withheldOf (kept : gset string) (members : list string) : bool :=
  bool_decide (Exists (λ member, member ∈ kept) members).

Definition strikeCredential (keptKeys keptHashes : gset string)
    (claims : gmap string (option LadderStandingInventory)) (struck : StruckRungs) (credentialVmId : string) :
    StruckRungs :=
  match claims !! credentialVmId ≫= id with
  | None => mkStruck (struckHashes struck) (struckKeys struck) (unclaimedCredentialVmIds struck ++ [credentialVmId])
  | Some inventory =>
      let hs := struckOf keptHashes (committedHashes inventory) in
      let ks := struckOf keptKeys (revealedKeys inventory) in
      let withheld := withheldOf keptHashes (committedHashes inventory) || withheldOf keptKeys (revealedKeys inventory) in
      let unclaimed := withheld || (bool_decide (hs = []) && bool_decide (ks = [])) in
      mkStruck (struckHashes struck ++ hs) (struckKeys struck ++ ks)
        (unclaimedCredentialVmIds struck ++ (if unclaimed then [credentialVmId] else []))
  end.

Definition attributeRetiredCredentialRungs (log : DIDLog) (credentialVmIds protectedHashes protectedKeys : list string)
    (maxScan : nat) : comp W StruckRungs :=
  let claims := claimsOf log credentialVmIds maxScan in
  let surviving := survivingClientKeyProtection log credentialVmIds (claimedHashes log credentialVmIds maxScan) in
  if decide (kept_ambiguous surviving ≠ []) then
    logger (mkEvent warn "Withholding a credential rung strike: an enrolled client whose active update key the log cannot attribute would be unprotected"
      {["clients" := jsonStrings (kept_ambiguous surviving)]});;
    mret (mkStruck [] [] credentialVmIds)
  else
    let struck := foldl (strikeCredential (list_to_set protectedKeys ∪ kept_keys surviving)
                           (list_to_set protectedHashes ∪ kept_hashes surviving) claims)
                    (mkStruck [] [] []) credentialVmIds in
    mret (mkStruck (js_dedup (struckHashes struck)) (js_dedup (struckKeys struck)) (unclaimedCredentialVmIds struck)).

(** The prefix before the entry that first authorizes the key. *)
Definition retiredCredentialRungsBeforeKey (log : DIDLog) (authorizedKeyMultibase : string)
    (credentialVmIds protectedHashes protectedKeys : list string) (maxScan : nat) : comp W StruckRungs :=
  match fst <$> list_find (λ entry : list string * list string, authorizedKeyMultibase ∈ entry.1) (effectiveParameters log) with
  | None => mthrow (plain_error ("retiredCredentialRungsBeforeKey: the log never authorizes update key " ++
      authorizedKeyMultibase ++ ", so no pre-entry prefix exists"))
  | Some 0 => mthrow (plain_error ("retiredCredentialRungsBeforeKey: the log authorizes at genesis update key " ++
      authorizedKeyMultibase ++ ", so no pre-entry prefix exists"))
  | Some entryIndex =>
      attributeRetiredCredentialRungs (take entryIndex log) credentialVmIds protectedHashes protectedKeys maxScan
  end.
End strike.

(** * A strike spares the clients that stay

    What [attributeRetiredCredentialRungs] strikes, read against what the
    surviving clients of the same log hold. *)

Section protection.
Context {readers : DocumentReaders} {keys : WebvhKeys}.
Implicit Types (kept : ClientProtection) (client : EnrolledWebvhClient).

(** A client one of whose key-agreement methods is retired with it. *)
Definition retiring (did : string) (retired : list string) client : Prop :=
  Exists (λ multibase, vm_id did multibase ∈ retired) (keyAgreementKeyMultibases client).

(** What the protection must hold of a client. *)
Definition protects params (did : string) (retired derived : list string) kept client : Prop :=
  ¬ retiring did retired client →
  match client_updateKey client with
  | None => signingKeyMultibase client ∈ kept_ambiguous kept
  | Some key =>
      key ∈ kept_keys kept ∧ deriveNextKeyHash key ∈ kept_hashes kept ∧
      ∀ hash, hash ∈ stagedHashes (attributeStagedHash params key [] derived) → hash ∈ kept_hashes kept
  end.

Lemma protectClient_protects params did retired derived kept client :
  protects params did retired derived (protectClient params did retired derived kept client) client.
Proof.
  intros Hr. unfold protectClient. rewrite decide_False by done.
  destruct (client_updateKey client); cbn; set_solver.
Qed.

Lemma protectClient_mono params did retired derived kept client other :
  protects params did retired derived kept other →
  protects params did retired derived (protectClient params did retired derived kept client) other.
Proof.
  intros Hk Hr. specialize (Hk Hr). unfold protectClient. case_decide; [done|].
  destruct (client_updateKey other), (client_updateKey client); cbn in *; set_solver.
Qed.

Lemma protection_complete params did retired derived kept clients client :
  client ∈ clients ∨ protects params did retired derived kept client →
  protects params did retired derived (foldl (protectClient params did retired derived) kept clients) client.
Proof.
  revert kept. induction clients as [|c clients IH]; intros kept Hc; cbn; [destruct Hc as [?%elem_of_nil|]; done|].
  apply IH. destruct Hc as [[-> |Hc]%elem_of_cons|Hc]; [right; apply protectClient_protects|by left|].
  right. by apply protectClient_mono.
Qed.

Definition head_did (log : DIDLog) : string :=
  from_option (λ entry, document_id (default empty_document (state entry))) "" (last log).

Lemma surviving_protects log retired derived client :
  client ∈ listEnrolledWebvhClients log →
  protects (effectiveParameters log) (head_did log) retired derived
    (survivingClientKeyProtection log retired derived) client.
Proof.
  intros Hc. unfold survivingClientKeyProtection, head_did. destruct (last log) as [entry|] eqn:Hl.
  - apply protection_complete. by left.
  - unfold listEnrolledWebvhClients in Hc. rewrite Hl in Hc. set_solver.
Qed.
End protection.

Section struck.
Context {readers : DocumentReaders} {writer : WebvhWriter} {hashes : HashLibrary} {keys : WebvhKeys}.
Variables (keptKeys keptHashes : gset string) (claims : gmap string (option LadderStandingInventory)).

Lemma claimsOf_lookup log ids maxScan id :
  id ∈ ids → claimsOf log ids maxScan !! id ≫= (λ x, x) = claimLadderInventory log id maxScan.
Proof.
  unfold claimsOf. intros Hid.
  assert (∀ (m : gmap string (option LadderStandingInventory)),
    foldl (λ m id, <[id := claimLadderInventory log id maxScan]> m) m ids !! id =
    Some (claimLadderInventory log id maxScan)) as ->; [|done].
  induction ids as [|x ids IH] using rev_ind; intros m; [set_solver|]. rewrite foldl_app. cbn.
  destruct (decide (x = id)) as [->|Hne]; [by rewrite lookup_insert_eq|].
  rewrite lookup_insert_ne by done. apply IH. set_solver.
Qed.

(** What one credential's turn keeps true of everything struck so far. *)
Definition struck_of (done_ : list string) (struck : StruckRungs) : Prop :=
  (∀ hash, hash ∈ struckHashes struck → hash ∉ keptHashes ∧
     ∃ id inventory, id ∈ done_ ∧ claims !! id ≫= (λ x, x) = Some inventory ∧ hash ∈ committedHashes inventory) ∧
  (∀ key, key ∈ struckKeys struck → key ∉ keptKeys ∧
     ∃ id inventory, id ∈ done_ ∧ claims !! id ≫= (λ x, x) = Some inventory ∧ key ∈ revealedKeys inventory) ∧
  (∀ id, id ∈ done_ → id ∉ unclaimedCredentialVmIds struck →
     ∃ inventory, claims !! id ≫= (λ x, x) = Some inventory ∧
       committedHashes inventory ⊆ struckHashes struck ∧ revealedKeys inventory ⊆ struckKeys struck ∧
       (committedHashes inventory ≠ [] ∨ revealedKeys inventory ≠ [])).

Lemma struckOf_all (kept : gset string) members : withheldOf kept members = false → struckOf kept members = members.
Proof.
  unfold withheldOf, struckOf. intros Hw%bool_decide_eq_false. apply filter_all.
  intros x Hx Hin. apply Hw, Exists_exists. by exists x.
Qed.

Lemma strikeCredential_spec done_ struck id :
  struck_of done_ struck → struck_of (done_ ++ [id]) (strikeCredential keptKeys keptHashes claims struck id).
Proof.
  intros (Hh & Hk & Hc). unfold strikeCredential. destruct (claims !! id ≫= Datatypes.id) as [inventory|] eqn:Hi.
  - split_and!.
    + intros hash. cbn. rewrite elem_of_app. unfold struckOf. rewrite list_elem_of_filter. intros [Hin|[Hn Hin]].
      * destruct (Hh _ Hin) as (? & i & inv & ? & ? & ?). split; [done|]. exists i, inv. set_solver.
      * split; [done|]. exists id, inventory. set_solver.
    + intros key. cbn. rewrite elem_of_app. unfold struckOf. rewrite list_elem_of_filter. intros [Hin|[Hn Hin]].
      * destruct (Hk _ Hin) as (? & i & inv & ? & ? & ?). split; [done|]. exists i, inv. set_solver.
      * split; [done|]. exists id, inventory. set_solver.
    + intros i Hin Hun. cbn in Hun |- *. apply not_elem_of_app in Hun as [Hun Hun'].
      apply elem_of_app in Hin as [Hin|Hin].
      * destruct (Hc i Hin Hun) as (inv & ? & ? & ? & ?). exists inv. split_and!; [done|set_solver|set_solver|done].
      * apply list_elem_of_singleton in Hin as ->.
        destruct (withheldOf keptHashes (committedHashes inventory)) eqn:Hwh; [set_solver|].
        destruct (withheldOf keptKeys (revealedKeys inventory)) eqn:Hwk; [set_solver|].
        cbn in Hun'. rewrite (struckOf_all _ _ Hwh), (struckOf_all _ _ Hwk) in *.
        exists inventory. split_and!; [done|set_solver|set_solver|].
        destruct (decide (committedHashes inventory = [])) as [He|]; [|by left].
        destruct (decide (revealedKeys inventory = [])) as [He'|]; [|by right].
        rewrite He, He' in Hun'. cbn in Hun'. set_solver.
  - split_and!.
    + intros hash Hin. destruct (Hh _ Hin) as (? & i & inv & ? & ? & ?). split; [done|]. exists i, inv. set_solver.
    + intros key Hin. destruct (Hk _ Hin) as (? & i & inv & ? & ? & ?). split; [done|]. exists i, inv. set_solver.
    + intros i Hin Hun. cbn in Hun. apply not_elem_of_app in Hun as [Hun Hun'].
      apply elem_of_app in Hin as [Hin|Hin]; [by apply Hc|]. set_solver.
Qed.

Lemma strike_all done_ struck ids :
  struck_of done_ struck →
  struck_of (done_ ++ ids) (foldl (strikeCredential keptKeys keptHashes claims) struck ids).
Proof.
  revert done_ struck. induction ids as [|id ids IH]; intros done_ struck H; cbn; [by rewrite app_nil_r|].
  replace (done_ ++ id :: ids) with ((done_ ++ [id]) ++ ids) by by rewrite <- app_assoc.
  by apply IH, strikeCredential_spec.
Qed.
End struck.

Section strikes.
Context {readers : DocumentReaders} {writer : WebvhWriter} {hashes : HashLibrary} {keys : WebvhKeys}.
Context {W : Type} (logger : Logger W).

(** An inventory names what still stands at the log's head. *)
Lemma claimed_stands log id maxScan inventory :
  claimLadderInventory log id maxScan = Some inventory →
  revealedKeys inventory ⊆ (currentLogParameters log).1 ∧ committedHashes inventory ⊆ (currentLogParameters log).2.
Proof.
  unfold claimLadderInventory. destruct (attributeLadderInventory _ _ _ _ _ _) as [inv|] eqn:Ha; [|done].
  intros [= <-]. unfold attributeLadderInventory in Ha.
  destruct (resolveAnchor _ _ _ _) as [anchorHash|]; [|done]. cbn in Ha.
  match type of Ha with ?walk ≫= _ = _ => destruct walk as [walked|]; [|done] end. cbn in Ha. injection Ha as <-.
  split; intros x; cbn; rewrite list_elem_of_filter; tauto.
Qed.

(** The clients a strike must spare, and what it spares them. *)
Definition spared (log : DIDLog) (ids claimed : list string) (struck : StruckRungs) (client : EnrolledWebvhClient) : Prop :=
  ¬ retiring (head_did log) ids client →
  match client_updateKey client with
  | None => struck = mkStruck [] [] ids
  | Some key =>
      key ∉ struckKeys struck ∧ deriveNextKeyHash key ∉ struckHashes struck ∧
      ∀ hash, hash ∈ stagedHashes (attributeStagedHash (effectiveParameters log) key [] claimed) →
        hash ∉ struckHashes struck
  end.

(** What a strike may take: members of the retired credentials' ladders that
    still stand and the caller did not protect. *)
Definition strikes_only (log : DIDLog) (ids protectedHashes protectedKeys : list string) maxScan
    (struck : StruckRungs) : Prop :=
  (∀ hash, hash ∈ struckHashes struck → hash ∉ protectedHashes ∧ hash ∈ (currentLogParameters log).2 ∧
     ∃ id inventory, id ∈ ids ∧ claimLadderInventory log id maxScan = Some inventory ∧ hash ∈ committedHashes inventory) ∧
  (∀ key, key ∈ struckKeys struck → key ∉ protectedKeys ∧ key ∈ (currentLogParameters log).1 ∧
     ∃ id inventory, id ∈ ids ∧ claimLadderInventory log id maxScan = Some inventory ∧ key ∈ revealedKeys inventory).

(** A credential not reported had something to strike, and all of it is. *)
Definition reports (log : DIDLog) (ids : list string) maxScan (struck : StruckRungs) : Prop :=
  ∀ id, id ∈ ids → id ∉ unclaimedCredentialVmIds struck →
    ∃ inventory, claimLadderInventory log id maxScan = Some inventory ∧
      committedHashes inventory ⊆ struckHashes struck ∧ revealedKeys inventory ⊆ struckKeys struck ∧
      (committedHashes inventory ≠ [] ∨ revealedKeys inventory ≠ []).

Lemma strike_outcome log ids protectedHashes protectedKeys maxScan w :
  (∀ event w, ∃ w', logger event w = (Ok (), w')) →
  let surviving := survivingClientKeyProtection log ids (claimedHashes log ids maxScan) in
  ∃ struck w', attributeRetiredCredentialRungs logger log ids protectedHashes protectedKeys maxScan w = (Ok struck, w') ∧
    ((kept_ambiguous surviving ≠ [] ∧ struck = mkStruck [] [] ids) ∨
     (kept_ambiguous surviving = [] ∧
      struck_of (list_to_set protectedKeys ∪ kept_keys surviving) (list_to_set protectedHashes ∪ kept_hashes surviving)
        (claimsOf log ids maxScan) ids struck)).
Proof.
  intros Hlog surviving. unfold attributeRetiredCredentialRungs. fold surviving. case_decide as Ha.
  - edestruct Hlog as [w' Hw]. eexists _, w'. split; [|by left].
    unfold mbind, comp_bind. by rewrite Hw.
  - eexists _, w. split; [done|]. right. split; [by destruct (kept_ambiguous surviving)|].
    destruct (strike_all (list_to_set protectedKeys ∪ kept_keys surviving)
      (list_to_set protectedHashes ∪ kept_hashes surviving) (claimsOf log ids maxScan) [] (mkStruck [] [] []) ids)
      as (Hh & Hk & Hc); [by split_and!; intros ? ?%elem_of_nil|].
    split_and!; cbn.
    + intros hash. rewrite elem_of_js_dedup. apply Hh.
    + intros key. rewrite elem_of_js_dedup. apply Hk.
    + intros id Hid Hun. destruct (Hc id Hid Hun) as (inventory & Hi & H1 & H2 & H3). exists inventory.
      split_and!; [done|..|done]; intros x Hx; rewrite elem_of_js_dedup; auto.
Qed.

Lemma strike_sound log ids protectedHashes protectedKeys maxScan struck :
  let surviving := survivingClientKeyProtection log ids (claimedHashes log ids maxScan) in
  struck_of (list_to_set protectedKeys ∪ kept_keys surviving) (list_to_set protectedHashes ∪ kept_hashes surviving)
    (claimsOf log ids maxScan) ids struck →
  strikes_only log ids protectedHashes protectedKeys maxScan struck ∧ reports log ids maxScan struck.
Proof.
  intros surviving (Hh & Hk & Hc). split; [split|].
  - intros hash Hin. destruct (Hh _ Hin) as (Hn & id & inventory & Hid & Hi & Hm). rewrite claimsOf_lookup in Hi by done.
    split_and!; [set_solver| |by exists id, inventory]. by apply (claimed_stands _ _ _ _ Hi).
  - intros key Hin. destruct (Hk _ Hin) as (Hn & id & inventory & Hid & Hi & Hm). rewrite claimsOf_lookup in Hi by done.
    split_and!; [set_solver| |by exists id, inventory]. by apply (claimed_stands _ _ _ _ Hi).
  - intros id Hid Hun. destruct (Hc _ Hid Hun) as (inventory & Hi & H). rewrite claimsOf_lookup in Hi by done.
    by exists inventory.
Qed.

Lemma strike_spares log ids protectedHashes protectedKeys maxScan w :
  (∀ event w, ∃ w', logger event w = (Ok (), w')) →
  ∃ struck w', attributeRetiredCredentialRungs logger log ids protectedHashes protectedKeys maxScan w = (Ok struck, w') ∧
    strikes_only log ids protectedHashes protectedKeys maxScan struck ∧
    reports log ids maxScan struck ∧
    ∀ client, client ∈ listEnrolledWebvhClients log → spared log ids (claimedHashes log ids maxScan) struck client.
Proof.
  intros Hlog. destruct (strike_outcome log ids protectedHashes protectedKeys maxScan w Hlog)
    as (struck & w' & Hw & [[Ha ->]|[Ha Hs]]); (eexists _, w'; split; [exact Hw|]).
  - split; [split; intros x Hx; by apply elem_of_nil in Hx|].
    split; [intros id Hid Hun; cbn in Hun; contradiction|]. intros client Hc Hr.
    destruct (client_updateKey client); [|reflexivity]. split; [|split; [|intros hash Hin]]; apply not_elem_of_nil.
  - destruct (strike_sound _ _ _ _ _ _ Hs) as [Hso Hre]. split_and!; [done..|]. intros client Hc Hr.
    specialize (surviving_protects log ids (claimedHashes log ids maxScan) client Hc Hr).
    destruct Hs as (Hh & Hk & _). destruct (client_updateKey client) as [key|];
      [|rewrite Ha; by intros ?%elem_of_nil].
    intros (Hkey & Hhash & Hst). split_and!.
    + intros Hin. destruct (Hk _ Hin) as [[_ Hn]%not_elem_of_union _]. contradiction.
    + intros Hin. destruct (Hh _ Hin) as [[_ Hn]%not_elem_of_union _]. contradiction.
    + intros hash Hhs Hin. destruct (Hh _ Hin) as [[_ Hn]%not_elem_of_union _]. specialize (Hst hash Hhs). contradiction.
Qed.
End strikes.


(** Over every history of enrollments, rotations and revocations, an
    entry that strikes retired credentials' rungs leaves each listed client
    able to go on: its active key stays authorized, and both its commitments
    stay, the staged one too while the walks do not claim a rotated client's
    for a credential. *)
Theorem strikes_leave_clients_able {readers : DocumentReaders} {writer : WebvhWriter} {hashes : HashLibrary}
    {keys : WebvhKeys} `{!Inj (=) (=) deriveNextKeyHash} {W} (logger : Logger W) log cs es A C
    ids protectedHashes protectedKeys maxScan w :
  (∀ event w, ∃ w', logger event w = (Ok (), w')) →
  history (effectiveParameters log) cs es → last (effectiveParameters log) = Some (A, C) →
  ∃ struck w', attributeRetiredCredentialRungs logger log ids protectedHashes protectedKeys maxScan w = (Ok struck, w') ∧
    ∀ c client, c ∈ cs → client ∈ listEnrolledWebvhClients log → client_updateKey client = Some (c_update c) →
      ¬ retiring (head_did log) ids client → unclaimed c [] (claimedHashes log ids maxScan) →
      able (filter (λ key, key ∉ struckKeys struck) A) (filter (λ hash, hash ∉ struckHashes struck) C) c.
Proof.
  intros Hlog Hh Hl. destruct (strike_spares logger log ids protectedHashes protectedKeys maxScan w Hlog)
    as (struck & w' & Hw & _ & _ & Hsp). exists struck, w'. split; [done|]. intros c client Hc Hcl Hk Hr Hun.
  destruct (standing_able _ _ _ _ _ _ Hh Hl Hc) as (Hu & Hs & Hhu & Hhs).
  specialize (Hsp client Hcl Hr). rewrite Hk in Hsp. destruct Hsp as (Hnk & Hnh & Hst).
  pose proof (history_stands _ _ _ Hh) as Hroster. pose proof (client_keys_distinct _ _ _ _ Hroster Hc) as Hne.
  destruct Hroster as (_ & Hcs & _). rewrite Forall_forall in Hcs.
  rewrite (attribution_exact _ _ _ _ (Hcs c Hc) Hne Hun) in Hst. cbn in Hst.
  unfold able. rewrite !list_elem_of_filter. 
  assert (deriveNextKeyHash (c_staged c) ∉ struckHashes struck) by (apply Hst; left).
  tauto.
Qed.
