(* ===== verification/ClientDemo.v ===== *)
(** * A concrete account of two clients and a passkey

    A log through its genesis, the bind of a passkey and a second client's two
    enrollment entries, and what the listing, a revocation and a strike make
    of it. *)

From S2P Require Import Prelude Json JsText CeremonyEvents AccountDocument LadderRungs LadderDemo AccountLog LogStore LadderIndex LadderInventory ClientListing ClientRevocation RevocationHistory StrikeSafety.

Module ClientDemo.

#[export] Instance writer : WebvhWriter := {|
  WebDoc := ();
  Signer := string;
  logToJsonlString _ := "";
  generateParallelDidWeb _ _ := ();
  updateKeyMultibase seed := Ok seed;
  updateKeySigner seed := Ok seed
|}.
#[export] Instance hashes : HashLibrary := {| hkdf_sha256 seed _ info _ := (seed ++ "/" ++ info)%string |}.

Definition did : string := "did:account".
Definition signing_method (client : string) : ResolvedKeyAgreementMethod :=
  mkMethod (Some (vm_id did client)) (Some "Multikey") (Some did) (Some client) None None.
Definition twin_method (client : string) : ResolvedKeyAgreementMethod :=
  mkMethod (Some (vm_id did ("x" ++ client))) (Some "Multikey") (Some (clientKeyAgreementController client))
    (Some ("x" ++ client)%string) None None.
Definition passkey_method (commitment key : string) : ResolvedKeyAgreementMethod :=
  mkMethod (Some (vm_id did key)) (Some "Multikey") (Some did) (Some key) None (Some commitment).

Definition account_doc (clients : list string) (credentials : list ResolvedKeyAgreementMethod) : AccountDocument :=
  mkDocument did (Some ((clients ≫= λ client, [signing_method client; twin_method client]) ++ credentials))
    (λ relation, Some (match relation with
      | keyAgreement => Reference <$> ((λ client, vm_id did ("x" ++ client)) <$> clients) ++ omap method_id credentials
      | _ => (λ client, Reference (vm_id did client)) <$> clients
      end)) None.

Definition step (version signer : string) (A C : list string) (doc : AccountDocument) : DIDLogEntry :=
  mkEntry version version None None (Some A) (Some C) (Some doc) (Some [Some signer]).

Definition passkey : ResolvedKeyAgreementMethod := passkey_method "#r0" "pk".
Definition log : DIDLog := [
  step "1" "u" ["u"] ["#u"; "#s"] (account_doc ["c1"] []);
  step "2" "u" ["u"] ["#u"; "#s"; "#r0"] (account_doc ["c1"] [passkey]);
  step "3" "u" ["u"] ["#u"; "#s"; "#r0"; "#p"; "#q"] (account_doc ["c1"] [passkey]);
  step "4" "u" ["u"; "p"] ["#u"; "#s"; "#r0"; "#p"; "#q"] (account_doc ["c1"; "c2"] [passkey])
].
Definition quiet : Logger () := λ _, mret ().

Lemma quiet_returns event w : ∃ w', quiet event w = (Ok (), w').
Proof. by eexists. Qed.

#[export] Instance demo_hash_inj : Inj (=) (=) deriveNextKeyHash.
Proof. intros a b Hab. unfold deriveNextKeyHash, demo_keys in Hab. exact (inj (String.app "#") _ _ Hab). Qed.

(** ** The log is a history *)

Lemma fresh_check ps key :
  bool_decide (Forall (λ e : list string * list string, key ∉ e.1 ∧ deriveNextKeyHash key ∉ e.2) ps) = true →
  fresh_key ps key.
Proof.
  intros Hps%bool_decide_eq_true i. rewrite Forall_lookup in Hps. unfold keysAt, hashesAt.
  destruct (ps !! i) as [e|] eqn:He; cbn; [exact (Hps i e He)|by split; apply not_elem_of_nil].
Qed.

Lemma same_keys_check ks A A' : bool_decide (Forall (λ k, k ∈ A' ↔ k ∈ A) ks) = true → same_keys ks A A'.
Proof. intros Hks%bool_decide_eq_true k Hk. rewrite Forall_forall in Hks. auto. Qed.

Lemma same_hashes_check ks C C' :
  bool_decide (Forall (λ k, deriveNextKeyHash k ∈ C' ↔ deriveNextKeyHash k ∈ C) ks) = true → same_hashes ks C C'.
Proof. intros Hks%bool_decide_eq_true k Hk. rewrite Forall_forall in Hks. auto. Qed.

Definition first : TrackedClient := mkTracked "u" "s" false.
Definition second : TrackedClient := mkTracked "p" "q" false.

Lemma log_history : history (effectiveParameters log) [second; first] [].
Proof.
  pose proof (history_genesis "u" "s" ltac:(done)) as H1. fold first in H1.
  pose proof (history_other [(["u"], ["#u"; "#s"])] ["u"] ["#u"; "#s"] [first] [] ["u"] ["#u"; "#s"; "#r0"] H1 eq_refl
    ltac:(apply same_keys_check; by vm_compute) ltac:(apply same_hashes_check; by vm_compute)) as H2.
  epose proof (history_commit _ ["u"] ["#u"; "#s"; "#r0"] [first] [] "p" "q" ["u"] [] [] H2 eq_refl
    ltac:(apply fresh_check; by vm_compute) ltac:(apply fresh_check; by vm_compute) ltac:(done)
    ltac:(apply (bool_decide_eq_true_1 _); by vm_compute) ltac:(apply (bool_decide_eq_true_1 _); by vm_compute)
    ltac:(apply same_keys_check; by vm_compute) ltac:(intros k _; apply not_elem_of_nil)) as H3.
  epose proof (history_add _ ["u"] ["#u"; "#s"; "#r0"; "#p"; "#q"] [first] [("p", "q")] [] "p" "q" ["u"; "p"]
    ["#u"; "#s"; "#r0"; "#p"; "#q"] H3 eq_refl (reflexivity _)
    ltac:(apply (bool_decide_eq_true_1 _); by vm_compute) ltac:(apply same_keys_check; by vm_compute)
    ltac:(done) ltac:(apply same_hashes_check; by vm_compute)) as H4.
  exact H4.
Qed.

(** ** The listing *)

Lemma listing_is_per_client_witness :
  client_updateKey <$> listEnrolledWebvhClients log = [Some "u"; Some "p"] ∧
  listEnrolledWebvhClients log =
    client_reading log (account_doc ["c1"; "c2"] [passkey]) <$> ["c1"; "c2"].
Proof.
  split; [by vm_compute|].
  exact (proj1 (listing_is_per_client log
    (step "4" "u" ["u"; "p"] ["#u"; "#s"; "#r0"; "#p"; "#q"] (account_doc ["c1"; "c2"] [passkey])) eq_refl)).
Defined.

(** ** The second client revoked *)

Definition published : PublishedWebvhLog :=
  mkPublished log did (account_doc ["c1"; "c2"] [passkey]) ["u"; "p"] ["#u"; "#s"; "#r0"; "#p"; "#q"]
    (mkMeta None None None) None.

Lemma revocation_is_exact_witness :
  ∃ target fields,
    clientRemovalTarget published (mkRevoked "c2" "p") = Ok target ∧
    clientRemovalFields quiet published target ["#r0"] tt = (Ok fields, tt) ∧
    removal_updateKeys fields = ["u"] ∧ removal_nextKeyHashes fields = ["#u"; "#s"; "#r0"] ∧
    able (removal_updateKeys fields) (removal_nextKeyHashes fields) first.
Proof.
  destruct (revocation_is_exact quiet published (mkRevoked "c2" "p") [second; first] [first] [] second ["#r0"] ["#r0"] []
    tt quiet_returns log_history) as (target & fields & [] & Ht & Hf & _ & Hable & _).
  - by vm_compute.
  - reflexivity.
  - reflexivity.
  - by vm_compute.
  - split; [apply (bool_decide_eq_true_1 _); by vm_compute|done].
  - exists target, fields. split; [exact Ht|]. split; [exact Hf|].
    assert (match clientRemovalTarget published (mkRevoked "c2" "p") with
            | Ok target => match (clientRemovalFields quiet published target ["#r0"] tt).1 with
                           | Ok fields => (removal_updateKeys fields, removal_nextKeyHashes fields)
                           | Throw _ => ([], [])
                           end
            | Throw _ => ([], [])
            end = (["u"], ["#u"; "#s"; "#r0"])) as Hv by (vm_compute; reflexivity).
    rewrite Ht, Hf in Hv. cbn [fst] in Hv. injection Hv as Hk Hc. split; [exact Hk|]. split; [exact Hc|].
    apply (Hable first). left.
Defined.

(** ** The passkey retired *)

Definition retire : comp () StruckRungs :=
  attributeRetiredCredentialRungs quiet log [vm_id did "pk"] [] [] LADDER_MAX_SCAN.


Lemma strikes_leave_clients_able_witness :
  ∃ struck, retire tt = (Ok struck, tt) ∧
    ∀ c client, c ∈ [second; first] → client ∈ listEnrolledWebvhClients log →
      client_updateKey client = Some (c_update c) → ¬ retiring (head_did log) [vm_id did "pk"] client →
      unclaimed c [] (claimedHashes log [vm_id did "pk"] LADDER_MAX_SCAN) →
      able (filter (λ key, key ∉ struckKeys struck) ["u"; "p"])
        (filter (λ hash, hash ∉ struckHashes struck) ["#u"; "#s"; "#r0"; "#p"; "#q"]) c.
Proof.
  destruct (strikes_leave_clients_able quiet log [second; first] [] ["u"; "p"] ["#u"; "#s"; "#r0"; "#p"; "#q"]
    [vm_id did "pk"] [] [] LADDER_MAX_SCAN tt quiet_returns log_history ltac:(by vm_compute))
    as (struck & [] & Hs & Hable).
  exists struck. by split.
Defined.
End ClientDemo.
