(* ===== verification/EntryDiscipline.v ===== *)
(** * What an entry of the account log may state

    The contract of [signAccountEntry] and of the enrollment over it: every
    invariant that survives the entries the seam is allowed to publish
    survives the ceremony, however its store answers. *)

From S2P Require Import Prelude Json JsText CeremonyEvents AccountDocument LadderRungs AccountLog LogStore KeyRotation LadderIndex LadderInventory ClientListing ClientRevocation AccountEntry.

Section discipline.
Context {readers : DocumentReaders} {resolver : WebvhResolver} {writer : WebvhWriter}
  {hashes : HashLibrary} {keys : WebvhKeys}.
Variable updateDID : UpdateDID.

(** Every update key has its own hash committed. *)
Definition carried (A C : list string) : Prop := ∀ key, key ∈ A → deriveNextKeyHash key ∈ C.

Lemma carried_reflect A C : uncommitted C A = false ↔ carried A C.
Proof.
  unfold carried. induction A as [|key A IH]; cbn; [set_solver|].
  rewrite orb_false_iff, IH, negb_false_iff, bool_decide_eq_true. set_solver.
Qed.

(** The key that signs: who holds it, and what licenses it at the head. *)
Definition licensed (signer : AccountEntrySigner) (published : PublishedWebvhLog) (key : string) (s : Signer) : Prop :=
  (∃ seed, updateKeyMultibase seed = Ok key ∧ updateKeySigner seed = Ok s) ∧
  match signer with
  | LogSigner (enrolled seeds) => updateKeyMultibase (updateSeed seeds) = Ok key ∧ key ∈ pub_updateKeys published
  | committed_key seed => updateKeyMultibase seed = Ok key ∧
      (key ∈ pub_updateKeys published ∨ deriveNextKeyHash key ∈ pub_nextKeyHashes published)
  | LogSigner (ladder seed) =>
      (∃ rung st, attributeLadderRung seed (pub_updateKeys published) (pub_nextKeyHashes published) LADDER_MAX_SCAN =
         Ok (rung, st) ∧ key = rung_keyMultibase rung) ∧
      (key ∈ pub_updateKeys published ∨ deriveNextKeyHash key ∈ pub_nextKeyHashes published)
  end.

(** What an entry built from the fields states, over what it was told to. *)
Definition states (signer : AccountEntrySigner) (published : PublishedWebvhLog) (fields : AccountEntryFields)
    (key : string) (A C : list string) : Prop :=
  let statedKeys := default (pub_updateKeys published) (ef_updateKeys fields) in
  let statedHashes := default (pub_nextKeyHashes published) (ef_nextKeyHashes fields) ++ default [] (ef_commitHashes fields) in
  let acting := match signer with LogSigner (enrolled _) => [] | _ => [key] end in
  (∀ k, k ∈ A ↔ k ∈ statedKeys ∨ k ∈ acting) ∧
  (∀ h, h ∈ C ↔ h ∈ statedHashes ∨ h ∈ deriveNextKeyHash <$> acting).

(** An entry the seam may publish over a head, from a build's fields. *)
Definition disciplined (signer : AccountEntrySigner) (published : PublishedWebvhLog) (fields : AccountEntryFields)
    (updated : Updated) : Prop :=
  carried (pub_updateKeys published) (pub_nextKeyHashes published) ∧
  ∃ key s A C, licensed signer published key s ∧ states signer published fields key A C ∧
    updateDID (pub_log published) (pub_meta published) s (ef_document fields) (ef_services fields) A C = Ok updated.

(** What the scan derives of one rung. *)
Lemma derived_rungs seed maxScan scanned :
  deriveLadderRungs seed maxScan = Ok scanned →
  ∀ s, s ∈ scanned → updateKeyMultibase (rung_seed s.1) = Ok (rung_keyMultibase s.1) ∧
    s.2 = deriveNextKeyHash (rung_keyMultibase s.1).
Proof.
  intros Hsc%mapM_result_ok s Hs. destruct (list_elem_of_lookup_1 _ _ Hs) as [i Hi].
  destruct (Forall2_lookup_r _ _ _ _ _ Hsc Hi) as (index & _ & Hr). rewrite result_bind_ok in Hr.
  destruct Hr as (rung & Hr & [= <-]). split; [|done]. unfold ladderRung in Hr.
  rewrite result_bind_ok in Hr. destruct Hr as (sd & _ & Hr). rewrite result_bind_ok in Hr.
  by destruct Hr as (key & Hkey & [= <-]).
Qed.

(** The rung the attribution names is one it derived, and the head authorizes
    or commits it. *)
Lemma attributed_rung seed A C maxScan rung st :
  attributeLadderRung seed A C maxScan = Ok (rung, st) →
  updateKeyMultibase (rung_seed rung) = Ok (rung_keyMultibase rung) ∧
  (rung_keyMultibase rung ∈ A ∨ deriveNextKeyHash (rung_keyMultibase rung) ∈ C).
Proof.
  unfold attributeLadderRung. rewrite result_bind_ok. intros (scanned & Hsc & Hr).
  pose proof (derived_rungs _ _ _ Hsc) as Hall.
  assert (∀ s, s ∈ revealedRungs A scanned → updateKeyMultibase (rung_seed s) = Ok (rung_keyMultibase s) ∧
    rung_keyMultibase s ∈ A) as Hrev.
  { intros s (p & -> & [HA Hp]%list_elem_of_filter)%list_elem_of_fmap. split; [by apply Hall|done]. }
  assert (∀ s, s ∈ committedRungs A C scanned → updateKeyMultibase (rung_seed s) = Ok (rung_keyMultibase s) ∧
    deriveNextKeyHash (rung_keyMultibase s) ∈ C) as Hcom.
  { intros s (p & -> & [[_ HC] Hp]%list_elem_of_filter)%list_elem_of_fmap. destruct (Hall p Hp) as [? Heq].
    split; [done|]. by rewrite <- Heq. }
  destruct (revealedRungs A scanned) as [|r [|]], (committedRungs A C scanned) as [|c [|]]; simplify_eq/=.
  - destruct (Hcom rung) as [? ?]; [left|by auto].
  - destruct (Hrev rung) as [? ?]; [left|by auto].
  - destruct (Hrev rung) as [? ?]; [left|by auto].
Qed.

(** ** What signing states *)

Lemma parts_of_attribution signer published parts :
  attributeParts signer published = Ok parts →
  ∀ p, parts = Some p →
    updateKeyMultibase (rung_seed (part_rung p)) = Ok (rung_keyMultibase (part_rung p)) ∧
    part_hash p = deriveNextKeyHash (rung_keyMultibase (part_rung p)) ∧
    (rung_keyMultibase (part_rung p) ∈ pub_updateKeys published ∨ part_hash p ∈ pub_nextKeyHashes published).
Proof.
  intros Hp p ->. unfold attributeParts in Hp. destruct signer as [[seeds|seed]|seed]; [done| |done].
  rewrite result_bind_ok in Hp. destruct Hp as ([rung st] & Hr & [= <-]). cbn.
  destruct (attributed_rung _ _ _ _ _ _ Hr) as [? ?]. auto.
Qed.

Lemma revealing_licensed signer parts published verb seed key hash :
  attributeParts signer published = Ok parts →
  (∀ seeds, signer ≠ LogSigner (enrolled seeds)) →
  revealingKey signer parts published verb = Ok (seed, key, hash) →
  updateKeyMultibase seed = Ok key ∧ hash = deriveNextKeyHash key ∧
  (key ∈ pub_updateKeys published ∨ hash ∈ pub_nextKeyHashes published).
Proof.
  intros Hp Hne Hr. unfold revealingKey in Hr. destruct signer as [[seeds|sd]|sd]; [by destruct (Hne seeds)|..].
  - destruct parts as [p|]; [|done]. injection Hr as <- <- <-. by apply (parts_of_attribution _ _ _ Hp p).
  - rewrite result_bind_ok in Hr. destruct Hr as (k & Hk & Hr). cbn in Hr.
    destruct (bool_decide (k ∈ pub_updateKeys published) || _) eqn:Hb; [|done].
    injection Hr as <- <- <-. split_and!; [done..|].
    by apply orb_true_iff in Hb as [?%bool_decide_eq_true|?%bool_decide_eq_true]; auto.
Qed.

Lemma signed_states signer parts published verb fields signed :
  attributeParts signer published = Ok parts →
  signedParameters signer parts published verb fields = Ok signed →
  ∃ key, licensed signer published key (sp_signer signed) ∧
    states signer published fields key (sp_updateKeys signed) (sp_nextKeyHashes signed).
Proof.
  intros Hp Hs. unfold signedParameters in Hs. destruct signer as [[seeds|seed]|seed].
  - rewrite result_bind_ok in Hs. destruct Hs as (key & Hk & Hs). case_decide as Hin; [done|].
    rewrite result_bind_ok in Hs. destruct Hs as (s & Hsg & [= <-]). exists key. cbn.
    destruct (decide (key ∈ pub_updateKeys published)) as [Hauth|]; [|done].
    split; [split; [by exists (updateSeed seeds)|done]|]. unfold states. cbn.
    split; intros x; rewrite ?elem_of_js_dedup; set_solver.
  - rewrite result_bind_ok in Hs. destruct Hs as ([[sd key] hash] & Hr & Hs).
    rewrite result_bind_ok in Hs. destruct Hs as (s & Hsg & [= <-]).
    destruct (revealing_licensed _ _ _ _ _ _ _ Hp ltac:(done) Hr) as (Hk & -> & Hl). exists key.
    assert (∃ rung st, attributeLadderRung seed (pub_updateKeys published) (pub_nextKeyHashes published) LADDER_MAX_SCAN =
      Ok (rung, st) ∧ key = rung_keyMultibase rung) as Hrung.
    { unfold attributeParts in Hp. apply result_bind_ok in Hp as ([rung st] & Ha & [= <-]). exists rung, st. split; [done|].
      cbn in Hr. by injection Hr as _ <- _. }
    split; [split; [by exists sd|done]|]. unfold states. cbn.
    split; intros x; rewrite elem_of_js_dedup; set_solver.
  - rewrite result_bind_ok in Hs. destruct Hs as ([[sd key] hash] & Hr & Hs).
    rewrite result_bind_ok in Hs. destruct Hs as (s & Hsg & [= <-]).
    destruct (revealing_licensed _ _ _ _ _ _ _ Hp ltac:(done) Hr) as (Hk & -> & Hl). exists key.
    assert (updateKeyMultibase seed = Ok key) as Hseed.
    { unfold revealingKey in Hr. apply result_bind_ok in Hr as (k & Hk' & Hr). cbn zeta in Hr. case_match; [|done]. by injection Hr as _ <- _. }
    split; [split; [by exists sd|done]|]. unfold states. cbn.
    split; intros x; rewrite elem_of_js_dedup; set_solver.
Qed.

Lemma signed_disciplined signer parts published verb fields updated :
  attributeParts signer published = Ok parts →
  signEntry updateDID signer parts published verb fields = Ok updated → disciplined signer published fields updated.
Proof.
  intros Hp Hs. unfold signEntry in Hs. rewrite result_bind_ok in Hs. destruct Hs as (signed & Hsp & Hs).
  rewrite result_bind_ok in Hs. destruct Hs as ([] & Hc & Hu).
  split.
  - apply carried_reflect. unfold assertCarryOverCommitments in Hc. by destruct (uncommitted _ _).
  - destruct (signed_states _ _ _ _ _ _ Hp Hsp) as (key & Hl & Hst). by exists key, (sp_signer signed), (sp_updateKeys signed), (sp_nextKeyHashes signed).
Qed.
End discipline.

(** ** The seam under an invariant of its environment *)

Section seam.
Context {W : Type} {readers : DocumentReaders} {resolver : WebvhResolver} {writer : WebvhWriter}
  {hashes : HashLibrary} {keys : WebvhKeys}.
Variables (updateDID : UpdateDID) (logger : Logger W).
Implicit Types (I : W → Prop) (idStore : WebvhIdStore W).

Definition keeps {A} I (c : comp W A) : Prop := triple I c (λ _, I) (λ _, I).

Lemma keeps_ret {A} I (a : A) : keeps I (mret a).
Proof. by apply triple_ret. Qed.
Lemma keeps_throw {A} I (e : js_error) : keeps I (mthrow e : comp W A).
Proof. by apply triple_throw. Qed.
Lemma keeps_lift {A} I (r : result A) : keeps I (lift r).
Proof. apply triple_lift. by destruct r. Qed.
Lemma keeps_bind {A B} I (c : comp W A) (k : A → comp W B) : keeps I c → (∀ a, keeps I (k a)) → keeps I (c ≫= k).
Proof. intros Hc Hk. by eapply triple_bind. Qed.
Lemma keeps_try {A} I (c : comp W A) h : keeps I c → (∀ e, keeps I (h e)) → keeps I (try_catch c h).
Proof. intros Hc Hh. by eapply triple_try. Qed.

(** The heads a read of the log may give. *)
Definition heads (K : PublishedWebvhLog → Prop) (read : option (string * option string)) : Prop :=
  ∀ text etag log published, read = Some (text, etag) → readLogFromString text = Ok log →
    resolvedHead log brokenLog etag = Ok published → K published.

(** The reads and pin writes of a store leave an invariant alone, and its log
    resolves to the heads [K] names. *)
Record store_keeps I (K : PublishedWebvhLog → Prop) idStore : Prop := {
  keeps_raw : triple I (getIdResourceRaw idStore DID_LOG_RESOURCE) (λ read w, heads K read ∧ I w) (λ _, I);
  keeps_pin_read id : keeps I (pin_read (id_pinStore idStore) id);
  keeps_pin_write id pin : keeps I (pin_write (id_pinStore idStore) id pin)
}.
Definition document_put idStore (doc : WebDoc) : comp W (option (option string)) :=
  putIdResource idStore (mkPut DID_DOCUMENT_RESOURCE (WebDocument doc) "application/did+json" None false).
Definition log_put idStore (log : DIDLog) (etag : option string) : comp W (option (option string)) :=
  putIdResource idStore (mkPut DID_LOG_RESOURCE (LogText (logToJsonlString log)) "text/jsonl" etag false).


Lemma read_keeps I K idStore expectedDid absent :
  store_keeps I K idStore →
  triple I (readPublishedLog idStore expectedDid absent)
    (λ read w, (∀ published, read = Some published → K published) ∧ I w) (λ _, I).
Proof.
  intros Hs. unfold readPublishedLog. eapply triple_bind; [apply (keeps_raw _ _ _ Hs)|].
  intros [[text etag]|]; apply triple_pure; intros HK.
  - eapply (triple_bind _ _ _ (λ log w, readLogFromString text = Ok log ∧ I w)).
    { apply triple_lift. intros w Hw. by destruct (readLogFromString text). }
    intros log. apply triple_pure. intros Hlog.
    eapply (triple_bind _ _ _ (λ published w, K published ∧ I w)).
    { apply triple_lift. intros w Hw. destruct (resolvedHead log brokenLog etag) as [published|] eqn:Hr; [|done].
      split; [|done]. by eapply HK. }
    intros published. apply triple_pure. intros Hpub.
    eapply (triple_bind _ _ _ (λ _, I)); [apply keeps_lift|]. intros _.
    eapply (triple_bind _ _ _ (λ _, I)); [|intros ?; apply triple_ret; intros w Hw; split; [by intros ? [= <-]|done]].
    unfold checkAndAdvanceAccountLogPin. apply keeps_bind; [by apply (keeps_pin_read _ _ _ Hs)|]. intros pin.
    apply keeps_bind; [apply keeps_lift|]. intros served. case_decide; [apply keeps_ret|by apply (keeps_pin_write _ _ _ Hs)].
  - destruct absent; [by apply triple_ret|]. eapply (triple_bind _ _ _ (λ _, I)); [apply (keeps_pin_read _ _ _ Hs)|].
    intros [pin|]; [by apply triple_throw|by apply triple_ret].
Qed.

Lemma readOrThrow_keeps I K idStore expectedDid msg :
  store_keeps I K idStore →
  triple I (readPublishedLogOrThrow idStore expectedDid msg) (λ published w, K published ∧ I w) (λ _, I).
Proof.
  intros Hs. unfold readPublishedLogOrThrow. eapply triple_bind; [by apply read_keeps|].
  intros [pub|]; apply triple_pure; intros HK; [apply triple_ret; intros w Hw; split; [by apply HK|done]|by apply triple_throw].
Qed.

Lemma putLog_answers I idStore log etag (P : option string → Prop) :
  (∀ id pin, keeps I (pin_write (id_pinStore idStore) id pin)) →
  triple I (log_put idStore log etag) (λ written w, P (default None written) ∧ I w) (λ _, I) →
  triple I (putLogResource idStore log etag false) (λ written w, P written ∧ I w) (λ _, I).
Proof.
  intros Hs Hput. unfold putLogResource.
  eapply triple_bind; [eapply triple_try; [exact Hput|intros e; by apply triple_throw]|].
  intros written. apply triple_pure. intros HP.
  eapply (triple_bind _ _ _ (λ _, I)); [apply keeps_lift|]. intros pin.
  eapply (triple_bind _ _ _ (λ _, I)); [apply Hs|]. intros _. by apply triple_ret.
Qed.

Lemma putLog_keeps I K idStore log etag :
  store_keeps I K idStore → keeps I (log_put idStore log etag) → keeps I (putLogResource idStore log etag false).
Proof.
  intros Hs Hput. eapply triple_conseq; [apply (putLog_answers I _ _ _ (λ _, True))|done|by intros ? ? [_ ?]|done].
  - apply (keeps_pin_write _ _ _ Hs).
  - eapply triple_conseq; [exact Hput|done|by intros|done].
Qed.

Lemma putProjection_keeps I idStore updated :
  (∀ doc, keeps I (document_put idStore doc)) → keeps I (putProjection updated idStore).
Proof.
  intros Hd. unfold putProjection. destruct (upd_webDoc updated); [|apply keeps_throw].
  apply keeps_bind; [apply Hd|intros; apply keeps_ret].
Qed.

Definition projection_keeps I (store : option (WebvhIdStore W)) : Prop :=
  ∀ s doc, store = Some s → keeps I (document_put s doc).

Lemma publishEntry_answers I idStore updated etag projection timing (P : option string → Prop) :
  (∀ id pin, keeps I (pin_write (id_pinStore idStore) id pin)) → (∀ event, keeps I (logger event)) → projection_keeps I projection →
  triple I (log_put idStore (upd_log updated) etag) (λ written w, P (default None written) ∧ I w) (λ _, I) →
  triple I (publishAccountEntry logger idStore updated etag projection timing) (λ written w, P written ∧ I w) (λ _, I).
Proof.
  intros Hs Hl Hd Hput. unfold publishAccountEntry. eapply (triple_bind _ _ _ (λ _, I)).
  - change (keeps I (match projection, timing with
                     | Some store, before_entry => try_catch (putProjection updated store) (λ err,
                         logger (mkEvent warn "did:webvh: the pre-entry did:web projection PUT failed." {["err" := DErr err]}))
                     | _, _ => mret ()
                     end)).
    destruct projection as [store|], timing; try apply keeps_ret. apply keeps_try; [|intros; apply Hl].
    apply putProjection_keeps. intros doc. by apply (Hd store).
  - intros _. eapply triple_bind; [by apply putLog_answers|]. intros written. apply triple_pure. intros HP.
    eapply (triple_bind _ _ _ (λ _, I)); [|intros _; by apply triple_ret].
    change (keeps I (match projection, timing with
                     | Some store, after_entry => putProjection updated store
                     | _, _ => mret ()
                     end)).
    destruct projection as [store|], timing; try apply keeps_ret.
    apply putProjection_keeps. intros doc. by apply (Hd store).
Qed.

Lemma publishEntry_keeps I K idStore updated etag projection timing :
  store_keeps I K idStore → (∀ event, keeps I (logger event)) → projection_keeps I projection →
  keeps I (log_put idStore (upd_log updated) etag) →
  keeps I (publishAccountEntry logger idStore updated etag projection timing).
Proof.
  intros Hs Hl Hd Hput.
  eapply triple_conseq; [apply (publishEntry_answers I _ _ _ _ _ (λ _, True))|done|by intros ? ? [_ ?]|done]; [|done..|].
  - apply (keeps_pin_write _ _ _ Hs).
  - eapply triple_conseq; [exact Hput|done|by intros|done].
Qed.

Lemma conclude_keeps I projection timing published :
  projection_keeps I projection →
  triple I (concludeUnchangedAccountEntry projection timing published)
    (λ head w, head = (pub_did published, pub_doc published, pub_log published) ∧ I w) (λ _, I).
Proof.
  intros Hd. unfold concludeUnchangedAccountEntry. eapply (triple_bind _ _ _ (λ _, I)); [|intros; by apply triple_ret].
  change (keeps I (match projection, timing with
                   | Some store, after_entry => concludeWithPublishedLog store published;; mret ()
                   | _, _ => mret ()
                   end)).
  destruct projection as [store|], timing; try apply keeps_ret. apply keeps_bind; [|intros; apply keeps_ret].
  unfold concludeWithPublishedLog. apply keeps_bind; [|intros; apply keeps_ret].
  unfold putDidWebProjection. apply keeps_bind; [by apply (Hd store)|intros; apply keeps_ret].
Qed.

Definition head_of (published : PublishedWebvhLog) : concluded_head :=
  (pub_did published, pub_doc published, pub_log published).

Lemma preamble_keeps I K (o : EntryOptions) :
  store_keeps I K (opt_idStore o) → (∀ published, opt_published o = Some published → K published) →
  triple I (preamble o) (λ published w, K published ∧ I w) (λ _, I).
Proof.
  intros Hs HK. unfold preamble. eapply (triple_bind _ _ _ (λ _, I)); [apply keeps_lift|]. intros built.
  eapply (triple_bind _ _ _ (λ published w, K published ∧ I w)).
  { destruct (opt_published o) as [p|] eqn:Hp; [|by apply readOrThrow_keeps]. apply triple_lift. intros w Hw.
    unfold assertPublishedLogDid. destruct (opt_expectedDid o); [case_decide|]; auto. }
  intros published. apply triple_pure. intros Hpub.
  eapply (triple_bind _ _ _ (λ _, I)); [destruct built; [apply keeps_lift|apply keeps_ret]|].
  intros _. by apply triple_ret.
Qed.

(** A build that keeps the invariant, and what it may answer over a head. *)
Definition build_answers I (build : BuildContext (W:=W) → comp W (option AccountEntryFields))
    (answers : PublishedWebvhLog → option AccountEntryFields → Prop) : Prop :=
  ∀ ctx, triple I (concludeUnchanged ctx) (λ head w, head = head_of (ctx_published ctx) ∧ I w) (λ _, I) →
    triple I (build ctx) (λ fields w, answers (ctx_published ctx) fields ∧ I w) (λ _, I).

(** What an outcome says of the head it was reached over. *)
Definition outcome_of (signer : AccountEntrySigner) (answers : PublishedWebvhLog → option AccountEntryFields → Prop)
    (outcome : AccountEntryOutcome) : Prop :=
  match out_updated outcome with
  | Some updated => ∃ fields, answers (out_published outcome) (Some fields) ∧
      disciplined updateDID signer (out_published outcome) fields updated
  | None => skipped outcome = true ∨ answers (out_published outcome) None
  end.

(** What a run of the seam comes to: the head it read, what the skip said of
    it, and what was stated, put and answered. [I] is the invariant before the
    build, [I2] after it. *)
Definition seam_outcome (I I2 : W → Prop) (K : PublishedWebvhLog → Prop) (o : EntryOptions (W:=W))
    (answers : PublishedWebvhLog → option AccountEntryFields → Prop) (S : PublishedWebvhLog → bool → Prop) (P : PublishedWebvhLog → Updated → option string → Prop)
    (outcome : AccountEntryOutcome) (w : W) : Prop :=
  let published := out_published outcome in
  K published ∧ (∀ head, opt_published o = Some head → published = head) ∧ S published (skipped outcome) ∧
  match out_updated outcome with
  | Some updated => skipped outcome = false ∧ I2 w ∧ P published updated (out_etag outcome) ∧
      ∃ fields, answers published (Some fields) ∧ disciplined updateDID (opt_signer o) published fields updated
  | None => (skipped outcome = true ∧ I w) ∨ (skipped outcome = false ∧ answers published None ∧ I2 w)
  end.

Lemma preamble_given I K (o : EntryOptions) :
  store_keeps I K (opt_idStore o) → (∀ published, opt_published o = Some published → K published) →
  triple I (preamble o)
    (λ published w, (K published ∧ ∀ head, opt_published o = Some head → published = head) ∧ I w) (λ _, I).
Proof.
  intros Hs HK w Hi. pose proof (preamble_keeps I K o Hs HK w Hi) as Hp. destruct (preamble o w) as [[published|e] w'] eqn:Hr; [|done].
  destruct Hp as [Hk Hi']. split; [split; [done|]|done]. intros head Hh. unfold preamble in Hr. rewrite Hh in Hr.
  unfold mbind, comp_bind in Hr. destruct (lift _ w) as [[built|] w1]; [|done].
  assert (∀ p w2, lift (assertPublishedLogDid head (opt_expectedDid o)) w1 = (Ok p, w2) → p = head) as Hsame.
  { intros p w2. unfold assertPublishedLogDid. destruct (opt_expectedDid o); [case_decide|]; by intros [= <- _]. }
  destruct (lift (assertPublishedLogDid _ _) w1) as [[p|] w2] eqn:Hp; [|done].
  match type of Hr with context [match ?r with (_, _) => _ end] => destruct r as [[u|] w3]; [|done] end.
  injection Hr as <- _. by eapply Hsame.
Qed.

(** The seam with an invariant of its own once the skip has answered over a
    head: what a skip leaves in a local, the build may read. *)
Lemma seam_threads I (I1 : PublishedWebvhLog → W → Prop) I2 K (o : EntryOptions) answers S P :
  (∀ published w, I1 published w → I w) →
  store_keeps I K (opt_idStore o) → (∀ published, opt_published o = Some published → K published) →
  (∀ id pin, keeps I2 (pin_write (id_pinStore (opt_idStore o)) id pin)) →
  (∀ event, keeps I2 (logger event)) → (∀ published, projection_keeps (I1 published) (opt_projectionStore o)) →
  projection_keeps I2 (opt_projectionStore o) →
  (∀ published, K published →
     triple I (match opt_skip o with Some skip => skip published | None => mret false end)
       (λ skip w, S published skip ∧ if skip then I w else I1 published w) (λ _, I)) →
  (∀ ctx, K (ctx_published ctx) → (∀ head, opt_published o = Some head → ctx_published ctx = head) →
     S (ctx_published ctx) false → attributeParts (opt_signer o) (ctx_published ctx) = Ok (ctx_parts ctx) →
     triple (I1 (ctx_published ctx)) (concludeUnchanged ctx)
       (λ head w, head = head_of (ctx_published ctx) ∧ I1 (ctx_published ctx) w) (λ _, I1 (ctx_published ctx)) →
     triple (I1 (ctx_published ctx)) (opt_build o ctx) (λ fields w, answers (ctx_published ctx) fields ∧ I2 w)
       (λ _ w, I w ∨ I2 w)) →
  (∀ published fields updated, K published → S published false → answers published (Some fields) →
     disciplined updateDID (opt_signer o) published fields updated →
     triple I2 (log_put (opt_idStore o) (upd_log updated) (pub_etag published))
       (λ written w, P published updated (default None written) ∧ I2 w) (λ _, I2)) →
  triple I (signAccountEntry updateDID logger o) (seam_outcome I I2 K o answers S P) (λ _ w, I w ∨ I2 w).
Proof.
  intros HI1 Hs HK Hpin Hl Hd Hd2 Hskip Hb Hput. unfold signAccountEntry.
  eapply triple_bind; [eapply (triple_conseq _ _ _ _ _ (λ _, I)); [by apply preamble_given|done|done|by left]|].
  intros published. apply triple_pure. intros [Hpub Hgiven].
  eapply triple_bind; [eapply (triple_conseq _ _ _ _ _ (λ _, I)); [by apply Hskip|done|done|by left]|].
  intros skip. apply triple_pure. intros Hsk. destruct skip.
  { apply triple_ret. intros w Hw. split_and!; [done..|]. by left. }
  eapply (triple_bind _ _ _ (λ parts w, attributeParts (opt_signer o) published = Ok parts ∧ I1 published w)).
  { apply triple_lift. intros w Hw. destruct (attributeParts _ _); [done|left; exact (HI1 published w Hw)]. }
  intros parts. apply triple_pure. intros Hp. eapply triple_bind; [apply (Hb (mkContext published parts _)); [done..|by apply conclude_keeps]|].
  intros [fields|]; apply triple_pure; cbn [ctx_published]; intros Ha.
  - eapply (triple_bind _ _ _ (λ updated w, disciplined updateDID (opt_signer o) published fields updated ∧ I2 w)).
    { apply triple_lift. intros w Hw. destruct (signEntry _ _ _ _ _ _) as [updated|] eqn:Hu; [|by right].
      split; [|done]. by eapply signed_disciplined. }
    intros updated. apply triple_pure. intros Hdis.
    eapply triple_bind; [eapply (triple_conseq _ _ _ _ _ (λ _, I2)); [|done|done|by right]|].
    { apply (publishEntry_answers I2 _ _ _ _ _ (P published updated)); [done..|]. by eapply Hput. }
    intros written. apply triple_pure. intros HP. apply triple_ret. intros w Hw. do 3 (split; [done|]). do 3 (split; [done|]). by exists fields.
  - apply triple_ret. intros w Hw. split_and!; [done..|]. by right.
Qed.

Lemma seam_stages I I2 K (o : EntryOptions) answers S P :
  store_keeps I K (opt_idStore o) → (∀ published, opt_published o = Some published → K published) →
  (∀ id pin, keeps I2 (pin_write (id_pinStore (opt_idStore o)) id pin)) →
  (∀ event, keeps I2 (logger event)) → projection_keeps I (opt_projectionStore o) → projection_keeps I2 (opt_projectionStore o) →
  (∀ published, K published →
     triple I (match opt_skip o with Some skip => skip published | None => mret false end)
       (λ skip w, S published skip ∧ I w) (λ _, I)) →
  (∀ ctx, K (ctx_published ctx) → (∀ head, opt_published o = Some head → ctx_published ctx = head) →
     S (ctx_published ctx) false →
     triple I (concludeUnchanged ctx) (λ head w, head = head_of (ctx_published ctx) ∧ I w) (λ _, I) →
     triple I (opt_build o ctx) (λ fields w, answers (ctx_published ctx) fields ∧ I2 w) (λ _ w, I w ∨ I2 w)) →
  (∀ published fields updated, K published → S published false → answers published (Some fields) →
     disciplined updateDID (opt_signer o) published fields updated →
     triple I2 (log_put (opt_idStore o) (upd_log updated) (pub_etag published))
       (λ written w, P published updated (default None written) ∧ I2 w) (λ _, I2)) →
  triple I (signAccountEntry updateDID logger o) (seam_outcome I I2 K o answers S P) (λ _ w, I w ∨ I2 w).
Proof.
  intros Hs HK Hpin Hl Hd Hd2 Hskip Hb Hput. apply (seam_threads I (λ _, I) I2); [done..| | |done].
  - intros published Hp. eapply triple_conseq; [by apply Hskip|done| |done]. by intros [] w.
  - intros ctx Hk Hh Hsk _ Hc. by apply Hb.
Qed.

(** An entry that was not skipped has the parts its signer is attributed. *)
Lemma sign_parts (o : EntryOptions) w outcome w' :
  signAccountEntry updateDID logger o w = (Ok outcome, w') → skipped outcome = false →
  attributeParts (opt_signer o) (out_published outcome) = Ok (out_parts outcome).
Proof.
  unfold signAccountEntry. unfold mbind at 1, comp_bind at 1. destruct (preamble o w) as [[published|] w1]; [|done].
  unfold mbind at 1, comp_bind at 1. destruct (match opt_skip o with Some skip => skip published | None => mret false end w1) as [[[]|] w2];
    [by intros [= <- _]| |done].
  unfold mbind at 1, comp_bind at 1. destruct (attributeParts (opt_signer o) published) as [parts|] eqn:Hp; [|done]. cbn [lift].
  unfold mbind at 1, comp_bind at 1. destruct (opt_build o _ w2) as [[[entry|]|] w3]; [| |done]; [|by intros [= <- _] _].
  unfold mbind at 1, comp_bind at 1. destruct (lift _ w3) as [[updated|] w4]; [|done].
  unfold mbind, comp_bind. destruct (publishAccountEntry _ _ _ _ _ _ w4) as [[written|] w5]; [|done]. by intros [= <- _] _.
Qed.

Lemma seam_publishes_disciplined I K (o : EntryOptions) answers :
  store_keeps I K (opt_idStore o) → (∀ published, opt_published o = Some published → K published) → (∀ event, keeps I (logger event)) → projection_keeps I (opt_projectionStore o) →
  (∀ skip published, opt_skip o = Some skip → keeps I (skip published)) →
  build_answers I (opt_build o) answers →
  (∀ published fields updated, K published → answers published (Some fields) →
     disciplined updateDID (opt_signer o) published fields updated →
     keeps I (log_put (opt_idStore o) (upd_log updated) (pub_etag published))) →
  triple I (signAccountEntry updateDID logger o)
    (λ outcome w, (outcome_of (opt_signer o) answers outcome ∧ (opt_skip o = None → skipped outcome = false) ∧
                   K (out_published outcome)) ∧ I w)
    (λ _, I).
Proof.
  intros Hs HK Hl Hd Hskip Hb Hput.
  eapply triple_conseq; [apply (seam_stages I I K o answers (λ _ skip, opt_skip o = None → skip = false) (λ _ _ _, True))|done|..].
  - done.
  - done.
  - apply (keeps_pin_write _ _ _ Hs).
  - done.
  - done.
  - done.
  - intros published _. destruct (opt_skip o) as [skip|]; [|by apply triple_ret].
    eapply triple_conseq; [by apply (Hskip skip published)|done|by intros a w Hw|done].
  - intros ctx _ _ _ Hc. eapply triple_conseq; [by apply Hb|done|done|by left].
  - intros published fields updated HKp _ Ha Hdis.
    eapply triple_conseq; [by eapply Hput|done|by intros a w Hw|done].
  - intros outcome w (Hk & _ & Hsk & Ho). unfold outcome_of.
    destruct (out_updated outcome); [destruct Ho as (_ & Hi & _ & Ha)|destruct Ho as [[Ho Hi]|(_ & Ha & Hi)]];
      (split; [split_and!; [by auto|done|done]|done]).
  - intros e w Hw. by destruct Hw.
Qed.
Lemma retry_keeps {A} I (run : comp W A) (Q : A → W → Prop) n :
  triple I run Q (λ _, I) → triple I (retryAttempts n run) Q (λ _, I).
Proof.
  intros Hr. induction n as [|n IH]; [exact Hr|]. cbn [retryAttempts]. eapply triple_try; [exact Hr|].
  intros e. case_match; [by apply triple_throw|]. destruct n; [by apply triple_throw|exact IH].
Qed.
End seam.

(** ** Evidence *)

(** An invariant, with the facts known of the past. *)
Section evidence.
Context {W Fact : Type} (I : W → Prop) (past : Fact → W → Prop).

Definition known (F : list Fact) (w : W) : Prop := I w ∧ ∀ fact, fact ∈ F → past fact w.

Lemma known_mono F F' w : F' ⊆ F → known F w → known F' w.
Proof. intros Hsub [Hi HF]. split; [done|]. auto. Qed.

Lemma known_app F fact w : known F w → past fact w → known (fact :: F) w.
Proof. intros [Hi HF] Hp. split; [done|]. intros f [->|Hf]%elem_of_cons; auto. Qed.

(** A triple that forgets what it learned. *)
Lemma known_forgets {A} F (c : comp W A) (G : A → list Fact) (H : js_error → list Fact) :
  triple (known F) c (λ a, known (G a)) (λ e, known (H e)) → (∀ a, F ⊆ G a) → (∀ e, F ⊆ H e) → keeps (known F) c.
Proof. intros Hc HG HH. eapply triple_conseq; [exact Hc|done|intros a w; by apply known_mono|intros e w; by apply known_mono]. Qed.
End evidence.
Arguments known_mono {W Fact I past}.
Arguments known_app {W Fact I past}.
Arguments known_forgets {W Fact I past A}.

(** ** The events around a ceremony *)

Section events.
Context {W : Type} {cell : Cell W EmitterState} {shape : ThrownShape}.
Variables (logger : Logger W) (I : W → Prop).
Hypothesis logs : ∀ event, keeps I (logger event).
Hypothesis emits : ∀ (state : EmitterState) w, I w → I (set_cell state w).

Lemma emit_keeps level msg data : keeps I (emit logger level msg data).
Proof. unfold emit. apply keeps_try; [apply logs|intros; apply keeps_ret]. Qed.

Lemma stage_keeps r name detail : keeps I (stage logger r name detail).
Proof.
  unfold stage. apply keeps_bind; [by apply triple_gets|intros st]. case_decide; [apply keeps_ret|].
  apply keeps_bind; [by apply triple_modify, emits|intros _; apply emit_keeps].
Qed.

Lemma outcome_keeps r kind detail err : keeps I (outcome logger r kind detail err).
Proof.
  unfold outcome. apply keeps_bind; [by apply triple_gets|intros st]. destruct (outcomeEmitted st); [apply keeps_ret|].
  apply keeps_bind; [by apply triple_modify, emits|intros _; apply emit_keeps].
Qed.

Lemma run_answers {T} r (fn : comp W T) classify (P : T → Prop) :
  triple I fn (λ t w, P t ∧ I w) (λ _, I) → (∀ t, keeps I (classify t)) →
  triple I (run logger r fn classify) (λ t w, P t ∧ I w) (λ _, I).
Proof.
  intros Hfn Hc. unfold run.
  eapply (triple_bind _ _ _ (λ x w, match x with Ok t => P t | Throw _ => True end ∧ I w)).
  { intros w Hw. unfold attempt. specialize (Hfn w Hw). by destruct (fn w) as [[t|e] w']. }
  intros [t|e]; apply triple_pure; intros HP.
  - eapply (triple_bind _ _ _ (λ _, I)); [|intros _; by apply triple_ret].
    change (keeps I (try_catch ('(kind, detail) ← classify t; outcome logger r kind detail None) (λ _, mret ()))).
    apply keeps_try; [|intros; apply keeps_ret]. apply keeps_bind; [apply Hc|intros [kind detail]; apply outcome_keeps].
  - eapply (triple_bind _ _ _ (λ _, I)); [apply outcome_keeps|]. intros _. by apply triple_throw.
Qed.
End events.

(** ** Enrollment *)

Section enrollment.
Context {W : Type} {readers : DocumentReaders} {resolver : WebvhResolver} {writer : WebvhWriter}
  {hashes : HashLibrary} {keys : WebvhKeys} {twins : TwinLibrary}.
Variables (updateDID : UpdateDID) (logger : Logger W).
Context `{!Cell W (option concluded_head), !CellLaws W (option concluded_head)}.
Variables (I : W → Prop) (K : PublishedWebvhLog → Prop) (idStore : WebvhIdStore W) (signer : AccountLogSigner) (newClient : WebvhEnrollmentKeys).

(** The document the adding entry states: the client's two methods merged
    into the head's. *)
Definition adds_client (published : PublishedWebvhLog) (doc : option DocumentFields) : Prop :=
  ∃ methods relations,
    clientAdditionFields (pub_did published) (enroll_signingKey newClient) (enroll_keyAgreementKey newClient) =
      Ok (methods, relations) ∧
    doc = Some (mergedFields (mergeVerificationMethods (pub_doc published) methods relations None)).

(** The entries an enrollment may publish over a head. *)
Definition additive (published : PublishedWebvhLog) (updated : Updated) : Prop :=
  ∃ key s doc A C,
    licensed (LogSigner signer) published key s ∧
    updateDID (pub_log published) (pub_meta published) s doc None A C = Ok updated ∧
    carried (pub_updateKeys published) (pub_nextKeyHashes published) ∧
    pub_updateKeys published ⊆ A ∧ pub_nextKeyHashes published ⊆ C ∧
    (∀ k, k ∈ A → k = enroll_updateKey newClient ∨ deriveNextKeyHash k ∈ C) ∧
    ((doc = None ∧ (∀ k, k ∈ A → k ∈ pub_updateKeys published ∨ k = key) ∧
      ∀ h, h ∈ C → h ∈ pub_nextKeyHashes published ∨ h = deriveNextKeyHash key ∨
        h = deriveNextKeyHash (enroll_updateKey newClient) ∨ h = deriveNextKeyHash (enroll_stagedKey newClient)) ∨
     (adds_client published doc ∧ enroll_updateKey newClient ∈ A ∧
      (∀ k, k ∈ A → k ∈ pub_updateKeys published ∨ k = key ∨ k = enroll_updateKey newClient) ∧
      ∀ h, h ∈ C → h ∈ pub_nextKeyHashes published ∨ h = deriveNextKeyHash key)).

(** A log that authorizes the client: a head read so, or one extended so. *)
Definition authorizes_client (did : string) (log : DIDLog) : Prop :=
  (∃ published, did = pub_did published ∧ log = pub_log published ∧
     enroll_updateKey newClient ∈ pub_updateKeys published) ∨
  (∃ published s doc A C updated, adds_client published doc ∧ enroll_updateKey newClient ∈ A ∧
     updateDID (pub_log published) (pub_meta published) s doc None A C = Ok updated ∧
     did = upd_did updated ∧ log = upd_log updated).

(** What each build may answer. *)
Definition commit_answers (published : PublishedWebvhLog) (fields : option AccountEntryFields) : Prop :=
  match fields with
  | None => True
  | Some f => f = mkEntryFields None None
      (Some [deriveNextKeyHash (enroll_updateKey newClient); deriveNextKeyHash (enroll_stagedKey newClient)]) None None
  end.
Definition reveal_answers (published : PublishedWebvhLog) (fields : option AccountEntryFields) : Prop :=
  match fields with None => True | Some f => f = no_fields end.
Definition add_answers (published : PublishedWebvhLog) (fields : option AccountEntryFields) : Prop :=
  match fields with
  | None => False
  | Some f => adds_client published (ef_document f) ∧
      f = mkEntryFields (Some (js_dedup (pub_updateKeys published ++ [enroll_updateKey newClient]))) None None
        (ef_document f) None
  end.

(** An entry that only commits. *)
Lemma commits_additive published fields updated hs :
  fields = mkEntryFields None None hs None None →
  (∀ h, h ∈ default [] hs →
     h = deriveNextKeyHash (enroll_updateKey newClient) ∨ h = deriveNextKeyHash (enroll_stagedKey newClient)) →
  disciplined updateDID (LogSigner signer) published fields updated → additive published updated.
Proof.
  intros -> Hhs [Hc (key & s & A & C & Hl & [HA HC] & Hu)]. cbn in HA, HC, Hu. exists key, s, None, A, C.
  split_and!; [done..| | | |left; split_and!; [done| |]].
  - intros k Hk. apply HA. by left.
  - intros h Hh. apply HC. rewrite elem_of_app. auto.
  - intros k [Hk|Hk]%HA; right; apply HC; [left; rewrite elem_of_app; left; by apply Hc|right; by apply list_elem_of_fmap_2].
  - intros k [Hk|Hk]%HA; [by left|]. destruct signer; set_solver.
  - intros h [[Hh|Hh]%elem_of_app|Hh]%HC; [by left|specialize (Hhs h Hh); tauto|]. destruct signer; set_solver.
Qed.

Lemma add_additive published fields updated :
  add_answers published (Some fields) → disciplined updateDID (LogSigner signer) published fields updated →
  additive published updated.
Proof.
  intros [Hadd Hf] [Hc (key & s & A & C & Hl & [HA HC] & Hu)]. rewrite Hf in HA, HC, Hu. cbn in HA, HC, Hu.
  exists key, s, (ef_document fields), A, C.
  split_and!; [done..| | | |right; split_and!; [done| | |]].
  - intros k Hk. apply HA. left. rewrite elem_of_js_dedup. set_solver.
  - intros h Hh. apply HC. rewrite elem_of_app. auto.
  - intros k [Hk|Hk]%HA; [|right; apply HC; right; by apply list_elem_of_fmap_2].
    rewrite elem_of_js_dedup, elem_of_app, list_elem_of_singleton in Hk. destruct Hk as [Hk| ->]; [right|by left].
    apply HC. left. rewrite elem_of_app. left. by apply Hc.
  - apply HA. left. rewrite elem_of_js_dedup. set_solver.
  - intros k [Hk|Hk]%HA; [|destruct signer; set_solver]. rewrite elem_of_js_dedup in Hk. set_solver.
  - intros h [Hh|Hh]%HC; [set_solver|]. destruct signer; set_solver.
Qed.

(** ** One attempt *)

(** The local [alreadyEnrolled] holds a head that authorizes the client. *)
Definition cell_sound (head : option concluded_head) : Prop :=
  match head with
  | None => True
  | Some head => authorizes_client head.1.1 head.2
  end.
Definition J (w : W) : Prop := cell_sound (get_cell w) ∧ I w.

(** The environment does not touch the local. *)
Definition environment_keeps {A} (c : comp W A) : Prop := ∀ v, keeps (λ w, get_cell w = v ∧ I w) c.

Lemma environment_J {A} (c : comp W A) : environment_keeps c → keeps J c.
Proof.
  intros Hc w [Hv Hi]. specialize (Hc (get_cell w) w (conj eq_refl Hi)).
  destruct (c w) as [[a|e] w']; destruct Hc as [Hcell Hi']; (split; [by rewrite Hcell|done]).
Qed.

Record enrollment_environment : Prop := {
  env_raw v : triple (λ w, get_cell w = v ∧ I w) (getIdResourceRaw idStore DID_LOG_RESOURCE)
    (λ read w, heads K read ∧ get_cell w = v ∧ I w) (λ _ w, get_cell w = v ∧ I w);
  env_pin_read id : environment_keeps (pin_read (id_pinStore idStore) id);
  env_pin_write id pin : environment_keeps (pin_write (id_pinStore idStore) id pin);
  env_log event : environment_keeps (logger event);
  env_doc doc : environment_keeps (document_put idStore doc);
  env_put published updated : K published → additive published updated →
    environment_keeps (log_put idStore (upd_log updated) (pub_etag published));
  env_cell v w : I w → I (set_cell v w)
}.
Hypothesis env : enrollment_environment.

Lemma J_store : store_keeps J K idStore.
Proof.
  constructor; intros; [|apply environment_J; apply env..].
  intros w [Hv Hi]. pose proof (env_raw env (get_cell w) w (conj eq_refl Hi)) as H.
  destruct (getIdResourceRaw idStore DID_LOG_RESOURCE w) as [[read|e] w'].
  - destruct H as (HK & Hcell & Hi'). split; [done|]. split; [by rewrite Hcell|done].
  - destruct H as (Hcell & Hi'). split; [by rewrite Hcell|done].
Qed.

Lemma set_cell_J v : cell_sound v → triple J (modify (set_cell v)) (λ _, J) (λ _, J).
Proof.
  intros Hv. apply triple_modify. intros w [_ Hi]. split; [by rewrite get_set_cell|by apply env_cell].
Qed.

Lemma start_J v : cell_sound v → triple I (modify (set_cell v)) (λ _, J) (λ _, J).
Proof.
  intros Hv. apply triple_modify. intros w Hi. split; [by rewrite get_set_cell|by apply env_cell].
Qed.

Lemma stage_J published expectedDid build answers :
  (∀ head, published = Some head → K head) → build_answers J build answers →
  (∀ head fields updated, answers head (Some fields) → disciplined updateDID (LogSigner signer) head fields updated →
     additive head updated) →
  triple J (signAccountEntry updateDID logger (enrollOptions idStore signer expectedDid published build))
    (λ outcome w, (match out_updated outcome with
                  | Some updated => ∃ fields, answers (out_published outcome) (Some fields) ∧
                      disciplined updateDID (LogSigner signer) (out_published outcome) fields updated
                  | None => answers (out_published outcome) None
                  end ∧ K (out_published outcome)) ∧ J w) (λ _, J).
Proof.
  intros HK Hb Hadd. eapply triple_post; [eapply (seam_publishes_disciplined updateDID logger J K _ answers)|..].
  - apply J_store.
  - exact HK.
  - intros event. apply environment_J, env.
  - intros s doc Hs. cbn in Hs. unfold ownProjection in Hs. destruct signer; [|done]. injection Hs as <-.
    apply environment_J, env.
  - done.
  - exact Hb.
  - intros head fields updated Hhead Ha Hd. apply environment_J, env; [done|]. by eapply Hadd.
  - intros outcome w [(Ho & Hskip & Hout) Hj]. split; [split; [|done]|done]. unfold outcome_of in Ho. cbn in Ho, Hskip.
    destruct (out_updated outcome); [done|]. destruct Ho as [Hs|]; [|done]. by rewrite Hskip in Hs.
  - done.
Qed.

Lemma commitBuild_answers : build_answers J (commitBuild newClient) commit_answers.
Proof.
  intros ctx Hconcl. unfold commitBuild. case_decide as Hin.
  - eapply triple_bind; [exact Hconcl|]. intros head. apply triple_pure. intros ->.
    eapply triple_bind; [apply set_cell_J|intros; by apply triple_ret].
    left. by exists (ctx_published ctx).
  - case_decide; by apply triple_ret.
Qed.

Lemma revealBuild_answers : build_answers J revealBuild reveal_answers.
Proof.
  intros ctx _. unfold revealBuild. apply triple_ret. intros w Hw. split; [|done]. repeat case_match; naive_solver.
Qed.

Lemma addBuild_answers : build_answers J (addBuild newClient) add_answers.
Proof.
  intros ctx _. unfold addBuild. eapply (triple_bind _ _ _ (λ mr w, _ ∧ J w)).
  { apply triple_lift. intros w Hw.
    match goal with |- match ?r with _ => _ end => destruct r as [mr|e] eqn:Hr end; [|exact Hw].
    split; [exact Hr|exact Hw]. }
  intros [methods relations]. apply triple_pure. intros Hadd. apply triple_ret. intros w Hw. split; [|done].
  split; [|done]. by exists methods, relations.
Qed.

(** The head the next stage is threaded is one of the store's. *)
Lemma headOf_known outcome head : K (out_published outcome) → headOf outcome = Some head → K head.
Proof. unfold headOf. destruct (out_updated outcome); [done|]. by intros ? [= <-]. Qed.

Lemma reveal_stage published expectedDid :
  (∀ head, published = Some head → K head) →
  triple J (signAccountEntry updateDID logger (enrollOptions idStore signer expectedDid published revealBuild))
    (λ outcome w, K (out_published outcome) ∧ J w) (λ _, J).
Proof.
  intros HK.
  eapply triple_post; [eapply (stage_J _ _ _ reveal_answers HK); [apply revealBuild_answers|]|by intros ? ? [[_ ?] ?]|done].
  intros h fields updated Ha. eapply commits_additive; [exact Ha|]. cbn. set_solver.
Qed.

Lemma once_authorizes expectedDid :
  triple I (enrollWebvhClientOnce updateDID logger idStore signer newClient expectedDid)
    (λ r w, authorizes_client r.1 r.2 ∧ I w) (λ _, I).
Proof.
  eapply (triple_conseq _ _ _ (λ r w, authorizes_client r.1 r.2 ∧ J w) _ (λ _, J)); [|intros w Hw; exact Hw|
    by intros r w (? & _ & ?)|by intros e w [_ ?]].
  unfold enrollWebvhClientOnce. eapply triple_bind; [by apply start_J|]. intros ?.
  eapply triple_bind; [eapply (stage_J _ _ _ commit_answers); [done|apply commitBuild_answers|]|].
  { intros head fields updated Ha. eapply commits_additive; [exact Ha|]. cbn. set_solver. }
  intros commit. apply triple_pure. intros [_ Hcommit].
  eapply (triple_bind _ _ _ (λ enrolled w, cell_sound enrolled ∧ J w)).
  { apply triple_gets. intros w Hw. split; [apply Hw|done]. }
  intros enrolled. apply triple_pure. intros He. destruct enrolled as [head|].
  { apply triple_ret. intros w Hw. by split. }
  eapply (triple_bind _ _ _ (λ last w, K (out_published last) ∧ J w)).
  { assert (∀ s, triple J (match s, out_updated commit with
                           | ladder _, None => signAccountEntry updateDID logger
                               (enrollOptions idStore signer expectedDid (headOf commit) revealBuild)
                           | _, _ => mret commit
                           end) (λ last w, K (out_published last) ∧ J w) (λ _, J)) as Hs; [|exact (Hs signer)].
    intros [seeds|seed]; [by apply triple_ret|]. destruct (out_updated commit); [by apply triple_ret|].
    apply reveal_stage. intros head. by apply headOf_known. }
  intros last. apply triple_pure. intros Hlast.
  eapply triple_bind; [eapply (stage_J _ _ _ add_answers); [|apply addBuild_answers|]|].
  { intros head. by apply headOf_known. }
  { intros h fields updated Ha Hd. by eapply add_additive. }
  intros added. apply triple_pure. intros [Hout _]. apply triple_ret. intros w Hw. split; [|done].
  destruct (out_updated added) as [updated|]; [|done]. cbn. right.
  destruct Hout as (fields & Ha & Hd). pose proof (add_additive _ _ _ Ha Hd) as Hadd.
  destruct Ha as [Hdoc Hf]. destruct Hd as [_ (key & s & A & C & _ & [HA _] & Hu)].
  rewrite Hf in HA, Hu. cbn in HA, Hu.
  exists (out_published added), s, (ef_document fields), A, C, updated. split_and!; [done| |done..].
  apply HA. left. rewrite elem_of_js_dedup. set_solver.
Qed.

End enrollment.

(** C22: enrollment only adds. Whatever its store answers and however often it
    loses the race, every entry it puts is signed by a key the head it was
    built over licenses, over a head whose update keys all have their hashes
    committed, and keeps every update key and every commitment of that head:
    it authorizes at most the signing key and the new client's and commits at
    most their hashes, and the entry that authorizes the client is the one
    that publishes its two methods, merged into the head's document. So any
    invariant such puts keep survives the ceremony; and when it resolves, the
    log it returns authorizes the client. *)
Theorem enrollment_only_adds {W} {readers : DocumentReaders} {resolver : WebvhResolver} {writer : WebvhWriter}
    {hashes : HashLibrary} {keys : WebvhKeys} {twins : TwinLibrary} (updateDID : UpdateDID) (logger : Logger W)
    `{!Cell W (option concluded_head), !CellLaws W (option concluded_head)} (I : W → Prop) K idStore signer newClient
    expectedDid :
  enrollment_environment updateDID logger I K idStore signer newClient →
  triple I (enrollWebvhClient updateDID logger idStore signer newClient expectedDid)
    (λ r w, authorizes_client updateDID newClient r.1 r.2 ∧ I w) (λ _, I).
Proof. intros env. apply retry_keeps. by eapply once_authorizes. Qed.

(** ** A revealed rung is found again *)

Lemma filter_only {A} (P : A → Prop) `{!∀ x, Decision (P x)} (l : list A) a :
  NoDup l → a ∈ l → (∀ x, x ∈ l → P x ↔ x = a) → filter P l = [a].
Proof.
  intros Hnd Ha HP. induction Hnd as [|x l Hx Hnd IH]; [by apply elem_of_nil in Ha|].
  rewrite filter_cons. apply elem_of_cons in Ha as [->|Ha].
  - rewrite decide_True by (apply HP; [left|done]). f_equal. apply filter_none. intros y Hy Hp.
    apply HP in Hp; [|by right]. by subst.
  - rewrite decide_False; [apply IH; [done|]; intros y Hy; apply HP; by right|].
    intros ->%HP; [done|left].
Qed.

Lemma filter_short {A} (P : A → Prop) `{!∀ x, Decision (P x)} (l : list A) :
  NoDup l → (∀ x y, x ∈ l → y ∈ l → P x → P y → x = y) → length (filter P l) ≤ 1.
Proof.
  intros Hnd HP. pose proof (NoDup_filter P l Hnd) as Hf.
  destruct (filter P l) as [|x [|y rest]] eqn:Heq; cbn; [lia..|]. exfalso.
  assert (x ∈ filter P l ∧ y ∈ filter P l) as [Hx Hy] by (rewrite Heq; split; [left|right; left]).
  apply list_elem_of_filter in Hx as [? ?], Hy as [? ?]. rewrite (HP x y) in Hf by done.
  apply NoDup_cons in Hf as [Hn _]. apply Hn. left.
Qed.

Section resume.
Context {writer : WebvhWriter} {hashes : HashLibrary} {keys : WebvhKeys} `{!Inj (=) (=) deriveNextKeyHash}.

Lemma scanned_distinct {scanned : list (LadderRung * string)} s s' :
  NoDup ((λ s, rung_keyMultibase s.1) <$> scanned) → s ∈ scanned → s' ∈ scanned →
  rung_keyMultibase s.1 = rung_keyMultibase s'.1 → s = s'.
Proof.
  intros Hnd [i Hi]%list_elem_of_lookup [j Hj]%list_elem_of_lookup Hk.
  assert (i = j) as ->; [|by simplify_eq].
  eapply NoDup_lookup; [exact Hnd|by rewrite list_lookup_fmap, Hi|rewrite list_lookup_fmap, Hj; cbn; by rewrite Hk].
Qed.

(** The attribution read back over its scan. *)
Lemma attribution_cases seed A C maxScan scanned rung st :
  deriveLadderRungs seed maxScan = Ok scanned → attributeLadderRung seed A C maxScan = Ok (rung, st) →
  (∃ hash, (rung, hash) ∈ scanned) ∧
  match st with
  | revealed_rung => revealedRungs A scanned = [rung] ∧ length (committedRungs A C scanned) ≤ 1
  | committed_rung => revealedRungs A scanned = [] ∧ committedRungs A C scanned = [rung]
  end.
Proof.
  intros Hsc Ha. unfold attributeLadderRung in Ha. rewrite Hsc in Ha. cbn in Ha.
  assert (rung ∈ revealedRungs A scanned ∨ rung ∈ committedRungs A C scanned → ∃ hash, (rung, hash) ∈ scanned) as Hin.
  { unfold revealedRungs, committedRungs. rewrite !list_elem_of_fmap.
    intros [([r h] & -> & [_ Hs]%list_elem_of_filter)|([r h] & -> & [_ Hs]%list_elem_of_filter)]; by exists h. }
  destruct (revealedRungs A scanned) as [|r [|]], (committedRungs A C scanned) as [|c [|]]; simplify_eq/=;
    (split; [apply Hin; (by left; left) || (by right; left)|split; [done|cbn; lia || done]]).
Qed.

Lemma resumed_attribution seed A C A' C' maxScan scanned rung st (commits : list string) :
  deriveLadderRungs seed maxScan = Ok scanned → NoDup ((λ s, rung_keyMultibase s.1) <$> scanned) →
  attributeLadderRung seed A C maxScan = Ok (rung, st) →
  rung_keyMultibase rung ∈ A' →
  (∀ s, s ∈ scanned → rung_keyMultibase s.1 ∈ A' → rung_keyMultibase s.1 ∈ A ∨ s.1 = rung) →
  (∀ s, s ∈ scanned → s.2 ∈ C' → s.2 ∈ C ∨ s.1 = rung ∨ s.2 ∈ commits) →
  (∀ s s', s ∈ scanned → s' ∈ scanned → s.2 ∈ commits → s'.2 ∈ commits → s = s') →
  (st = revealed_rung → ∀ s, s ∈ scanned → s.2 ∉ commits) →
  attributeLadderRung seed A' C' maxScan = Ok (rung, revealed_rung).
Proof.
  intros Hsc Hnd Ha Hr HA HC Hone Hnone.
  destruct (attribution_cases _ _ _ _ _ _ _ Hsc Ha) as [[hash Hin] Hcases].
  assert (NoDup scanned) as Hnds by by apply (NoDup_fmap_1 (λ s, rung_keyMultibase s.1)).
  assert (∀ s, s ∈ scanned → s.1 = rung → s = (rung, hash)) as Heq.
  { intros s Hs Hsr. apply (scanned_distinct s (rung, hash) Hnd Hs Hin). by rewrite Hsr. }
  assert (∀ s, s ∈ scanned → rung_keyMultibase s.1 ∈ A → s = (rung, hash)) as HinA.
  { intros s Hs HsA. apply Heq; [done|]. destruct st.
    - destruct Hcases as [Hrev _]. assert (s.1 ∈ revealedRungs A scanned) as Hx; [|rewrite Hrev in Hx; by apply elem_of_nil in Hx].
      unfold revealedRungs. apply list_elem_of_fmap_2, list_elem_of_filter. done.
    - destruct Hcases as [Hrev _]. assert (s.1 ∈ revealedRungs A scanned) as Hx; [|rewrite Hrev in Hx; by apply list_elem_of_singleton in Hx].
      unfold revealedRungs. apply list_elem_of_fmap_2, list_elem_of_filter. done. }
  assert (revealedRungs A' scanned = [rung]) as Hrev.
  { unfold revealedRungs. rewrite (filter_only _ _ (rung, hash)); [done|done|done|].
    intros s Hs. split; [|by intros ->]. intros [HsA|Hsr]%HA; [by apply HinA|by apply Heq|done]. }
  assert (length (committedRungs A' C' scanned) ≤ 1) as Hcom.
  { unfold committedRungs. rewrite length_fmap. apply filter_short; [done|].
    assert (∀ s, s ∈ scanned → rung_keyMultibase s.1 ∉ A' → s.2 ∈ C' →
      s.2 ∈ commits ∨ (st = revealed_rung ∧ s.1 ∈ committedRungs A C scanned)) as Hold.
    { intros s Hs Hk Hh. destruct (HC s Hs Hh) as [HsC|[Hsr|]]; [|by destruct Hk; rewrite Hsr|by left].
      assert (s.1 ∈ committedRungs A C scanned) as Hmem.
      { unfold committedRungs. apply list_elem_of_fmap_2, list_elem_of_filter. split_and!; [|done..].
        intros HsA. destruct Hk. by rewrite (HinA s Hs HsA). }
      destruct st; [|by right]. destruct Hcases as [_ Hc]. rewrite Hc in Hmem. apply list_elem_of_singleton in Hmem.
      destruct Hk. by rewrite Hmem. }
    intros s s' Hs Hs' [Hk Hh] [Hk' Hh'].
    destruct (Hold s Hs Hk Hh) as [H1|[-> H1]], (Hold s' Hs' Hk' Hh') as [H2|[Hst H2]].
    - by apply Hone.
    - by destruct (Hnone Hst s Hs).
    - by destruct (Hnone eq_refl s' Hs').
    - apply (scanned_distinct s s' Hnd Hs Hs'). f_equal. destruct Hcases as [_ Hlen].
      destruct (committedRungs A C scanned) as [|c [|]]; [by apply elem_of_nil in H1| |cbn in Hlen; lia].
      apply list_elem_of_singleton in H1 as ->. by apply list_elem_of_singleton in H2 as ->. }
  unfold attributeLadderRung. rewrite Hsc. cbn. rewrite Hrev.
  destruct (committedRungs A' C' scanned) as [|c [|]]; [done..|cbn in Hcom; lia].
Qed.
End resume.

(** C23: the ladder arm's round trip with the log. An entry a ladder signs
    under the rung the log committed, from a build that states no rung of the
    ladder and commits at most one (none, when the rung already stood
    revealed), puts the log in a state whose attribution gives that same rung
    back, revealed: a ceremony torn after its entry resumes on the rung it
    spent. *)
Theorem revealed_rung_resumes {writer : WebvhWriter} {hashes : HashLibrary} {keys : WebvhKeys}
    `{!Inj (=) (=) deriveNextKeyHash} seed published parts verb fields signed scanned :
  deriveLadderRungs seed LADDER_MAX_SCAN = Ok scanned → NoDup ((λ s, rung_keyMultibase s.1) <$> scanned) →
  attributeParts (LogSigner (ladder seed)) published = Ok (Some parts) →
  signedParameters (LogSigner (ladder seed)) (Some parts) published verb fields = Ok signed →
  (∀ s, s ∈ scanned → rung_keyMultibase s.1 ∈ default [] (ef_updateKeys fields) →
     rung_keyMultibase s.1 ∈ pub_updateKeys published) →
  (∀ s, s ∈ scanned → s.2 ∈ default [] (ef_nextKeyHashes fields) → s.2 ∈ pub_nextKeyHashes published) →
  (∀ s s', s ∈ scanned → s' ∈ scanned → s.2 ∈ default [] (ef_commitHashes fields) →
     s'.2 ∈ default [] (ef_commitHashes fields) → s = s') →
  (part_state parts = revealed_rung → ∀ s, s ∈ scanned → s.2 ∉ default [] (ef_commitHashes fields)) →
  attributeLadderRung seed (sp_updateKeys signed) (sp_nextKeyHashes signed) LADDER_MAX_SCAN =
    Ok (part_rung parts, revealed_rung).
Proof.
  intros Hsc Hnd Hp Hs HA HC Hone Hnone. unfold attributeParts in Hp. rewrite result_bind_ok in Hp.
  destruct Hp as ([rung st] & Ha & [= <-]). cbn in Hs, Hnone |- *.
  rewrite result_bind_ok in Hs. destruct Hs as (s & _ & [= <-]). cbn.
  eapply (resumed_attribution _ _ _ _ _ _ _ _ _ (default [] (ef_commitHashes fields)) Hsc Hnd Ha).
  - rewrite elem_of_js_dedup. set_solver.
  - intros [r h] Hr. cbn. rewrite elem_of_js_dedup, elem_of_app, list_elem_of_singleton. intros [Hk|Hk].
    + left. destruct (ef_updateKeys fields) as [ks|] eqn:Hf; [|exact Hk]. apply (HA (r, h) Hr). exact Hk.
    + right. destruct (attribution_cases _ _ _ _ _ _ _ Hsc Ha) as [[hash Hin] _].
      by injection (scanned_distinct (r, h) (rung, hash) Hnd Hr Hin Hk).
  - intros [r h] Hr. cbn. rewrite elem_of_js_dedup, elem_of_app, elem_of_cons. intros [Hk|[Hk|Hk]]; [..|by auto].
    + left. destruct (ef_nextKeyHashes fields) as [hs|] eqn:Hf; [|exact Hk]. apply (HC (r, h) Hr). exact Hk.
    + right. left. destruct (derived_rungs _ _ _ Hsc (r, h) Hr) as [_ Hh]. cbn in Hh. subst h.
      assert (rung_keyMultibase r = rung_keyMultibase rung) as Heq by by apply (inj deriveNextKeyHash). destruct (attribution_cases _ _ _ _ _ _ _ Hsc Ha) as [[hash Hin] _].
      by injection (scanned_distinct _ (rung, hash) Hnd Hr Hin Heq).
  - exact Hone.
  - exact Hnone.
Qed.
