(* ===== verification/EntryDemo.v ===== *)
(** * A concrete enrollment, and a ladder that resumes

    A store that refuses a put whose validator is not the served text's, an
    enrollment through one lost race, and a rung found again after the entry
    it signed. *)

From S2P Require Import Prelude Json JsText CeremonyEvents AccountDocument LadderRungs LadderDemo AccountLog LogStore KeyRotation LadderIndex LadderInventory ClientListing ClientRevocation AccountEntry ClientDemo EntryDiscipline.

Module EntryDemo.
Import ClientDemo.

#[export] Instance twins : TwinLibrary := {| x25519RecipientFromDidKey did := Ok ("x" ++ slice_from 8 did)%string |}.

Definition stated (A C : list string) : DIDLogEntry := step "next" "u" A C (account_doc ["c1"] []).
Definition log0 : DIDLog := [step "1" "u" ["u"] ["#u"; "#s"] (account_doc ["c1"] [])].
Definition log1 : DIDLog := log0 ++ [stated ["u"] ["#u"; "#s"; "#p"; "#q"]].
Definition log2 : DIDLog := log1 ++ [stated ["u"; "p"] ["#u"; "#s"; "#p"; "#q"]].

(** The texts of the three logs; no other log is one the store takes. *)
Definition text_of (log : DIDLog) : string :=
  if decide (currentLogParameters log = currentLogParameters log0) then "0"
  else if decide (currentLogParameters log = currentLogParameters log1) then "1"
  else if decide (currentLogParameters log = currentLogParameters log2) then "2" else "other".
Definition log_of (text : string) : option DIDLog :=
  if decide (text = "0") then Some log0 else if decide (text = "1") then Some log1
  else if decide (text = "2") then Some log2 else None.

#[export] Instance store_writer : WebvhWriter := {|
  WebDoc := ();
  Signer := string;
  logToJsonlString := text_of;
  generateParallelDidWeb _ _ := ();
  updateKeyMultibase seed := Ok seed;
  updateKeySigner seed := Ok seed
|}.

#[export] Instance resolver : WebvhResolver := {|
  readLogFromString text := match log_of text with Some log => Ok log | None => Throw (plain_error "unreadable") end;
  resolveDIDFromLog log :=
    Ok (mkResolution (Some did) (Some (account_doc ["c1"] []))
      (mkMeta None (Some (currentLogParameters log).1) (Some (currentLogParameters log).2)))
|}.

Definition updateDID : UpdateDID := λ log _ _ _ _ A C,
  Ok (mkUpdated did (account_doc ["c1"; "c2"] []) (log ++ [stated A C]) (mkMeta None (Some A) (Some C)) (Some tt)).

(** ** The store *)

Record world := mkWorld { served : string; races : nat; local : option concluded_head }.
#[export] Instance local_cell : Cell world (option concluded_head) :=
  {| get_cell := local; set_cell head w := mkWorld (served w) (races w) head |}.
#[export] Instance local_laws : CellLaws world (option concluded_head).
Proof. by intros w s. Qed.

Definition put (write : PutIdResource) : comp world (option (option string)) := λ w,
  match put_content write with
  | WebDocument _ => (Ok None, w)
  | LogText text =>
      if decide (races w ≠ 0) then (Throw (JsError "PreconditionFailedError" ""), mkWorld (served w) (pred (races w)) (local w))
      else if decide (put_ifMatch write ≠ Some (served w)) then (Throw (JsError "PreconditionFailedError" ""), w)
      else if decide (log_of text = None) then (Throw (plain_error "refused"), w)
      else (Ok (Some (Some text)), mkWorld text (races w) (local w))
  end.
Definition idStore : WebvhIdStore world :=
  mkIdStore (λ _ w, (Ok (Some (served w, Some (served w))), w)) put (mkPinStore (λ _, mret None) (λ _ _, mret ())) "id".

Definition newClient : WebvhEnrollmentKeys := mkEnrollment "c2" "xc2" "p" "q".
Definition signer : AccountLogSigner := enrolled (mkUpdateKeys "u" "s" None).
Definition silent : Logger world := λ _, mret ().

Definition params_of (text : string) : list string * list string := from_option currentLogParameters ([], []) (log_of text).
(** The first client can go on. *)
Definition first_able (w : world) : Prop := "u" ∈ (params_of (served w)).1 ∧ "#u" ∈ (params_of (served w)).2.
(** A head is what the text its validator names says. *)
Definition read_from (published : PublishedWebvhLog) : Prop :=
  ∃ text, pub_etag published = Some text ∧
    (pub_updateKeys published, pub_nextKeyHashes published) = params_of text.

Lemma text_params log : log_of (text_of log) ≠ None → params_of (text_of log) = currentLogParameters log.
Proof.
  unfold params_of, text_of. repeat case_decide; intros H'; [..|by destruct H'].
  - change (log_of "0") with (Some log0). cbn -[currentLogParameters]. done.
  - change (log_of "1") with (Some log1). cbn -[currentLogParameters]. done.
  - change (log_of "2") with (Some log2). cbn -[currentLogParameters]. done.
Qed.

Lemma environment : enrollment_environment updateDID silent first_able read_from idStore signer newClient.
Proof.
  constructor.
  - intros v w [Hv Hi]. cbn. split; [|done]. intros text etag log published [= <- <-] Hlog Hr.
    exists (served w). unfold resolvedHead in Hr. cbn -[currentLogParameters] in Hr, Hlog.
    destruct (log_of (served w)) as [log'|] eqn:Hs; [|done]. injection Hlog as <-. injection Hr as <-.
    split; [done|]. unfold params_of. rewrite Hs. cbn -[currentLogParameters]. by destruct (currentLogParameters log').
  - intros id v w Hw. exact Hw.
  - intros id pin v w Hw. exact Hw.
  - intros event v w Hw. exact Hw.
  - intros doc v w Hw. exact Hw.
  - intros published updated (text & Hetag & Hp) Hadd v w [Hv Hi].
    destruct Hadd as (key & s & doc & A & C & _ & Hu & _ & HA & HC & _). injection Hu as <-.
    unfold log_put, idStore, put. cbn -[log_of text_of]. case_decide; [by split|]. case_decide as He; [by split|].
    case_decide as Ht; [by split|]. split; [done|]. unfold first_able. cbn [served].
    rewrite (text_params _ Ht). unfold currentLogParameters, effectiveParameters.
    rewrite (Demo.effective_last _ _ _ _ A C) by done. cbn.
    destruct (decide (pub_etag published = Some (served w))) as [Heq|]; [|by destruct He].
    rewrite Hetag in Heq. injection Heq as ->. destruct Hi as [Hi1 Hi2]. rewrite <- Hp in Hi1, Hi2. split; [by apply HA|by apply HC].
  - intros v w Hw. exact Hw.
Qed.

Definition enroll : comp world (string * DIDLog) := enrollWebvhClient updateDID silent idStore signer newClient None.

Lemma enrollment_only_adds_witness :
  match enroll (mkWorld "0" 1 None) with
  | (Ok (resolved, log), w) =>
      authorizes_client updateDID newClient resolved log ∧ first_able w ∧ served w = "2" ∧ resolved = did
  | _ => False
  end.
Proof.
  pose proof (enrollment_only_adds updateDID silent first_able read_from idStore signer newClient None environment
    (mkWorld "0" 1 None) ltac:(split; apply (bool_decide_eq_true_1 _); by vm_compute)) as H.
  assert (match enroll (mkWorld "0" 1 None) with (Ok (resolved, _), w) => (resolved, served w) | _ => ("", "") end =
    (did, "2")) as Hrun by (vm_compute; reflexivity).
  unfold enroll in *. destruct (enrollWebvhClient _ _ _ _ _ _ _) as [[[resolved log]|e] w]; [|done].
  injection Hrun as -> Hs. destruct H as [Ha Hi]. by split_and!.
Defined.

(** ** A rung that resumes *)

Definition head : PublishedWebvhLog :=
  mkPublished log0 did (account_doc ["c1"] []) ["u"] ["#u"; "#s"; "#L/rung/0"] (mkMeta None None None) None.
Definition rung0 : LadderRung := mkRung 0 "L/rung/0" "L/rung/0".
Definition fields : AccountEntryFields := mkEntryFields None None (Some ["#p"; "#q"; "#L/rung/1"]) None None.
Definition scanned : list (LadderRung * string) :=
  match deriveLadderRungs "L" LADDER_MAX_SCAN with Ok scanned => scanned | Throw _ => [] end.

Lemma revealed_rung_resumes_witness :
  attributeLadderRung "L" ["u"; "L/rung/0"] ["#u"; "#s"; "#L/rung/0"; "#p"; "#q"; "#L/rung/1"] LADDER_MAX_SCAN =
    Ok (rung0, revealed_rung).
Proof.
  refine (revealed_rung_resumes "L" head (mkParts rung0 "#L/rung/0" committed_rung) "enrolling" fields
    (mkSigned "L/rung/0" ["u"; "L/rung/0"] ["#u"; "#s"; "#L/rung/0"; "#p"; "#q"; "#L/rung/1"]) scanned _ _ _ _ _ _ _ _).
  - by vm_compute.
  - apply (bool_decide_eq_true_1 _). by vm_compute.
  - by vm_compute.
  - by vm_compute.
  - intros s _ Hs. by apply elem_of_nil in Hs.
  - intros s _ Hs. by apply elem_of_nil in Hs.
  - intros s s' Hs Hs' Hh Hh'.
    assert (Forall (λ s : LadderRung * string, s.2 ∈ ["#p"; "#q"; "#L/rung/1"] → s = (mkRung 1 "L/rung/1" "L/rung/1", "#L/rung/1"))
      scanned) as Hone by (apply (bool_decide_eq_true_1 _); by vm_compute).
    rewrite Forall_forall in Hone. by rewrite (Hone s Hs Hh), (Hone s' Hs' Hh').
  - done.
Defined.
End EntryDemo.
