(* ===== verification/Descriptors.v ===== *)
(** * Epoch descriptors and their stores

    The vocabulary the user key roster and every encrypted collection share:
    the storage client's descriptor (its key epochs and whom each epoch is
    wrapped to), the store seam a descriptor is read and replaced through, the
    sealable store of [src/src/keys/rosterLogStore.ts], and the guards of
    [src/src/keys/userKeyRoster.ts] every reader of a descriptor goes
    through. The storage client's recipient operations are a parameter; what
    the program relies on of them is [EpochLibraryLaws]. *)

From S2P Require Import Prelude AccountDocument ResourceController.

(** ** Data of the storage client *)

(** An epoch's wrap: the key id it is wrapped to, and the wrapped secret. *)
Record EpochRecipient := mkWrap { header_kid : string; encrypted_key : string }.
Record CollectionEncryptionEpoch := mkEpoch { epoch_id : string; epoch_recipients : list EpochRecipient }.
Record CollectionEncryption := mkDescriptor {
  currentEpoch : option string;
  epochs : option (list CollectionEncryptionEpoch)
}.
Record RecipientPublicKey := mkRecipient { recipient_id : string; recipient_key : string }.
Record KeyAgreementKey := mkKeyAgreement { kak_id : string; kak_secret : string }.

(** [UserKey] of [src/src/keys/userKey.ts]. *)
Record UserKey := mkUserKey { userKey_id : string; userKey_secret : string }.

#[export] Instance EpochRecipient_eq_dec : EqDecision EpochRecipient. Proof. solve_decision. Defined.
#[export] Instance Epoch_eq_dec : EqDecision CollectionEncryptionEpoch. Proof. solve_decision. Defined.
#[export] Instance CollectionEncryption_eq_dec : EqDecision CollectionEncryption. Proof. solve_decision. Defined.
#[export] Instance RecipientPublicKey_eq_dec : EqDecision RecipientPublicKey. Proof. solve_decision. Defined.
#[export] Instance UserKey_eq_dec : EqDecision UserKey. Proof. solve_decision. Defined.

(** [(descriptor.epochs ?? [])]. *)
Definition epochList (descriptor : CollectionEncryption) : list CollectionEncryptionEpoch := default [] (epochs descriptor).
Definition epochIds (descriptor : CollectionEncryption) : list string := epoch_id <$> epochList descriptor.

(** Whom an epoch is wrapped to, in order. *)
Definition wrappedKids (epoch : CollectionEncryptionEpoch) : list string := header_kid <$> epoch_recipients epoch.

(** [xs.find(p)]. *)
Definition find_first {A} (p : A → bool) (xs : list A) : option A := snd <$> list_find (λ x, p x = true) xs.

Lemma find_first_Some {A} (p : A → bool) xs x : find_first p xs = Some x → x ∈ xs ∧ p x = true.
Proof.
  unfold find_first. destruct (list_find _ xs) as [[i y]|] eqn:Hf; [|done]. intros [= ->].
  apply list_find_Some in Hf as (Hi & Hp & _). split; [by eapply list_elem_of_lookup_2|done].
Qed.

Lemma find_first_None {A} (p : A → bool) xs : find_first p xs = None ↔ ∀ x, x ∈ xs → p x = false.
Proof.
  unfold find_first. rewrite fmap_None, list_find_None, Forall_forall. split.
  - intros H x Hx. apply not_true_is_false. auto.
  - intros H x Hx. by rewrite H.
Qed.

(** ** Refusals *)

Definition UserKeyRosterIntegrityError (message : string) : js_error := JsError "UserKeyRosterIntegrityError" message.
Definition UserKeyRosterContinuityError (pinnedEpochId : string) : js_error :=
  JsError "UserKeyRosterContinuityError" ("The user key roster no longer carries the epoch this client has pinned -- a rolled-back or replayed roster." ++ pinnedEpochId).
Definition UserKeyRosterUnwrapError (message : string) : js_error := JsError "UserKeyRosterUnwrapError" message.

(** ** Reading a descriptor *)

Definition currentEpochOf (descriptor : CollectionEncryption) (label : string) : result CollectionEncryptionEpoch :=
  match find_first (λ epoch, bool_decide (Some (epoch_id epoch) = currentEpoch descriptor)) (epochList descriptor) with
  | Some epoch => Ok epoch
  | None => mthrow (UserKeyRosterIntegrityError (label ++ " names no current epoch in its own epoch list."))
  end.

Definition rosterWrapsRecipient (descriptor : CollectionEncryption) (recipientId : string) : result bool :=
  epoch ← currentEpochOf descriptor "The user key roster";
  Ok (bool_decide (recipientId ∈ wrappedKids epoch)).

Lemma currentEpochOf_ok descriptor label epoch :
  currentEpochOf descriptor label = Ok epoch →
  epoch ∈ epochList descriptor ∧ currentEpoch descriptor = Some (epoch_id epoch).
Proof.
  unfold currentEpochOf. destruct (find_first _ _) as [e|] eqn:He; [|done]. intros [= ->].
  apply find_first_Some in He as [Hin Hp%bool_decide_eq_true]. done.
Qed.

(** A client's roster id. *)
Definition rosterRecipientKid (signingKeyMultibase keyAgreementKeyMultibase : string) : string :=
  "did:key:" ++ signingKeyMultibase ++ "#" ++ keyAgreementKeyMultibase.

(** ** The store seam *)

Record DescriptorStoreRead := mkRead { read_descriptor : CollectionEncryption; read_etag : option string }.
#[export] Instance DescriptorStoreRead_eq_dec : EqDecision DescriptorStoreRead. Proof. solve_decision. Defined.

(** The members of a store; a sealable one has the last two. *)
Record EncryptionDescriptorStore (W : Type) := mkDescriptorStore {
  store_read : comp W (option DescriptorStoreRead);
  store_replace : CollectionEncryption → option string → comp W ();
  store_create : option (CollectionEncryption → comp W ());
  store_seal : option (comp W bool);
  store_setMinimum : option (WebvhResourceLogController → comp W ())
}.
Arguments mkDescriptorStore {W}.
Arguments store_read {W}.
Arguments store_replace {W}.
Arguments store_create {W}.
Arguments store_seal {W}.
Arguments store_setMinimum {W}.

(** Both members are probed. A [seal] resolves to whether it sealed. *)
Definition isSealableDescriptorStore {W} (store : EncryptionDescriptorStore W) :
    option (comp W bool * (WebvhResourceLogController → comp W ())) :=
  match store_seal store, store_setMinimum store with
  | Some seal, Some setMinimum => Some (seal, setMinimum)
  | _, _ => None
  end.

(** ** The storage client's recipient operations *)

Class EpochLibrary := {
  initRecipients {W} : EncryptionDescriptorStore W → list RecipientPublicKey → UserKey → comp W CollectionEncryption;
  addRecipient {W} : EncryptionDescriptorStore W → RecipientPublicKey → KeyAgreementKey → comp W CollectionEncryption;
  removeRecipient {W} : EncryptionDescriptorStore W → string → (string → option RecipientPublicKey) → comp W () →
    comp W CollectionEncryption;
  replaceRecipient {W} : EncryptionDescriptorStore W → list string → list RecipientPublicKey → KeyAgreementKey →
    (string → option RecipientPublicKey) → comp W () → comp W CollectionEncryption;
  unwrapEpochSecret : EpochRecipient → KeyAgreementKey → result (option string);
  ownerRecipient : KeyAgreementKey → result RecipientPublicKey;
  epochKeyIdFor : string → string;
  hasKeyEpochs : CollectionEncryption → bool;
  trustRosterDidKeys : string → option RecipientPublicKey;
  fromRawSecret : string → string → string → result KeyAgreementKey
}.

(** Whom the current epoch is wrapped to. *)
Definition currentKids (descriptor : CollectionEncryption) : list string :=
  match currentEpochOf descriptor "" with Ok epoch => wrappedKids epoch | Throw _ => [] end.

(** One run of a recipient operation: it reads, builds on what it read, and
    replaces under the validator of that read; a lost race reads again, and a
    descriptor that needs nothing is returned as it stands. *)
Inductive recipientRun {W} (store : EncryptionDescriptorStore W)
    (built : CollectionEncryption → CollectionEncryption → Prop) (standing : CollectionEncryption → Prop) :
    W → result CollectionEncryption → W → Prop :=
  | run_written w base etag w1 next w2 :
      store_read store w = (Ok (Some (mkRead base etag)), w1) → built base next →
      store_replace store next etag w1 = (Ok (), w2) →
      recipientRun store built standing w (Ok next) w2
  | run_standing w base etag w1 :
      store_read store w = (Ok (Some (mkRead base etag)), w1) → standing base →
      recipientRun store built standing w (Ok base) w1
  | run_rebased w base etag w1 next err w2 r w3 :
      store_read store w = (Ok (Some (mkRead base etag)), w1) →
      store_replace store next etag w1 = (Throw err, w2) →
      recipientRun store built standing w2 r w3 →
      recipientRun store built standing w r w3
  | run_refused w base etag w1 next err w2 :
      store_read store w = (Ok (Some (mkRead base etag)), w1) →
      store_replace store next etag w1 = (Throw err, w2) →
      recipientRun store built standing w (Throw err) w2
  | run_failed w read w1 err :
      store_read store w = (read, w1) → recipientRun store built standing w (Throw err) w1.

(** The recipients are wrapped into every epoch, and nothing else changes. *)
Definition escrowsEpoch (incoming : list string) (e e' : CollectionEncryptionEpoch) : Prop :=
  epoch_id e' = epoch_id e ∧ ∀ kid, kid ∈ wrappedKids e' ↔ kid ∈ wrappedKids e ∨ kid ∈ incoming.
Definition Escrowed (incoming : list string) (base next : CollectionEncryption) : Prop :=
  currentEpoch next = currentEpoch base ∧ Forall2 (escrowsEpoch incoming) (epochList base) (epochList next).

(** A fresh epoch is appended and made current; it is wrapped to the incoming
    recipients and to those of the current ones that are not retired and whom
    the resolver vouches for. *)
Definition Rotated (retire : list string) (vouched : string → option RecipientPublicKey) (incoming : list string)
    (base next : CollectionEncryption) : Prop :=
  ∃ older fresh,
    epochList next = older ++ [fresh] ∧ Forall2 (escrowsEpoch incoming) (epochList base) older ∧
    epoch_id fresh ∉ epochIds base ∧ currentEpoch next = Some (epoch_id fresh) ∧
    ∀ kid, kid ∈ wrappedKids fresh ↔
      (kid ∈ currentKids base ∧ kid ∉ retire ∧ is_Some (vouched kid)) ∨ kid ∈ incoming.

(** What the program relies on. Removing a recipient the current epoch does
    not wrap writes nothing; replacing where none of the retired is wrapped
    escrows only. *)
Class EpochLibraryLaws {library : EpochLibrary} : Prop := {
  addRecipient_run {W} (store : EncryptionDescriptorStore W) recipient owner w :
    recipientRun store (Escrowed [recipient_id recipient])
      (λ base, ∀ epoch, epoch ∈ epochList base → recipient_id recipient ∈ wrappedKids epoch)
      w (addRecipient store recipient owner w).1 (addRecipient store recipient owner w).2;
  removeRecipient_run {W} (store : EncryptionDescriptorStore W) retire vouched w :
    recipientRun store (λ base, Rotated [retire] vouched [] base) (λ base, retire ∉ currentKids base)
      w (removeRecipient store retire vouched (mret ()) w).1 (removeRecipient store retire vouched (mret ()) w).2;
  replaceRecipient_run {W} (store : EncryptionDescriptorStore W) retire recipients owner vouched w :
    recipientRun store
      (λ base next, if decide (Exists (λ kid, kid ∈ currentKids base) retire)
                    then Rotated retire vouched (recipient_id <$> recipients) base next
                    else Escrowed (recipient_id <$> recipients) base next)
      (λ base, ¬ Exists (λ kid, kid ∈ currentKids base) retire)
      w (replaceRecipient store retire recipients owner vouched (mret ()) w).1
      (replaceRecipient store retire recipients owner vouched (mret ()) w).2;
  epochKeyIdFor_inj : Inj (=) (=) epochKeyIdFor;
  hasKeyEpochs_epochs descriptor : epochList descriptor ≠ [] → hasKeyEpochs descriptor = true
}.

(** ** What the operations do to the epoch list *)

Lemma currentEpochOf_label descriptor label epoch :
  currentEpochOf descriptor label = Ok epoch → currentKids descriptor = wrappedKids epoch.
Proof. unfold currentKids, currentEpochOf. by destruct (find_first _ _); intros [= ->]. Qed.

(** The first epoch of the current id decides, however the lists are built. *)
Lemma currentEpochOf_app descriptor older fresh label :
  epochList descriptor = older ++ [fresh] → currentEpoch descriptor = Some (epoch_id fresh) →
  epoch_id fresh ∉ (epoch_id <$> older) → currentEpochOf descriptor label = Ok fresh.
Proof.
  intros Hl Hc Hn. unfold currentEpochOf. rewrite Hl, Hc. unfold find_first.
  rewrite list_find_app_r; cbn.
  - by rewrite bool_decide_true.
  - apply list_find_None, Forall_forall. intros e He Hb%bool_decide_eq_true. injection Hb as Hb.
    apply Hn. rewrite <- Hb. by apply list_elem_of_fmap_2.
Qed.

Lemma escrowed_ids incoming base next :
  Forall2 (escrowsEpoch incoming) base next → epoch_id <$> next = epoch_id <$> base.
Proof. induction 1 as [|e e' es es' [Hid _] _ IH]; cbn; [done|]. by rewrite Hid, IH. Qed.

Lemma Escrowed_epochIds incoming base next : Escrowed incoming base next → epochIds next = epochIds base.
Proof. intros [_ H]. by eapply escrowed_ids. Qed.

Lemma Rotated_epochIds retire vouched incoming base next :
  Rotated retire vouched incoming base next → ∃ fresh, epochIds next = epochIds base ++ [fresh] ∧
    fresh ∉ epochIds base ∧ currentEpoch next = Some fresh.
Proof.
  intros (older & fresh & Hl & Ho & Hn & Hc & _). exists (epoch_id fresh). split_and!; [|done..].
  unfold epochIds. rewrite Hl, fmap_app. by rewrite (escrowed_ids _ _ _ Ho).
Qed.

Lemma Rotated_current retire vouched incoming base next label :
  Rotated retire vouched incoming base next → ∃ fresh, currentEpochOf next label = Ok fresh ∧
    ∀ kid, kid ∈ wrappedKids fresh ↔
      (kid ∈ currentKids base ∧ kid ∉ retire ∧ is_Some (vouched kid)) ∨ kid ∈ incoming.
Proof.
  intros (older & fresh & Hl & Ho & Hn & Hc & Hk). exists fresh. split; [|done].
  eapply currentEpochOf_app; [done..|]. by rewrite (escrowed_ids _ _ _ Ho).
Qed.

Lemma escrowed_find incoming current es es' :
  Forall2 (escrowsEpoch incoming) es es' →
  match find_first (λ epoch, bool_decide (Some (epoch_id epoch) = current)) es,
        find_first (λ epoch, bool_decide (Some (epoch_id epoch) = current)) es' with
  | Some e, Some e' => escrowsEpoch incoming e e'
  | None, None => True
  | _, _ => False
  end.
Proof.
  unfold find_first. induction 1 as [|e e' es es' He Hes IH]; [done|]. cbn.
  destruct He as [Hid Hk]. rewrite Hid.
  destruct (bool_decide_reflect (Some (epoch_id e) = current)) as [Hc|Hc]; cbn; [by split|].
  by destruct (list_find _ es) as [[i x]|], (list_find _ es') as [[j y]|].
Qed.

Lemma Escrowed_current incoming base next label epoch :
  Escrowed incoming base next → currentEpochOf base label = Ok epoch →
  ∃ epoch', currentEpochOf next label = Ok epoch' ∧ escrowsEpoch incoming epoch epoch'.
Proof.
  intros [Hc Hf] He. unfold currentEpochOf in *. rewrite Hc.
  pose proof (escrowed_find incoming (currentEpoch base) _ _ Hf) as Hm.
  destruct (find_first _ (epochList base)) as [e|]; [|done]. injection He as ->.
  destruct (find_first _ (epochList next)) as [e'|]; [|done]. eauto.
Qed.

(** Escrowing twice is escrowing both. *)
Lemma escrowed_trans xs ys es es' es'' :
  Forall2 (escrowsEpoch xs) es es' → Forall2 (escrowsEpoch ys) es' es'' → Forall2 (escrowsEpoch (xs ++ ys)) es es''.
Proof.
  intros H. revert es''. induction H as [|e e' es es' [Hid Hk] _ IH]; intros es'' H''; inversion H'' as [|? e'' ? ? [Hid' Hk'] H2]; subst; constructor; [|by apply IH].
  split; [congruence|]. intros kid. rewrite Hk', Hk, elem_of_app. tauto.
Qed.
Lemma Escrowed_trans xs ys a b c : Escrowed xs a b → Escrowed ys b c → Escrowed (xs ++ ys) a c.
Proof. intros [Hc Hf] [Hc' Hf']. split; [congruence|]. by eapply escrowed_trans. Qed.
Lemma Escrowed_nil a : Escrowed [] a a.
Proof.
  split; [done|]. induction (epochList a); constructor; [|done]. split; [done|].
  intros kid. split; [by left|]. by intros [|[]%elem_of_nil].
Qed.
(** Recipients that stand in every epoch already. *)
Lemma Escrowed_standing kid a : (∀ epoch, epoch ∈ epochList a → kid ∈ wrappedKids epoch) → Escrowed [kid] a a.
Proof.
  intros Hk. split; [done|]. apply Forall_Forall2_diag, Forall_forall. intros e He. split; [done|].
  intros k. rewrite list_elem_of_singleton. split; [by left|]. intros [| ->]; auto.
Qed.

(** ** Quiet stores *)

(** What each store of a world holds; a store is quiet at its key when only
    its own accepted writes change what it holds. *)
Class QuietStore {W K} `{!EqDecision K} (held : W → K → option DescriptorStoreRead) (k : K)
    (store : EncryptionDescriptorStore W) : Prop := {
  quiet_read w : ∃ w', store_read store w = (Ok (held w k), w') ∧ ∀ k', held w' k' = held w k';
  quiet_replace w next etag :
    (∀ k', k' ≠ k → held (store_replace store next etag w).2 k' = held w k') ∧
    match store_replace store next etag w with
    | (Ok _, w') => ∃ etag', held w' k = Some (mkRead next etag')
    | (Throw _, w') => held w' k = held w k
    end
}.

Section quiet.
Context {W K : Type} `{!EqDecision K} (held : W → K → option DescriptorStoreRead) (k : K).
Context (store : EncryptionDescriptorStore W) `{!QuietStore held k store}.

(** What a run leaves: another store's descriptor never moves, a throw leaves
    this one's too, and a return is of what the store then holds. *)
Definition run_leaves (built : CollectionEncryption → CollectionEncryption → Prop) (standing : CollectionEncryption → Prop)
    (base : CollectionEncryption) (w : W) (r : result CollectionEncryption) (w' : W) : Prop :=
  (∀ k', k' ≠ k → held w' k' = held w k') ∧
  match r with
  | Ok next => (built base next ∧ ∃ etag', held w' k = Some (mkRead next etag')) ∨
               (standing base ∧ next = base ∧ held w' k = held w k)
  | Throw _ => held w' k = held w k
  end.

Lemma quiet_read_is w r w1 : store_read store w = (Ok r, w1) → r = held w k ∧ ∀ k', held w1 k' = held w k'.
Proof. intros H. destruct (quiet_read (K:=K) (held:=held) (k:=k) (store:=store) w) as (w' & Hr & Hs). rewrite H in Hr. by simplify_eq. Qed.

Lemma quiet_read_any w r w1 : store_read store w = (r, w1) → ∀ k', held w1 k' = held w k'.
Proof. intros H. destruct (quiet_read (K:=K) (held:=held) (k:=k) (store:=store) w) as (w' & Hr & Hs). rewrite H in Hr. by simplify_eq. Qed.

Lemma quiet_written w next etag w1 u :
  store_replace store next etag w = (Ok u, w1) →
  (∀ k', k' ≠ k → held w1 k' = held w k') ∧ ∃ etag', held w1 k = Some (mkRead next etag').
Proof. intros H. pose proof (quiet_replace (held:=held) (k:=k) (store:=store) w next etag) as [Hf Hs]. by rewrite H in Hf, Hs. Qed.

Lemma quiet_refused w next etag w1 err :
  store_replace store next etag w = (Throw err, w1) → ∀ k', held w1 k' = held w k'.
Proof.
  intros H. pose proof (quiet_replace (held:=held) (k:=k) (store:=store) w next etag) as [Hf Hs]. rewrite H in Hf, Hs.
  intros k'. destruct (decide (k' = k)) as [->|]; auto.
Qed.

Lemma quiet_run built standing base etag w r w' :
  held w k = Some (mkRead base etag) → recipientRun store built standing w r w' →
  run_leaves built standing base w r w'.
Proof.
  intros Hh Hr. induction Hr as [w b e w1 next w2 Hread Hb Hw|w b e w1 Hread Hs|w b e w1 next err w2 r w3 Hread Hw Hrun IH|w b e w1 next err w2 Hread Hw|w read w1 err Hread].
  - apply quiet_read_is in Hread as [Heq Hf]. rewrite Hh in Heq. simplify_eq.
    apply quiet_written in Hw as [Hf' He]. split; [intros; by rewrite Hf', Hf|]. left. split; [done|done].
  - apply quiet_read_is in Hread as [Heq Hf]. rewrite Hh in Heq. simplify_eq. split; [auto|]. right. auto.
  - pose proof (quiet_refused _ _ _ _ _ Hw) as Hf2. pose proof (quiet_read_any _ _ _ Hread) as Hf1.
    destruct IH as [Hf3 Hr3]; [by rewrite Hf2, Hf1|]. split; [intros; by rewrite Hf3, Hf2, Hf1|].
    by rewrite Hf2, Hf1 in Hr3.
  - pose proof (quiet_refused _ _ _ _ _ Hw) as Hf2. pose proof (quiet_read_any _ _ _ Hread) as Hf1.
    split; [intros|]; by rewrite Hf2, Hf1.
  - pose proof (quiet_read_any _ _ _ Hread) as Hf1. split; [intros|]; by rewrite Hf1.
Qed.
End quiet.
