(* ===== verification/UserKeyRoster.v ===== *)
(** * The user key roster

    [src/src/keys/userKeyRoster.ts]: which roster entries an account document
    backs, where a roster has drifted from the document, and the operations
    that read, rotate, escrow and converge it. The commitment hash is the
    hash library's. *)

From Stdlib Require Import Ascii.
From S2P Require Import Prelude Json JsText AccountDocument LadderRungs ResourceController AccountLog ClientListing Descriptors.

Definition MULTIKEY_COMMITMENT_VM_TYPE : string := "MultikeyCommitment".

(** The digest a commitment carries, and the digest of a key's decoded bytes;
    each throws on what does not decode. *)
Class CommitmentLibrary := {
  committedDigest : string → result string;
  multikeyDigest : string → result string
}.

(** [s.split(separator)], of one character. *)
Fixpoint split_at (separator : Ascii.ascii) (s : string) : list string :=
  match s with
  | EmptyString => [EmptyString]
  | String a s =>
      if decide (a = separator) then EmptyString :: split_at separator s
      else match split_at separator s with
           | [] => [String a EmptyString]
           | first :: rest => String a first :: rest
           end
  end.

Section backing.
Context {readers : DocumentReaders} {keys : WebvhKeys} {commitments : CommitmentLibrary}.

(** ** Which methods back a roster entry *)

Definition commitmentMatcher (published : list string) : string → bool :=
  let digests := omap (λ commitment, match committedDigest commitment with Ok digest => Some digest | Throw _ => None end)
    (js_dedup published) in
  λ key, match digests with
         | [] => false
         | _ => match multikeyDigest key with
                | Ok candidate => bool_decide (candidate ∈ digests)
                | Throw _ => false
                end
         end.

Record Backer := mkBacker { backer_method : ResolvedKeyAgreementMethod; backs : string → bool }.

Definition isCommitment (method : ResolvedKeyAgreementMethod) : bool :=
  bool_decide (method_type method = Some MULTIKEY_COMMITMENT_VM_TYPE).

Definition verbatimBacker (method : ResolvedKeyAgreementMethod) : option Backer :=
  match isCommitment method, publicKeyMultibase method with
  | false, Some key =>
      Some (mkBacker method (λ fragment, bool_decide (key = fragment) ||
        match method_id method with Some id => bool_decide (vmFragmentOf id = Some fragment) | None => false end))
  | _, _ => None
  end.
Definition committedBacker (method : ResolvedKeyAgreementMethod) : option Backer :=
  match isCommitment method, publicKeyCommitment method with
  | true, Some commitment => Some (mkBacker method (commitmentMatcher [commitment]))
  | _, _ => None
  end.

Definition keyAgreementMethodBackers (document : AccountDocument) : list Backer :=
  let methods := resolvedKeyAgreementMethods document in
  omap verbatimBacker methods ++ omap committedBacker methods.

Definition rosterRecipientBacking (document : AccountDocument) (kid : string) : option RecipientPublicKey :=
  match vmFragmentOf kid with
  | None | Some EmptyString => None
  | Some fragment =>
      match find_first (λ backer, backs backer fragment) (keyAgreementMethodBackers document) with
      | None => None
      | Some backer =>
          Some (mkRecipient kid
            (if isCommitment (backer_method backer) then fragment
             else default fragment (publicKeyMultibase (backer_method backer))))
      end
  end.

(** The resolver is the rule behind a promise. *)
Definition userKeyRosterRecipientResolver (document : AccountDocument) : string → option RecipientPublicKey :=
  rosterRecipientBacking document.

(** ** What the document says the roster should wrap *)

Definition rosterRecipientsToRetire (descriptor : CollectionEncryption) (keepRecipientIds : list string) :
    result (list string) :=
  epoch ← currentEpochOf descriptor "The user key roster";
  Ok (js_dedup (filter (λ kid, kid ∉ keepRecipientIds) (wrappedKids epoch))).

(** The signing key a controller names, when the marker builder reproduces it. *)
Definition markerSigningKey (controller : string) : option string :=
  match split_at ":"%char controller !! 2 with
  | None | Some EmptyString => None
  | Some signingKey => if decide (clientKeyAgreementController signingKey = controller) then Some signingKey else None
  end.

Definition enrolledRecipient (method : ResolvedKeyAgreementMethod) : option RecipientPublicKey :=
  match isCommitment method, method_controller method, publicKeyMultibase method with
  | false, Some controller, Some key =>
      match markerSigningKey controller with
      | Some signingKey => Some (mkRecipient (rosterRecipientKid signingKey key) key)
      | None => None
      end
  | _, _, _ => None
  end.
Definition enrolledClientRosterRecipients (document : AccountDocument) : list RecipientPublicKey :=
  omap enrolledRecipient (resolvedKeyAgreementMethods document).

Record UserKeyRosterDrift := mkDrift {
  staleRecipientIds : list string;
  unwrappedClientRecipients : list RecipientPublicKey;
  unwrappedCredentialMethodIds : list string
}.

(** [new Map(backers.map(...))] by method id. *)
Definition backsById (document : AccountDocument) : list (option string * (string → bool)) :=
  foldl (λ m backer, assoc_set (method_id (backer_method backer)) (backs backer) m) []
    (keyAgreementMethodBackers document).

Definition credentialUnwrapped (document : AccountDocument) (wrappedFragments : list string) (id : string) : bool :=
  match assoc_get (Some id) (backsById document) with
  | Some backs => negb (existsb backs wrappedFragments)
  | None => true
  end.

Definition rosterDriftOf (epoch : CollectionEncryptionEpoch) (document : AccountDocument) (did : string) :
    UserKeyRosterDrift :=
  let kids := wrappedKids epoch in
  mkDrift
    (filter (λ kid, rosterRecipientBacking document kid = None) kids)
    (filter (λ recipient, recipient_id recipient ∉ kids) (enrolledClientRosterRecipients document))
    (filter (λ id, credentialUnwrapped document (omap vmFragmentOf kids) id = true)
      (omap method_id (credentialKeyAgreementMethods document did))).

Definition userKeyRosterDrift (descriptor : CollectionEncryption) (document : AccountDocument) (did : string) :
    result UserKeyRosterDrift :=
  epoch ← currentEpochOf descriptor "The user key roster";
  Ok (rosterDriftOf epoch document did).
End backing.

(** ** The seeded store *)

(** [seed], the binding the wrapper's closure keeps, rides beside the world
    for as long as the wrapper lives. *)
Definition on_fst {W S A} (c : comp W A) : comp (W * S) A := λ ws, let '(r, w) := c ws.1 in (r, (w, ws.2)).

Definition seededDescriptorStore {W} (store : EncryptionDescriptorStore W) :
    EncryptionDescriptorStore (W * option DescriptorStoreRead) :=
  mkDescriptorStore
    (λ ws, match ws.2 with
           | Some served => (Ok (Some served), (ws.1, None))
           | None => on_fst (store_read store) ws
           end)
    (λ descriptor ifMatch, on_fst (store_replace store descriptor ifMatch))
    ((λ create descriptor, on_fst (create descriptor)) <$> store_create store)
    None None.

(** A call over the seeded store, from the seed it is handed. *)
Definition with_seed {W A} (current : DescriptorStoreRead) (c : comp (W * option DescriptorStoreRead) A) : comp W A :=
  λ w, let '(r, ws) := c (w, Some current) in (r, ws.1).

(** ** Operations *)

Definition PRECONDITION_FAILED_ERROR_NAME : string := "PreconditionFailedError".
Definition ESCROW_CAS_ATTEMPTS : nat := 3.
Definition BUFFER_ETAG : string := "roster-escrow-buffer".

Record ConvergedRoster := mkConverged {
  conv_rotated : bool;
  conv_staleRecipientIds : list string;
  conv_escrowedRecipientIds : list string;
  conv_descriptor : option CollectionEncryption
}.

Record UserKeyRosterReadResult := mkRosterRead {
  rosterRead_descriptor : CollectionEncryption;
  rosterRead_userKey : UserKey;
  rosterRead_rotated : bool;
  rosterRead_latestEpochId : string;
  rosterRead_etag : option string
}.

(** [ids.indexOf(id)]. *)
Definition indexOf (id : string) (ids : list string) : option nat := fst <$> list_find (λ x, x = id) ids.

Section operations.
Context {W : Type} {readers : DocumentReaders} {keys : WebvhKeys} {commitments : CommitmentLibrary}
  {library : EpochLibrary}.
Implicit Types (store : EncryptionDescriptorStore W) (document : AccountDocument).

Definition ensureUserKeyRoster store (userKey : UserKey) (clientKeyAgreementKey : KeyAgreementKey) :
    comp W CollectionEncryption :=
  current ← store_read store;
  match current with
  | Some current => mret (read_descriptor current)
  | None =>
      owner ← lift (ownerRecipient clientKeyAgreementKey);
      initRecipients store [owner] userKey
  end.

Definition addUserKeyRosterRecipient store (recipient : RecipientPublicKey) (ownerKeyAgreementKey : KeyAgreementKey) :
    comp W CollectionEncryption :=
  current ← store_read store;
  match current with
  | None => mthrow (plain_error "The user key roster does not exist yet; the account must finish provisioning before a client can be enrolled.")
  | Some current =>
      wraps ← lift (rosterWrapsRecipient (read_descriptor current) (recipient_id recipient));
      if wraps : bool then mret (read_descriptor current)
      else with_seed current (addRecipient (seededDescriptorStore store) recipient ownerKeyAgreementKey)
  end.

Definition rotateUserKeyRoster store document (retireRecipientId : string) (current : option DescriptorStoreRead) :
    comp W CollectionEncryption :=
  let resolve := userKeyRosterRecipientResolver document in
  match current with
  | Some current =>
      with_seed current (removeRecipient (seededDescriptorStore store) retireRecipientId resolve (mret ()))
  | None => removeRecipient store retireRecipientId resolve (mret ())
  end.

(** The buffering store, whose world is the staged descriptor. *)
Definition buffer : EncryptionDescriptorStore CollectionEncryption :=
  mkDescriptorStore
    (λ staged, (Ok (Some (mkRead staged (Some BUFFER_ETAG))), staged))
    (λ next _ _, (Ok (), next)) None None None.

Definition stageRecipient (ownerKeyAgreementKey : KeyAgreementKey) (staged : CollectionEncryption)
    (recipient : RecipientPublicKey) : result CollectionEncryption :=
  (addRecipient buffer recipient ownerKeyAgreementKey staged).1.
Fixpoint stageRecipients (ownerKeyAgreementKey : KeyAgreementKey) (recipients : list RecipientPublicKey)
    (staged : CollectionEncryption) : result CollectionEncryption :=
  match recipients with
  | [] => Ok staged
  | recipient :: recipients =>
      staged ← stageRecipient ownerKeyAgreementKey staged recipient;
      stageRecipients ownerKeyAgreementKey recipients staged
  end.

(** [attempts] are left; only the first builds on the read handed in. *)
Fixpoint escrowAttempts store (recipients : list RecipientPublicKey) (ownerKeyAgreementKey : KeyAgreementKey)
    (attempts : nat) (current : option DescriptorStoreRead) : comp W CollectionEncryption :=
  match attempts with
  | 0 => mthrow (plain_error "The user key roster escrow lost the compare-and-swap race after 3 attempts. Retry the convergence.")
  | S attempts =>
      read ← (match current with Some read => mret (Some read) | None => store_read store end);
      match read with
      | None => mthrow (UserKeyRosterIntegrityError "The user key roster does not exist; there is nothing to escrow into.")
      | Some read =>
          staged ← lift (stageRecipients ownerKeyAgreementKey recipients (read_descriptor read));
          try_catch (store_replace store staged (read_etag read);; mret staged)
            (λ err, if decide (err_name err = PRECONDITION_FAILED_ERROR_NAME)
                    then escrowAttempts store recipients ownerKeyAgreementKey attempts None
                    else mthrow err)
      end
  end.
Definition escrowRosterRecipients store (recipients : list RecipientPublicKey) (ownerKeyAgreementKey : KeyAgreementKey)
    (current : option DescriptorStoreRead) : comp W CollectionEncryption :=
  escrowAttempts store recipients ownerKeyAgreementKey ESCROW_CAS_ATTEMPTS current.

Definition replaceUserKeyRosterRecipients store document (retireRecipientIds : list string)
    (recipients : list RecipientPublicKey) (ownerKeyAgreementKey : KeyAgreementKey)
    (current : option DescriptorStoreRead) : comp W CollectionEncryption :=
  let resolve := userKeyRosterRecipientResolver document in
  match current with
  | Some current =>
      with_seed current (replaceRecipient (seededDescriptorStore store) retireRecipientIds recipients
        ownerKeyAgreementKey resolve (mret ()))
  | None => replaceRecipient store retireRecipientIds recipients ownerKeyAgreementKey resolve (mret ())
  end.

(** ** Convergence *)

(** What the decision leaves to write, once there is something to write. *)
Definition convergeWrite store document (roster : CollectionEncryption) (current : option DescriptorStoreRead)
    (stale : list string) (escrow : option (KeyAgreementKey * list RecipientPublicKey)) : comp W ConvergedRoster :=
  let escrowed := match escrow with Some (_, recipients) => recipient_id <$> recipients | None => [] end in
  match escrow, stale with
  | Some (owner, ((_ :: _) as recipients)), [] =>
      descriptor ← escrowRosterRecipients store recipients owner current;
      mret (mkConverged false stale escrowed (Some descriptor))
  | Some (owner, ((_ :: _) as recipients)), _ :: _ =>
      converged ← replaceUserKeyRosterRecipients store document stale recipients owner current;
      mret (mkConverged (negb (bool_decide (currentEpoch converged = currentEpoch roster))) stale escrowed (Some converged))
  | _, _ =>
      rotated ← rotateUserKeyRoster store document (default EmptyString (head stale)) current;
      mret (mkConverged true stale escrowed (Some rotated))
  end.

Definition convergeRead store document (did : string) (roster : CollectionEncryption)
    (current : option DescriptorStoreRead) (ownerKeyAgreementKey : option KeyAgreementKey) : comp W ConvergedRoster :=
  epoch ← lift (currentEpochOf roster "The user key roster");
  let drift := rosterDriftOf epoch document did in
  let stale := staleRecipientIds drift in
  let backed := length (epoch_recipients epoch) - length stale in
  let escrow := (λ owner, (owner, unwrappedClientRecipients drift)) <$> ownerKeyAgreementKey in
  let escrowed := match escrow with Some (_, recipients) => recipient_id <$> recipients | None => [] end in
  if decide (stale = [] ∧ escrowed = []) then mret (mkConverged false stale escrowed (Some roster))
  else if decide (stale ≠ [] ∧ backed = 0) then
    mthrow (UserKeyRosterIntegrityError "No user key roster recipient is keyed by the account document; refusing to rotate the roster onto no one.")
  else convergeWrite store document roster current stale escrow.

Definition convergeUserKeyRosterToDocument store document (did : string) (descriptor : option CollectionEncryption)
    (etag : option string) (ownerKeyAgreementKey : option KeyAgreementKey) : comp W ConvergedRoster :=
  match descriptor with
  | Some descriptor =>
      let current := match etag with Some _ => Some (mkRead descriptor etag) | None => None end in
      convergeRead store document did descriptor current ownerKeyAgreementKey
  | None =>
      read ← store_read store;
      match read with
      | None => mret (mkConverged false [] [] None)
      | Some read => convergeRead store document did (read_descriptor read) (Some read) ownerKeyAgreementKey
      end
  end.

(** ** Reading *)

Definition assertPinned (epochIds : list string) (currentIndex : option nat) (pinnedEpochId : option string) : result () :=
  match pinnedEpochId with
  | None | Some EmptyString => Ok ()
  | Some pinned =>
      match indexOf pinned epochIds, currentIndex with
      | Some pinnedIndex, Some currentIndex =>
          if decide (currentIndex < pinnedIndex) then mthrow (UserKeyRosterContinuityError pinned) else Ok ()
      | _, _ => mthrow (UserKeyRosterContinuityError pinned)
      end
  end.

(** The user key the current epoch delivers, and whether it was adopted. *)
Definition deliveredUserKey (descriptor : CollectionEncryption) (epoch : CollectionEncryptionEpoch)
    (userKey : option UserKey) (clientKeyAgreementKey : KeyAgreementKey) : result (UserKey * bool) :=
  let adopt :=
    match find_first (λ wrap, bool_decide (header_kid wrap = kak_id clientKeyAgreementKey)) (epoch_recipients epoch) with
    | None => mthrow (UserKeyRosterUnwrapError "The user key roster current epoch carries no wrap for this client.")
    | Some entry =>
        secret ← unwrapEpochSecret entry clientKeyAgreementKey;
        match secret with
        | Some secret => Ok (mkUserKey (epoch_id epoch) secret, true)
        | None => mthrow (UserKeyRosterUnwrapError "This client's user key roster entry failed to unwrap.")
        end
    end in
  match userKey with
  | Some cached => if decide (currentEpoch descriptor = Some (userKey_id cached)) then Ok (cached, false) else adopt
  | None => adopt
  end.

Definition readServed (descriptor : CollectionEncryption) (etag : option string) (userKey : option UserKey)
    (clientKeyAgreementKey : KeyAgreementKey) (pinnedEpochId : option string) : result UserKeyRosterReadResult :=
  epoch ← currentEpochOf descriptor "The user key roster";
  let currentIndex := indexOf (epoch_id epoch) (epochIds descriptor) in
  assertPinned (epochIds descriptor) currentIndex pinnedEpochId;;
  '(key, rotated) ← deliveredUserKey descriptor epoch userKey clientKeyAgreementKey;
  Ok (mkRosterRead descriptor key rotated (epoch_id epoch) etag).

Definition readUserKeyRoster store (descriptor : option CollectionEncryption) (userKey : option UserKey)
    (clientKeyAgreementKey : KeyAgreementKey) (pinnedEpochId : option string) : comp W (option UserKeyRosterReadResult) :=
  match descriptor with
  | Some descriptor => read ← lift (readServed descriptor None userKey clientKeyAgreementKey pinnedEpochId); mret (Some read)
  | None =>
      current ← store_read store;
      match current with
      | None => mret None
      | Some current =>
          read ← lift (readServed (read_descriptor current) (read_etag current) userKey clientKeyAgreementKey pinnedEpochId);
          mret (Some read)
      end
  end.
End operations.
