(* ===== verification/RosterConvergence.v ===== *)
(** * What a roster convergence leaves

    Over a store only its own accepted writes move, the convergence of
    [UserKeyRoster] leaves a roster without drift, or leaves it as it was. *)

From Stdlib Require Import Ascii.
From S2P Require Import Prelude Json JsText AccountDocument LadderRungs ResourceController AccountLog ClientListing Descriptors UserKeyRoster.

(** ** The seeded store is the store *)

Section seeded.
Context {W K : Type} `{!EqDecision K} (held : W → K → option DescriptorStoreRead) (k : K).
Context (store : EncryptionDescriptorStore W).

(** Once its seed is served, a run over the wrapper is one over the store. *)
Lemma seeded_simulates built standing ws r ws' :
  recipientRun (seededDescriptorStore store) built standing ws r ws' → ws.2 = None →
  recipientRun store built standing ws.1 r ws'.1.
Proof.
  induction 1 as [[w s] b e [w1 s1] next [w2 s2] Hread Hb Hw|[w s] b e [w1 s1] Hread Hs|[w s] b e [w1 s1] next err [w2 s2] r [w3 s3] Hread Hw Hrun IH|[w s] b e [w1 s1] next err [w2 s2] Hread Hw|[w s] read [w1 s1] err Hread];
    cbn in *; intros Hnone; rewrite Hnone in Hread; unfold on_fst in *; cbn in *; destruct (store_read store w) as [r0 w0] eqn:Hr0;
    simplify_eq; try (destruct (store_replace store next e w1) as [r1 w4] eqn:Hr1; simplify_eq).
  - by eapply run_written.
  - by eapply run_standing.
  - eapply run_rebased; [done|done|]. by apply IH.
  - by eapply run_refused.
  - by eapply run_failed.
Qed.

Context `{!QuietStore held k store}.

Lemma seeded_run built standing current etag w r ws :
  held w k = Some (mkRead (read_descriptor current) etag) →
  recipientRun (seededDescriptorStore store) built standing (w, Some current) r ws →
  run_leaves held k built standing (read_descriptor current) w r ws.1.
Proof.
  intros Hh Hr. destruct current as [base e0]. cbn in Hh. remember (w, Some (mkRead base e0)) as ws0 eqn:Hws.
  destruct Hr as [ws0 b e ws1 next ws2 Hread Hb Hw|ws0 b e ws1 Hread Hs|ws0 b e ws1 next err ws2 r ws3 Hread Hw Hrun|ws0 b e ws1 next err ws2 Hread Hw|ws0 read ws1 err Hread];
    subst ws0; cbn in Hread; simplify_eq; cbn in *; unfold on_fst in *; cbn in *;
    try (destruct (store_replace store next e w) as [r1 w4] eqn:Hr1; simplify_eq; cbn).
  - eapply quiet_written in Hr1 as [Hf He]; [|done]. split; [done|]. left. done.
  - split; [done|]. right. done.
  - pose proof (quiet_refused held k store _ _ _ _ _ Hr1) as Hf.
    apply seeded_simulates in Hrun; [|done]. cbn in Hrun.
    eapply quiet_run in Hrun; [|done|by rewrite Hf]. destruct Hrun as [Hf' Hr']. split; [intros; by rewrite Hf', Hf|].
    by rewrite Hf in Hr'.
  - pose proof (quiet_refused held k store _ _ _ _ _ Hr1) as Hf. split; [intros; by rewrite Hf|]. apply Hf.
  - split; done.
Qed.

(** The two ways the operations call the library, as one. *)
Lemma threaded_run {library : EpochLibrary} built standing base etag
    (op : ∀ V, EncryptionDescriptorStore V → comp V CollectionEncryption) (current : option DescriptorStoreRead) w :
  (∀ V (s : EncryptionDescriptorStore V) v, recipientRun s built standing v (op V s v).1 (op V s v).2) →
  held w k = Some (mkRead base etag) → (∀ read, current = Some read → read_descriptor read = base) →
  let c := match current with
           | Some read => with_seed read (op _ (seededDescriptorStore store))
           | None => op _ store
           end in
  run_leaves held k built standing base w (c w).1 (c w).2.
Proof.
  intros Hop Hh Hc. destruct current as [read|]; cbn.
  - rewrite <- (Hc read eq_refl) in Hh |- *. unfold with_seed.
    pose proof (Hop _ (seededDescriptorStore store) (w, Some read)) as Hrun.
    destruct (op _ _ _) as [r ws]. cbn in *. by eapply seeded_run.
  - eapply quiet_run; [done..|]. apply Hop.
Qed.
End seeded.

(** ** What the document backs *)

Definition hash_free (s : string) : Prop := "#"%char ∉ String.list_ascii_of_string s.

(** The fragment of an id is what follows its hash sign. *)
Class FragmentReaderLaws {keys : WebvhKeys} : Prop :=
  vmFragmentOf_hash s key : hash_free s → hash_free key → key ≠ "" → vmFragmentOf (s ++ "#" ++ key) = Some key.

Section backed.
Context {readers : DocumentReaders} {keys : WebvhKeys} {commitments : CommitmentLibrary}
  {fragmentLaws : FragmentReaderLaws}.

Definition backed (document : AccountDocument) (kid : string) : Prop := is_Some (rosterRecipientBacking document kid).

(** The keys a document's markers pair have no hash sign. *)
Definition markedSoundly (document : AccountDocument) : Prop :=
  ∀ method signingKey key, method ∈ resolvedKeyAgreementMethods document →
    method_controller method = Some (clientKeyAgreementController signingKey) →
    publicKeyMultibase method = Some key → hash_free signingKey ∧ hash_free key ∧ key ≠ "".

Lemma markerSigningKey_controller controller signingKey :
  markerSigningKey controller = Some signingKey → controller = clientKeyAgreementController signingKey.
Proof.
  unfold markerSigningKey. destruct (split_at _ controller !! 2) as [[|a s]|]; [done| |done].
  case_decide; [by intros [= <-]|done].
Qed.

Lemma hash_free_did s : hash_free s → hash_free ("did:key:" ++ s).
Proof. unfold hash_free. cbn. set_solver. Qed.

(** The document backs every client it publishes. *)
Lemma enrolled_backed document recipient :
  markedSoundly document → recipient ∈ enrolledClientRosterRecipients document →
  backed document (recipient_id recipient).
Proof.
  intros Hm (method & Hin & He)%list_elem_of_omap. unfold enrolledRecipient in He.
  destruct (isCommitment method) eqn:Hc; [done|]. destruct (method_controller method) as [controller|] eqn:Hctl; [|done].
  destruct (publicKeyMultibase method) as [key|] eqn:Hk; [|done].
  destruct (markerSigningKey controller) as [s|] eqn:Hs; [|done]. injection He as <-. cbn [recipient_id].
  apply markerSigningKey_controller in Hs as ->. destruct (Hm _ _ _ Hin Hctl Hk) as (Hfs & Hfk & Hne).
  unfold backed, rosterRecipientBacking.
  change (rosterRecipientKid s key) with (("did:key:" ++ s) ++ "#" ++ key)%string.
  rewrite vmFragmentOf_hash by (try apply hash_free_did; done).
  destruct key as [|a key]; [done|]. set (key' := String a key) in *.
  destruct (find_first _ _) as [b|] eqn:Hb; [by eexists|]. apply find_first_None with (x := mkBacker method
    (λ fragment, bool_decide (key' = fragment) ||
        match method_id method with Some id => bool_decide (vmFragmentOf id = Some fragment) | None => false end)) in Hb.
  - cbn in Hb. by rewrite bool_decide_true in Hb.
  - unfold keyAgreementMethodBackers. apply elem_of_app. left. apply list_elem_of_omap. exists method. split; [done|].
    unfold verbatimBacker. by rewrite Hc, Hk.
Qed.

Lemma elem_of_stale epoch document did kid :
  kid ∈ staleRecipientIds (rosterDriftOf epoch document did) ↔ ¬ backed document kid ∧ kid ∈ wrappedKids epoch.
Proof. cbn. rewrite list_elem_of_filter. unfold backed. by rewrite <- eq_None_not_Some. Qed.

Lemma no_stale epoch document did :
  (∀ kid, kid ∈ wrappedKids epoch → backed document kid) → staleRecipientIds (rosterDriftOf epoch document did) = [].
Proof. intros H. cbn. apply filter_none. intros kid Hk Hn. destruct (H kid Hk) as [r Hr]. congruence. Qed.

Lemma no_unwrapped epoch document did :
  (∀ r, r ∈ enrolledClientRosterRecipients document → recipient_id r ∈ wrappedKids epoch) →
  unwrappedClientRecipients (rosterDriftOf epoch document did) = [].
Proof. intros H. cbn. apply filter_none. intros r Hr Hn. by apply Hn, H. Qed.

(** Where some recipient is backed, the count says so. *)
Lemma some_backed epoch document did :
  length (epoch_recipients epoch) - length (staleRecipientIds (rosterDriftOf epoch document did)) ≠ 0 →
  ∃ kid, kid ∈ wrappedKids epoch ∧ backed document kid.
Proof.
  cbn. unfold wrappedKids. intros Hn.
  destruct (decide (Exists (λ kid, rosterRecipientBacking document kid ≠ None) (header_kid <$> epoch_recipients epoch))) as [He|He].
  - apply Exists_exists in He as (kid & Hk & Hb). exists kid. split; [done|]. by apply not_eq_None_Some in Hb.
  - rewrite filter_all, length_fmap in Hn; [lia|]. intros kid Hk. destruct (rosterRecipientBacking document kid) eqn:Hb; [|done].
    destruct He. apply Exists_exists. exists kid. split; [done|]. by rewrite Hb.
Qed.
End backed.

(** ** Where a convergence ends *)

Section convergence.
Context {W K : Type} `{!EqDecision K} (held : W → K → option DescriptorStoreRead) (k : K).
Context {readers : DocumentReaders} {keys : WebvhKeys} {commitments : CommitmentLibrary}
  {library : EpochLibrary} {laws : EpochLibraryLaws}.
Context (store : EncryptionDescriptorStore W) {quiet : QuietStore held k store}.
Context (document : AccountDocument) (did : string).

(** The recipients a converged roster has: those the document backs, of the
    ones it had and, with a key to escrow from, of the clients the document
    publishes. *)
Definition wrapsExactly (owner : option KeyAgreementKey) (roster next : CollectionEncryption) : Prop :=
  ∃ epoch, currentEpochOf next "The user key roster" = Ok epoch ∧
    ∀ kid, kid ∈ wrappedKids epoch ↔
      (kid ∈ currentKids roster ∧ backed document kid) ∨
      (is_Some owner ∧ kid ∈ (recipient_id <$> enrolledClientRosterRecipients document)).

Definition extends (roster next : CollectionEncryption) (rotated : bool) : Prop :=
  epochIds roster `prefix_of` epochIds next ∧ (rotated = true ↔ currentEpoch next ≠ currentEpoch roster).

(** What is held when a write of [next] has been accepted or was not needed. *)
Definition holds (w : W) (next : CollectionEncryption) : Prop := ∃ etag, held w k = Some (mkRead next etag).

Definition leaves (owner : option KeyAgreementKey) (roster : CollectionEncryption) (w : W) (r : result ConvergedRoster)
    (w' : W) : Prop :=
  (∀ k', k' ≠ k → held w' k' = held w k') ∧
  match r with
  | Ok c => ∃ next, conv_descriptor c = Some next ∧ holds w' next ∧ wrapsExactly owner roster next ∧
      extends roster next (conv_rotated c)
  | Throw _ => held w' k = held w k
  end.

Lemma rotated_extends retire vouched incoming roster next epoch label :
  currentEpochOf roster label = Ok epoch → Rotated retire vouched incoming roster next →
  epochIds roster `prefix_of` epochIds next ∧ currentEpoch next ≠ currentEpoch roster.
Proof.
  intros He Hr. apply Rotated_epochIds in Hr as (fresh & Hids & Hn & Hc). split; [rewrite Hids; by eexists|].
  apply currentEpochOf_ok in He as [Hin Hcur]. rewrite Hc, Hcur. intros [= ->]. destruct Hn.
  unfold epochIds. by apply list_elem_of_fmap_2.
Qed.

Context (roster : CollectionEncryption) (epoch : CollectionEncryptionEpoch)
  (current_is : currentEpochOf roster "The user key roster" = Ok epoch).
Context (etag : option string) (current : option DescriptorStoreRead)
  (current_read : ∀ read, current = Some read → read_descriptor read = roster).

Lemma kids_are : currentKids roster = wrappedKids epoch.
Proof. by eapply currentEpochOf_label. Qed.

(** What rotating off one recipient leaves: the others the document backs. *)
Definition retires (kid : string) (roster next : CollectionEncryption) : Prop :=
  ∃ epoch, currentEpochOf next "The user key roster" = Ok epoch ∧
    ∀ k, k ∈ wrappedKids epoch ↔ k ∈ currentKids roster ∧ k ≠ kid ∧ (kid ∈ currentKids roster → backed document k).

Lemma retire_leaves stale w :
  held w k = Some (mkRead roster etag) → stale ∈ wrappedKids epoch →
  let o := rotateUserKeyRoster store document stale current w in
  (∀ k', k' ≠ k → held o.2 k' = held w k') ∧
  match o.1 with
  | Ok next => holds o.2 next ∧ retires stale roster next ∧ extends roster next true
  | Throw _ => held o.2 k = held w k
  end.
Proof.
  intros Hh Hin.
  pose proof (threaded_run held k store _ _ roster etag
    (λ V s, removeRecipient s stale (userKeyRosterRecipientResolver document) (mret ())) current w
    (λ V s v, removeRecipient_run s stale _ v) Hh current_read) as Hrun.
  change (run_leaves held k (Rotated [stale] (userKeyRosterRecipientResolver document) []) (λ base, stale ∉ currentKids base)
    roster w (rotateUserKeyRoster store document stale current w).1
    (rotateUserKeyRoster store document stale current w).2) in Hrun.
  cbn zeta. destruct (rotateUserKeyRoster store document stale current w) as [[next|err] w']; cbn in *; [|done].
  destruct Hrun as [Hf [[Hrot Hheld]|(Hst & _)]]; [|by rewrite kids_are in Hst].
  split; [done|]. split; [exact Hheld|]. split; [|split; [by eapply rotated_extends|split; [intros _; by eapply rotated_extends|done]]].
  destruct (Rotated_current _ _ _ _ _ "The user key roster" Hrot) as (fresh & Hfe & Hk).
  exists fresh. split; [done|]. intros kid. rewrite Hk, list_elem_of_singleton, kids_are.
  change (is_Some (userKeyRosterRecipientResolver document kid)) with (backed document kid). split.
  - intros [(?&?&?)|[]%elem_of_nil]. split_and!; by auto.
  - intros (?&?&Hb). left. split_and!; by auto.
Qed.

Lemma rotate_leaves stale w :
  held w k = Some (mkRead roster etag) → stale ∈ wrappedKids epoch → ¬ backed document stale →
  let o := rotateUserKeyRoster store document stale current w in
  (∀ k', k' ≠ k → held o.2 k' = held w k') ∧
  match o.1 with
  | Ok next => holds o.2 next ∧ wrapsExactly None roster next ∧ extends roster next true
  | Throw _ => held o.2 k = held w k
  end.
Proof.
  intros Hh Hin Hb. pose proof (retire_leaves stale w Hh Hin) as [Hf Hr]. cbn zeta in *. split; [done|].
  destruct (rotateUserKeyRoster store document stale current w) as [[next|err] w']; cbn in *; [|done].
  destruct Hr as (Hheld & (fresh & Hfe & Hk) & Hext). split_and!; [done| |done]. exists fresh. split; [done|].
  intros kid. rewrite Hk, kids_are. split.
  - intros (?&?&?). left. auto.
  - intros [[Hc Hbk]|[[]%is_Some_None _]]. split_and!; [done| |done]. by intros ->.
Qed.

Lemma replace_leaves owner stale recipients w :
  held w k = Some (mkRead roster etag) → stale ≠ [] →
  (∀ kid, kid ∈ stale ↔ ¬ backed document kid ∧ kid ∈ wrappedKids epoch) →
  (∀ r, r ∈ enrolledClientRosterRecipients document → backed document (recipient_id r)) →
  recipients = filter (λ r, recipient_id r ∉ wrappedKids epoch) (enrolledClientRosterRecipients document) →
  let o := replaceUserKeyRosterRecipients store document stale recipients owner current w in
  (∀ k', k' ≠ k → held o.2 k' = held w k') ∧
  match o.1 with
  | Ok next => holds o.2 next ∧ wrapsExactly (Some owner) roster next ∧ extends roster next true
  | Throw _ => held o.2 k = held w k
  end.
Proof.
  intros Hh Hne Hst Hen Hrec.
  assert (Exists (λ kid, kid ∈ currentKids roster) stale) as Hex.
  { destruct stale as [|kid stale]; [done|]. apply Exists_cons_hd. rewrite kids_are. by apply Hst, list_elem_of_here. }
  pose proof (threaded_run held k store _ _ roster etag
    (λ V s, replaceRecipient s stale recipients owner (userKeyRosterRecipientResolver document) (mret ())) current w
    (λ V s v, replaceRecipient_run s stale _ _ _ v) Hh current_read) as Hrun.
  set (o := replaceUserKeyRosterRecipients store document stale recipients owner current w).
  change (run_leaves held k (λ base next, if decide (Exists (λ kid, kid ∈ currentKids base) stale)
      then Rotated stale (userKeyRosterRecipientResolver document) (recipient_id <$> recipients) base next
      else Escrowed (recipient_id <$> recipients) base next)
    (λ base, ¬ Exists (λ kid, kid ∈ currentKids base) stale) roster w o.1 o.2) in Hrun.
  cbn zeta. destruct o as [[next|err] w']; cbn in *; [|done].
  destruct Hrun as [Hf [[Hrot Hheld]|(Hs & _)]]; [|done]. rewrite decide_True in Hrot by done.
  split; [done|]. split; [exact Hheld|].
  split; [|split; [by eapply rotated_extends|split; [intros _; by eapply rotated_extends|done]]].
  destruct (Rotated_current _ _ _ _ _ "The user key roster" Hrot) as (fresh & Hfe & Hk). exists fresh. split; [done|].
  intros kid. rewrite Hk. change (is_Some (userKeyRosterRecipientResolver document kid)) with (backed document kid).
  rewrite Hst, kids_are, Hrec, !list_elem_of_fmap. split.
  - intros [(?&?&?)|(r & -> & [_ Hr']%list_elem_of_filter)]; [by left|]. right. eauto.
  - intros [[??]|[_ (r & -> & Hr')]]; [left; tauto|]. destruct (decide (recipient_id r ∈ wrappedKids epoch)) as [Hd|Hd].
    + left. split; [done|]. split; [|by apply Hen]. intros [Hnb _]. by apply Hnb, Hen.
    + right. exists r. split; [done|]. by apply list_elem_of_filter.
Qed.

(** ** Escrows *)

#[local] Instance buffer_quiet : QuietStore (λ staged (_ : ()), Some (mkRead staged (Some BUFFER_ETAG))) () buffer.
Proof. split; [intros w; by exists w|]. intros w next e. split; [by intros []|]. cbn. eauto. Qed.

Lemma staged_escrowed owner recipients staged next :
  stageRecipients owner recipients staged = Ok next → Escrowed (recipient_id <$> recipients) staged next.
Proof.
  revert staged. induction recipients as [|r recipients IH]; intros staged; cbn [stageRecipients fmap list_fmap].
  { intros [= ->]. apply Escrowed_nil. }
  intros (mid & Hs & Hn)%result_bind_ok. apply (Escrowed_trans [recipient_id r] _ _ mid); [|by apply IH].
  unfold stageRecipient in Hs.
  pose proof (addRecipient_run buffer r owner staged) as Hrun. rewrite Hs in Hrun.
  eapply quiet_run in Hrun; [|apply buffer_quiet|done]. destruct Hrun as [_ [[He _]|(Hst & -> & _)]]; [done|].
  by apply Escrowed_standing.
Qed.

Lemma escrow_writes owner recipients attempts cur w :
  held w k = Some (mkRead roster etag) → (∀ read, cur = Some read → read_descriptor read = roster) →
  let o := escrowAttempts store recipients owner attempts cur w in
  (∀ k', k' ≠ k → held o.2 k' = held w k') ∧
  match o.1 with
  | Ok next => holds o.2 next ∧ Escrowed (recipient_id <$> recipients) roster next
  | Throw _ => held o.2 k = held w k
  end.
Proof.
  revert cur w. induction attempts as [|attempts IH]; intros cur w Hh Hcur; [done|]. cbn [escrowAttempts].
  assert (∃ read w1, (match cur with Some read => mret (Some read) | None => store_read store end) w = (Ok (Some read), w1) ∧
    read_descriptor read = roster ∧ ∀ k', held w1 k' = held w k') as (read & w1 & Hread & Hd & Hf).
  { destruct cur as [read|]; [exists read, w; auto|].
    destruct (quiet_read (held:=held) (k:=k) (store:=store) w) as (w1 & Hr & Hf). rewrite Hh in Hr.
    exists (mkRead roster etag), w1. done. }
  cbn zeta. rewrite (comp_bind_ok _ _ _ _ _ Hread), Hd.
  destruct (stageRecipients owner recipients roster) as [staged|err] eqn:Hs; [|by split; [intros; apply Hf|apply Hf]].
  rewrite (comp_bind_ok (lift (Ok staged)) _ w1 staged w1) by done. unfold try_catch, mbind, comp_bind.
  destruct (store_replace store staged (read_etag read) w1) as [[u|err] w2] eqn:Hw.
  - eapply quiet_written in Hw as [Hf' He]; [|done]. cbn. split; [intros; by rewrite Hf', Hf|]. split; [exact He|].
    by eapply staged_escrowed.
  - pose proof (quiet_refused held k store _ _ _ _ _ Hw) as Hf'. case_decide.
    + destruct (IH None w2) as [Hf3 Hr3]; [by rewrite Hf', Hf|done|]. split; [intros; by rewrite Hf3, Hf', Hf|].
      destruct (escrowAttempts _ _ _ _ _ w2) as [[next|e] w3]; cbn in *; [done|]. by rewrite Hr3, Hf', Hf.
    + cbn. split; [intros|]; by rewrite Hf', Hf.
Qed.

Lemma escrow_leaves owner recipients w :
  held w k = Some (mkRead roster etag) → recipients ≠ [] →
  (∀ kid, kid ∈ wrappedKids epoch → backed document kid) →
  recipients = filter (λ r, recipient_id r ∉ wrappedKids epoch) (enrolledClientRosterRecipients document) →
  let o := escrowRosterRecipients store recipients owner current w in
  (∀ k', k' ≠ k → held o.2 k' = held w k') ∧
  match o.1 with
  | Ok next => holds o.2 next ∧ wrapsExactly (Some owner) roster next ∧ extends roster next false
  | Throw _ => held o.2 k = held w k
  end.
Proof.
  intros Hh Hne Hb Hrec.
  pose proof (escrow_writes owner recipients ESCROW_CAS_ATTEMPTS current w Hh current_read) as Hw.
  change (escrowAttempts store recipients owner ESCROW_CAS_ATTEMPTS current w)
    with (escrowRosterRecipients store recipients owner current w) in Hw.
  cbn zeta in *. destruct (escrowRosterRecipients store recipients owner current w) as [[next|err] w']; cbn in *; [|done].
  destruct Hw as [Hf [Hheld He]]. split; [done|]. split; [done|]. split.
  - destruct (Escrowed_current _ _ _ _ _ He current_is) as (epoch' & He' & _ & Hk). exists epoch'. split; [done|].
    intros kid. rewrite Hk, kids_are, Hrec, !list_elem_of_fmap. split.
    + intros [?|(r & -> & [_ Hr]%list_elem_of_filter)]; [left; auto|right; eauto].
    + intros [[??]|[_ (r & -> & Hr)]]; [by left|]. destruct (decide (recipient_id r ∈ wrappedKids epoch)); [by left|].
      right. exists r. split; [done|]. by apply list_elem_of_filter.
  - split; [by rewrite (Escrowed_epochIds _ _ _ He)|]. destruct He as [Hc _]. split; [done|]. by rewrite Hc.
Qed.

(** ** The decision and the write together *)

Lemma current_kids_extend (next : CollectionEncryption) :
  next = roster → (∀ kid, kid ∈ wrappedKids epoch → backed document kid) → ∀ owner,
  (is_Some owner → unwrappedClientRecipients (rosterDriftOf epoch document did) = []) →
  wrapsExactly owner roster next.
Proof.
  intros -> Hb owner Hu. exists epoch. split; [done|]. intros kid. rewrite kids_are. split; [auto|].
  intros [[? _]|[Ho (r & -> & Hr)%list_elem_of_fmap]]; [done|]. specialize (Hu Ho). cbn in Hu.
  destruct (decide (recipient_id r ∈ wrappedKids epoch)) as [|Hn]; [done|].
  assert (r ∈ filter (λ recipient, recipient_id recipient ∉ wrappedKids epoch) (enrolledClientRosterRecipients document)) as Hin
    by by apply list_elem_of_filter. rewrite Hu in Hin. by apply elem_of_nil in Hin.
Qed.

Lemma stale_none_backed : staleRecipientIds (rosterDriftOf epoch document did) = [] →
  ∀ kid, kid ∈ wrappedKids epoch → backed document kid.
Proof.
  intros Hs kid Hk. destruct (rosterRecipientBacking document kid) as [r|] eqn:Hr; [by eexists|].
  assert (kid ∈ staleRecipientIds (rosterDriftOf epoch document did)) as Hin
    by (apply elem_of_stale; split; [unfold backed; rewrite Hr; by intros []|done]).
  rewrite Hs in Hin. by apply elem_of_nil in Hin.
Qed.

Definition reports (owner : option KeyAgreementKey) (c : ConvergedRoster) : Prop :=
  let drift := rosterDriftOf epoch document did in
  conv_staleRecipientIds c = staleRecipientIds drift ∧
  conv_escrowedRecipientIds c =
    match owner with Some _ => recipient_id <$> unwrappedClientRecipients drift | None => [] end ∧
  (staleRecipientIds drift ≠ [] → ∃ kid, kid ∈ wrappedKids epoch ∧ backed document kid).

Lemma converge_leaves owner w :
  held w k = Some (mkRead roster etag) →
  (∀ r, r ∈ enrolledClientRosterRecipients document → backed document (recipient_id r)) →
  let o := convergeRead store document did roster current owner w in
  leaves owner roster w o.1 o.2 ∧ (∀ c, o.1 = Ok c → reports owner c).
Proof.
  intros Hh Hen. cbn zeta. unfold convergeRead. rewrite current_is.
  rewrite (comp_bind_ok (lift (Ok epoch)) _ w epoch w) by done.
  set (drift := rosterDriftOf epoch document did).
  assert (match (λ o, (o, unwrappedClientRecipients drift)) <$> owner with Some (_, rs) => recipient_id <$> rs | None => [] end
    = match owner with Some _ => recipient_id <$> unwrappedClientRecipients drift | None => [] end) as Hesc by by destruct owner.
  cbn zeta. fold drift. rewrite Hesc. case_decide as Hnone; [|case_decide as Hback].
  - destruct Hnone as [Hs Hu]. pose proof (stale_none_backed Hs) as Hall. split.
    + split; [done|]. exists roster. split_and!; [done|by eexists| |split; [done|]].
      * apply current_kids_extend; [done..|]. intros [o ->]. by apply fmap_nil_inv in Hu.
      * split; [done|]. by intros [].
    + intros c [= <-]. by split_and!.
  - split; [split; done|done].
  - assert (staleRecipientIds drift ≠ [] → ∃ kid, kid ∈ wrappedKids epoch ∧ backed document kid) as Hsome.
    { intros Hne. apply (some_backed epoch document did). intros H0. by apply Hback. }
    unfold convergeWrite.
    assert (Hfin : ∀ (c : comp W CollectionEncryption) (mk : CollectionEncryption → ConvergedRoster) rotated,
      (∀ next, wrapsExactly owner roster next → extends roster next rotated →
        conv_descriptor (mk next) = Some next ∧ extends roster next (conv_rotated (mk next)) ∧ reports owner (mk next)) →
      (∀ k', k' ≠ k → held (c w).2 k' = held w k') ∧
      match (c w).1 with
      | Ok next => holds (c w).2 next ∧ wrapsExactly owner roster next ∧ extends roster next rotated
      | Throw _ => held (c w).2 k = held w k
      end →
      let o := (next ← c; mret (mk next)) w in
      leaves owner roster w o.1 o.2 ∧ (∀ c, o.1 = Ok c → reports owner c)).
    { intros c mk rotated Hmk [Hf Hr]. cbn zeta. unfold mbind, comp_bind. destruct (c w) as [[next|err] w']; cbn in *; [|done].
      destruct Hr as (Hheld & Hw & Hx). destruct (Hmk next Hw Hx) as (Hd & Hx' & Hrep). split; [|by intros ? [= <-]].
      split; [done|]. by exists next. }
    assert (Hrep : ∀ stale escrowed rotated next, staleRecipientIds drift = stale →
      match owner with Some _ => recipient_id <$> unwrappedClientRecipients drift | None => [] end = escrowed →
      reports owner (mkConverged rotated stale escrowed next)) by (intros ???? <- <-; by split_and!).
    destruct (staleRecipientIds drift) as [|s ss] eqn:Hs; destruct owner as [owner|]; cbn [fmap option_fmap option_map].
    + destruct (unwrappedClientRecipients drift) as [|r rs] eqn:Hu; [by destruct Hnone|].
      apply (Hfin _ _ false); [intros next ??; split_and!; [done|done|by apply Hrep]|]. rewrite <- Hu. apply escrow_leaves; [done|by rewrite Hu| |done].
      by apply stale_none_backed.
    + by destruct Hnone.
    + assert (s ∈ wrappedKids epoch ∧ ¬ backed document s) as [Hin Hb].
      { assert (s ∈ staleRecipientIds drift) as Hin by (rewrite Hs; apply list_elem_of_here). by apply elem_of_stale in Hin as [??]. }
      destruct (unwrappedClientRecipients drift) as [|r rs] eqn:Hu.
      * apply (Hfin _ _ true); [intros next ??; split_and!; [done|done|by apply Hrep]|].
        pose proof (rotate_leaves s w Hh Hin Hb) as [Hf Hr]. split; [done|]. cbn [head default] in *.
        destruct (rotateUserKeyRoster _ _ _ _ w) as [[next|e] w']; [|done]. destruct Hr as (? & (e' & He' & Hk) & ?). split_and!; [done| |done].
        exists e'. split; [done|]. intros kid. rewrite Hk. split; [intros [|[[]%is_Some_None _]]; by left|].
        intros [?|[_ (r & -> & Hr)%list_elem_of_fmap]]; [by left|]. left. rewrite kids_are. split; [|by apply Hen].
        destruct (decide (recipient_id r ∈ wrappedKids epoch)) as [|Hn]; [done|].
        assert (r ∈ unwrappedClientRecipients drift) as Hx by by apply list_elem_of_filter.
        rewrite Hu in Hx. by apply elem_of_nil in Hx.
      * apply (Hfin _ _ true).
        { intros next Hw Hx. split_and!; [done| |by apply Hrep]. cbn. destruct Hx as [Hp [Hx _]]. split; [done|].
          rewrite bool_decide_false by by apply Hx. done. }
        rewrite <- Hu, <- Hs. apply replace_leaves; [done|by rewrite Hs| |done|done]. intros kid. apply elem_of_stale.
    + assert (s ∈ wrappedKids epoch ∧ ¬ backed document s) as [Hin Hb].
      { assert (s ∈ staleRecipientIds drift) as Hin by (rewrite Hs; apply list_elem_of_here). by apply elem_of_stale in Hin as [??]. }
      apply (Hfin _ _ true); [intros next ??; split_and!; [done|done|by apply Hrep]|]. by apply rotate_leaves.
Qed.
End convergence.

Section settling.
Context {W K : Type} `{!EqDecision K}.
Context {readers : DocumentReaders} {keys : WebvhKeys} {commitments : CommitmentLibrary}
  {library : EpochLibrary}.
Context (store : EncryptionDescriptorStore W) (document : AccountDocument) (did : string).

(** A roster in step with the document is left as it is. *)
Lemma healthy_left roster epoch etag owner w :
  currentEpochOf roster "The user key roster" = Ok epoch →
  staleRecipientIds (rosterDriftOf epoch document did) = [] →
  (is_Some owner → unwrappedClientRecipients (rosterDriftOf epoch document did) = []) →
  convergeUserKeyRosterToDocument store document did (Some roster) etag owner w =
  (Ok (mkConverged false [] [] (Some roster)), w).
Proof.
  intros He Hs Hu. unfold convergeUserKeyRosterToDocument, convergeRead. rewrite He.
  rewrite (comp_bind_ok (lift (Ok epoch)) _ w epoch w) by done. cbn zeta. rewrite Hs.
  assert (match (λ o, (o, unwrappedClientRecipients (rosterDriftOf epoch document did))) <$> owner with
          | Some (_, rs) => recipient_id <$> rs | None => [] end = []) as Hesc.
  { destruct owner as [o|]; [|done]. cbn [fmap option_fmap option_map]. by rewrite Hu by by eexists. }
  rewrite Hesc. by rewrite decide_True.
Qed.

Lemma wrapsExactly_drift owner roster next :
  (∀ r, r ∈ enrolledClientRosterRecipients document → backed document (recipient_id r)) →
  wrapsExactly document owner roster next →
  ∃ epoch, currentEpochOf next "The user key roster" = Ok epoch ∧
    staleRecipientIds (rosterDriftOf epoch document did) = [] ∧
    (is_Some owner → unwrappedClientRecipients (rosterDriftOf epoch document did) = []).
Proof.
  intros Hen (epoch & He & Hk). exists epoch. split; [done|]. split.
  - apply no_stale. intros kid [[_ ?]|[_ (r & -> & Hr)%list_elem_of_fmap]]%Hk; [done|]. by apply Hen.
  - intros Ho. apply no_unwrapped. intros r Hr. apply Hk. right. split; [done|]. by apply list_elem_of_fmap_2.
Qed.
End settling.

(** C19: over a store only its own accepted writes move, and with a document
    whose client markers pair well-formed keys, a roster convergence ends in
    one of two ways. It throws and every store holds what it held; or it
    returns and the store holds the roster it returns, whose current epoch
    wraps exactly the recipients the document backs (of those the roster had)
    and, given a key to escrow from, every client the document publishes. So
    the drift is gone, the epoch list has only grown, [rotated] says exactly
    whether the current epoch moved, the report is the drift that was found,
    a rotation never leaves the roster on no one, and a second convergence
    finds nothing and writes nothing. *)
Theorem roster_convergence_settles {W K} `{!EqDecision K} (held : W → K → option DescriptorStoreRead) (k : K)
    {readers : DocumentReaders} {keys : WebvhKeys} {commitments : CommitmentLibrary}
    {library : EpochLibrary} (store : EncryptionDescriptorStore W) document did roster epoch etag descriptor known owner w :
  FragmentReaderLaws → EpochLibraryLaws → QuietStore held k store → markedSoundly document →
  held w k = Some (mkRead roster etag) → descriptor = None ∨ descriptor = Some roster →
  currentEpochOf roster "The user key roster" = Ok epoch →
  match convergeUserKeyRosterToDocument store document did descriptor known owner w with
  | (Throw _, w') => ∀ k', held w' k' = held w k'
  | (Ok c, w') =>
      ∃ next epoch', conv_descriptor c = Some next ∧ holds held k w' next ∧
        (∀ k', k' ≠ k → held w' k' = held w k') ∧
        currentEpochOf next "The user key roster" = Ok epoch' ∧
        (∀ kid, kid ∈ wrappedKids epoch' ↔
           (kid ∈ wrappedKids epoch ∧ backed document kid) ∨
           (is_Some owner ∧ kid ∈ (recipient_id <$> enrolledClientRosterRecipients document))) ∧
        extends roster next (conv_rotated c) ∧
        reports document did epoch owner c ∧
        ∀ known', convergeUserKeyRosterToDocument store document did (Some next) known' owner w' =
          (Ok (mkConverged false [] [] (Some next)), w')
  end.
Proof.
  intros Hfl Hlaws Hquiet Hm Hh Hd He.
  assert (∀ r, r ∈ enrolledClientRosterRecipients document → backed document (recipient_id r)) as Hen
    by (intros r; by apply enrolled_backed).
  assert (∃ current w1, convergeUserKeyRosterToDocument store document did descriptor known owner w =
      convergeRead store document did roster current owner w1 ∧ (∀ k', held w1 k' = held w k') ∧
      ∀ read, current = Some read → read_descriptor read = roster) as (current & w1 & Heq & Hf & Hcur).
  { destruct Hd as [-> | ->]; unfold convergeUserKeyRosterToDocument.
    - destruct (quiet_read (held:=held) (k:=k) (store:=store) w) as (w1 & Hr & Hf). rewrite Hh in Hr.
      rewrite (comp_bind_ok _ _ _ _ _ Hr). exists (Some (mkRead roster etag)), w1. split_and!; [done..|]. by intros ? [= <-].
    - exists (match known with Some _ => Some (mkRead roster known) | None => None end), w.
      split_and!; [done..|]. destruct known; [by intros ? [= <-]|done]. }
  rewrite Heq.
  destruct (converge_leaves held k store document did roster epoch He etag current Hcur owner w1) as [[Hframe Hl] Hrep];
    [by rewrite Hf|done|]. cbn zeta in *.
  destruct (convergeRead store document did roster current owner w1) as [[c|err] w']; cbn in Hl, Hframe, Hrep.
  - destruct Hl as (next & Hnext & Hholds & Hwraps & Hext).
    destruct (wrapsExactly_drift document did owner roster next Hen Hwraps) as (epoch' & He' & Hs & Hu).
    destruct Hwraps as (epoch'' & He'' & Hk). rewrite He' in He''. injection He'' as <-.
    exists next, epoch'. split_and!; [done|done|intros; by rewrite Hframe, Hf|done| |done|by apply Hrep|].
    + intros kid. rewrite Hk. by rewrite (currentEpochOf_label _ _ _ He).
    + intros known'. by eapply healthy_left.
  - intros k'. destruct (decide (k' = k)) as [->|]; [by rewrite Hl, Hf|by rewrite Hframe, Hf].
Qed.
