(* ===== verification/UserKeyCascade.v ===== *)
(** * Moving the collections onto the current user key

    [src/src/keys/userKeyGenerations.ts] and [src/src/keys/userKeyCascade.ts]:
    the user key generations a roster delivers, the reading of a collection's
    epochs against them, and the cascade that brings every encrypted
    collection onto the current one. *)

From Stdlib Require Import Ascii.
From S2P Require Import Prelude Json JsText AccountDocument LadderRungs ResourceController AccountLog ClientListing Descriptors UserKeyRoster RosterConvergence.

(** ** Generations *)

Inductive CollectionUserKeyRotationOutcome := outcome_noop | outcome_sealed | outcome_escrowed | outcome_rotated.
#[export] Instance CollectionUserKeyRotationOutcome_eq_dec : EqDecision CollectionUserKeyRotationOutcome.
Proof. solve_decision. Defined.

Inductive CollectionEpochsReading :=
  | reading_current
  | unresolved_current_epoch (refusal : js_error)
  | stale_current_epoch (staleKids : list string) (ownerGenerationId : string)
  | current_key_missing
  | escrow_incomplete (escrowOwnerId : option string).

(** The reading's verdict, without its payload. *)
Inductive CollectionEpochsVerdict :=
  | verdict_current | verdict_unresolved | verdict_stale | verdict_missing | verdict_incomplete.

Record UserKeyCascadeResult := mkCascade {
  outcomes : gmap string CollectionUserKeyRotationOutcome;
  cascade_failed : list (string * js_error)
}.

Section cascade.
Context {library : EpochLibrary}.

Definition userKeyAsRecipient (userKey : UserKey) : RecipientPublicKey :=
  mkRecipient (epochKeyIdFor (userKey_id userKey)) (default EmptyString (split_at ":"%char (userKey_id userKey) !! 2)).

(** [userKeyVaultKeys] of [src/src/keys/userKey.ts], its key half. *)
Definition userKeyVaultKeys (userKey : UserKey) : result KeyAgreementKey :=
  fromRawSecret (userKey_secret userKey) (userKey_id userKey) (epochKeyIdFor (userKey_id userKey)).

Fixpoint unwrapGenerations (epochs : list CollectionEncryptionEpoch) (clientKeyAgreementKey : KeyAgreementKey) :
    result (list UserKey) :=
  match epochs with
  | [] => Ok []
  | epoch :: epochs =>
      match find_first (λ wrap, bool_decide (header_kid wrap = kak_id clientKeyAgreementKey)) (epoch_recipients epoch) with
      | None => unwrapGenerations epochs clientKeyAgreementKey
      | Some entry =>
          secret ← unwrapEpochSecret entry clientKeyAgreementKey;
          generations ← unwrapGenerations epochs clientKeyAgreementKey;
          Ok (match secret with
              | Some secret => mkUserKey (epoch_id epoch) secret :: generations
              | None => generations
              end)
      end
  end.
Definition unwrapUserKeyGenerations (descriptor : CollectionEncryption) (clientKeyAgreementKey : KeyAgreementKey) :
    result (list UserKey) := unwrapGenerations (epochList descriptor) clientKeyAgreementKey.

(** ** Reading a collection's epochs *)

Definition wraps (kid : string) (epoch : CollectionEncryptionEpoch) : bool := bool_decide (kid ∈ wrappedKids epoch).

(** The stale generations the current epoch names, oldest first. *)
Definition staleNamed (epoch : CollectionEncryptionEpoch) (currentGeneration : string) (generations : list string) :
    list string :=
  filter (λ id, id ≠ currentGeneration ∧ epochKeyIdFor id ∈ wrappedKids epoch) generations.

Definition incompleteEpochs (descriptor : CollectionEncryption) (userKeyKid : string) : list CollectionEncryptionEpoch :=
  filter (λ epoch, wraps userKeyKid epoch = false) (epochList descriptor).

Definition readCollectionEpochs (descriptor : CollectionEncryption) (currentGeneration : string)
    (generations : list string) : CollectionEpochsReading :=
  if negb (hasKeyEpochs descriptor) then
    unresolved_current_epoch (plain_error "The collection descriptor carries no key epochs. Every encrypted collection installs its epoch[0] at provision time, so an epoch-less descriptor can only come from a tampering or pre-provisioning host; refusing to rotate it.")
  else
    match currentEpochOf descriptor "The collection descriptor" with
    | Throw err => unresolved_current_epoch err
    | Ok epoch =>
        let userKeyKid := epochKeyIdFor currentGeneration in
        match last (staleNamed epoch currentGeneration generations) with
        | Some owner => stale_current_epoch (epochKeyIdFor <$> staleNamed epoch currentGeneration generations) owner
        | None =>
            if negb (wraps userKeyKid epoch) then current_key_missing
            else
              match incompleteEpochs descriptor userKeyKid with
              | [] => reading_current
              | incomplete =>
                  escrow_incomplete
                    (find_first (λ id, forallb (wraps (epochKeyIdFor id)) incomplete) (reverse generations))
              end
        end
    end.

Definition verdict_of (reading : CollectionEpochsReading) : CollectionEpochsVerdict :=
  match reading with
  | reading_current => verdict_current
  | unresolved_current_epoch _ => verdict_unresolved
  | stale_current_epoch _ _ => verdict_stale
  | current_key_missing => verdict_missing
  | escrow_incomplete _ => verdict_incomplete
  end.
Definition collectionEpochsCurrent (descriptor : CollectionEncryption) (currentGeneration : string)
    (generations : list string) : CollectionEpochsVerdict :=
  verdict_of (readCollectionEpochs descriptor currentGeneration generations).

(** ** One collection *)

Definition vouchNoSurvivor (kid : string) : option RecipientPublicKey := None.

Definition generationNamed (generations : list UserKey) (id : option string) : option UserKey :=
  find_first (λ generation, bool_decide (Some (userKey_id generation) = id)) generations.

Section collection.
Context {W : Type}.
Implicit Types (store : EncryptionDescriptorStore W).

(** What a governed store may keep of the readers it authenticated. *)
Definition survivorsOf store : string → option RecipientPublicKey :=
  match isSealableDescriptorStore store with Some _ => trustRosterDidKeys | None => vouchNoSurvivor end.

(** The seal backstop of a collection that is current already. *)
Definition sealCurrent store : comp W CollectionUserKeyRotationOutcome :=
  match isSealableDescriptorStore store with
  | Some (seal, _) => sealed ← seal; mret (if sealed : bool then outcome_sealed else outcome_noop)
  | None => mret outcome_noop
  end.

Definition rotateCollectionEpochsToUserKey store (userKey : UserKey) (generations : list UserKey) :
    comp W CollectionUserKeyRotationOutcome :=
  current ← store_read store;
  match current with
  | None => mret outcome_noop
  | Some current =>
      match readCollectionEpochs (read_descriptor current) (userKey_id userKey) (userKey_id <$> generations) with
      | unresolved_current_epoch refusal => mthrow refusal
      | reading_current => sealCurrent store
      | stale_current_epoch staleKids ownerGenerationId =>
          match generationNamed generations (Some ownerGenerationId) with
          | None => mthrow (JsError "TypeError" "userKey")
          | Some generation =>
              owner ← lift (userKeyVaultKeys generation);
              replaceRecipient store staleKids [userKeyAsRecipient userKey] owner (survivorsOf store) (mret ());;
              mret outcome_rotated
          end
      | current_key_missing =>
          mthrow (plain_error "The collection current epoch names no user key generation this client can recognize; its roster cannot be rotated to the current user key.")
      | escrow_incomplete escrowOwnerId =>
          match generationNamed generations escrowOwnerId with
          | None => mthrow (plain_error "The current user key cannot be escrowed into this collection's history: no held user key generation is a recipient of every incomplete epoch.")
          | Some generation =>
              owner ← lift (userKeyVaultKeys generation);
              addRecipient store (userKeyAsRecipient userKey) owner;;
              mret outcome_escrowed
          end
      end
  end.

(** ** Every collection *)

(** What one task leaves in the tallies: nothing, an outcome or a failure. *)
Definition cascadeOne (storeFor : string → EncryptionDescriptorStore W) (isEncrypted : option (string → comp W bool))
    (userKey : UserKey) (generations : list UserKey) (controller : option WebvhResourceLogController)
    (collectionId : string) : comp W (string * option (result CollectionUserKeyRotationOutcome)) :=
  try_catch
    (encrypted ← (match isEncrypted with Some isEncrypted => isEncrypted collectionId | None => mret true end);
     if negb encrypted then mret (collectionId, None)
     else
       let store := storeFor collectionId in
       (match controller, isSealableDescriptorStore store with
        | Some controller, Some (_, setMinimum) => setMinimum controller
        | _, _ => mret ()
        end);;
       outcome ← rotateCollectionEpochsToUserKey store userKey generations;
       mret (collectionId, Some (Ok outcome)))
    (λ err, mret (collectionId, Some (Throw err))).

(** [outcomes[id] = outcome], which ["__proto__"] ignores, and [failed.push]. *)
Definition tally (result : UserKeyCascadeResult) (task : string * option (Prelude.result CollectionUserKeyRotationOutcome)) :
    UserKeyCascadeResult :=
  match task.2 with
  | None => result
  | Some (Ok outcome) =>
      if decide (task.1 = "__proto__") then result
      else mkCascade (<[task.1 := outcome]> (outcomes result)) (cascade_failed result)
  | Some (Throw err) => mkCascade (outcomes result) (cascade_failed result ++ [(task.1, err)])
  end.

Definition cascadeCollectionsToUserKey (collectionIds : list string) (storeFor : string → EncryptionDescriptorStore W)
    (isEncrypted : option (string → comp W bool)) (rosterDescriptor : CollectionEncryption)
    (clientKeyAgreementKey : KeyAgreementKey) (userKey : UserKey) (controller : option WebvhResourceLogController) :
    comp W UserKeyCascadeResult :=
  generations ← lift (unwrapUserKeyGenerations rosterDescriptor clientKeyAgreementKey);
  tasks ← promise_all (cascadeOne storeFor isEncrypted userKey generations controller) collectionIds;
  mret (foldl tally (mkCascade ∅ []) tasks).
End collection.
End cascade.

(** * What the collection cascade leaves

    Over quiet stores a cascade leaves every collection either on the current
    user key or as it was, and says which. *)

(** ** When a collection is current *)

Section current.
Context {library : EpochLibrary}.

(** Every epoch is wrapped to the current user key, and the current epoch to
    no other generation. *)
Definition onUserKey (descriptor : CollectionEncryption) (current : string) (generations : list string) : Prop :=
  ∃ epoch, currentEpochOf descriptor "The collection descriptor" = Ok epoch ∧
    (∀ id, id ∈ generations → id ≠ current → epochKeyIdFor id ∉ wrappedKids epoch) ∧
    ∀ epoch', epoch' ∈ epochList descriptor → epochKeyIdFor current ∈ wrappedKids epoch'.

Lemma last_None_nil {A} (xs : list A) : last xs = None ↔ xs = [].
Proof. split; [|by intros ->]. destruct xs as [|x xs]; [done|]. intros H. destruct (last_is_Some (x :: xs)) as [_ [? Hs]]; [done|congruence]. Qed.

Lemma no_stale_named epoch current generations :
  staleNamed epoch current generations = [] ↔
  ∀ id, id ∈ generations → id ≠ current → epochKeyIdFor id ∉ wrappedKids epoch.
Proof.
  unfold staleNamed. split.
  - intros H id Hid Hne Hk. assert (id ∈ filter (λ id, id ≠ current ∧ epochKeyIdFor id ∈ wrappedKids epoch) generations) as Hin
      by by apply list_elem_of_filter. rewrite H in Hin. by apply elem_of_nil in Hin.
  - intros H. apply filter_none. intros id Hid [Hne Hk]. by apply (H id).
Qed.

Lemma none_incomplete descriptor kid :
  incompleteEpochs descriptor kid = [] ↔ ∀ epoch, epoch ∈ epochList descriptor → kid ∈ wrappedKids epoch.
Proof.
  unfold incompleteEpochs, wraps. split.
  - intros H epoch He. destruct (decide (kid ∈ wrappedKids epoch)) as [|Hn]; [done|].
    assert (epoch ∈ filter (λ epoch, bool_decide (kid ∈ wrappedKids epoch) = false) (epochList descriptor)) as Hin
      by (apply list_elem_of_filter; by rewrite bool_decide_eq_false). rewrite H in Hin. by apply elem_of_nil in Hin.
  - intros H. apply filter_none. intros epoch He Hb%bool_decide_eq_false. by apply Hb, H.
Qed.

Lemma verdict_current_iff descriptor current generations :
  readCollectionEpochs descriptor current generations = reading_current ↔
  hasKeyEpochs descriptor = true ∧ onUserKey descriptor current generations.
Proof.
  unfold readCollectionEpochs, onUserKey. destruct (hasKeyEpochs descriptor); cbn [negb]; [|split; [done|by intros []]].
  destruct (currentEpochOf descriptor _) as [epoch|err] eqn:He; [|split; [done|intros (_ & ? & ? & _); done]].
  destruct (last (staleNamed epoch current generations)) as [owner|] eqn:Hl.
  - split; [done|]. intros (_ & epoch' & [= <-] & Hn & _). rewrite <- no_stale_named in Hn. by rewrite Hn in Hl.
  - rewrite last_None_nil, no_stale_named in Hl. unfold wraps.
    destruct (bool_decide_reflect (epochKeyIdFor current ∈ wrappedKids epoch)) as [Hk|Hk]; cbn [negb].
    + destruct (incompleteEpochs descriptor (epochKeyIdFor current)) as [|e es] eqn:Hi.
      * rewrite none_incomplete in Hi. split; [|done]. intros _. split; [done|]. by exists epoch.
      * split; [done|]. intros (_ & epoch' & [= <-] & _ & Ha). rewrite <- none_incomplete in Ha. by rewrite Ha in Hi.
    + split; [done|]. intros (_ & epoch' & [= <-] & _ & Ha). destruct Hk. apply Ha.
      by apply currentEpochOf_ok in He as [? _].
Qed.

Context {laws : EpochLibraryLaws}.

Lemma onUserKey_current descriptor current generations :
  onUserKey descriptor current generations → readCollectionEpochs descriptor current generations = reading_current.
Proof.
  intros H. apply verdict_current_iff. split; [|done]. destruct H as (epoch & He & _).
  apply hasKeyEpochs_epochs. intros Hn. apply currentEpochOf_ok in He as [He _]. rewrite Hn in He. by apply elem_of_nil in He.
Qed.

Lemma rotated_onUserKey base next current generations vouched epoch :
  currentEpochOf base "The collection descriptor" = Ok epoch →
  Rotated (epochKeyIdFor <$> staleNamed epoch current generations) vouched [epochKeyIdFor current] base next →
  onUserKey next current generations.
Proof.
  intros He Hr. pose proof Hr as (older & fresh & Hl & Ho & Hn & Hc & Hk). exists fresh.
  assert (currentEpochOf next "The collection descriptor" = Ok fresh) as Hcur.
  { eapply currentEpochOf_app; [done..|]. by rewrite (escrowed_ids _ _ _ Ho). }
  split_and!; [done| |].
  - intros id Hid Hne. rewrite Hk, list_elem_of_singleton, (currentEpochOf_label _ _ _ He).
    intros [(Hin & Hnr & _)|Heq]; [|by apply epochKeyIdFor_inj in Heq]. apply Hnr, list_elem_of_fmap_2.
    by apply list_elem_of_filter.
  - intros epoch'. rewrite Hl, elem_of_app, list_elem_of_singleton. intros [Hin| ->].
    + apply list_elem_of_lookup in Hin as [i Hi]. destruct (Forall2_lookup_r _ _ _ _ _ Ho Hi) as (e & _ & _ & Hke).
      apply Hke. right. by apply list_elem_of_singleton.
    + apply Hk. right. by apply list_elem_of_singleton.
Qed.

Lemma escrowed_onUserKey base next current generations epoch :
  currentEpochOf base "The collection descriptor" = Ok epoch →
  staleNamed epoch current generations = [] → Escrowed [epochKeyIdFor current] base next →
  onUserKey next current generations.
Proof.
  intros He Hs Hesc. destruct (Escrowed_current _ _ _ _ _ Hesc He) as (epoch' & He' & _ & Hk). exists epoch'.
  rewrite no_stale_named in Hs. split_and!; [done| |].
  - intros id Hid Hne. rewrite Hk, list_elem_of_singleton. intros [Hin|Heq]; [by apply (Hs id)|by apply epochKeyIdFor_inj in Heq].
  - destruct Hesc as [_ Hf]. intros e Hin. apply list_elem_of_lookup in Hin as [i Hi].
    destruct (Forall2_lookup_r _ _ _ _ _ Hf Hi) as (e0 & _ & _ & Hke). apply Hke. right. by apply list_elem_of_singleton.
Qed.
End current.

(** ** One collection *)

(** Sealing appends the head state verbatim, and a minimum version writes
    nothing. *)
Class QuietSeal {W K} (held : W → K → option DescriptorStoreRead) (store : EncryptionDescriptorStore W) : Prop :=
  quiet_seal seal setMinimum : isSealableDescriptorStore store = Some (seal, setMinimum) →
    (∀ w k, held (seal w).2 k = held w k) ∧ ∀ controller w k, held (setMinimum controller w).2 k = held w k.

(** What a task leaves in the collection's store, read off what it reports. *)
Definition settledBy {library : EpochLibrary} (userKey : UserKey) (generations : list UserKey)
    (before after : option DescriptorStoreRead) (task : option (result CollectionUserKeyRotationOutcome)) : Prop :=
  let current := userKey_id userKey in
  let ids := userKey_id <$> generations in
  match task with
  | None | Some (Throw _) => after = before
  | Some (Ok outcome_noop) | Some (Ok outcome_sealed) =>
      after = before ∧ ∀ read, before = Some read → onUserKey (read_descriptor read) current ids
  | Some (Ok outcome_escrowed) =>
      ∃ base next, before = Some base ∧ after = Some next ∧ onUserKey (read_descriptor next) current ids ∧
        Escrowed [epochKeyIdFor current] (read_descriptor base) (read_descriptor next)
  | Some (Ok outcome_rotated) =>
      ∃ base next fresh, before = Some base ∧ after = Some next ∧ onUserKey (read_descriptor next) current ids ∧
        epochIds (read_descriptor next) = epochIds (read_descriptor base) ++ [fresh] ∧
        currentEpoch (read_descriptor next) = Some fresh
  end.

Section settles.
Context {W K : Type} `{!EqDecision K} (held : W → K → option DescriptorStoreRead).
Context {library : EpochLibrary} {laws : EpochLibraryLaws}.
Context (userKey : UserKey) (generations : list UserKey).

Lemma current_settles k store {quiet : QuietStore held k store} {seals : QuietSeal held store} w :
  let o := sealCurrent store w in
  (∀ k', held o.2 k' = held w k') ∧ ∀ r, o.1 = Ok r → r = outcome_sealed ∨ r = outcome_noop.
Proof.
  cbn zeta. unfold sealCurrent. destruct (isSealableDescriptorStore store) as [[seal setMinimum]|] eqn:Hseal; [|split; [done|intros r [= <-]; auto]].
  destruct (seals _ _ Hseal) as [Hs _]. specialize (Hs w). unfold mbind, comp_bind.
  destruct (seal w) as [[sealed|err] w']; cbn in *; split; [done| |done|done]. intros r [= <-]. destruct sealed; auto.
Qed.

(** The payload of a reading, as the code acts on it. *)
Lemma reading_stale base current ids staleKids ownerId :
  readCollectionEpochs base current ids = stale_current_epoch staleKids ownerId →
  ∃ epoch, currentEpochOf base "The collection descriptor" = Ok epoch ∧
    staleKids = epochKeyIdFor <$> staleNamed epoch current ids ∧ Exists (λ kid, kid ∈ currentKids base) staleKids.
Proof.
  unfold readCollectionEpochs. destruct (hasKeyEpochs base); cbn [negb]; [|done].
  destruct (currentEpochOf base _) as [epoch|] eqn:He; [|done].
  destruct (last (staleNamed epoch _ _)) as [named|] eqn:Hlast;
    [|destruct (wraps _ _); [by destruct (incompleteEpochs _ _)|done]].
  intros [= <- <-]. exists epoch. split_and!; [done..|]. apply Exists_exists. exists (epochKeyIdFor named).
  assert (named ∈ staleNamed epoch current ids) as Hin by (apply last_Some in Hlast as [l ->]; set_solver).
  split; [by apply list_elem_of_fmap_2|]. rewrite (currentEpochOf_label _ _ _ He).
  by apply list_elem_of_filter in Hin as [[_ ?] _].
Qed.

Lemma reading_incomplete base current ids ownerId :
  readCollectionEpochs base current ids = escrow_incomplete ownerId →
  ∃ epoch, currentEpochOf base "The collection descriptor" = Ok epoch ∧ staleNamed epoch current ids = [].
Proof.
  unfold readCollectionEpochs. destruct (hasKeyEpochs base); cbn [negb]; [|done].
  destruct (currentEpochOf base _) as [epoch|] eqn:He; [|done].
  destruct (last (staleNamed epoch _ _)) as [named|] eqn:Hlast; [done|]. rewrite last_None_nil in Hlast. eauto.
Qed.

Lemma stale_settles k store {quiet : QuietStore held k store} base etag staleKids ownerId owner vouched w :
  held w k = Some (mkRead base etag) →
  readCollectionEpochs base (userKey_id userKey) (userKey_id <$> generations) = stale_current_epoch staleKids ownerId →
  let o := (replaceRecipient store staleKids [userKeyAsRecipient userKey] owner vouched (mret ());; mret outcome_rotated) w in
  (∀ k', k' ≠ k → held o.2 k' = held w k') ∧ settledBy userKey generations (held w k) (held o.2 k) (Some o.1).
Proof.
  intros Hbase (epoch & He & Hstale & Hex)%reading_stale. cbn zeta.
  pose proof (replaceRecipient_run store staleKids [userKeyAsRecipient userKey] owner vouched w) as Hrun.
  eapply quiet_run in Hrun; [|done..]. destruct Hrun as [Hf Hrun]. unfold mbind, comp_bind.
  destruct (replaceRecipient _ _ _ _ _ _ w) as [[next|err] w2]; cbn in *; [|done].
  split; [done|]. destruct Hrun as [[Hb (etag' & Hh)]|(Hs & _)]; [|done]. rewrite decide_True in Hb by done.
  destruct (Rotated_epochIds _ _ _ _ _ Hb) as (fresh & Hids & _ & Hc).
  exists (mkRead base etag), (mkRead next etag'), fresh. rewrite Hbase. split_and!; [done..| |done|done].
  rewrite Hstale in Hb. by eapply rotated_onUserKey.
Qed.

Lemma incomplete_settles k store {quiet : QuietStore held k store} base etag ownerId owner w :
  held w k = Some (mkRead base etag) →
  readCollectionEpochs base (userKey_id userKey) (userKey_id <$> generations) = escrow_incomplete ownerId →
  let o := (addRecipient store (userKeyAsRecipient userKey) owner;; mret outcome_escrowed) w in
  (∀ k', k' ≠ k → held o.2 k' = held w k') ∧ settledBy userKey generations (held w k) (held o.2 k) (Some o.1).
Proof.
  intros Hbase (epoch & He & Hnone)%reading_incomplete. cbn zeta.
  pose proof (addRecipient_run store (userKeyAsRecipient userKey) owner w) as Hrun.
  eapply quiet_run in Hrun; [|done..]. destruct Hrun as [Hf Hrun]. unfold mbind, comp_bind.
  destruct (addRecipient _ _ _ w) as [[next|err] w2]; cbn in *; [|done]. split; [done|].
  assert (∃ etag', held w2 k = Some (mkRead next etag') ∧ Escrowed [epochKeyIdFor (userKey_id userKey)] base next)
    as (etag' & Hh & Hesc).
  { destruct Hrun as [[Hb (etag' & Hh)]|(Hst & -> & Hh)]; [by exists etag'|]. exists etag. rewrite Hh. split; [done|].
    by apply Escrowed_standing. }
  exists (mkRead base etag), (mkRead next etag'). rewrite Hbase. split_and!; [done..| |done]. by eapply escrowed_onUserKey.
Qed.

Lemma collection_settles k store {quiet : QuietStore held k store} {seals : QuietSeal held store} w :
  let o := rotateCollectionEpochsToUserKey store userKey generations w in
  (∀ k', k' ≠ k → held o.2 k' = held w k') ∧ settledBy userKey generations (held w k) (held o.2 k) (Some o.1).
Proof.
  cbn zeta. unfold rotateCollectionEpochsToUserKey.
  destruct (quiet_read (held:=held) (k:=k) (store:=store) w) as (w1 & Hr & Hf).
  rewrite (comp_bind_ok _ _ _ _ _ Hr), <- (Hf k).
  assert (∀ o : result CollectionUserKeyRotationOutcome * W,
    (∀ k', k' ≠ k → held o.2 k' = held w1 k') ∧ settledBy userKey generations (held w1 k) (held o.2 k) (Some o.1) →
    (∀ k', k' ≠ k → held o.2 k' = held w k') ∧ settledBy userKey generations (held w1 k) (held o.2 k) (Some o.1)) as Hgoal.
  { intros o [Ho Hs]. split; [intros; by rewrite <- Hf; apply Ho|done]. }
  apply Hgoal. clear Hgoal Hr Hf w. destruct (held w1 k) as [[base etag]|] eqn:Hbase; [|by split; [|split]].
  cbn [read_descriptor].
  destruct (readCollectionEpochs base _ _) as [|refusal|staleKids ownerId| |ownerId] eqn:Hreading; [|by cbn| |by cbn|].
  - apply verdict_current_iff in Hreading as [_ Hon]. destruct (current_settles k store w1) as [Hf Hout].
    split; [auto|]. rewrite Hf, Hbase. destruct (sealCurrent store w1) as [[r|err] w2]; cbn in *; [|done].
    destruct (Hout r eq_refl) as [-> | ->]; (split; [done|]); by intros ? [= <-].
  - destruct (generationNamed generations _) as [generation|]; [|by cbn].
    destruct (userKeyVaultKeys generation) as [owner|err]; [|by cbn]. rewrite <- Hbase. by eapply stale_settles.
  - destruct (generationNamed generations _) as [generation|]; [|by cbn].
    destruct (userKeyVaultKeys generation) as [owner|err]; [|by cbn]. rewrite <- Hbase. by eapply incomplete_settles.
Qed.
End settles.

(** ** Every collection *)

(** The outcome a task tallies, and its failure. *)
Definition task_outcome (task : option (result CollectionUserKeyRotationOutcome)) : option CollectionUserKeyRotationOutcome :=
  match task with Some (Ok outcome) => Some outcome | _ => None end.
Definition task_error (task : option (result CollectionUserKeyRotationOutcome)) : option js_error :=
  match task with Some (Throw err) => Some err | _ => None end.

Lemma tally_outcomes result tasks id :
  id ∉ tasks.*1 → outcomes (foldl tally result tasks) !! id = outcomes result !! id.
Proof.
  revert result. induction tasks as [|[id' task] tasks IH]; intros result; [done|]. cbn [fmap list_fmap fst foldl].
  intros [Hne Hn]%not_elem_of_cons. rewrite IH by done. unfold tally. cbn [fst snd].
  destruct task as [[o|e]|]; [|done..]. case_decide; [done|]. cbn. by rewrite lookup_insert_ne.
Qed.

Lemma tally_failed result tasks id err :
  (id, err) ∈ cascade_failed (foldl tally result tasks) ↔
  (id, err) ∈ cascade_failed result ∨ (id, Some (Throw err)) ∈ tasks.
Proof.
  revert result. induction tasks as [|[id' task] tasks IH]; intros result; cbn [foldl]; [set_solver|].
  rewrite IH, elem_of_cons. unfold tally. cbn [fst snd].
  destruct task as [[o|e]|]; [case_decide; cbn; naive_solver| |naive_solver].
  cbn. rewrite elem_of_app, list_elem_of_singleton. naive_solver.
Qed.

Lemma tally_one result id task id' :
  outcomes (tally result (id', task)) !! id =
  if decide (id = id' ∧ id ≠ "__proto__" ∧ is_Some (task_outcome task)) then task_outcome task else outcomes result !! id.
Proof.
  unfold tally. cbn [fst snd]. destruct task as [[o|e]|]; cbn [task_outcome].
  - destruct (decide (id' = "__proto__")) as [->|Hp]; [by rewrite decide_False by naive_solver|]. cbn.
    destruct (decide (id = id')) as [->|Hne].
    + by rewrite lookup_insert_eq, decide_True by eauto.
    + rewrite lookup_insert_ne, decide_False by naive_solver. done.
  - rewrite decide_False; [done|]. by intros (_ & _ & []).
  - rewrite decide_False; [done|]. by intros (_ & _ & []).
Qed.

Lemma tally_task result tasks id task :
  NoDup tasks.*1 → id ≠ "__proto__" → (id, task) ∈ tasks → outcomes result !! id = None →
  outcomes (foldl tally result tasks) !! id = task_outcome task.
Proof.
  intros Hnd Hp Hin. revert result. induction tasks as [|[id' task'] tasks IH]; [by apply elem_of_nil in Hin|].
  cbn [fmap list_fmap fst] in Hnd. apply NoDup_cons in Hnd as [Hn Hnd]. intros result Hr. cbn [foldl].
  apply elem_of_cons in Hin as [[= <- <-]|Hin].
  - rewrite tally_outcomes, tally_one by done. case_decide as Hd; [done|]. rewrite Hr.
    destruct (task_outcome task) as [o|]; [|done]. destruct Hd. eauto.
  - apply IH; [done..|]. rewrite tally_one, decide_False; [done|]. intros [-> _]. destruct Hn.
    by apply (list_elem_of_fmap_2 fst) in Hin.
Qed.

(** What a cascade leaves of one collection. *)
Definition collectionSettled {library : EpochLibrary} {W K} (held : W → K → option DescriptorStoreRead) (key : string → K)
    (userKey : UserKey) (generations : list UserKey) (w : W) (result : UserKeyCascadeResult) (w' : W) (id : string) : Prop :=
  ∃ task, settledBy userKey generations (held w (key id)) (held w' (key id)) task ∧
    outcomes result !! id = task_outcome task ∧
    (∀ err, (id, err) ∈ cascade_failed result ↔ task_error task = Some err).

Section all.
Context {W K : Type} `{!EqDecision K} (held : W → K → option DescriptorStoreRead).
Context {library : EpochLibrary} {laws : EpochLibraryLaws}.
Context (key : string → K) `{!Inj (=) (=) key}.
Context (storeFor : string → EncryptionDescriptorStore W) (isEncrypted : option (string → comp W bool)).
Context {quiet : ∀ id, QuietStore held (key id) (storeFor id)} {seals : ∀ id, QuietSeal held (storeFor id)}.
Context (reads : ∀ f id w k, isEncrypted = Some f → held (f id w).2 k = held w k).

Lemma one_settles userKey generations controller id w :
  let o := cascadeOne storeFor isEncrypted userKey generations controller id w in
  (∀ k', k' ≠ key id → held o.2 k' = held w k') ∧
  ∃ task, o.1 = Ok (id, task) ∧ settledBy userKey generations (held w (key id)) (held o.2 (key id)) task.
Proof.
  cbn zeta. unfold cascadeOne.
  assert (∀ k', held ((match isEncrypted with Some f => f id | None => mret true end) w).2 k' = held w k') as Hf.
  { intros k'. destruct isEncrypted as [f|]; [|done]. by apply reads. }
  unfold try_catch, mbind, comp_bind.
  destruct ((match isEncrypted with Some f => f id | None => mret true end) w) as [[encrypted|err] w1]; cbn in Hf;
    [|split; [auto|]; exists (Some (Throw err)); split; [done|cbn; auto]].
  destruct (negb encrypted); [split; [auto|]; exists None; split; [done|cbn; auto]|]. cbn zeta.
  assert (∀ k', held ((match controller, isSealableDescriptorStore (storeFor id) with
    | Some controller, Some (_, setMinimum) => setMinimum controller | _, _ => mret () end) w1).2 k' = held w1 k') as Hf2.
  { intros k'. destruct controller as [controller|]; [|done].
    destruct (isSealableDescriptorStore (storeFor id)) as [[seal setMinimum]|] eqn:Hs; [|done]. by eapply (seals id). }
  destruct ((match controller, isSealableDescriptorStore (storeFor id) with
    | Some controller, Some (_, setMinimum) => setMinimum controller | _, _ => mret () end) w1) as [[u|err] w2]; cbn in Hf2;
    [|split; [intros; by rewrite Hf2, Hf|]; exists (Some (Throw err)); split; [done|cbn; by rewrite Hf2, Hf]].
  destruct (collection_settles held userKey generations (key id) (storeFor id) w2) as [Hf3 Hs].
  rewrite Hf2, Hf in Hs.
  destruct (rotateCollectionEpochsToUserKey (storeFor id) userKey generations w2) as [[outcome|err] w3]; cbn in *;
    (split; [intros; by rewrite Hf3, Hf2, Hf by done|]); eexists; (split; [done|]); exact Hs.
Qed.

Lemma tasks_settle userKey generations controller ids w :
  NoDup ids →
  let o := promise_all (cascadeOne storeFor isEncrypted userKey generations controller) ids w in
  (∀ k', (∀ id, id ∈ ids → k' ≠ key id) → held o.2 k' = held w k') ∧
  ∃ tasks, o.1 = Ok tasks ∧ tasks.*1 = ids ∧
    ∀ id task, (id, task) ∈ tasks → settledBy userKey generations (held w (key id)) (held o.2 (key id)) task.
Proof.
  intros Hnd. cbn zeta. revert w. induction ids as [|id ids IH]; intros w; cbn [promise_all].
  { split; [done|]. exists []. split_and!; [done..|]. by intros ?? ?%elem_of_nil. }
  apply NoDup_cons in Hnd as [Hn Hnd]. specialize (IH Hnd).
  destruct (one_settles userKey generations controller id w) as [Hf (task & Hr & Hs)]. unfold mbind, comp_bind.
  destruct (cascadeOne _ _ _ _ _ id w) as [r w1]; cbn in Hf, Hr, Hs. subst r.
  destruct (IH w1) as [Hf2 (tasks & Hr2 & Hids & Hs2)].
  destruct (promise_all _ ids w1) as [r w2]; cbn in *. subst r. cbn. split.
  - intros k' Hk'. rewrite Hf2, Hf by set_solver. done.
  - exists ((id, task) :: tasks). split_and!; [done|cbn; by f_equal|].
    intros id' task' [[= -> ->]|Hin]%elem_of_cons.
    + rewrite Hf2; [done|]. intros id' Hid' Heq%(inj key). by subst.
    + specialize (Hs2 _ _ Hin). rewrite Hf in Hs2; [done|]. intros Heq%(inj key). subst id'.
      apply Hn. apply (list_elem_of_fmap_2 fst) in Hin. by subst.
Qed.

Lemma cascade_settles ids roster clientKey userKey controller w :
  NoDup ids → "__proto__" ∉ ids →
  let o := cascadeCollectionsToUserKey ids storeFor isEncrypted roster clientKey userKey controller w in
  (∀ k', (∀ id, id ∈ ids → k' ≠ key id) → held o.2 k' = held w k') ∧
  match o.1, unwrapUserKeyGenerations roster clientKey with
  | Ok result, Ok generations => ∀ id, id ∈ ids → collectionSettled held key userKey generations w result o.2 id
  | Throw _, Throw _ => ∀ k', held o.2 k' = held w k'
  | _, _ => False
  end.
Proof.
  intros Hnd Hp. cbn zeta. unfold cascadeCollectionsToUserKey.
  destruct (unwrapUserKeyGenerations roster clientKey) as [generations|err] eqn:Hg; [|done].
  rewrite (comp_bind_ok (lift (Ok generations)) _ w generations w) by done.
  destruct (tasks_settle userKey generations controller ids w Hnd) as [Hf (tasks & Hr & Hids & Hs)].
  unfold mbind, comp_bind. destruct (promise_all _ ids w) as [r w1]; cbn in *. subst r. cbn. split; [done|].
  intros id Hid. rewrite <- Hids in Hid. apply list_elem_of_fmap in Hid as ([id' task] & -> & Hin). exists task.
  split_and!; [by apply Hs| |].
  - apply tally_task; [by rewrite Hids| |done|done]. intros Heq. cbn in Heq. apply Hp. rewrite <- Heq, <- Hids. by apply (list_elem_of_fmap_2 fst) in Hin.
  - intros err. rewrite tally_failed. cbn. split.
    + intros [?%elem_of_nil|Hin']; [done|]. rewrite <- Hids in Hnd.
      assert ((id', task) = (id', Some (Throw err))) as [= ->] by by eapply (NoDup_fmap_eq fst). done.
    + intros Ht. right. destruct task as [[|e]|]; [done| |done]. by injection Ht as ->.
Qed.
End all.

(** ** Running it again *)

Lemma settled_current {library : EpochLibrary} userKey generations before after outcome read :
  settledBy userKey generations before after (Some (Ok outcome)) → after = Some read →
  onUserKey (read_descriptor read) (userKey_id userKey) (userKey_id <$> generations).
Proof.
  intros Hs Ha. destruct outcome; cbn in Hs.
  - destruct Hs as [He Hs]. apply Hs. by rewrite <- He.
  - destruct Hs as [He Hs]. apply Hs. by rewrite <- He.
  - destruct Hs as (base & next & _ & Hn & Hon & _). rewrite Ha in Hn. by injection Hn as <-.
  - destruct Hs as (base & next & fresh & _ & Hn & Hon & _). rewrite Ha in Hn. by injection Hn as <-.
Qed.

(** C20: moving one collection onto the user key settles it. Over a quiet
    store, the call throws and the store holds what it held, or it returns and
    the outcome says what was written: nothing, where the collection was on
    the user key already (or is not there); the user key's wraps in every
    epoch, and no new epoch; or one new epoch, current and wrapped to no stale
    generation. In each case the collection is on the user key, so running the
    call again writes no epoch and reports [noop] or [sealed]. No other
    store's descriptor moves. *)
Theorem collection_rotation_converges {W K} `{!EqDecision K} (held : W → K → option DescriptorStoreRead) (k : K)
    {library : EpochLibrary} (store : EncryptionDescriptorStore W) userKey generations w :
  EpochLibraryLaws → QuietStore held k store → QuietSeal held store →
  match rotateCollectionEpochsToUserKey store userKey generations w with
  | (Throw _, w') => ∀ k', held w' k' = held w k'
  | (Ok outcome, w') =>
      (∀ k', k' ≠ k → held w' k' = held w k') ∧
      settledBy userKey generations (held w k) (held w' k) (Some (Ok outcome)) ∧
      (∀ read, held w' k = Some read →
         collectionEpochsCurrent (read_descriptor read) (userKey_id userKey) (userKey_id <$> generations) = verdict_current) ∧
      ∀ r w'', rotateCollectionEpochsToUserKey store userKey generations w' = (r, w'') →
        (∀ k', held w'' k' = held w' k') ∧ (∀ again, r = Ok again → again = outcome_sealed ∨ again = outcome_noop)
  end.
Proof.
  intros Hlaws Hquiet Hseals. destruct (collection_settles held userKey generations k store w) as [Hf Hs].
  destruct (rotateCollectionEpochsToUserKey store userKey generations w) as [[outcome|err] w']; cbn [fst snd] in *.
  - assert (∀ read, held w' k = Some read → readCollectionEpochs (read_descriptor read) (userKey_id userKey) (userKey_id <$> generations) = reading_current) as Hcur.
    { intros read Hr. apply onUserKey_current. by eapply settled_current. }
    split_and!; [done..| |].
    + intros read Hr. unfold collectionEpochsCurrent. by rewrite Hcur.
    + intros r w''. unfold rotateCollectionEpochsToUserKey.
      destruct (quiet_read (held:=held) (k:=k) (store:=store) w') as (w1 & Hr & Hf1). rewrite (comp_bind_ok _ _ _ _ _ Hr).
      destruct (held w' k) as [read|] eqn:Hh; [|intros [= <- <-]; split; [done|intros again [= <-]; by right]].
      rewrite (Hcur read eq_refl). destruct (current_settles held k store w1) as [Hf2 Hout]. cbn zeta in *.
      intros Hrun. rewrite Hrun in Hf2, Hout. cbn in Hf2, Hout. split; [intros; by rewrite Hf2|done].
  - intros k'. destruct (decide (k' = k)) as [->|]; [done|auto].
Qed.
