(* ===== verification/RosterCascade.v ===== *)
(** * The roster-and-cascade tail, and the revocation of a client

    [src/src/keys/userKeyRosterCascade.ts], the policy of
    [src/src/clients/policy.ts], and the whole of a revocation,
    [src/src/clients/revocation.ts]: the document edit, the roster's rotation
    onto the edited document, the adoption of the fresh user key, the
    collections' move onto it and the re-mint of the generation delegation. *)

From Stdlib Require QArith_base.
From S2P Require Import Prelude Json JsText CeremonyEvents AccountDocument LadderRungs ResourceController AccountLog LogStore KeyRotation LadderIndex LadderInventory ClientListing ClientRevocation AccountEntry Descriptors UserKeyRoster RosterConvergence UserKeyCascade.

(** ** Data *)

Inductive SealOutcome := seal_sealed | seal_noop | seal_failed (err : js_error).

(** [string[] | (() => Promise<string[]>)]. *)
Inductive CollectionIds (W : Type) :=
  | GivenIds (ids : list string)
  | ListedIds (list_ids : comp W (list string)).
Arguments GivenIds {W}.
Arguments ListedIds {W}.

Record CascadeCollections (W : Type) := mkCollections {
  collectionIds : CollectionIds W;
  storeFor : string → EncryptionDescriptorStore W;
  isEncrypted : option (string → comp W bool)
}.
Arguments mkCollections {W}.
Arguments collectionIds {W}.
Arguments storeFor {W}.
Arguments isEncrypted {W}.

Record RosterCascadeResult := mkTail {
  tail_rotated : bool;
  rosterSeal : option SealOutcome;
  tail_collections : UserKeyCascadeResult;
  tail_userKey : option UserKey;
  rosterDescriptor : option CollectionEncryption
}.

(** What an adoption hook is handed. *)
Record AdoptedUserKey := mkAdopted {
  adopted_userKey : UserKey;
  adopted_latestEpochId : string;
  adopted_descriptor : CollectionEncryption
}.

Inductive RemintSkip := no_pointer | no_ladder_seed | no_ladder_vm | remint_failed.
Record GenerationDelegationRemint := mkRemint { renewed : bool; remint_skipped : option RemintSkip }.

Record ClientRevocationResult := mkRevocation {
  rev_rotated : bool;
  rev_rosterSeal : option SealOutcome;
  rev_collections : UserKeyCascadeResult;
  rev_document : AccountDocument;
  rev_userKey : option UserKey;
  rev_rosterDescriptor : option CollectionEncryption;
  rev_generation : option GenerationDelegationRemint
}.

Definition no_cascade : UserKeyCascadeResult := mkCascade ∅ [].

(** ** Policy *)

Definition assertUpdateKeyAttributed (signingKeyMultibase : string) (updateKeyMultibase : option string) :
    result RevokedClientKeys :=
  match updateKeyMultibase with
  | None | Some EmptyString => mthrow (plain_error "This wallet's update key could not be attributed from the account log, so it cannot be disconnected from here.")
  | Some updateKeyMultibase => Ok (mkRevoked signingKeyMultibase updateKeyMultibase)
  end.

Definition cascadeCompletion (collections : UserKeyCascadeResult) (rosterSeal : option SealOutcome) : MendOutcomeKind :=
  match cascade_failed collections, rosterSeal with
  | [], Some (seal_failed _) => partial
  | [], _ => clean
  | _, _ => partial
  end.

Section cascade.
Context {W : Type} {readers : DocumentReaders} {keys : WebvhKeys} 
  {commitments : CommitmentLibrary} {library : EpochLibrary}.

(** ** The tail *)

Definition collectionIdsOf (collections : CascadeCollections W) : comp W (list string) :=
  match collectionIds collections with GivenIds ids => mret ids | ListedIds list_ids => list_ids end.

Definition anchorRosterStoreAt (rosterStore : EncryptionDescriptorStore W) (did : string) (log : DIDLog) :
    comp W WebvhResourceLogController :=
  controller ← lift (webvhResourceLogController did log);
  (match isSealableDescriptorStore rosterStore with
   | Some (_, setMinimum) => setMinimum controller
   | None => mret ()
   end);;
  mret controller.

(** A supplied descriptor is read without the store. *)
Definition adoptRotatedUserKey (rosterStore : EncryptionDescriptorStore W) (descriptor : CollectionEncryption)
    (userKey : option UserKey) (readBackKeyAgreementKey : KeyAgreementKey) (pinnedEpochId : option string)
    (onUserKeyAdopted : option (AdoptedUserKey → comp W ())) : comp W (bool * UserKey * CollectionEncryption) :=
  read ← lift (readServed descriptor None userKey readBackKeyAgreementKey pinnedEpochId);
  (match rosterRead_rotated read, onUserKeyAdopted with
   | true, Some adopt =>
       adopt (mkAdopted (rosterRead_userKey read) (rosterRead_latestEpochId read) (rosterRead_descriptor read))
   | _, _ => mret ()
   end);;
  mret (rosterRead_rotated read, rosterRead_userKey read, rosterRead_descriptor read).

Definition fanOutToCollections (collections : CascadeCollections W) (rosterDescriptor : CollectionEncryption)
    (clientKeyAgreementKey : KeyAgreementKey) (userKey : UserKey) (controller : WebvhResourceLogController) :
    comp W UserKeyCascadeResult :=
  ids ← collectionIdsOf collections;
  cascadeCollectionsToUserKey ids (storeFor collections) (isEncrypted collections) rosterDescriptor
    clientKeyAgreementKey userKey (Some controller).

(** The best-effort seal of the roster's log. *)
Definition sealRoster (rosterStore : EncryptionDescriptorStore W) : comp W (option SealOutcome) :=
  match isSealableDescriptorStore rosterStore with
  | Some (seal, _) =>
      try_catch (sealed ← seal; mret (Some (if sealed : bool then seal_sealed else seal_noop)))
        (λ err, mret (Some (seal_failed err)))
  | None => mret None
  end.

Definition rotateRosterToDocumentAndCascade (rosterStore : EncryptionDescriptorStore W) (did : string)
    (doc : AccountDocument) (log : DIDLog) (userKey : option UserKey) (clientKeyAgreementKey : KeyAgreementKey)
    (pinnedEpochId : option string) (onUserKeyAdopted : option (AdoptedUserKey → comp W ()))
    (collections : CascadeCollections W) : comp W RosterCascadeResult :=
  controller ← anchorRosterStoreAt rosterStore did log;
  converged ← convergeUserKeyRosterToDocument rosterStore doc did None None (Some clientKeyAgreementKey);
  match conv_descriptor converged with
  | None => mret (mkTail false None no_cascade None None)
  | Some descriptor =>
      '(rotated, key, descriptor) ←
        adoptRotatedUserKey rosterStore descriptor userKey clientKeyAgreementKey pinnedEpochId onUserKeyAdopted;
      seal ← sealRoster rosterStore;
      cascade ← fanOutToCollections collections descriptor clientKeyAgreementKey key controller;
      mret (mkTail rotated seal cascade (Some key) (Some descriptor))
  end.

(** The rotation off one named recipient: what the roster is after it, and
    whether it moved. *)
Definition retireWrapped (rosterStore : EncryptionDescriptorStore W) (doc : AccountDocument) (retireRecipientId : string)
    (current : DescriptorStoreRead) : comp W (CollectionEncryption * bool) :=
  wrapped ← lift (rosterWrapsRecipient (read_descriptor current) retireRecipientId);
  if wrapped : bool then
    descriptor ← rotateUserKeyRoster rosterStore doc retireRecipientId (Some current);
    mret (descriptor, true)
  else mret (read_descriptor current, false).

Definition retireRosterRecipientAndCascade (rosterStore : EncryptionDescriptorStore W) (did : string)
    (doc : AccountDocument) (log : DIDLog) (retireRecipientId : string) (userKey : option UserKey)
    (readBackKeyAgreementKey : KeyAgreementKey) (pinnedEpochId : option string)
    (onUserKeyAdopted : option (AdoptedUserKey → comp W ())) (collections : CascadeCollections W) :
    comp W RosterCascadeResult :=
  controller ← anchorRosterStoreAt rosterStore did log;
  current ← store_read rosterStore;
  match current with
  | None => mret (mkTail false None no_cascade None None)
  | Some current =>
      '(descriptor, rotated) ← retireWrapped rosterStore doc retireRecipientId current;
      '(_, key, descriptor) ←
        adoptRotatedUserKey rosterStore descriptor userKey readBackKeyAgreementKey pinnedEpochId onUserKeyAdopted;
      cascade ← fanOutToCollections collections descriptor readBackKeyAgreementKey key controller;
      mret (mkTail rotated None cascade (Some key) (Some descriptor))
  end.
End cascade.

(** ** Revoking a client *)

Definition CLIENT_REVOCATION_STAGES : list string :=
  ["document-edit"; "roster-rotation"; "collection-epochs"; "generation-remint"].
Definition CLIENT_REVOCATION_REFUSALS : list string := ["StagedCommitmentAmbiguousError"; "LadderAttributionError"].

(** [{ ...(fresh ? {} : { prior: true }) }]. *)
Definition priorUnless (fresh : bool) : Detail :=
  DetailOf (if fresh then [] else [("prior", Ok (UJson (JBool true)))]).

(** The settings of a revocation run's events. *)
Definition revocation_run (runId : string) : CeremonyRun := mkRun "client-revocation" runId CLIENT_REVOCATION_REFUSALS [].

Section revocation.
Context {W : Type} {readers : DocumentReaders} {resolver : WebvhResolver} {writer : WebvhWriter}
  {hashes : HashLibrary} {keys : WebvhKeys} {twins : TwinLibrary} 
  {commitments : CommitmentLibrary} {library : EpochLibrary} {shape : ThrownShape}.
Context `{!Cell W (option concluded_head)} {emitter : Cell W EmitterState}.
Variables (updateDID : UpdateDID) (logger : Logger W).

(** What [revokeAccountClient] is called with. *)
Record RevocationOptions := mkRevocationOptions {
  ro_idStore : WebvhIdStore W;
  ro_signer : AccountLogSigner;
  ro_projectionStore : option (WebvhIdStore W);
  ro_revokedClient : RevokedClientKeys;
  ro_knownLatentHashes : list string;
  ro_expectedDid : option string;
  ro_rosterStore : EncryptionDescriptorStore W;
  ro_userKey : option UserKey;
  ro_clientKeyAgreementKey : KeyAgreementKey;
  ro_pinnedEpochId : option string;
  ro_onUserKeyAdopted : option (AdoptedUserKey → comp W ());
  ro_collections : CascadeCollections W;
  ro_remintGenerationDelegation : option (AccountDocument → comp W GenerationDelegationRemint);
  ro_onRotationAdopted : option (UserKey → comp W ())
}.

Definition remintStage (events : CeremonyRun) (generation : option GenerationDelegationRemint) : comp W () :=
  match generation with
  | Some (mkRemint renewed None) => stage logger events "generation-remint" (priorUnless renewed)
  | _ => mret ()
  end.

Definition remintFor (remint : option (AccountDocument → comp W GenerationDelegationRemint)) (doc : AccountDocument) :
    comp W (option GenerationDelegationRemint) :=
  match remint with
  | Some remint => generation ← remint doc; mret (Some generation)
  | None => mret None
  end.

(** The stage events of the tail, when there was a roster. *)
Definition tailStages (events : CeremonyRun) (tail : RosterCascadeResult) : comp W () :=
  match rosterDescriptor tail, tail_userKey tail with
  | Some _, Some _ =>
      stage logger events "roster-rotation" (priorUnless (tail_rotated tail));;
      match cascade_failed (tail_collections tail) with
      | [] =>
          let wrote := existsb (λ outcome, negb (bool_decide (outcome = outcome_noop)))
            (map_to_list (outcomes (tail_collections tail))).*2 in
          stage logger events "collection-epochs" (priorUnless wrote)
      | _ => mret ()
      end
  | _, _ => mret ()
  end.

Definition announceRotation (options : RevocationOptions) (tail : RosterCascadeResult) (userKey : UserKey) : comp W () :=
  match tail_rotated tail, ro_onRotationAdopted options with
  | true, Some adopted => adopted userKey
  | _, _ => mret ()
  end.

Definition concludeRevocation (events : CeremonyRun) (options : RevocationOptions) (doc : AccountDocument)
    (tail : RosterCascadeResult) : comp W ClientRevocationResult :=
  generation ← remintFor (ro_remintGenerationDelegation options) doc;
  remintStage events generation;;
  match rosterDescriptor tail, tail_userKey tail with
  | Some descriptor, Some userKey =>
      announceRotation options tail userKey;;
      mret (mkRevocation (tail_rotated tail) (rosterSeal tail) (tail_collections tail) doc (Some userKey)
        (Some descriptor) generation)
  | _, _ => mret (mkRevocation false None (tail_collections tail) doc None None generation)
  end.

Definition runClientRevocation (events : CeremonyRun) (options : RevocationOptions) : comp W ClientRevocationResult :=
  lift (assertUpdateKeyAttributed (revoked_signingKey (ro_revokedClient options))
    (Some (revoked_updateKey (ro_revokedClient options))));;
  '(did, doc, log) ← revokeWebvhClient updateDID logger (ro_idStore options) (ro_signer options)
    (ro_projectionStore options) (ro_revokedClient options) (ro_knownLatentHashes options) (ro_expectedDid options);
  stage logger events "document-edit" NoDetail;;
  tail ← rotateRosterToDocumentAndCascade (ro_rosterStore options) did doc log (ro_userKey options)
    (ro_clientKeyAgreementKey options) (ro_pinnedEpochId options) (ro_onUserKeyAdopted options) (ro_collections options);
  tailStages events tail;;
  concludeRevocation events options doc tail.

Definition count (n : nat) : Prelude.result unknown := Ok (UJson (JNum (QArith_base.inject_Z (Z.of_nat n)))).

(** How a revocation that returned is classified. *)
Definition revocationOutcome (result : ClientRevocationResult) : MendOutcomeKind * Detail :=
  let failedStages :=
    (match rev_generation result with Some (mkRemint _ (Some remint_failed)) => 1 | _ => 0 end) +
    (match rev_rosterSeal result with Some (seal_failed _) => 1 | _ => 0 end) in
  let failedCollections := length (cascade_failed (rev_collections result)) in
  (if decide (0 < failedStages ∨ 0 < failedCollections) then partial else clean,
   DetailOf [("failedStages", count failedStages);
             ("failedCollections", count failedCollections)]).

Definition revokeAccountClient (runId : string) (options : RevocationOptions) : comp W ClientRevocationResult :=
  modify (set_cell fresh_emitter);;
  let events := revocation_run runId in
  CeremonyEvents.run logger events (runClientRevocation events options) (λ result, mret (revocationOutcome result)).
End revocation.

(** * What the tail of a revocation leaves

    The roster and every collection after
    [rotateRosterToDocumentAndCascade], from the theorems about the two
    halves. *)

(** ** Steps that write no descriptor *)

Definition still {W K A} (held : W → K → option DescriptorStoreRead) (c : comp W A) : Prop :=
  ∀ w k, held (c w).2 k = held w k.

Section still.
Context {W K : Type} (held : W → K → option DescriptorStoreRead).

Lemma still_ret {A} (a : A) : still held (mret a).
Proof. done. Qed.
Lemma still_throw {A} (e : js_error) : still held (mthrow e : comp W A).
Proof. done. Qed.
Lemma still_lift {A} (r : result A) : still held (lift r).
Proof. done. Qed.
Lemma still_bind {A B} (c : comp W A) (f : A → comp W B) :
  still held c → (∀ a, still held (f a)) → still held (c ≫= f).
Proof.
  intros Hc Hf w k. unfold mbind, comp_bind. specialize (Hc w k).
  destruct (c w) as [[a|e] w']; cbn in *; [|done]. by rewrite Hf, Hc.
Qed.
Lemma still_try {A} (c : comp W A) h : still held c → (∀ e, still held (h e)) → still held (try_catch c h).
Proof.
  intros Hc Hh w k. unfold try_catch. specialize (Hc w k). destruct (c w) as [[a|e] w']; cbn in *; [done|]. by rewrite Hh, Hc.
Qed.
End still.
Create HintDb still discriminated.
#[export] Hint Constants Opaque : still.
#[export] Hint Resolve still_ret still_throw still_lift still_bind still_try : still.

(** ** The user key a read delivers *)

Section read.
Context {library : EpochLibrary}.

Lemma delivered_id descriptor epoch userKey clientKey key rotated :
  currentEpoch descriptor = Some (epoch_id epoch) →
  deliveredUserKey descriptor epoch userKey clientKey = Ok (key, rotated) → userKey_id key = epoch_id epoch.
Proof.
  intros Hc. unfold deliveredUserKey.
  set (adopt := match find_first _ _ with Some _ => _ | None => _ end).
  assert (adopt = Ok (key, rotated) → userKey_id key = epoch_id epoch) as Hadopt.
  { subst adopt. destruct (find_first _ _) as [entry|]; [|done]. intros (secret & _ & Hs)%result_bind_ok.
    destruct secret as [secret|]; [|done]. by injection Hs as <- <-. }
  destruct userKey as [cached|]; [|done]. case_decide as Hd; [|done]. intros [= <- <-]. congruence.
Qed.

Lemma readServed_ok descriptor etag userKey clientKey pinned read :
  readServed descriptor etag userKey clientKey pinned = Ok read →
  rosterRead_descriptor read = descriptor ∧ rosterRead_latestEpochId read = userKey_id (rosterRead_userKey read) ∧
  currentEpoch descriptor = Some (userKey_id (rosterRead_userKey read)).
Proof.
  intros (epoch & He & (u & _ & ([key rotated] & Hk & Hr)%result_bind_ok)%result_bind_ok)%result_bind_ok.
  injection Hr as <-. cbn. apply currentEpochOf_ok in He as [_ Hc]. apply delivered_id in Hk; [|done]. by rewrite Hk.
Qed.
End read.

(** ** The tail *)

Section tail.
Context {W K : Type} `{!EqDecision K} (held : W → K → option DescriptorStoreRead).
Context {readers : DocumentReaders} {keys : WebvhKeys} {commitments : CommitmentLibrary}
  {library : EpochLibrary} {laws : EpochLibraryLaws} {fragmentLaws : FragmentReaderLaws}.
Context (kr : K) (rosterStore : EncryptionDescriptorStore W) {quietRoster : QuietStore held kr rosterStore}
  {sealsRoster : QuietSeal held rosterStore}.

Lemma anchor_still did log : still held (anchorRosterStoreAt rosterStore did log).
Proof.
  unfold anchorRosterStoreAt. apply still_bind; [auto with still|intros controller]. apply still_bind; [|auto with still].
  destruct (isSealableDescriptorStore rosterStore) as [[seal setMinimum]|] eqn:Hs; [|apply still_ret].
  intros w k. by eapply sealsRoster.
Qed.

Lemma seal_still : still held (sealRoster rosterStore) ∧ ∀ w, ∃ o, (sealRoster rosterStore w).1 = Ok o.
Proof.
  unfold sealRoster. destruct (isSealableDescriptorStore rosterStore) as [[seal setMinimum]|] eqn:Hs; [|by split; [apply still_ret|eauto]].
  split.
  - apply still_try; [|auto with still]. apply still_bind; [|auto with still]. intros w k. by eapply sealsRoster.
  - intros w. unfold try_catch, mbind, comp_bind. destruct (seal w) as [[b|e] w']; cbn; eauto.
Qed.

Context (adopt : option (AdoptedUserKey → comp W ())) (adopts : ∀ f a, adopt = Some f → still held (f a)).

Lemma adopt_still descriptor userKey clientKey pinned :
  still held (adoptRotatedUserKey rosterStore descriptor userKey clientKey pinned adopt).
Proof.
  unfold adoptRotatedUserKey. apply still_bind; [auto with still|intros read]. apply still_bind; [|auto with still].
  destruct (rosterRead_rotated read); [|apply still_ret]. destruct adopt as [f|] eqn:Ha; [|apply still_ret]. by apply adopts.
Qed.

Lemma adopt_ok descriptor userKey clientKey pinned w rotated key descriptor' w' :
  adoptRotatedUserKey rosterStore descriptor userKey clientKey pinned adopt w = (Ok (rotated, key, descriptor'), w') →
  descriptor' = descriptor ∧ currentEpoch descriptor = Some (userKey_id key).
Proof.
  unfold adoptRotatedUserKey. destruct (readServed descriptor None userKey clientKey pinned) as [read|] eqn:Hr; [|done].
  apply readServed_ok in Hr as (Hd & _ & Hc). rewrite (comp_bind_ok (lift (Ok read)) _ w read w) by done.
  unfold mbind, comp_bind. destruct (_ w) as [[u|e] w1]; [|done]. intros [= <- <- <- <-]. done.
Qed.

Context (key : string → K) `{!Inj (=) (=) key} (apart : ∀ id, key id ≠ kr).
Context (collections : CascadeCollections W).
Context {quiet : ∀ id, QuietStore held (key id) (storeFor collections id)}
  {seals : ∀ id, QuietSeal held (storeFor collections id)}.
Context (encrypts : ∀ f id, isEncrypted collections = Some f → still held (f id))
  (lists : ∀ c, collectionIds collections = ListedIds c → still held c).

(** The ids listed are some list without repetitions. *)
Definition lists_ids (w : W) (ids : list string) : Prop := (collectionIdsOf collections w).1 = Ok ids.
Context (distinct : ∀ w ids, lists_ids w ids → NoDup ids ∧ "__proto__" ∉ ids).

Lemma fanOut_settles descriptor clientKey userKey controller w :
  let o := fanOutToCollections collections descriptor clientKey userKey controller w in
  held o.2 kr = held w kr ∧
  match o.1 with
  | Ok result => ∃ ids generations, lists_ids w ids ∧ unwrapUserKeyGenerations descriptor clientKey = Ok generations ∧
      ∀ id, id ∈ ids → collectionSettled held key userKey generations w result o.2 id
  | Throw _ => ∀ k', held o.2 k' = held w k'
  end.
Proof.
  cbn zeta. unfold fanOutToCollections.
  assert (still held (collectionIdsOf collections)) as Hst.
  { unfold collectionIdsOf. destruct (collectionIds collections) as [ids|c] eqn:Hc; [apply still_ret|by apply lists]. }
  specialize (Hst w). assert (∀ ids, (collectionIdsOf collections w).1 = Ok ids → NoDup ids ∧ "__proto__" ∉ ids) as Hids
    by (intros ids; apply distinct).
  unfold lists_ids. unfold mbind, comp_bind. destruct (collectionIdsOf collections w) as [[ids|e] w1]; cbn in Hst, Hids; [|done].
  destruct (Hids ids eq_refl) as [Hnd Hp].
  destruct (cascade_settles held key (storeFor collections) (isEncrypted collections)
    (λ f id w k Hf, encrypts f id Hf w k) ids descriptor clientKey userKey (Some controller) w1 Hnd Hp) as [Hf Hr].
  cbn zeta in *. destruct (cascadeCollectionsToUserKey _ _ _ _ _ _ _ w1) as [[result|e] w2]; cbn in *;
    (split; [rewrite Hf; [done|]; intros id _ Heq; by apply (apart id)|]).
  - destruct (unwrapUserKeyGenerations descriptor clientKey) as [generations|]; [|done].
    exists ids, generations. split_and!; [done..|]. intros id Hid. destruct (Hr id Hid) as (task & Hs & Hrest).
    exists task. split; [|done]. by rewrite Hst in Hs.
  - destruct (unwrapUserKeyGenerations descriptor clientKey) as [generations|]; [done|]. intros k'. by rewrite Hr.
Qed.
End tail.

(** ** The account a cascade runs over *)

(** The roster at one key and each collection at its own: quiet stores, and
    callbacks that write no descriptor. *)
Record QuietAccount {W K} `{!EqDecision K} (held : W → K → option DescriptorStoreRead) (kr : K) (key : string → K)
    (rosterStore : EncryptionDescriptorStore W) (adopt : option (AdoptedUserKey → comp W ()))
    (collections : CascadeCollections W) : Prop := {
  account_roster : QuietStore held kr rosterStore;
  account_rosterSeals : QuietSeal held rosterStore;
  account_collections id : QuietStore held (key id) (storeFor collections id);
  account_seals id : QuietSeal held (storeFor collections id);
  account_keys : Inj (=) (=) key;
  account_apart id : key id ≠ kr;
  account_adopts f a : adopt = Some f → still held (f a);
  account_encrypts f id : isEncrypted collections = Some f → still held (f id);
  account_lists c : collectionIds collections = ListedIds c → still held c;
  account_distinct w ids : lists_ids collections w ids → NoDup ids ∧ "__proto__" ∉ ids
}.

(** Where a cascade leaves the collections: on the user key where an outcome
    is tallied, as they were where none is. *)
Definition collectionsMoved {W K} {library : EpochLibrary} (held : W → K → option DescriptorStoreRead) (key : string → K)
    (collections : CascadeCollections W) (clientKey : KeyAgreementKey) (w : W) (next : CollectionEncryption) (userKey : UserKey)
    (result : UserKeyCascadeResult) (w' : W) : Prop :=
  ∃ w1 ids generations, lists_ids collections w1 ids ∧ unwrapUserKeyGenerations next clientKey = Ok generations ∧
    ∀ id, id ∈ ids →
      match outcomes result !! id with
      | Some _ => ∀ read, held w' (key id) = Some read →
          onUserKey (read_descriptor read) (userKey_id userKey) (userKey_id <$> generations)
      | None => held w' (key id) = held w (key id)
      end.

(** Where a rotation cascade ends: the roster wraps exactly the recipients
    the document stands for, the user key is its current epoch's, and each
    collection is on that key where an outcome is tallied, and as it was where
    none is. *)
Definition cutOff {W K} {readers : DocumentReaders} {keys : WebvhKeys} {commitments : CommitmentLibrary}
    {library : EpochLibrary} (held : W → K → option DescriptorStoreRead) (kr : K) (key : string → K)
    (collections : CascadeCollections W) (clientKey : KeyAgreementKey) (doc : AccountDocument) (roster : CollectionEncryption)
    (w : W) (next : CollectionEncryption) (userKey : UserKey) (result : UserKeyCascadeResult) (w' : W) : Prop :=
  holds held kr w' next ∧ wrapsExactly doc (Some clientKey) roster next ∧ currentEpoch next = Some (userKey_id userKey) ∧
  collectionsMoved held key collections clientKey w next userKey result w'.

Lemma settled_outcome {library : EpochLibrary} {W K} (held : W → K → option DescriptorStoreRead) key userKey generations w
    result w' id :
  collectionSettled held key userKey generations w result w' id →
  match outcomes result !! id with
  | Some _ => ∀ read, held w' (key id) = Some read →
      onUserKey (read_descriptor read) (userKey_id userKey) (userKey_id <$> generations)
  | None => held w' (key id) = held w (key id)
  end.
Proof.
  intros (task & Hs & -> & _). destruct task as [[outcome|err]|]; [|done..]. cbn [task_outcome].
  destruct outcome; cbn in Hs.
  - destruct Hs as [-> Hs]. auto.
  - destruct Hs as [-> Hs]. auto.
  - destruct Hs as (base & next & _ & -> & Hon & _). by intros read [= <-].
  - destruct Hs as (base & next & fresh & _ & -> & Hon & _). by intros read [= <-].
Qed.

Section account.
Context {W K : Type} `{!EqDecision K} (held : W → K → option DescriptorStoreRead) (kr : K) (key : string → K).
Context {readers : DocumentReaders} {keys : WebvhKeys} {commitments : CommitmentLibrary}
  {library : EpochLibrary} {laws : EpochLibraryLaws} {fragmentLaws : FragmentReaderLaws}.

Lemma tail_settles rosterStore adopt collections (account : QuietAccount held kr key rosterStore adopt collections)
    did doc log userKey clientKey pinned roster etag w :
  held w kr = Some (mkRead roster etag) → markedSoundly doc →
  match rotateRosterToDocumentAndCascade rosterStore did doc log userKey clientKey pinned adopt collections w with
  | (Ok tail, w') => ∃ next key', rosterDescriptor tail = Some next ∧ tail_userKey tail = Some key' ∧
      cutOff held kr key collections clientKey doc roster w next key' (tail_collections tail) w'
  | (Throw _, w') => (∀ id, held w' (key id) = held w (key id)) ∧
      (held w' kr = held w kr ∨ ∃ next, holds held kr w' next ∧ wrapsExactly doc (Some clientKey) roster next)
  end.
Proof.
  destruct account as [Hq Hqs Hc Hcs Hinj Hapart Hadopts Hencrypts Hlists Hdistinct]. intros Hh Hm.
  unfold rotateRosterToDocumentAndCascade. pose proof (anchor_still held rosterStore did log w) as Ha.
  unfold mbind at 1, comp_bind at 1. destruct (anchorRosterStoreAt rosterStore did log w) as [[controller|err] w1]; cbn in Ha; [|auto].
  unfold mbind at 1, comp_bind at 1. pose proof (quiet_read (held:=held) (k:=kr) (store:=rosterStore) w1) as (w2 & Hr & Hf).
  assert (∀ r, r ∈ enrolledClientRosterRecipients doc → backed doc (recipient_id r)) as Hen by (intros r; by apply enrolled_backed).
  assert (Hconv : ∀ o, o = convergeUserKeyRosterToDocument rosterStore doc did None None (Some clientKey) w1 →
    leaves held kr doc (Some clientKey) roster w o.1 o.2).
  { intros o ->. unfold convergeUserKeyRosterToDocument. rewrite (comp_bind_ok _ _ _ _ _ Hr), Ha, Hh. cbn [read_descriptor].
    destruct (currentEpochOf roster "The user key roster") as [epoch|err] eqn:He.
    - destruct (converge_leaves held kr rosterStore doc did roster epoch He etag (Some (mkRead roster etag))
        ltac:(by intros ? [= <-]) (Some clientKey) w2) as [[Hfr Hl] _]; [by rewrite Hf, Ha|done|].
      split; [intros; by rewrite Hfr, Hf, Ha|]. by rewrite Hf, Ha in Hl.
    - unfold convergeRead. rewrite He. split; cbn; intros; by rewrite Hf, Ha. }
  specialize (Hconv _ eq_refl).
  destruct (convergeUserKeyRosterToDocument _ _ _ _ _ _ w1) as [[converged|err] w3]; cbn in Hconv;
    [|destruct Hconv as [Hfr Hl]; split; [intros id; by rewrite Hfr|by left]].
  destruct Hconv as [Hfr (next & Hn & Hheld & Hwraps & _)]. rewrite Hn.
  unfold mbind at 1, comp_bind at 1. pose proof (adopt_still held rosterStore adopt Hadopts next userKey clientKey pinned w3) as Had.
  destruct (adoptRotatedUserKey rosterStore next userKey clientKey pinned adopt w3) as [[[[rotated key'] next']|err] w4] eqn:Hadopt; cbn in Had;
    [|split; [intros id; by rewrite Had, Hfr|right; exists next; split; [|done]; by destruct Hheld as [e He]; exists e; rewrite Had]].
  apply adopt_ok in Hadopt as [-> Hcur]; [|done..].
  destruct (seal_still held rosterStore) as [Hseal Hsok]. unfold mbind at 1, comp_bind at 1. specialize (Hseal w4). specialize (Hsok w4) as [o Ho].
  destruct (sealRoster rosterStore w4) as [r w5]; cbn in Ho, Hseal. subst r.
  unfold mbind, comp_bind.
  pose proof (fanOut_settles held kr key Hapart collections Hencrypts Hlists Hdistinct next clientKey key' controller w5) as [Hkr Hfan].
  assert (∀ id, held w5 (key id) = held w (key id)) as Hcoll by (intros id; by rewrite Hseal, Had, Hfr).
  assert (holds held kr w5 next) as Hh5 by (destruct Hheld as [e He]; exists e; by rewrite Hseal, Had).
  cbn zeta in *. destruct (fanOutToCollections collections next clientKey key' controller w5) as [[result|err] w6]; cbn in *.
  - destruct Hfan as (ids & generations & Hids & Hgen & Hsettled). exists next, key'. split_and!; [done..|].
    split; [destruct Hh5 as [e He]; exists e; by rewrite Hkr|]. split_and!; [done..|]. exists w5, ids, generations.
    split_and!; [done..|]. intros id Hid. rewrite <- (Hcoll id). by apply settled_outcome, Hsettled.
  - split; [intros id; by rewrite Hfan|]. right. exists next. split; [|done]. destruct Hh5 as [e He]. exists e. by rewrite Hfan.
Qed.

(** Where the rotation off one named recipient ends. *)
Definition severed (collections : CascadeCollections W) (clientKey : KeyAgreementKey) (doc : AccountDocument) (kid : string)
    (roster : CollectionEncryption) (w : W) (next : CollectionEncryption) (userKey : UserKey) (result : UserKeyCascadeResult)
    (w' : W) : Prop :=
  holds held kr w' next ∧ retires doc kid roster next ∧ currentEpoch next = Some (userKey_id userKey) ∧
  collectionsMoved held key collections clientKey w next userKey result w'.

Lemma retire_settles rosterStore adopt collections (account : QuietAccount held kr key rosterStore adopt collections)
    did doc log kid userKey clientKey pinned roster etag w :
  held w kr = Some (mkRead roster etag) →
  match retireRosterRecipientAndCascade rosterStore did doc log kid userKey clientKey pinned adopt collections w with
  | (Ok tail, w') => ∃ next key', rosterDescriptor tail = Some next ∧ tail_userKey tail = Some key' ∧
      (tail_rotated tail = true ↔ kid ∈ currentKids roster) ∧
      severed collections clientKey doc kid roster w next key' (tail_collections tail) w'
  | (Throw _, w') => (∀ id, held w' (key id) = held w (key id)) ∧
      (held w' kr = held w kr ∨ ∃ next, holds held kr w' next ∧ retires doc kid roster next)
  end.
Proof.
  destruct account as [Hq Hqs Hc Hcs Hinj Hapart Hadopts Hencrypts Hlists Hdistinct]. intros Hh.
  unfold retireRosterRecipientAndCascade. pose proof (anchor_still held rosterStore did log w) as Ha.
  unfold mbind at 1, comp_bind at 1. destruct (anchorRosterStoreAt rosterStore did log w) as [[controller|err] w1]; cbn in Ha; [|auto].
  unfold mbind at 1, comp_bind at 1. pose proof (quiet_read (held:=held) (k:=kr) (store:=rosterStore) w1) as (w2 & Hr & Hf).
  rewrite Hr, Ha, Hh. unfold mbind at 1, comp_bind at 1.
  assert (match retireWrapped rosterStore doc kid (mkRead roster etag) w2 with
    | (Ok (next, rotated), w3) => (∀ k', k' ≠ kr → held w3 k' = held w2 k') ∧ holds held kr w3 next ∧ retires doc kid roster next ∧
        (rotated = true ↔ kid ∈ currentKids roster)
    | (Throw _, w3) => ∀ k', held w3 k' = held w2 k' end) as Hret.
  { unfold retireWrapped, rosterWrapsRecipient. cbn [read_descriptor].
    destruct (currentEpochOf roster "The user key roster") as [epoch|err] eqn:He; [|done].
    rewrite (comp_bind_ok (lift _) _ w2 (bool_decide (kid ∈ wrappedKids epoch)) w2) by done.
    assert (held w2 kr = Some (mkRead roster etag)) as Hh2 by by rewrite Hf, Ha.
    case_bool_decide as Hin.
    - pose proof (retire_leaves held kr rosterStore doc roster epoch He etag (Some (mkRead roster etag))
        ltac:(by intros ? [= <-]) kid w2 Hh2 Hin) as [Hfr Hl]. cbn zeta in *. unfold mbind, comp_bind.
      destruct (rotateUserKeyRoster _ _ _ _ w2) as [[next|err] w3]; cbn in *.
      + destruct Hl as (Hheld & Hret & _). split_and!; [done..|]. by rewrite (currentEpochOf_label _ _ _ He).
      + intros k'. destruct (decide (k' = kr)) as [->|]; auto.
    - cbn. split_and!; [done|by exists etag| |by rewrite (currentEpochOf_label _ _ _ He)].
      exists epoch. split; [done|]. intros k. rewrite (currentEpochOf_label _ _ _ He). split; [|by intros (? & _)].
      intros Hk. split_and!; [done|by intros ->|done]. }
  destruct (retireWrapped _ _ _ _ w2) as [[[next rotated]|err] w3];
    [|split; [intros id; by rewrite Hret, Hf, Ha|left; by rewrite Hret, Hf, Ha]].
  destruct Hret as (Hfr & Hheld & Hretires & Hrot).
  unfold mbind at 1, comp_bind at 1. pose proof (adopt_still held rosterStore adopt Hadopts next userKey clientKey pinned w3) as Had.
  destruct (adoptRotatedUserKey rosterStore next userKey clientKey pinned adopt w3) as [[[[rotated' key'] next']|err] w4] eqn:Hadopt; cbn in Had;
    [|split; [intros id; by rewrite Had, Hfr, Hf|right; exists next; split; [|done]; by destruct Hheld as [e He]; exists e; rewrite Had]].
  apply adopt_ok in Hadopt as [-> Hcur]; [|done..].
  unfold mbind, comp_bind.
  pose proof (fanOut_settles held kr key Hapart collections Hencrypts Hlists Hdistinct next clientKey key' controller w4) as [Hkr Hfan].
  assert (∀ id, held w4 (key id) = held w (key id)) as Hcoll by (intros id; by rewrite Had, Hfr, Hf).
  assert (holds held kr w4 next) as Hh4 by (destruct Hheld as [e He]; exists e; by rewrite Had).
  cbn zeta in *. destruct (fanOutToCollections collections next clientKey key' controller w4) as [[result|err] w5]; cbn in *.
  - destruct Hfan as (ids & generations & Hids & Hgen & Hsettled). exists next, key'. split_and!; [done..|].
    split; [destruct Hh4 as [e He]; exists e; by rewrite Hkr|]. split_and!; [done..|]. exists w4, ids, generations.
    split_and!; [done..|]. intros id Hid. rewrite <- (Hcoll id). by apply settled_outcome, Hsettled.
  - split; [intros id; by rewrite Hfan|]. right. exists next. split; [|done]. destruct Hh4 as [e He]. exists e. by rewrite Hfan.
Qed.
End account.

(** * The account log's half moves no descriptor

    What a cascade's theorems need of the entry that precedes it: the seam of
    [AccountEntry], its retries and the stage events leave every descriptor as
    it is, as long as the stores and the logger they call do. *)

Section still.
Context {W K : Type} (held : W → K → option DescriptorStoreRead).
Context {readers : DocumentReaders} {resolver : WebvhResolver} {writer : WebvhWriter}
  {hashes : HashLibrary} {keys : WebvhKeys} {commitments : CommitmentLibrary} {library : EpochLibrary}
  {shape : ThrownShape}.
Context {emitter : Cell W EmitterState} (updateDID : UpdateDID) (logger : Logger W).

(** The seams of an entry hold no descriptor. *)
Record entry_still (idStore : WebvhIdStore W) (projection : option (WebvhIdStore W)) : Prop := {
  still_logger event : still held (logger event);
  still_read resource : still held (getIdResourceRaw idStore resource);
  still_write write : still held (putIdResource idStore write);
  still_pinned id : still held (pin_read (id_pinStore idStore) id);
  still_pin id pin : still held (pin_write (id_pinStore idStore) id pin);
  still_projects store write : projection = Some store → still held (putIdResource store write)
}.

Lemma gets_still {A} (f : W → A) : still held (gets f).
Proof. done. Qed.
Lemma modify_still (f : W → W) : (∀ w k, held (f w) k = held w k) → still held (modify f).
Proof. intros Hf w k. apply Hf. Qed.

Section entry.
Context (idStore : WebvhIdStore W) (projection : option (WebvhIdStore W)) (seams : entry_still idStore projection).

Ltac still_steps := repeat first
  [ apply still_ret | apply still_throw | apply still_lift
  | apply still_bind; [|intros ?] | apply still_try; [|intros ?]
  | apply (still_logger _ _ seams) | apply (still_read _ _ seams) | apply (still_write _ _ seams)
  | apply (still_pinned _ _ seams) | apply (still_pin _ _ seams)
  | case_match ].

Lemma readOrThrow_still expectedDid msg : still held (readPublishedLogOrThrow idStore expectedDid msg).
Proof. unfold readPublishedLogOrThrow, readPublishedLog, checkAndAdvanceAccountLogPin. still_steps. Qed.

Lemma projection_still store webDoc : projection = Some store → still held (putDidWebProjection store webDoc).
Proof. intros Hs. unfold putDidWebProjection. apply still_bind; [by apply (still_projects _ _ seams)|intros; apply still_ret]. Qed.

Lemma conclude_still timing published : still held (concludeUnchangedAccountEntry projection timing published).
Proof.
  pose proof projection_still as Hps. clear seams. unfold concludeUnchangedAccountEntry.
  apply still_bind; [|intros; apply still_ret].
  destruct projection as [store|]; [|apply still_ret]. destruct timing; [apply still_ret|].
  apply still_bind; [|intros; apply still_ret]. apply still_bind; [|intros; apply still_ret]. by apply Hps.
Qed.

Lemma putProjection_still updated store : projection = Some store → still held (putProjection updated store).
Proof. intros Hs. unfold putProjection. destruct (upd_webDoc updated); [by apply projection_still|apply still_throw]. Qed.

Lemma publish_still updated etag timing : still held (publishAccountEntry logger idStore updated etag projection timing).
Proof.
  assert (still held (putLogResource idStore (upd_log updated) etag false)) as Hlog by (unfold putLogResource; still_steps).
  pose proof putProjection_still as Hps. pose proof (still_logger _ _ seams) as Hl. clear seams.
  unfold publishAccountEntry. apply still_bind.
  - destruct projection as [store|]; [|apply still_ret]. destruct timing; [|apply still_ret].
    apply still_try; [by apply Hps|intros; apply Hl].
  - intros _. apply still_bind; [done|]. intros written. apply still_bind; [|intros; apply still_ret].
    destruct projection as [store|]; [|apply still_ret]. destruct timing; [apply still_ret|]. by apply Hps.
Qed.
End entry.

Lemma sign_still (o : EntryOptions) :
  entry_still (opt_idStore o) (opt_projectionStore o) →
  (∀ skip published, opt_skip o = Some skip → still held (skip published)) →
  (∀ ctx, still held (concludeUnchanged ctx) → still held (opt_build o ctx)) →
  still held (signAccountEntry updateDID logger o).
Proof.
  intros seams Hskip Hb. unfold signAccountEntry. apply still_bind.
  { unfold preamble. apply still_bind; [apply still_lift|intros built]. apply still_bind.
    - destruct (opt_published o); [apply still_lift|exact (readOrThrow_still _ _ seams _ _)].
    - intros published. apply still_bind; [destruct built; [apply still_lift|apply still_ret]|intros; apply still_ret]. }
  intros published. apply still_bind; [destruct (opt_skip o); [by apply Hskip|apply still_ret]|intros skip].
  destruct skip; [apply still_ret|].
  apply still_bind; [apply still_lift|intros parts]. apply still_bind; [apply Hb; exact (conclude_still _ _ seams _ _)|].
  intros [entry|]; [|apply still_ret]. apply still_bind; [apply still_lift|intros updated].
  apply still_bind; [exact (publish_still _ _ seams _ _ _)|intros; apply still_ret].
Qed.

Lemma retry_still {A} n (c : comp W A) : still held c → still held (retryAttempts n c).
Proof.
  intros Hc. induction n as [|n IH]; [done|]. cbn [retryAttempts]. apply still_try; [done|intros err].
  destruct (negb (isLogConflict err)); [apply still_throw|]. destruct n; [apply still_throw|done].
Qed.

(** ** The stage events *)

Context (logs : ∀ event, still held (logger event))
  (emits : ∀ (st : EmitterState) w k, held (set_cell st w) k = held w k).

Lemma stage_still events name detail : still held (stage logger events name detail).
Proof.
  unfold stage. apply still_bind; [apply gets_still|intros st]. case_decide; [apply still_ret|].
  apply still_bind; [by apply modify_still|intros _].
  unfold emit. apply still_try; [apply logs|intros; apply still_ret].
Qed.

Lemma tailStages_still events tail : still held (tailStages logger events tail).
Proof.
  unfold tailStages. destruct (rosterDescriptor tail), (tail_userKey tail); try apply still_ret.
  apply still_bind; [apply stage_still|intros _]. destruct (cascade_failed _); [apply stage_still|apply still_ret].
Qed.
End still.

(** ** A cut-off, seen from further away *)

Section cut.
Context {W K : Type} `{!EqDecision K} (held : W → K → option DescriptorStoreRead).
Context {readers : DocumentReaders} {keys : WebvhKeys} {commitments : CommitmentLibrary} {library : EpochLibrary}
  {fragmentLaws : FragmentReaderLaws}.

Lemma cutOff_between kr key collections clientKey doc roster w1 w2 next userKey result w w' :
  cutOff held kr key collections clientKey doc roster w1 next userKey result w2 →
  (∀ k, held w1 k = held w k) → (∀ k, held w' k = held w2 k) →
  cutOff held kr key collections clientKey doc roster w next userKey result w'.
Proof.
  intros (Hh & Hwraps & Hcur & w3 & ids & generations & Hids & Hg & Hcoll) Hbefore Hafter.
  split; [destruct Hh as [e He]; exists e; by rewrite Hafter|]. split_and!; [done..|]. exists w3, ids, generations.
  split_and!; [done..|]. intros id Hid. specialize (Hcoll id Hid). rewrite Hafter. by rewrite Hbefore in Hcoll.
Qed.

Lemma cutOff_unbacked kr key collections clientKey doc roster w next userKey result w' kid :
  cutOff held kr key collections clientKey doc roster w next userKey result w' → markedSoundly doc →
  ¬ backed doc kid → kid ∉ currentKids next.
Proof.
  intros (_ & (epoch & He & Hkids) & _) Hm Hnb. rewrite (currentEpochOf_label _ _ _ He), Hkids.
  intros [[_ ?]|[_ (c & -> & Hc)%list_elem_of_fmap]]; [done|]. by apply Hnb, enrolled_backed.
Qed.
End cut.

(** * A revocation cuts the client off

    The whole of [runClientRevocation]: the account log's half moves no
    descriptor, and the tail leaves the roster and the collections as
    [RosterCascade] says. *)

Section still_run.
Context {W K : Type} (held : W → K → option DescriptorStoreRead).
Context {readers : DocumentReaders} {resolver : WebvhResolver} {writer : WebvhWriter}
  {hashes : HashLibrary} {keys : WebvhKeys} {twins : TwinLibrary} 
  {commitments : CommitmentLibrary} {library : EpochLibrary} {shape : ThrownShape}.
Context `{!Cell W (option concluded_head)} {emitter : Cell W EmitterState}.
Context (updateDID : UpdateDID) (logger : Logger W) (options : RevocationOptions (W:=W)).

(** The seams of the log's half, and the locals, hold no descriptor. *)
Record seams_still : Prop := {
  still_log event : still held (logger event);
  still_raw resource : still held (getIdResourceRaw (ro_idStore options) resource);
  still_put write : still held (putIdResource (ro_idStore options) write);
  still_pin_read id : still held (pin_read (id_pinStore (ro_idStore options)) id);
  still_pin_write id pin : still held (pin_write (id_pinStore (ro_idStore options)) id pin);
  still_projection store write : ro_projectionStore options = Some store → still held (putIdResource store write);
  still_local (head : option concluded_head) w k : held (set_cell head w) k = held w k;
  still_emitter (state : EmitterState) w k : held (set_cell state w) k = held w k;
  still_remint f doc : ro_remintGenerationDelegation options = Some f → still held (f doc);
  still_adopted f key : ro_onRotationAdopted options = Some f → still held (f key)
}.
Context (seams : seams_still).

Definition run_projection : option (WebvhIdStore W) :=
  match ro_projectionStore options with Some store => Some store | None => ownProjection (ro_signer options) (ro_idStore options) end.

Lemma run_seams : entry_still held logger (ro_idStore options) run_projection.
Proof.
  destruct seams. constructor; [done..|]. intros store write. unfold run_projection.
  destruct (ro_projectionStore options) as [store'|]; [intros [= ->]; eauto|].
  unfold ownProjection. destruct (ro_signer options); [by intros [= <-]|done].
Qed.

Lemma modify_local_still (head : option concluded_head) : still held (modify (set_cell head)).
Proof. apply modify_still. intros w k. by apply (still_local seams). Qed.

Lemma fields_still published target known : still held (clientRemovalFields logger published target known).
Proof.
  unfold clientRemovalFields, latentHashesToExclude. repeat first
    [apply still_ret | apply still_lift | apply still_bind; [|intros ?] | apply (still_log seams) | case_match].
Qed.

Lemma revokeOnce_still known expectedDid :
  still held (revokeWebvhClientOnce updateDID logger (ro_idStore options) (ro_signer options) (ro_projectionStore options)
    (ro_revokedClient options) known expectedDid).
Proof.
  unfold revokeWebvhClientOnce. apply still_bind; [apply modify_local_still|intros _].
  apply still_bind; [|intros outcome; apply still_bind; [apply gets_still|intros; apply still_ret]].
  apply sign_still; [exact run_seams|done|]. intros ctx Hc. cbn [opt_build]. unfold revokeBuild.
  apply still_bind; [apply still_lift|intros target]. apply still_bind; [apply still_lift|intros _].
  destruct (present target); [apply still_bind; [apply fields_still|intros; apply still_ret]|].
  apply still_bind; [exact Hc|intros head]. apply still_bind; [apply modify_local_still|intros; apply still_ret].
Qed.

Lemma run_stage_still events name detail : still held (stage logger events name detail).
Proof. apply stage_still; [apply (still_log seams)|apply (still_emitter seams)]. Qed.

Lemma conclusion_still events doc tail : still held (concludeRevocation logger events options doc tail).
Proof.
  unfold concludeRevocation. apply still_bind.
  { unfold remintFor. destruct (ro_remintGenerationDelegation options) as [f|] eqn:Hf; [|apply still_ret].
    apply still_bind; [by apply (still_remint seams)|intros; apply still_ret]. }
  intros generation. apply still_bind.
  { unfold remintStage. destruct generation as [[renewed [skip|]]|]; try apply still_ret. apply run_stage_still. }
  intros _. destruct (rosterDescriptor tail) as [d|]; [|apply still_ret]. destruct (tail_userKey tail) as [u|]; [|apply still_ret].
  apply still_bind; [|intros; apply still_ret]. unfold announceRotation. destruct (tail_rotated tail); [|apply still_ret].
  destruct (ro_onRotationAdopted options) as [f|] eqn:Hf; [by apply (still_adopted seams)|apply still_ret].
Qed.
End still_run.

(** What a revocation reports, and what more when there was a roster. *)
Lemma conclusion_document {W} {shape : ThrownShape} {emitter : Cell W EmitterState} {writer : WebvhWriter} (logger : Logger W)
    events (options : RevocationOptions (W:=W)) doc tail w r w' :
  concludeRevocation logger events options doc tail w = (Ok r, w') → rev_document r = doc.
Proof.
  unfold concludeRevocation, mbind, comp_bind.
  destruct (remintFor _ _ w) as [[g|] w5]; [|done]. destruct (remintStage logger events g w5) as [[x|] w6]; [|done].
  destruct (rosterDescriptor tail) as [d|]; [|by intros [= <- _]].
  destruct (tail_userKey tail) as [key0|]; [|by intros [= <- _]].
  destruct (announceRotation options tail key0 w6) as [[y|] w7]; [|done]. by intros [= <- _].
Qed.

Lemma conclusion_reports {W} {shape : ThrownShape} {emitter : Cell W EmitterState} {writer : WebvhWriter} (logger : Logger W)
    events (options : RevocationOptions (W:=W)) doc tail next userKey w r w' :
  rosterDescriptor tail = Some next → tail_userKey tail = Some userKey →
  concludeRevocation logger events options doc tail w = (Ok r, w') →
  rev_document r = doc ∧ rev_rosterDescriptor r = Some next ∧ rev_userKey r = Some userKey ∧
  rev_collections r = tail_collections tail.
Proof.
  intros Hd Hk. unfold concludeRevocation. rewrite Hd, Hk. unfold mbind, comp_bind.
  destruct (remintFor _ _ w) as [[generation|]  w1]; [|done].
  destruct (remintStage logger events generation w1) as [[u|] w2]; [|done].
  destruct (announceRotation options tail userKey w2) as [[u'|] w3]; [|done].
  intros [= <- _]. done.
Qed.

(** C18: revoking a client cuts it off. In an account whose roster and
    collections only their own stores move, when the revocation returns with a
    document whose client markers are well formed, the roster it holds wraps
    the current user key exactly to the recipients that document backs: those
    the roster had, and the clients the document publishes. No other key id,
    the revoked client's among them, has a wrap of the current epoch. The
    user key the revocation reports is that epoch's, and every collection an
    outcome is tallied for has its current epoch on that key, on no other user
    key generation the roster delivers, and every earlier epoch readable with
    it; a collection without an outcome is as it was. *)
Theorem revocation_cuts_off {W K} `{!EqDecision K} (held : W → K → option DescriptorStoreRead) (kr : K) (key : string → K)
    {readers : DocumentReaders} {resolver : WebvhResolver} {writer : WebvhWriter}
    {hashes : HashLibrary} {keys : WebvhKeys} 
    {commitments : CommitmentLibrary} {library : EpochLibrary} {shape : ThrownShape}
    `{!Cell W (option concluded_head)} {emitter : Cell W EmitterState}
    (updateDID : UpdateDID) (logger : Logger W) events (options : RevocationOptions (W:=W)) roster etag w r w' :
  EpochLibraryLaws → FragmentReaderLaws →
  QuietAccount held kr key (ro_rosterStore options) (ro_onUserKeyAdopted options) (ro_collections options) →
  seams_still held logger options →
  held w kr = Some (mkRead roster etag) →
  runClientRevocation updateDID logger events options w = (Ok r, w') →
  markedSoundly (rev_document r) →
  ∃ next userKey, rev_rosterDescriptor r = Some next ∧ rev_userKey r = Some userKey ∧
    cutOff held kr key (ro_collections options) (ro_clientKeyAgreementKey options) (rev_document r) roster w
      next userKey (rev_collections r) w' ∧
    ∀ kid, ¬ backed (rev_document r) kid → kid ∉ currentKids next.
Proof.
  intros Hlaws Hfl Hacc Hseams Hh Hrun Hm. unfold runClientRevocation in Hrun.
  unfold mbind at 1, comp_bind at 1 in Hrun.
  destruct (lift _ w) as [[u|] w0] eqn:Hu in Hrun; [|done].
  assert (w0 = w) as -> by (unfold lift in Hu; by injection Hu).
  unfold mbind at 1, comp_bind at 1 in Hrun.
  pose proof (retry_still held 3 _ (revokeOnce_still held updateDID logger options Hseams (ro_knownLatentHashes options)
    (ro_expectedDid options)) w) as H1.
  change (retryAttempts 3 (revokeWebvhClientOnce ?u ?l ?a ?b ?c ?d ?e ?f)) with (revokeWebvhClient u l a b c d e f) in H1.
  destruct (revokeWebvhClient _ _ _ _ _ _ _ _ w) as [[[[did doc] log]|] w1]; [|done]. cbn in H1.
  unfold mbind at 1, comp_bind at 1 in Hrun.
  pose proof (run_stage_still held logger options Hseams events "document-edit" NoDetail w1) as H2.
  destruct (stage logger events _ _ w1) as [[u'|] w2]; [|done]. cbn in H2.
  unfold mbind at 1, comp_bind at 1 in Hrun.
  destruct (rotateRosterToDocumentAndCascade _ _ _ _ _ _ _ _ _ w2) as [[tail|] w3] eqn:Ht; [|done].
  unfold mbind at 1, comp_bind at 1 in Hrun.
  pose proof (tailStages_still held logger (still_log _ _ _ Hseams) (still_emitter _ _ _ Hseams) events tail w3) as H3.
  destruct (tailStages logger events tail w3) as [[u''|] w4]; [|done]. cbn in H3.
  pose proof (conclusion_still held logger options Hseams events doc tail w4) as H4. rewrite Hrun in H4. cbn in H4.
  pose proof (conclusion_document _ _ _ _ _ _ _ _ Hrun) as Hdoc.
  pose proof (tail_settles held kr key _ _ _ Hacc did doc log (ro_userKey options) (ro_clientKeyAgreementKey options)
    (ro_pinnedEpochId options) roster etag w2 ltac:(by rewrite H2, H1) ltac:(by rewrite <- Hdoc)) as Htail.
  rewrite Ht in Htail. destruct Htail as (next & userKey & Hn & Hk & Hcut).
  destruct (conclusion_reports _ _ _ _ _ _ _ _ _ _ Hn Hk Hrun) as (_ & Hrn & Hrk & Hrc).
  eapply cutOff_between in Hcut; [|intros k; by rewrite H2, H1|intros k; by rewrite H4, H3].
  exists next, userKey. rewrite Hdoc, Hrc. split_and!; [done..|]. intros kid. eapply cutOff_unbacked; [exact Hfl|exact Hcut|by rewrite <- Hdoc].
Qed.
