(* ===== verification/RosterPolicy.v ===== *)
(** * The roster at login

    [src/src/clients/rosterPolicy.ts]: which roster failures refuse a session
    and which degrade it, the login's read, and the login sweep that converges
    the roster onto the account document and seals its log. Also what a roster
    read decides, branch by branch. *)

From S2P Require Import Prelude Json JsText CeremonyEvents AccountDocument LadderRungs ResourceController AccountLog LogStore KeyRotation ClientListing ClientRevocation AccountEntry Descriptors UserKeyRoster RosterConvergence UserKeyCascade RosterCascade.

(** [isResourceLogRefusal] of the resource-log library. *)
Class LogRefusals := isResourceLogRefusal : js_error → bool.

Definition isRosterRefusal {refusals : LogRefusals} (err : js_error) : bool :=
  isResourceLogRefusal err ||
  bool_decide (err_name err ∈ ["UserKeyRosterContinuityError"; "UserKeyRosterIntegrityError"; "UserKeyRosterUnwrapError"]).

Record ConvergedAccount := mkConvergedAccount {
  ca_rotated : bool;
  ca_sealed : bool;
  ca_staleRecipientIds : list string;
  ca_escrowedRecipientIds : list string;
  ca_userKey : UserKey;
  ca_descriptor : CollectionEncryption
}.

Section policy.
Context {W : Type} {readers : DocumentReaders} {keys : WebvhKeys} {commitments : CommitmentLibrary}
  {library : EpochLibrary} {refusals : LogRefusals} {addresses : WebvhAddresses} {resolver : WebvhResolver}.
Variables (fetch : string → comp W (Response W)) (showZ : Z → string) (logger : Logger W).

Definition adopted_of (read : UserKeyRosterReadResult) : AdoptedUserKey :=
  mkAdopted (rosterRead_userKey read) (rosterRead_latestEpochId read) (rosterRead_descriptor read).

Definition hook (adopt : option (AdoptedUserKey → comp W ())) (read : UserKeyRosterReadResult) : comp W () :=
  match adopt with Some adopt => adopt (adopted_of read) | None => mret () end.

(** The adoption runs outside the transport catch. *)
Definition checkUserKeyRosterAtLogin (store : EncryptionDescriptorStore W) (userKey : option UserKey)
    (clientKeyAgreementKey : KeyAgreementKey) (pinnedEpochId : option string)
    (onRosterRead : option (AdoptedUserKey → comp W ())) : comp W (option UserKeyRosterReadResult) :=
  outcome ← attempt (readUserKeyRoster store None userKey clientKeyAgreementKey pinnedEpochId);
  match outcome with
  | Throw err =>
      if isRosterRefusal err then mthrow err
      else
        logger (mkEvent warn "The wrap-set roster check failed; continuing with the cached user key" {["err" := DErr err]});;
        mret None
  | Ok None => mret None
  | Ok (Some read) => hook onRosterRead read;; mret (Some read)
  end.

(** The seal backstop of the sweep: whether it sealed. *)
Definition sweepSeal (store : EncryptionDescriptorStore W) : comp W bool :=
  match isSealableDescriptorStore store with
  | Some (seal, _) =>
      try_catch seal (λ err,
        if isRosterRefusal err then mthrow err
        else logger (mkEvent warn "Could not seal the wrap-set roster log" {["err" := DErr err]});; mret false)
  | None => mret false
  end.

Definition warn_count (msg key : string) (n : nat) : comp W () :=
  logger (mkEvent warn msg {[key := DJson (JNum (QArith_base.inject_Z (Z.of_nat n)))]}).

(** What follows a convergence that came back. *)
Definition afterConvergence (store : EncryptionDescriptorStore W) (userKey : UserKey) (descriptor : CollectionEncryption)
    (clientKeyAgreementKey : KeyAgreementKey) (pinnedEpochId : option string)
    (onUserKeyAdopted : option (AdoptedUserKey → comp W ())) (converged : ConvergedRoster) : comp W ConvergedAccount :=
  sealed ← sweepSeal store;
  let escrowed := conv_escrowedRecipientIds converged in
  (if decide (escrowed ≠ []) then
     warn_count "The wrap-set roster held no wrap for client(s) the account document keys; the escrow has been completed"
       "escrowedRecipientCount" (length escrowed)
   else mret ());;
  if negb (conv_rotated converged) then
    mret (mkConvergedAccount false sealed [] escrowed userKey descriptor)
  else
    warn_count "The wrap-set roster still wrapped the current key to recipient(s) the account document no longer keys; the rotation has been completed"
      "staleRecipientCount" (length (conv_staleRecipientIds converged));;
    read ← readUserKeyRoster store (conv_descriptor converged) (Some userKey) clientKeyAgreementKey pinnedEpochId;
    match read with
    | None => mthrow (JsError "TypeError" "Cannot read properties of null (reading 'userKey')")
    | Some read =>
        hook onUserKeyAdopted read;;
        mret (mkConvergedAccount true sealed (conv_staleRecipientIds converged) escrowed (rosterRead_userKey read)
          (rosterRead_descriptor read))
    end.

Definition convergeUserKeyRosterToAccount (did : string) (store : EncryptionDescriptorStore W) (userKey : UserKey)
    (descriptor : CollectionEncryption) (etag : option string) (clientKeyAgreementKey : KeyAgreementKey)
    (pinnedEpochId : option string) (accountLogPinStore : option (ResourceLogPinStore W))
    (onUserKeyAdopted : option (AdoptedUserKey → comp W ())) : comp W ConvergedAccount :=
  outcome ← attempt
    (verified ← verifyAccountLog fetch showZ did accountLogPinStore None;
     convergeUserKeyRosterToDocument store (ver_doc verified) did (Some descriptor) etag (Some clientKeyAgreementKey));
  match outcome with
  | Throw err =>
      if isRosterRefusal err then mthrow err
      else
        logger (mkEvent warn "Could not converge the wrap-set roster onto the account document" {["err" := DErr err]});;
        mret (mkConvergedAccount false false [] [] userKey descriptor)
  | Ok converged =>
      afterConvergence store userKey descriptor clientKeyAgreementKey pinnedEpochId onUserKeyAdopted converged
  end.
End policy.

(** * Reading the roster under the epoch pin

    What a client that pins each epoch it reads can be served: never an epoch
    behind one it has seen. *)

Section reading.
Context {library : EpochLibrary}.

(** A client's reads in turn: each under the pin and with the key the read
    before it left. *)
Fixpoint readSession (clientKey : KeyAgreementKey) (served : list CollectionEncryption) (key : option UserKey)
    (pin : option string) : result (list UserKeyRosterReadResult) :=
  match served with
  | [] => Ok []
  | descriptor :: served =>
      read ← readServed descriptor None key clientKey pin;
      reads ← readSession clientKey served (Some (rosterRead_userKey read)) (Some (rosterRead_latestEpochId read));
      Ok (read :: reads)
  end.

(** [a] stands at or before [b] in the history of epochs. *)
Definition not_after (history : list string) (a b : string) : Prop :=
  ∃ i j, history !! i = Some a ∧ history !! j = Some b ∧ i ≤ j.

Lemma indexOf_lookup id ids i : indexOf id ids = Some i → ids !! i = Some id.
Proof.
  unfold indexOf. destruct (list_find _ ids) as [[j x]|] eqn:Hf; [|done]. intros [= ->].
  by apply list_find_Some in Hf as (Hi & -> & _).
Qed.

Lemma indexOf_elem id ids : id ∈ ids → ∃ i, indexOf id ids = Some i.
Proof.
  intros Hin. unfold indexOf. destruct (list_find_elem_of (λ x, x = id) ids id Hin eq_refl) as [[i x] Hf]. rewrite Hf. by exists i.
Qed.

(** An accepted read's epoch, and the pin it was read under. *)
Lemma read_epoch descriptor etag key clientKey pin read history :
  readServed descriptor etag key clientKey pin = Ok read → epochIds descriptor `prefix_of` history →
  rosterRead_latestEpochId read ∈ epochIds descriptor ∧
  ∀ p, pin = Some p → p ≠ "" → not_after history p (rosterRead_latestEpochId read).
Proof.
  intros (epoch & He & (u & Hpin & ([k rotated] & _ & Hr)%result_bind_ok)%result_bind_ok)%result_bind_ok Hprefix.
  injection Hr as <-. cbn. apply currentEpochOf_ok in He as [Hin _].
  assert (epoch_id epoch ∈ epochIds descriptor) as Hid by by apply list_elem_of_fmap_2. split; [done|].
  intros p -> Hne. destruct p as [|a p]; [done|]. cbn [assertPinned] in Hpin.
  destruct (indexOf (String a p) _) as [i|] eqn:Hi; [|done].
  destruct (indexOf (epoch_id epoch) (epochIds descriptor)) as [j|] eqn:Hj; [|done]. case_decide; [done|].
  exists i, j. apply indexOf_lookup in Hi, Hj. split_and!; [by eapply prefix_lookup_Some..|lia].
Qed.

Lemma not_after_trans history a b c : NoDup history → not_after history a b → not_after history b c → not_after history a c.
Proof.
  intros Hnd (i & j & Hi & Hj & Hij) (j' & k & Hj' & Hk & Hjk). assert (j = j') as -> by by eapply NoDup_lookup.
  exists i, k. split_and!; [done..|lia].
Qed.

Lemma session_sorted clientKey served key pin reads history :
  NoDup history → "" ∉ history → Forall (λ d, epochIds d `prefix_of` history) served →
  readSession clientKey served key pin = Ok reads →
  Forall (λ latest, latest ∈ history ∧ ∀ p, pin = Some p → p ≠ "" → not_after history p latest) (rosterRead_latestEpochId <$> reads) ∧
  StronglySorted (not_after history) (rosterRead_latestEpochId <$> reads).
Proof.
  intros Hnd Hempty. revert key pin reads. induction served as [|d served IH]; intros key pin reads Hall; cbn [readSession].
  { intros [= <-]. by repeat constructor. }
  apply Forall_cons in Hall as [Hd Hall]. intros (read & Hr & (rest & Hrest & Hreads)%result_bind_ok)%result_bind_ok.
  injection Hreads as <-. destruct (IH _ _ _ Hall Hrest) as [Hf Hs].
  destruct (read_epoch _ _ _ _ _ _ history Hr Hd) as [Hin Hpin].
  assert (rosterRead_latestEpochId read ∈ history) as Hin'
    by (apply list_elem_of_lookup in Hin as [i Hi]; eapply list_elem_of_lookup_2; by eapply prefix_lookup_Some).
  assert (rosterRead_latestEpochId read ≠ "") as Hne by (intros Heq; by rewrite Heq in Hin').
  assert (Forall (not_after history (rosterRead_latestEpochId read)) (rosterRead_latestEpochId <$> rest)) as Hlater.
  { eapply Forall_impl; [exact Hf|]. intros latest [_ Hl]. by apply Hl. }
  cbn [fmap list_fmap]. split; [|by constructor]. constructor; [by split|].
  rewrite Forall_forall in Hf, Hlater |- *. intros latest Hl. destruct (Hf latest Hl) as [Hin2 _]. split; [done|].
  intros p Hp Hpne. eapply not_after_trans; [done|by apply Hpin|by apply Hlater].
Qed.
End reading.

(** C21: a client that pins each epoch it reads is never taken back. Let the
    host serve it, read after read, any cut of one append-only history of
    epochs with any current epoch it likes. As long as the reads are accepted,
    their epochs stand in the order of the history, none before the pin the
    client began with; each read reports the user key of the descriptor's
    current epoch; and a descriptor that has lost the pinned epoch, or whose
    current epoch stands before it, is refused for just that. *)
Theorem roster_reads_never_roll_back {library : EpochLibrary} clientKey served key pin history :
  NoDup history → "" ∉ history → pin ≠ "" → Forall (λ d, epochIds d `prefix_of` history) served →
  (∀ reads, readSession clientKey served key (Some pin) = Ok reads →
     StronglySorted (not_after history) (match served with [] => [] | _ => [pin] end ++ (rosterRead_latestEpochId <$> reads)) ∧
     Forall2 (λ d read, currentEpoch d = Some (userKey_id (rosterRead_userKey read)) ∧
       rosterRead_latestEpochId read = userKey_id (rosterRead_userKey read)) served reads) ∧
  (∀ d etag k epoch, currentEpochOf d "The user key roster" = Ok epoch → epochIds d `prefix_of` history →
     pin ∉ epochIds d ∨ not_after history (epoch_id epoch) pin ∧ epoch_id epoch ≠ pin →
     readServed d etag k clientKey (Some pin) = Throw (UserKeyRosterContinuityError pin)).
Proof.
  intros Hnd Hempty Hpin Hall. split.
  - intros reads Hreads. destruct (session_sorted _ _ _ _ _ _ Hnd Hempty Hall Hreads) as [Hf Hs]. split.
    + destruct served as [|d served]; [done|]. cbn [app]. constructor; [done|].
      eapply Forall_impl; [exact Hf|]. intros latest [_ Hl]. by apply Hl.
    + clear -Hreads. revert key pin reads Hreads. induction served as [|d served IH]; intros key pin reads; cbn [readSession].
      { intros [= <-]. constructor. }
      intros (read & Hr & (rest & Hrest & Heq)%result_bind_ok)%result_bind_ok. injection Heq as <-.
      constructor; [|by eapply IH]. apply readServed_ok in Hr as (_ & ? & ?). done.
  - intros d etag k epoch He Hp Hbehind. unfold readServed. rewrite He. cbn [mbind result_bind].
    apply currentEpochOf_ok in He as [Hin _].
    destruct (indexOf_elem (epoch_id epoch) (epochIds d)) as [j Hj]; [by apply list_elem_of_fmap_2|].
    destruct pin as [|a pin]; [done|]. cbn [assertPinned]. rewrite Hj.
    destruct (indexOf (String a pin) (epochIds d)) as [i|] eqn:Hi; [|done].
    apply indexOf_lookup in Hi, Hj. destruct Hbehind as [Hout|[(j' & i' & Hj' & Hi' & Hle) Hne]].
    + destruct Hout. by eapply list_elem_of_lookup_2.
    + assert (j = j') as <- by (eapply NoDup_lookup; [done| |done]; by eapply prefix_lookup_Some).
      assert (i = i') as <- by (eapply NoDup_lookup; [done| |done]; by eapply prefix_lookup_Some).
      rewrite decide_True; [done|]. assert (j ≠ i); [|lia]. intros ->. rewrite Hj in Hi. by injection Hi.
Qed.

(** * The log-governed descriptor store

    [src/src/keys/rosterLogStore.ts]: the storage client's governed store,
    which resolves a controller view at each operation, under the minimum
    version a ceremony set and the admission rule of the log's class. *)

(** The storage client's [logGovernedDescriptorStore]: the members it builds
    from the controller to resolve. *)
Class GovernedStore (W : Type) :=
  upstreamLogGovernedDescriptorStore : comp W WebvhResourceLogController → EncryptionDescriptorStore W.

Section governed.
Context {W : Type} {upstream : GovernedStore W}.
(** [minimumControllerVersion], the binding the store keeps. *)
Context `{!Cell W (option WebvhResourceLogController)}.
Variables (resolveController : comp W WebvhResourceLogController) (logClass : ResourceLogClass).

Definition supersedes (minimum resolved : WebvhResourceLogController) : bool :=
  match last (controller_versions minimum) with
  | Some minimumHead => negb (bool_decide (minimumHead ∈ controller_versions resolved))
  | None => false
  end.

Definition resolvedController : comp W WebvhResourceLogController :=
  resolved ← resolveController;
  minimum ← gets get_cell;
  match minimum : option WebvhResourceLogController with
  | None => mret resolved
  | Some minimum => mret (if supersedes minimum resolved then minimum else resolved)
  end.

Definition currentController : comp W WebvhResourceLogController :=
  controller ← resolvedController;
  lift (controllerForLogClass controller logClass).

Definition logGovernedDescriptorStore : EncryptionDescriptorStore W :=
  let store := upstreamLogGovernedDescriptorStore currentController in
  mkDescriptorStore (store_read store) (store_replace store) (store_create store) (store_seal store)
    (Some (λ controller, modify (set_cell (Some controller)))).

(** A store is never handed a view behind the minimum: the view has the
    minimum's head version, whenever the minimum has one. *)
Lemma current_reaches_minimum w controller minimum head w' :
  (∀ w r w1, resolveController w = (r, w1) → get_cell w1 = (get_cell w : option WebvhResourceLogController)) →
  get_cell w = Some minimum → last (controller_versions minimum) = Some head →
  currentController w = (Ok controller, w') → head ∈ controller_versions controller.
Proof.
  intros Hcell Hmin Hhead Hrun. unfold currentController, resolvedController in Hrun. rewrite comp_bind_assoc in Hrun.
  destruct (resolveController w) as [[resolved|err] w1] eqn:Hr.
  - rewrite (comp_bind_ok _ _ _ _ _ Hr) in Hrun. apply Hcell in Hr. rewrite Hmin in Hr.
    unfold mbind, comp_bind, gets in Hrun. rewrite Hr in Hrun. cbn in Hrun.
    assert (head ∈ controller_versions (if supersedes minimum resolved then minimum else resolved)) as Hin.
    { unfold supersedes. rewrite Hhead. destruct (bool_decide_reflect (head ∈ controller_versions resolved)); cbn; [done|].
      apply last_Some in Hhead as [l ->]. apply elem_of_app. right. by apply list_elem_of_singleton. }
    unfold controllerForLogClass, lift in Hrun.
    destruct logClass; injection Hrun as <- _ || done; done.
  - rewrite (comp_bind_throw _ _ _ _ _ Hr) in Hrun. done.
Qed.
End governed.
