(* ===== verification/AccountClients.v ===== *)
(** * The account's clients, as an app lists them

    [src/src/clients/listing.ts], [policy.ts] and [grantState.ts]: the listing
    joined with the Connections Directory, who may be disconnected, and
    whether a recorded grant's signer still stands in the account document. *)

From S2P Require Import Prelude Json JsText ConnEntry ConnGrants ConnStore ConnUpsert CeremonyEvents AccountDocument LadderRungs AccountLog LogStore LadderIndex LadderInventory ClientListing ClientRevocation Descriptors UserKeyRoster UserKeyCascade RosterCascade.

(** ** Listing *)

Record AccountClientView := mkView {
  view_client : EnrolledWebvhClient;
  view_label : option string;
  view_name : option string;
  isCurrent : bool
}.

Section listing.
Context {did_keys : DidKeys}.

Definition nameEntry (byKey : gmap string ConnectionEntry) (entry : ConnectionEntry) : gmap string ConnectionEntry :=
  if decide (e_kind entry ≠ "wallet-client") then byKey
  else
    match e_id entry ≫= signingKeyMultibaseOfDid with
    | Some multibase => match byKey !! multibase with Some _ => byKey | None => <[multibase := entry]> byKey end
    | None => byKey
    end.
Definition walletClientEntriesByKey (entries : list ConnectionEntry) : gmap string ConnectionEntry :=
  foldl nameEntry ∅ entries.

Section account.
Context {W : Type} {readers : DocumentReaders} {keys : WebvhKeys} {addresses : WebvhAddresses} {resolver : WebvhResolver}.
Variables (fetch : string → comp W (Response W)) (showZ : Z → string).

Definition resolveVerifiedAccountLog (did : string) (verifiedLog : option VerifiedAccountLog)
    (accountLogPinStore : option (ResourceLogPinStore W)) : comp W VerifiedAccountLog :=
  match verifiedLog with
  | Some verified => mret verified
  | None => verifyAccountLog fetch showZ did accountLogPinStore None
  end.

(** A failed directory read names no one. *)
Definition directoryNames (readDirectoryEntries : option (comp W (list ConnectionEntry))) :
    comp W (gmap string ConnectionEntry) :=
  match readDirectoryEntries with
  | None => mret ∅
  | Some read => try_catch (entries ← read; mret (walletClientEntriesByKey entries)) (λ _, mret ∅)
  end.

Definition viewOf (named : gmap string ConnectionEntry) (ownSigningKeyMultibase : option string)
    (client : EnrolledWebvhClient) : AccountClientView :=
  let entry := named !! signingKeyMultibase client in
  mkView client (entry ≫= e_label) (entry ≫= e_name)
    (bool_decide (Some (signingKeyMultibase client) = ownSigningKeyMultibase)).

Definition listAccountClients (did : string) (readDirectoryEntries : option (comp W (list ConnectionEntry)))
    (ownSigningKeyMultibase : option string) (verifiedLog : option VerifiedAccountLog)
    (accountLogPinStore : option (ResourceLogPinStore W)) : comp W (list AccountClientView) :=
  verified ← resolveVerifiedAccountLog did verifiedLog accountLogPinStore;
  named ← directoryNames readDirectoryEntries;
  mret (viewOf named ownSigningKeyMultibase <$> listEnrolledWebvhClients (ver_log verified)).

Definition currentAccountSigningKeys (did : string) (verifiedLog : option VerifiedAccountLog)
    (accountLogPinStore : option (ResourceLogPinStore W)) : comp W (gset string) :=
  verified ← resolveVerifiedAccountLog did verifiedLog accountLogPinStore;
  mret (enrolledClientKeyMultibases (ver_doc verified)).

Definition currentAccountRecordSigners (did : string) (verifiedLog : option VerifiedAccountLog)
    (accountLogPinStore : option (ResourceLogPinStore W)) : comp W (gset string) :=
  verified ← resolveVerifiedAccountLog did verifiedLog accountLogPinStore;
  signers ← currentAccountSigningKeys did (Some verified) None;
  mret (signers ∪ ladderVmKeyMultibases (ver_doc verified)).
End account.
End listing.

(** ** Who may be disconnected *)

Inductive DisconnectRefusal := refuse_self | last_client | unattributed_update_key.
#[export] Instance DisconnectRefusal_eq_dec : EqDecision DisconnectRefusal.
Proof. solve_decision. Defined.

Inductive SignerKind := client_signer | ladder_signer.

(** [None] allows. *)
Definition disconnectEligibility (client : AccountClientView) (clients : list AccountClientView) (signerKind : SignerKind) :
    option DisconnectRefusal :=
  let unattributed := match client_updateKey (view_client client) with None | Some EmptyString => true | _ => false end in
  match signerKind with
  | client_signer =>
      if isCurrent client then Some refuse_self
      else if decide (length clients ≤ 1) then Some last_client
      else if unattributed then Some unattributed_update_key else None
  | ladder_signer => if unattributed then Some unattributed_update_key else None
  end.

Definition revokedClientKeysFor (client : AccountClientView) : result RevokedClientKeys :=
  assertUpdateKeyAttributed (signingKeyMultibase (view_client client)) (client_updateKey (view_client client)).

(** ** Whether a grant's signer stands *)

Inductive GrantSignerState := grant_active | grant_orphaned | grant_unknown.
#[export] Instance GrantSignerState_eq_dec : EqDecision GrantSignerState.
Proof. solve_decision. Defined.

Section grants.
Context {readers : DocumentReaders} {keys : WebvhKeys} {signers : SignerReaders}.

(** Whether the account document could ever have listed the signer. *)
Definition accountSigner (accountDid keyId : string) : bool :=
  match parseVersionedVm keyId with
  | Some (did, _) => bool_decide (did = accountDid) || startsWith did "did:key:"
  | None => false
  end.

Fixpoint signerStates (doc : AccountDocument) (accountDid : string) (signerKeyIds : list string) (accountSigners : nat) :
    GrantSignerState :=
  match signerKeyIds with
  | [] => if decide (0 < accountSigners) then grant_orphaned else grant_unknown
  | keyId :: signerKeyIds =>
      if accountSigner accountDid keyId then
        match delegationSignerKeyReader doc keyId with
        | Some _ => grant_active
        | None => signerStates doc accountDid signerKeyIds (S accountSigners)
        end
      else signerStates doc accountDid signerKeyIds accountSigners
  end.

Definition deriveGrantSignerState (signerKeyIds : list (option string)) (accountDid : string)
    (doc : option AccountDocument) : GrantSignerState :=
  match doc with
  | None => grant_unknown
  | Some doc =>
      match omap id signerKeyIds with
      | [] => grant_unknown
      | ids => signerStates doc accountDid ids 0
      end
  end.

(** A signer that stands: one the account document could list, and lists. *)
Definition standing_signer (doc : AccountDocument) (accountDid keyId : string) : Prop :=
  accountSigner accountDid keyId = true ∧ is_Some (delegationSignerKeyReader doc keyId).

Lemma signerStates_spec doc accountDid ids n :
  match signerStates doc accountDid ids n with
  | grant_active => ∃ keyId, keyId ∈ ids ∧ standing_signer doc accountDid keyId
  | grant_orphaned => (∀ keyId, keyId ∈ ids → ¬ standing_signer doc accountDid keyId) ∧
      (0 < n ∨ ∃ keyId, keyId ∈ ids ∧ accountSigner accountDid keyId = true)
  | grant_unknown => n = 0 ∧ ∀ keyId, keyId ∈ ids → accountSigner accountDid keyId = false
  end.
Proof.
  revert n. induction ids as [|keyId ids IH]; intros n; cbn [signerStates].
  { case_decide; [split; [|by left]|split; [lia|]]; by intros ? ?%elem_of_nil. }
  destruct (accountSigner accountDid keyId) eqn:Ha.
  - destruct (delegationSignerKeyReader doc keyId) as [key|] eqn:Hk.
    + exists keyId. split; [left|]. split; [done|by exists key].
    + specialize (IH (S n)). destruct (signerStates _ _ _ (S n)).
      * destruct IH as (k & Hin & Hs). exists k. split; [by right|done].
      * destruct IH as [Hn _]. split; [|right; exists keyId; split; [left|done]].
        intros k [->|Hin]%elem_of_cons; [|by apply Hn]. intros [_ [? Hs]]. congruence.
      * destruct IH as [? _]. lia.
  - specialize (IH n). destruct (signerStates _ _ _ n).
    + destruct IH as (k & Hin & Hs). exists k. split; [by right|done].
    + destruct IH as [Hn Hs]. split.
      * intros k [->|Hin]%elem_of_cons; [|by apply Hn]. intros [? _]. congruence.
      * destruct Hs as [?|(k & Hin & Hk)]; [by left|]. right. exists k. split; [by right|done].
    + destruct IH as [? Hn]. split; [done|]. intros k [->|Hin]%elem_of_cons; auto.
Qed.
End grants.
