(* ===== verification/EpochLibraryDemo.v ===== *)
(** * A recipient library that meets its contract

    Each operation is one attempt: a read, what it builds, and a replace under
    the validator of the read. *)

From Stdlib Require Import Ascii.
From S2P Require Import Prelude Json JsText AccountDocument LadderRungs ResourceController AccountLog ClientListing Descriptors UserKeyRoster RosterConvergence.

Module EpochLibraryDemo.

(** Longer than every id, so none of them. *)
Definition fresh_id (ids : list string) : string := foldr String.append "x" ids.
Lemma append_length s t : String.length (s ++ t) = String.length s + String.length t.
Proof. induction s as [|a s IH]; [done|]. exact (f_equal S IH). Qed.
Lemma fresh_longer ids id : id ∈ ids → String.length id < String.length (fresh_id ids).
Proof.
  induction 1 as [id ids|id id' ids Hid IH]; cbn; rewrite append_length.
  - clear. assert (0 < String.length (fresh_id ids)); [|unfold fresh_id in *; lia].
    induction ids as [|id' ids IH]; cbn; [lia|]. rewrite append_length. unfold fresh_id in IH. lia.
  - unfold fresh_id in IH. lia.
Qed.
Lemma fresh_not_in ids : fresh_id ids ∉ ids.
Proof. intros H%fresh_longer. lia. Qed.

Definition wrap_of (epoch kid : string) : EpochRecipient := mkWrap kid ("secret of " ++ epoch).
Definition escrow_epoch (ids : list string) (epoch : CollectionEncryptionEpoch) : CollectionEncryptionEpoch :=
  mkEpoch (epoch_id epoch) (epoch_recipients epoch ++ (wrap_of (epoch_id epoch) <$> ids)).
Definition escrow_all (ids : list string) (base : CollectionEncryption) : CollectionEncryption :=
  mkDescriptor (currentEpoch base) (Some (escrow_epoch ids <$> epochList base)).
Definition vouches (vouched : string → option RecipientPublicKey) (kid : string) : bool :=
  match vouched kid with Some _ => true | None => false end.
Definition rotate (retire : list string) (vouched : string → option RecipientPublicKey) (incoming : list string)
    (base : CollectionEncryption) : CollectionEncryption :=
  let id := fresh_id (epochIds base) in
  mkDescriptor (Some id) (Some ((escrow_epoch incoming <$> epochList base) ++
    [mkEpoch id (wrap_of id <$> (filter (λ kid, kid ∉ retire ∧ vouches vouched kid = true) (currentKids base) ++ incoming))])).

Lemma kids_escrowed ids epoch kid : kid ∈ wrappedKids (escrow_epoch ids epoch) ↔ kid ∈ wrappedKids epoch ∨ kid ∈ ids.
Proof. unfold wrappedKids, escrow_epoch. cbn. by rewrite fmap_app, elem_of_app, <- list_fmap_compose, list_fmap_id. Qed.

Lemma escrow_Forall2 ids es : Forall2 (escrowsEpoch ids) es (escrow_epoch ids <$> es).
Proof. induction es as [|e es IH]; constructor; [|done]. split; [done|]. apply kids_escrowed. Qed.

Lemma escrow_all_escrows ids base : Escrowed ids base (escrow_all ids base).
Proof. split; [done|]. apply escrow_Forall2. Qed.

Lemma rotate_rotates retire vouched incoming base : Rotated retire vouched incoming base (rotate retire vouched incoming base).
Proof.
  exists (escrow_epoch incoming <$> epochList base). eexists. split_and!; [reflexivity|apply escrow_Forall2|apply fresh_not_in|done|].
  intros kid. unfold wrappedKids. cbn. rewrite <- list_fmap_compose.
  assert ((header_kid ∘ wrap_of (fresh_id (epochIds base))) <$> (filter (λ kid, kid ∉ retire ∧ vouches vouched kid = true) (currentKids base) ++ incoming)
    = filter (λ kid, kid ∉ retire ∧ vouches vouched kid = true) (currentKids base) ++ incoming) as -> by apply list_fmap_id.
  rewrite elem_of_app, list_elem_of_filter. unfold vouches.
  destruct (vouched kid); split; intros [H|H]; try (by right); left; [split_and!; [tauto..|by eexists]|tauto|naive_solver|].
  destruct H as (_ & _ & []%is_Some_None).
Qed.

(** One attempt of the compare-and-swap. *)
Definition attempt {W} (store : EncryptionDescriptorStore W) (build : CollectionEncryption → option CollectionEncryption) :
    comp W CollectionEncryption :=
  read ← store_read store;
  match read with
  | None => mthrow (plain_error "absent")
  | Some read =>
      match build (read_descriptor read) with
      | None => mret (read_descriptor read)
      | Some next => store_replace store next (read_etag read);; mret next
      end
  end.

Lemma attempt_runs {W} (store : EncryptionDescriptorStore W) build (built : CollectionEncryption → CollectionEncryption → Prop)
    (standing : CollectionEncryption → Prop) w :
  (∀ base next, build base = Some next → built base next) → (∀ base, build base = None → standing base) →
  recipientRun store built standing w (attempt store build w).1 (attempt store build w).2.
Proof.
  intros Hb Hs. unfold attempt, mbind, comp_bind. destruct (store_read store w) as [[[[base etag]|]|err] w1] eqn:Hr.
  - cbn. destruct (build base) as [next|] eqn:Hn; [|by eapply run_standing; eauto].
    destruct (store_replace store next etag w1) as [[[]|err] w2] eqn:Hw; [by eapply run_written; eauto|by eapply run_refused].
  - by eapply run_failed.
  - by eapply run_failed.
Qed.

#[export] Instance library : EpochLibrary := {|
  initRecipients W store recipients userKey :=
    let next := mkDescriptor (Some (userKey_id userKey)) (Some [mkEpoch (userKey_id userKey)
      ((λ r, mkWrap (recipient_id r) (userKey_secret userKey)) <$> recipients)]) in
    store_replace store next None;; mret next;
  addRecipient W store recipient _ := attempt store (λ base, Some (escrow_all [recipient_id recipient] base));
  removeRecipient W store retire vouched pull :=
    pull;; attempt store (λ base, if decide (retire ∈ currentKids base) then Some (rotate [retire] vouched [] base) else None);
  replaceRecipient W store retire recipients _ vouched pull :=
    pull;; attempt store (λ base, Some (if decide (Exists (λ kid, kid ∈ currentKids base) retire)
      then rotate retire vouched (recipient_id <$> recipients) base
      else escrow_all (recipient_id <$> recipients) base));
  unwrapEpochSecret wrap key := Ok (if decide (header_kid wrap = kak_id key) then Some (encrypted_key wrap) else None);
  ownerRecipient key := Ok (mkRecipient (kak_id key) (kak_id key));
  epochKeyIdFor id := ("key of " ++ id)%string;
  hasKeyEpochs descriptor := negb (bool_decide (epochList descriptor = []));
  trustRosterDidKeys kid := Some (mkRecipient kid kid);
  fromRawSecret secret _ id := Ok (mkKeyAgreement id secret)
|}.

#[export] Instance library_laws : EpochLibraryLaws.
Proof.
  constructor.
  - intros. apply attempt_runs; [intros ?? [= <-]; apply escrow_all_escrows|done].
  - intros W store retire vouched w. apply attempt_runs.
    + intros base next. case_decide; [intros [= <-]; apply rotate_rotates|done].
    + intros base. by case_decide.
  - intros W store retire recipients owner vouched w. apply attempt_runs; [|done].
    intros base next [= <-]. case_decide; [apply rotate_rotates|apply escrow_all_escrows].
  - intros x y Hxy. exact (inj (String.app "key of ") _ _ Hxy).
  - intros descriptor Hn. cbn. by rewrite bool_decide_false.
Qed.

(** ** Fragments *)

#[export] Instance keys : WebvhKeys := {| deriveNextKeyHash key := ("#" ++ key)%string; vmFragmentOf id := split_at "#"%char id !! 1 |}.

Lemma split_free s : hash_free s → split_at "#"%char s = [s].
Proof.
  induction s as [|a s IH]; [done|]. unfold hash_free. cbn [String.list_ascii_of_string]. intros [Ha Hs]%not_elem_of_cons. cbn [split_at].
  rewrite decide_False by done. by rewrite IH.
Qed.
Lemma split_hash s key : hash_free s → hash_free key → split_at "#"%char (s ++ "#" ++ key) = [s; key].
Proof.
  intros Hs Hk. induction s as [|a s IH].
  - change (EmptyString :: split_at "#"%char key = [EmptyString; key]). by rewrite split_free.
  - unfold hash_free in Hs. cbn [String.list_ascii_of_string] in Hs. apply not_elem_of_cons in Hs as [Ha Hs]. 
    change (split_at "#"%char (String a (s ++ "#" ++ key)) = [String a s; key]). cbn [split_at].
    rewrite decide_False by done. by rewrite IH.
Qed.
#[export] Instance fragment_laws : FragmentReaderLaws.
Proof. intros s key Hs Hk _. cbn [vmFragmentOf keys]. by rewrite split_hash. Qed.

#[export] Instance commitments : CommitmentLibrary := {| committedDigest := Ok; multikeyDigest := Ok |}.
End EpochLibraryDemo.
