(* ===== verification/RosterDemo.v ===== *)
(** * A concrete revocation, from the log to the collections

    The account of [ClientDemo] with its roster and one collection, kept in a
    store that refuses a write whose validator is not the one it served. *)

From Stdlib Require Import Ascii.
From S2P Require Import Prelude Json JsText CeremonyEvents AccountDocument LadderRungs ResourceController LadderDemo AccountLog LogStore KeyRotation LadderIndex LadderInventory ClientListing ClientRevocation AccountEntry ClientDemo EntryDemo Descriptors UserKeyRoster RosterConvergence UserKeyCascade RosterCascade RosterPolicy EpochLibraryDemo.

Module RosterDemo.
Import ClientDemo EpochLibraryDemo.
#[local] Existing Instance EpochLibraryDemo.keys.

(** ** The world *)

Record world := mkWorld {
  published_text : string;
  local : option concluded_head;
  events_state : EmitterState;
  descriptors : gmap (option string) DescriptorStoreRead
}.
#[export] Instance local_cell : Cell world (option concluded_head) :=
  {| get_cell := local; set_cell head w := mkWorld (published_text w) head (events_state w) (descriptors w) |}.
#[export] Instance events_cell : Cell world EmitterState :=
  {| get_cell := events_state; set_cell state w := mkWorld (published_text w) (local w) state (descriptors w) |}.

Definition held (w : world) (k : option string) : option DescriptorStoreRead := descriptors w !! k.

(** Each write gets the validator after the one it replaced. *)
Definition next_etag (etag : option string) : option string := Some ("v" ++ default "" etag)%string.
Definition store_at (k : option string) : EncryptionDescriptorStore world :=
  mkDescriptorStore
    (λ w, (Ok (descriptors w !! k), w))
    (λ next etag w,
       if decide (etag = (descriptors w !! k) ≫= read_etag) then
         (Ok (), mkWorld (published_text w) (local w) (events_state w) (<[k := mkRead next (next_etag etag)]> (descriptors w)))
       else (Throw (JsError PRECONDITION_FAILED_ERROR_NAME ""), w))
    None (Some (mret false)) (Some (λ _, mret ())).

#[export] Instance store_quiet k : QuietStore held k (store_at k).
Proof.
  split; [intros w; by exists w|]. intros w next etag. cbn. case_decide; [|done]. unfold held. cbn. split.
  - intros k' Hne. by rewrite lookup_insert_ne.
  - eexists. by rewrite lookup_insert_eq.
Qed.
#[export] Instance store_seals k : QuietSeal held (store_at k).
Proof. by intros seal setMinimum [= <- <-]. Qed.

(** ** The account *)

Definition client (name : string) : string := rosterRecipientKid name ("x" ++ name).
Definition passkey_kid : string := "did:key:ps#pk".
Definition c1_key : KeyAgreementKey := mkKeyAgreement (client "c1") "".
Definition roster : CollectionEncryption := mkDescriptor (Some "did:key:uk0")
  (Some [mkEpoch "did:key:uk0" (wrap_of "did:key:uk0" <$> [client "c1"; client "c2"; passkey_kid])]).
Definition docs : CollectionEncryption := mkDescriptor (Some "e0")
  (Some [mkEpoch "e0" [wrap_of "e0" (epochKeyIdFor "did:key:uk0"); wrap_of "e0" "did:key:app#app"]]).
Definition start : world := mkWorld "4" None fresh_emitter
  {[None := mkRead roster (Some "1"); Some "docs" := mkRead docs (Some "1")]}.

(** The log is served as the text of its length; the entry published is the
    one the revocation writes. *)
Definition doc_after : AccountDocument := account_doc ["c1"] [passkey].
#[export] Instance store_writer : WebvhWriter := {|
  WebDoc := ();
  Signer := string;
  logToJsonlString log := if decide (length log = 4) then "4" else "5";
  generateParallelDidWeb _ _ := ();
  updateKeyMultibase seed := Ok seed;
  updateKeySigner seed := Ok seed
|}.
#[export] Instance resolver : WebvhResolver := {|
  readLogFromString text := if decide (text = "4") then Ok log else Throw (plain_error "unreadable");
  resolveDIDFromLog log :=
    Ok (mkResolution (Some did) (Some (account_doc ["c1"; "c2"] [passkey]))
      (mkMeta None (Some (currentLogParameters log).1) (Some (currentLogParameters log).2)))
|}.
Definition updateDID : UpdateDID := λ log _ _ _ _ A C,
  Ok (mkUpdated did doc_after (log ++ [step "5" "u" A C doc_after]) (mkMeta None (Some A) (Some C)) (Some tt)).

Definition put (write : PutIdResource) : comp world (option (option string)) := λ w,
  match put_content write with
  | WebDocument _ => (Ok None, w)
  | LogText text => (Ok (Some (Some text)), mkWorld text (local w) (events_state w) (descriptors w))
  end.
Definition idStore : WebvhIdStore world :=
  mkIdStore (λ _ w, (Ok (Some (published_text w, Some (published_text w))), w)) put
    (mkPinStore (λ _, mret None) (λ _ _, mret ())) "id".
Definition silent : Logger world := λ _, mret ().
Definition collections : CascadeCollections world :=
  mkCollections (GivenIds ["docs"]) (λ id, store_at (Some id)) (Some (λ _, mret true)).
Definition options : RevocationOptions :=
  mkRevocationOptions idStore (enrolled (mkUpdateKeys "u" "s" None)) None (mkRevoked "c2" "p") ["#r0"] None
    (store_at None) None c1_key (Some "did:key:uk0") None collections None None.
#[export] Instance shape : ThrownShape := plain_shape.

Definition revoke : comp world ClientRevocationResult := runClientRevocation updateDID silent (revocation_run "r") options.
Definition outcome : result ClientRevocationResult * world := revoke start.

(** ** What the theorems ask of it *)

Lemma account : QuietAccount held None Some (ro_rosterStore options) (ro_onUserKeyAdopted options) (ro_collections options).
Proof.
  split; cbn; try by intros.
  - apply store_quiet.
  - apply store_seals.
  - intros id. apply store_quiet.
  - intros id. apply store_seals.
  - apply _.
  - intros f id [= <-]. apply still_ret.
  - intros w ids [= <-]. split; [apply NoDup_singleton|]. by rewrite list_elem_of_singleton.
Qed.

Lemma seams : seams_still held silent options.
Proof.
  split; try done.
  intros write w k. cbn. unfold put. by destruct (put_content write).
Qed.

Lemma sound_after : markedSoundly doc_after.
Proof.
  intros method signingKey key Hin Hc Hk.
  assert (resolvedKeyAgreementMethods doc_after = [twin_method "c1"; passkey]) as Hmethods by (vm_compute; reflexivity).
  rewrite Hmethods in Hin. apply elem_of_cons in Hin as [->|Hin%list_elem_of_singleton]; [|subst method; done].
  assert (signingKey = "c1") as ->.
  { cbn in Hc. injection Hc as Hc. by vm_compute in Hc. }
  injection Hk as <-. split_and!; [apply (bool_decide_eq_true_1 _); by vm_compute..|done].
Qed.

(** ** The witnesses *)

Lemma revocation_cuts_off_witness :
  ∃ r w' next, outcome = (Ok r, w') ∧ rev_rosterDescriptor r = Some next ∧
    client "c2" ∈ currentKids roster ∧ client "c2" ∉ currentKids next ∧ client "c1" ∈ currentKids next ∧
    outcomes (rev_collections r) = {["docs" := outcome_rotated]}.
Proof.
  destruct outcome as [[r|err] w'] eqn:Hrun; [|by vm_compute in Hrun].
  pose proof (revocation_cuts_off held None Some updateDID silent (revocation_run "r") options roster (Some "1") start r w'
    library_laws fragment_laws account seams eq_refl Hrun) as H.
  assert (match outcome.1 with Ok r => rev_document r | Throw _ => empty_document end = doc_after) as Hdoc by (vm_compute; reflexivity).
  assert (match outcome.1 with Ok r => outcomes (rev_collections r) | Throw _ => ∅ end = {["docs" := outcome_rotated]}) as Hout
    by (vm_compute; reflexivity).
  assert (match outcome.1 with Ok r => from_option currentKids [] (rev_rosterDescriptor r) | Throw _ => [] end = [client "c1"; passkey_kid]) as Hkids
    by (vm_compute; reflexivity).
  rewrite Hrun in Hdoc, Hout, Hkids. cbn [fst] in Hdoc, Hout, Hkids.
  destruct H as (next & userKey & Hn & _ & _ & Hcut); [rewrite Hdoc; exact sound_after|].
  rewrite Hn in Hkids. cbn [from_option] in Hkids.
  exists r, w', next. split; [reflexivity|]. split; [exact Hn|].
  split; [apply (bool_decide_eq_true_1 _); by vm_compute|]. split; [|split; [rewrite Hkids; left|exact Hout]].
  apply Hcut. rewrite Hdoc. intros [x Hx]. by vm_compute in Hx.
Defined.

Lemma roster_convergence_settles_witness :
  match convergeUserKeyRosterToDocument (store_at None) doc_after did None None (Some c1_key) start with
  | (Ok c, w') => conv_rotated c = true ∧ conv_staleRecipientIds c = [client "c2"] ∧ currentKids (default docs (conv_descriptor c)) = [client "c1"; passkey_kid]
  | _ => False
  end.
Proof.
  assert (Hv : match (convergeUserKeyRosterToDocument (store_at None) doc_after did None None (Some c1_key) start).1 with
    | Ok c => (conv_rotated c, conv_staleRecipientIds c, currentKids (default docs (conv_descriptor c))) | Throw _ => (false, [], []) end
    = (true, [client "c2"], [client "c1"; passkey_kid])) by (vm_compute; reflexivity).
  pose proof (roster_convergence_settles held None (store_at None) doc_after did roster
    (mkEpoch "did:key:uk0" (wrap_of "did:key:uk0" <$> [client "c1"; client "c2"; passkey_kid])) (Some "1") None None
    (Some c1_key) start fragment_laws library_laws (store_quiet None) sound_after eq_refl (or_introl eq_refl) eq_refl) as H.
  destruct (convergeUserKeyRosterToDocument _ _ _ _ _ _ start) as [[c|err] w']; [|by cbn in Hv].
  destruct H as (next & epoch' & Hn & _). cbn [fst] in Hv. by injection Hv as -> -> ->.
Defined.

Definition generations : list UserKey := [mkUserKey "did:key:uk0" "s0"; mkUserKey "did:key:uk1" "s1"].
Lemma collection_rotation_converges_witness :
  match rotateCollectionEpochsToUserKey (store_at (Some "docs")) (mkUserKey "did:key:uk1" "s1") generations start with
  | (Ok outcome, w') => outcome = outcome_rotated ∧
      ∀ r w'', rotateCollectionEpochsToUserKey (store_at (Some "docs")) (mkUserKey "did:key:uk1" "s1") generations w' = (r, w'') →
        ∀ k', held w'' k' = held w' k'
  | _ => False
  end.
Proof.
  pose proof (collection_rotation_converges held (Some "docs") (store_at (Some "docs")) (mkUserKey "did:key:uk1" "s1") generations
    start library_laws (store_quiet _) (store_seals _)) as H.
  assert (Hv : (rotateCollectionEpochsToUserKey (store_at (Some "docs")) (mkUserKey "did:key:uk1" "s1") generations start).1 = Ok outcome_rotated)
    by (vm_compute; reflexivity).
  destruct (rotateCollectionEpochsToUserKey _ _ _ start) as [[outcome|err] w'] eqn:Hrun; [|done]. cbn [fst] in Hv. injection Hv as ->.
  split; [reflexivity|]. destruct H as (_ & _ & _ & H). intros r w'' Hr. by apply (H r w'').
Defined.

(** A second epoch, and the cut of the history that lost it. *)
Definition roster1 : CollectionEncryption := mkDescriptor (Some "did:key:uk1")
  (Some [mkEpoch "did:key:uk0" [wrap_of "did:key:uk0" (client "c1")]; mkEpoch "did:key:uk1" [wrap_of "did:key:uk1" (client "c1")]]).
Definition history : list string := ["did:key:uk0"; "did:key:uk1"].
Lemma roster_reads_never_roll_back_witness :
  (∃ reads, readSession c1_key [roster; roster1] None (Some "did:key:uk0") = Ok reads ∧
     StronglySorted (not_after history) ("did:key:uk0" :: (rosterRead_latestEpochId <$> reads))) ∧
  readServed roster None None c1_key (Some "did:key:uk1") = Throw (UserKeyRosterContinuityError "did:key:uk1").
Proof.
  assert (NoDup history) as Hnd by (apply (bool_decide_eq_true_1 _); by vm_compute).
  assert ("" ∉ history) as He by (apply (bool_decide_eq_true_1 _); by vm_compute).
  assert (Forall (λ d, epochIds d `prefix_of` history) [roster; roster1]) as Hall
    by (apply (bool_decide_eq_true_1 _); by vm_compute).
  split.
  - destruct (readSession c1_key [roster; roster1] None (Some "did:key:uk0")) as [reads|err] eqn:Hr; [|by vm_compute in Hr].
    exists reads. split; [reflexivity|].
    apply (roster_reads_never_roll_back c1_key [roster; roster1] None "did:key:uk0" history Hnd He ltac:(done) Hall) in Hr as [Hs _].
    exact Hs.
  - destruct (roster_reads_never_roll_back c1_key [roster; roster1] None "did:key:uk1" history Hnd He ltac:(done) Hall) as [_ H].
    eapply (H roster None None); [reflexivity| |left; apply (bool_decide_eq_true_1 _); by vm_compute].
    apply (bool_decide_eq_true_1 _). by vm_compute.
Defined.

(** A decision made on a descriptor handed in without its validator, after
    another client's rotation: the removal finds the recipient gone and writes
    nothing, and the convergence reports a rotation. *)
Definition rotated_elsewhere : world :=
  mkWorld "4" None fresh_emitter {[None := mkRead (rotate [client "c2"] (rosterRecipientBacking doc_after) [] roster) (Some "2")]}.
Lemma rotation_reported_without_a_write :
  match convergeUserKeyRosterToDocument (store_at None) doc_after did (Some roster) None None rotated_elsewhere with
  | (Ok c, w') => conv_rotated c = true ∧ descriptors w' = descriptors rotated_elsewhere
  | _ => False
  end.
Proof. vm_compute. by split. Qed.
End RosterDemo.
