(* ===== verification/ClientKeyRecord.v ===== *)
(** * The client-key record

    [src/src/keys/clientKeyRecord.ts]: the codec of the local record a wallet
    client keeps its own key material in, with its strict validation on both
    sides. Bytes are strings of characters; the base64url codec is the
    parameter [Base64]. The record travels as JSON, and a stored value that
    was never written is [None]. *)

From S2P Require Import Prelude Json JsText ConnEntry LadderRungs AccountLog KeyRotation Descriptors.

Definition SECRET_BYTES : nat := 32.
Definition RECOVERY_CODE_BYTES : nat := 16.

(** ** The record *)

(** [ClientKeyRecordPending.ceremony]. *)
Inductive Ceremony := recovery_spend | self_enrollment.
#[export] Instance Ceremony_eq_dec : EqDecision Ceremony. Proof. solve_decision. Defined.

Definition ceremony_name (ceremony : Ceremony) : string :=
  match ceremony with recovery_spend => "recovery-spend" | self_enrollment => "self-enrollment" end.

Record ClientKeyRecordPending := mkPending {
  pending_ceremony : Ceremony;
  pending_builtOnHead : BuiltOnHead;
  pending_unwrapKey : option string;
  pending_replacementCode : option string
}.

Record ClientKeyRecord := mkClientRecord {
  ckr_clientSeed : string;
  ckr_userKey : option UserKey;
  ckr_webvhUpdateKeys : option ClientWebvhUpdateKeys;
  ckr_controller : option string;
  ckr_pointerDid : option string;
  ckr_pending : option ClientKeyRecordPending
}.

(** [EnrolledClientKeyRecord]: the four members an enrolled client holds,
    beside the record they came from. *)
Record EnrolledClientKeyRecord := mkEnrolledRecord {
  ecr_record : ClientKeyRecord;
  ecr_userKey : UserKey;
  ecr_webvhUpdateKeys : ClientWebvhUpdateKeys;
  ecr_controller : string;
  ecr_pointerDid : string
}.

Definition recordError (message : string) : js_error := plain_error ("Client-key record " ++ message).

(** [...(v !== undefined ? { k: v } : {})]. *)
Definition opt_member (k : string) (v : option json) : members :=
  match v with Some v => [(k, v)] | None => [] end.

Section codec.
Context {base64 : Base64}.

(** ** Decoding *)

Definition decodeSecret (value : option json) (name : string) (length : nat) : result string :=
  match value with
  | Some (JStr text) =>
      match b64_decode text with
      | Some bytes =>
          if decide (String.length bytes = length) then Ok bytes
          else mthrow (recordError (name ++ " is not " ++ pretty length ++ " bytes."))
      | None => mthrow (recordError (name ++ " is not base64url."))
      end
  | _ => mthrow (recordError (name ++ " is missing."))
  end.

(** A member whose absence is accepted. *)
Definition decodeOptionalSecret (value : option json) (name : string) (length : nat) : result (option string) :=
  match value with
  | None => Ok None
  | Some _ => bytes ← decodeSecret value name length; Ok (Some bytes)
  end.

Definition parseClientRecordUserKey (value : option json) : result (option UserKey) :=
  match value with
  | None => Ok None
  | Some _ =>
      match js_object value with
      | None => mthrow (recordError "has a malformed user key.")
      | Some o =>
          match nonempty_member "id" o with
          | None => mthrow (recordError "user key is missing its key id.")
          | Some id => secret ← decodeSecret (get_member "secret" o) "user key material" SECRET_BYTES; Ok (Some (mkUserKey id secret))
          end
      end
  end.

Definition parseClientRecordWebvhKeys (value : option json) : result (option ClientWebvhUpdateKeys) :=
  match value with
  | None => Ok None
  | Some _ =>
      match js_object value with
      | None => mthrow (recordError "has malformed did:webvh update keys.")
      | Some o =>
          update ← decodeSecret (get_member "updateSeed" o) "did:webvh update seed" SECRET_BYTES;
          staged ← decodeSecret (get_member "stagedSeed" o) "did:webvh staged seed" SECRET_BYTES;
          pendingStaged ← decodeOptionalSecret (get_member "pendingStagedSeed" o) "did:webvh pending staged seed" SECRET_BYTES;
          Ok (Some (mkUpdateKeys update staged pendingStaged))
      end
  end.

(** The exclusivity rule both directions share. *)
Definition assertPendingShape {A} (ceremony : Ceremony) (unwrapKey replacementCode : option A) : result () :=
  if decide (ceremony = self_enrollment ∧ (is_Some unwrapKey ∨ is_Some replacementCode)) then
    mthrow (recordError "pending state carries recovery-spend members under self-enrollment.")
  else Ok ().

Definition parseCeremony (value : option json) : option Ceremony :=
  match value with
  | Some (JStr name) =>
      if decide (name = "recovery-spend") then Some recovery_spend
      else if decide (name = "self-enrollment") then Some self_enrollment else None
  | _ => None
  end.

Definition parseHead (value : option json) : option BuiltOnHead :=
  o ← js_object value; scid ← nonempty_member "scid" o; versionId ← nonempty_member "versionId" o;
  Some (mkBuiltOn scid versionId).

Definition parseClientRecordPending (value : option json) : result (option ClientKeyRecordPending) :=
  match value with
  | None => Ok None
  | Some _ =>
      match js_object value with
      | None => mthrow (recordError "pending state is malformed.")
      | Some o =>
          match parseCeremony (get_member "ceremony" o) with
          | None => mthrow (recordError "pending state has an unknown ceremony.")
          | Some ceremony =>
              match parseHead (get_member "builtOnHead" o) with
              | None => mthrow (recordError "pending state has a malformed built-on head.")
              | Some builtOnHead =>
                  let unwrapKey := get_member "unwrapKey" o in
                  let replacementCode := get_member "replacementCode" o in
                  _ ← assertPendingShape ceremony unwrapKey replacementCode;
                  match ceremony with
                  | self_enrollment => Ok (Some (mkPending ceremony builtOnHead None None))
                  | recovery_spend =>
                      unwrapKey ← decodeOptionalSecret unwrapKey "pending unwrap key" SECRET_BYTES;
                      replacementCode ← decodeOptionalSecret replacementCode "pending replacement code" RECOVERY_CODE_BYTES;
                      Ok (Some (mkPending ceremony builtOnHead unwrapKey replacementCode))
                  end
              end
          end
      end
  end.

(** A string member that may be absent but not empty. *)
Definition optionalName (value : option json) (refusal : js_error) : result (option string) :=
  match value with
  | None => Ok None
  | Some (JStr s) => if decide (s = "") then mthrow refusal else Ok (Some s)
  | Some _ => mthrow refusal
  end.

Definition decodeClientKeyRecord (contents : option json) : result ClientKeyRecord :=
  match js_object contents with
  | None => mthrow (plain_error "Malformed client-key record.")
  | Some o =>
      seed ← decodeSecret (get_member "clientSeed" o) "client seed" SECRET_BYTES;
      controller ← optionalName (get_member "controller" o) (recordError "has a malformed controller.");
      pointerDid ← optionalName (get_member "pointerDid" o) (recordError "has a malformed account pointer DID.");
      userKey ← parseClientRecordUserKey (get_member "userKey" o);
      webvhUpdateKeys ← parseClientRecordWebvhKeys (get_member "webvh" o);
      pending ← parseClientRecordPending (get_member "pending" o);
      Ok (mkClientRecord seed userKey webvhUpdateKeys controller pointerDid pending)
  end.

(** ** Encoding *)

Definition encodeSecret (value : string) (name : string) (length : nat) : result json :=
  if decide (String.length value = length) then Ok (JStr (b64_encode value))
  else mthrow (recordError (name ++ " is not " ++ pretty length ++ " bytes.")).

Definition encodeOptional {A} (f : A → result json) (value : option A) : result (option json) :=
  match value with Some value => j ← f value; Ok (Some j) | None => Ok None end.

Definition encodeUserKey (userKey : UserKey) : result json :=
  secret ← encodeSecret (userKey_secret userKey) "user key material" SECRET_BYTES;
  Ok (JObj [("id", JStr (userKey_id userKey)); ("secret", secret)]).

Definition encodeWebvhKeys (keys : ClientWebvhUpdateKeys) : result json :=
  update ← encodeSecret (updateSeed keys) "did:webvh update seed" SECRET_BYTES;
  staged ← encodeSecret (stagedSeed keys) "did:webvh staged seed" SECRET_BYTES;
  pendingStaged ← encodeOptional (λ seed, encodeSecret seed "did:webvh pending staged seed" SECRET_BYTES) (pendingStagedSeed keys);
  Ok (JObj ([("updateSeed", update); ("stagedSeed", staged)] ++ opt_member "pendingStagedSeed" pendingStaged)).

Definition encodePending (pending : ClientKeyRecordPending) : result json :=
  unwrapKey ← encodeOptional (λ key, encodeSecret key "pending unwrap key" SECRET_BYTES) (pending_unwrapKey pending);
  replacementCode ← encodeOptional (λ code, encodeSecret code "pending replacement code" RECOVERY_CODE_BYTES) (pending_replacementCode pending);
  Ok (JObj ([("ceremony", JStr (ceremony_name (pending_ceremony pending)));
             ("builtOnHead", JObj [("scid", JStr (bo_scid (pending_builtOnHead pending)));
                                   ("versionId", JStr (bo_versionId (pending_builtOnHead pending)))])] ++
    opt_member "unwrapKey" unwrapKey ++ opt_member "replacementCode" replacementCode)).

(** [createdAt] defaults to the clock's reading [now]. *)
Definition encodeClientKeyRecord `{!JsHost} (now : Z) (record : ClientKeyRecord) (createdAt : option string) : result json :=
  _ ← match ckr_pending record with
      | Some pending => assertPendingShape (pending_ceremony pending) (pending_unwrapKey pending) (pending_replacementCode pending)
      | None => Ok ()
      end;
  clientSeed ← encodeSecret (ckr_clientSeed record) "client seed" SECRET_BYTES;
  userKey ← encodeOptional encodeUserKey (ckr_userKey record);
  webvh ← encodeOptional encodeWebvhKeys (ckr_webvhUpdateKeys record);
  pending ← encodeOptional encodePending (ckr_pending record);
  Ok (JObj ([("clientSeed", clientSeed)] ++ opt_member "userKey" userKey ++ opt_member "webvh" webvh ++
    opt_member "controller" (JStr <$> truthy (ckr_controller record)) ++
    opt_member "pointerDid" (JStr <$> truthy (ckr_pointerDid record)) ++
    opt_member "pending" pending ++ [("createdAt", JStr (default (toISOString now) createdAt))])).
End codec.

(** ** The complete record *)

Definition assertEnrolledClientKeyRecord (record : ClientKeyRecord) : result EnrolledClientKeyRecord :=
  match ckr_userKey record with
  | None => mthrow (recordError "carries no user key.")
  | Some userKey =>
      match ckr_webvhUpdateKeys record with
      | None => mthrow (recordError "carries no did:webvh update keys.")
      | Some webvhUpdateKeys =>
          match truthy (ckr_controller record) with
          | None => mthrow (recordError "carries no account controller.")
          | Some controller =>
              match truthy (ckr_pointerDid record) with
              | None => mthrow (recordError "carries no account pointer DID.")
              | Some pointerDid => Ok (mkEnrolledRecord record userKey webvhUpdateKeys controller pointerDid)
              end
          end
      end
  end.

Definition isEnrolledClientKeyRecord (record : ClientKeyRecord) : bool :=
  match assertEnrolledClientKeyRecord record with Ok _ => true | Throw _ => false end.

(** ** Well-formed records

    What the codec promises of a record: every secret has its length, every
    name is there, and the recovery-spend members stay out of a
    self-enrollment. *)

Definition secret_sized (length : nat) (bytes : string) : Prop := String.length bytes = length.
Definition each {A} (P : A → Prop) (o : option A) : Prop := ∀ a, o = Some a → P a.

Definition user_key_ok (userKey : UserKey) : Prop :=
  userKey_id userKey ≠ "" ∧ secret_sized SECRET_BYTES (userKey_secret userKey).
Definition webvh_keys_ok (keys : ClientWebvhUpdateKeys) : Prop :=
  secret_sized SECRET_BYTES (updateSeed keys) ∧ secret_sized SECRET_BYTES (stagedSeed keys) ∧
  each (secret_sized SECRET_BYTES) (pendingStagedSeed keys).
Definition head_ok (head : BuiltOnHead) : Prop := bo_scid head ≠ "" ∧ bo_versionId head ≠ "".
Definition pending_ok (pending : ClientKeyRecordPending) : Prop :=
  head_ok (pending_builtOnHead pending) ∧
  each (secret_sized SECRET_BYTES) (pending_unwrapKey pending) ∧
  each (secret_sized RECOVERY_CODE_BYTES) (pending_replacementCode pending) ∧
  (pending_ceremony pending = self_enrollment →
    pending_unwrapKey pending = None ∧ pending_replacementCode pending = None).

Record well_formed (record : ClientKeyRecord) : Prop := {
  wf_seed : secret_sized SECRET_BYTES (ckr_clientSeed record);
  wf_userKey : each user_key_ok (ckr_userKey record);
  wf_webvh : each webvh_keys_ok (ckr_webvhUpdateKeys record);
  wf_controller : each (λ controller, controller ≠ "") (ckr_controller record);
  wf_pointer : each (λ did, did ≠ "") (ckr_pointerDid record);
  wf_pending : each pending_ok (ckr_pending record)
}.

#[local] Arguments encodeSecret : simpl never.
#[local] Arguments decodeSecret : simpl never.
#[local] Arguments decodeOptionalSecret : simpl never.
#[local] Arguments nonempty_member : simpl never.
#[local] Arguments assertPendingShape : simpl never.
#[local] Arguments parseHead : simpl never.
#[local] Arguments parseCeremony : simpl never.
#[local] Arguments parseClientRecordUserKey : simpl never.
#[local] Arguments parseClientRecordWebvhKeys : simpl never.
#[local] Arguments parseClientRecordPending : simpl never.
#[local] Arguments encodeUserKey : simpl never.
#[local] Arguments encodeWebvhKeys : simpl never.
#[local] Arguments encodePending : simpl never.

(** Decoding undoes encoding. *)
Class Base64Inverse `{!Base64} : Prop := b64_inverse bytes : b64_decode (b64_encode bytes) = Some bytes.
#[export] Instance Base64Laws_inverse `{!Base64} `{!Base64Laws} : Base64Inverse := b64_decode_encode.

Lemma each_Some {A} (P : A → Prop) a : P a → each P (Some a).
Proof. by intros H a' [= <-]. Qed.

Lemma each_inv {A} (P : A → Prop) a : each P (Some a) → P a.
Proof. intros H. by apply H. Qed.

Lemma each_None {A} (P : A → Prop) : each P None.
Proof. done. Qed.

Lemma get_member_app k (o o' : members) :
  get_member k (o ++ o') = match get_member k o with Some v => Some v | None => get_member k o' end.
Proof. induction o as [|[k' v] o IH]; simpl; [done|by case_decide]. Qed.

Lemma get_opt_member k k' v : get_member k (opt_member k' v) = if decide (k = k') then v else None.
Proof. destruct v as [v|]; simpl; by case_decide. Qed.

Lemma truthy_each o : each (λ s, s ≠ "") o → truthy o = o.
Proof. destruct o as [[|c s]|]; [|done..]. intros H. by destruct (H "" eq_refl). Qed.

Lemma get_member_here k v o : get_member k ((k, v) :: o) = Some v.
Proof. simpl. by rewrite decide_True. Qed.

Lemma get_member_there k k' v o : k ≠ k' → get_member k ((k', v) :: o) = get_member k o.
Proof. intros. simpl. by rewrite decide_False. Qed.

Lemma get_opt_here k v o : get_member k (opt_member k v ++ o) = match v with Some v => Some v | None => get_member k o end.
Proof. rewrite get_member_app, get_opt_member. by rewrite decide_True. Qed.

Lemma get_opt_there k k' v o : k ≠ k' → get_member k (opt_member k' v ++ o) = get_member k o.
Proof. intros. rewrite get_member_app, get_opt_member. by rewrite decide_False. Qed.

Lemma or_absent (v : option json) k : match v with Some v => Some v | None => get_member k [] end = v.
Proof. by destruct v. Qed.

(** Reads a member of an object written out. *)
Ltac read_members :=
  repeat first [ rewrite get_member_here | rewrite get_opt_here | rewrite get_member_there by discriminate
               | rewrite get_opt_there by discriminate | rewrite get_opt_member, decide_True by reflexivity
               | rewrite get_opt_member, decide_False by discriminate ].
#[local] Arguments get_member : simpl never.

Section round_trip.
Context {base64 : Base64} {inverse : Base64Inverse}.

Lemma encodeSecret_ok value name length :
  secret_sized length value → encodeSecret value name length = Ok (JStr (b64_encode value)).
Proof. intros Hl. unfold encodeSecret. by rewrite decide_True. Qed.

Lemma decodeSecret_encoded value name length :
  secret_sized length value → decodeSecret (Some (JStr (b64_encode value))) name length = Ok value.
Proof. intros Hl. unfold decodeSecret. rewrite b64_inverse. by rewrite decide_True. Qed.

Lemma decodeSecret_sized value name length bytes :
  decodeSecret value name length = Ok bytes → secret_sized length bytes.
Proof. unfold decodeSecret. destruct value as [[]|]; [done..| |done|done|done]. destruct (b64_decode s); [|done]. case_decide; [|done]. by intros [= <-]. Qed.

Lemma decodeOptionalSecret_sized value name length bytes :
  decodeOptionalSecret value name length = Ok bytes → each (secret_sized length) bytes.
Proof.
  destruct value as [v|]; [|by intros [= <-]]. unfold decodeOptionalSecret.
  intros (b & Hb & [= <-])%result_bind_ok. apply each_Some. by eapply decodeSecret_sized.
Qed.

(** An optional secret is written and read back as it was. *)
Lemma optional_secret_round value name length :
  each (secret_sized length) value →
  ∃ j, encodeOptional (λ bytes, encodeSecret bytes name length) value = Ok j ∧
    decodeOptionalSecret j name length = Ok value ∧ (is_Some j ↔ is_Some value).
Proof.
  destruct value as [bytes|]; [|by exists None].
  intros Hl%each_inv. exists (Some (JStr (b64_encode bytes))). cbn. rewrite encodeSecret_ok by done. split; [done|].
  split; [|done]. unfold decodeOptionalSecret. by rewrite decodeSecret_encoded.
Qed.

Lemma nonempty_member_eq k s o : get_member k o = Some (JStr s) → s ≠ "" → nonempty_member k o = Some s.
Proof. unfold nonempty_member. intros -> Hs. by destruct s. Qed.

Lemma nonempty_member_ne k o s : nonempty_member k o = Some s → s ≠ "".
Proof. unfold nonempty_member. destruct (get_member k o) as [[| | |t| |]|]; try done. case_decide; [done|]. by intros [= <-]. Qed.
End round_trip.

Section members_round_trip.
Context {base64 : Base64} {inverse : Base64Inverse}.

Lemma user_key_round userKey :
  user_key_ok userKey → ∃ j, encodeUserKey userKey = Ok j ∧ parseClientRecordUserKey (Some j) = Ok (Some userKey).
Proof.
  destruct userKey as [id secret]. intros [Hid Hs]. cbn in *. eexists. split.
  { unfold encodeUserKey. cbn. by rewrite encodeSecret_ok. }
  unfold parseClientRecordUserKey. cbn. rewrite (nonempty_member_eq _ id) by done. read_members.
  by rewrite decodeSecret_encoded.
Qed.

Lemma webvh_keys_round keys :
  webvh_keys_ok keys → ∃ j, encodeWebvhKeys keys = Ok j ∧ parseClientRecordWebvhKeys (Some j) = Ok (Some keys).
Proof.
  destruct keys as [update staged pendingStaged]. intros (Hu & Hs & Hp). cbn in *.
  destruct (optional_secret_round pendingStaged "did:webvh pending staged seed" SECRET_BYTES Hp) as (p & Hep & Hdp & _).
  eexists. split.
  { unfold encodeWebvhKeys. cbn. rewrite !encodeSecret_ok by done. cbn. by rewrite Hep. }
  unfold parseClientRecordWebvhKeys. cbn. read_members.
  rewrite !decodeSecret_encoded by done. cbn. by rewrite Hdp.
Qed.

Lemma pending_shape_ok pending :
  pending_ok pending →
  assertPendingShape (pending_ceremony pending) (pending_unwrapKey pending) (pending_replacementCode pending) = Ok ().
Proof.
  intros (_ & _ & _ & Hx). unfold assertPendingShape. rewrite decide_False; [done|].
  intros [Hc Hs]. destruct (Hx Hc) as [Hu Hr]. rewrite Hu, Hr in Hs. by destruct Hs as [[]|[]].
Qed.

Lemma parseHead_round scid versionId :
  head_ok (mkBuiltOn scid versionId) →
  parseHead (Some (JObj [("scid", JStr scid); ("versionId", JStr versionId)])) = Some (mkBuiltOn scid versionId).
Proof. intros [Hs Hv]. unfold parseHead. cbn. rewrite (nonempty_member_eq "scid" scid), (nonempty_member_eq "versionId" versionId) by done. done. Qed.

Lemma assertPendingShape_presence {A B} ceremony (u r : option A) (u' r' : option B) :
  (is_Some u' ↔ is_Some u) → (is_Some r' ↔ is_Some r) →
  assertPendingShape ceremony u' r' = assertPendingShape ceremony u r.
Proof. intros Hu Hr. unfold assertPendingShape. repeat case_decide; naive_solver. Qed.

Lemma pending_round pending :
  pending_ok pending → ∃ j, encodePending pending = Ok j ∧ parseClientRecordPending (Some j) = Ok (Some pending).
Proof.
  intros Hok. pose proof (pending_shape_ok _ Hok) as Hshape.
  destruct pending as [ceremony [scid versionId] unwrapKey code]. destruct Hok as (Hh & Hu & Hr & Hx). cbn in *.
  destruct (optional_secret_round unwrapKey "pending unwrap key" SECRET_BYTES Hu) as (u & Heu & Hdu & Hpu).
  destruct (optional_secret_round code "pending replacement code" RECOVERY_CODE_BYTES Hr) as (r & Her & Hdr & Hpr).
  eexists. split.
  { unfold encodePending. cbn. rewrite Heu. cbn. by rewrite Her. }
  unfold parseClientRecordPending. cbn. read_members.
  replace (parseCeremony (Some (JStr (ceremony_name ceremony)))) with (Some ceremony) by by destruct ceremony.
  rewrite parseHead_round by done.
  replace (match u with Some v => Some v | None => None end) with u by by destruct u.
  rewrite (assertPendingShape_presence ceremony unwrapKey code) by done. rewrite Hshape. cbn.
  destruct ceremony; [by rewrite Hdu; cbn; rewrite Hdr|].
  by destruct (Hx eq_refl) as [-> ->].
Qed.

Lemma optional_round {A} (encode : A → result json) (parse : option json → result (option A)) (P : A → Prop) o :
  (∀ a, P a → ∃ j, encode a = Ok j ∧ parse (Some j) = Ok (Some a)) → parse None = Ok None →
  each P o → ∃ j, encodeOptional encode o = Ok j ∧ parse j = Ok o.
Proof.
  intros Hround Hnone Ho. destruct o as [a|]; [|by exists None].
  destruct (Hround a) as (j & Hj & Hp); [by apply each_inv|]. exists (Some j). by rewrite <- Hp; cbn; rewrite Hj.
Qed.

Lemma optionalName_round o refusal : each (λ s, s ≠ "") o → optionalName (JStr <$> o) refusal = Ok o.
Proof. destruct o as [s|]; [|done]. intros Hs%each_inv. cbn. by rewrite decide_False. Qed.

Lemma record_round `{!JsHost} now record createdAt :
  well_formed record →
  ∃ j, encodeClientKeyRecord now record createdAt = Ok j ∧ decodeClientKeyRecord (Some j) = Ok record.
Proof.
  destruct record as [seed userKey webvh controller pointer pending]. intros [Hs Hk Hw Hc Hd Hp]. cbn in *.
  destruct (optional_round encodeUserKey parseClientRecordUserKey _ _ user_key_round eq_refl Hk) as (k & Hek & Hdk).
  destruct (optional_round encodeWebvhKeys parseClientRecordWebvhKeys _ _ webvh_keys_round eq_refl Hw) as (v & Hev & Hdv).
  destruct (optional_round encodePending parseClientRecordPending _ _ pending_round eq_refl Hp) as (p & Hep & Hdp).
  eexists. split.
  { unfold encodeClientKeyRecord. cbn.
    replace (match pending with Some _ => _ | None => _ end) with (@Ok () ()).
    2: { destruct pending as [pending|]; [|done]. symmetry. apply pending_shape_ok. by apply each_inv. }
    cbn. rewrite encodeSecret_ok by done. cbn.
    rewrite Hek. cbn. rewrite Hev. cbn. by rewrite Hep. }
  rewrite !truthy_each by done. unfold decodeClientKeyRecord. cbn.
  read_members.
  cbn.
  rewrite decodeSecret_encoded by done.
  cbn.
  rewrite !or_absent, !optionalName_round by done. cbn. rewrite Hdk. cbn. rewrite Hdv. cbn. by rewrite Hdp.
Qed.
End members_round_trip.

(** ** What decoding accepts *)

Section accepted.
Context {base64 : Base64}.

Lemma parsed_user_key_ok value userKey : parseClientRecordUserKey value = Ok userKey → each user_key_ok userKey.
Proof.
  unfold parseClientRecordUserKey. destruct value as [v|]; [|by intros [= <-]].
  destruct (js_object _) as [o|]; [|done]. destruct (nonempty_member "id" o) as [id|] eqn:Hid; [|done].
  intros (secret & Hs & [= <-])%result_bind_ok. apply each_Some.
  split; [by eapply nonempty_member_ne|by eapply decodeSecret_sized].
Qed.

Lemma parsed_webvh_keys_ok value keys : parseClientRecordWebvhKeys value = Ok keys → each webvh_keys_ok keys.
Proof.
  unfold parseClientRecordWebvhKeys. destruct value as [v|]; [|by intros [= <-]].
  destruct (js_object _) as [o|]; [|done]. intros (update & Hu & H)%result_bind_ok.
  apply result_bind_ok in H as (staged & Hs & H). apply result_bind_ok in H as (pendingStaged & Hp & [= <-]).
  apply each_Some. split; [by eapply decodeSecret_sized|]. split; [by eapply decodeSecret_sized|].
  by eapply decodeOptionalSecret_sized.
Qed.

Lemma parsed_head_ok value builtOn : parseHead value = Some builtOn → head_ok builtOn.
Proof.
  unfold parseHead. intros H. apply bind_Some in H as (o & _ & H). apply bind_Some in H as (scid & Hs & H).
  apply bind_Some in H as (versionId & Hv & [= <-]). split; by eapply nonempty_member_ne.
Qed.

Lemma parsed_pending_ok value pending : parseClientRecordPending value = Ok pending → each pending_ok pending.
Proof.
  unfold parseClientRecordPending. destruct value as [v|]; [|by intros [= <-]].
  destruct (js_object _) as [o|]; [|done]. destruct (parseCeremony _) as [ceremony|]; [|done].
  destruct (parseHead _) as [builtOn|] eqn:Hh; [|done]. apply parsed_head_ok in Hh.
  intros (_ & _ & H)%result_bind_ok. destruct ceremony.
  - apply result_bind_ok in H as (u & Hu & H). apply result_bind_ok in H as (r & Hr & [= <-]).
    apply each_Some. split; [done|]. split; [by eapply decodeOptionalSecret_sized|].
    split; [by eapply decodeOptionalSecret_sized|done].
  - injection H as <-. by apply each_Some.
Qed.

Lemma optionalName_ok value refusal name : optionalName value refusal = Ok name → each (λ s, s ≠ "") name.
Proof.
  destruct value as [[]|]; cbn; try done; [|by intros [= <-]]. case_decide; [done|]. intros [= <-]. by apply each_Some.
Qed.

Lemma decoded_well_formed contents record : decodeClientKeyRecord contents = Ok record → well_formed record.
Proof.
  unfold decodeClientKeyRecord. destruct (js_object contents) as [o|]; [|done].
  intros (seed & Hseed & H)%result_bind_ok. apply result_bind_ok in H as (controller & Hc & H).
  apply result_bind_ok in H as (pointer & Hd & H). apply result_bind_ok in H as (userKey & Hk & H).
  apply result_bind_ok in H as (webvh & Hw & H). apply result_bind_ok in H as (pending & Hp & [= <-]).
  split; [by eapply decodeSecret_sized|by eapply parsed_user_key_ok|by eapply parsed_webvh_keys_ok|
          by eapply optionalName_ok|by eapply optionalName_ok|by eapply parsed_pending_ok].
Qed.
End accepted.


(** A user key with no key id is written, though no decoder accepts the
    record back: the encode side checks lengths, not names. *)
Lemma unreadable_record_is_written `{!Base64} `{!JsHost} seed secret now createdAt :
  String.length seed = SECRET_BYTES → String.length secret = SECRET_BYTES →
  let record := mkClientRecord seed (Some (mkUserKey "" secret)) None None None None in
  (∃ j, encodeClientKeyRecord now record createdAt = Ok j) ∧ ∀ contents, decodeClientKeyRecord contents ≠ Ok record.
Proof.
  intros Hs Hk record. split.
  - eexists. unfold encodeClientKeyRecord. cbn. rewrite encodeSecret_ok by done. cbn. unfold encodeUserKey. cbn.
    by rewrite encodeSecret_ok.
  - intros contents Hd%decoded_well_formed. by destruct (wf_userKey _ Hd (mkUserKey "" secret) eq_refl).
Qed.

(** ** Enrolled records *)

Lemma isEnrolled_spec record :
  isEnrolledClientKeyRecord record = true ↔
  is_Some (ckr_userKey record) ∧ is_Some (ckr_webvhUpdateKeys record) ∧
  is_Some (truthy (ckr_controller record)) ∧ is_Some (truthy (ckr_pointerDid record)).
Proof.
  unfold isEnrolledClientKeyRecord, assertEnrolledClientKeyRecord.
  destruct (ckr_userKey record), (ckr_webvhUpdateKeys record), (truthy (ckr_controller record)),
    (truthy (ckr_pointerDid record)); rewrite ?is_Some_alt; naive_solver.
Qed.
