(* ===== verification/KeyringRecord.v ===== *)
(** * Sealed and signed records

    [src/src/keyring/recordEnvelope.ts] (the frame every sealed record shares,
    its one-epoch descriptor, the plaintext's members) and
    [src/src/keyring/record.ts] (the proof over the frame, and the keyring
    record's wrap and unwrap). The storage client's ciphers and the proof
    library are the parameter [RecordLibrary]; what the codec relies on of
    them is [RecordLibraryLaws]. A cipher's collection context labels errors
    only and is left out. *)

From S2P Require Import Prelude Json JsText ConnEntry LadderRungs AccountLog Descriptors UserKeyRoster ClientKeyRecord.
From Stdlib Require Import Ascii.
From Stdlib Require QArith_base.

Definition KEYRING_RECORD_VERSION : Z := 2.

(** ** The libraries *)

(** The descriptor store a fresh record's descriptor is initialised through. *)
Record RecordStore (W : Type) := mkRecordStore {
  rs_read : comp W (option json);
  rs_replace : json → comp W ();
  rs_create : json → comp W ()
}.
Arguments mkRecordStore {W}.
Arguments rs_read {W}.
Arguments rs_replace {W}.
Arguments rs_create {W}.

Record RecordSigner (W : Type) := mkSigner {
  signer_keyMultibase : string;
  signer_sign : string → comp W string
}.
Arguments mkSigner {W}.
Arguments signer_keyMultibase {W}.
Arguments signer_sign {W}.

(** [initRecipients], [ownerRecipient], the encrypt-only and the reading
    document cipher over a descriptor (a cipher is the one call it is used
    for: sealing data, or opening an envelope under an id),
    [canonicalSpaceUrl]; the proof
    template, the signing call, the verifying call for a key; the signature
    check the two share; and the key pair of a seed. *)
Class RecordLibrary (W : Type) := {
  initRecordRecipients {X} : RecordStore (W * X) → list RecipientPublicKey → comp (W * X) json;
  ownerRecipientOf : KeyAgreementKey → result RecipientPublicKey;
  createEdvEncryptOnlyDocCipher : json → result (json → comp W json);
  createEdvDocCipher : KeyAgreementKey → json → result (string → json → result json);
  canonicalSpaceUrl : string → result string;
  createDataIntegrityProofTemplate : string → json;
  signDataIntegrityProof : members → json → RecordSigner W → comp W json;
  verifyEntryProofs : members → json → string → result ();
  verifiesSignature : string → string → string → bool;
  generateKeyPair : string → comp W (string * (string → comp W string))
}.

(** ** The frame *)

Record RecordProof := mkProof { rp_verificationMethod : string; rp_value : json }.

Definition RecordProofError (message : string) : js_error := JsError "RecordProofError" message.

Definition checkRecordProofShape (proof : option json) (label : string) : result RecordProof :=
  let refusal := RecordProofError ("The " ++ label ++ " record carries no proof in the fixed shape.") in
  match proof, js_object proof with
  | Some value, Some o =>
      match as_string (get_member "verificationMethod" o), as_string (get_member "proofValue" o) with
      | Some vm, Some _ =>
          if decide (get_member "type" o = Some (JStr "DataIntegrityProof") ∧
                     get_member "cryptosuite" o = Some (JStr "eddsa-jcs-2022") ∧
                     get_member "proofPurpose" o = Some (JStr "assertionMethod"))
          then Ok (mkProof vm value) else mthrow refusal
      | _, _ => mthrow refusal
      end
  | _, _ => mthrow refusal
  end.

(** The validated members of a frame. *)
Record RecordFrame := mkFrame { fr_encryption : json; fr_wrapped : json; fr_proof : option RecordProof }.

Definition versionRefusal (label : string) (version : Z) (o : members) : js_error :=
  if decide (version = KEYRING_RECORD_VERSION ∧ as_integer (get_member "version" o) = Some 1%Z) then
    match get_member "encryption" o with
    | None => plain_error ("The " ++ label ++ " record uses the retired pre-extraction version 1 shape (a data-seed wrap with no encryption descriptor); such accounts are re-provisioned, not migrated.")
    | Some _ => plain_error ("The " ++ label ++ " record uses the retired unsigned version 1 shape (no proof over its frame, so a storage host could substitute it); such accounts are re-provisioned, not migrated.")
    end
  else plain_error ("Unsupported " ++ label ++ " record version.").

Definition parseRecordFrame (record : option json) (label : string) (version : Z) : result RecordFrame :=
  match js_object record with
  | None => mthrow (plain_error ("Malformed " ++ label ++ " record."))
  | Some o =>
      if decide (as_integer (get_member "version" o) = Some version) then
        match present (get_member "wrapped" o) with
        | None => mthrow (plain_error ("Malformed " ++ label ++ " record."))
        | Some wrapped =>
            match get_member "encryption" o, js_object (get_member "encryption" o) with
            | Some encryption, Some _ =>
                if decide (version = KEYRING_RECORD_VERSION) then
                  proof ← checkRecordProofShape (get_member "proof" o) label; Ok (mkFrame encryption wrapped (Some proof))
                else Ok (mkFrame encryption wrapped None)
            | _, _ => mthrow (plain_error ("The " ++ label ++ " record is missing its encryption descriptor."))
            end
        end
      else mthrow (versionRefusal label version o)
  end.

Definition recordEnvelopeId (wrapped : json) (label : string) : result string :=
  match js_object (Some wrapped) ≫= nonempty_member "id" with
  | Some id => Ok id
  | None => mthrow (plain_error ("Malformed " ++ label ++ " record: the sealed envelope carries no id."))
  end.

(** ** The plaintext *)

Record AccountPointer := mkPointer { pointer_did : option string; pointer_spaceUrl : string }.
#[export] Instance AccountPointer_eq_dec : EqDecision AccountPointer. Proof. solve_decision. Defined.

Record KeyringRecordContents := mkContents {
  krc_controller : string;
  krc_email : option string;
  krc_pointer : option AccountPointer;
  krc_createdAt : string
}.

Section plaintext.
Context {W : Type} {library : RecordLibrary W} {host : JsHost}.

(** [createdAt], or the clock's reading [now]. *)
Definition recordCreatedAtStamp (now : Z) (createdAt : option string) : result string :=
  match createdAt with
  | None => Ok (toISOString now)
  | Some stamp =>
      match date_parse stamp with
      | Some _ => Ok stamp
      | None => mthrow (plain_error ("Invalid record createdAt timestamp " ++ stamp))
      end
  end.

Definition parseRecordCreatedAt (value : option json) (label : string) : result string :=
  match as_timestamp value with
  | Some stamp => Ok stamp
  | None => mthrow (plain_error (label ++ " record has no valid createdAt timestamp."))
  end.

Definition parseRecordPointer (value : option json) : result (option AccountPointer) :=
  match value with
  | None => Ok None
  | Some _ =>
      match js_object value with
      | None => mthrow (plain_error "Keyring record has a malformed account pointer.")
      | Some o =>
          match nonempty_member "spaceUrl" o with
          | None => mthrow (plain_error "Keyring record account pointer is missing its spaceUrl.")
          | Some spaceUrl =>
              match canonicalSpaceUrl spaceUrl with
              | Throw _ => mthrow (plain_error "Keyring record account pointer has a malformed spaceUrl.")
              | Ok _ =>
                  did ← optionalName (get_member "did" o) (plain_error "Keyring record account pointer has a malformed did.");
                  Ok (Some (mkPointer did spaceUrl))
              end
          end
      end
  end.

Definition pointerJson (pointer : AccountPointer) : json :=
  JObj (opt_member "did" (JStr <$> truthy (pointer_did pointer)) ++ [("spaceUrl", JStr (pointer_spaceUrl pointer))]).

(** A controller, or the refusal. *)
Definition parseController (plaintext : members) (kind : string) : result string :=
  match nonempty_member "controller" plaintext with
  | Some controller => Ok controller
  | None => mthrow (plain_error (kind ++ " record is missing a controller."))
  end.

(** Anything but a non-empty string is no email. *)
Definition parseEmail (plaintext : members) : option string := nonempty_member "email" plaintext.
End plaintext.

(** The members of a decrypted document. *)
Definition plaintext_members (plaintext : json) : members := default [] (js_object (Some plaintext)).

(** ** Signing and verifying *)

Section records.
Context {W : Type} {library : RecordLibrary W} {keys : WebvhKeys} {host : JsHost}.

(** The throwaway store lives in a local variable beside the world. *)
Definition throwawayStore : RecordStore (W * option json) := {|
  rs_read := gets snd;
  rs_replace next := modify (λ w, (w.1, Some next));
  rs_create next := modify (λ w, (w.1, Some next))
|}.

Definition mintRecordEncryption (keyAgreementKey : KeyAgreementKey) : comp W json := λ w,
  match ownerRecipientOf keyAgreementKey with
  | Throw e => (Throw e, w)
  | Ok owner => let '(r, (w', _)) := initRecordRecipients throwawayStore [owner] (w, None) in (r, w')
  end.

Definition recordSealCipher (encryption : json) : result (json → comp W json) := createEdvEncryptOnlyDocCipher encryption.
Definition recordCipher (keyAgreementKey : KeyAgreementKey) (encryption : json) : result (string → json → result json) :=
  createEdvDocCipher keyAgreementKey encryption.

(** A did:key agent's id and its signer. *)
Definition recordSignerFromAgent (id : string) (sign : string → comp W string) : result (RecordSigner W) :=
  match split_at ":"%char id with
  | scheme :: method :: keyMultibase :: _ =>
      if decide (scheme = "did" ∧ method = "key" ∧ keyMultibase ≠ "") then Ok (mkSigner keyMultibase sign)
      else mthrow (plain_error ("Not a did:key agent id: " ++ id))
  | _ => mthrow (plain_error ("Not a did:key agent id: " ++ id))
  end.

Definition recordSignerFromSeed (seed : string) : comp W (RecordSigner W) :=
  pair ← generateKeyPair seed; lift (recordSignerFromAgent ("did:key:" ++ pair.1) pair.2).

Definition signerMethod (keyMultibase : string) : string := "did:key:" ++ keyMultibase ++ "#" ++ keyMultibase.

Definition recordFrame (version : Z) (encryption wrapped : json) (extra : members) : members :=
  spread [("version", JNum (QArith_base.inject_Z version)); ("encryption", encryption); ("wrapped", wrapped)] extra.

Definition signRecordFrame (version : Z) (encryption wrapped : json) (signer : RecordSigner W) (extra : members) : comp W json :=
  let frame := recordFrame version encryption wrapped extra in
  let proofTemplate := createDataIntegrityProofTemplate (signerMethod (signer_keyMultibase signer)) in
  proof ← signDataIntegrityProof frame proofTemplate signer;
  mret (JObj (set_member "proof" proof frame)).

Definition recordProofKeyMultibase (verificationMethod label : string) : result string :=
  match truthy (vmFragmentOf verificationMethod) with
  | Some keyMultibase => Ok keyMultibase
  | None => mthrow (RecordProofError ("The " ++ label ++ " record's proof names a verification method with no key fragment."))
  end.

(** [vmFragmentOf(entry) ?? entry]. *)
Definition keyNamed (entry : string) : string := default entry (vmFragmentOf entry).

Definition verifyRecordProof (record : option json) (allowedKeyMultibases : list string) (label : string) : result string :=
  match js_object record with
  | None => mthrow (RecordProofError ("Malformed " ++ label ++ " record."))
  | Some o =>
      checked ← checkRecordProofShape (get_member "proof" o) label;
      keyMultibase ← recordProofKeyMultibase (rp_verificationMethod checked) label;
      if decide (keyMultibase ∈ keyNamed <$> allowedKeyMultibases) then
        match verifyEntryProofs (delete_member "proof" o) (rp_value checked) keyMultibase with
        | Ok _ => Ok keyMultibase
        | Throw _ => mthrow (RecordProofError ("The " ++ label ++ " record's proof does not verify over its contents."))
        end
      else mthrow (RecordProofError ("The " ++ label ++ " record is signed by a key this client does not accept for it " ++ keyMultibase))
  end.

(** ** The keyring record *)

Definition wrapKeyringRecord (now : Z) (controller : string) (email : option string) (pointer : option AccountPointer)
    (keyAgreementKey : KeyAgreementKey) (signer : RecordSigner W) (createdAt : option string) : comp W json :=
  encryption ← mintRecordEncryption keyAgreementKey;
  cipher ← lift (recordSealCipher encryption);
  stamp ← lift (recordCreatedAtStamp now createdAt);
  envelope ← cipher
    (JObj ([("controller", JStr controller)] ++ opt_member "email" (JStr <$> truthy email) ++
           opt_member "pointer" (pointerJson <$> pointer) ++ [("createdAt", JStr stamp)]));
  signRecordFrame KEYRING_RECORD_VERSION encryption envelope signer [].

Definition unwrapKeyringRecord (record : option json) (keyAgreementKey : KeyAgreementKey) (expectedKeyMultibase : string) :
    result KeyringRecordContents :=
  frame ← parseRecordFrame record "keyring" KEYRING_RECORD_VERSION;
  _ ← verifyRecordProof record [expectedKeyMultibase] "keyring";
  cipher ← recordCipher keyAgreementKey (fr_encryption frame);
  id ← recordEnvelopeId (fr_wrapped frame) "keyring";
  plaintext ← cipher id (fr_wrapped frame);
  let o := plaintext_members plaintext in
  controller ← parseController o "Keyring";
  pointer ← parseRecordPointer (get_member "pointer" o);
  createdAt ← parseRecordCreatedAt (get_member "createdAt" o) "Keyring";
  Ok (mkContents controller (parseEmail o) pointer createdAt).
End records.

(** ** What the codec relies on *)

Section laws.
Context {W : Type} {library : RecordLibrary W} {keys : WebvhKeys}.

(** A signer whose method id names its key, as its bare key does, and whose
    signatures verify under it. *)
Definition genuine (signer : RecordSigner W) : Prop :=
  signer_keyMultibase signer ≠ "" ∧
  vmFragmentOf (signerMethod (signer_keyMultibase signer)) = Some (signer_keyMultibase signer) ∧
  keyNamed (signer_keyMultibase signer) = signer_keyMultibase signer ∧
  ∀ data w, ∃ signature w',
    signer_sign signer data w = (Ok signature, w') ∧
    verifiesSignature (signer_keyMultibase signer) data signature = true.

(** What is sealed under a descriptor reads back, under the id stamped on the
    envelope, with the key the descriptor's epoch is wrapped to. *)
Definition opens_for (opener : KeyAgreementKey) (descriptor : json) : Prop :=
  is_Some (js_object (Some descriptor)) ∧
  ∃ seal open,
    createEdvEncryptOnlyDocCipher descriptor = Ok seal ∧ createEdvDocCipher opener descriptor = Ok open ∧
    ∀ data w, ∃ envelope id w',
      seal (JObj data) w = (Ok (JObj envelope), w') ∧ nonempty_member "id" envelope = Some id ∧
      open id (JObj envelope) = Ok (JObj data).

Class RecordLibraryLaws : Prop := {
  initRecipients_returns {X} (store : RecordStore (W * X)) recipients w w1 :
    rs_read store w = (Ok None, w1) → (∀ next w, ∃ w', rs_create store next w = (Ok (), w')) →
    ∃ descriptor w2, initRecordRecipients store recipients w = (Ok descriptor, w2);
  initRecipients_opens {X} (store : RecordStore (W * X)) opener owner w descriptor w' :
    ownerRecipientOf opener = Ok owner → initRecordRecipients store [owner] w = (Ok descriptor, w') →
    opens_for opener descriptor;
  signed_verifies frame signer label w :
    genuine signer → get_member "proof" frame = None →
    ∃ proof w',
      signDataIntegrityProof frame (createDataIntegrityProofTemplate (signerMethod (signer_keyMultibase signer))) signer w = (Ok proof, w') ∧
      checkRecordProofShape (Some proof) label = Ok (mkProof (signerMethod (signer_keyMultibase signer)) proof) ∧
      verifyEntryProofs frame proof (signer_keyMultibase signer) = Ok ()
}.
End laws.

(** ** Frames that were signed *)

Lemma delete_set_absent k v o : get_member k o = None → delete_member k (set_member k v o) = o.
Proof.
  induction o as [|[k' v'] o IH]; simpl; [by rewrite decide_True|].
  case_decide; [done|]. intros Hn. simpl. by rewrite decide_False, IH.
Qed.

(** The names of the frame's own members. *)
Definition frame_names : list string := ["version"; "encryption"; "wrapped"; "proof"].

(** Membership in a list written out. *)
Ltac in_list := unfold frame_names; repeat first [apply list_elem_of_here | apply list_elem_of_further].

Section signed.
Context {W : Type} {library : RecordLibrary W} {keys : WebvhKeys} {laws : RecordLibraryLaws}.

Lemma frame_member version encryption wrapped extra k :
  k ∉ extra.*1 →
  get_member k (recordFrame version encryption wrapped extra) =
  get_member k [("version", JNum (QArith_base.inject_Z version)); ("encryption", encryption); ("wrapped", wrapped)].
Proof. intros Hk. by apply get_spread_notin. Qed.

Lemma mint_opens sealer opener owner w :
  ownerRecipientOf sealer = Ok owner → ownerRecipientOf opener = Ok owner →
  ∃ descriptor w', mintRecordEncryption sealer w = (Ok descriptor, w') ∧ opens_for opener descriptor.
Proof.
  intros Hs Ho. unfold mintRecordEncryption. rewrite Hs.
  destruct (initRecipients_returns throwawayStore [owner] (w, None) (w, None)) as (d & [w' stored] & Hinit); [done|by eexists|].
  rewrite Hinit. exists d, w'. split; [done|]. by eapply initRecipients_opens.
Qed.

(** A frame a genuine signer signed parses to its members, and verifies for a
    reader that accepts the signer's key and for no other. *)
Lemma signed_frame encryption wrapped signer extra w :
  genuine signer → extra.*1 ## frame_names → is_Some (js_object (Some encryption)) →
  present (Some wrapped) = Some wrapped →
  ∃ o w', signRecordFrame KEYRING_RECORD_VERSION encryption wrapped signer extra w = (Ok (JObj o), w') ∧
    (∀ k, k ∉ frame_names → get_member k o = get_member k (recordFrame KEYRING_RECORD_VERSION encryption wrapped extra)) ∧
    (∀ label, ∃ proof, parseRecordFrame (Some (JObj o)) label KEYRING_RECORD_VERSION =
      Ok (mkFrame encryption wrapped (Some (mkProof (signerMethod (signer_keyMultibase signer)) proof)))) ∧
    (∀ allowed label, signer_keyMultibase signer ∈ keyNamed <$> allowed →
      verifyRecordProof (Some (JObj o)) allowed label = Ok (signer_keyMultibase signer)).
Proof.
  intros Hg Hx He Hw. set (frame := recordFrame KEYRING_RECORD_VERSION encryption wrapped extra).
  assert (Hno : ∀ k, k ∈ frame_names → k ∉ extra.*1) by (intros k Hk Hin; by apply (Hx k)).
  assert (Hproof : get_member "proof" frame = None).
  { unfold frame. rewrite frame_member; [done|]. apply Hno. in_list. }
  destruct (signed_verifies frame signer "" w Hg Hproof) as (proof & w' & Hsign & _ & Hver).
  assert (Hshape : ∀ label, checkRecordProofShape (Some proof) label = Ok (mkProof (signerMethod (signer_keyMultibase signer)) proof)).
  { intros label. destruct (signed_verifies frame signer label w Hg Hproof) as (proof' & w'' & Hsign' & Hs & _).
    rewrite Hsign in Hsign'. by injection Hsign' as <- <-. }
  exists (set_member "proof" proof frame), w'. split.
  { unfold signRecordFrame. fold frame. by erewrite comp_bind_ok. }
  split; [intros k Hk; apply get_set_member_ne; intros ->; apply Hk; in_list|].
  assert (Hget : ∀ k, k ∈ ["version"; "encryption"; "wrapped"] → get_member k (set_member "proof" proof frame) =
    get_member k [("version", JNum (QArith_base.inject_Z KEYRING_RECORD_VERSION)); ("encryption", encryption); ("wrapped", wrapped)]).
  { intros k Hk. rewrite get_set_member_ne by (intros ->; by rewrite !elem_of_cons, elem_of_nil in Hk; destruct Hk as [|[|[|]]]).
    apply frame_member, Hno. unfold frame_names. rewrite !elem_of_cons in *. tauto. }
  split.
  - intros label. exists proof. unfold parseRecordFrame. cbn [js_object]. rewrite !Hget by in_list.
    rewrite get_set_member_eq. read_members. rewrite decide_True by done. rewrite Hw.
    destruct He as [e He]. rewrite He. rewrite decide_True by done. by rewrite Hshape.
  - intros allowed label Hin. unfold verifyRecordProof. cbn [js_object]. rewrite get_set_member_eq, Hshape. cbn.
    unfold recordProofKeyMultibase. destruct Hg as (Hne & Hvm & _). rewrite Hvm.
    replace (truthy _) with (Some (signer_keyMultibase signer)) by by destruct (signer_keyMultibase signer).
    cbn. rewrite decide_True by done. by rewrite delete_set_absent, Hver.
Qed.
End signed.

(** ** The keyring record's round trip *)

#[local] Arguments verifyRecordProof : simpl never.
#[local] Arguments parseRecordFrame : simpl never.
#[local] Arguments recordEnvelopeId : simpl never.
#[local] Arguments parseController : simpl never.
#[local] Arguments parseRecordPointer : simpl never.
#[local] Arguments parseRecordCreatedAt : simpl never.
#[local] Arguments parseEmail : simpl never.
#[local] Arguments nonempty_member : simpl never.
#[local] Arguments get_member : simpl never.

Section keyring.
Context {W : Type} {library : RecordLibrary W} {keys : WebvhKeys} {host : JsHost} {laws : RecordLibraryLaws}.

Definition pointer_ok (pointer : AccountPointer) : Prop :=
  pointer_spaceUrl pointer ≠ "" ∧ (∃ canonical, canonicalSpaceUrl (pointer_spaceUrl pointer) = Ok canonical) ∧
  each (λ did, did ≠ "") (pointer_did pointer).

Lemma pointer_round pointer : pointer_ok pointer → parseRecordPointer (Some (pointerJson pointer)) = Ok (Some pointer).
Proof.
  destruct pointer as [did url]. intros (Hu & [c Hc] & Hd). cbn in *. unfold parseRecordPointer. cbn [js_object pointerJson pointer_did pointer_spaceUrl].
  rewrite (nonempty_member_eq "spaceUrl" url) by (try done; by read_members). rewrite Hc. read_members.
  replace (match JStr <$> truthy did with Some v => Some v | None => get_member "did" [("spaceUrl", JStr url)] end)
    with (JStr <$> truthy did) by by destruct (truthy did).
  rewrite truthy_each by done. by rewrite optionalName_round.
Qed.

(** What a decrypted plaintext's parsers make of the members a wrap wrote. *)
Lemma stamp_round now createdAt stamp :
  recordCreatedAtStamp now createdAt = Ok stamp → (createdAt = None → is_Some (date_parse stamp)) →
  ∀ label, parseRecordCreatedAt (Some (JStr stamp)) label = Ok stamp.
Proof.
  intros Hs Hn label. assert (Hp : is_Some (date_parse stamp)).
  { destruct createdAt as [s|]; [|by apply Hn]. cbn in Hs. destruct (date_parse s) eqn:Hd; [|done].
    injection Hs as <-. by eexists. }
  unfold parseRecordCreatedAt, as_timestamp. cbn. by rewrite decide_True.
Qed.

(** The plaintext a wrap seals, read member by member. *)
Lemma shell_members controller email pointer stamp :
  controller ≠ "" → each (λ s, s ≠ "") email → each pointer_ok pointer →
  ∃ data, JObj ([("controller", JStr controller)] ++ opt_member "email" (JStr <$> truthy email) ++
      opt_member "pointer" (pointerJson <$> pointer) ++ [("createdAt", JStr stamp)]) = JObj data ∧
    nonempty_member "controller" data = Some controller ∧
    parseRecordPointer (get_member "pointer" data) = Ok pointer ∧
    get_member "createdAt" data = Some (JStr stamp) ∧ nonempty_member "email" data = email.
Proof.
  intros Hc He Hp. eexists. split; [done|]. split; [|split; [|split]].
  - apply nonempty_member_eq; [by read_members|done].
  - cbn [app]. read_members. destruct pointer as [p|]; [|done]. apply pointer_round. by apply each_inv.
  - cbn [app]. read_members. done.
  - unfold nonempty_member. cbn [app]. read_members. rewrite truthy_each by done.
    destruct email as [s|]; [|by destruct pointer]. apply each_inv in He. cbn. by destruct s.
Qed.

Lemma keyring_round now controller email pointer sealer opener owner signer createdAt stamp w :
  controller ≠ "" → each (λ s, s ≠ "") email → each pointer_ok pointer →
  recordCreatedAtStamp now createdAt = Ok stamp → (createdAt = None → is_Some (date_parse stamp)) →
  ownerRecipientOf sealer = Ok owner → ownerRecipientOf opener = Ok owner → genuine signer →
  ∃ record w', wrapKeyringRecord now controller email pointer sealer signer createdAt w = (Ok record, w') ∧
    unwrapKeyringRecord (Some record) opener (signer_keyMultibase signer) =
      Ok (mkContents controller email pointer stamp).
Proof.
  intros Hc He Hp Hs Hnow Hseal Hopen Hg.
  destruct (mint_opens sealer opener owner w Hseal Hopen) as (d & w1 & Hmint & Hd & seal & open & Hcs & Hco & Hround).
  destruct (shell_members controller email pointer stamp Hc He Hp) as (data & Hdata & Hdc & Hdp & Hdt & Hde).
  destruct (Hround data w1) as (envelope & id & w2 & Henv & Hid & Hdec).
  destruct (signed_frame d (JObj envelope) signer [] w2 Hg) as (o & w3 & Hsign & _ & Hparse & Hver); [set_solver|done|done|].
  exists (JObj o), w3. split.
  - unfold wrapKeyringRecord. erewrite comp_bind_ok by done. unfold recordSealCipher. rewrite Hcs.
    erewrite comp_bind_ok by done. rewrite Hs. erewrite comp_bind_ok by done. rewrite Hdata. by erewrite comp_bind_ok.
  - unfold unwrapKeyringRecord. destruct (Hparse "keyring") as [proof ->]. cbn.
    rewrite Hver. 2: { cbn. destruct Hg as (_ & _ & Hk & _). rewrite Hk. in_list. }
    cbn. unfold recordCipher. rewrite Hco. cbn. unfold recordEnvelopeId. cbn. rewrite Hid. cbn. rewrite Hdec. cbn.
    unfold parseController. rewrite Hdc. cbn. rewrite Hdp. cbn. rewrite Hdt.
    erewrite stamp_round by done. cbn. unfold parseEmail. by rewrite Hde.
Qed.

(** What a proof check that passes has established. *)
Lemma verified_proof record allowed label key :
  verifyRecordProof record allowed label = Ok key →
  key ∈ keyNamed <$> allowed ∧
  ∃ o checked, js_object record = Some o ∧ checkRecordProofShape (get_member "proof" o) label = Ok checked ∧
    recordProofKeyMultibase (rp_verificationMethod checked) label = Ok key ∧
    verifyEntryProofs (delete_member "proof" o) (rp_value checked) key = Ok ().
Proof.
  unfold verifyRecordProof. destruct (js_object record) as [o|]; [|done].
  intros (checked & Hc & H)%result_bind_ok. apply result_bind_ok in H as (k & Hk & H).
  case_decide as Hin; [|done]. destruct (verifyEntryProofs _ _ _) as [[]|] eqn:Hv; [|done].
  injection H as <-. split; [done|]. by exists o, checked.
Qed.

(** Nothing is opened that its expected signer did not sign, over the frame as
    it is stored. *)
Lemma keyring_authentic record opener expectedKeyMultibase contents :
  unwrapKeyringRecord record opener expectedKeyMultibase = Ok contents →
  ∃ o checked, js_object record = Some o ∧
    verifyEntryProofs (delete_member "proof" o) (rp_value checked) (keyNamed expectedKeyMultibase) = Ok ().
Proof.
  unfold unwrapKeyringRecord. intros (frame & _ & H)%result_bind_ok.
  apply result_bind_ok in H as (key & Hv & _). apply verified_proof in Hv as (Hin & o & checked & Ho & _ & _ & Hver).
  rewrite list_fmap_singleton, list_elem_of_singleton in Hin. subst. by exists o, checked.
Qed.
End keyring.
