(* ===== verification/UnlockRecord.v ===== *)
(** * The unlock record

    [src/src/unlock/unlockRecord.ts]: the record of a credential with standing
    authority. Its account core (controller, pointer, ladder seed) is
    authenticated by the credential's binding tag; its delegations are sealed
    in members of their own, which a re-mint replaces without opening the
    rest. The tag is HMAC-SHA-256 over [JSON.stringify] of the core. *)

From S2P Require Import Prelude Json JsText ConnEntry LadderRungs AccountLog Descriptors UserKeyRoster ClientKeyRecord KeyringRecord.
From Stdlib Require Import Ascii.
From Stdlib Require QArith_base.

Definition LADDER_SEED_BYTES : nat := 32.
Definition UNLOCK_BINDING_CONTEXT : string := "freewallet/unlock/binding/v3".

Definition UnlockBindingError (message : string) : js_error := JsError "UnlockBindingError" message.

(** ** [JSON.stringify] of an array of strings *)

Definition quote : ascii := ascii_of_nat 34.
Definition backslash : ascii := ascii_of_nat 92.
Definition hex_digit (n : nat) : ascii := ascii_of_nat (if decide (n < 10) then 48 + n else 87 + n).

Definition escape_char (a : ascii) : string :=
  let n := nat_of_ascii a in
  let escaped (letter : ascii) := String backslash (String letter EmptyString) in
  if decide (n = 34 ∨ n = 92) then escaped a
  else if decide (n = 8) then escaped "b"%char
  else if decide (n = 9) then escaped "t"%char
  else if decide (n = 10) then escaped "n"%char
  else if decide (n = 12) then escaped "f"%char
  else if decide (n = 13) then escaped "r"%char
  else if decide (n < 32) then
    String backslash (String "u"%char (String "0"%char (String "0"%char
      (String (hex_digit (n / 16)) (String (hex_digit (n mod 16)) EmptyString)))))
  else String a EmptyString.

Fixpoint escape (s : string) : string :=
  match s with EmptyString => EmptyString | String a s => escape_char a ++ escape s end.

Definition json_quote (s : string) : string := String quote (escape s ++ String quote EmptyString).

(** What follows the first element, up to and with the bracket. *)
Fixpoint json_rest (xs : list string) : string :=
  match xs with [] => "]" | x :: xs => "," ++ json_quote x ++ json_rest xs end.

Definition stringify (xs : list string) : string :=
  match xs with [] => "[]" | x :: xs => "[" ++ json_quote x ++ json_rest xs end.

(** ** The binding *)

Class UnlockHash := { hmacSha256 : string → string → string }.

Section binding.
Context {base64 : Base64} {hash : UnlockHash}.

Definition bindingMacInput (controller : string) (pointer : AccountPointer) (ladderSeed : option string) : string :=
  stringify [UNLOCK_BINDING_CONTEXT; controller; default "" (pointer_did pointer); pointer_spaceUrl pointer;
    match ladderSeed with Some seed => b64_encode seed | None => "" end].

Definition computeUnlockBinding (bindingMacKey controller : string) (pointer : AccountPointer) (ladderSeed : option string) : string :=
  b64_encode (hmacSha256 bindingMacKey (bindingMacInput controller pointer ladderSeed)).
End binding.

Definition unlockRecordBinding (record : option json) : result string :=
  match js_object record ≫= nonempty_member "binding" with
  | Some binding => Ok binding
  | None => mthrow (UnlockBindingError "The unlock record carries no credential-authenticated account binding; the credential must be rebound.")
  end.

(** ** Whom a record is sealed to *)

Section sealed_to.
Context {keys : WebvhKeys}.

(** [===] of two parsed values: objects are equal to nothing but themselves. *)
Definition strict_equal (v v' : option json) : bool :=
  match v, v' with
  | None, None => true
  | Some JNull, Some JNull => true
  | Some (JBool b), Some (JBool b') => bool_decide (b = b')
  | Some (JNum q), Some (JNum q') => QArith_base.Qeq_bool q q'
  | Some (JStr s), Some (JStr s') => bool_decide (s = s')
  | _, _ => false
  end.

(** [v ?? []], iterated over. *)
Definition iterated (v : option json) : result (list json) :=
  match present v with
  | None => Ok []
  | Some (JArr xs) => Ok xs
  | Some _ => mthrow (JsError "TypeError" "not a function")
  end.

(** [epochs.find(candidate => candidate.id === currentEpoch)]. *)
Fixpoint findEpoch (currentEpoch : option json) (epochs : list json) : result (option json) :=
  match epochs with
  | [] => Ok None
  | JNull :: _ => mthrow (JsError "TypeError" "Cannot read properties of null")
  | candidate :: epochs =>
      if strict_equal (member "id" candidate) currentEpoch then Ok (Some candidate) else findEpoch currentEpoch epochs
  end.

(** [recipient?.header?.kid], when it is a non-empty string. *)
Definition recipientKid (recipient : json) : option string :=
  js_object (Some recipient) ≫= λ o, js_object (get_member "header" o) ≫= nonempty_member "kid".

Definition recordSealedRecipientKeys (record : option json) : result (list string) :=
  frame ← parseRecordFrame record "unlock" KEYRING_RECORD_VERSION;
  let descriptor := default [] (js_object (Some (fr_encryption frame))) in
  epochs ← iterated (get_member "epochs" descriptor);
  epoch ← findEpoch (get_member "currentEpoch" descriptor) epochs;
  match epoch with
  | None => mthrow (plain_error "The unlock record's encryption descriptor names no current key epoch among the epochs it lists; the record is unusable.")
  | Some epoch =>
      recipients ← iterated (member "recipients" epoch);
      Ok (map keyNamed (omap (M:=list) recipientKid recipients))
  end.

Definition unlockRecordSealedTo (record : option json) (keyAgreementKeyMultibase : string) : result bool :=
  recipients ← recordSealedRecipientKeys record;
  Ok (bool_decide (keyNamed keyAgreementKeyMultibase ∈ recipients)).
End sealed_to.

(** ** Sealed members *)

(** A member as it stands in the record, with its two parts. *)
Record SealedRecordMember := mkSealed { sm_value : json; sm_encryption : json; sm_wrapped : json }.

Definition parseSealedMember (value : json) (name : string) : result SealedRecordMember :=
  let refusal := plain_error ("The unlock record's " ++ name ++ " member is malformed.") in
  match js_object (Some value) with
  | None => mthrow refusal
  | Some o =>
      match get_member "encryption" o, js_object (get_member "encryption" o), present (get_member "wrapped" o) with
      | Some encryption, Some _, Some wrapped => Ok (mkSealed value encryption wrapped)
      | _, _, _ => mthrow refusal
      end
  end.

(** A member that may be absent. *)
Definition parseOptionalMember (value : option json) (name : string) : result (option SealedRecordMember) :=
  match value with
  | None => Ok None
  | Some value => parsed ← parseSealedMember value name; Ok (Some parsed)
  end.

Record UnlockRecordContents := mkUnlock {
  urc_controller : string;
  urc_email : option string;
  urc_pointer : AccountPointer;
  urc_delegation : json;
  urc_delegatedClients : option json;
  urc_ladderSeed : option string;
  urc_createdAt : string
}.

Inductive UnlockRecordProofState :=
  | proof_verified
  | proof_pending (verificationMethod keyMultibase : string).
#[export] Instance ProofState_eq_dec : EqDecision UnlockRecordProofState. Proof. solve_decision. Defined.

(** ** Wrapping *)

Section records.
Context {W : Type} {library : RecordLibrary W} {keys : WebvhKeys} {host : JsHost} {base64 : Base64} {hash : UnlockHash}.

Definition generateLadderSeed (randomBytes : nat → comp W string) : comp W string := randomBytes LADDER_SEED_BYTES.

(** A member sealed under a descriptor of its own: the descriptor and the
    envelope. *)
Definition sealMember (data : members) (keyAgreementKey : KeyAgreementKey) : comp W (json * json) :=
  encryption ← mintRecordEncryption keyAgreementKey;
  cipher ← lift (recordSealCipher encryption);
  envelope ← cipher (JObj data);
  mret (encryption, envelope).

Definition sealedJson (sealed : json * json) : json := JObj [("encryption", sealed.1); ("wrapped", sealed.2)].

Definition sealOptional (data : option members) (keyAgreementKey : KeyAgreementKey) : comp W (option json) :=
  match data with
  | Some data => sealed ← sealMember data keyAgreementKey; mret (Some (sealedJson sealed))
  | None => mret None
  end.

Definition openMember (encryption wrapped : json) (keyAgreementKey : KeyAgreementKey) : result json :=
  cipher ← recordCipher keyAgreementKey encryption;
  id ← recordEnvelopeId wrapped "unlock";
  cipher id wrapped.

(** The frame members of an unlock record. *)
Definition unlockMembers (binding : string) (bridge : json) (delegatedClients ladder : option json) : members :=
  [("binding", JStr binding); ("bridge", bridge)] ++ opt_member "delegatedClients" delegatedClients ++ opt_member "ladder" ladder.

Definition delegationData (delegation : json) : members := [("delegation", delegation)].
Definition ladderData (seed : string) : members := [("ladderSeed", JStr (b64_encode seed))].

(** The four members are sealed one after another here; the code starts them
    together, and none reads another's result. *)
Definition wrapUnlockRecord (now : Z) (controller : string) (email : option string) (pointer : AccountPointer)
    (delegation : json) (delegatedClients : option json) (ladderSeed : option string) (keyAgreementKey : KeyAgreementKey)
    (signer : RecordSigner W) (bindingMacKey : string) (createdAt : option string) : comp W json :=
  if match ladderSeed with Some seed => bool_decide (String.length seed ≠ LADDER_SEED_BYTES) | None => false end then
    mthrow (plain_error "The ladder seed must be 32 bytes.")
  else
    let binding := computeUnlockBinding bindingMacKey controller pointer ladderSeed in
    stamp ← lift (recordCreatedAtStamp now createdAt);
    shell ← sealMember ([("controller", JStr controller)] ++ opt_member "email" (JStr <$> truthy email) ++
      opt_member "pointer" (Some (pointerJson pointer)) ++ [("createdAt", JStr stamp)]) keyAgreementKey;
    bridge ← sealMember (delegationData delegation) keyAgreementKey;
    sealedDelegatedClients ← sealOptional (delegationData <$> delegatedClients) keyAgreementKey;
    ladder ← sealOptional (ladderData <$> ladderSeed) keyAgreementKey;
    signRecordFrame KEYRING_RECORD_VERSION shell.1 shell.2 signer
      (unlockMembers binding (sealedJson bridge) sealedDelegatedClients ladder).

(** ** Unwrapping *)

Definition bridgeRefusal : js_error := plain_error "Unlock record is missing its did.jsonl delegation.".
Definition delegatedClientsRefusal : js_error := plain_error "Unlock record has a malformed delegatedClients member.".

(** The account core and the stamp of a shell's plaintext. *)
Record Shell := mkShell { shell_controller : string; shell_email : option string; shell_pointer : AccountPointer; shell_createdAt : string }.

Definition readShell (plaintext : json) : result Shell :=
  let o := plaintext_members plaintext in
  controller ← parseController o "Unlock";
  pointer ← parseRecordPointer (get_member "pointer" o);
  match pointer with
  | None => mthrow (plain_error "Unlock record is missing its account pointer.")
  | Some pointer =>
      createdAt ← parseRecordCreatedAt (get_member "createdAt" o) "Unlock";
      Ok (mkShell controller (parseEmail o) pointer createdAt)
  end.

Definition readDelegation (plaintext : json) (refusal : js_error) : result json :=
  let delegation := get_member "delegation" (plaintext_members plaintext) in
  match delegation, js_object delegation with
  | Some delegation, Some _ => Ok delegation
  | _, _ => mthrow refusal
  end.

Definition readLadder (plaintext : json) : result string :=
  let refusal := plain_error "Unlock record has a malformed ladder member." in
  match as_string (get_member "ladderSeed" (plaintext_members plaintext)) ≫= b64_decode with
  | Some seed => if decide (String.length seed = LADDER_SEED_BYTES) then Ok seed else mthrow refusal
  | None => mthrow refusal
  end.

Definition openOptional {A} (member : option SealedRecordMember) (keyAgreementKey : KeyAgreementKey) (read : json → result A) :
    result (option A) :=
  match member with
  | None => Ok None
  | Some member =>
      plaintext ← openMember (sm_encryption member) (sm_wrapped member) keyAgreementKey;
      a ← read plaintext; Ok (Some a)
  end.

Definition settleProof (record : option json) (proof : option RecordProof) (expectedKeyMultibase : string) :
    result UnlockRecordProofState :=
  let verificationMethod := default "" (rp_verificationMethod <$> proof) in
  keyMultibase ← recordProofKeyMultibase verificationMethod "unlock";
  if decide (keyMultibase = expectedKeyMultibase) then
    _ ← verifyRecordProof record [expectedKeyMultibase] "unlock"; Ok proof_verified
  else Ok (proof_pending verificationMethod keyMultibase).

Definition verifyBinding (binding bindingMacKey controller : string) (pointer : AccountPointer) (ladderSeed : option string) : result () :=
  if decide (b64_decode binding = Some (hmacSha256 bindingMacKey (bindingMacInput controller pointer ladderSeed))) then Ok ()
  else mthrow (UnlockBindingError "The unlock record's account binding does not verify under this credential; the record is refused as forged.").

Definition unwrapUnlockRecord (record : option json) (keyAgreementKey : KeyAgreementKey)
    (expectedKeyMultibase bindingMacKey : string) : result (UnlockRecordContents * UnlockRecordProofState) :=
  frame ← parseRecordFrame record "unlock" KEYRING_RECORD_VERSION;
  binding ← unlockRecordBinding record;
  let o := default [] (js_object record) in
  match get_member "bridge" o with
  | None => mthrow (plain_error "The unlock record carries no bridge member; it predates the standing layout and the credential must be rebound.")
  | Some rawBridge =>
      bridge ← parseSealedMember rawBridge "bridge";
      delegatedClients ← parseOptionalMember (get_member "delegatedClients" o) "delegatedClients";
      ladder ← parseOptionalMember (get_member "ladder" o) "ladder";
      proofState ← settleProof record (fr_proof frame) expectedKeyMultibase;
      shellPlaintext ← openMember (fr_encryption frame) (fr_wrapped frame) keyAgreementKey;
      shell ← readShell shellPlaintext;
      bridgePlaintext ← openMember (sm_encryption bridge) (sm_wrapped bridge) keyAgreementKey;
      delegation ← readDelegation bridgePlaintext bridgeRefusal;
      delegatedClients ← openOptional delegatedClients keyAgreementKey
        (λ plaintext, readDelegation plaintext delegatedClientsRefusal);
      ladderSeed ← openOptional ladder keyAgreementKey readLadder;
      _ ← verifyBinding binding bindingMacKey (shell_controller shell) (shell_pointer shell) ladderSeed;
      Ok (mkUnlock (shell_controller shell) (shell_email shell) (shell_pointer shell) delegation delegatedClients
            ladderSeed (shell_createdAt shell), proofState)
  end.

(** ** Re-minting the delegations *)

Definition remintUnlockRecordDelegations (record : option json) (delegation : json) (delegatedClients : option json)
    (keyAgreementKey : KeyAgreementKey) (signer : RecordSigner W) : comp W json :=
  frame ← lift (parseRecordFrame record "unlock" KEYRING_RECORD_VERSION);
  binding ← lift (unlockRecordBinding record);
  let o := default [] (js_object record) in
  ladder ← lift (parseOptionalMember (get_member "ladder" o) "ladder");
  bridge ← sealMember (delegationData delegation) keyAgreementKey;
  sealedDelegatedClients ←
    match delegatedClients with
    | Some fresh => sealed ← sealMember (delegationData fresh) keyAgreementKey; mret (Some (sealedJson sealed))
    | None =>
        standing ← lift (parseOptionalMember (get_member "delegatedClients" o) "delegatedClients");
        mret (sm_value <$> standing)
    end;
  signRecordFrame KEYRING_RECORD_VERSION (fr_encryption frame) (fr_wrapped frame) signer
    (unlockMembers binding (sealedJson bridge) sealedDelegatedClients (sm_value <$> ladder)).
End records.

(** ** [JSON.stringify] tells any two lists apart *)

Definition hex_value (a : ascii) : nat :=
  let n := nat_of_ascii a in if decide (n < 58) then n - 48 else n - 87.

Definition unescape_letter (a : ascii) : ascii :=
  if decide (a = "b"%char) then ascii_of_nat 8
  else if decide (a = "t"%char) then ascii_of_nat 9
  else if decide (a = "n"%char) then ascii_of_nat 10
  else if decide (a = "f"%char) then ascii_of_nat 12
  else if decide (a = "r"%char) then ascii_of_nat 13
  else a.

(** Reads an escaped text up to its closing quote. *)
Fixpoint unescape (s : string) : option (string * string) :=
  match s with
  | EmptyString => None
  | String a s =>
      if decide (a = quote) then Some ("", s)
      else if decide (a = backslash) then
        match s with
        | String "u"%char (String _ (String _ (String h (String l s)))) =>
            prod_map (String (ascii_of_nat (hex_value h * 16 + hex_value l))) id <$> unescape s
        | String b s => prod_map (String (unescape_letter b)) id <$> unescape s
        | EmptyString => None
        end
      else prod_map (String a) id <$> unescape s
  end.

Lemma append_assoc (s t u : string) : ((s ++ t) ++ u = s ++ (t ++ u))%string.
Proof. induction s as [|a s IH]; [done|]. exact (f_equal (String a) IH). Qed.

Lemma unescape_char a s : unescape (escape_char a ++ s) = prod_map (String a) id <$> unescape s.
Proof. destruct a as [[] [] [] [] [] [] [] []]; reflexivity. Qed.

Lemma unescape_escape s rest : unescape (escape s ++ String quote rest) = Some (s, rest).
Proof.
  induction s as [|a s IH]; [done|]. change (escape (String a s)) with (escape_char a ++ escape s)%string. rewrite append_assoc, unescape_char, IH. done.
Qed.

Lemma json_quote_inj x y rest rest' :
  (json_quote x ++ rest = json_quote y ++ rest')%string → x = y ∧ rest = rest'.
Proof.
  unfold json_quote. intros H. injection H as H.
  rewrite !append_assoc in H. change (String quote "" ++ ?r)%string with (String quote r) in H.
  assert (Some (x, rest) = Some (y, rest')) as [= -> ->] by by rewrite <- !unescape_escape, H. done.
Qed.

Lemma json_rest_inj xs ys : json_rest xs = json_rest ys → xs = ys.
Proof.
  revert ys. induction xs as [|x xs IH]; intros [|y ys]; cbn [json_rest]; try done.
  intros H%(inj (String.append ",")). apply (json_quote_inj x y) in H as [-> H]. by rewrite (IH _ H).
Qed.

Lemma stringify_inj xs ys : stringify xs = stringify ys → xs = ys.
Proof.
  destruct xs as [|x xs], ys as [|y ys]; unfold stringify; [done|discriminate..|].
  intros H%(inj (String.append "[")). apply (json_quote_inj x y) in H as [-> H]. by rewrite (json_rest_inj _ _ H).
Qed.

(** ** Records that open *)

#[local] Arguments get_member : simpl never.
#[local] Arguments nonempty_member : simpl never.
#[local] Arguments parseRecordFrame : simpl never.
#[local] Arguments verifyRecordProof : simpl never.
#[local] Arguments unlockRecordBinding : simpl never.
#[local] Arguments parseSealedMember : simpl never.
#[local] Arguments parseOptionalMember : simpl never.
#[local] Arguments settleProof : simpl never.
#[local] Arguments openMember : simpl never.
#[local] Arguments openOptional : simpl never.
#[local] Arguments readShell : simpl never.
#[local] Arguments readDelegation : simpl never.
#[local] Arguments readLadder : simpl never.
#[local] Arguments verifyBinding : simpl never.
#[local] Arguments bridgeRefusal : simpl never.
#[local] Arguments delegatedClientsRefusal : simpl never.

Section opened.
Context {W : Type} {library : RecordLibrary W} {keys : WebvhKeys} {host : JsHost} {base64 : Base64} {hash : UnlockHash}.

Definition shellOf (c : UnlockRecordContents) : Shell :=
  mkShell (urc_controller c) (urc_email c) (urc_pointer c) (urc_createdAt c).

(** A member of the record that opens to a delegation, and one that may be
    absent. *)
Definition bridge_opens (opener : KeyAgreementKey) (bridge delegation : json) : Prop :=
  ∃ sealed plaintext, parseSealedMember bridge "bridge" = Ok sealed ∧
    openMember (sm_encryption sealed) (sm_wrapped sealed) opener = Ok plaintext ∧
    readDelegation plaintext bridgeRefusal = Ok delegation.
Definition optional_opens {A} (opener : KeyAgreementKey) (read : json → result A) (name : string) (value : option json) (a : option A) : Prop :=
  ∃ sealed, parseOptionalMember value name = Ok sealed ∧ openOptional sealed opener read = Ok a.
Definition delegatedClients_open (opener : KeyAgreementKey) : option json → option json → Prop :=
  optional_opens opener (λ plaintext, readDelegation plaintext delegatedClientsRefusal) "delegatedClients".
Definition ladder_opens (opener : KeyAgreementKey) : option json → option string → Prop :=
  optional_opens opener readLadder "ladder".

(** The members of a record open, for the credential, to the contents. *)
Record opened (opener : KeyAgreementKey) (bindingMacKey : string) (encryption wrapped bridge : json)
    (delegatedClients ladder : option json) (binding : string) (c : UnlockRecordContents) : Prop := {
  op_shell : ∃ plaintext, openMember encryption wrapped opener = Ok plaintext ∧ readShell plaintext = Ok (shellOf c);
  op_bridge : bridge_opens opener bridge (urc_delegation c);
  op_delegatedClients : delegatedClients_open opener delegatedClients (urc_delegatedClients c);
  op_ladder : ladder_opens opener ladder (urc_ladderSeed c);
  op_binding : verifyBinding binding bindingMacKey (urc_controller c) (urc_pointer c) (urc_ladderSeed c) = Ok ()
}.

Lemma parsed_frame record label frame :
  parseRecordFrame record label KEYRING_RECORD_VERSION = Ok frame →
  ∃ o, js_object record = Some o ∧ is_Some (js_object (Some (fr_encryption frame))) ∧
    present (Some (fr_wrapped frame)) = Some (fr_wrapped frame).
Proof.
  unfold parseRecordFrame. destruct (js_object record) as [o|]; [|done]. case_decide; [|done].
  destruct (present (get_member "wrapped" o)) as [wrapped|] eqn:Hw; [|done].
  destruct (get_member "encryption" o) as [encryption|]; [|done].
  destruct (js_object (Some encryption)) as [e|] eqn:He; [|done]. case_decide; [|done].
  intros (proof & _ & [= <-])%result_bind_ok. exists o. cbn [fr_encryption fr_wrapped]. split; [done|]. split; [by eexists|].
  destruct (get_member "wrapped" o) as [[]|]; cbn in Hw; simplify_eq; done.
Qed.

(** What an accepted record is made of. *)
Lemma unwrap_inv record opener expected mac c state :
  unwrapUnlockRecord record opener expected mac = Ok (c, state) →
  ∃ frame o bridge binding, parseRecordFrame record "unlock" KEYRING_RECORD_VERSION = Ok frame ∧
    js_object record = Some o ∧ unlockRecordBinding record = Ok binding ∧ get_member "bridge" o = Some bridge ∧
    settleProof record (fr_proof frame) expected = Ok state ∧
    opened opener mac (fr_encryption frame) (fr_wrapped frame) bridge (get_member "delegatedClients" o) (get_member "ladder" o) binding c.
Proof.
  unfold unwrapUnlockRecord. intros (frame & Hf & H)%result_bind_ok. apply result_bind_ok in H as (binding & Hb & H).
  destruct (parsed_frame _ _ _ Hf) as (o & Ho & _). rewrite Ho in H. cbn [from_option id] in H.
  destruct (get_member "bridge" o) as [bridge|] eqn:Hbr; [|done].
  apply result_bind_ok in H as (sealed & Hs & H). apply result_bind_ok in H as (dcm & Hdcm & H).
  apply result_bind_ok in H as (lm & Hlm & H). apply result_bind_ok in H as (st & Hst & H).
  apply result_bind_ok in H as (sp & Hsp & H). apply result_bind_ok in H as (shell & Hsh & H).
  apply result_bind_ok in H as (bp & Hbp & H). apply result_bind_ok in H as (delegation & Hd & H).
  apply result_bind_ok in H as (dc & Hdc & H). apply result_bind_ok in H as (seed & Hl & H).
  apply result_bind_ok in H as ([] & Hv & [= <- <-]).
  exists frame, o, bridge, binding. do 5 (split; [done|]). split.
  - exists sp. split; [done|]. rewrite Hsh. by destruct shell.
  - by exists sealed, bp.
  - by exists dcm.
  - by exists lm.
  - done.
Qed.
End opened.

(** Where the reader stands with a record a signer signed. *)
Definition stateOf {W} `{!WebvhKeys} (signer : RecordSigner W) (expectedKeyMultibase : string) : UnlockRecordProofState :=
  if decide (signer_keyMultibase signer = expectedKeyMultibase) then proof_verified
  else proof_pending (signerMethod (signer_keyMultibase signer)) (signer_keyMultibase signer).

Section signed.
Context {W : Type} {library : RecordLibrary W} {keys : WebvhKeys} {host : JsHost} {base64 : Base64} {hash : UnlockHash}
  {laws : RecordLibraryLaws}.

Lemma unlock_members_apart binding bridge delegatedClients ladder :
  (unlockMembers binding bridge delegatedClients ladder).*1 ## frame_names.
Proof.
  intros k Hk Hn. destruct delegatedClients, ladder; cbn in Hk; unfold frame_names in Hn;
    rewrite !elem_of_cons, elem_of_nil in *; naive_solver.
Qed.

Lemma unlock_frame_member encryption wrapped binding bridge delegatedClients ladder :
  let o := recordFrame KEYRING_RECORD_VERSION encryption wrapped (unlockMembers binding bridge delegatedClients ladder) in
  get_member "binding" o = Some (JStr binding) ∧ get_member "bridge" o = Some bridge ∧
  get_member "delegatedClients" o = delegatedClients ∧ get_member "ladder" o = ladder.
Proof. destruct delegatedClients, ladder; repeat split; reflexivity. Qed.

Lemma settle_signed record signer proof expected :
  genuine signer →
  (signer_keyMultibase signer ∈ keyNamed <$> [expected] → verifyRecordProof record [expected] "unlock" = Ok (signer_keyMultibase signer)) →
  settleProof record (Some (mkProof (signerMethod (signer_keyMultibase signer)) proof)) expected = Ok (stateOf signer expected).
Proof.
  intros (Hne & Hvm & Hk & _) Hver. unfold settleProof, stateOf. cbn. unfold recordProofKeyMultibase. rewrite Hvm.
  replace (truthy _) with (Some (signer_keyMultibase signer)) by by destruct (signer_keyMultibase signer).
  cbn. case_decide as He; [|done]. rewrite Hver; [done|]. rewrite <- He. cbn. rewrite Hk. in_list.
Qed.

(** Signed over members that open, the record unwraps to what they open to. *)
Lemma sign_unwraps opener mac encryption wrapped bridge delegatedClients ladder binding c signer expected w :
  opened opener mac encryption wrapped bridge delegatedClients ladder binding c → binding ≠ "" →
  is_Some (js_object (Some encryption)) → present (Some wrapped) = Some wrapped → genuine signer →
  ∃ record w', signRecordFrame KEYRING_RECORD_VERSION encryption wrapped signer
      (unlockMembers binding bridge delegatedClients ladder) w = (Ok record, w') ∧
    unwrapUnlockRecord (Some record) opener expected mac = Ok (c, stateOf signer expected).
Proof.
  intros [(sp & Hsp & Hsh) (sealed & bp & Hs & Hbp & Hd) (dcm & Hdcm & Hdc) (lm & Hlm & Hl) Hv] Hb He Hw Hg.
  destruct (signed_frame encryption wrapped signer _ w Hg (unlock_members_apart binding bridge delegatedClients ladder) He Hw)
    as (o & w' & Hsign & Hget & Hparse & Hver).
  exists (JObj o), w'. split; [done|].
  destruct (unlock_frame_member encryption wrapped binding bridge delegatedClients ladder) as (Gb & Gbr & Gdc & Gl).
  rewrite <- Hget in Gb, Gbr, Gdc, Gl by (unfold frame_names; rewrite !elem_of_cons, elem_of_nil; naive_solver).
  destruct (Hparse "unlock") as [proof Hp]. unfold unwrapUnlockRecord. rewrite Hp. cbn.
  replace (unlockRecordBinding (Some (JObj o))) with (Ok binding).
  2: { unfold unlockRecordBinding. cbn. by rewrite (nonempty_member_eq _ binding). }
  cbn. rewrite Gbr, Gdc, Gl, Hs. cbn. rewrite Hdcm. cbn. rewrite Hlm. cbn. rewrite settle_signed by auto.
  cbn. rewrite Hsp. cbn. rewrite Hsh. cbn. rewrite Hbp. cbn. rewrite Hd. cbn. rewrite Hdc. cbn. rewrite Hl. cbn.
  rewrite Hv. cbn. by destruct c.
Qed.
End signed.

(** ** The round trips *)

Class UnlockHashLaws `{!UnlockHash} : Prop := hmac_length key message : String.length (hmacSha256 key message) = 32.
Class Base64Empty `{!Base64} : Prop := b64_empty : b64_encode "" = "".

(** The contents a record is made for. *)
Record contents_ok {W} `{!RecordLibrary W} `{!JsHost} (c : UnlockRecordContents) : Prop := {
  co_controller : urc_controller c ≠ "";
  co_email : each (λ email, email ≠ "") (urc_email c);
  co_pointer : pointer_ok (urc_pointer c);
  co_delegation : is_Some (js_object (Some (urc_delegation c)));
  co_delegatedClients : each (λ delegation, is_Some (js_object (Some delegation))) (urc_delegatedClients c);
  co_ladder : each (secret_sized LADDER_SEED_BYTES) (urc_ladderSeed c);
  co_createdAt : is_Some (date_parse (urc_createdAt c))
}.

Section round_trips.
Context {W : Type} {library : RecordLibrary W} {keys : WebvhKeys} {host : JsHost} {base64 : Base64} {hash : UnlockHash}
  {laws : RecordLibraryLaws} {inverse : Base64Inverse} {emptyLaw : Base64Empty} {hashLaws : UnlockHashLaws}.

Lemma b64_encode_nonempty bytes : bytes ≠ "" → b64_encode bytes ≠ "".
Proof. intros Hb He. apply Hb. pose proof (b64_inverse bytes) as H. pose proof (b64_inverse "") as H0. rewrite b64_empty in H0. congruence. Qed.

Lemma binding_nonempty mac controller pointer seed : computeUnlockBinding mac controller pointer seed ≠ "".
Proof.
  apply b64_encode_nonempty. intros H. pose proof (hmac_length mac (bindingMacInput controller pointer seed)) as Hl.
  by rewrite H in Hl.
Qed.

Lemma verify_computed mac controller pointer seed :
  verifyBinding (computeUnlockBinding mac controller pointer seed) mac controller pointer seed = Ok ().
Proof. unfold verifyBinding, computeUnlockBinding. by rewrite b64_inverse, decide_True. Qed.

Lemma seal_opens data sealer opener owner w :
  ownerRecipientOf sealer = Ok owner → ownerRecipientOf opener = Ok owner →
  ∃ sealed w', sealMember data sealer w = (Ok sealed, w') ∧ openMember sealed.1 sealed.2 opener = Ok (JObj data) ∧
    is_Some (js_object (Some sealed.1)) ∧ present (Some sealed.2) = Some sealed.2.
Proof.
  intros Hs Ho. destruct (mint_opens sealer opener owner w Hs Ho) as (d & w1 & Hmint & Hd & seal & open & Hcs & Hco & Hround).
  destruct (Hround data w1) as (envelope & id & w2 & Henv & Hid & Hdec).
  exists (d, JObj envelope), w2. split; [|split; [|done]].
  - unfold sealMember. erewrite comp_bind_ok by done. unfold recordSealCipher. rewrite Hcs.
    erewrite comp_bind_ok by done. by erewrite comp_bind_ok.
  - unfold openMember, recordCipher. cbn. rewrite Hco. cbn. unfold recordEnvelopeId. cbn. by rewrite Hid.
Qed.

Lemma parse_sealed sealed name :
  is_Some (js_object (Some sealed.1)) → present (Some sealed.2) = Some sealed.2 →
  parseSealedMember (sealedJson sealed) name = Ok (mkSealed (sealedJson sealed) sealed.1 sealed.2).
Proof.
  intros [e He] Hw. unfold parseSealedMember. cbn [js_object sealedJson]. read_members. rewrite He, Hw. done.
Qed.

Lemma read_delegation delegation refusal :
  is_Some (js_object (Some delegation)) → readDelegation (JObj (delegationData delegation)) refusal = Ok delegation.
Proof. intros [o Ho]. unfold readDelegation. change (plaintext_members (JObj ?d)) with d. unfold delegationData. read_members. by rewrite Ho. Qed.

Lemma read_ladder seed : secret_sized LADDER_SEED_BYTES seed → readLadder (JObj (ladderData seed)) = Ok seed.
Proof. intros Hs. unfold readLadder, ladderData. cbn. read_members. cbn. rewrite b64_inverse. by rewrite decide_True. Qed.

Lemma sealed_bridge_opens delegation sealer opener owner w :
  ownerRecipientOf sealer = Ok owner → ownerRecipientOf opener = Ok owner → is_Some (js_object (Some delegation)) →
  ∃ sealed w', sealMember (delegationData delegation) sealer w = (Ok sealed, w') ∧
    bridge_opens opener (sealedJson sealed) delegation.
Proof.
  intros Hs Ho Hd. destruct (seal_opens (delegationData delegation) sealer opener owner w Hs Ho) as (sealed & w' & Hrun & Hopen & He & Hw).
  exists sealed, w'. split; [done|]. exists (mkSealed (sealedJson sealed) sealed.1 sealed.2), (JObj (delegationData delegation)).
  split; [by apply parse_sealed|]. split; [done|by apply read_delegation].
Qed.

(** A member sealed where there is something to seal opens to it. *)
Lemma sealed_optional_opens {A} (data : A → members) (read : json → result A) name (a : option A) sealer opener owner w :
  ownerRecipientOf sealer = Ok owner → ownerRecipientOf opener = Ok owner →
  each (λ a, read (JObj (data a)) = Ok a) a →
  ∃ value w', sealOptional (data <$> a) sealer w = (Ok value, w') ∧ optional_opens opener read name value a.
Proof.
  intros Hs Ho Hread. destruct a as [a|]; [|by exists None, w; split; [|exists None]]. apply each_inv in Hread.
  destruct (seal_opens (data a) sealer opener owner w Hs Ho) as (sealed & w' & Hrun & Hopen & He & Hw).
  exists (Some (sealedJson sealed)), w'. split; [cbn; by erewrite comp_bind_ok|].
  exists (Some (mkSealed (sealedJson sealed) sealed.1 sealed.2)). unfold parseOptionalMember, openOptional.
  rewrite parse_sealed by done. split; [done|]. cbn. rewrite Hopen. cbn. by rewrite Hread.
Qed.

Lemma wrap_unwraps now c sealer opener owner signer mac expected w :
  contents_ok c → ownerRecipientOf sealer = Ok owner → ownerRecipientOf opener = Ok owner → genuine signer →
  ∃ record w',
    wrapUnlockRecord now (urc_controller c) (urc_email c) (urc_pointer c) (urc_delegation c) (urc_delegatedClients c)
      (urc_ladderSeed c) sealer signer mac (Some (urc_createdAt c)) w = (Ok record, w') ∧
    unwrapUnlockRecord (Some record) opener expected mac = Ok (c, stateOf signer expected).
Proof.
  intros [Hc He Hp Hd Hdc Hl Ht] Hs Ho Hg.
  destruct (shell_members (urc_controller c) (urc_email c) (Some (urc_pointer c)) (urc_createdAt c)) as
    (data & [= Hdata] & Gc & Gp & Gt & Ge); [done|done|by apply each_Some|].
  destruct (seal_opens data sealer opener owner w Hs Ho) as (shell & w1 & Hshell & Oshell & Eshell & Wshell).
  destruct (sealed_bridge_opens (urc_delegation c) sealer opener owner w1 Hs Ho Hd) as (bridge & w2 & Hbridge & Obridge).
  destruct (sealed_optional_opens delegationData (λ plaintext, readDelegation plaintext delegatedClientsRefusal) "delegatedClients"
    (urc_delegatedClients c) sealer opener owner w2 Hs Ho) as (dc & w3 & Hdcs & Odc).
  { intros d Hin. apply read_delegation. by apply Hdc. }
  destruct (sealed_optional_opens ladderData readLadder "ladder" (urc_ladderSeed c) sealer opener owner w3 Hs Ho) as (l & w4 & Hls & Ol).
  { intros seed Hin. apply read_ladder. by apply Hl. }
  destruct (sign_unwraps opener mac shell.1 shell.2 (sealedJson bridge) dc l
    (computeUnlockBinding mac (urc_controller c) (urc_pointer c) (urc_ladderSeed c)) c signer expected w4) as (record & w5 & Hsign & Hun);
    [|by apply binding_nonempty|done..|].
  { split; [|done..|by apply verify_computed]. exists (JObj data). split; [done|].
    unfold readShell. cbn. unfold parseController. rewrite Gc. cbn. rewrite Gp. cbn.
    rewrite Gt. unfold parseRecordCreatedAt, as_timestamp. cbn. rewrite decide_True by done. cbn. unfold parseEmail. by rewrite Ge. }
  exists record, w5. split; [|done]. unfold wrapUnlockRecord.
  replace (match urc_ladderSeed c with Some _ => _ | None => _ end) with false.
  2: { destruct (urc_ladderSeed c) as [seed|]; [|done]. symmetry. apply bool_decide_eq_false. intros Hn. apply Hn. by apply Hl. }
  destruct Ht as [ms Ht]. unfold recordCreatedAtStamp. rewrite Ht. 
  erewrite comp_bind_ok by done. 
  erewrite comp_bind_ok by exact (eq_trans (f_equal (λ d, sealMember d sealer w) Hdata) Hshell).
  erewrite comp_bind_ok by done. erewrite comp_bind_ok by done. by erewrite comp_bind_ok.
Qed.
End round_trips.

(** C26: a bound credential reads its record back. Whatever the contents (an
    email or none, a pointer with or without a DID, a standing method's ladder
    seed and annex delegation or a recovery code's neither), wrapping them
    succeeds, and the credential unwraps exactly what was wrapped, as
    verified when its own key signed and as pending the named signer when an
    acting client's did. *)
Theorem unlock_record_round_trip {W} `{!RecordLibrary W} `{!WebvhKeys} `{!JsHost} `{!Base64} `{!UnlockHash}
    `{!RecordLibraryLaws} `{!Base64Inverse} `{!Base64Empty} `{!UnlockHashLaws}
    now c sealer opener owner (signer : RecordSigner W) mac expected w :
  contents_ok c → ownerRecipientOf sealer = Ok owner → ownerRecipientOf opener = Ok owner → genuine signer →
  ∃ record w',
    wrapUnlockRecord now (urc_controller c) (urc_email c) (urc_pointer c) (urc_delegation c) (urc_delegatedClients c)
      (urc_ladderSeed c) sealer signer mac (Some (urc_createdAt c)) w = (Ok record, w') ∧
    unwrapUnlockRecord (Some record) opener expected mac = Ok (c, stateOf signer expected).
Proof. apply wrap_unwraps. Qed.

(** The contents with its delegations replaced; an annex delegation none is
    supplied for stays. *)
Definition redelegated (c : UnlockRecordContents) (delegation : json) (delegatedClients : option json) : UnlockRecordContents :=
  mkUnlock (urc_controller c) (urc_email c) (urc_pointer c) delegation
    (match delegatedClients with Some fresh => Some fresh | None => urc_delegatedClients c end)
    (urc_ladderSeed c) (urc_createdAt c).

Section remint.
Context {W : Type} {library : RecordLibrary W} {keys : WebvhKeys} {host : JsHost} {base64 : Base64} {hash : UnlockHash}
  {laws : RecordLibraryLaws}.

Lemma parsed_sealed value name sealed : parseSealedMember value name = Ok sealed → sm_value sealed = value.
Proof.
  unfold parseSealedMember. destruct (js_object (Some value)) as [o|]; [|done].
  destruct (get_member "encryption" o) as [encryption|]; [|done].
  destruct (js_object (Some encryption)); [|done]. destruct (present (get_member "wrapped" o)); [|done]. by intros [= <-].
Qed.

Lemma parsed_optional value name sealed : parseOptionalMember value name = Ok sealed → sm_value <$> sealed = value.
Proof.
  destruct value as [value|]; [|by intros [= <-]]. unfold parseOptionalMember.
  intros (s & Hs & [= <-])%result_bind_ok. cbn. by rewrite (parsed_sealed _ _ _ Hs).
Qed.

(** The annex member of a re-mint: fresh where one is supplied, else the
    standing one verbatim. *)
Lemma remint_annex {A} (read : json → result A) (data : A → members) standing (a fresh : option A) sealer opener owner w :
  ownerRecipientOf sealer = Ok owner → ownerRecipientOf opener = Ok owner →
  each (λ a, read (JObj (data a)) = Ok a) fresh → optional_opens opener read "delegatedClients" standing a →
  ∃ value w',
    match fresh with
    | Some fresh => sealed ← sealMember (data fresh) sealer; mret (Some (sealedJson sealed))
    | None => s ← lift (parseOptionalMember standing "delegatedClients"); mret (sm_value <$> s)
    end w = (Ok value, w') ∧
    optional_opens opener read "delegatedClients" value (match fresh with Some fresh => Some fresh | None => a end).
Proof.
  intros Hs Ho Hread Hst. destruct fresh as [fresh|].
  - by apply (sealed_optional_opens data read "delegatedClients" (Some fresh) sealer opener owner).
  - destruct Hst as (sealed & Hp & Hopen). exists standing, w. split; [|by exists sealed].
    rewrite Hp. erewrite comp_bind_ok by done. by rewrite (parsed_optional _ _ _ Hp).
Qed.

Lemma parsed_binding record binding : unlockRecordBinding record = Ok binding → binding ≠ "".
Proof.
  unfold unlockRecordBinding. destruct (js_object record) as [o|]; cbn; [|done].
  destruct (nonempty_member "binding" o) eqn:Hb; [|done]. intros [= <-]. by eapply nonempty_member_ne.
Qed.

Lemma remint_unwraps record c state opener expected mac sealer owner signer delegation delegatedClients w :
  unwrapUnlockRecord record opener expected mac = Ok (c, state) →
  ownerRecipientOf sealer = Ok owner → ownerRecipientOf opener = Ok owner → genuine signer →
  is_Some (js_object (Some delegation)) → each (λ fresh, is_Some (js_object (Some fresh))) delegatedClients →
  ∃ reminted w', remintUnlockRecordDelegations record delegation delegatedClients sealer signer w = (Ok reminted, w') ∧
    ∀ expected', unwrapUnlockRecord (Some reminted) opener expected' mac =
      Ok (redelegated c delegation delegatedClients, stateOf signer expected').
Proof.
  intros Hun Hs Ho Hg Hd Hdc. apply unwrap_inv in Hun as (frame & o & bridge & binding & Hf & Hobj & Hb & _ & _ & [Osh _ Odc Ol Hv]).
  destruct (parsed_frame _ _ _ Hf) as (o' & Ho' & He & Hw). rewrite Hobj in Ho'. injection Ho' as <-.
  destruct Ol as (lm & Hlm & Hl).
  destruct (sealed_bridge_opens delegation sealer opener owner w Hs Ho Hd) as (fresh & w1 & Hbridge & Obridge).
  assert (Hread : each (λ d, readDelegation (JObj (delegationData d)) delegatedClientsRefusal = Ok d) delegatedClients)
    by (intros d Hin; apply read_delegation; by apply Hdc).
  destruct (remint_annex (λ plaintext, readDelegation plaintext delegatedClientsRefusal) delegationData _ _ delegatedClients
    sealer opener owner w1 Hs Ho Hread Odc) as (dc & w2 & Hdcs & Odc').
  assert (Hopened : opened opener mac (fr_encryption frame) (fr_wrapped frame) (sealedJson fresh) dc (get_member "ladder" o)
    binding (redelegated c delegation delegatedClients)) by (split; [done..| |done]; by exists lm).
  destruct (signed_frame (fr_encryption frame) (fr_wrapped frame) signer
    (unlockMembers binding (sealedJson fresh) dc (get_member "ladder" o)) w2 Hg (unlock_members_apart _ _ _ _) He Hw)
    as (reminted & w3 & Hsign & _).
  exists (JObj reminted), w3. split.
  - unfold remintUnlockRecordDelegations. rewrite Hf. erewrite comp_bind_ok by done. rewrite Hb.
    erewrite comp_bind_ok by done. rewrite Hobj. cbn [from_option id]. rewrite Hlm. erewrite comp_bind_ok by done.
    erewrite comp_bind_ok by done. erewrite comp_bind_ok by done. by rewrite (parsed_optional _ _ _ Hlm).
  - intros expected'. destruct (sign_unwraps opener mac _ _ _ _ _ binding _ signer expected' w2 Hopened) as (record' & w' & Hsign' & Hun');
      [by eapply parsed_binding|done..|].
    rewrite Hsign in Hsign'. by injection Hsign' as <- _.
Qed.
End remint.

(** C25: a re-mint touches nothing but the delegations. From any record the
    credential accepts, holding no more than the credential's public half and
    the acting client's key, the re-mint produces a record the credential
    still accepts, with the controller, email, pointer, ladder seed and bind
    stamp it had, the fresh delegations in place of the rotted ones (an annex
    delegation none was supplied for travels as it was), and the acting client
    as the signer to settle. *)
Theorem remint_keeps_the_account {W} `{!RecordLibrary W} `{!WebvhKeys} `{!JsHost} `{!Base64} `{!UnlockHash} `{!RecordLibraryLaws}
    record c state opener expected mac sealer owner (signer : RecordSigner W) delegation delegatedClients w :
  unwrapUnlockRecord record opener expected mac = Ok (c, state) →
  ownerRecipientOf sealer = Ok owner → ownerRecipientOf opener = Ok owner → genuine signer →
  is_Some (js_object (Some delegation)) → each (λ fresh, is_Some (js_object (Some fresh))) delegatedClients →
  ∃ reminted w', remintUnlockRecordDelegations record delegation delegatedClients sealer signer w = (Ok reminted, w') ∧
    ∀ expected', unwrapUnlockRecord (Some reminted) opener expected' mac =
      Ok (redelegated c delegation delegatedClients, stateOf signer expected').
Proof. apply remint_unwraps. Qed.

(** ** The binding *)

Section binds.
Context {W : Type} {library : RecordLibrary W} {keys : WebvhKeys} {host : JsHost} {base64 : Base64} {hash : UnlockHash}.

Lemma read_shell_pointer plaintext shell : readShell plaintext = Ok shell → each (λ did, did ≠ "") (pointer_did (shell_pointer shell)).
Proof.
  unfold readShell. intros (controller & _ & H)%result_bind_ok. apply result_bind_ok in H as (pointer & Hp & H).
  destruct pointer as [pointer|]; [|done]. apply result_bind_ok in H as (stamp & _ & [= <-]). cbn.
  revert Hp. unfold parseRecordPointer. destruct (get_member _ _) as [v|]; [|done]. destruct (js_object _) as [o|]; [|done].
  destruct (nonempty_member _ o) as [url|]; [|done]. destruct (canonicalSpaceUrl url); [|done].
  intros (did & Hd & [= <-])%result_bind_ok. by eapply optionalName_ok.
Qed.

Lemma ladder_sized opener value seed : ladder_opens opener value seed → each (λ seed, seed ≠ "") seed.
Proof.
  intros (sealed & _ & Hopen). unfold openOptional in Hopen. destruct sealed as [sealed|]; [|by injection Hopen as <-].
  apply result_bind_ok in Hopen as (plaintext & _ & H). apply result_bind_ok in H as (a & Ha & [= <-]). apply each_Some.
  unfold readLadder in Ha. destruct (_ ≫= b64_decode) as [bytes|]; [|done]. case_decide as Hl; [|done]. injection Ha as <-.
  by intros ->.
Qed.

(** The core the binding covers. *)
Definition coreOf (c : UnlockRecordContents) : string * AccountPointer * option string :=
  (urc_controller c, urc_pointer c, urc_ladderSeed c).

Lemma default_inj (o o' : option string) : each (λ s, s ≠ "") o → each (λ s, s ≠ "") o' → default "" o = default "" o' → o = o'.
Proof.
  intros Ho Ho' H. destruct o as [s|], o' as [s'|]; cbn in H; subst; try done.
  - by destruct (Ho "" eq_refl).
  - by destruct (Ho' "" eq_refl).
Qed.

Lemma seed_text_inj `{!Base64Inverse} `{!Base64Empty} (o o' : option string) :
  each (λ s, s ≠ "") o → each (λ s, s ≠ "") o' →
  match o with Some s => b64_encode s | None => "" end = match o' with Some s => b64_encode s | None => "" end → o = o'.
Proof.
  intros Ho Ho' Ht. destruct o as [s|], o' as [s'|]; [|by destruct (b64_encode_nonempty s (each_inv _ _ Ho))
    |by destruct (b64_encode_nonempty s' (each_inv _ _ Ho') (eq_sym Ht))|done].
  pose proof (b64_inverse s) as Hs. rewrite Ht, b64_inverse in Hs. by injection Hs as ->.
Qed.

(** The MAC input determines the core. *)
Lemma mac_input_inj `{!Base64Inverse} `{!Base64Empty} c c' :
  each (λ did, did ≠ "") (pointer_did (urc_pointer c)) → each (λ did, did ≠ "") (pointer_did (urc_pointer c')) →
  each (λ seed, seed ≠ "") (urc_ladderSeed c) → each (λ seed, seed ≠ "") (urc_ladderSeed c') →
  bindingMacInput (urc_controller c) (urc_pointer c) (urc_ladderSeed c) =
  bindingMacInput (urc_controller c') (urc_pointer c') (urc_ladderSeed c') → coreOf c = coreOf c'.
Proof.
  intros Hd Hd' Hl Hl' Ht. unfold bindingMacInput in Ht. apply stringify_inj in Ht. injection Ht as Hc Hdid Hurl Hseed.
  apply default_inj in Hdid; [|done..]. apply seed_text_inj in Hseed; [|done..].
  unfold coreOf. destruct (urc_pointer c), (urc_pointer c'). cbn in *. congruence.
Qed.

Lemma accepted_core record opener expected mac c state :
  unwrapUnlockRecord record opener expected mac = Ok (c, state) →
  each (λ did, did ≠ "") (pointer_did (urc_pointer c)) ∧ each (λ seed, seed ≠ "") (urc_ladderSeed c) ∧
  ∃ binding, unlockRecordBinding record = Ok binding ∧
    b64_decode binding = Some (hmacSha256 mac (bindingMacInput (urc_controller c) (urc_pointer c) (urc_ladderSeed c))).
Proof.
  intros Hun. apply unwrap_inv in Hun as (frame & o & bridge & binding & _ & _ & Hb & _ & _ & [(sp & _ & Hsh) _ _ Hl Hv]).
  split; [exact (read_shell_pointer _ _ Hsh)|]. split; [by eapply ladder_sized|]. exists binding. split; [done|].
  unfold verifyBinding in Hv. by case_decide.
Qed.
End binds.

(** C24: a host cannot move a bound credential to another account. Two records
    a credential accepts under one binding tag carry the same account core,
    whatever else was rewritten, re-encrypted or re-signed around it: the same
    controller, the same pointer and the same ladder seed. The one way out is
    a collision of HMAC-SHA-256 under the credential's key, on two different
    texts, which the theorem hands over. *)
Theorem unlock_binding_fixes_the_account {W} `{!RecordLibrary W} `{!WebvhKeys} `{!JsHost} `{!Base64} `{!UnlockHash}
    `{!Base64Inverse} `{!Base64Empty} record record' opener opener' expected expected' mac c c' state state' :
  unwrapUnlockRecord record opener expected mac = Ok (c, state) →
  unwrapUnlockRecord record' opener' expected' mac = Ok (c', state') →
  unlockRecordBinding record = unlockRecordBinding record' →
  coreOf c = coreOf c' ∨ ∃ m m', m ≠ m' ∧ hmacSha256 mac m = hmacSha256 mac m'.
Proof.
  intros (Hd & Hl & binding & Hb & Ht)%accepted_core (Hd' & Hl' & binding' & Hb' & Ht')%accepted_core He.
  assert (binding' = binding) as -> by congruence. rewrite Ht in Ht'. injection Ht' as Ht'.
  destruct (decide (bindingMacInput (urc_controller c) (urc_pointer c) (urc_ladderSeed c) =
    bindingMacInput (urc_controller c') (urc_pointer c') (urc_ladderSeed c'))) as [Heq|Hne].
  - left. by apply mac_input_inj.
  - right. by eexists _, _.
Qed.
