(* ===== verification/RecordDemo.v ===== *)
(** * The record codecs at work

    A concrete record library (an envelope that names whom it is sealed to, a
    signature that repeats the text it covers), and the codecs' theorems
    applied to records it produces. *)

From S2P Require Import Prelude Json JsText ConnEntry LadderRungs AccountLog KeyRotation Descriptors UserKeyRoster ClientKeyRecord KeyringRecord UnlockRecord.
From Stdlib Require Import Ascii.

Module RecordDemo.

(** ** The libraries *)

Fixpoint render (j : json) : string :=
  match j with
  | JNull => "null"
  | JBool b => if b then "true" else "false"
  | JNum q => pretty (QArith_base.Qnum q)
  | JStr s => json_quote s
  | JArr xs => "[" ++ (fix go (xs : list json) : string := match xs with [] => "]" | x :: xs => render x ++ "," ++ go xs end) xs
  | JObj ms => "{" ++ (fix go (ms : list (string * json)) : string :=
        match ms with [] => "}" | m :: ms => json_quote m.1 ++ ":" ++ render m.2 ++ "," ++ go ms end) ms
  end%string.

Definition descriptor_for (recipients : list RecipientPublicKey) : json :=
  JObj [("currentEpoch", JStr "e1");
        ("epochs", JArr [JObj [("id", JStr "e1");
          ("recipients", JArr ((λ r, JObj [("header", JObj [("kid", JStr (recipient_id r))])]) <$> recipients))]])].

Definition owner_of (kak : KeyAgreementKey) : RecipientPublicKey := mkRecipient (kak_id kak) (kak_id kak).

(** Opens an envelope of a descriptor the key is the one recipient of. *)
Definition open_with (kak : KeyAgreementKey) (descriptor : json) (id : string) (envelope : json) : result json :=
  match envelope with
  | JObj o =>
      if decide (get_member "id" o = Some (JStr id) ∧ descriptor = descriptor_for [owner_of kak]) then
        match get_member "sealed" o with Some data => Ok data | None => mthrow (plain_error "empty") end
      else mthrow (plain_error "not a recipient")
  | _ => mthrow (plain_error "no envelope")
  end.

Definition signature_of (key data : string) : string := "signed by " ++ key ++ ": " ++ data.

#[export] Instance library : RecordLibrary () := {|
  initRecordRecipients X store recipients :=
    current ← rs_read store;
    match current with
    | Some _ => mthrow (plain_error "already initialised")
    | None => rs_create store (descriptor_for recipients);; mret (descriptor_for recipients)
    end;
  ownerRecipientOf kak := Ok (owner_of kak);
  createEdvEncryptOnlyDocCipher descriptor := Ok (λ data, mret (JObj [("id", JStr "z1"); ("sealed", data)]));
  createEdvDocCipher kak descriptor := Ok (open_with kak descriptor);
  canonicalSpaceUrl url := if startsWith url "https://" then Ok url else mthrow (plain_error "no url");
  createDataIntegrityProofTemplate vm :=
    JObj [("type", JStr "DataIntegrityProof"); ("cryptosuite", JStr "eddsa-jcs-2022");
          ("verificationMethod", JStr vm); ("proofPurpose", JStr "assertionMethod")];
  signDataIntegrityProof frame template signer :=
    signature ← signer_sign signer (render (JObj frame));
    mret (JObj (set_member "proofValue" (JStr signature) (plaintext_members template)));
  verifyEntryProofs frame proof key :=
    if decide (member "proofValue" proof = Some (JStr (signature_of key (render (JObj frame))))) then Ok ()
    else mthrow (plain_error "bad signature");
  verifiesSignature key data signature := bool_decide (signature = signature_of key data);
  generateKeyPair seed := mret (seed, λ data, mret (signature_of seed data))
|}.

#[export] Instance keys : WebvhKeys := {| deriveNextKeyHash key := ("h" ++ key)%string; vmFragmentOf id := split_at "#"%char id !! 1 |}.
#[export] Instance host : JsHost := {|
  date_parse s := if decide (s = "") then None else Some 0%Z;
  toISOString _ := "1970-01-01T00:00:00.000Z";
  url_href := Some
|}.
#[export] Instance base64 : Base64 := {| b64_decode := Some; b64_encode s := s |}.
#[export] Instance base64_inverse : Base64Inverse. Proof. done. Defined.
#[export] Instance base64_empty : Base64Empty. Proof. done. Defined.

(** A tag of 32 characters: the end of the text, after the key. *)
Fixpoint take_padded (n : nat) (s : string) : string :=
  match n with
  | 0 => ""
  | S n => match s with "" => String " "%char (take_padded n "") | String a s => String a (take_padded n s) end
  end.
#[export] Instance hash : UnlockHash := {| hmacSha256 key message := take_padded 32 (key ++ String.substring 30 (String.length message) message) |}.
#[export] Instance hash_laws : UnlockHashLaws.
Proof.
  intros key message. cbn [hmacSha256 hash]. generalize (key ++ String.substring 30 (String.length message) message)%string.
  enough (∀ n s, String.length (take_padded n s) = n) as H by (intros; apply H).
  induction n as [|n IH]; intros [|a s]; cbn; auto.
Qed.

(** The signatures verify for every signer, so a genuine one's do. *)
#[export] Instance library_laws : RecordLibraryLaws.
Proof.
  split.
  - intros X store recipients w w1 Hread Hcreate.
    destruct (Hcreate (descriptor_for recipients) w1) as [w2 Hc]. exists (descriptor_for recipients), w2.
    cbn [initRecordRecipients library]. erewrite comp_bind_ok by done. cbn. by erewrite comp_bind_ok.
  - intros X store opener owner w descriptor w' [= <-] Hrun. cbn [initRecordRecipients library] in Hrun.
    unfold mbind, comp_bind in Hrun. destruct (rs_read store w) as [[[d|]|] w1]; [done| |done].
    destruct (rs_create store _ w1) as [[[]|] w2]; [|done]. injection Hrun as <- <-.
    split; [by eexists|]. eexists _, _. split; [done|]. split; [done|].
    intros data []. exists [("id", JStr "z1"); ("sealed", JObj data)], "z1", tt. split; [done|]. split; [done|].
    unfold open_with. by rewrite decide_True.
  - intros frame [key sign] label [] (Hne & Hvm & Hk & Hsign) _. cbn [signer_keyMultibase signer_sign] in *.
    destruct (Hsign (render (JObj frame)) ()) as (signature & [] & Hs & Hv). apply bool_decide_eq_true in Hv.
    eexists _, tt. split; [|split].
    + cbn [signDataIntegrityProof library signer_sign]. by erewrite comp_bind_ok.
    + done.
    + cbn [verifyEntryProofs library]. rewrite decide_True; [done|]. cbn. by rewrite Hv.
Qed.

Definition signer_of (key : string) : RecordSigner () := mkSigner key (λ data, mret (signature_of key data)).

(** ** The records *)

Definition bytes (n : nat) (a : ascii) : string := String.string_of_list_ascii (replicate n a).
Definition device : ClientKeyRecord :=
  mkClientRecord (bytes 32 "s"%char) (Some (mkUserKey "did:key:z6LS" (bytes 32 "u"%char)))
    (Some (mkUpdateKeys (bytes 32 "a"%char) (bytes 32 "b"%char) (Some (bytes 32 "c"%char)))) (Some "did:key:z6Mk") None
    (Some (mkPending recovery_spend (mkBuiltOn "scid" "3-Q") (Some (bytes 32 "k"%char)) (Some (bytes 16 "r"%char)))).

Lemma device_ok : well_formed device.
Proof.
  split; try done; intros x [= <-].
  - done.
  - split; [done|]. split; [done|]. by intros x [= <-].
  - done.
  - split; [done|]. split; [by intros x [= <-]|]. split; [by intros x [= <-]|done].
Qed.

Definition device_json : json := match encodeClientKeyRecord 0 device None with Ok j => j | Throw _ => JNull end.


Definition credential_public : KeyAgreementKey := mkKeyAgreement "z6LSunlock" "".
Definition credential : KeyAgreementKey := mkKeyAgreement "z6LSunlock" "secret".
Definition owner : RecipientPublicKey := owner_of credential.
Definition own_signer : RecordSigner () := signer_of "z6MkUnlock".
Definition client_signer : RecordSigner () := signer_of "z6MkClient".

Definition core : UnlockRecordContents := {|
  urc_controller := "did:key:z6MkUser";
  urc_email := Some "user@example.com";
  urc_pointer := mkPointer (Some "did:webvh:scid:host") "https://host/space/1/";
  urc_delegation := JObj [("id", JStr "urn:bridge:1")];
  urc_delegatedClients := Some (JObj [("id", JStr "urn:annex:1")]);
  urc_ladderSeed := Some (bytes 32 "l"%char);
  urc_createdAt := "2026-01-01T00:00:00.000Z"
|}.

Lemma core_ok : contents_ok core.
Proof.
  split; try done; try (by intros x [= <-]); try (intros x [= <-]; by eexists).
  split; [done|]. split; [by eexists|by intros x [= <-]].
Qed.

Lemma genuine_signer key : key ≠ "" → vmFragmentOf (signerMethod key) = Some key → keyNamed key = key → genuine (signer_of key).
Proof.
  intros Hne Hvm Hk. split; [done|]. split; [done|]. split; [done|].
  intros data []. exists (signature_of key data), tt. split; [done|]. by apply bool_decide_eq_true.
Qed.

Definition mac : string := "credential mac key".
Definition wrapped : comp () json :=
  wrapUnlockRecord 0 (urc_controller core) (urc_email core) (urc_pointer core) (urc_delegation core) (urc_delegatedClients core)
    (urc_ladderSeed core) credential_public own_signer mac (Some (urc_createdAt core)).
Definition stored : json := match (wrapped ()).1 with Ok j => j | Throw _ => JNull end.

Lemma unlock_record_round_trip_witness :
  genuine own_signer ∧ contents_ok core ∧
  ∃ record w', wrapped () = (Ok record, w') ∧
    unwrapUnlockRecord (Some record) credential "z6MkUnlock" mac = Ok (core, proof_verified).
Proof.
  assert (Hg : genuine own_signer) by by apply genuine_signer.
  split; [exact Hg|]. split; [apply core_ok|].
  exact (unlock_record_round_trip 0 core credential_public credential owner own_signer mac "z6MkUnlock" ()
    core_ok eq_refl eq_refl Hg).
Defined.

(** A client re-mints the bridge alone: the annex delegation stays. *)
Definition fresh_bridge : json := JObj [("id", JStr "urn:bridge:2")].

Lemma stored_unwraps : unwrapUnlockRecord (Some stored) credential "z6MkUnlock" mac = Ok (core, proof_verified).
Proof. vm_compute. reflexivity. Qed.

Lemma remint_keeps_the_account_witness :
  unwrapUnlockRecord (Some stored) credential "z6MkUnlock" mac = Ok (core, proof_verified) ∧
  ∃ reminted w', remintUnlockRecordDelegations (Some stored) fresh_bridge None credential_public client_signer () = (Ok reminted, w') ∧
    ∀ expected', unwrapUnlockRecord (Some reminted) credential expected' mac =
      Ok (redelegated core fresh_bridge None, stateOf client_signer expected').
Proof.
  assert (Hg : genuine client_signer) by by apply genuine_signer.
  split; [exact stored_unwraps|].
  apply (remint_keeps_the_account (Some stored) core proof_verified credential "z6MkUnlock" mac credential_public owner
    client_signer fresh_bridge None ()); [exact stored_unwraps|done|done|exact Hg|by eexists|done].
Defined.

Definition reminted : json :=
  match (remintUnlockRecordDelegations (Some stored) fresh_bridge None credential_public client_signer ()).1 with
  | Ok j => j | Throw _ => JNull end.

Lemma unlock_binding_fixes_the_account_witness :
  unlockRecordBinding (Some stored) = unlockRecordBinding (Some reminted) ∧
  (coreOf core = coreOf (redelegated core fresh_bridge None) ∨ ∃ m m', m ≠ m' ∧ hmacSha256 mac m = hmacSha256 mac m').
Proof.
  split; [vm_compute; reflexivity|].
  apply (unlock_binding_fixes_the_account (Some stored) (Some reminted) credential credential "z6MkUnlock" "z6MkUnlock" mac
    core (redelegated core fresh_bridge None) proof_verified (stateOf client_signer "z6MkUnlock"));
    [exact stored_unwraps|vm_compute; reflexivity|vm_compute; reflexivity].
Defined.

(** Moved to another account, the record is refused as forged, even re-signed
    by the credential's own key over the new pointer. *)
Example moved_record_refused :
  let moved := (wrapUnlockRecord 0 (urc_controller core) (urc_email core) (mkPointer (Some "did:webvh:scid:evil") "https://evil/space/1/")
    (urc_delegation core) (urc_delegatedClients core) (urc_ladderSeed core) credential_public own_signer "host key"
    (Some (urc_createdAt core)) ()).1 in
  match moved with
  | Ok record => match unwrapUnlockRecord (Some record) credential "z6MkUnlock" mac with
                 | Throw e => err_name e | Ok _ => "" end
  | Throw _ => ""
  end = "UnlockBindingError".
Proof. vm_compute. reflexivity. Qed.
End RecordDemo.
