(* ===== verification/AnnexDocument.v ===== *)
(** * The standing delegations' policy

    [src/src/webvh/standingZcap.ts]: one lifetime, one renewal window, and the
    predicates that ask whether a recorded delegation must be renewed and
    whether it is already dead. A delegation is the JSON it was minted as. *)

From Stdlib Require Import Ascii.
From S2P Require Import Prelude Json JsText ConnEntry AccountDocument LadderRungs AccountLog LogStore LadderIndex ClientListing UserKeyRoster.

Definition STANDING_ZCAP_TTL_MS : Z := 365 * 24 * 60 * 60 * 1000.
Definition ZCAP_RENEWAL_WINDOW_MS : Z := 30 * 24 * 60 * 60 * 1000.
Definition REVOCATION_CLOCK_SKEW_MS : Z := 10 * 60 * 1000.

(** The [expires] of a delegation, a string where there is one. *)
Definition zcapExpires (zcap : json) : option string := as_string (member "expires" zcap).

Section policy.
Context {host : JsHost} {readers : DocumentReaders} {signers : SignerReaders} {keys : WebvhKeys}.

(** A value that cannot be checked reads as expiring. *)
Definition zcapExpiring (expires : option string) (windowMs now : Z) : bool :=
  match truthy expires ≫= date_parse with
  | None => true
  | Some expiresAt => bool_decide (expiresAt - now ≤ windowMs)%Z
  end.

Definition delegationExpiresAt (zcap : json) : option Z := zcapExpires zcap ≫= date_parse.

(** A value that cannot be checked reads as still standing. *)
Definition delegationExpired (zcap : json) (now : Z) : bool :=
  match delegationExpiresAt zcap with
  | Some expiresAt => bool_decide (expiresAt + REVOCATION_CLOCK_SKEW_MS ≤ now)%Z
  | None => false
  end.

Definition delegationAtExpiry (zcap : json) (now : Z) : bool :=
  match delegationExpiresAt zcap with
  | Some expiresAt => bool_decide (expiresAt - REVOCATION_CLOCK_SKEW_MS ≤ now)%Z
  | None => false
  end.

(** The first of the proofs, or the one. *)
Definition firstDelegationProof (delegation : json) : option members :=
  js_object (match member "proof" delegation with
             | Some (JArr proofs) => head proofs
             | single => single
             end).

Definition delegationProofKeyId (delegation : json) : option string :=
  firstDelegationProof delegation ≫= λ proof, as_string (get_member "verificationMethod" proof).

(** The last link of the proof's chain, when it is embedded. *)
Definition embeddedParentCapability (zcap : json) : option json :=
  proof ← firstDelegationProof zcap;
  chain ← as_array (get_member "capabilityChain" proof);
  last_link ← last chain;
  _ ← js_object (Some last_link);
  Some last_link.

Definition delegationSignerGone (zcap : json) (doc : AccountDocument) : bool :=
  match delegationProofKeyId zcap with
  | None => false
  | Some delegationKeyId =>
      match vmFragmentOf delegationKeyId with
      | None => false
      | Some _ => negb (delegationKeyInDocument doc (Some delegationKeyId))
      end
  end.

Definition recordedZcapStale (doc : option AccountDocument) (delegationKeyId expires : option string)
    (retiringKeyMultibases : list string) (now : Z) : bool :=
  if zcapExpiring expires ZCAP_RENEWAL_WINDOW_MS now then true
  else
    let signerKey := delegationSignerKeyReader <$> doc in
    if match delegationKeyId with
       | Some id => existsb (λ key, sameSigner id key signerKey) retiringKeyMultibases
       | None => false
       end then true
    else
      match signerKey with
      | Some reader =>
          match delegationKeyId with
          | Some id => bool_decide (reader id = None)
          | None => true
          end
      | None => false
      end.

Definition standingZcapStale (zcap : json) (doc : option AccountDocument) (retiringKeyMultibases : list string) (now : Z) : bool :=
  recordedZcapStale doc (delegationProofKeyId zcap) (zcapExpires zcap) retiringKeyMultibases now.

(** ** The two polarities *)

(** What no server honors any more was stale long before. *)
Lemma expired_is_stale zcap doc retiring now :
  delegationExpired zcap now = true → standingZcapStale zcap doc retiring now = true.
Proof.
  unfold delegationExpired, standingZcapStale, recordedZcapStale, delegationExpiresAt, zcapExpiring.
  destruct (zcapExpires zcap) as [[|a s]|]; cbn; [done| |done]. destruct (date_parse _) as [at_|]; [|done].
  rewrite !bool_decide_eq_true. unfold REVOCATION_CLOCK_SKEW_MS. intros H.
  rewrite bool_decide_eq_true_2; [done|]. unfold ZCAP_RENEWAL_WINDOW_MS. lia.
Qed.

(** Time only ever makes a delegation staler, and deader. *)
Lemma stale_mono zcap doc retiring now now' :
  (now ≤ now')%Z → standingZcapStale zcap doc retiring now = true → standingZcapStale zcap doc retiring now' = true.
Proof.
  intros Hle. unfold standingZcapStale, recordedZcapStale.
  destruct (zcapExpiring _ _ now') eqn:He'; [done|]. destruct (zcapExpiring _ _ now) eqn:He; [|done].
  exfalso. revert He He'. unfold zcapExpiring. destruct (truthy _ ≫= date_parse); [|done].
  rewrite bool_decide_eq_true, bool_decide_eq_false. lia.
Qed.

Lemma expired_mono zcap now now' :
  (now ≤ now')%Z → delegationExpired zcap now = true → delegationExpired zcap now' = true.
Proof.
  intros Hle. unfold delegationExpired. destruct (delegationExpiresAt zcap); [|done].
  rewrite !bool_decide_eq_true. lia.
Qed.
End policy.

(** * The client annex: names, rungs and service entries

    [src/src/webvh/clientAnnexDid.ts] and
    [src/src/clientAnnex/generationRung.ts], and the document half of
    [src/src/clientAnnex/log.ts]: the pointer at the current generation, the
    generation delegation and the replica pointers, which all are service
    entries of a document. The multihash of a server's DID is the hash
    library's. *)

(** A value as the messages show it. *)
Definition in_quotes (s : string) : string := String (ascii_of_nat 34) (s ++ String (ascii_of_nat 34) EmptyString).

(** ** Generation ids and annex DIDs *)

Definition GENERATION_ID_PREFIX : string := "gen-".

(** [[A-Za-z0-9_-]]. *)
Definition is_id_char (a : ascii) : bool :=
  let n := nat_of_ascii a in
  bool_decide (65 ≤ n ≤ 90 ∨ 97 ≤ n ≤ 122 ∨ 48 ≤ n ≤ 57 ∨ n = 95 ∨ n = 45).

(** [/^gen-[A-Za-z0-9_-]{16}$/]. *)
Definition isGenerationId (generationId : string) : bool :=
  startsWith generationId GENERATION_ID_PREFIX && bool_decide (String.length generationId = 20) &&
  forallb is_id_char (String.list_ascii_of_string (String.substring 4 16 generationId)).

Definition assertGenerationId (generationId : string) : result () :=
  if isGenerationId generationId then Ok ()
  else mthrow (plain_error ("Not a generation id: " ++ in_quotes generationId ++ " (expected " ++ in_quotes GENERATION_ID_PREFIX ++ " plus 16 base64url characters).")).

Record ClientAnnexDidParts := mkAnnexParts { ap_spaceLocation : string; ap_spaceId : string; ap_generationId : string }.

(** [parts.join(':')]. *)
Definition join_colons (parts : list string) : string := String.concat ":" parts.

(** The last, the last but one and the last but two of the segments. *)
Definition splitClientAnnexDid (did : string) : option ClientAnnexDidParts :=
  let parts := split_at ":"%char did in
  match rev parts with
  | generationId :: spaceId :: marker :: _ =>
      match parts !! 3 with
      | Some host =>
          if decide (7 ≤ length parts ∧ parts !! 0 = Some "did" ∧ parts !! 1 = Some "webvh" ∧ marker = "space" ∧
                     spaceId ≠ "" ∧ host ≠ "")
          then Some (mkAnnexParts (join_colons (take (length parts - 4) (drop 3 parts))) spaceId generationId)
          else None
      | None => None
      end
  | _ => None
  end.

Definition parseClientAnnexDid (did : string) : option ClientAnnexDidParts :=
  parts ← splitClientAnnexDid did; if isGenerationId (ap_generationId parts) then Some parts else None.

Definition clientAnnexDidParts (did : string) : result ClientAnnexDidParts :=
  match splitClientAnnexDid did with
  | None => mthrow (plain_error ("Not a client annex did:webvh: " ++ in_quotes did ++ "."))
  | Some parts => assertGenerationId (ap_generationId parts);; Ok parts
  end.

Definition isClientAnnexDid (did : string) : bool := bool_decide (is_Some (parseClientAnnexDid did)).

(** ** The generation rung *)

Definition CLIENT_ANNEX_RUNG_INFO : string := "annex/rung/0".

(** A rung's seed and its key. *)
Record AnnexRung := mkAnnexRung { annex_seed : string; annex_key : string }.

Section rungs.
Context {writer : WebvhWriter} {hashes : HashLibrary}.
Definition clientAnnexRungSeed (ladderSeed : string) : string := ladderDerive ladderSeed CLIENT_ANNEX_RUNG_INFO.
Definition clientAnnexRung (ladderSeed : string) : result AnnexRung :=
  let seed := clientAnnexRungSeed ladderSeed in
  key ← updateKeyMultibase seed; Ok (mkAnnexRung seed key).
End rungs.

(** ** Service entries *)

Inductive ServiceEndpointShape := string_endpoint | map_endpoint.

(** [(doc.service ?? [])]. *)
Definition services_of (doc : AccountDocument) : list members := default [] (doc_service doc).

(** The types an entry states, one or several. *)
Definition service_types (entry : members) : list (option json) :=
  match get_member "type" entry with
  | Some (JArr types) => Some <$> types
  | type => [type]
  end.

Definition endpoint_shaped (endpoint : ServiceEndpointShape) (value : option json) : bool :=
  match endpoint, value with
  | string_endpoint, Some (JStr _) => true
  | map_endpoint, Some (JObj _) => true
  | _, _ => false
  end.

Definition serviceMatches (type : string) (endpoint : ServiceEndpointShape) (entry : members) : bool :=
  bool_decide (Some (JStr type) ∈ service_types entry) && endpoint_shaped endpoint (get_member "serviceEndpoint" entry).

Definition serviceEntriesWith (doc : AccountDocument) (type : string) (endpoint : ServiceEndpointShape) : list members :=
  filter (λ entry, serviceMatches type endpoint entry = true) (services_of doc).

Definition serviceEndpointOf (doc : AccountDocument) (type : string) (endpoint : ServiceEndpointShape) : option json :=
  head (serviceEntriesWith doc type endpoint) ≫= get_member "serviceEndpoint".

(** Every matching entry re-pointed in place, or one appended. *)
Definition withServiceEntry (doc : AccountDocument) (type : string) (endpoint : ServiceEndpointShape)
    (serviceEndpoint : json) (fresh : members) : list members :=
  match serviceEntriesWith doc type endpoint with
  | [] => services_of doc ++ [fresh]
  | _ => (λ entry, if serviceMatches type endpoint entry then set_member "serviceEndpoint" serviceEndpoint entry else entry) <$>
      services_of doc
  end.

Definition serviceEntry (id type : string) (serviceEndpoint : json) : members :=
  [("id", JStr id); ("type", JStr type); ("serviceEndpoint", serviceEndpoint)].

(** ** The pointer at the current generation *)

Definition DELEGATED_CLIENTS_SERVICE_TYPE : string := "https://w3id.org/byoe#DelegatedClients".
Definition DELEGATED_CLIENTS_SERVICE_FRAGMENT : string := "delegated-clients".

Definition delegatedClientsServiceEntry (accountDid clientAnnexDid : string) : members :=
  serviceEntry (accountDid ++ "#" ++ DELEGATED_CLIENTS_SERVICE_FRAGMENT) DELEGATED_CLIENTS_SERVICE_TYPE (JStr clientAnnexDid).

Definition delegatedClientsPointer (doc : AccountDocument) : option string :=
  as_string (serviceEndpointOf doc DELEGATED_CLIENTS_SERVICE_TYPE string_endpoint).

Definition servicesPointedAtClientAnnex (doc : AccountDocument) (accountDid clientAnnexDid : string) : list members :=
  withServiceEntry doc DELEGATED_CLIENTS_SERVICE_TYPE string_endpoint (JStr clientAnnexDid)
    (delegatedClientsServiceEntry accountDid clientAnnexDid).

Definition delegatedClientsPointerHistory (log : DIDLog) : list string :=
  js_dedup (omap (λ entry, state entry ≫= delegatedClientsPointer) log).

Record AnnexSpace := mkAnnexSpace { as_did : string; as_baseServerUrl : string; as_spaceId : string }.

(** One entry per Space, the first that named it. *)
Fixpoint spacesOf `{!WebvhAddresses} (found : list AnnexSpace) (dids : list string) : result (list AnnexSpace) :=
  match dids with
  | [] => Ok found
  | pointed :: dids =>
      match clientAnnexDidParts pointed with
      | Throw _ => spacesOf found dids
      | Ok parts =>
          if decide (ap_spaceId parts ∈ as_spaceId <$> found) then spacesOf found dids
          else
            location ← didWebvhLogLocation pointed;
            spacesOf (found ++ [mkAnnexSpace pointed (baseServerUrl location) (ap_spaceId parts)]) dids
      end
  end.

Definition delegatedClientsSpaceHistory `{!WebvhAddresses} (log : DIDLog) : result (list AnnexSpace) :=
  spacesOf [] (delegatedClientsPointerHistory log).

(** ** The generation delegation *)

Definition GENERATION_DELEGATION_SERVICE_TYPE : string := "https://w3id.org/byoe#GenerationDelegation".
Definition GENERATION_DELEGATION_SERVICE_FRAGMENT : string := "generation-delegation".

Definition generationDelegationServiceEntry (clientAnnexDid : string) (delegation : json) : members :=
  serviceEntry (clientAnnexDid ++ "#" ++ GENERATION_DELEGATION_SERVICE_FRAGMENT) GENERATION_DELEGATION_SERVICE_TYPE delegation.

Definition embeddedGenerationDelegation (doc : AccountDocument) : option json :=
  serviceEndpointOf doc GENERATION_DELEGATION_SERVICE_TYPE map_endpoint.

Definition withGenerationDelegationEntry (doc : AccountDocument) (clientAnnexDid : string) (delegation : json) : list members :=
  withServiceEntry doc GENERATION_DELEGATION_SERVICE_TYPE map_endpoint delegation
    (generationDelegationServiceEntry clientAnnexDid delegation).

(** One delegation per id, in log order; one with no id is left out. *)
Fixpoint delegationsFrom (seen : list string) (log : DIDLog) : result (list json) :=
  match log with
  | [] => Ok []
  | entry :: log =>
      match state entry with
      | None => mthrow (JsError "TypeError" "Cannot read properties of undefined (reading 'service')")
      | Some doc =>
          match embeddedGenerationDelegation doc with
          | None => delegationsFrom seen log
          | Some embedded =>
              match as_string (member "id" embedded) with
              | None => delegationsFrom seen log
              | Some id =>
                  if decide (id ∈ seen) then delegationsFrom seen log
                  else rest ← delegationsFrom (seen ++ [id]) log; Ok (embedded :: rest)
              end
          end
      end
  end.
Definition generationDelegationHistory (log : DIDLog) : result (list json) := delegationsFrom [] log.

(** ** Replica pointers *)

Definition REPLICA_SERVER_SERVICE_TYPE : string := "https://w3id.org/pws#ReplicaServer".
Definition REPLICA_SERVER_SPACE_ID : string := "server".

(** The base64url multihash of SHA-256 of a text. *)
Class ReplicaDigest := { replicaDigest : string → string }.

Section replicas.
Context {addresses : WebvhAddresses} {digest : ReplicaDigest}.

Definition assertReplicaServerDid (serverDid : string) : result () :=
  let refusal := JsError "TypeError" ("A replica server DID is a did:webvh whose path is space:" ++ REPLICA_SERVER_SPACE_ID ++ ":" ++ ID_COLLECTION_id ++ "; got " ++ in_quotes serverDid ++ ".") in
  match didWebvhLogLocation serverDid with
  | Ok location =>
      if decide (AccountLog.spaceId location = REPLICA_SERVER_SPACE_ID ∧ AccountLog.collectionId location = ID_COLLECTION_id)
      then Ok () else mthrow refusal
  | Throw _ => mthrow refusal
  end.

Definition replicaServerServiceFragment (serverDid : string) : string := "replica-" ++ replicaDigest serverDid.

Definition replicaServerServiceEntry (clientAnnexDid serverDid : string) : result members :=
  assertReplicaServerDid serverDid;;
  Ok (serviceEntry (clientAnnexDid ++ "#" ++ replicaServerServiceFragment serverDid) REPLICA_SERVER_SERVICE_TYPE (JStr serverDid)).

Definition replicaServerPointers (doc : AccountDocument) : list string :=
  js_dedup (omap (λ entry, as_string (get_member "serviceEndpoint" entry))
    (serviceEntriesWith doc REPLICA_SERVER_SERVICE_TYPE string_endpoint)).

Definition replicaServerPointerStands (doc : AccountDocument) (serverDid : string) : bool :=
  bool_decide (serverDid ∈ replicaServerPointers doc).

Definition replicaServersMissing (doc : AccountDocument) (serverDids : list string) : list string :=
  filter (λ serverDid, serverDid ∉ replicaServerPointers doc) (js_dedup serverDids).

(** An entry id the document already carries under another meaning. *)
Definition taken_id (doc : AccountDocument) (entry : members) : bool :=
  bool_decide (get_member "id" entry ∈ get_member "id" <$> services_of doc).

Definition text_member (name : string) (entry : members) : string := default EmptyString (as_string (get_member name entry)).

Definition replicaPointerInstaller (serverDids : list string) (doc : AccountDocument) (clientAnnexDid : string) :
    result (list members) :=
  mapM assertReplicaServerDid serverDids;;
  added ← mapM (replicaServerServiceEntry clientAnnexDid) (replicaServersMissing doc serverDids);
  match head (filter (λ entry, taken_id doc entry = true) added) with
  | Some entry =>
      mthrow (plain_error ("client annex: the document already carries a service entry at " ++ in_quotes (text_member "id" entry) ++
        " that is not the replica pointer at " ++ in_quotes (text_member "serviceEndpoint" entry) ++ "; nothing was written."))
  | None => Ok added
  end.
End replicas.

(** What the installing entry writes beside the delegation. *)
Abbreviation InstalledServices := (AccountDocument → string → result (list members)).

Definition withInstalledEntries (doc : AccountDocument) (clientAnnexDid : string) (delegation : json)
    (installedServices : option InstalledServices) : result (list members) :=
  installed ← match installedServices with Some install => install doc clientAnnexDid | None => Ok [] end;
  Ok (withGenerationDelegationEntry doc clientAnnexDid delegation ++ installed).
