(* ===== verification/AnnexLog.v ===== *)
(** * A log store over the storage client

    [src/src/webvh/pwsIdStore.ts] and [src/src/space/plaintextCollection.ts]:
    the store seam of [LogStore] for one Collection's [did.jsonl], each member
    a resource call of the storage client. The storage client's calls and
    [JSON.stringify] of a document are parameters. *)

From S2P Require Import Prelude Json JsText ConnEntry CeremonyEvents AccountDocument LadderRungs AccountLog LogStore KeyRotation LadderIndex LadderInventory ClientListing ClientRevocation AccountEntry AnnexDocument.

(** A Collection a handle names: its Space, its id, and the capability it is
    invoked under. It is opened as plaintext. *)
Record CollectionHandle := mkHandle { h_spaceId : string; h_collectionId : string; h_capability : option json }.

Definition plaintextCollection (spaceId collectionId : string) (capability : option json) : CollectionHandle :=
  mkHandle spaceId collectionId capability.

(** The resource calls of [@interop/pws-client], on a handle and an id. *)
Class PwsResources `{!WebvhWriter} (W : Type) := {
  getTextWithEtag : CollectionHandle → string → comp W (option (string * option string));
  putBytes : CollectionHandle → string → string → string → option string → bool → comp W (option (option string));
  stringifyDocument : WebDoc → string
}.

Section store.
Context {W : Type} {writer : WebvhWriter} {addresses : WebvhAddresses} {pws : PwsResources W}.

(** [typeof content === 'string' ? content : JSON.stringify(content)]. *)
Definition serialized (content : Content) : string :=
  match content with LogText text => text | WebDocument doc => stringifyDocument doc end.

Definition pwsWebvhLogStore (spaceId collectionId : string) (pinStore : ResourceLogPinStore W) (capability : option json) :
    WebvhIdStore W :=
  let handle := plaintextCollection spaceId collectionId capability in
  mkIdStore (getTextWithEtag handle)
    (λ put, putBytes handle (put_resource put) (serialized (put_content put)) (put_contentType put)
      (put_ifMatch put) (put_ifNoneMatch put))
    pinStore (logResourcePinId spaceId collectionId).
End store.

(** * The client annex's log

    The entries and ceremonies of [src/src/clientAnnex/log.ts]: a generation's
    genesis, a visit's enrollment, the renewal of the generation delegation,
    the commitment and the retirement of a credential's rung, and the account
    log's pointer at the generation. A generation's log store is the seam of
    [LogStore]; an annex has no projection. The did:webvh library's [createDID]
    and [updateDID], the delegating client and the storage client's Space
    calls are parameters. *)

(** ** The writer-admission rule *)

Definition ClientAnnexRungUncommittedError (message : string) : js_error :=
  JsError "ClientAnnexRungUncommittedError" message.

Section admission.
Context {writer : WebvhWriter} {hashes : HashLibrary} {keys : WebvhKeys}.

Definition rungAdmitted (key : string) (updateKeys nextKeyHashes : list string) : bool :=
  bool_decide (key ∈ updateKeys) || bool_decide (deriveNextKeyHash key ∈ nextKeyHashes).

Definition logCommitsRung (ladderSeed : string) (updateKeys nextKeyHashes : list string) : result bool :=
  rung ← clientAnnexRung ladderSeed; Ok (rungAdmitted (annex_key rung) updateKeys nextKeyHashes).

Definition clientAnnexRungHash (ladderSeed : string) : result string :=
  rung ← clientAnnexRung ladderSeed; Ok (deriveNextKeyHash (annex_key rung)).

Definition standingRungHashesOf (updateKeys nextKeyHashes : list string) : list string :=
  js_dedup (nextKeyHashes ++ (deriveNextKeyHash <$> updateKeys)).

Definition admitActingRung (ladderSeed : string) (updateKeys nextKeyHashes : list string) (message : string) : result AnnexRung :=
  rung ← clientAnnexRung ladderSeed;
  if rungAdmitted (annex_key rung) updateKeys nextKeyHashes then Ok rung
  else mthrow (ClientAnnexRungUncommittedError message).

(** ** What each entry states

    The update keys and the commitments of a genesis, of an entry the acting
    rung signs, and of the two that change whom the log admits. *)

(** The acting rung reveals at its first write. *)
Definition revealing (updateKeys : list string) (actingKey : string) : list string := js_dedup (updateKeys ++ [actingKey]).

Definition genesisHashes (ownHash : string) (standingRungHashes : list string) : list string :=
  js_dedup (ownHash :: standingRungHashes).

Definition withoutKey (updateKeys : list string) (retiredKey : string) : list string :=
  filter (λ key, key ≠ retiredKey) updateKeys.
Definition withoutHash (nextKeyHashes : list string) (retiredHash : string) : list string :=
  filter (λ hash, hash ≠ retiredHash) nextKeyHashes.
End admission.

(** What delegates to a generation. *)
Abbreviation Minter W := (string → comp W json).

Section annex.
Context {W : Type} {readers : DocumentReaders} {resolver : WebvhResolver} {writer : WebvhWriter}
  {hashes : HashLibrary} {keys : WebvhKeys} {host : JsHost} {signers : SignerReaders}.
Variable updateDID : UpdateDID.
Implicit Types (store : WebvhIdStore W) (published : PublishedWebvhLog).

(** ** Reading *)

Definition readClientAnnexLogOrThrow store (expectedDid : option string) : comp W PublishedWebvhLog :=
  readPublishedLogOrThrow store expectedDid
    (Some "client annex: did.jsonl is missing; the generation was never minted or has been collected.").

Definition readClientAnnexLogOrAbsent store (expectedDid : option string) : comp W (option PublishedWebvhLog) :=
  readPublishedLog store expectedDid true.

(** The head a ceremony builds on: one already read, or a read. *)
Definition annexHead store (alreadyRead : option PublishedWebvhLog) (expectedDid : option string) : comp W PublishedWebvhLog :=
  match alreadyRead with
  | Some head => lift (assertPublishedLogDid head expectedDid)
  | None => readClientAnnexLogOrThrow store expectedDid
  end.

Definition clientAnnexRungAdmitted store (ladderSeed : string) (expectedDid : option string) : comp W bool :=
  published ← readClientAnnexLogOrAbsent store expectedDid;
  match published with
  | None => mret false
  | Some published => lift (logCommitsRung ladderSeed (pub_updateKeys published) (pub_nextKeyHashes published))
  end.

(** ** Publishing

    The entry the acting rung signs over a head, put on the condition of that
    read. Commitments are always stated, never inherited. *)
Definition publishAnnexEntry store published (acting : AnnexRung) (document : option DocumentFields)
    (services : result (option (list members))) (updateKeys nextKeyHashes : list string) : comp W Updated :=
  signer ← lift (updateKeySigner (annex_seed acting));
  services ← lift services;
  updated ← lift (updateDID (pub_log published) (pub_meta published) signer document services updateKeys nextKeyHashes);
  putLogResource store (upd_log updated) (pub_etag published) false;;
  mret updated.

(** ** A visit's enrollment *)

Record Enrollment := mkEnrollment { enr_did : string; enr_doc : AccountDocument; enr_log : DIDLog }.

Record EnrollOptions := mkEnroll {
  eo_store : WebvhIdStore W;
  eo_ladderSeed : string;
  eo_transientKeyMultibase : string;
  eo_services : option (list members);
  eo_mintGenerationDelegation : option (Minter W);
  eo_installedServices : option InstalledServices;
  eo_expectedDid : option string
}.

(** The services an enrollment states: those supplied, or the delegation
    installed with the generation's first method. *)
Definition enrolledServices (o : EnrollOptions) published (existing : list ResolvedKeyAgreementMethod) :
    comp W (option (list members)) :=
  match eo_services o, eo_mintGenerationDelegation o with
  | None, Some mint =>
      if decide (existing = [] ∧ embeddedGenerationDelegation (pub_doc published) = None) then
        delegation ← mint (pub_did published);
        services ← lift (withInstalledEntries (pub_doc published) (pub_did published) delegation (eo_installedServices o));
        mret (Some services)
      else mret None
  | services, _ => mret services
  end.

(** The visit's method joins two relations; the other three stay. *)
Definition enrolledFields published (existing : list ResolvedKeyAgreementMethod) (vmId transientKey : string) : DocumentFields :=
  mkFields (existing ++ [mkMethod (Some vmId) (Some MULTIKEY_VM_TYPE) (Some (pub_did published)) (Some transientKey) None None])
    (λ relation,
      let standing := relationIds (relationOf (pub_doc published) relation) in
      match relation with
      | capabilityInvocation | capabilityDelegation => js_dedup (standing ++ [vmId])
      | _ => standing
      end).

Definition transientVmId (did transientKey : string) : string := did ++ "#" ++ transientKey.

Definition enrollClientAnnexTransientClientOnce (o : EnrollOptions) (alreadyRead : option PublishedWebvhLog) : comp W Enrollment :=
  published ← annexHead (eo_store o) alreadyRead (eo_expectedDid o);
  let vmId := transientVmId (pub_did published) (eo_transientKeyMultibase o) in
  let existing := default [] (verificationMethod (pub_doc published)) in
  if decide (Some vmId ∈ method_id <$> existing) then
    mret (mkEnrollment (pub_did published) (pub_doc published) (pub_log published))
  else
    rung ← lift (admitActingRung (eo_ladderSeed o) (pub_updateKeys published) (pub_nextKeyHashes published)
      "client annex: the log commits neither this credential's rung-0 key nor its hash; a credential bound mid-generation cannot write the annex until a committed writer commits its hash.");
    lift (assertCarryOverCommitments published);;
    services ← enrolledServices o published existing;
    updated ← publishAnnexEntry (eo_store o) published rung
      (Some (enrolledFields published existing vmId (eo_transientKeyMultibase o))) (Ok services)
      (revealing (pub_updateKeys published) (annex_key rung)) (pub_nextKeyHashes published);
    mret (mkEnrollment (upd_did updated) (upd_doc updated) (upd_log updated)).

Definition enrollClientAnnexTransientClient (o : EnrollOptions) (threadedHead : option PublishedWebvhLog) : comp W Enrollment :=
  withThreadedHeadOnce threadedHead (enrollClientAnnexTransientClientOnce o).

(** ** The ceremony of a visit: enroll, then read the pointer again *)

Record VisitOptions := mkVisit {
  vo_readAccountDocument : comp W AccountDocument;
  vo_storeForGenerationId : string → WebvhIdStore W;
  vo_ladderSeed : string;
  vo_transientKeyMultibase : string;
  vo_mintGenerationDelegation : option (Minter W);
  vo_installedServices : option InstalledServices;
  vo_maxRounds : nat
}.

Definition visitEnroll (o : VisitOptions) (clientAnnexDid generationId : string) : EnrollOptions :=
  mkEnroll (vo_storeForGenerationId o generationId) (vo_ladderSeed o) (vo_transientKeyMultibase o) None
    (vo_mintGenerationDelegation o) (vo_installedServices o) (Some clientAnnexDid).

(** The rounds left; only the first rides the threaded head, and only for the
    generation the pointer names. *)
Fixpoint enrollRounds (o : VisitOptions) (rounds : nat) (threadedHead : option PublishedWebvhLog) (accountDoc : AccountDocument) :
    comp W (string * Enrollment) :=
  match rounds with
  | 0 => mthrow (plain_error ("client annex: the delegated-clients pointer kept moving across " ++ pretty (vo_maxRounds o) ++ " enrollment rounds; giving up."))
  | S rounds =>
      match delegatedClientsPointer accountDoc with
      | None => mthrow (plain_error "client annex: the account document carries no delegated-clients service entry; no generation exists to enroll into.")
      | Some clientAnnexDid =>
          parts ← lift (clientAnnexDidParts clientAnnexDid);
          let threaded := match threadedHead with
                          | Some head => if decide (pub_did head = clientAnnexDid) then Some head else None
                          | None => None
                          end in
          enrolled ← enrollClientAnnexTransientClient (visitEnroll o clientAnnexDid (ap_generationId parts)) threaded;
          accountDoc ← vo_readAccountDocument o;
          if decide (delegatedClientsPointer accountDoc = Some clientAnnexDid) then mret (clientAnnexDid, enrolled)
          else enrollRounds o rounds None accountDoc
      end
  end.

Definition enrollTransientClient (o : VisitOptions) (threadedHead : option PublishedWebvhLog) : comp W (string * Enrollment) :=
  accountDoc ← vo_readAccountDocument o;
  enrollRounds o (vo_maxRounds o) threadedHead accountDoc.

(** ** Renewing the generation delegation *)

Record RenewOptions := mkRenew {
  ro_store : WebvhIdStore W;
  ro_ladderSeed : string;
  ro_mintGenerationDelegation : Minter W;
  ro_expectedDid : option string;
  ro_accountDoc : option AccountDocument;
  ro_retiringKeyMultibases : list string;
  ro_installedServices : option InstalledServices;
  ro_now : Z
}.

Record Ensured := mkEnsured { ens_delegation : json; ens_renewed : bool; ens_published : option PublishedWebvhLog }.

Definition ensureGenerationDelegationCurrentOnce (o : RenewOptions) (alreadyRead : option PublishedWebvhLog) : comp W Ensured :=
  published ← annexHead (ro_store o) alreadyRead (ro_expectedDid o);
  let standing := embeddedGenerationDelegation (pub_doc published) in
  match match standing with
        | Some zcap => if standingZcapStale zcap (ro_accountDoc o) (ro_retiringKeyMultibases o) (ro_now o) then None else Some zcap
        | None => None
        end with
  | Some current => mret (mkEnsured current false (Some published))
  | None =>
      rung ← lift (admitActingRung (ro_ladderSeed o) (pub_updateKeys published) (pub_nextKeyHashes published)
        "client annex: the log commits neither this credential's rung-0 key nor its hash; a credential bound mid-generation cannot renew the generation delegation until a committed writer commits its hash.");
      lift (assertCarryOverCommitments published);;
      fresh ← ro_mintGenerationDelegation o (pub_did published);
      publishAnnexEntry (ro_store o) published rung None
        (entries ← withInstalledEntries (pub_doc published) (pub_did published) fresh (ro_installedServices o); Ok (Some entries))
        (revealing (pub_updateKeys published) (annex_key rung)) (pub_nextKeyHashes published);;
      mret (mkEnsured fresh true None)
  end.

Definition ensureGenerationDelegationCurrent (o : RenewOptions) (threadedHead : option PublishedWebvhLog) : comp W Ensured :=
  withThreadedHeadOnce threadedHead (ensureGenerationDelegationCurrentOnce o).

(** ** Retiring and committing a credential's rung *)

Definition retireClientAnnexRungOnce store (retiredLadderSeed actingLadderSeed : string) (expectedDid : option string) : comp W bool :=
  published ← readClientAnnexLogOrThrow store expectedDid;
  retired ← lift (clientAnnexRung retiredLadderSeed);
  let remainingKeys := withoutKey (pub_updateKeys published) (annex_key retired) in
  let remainingHashes := withoutHash (pub_nextKeyHashes published) (deriveNextKeyHash (annex_key retired)) in
  if decide (length remainingKeys = length (pub_updateKeys published) ∧
             length remainingHashes = length (pub_nextKeyHashes published)) then mret false
  else
    acting ← lift (admitActingRung actingLadderSeed remainingKeys remainingHashes
      "client annex: the log commits neither the acting credential's rung-0 key nor its hash (or it is the retired rung itself); the strike needs a distinct committed writer -- swap the generation instead.");
    lift (assertCarryOverCommitments published);;
    publishAnnexEntry store published acting None (Ok None) (revealing remainingKeys (annex_key acting)) remainingHashes;;
    mret true.

Definition retireClientAnnexRung store (retiredLadderSeed actingLadderSeed : string) (expectedDid : option string) : comp W bool :=
  withLogConflictRetry (retireClientAnnexRungOnce store retiredLadderSeed actingLadderSeed expectedDid).

Definition commitClientAnnexRungOnce store (boundLadderSeed actingLadderSeed : string) (expectedDid : option string) : comp W bool :=
  published ← readClientAnnexLogOrThrow store expectedDid;
  bound ← lift (clientAnnexRung boundLadderSeed);
  let boundHash := deriveNextKeyHash (annex_key bound) in
  if decide (annex_key bound ∈ pub_updateKeys published ∨ boundHash ∈ pub_nextKeyHashes published) then mret false
  else
    acting ← lift (admitActingRung actingLadderSeed (pub_updateKeys published) (pub_nextKeyHashes published)
      "client annex: the log commits neither the acting credential's rung-0 key nor its hash; a commit entry needs a committed writer -- the bound credential stays locked out until a committed writer commits it.");
    lift (assertCarryOverCommitments published);;
    publishAnnexEntry store published acting None (Ok None)
      (revealing (pub_updateKeys published) (annex_key acting)) (pub_nextKeyHashes published ++ [boundHash]);;
    mret true.

Definition commitClientAnnexRung store (boundLadderSeed actingLadderSeed : string) (expectedDid : option string) : comp W bool :=
  withLogConflictRetry (commitClientAnnexRungOnce store boundLadderSeed actingLadderSeed expectedDid).
End annex.
