(* ===== verification/AnnexGenesis.v ===== *)
(** * A generation's genesis and the pointer at it

    The rest of [src/src/clientAnnex/log.ts]: the auxiliary Space, the mint of
    a generation and its genesis entry, the re-point of the account document,
    the delegations' minters, and the revocation that treats a dead delegation
    as revoked. The did:webvh library's [createDID], the random suffix, the
    delegating client and the storage client's Space calls are parameters. *)

From S2P Require Import Prelude Json JsText ConnEntry CeremonyEvents AccountDocument LadderRungs AccountLog LogStore KeyRotation LadderIndex LadderInventory ClientListing ClientRevocation AccountEntry UserKeyRoster AnnexDocument AnnexLog.
From Stdlib Require Import Ascii.

(** ** What the storage client and the libraries answer *)

(** A Space description: its own type list, and the ETag the read carried. *)
Record SpaceDescriptionRead := mkSpaceRead { sd_type : option (list string); sd_etag : option string }.

(** The options of a delegation; its expiry in milliseconds. With no
    capability, it is of the root of its target. *)
Record DelegateOptions := mkDelegate {
  dg_capability : option string;
  dg_invocationTarget : string;
  dg_controller : string;
  dg_allowedActions : list string;
  dg_expires : Z
}.
Abbreviation Delegator W := (DelegateOptions → comp W json).

(** The result of [createDID]; its DID and document may be missing. *)
Record Created := mkCreated {
  cr_log : DIDLog;
  cr_did : option string;
  cr_doc : option AccountDocument;
  cr_meta : ResolutionMeta
}.

(** The address, the path, the signer, the update keys, the commitments and
    the identifier of the document. *)
Definition CreateDID `{!WebvhWriter} : Type :=
  string → list string → Signer → list string → list string → string → result Created.

Class AnnexHost (W : Type) := {
  describeWithEtag : string → comp W (option SpaceDescriptionRead);
  (** The Space created under a controller, as [AuxiliarySpace] among its types. *)
  configureSpace : string → string → list string → comp W SpaceDescriptionRead;
  (** A Collection created under its own name. *)
  configureCollection : CollectionHandle → string → comp W ();
  (** Twelve random bytes as base64url. *)
  randomSuffix : comp W string;
  spaceUrlById : string → string → string;
  rootCapabilityId : string → string;
  (** [new URL(target).pathname], and [decodeURIComponent]. *)
  pathnameOf : string → result string;
  decodeURIComponent : string → result string
}.

Definition CLIENT_ANNEX_SPACE_TYPE : list string := ["AuxiliarySpace"; "DelegatedClientsSpace"; "Space"].
Definition DELEGATED_CLIENTS_SPACE_TYPE : string := "DelegatedClientsSpace".

Section genesis.
Context {W : Type} {readers : DocumentReaders} {resolver : WebvhResolver} {writer : WebvhWriter}
  {hashes : HashLibrary} {keys : WebvhKeys} {host : JsHost} {signers : SignerReaders}
  {addresses : WebvhAddresses} {pws : PwsResources W} {annex_host : AnnexHost W}.
Variables (updateDID : UpdateDID) (createDID : CreateDID) (logger : Logger W).

Definition mintGenerationId : comp W string :=
  suffix ← randomSuffix; mret (GENERATION_ID_PREFIX ++ suffix)%string.

Definition clientAnnexLogStore (spaceId generationId : string) (pinStore : ResourceLogPinStore W) (capability : option json) :
    result (WebvhIdStore W) :=
  assertGenerationId generationId;; Ok (pwsWebvhLogStore spaceId generationId pinStore capability).

(** ** The genesis entry *)

Record Genesis := mkGenesis { gen_log : DIDLog; gen_did : string; gen_doc : AccountDocument; gen_meta : ResolutionMeta }.

Definition createClientAnnexLog (baseServerUrl spaceId generationId updateKey : string) (nextKeyHashes : list string)
    (signer : Signer) : result Genesis :=
  assertGenerationId generationId;;
  if decide (deriveNextKeyHash updateKey ∉ nextKeyHashes) then
    mthrow (plain_error "client annex genesis: `nextKeyHashes` must include the minting credential's own rung-0 hash (the carry-over commitment), or no later entry could ever re-state the revealed key.")
  else
    controllerTemplate ← didWebvhControllerTemplate baseServerUrl spaceId (Some generationId);
    created ← createDID baseServerUrl (didWebvhLogPaths spaceId generationId) signer [updateKey] nextKeyHashes controllerTemplate;
    match truthy (cr_did created), cr_doc created with
    | Some did, Some doc => Ok (mkGenesis (cr_log created) did doc (cr_meta created))
    | _, _ => mthrow (plain_error "client annex genesis: createDID returned no DID document.")
    end.

(** ** The auxiliary Space *)

Definition typedAnnexSpace (spaceId : string) (read : SpaceDescriptionRead) : result SpaceDescriptionRead :=
  if decide (DELEGATED_CLIENTS_SPACE_TYPE ∈ default [] (sd_type read)) then Ok read
  else mthrow (plain_error ("The Space " ++ in_quotes spaceId ++ " exists but is not typed as the delegated-clients auxiliary Space; its type is immutable, so it cannot hold client-annex generations.")).

Definition ensureClientAnnexSpace (spaceId controller : string) : comp W SpaceDescriptionRead :=
  read ← describeWithEtag spaceId;
  match read with
  | None => written ← configureSpace spaceId controller CLIENT_ANNEX_SPACE_TYPE; lift (typedAnnexSpace spaceId written)
  | Some read => lift (typedAnnexSpace spaceId read)
  end.

(** ** Minting a generation *)

(** Where a mint writes. *)
Record MintPlace := mkPlace {
  mp_baseServerUrl : string;
  mp_spaceId : string;
  mp_pinStore : ResourceLogPinStore W;
  mp_capability : option json
}.

Record MintedGeneration := mkMinted { min_generationId : string; min_published : PublishedWebvhLog; min_space : option SpaceDescriptionRead }.

Definition publishClientAnnexGenesis (place : MintPlace) (generationId updateKey : string) (nextKeyHashes : list string)
    (signer : Signer) : comp W PublishedWebvhLog :=
  configureCollection (plaintextCollection (mp_spaceId place) generationId (mp_capability place)) generationId;;
  created ← lift (createClientAnnexLog (mp_baseServerUrl place) (mp_spaceId place) generationId updateKey nextKeyHashes signer);
  store ← lift (clientAnnexLogStore (mp_spaceId place) generationId (mp_pinStore place) (mp_capability place));
  etag ← putLogResource store (gen_log created) None true;
  let parameters := currentLogParameters (gen_log created) in
  mret (mkPublished (gen_log created) (gen_did created) (gen_doc created) parameters.1 parameters.2 (gen_meta created) etag).

Definition mintClientAnnexGeneration (place : MintPlace) (controller updateKey : string) (nextKeyHashes : list string)
    (signer : Signer) : comp W MintedGeneration :=
  spaceDescription ← ensureClientAnnexSpace (mp_spaceId place) controller;
  generationId ← mintGenerationId;
  published ← publishClientAnnexGenesis
    (mkPlace (mp_baseServerUrl place) (mp_spaceId place) (mp_pinStore place) None) generationId updateKey nextKeyHashes signer;
  mret (mkMinted generationId published (Some spaceDescription)).

Definition mintCredentialClientAnnexGeneration (place : MintPlace) (controller ladderSeed : string)
    (standingRungHashes : list string) : comp W MintedGeneration :=
  spaceDescription ← (match mp_capability place with
                      | None => read ← ensureClientAnnexSpace (mp_spaceId place) controller; mret (Some read)
                      | Some _ => mret None
                      end);
  generationId ← mintGenerationId;
  rung ← lift (clientAnnexRung ladderSeed);
  signer ← lift (updateKeySigner (annex_seed rung));
  published ← publishClientAnnexGenesis place generationId (annex_key rung)
    (genesisHashes (deriveNextKeyHash (annex_key rung)) standingRungHashes) signer;
  mret (mkMinted generationId published spaceDescription).

(** ** Delegations *)

Definition DELEGATED_CLIENTS_DELEGATION_ACTIONS : list string := ["GET"; "PUT"; "POST"].
Definition DELEGATED_CLIENTS_DELEGATION_TTL_MS : Z := STANDING_ZCAP_TTL_MS.
Definition GENERATION_DELEGATION_ACTIONS : list string := ["GET"; "HEAD"; "POST"; "PUT"; "DELETE"].
Definition GENERATION_DELEGATION_TTL_MS : Z := STANDING_ZCAP_TTL_MS.

Definition mintDelegatedClientsDelegation (delegate : Delegator W) (baseServerUrl clientAnnexSpaceId controller : string) (now : Z) :
    comp W json :=
  let spaceUrl := spaceUrlById baseServerUrl clientAnnexSpaceId in
  delegate (mkDelegate (Some (rootCapabilityId spaceUrl)) spaceUrl controller DELEGATED_CLIENTS_DELEGATION_ACTIONS
    (now + DELEGATED_CLIENTS_DELEGATION_TTL_MS)%Z).

Definition delegatedClientsDelegationMinter (doc : AccountDocument) (delegate : Delegator W) (baseServerUrl : string)
    (now : comp W Z) (controller : string) : comp W (option json) :=
  match truthy (delegatedClientsPointer doc) with
  | None => mret None
  | Some clientAnnexDid =>
      match clientAnnexDidParts clientAnnexDid with
      | Throw _ => mret None
      | Ok parts =>
          time ← now;
          minted ← mintDelegatedClientsDelegation delegate baseServerUrl (ap_spaceId parts) controller time;
          mret (Some minted)
      end
  end.

(** The Space of a delegation whose target ends in [/space/<id>/]. *)
Definition delegatedClientsDelegationSpaceId (delegation : json) : result (option string) :=
  match as_string (member "invocationTarget" delegation) with
  | None => Ok None
  | Some target =>
      match pathnameOf target with
      | Throw _ => Ok None
      | Ok path =>
          match rev (split_at "/"%char path) with
          | EmptyString :: spaceId :: marker :: _ :: _ =>
              if decide (marker = "space" ∧ spaceId ≠ "") then decoded ← decodeURIComponent spaceId; Ok (Some decoded)
              else Ok None
          | _ => Ok None
          end
      end
  end.

Definition mintGenerationDelegation (delegate : Delegator W) (baseServerUrl spaceId clientAnnexDid : string) (now : Z) : comp W json :=
  lift (clientAnnexDidParts clientAnnexDid);;
  let spaceUrl := spaceUrlById baseServerUrl spaceId in
  delegate (mkDelegate (Some (rootCapabilityId spaceUrl)) spaceUrl clientAnnexDid GENERATION_DELEGATION_ACTIONS
    (now + GENERATION_DELEGATION_TTL_MS)%Z).

(** A grant never outlives its parent. *)
Definition clampGrantExpires (ttlMs : Z) (delegation : json) (now : Z) : result Z :=
  match date_parse (default "" (zcapExpires delegation)) with
  | None => mthrow (plain_error "generation delegation: no parseable `expires`; refusing to mint a grant under an unbounded parent.")
  | Some parentExpires => Ok (Z.min (now + ttlMs) parentExpires)
  end.

(** ** Revoking *)

Inductive RevokeGenerationDelegationOutcome := revoked | already_revoked | revoke_expired | signer_gone.

Definition revokeTreatingAlreadyRevokedAsSuccess (revoke : json → comp W ()) (delegation : json) (now : Z)
    (accountDoc : AccountDocument) : comp W RevokeGenerationDelegationOutcome :=
  if delegationExpired delegation now then mret revoke_expired
  else
    try_catch (revoke delegation;; mret revoked) (λ err,
      if decide (err_name err = "AlreadyRevokedError") then mret already_revoked
      else if decide (err_name err = "ValidationError") then
        if delegationAtExpiry delegation now then mret revoke_expired
        else if delegationSignerGone delegation accountDoc then mret signer_gone
        else mthrow err
      else mthrow err).

(** ** The pointer *)

Definition DelegatedClientsPointerMovedError : js_error :=
  JsError "DelegatedClientsPointerMovedError" "client annex: the delegated-clients pointer moved; the re-point was not written.".

Record PointerEntryOutcome := mkPointed {
  pe_did : string;
  pe_doc : AccountDocument;
  pe_published : PublishedWebvhLog;
  pe_rung : option LadderRung
}.

Record PointerOptions := mkPointerOptions {
  po_idStore : WebvhIdStore W;
  po_signer : AccountLogSigner;
  po_clientAnnexDid : string;
  po_expectedDid : option string;
  po_projectionStore : option (WebvhIdStore W);
  po_expectedPointer : option string
}.

(** A ladder's committed rung reveals, and the next rung is committed. *)
Definition pointerCommitHashes (signer : AccountLogSigner) (parts : option LadderParts) : result (option (list string)) :=
  match signer, parts with
  | ladder ladderSeed, Some p =>
      match part_state p with
      | committed_rung => next ← ladderRung ladderSeed (rung_index (part_rung p) + 1); Ok (Some [deriveNextKeyHash (rung_keyMultibase next)])
      | _ => Ok None
      end
  | _, _ => Ok None
  end.

Definition pointerBuild (o : PointerOptions) (ctx : BuildContext) : comp W (option AccountEntryFields) :=
  let published := ctx_published ctx in
  let standing := delegatedClientsPointer (pub_doc published) in
  if decide (standing = Some (po_clientAnnexDid o)) then concludeUnchanged ctx;; mret None
  else if decide (is_Some (po_expectedPointer o) ∧ standing ≠ po_expectedPointer o) then mthrow DelegatedClientsPointerMovedError
  else
    commitHashes ← lift (pointerCommitHashes (po_signer o) (ctx_parts ctx));
    mret (Some (mkEntryFields None None commitHashes None
      (Some (servicesPointedAtClientAnnex (pub_doc published) (pub_did published) (po_clientAnnexDid o))))).

(** The build answers nothing exactly where it settled on the head it was
    handed. *)
Definition setDelegatedClientsPointerOnce (o : PointerOptions) (alreadyRead : option PublishedWebvhLog) : comp W PointerEntryOutcome :=
  lift (clientAnnexDidParts (po_clientAnnexDid o));;
  outcome ← signAccountEntry updateDID logger (mkEntryOptions (po_idStore o) (LogSigner (po_signer o)) (pointerBuild o) None
    alreadyRead (po_expectedDid o) None
    (Some "did:webvh: did.jsonl is missing; nothing to point at a client annex.")
    (Some "re-pointing the delegated-clients entry") (po_projectionStore o) false);
  let rung := part_rung <$> out_parts outcome in
  match out_updated outcome with
  | None => mret (mkPointed (pub_did (out_published outcome)) (pub_doc (out_published outcome)) (out_published outcome) rung)
  | Some updated => mret (mkPointed (upd_did updated) (upd_doc updated) (accountEntryHead outcome) rung)
  end.

Definition setDelegatedClientsPointer (o : PointerOptions) (threadedHead : option PublishedWebvhLog) : comp W PointerEntryOutcome :=
  withThreadedHeadOnce threadedHead (setDelegatedClientsPointerOnce o).

(** ** Mint, install, point *)

Definition mintPointedClientAnnexGeneration {T} (place : MintPlace) (controller ladderSeed : string) (mint : Minter W)
    (standingRungHashes : option (list string)) (installedServices : option InstalledServices)
    (beforePointerEntry : option (MintedGeneration → comp W ())) (point : string → comp W T) (now : Z) :
    comp W (string * json * T) :=
  minted ← mintCredentialClientAnnexGeneration place controller ladderSeed (default [] standingRungHashes);
  let published := min_published minted in
  store ← lift (clientAnnexLogStore (mp_spaceId place) (min_generationId minted) (mp_pinStore place) (mp_capability place));
  ensured ← ensureGenerationDelegationCurrent updateDID
    (mkRenew store ladderSeed mint (Some (pub_did published)) None [] installedServices now)
    (match pub_etag published with Some _ => Some published | None => None end);
  match beforePointerEntry with Some run => run minted | None => mret () end;;
  pointed ← point (pub_did published);
  mret (pub_did published, ens_delegation ensured, pointed).
End genesis.
