(* ===== verification/AnnexDiscipline.v ===== *)
(** * Who a generation admits

    The writer rule of [src/src/clientAnnex/log.ts] and the swap of
    [src/src/clientAnnex/gc.ts], over the parameters of an annex log alone:
    which entry each ceremony states over which head, against the plain set of
    the credentials that may write. *)

From S2P Require Import Prelude Json JsText ConnEntry CeremonyEvents AccountDocument LadderRungs AccountLog LogStore KeyRotation LadderIndex LadderInventory ClientListing ClientRevocation AccountEntry EntryDiscipline UserKeyRoster AnnexDocument AnnexLog AnnexGenesis.

(** What the ceremonies do, by the rung keys they name: a visit or a renewal,
    the commitment of a bound credential, the strike of a retired one, and a
    swap that retires credentials. *)
Inductive annex_event :=
  | visits (acting : string)
  | commits (bound acting : string)
  | strikes (retired acting : string)
  | swaps (minter : string) (retired : list string).

(** A log's update keys and its commitments. *)
Abbreviation parameters := (list string * list string)%type.

Section admission.
Context {keys : WebvhKeys}.

(** ** The entries *)

(** An entry the acting rung signs over a head: refused where the log does
    not admit it, or has lost a carry-over commitment. *)
Definition acted (acting : string) (admitting : parameters) (head entry : parameters) : option parameters :=
  if rungAdmitted acting admitting.1 admitting.2 && negb (uncommitted head.2 head.1) then Some entry else None.

Definition entry_of (event : annex_event) (head : parameters) : option parameters :=
  let '(A, C) := head in
  match event with
  | visits acting => acted acting head head (revealing A acting, C)
  | commits bound acting =>
      if rungAdmitted bound A C then Some head
      else acted acting head head (revealing A acting, C ++ [deriveNextKeyHash bound])
  | strikes retired acting =>
      let A' := withoutKey A retired in
      let C' := withoutHash C (deriveNextKeyHash retired) in
      if decide (length A' = length A ∧ length C' = length C) then Some head
      else acted acting (A', C') head (revealing A' acting, C')
  | swaps minter retired =>
      if decide (deriveNextKeyHash minter ∈ deriveNextKeyHash <$> retired) then None
      else Some ([minter], genesisHashes (deriveNextKeyHash minter)
             (filter (λ hash, hash ∉ deriveNextKeyHash <$> retired) (standingRungHashesOf A C)))
  end.

Definition genesis_of (minter : string) : parameters := ([minter], genesisHashes (deriveNextKeyHash minter) []).

Fixpoint entries_after (events : list annex_event) (head : parameters) : option parameters :=
  match events with [] => Some head | event :: events => head ← entry_of event head; entries_after events head end.

(** ** The specification: a set of writers *)

Definition writers_after (event : annex_event) (writers : gset string) : option (gset string) :=
  match event with
  | visits acting => if decide (acting ∈ writers) then Some writers else None
  | commits bound acting =>
      if decide (bound ∈ writers) then Some writers
      else if decide (acting ∈ writers) then Some ({[bound]} ∪ writers) else None
  | strikes retired acting =>
      if decide (retired ∉ writers) then Some writers
      else if decide (acting ∈ writers ∧ acting ≠ retired) then Some (writers ∖ {[retired]}) else None
  | swaps minter retired =>
      if decide (minter ∈ retired) then None else Some ({[minter]} ∪ (writers ∖ list_to_set retired))
  end.

Fixpoint writers_of (events : list annex_event) (writers : gset string) : option (gset string) :=
  match events with [] => Some writers | event :: events => writers ← writers_after event writers; writers_of events writers end.

(** ** The simulation *)

Context `{!Inj (=) (=) deriveNextKeyHash}.

(** The parameters admit exactly these writers, and carry every key over. *)
Definition admits (writers : gset string) (head : parameters) : Prop :=
  carried head.1 head.2 ∧ ∀ key, deriveNextKeyHash key ∈ head.2 ↔ key ∈ writers.

Lemma rungAdmitted_spec key A C : rungAdmitted key A C = true ↔ key ∈ A ∨ deriveNextKeyHash key ∈ C.
Proof. unfold rungAdmitted. by rewrite orb_true_iff, !bool_decide_eq_true. Qed.

Lemma admits_rung writers head key : admits writers head → (rungAdmitted key head.1 head.2 = true ↔ key ∈ writers).
Proof. intros [Hc Hw]. rewrite rungAdmitted_spec, <- Hw. split; [intros [H|H]; auto|auto]. Qed.

Lemma admits_not_rung writers head key : admits writers head → (rungAdmitted key head.1 head.2 = false ↔ key ∉ writers).
Proof. intros Hw. rewrite <- (admits_rung _ _ _ Hw). by destruct (rungAdmitted _ _ _). Qed.

Lemma elem_revealing key A acting : key ∈ revealing A acting ↔ key ∈ A ∨ key = acting.
Proof. unfold revealing. rewrite elem_of_js_dedup. set_solver. Qed.

Lemma acted_spec writers head admitting acting entry writers' :
  carried head.1 head.2 → admits writers admitting →
  (acting ∈ writers → admits writers' entry) →
  match acted acting admitting head entry with
  | Some entry' => acting ∈ writers ∧ entry' = entry ∧ admits writers' entry
  | None => acting ∉ writers
  end.
Proof.
  intros Hc Hw He. unfold acted. apply carried_reflect in Hc. rewrite Hc. cbn [negb]. rewrite andb_true_r.
  destruct (rungAdmitted acting admitting.1 admitting.2) eqn:Ha.
  - apply (admits_rung _ _ _ Hw) in Ha. auto.
  - by apply (admits_not_rung _ _ _ Hw) in Ha.
Qed.

Lemma visits_admit writers A C acting : admits writers (A, C) → acting ∈ writers → admits writers (revealing A acting, C).
Proof.
  intros [Hc Hw] Ha. split; [|done]. intros key. cbn. rewrite elem_revealing. intros [Hk| ->]; [by apply Hc|by apply Hw].
Qed.

Lemma commits_admit writers A C bound acting :
  admits writers (A, C) → acting ∈ writers →
  admits ({[bound]} ∪ writers) (revealing A acting, C ++ [deriveNextKeyHash bound]).
Proof.
  intros [Hc Hw] Ha. split.
  - intros key. cbn. rewrite elem_revealing, elem_of_app. intros [Hk| ->]; left; [by apply Hc|by apply Hw].
  - intros key. cbn. rewrite elem_of_app, list_elem_of_singleton, elem_of_union, elem_of_singleton. cbn in Hw. rewrite Hw.
    split; [intros [H|H%(inj _)]; auto|intros [->|H]; auto].
Qed.

Lemma strike_remains writers A C retired :
  admits writers (A, C) →
  admits (writers ∖ {[retired]}) (withoutKey A retired, withoutHash C (deriveNextKeyHash retired)).
Proof.
  intros [Hc Hw]. unfold withoutKey, withoutHash. split.
  - intros key [Hne Hk]%list_elem_of_filter. cbn. apply list_elem_of_filter. split; [|by apply Hc].
    by intros ?%(inj deriveNextKeyHash).
  - intros key. cbn. rewrite list_elem_of_filter, elem_of_difference, elem_of_singleton. cbn in Hw. rewrite Hw.
    split; [intros [Hne Hk]; split; [done|by intros ->]|intros [Hk Hne]; split; [by intros ?%(inj deriveNextKeyHash)|done]].
Qed.

(** Nothing struck is nothing to strike. *)
Lemma strike_noop writers A C retired :
  admits writers (A, C) →
  (length (withoutKey A retired) = length A ∧ length (withoutHash C (deriveNextKeyHash retired)) = length C ↔ retired ∉ writers).
Proof.
  intros [Hc Hw]. cbn in Hc, Hw. rewrite <- Hw. unfold withoutKey, withoutHash. split.
  - intros [_ HC] Hin. pose proof (length_filter_lt (λ hash, hash ≠ deriveNextKeyHash retired) C (deriveNextKeyHash retired) Hin).
    naive_solver lia.
  - intros Hn. rewrite !filter_all; [done|..]; intros x Hx ->; [by apply Hn|by apply Hn, Hc].
Qed.

Lemma swaps_admit writers A C minter retired :
  admits writers (A, C) → minter ∉ retired →
  admits ({[minter]} ∪ (writers ∖ list_to_set retired))
    ([minter], genesisHashes (deriveNextKeyHash minter)
       (filter (λ hash, hash ∉ deriveNextKeyHash <$> retired) (standingRungHashesOf A C))).
Proof.
  intros [Hc Hw] Hm. cbn in Hc, Hw. split.
  - intros key ->%list_elem_of_singleton. cbn [fst snd]. unfold genesisHashes. rewrite elem_of_js_dedup. by left.
  - intros key. cbn [fst snd]. unfold genesisHashes, standingRungHashesOf.
    rewrite elem_of_js_dedup, elem_of_cons, list_elem_of_filter, elem_of_js_dedup, elem_of_app, elem_of_union, elem_of_singleton,
      elem_of_difference, elem_of_list_to_set, <- Hw, !(list_elem_of_fmap_inj _ _ key).
    split; [intros [H%(inj _)|[Hr [H|H]]]; auto|intros [->|[H Hr]]; auto].
Qed.

(** One ceremony refuses exactly when the specification does, and otherwise
    leaves parameters that admit the specified writers. *)
Lemma event_refines event writers head :
  admits writers head →
  match entry_of event head, writers_after event writers with
  | Some head', Some writers' => admits writers' head'
  | None, None => True
  | _, _ => False
  end.
Proof.
  intros Hw. pose proof Hw as [Hc _]. destruct head as [A C], event as [acting|bound acting|retired acting|minter retired].
  - cbn [entry_of writers_after]. pose proof (acted_spec writers (A, C) (A, C) acting (revealing A acting, C) writers Hc Hw
      (visits_admit _ _ _ _ Hw)) as Hs. destruct (acted _ _ _ _); case_decide; naive_solver.
  - cbn [entry_of writers_after]. destruct (rungAdmitted bound A C) eqn:Hb.
    { apply (admits_rung _ _ _ Hw) in Hb. by rewrite decide_True. }
    apply (admits_not_rung _ _ _ Hw) in Hb. rewrite decide_False by done.
    pose proof (acted_spec writers (A, C) (A, C) acting _ _ Hc Hw (commits_admit _ _ _ bound _ Hw)) as Hs.
    destruct (acted _ _ _ _); case_decide; naive_solver.
  - cbn [entry_of writers_after]. pose proof (strike_noop _ _ _ retired Hw) as Hno.
    case_decide as Hl; [apply Hno in Hl; by rewrite decide_True|].
    rewrite decide_False by (intros Hn; by apply Hl, Hno).
    pose proof (strike_remains _ _ _ retired Hw) as Hr.
    pose proof (acted_spec _ (A, C) _ acting _ _ Hc Hr (visits_admit _ _ _ acting Hr)) as Hs.
    destruct (acted _ _ _ _); case_decide; set_solver.
  - cbn [entry_of writers_after]. rewrite (decide_ext _ (minter ∈ retired)) by (by rewrite list_elem_of_fmap_inj).
    case_decide; [done|]. by apply swaps_admit.
Qed.

Lemma genesis_admits minter : admits {[minter]} (genesis_of minter).
Proof.
  unfold genesis_of. split; cbn [fst snd]; [intros key ->%list_elem_of_singleton|intros key; rewrite elem_of_singleton];
    unfold genesisHashes; rewrite elem_of_js_dedup, list_elem_of_singleton; [done|].
  split; [apply (inj _)|by intros ->].
Qed.

Lemma history_refines events writers head :
  admits writers head →
  match entries_after events head, writers_of events writers with
  | Some head', Some writers' => admits writers' head'
  | None, None => True
  | _, _ => False
  end.
Proof.
  revert writers head. induction events as [|event events IH]; intros writers head Hw; [done|]. cbn.
  pose proof (event_refines event _ _ Hw) as He.
  destruct (entry_of event head), (writers_after event writers); cbn; [by apply IH|done..].
Qed.

(** C29: from its genesis on, whatever visits, commitments, strikes and swaps
    follow in whatever order, the annex log admits exactly the credentials a
    plain set of writers would: a ceremony is refused exactly when its acting
    credential is not in the set (a strike, when it is the retired one), and
    otherwise the parameters it states admit the set with the bound one
    added, the retired ones removed, or the minter added. The carry-over
    commitments are never lost on the way, so no ceremony is refused for
    them. *)
Theorem annex_admission_is_exact minter events :
  match entries_after events (genesis_of minter), writers_of events {[minter]} with
  | Some head, Some writers =>
      uncommitted head.2 head.1 = false ∧ ∀ key, rungAdmitted key head.1 head.2 = true ↔ key ∈ writers
  | None, None => True
  | _, _ => False
  end.
Proof.
  pose proof (history_refines events _ _ (genesis_admits minter)) as Hh.
  destruct (entries_after _ _), (writers_of _ _); [|done..].
  split; [apply carried_reflect, Hh|]. intros key. by apply admits_rung.
Qed.
End admission.

(** * What the annex ceremonies write

    Every ceremony of [AnnexLog], whatever its store answers and however often
    it retries, puts only the entries the writer rule specifies over the head
    it read, and reports only what stands there. *)

Section discipline.
Context {W : Type} {readers : DocumentReaders} {resolver : WebvhResolver} {writer : WebvhWriter}
  {hashes : HashLibrary} {keys : WebvhKeys} {host : JsHost} {signers : SignerReaders}.
Variable updateDID : UpdateDID.

Definition head_parameters (published : PublishedWebvhLog) : parameters :=
  (pub_updateKeys published, pub_nextKeyHashes published).

(** An entry over a head that states an event's parameters, signed by the key
    of the event's acting rung. *)
Definition states_event (ladderSeed : string) (event : string → annex_event) (published : PublishedWebvhLog)
    (document : option DocumentFields) (services : option (list members)) (updated : Updated) : Prop :=
  ∃ rung signer A C,
    clientAnnexRung ladderSeed = Ok rung ∧ updateKeySigner (annex_seed rung) = Ok signer ∧
    entry_of (event (annex_key rung)) (head_parameters published) = Some (A, C) ∧
    updateDID (pub_log published) (pub_meta published) signer document services A C = Ok updated.

(** An entry over a head, of any of these shapes, may be put. *)
Definition may_put (I : W → Prop) (K : PublishedWebvhLog → Prop) (store : WebvhIdStore W)
    (allowed : PublishedWebvhLog → Updated → Prop) : Prop :=
  ∀ published updated, K published → allowed published updated →
    keeps I (log_put store (upd_log updated) (pub_etag published)).

Section ceremonies.
Variables (I : W → Prop) (K : PublishedWebvhLog → Prop).
Implicit Types (store : WebvhIdStore W).

(** ** The pieces *)

Lemma head_keeps store alreadyRead expectedDid :
  store_keeps I K store → (∀ head, alreadyRead = Some head → K head) →
  triple I (annexHead store alreadyRead expectedDid) (λ published w, K published ∧ I w) (λ _, I).
Proof.
  intros Hs HK. unfold annexHead. destruct alreadyRead as [head|]; [|by apply readOrThrow_keeps].
  apply triple_lift. intros w Hw. unfold assertPublishedLogDid. destruct expectedDid; [case_decide|]; auto.
Qed.

Lemma admit_spec ladderSeed A C message rung :
  admitActingRung ladderSeed A C message = Ok rung →
  clientAnnexRung ladderSeed = Ok rung ∧ rungAdmitted (annex_key rung) A C = true.
Proof.
  unfold admitActingRung. rewrite result_bind_ok. intros (r & Hr & H). destruct (rungAdmitted _ _ _) eqn:Ha; [|done].
  by injection H as ->.
Qed.

Lemma carry_spec published : assertCarryOverCommitments published = Ok () → uncommitted (pub_nextKeyHashes published) (pub_updateKeys published) = false.
Proof. unfold assertCarryOverCommitments. by destruct (uncommitted _ _). Qed.

Lemma admitted_triple ladderSeed A C message :
  triple I (lift (admitActingRung ladderSeed A C message))
    (λ rung w, (clientAnnexRung ladderSeed = Ok rung ∧ rungAdmitted (annex_key rung) A C = true) ∧ I w) (λ _, I).
Proof.
  apply triple_lift. intros w Hw. destruct (admitActingRung _ _ _ _) as [rung|] eqn:H; [|done]. by apply admit_spec in H.
Qed.

Lemma carried_triple published :
  triple I (lift (assertCarryOverCommitments published))
    (λ _ w, uncommitted (pub_nextKeyHashes published) (pub_updateKeys published) = false ∧ I w) (λ _, I).
Proof. apply triple_lift. intros w Hw. destruct (assertCarryOverCommitments published) as [[]|] eqn:H; [|done]. by apply carry_spec in H. Qed.

(** Publishing, where the entry may be put. *)
Lemma publish_keeps store published rung document services A C (allowed : Updated → Prop) :
  store_keeps I K store →
  (∀ signer stated updated, updateKeySigner (annex_seed rung) = Ok signer → services = Ok stated →
     updateDID (pub_log published) (pub_meta published) signer document stated A C = Ok updated → allowed updated) →
  (∀ updated, allowed updated → keeps I (log_put store (upd_log updated) (pub_etag published))) →
  triple I (publishAnnexEntry updateDID store published rung document services A C) (λ updated w, allowed updated ∧ I w) (λ _, I).
Proof.
  intros Hs Ha Hp. unfold publishAnnexEntry.
  eapply (triple_bind _ _ _ (λ signer w, updateKeySigner (annex_seed rung) = Ok signer ∧ I w)).
  { apply triple_lift. intros w Hw. by destruct (updateKeySigner _). }
  intros signer. apply triple_pure. intros Hsg.
  eapply (triple_bind _ _ _ (λ stated w, services = Ok stated ∧ I w)).
  { apply triple_lift. intros w Hw. by destruct services. }
  intros stated. apply triple_pure. intros Hst.
  eapply (triple_bind _ _ _ (λ updated w, allowed updated ∧ I w)).
  { apply triple_lift. intros w Hw. destruct (updateDID _ _ _ _ _ _ _) as [updated|] eqn:Hu; [|done]. eauto. }
  intros updated. apply triple_pure. intros Hal.
  eapply (triple_bind _ _ _ (λ _, I)); [by eapply putLog_keeps, Hp|]. intros _. by apply triple_ret.
Qed.

Lemma threaded_keeps {A} (head : option PublishedWebvhLog) (attempt : option PublishedWebvhLog → comp W A) (Q : A → W → Prop) :
  (∀ alreadyRead, alreadyRead = head ∨ alreadyRead = None → triple I (attempt alreadyRead) Q (λ _, I)) →
  triple I (withThreadedHeadOnce head attempt) Q (λ _, I).
Proof.
  intros Ha. unfold withThreadedHeadOnce, withLogConflictRetry. destruct head as [head|]; [|apply retry_keeps, Ha; by right].
  eapply triple_try; [apply Ha; by left|]. intros e. case_match; [by apply triple_throw|]. apply retry_keeps, Ha. by right.
Qed.

(** ** A visit *)

(** What a visit's entry carries beside the parameters. *)
Definition enrolls (o : EnrollOptions (W:=W)) (published : PublishedWebvhLog) (updated : Updated) : Prop :=
  ∃ services, states_event (eo_ladderSeed o) visits published
    (Some (enrolledFields published (default [] (verificationMethod (pub_doc published)))
      (transientVmId (pub_did published) (eo_transientKeyMultibase o)) (eo_transientKeyMultibase o))) services updated.

(** The client stands: its method was there, or an entry that adds it was
    put. *)
Definition enrolled_truly (o : EnrollOptions (W:=W)) (result : Enrollment) : Prop :=
  ∃ published, K published ∧
    ((Some (transientVmId (pub_did published) (eo_transientKeyMultibase o)) ∈
        method_id <$> default [] (verificationMethod (pub_doc published)) ∧
      result = mkEnrollment (pub_did published) (pub_doc published) (pub_log published)) ∨
     ∃ updated, enrolls o published updated ∧ result = mkEnrollment (upd_did updated) (upd_doc updated) (upd_log updated)).

Definition minter_keeps (mint : option (Minter W)) : Prop := ∀ m did, mint = Some m → keeps I (m did).

Lemma enrolledServices_keeps o published existing :
  minter_keeps (eo_mintGenerationDelegation o) → keeps I (enrolledServices o published existing).
Proof.
  intros Hm. unfold enrolledServices. destruct (eo_services o); [apply keeps_ret|].
  destruct (eo_mintGenerationDelegation o) as [mint|] eqn:Hmint; [|apply keeps_ret]. case_decide; [|apply keeps_ret].
  apply keeps_bind; [by apply (Hm mint)|]. intros delegation. apply keeps_bind; [apply keeps_lift|]. intros services. apply keeps_ret.
Qed.

Lemma enroll_keeps o head :
  store_keeps I K (eo_store o) → (∀ published, head = Some published → K published) → minter_keeps (eo_mintGenerationDelegation o) →
  may_put I K (eo_store o) (enrolls o) →
  triple I (enrollClientAnnexTransientClient updateDID o head) (λ result w, enrolled_truly o result ∧ I w) (λ _, I).
Proof.
  intros Hs HK Hm Hp. apply threaded_keeps. intros alreadyRead Har. unfold enrollClientAnnexTransientClientOnce.
  eapply triple_bind; [apply head_keeps; [done|naive_solver]|].
  intros published. apply triple_pure. intros Hpub. case_decide as Hin.
  { apply triple_ret. intros w Hw. split; [|done]. exists published. eauto. }
  eapply triple_bind; [apply admitted_triple|]. intros rung. apply triple_pure. intros [Hr Had].
  eapply triple_bind; [apply carried_triple|]. intros []. apply triple_pure. intros Hc.
  eapply (triple_bind _ _ _ (λ _, I)); [by apply enrolledServices_keeps|]. intros services.
  eapply triple_bind.
  - apply (publish_keeps _ _ _ _ _ _ _ (enrolls o published)); [done| |by intros; apply Hp].
    intros signer stated updated Hsg Hst Hu. exists stated, rung, signer. do 2 eexists. split_and!; [done..| |exact Hu].
    cbn. unfold acted. cbn. by rewrite Had, Hc.
  - intros updated. apply triple_pure. intros He. apply triple_ret. intros w Hw. split; [|done]. exists published. eauto.
Qed.

(** ** A renewal *)

Definition renews (o : RenewOptions (W:=W)) (delegation : json) (published : PublishedWebvhLog) (updated : Updated) : Prop :=
  ∃ services,
    withInstalledEntries (pub_doc published) (pub_did published) delegation (ro_installedServices o) = Ok services ∧
    states_event (ro_ladderSeed o) visits published None (Some services) updated.

(** The delegation stands and is not stale, or an entry that embeds it was
    put. *)
Definition renewed_truly (o : RenewOptions (W:=W)) (result : Ensured) : Prop :=
  ∃ published, K published ∧
    ((embeddedGenerationDelegation (pub_doc published) = Some (ens_delegation result) ∧
      standingZcapStale (ens_delegation result) (ro_accountDoc o) (ro_retiringKeyMultibases o) (ro_now o) = false ∧
      ens_renewed result = false ∧ ens_published result = Some published) ∨
     ∃ updated, renews o (ens_delegation result) published updated ∧ ens_renewed result = true ∧ ens_published result = None).

Lemma renew_keeps o head :
  store_keeps I K (ro_store o) → (∀ published, head = Some published → K published) →
  (∀ did, keeps I (ro_mintGenerationDelegation o did)) →
  may_put I K (ro_store o) (λ published updated, ∃ delegation, renews o delegation published updated) →
  triple I (ensureGenerationDelegationCurrent updateDID o head) (λ result w, renewed_truly o result ∧ I w) (λ _, I).
Proof.
  intros Hs HK Hm Hp. apply threaded_keeps. intros alreadyRead Har. unfold ensureGenerationDelegationCurrentOnce.
  eapply triple_bind; [apply head_keeps; [done|naive_solver]|].
  intros published. apply triple_pure. intros Hpub.
  destruct (match embeddedGenerationDelegation (pub_doc published) with Some _ => _ | None => _ end) as [current|] eqn:Hcur.
  { destruct (embeddedGenerationDelegation (pub_doc published)) as [zcap|] eqn:Hz; [|done].
    destruct (standingZcapStale _ _ _ _) eqn:Hst; [done|]. injection Hcur as ->.
    apply triple_ret. intros w Hw. split; [|done]. exists published. split; [done|]. by left. }
  clear Hcur. eapply triple_bind; [apply admitted_triple|]. intros rung. apply triple_pure. intros [Hr Had].
  eapply triple_bind; [apply carried_triple|]. intros []. apply triple_pure. intros Hc.
  eapply (triple_bind _ _ _ (λ _, I)); [apply Hm|]. intros fresh.
  eapply triple_bind.
  - apply (publish_keeps _ _ _ _ _ _ _ (renews o fresh published)); [done| |by intros; apply Hp; [|exists fresh]].
    intros signer stated updated Hsg Hstd Hu. rewrite result_bind_ok in Hstd. destruct Hstd as (services & Hsv & [= <-]).
    exists services. split; [done|]. exists rung, signer. do 2 eexists. split_and!; [done..| |exact Hu].
    cbn. unfold acted. cbn. by rewrite Had, Hc.
  - intros updated. apply triple_pure. intros He. apply triple_ret. intros w Hw. split; [|done]. exists published.
    split; [done|]. right. by exists updated.
Qed.

(** ** A strike and a commitment *)

Definition puts_event (ladderSeed : string) (event : string → annex_event) (published : PublishedWebvhLog) (updated : Updated) : Prop :=
  states_event ladderSeed event published None None updated.

(** Nothing to do: the event, at any acting rung, leaves the head's
    parameters. *)
Definition event_done (event : string → annex_event) (published : PublishedWebvhLog) : Prop :=
  ∀ acting, entry_of (event acting) (head_parameters published) = Some (head_parameters published).

Definition changed_truly (ladderSeed : string) (event : string → annex_event) (changed : bool) : Prop :=
  ∃ published, K published ∧
    if changed then ∃ updated, puts_event ladderSeed event published updated else event_done event published.

Lemma rung_triple ladderSeed : triple I (lift (clientAnnexRung ladderSeed)) (λ rung w, clientAnnexRung ladderSeed = Ok rung ∧ I w) (λ _, I).
Proof. apply triple_lift. intros w Hw. by destruct (clientAnnexRung _). Qed.

(** The retired or bound rung's event. *)
Definition rung_event (event : string → string → annex_event) (otherSeed : string) (acting : string) : annex_event :=
  match clientAnnexRung otherSeed with Ok other => event (annex_key other) acting | Throw _ => visits acting end.

Lemma strike_keeps store retiredLadderSeed actingLadderSeed expectedDid :
  store_keeps I K store →
  may_put I K store (puts_event actingLadderSeed (rung_event strikes retiredLadderSeed)) →
  triple I (retireClientAnnexRung updateDID store retiredLadderSeed actingLadderSeed expectedDid)
    (λ struck w, changed_truly actingLadderSeed (rung_event strikes retiredLadderSeed) struck ∧ I w) (λ _, I).
Proof.
  intros Hs Hp. apply retry_keeps. unfold retireClientAnnexRungOnce.
  eapply triple_bind; [by apply readOrThrow_keeps|]. intros published. apply triple_pure. intros Hpub.
  eapply triple_bind; [apply rung_triple|]. intros retired. apply triple_pure. intros Hret. case_decide as Hl.
  { apply triple_ret. intros w Hw. split; [|done]. exists published. split; [done|]. intros acting. unfold rung_event. rewrite Hret.
    cbn. by rewrite decide_True. }
  eapply triple_bind; [apply admitted_triple|]. intros rung. apply triple_pure. intros [Hr Had].
  eapply triple_bind; [apply carried_triple|]. intros []. apply triple_pure. intros Hc.
  eapply triple_bind.
  - apply (publish_keeps _ _ _ _ _ _ _ (puts_event actingLadderSeed (rung_event strikes retiredLadderSeed) published));
      [done| |by intros; apply Hp].
    intros signer stated updated Hsg [= <-] Hu. exists rung, signer. do 2 eexists. split_and!; [done..| |exact Hu].
    unfold rung_event. rewrite Hret. cbn. rewrite decide_False by done. unfold acted. cbn. by rewrite Had, Hc.
  - intros updated. apply triple_pure. intros He. apply triple_ret. intros w Hw. split; [|done]. exists published. eauto.
Qed.

Lemma commit_keeps store boundLadderSeed actingLadderSeed expectedDid :
  store_keeps I K store →
  may_put I K store (puts_event actingLadderSeed (rung_event commits boundLadderSeed)) →
  triple I (commitClientAnnexRung updateDID store boundLadderSeed actingLadderSeed expectedDid)
    (λ committed w, changed_truly actingLadderSeed (rung_event commits boundLadderSeed) committed ∧ I w) (λ _, I).
Proof.
  intros Hs Hp. apply retry_keeps. unfold commitClientAnnexRungOnce.
  eapply triple_bind; [by apply readOrThrow_keeps|]. intros published. apply triple_pure. intros Hpub.
  eapply triple_bind; [apply rung_triple|]. intros bound. apply triple_pure. intros Hb. case_decide as Hin.
  { apply rungAdmitted_spec in Hin. apply triple_ret. intros w Hw. split; [|done]. exists published. split; [done|].
    intros acting. unfold rung_event. rewrite Hb. cbn. by rewrite Hin. }
  assert (rungAdmitted (annex_key bound) (pub_updateKeys published) (pub_nextKeyHashes published) = false) as Hna.
  { apply not_true_is_false. by rewrite rungAdmitted_spec. }
  eapply triple_bind; [apply admitted_triple|]. intros rung. apply triple_pure. intros [Hr Had].
  eapply triple_bind; [apply carried_triple|]. intros []. apply triple_pure. intros Hc.
  eapply triple_bind.
  - apply (publish_keeps _ _ _ _ _ _ _ (puts_event actingLadderSeed (rung_event commits boundLadderSeed) published));
      [done| |by intros; apply Hp].
    intros signer stated updated Hsg [= <-] Hu. exists rung, signer. do 2 eexists. split_and!; [done..| |exact Hu].
    unfold rung_event. rewrite Hb. cbn. rewrite Hna. unfold acted. cbn. by rewrite Had, Hc.
  - intros updated. apply triple_pure. intros He. apply triple_ret. intros w Hw. split; [|done]. exists published. eauto.
Qed.

(** ** All four *)

Inductive annex_ceremony :=
  | visit (o : EnrollOptions (W:=W)) (head : option PublishedWebvhLog)
  | renewal (o : RenewOptions (W:=W)) (head : option PublishedWebvhLog)
  | strike (store : WebvhIdStore W) (retiredLadderSeed actingLadderSeed : string) (expectedDid : option string)
  | commitment (store : WebvhIdStore W) (boundLadderSeed actingLadderSeed : string) (expectedDid : option string).

Inductive ceremony_outcome := enrolled_as (e : Enrollment) | ensured (e : Ensured) | changed (done : bool).

Definition run_ceremony (c : annex_ceremony) : comp W ceremony_outcome :=
  match c with
  | visit o head => e ← enrollClientAnnexTransientClient updateDID o head; mret (enrolled_as e)
  | renewal o head => e ← ensureGenerationDelegationCurrent updateDID o head; mret (ensured e)
  | strike store retired acting did => b ← retireClientAnnexRung updateDID store retired acting did; mret (changed b)
  | commitment store bound acting did => b ← commitClientAnnexRung updateDID store bound acting did; mret (changed b)
  end.

Definition ceremony_store (c : annex_ceremony) : WebvhIdStore W :=
  match c with visit o _ => eo_store o | renewal o _ => ro_store o | strike store _ _ _ | commitment store _ _ _ => store end.

Definition ceremony_head (c : annex_ceremony) : option PublishedWebvhLog :=
  match c with visit _ head | renewal _ head => head | _ => None end.

(** The delegation the ceremony may mint. *)
Definition ceremony_minter (c : annex_ceremony) : option (Minter W) :=
  match c with visit o _ => eo_mintGenerationDelegation o | renewal o _ => Some (ro_mintGenerationDelegation o) | _ => None end.

(** What it may put over a head. *)
Definition ceremony_puts (c : annex_ceremony) (published : PublishedWebvhLog) (updated : Updated) : Prop :=
  match c with
  | visit o _ => enrolls o published updated
  | renewal o _ => ∃ delegation, renews o delegation published updated
  | strike _ retired acting _ => puts_event acting (rung_event strikes retired) published updated
  | commitment _ bound acting _ => puts_event acting (rung_event commits bound) published updated
  end.

(** What its report says. *)
Definition reports_truly (c : annex_ceremony) (outcome : ceremony_outcome) : Prop :=
  match c, outcome with
  | visit o _, enrolled_as e => enrolled_truly o e
  | renewal o _, ensured e => renewed_truly o e
  | strike _ retired acting _, changed b => changed_truly acting (rung_event strikes retired) b
  | commitment _ bound acting _, changed b => changed_truly acting (rung_event commits bound) b
  | _, _ => False
  end.

(** C30: each of the four annex ceremonies (a visit's enrollment, the renewal
    of the generation delegation, the strike of a retired credential's rung
    and the commitment of a bound one), over any store, any answers and any
    number of lost races, puts only entries that state the update keys and
    commitments the admission rule specifies for it over the very head the put
    is conditioned on, signed by the acting credential's own rung, with the
    method or the delegation it is for; and it returns only when such an entry
    was put or the head it read already shows the result. *)
Theorem annex_ceremonies_write_as_specified c :
  store_keeps I K (ceremony_store c) → (∀ published, ceremony_head c = Some published → K published) →
  minter_keeps (ceremony_minter c) → may_put I K (ceremony_store c) (ceremony_puts c) →
  triple I (run_ceremony c) (λ outcome w, reports_truly c outcome ∧ I w) (λ _, I).
Proof.
  intros Hs HK Hm Hp. destruct c as [o head|o head|store retired acting did|store bound acting did]; cbn [run_ceremony].
  - eapply triple_bind; [by apply enroll_keeps|]. intros e. by apply triple_ret.
  - eapply triple_bind; [apply renew_keeps; [done..|by intros; apply (Hm (ro_mintGenerationDelegation o))|done]|].
    intros e. by apply triple_ret.
  - eapply triple_bind; [by apply strike_keeps|]. intros b. by apply triple_ret.
  - eapply triple_bind; [by apply commit_keeps|]. intros b. by apply triple_ret.
Qed.
End ceremonies.
End discipline.

(** * The pointer at the current generation

    The laws of the service entries of [AnnexDocument]; the re-point of
    [setDelegatedClientsPointer] under a race; and the visit of
    [enrollTransientClient], which reads the pointer again. *)

(** ** Service entries *)

Definition with_services (doc : AccountDocument) (services : list members) : AccountDocument :=
  mkDocument (document_id doc) (verificationMethod doc) (relationOf doc) (Some services).

Lemma serviceMatches_set type shape value entry :
  endpoint_shaped shape (Some value) = true → serviceMatches type shape entry = true →
  serviceMatches type shape (set_member "serviceEndpoint" value entry) = true.
Proof.
  unfold serviceMatches, service_types. rewrite get_set_member_eq, get_set_member_ne by done.
  rewrite !andb_true_iff. by intros -> [-> _].
Qed.

Lemma shapes_exclude shape shape' value : shape' ≠ shape → endpoint_shaped shape value = true → endpoint_shaped shape' value = false.
Proof. by destruct shape, shape', value as [[]|]. Qed.

(** An entry at another endpoint shape, or of other types. *)
Lemma serviceMatches_set_other type shape type' shape' value entry :
  endpoint_shaped shape (Some value) = true → shape' ≠ shape → serviceMatches type shape entry = true →
  serviceMatches type' shape' (set_member "serviceEndpoint" value entry) = false ∧ serviceMatches type' shape' entry = false.
Proof.
  unfold serviceMatches. rewrite get_set_member_eq, !andb_true_iff. intros Hv Hs [_ He].
  rewrite (shapes_exclude _ _ _ Hs Hv), (shapes_exclude _ _ _ Hs He), !andb_false_r. done.
Qed.

Section entries.
Variables (doc : AccountDocument) (type : string) (shape : ServiceEndpointShape) (value : json) (fresh : members).
Hypothesis value_shaped : endpoint_shaped shape (Some value) = true.

Let repointed : list members := withServiceEntry doc type shape value fresh.

Lemma serviceEntries_kept type' shape' :
  shape' ≠ shape → serviceMatches type' shape' fresh = false →
  serviceEntriesWith (with_services doc repointed) type' shape' = serviceEntriesWith doc type' shape'.
Proof.
  intros Hs Hf. unfold repointed, withServiceEntry. destruct (serviceEntriesWith doc type shape) eqn:He; unfold serviceEntriesWith; cbn.
  - by rewrite filter_app, filter_cons, Hf, app_nil_r.
  - clear He. induction (services_of doc) as [|entry entries IH]; [done|]. cbn [fmap list_fmap].
    rewrite !filter_cons, IH. destruct (serviceMatches type shape entry) eqn:Hm; [|done].
    destruct (serviceMatches_set_other _ _ type' shape' _ _ value_shaped Hs Hm) as [-> ->]. done.
Qed.

(** What is read back: the entries of the type, each at the new endpoint. *)
Lemma serviceEntries_repointed :
  serviceMatches type shape fresh = true →
  serviceEntriesWith (with_services doc repointed) type shape =
    match serviceEntriesWith doc type shape with
    | [] => [fresh]
    | entries => set_member "serviceEndpoint" value <$> entries
    end.
Proof.
  intros Hf. unfold repointed, withServiceEntry. destruct (serviceEntriesWith doc type shape) as [|e es] eqn:He.
  - unfold serviceEntriesWith in *. cbn. by rewrite filter_app, He, filter_cons, Hf.
  - rewrite <- He. clear He e es. unfold serviceEntriesWith. cbn. induction (services_of doc) as [|entry entries IH]; [done|].
    cbn [fmap list_fmap]. rewrite !filter_cons. destruct (serviceMatches type shape entry) eqn:Hm.
    + rewrite (serviceMatches_set _ _ _ _ value_shaped Hm), !decide_True by done. cbn [fmap list_fmap]. by f_equal.
    + rewrite Hm, !decide_False by done. exact IH.
Qed.

Lemma serviceEndpoint_repointed :
  serviceMatches type shape fresh = true → get_member "serviceEndpoint" fresh = Some value →
  serviceEndpointOf (with_services doc repointed) type shape = Some value.
Proof.
  intros Hf Hv. unfold serviceEndpointOf. rewrite serviceEntries_repointed by done.
  destruct (serviceEntriesWith doc type shape); cbn; [done|]. by rewrite get_set_member_eq.
Qed.

(** The other entries, in their order. *)
Lemma others_kept :
  serviceMatches type shape fresh = true →
  filter (λ entry, serviceMatches type shape entry = false) repointed =
    filter (λ entry, serviceMatches type shape entry = false) (services_of doc).
Proof.
  intros Hf. unfold repointed, withServiceEntry. destruct (serviceEntriesWith doc type shape).
  - by rewrite filter_app, filter_cons, Hf, app_nil_r.
  - induction (services_of doc) as [|entry entries IH]; [done|]. cbn [fmap list_fmap]. rewrite !filter_cons, IH.
    destruct (serviceMatches type shape entry) eqn:Hm; [|by rewrite Hm].
    by rewrite (serviceMatches_set _ _ _ _ value_shaped Hm).
Qed.
End entries.

Lemma serviceEntry_matches id type value shape :
  endpoint_shaped shape (Some value) = true → serviceMatches type shape (serviceEntry id type value) = true.
Proof.
  unfold serviceMatches, service_types. intros Hv. change (get_member "serviceEndpoint" _) with (Some value).
  rewrite Hv, andb_true_r. apply bool_decide_eq_true. by left.
Qed.

(** The document re-pointed at a generation reads back that generation,
    whatever it pointed at before and however often; the delegation it embeds
    and every other service entry stand as they were, in their order. Likewise
    the delegation an annex entry installs is the one its document embeds, and
    the pointer of that document stands. *)
Theorem service_entries_read_back doc accountDid clientAnnexDid delegation :
  let pointed := with_services doc (servicesPointedAtClientAnnex doc accountDid clientAnnexDid) in
  let installed := with_services doc (withGenerationDelegationEntry doc clientAnnexDid (JObj delegation)) in
  let is_pointer := serviceMatches DELEGATED_CLIENTS_SERVICE_TYPE string_endpoint in
  let is_delegation := serviceMatches GENERATION_DELEGATION_SERVICE_TYPE map_endpoint in
  (delegatedClientsPointer pointed = Some clientAnnexDid ∧
   embeddedGenerationDelegation pointed = embeddedGenerationDelegation doc ∧
   filter (λ entry, is_pointer entry = false) (services_of pointed) = filter (λ entry, is_pointer entry = false) (services_of doc)) ∧
  (embeddedGenerationDelegation installed = Some (JObj delegation) ∧
   delegatedClientsPointer installed = delegatedClientsPointer doc ∧
   filter (λ entry, is_delegation entry = false) (services_of installed) = filter (λ entry, is_delegation entry = false) (services_of doc)).
Proof.
  cbn zeta. unfold delegatedClientsPointer, embeddedGenerationDelegation, servicesPointedAtClientAnnex, withGenerationDelegationEntry.
  split; split_and!.
  - rewrite serviceEndpoint_repointed; [done|done|by apply serviceEntry_matches|done].
  - unfold serviceEndpointOf. rewrite serviceEntries_kept; done.
  - cbn [services_of with_services doc_service default from_option]. apply others_kept; [done|by apply serviceEntry_matches].
  - rewrite serviceEndpoint_repointed; [done|done|by apply serviceEntry_matches|done].
  - unfold serviceEndpointOf. rewrite serviceEntries_kept; done.
  - cbn [services_of with_services doc_service default from_option]. apply others_kept; [done|by apply serviceEntry_matches].
Qed.

(** ** The re-point under a race *)

Section ceremonies.
Context {W : Type} {readers : DocumentReaders} {resolver : WebvhResolver} {writer : WebvhWriter}
  {hashes : HashLibrary} {keys : WebvhKeys} {host : JsHost} {signers : SignerReaders}.
Variables (updateDID : UpdateDID) (logger : Logger W) (I : W → Prop).

(** What the build may answer over a head: nothing where the pointer stands,
    the re-pointed services where it is still the expected one. *)
Definition pointer_answers (o : PointerOptions (W:=W)) (published : PublishedWebvhLog) (fields : option AccountEntryFields) : Prop :=
  let standing := delegatedClientsPointer (pub_doc published) in
  match fields with
  | None => standing = Some (po_clientAnnexDid o)
  | Some f =>
      standing ≠ Some (po_clientAnnexDid o) ∧ (∀ expected, po_expectedPointer o = Some expected → standing = Some expected) ∧
      ∃ commitHashes, f = mkEntryFields None None commitHashes None
        (Some (servicesPointedAtClientAnnex (pub_doc published) (pub_did published) (po_clientAnnexDid o)))
  end.

(** An entry that re-points. *)
Definition repoints (o : PointerOptions (W:=W)) (published : PublishedWebvhLog) (updated : Updated) : Prop :=
  ∃ fields, pointer_answers o published (Some fields) ∧ disciplined updateDID (LogSigner (po_signer o)) published fields updated.

Lemma pointerBuild_answers o : build_answers I (pointerBuild o) (pointer_answers o).
Proof.
  intros ctx Hc. unfold pointerBuild. case_decide as Hst.
  { eapply triple_bind; [exact Hc|]. intros head. apply triple_pure. intros _. by apply triple_ret. }
  case_decide as Hex; [by apply triple_throw|].
  eapply (triple_bind _ _ _ (λ _, I)); [apply keeps_lift|]. intros commitHashes. apply triple_ret. intros w Hw.
  split; [|done]. split_and!; [done| |by eexists].
  intros expected He. rewrite He in Hex. destruct (decide (delegatedClientsPointer (pub_doc (ctx_published ctx)) = Some expected)); [done|].
  destruct Hex. by split; [eexists|].
Qed.

(** What a re-point reports: a head that points there, or the entry put. *)
Definition pointed_truly (K : PublishedWebvhLog → Prop) (o : PointerOptions (W:=W)) (result : PointerEntryOutcome) : Prop :=
  ∃ published, K published ∧
    ((delegatedClientsPointer (pub_doc published) = Some (po_clientAnnexDid o) ∧
      pe_did result = pub_did published ∧ pe_doc result = pub_doc published ∧ pe_published result = published) ∨
     ∃ updated, repoints o published updated ∧ pe_did result = upd_did updated ∧ pe_doc result = upd_doc updated).

Lemma pointer_keeps K o threadedHead :
  store_keeps I K (po_idStore o) → (∀ published, threadedHead = Some published → K published) →
  (∀ event, keeps I (logger event)) → projection_keeps I (po_projectionStore o) →
  may_put I K (po_idStore o) (repoints o) →
  triple I (setDelegatedClientsPointer updateDID logger o threadedHead) (λ result w, pointed_truly K o result ∧ I w) (λ _, I).
Proof.
  intros Hs HK Hl Hd Hp. apply threaded_keeps. intros alreadyRead Har. unfold setDelegatedClientsPointerOnce.
  eapply (triple_bind _ _ _ (λ _, I)); [apply keeps_lift|]. intros _. eapply triple_bind.
  { apply (seam_publishes_disciplined _ _ I K _ (pointer_answers o)); cbn [opt_idStore opt_published opt_projectionStore opt_skip opt_build opt_signer].
    - done.
    - naive_solver.
    - done.
    - done.
    - done.
    - apply pointerBuild_answers.
    - intros published fields updated HKp Ha Hdis. apply Hp; [done|]. by exists fields. }
  intros outcome. apply triple_pure. intros (Ho & Hsk & HKo). unfold outcome_of in Ho. cbn [opt_signer opt_skip] in Ho, Hsk.
  destruct (out_updated outcome) as [updated|]; apply triple_ret; intros w Hw; (split; [|done]); exists (out_published outcome); (split; [done|]).
  - right. exists updated. split; [exact Ho|done].
  - left. destruct Ho as [Ho|Ho]; [by rewrite Hsk in Ho|]. done.
Qed.


(** ** A visit *)

(** A visit's ceremony returns only when the account document, read after
    the enrollment, still points at the generation it enrolled into; the
    client stands in that generation's log, by an entry put over a head of
    that log or because its method was there. *)
Theorem visit_stands_where_it_points (view : W → option AccountDocument) (K : string → PublishedWebvhLog → Prop)
    (o : VisitOptions (W:=W)) threadedHead :
  triple I (vo_readAccountDocument o) (λ doc w, view w = Some doc ∧ I w) (λ _, I) →
  (∀ generationId, store_keeps I (K generationId) (vo_storeForGenerationId o generationId)) →
  (∀ head parts, threadedHead = Some head → clientAnnexDidParts (pub_did head) = Ok parts → K (ap_generationId parts) head) →
  minter_keeps I (vo_mintGenerationDelegation o) →
  (∀ did generationId, may_put I (K generationId) (vo_storeForGenerationId o generationId)
     (enrolls updateDID (visitEnroll o did generationId))) →
  triple I (enrollTransientClient updateDID o threadedHead)
    (λ '(did, visited) w,
       (∃ doc parts, view w = Some doc ∧ delegatedClientsPointer doc = Some did ∧ clientAnnexDidParts did = Ok parts ∧
          enrolled_truly updateDID (K (ap_generationId parts)) (visitEnroll o did (ap_generationId parts)) visited) ∧ I w)
    (λ _, I).
Proof.
  intros Hread Hs HK Hm Hp. unfold enrollTransientClient.
  eapply (triple_bind _ _ _ (λ _, I)); [by eapply triple_post; [exact Hread|by intros a w [_ ?]|done]|]. intros accountDoc.
  assert (∀ head, (head = threadedHead ∨ head = None) → ∀ n doc, triple I (enrollRounds updateDID o n head doc) (λ '(did, visited) w,
       (∃ doc parts, view w = Some doc ∧ delegatedClientsPointer doc = Some did ∧ clientAnnexDidParts did = Ok parts ∧
          enrolled_truly updateDID (K (ap_generationId parts)) (visitEnroll o did (ap_generationId parts)) visited) ∧ I w)
    (λ _, I)) as Hrounds; [|apply Hrounds; by left].
  intros head Hhead n. revert head Hhead. induction n as [|n IH]; intros head Hhead doc; cbn [enrollRounds]; [by apply triple_throw|].
  destruct (delegatedClientsPointer doc) as [did|]; [|by apply triple_throw].
  eapply (triple_bind _ _ _ (λ parts w, clientAnnexDidParts did = Ok parts ∧ I w)).
  { apply triple_lift. intros w Hw. by destruct (clientAnnexDidParts did). }
  intros parts. apply triple_pure. intros Hparts. eapply triple_bind.
  { apply (enroll_keeps updateDID I (K (ap_generationId parts))); [apply Hs| |done|apply Hp].
    intros published Hh. destruct head as [head|]; [|done]. case_decide as Hdid; [|done]. injection Hh as <-.
    apply HK; [by destruct Hhead|by rewrite Hdid]. }
  intros visited. apply triple_pure. intros He. eapply triple_bind; [exact Hread|]. intros doc'. case_decide as Hptr.
  - apply triple_ret. intros w [Hv Hw]. split; [|done]. by exists doc', parts.
  - eapply triple_conseq; [apply (IH None); by right|by intros w [_ Hw]|done|done].
Qed.
End ceremonies.
