(* ===== verification/AnnexGc.v ===== *)
(** * The client annex's garbage collection

    [src/src/clientAnnex/gc.ts]: the cadence and the quiet gate, the swap of
    the pointed generation, and the pass that collects every other one. The
    storage client's listing, deletion, revocation and metadata request, and
    the caller's digest and callback, are parameters. *)

From S2P Require Import Prelude Json JsText ConnEntry CeremonyEvents AccountDocument LadderRungs AccountLog LogStore KeyRotation LadderIndex LadderInventory ClientListing ClientRevocation AccountEntry UserKeyRoster AnnexDocument AnnexLog AnnexGenesis.

Definition GENERATION_GC_PERIOD_MS : Z := 90 * 24 * 60 * 60 * 1000.
Definition GENERATION_QUIET_BOUND_MS : Z := 24 * 60 * 60 * 1000.
Definition GENERATION_QUIET_GRACE_MS : Z := 60 * 60 * 1000.

(** ** The cadence and the quiet gate *)

Section cadence.
Context {host : JsHost}.

(** The walk: when the present pointer was established, and the pointer of
    the entry before. *)
Fixpoint establishedFrom (establishedAt previous : option string) (log : DIDLog) : result (option string) :=
  match log with
  | [] => Ok establishedAt
  | entry :: log =>
      match state entry with
      | None => mthrow (JsError "TypeError" "Cannot read properties of undefined (reading 'service')")
      | Some doc =>
          let pointed := delegatedClientsPointer doc in
          let establishedAt :=
            match pointed with
            | Some _ => if decide (pointed ≠ previous) then Some (versionTime entry) else establishedAt
            | None => None
            end in
          establishedFrom establishedAt pointed log
      end
  end.
Definition delegatedClientsPointerEstablishedAt (log : DIDLog) : result (option string) := establishedFrom None None log.

Definition clientAnnexGcDue (log : DIDLog) (now : Z) : result bool :=
  establishedAt ← delegatedClientsPointerEstablishedAt log;
  Ok (match establishedAt ≫= date_parse with
      | Some establishedMs => bool_decide (GENERATION_GC_PERIOD_MS ≤ now - establishedMs)%Z
      | None => false
      end).

Definition generationQuiet (log : DIDLog) (now : Z) : bool :=
  match (versionTime <$> last log) ≫= date_parse with
  | Some newestMs => bool_decide (GENERATION_QUIET_BOUND_MS + GENERATION_QUIET_GRACE_MS ≤ now - newestMs)%Z
  | None => false
  end.
End cadence.

(** ** What the pass calls *)

(** What a digest says of a collected generation. *)
Record GenerationDigest := mkDigest {
  dig_generationId : string;
  dig_firstEntry : option string;
  dig_lastEntry : option string;
  dig_entryCount : nat
}.

Class GcHost (W : Type) := {
  (** The pages of a Space's Collection listing. *)
  collectionsPages : string → comp W (list (list string));
  deleteCollection : string → string → comp W ();
  revokeZcap : json → comp W ();
  (** The status a Space Metadata request answers. *)
  requestSpaceMeta : string → option json → comp W Z;
  (** [err.status] and [err.response.status]. *)
  err_status : js_error → option json;
  err_responseStatus : js_error → option json
}.

Inductive ClientAnnexGcSwapOutcome :=
  | replaced | repaired | readmitted | not_due | deferred_live | no_pointer | no_ladder_seed | swap_failed.
#[export] Instance ClientAnnexGcSwapOutcome_eq_dec : EqDecision ClientAnnexGcSwapOutcome.
Proof. solve_decision. Defined.

Record ClientAnnexGcReport := mkGcReport {
  gc_swap : ClientAnnexGcSwapOutcome;
  gc_pointedDid : option string;
  gc_collected : list string;
  gc_deferred : list string;
  gc_failed : list (string * js_error)
}.

Inductive ClientAnnexSwapRevokeOutcome :=
  | swap_revoked | swap_expired | swap_signer_gone | swap_refused (err : js_error) | no_delegation | log_absent.

Record ClientAnnexGenerationSwap := mkSwap {
  sw_clientAnnexDid : string;
  sw_revoke : ClientAnnexSwapRevokeOutcome;
  sw_replicaPointersDropped : list string;
  sw_replicaPointersMissing : list string
}.

Section gc.
Context {W : Type} {readers : DocumentReaders} {resolver : WebvhResolver} {writer : WebvhWriter}
  {hashes : HashLibrary} {keys : WebvhKeys} {host : JsHost} {signers : SignerReaders}
  {addresses : WebvhAddresses} {digest : ReplicaDigest} {pws : PwsResources W} {annex_host : AnnexHost W} {gc_host : GcHost W}.
Variables (updateDID : UpdateDID) (createDID : CreateDID) (logger : Logger W).

(** ** Reading *)

Definition readClientAnnexGeneration (spaceId generationId : string) (pinStore : ResourceLogPinStore W) (expectedDid : option string) :
    comp W (option PublishedWebvhLog) :=
  store ← lift (clientAnnexLogStore spaceId generationId pinStore None);
  readClientAnnexLogOrAbsent store expectedDid.

(** [raw?.status ?? raw?.response?.status], where it is a number. *)
Definition rawRequestStatus (err : js_error) : option json :=
  match match err_status err with None | Some JNull => err_responseStatus err | status => status end with
  | Some (JNum q) => Some (JNum q)
  | _ => None
  end.

Inductive SpaceMetadata := space_present | space_not_found.

Definition readSpaceMetadata (annexSpaceId : string) (capability : option json) : comp W SpaceMetadata :=
  status ← try_catch (status ← requestSpaceMeta annexSpaceId capability; mret (Some status))
    (λ err, if decide (rawRequestStatus err = Some (jint 404)) then mret None else mthrow err);
  match status with
  | None => mret space_not_found
  | Some status =>
      if decide (200 ≤ status < 300)%Z then mret space_present
      else if decide (status = 404%Z) then mret space_not_found
      else mthrow (plain_error ("client annex: the Space Metadata read for " ++ in_quotes annexSpaceId ++ " answered " ++ pretty status ++
             "; the caller cannot tell whether the Space stands."))
  end.

Definition assertAnnexSpacePresent (spaceId : string) : comp W () :=
  answer ← readSpaceMetadata spaceId None;
  match answer with
  | space_not_found =>
      mthrow (plain_error ("client annex: the pointed auxiliary Space " ++ in_quotes spaceId ++ " is gone or unreadable; the repair mints nothing into it."))
  | space_present => mret ()
  end.

(** ** The swap *)

(** The credentials a swap retires, or that it cannot name them. *)
Inductive RetiredLadders := retired_seeds (seeds : list string) | unnamed.

Definition restatedRungHashes (published : option PublishedWebvhLog) (ladderSeed : string) (retiredLadderSeeds : RetiredLadders) :
    result (list string) :=
  match retiredLadderSeeds with
  | unnamed => Ok []
  | retired_seeds seeds =>
      retired ← mapM clientAnnexRungHash seeds;
      own ← clientAnnexRungHash ladderSeed;
      if decide (own ∈ retired) then
        mthrow (plain_error "clientAnnex: the swap would mint its fresh generation from a credential it retires.")
      else
        match published with
        | None => Ok []
        | Some published =>
            Ok (filter (λ hash, hash ∉ retired) (standingRungHashesOf (pub_updateKeys published) (pub_nextKeyHashes published)))
        end
  end.

(** What a replacement is told: the account it serves, who signs and mints. *)
Record SwapOptions := mkSwapOptions {
  so_baseServerUrl : string;
  so_accountSpaceId : string;
  so_accountDid : string;
  so_accountDoc : AccountDocument;
  so_idStore : WebvhIdStore W;
  so_signer : AccountLogSigner;
  so_delegate : Delegator W;
  so_ladderSeed : string;
  so_retiredLadderSeeds : RetiredLadders;
  so_replicaServerDids : list string;
  so_now : Z
}.

Definition revokeOutcome (outcome : RevokeGenerationDelegationOutcome) : ClientAnnexSwapRevokeOutcome :=
  match outcome with
  | revoked | already_revoked => swap_revoked
  | revoke_expired => swap_expired
  | signer_gone => swap_signer_gone
  end.

(** A refused revocation is reported, not thrown. *)
Definition revokeOldDelegation (o : SwapOptions) (oldGeneration : option PublishedWebvhLog) : comp W ClientAnnexSwapRevokeOutcome :=
  match oldGeneration with
  | None => mret log_absent
  | Some old =>
      match embeddedGenerationDelegation (pub_doc old) with
      | None => mret no_delegation
      | Some delegation =>
          try_catch
            (outcome ← revokeTreatingAlreadyRevokedAsSuccess revokeZcap delegation (so_now o) (so_accountDoc o);
             mret (revokeOutcome outcome))
            (λ err, mret (swap_refused err))
      end
  end.

Definition replaceClientAnnexGeneration (o : SwapOptions) (clientAnnexSpaceId : string) (oldGeneration : option PublishedWebvhLog)
    (head : PublishedWebvhLog) : comp W ClientAnnexGenerationSwap :=
  let pinStore := id_pinStore (so_idStore o) in
  standingRungHashes ← lift (restatedRungHashes oldGeneration (so_ladderSeed o) (so_retiredLadderSeeds o));
  minted ← mintCredentialClientAnnexGeneration createDID (mkPlace (so_baseServerUrl o) clientAnnexSpaceId pinStore None)
    (so_accountDid o) (so_ladderSeed o) standingRungHashes;
  let published := min_published minted in
  store ← lift (clientAnnexLogStore clientAnnexSpaceId (min_generationId minted) pinStore None);
  installed ← ensureGenerationDelegationCurrent updateDID
    (mkRenew store (so_ladderSeed o)
      (λ clientAnnexDid, mintGenerationDelegation (so_delegate o) (so_baseServerUrl o) (so_accountSpaceId o) clientAnnexDid (so_now o))
      (Some (pub_did published)) None [] (Some (replicaPointerInstaller (so_replicaServerDids o))) (so_now o))
    (match pub_etag published with Some _ => Some published | None => None end);
  let missing := match ens_published installed with
                 | None => []
                 | Some head => replicaServersMissing (pub_doc head) (so_replicaServerDids o)
                 end in
  let dropped := match oldGeneration with
                 | None => []
                 | Some old => filter (λ serverDid, serverDid ∉ so_replicaServerDids o) (replicaServerPointers (pub_doc old))
                 end in
  revoke ← revokeOldDelegation o oldGeneration;
  setDelegatedClientsPointer updateDID logger
    (mkPointerOptions (so_idStore o) (so_signer o) (pub_did published) (Some (so_accountDid o)) (Some (so_idStore o))
      (delegatedClientsPointer (pub_doc head)))
    (Some head);;
  mret (mkSwap (pub_did published) revoke dropped missing).

Definition swapClientAnnexGeneration (o : SwapOptions) : comp W ClientAnnexGenerationSwap :=
  match delegatedClientsPointer (so_accountDoc o) with
  | None => mthrow (plain_error "clientAnnex: the account document carries no delegated-clients service entry; no generation exists to swap.")
  | Some pointedDid =>
      parts ← lift (clientAnnexDidParts pointedDid);
      head ← readPublishedLogOrThrow (so_idStore o) (Some (so_accountDid o))
        (Some "did:webvh: did.jsonl is missing; nothing to point at a client annex.");
      if decide (delegatedClientsPointer (pub_doc head) ≠ Some pointedDid) then mthrow DelegatedClientsPointerMovedError
      else
        oldGeneration ← readClientAnnexGeneration (ap_spaceId parts) (ap_generationId parts) (id_pinStore (so_idStore o)) (Some pointedDid);
        replaceClientAnnexGeneration o (ap_spaceId parts) oldGeneration head
  end.

(** ** The pass *)

Record GcOptions := mkGc {
  go_baseServerUrl : string;
  go_accountSpaceId : string;
  go_account : PublishedWebvhLog;
  go_idStore : WebvhIdStore W;
  go_updateKeys : ClientWebvhUpdateKeys;
  go_delegate : Delegator W;
  go_ladderSeed : option string;
  go_replicaServerDids : list string;
  go_recordDigest : GenerationDigest → comp W ();
  go_onCollected : option (string → comp W ());
  go_now : Z
}.

Definition readAccountHead (o : GcOptions) : comp W PublishedWebvhLog :=
  readPublishedLogOrThrow (go_idStore o) (Some (pub_did (go_account o)))
    (Some "did:webvh: did.jsonl is missing; nothing to collect against.").

(** What the swap step decides before it writes: an outcome, or the
    generation to replace, whether it is readmission, and the seed. *)
Inductive SwapDecision :=
  | swap_settled (outcome : ClientAnnexGcSwapOutcome)
  | swap_replaces (pointed : option PublishedWebvhLog) (readmits : bool) (ladderSeed : string).

Definition decideSwap (o : GcOptions) (pointedDid : string) (parts : ClientAnnexDidParts) (headPointer : string) : comp W SwapDecision :=
  if decide (headPointer ≠ pointedDid) then mret (swap_settled not_due)
  else
    pointed ← readClientAnnexGeneration (ap_spaceId parts) (ap_generationId parts) (id_pinStore (go_idStore o)) (Some pointedDid);
    readmits ← lift (match pointed, go_ladderSeed o with
                     | Some p, Some seed =>
                         commits ← logCommitsRung seed (pub_updateKeys p) (pub_nextKeyHashes p); Ok (negb commits)
                     | _, _ => Ok false
                     end);
    due ← lift (match pointed with
                | Some _ => if (readmits : bool) then Ok true else clientAnnexGcDue (pub_log (go_account o)) (go_now o)
                | None => Ok true
                end);
    if negb due then mret (swap_settled not_due)
    else if match pointed with Some p => negb (generationQuiet (pub_log p) (go_now o)) | None => false end then
      mret (swap_settled deferred_live)
    else
      match go_ladderSeed o with
      | None => mret (swap_settled no_ladder_seed)
      | Some seed =>
          match pointed with None => assertAnnexSpacePresent (ap_spaceId parts) | Some _ => mret () end;;
          mret (swap_replaces pointed readmits seed)
      end.

Definition gcSwapOptions (o : GcOptions) (head : PublishedWebvhLog) (ladderSeed : string) : SwapOptions :=
  mkSwapOptions (go_baseServerUrl o) (go_accountSpaceId o) (pub_did head) (pub_doc head) (go_idStore o)
    (enrolled (go_updateKeys o)) (go_delegate o) ladderSeed (retired_seeds []) (go_replicaServerDids o) (go_now o).

(** A lost race is a pointer that is not due; anything else is collected
    under the pointed generation. *)
Definition caughtSwap (generationId : string) (err : js_error) : ClientAnnexGcSwapOutcome * list (string * js_error) :=
  if decide (err = DelegatedClientsPointerMovedError) then (not_due, []) else (swap_failed, [(generationId, err)]).

(** The swap step: its outcome, its failure, and whether it reached a write. *)
Definition gcSwap (o : GcOptions) (pointedDid : string) (parts : ClientAnnexDidParts) (head : PublishedWebvhLog) (headPointer : string) :
    comp W (ClientAnnexGcSwapOutcome * list (string * js_error) * bool) :=
  try_catch
    (decision ← decideSwap o pointedDid parts headPointer;
     match decision with
     | swap_settled outcome => mret (outcome, [], false)
     | swap_replaces pointed readmits ladderSeed =>
         try_catch
           (replaceClientAnnexGeneration (gcSwapOptions o head ladderSeed) (ap_spaceId parts) pointed head;;
            mret (match pointed with None => repaired | Some _ => if (readmits : bool) then readmitted else replaced end, [], true))
           (λ err, mret (caughtSwap (ap_generationId parts) err, true))
     end)
    (λ err, mret (caughtSwap (ap_generationId parts) err, false)).

Inductive CollectOutcome := collected | deferred.

Definition digestOf (generationId : string) (published : PublishedWebvhLog) : GenerationDigest :=
  mkDigest generationId (versionTime <$> head (pub_log published)) (versionTime <$> last (pub_log published)) (length (pub_log published)).

(** What collects one generation, past its log: the revocation, the digest. *)
Definition settleGeneration (o : GcOptions) (generationId : string) (accountDoc : AccountDocument) (published : PublishedWebvhLog) : comp W () :=
  match embeddedGenerationDelegation (pub_doc published) with
  | Some delegation => revokeTreatingAlreadyRevokedAsSuccess revokeZcap delegation (go_now o) accountDoc;; mret ()
  | None => mret ()
  end;;
  go_recordDigest o (digestOf generationId published).

Definition dropGeneration (o : GcOptions) (spaceId generationId : string) : comp W CollectOutcome :=
  deleteCollection spaceId generationId;;
  match go_onCollected o with Some run => run generationId | None => mret () end;;
  mret collected.

Definition collectOneGeneration (o : GcOptions) (spaceId generationId : string) (accountDoc : AccountDocument) (everPointed : list string) :
    comp W CollectOutcome :=
  published ← readClientAnnexGeneration spaceId generationId (id_pinStore (go_idStore o)) None;
  match published with
  | Some published =>
      if decide (pub_did published ∉ everPointed ∧ generationQuiet (pub_log published) (go_now o) = false) then mret deferred
      else
        settleGeneration o generationId accountDoc published;;
        dropGeneration o spaceId generationId
  | None => dropGeneration o spaceId generationId
  end.

(** The generations of a listing that the fresh pointer does not name. *)
Definition staleGenerations (current : option string) (pages : list (list string)) : list string :=
  filter (λ id, startsWith id GENERATION_ID_PREFIX = true ∧ Some id ≠ current) (concat pages).

Inductive Collected := was_collected (generationId : string) | was_deferred (generationId : string) | was_failed (generationId : string) (err : js_error).

Definition collectGeneration (o : GcOptions) (spaceId : string) (fresh : PublishedWebvhLog) (generationId : string) : comp W Collected :=
  try_catch
    (outcome ← collectOneGeneration o spaceId generationId (pub_doc fresh) (delegatedClientsPointerHistory (pub_log fresh));
     mret (match outcome with collected => was_collected generationId | deferred => was_deferred generationId end))
    (λ err, mret (was_failed generationId err)).

Definition report (swap : ClientAnnexGcSwapOutcome) (pointedDid : string) (swapFailed : list (string * js_error)) (outcomes : list Collected) :
    ClientAnnexGcReport :=
  mkGcReport swap (Some pointedDid)
    (omap (λ outcome, match outcome with was_collected id => Some id | _ => None end) outcomes)
    (omap (λ outcome, match outcome with was_deferred id => Some id | _ => None end) outcomes)
    (swapFailed ++ omap (λ outcome, match outcome with was_failed id err => Some (id, err) | _ => None end) outcomes).

(** The fan-out, over the pointer the account log names now. *)
Definition collectStale (o : GcOptions) (spaceId : string) (swap : ClientAnnexGcSwapOutcome) (swapFailed : list (string * js_error))
    (fresh : PublishedWebvhLog) : comp W ClientAnnexGcReport :=
  match delegatedClientsPointer (pub_doc fresh) with
  | None => mret (mkGcReport swap None [] [] swapFailed)
  | Some freshPointer =>
      freshParts ← lift (clientAnnexDidParts freshPointer);
      let current := if decide (ap_spaceId freshParts = spaceId) then Some (ap_generationId freshParts) else None in
      pages ← collectionsPages spaceId;
      outcomes ← promise_all (collectGeneration o spaceId fresh) (staleGenerations current pages);
      mret (report swap freshPointer swapFailed outcomes)
  end.

Definition runClientAnnexGc (o : GcOptions) : comp W ClientAnnexGcReport :=
  match delegatedClientsPointer (pub_doc (go_account o)) with
  | None => mret (mkGcReport no_pointer None [] [] [])
  | Some pointedDid =>
      parts ← lift (clientAnnexDidParts pointedDid);
      head ← readAccountHead o;
      match delegatedClientsPointer (pub_doc head) with
      | None => mret (mkGcReport no_pointer None [] [] [])
      | Some headPointer =>
          '(swap, swapFailed, swapWrote) ← gcSwap o pointedDid parts head headPointer;
          fresh ← (if (swapWrote : bool) then readAccountHead o else mret head);
          collectStale o (ap_spaceId parts) swap swapFailed fresh
      end
  end.
End gc.
