(* ===== verification/AnnexGcSafety.v ===== *)
(** * What the garbage collection deletes

    The pass of [AnnexGc] under what its host was asked and answered: a
    Collection is deleted only on the evidence the code is to have, gathered
    since the account log was last written. *)

From S2P Require Import Prelude Json JsText ConnEntry CeremonyEvents AccountDocument LadderRungs AccountLog LogStore KeyRotation LadderIndex LadderInventory ClientListing ClientRevocation AccountEntry EntryDiscipline UserKeyRoster AnnexDocument AnnexLog AnnexGenesis AnnexDiscipline AnnexGc.

(** ** The genesis of a swap *)

Lemma rung_hashes {writer : WebvhWriter} {hashes : HashLibrary} {keys : WebvhKeys} seeds rungs :
  mapM (M:=result) clientAnnexRung seeds = Ok rungs →
  mapM (M:=result) clientAnnexRungHash seeds = Ok (deriveNextKeyHash <$> (annex_key <$> rungs)).
Proof.
  revert rungs. induction seeds as [|seed seeds IH]; intros rungs; cbn [mapM]; [by intros [= <-]|].
  rewrite result_bind_ok. intros (rung & Hr & H). rewrite result_bind_ok in H. destruct H as (rest & Hrest & [= <-]).
  assert (clientAnnexRungHash seed = Ok (deriveNextKeyHash (annex_key rung))) as -> by (unfold clientAnnexRungHash; by rewrite Hr).
  cbn. by rewrite (IH rest Hrest).
Qed.

(** What a swap restates is what [AnnexDiscipline] specifies for it. *)
Lemma swap_genesis {writer : WebvhWriter} {hashes : HashLibrary} {keys : WebvhKeys} published ladderSeed seeds own rungs standing :
  clientAnnexRung ladderSeed = Ok own → mapM (M:=result) clientAnnexRung seeds = Ok rungs →
  restatedRungHashes (Some published) ladderSeed (retired_seeds seeds) = Ok standing →
  entry_of (swaps (annex_key own) (annex_key <$> rungs)) (head_parameters published) =
    Some ([annex_key own], genesisHashes (deriveNextKeyHash (annex_key own)) standing).
Proof.
  intros Hown Hr. unfold restatedRungHashes. rewrite (rung_hashes _ _ Hr). cbn [mbind result_bind].
  unfold clientAnnexRungHash. rewrite Hown. cbn. case_decide as Hin; [done|]. by intros [= <-].
Qed.

(** ** Reads and revocations that are remembered *)

(** The text that answered resolves to the head. *)
Definition resolves {readers : DocumentReaders} {resolver : WebvhResolver} (read : option (string * option string))
    (published : PublishedWebvhLog) : Prop :=
  ∃ text etag log, read = Some (text, etag) ∧ readLogFromString text = Ok log ∧ resolvedHead log brokenLog etag = Ok published.

Section remembered.
Context {W Fact : Type} {readers : DocumentReaders} {resolver : WebvhResolver} {writer : WebvhWriter}
  {hashes : HashLibrary} {keys : WebvhKeys} {host : JsHost} {signers : SignerReaders}.
Variables (I : W → Prop) (past : Fact → W → Prop) (store : WebvhIdStore W) (answered : option (string * option string) → Fact).
Local Notation holds := (known I past).
Hypothesis raw : ∀ F, triple (holds F) (getIdResourceRaw store DID_LOG_RESOURCE) (λ read, holds (answered read :: F)) (λ _, holds F).
Hypothesis pin_reads : ∀ F id, keeps (holds F) (pin_read (id_pinStore store) id).
Hypothesis pin_writes : ∀ F id pin, keeps (holds F) (pin_write (id_pinStore store) id pin).

Lemma read_records F expectedDid absent :
  triple (holds F) (readPublishedLog store expectedDid absent)
    (λ published w, ∃ read, match published with Some p => resolves read p | None => read = None end ∧ holds (answered read :: F) w)
    (λ _, holds F).
Proof.
  unfold readPublishedLog. eapply triple_bind; [apply raw|].
  assert (∀ read w, holds (answered read :: F) w → holds F w) as Hless by (intros read w; apply known_mono; set_solver).
  intros [[text etag]|].
  - eapply triple_throws; [|intros e w; apply (Hless (Some (text, etag)))].
    eapply (triple_bind _ _ _ (λ log w, readLogFromString text = Ok log ∧ holds (answered (Some (text, etag)) :: F) w)).
    { apply triple_lift. intros w Hw. by destruct (readLogFromString text). }
    intros log. apply triple_pure. intros Hlog.
    eapply (triple_bind _ _ _ (λ published w, resolvedHead log brokenLog etag = Ok published ∧ holds (answered (Some (text, etag)) :: F) w)).
    { apply triple_lift. intros w Hw. by destruct (resolvedHead log brokenLog etag). }
    intros published. apply triple_pure. intros Hr.
    eapply (triple_bind _ _ _ (λ _, holds (answered (Some (text, etag)) :: F))); [apply keeps_lift|]. intros _.
    eapply (triple_bind _ _ _ (λ _, holds (answered (Some (text, etag)) :: F))).
    + unfold checkAndAdvanceAccountLogPin. apply keeps_bind; [apply pin_reads|]. intros pin.
      apply keeps_bind; [apply keeps_lift|]. intros served. case_decide; [apply keeps_ret|apply pin_writes].
    + intros _. apply triple_ret. intros w Hw. exists (Some (text, etag)). split; [by exists text, etag, log|done].
  - eapply triple_throws; [|intros e w; apply (Hless None)]. destruct absent; [apply triple_ret; intros w Hw; by exists None|].
    eapply (triple_bind _ _ _ (λ _, holds (answered None :: F))); [apply pin_reads|].
    intros [pin|]; [by apply triple_throw|apply triple_ret]. intros w Hw. by exists None.
Qed.

(** What a revocation that returned was told, and what one that threw was. *)
Lemma revoke_told (J : W → Prop) (told : option js_error → W → Prop) (revoke : json → comp W ()) delegation now doc :
  triple J (revoke delegation) (λ _, told None) (λ err, told (Some err)) →
  triple J (revokeTreatingAlreadyRevokedAsSuccess revoke delegation now doc)
    (λ _ w, delegationExpired delegation now = true ∧ J w ∨ told None w ∨
       ∃ err, (err_name err = "AlreadyRevokedError" ∨ err_name err = "ValidationError" ∧
         (delegationAtExpiry delegation now = true ∨ delegationSignerGone delegation doc = true)) ∧ told (Some err) w)
    (λ err, told (Some err)).
Proof.
  intros Hr. unfold revokeTreatingAlreadyRevokedAsSuccess. destruct (delegationExpired delegation now) eqn:He.
  { apply triple_ret. intros w Hw. by left. }
  eapply (triple_try _ _ _ _ _ (λ err, told (Some err))).
  { eapply triple_bind; [exact Hr|]. intros ?. apply triple_ret. intros w Hw. by right; left. }
  intros err. case_decide; [apply triple_ret; intros w Hw; right; right; exists err; auto|].
  case_decide; [|by apply triple_throw]. destruct (delegationAtExpiry _ _) eqn:Ha;
    [apply triple_ret; intros w Hw; right; right; exists err; auto|].
  destruct (delegationSignerGone _ _) eqn:Hg; [apply triple_ret; intros w Hw; right; right; exists err; auto|by apply triple_throw].
Qed.
End remembered.

(** ** Evidence *)

(** What a host was asked, and its answer. *)
Inductive host_fact :=
  | account_answered (read : option (string * option string))
  | annex_answered (handle : CollectionHandle) (read : option (string * option string))
  | revoke_answered (zcap : json) (refusal : option js_error)
  | digest_written (digest : GenerationDigest)
  | collection_deleted (spaceId generationId : string).

Section evidence.
Context {W : Type} {readers : DocumentReaders} {resolver : WebvhResolver} {writer : WebvhWriter}
  {hashes : HashLibrary} {keys : WebvhKeys} {host : JsHost} {signers : SignerReaders}
  {addresses : WebvhAddresses} {digest : ReplicaDigest} {pws : PwsResources W} {annex_host : AnnexHost W} {gc_host : GcHost W}.
Variables (updateDID : UpdateDID) (createDID : CreateDID) (logger : Logger W).
Variables (I : W → Prop) (past : host_fact → W → Prop) (o : GcOptions (W:=W)).

Local Notation holds := (known I past).

Definition served_account (F : list host_fact) (published : PublishedWebvhLog) : Prop :=
  ∃ read, account_answered read ∈ F ∧ resolves read published.

Definition generation_handle (spaceId generationId : string) : CollectionHandle := plaintextCollection spaceId generationId None.

(** A delegation no server honors: expired, revoked, or refused in a way that
    says so. *)
Definition dead (F : list host_fact) (delegation : json) (accountDoc : AccountDocument) : Prop :=
  delegationExpired delegation (go_now o) = true ∨ revoke_answered delegation None ∈ F ∨
  ∃ err, revoke_answered delegation (Some err) ∈ F ∧
    (err_name err = "AlreadyRevokedError" ∨
     err_name err = "ValidationError" ∧
       (delegationAtExpiry delegation (go_now o) = true ∨ delegationSignerGone delegation accountDoc = true)).

(** A generation past its log: superseded or quiet, its delegation dead, its
    digest written. *)
Definition settled (F : list host_fact) (generationId : string) (fresh published : PublishedWebvhLog) : Prop :=
  (pub_did published ∈ delegatedClientsPointerHistory (pub_log fresh) ∨ generationQuiet (pub_log published) (go_now o) = true) ∧
  (∀ delegation, embeddedGenerationDelegation (pub_doc published) = Some delegation → dead F delegation (pub_doc fresh)) ∧
  digest_written (digestOf generationId published) ∈ F.

(** The evidence a deletion needs: an account head served since the account
    log was last written, whose pointer names another generation, and the
    generation's own log, settled or absent. *)
Definition may_delete (F : list host_fact) (spaceId generationId : string) : Prop :=
  startsWith generationId GENERATION_ID_PREFIX = true ∧
  ∃ fresh pointer parts,
    served_account F fresh ∧ delegatedClientsPointer (pub_doc fresh) = Some pointer ∧ clientAnnexDidParts pointer = Ok parts ∧
    (ap_spaceId parts = spaceId → ap_generationId parts ≠ generationId) ∧
    (annex_answered (generation_handle spaceId generationId) None ∈ F ∨
     ∃ read published, annex_answered (generation_handle spaceId generationId) read ∈ F ∧ resolves read published ∧
       settled F generationId fresh published).

(** A write to the account's store: what was served before it says nothing of
    the head after it. *)
Definition lasting (F : list host_fact) : list host_fact :=
  filter (λ fact, match fact with account_answered _ => true | _ => false end = false) F.

(** What the host is assumed to do: a read answers, a revocation is accepted
    or refused, and nothing else that is asked of it undoes what was. Only a
    deletion the evidence allows is asked for. *)
Record gc_environment : Prop := {
  env_account F : triple (holds F) (getIdResourceRaw (go_idStore o) DID_LOG_RESOURCE)
    (λ read, holds (account_answered read :: F)) (λ _, holds F);
  env_account_put F put : triple (holds F) (putIdResource (go_idStore o) put) (λ _, holds (lasting F)) (λ _, holds (lasting F));
  env_pin_read F id : keeps (holds F) (pin_read (id_pinStore (go_idStore o)) id);
  env_pin_write F id pin : keeps (holds F) (pin_write (id_pinStore (go_idStore o)) id pin);
  env_annex F handle : triple (holds F) (getTextWithEtag handle DID_LOG_RESOURCE)
    (λ read, holds (annex_answered handle read :: F)) (λ _, holds F);
  env_annex_put F handle resource text contentType ifMatch ifNoneMatch :
    keeps (holds F) (putBytes handle resource text contentType ifMatch ifNoneMatch);
  env_describe F spaceId : keeps (holds F) (describeWithEtag spaceId);
  env_configure_space F spaceId controller types : keeps (holds F) (configureSpace spaceId controller types);
  env_configure F handle name : keeps (holds F) (configureCollection handle name);
  env_random F : keeps (holds F) randomSuffix;
  env_meta F spaceId capability : keeps (holds F) (requestSpaceMeta spaceId capability);
  env_pages F spaceId : keeps (holds F) (collectionsPages spaceId);
  env_delegate F options : keeps (holds F) (go_delegate o options);
  env_logger F event : keeps (holds F) (logger event);
  env_revoke F zcap : triple (holds F) (revokeZcap zcap)
    (λ _, holds (revoke_answered zcap None :: F)) (λ err, holds (revoke_answered zcap (Some err) :: F));
  env_digest F d : triple (holds F) (go_recordDigest o d) (λ _, holds (digest_written d :: F)) (λ _, holds F);
  env_collected F run generationId : go_onCollected o = Some run → keeps (holds F) (run generationId);
  env_delete F spaceId generationId : may_delete F spaceId generationId →
    triple (holds F) (deleteCollection spaceId generationId) (λ _, holds (collection_deleted spaceId generationId :: F)) (λ _, holds F)
}.
Hypothesis env : gc_environment.

Lemma env_revoke_keeps F zcap : keeps (holds F) (revokeZcap zcap).
Proof. eapply (known_forgets F _ (λ _, _ :: F) (λ _, _ :: F)); [apply (env_revoke env)|set_solver..]. Qed.

(** ** Reading *)

Lemma account_head F :
  triple (holds F) (readAccountHead o)
    (λ fresh w, ∃ read, resolves read fresh ∧ holds (account_answered read :: F) w) (λ _, holds F).
Proof.
  unfold readAccountHead, readPublishedLogOrThrow. eapply triple_bind; [apply (read_records I past (go_idStore o) account_answered); apply env|].
  intros [published|]; cbn.
  - apply triple_ret. done.
  - apply triple_exists. intros read. apply triple_throw. intros w [_ Hw]. eapply known_mono; [|exact Hw]. set_solver.
Qed.

(** A generation's store. *)
Lemma generation_store spaceId generationId store :
  clientAnnexLogStore spaceId generationId (id_pinStore (go_idStore o)) None = Ok store →
  store = pwsWebvhLogStore spaceId generationId (id_pinStore (go_idStore o)) None.
Proof. unfold clientAnnexLogStore. rewrite result_bind_ok. by intros (? & _ & [= <-]). Qed.

Lemma generation_read F spaceId generationId expectedDid :
  triple (holds F) (readClientAnnexGeneration spaceId generationId (id_pinStore (go_idStore o)) expectedDid)
    (λ published w, ∃ read, match published with Some p => resolves read p | None => read = None end ∧
       holds (annex_answered (generation_handle spaceId generationId) read :: F) w)
    (λ _, holds F).
Proof.
  unfold readClientAnnexGeneration.
  eapply (triple_bind _ _ _ (λ store w, clientAnnexLogStore spaceId generationId (id_pinStore (go_idStore o)) None = Ok store ∧ holds F w)).
  { apply triple_lift. intros w Hw. by destruct (clientAnnexLogStore _ _ _ _). }
  intros store. apply triple_pure. intros ->%generation_store.
  apply (read_records I past _ (annex_answered (generation_handle spaceId generationId))); [intros F'; apply (env_annex env)|apply env..].
Qed.

(** ** The swap *)

Let any : PublishedWebvhLog → Prop := λ _, True.

Lemma pins_store_keeps F spaceId generationId :
  store_keeps (holds F) any (pwsWebvhLogStore spaceId generationId (id_pinStore (go_idStore o)) None).
Proof.
  constructor; cbn.
  - eapply triple_conseq; [apply (env_annex env)|done| |done]. intros read w Hw. split; [done|]. eapply known_mono; [|exact Hw]. set_solver.
  - intros id. apply (env_pin_read env).
  - intros id pin. apply (env_pin_write env).
Qed.

Lemma gc_account_keeps : store_keeps (holds []) any (go_idStore o).
Proof.
  constructor.
  - eapply triple_conseq; [apply (env_account env)|done| |done]. intros read w Hw. split; [done|]. eapply known_mono; [|exact Hw]. set_solver.
  - intros id. apply (env_pin_read env).
  - intros id pin. apply (env_pin_write env).
Qed.

Lemma mint_keeps place controller ladderSeed standing :
  mp_pinStore place = id_pinStore (go_idStore o) → mp_capability place = None →
  keeps (holds []) (mintCredentialClientAnnexGeneration createDID place controller ladderSeed standing).
Proof.
  intros Hpin Hcap. unfold mintCredentialClientAnnexGeneration, ensureClientAnnexSpace, mintGenerationId. rewrite Hcap.
  apply keeps_bind.
  { apply keeps_bind; [|intros; apply keeps_ret]. apply keeps_bind; [apply (env_describe env)|].
    intros [read|]; [apply keeps_lift|]. apply keeps_bind; [apply (env_configure_space env)|intros; apply keeps_lift]. }
  intros space. apply keeps_bind; [apply keeps_bind; [apply (env_random env)|intros; apply keeps_ret]|]. intros generationId.
  apply keeps_bind; [apply keeps_lift|]. intros rung. apply keeps_bind; [apply keeps_lift|]. intros signer.
  apply keeps_bind; [|intros; apply keeps_ret]. unfold publishClientAnnexGenesis.
  apply keeps_bind; [apply (env_configure env)|]. intros _. apply keeps_bind; [apply keeps_lift|]. intros created.
  rewrite Hpin, Hcap.
  eapply (triple_bind _ _ _ (λ store w, clientAnnexLogStore (mp_spaceId place) generationId (id_pinStore (go_idStore o)) None = Ok store ∧ holds [] w)).
  { apply triple_lift. intros w Hw. by destruct (clientAnnexLogStore _ _ _ _). }
  intros store. apply triple_pure. intros ->%generation_store. apply keeps_bind; [|intros; apply keeps_ret].
  unfold putLogResource. apply keeps_bind; [apply keeps_try; [apply (env_annex_put env)|intros; apply keeps_throw]|].
  intros written. apply keeps_bind; [apply keeps_lift|]. intros pin. apply keeps_bind; [apply (env_pin_write env)|]. intros. apply keeps_ret.
Qed.

Lemma install_keeps spaceId generationId renewal head :
  ro_store renewal = pwsWebvhLogStore spaceId generationId (id_pinStore (go_idStore o)) None →
  (∀ did, keeps (holds []) (ro_mintGenerationDelegation renewal did)) →
  keeps (holds []) (ensureGenerationDelegationCurrent updateDID renewal head).
Proof.
  intros Hst Hm. eapply triple_post; [apply (renew_keeps updateDID (holds []) any)|by intros a w [_ Hw]|done].
  - rewrite Hst. apply pins_store_keeps.
  - done.
  - apply Hm.
  - intros published updated _ _. rewrite Hst. apply (env_annex_put env).
Qed.

Lemma revoke_keeps F revoke delegation now doc :
  (∀ zcap, keeps (holds F) (revoke zcap)) → keeps (holds F) (revokeTreatingAlreadyRevokedAsSuccess revoke delegation now doc).
Proof.
  intros Hr. unfold revokeTreatingAlreadyRevokedAsSuccess. destruct (delegationExpired _ _); [apply keeps_ret|].
  apply keeps_try; [apply keeps_bind; [apply Hr|intros; apply keeps_ret]|]. intros err.
  repeat case_decide; try case_match; try case_match; solve [apply keeps_ret|apply keeps_throw].
Qed.

Lemma replace_keeps so spaceId old head :
  so_idStore so = go_idStore o → so_delegate so = go_delegate o →
  keeps (holds []) (replaceClientAnnexGeneration updateDID createDID logger so spaceId old head).
Proof.
  intros Hid Hdel. unfold replaceClientAnnexGeneration. rewrite Hid.
  apply keeps_bind; [apply keeps_lift|]. intros standing. apply keeps_bind; [by apply mint_keeps|]. intros minted.
  eapply (triple_bind _ _ _ (λ store w, clientAnnexLogStore spaceId (min_generationId minted) (id_pinStore (go_idStore o)) None = Ok store ∧ holds [] w)).
  { apply triple_lift. intros w Hw. by destruct (clientAnnexLogStore _ _ _ _). }
  intros store. apply triple_pure. intros ->%generation_store. apply keeps_bind.
  { eapply install_keeps; [done|]. intros did. cbn. unfold mintGenerationDelegation.
    apply keeps_bind; [apply keeps_lift|]. intros parts. rewrite Hdel. apply (env_delegate env). }
  intros installed. apply keeps_bind.
  { unfold revokeOldDelegation. destruct old as [old|]; [|apply keeps_ret]. destruct (embeddedGenerationDelegation _); [|apply keeps_ret].
    apply keeps_try; [|intros; apply keeps_ret]. apply keeps_bind; [apply revoke_keeps, env_revoke_keeps|intros; apply keeps_ret]. }
  intros revoke. apply keeps_bind; [|intros; apply keeps_ret].
  assert (∀ put, keeps (holds []) (putIdResource (go_idStore o) put)) as Hput.
  { intros put. apply (env_account_put env []). }
  eapply triple_post; [apply (pointer_keeps updateDID logger (holds []) any)|by intros a w [_ Hw]|done]; cbn [po_idStore po_projectionStore].
  - apply gc_account_keeps.
  - done.
  - apply (env_logger env).
  - intros s doc [= <-]. apply Hput.
  - intros published updated _ _. apply Hput.
Qed.

Lemma decide_keeps F pointedDid parts headPointer : keeps (holds F) (decideSwap o pointedDid parts headPointer).
Proof.
  unfold decideSwap. case_decide; [apply keeps_ret|]. apply keeps_bind.
  { eapply triple_post; [apply generation_read| |done]. intros p w (read & _ & Hw). eapply known_mono; [|exact Hw]. set_solver. }
  intros pointed. apply keeps_bind; [apply keeps_lift|]. intros readmits. apply keeps_bind; [apply keeps_lift|]. intros due.
  destruct due; [|apply keeps_ret]. cbn [negb]. destruct (match pointed with Some _ => _ | None => _ end); [apply keeps_ret|].
  destruct (go_ladderSeed o) as [seed|]; [|apply keeps_ret]. apply keeps_bind; [|intros; apply keeps_ret].
  destruct pointed; [apply keeps_ret|]. unfold assertAnnexSpacePresent, readSpaceMetadata. apply keeps_bind.
  - apply keeps_bind.
    + apply keeps_try; [apply keeps_bind; [apply (env_meta env)|intros; apply keeps_ret]|]. intros err. case_decide; [apply keeps_ret|apply keeps_throw].
    + intros [status|]; [|apply keeps_ret]. repeat case_decide; solve [apply keeps_ret|apply keeps_throw].
  - intros [|]; [apply keeps_ret|apply keeps_throw].
Qed.

(** A swap that reached no write leaves what was known of the account. *)
Lemma swap_keeps F pointedDid parts head headPointer :
  triple (holds F) (gcSwap updateDID createDID logger o pointedDid parts head headPointer)
    (λ result w, if (result.2 : bool) then holds [] w else holds F w) (λ _, holds F).
Proof.
  unfold gcSwap. eapply (triple_try _ _ _ _ _ (λ _, holds F)); [|intros err; by apply triple_ret].
  eapply triple_bind; [apply decide_keeps|]. intros [outcome|pointed readmits seed]; [by apply triple_ret|].
  eapply (triple_conseq (holds []) _ _ _ _ (λ _, holds F)); [|intros w; apply (known_mono F []); set_solver|intros a w Hw; exact Hw|done].
  eapply (triple_try _ _ _ _ (λ _, holds F) (λ _, holds [])); [|intros err; by apply triple_ret].
  eapply (triple_bind _ _ _ (λ _, holds [])); [by apply replace_keeps|]. intros swap. by apply triple_ret.
Qed.
(** ** The collection *)

Lemma dead_mono F F' delegation doc : F ⊆ F' → dead F delegation doc → dead F' delegation doc.
Proof. unfold dead. intros Hsub [He|[Hr|(err & Hr & Hc)]]; [by left|right; left; auto|right; right; eauto]. Qed.

(** A revocation that returns leaves a dead delegation. *)
Lemma revoke_evidence F delegation doc :
  triple (holds F) (revokeTreatingAlreadyRevokedAsSuccess revokeZcap delegation (go_now o) doc)
    (λ _ w, ∃ F', F ⊆ F' ∧ dead F' delegation doc ∧ holds F' w) (λ _, holds F).
Proof.
  eapply triple_conseq; [apply (revoke_told (holds F) (λ refusal, holds (revoke_answered delegation refusal :: F))), (env_revoke env)|done| |].
  - intros outcome w [[He Hw]|[Hw|(err & Hc & Hw)]]; [exists F; split; [done|]; split; [by left|done]|..];
      (eexists; split; [|split; [|exact Hw]]; [set_solver|]); right; [by left; left|right; exists err; split; [by left|done]].
  - intros err w. apply known_mono. set_solver.
Qed.

Lemma settle_evidence F generationId doc published :
  triple (holds F) (settleGeneration o generationId doc published)
    (λ _ w, ∃ F', F ⊆ F' ∧ (∀ delegation, embeddedGenerationDelegation (pub_doc published) = Some delegation → dead F' delegation doc) ∧
       digest_written (digestOf generationId published) ∈ F' ∧ holds F' w)
    (λ _, holds F).
Proof.
  unfold settleGeneration. eapply (triple_bind _ _ _ (λ _ w, ∃ F', (F ⊆ F' ∧
    ∀ delegation, embeddedGenerationDelegation (pub_doc published) = Some delegation → dead F' delegation doc) ∧ holds F' w)).
  - destruct (embeddedGenerationDelegation (pub_doc published)) as [delegation|].
    + eapply triple_bind; [apply revoke_evidence|]. intros ?. apply triple_ret. intros w (F' & Hs & Hd & Hw). exists F'.
      split; [|done]. split; [done|]. by intros ? [= <-].
    + apply triple_ret. intros w Hw. exists F. split; [|done]. by split.
  - intros ?. apply triple_exists. intros F'. apply triple_pure. intros [Hs Hd].
    eapply triple_conseq; [apply (env_digest env F')|done| |intros e w; by apply known_mono].
    intros ? w Hw. exists (digest_written (digestOf generationId published) :: F'). split_and!; [set_solver| |set_solver|done].
    intros delegation He. eapply dead_mono; [|by apply Hd]. set_solver.
Qed.

(** What the collection of one generation leaves. *)
Definition collected_evidence (F : list host_fact) (spaceId generationId : string) (outcome : CollectOutcome) (w : W) : Prop :=
  holds F w ∧ match outcome with collected => past (collection_deleted spaceId generationId) w | deferred => True end.

Lemma drop_evidence F spaceId generationId F' :
  F ⊆ F' → may_delete F' spaceId generationId →
  triple (holds F') (dropGeneration o spaceId generationId) (collected_evidence F spaceId generationId) (λ _, holds F).
Proof.
  intros Hs Hd. unfold dropGeneration. eapply triple_throws; [|intros e w; by apply (known_mono F')].
  eapply triple_bind; [eapply triple_throws; [by apply (env_delete env)|done]|]. intros ?.
  eapply triple_throws; [|intros e w; apply (known_mono (collection_deleted spaceId generationId :: F')); set_solver].
  eapply (triple_bind _ _ _ (λ _, holds (collection_deleted spaceId generationId :: F'))).
  - destruct (go_onCollected o) as [run|] eqn:Hr; [by apply (env_collected env _ run)|apply keeps_ret].
  - intros ?. apply triple_ret. intros w Hw. split; [eapply known_mono; [|exact Hw]; set_solver|]. destruct Hw as [_ Hw]. apply Hw. by left.
Qed.

(** The head a collection stands on: served, and pointing elsewhere. *)
Definition points_elsewhere (F : list host_fact) (fresh : PublishedWebvhLog) (spaceId generationId : string) : Prop :=
  startsWith generationId GENERATION_ID_PREFIX = true ∧ served_account F fresh ∧
  ∃ pointer parts, delegatedClientsPointer (pub_doc fresh) = Some pointer ∧ clientAnnexDidParts pointer = Ok parts ∧
    (ap_spaceId parts = spaceId → ap_generationId parts ≠ generationId).

Lemma served_mono F F' fresh : F ⊆ F' → served_account F fresh → served_account F' fresh.
Proof. intros Hs (read & Hr & Hres). exists read. auto. Qed.

Lemma collect_evidence F fresh spaceId generationId :
  points_elsewhere F fresh spaceId generationId →
  triple (holds F) (collectOneGeneration o spaceId generationId (pub_doc fresh) (delegatedClientsPointerHistory (pub_log fresh)))
    (collected_evidence F spaceId generationId) (λ _, holds F).
Proof.
  intros (Hpre & Hserved & pointer & parts & Hptr & Hparts & Helse). unfold collectOneGeneration.
  eapply triple_bind; [apply generation_read|]. intros [published|]; cbn beta iota; apply triple_exists; intros read; apply triple_pure; intros Hread.
  - set (F1 := annex_answered (generation_handle spaceId generationId) read :: F).
    assert (F ⊆ F1) as Hs1 by (unfold F1; set_solver). case_decide as Hq.
    { apply triple_ret. intros w Hw. split; [by apply (known_mono F1)|done]. }
    eapply triple_throws; [|intros e w; by apply (known_mono F1)].
    eapply triple_bind; [apply settle_evidence|]. intros ?. apply triple_exists. intros F2.
    intros w (Hs2 & Hd & Hdig & Hw). revert w Hw.
    eapply triple_conseq; [apply (drop_evidence F1 _ _ F2 Hs2)|done|intros outcome w [Hw ?]; split; [by apply (known_mono F1)|done]|done].
    split; [done|]. exists fresh, pointer, parts. split_and!; [|done..|].
    { eapply served_mono; [|exact Hserved]. set_solver. }
    right. exists read, published. split_and!; [apply Hs2; by left|done|].
    split_and!; [|done|done]. destruct (decide (pub_did published ∈ delegatedClientsPointerHistory (pub_log fresh))); [by left|].
    right. destruct (generationQuiet _ _); [done|]. by destruct Hq.
  - apply drop_evidence; [set_solver|]. split; [done|]. exists fresh, pointer, parts. split_and!; [|done..|].
    { eapply served_mono; [|exact Hserved]. set_solver. }
    left. rewrite Hread. by left.
Qed.

(** The fan-out: what it says it collected was asked for deletion. *)
Lemma fan_out_evidence F fresh spaceId stale :
  (∀ generationId, generationId ∈ stale → points_elsewhere F fresh spaceId generationId) →
  triple (holds F) (promise_all (collectGeneration o spaceId fresh) stale)
    (λ outcomes w, holds F w ∧ ∀ generationId, was_collected generationId ∈ outcomes →
       generationId ∈ stale ∧ past (collection_deleted spaceId generationId) w)
    (λ _, holds F).
Proof.
  revert F. induction stale as [|g stale IH]; intros F Hp; cbn [promise_all].
  { apply triple_ret. intros w Hw. split; [done|]. by intros g ?%elem_of_nil. }
  eapply (triple_bind _ _ _ (λ outcome w, ∃ F', (F ⊆ F' ∧
     ∀ g', outcome = was_collected g' → g' = g ∧ collection_deleted spaceId g ∈ F') ∧ holds F' w)).
  - unfold collectGeneration. eapply (triple_try _ _ _ _ _ (λ _, holds F)).
    + eapply triple_bind; [apply collect_evidence, Hp; by left|]. intros outcome. apply triple_ret. intros w [Hw Hdel]. destruct outcome.
      * exists (collection_deleted spaceId g :: F). split; [split; [set_solver|]|by apply known_app]. intros g' [= <-]. split; [done|by left].
      * exists F. by split.
    + intros err. apply triple_ret. intros w Hw. exists F. by split.
  - intros outcome. apply triple_exists. intros F'. apply triple_pure. intros [Hs Hout].
    eapply triple_bind.
    + eapply triple_throws; [apply (IH F')|intros e w; by apply known_mono]. intros g' Hg'.
      destruct (Hp g') as (Hpre & Hserved & Hrest); [by right|]. split; [done|]. split; [by eapply served_mono|done].
    + intros outcomes. apply triple_ret. intros w [Hw Hc]. split; [by apply (known_mono F')|].
      intros g' [Hg|Hg]%elem_of_cons; [|destruct (Hc g' Hg); split; [by right|done]].
      destruct (Hout g' (eq_sym Hg)) as [-> Hin]. split; [by left|]. destruct Hw as [_ Hw]. auto.
Qed.

(** What a report says of the deletions. *)
Definition report_true (gc : ClientAnnexGcReport) (w : W) : Prop :=
  ∀ generationId, generationId ∈ gc_collected gc →
    ∃ did parts pointer current, delegatedClientsPointer (pub_doc (go_account o)) = Some did ∧ clientAnnexDidParts did = Ok parts ∧
      gc_pointedDid gc = Some pointer ∧ clientAnnexDidParts pointer = Ok current ∧
      (ap_spaceId current = ap_spaceId parts → ap_generationId current ≠ generationId) ∧
      past (collection_deleted (ap_spaceId parts) generationId) w.

Lemma collectStale_evidence F did parts swap failed fresh :
  delegatedClientsPointer (pub_doc (go_account o)) = Some did → clientAnnexDidParts did = Ok parts → served_account F fresh →
  triple (holds F) (collectStale o (ap_spaceId parts) swap failed fresh) (λ gc w, report_true gc w ∧ I w) (λ _, I).
Proof.
  intros Hdid Hparts Hserved. unfold collectStale. destruct (delegatedClientsPointer (pub_doc fresh)) as [pointer|] eqn:Hptr.
  2:{ apply triple_ret. intros w [Hw _]. split; [|done]. by intros g ?%elem_of_nil. }
  eapply (triple_throws _ _ _ (λ _, holds F)); [|intros e w [Hw _]; exact Hw].
  eapply (triple_bind _ _ _ (λ current w, clientAnnexDidParts pointer = Ok current ∧ holds F w)).
  { apply triple_lift. intros w Hw. by destruct (clientAnnexDidParts pointer). }
  intros current. apply triple_pure. intros Hcur. eapply (triple_bind _ _ _ (λ _, holds F)); [apply (env_pages env)|]. intros pages.
  assert (∀ g, g ∈ staleGenerations (if decide (ap_spaceId current = ap_spaceId parts) then Some (ap_generationId current) else None) pages →
    startsWith g GENERATION_ID_PREFIX = true ∧ (ap_spaceId current = ap_spaceId parts → ap_generationId current ≠ g)) as Hstale.
  { intros g [[Hpre Hne] _]%list_elem_of_filter. split; [done|]. intros Hsp <-. by rewrite decide_True in Hne. }
  eapply triple_bind; [apply fan_out_evidence|].
  { intros g [Hpre Helse]%Hstale. split; [done|]. split; [done|]. by exists pointer, current. }
  intros outcomes. apply triple_ret. intros w [[Hw _] Hc]. split; [|done]. intros g Hg. cbn in Hg.
  apply list_elem_of_omap in Hg as (outcome & Hin & Hg). destruct outcome; simplify_eq. apply Hc in Hin as [Hin Hdel].
  exists did, parts, pointer, current. split_and!; [done..| |done]. by apply Hstale.
Qed.

(** C28: a pass of the garbage collection asks for the deletion of a generation
    only on this evidence: an account head that was served since the account
    log was last written, whose pointer names another generation; and either
    that the generation has no log, or its log, superseded in the history of
    that head or quiet for a day and an hour, whose embedded delegation no
    server honors any more (expired, revoked in this pass, or refused in a way
    that says so) and whose digest was written. So neither the generation a
    visit would enroll into nor a sibling's recent mint whose genesis stands is
    ever asked for; the swap in the same pass, its re-point and every error
    included. And what the report lists as collected was deleted, and is not
    what it reports the pointer names. *)
Theorem gc_deletes_only_the_dead : triple (holds []) (runClientAnnexGc updateDID createDID logger o) (λ gc w, report_true gc w ∧ I w) (λ _, I).
Proof.
  unfold runClientAnnexGc. destruct (delegatedClientsPointer (pub_doc (go_account o))) as [did|] eqn:Hdid.
  2:{ apply triple_ret. intros w [Hw _]. split; [|done]. by intros g ?%elem_of_nil. }
  eapply (triple_throws _ _ _ (λ _, holds [])); [|intros e w [Hw _]; exact Hw].
  eapply (triple_bind _ _ _ (λ parts w, clientAnnexDidParts did = Ok parts ∧ holds [] w)).
  { apply triple_lift. intros w Hw. by destruct (clientAnnexDidParts did). }
  intros parts. apply triple_pure. intros Hparts. eapply triple_bind; [apply account_head|].
  intros head. apply triple_exists. intros read. apply triple_pure. intros Hread.
  destruct (delegatedClientsPointer (pub_doc head)) as [headPointer|].
  2:{ apply triple_ret. intros w [Hw _]. split; [|done]. by intros g ?%elem_of_nil. }
  eapply triple_bind; [eapply (triple_throws _ _ _ (λ _, holds [account_answered read])); [apply swap_keeps|intros e w; apply known_mono; set_solver]|].
  intros [[swap failed] wrote]. cbn [snd]. destruct wrote.
  - eapply triple_bind; [apply account_head|]. intros fresh. apply triple_exists. intros read'. apply triple_pure. intros Hread'.
    eapply triple_throws; [apply (collectStale_evidence [account_answered read'] did); [done..|exists read'; split; [by left|done]]|].
    intros e w Hw. split; [done|]. by intros f ?%elem_of_nil.
  - eapply (triple_bind _ _ _ (λ fresh w, fresh = head ∧ holds (account_answered read :: []) w)); [by apply triple_ret|].
    intros fresh. apply triple_pure. intros ->.
    eapply triple_throws; [apply (collectStale_evidence [account_answered read] did); [done..|exists read; split; [by left|done]]|].
    intros e w Hw. split; [done|]. by intros f ?%elem_of_nil.
Qed.
End evidence.

(** * When the garbage collection is due

    The walk of [delegatedClientsPointerEstablishedAt] against the plain
    reading of a log: the entry that began the run of entries pointing where
    the last one does. *)

Definition pointer_at (entry : DIDLogEntry) : option string := state entry ≫= delegatedClientsPointer.

(** A log whose last entries, from [first] on, all point at one generation,
    and whose entry before them does not. *)
Definition last_run (log before : DIDLog) (first : DIDLogEntry) (pointed : string) : Prop :=
  ∃ run, log = before ++ first :: run ∧ Forall (λ entry, pointer_at entry = Some pointed) (first :: run) ∧
    (last before ≫= pointer_at) ≠ Some pointed.

Definition stated (log : DIDLog) : Prop := Forall (λ entry, is_Some (state entry)) log.

Lemma established_step establishedAt previous entry log :
  is_Some (state entry) →
  establishedFrom establishedAt previous (entry :: log) =
    establishedFrom
      (match pointer_at entry with
       | Some _ => if decide (pointer_at entry ≠ previous) then Some (versionTime entry) else establishedAt
       | None => None
       end) (pointer_at entry) log.
Proof. intros [doc Hd]. cbn. unfold pointer_at. by rewrite Hd. Qed.

Lemma established_app establishedAt previous log log' t previous' :
  stated log → establishedFrom establishedAt previous log = Ok t → previous' = (last log ≫= pointer_at) → log ≠ [] →
  establishedFrom establishedAt previous (log ++ log') = establishedFrom t previous' log'.
Proof.
  revert establishedAt previous. induction log as [|entry log IH]; intros establishedAt previous Hs He Hp Hne; [done|].
  inversion Hs as [|?? Hd Hs']; subst. rewrite <- app_comm_cons, established_step by done. rewrite established_step in He by done.
  destruct log as [|entry' log]; [by injection He as <-|]. by apply IH.
Qed.

(** The run of one pointer. *)
Lemma established_run establishedAt run pointed :
  stated run → Forall (λ entry, pointer_at entry = Some pointed) run →
  establishedFrom establishedAt (Some pointed) run = Ok establishedAt.
Proof.
  revert establishedAt. induction run as [|entry run IH]; intros establishedAt Hs Hr; [done|].
  inversion Hs; inversion Hr as [|?? Hp Hr']; subst. rewrite established_step, Hp, decide_False by naive_solver. by apply IH.
Qed.

Lemma established_total establishedAt previous log : stated log → ∃ t, establishedFrom establishedAt previous log = Ok t.
Proof.
  revert establishedAt previous. induction log as [|entry log IH]; intros establishedAt previous Hs; [by eexists|].
  inversion Hs; subst. rewrite established_step by done. by apply IH.
Qed.

Lemma established_last_run log before first pointed :
  stated log → last_run log before first pointed → delegatedClientsPointerEstablishedAt log = Ok (Some (versionTime first)).
Proof.
  intros Hs (run & -> & Hrun & Hbefore). apply Forall_app in Hs as [Hsb Hsr]. inversion Hrun as [|?? Hp Hr]; subst.
  assert (∀ t previous, previous ≠ Some pointed → establishedFrom t previous (first :: run) = Ok (Some (versionTime first))) as Hgo.
  { intros t previous Hne. inversion Hsr; subst. rewrite established_step, Hp, decide_True by naive_solver. by apply established_run. }
  unfold delegatedClientsPointerEstablishedAt. destruct (established_total None None before Hsb) as [t Ht].
  destruct (decide (before = [])) as [->|Hne]; [by apply Hgo|]. erewrite established_app; [by apply Hgo|done..].
Qed.

(** Every log that points somewhere has its last run. *)
Lemma last_run_exists log pointed : (last log ≫= pointer_at) = Some pointed → ∃ before first, last_run log before first pointed.
Proof.
  induction log as [|entry log IH] using rev_ind; [done|]. rewrite last_snoc. cbn. intros Hp.
  destruct (decide ((last log ≫= pointer_at) = Some pointed)) as [Hl|Hl].
  - destruct (IH Hl) as (before & first & run & -> & Hrun & Hb). exists before, first, (run ++ [entry]).
    split; [by rewrite <- app_assoc|]. split; [|done]. rewrite app_comm_cons. apply Forall_app. split; [done|by apply Forall_singleton].
  - exists log, entry, []. split; [done|]. split; [by apply Forall_singleton|done].
Qed.

Lemma established_unpointed log : stated log → (last log ≫= pointer_at) = None → delegatedClientsPointerEstablishedAt log = Ok None.
Proof.
  intros Hs. destruct log as [|entry log _] using rev_ind; [done|]. rewrite last_snoc. cbn. intros Hp.
  apply Forall_app in Hs as [Hs Hse]. inversion Hse; subst. unfold delegatedClientsPointerEstablishedAt.
  destruct (established_total None None log Hs) as [t Ht].
  destruct (decide (log = [])) as [->|Hne]; [cbn [app]; by rewrite established_step, Hp|].
  erewrite established_app; [|done..]. by rewrite established_step, Hp.
Qed.

(** Over a log whose entries carry documents the cadence never throws, and
    is due exactly when the log's last entry points at a generation and the
    entry that began the present run of entries pointing there has a time that
    parses and is at least ninety days old: an earlier visit to the same
    pointer, an entry that moved away and back, or one that took the pointer
    out all restart the count. *)
Theorem gc_due_reads_the_present_run `{!JsHost} log now :
  stated log →
  ∃ due, clientAnnexGcDue log now = Ok due ∧
    (due = true ↔ ∃ before first pointed time, last_run log before first pointed ∧ date_parse (versionTime first) = Some time ∧
       (GENERATION_GC_PERIOD_MS ≤ now - time)%Z).
Proof.
  intros Hs. unfold clientAnnexGcDue. destruct (last log ≫= pointer_at) as [pointed|] eqn:Hp.
  - destruct (last_run_exists _ _ Hp) as (before & first & Hrun). rewrite (established_last_run _ _ _ _ Hs Hrun). cbn.
    eexists. split; [done|]. split.
    + destruct (date_parse _) as [time|] eqn:Hd; [|done]. intros ?%bool_decide_eq_true. by exists before, first, pointed, time.
    + intros (before' & first' & pointed' & time & Hrun' & Hd & Hle).
      pose proof (established_last_run _ _ _ _ Hs Hrun) as H1. rewrite (established_last_run _ _ _ _ Hs Hrun') in H1.
      injection H1 as H1. rewrite <- H1, Hd. by apply bool_decide_eq_true.
  - rewrite (established_unpointed _ Hs Hp). exists false. split; [done|]. split; [done|].
    intros (before & first & pointed & time & (run & -> & Hrun & _) & _). exfalso.
    destruct run as [|entry run _] using rev_ind.
    + rewrite last_snoc in Hp. inversion Hrun; subst. cbn in Hp. congruence.
    + rewrite app_comm_cons, app_assoc, last_snoc in Hp. rewrite app_comm_cons, Forall_app in Hrun. destruct Hrun as [_ Hrun].
      inversion Hrun; subst. cbn in Hp. congruence.
Qed.
