(* ===== verification/AnnexDemo.v ===== *)
(** * A concrete annex

    An account whose pointer moved from one generation to the next, a writer
    that commits another, a visit, a re-point through a lost race, and a pass
    that collects the generation left behind. *)

From S2P Require Import Prelude Json JsText ConnEntry CeremonyEvents AccountDocument LadderRungs LadderDemo AccountLog LogStore KeyRotation LadderIndex LadderInventory ClientListing ClientRevocation AccountEntry EntryDiscipline UserKeyRoster AnnexDocument AnnexLog AnnexGenesis AnnexDiscipline AnnexGc AnnexGcSafety.

Module AnnexDemo.

#[export] Instance hashes : HashLibrary := {| hkdf_sha256 seed _ info _ := (seed ++ "/" ++ info)%string |}.
#[export] Instance host : JsHost := {| date_parse s := parseInt s; toISOString n := pretty n; url_href := Some |}.
#[export] Instance signers : SignerReaders := {| parseVersionedVm _ := None; relationMemberNamed _ _ _ _ := None |}.
#[export] Instance hash_inj : Inj (=) (=) deriveNextKeyHash.
Proof. intros a b Hab. unfold deriveNextKeyHash, demo_keys in Hab. exact (inj (String.app "#") _ _ Hab). Qed.

(** ** Logs *)

Definition genA : string := "gen-aaaaaaaaaaaaaaaa".
Definition genB : string := "gen-bbbbbbbbbbbbbbbb".
Definition annex_did (generation : string) : string := "did:webvh:s:host:space:annex:" ++ generation.
Definition didA : string := annex_did genA.
Definition didB : string := annex_did genB.

Definition doc_of (id : string) (methods : list ResolvedKeyAgreementMethod) (services : list members) : AccountDocument :=
  mkDocument id (Some methods) (λ _, Some []) (Some services).
Definition account_doc (pointed : string) : AccountDocument :=
  doc_of "did:account" [] [delegatedClientsServiceEntry "did:account" pointed].
Definition entry (time signer : string) (A C : list string) (doc : AccountDocument) : DIDLogEntry :=
  mkEntry "1" time None None (Some A) (Some C) (Some doc) (Some [Some signer]).

(** The account, before and after the pointer moved. *)
Definition account_old : DIDLog := [entry "0" "u" ["u"] ["#u"] (account_doc didA)].
Definition account_new : DIDLog := account_old ++ [entry "1000" "u" ["u"] ["#u"] (account_doc didB)].
Definition rung (seed : string) : string := (seed ++ "/annex/rung/0")%string.
Definition hash_of (seed : string) : string := ("#" ++ rung seed)%string.

(** The generation: its genesis by one credential, which commits a second. *)
Definition genesis : DIDLog := [entry "0" (rung "K") [rung "K"] [hash_of "K"; hash_of "L"] (doc_of didB [] [])].
Definition visitor (did : string) : ResolvedKeyAgreementMethod :=
  mkMethod (Some (did ++ "#t")%string) (Some MULTIKEY_VM_TYPE) (Some did) (Some "t") None None.
Definition visited : DIDLog :=
  genesis ++ [entry "1" (rung "L") [rung "K"; rung "L"] [hash_of "K"; hash_of "L"] (doc_of didB [visitor didB] [])].
Definition committed : DIDLog :=
  genesis ++ [entry "1" (rung "K") [rung "K"] [hash_of "K"; hash_of "L"; hash_of "M"] (doc_of didB [] [])].
(** The generation left behind. *)
Definition abandoned : DIDLog := [entry "0" (rung "K") [rung "K"] [hash_of "K"]
  (doc_of didA [] [generationDelegationServiceEntry didA (JObj [("id", JStr "urn:zcap")])])].

Definition known : list (string * DIDLog) :=
  [("account_old", account_old); ("account_new", account_new); ("genesis", genesis); ("visited", visited);
   ("committed", committed); ("abandoned", abandoned)].

(** What tells the known logs apart. *)
Definition reading (log : DIDLog) : list string * list string * option string * list (option string) :=
  (currentLogParameters log, (last log ≫= state) ≫= delegatedClientsPointer,
   method_id <$> default [] ((last log ≫= state) ≫= verificationMethod)).
Definition text_of (log : DIDLog) : string :=
  match list_find (λ k : string * DIDLog, reading k.2 = reading log) known with Some (_, (text, _)) => text | None => "other" end.
Definition log_of (text : string) : option DIDLog := assoc_get text known.

#[export] Instance writer : WebvhWriter := {|
  WebDoc := ();
  Signer := string;
  logToJsonlString := text_of;
  generateParallelDidWeb _ _ := ();
  updateKeyMultibase seed := Ok seed;
  updateKeySigner seed := Ok seed
|}.
Definition last_doc (log : DIDLog) : AccountDocument := default empty_document (last log ≫= state).
#[export] Instance resolver : WebvhResolver := {|
  readLogFromString text := match log_of text with Some log => Ok log | None => Throw (plain_error "unreadable") end;
  resolveDIDFromLog log :=
    Ok (mkResolution (Some (document_id (last_doc log))) (Some (last_doc log))
      (mkMeta None (Some (currentLogParameters log).1) (Some (currentLogParameters log).2)))
|}.

(** The library's update: what is stated replaces, the rest is carried. *)
Definition updated_doc (doc : AccountDocument) (fields : option DocumentFields) (services : option (list members)) : AccountDocument :=
  mkDocument (document_id doc)
    (match fields with Some f => Some (fields_methods f) | None => verificationMethod doc end)
    (relationOf doc) (match services with Some s => Some s | None => doc_service doc end).
Definition updateDID : UpdateDID := λ log _ signer fields services A C,
  let doc := updated_doc (last_doc log) fields services in
  Ok (mkUpdated (document_id doc) doc (log ++ [entry "now" signer A C doc]) (mkMeta None (Some A) (Some C)) None).

Definition split_path (rest : string) : result (string * string) := Ok (rest, rest).
#[export] Instance addresses : WebvhAddresses := {|
  normalizeCreateDidAddress a b c d := Ok a;
  SCID_PLACEHOLDER := "{SCID}";
  getBaseUrl := Ok;
  getFileUrl := Ok;
  splitCollectionUrl := split_path;
  spaceIdOfUrl := Ok;
  baseServerUrlOf := Ok;
  resourceUrl a b c := Ok a;
  resourceLogPinId a b c := (a ++ "/" ++ b)%string;
  hrefOf := Ok
|}.

(** ** The host *)

Record world := mkWorld { account_text : string; annex_text : string; races : nat; facts : list host_fact }.
Definition noting (fact : host_fact) (w : world) : world := mkWorld (account_text w) (annex_text w) (races w) (fact :: facts w).
Definition past (fact : host_fact) (w : world) : Prop := fact ∈ facts w.

Definition precondition_failed : js_error := JsError "PreconditionFailedError" "".
(** A conditional put of a text, where no other client comes first. *)
Definition put_text (served : world → string) (store : string → world → world) (text : string) (ifMatch : option string) :
    comp world (option (option string)) := λ w,
  if decide (races w ≠ 0) then (Throw precondition_failed, mkWorld (account_text w) (annex_text w) (pred (races w)) (facts w))
  else if decide (ifMatch ≠ Some (served w)) then (Throw precondition_failed, w)
  else if decide (log_of text = None) then (Throw (plain_error "refused"), w)
  else (Ok (Some (Some text)), store text w).
Definition store_account (text : string) (w : world) : world := mkWorld text (annex_text w) (races w) (facts w).
Definition store_annex (text : string) (w : world) : world := mkWorld (account_text w) text (races w) (facts w).
Definition pins : ResourceLogPinStore world := mkPinStore (λ _, mret None) (λ _ _, mret ()).

Definition put_account (put : PutIdResource) : comp world (option (option string)) :=
  match put_content put with LogText text => put_text account_text store_account text (put_ifMatch put) | WebDocument _ => mret None end.
Definition account_store : WebvhIdStore world :=
  mkIdStore (λ _ w, let read := Some (account_text w, Some (account_text w)) in (Ok read, noting (account_answered read) w))
    put_account pins "account".

Definition annex_read (handle : CollectionHandle) (w : world) : option (string * option string) :=
  if decide (h_collectionId handle = genB) then Some (annex_text w, Some (annex_text w))
  else if decide (h_collectionId handle = genA) then Some ("abandoned", Some "abandoned") else None.
#[export] Instance pws : PwsResources world := {|
  getTextWithEtag handle _ w := (Ok (annex_read handle w), noting (annex_answered handle (annex_read handle w)) w);
  putBytes _ _ text _ ifMatch _ := put_text annex_text store_annex text ifMatch;
  stringifyDocument _ := ""
|}.
Definition store_of (generationId : string) : WebvhIdStore world := pwsWebvhLogStore "annex" generationId pins None.
Definition annex_store : WebvhIdStore world := store_of genB.

(** A head is what the text its validator names says. *)
Definition read_from (published : PublishedWebvhLog) : Prop :=
  ∃ text, pub_etag published = Some text ∧ log_of text = Some (pub_log published) ∧
    (pub_updateKeys published, pub_nextKeyHashes published) = currentLogParameters (pub_log published) ∧
    pub_doc published = last_doc (pub_log published) ∧ pub_did published = document_id (last_doc (pub_log published)).

Lemma head_read_from text log published :
  readLogFromString text = Ok log → resolvedHead log brokenLog (Some text) = Ok published → read_from published.
Proof.
  intros Hl Hr. exists text. cbn [readLogFromString resolver] in Hl. destruct (log_of text) as [log'|] eqn:Hlog; [|done]. injection Hl as ->.
  unfold resolvedHead in Hr. cbn -[currentLogParameters last_doc] in Hr. destruct (document_id (last_doc log)) eqn:Hd; [done|].
  injection Hr as <-. cbn -[currentLogParameters last_doc]. split_and!; [done|done|by destruct (currentLogParameters log)|done|by rewrite Hd].
Qed.

(** A text a put stores reads as the log that was put. *)
Lemma text_of_reading log log' : log_of (text_of log) = Some log' → reading log' = reading log.
Proof.
  unfold text_of. destruct (list_find _ known) as [[i [text l]]|] eqn:Hf; [|done].
  apply list_find_Some in Hf as (Hi & Hr & _). cbn in Hr. rewrite <- Hr.
  do 6 (destruct i as [|i]; [cbn in Hi; injection Hi as <- <-; vm_compute; by intros [= <-]|]). done.
Qed.

Lemma put_parameters log signer A C doc : currentLogParameters (log ++ [entry "now" signer A C doc]) = (A, C).
Proof. unfold currentLogParameters, effectiveParameters. by rewrite (Demo.effective_last _ _ _ _ A C). Qed.

(** A put of an entry that says what it should leaves an invariant of the
    text. *)
Lemma put_text_keeps (served : world → string) store (P : DIDLog → Prop) (I : world → Prop) log text :
  (∀ w, served (mkWorld (account_text w) (annex_text w) (pred (races w)) (facts w)) = served w) →
  (∀ w, I w ↔ ∃ l, log_of (served w) = Some l ∧ P l) →
  (∀ t w, served (store t w) = t) →
  (∀ l l', log_of text = Some l → P l → log_of (text_of log) = Some l' → P l') →
  keeps I (put_text served store (text_of log) (Some text)).
Proof.
  intros Hrace HI Hst HP w Hw. unfold put_text. case_decide; [apply HI; rewrite Hrace; by apply HI|]. case_decide as He; [done|].
  case_decide as Hl; [done|]. apply HI. rewrite Hst. apply HI in Hw as (l & Hlog & Hp).
  injection He as ->.
  destruct (log_of (text_of log)) as [l'|] eqn:Hl'; [|done]. exists l'. split; [done|]. by eapply HP.
Qed.

(** ** Who is admitted *)

Definition history : list annex_event := [commits "b" "a"; visits "b"; strikes "a" "b"; swaps "c" ["b"]].
Lemma annex_admission_is_exact_witness :
  entries_after history (genesis_of "a") = Some (["c"], ["#c"]) ∧ ∀ key, rungAdmitted key ["c"] ["#c"] = true ↔ key = "c".
Proof.
  pose proof (annex_admission_is_exact "a" history) as H.
  assert (entries_after history (genesis_of "a") = Some (["c"], ["#c"])) as He by (vm_compute; reflexivity).
  rewrite He in H. split; [done|]. destruct (writers_of history {["a"]}) as [writers|] eqn:Hw; [|done].
  assert (default ∅ (writers_of history {["a"]}) = {["c"]}) as Hc by (vm_compute; reflexivity). rewrite Hw in Hc. cbn in Hc.
  intros key. destruct H as [_ H]. cbn [fst snd] in H. by rewrite H, Hc, elem_of_singleton.
Defined.

(** ** A commitment, through a lost race *)

(** The first writer stays. *)
Definition first_stays (log : DIDLog) : Prop := rung "K" ∈ (currentLogParameters log).1.
Definition annex_ok (w : world) : Prop := ∃ log, log_of (annex_text w) = Some log ∧ first_stays log.

Lemma annex_store_keeps generationId : store_keeps annex_ok read_from (store_of generationId).
Proof.
  constructor; [|by intros id w Hw|by intros id pin w Hw]. intros w Hw. cbn -[annex_read]. split; [|exact Hw].
  intros text etag log published Hread Hl Hr. unfold annex_read in Hread.
  repeat case_decide; simplify_eq; by eapply head_read_from.
Qed.

(** An entry that keeps the head's update keys keeps the first writer. *)
Lemma annex_put_keeps generationId published signer A C doc :
  read_from published → pub_updateKeys published ⊆ A →
  keeps annex_ok (log_put (store_of generationId) (pub_log published ++ [entry "now" signer A C doc]) (pub_etag published)).
Proof.
  intros (text & -> & Hlog & Hp & _) HA. cbn.
  apply (put_text_keeps annex_text store_annex first_stays annex_ok); [done..|].
  intros l l' Hl Hfirst Hl'. simplify_eq. apply text_of_reading in Hl'. unfold first_stays in *.
  assert (currentLogParameters l' = (A, C)) as -> by (injection Hl' as ->; apply put_parameters).
  apply HA. by rewrite <- Hp in Hfirst.
Qed.

Definition commitment_of_M : annex_ceremony := commitment annex_store "M" "K" (Some didB).
Definition annex_world : world := mkWorld "account_new" "genesis" 1 [].

Lemma annex_ceremonies_write_as_specified_witness :
  match run_ceremony updateDID commitment_of_M annex_world with
  | (Ok outcome, w) =>
      reports_truly updateDID read_from commitment_of_M outcome ∧ annex_ok w ∧ outcome = changed true ∧ annex_text w = "committed"
  | _ => False
  end.
Proof.
  pose proof (annex_ceremonies_write_as_specified updateDID annex_ok read_from commitment_of_M (annex_store_keeps genB)) as H.
  specialize (H ltac:(done) ltac:(by intros m did)). unshelve epose proof (H _ annex_world _) as Hrun; clear H.
  - intros published updated Hread (rung' & signer & A & C & _ & _ & Hentry & [= <-]). apply annex_put_keeps; [done|].
    cbn [rung_event] in Hentry. unfold rung_event in Hentry. cbn in Hentry.
    destruct (rungAdmitted _ _ _); [by injection Hentry as <- _|]. unfold acted in Hentry. destruct (_ && _); [|done].
    injection Hentry as <- _. intros k Hk. apply elem_revealing. by left.
  - exists genesis. split; [done|]. unfold first_stays. apply (bool_decide_eq_true_1 _). by vm_compute.
  - assert (match run_ceremony updateDID commitment_of_M annex_world with
            | (Ok outcome, w) => (match outcome with changed b => b | _ => false end, annex_text w) | _ => (false, "") end =
      (true, "committed")) as Hv by (vm_compute; reflexivity).
    destruct (run_ceremony updateDID commitment_of_M annex_world) as [[outcome|e] w]; [|done]. injection Hv as Ho Hs.
    destruct Hrun as [Ht Hok]. split_and!; [done..| |done]. destruct outcome; [done..|by rewrite Ho].
Defined.

(** ** A visit, through a lost race *)

Definition account_doc_now (w : world) : option AccountDocument := last_doc <$> log_of (account_text w).
Definition read_account : comp world AccountDocument := λ w,
  match account_doc_now w with Some doc => (Ok doc, w) | None => (Throw (plain_error "unreadable"), w) end.
Definition visit_of_L : VisitOptions (W:=world) := mkVisit read_account store_of "L" "t" None None 3.

Lemma visit_stands_where_it_points_witness :
  match enrollTransientClient updateDID visit_of_L None annex_world with
  | (Ok (did, visited), w) =>
      did = didB ∧ annex_text w = "visited" ∧
      ∃ doc parts, account_doc_now w = Some doc ∧ delegatedClientsPointer doc = Some did ∧ clientAnnexDidParts did = Ok parts ∧
        enrolled_truly updateDID read_from (visitEnroll visit_of_L did (ap_generationId parts)) visited
  | _ => False
  end.
Proof.
  unshelve epose proof (visit_stands_where_it_points updateDID annex_ok account_doc_now (λ _, read_from) visit_of_L None
    _ annex_store_keeps _ _ _ annex_world _) as H.
  - intros w Hw. cbn [vo_readAccountDocument visit_of_L]. unfold read_account. destruct (account_doc_now w) eqn:Hd; [by split|exact Hw].
  - done.
  - by intros m did.
  - intros did generationId published updated Hread (services & rung' & signer & A & C & _ & _ & Hentry & [= <-]).
    apply annex_put_keeps; [done|]. cbn in Hentry. unfold acted in Hentry. destruct (_ && _); [|done].
    injection Hentry as <- _. intros k Hk. apply elem_revealing. by left.
  - exists genesis. split; [done|]. unfold first_stays. apply (bool_decide_eq_true_1 _). by vm_compute.
  - assert (match enrollTransientClient updateDID visit_of_L None annex_world with
            | (Ok (did, _), w) => (did, annex_text w) | _ => ("", "") end = (didB, "visited")) as Hv by (vm_compute; reflexivity).
    destruct (enrollTransientClient updateDID visit_of_L None annex_world) as [[[did visited]|e] w]; [|done].
    injection Hv as Hd Hs. destruct H as [H _]. by split_and!.
Defined.

(** ** A re-point, through a lost race *)

Definition client_stays (log : DIDLog) : Prop := "u" ∈ (currentLogParameters log).1.
Definition account_ok (w : world) : Prop := ∃ log, log_of (account_text w) = Some log ∧ client_stays log.
Definition silent : Logger world := λ _, mret ().
Definition repoint_to_B : PointerOptions (W:=world) :=
  mkPointerOptions account_store (enrolled (mkUpdateKeys "u" "s" None)) didB (Some "did:account") None (Some didA).
Definition account_world : world := mkWorld "account_old" "genesis" 1 [].

Lemma account_store_keeps : store_keeps account_ok read_from account_store.
Proof.
  constructor; [|by intros id w Hw|by intros id pin w Hw]. intros w Hw. cbn. split; [|exact Hw].
  intros text etag log published Hread Hl Hr. injection Hread as <- <-. by eapply head_read_from.
Qed.


(** ** A pass that collects *)

#[export] Instance digest : ReplicaDigest := {| replicaDigest s := s |}.
#[export] Instance annex_host : AnnexHost world := {|
  describeWithEtag _ := mret None;
  configureSpace _ _ types := mret (mkSpaceRead (Some types) None);
  configureCollection _ _ := mret ();
  randomSuffix := mret "cccccccccccccccc";
  spaceUrlById base spaceId := (base ++ spaceId)%string;
  rootCapabilityId := id;
  pathnameOf := Ok;
  decodeURIComponent := Ok
|}.
#[export] Instance gc_host : GcHost world := {|
  collectionsPages _ := mret [[genA; "notes"]; [genB]];
  deleteCollection spaceId generationId w := (Ok (), noting (collection_deleted spaceId generationId) w);
  revokeZcap zcap w := (Ok (), noting (revoke_answered zcap None) w);
  requestSpaceMeta _ _ := mret 200%Z;
  err_status _ := None;
  err_responseStatus _ := None
|}.
Definition createDID : CreateDID := λ _ _ _ _ _ _, Throw (plain_error "not minted").
Definition account_head_now : PublishedWebvhLog :=
  mkPublished account_new "did:account" (last_doc account_new) ["u"] ["#u"] (mkMeta None (Some ["u"]) (Some ["#u"])) (Some "account_new").
Definition gc_options : GcOptions (W:=world) :=
  mkGc "https://host/" "account" account_head_now account_store (mkUpdateKeys "u" "s" None) (λ _, mret JNull) (Some "K") []
    (λ d w, (Ok (), noting (digest_written d) w)) None 5000.

Lemma noting_holds F fact w : EntryDiscipline.known (λ _, True) past F w → EntryDiscipline.known (λ _, True) past (fact :: F) (noting fact w).
Proof. intros [_ HF]. split; [done|]. intros f [->|Hf]%elem_of_cons; [by left|]. right. by apply HF. Qed.

Lemma noted_keeps F f w : facts (f w) = facts w → EntryDiscipline.known (λ _, True) past F w → EntryDiscipline.known (λ _, True) past F (f w).
Proof. intros Hf [_ HF]. split; [done|]. intros fact Hin. unfold past. rewrite Hf. by apply HF. Qed.

Lemma put_holds F served store text etag :
  (∀ t w, facts (store t w) = facts w) → keeps (EntryDiscipline.known (λ _, True) past F) (put_text served store text etag).
Proof.
  intros Hst w Hw. unfold put_text. repeat case_decide; try exact Hw.
  apply (noted_keeps F (store text)); [apply Hst|exact Hw].
Qed.

Lemma gc_host_environment : gc_environment silent (λ _, True) past gc_options.
Proof.
  constructor; intros; try (intros w Hw; exact Hw); try (intros w Hw; by apply noting_holds); try done.
  - intros w Hw. assert (EntryDiscipline.known (λ _, True) past (lasting F) w) as Hl by (eapply known_mono; [|exact Hw]; unfold lasting; by intros f [_ Hf]%list_elem_of_filter).
    cbn [putIdResource go_idStore gc_options account_store]. unfold put_account. destruct (put_content put) as [text|doc]; [|exact Hl].
    exact (put_holds (lasting F) account_text store_account text (put_ifMatch put) ltac:(done) w Hl).
  - by apply (put_holds F annex_text store_annex).
Qed.

Lemma gc_deletes_only_the_dead_witness :
  match runClientAnnexGc updateDID createDID silent gc_options (mkWorld "account_new" "genesis" 0 []) with
  | (Ok gc, w) => report_true past gc_options gc w ∧ gc_collected gc = [genA] ∧ gc_pointedDid gc = Some didB
  | _ => False
  end.
Proof.
  pose proof (gc_deletes_only_the_dead updateDID createDID silent (λ _, True) past gc_options gc_host_environment
    (mkWorld "account_new" "genesis" 0 [])) as H.
  specialize (H ltac:(split; [done|by intros f ?%elem_of_nil])).
  assert (match runClientAnnexGc updateDID createDID silent gc_options (mkWorld "account_new" "genesis" 0 []) with
          | (Ok gc, _) => (gc_collected gc, gc_pointedDid gc) | _ => ([], None) end = ([genA], Some didB)) as Hv by (vm_compute; reflexivity).
  destruct (runClientAnnexGc _ _ _ _ _) as [[gc|e] w]; [|done]. injection Hv as Hc Hp. by destruct H.
Defined.

(** ** A cadence *)

Definition quarter : Z := 90 * 24 * 60 * 60 * 1000.
Lemma gc_due_reads_the_present_run_witness :
  ∃ due, clientAnnexGcDue account_new (quarter + 999) = Ok due ∧
    (due = true ↔ ∃ before first pointed time, last_run account_new before first pointed ∧ date_parse (versionTime first) = Some time ∧
       (GENERATION_GC_PERIOD_MS ≤ quarter + 999 - time)%Z) ∧ due = false.
Proof.
  destruct (gc_due_reads_the_present_run account_new (quarter + 999)) as (due & Hd & Hiff).
  - apply Forall_forall. intros e He. repeat (apply elem_of_cons in He as [->|He]; [by eexists|]). by apply elem_of_nil in He.
  - exists due. split; [done|]. split; [exact Hiff|].
    assert (clientAnnexGcDue account_new (quarter + 999) = Ok false) as Hf by (vm_compute; reflexivity). congruence.
Defined.
End AnnexDemo.
