(* ===== verification/StandingCredential.v ===== *)
(** * A standing credential in the account document

    [src/src/unlock/standingWebvh.ts]: the inventory a standing unlock
    credential holds in the account log (its key-agreement member, its
    ladder's commitment and its ladder VM), read, published and removed. *)

From S2P Require Import Prelude Json JsText CeremonyEvents AccountDocument LadderRungs AccountLog LogStore KeyRotation LadderIndex LadderInventory ClientListing ClientRevocation AccountEntry UserKeyRoster.

(** Which half of a credential's inventory an entry publishes. *)
Inductive UnlockInventoryPart := all_part | key_part | authority_part.

Inductive InventoryPolarity := publish_inventory | remove_inventory.

(** The key verbatim, or its commitment. *)
Inductive UnlockKeyAgreementPublication :=
  | verbatim (publicKeyMultibase : string)
  | committed_form (commitment : string).

Record StandingUnlockKeys := mkUnlockKeys {
  unlock_keyAgreement : UnlockKeyAgreementPublication;
  unlock_updateKey : string
}.

Record LadderVmRemovalReport := mkRemovalReport { report_struck : list string; report_unclaimed : list string }.

Record LadderVmClaim := mkClaim {
  claim_ladderVmId : option string;
  claim_struck : list string;
  claim_unclaimed : list string
}.

(** ** The refusal *)

Record UnclaimedLadderVmRetirement := mkUnclaimed {
  unclaimedLadderVmIds : list string;
  retryableWithLadderSeed : bool;
  anchorKeyMultibase : option string
}.

Definition UnclaimedLadderVmRetirementError (u : UnclaimedLadderVmRetirement) : js_error :=
  JsError "UnclaimedLadderVmRetirementError"
    ("did:webvh: the retirement cannot claim the retired credential's ladder VM (standing unclaimed: " ++
     String.concat ", " (unclaimedLadderVmIds u) ++
     match anchorKeyMultibase u with None => "" | Some anchor => "; anchored on " ++ anchor end ++
     "); nothing was published and the credential still stands. " ++
     if retryableWithLadderSeed u then "Retry with the credential's ladder seed in hand."
     else "No retry with the ladder seed can claim it.")%string.

Definition unlockKeyVmId (did : string) (publication : UnlockKeyAgreementPublication) : string :=
  vm_id did (match publication with verbatim key => key | committed_form commitment => commitment end).

Definition unlockKeyVerificationMethod (did : string) (publication : UnlockKeyAgreementPublication)
    (anchor : string) : ResolvedKeyAgreementMethod :=
  let id := unlockKeyVmId did publication in
  match publication with
  | verbatim key => mkMethod (Some id) (Some MULTIKEY_VM_TYPE) (Some did) (Some key) None (Some anchor)
  | committed_form commitment =>
      mkMethod (Some id) (Some MULTIKEY_COMMITMENT_VM_TYPE) (Some did) None (Some commitment) (Some anchor)
  end.

Definition ladderVerificationMethod (controller key : string) : ResolvedKeyAgreementMethod :=
  mkMethod (Some (vm_id controller key)) (Some MULTIKEY_VM_TYPE) (Some controller) (Some key) None None.

Section standing.
Context {W : Type} {readers : DocumentReaders} {resolver : WebvhResolver} {writer : WebvhWriter}
  {hashes : HashLibrary} {keys : WebvhKeys}.
Variables (updateDID : UpdateDID) (logger : Logger W).
Implicit Types (log : DIDLog) (doc : AccountDocument) (inventory : LadderStandingInventory).

(** ** What of the ladder stands *)

(** A reading that reaches a surviving client's key is no ladder's. *)
Definition leavingSurvivingClients log (credentialVmId : string) inventory (registryAnchoredAlone : bool) :
    result LadderStandingInventory :=
  if decide (revealedKeys inventory = [] ∧ committedHashes inventory = []) then Ok inventory
  else
    let surviving := survivingClientKeyProtection log [credentialVmId] (committedHashes inventory) in
    if bool_decide (kept_ambiguous surviving ≠ []) && registryAnchoredAlone then
      mthrow (LadderAttributionError "did:webvh: the credential's recorded update key is the only anchor its ladder has, and an enrolled client stands whose active update key the log cannot attribute, so a reading anchored on that client's key could not be told apart; refusing to strike on the recorded key alone.")
    else if decide (Exists (λ key, key ∈ kept_keys surviving) (revealedKeys inventory) ∨
                    Exists (λ hash, hash ∈ kept_hashes surviving) (committedHashes inventory)) then
      mthrow (LadderAttributionError "did:webvh: the credential's attributed ladder inventory names a surviving enrolled client's update key or commitment; refusing to strike on a reading anchored on a client's key.")
    else Ok inventory.

(** One reading within another, member by member. *)
Definition containedIn (inner outer : LadderStandingInventory) : bool :=
  bool_decide (Forall (λ key, key ∈ revealedKeys outer) (revealedKeys inner)) &&
  bool_decide (Forall (λ hash, hash ∈ committedHashes outer) (committedHashes inner)) &&
  bool_decide (Forall (λ id, id ∈ ladderVmsStanding outer) (ladderVmsStanding inner)).

Definition attributeUnlockLadderInventory log (did : string) (unlockKeys : StandingUnlockKeys)
    (ladderSeed : option string) : result LadderStandingInventory :=
  let credentialVmId := unlockKeyVmId did (unlock_keyAgreement unlockKeys) in
  let memberAnchor := credentialLadderAnchor log credentialVmId in
  match ladderSeed with
  | Some seed =>
      rung0 ← ladderRung seed 0;
      let seedAnchorHash := deriveNextKeyHash (rung_keyMultibase rung0) in
      if decide (is_Some memberAnchor ∧ memberAnchor ≠ Some seedAnchorHash) then
        mthrow (LadderAttributionError "The credential's keyAgreement member names a ladder commitment the supplied ladder seed does not derive; refusing to act on a ladder the seed and the document disagree about.")
      else
        inventory ← attributeLadderInventory log None (Some seedAnchorHash) (Some seed) (Some credentialVmId) LADDER_MAX_SCAN;
        leavingSurvivingClients log credentialVmId inventory false
  | None =>
      registryAnchored ← attributeLadderInventory log (Some (unlock_updateKey unlockKeys)) None None (Some credentialVmId) LADDER_MAX_SCAN;
      match memberAnchor with
      | None => leavingSurvivingClients log credentialVmId registryAnchored true
      | Some anchorHash =>
          memberAnchored ← attributeLadderInventory log None (Some anchorHash) None (Some credentialVmId) LADDER_MAX_SCAN;
          if containedIn registryAnchored memberAnchored then
            leavingSurvivingClients log credentialVmId memberAnchored false
          else
            mthrow (LadderAttributionError "The credential's recorded update key and its keyAgreement member's ladder commitment resolve to different ladders; refusing to strike on anchors that disagree.")
      end
  end.

(** The ladder VM ids a removal strikes, in the set's order, and those it
    leaves unclaimed. *)
Definition ladderVmClaimOf doc (did : string) inventory (ladderSeed : option string) : result LadderVmClaim :=
  ladderVmId ← (match ladderSeed with
                | Some seed => key ← ladderVmKeyMultibase seed; Ok (Some (vm_id did key))
                | None => Ok None
                end);
  if decide (is_Some ladderVmId ∧ Exists (λ id, Some id ≠ ladderVmId) (ladderVmsStanding inventory)) then
    mthrow (LadderAttributionError "The published log attributes a ladder VM this credential's seed does not derive; refusing to strike on an ambiguous attribution.")
  else
    let standing := ladderVmIds doc in
    let derived := option_list ladderVmId in
    let struck := js_dedup (filter (λ id, id ∈ standing) derived ++ ladderVmsStanding inventory) in
    Ok (mkClaim ladderVmId struck (filter (λ id, id ∉ struck ∧ id ∉ derived) standing)).

Definition publishesMethod doc (id : string) : bool :=
  bool_decide (Some id ∈ method_id <$> default [] (verificationMethod doc)).

(** A standing credential whose VM may be among the unclaimed is no one to
    retire. *)
Definition assertLadderVmClaimed log doc (credentialVmId : string) (claim : LadderVmClaim)
    (anchorKey : option string) : result () :=
  if negb (publishesMethod doc credentialVmId) ||
     bool_decide (claim_ladderVmId claim ≠ None ∨ claim_struck claim ≠ [] ∨ claim_unclaimed claim = []) then Ok ()
  else
    let candidates := ladderVmIdsIntroducedWithCredential log credentialVmId anchorKey None in
    match filter (λ id, id ∈ candidates) (claim_unclaimed claim) with
    | [] => Ok ()
    | unclaimed => mthrow (UnclaimedLadderVmRetirementError (mkUnclaimed unclaimed true anchorKey))
    end.

(** ** The retirement, looked at beforehand *)

Record RetirementPreflight := mkPreflight {
  pre_struck : list string;
  pre_unclaimed : list string;
  pre_ladderVmIds : list string;
  pre_document : AccountDocument
}.

Definition preflightUnlockCredentialRetirement (idStore : WebvhIdStore W) (unlockKeys : StandingUnlockKeys)
    (ladderSeed expectedDid missingMessage : option string) : comp W RetirementPreflight :=
  published ← readPublishedLogOrThrow idStore expectedDid
    (Some (default "did:webvh: did.jsonl is missing; nothing to retire from." missingMessage));
  let did := pub_did published in
  let doc := pub_doc published in
  inventory ← lift (attributeUnlockLadderInventory (pub_log published) did unlockKeys ladderSeed);
  claim ← lift (ladderVmClaimOf doc did inventory ladderSeed);
  lift (assertLadderVmClaimed (pub_log published) doc (unlockKeyVmId did (unlock_keyAgreement unlockKeys)) claim
    (Some (unlock_updateKey unlockKeys)));;
  mret (mkPreflight (claim_struck claim) (claim_unclaimed claim) (ladderVmsStanding inventory) doc).

(** ** One edit of the inventory *)

Definition nothing_standing : LadderStandingInventory := mkInventoryOf [] [] [].

(** What an edit decides by. *)
Record InventoryReading := mkReading {
  vmId : string;
  anchorOf : string;
  memberStands : bool;
  commitmentReading : option CommitmentReading;
  standingInventory : LadderStandingInventory;
  installedKey : option string;
  installedId : option string;
  ladderClaim : LadderVmClaim
}.

(** A bind extends only the ladder that bound the member. *)
Definition assertBindable (memberStands : bool) (reading : option CommitmentReading) (seedRung0Hash : option string)
    (keyHash anchorHash : string) : result () :=
  if negb memberStands && bool_decide (is_Some seedRung0Hash ∧ seedRung0Hash ≠ Some keyHash) then
    mthrow (LadderAttributionError "did:webvh: the credential's recorded update key is not rung 0 of the ladder seed handed to the bind; refusing to publish an inventory the seed does not derive.")
  else if memberStands &&
          (from_option retargeted false reading || bool_decide ((reading ≫= named) ≠ Some anchorHash)) then
    mthrow (LadderAttributionError "did:webvh: the credential's keyAgreement member already stands naming a ladder commitment this bind does not derive; refusing to re-bind a standing member under another ladder. Re-run with the ladder seed that bound it.")
  else Ok ().

Definition readInventory (polarity : InventoryPolarity) (unlockKeys : StandingUnlockKeys) (ladderSeed : option string)
    (published : PublishedWebvhLog) : result InventoryReading :=
  let did := pub_did published in
  let doc := pub_doc published in
  let log := pub_log published in
  let keyHash := deriveNextKeyHash (unlock_updateKey unlockKeys) in
  let vmId := unlockKeyVmId did (unlock_keyAgreement unlockKeys) in
  seedRung0Hash ← (match polarity, ladderSeed with
                   | publish_inventory, Some seed =>
                       rung0 ← ladderRung seed 0; Ok (Some (deriveNextKeyHash (rung_keyMultibase rung0)))
                   | _, _ => Ok None
                   end);
  let anchorHash := default keyHash seedRung0Hash in
  let vmPresent := publishesMethod doc vmId in
  let reading := match polarity with
                 | publish_inventory => if vmPresent then credentialLadderCommitment log vmId else None
                 | remove_inventory => None
                 end in
  (match polarity with
   | publish_inventory => assertBindable vmPresent reading seedRung0Hash keyHash anchorHash
   | remove_inventory => Ok ()
   end);;
  inventory ← (match polarity with
               | remove_inventory => attributeUnlockLadderInventory log did unlockKeys ladderSeed
               | publish_inventory => Ok nothing_standing
               end);
  ladderVmKey ← (match ladderSeed with
                 | Some seed => key ← ladderVmKeyMultibase seed; Ok (Some key)
                 | None => Ok None
                 end);
  claim ← (match polarity with
           | remove_inventory => ladderVmClaimOf doc did inventory ladderSeed
           | publish_inventory => Ok (mkClaim None [] [])
           end);
  (match polarity with
   | remove_inventory => assertLadderVmClaimed log doc vmId claim (Some (unlock_updateKey unlockKeys))
   | publish_inventory => Ok ()
   end);;
  Ok (mkReading vmId anchorHash vmPresent reading inventory ladderVmKey (vm_id did <$> ladderVmKey) claim).

Definition publishesKey (part : UnlockInventoryPart) : bool :=
  match part with all_part | key_part => true | authority_part => false end.
Definition publishesAuthority (part : UnlockInventoryPart) : bool :=
  match part with all_part | authority_part => true | key_part => false end.

(** The anchor stands committed, or was spent since. *)
Definition hashCommitted (published : PublishedWebvhLog) (r : InventoryReading) : bool :=
  bool_decide (anchorOf r ∈ pub_nextKeyHashes published) || from_option committed false (commitmentReading r).

Definition settled (polarity : InventoryPolarity) (part : UnlockInventoryPart) (published : PublishedWebvhLog)
    (r : InventoryReading) : bool :=
  match polarity with
  | publish_inventory =>
      (negb (publishesKey part) || memberStands r) &&
      (negb (publishesAuthority part) ||
       (hashCommitted published r &&
        match installedId r with None => true | Some id => bool_decide (id ∈ ladderVmIds (pub_doc published)) end))
  | remove_inventory =>
      negb (memberStands r) &&
      bool_decide (claim_struck (ladderClaim r) = [] ∧ committedHashes (standingInventory r) = [] ∧
                   revealedKeys (standingInventory r) = [])
  end.

Definition struckIds (r : InventoryReading) : list string := vmId r :: claim_struck (ladderClaim r).

(** The key whose VM the entry installs. *)
Definition installs (part : UnlockInventoryPart) (r : InventoryReading) : option string :=
  if publishesAuthority part then installedKey r else None.

Definition boundMethods (part : UnlockInventoryPart) (publication : UnlockKeyAgreementPublication)
    (published : PublishedWebvhLog) (r : InventoryReading) : list ResolvedKeyAgreementMethod :=
  let did := pub_did published in
  filter (λ method, method_id method ≠ (if publishesKey part then Some (vmId r) else None) ∧
                    method_id method ≠ (if publishesAuthority part then installedId r else None))
    (default [] (verificationMethod (pub_doc published))) ++
  (if publishesKey part then [unlockKeyVerificationMethod did publication (anchorOf r)] else []) ++
  (match installs part r with Some key => [ladderVerificationMethod did key] | None => [] end).

Definition keptMethods (published : PublishedWebvhLog) (r : InventoryReading) : list ResolvedKeyAgreementMethod :=
  filter (λ method, Forall (λ id, id ∉ struckIds r) (option_list (method_id method)))
    (default [] (verificationMethod (pub_doc published))).

(** The members of a relation that stay, and those a bind adds. *)
Definition editedRelation (polarity : InventoryPolarity) (part : UnlockInventoryPart) (doc : AccountDocument)
    (r : InventoryReading) (relation : DocumentRelation) : list string :=
  let ids := relationIds (relationOf doc relation) in
  match polarity with
  | remove_inventory => filter (λ id, id ∉ struckIds r) ids
  | publish_inventory =>
      match relation with
      | keyAgreement => if publishesKey part then js_dedup (ids ++ [vmId r]) else ids
      | assertionMethod | capabilityDelegation =>
          match installs part r, installedId r with
          | Some _, Some id => js_dedup (ids ++ [id])
          | _, _ => ids
          end
      | _ => ids
      end
  end.

Definition inventoryFields (polarity : InventoryPolarity) (part : UnlockInventoryPart)
    (publication : UnlockKeyAgreementPublication) (published : PublishedWebvhLog) (r : InventoryReading) :
    AccountEntryFields :=
  let relations := editedRelation polarity part (pub_doc published) r in
  match polarity with
  | publish_inventory =>
      mkEntryFields None None
        (if publishesAuthority part && negb (hashCommitted published r) then Some [anchorOf r] else None)
        (Some (mkFields (boundMethods part publication published r) relations)) None
  | remove_inventory =>
      mkEntryFields
        (Some (filter (λ key, key ∉ revealedKeys (standingInventory r)) (pub_updateKeys published)))
        (Some (filter (λ hash, hash ∉ committedHashes (standingInventory r)) (pub_nextKeyHashes published)))
        None (Some (mkFields (keptMethods published r) relations)) None
  end.

(** [ladderVmReport], the local the build sets, is a cell. *)
Context `{!Cell W LadderVmRemovalReport}.

Definition inventoryBuild (polarity : InventoryPolarity) (part : UnlockInventoryPart) (unlockKeys : StandingUnlockKeys)
    (ladderSeed : option string) (ctx : BuildContext (W:=W)) : comp W (option AccountEntryFields) :=
  let published := ctx_published ctx in
  r ← lift (readInventory polarity unlockKeys ladderSeed published);
  modify (set_cell (mkRemovalReport (claim_struck (ladderClaim r)) (claim_unclaimed (ladderClaim r))));;
  if settled polarity part published r then
    concludeUnchanged ctx;;
    mret None
  else mret (Some (inventoryFields polarity part (unlock_keyAgreement unlockKeys) published r)).

Record InventoryOptions := mkInventoryOptions {
  inv_idStore : WebvhIdStore W;
  inv_signer : AccountLogSigner;
  inv_projectionStore : option (WebvhIdStore W);
  inv_unlockKeys : StandingUnlockKeys;
  inv_ladderSeed : option string;
  inv_expectedDid : option string;
  inv_verb : option string
}.

(** What a ceremony hands back: the head, and the removal's report. *)
Record InventoryOutcome := mkInventoryOutcome {
  outcome_did : string;
  outcome_doc : AccountDocument;
  outcome_log : DIDLog;
  outcome_ladderVm : LadderVmRemovalReport
}.

Definition inventoryEntryOptions (o : InventoryOptions) (polarity : InventoryPolarity) (part : UnlockInventoryPart) :
    EntryOptions :=
  mkEntryOptions (inv_idStore o) (LogSigner (inv_signer o)) (inventoryBuild polarity part (inv_unlockKeys o) (inv_ladderSeed o))
    None None (inv_expectedDid o) None (Some "did:webvh: did.jsonl is missing; nothing to enroll into.")
    (Some (default "changing an unlock credential" (inv_verb o))) (inv_projectionStore o)
    (match polarity with remove_inventory => true | publish_inventory => false end).

Definition setUnlockKeyInventoryOnce (o : InventoryOptions) (polarity : InventoryPolarity) (part : UnlockInventoryPart) :
    comp W InventoryOutcome :=
  modify (set_cell (mkRemovalReport [] []));;
  outcome ← signAccountEntry updateDID logger (inventoryEntryOptions o polarity part);
  report ← gets get_cell;
  mret (match out_updated outcome with
        | Some updated => mkInventoryOutcome (upd_did updated) (upd_doc updated) (upd_log updated) report
        | None =>
            let published := out_published outcome in
            mkInventoryOutcome (pub_did published) (pub_doc published) (pub_log published) report
        end).

Definition publishUnlockKey (o : InventoryOptions) (part : UnlockInventoryPart) : comp W InventoryOutcome :=
  withLogConflictRetry (setUnlockKeyInventoryOnce o publish_inventory part).

Definition removeUnlockKey (o : InventoryOptions) : comp W InventoryOutcome :=
  withLogConflictRetry (setUnlockKeyInventoryOnce o remove_inventory all_part).
End standing.
