(* ===== verification/StandingSafety.v ===== *)
(** * What an edit of a credential's inventory takes and leaves

    The reading of a standing credential's ladder, and the two entries built
    from it: the bind and the removal; then the ceremonies that put them. *)

From S2P Require Import Prelude Json JsText CeremonyEvents AccountDocument LadderRungs AccountLog LogStore KeyRotation LadderIndex LadderInventory ClientListing ClientRevocation AccountEntry RevocationHistory StrikeSafety EntryDiscipline UserKeyRoster StandingCredential.

(** ** The walk ends on the head's ladder VMs *)

Section walk.
Context {readers : DocumentReaders} {writer : WebvhWriter} {hashes : HashLibrary} {keys : WebvhKeys}.

Lemma indexFrom_length index previous log params m : length (indexFrom index previous log params m).1 = length params.
Proof.
  revert index previous log m. induction params as [|current params IH]; intros; [done|]. cbn [indexFrom].
  specialize (IH (S index) current (tail log) (recordOrigins index 0 (f_addedHashes (factsOf previous current (head log))) m)).
  destruct (indexFrom _ _ _ _ _); cbn in *; by rewrite IH.
Qed.

Lemma indexed_length log :
  length (params (indexedLadderLog log)) = length log ∧ length (facts (indexedLadderLog log)) = length log.
Proof.
  unfold indexedLadderLog, indexLadderLog. pose proof (indexFrom_length 0 ([], []) log (effectiveParameters log) ∅) as Hl.
  destruct (indexFrom _ _ _ _ _); cbn in *. rewrite Hl. split; apply effectiveFrom_length.
Qed.

Definition head_ladder_vms (log : DIDLog) : list string := from_option ladderVmIds [] (last log ≫= state).

Lemma entry_vms anchored cid idx w index entry params here w' :
  inventoryEntry anchored cid idx w index entry params here = Ok w' →
  prevLadderVmIds w' = js_dedup (from_option ladderVmIds [] (entry ≫= state)).
Proof. unfold inventoryEntry. intros (u & _ & Hw)%result_bind_ok. by injection Hw as <-. Qed.

Lemma walk_vms anchored cid idx index log ps fs w w' :
  length ps = length log → length fs = length log → log ≠ [] →
  walkInventory anchored cid idx index log ps fs w = Ok w' →
  prevLadderVmIds w' = js_dedup (head_ladder_vms log).
Proof.
  revert index ps fs w. induction log as [|entry log IH]; intros index ps fs w Hps Hfs Hne; [done|].
  destruct ps as [|params ps], fs as [|here fs]; try done. cbn [walkInventory head tail].
  intros (w1 & Hw1 & Hw)%result_bind_ok. cbn in Hps, Hfs. destruct log as [|next log].
  - destruct ps, fs; try done. cbn in Hw. injection Hw as <-. by apply entry_vms in Hw1.
  - apply (IH (S index) ps fs w1); [lia|lia|done|exact Hw].
Qed.

Lemma attributed_stands log anchorKey anchorHash seed cid maxScan inventory :
  attributeLadderInventory log anchorKey anchorHash seed cid maxScan = Ok inventory →
  revealedKeys inventory ⊆ (currentLogParameters log).1 ∧ committedHashes inventory ⊆ (currentLogParameters log).2 ∧
  ladderVmsStanding inventory ⊆ head_ladder_vms log.
Proof.
  unfold attributeLadderInventory. intros (anchor & _ & Ha)%result_bind_ok.
  apply result_bind_ok in Ha as (rungs & _ & Ha). apply result_bind_ok in Ha as (w & Hw & Ha). injection Ha as <-.
  destruct (indexed_length log) as [Hps Hfs]. split_and!; intros x; cbn; rewrite list_elem_of_filter; [tauto..|].
  intros [_ Hx]. destruct (decide (log = [])) as [->|Hne].
  - cbn in Hw. injection Hw as <-. by apply elem_of_nil in Hx.
  - rewrite (walk_vms _ _ _ _ _ _ _ _ _ Hps Hfs Hne Hw), elem_of_js_dedup in Hx. done.
Qed.

(** ** The surviving clients *)

(** What a reading may not reach of a client that stays. *)
Definition untouched (log : DIDLog) (credentialVmId : string) (inventory : LadderStandingInventory)
    (client : EnrolledWebvhClient) : Prop :=
  ¬ retiring (head_did log) [credentialVmId] client →
  ∀ key, client_updateKey client = Some key →
    key ∉ revealedKeys inventory ∧ deriveNextKeyHash key ∉ committedHashes inventory ∧
    ∀ hash, hash ∈ stagedHashes (attributeStagedHash (effectiveParameters log) key [] (committedHashes inventory)) →
      hash ∉ committedHashes inventory.

(** Whether every client that stays has a key the log attributes. *)
Definition all_attributed (log : DIDLog) (credentialVmId : string) : Prop :=
  ∀ client, client ∈ listEnrolledWebvhClients log → ¬ retiring (head_did log) [credentialVmId] client →
    client_updateKey client ≠ None.

Definition claims_rungs (inventory : LadderStandingInventory) : Prop :=
  ¬ (revealedKeys inventory = [] ∧ committedHashes inventory = []).

Lemma leaving_spec log credentialVmId inventory alone inventory' :
  leavingSurvivingClients log credentialVmId inventory alone = Ok inventory' →
  inventory' = inventory ∧
  (∀ client, client ∈ listEnrolledWebvhClients log → untouched log credentialVmId inventory client) ∧
  (alone = true → claims_rungs inventory → all_attributed log credentialVmId).
Proof.
  unfold leavingSurvivingClients. case_decide as Hempty.
  { intros [= <-]. destruct Hempty as [Hk Hh]. split; [done|]. split; [|by intros _ []].
    intros client _ _ key _. rewrite Hk, Hh. split_and!; [apply not_elem_of_nil..|]. intros; apply not_elem_of_nil. }
  set (surviving := survivingClientKeyProtection _ _ _).
  destruct (bool_decide (kept_ambiguous surviving ≠ []) && alone) eqn:Hamb; [done|].
  case_decide as Hreach; [done|]. intros [= <-]. split; [done|].
  apply Decidable.not_or in Hreach as [Hk Hh]. rewrite <- Forall_Exists_neg in Hk, Hh.
  rewrite Forall_forall in Hk, Hh. split.
  - intros client Hc Hr key Hkey.
    pose proof (surviving_protects log [credentialVmId] (committedHashes inventory) client Hc Hr) as Hp.
    rewrite Hkey in Hp. fold surviving in Hp. destruct Hp as (Hpk & Hph & Hps).
    split_and!; [intros Hin; by apply (Hk key)|intros Hin; by apply (Hh _ Hin)|].
    intros hash Hs Hin. apply (Hh _ Hin), Hps, Hs.
  - intros -> _ client Hc Hr Hnone.
    pose proof (surviving_protects log [credentialVmId] (committedHashes inventory) client Hc Hr) as Hp.
    rewrite Hnone in Hp. fold surviving in Hp. rewrite andb_true_r in Hamb. apply bool_decide_eq_false in Hamb.
    apply Hamb. intros He. rewrite He in Hp. by apply elem_of_nil in Hp.
Qed.

(** ** What the reading is of *)

(** The ladder a removal's reading is of: the seed's, where one is in hand and
    the member names no other; or the member's own, with nothing of the
    recorded key's beyond it; or the recorded key's, where the member names
    none. *)
Definition reading_of (log : DIDLog) (did : string) (unlockKeys : StandingUnlockKeys) (ladderSeed : option string)
    (inventory : LadderStandingInventory) : Prop :=
  let cid := unlockKeyVmId did (unlock_keyAgreement unlockKeys) in
  let walk anchorKey anchorHash seed := attributeLadderInventory log anchorKey anchorHash seed (Some cid) LADDER_MAX_SCAN in
  match ladderSeed with
  | Some seed => ∃ rung0, ladderRung seed 0 = Ok rung0 ∧
      (∀ anchor, credentialLadderAnchor log cid = Some anchor → anchor = deriveNextKeyHash (rung_keyMultibase rung0)) ∧
      walk None (Some (deriveNextKeyHash (rung_keyMultibase rung0))) (Some seed) = Ok inventory
  | None =>
      ∃ recorded, walk (Some (unlock_updateKey unlockKeys)) None None = Ok recorded ∧
      match credentialLadderAnchor log cid with
      | None => inventory = recorded
      | Some anchor => walk None (Some anchor) None = Ok inventory ∧
          revealedKeys recorded ⊆ revealedKeys inventory ∧ committedHashes recorded ⊆ committedHashes inventory ∧
          ladderVmsStanding recorded ⊆ ladderVmsStanding inventory
      end
  end.

Lemma contained_spec inner outer : containedIn inner outer = true →
  revealedKeys inner ⊆ revealedKeys outer ∧ committedHashes inner ⊆ committedHashes outer ∧
  ladderVmsStanding inner ⊆ ladderVmsStanding outer.
Proof.
  unfold containedIn. rewrite !andb_true_iff, !bool_decide_eq_true, !Forall_forall. intros [[H1 H2] H3].
  split_and!; intros x; auto.
Qed.

Lemma attribute_spec log did unlockKeys ladderSeed inventory :
  let cid := unlockKeyVmId did (unlock_keyAgreement unlockKeys) in
  attributeUnlockLadderInventory log did unlockKeys ladderSeed = Ok inventory →
  reading_of log did unlockKeys ladderSeed inventory ∧
  (∀ client, client ∈ listEnrolledWebvhClients log → untouched log cid inventory client) ∧
  (ladderSeed = None → credentialLadderAnchor log cid = None → claims_rungs inventory → all_attributed log cid).
Proof.
  cbn zeta. unfold attributeUnlockLadderInventory, reading_of. destruct ladderSeed as [seed|].
  - intros (rung0 & Hr & H)%result_bind_ok. cbn zeta in H. case_decide as Hd; [done|].
    apply result_bind_ok in H as (inv & Hinv & (-> & Hc & _)%leaving_spec). split; [|by split].
    exists rung0. split_and!; [done| |done]. intros anchor Ha. rewrite Ha in Hd.
    destruct (decide (anchor = deriveNextKeyHash (rung_keyMultibase rung0))); [done|]. destruct Hd. split; [eauto|congruence].
  - intros (recorded & Hrec & H)%result_bind_ok.
    destruct (credentialLadderAnchor _ _) as [anchor|].
    + apply result_bind_ok in H as (inv & Hinv & H). destruct (containedIn recorded inv) eqn:Hcont; [|done].
      apply leaving_spec in H as (-> & Hc & _). split; [|by split]. apply contained_spec in Hcont as (? & ? & ?).
      exists recorded. by split_and!.
    + apply leaving_spec in H as (-> & Hc & Ha). split; [by exists recorded|]. split; [done|]. auto.
Qed.

Lemma reading_stands log did unlockKeys ladderSeed inventory :
  reading_of log did unlockKeys ladderSeed inventory →
  revealedKeys inventory ⊆ (currentLogParameters log).1 ∧ committedHashes inventory ⊆ (currentLogParameters log).2 ∧
  ladderVmsStanding inventory ⊆ head_ladder_vms log.
Proof.
  unfold reading_of. destruct ladderSeed as [seed|].
  - intros (? & _ & _ & H). by apply attributed_stands in H.
  - intros (recorded & Hrec & H). destruct (credentialLadderAnchor _ _) as [anchor|].
    + destruct H as [H _]. by apply attributed_stands in H.
    + subst. by apply attributed_stands in Hrec.
Qed.
End walk.

(** ** The removal *)

Section removal.
Context {readers : DocumentReaders} {writer : WebvhWriter} {hashes : HashLibrary} {keys : WebvhKeys}.
Implicit Types (published : PublishedWebvhLog) (r : InventoryReading).

(** A head whose document and parameters are its log's. *)
Definition read_head published : Prop :=
  last (pub_log published) ≫= state = Some (pub_doc published) ∧
  currentLogParameters (pub_log published) = (pub_updateKeys published, pub_nextKeyHashes published).

Lemma claim_spec doc did inventory ladderSeed claim :
  ladderVmClaimOf doc did inventory ladderSeed = Ok claim →
  ladderVmsStanding inventory ⊆ ladderVmIds doc →
  (∀ id, id ∈ claim_struck claim → id ∈ ladderVmIds doc) ∧ ladderVmsStanding inventory ⊆ claim_struck claim ∧
  (∀ id, id ∈ claim_struck claim → id ∈ ladderVmsStanding inventory ∨ claim_ladderVmId claim = Some id) ∧
  (claim_ladderVmId claim = None ↔ ladderSeed = None) ∧
  claim_unclaimed claim = filter (λ id, id ∉ claim_struck claim ∧ id ∉ option_list (claim_ladderVmId claim)) (ladderVmIds doc).
Proof.
  unfold ladderVmClaimOf. intros (derived & Hd & H)%result_bind_ok Hsub. case_decide; [done|]. injection H as <-. cbn.
  split_and!; [|..|done].
  - intros id. rewrite elem_of_js_dedup, elem_of_app, list_elem_of_filter. intros [[? _]|?]; auto.
  - intros id Hid. rewrite elem_of_js_dedup, elem_of_app. by right.
  - intros id. rewrite elem_of_js_dedup, elem_of_app, list_elem_of_filter. intros [[_ Hid]|?]; [right|by left].
    destruct derived as [d|]; cbn in Hid; [by apply list_elem_of_singleton in Hid as ->|by apply elem_of_nil in Hid].
  - destruct ladderSeed as [seed|]; [|by injection Hd as <-]. apply result_bind_ok in Hd as (key & _ & [= <-]). done.
Qed.

(** What a removal knows when it goes ahead. *)
Record removal_of published (unlockKeys : StandingUnlockKeys) (ladderSeed : option string) r : Prop := {
  removal_member : vmId r = unlockKeyVmId (pub_did published) (unlock_keyAgreement unlockKeys);
  removal_stands : memberStands r = publishesMethod (pub_doc published) (vmId r);
  removal_reading : reading_of (pub_log published) (pub_did published) unlockKeys ladderSeed (standingInventory r);
  removal_spares : ∀ client, client ∈ listEnrolledWebvhClients (pub_log published) →
    untouched (pub_log published) (vmId r) (standingInventory r) client;
  removal_attributed : ladderSeed = None → credentialLadderAnchor (pub_log published) (vmId r) = None →
    claims_rungs (standingInventory r) → all_attributed (pub_log published) (vmId r);
  removal_vms id : id ∈ claim_struck (ladderClaim r) → id ∈ ladderVmIds (pub_doc published);
  removal_claimed : ladderVmsStanding (standingInventory r) ⊆ claim_struck (ladderClaim r);
  removal_unclaimed id : ladderSeed = None → publishesMethod (pub_doc published) (vmId r) = true →
    claim_struck (ladderClaim r) = [] → id ∈ ladderVmIds (pub_doc published) →
    id ∉ ladderVmIdsIntroducedWithCredential (pub_log published) (vmId r) (Some (unlock_updateKey unlockKeys)) None
}.

Lemma claimed_gate log doc cid claim anchor id :
  assertLadderVmClaimed log doc cid claim anchor = Ok () → publishesMethod doc cid = true →
  claim_ladderVmId claim = None → claim_struck claim = [] → id ∈ claim_unclaimed claim →
  id ∉ ladderVmIdsIntroducedWithCredential log cid anchor None.
Proof.
  unfold assertLadderVmClaimed. intros H Hp Hl Hs Hid Hin. rewrite Hp, Hl, Hs in H. cbn in H.
  rewrite bool_decide_eq_false_2 in H.
  - destruct (filter _ (claim_unclaimed claim)) as [|x xs] eqn:Hf; [|done].
    assert (id ∈ filter (λ id, id ∈ ladderVmIdsIntroducedWithCredential log cid anchor None) (claim_unclaimed claim)) as Hc
      by by apply list_elem_of_filter.
    rewrite Hf in Hc. by apply elem_of_nil in Hc.
  - intros [?|[?|He]]; [done..|]. rewrite He in Hid. by apply elem_of_nil in Hid.
Qed.

Lemma removal_facts published unlockKeys ladderSeed r :
  read_head published → readInventory remove_inventory unlockKeys ladderSeed published = Ok r →
  removal_of published unlockKeys ladderSeed r.
Proof.
  intros [Hdoc _] (inventory & Hinv & H)%result_bind_ok. cbn zeta in H.
  apply result_bind_ok in H as (key & Hkey & H). apply result_bind_ok in H as (claim & Hclaim & H).
  apply result_bind_ok in H as ([] & Hgate & [= <-]). cbn.
  apply attribute_spec in Hinv as (Hread & Hclients & Hattr). cbn in Hclients.
  pose proof (reading_stands _ _ _ _ _ Hread) as (_ & _ & Hvms). unfold head_ladder_vms in Hvms. rewrite Hdoc in Hvms. cbn in Hvms.
  destruct (claim_spec _ _ _ _ _ Hclaim Hvms) as (Hs & Hsub & _ & Hnone & Hun).
  constructor; cbn; [done|done|exact Hread|exact Hclients|exact Hattr|exact Hs|exact Hsub|].
  intros id Hseed Hstands Hempty Hid.
  eapply claimed_gate; [exact Hgate|done|by apply Hnone|done|]. rewrite Hun, Hempty, (proj2 Hnone Hseed).
  apply list_elem_of_filter. split; [|done]. split; apply not_elem_of_nil.
Qed.

(** The entry a removal states, member by member. *)
Record removal_entry published r (fields : AccountEntryFields) : Prop := {
  entry_keys key : key ∈ default (pub_updateKeys published) (ef_updateKeys fields) ↔
    key ∈ pub_updateKeys published ∧ key ∉ revealedKeys (standingInventory r);
  entry_hashes hash : hash ∈ default (pub_nextKeyHashes published) (ef_nextKeyHashes fields) ++ default [] (ef_commitHashes fields) ↔
    hash ∈ pub_nextKeyHashes published ∧ hash ∉ committedHashes (standingInventory r);
  entry_services : ef_services fields = None;
  entry_document : ∃ document, ef_document fields = Some document ∧
    (∀ method, method ∈ fields_methods document ↔
       method ∈ default [] (verificationMethod (pub_doc published)) ∧ ∀ id, method_id method = Some id → id ∉ struckIds r) ∧
    ∀ relation id, id ∈ fields_relation document relation ↔
      id ∈ relationIds (relationOf (pub_doc published) relation) ∧ id ∉ struckIds r
}.

Lemma removal_entry_of published part publication r :
  removal_entry published r (inventoryFields remove_inventory part publication published r).
Proof.
  constructor; cbn.
  - intros key. rewrite list_elem_of_filter. tauto.
  - intros hash. rewrite app_nil_r, list_elem_of_filter. tauto.
  - done.
  - eexists. split; [done|]. cbn. split.
    + intros method. unfold keptMethods. rewrite list_elem_of_filter, Forall_forall.
      split; [intros [H1 H2]; split; [done|]|intros [H2 H1]; split; [|done]].
      * intros id Hid. apply H1. rewrite Hid. by apply list_elem_of_singleton.
      * intros id Hid. destruct (method_id method) as [i|]; [|by apply elem_of_nil in Hid].
        apply list_elem_of_singleton in Hid as ->. by apply H1.
    + intros relation id. rewrite list_elem_of_filter. tauto.
Qed.
End removal.

(** ** A member's commitment over a longer log *)

Section readings.
Context {readers : DocumentReaders} {writer : WebvhWriter} {hashes : HashLibrary} {keys : WebvhKeys}.

Lemma effectiveFrom_app A C log entry :
  effectiveFrom A C (log ++ [entry]) =
  effectiveFrom A C log ++
    [(default (from_option fst A (last (effectiveFrom A C log))) (p_updateKeys entry),
      default (from_option snd C (last (effectiveFrom A C log))) (p_nextKeyHashes entry))].
Proof.
  revert A C. induction log as [|e log IH]; intros A C; cbn; [done|]. rewrite IH. cbn. f_equal. f_equal.
  destruct log as [|e' log]; [done|]. rewrite last_cons. cbn [effectiveFrom]. rewrite last_cons.
  by destruct (last (effectiveFrom _ _ log)).
Qed.

Lemma indexFrom_app index previous log ps m p entry : length ps = length log →
  ∃ x, (indexFrom index previous (log ++ [entry]) (ps ++ [p]) m).1 = (indexFrom index previous log ps m).1 ++ [x].
Proof.
  revert index previous log m. induction ps as [|current ps IH]; intros index previous log m Hl.
  - destruct log; [|done]. cbn. by eexists.
  - destruct log as [|e log]; [done|]. cbn [app indexFrom head tail].
    destruct (IH (S index) current log (recordOrigins index 0 (f_addedHashes (factsOf previous current (Some e))) m) ltac:(by injection Hl)) as [x Hx].
    destruct (indexFrom _ _ (log ++ [entry]) _ _), (indexFrom _ _ log ps _). cbn in *. rewrite Hx. by eexists.
Qed.

Lemma facts_of log : facts (indexedLadderLog log) = (indexFrom 0 ([], []) log (effectiveParameters log) ∅).1.
Proof. unfold indexedLadderLog, indexLadderLog. by destruct (indexFrom _ _ _ _ _). Qed.

Lemma facts_app log entry : ∃ x, facts (indexedLadderLog (log ++ [entry])) = facts (indexedLadderLog log) ++ [x].
Proof.
  rewrite !facts_of. unfold effectiveParameters. rewrite effectiveFrom_app. apply indexFrom_app, effectiveFrom_length.
Qed.

(** One entry's turn of the reading. *)
Definition reads_entry (idx : IndexedLog) (did cid : string) (index : nat) (entry : DIDLogEntry)
    (reading : option CommitmentReading) : option CommitmentReading :=
  match state entry with
  | None => reading
  | Some doc =>
      match credentialMember doc did cid with
      | None => (λ r, mkCommitment (named r) false (retargeted r) (committed r)) <$> reading
      | Some member => Some (readMember idx index member reading)
      end
  end.

Lemma readCommitment_app idx did cid index log entry reading :
  readCommitment idx did cid index (log ++ [entry]) reading =
  reads_entry idx did cid (index + length log) entry (readCommitment idx did cid index log reading).
Proof.
  revert index reading. induction log as [|e log IH]; intros index reading; cbn [app readCommitment length].
  - by rewrite Nat.add_0_r.
  - rewrite IH. f_equal. lia.
Qed.

Lemma readMember_prefix idx idx' x index member reading :
  facts idx' = facts idx ++ [x] → index < length (facts idx) → readMember idx' index member reading = readMember idx index member reading.
Proof.
  intros Hf Hlt. unfold readMember, committedByRetiredSigner. rewrite Hf, lookup_app_l by done.
  by rewrite take_app_le by lia.
Qed.

Lemma readCommitment_prefix idx idx' x did cid index log reading :
  facts idx' = facts idx ++ [x] → index + length log ≤ length (facts idx) →
  readCommitment idx' did cid index log reading = readCommitment idx did cid index log reading.
Proof.
  intros Hf. revert index reading. induction log as [|e log IH]; intros index reading Hl; [done|]. cbn in Hl |- *.
  rewrite IH by lia. f_equal. destruct (state e) as [doc|]; [|done].
  destruct (credentialMember doc did cid); [|done]. by rewrite (readMember_prefix idx idx' x) by (done || lia).
Qed.

(** The reading of a log one entry longer is that entry's turn over the
    reading of the log. *)
Lemma reading_extends log entry cid : before_hash cid ≠ "" →
  credentialLadderCommitment (log ++ [entry]) cid =
  reads_entry (indexedLadderLog (log ++ [entry])) (before_hash cid) cid (length log) entry (credentialLadderCommitment log cid).
Proof.
  intros Hne. unfold credentialLadderCommitment. rewrite !decide_False by done. rewrite readCommitment_app. cbn [plus].
  destruct (facts_app log entry) as [x Hx]. destruct (indexed_length log) as [_ Hl].
  by rewrite (readCommitment_prefix (indexedLadderLog log) _ x) by (done || lia).
Qed.

(** Whether the member stands at the end of a reading. *)
Lemma reading_stands_last log cid doc reading : before_hash cid ≠ "" →
  last log ≫= state = Some doc → credentialLadderCommitment log cid = Some reading →
  stands reading = bool_decide (is_Some (credentialMember doc (before_hash cid) cid)).
Proof.
  intros Hne. destruct log as [|entry log _] using rev_ind; [done|]. rewrite last_snoc. cbn [mbind option_bind].
  intros Hdoc. rewrite reading_extends by done. unfold reads_entry. rewrite Hdoc.
  destruct (credentialMember _ _ _) as [member|].
  - intros [= <-]. rewrite bool_decide_true by eauto. unfold readMember.
    destruct (credentialLadderCommitment log cid) as [r|]; [|done]. destruct (stands r); [case_decide|]; done.
  - destruct (credentialLadderCommitment log cid) as [r|]; [|done]. intros [= <-].
    rewrite bool_decide_false; [done|]. by intros [? ?].
Qed.

(** The member a log ends on names what its reading names. *)
Lemma log_member log cid doc reading member : before_hash cid ≠ "" →
  last log ≫= state = Some doc → credentialLadderCommitment log cid = Some reading →
  credentialMember doc (before_hash cid) cid = Some member → retargeted reading = false →
  truthy (ladderCommitment member) = named reading.
Proof.
  intros Hne. destruct log as [|entry log _] using rev_ind; [done|]. rewrite last_snoc. cbn [mbind option_bind].
  intros Hdoc. rewrite reading_extends by done. unfold reads_entry. rewrite Hdoc. intros Hr Hm. rewrite Hm in Hr.
  injection Hr as <-. unfold readMember. destruct (credentialLadderCommitment log cid) as [r|]; [|done].
  destruct (stands r); [|done]. case_decide as Hv; [done|]. intros _. exact Hv.
Qed.
End readings.

(** ** The bind *)

Section bind.
Context {readers : DocumentReaders} {writer : WebvhWriter} {hashes : HashLibrary} {keys : WebvhKeys}.
Implicit Types (published : PublishedWebvhLog) (r : InventoryReading).

(** The rung-0 hash of a ladder. *)
Definition rung0_hash (ladderSeed hash : string) : Prop :=
  ∃ rung0, ladderRung ladderSeed 0 = Ok rung0 ∧ hash = deriveNextKeyHash (rung_keyMultibase rung0).

(** What a bind knows when it goes ahead. *)
Record bind_of published (unlockKeys : StandingUnlockKeys) (ladderSeed : option string) r : Prop := {
  bind_member : vmId r = unlockKeyVmId (pub_did published) (unlock_keyAgreement unlockKeys);
  bind_stands : memberStands r = publishesMethod (pub_doc published) (vmId r);
  bind_anchor : match ladderSeed with
                | Some seed => rung0_hash seed (anchorOf r)
                | None => anchorOf r = deriveNextKeyHash (unlock_updateKey unlockKeys)
                end;
  bind_fresh : memberStands r = false → anchorOf r = deriveNextKeyHash (unlock_updateKey unlockKeys);
  bind_standing : memberStands r = true → ∃ reading, commitmentReading r = Some reading ∧
    credentialLadderCommitment (pub_log published) (vmId r) = Some reading ∧
    named reading = Some (anchorOf r) ∧ retargeted reading = false;
  bind_unread : memberStands r = false → commitmentReading r = None;
  bind_key : match ladderSeed with
             | Some seed => ∃ key, ladderVmKeyMultibase seed = Ok key ∧ installedKey r = Some key
             | None => installedKey r = None
             end;
  bind_id : installedId r = vm_id (pub_did published) <$> installedKey r
}.

Lemma bindable_spec memberStands reading seedHash keyHash anchor :
  assertBindable memberStands reading seedHash keyHash anchor = Ok () ↔
  (memberStands = false → ∀ hash, seedHash = Some hash → hash = keyHash) ∧
  (memberStands = true → ∃ rd, reading = Some rd ∧ named rd = Some anchor ∧ retargeted rd = false).
Proof.
  unfold assertBindable. destruct memberStands; cbn.
  - destruct reading as [rd|]; cbn; [|by split; [|intros [_ H]; destruct (H eq_refl) as (? & ? & _)]].
    destruct (retargeted rd) eqn:Hr; cbn.
    { split; [done|]. intros [_ H]. destruct (H eq_refl) as (? & [= <-] & _ & ?). congruence. }
    case_bool_decide as Hn.
    + split; [done|]. intros [_ H]. destruct (H eq_refl) as (? & [= <-] & ? & _). by destruct Hn.
    + split; [|done]. intros _. split; [done|]. eauto.
  - case_bool_decide as Hs.
    + split; [done|]. intros [H _]. destruct Hs as [[hash ->] Hne]. destruct Hne. f_equal. by apply H.
    + split; [|done]. intros _. split; [|done]. intros _ hash ->. destruct (decide (hash = keyHash)); [done|].
      destruct Hs. split; [eauto|congruence].
Qed.

Lemma bind_facts published unlockKeys ladderSeed r :
  readInventory publish_inventory unlockKeys ladderSeed published = Ok r → bind_of published unlockKeys ladderSeed r.
Proof.
  unfold readInventory. cbn zeta. intros (seedHash & Hseed & H)%result_bind_ok.
  apply result_bind_ok in H as ([] & Hb & H). cbn in H. apply result_bind_ok in H as (key & Hkey & H).
  cbn in H. injection H as <-. apply bindable_spec in Hb as [Hfresh Hstands].
  assert (match ladderSeed with
          | Some seed => ∃ hash, seedHash = Some hash ∧ rung0_hash seed hash
          | None => seedHash = None
          end) as Hsh.
  { destruct ladderSeed as [seed|]; [|by injection Hseed as <-].
    apply result_bind_ok in Hseed as (rung0 & Hr & [= <-]). eexists. split; [done|]. by exists rung0. }
  constructor; cbn; [done|done|..|done].
  - destruct ladderSeed as [seed|]; [|by subst]. by destruct Hsh as (hash & -> & ?).
  - intros Hm. destruct seedHash as [hash|]; [|done]. cbn. by apply Hfresh.
  - intros Hm. rewrite Hm in Hstands |- *. destruct (Hstands eq_refl) as (rd & Hrd & ? & ?). eauto.
  - by intros ->.
  - destruct ladderSeed as [seed|]; [|by injection Hkey as <-].
    apply result_bind_ok in Hkey as (k & Hk & [= <-]). eauto.
Qed.

(** The entry a bind states, member by member. *)
Record bind_entry published (part : UnlockInventoryPart) (publication : UnlockKeyAgreementPublication) r
    (fields : AccountEntryFields) : Prop := {
  bound_keys : ef_updateKeys fields = None;
  bound_kept : ef_nextKeyHashes fields = None;
  bound_hashes hash : hash ∈ default [] (ef_commitHashes fields) ↔
    hash = anchorOf r ∧ publishesAuthority part = true ∧ hashCommitted published r = false;
  bound_services : ef_services fields = None;
  bound_document : ∃ document, ef_document fields = Some document ∧
    (∀ method, method ∈ fields_methods document ↔
       (publishesKey part = true ∧ method = unlockKeyVerificationMethod (pub_did published) publication (anchorOf r)) ∨
       (∃ key, installs part r = Some key ∧ method = ladderVerificationMethod (pub_did published) key) ∨
       (method ∈ default [] (verificationMethod (pub_doc published)) ∧
        method_id method ≠ (if publishesKey part then Some (vmId r) else None) ∧
        method_id method ≠ (if publishesAuthority part then installedId r else None))) ∧
    ∀ relation id, id ∈ fields_relation document relation ↔
      id ∈ relationIds (relationOf (pub_doc published) relation) ∨
      (relation = keyAgreement ∧ publishesKey part = true ∧ id = vmId r) ∨
      ((relation = assertionMethod ∨ relation = capabilityDelegation) ∧
       ∃ key, installs part r = Some key ∧ id = vm_id (pub_did published) key)
}.

Lemma installs_id published part r key :
  installedId r = vm_id (pub_did published) <$> installedKey r → installs part r = Some key →
  installedId r = Some (vm_id (pub_did published) key) ∧ publishesAuthority part = true.
Proof. unfold installs. intros -> H. destruct (publishesAuthority part); [|done]. by rewrite H. Qed.

Lemma bind_entry_of published unlockKeys ladderSeed part publication r : bind_of published unlockKeys ladderSeed r →
  bind_entry published part publication r (inventoryFields publish_inventory part publication published r).
Proof.
  intros Hb. constructor; cbn [inventoryFields ef_updateKeys ef_nextKeyHashes ef_commitHashes ef_services ef_document]; [done|done| |done|].
  - intros hash. destruct (publishesAuthority part), (hashCommitted published r); cbn;
      rewrite ?list_elem_of_singleton, ?elem_of_nil; naive_solver.
  - eexists. split; [done|]. cbn. split.
    + intros method. unfold boundMethods. rewrite !elem_of_app, list_elem_of_filter.
      destruct (publishesKey part), (installs part r); rewrite ?list_elem_of_singleton, ?elem_of_nil; naive_solver.
    + intros relation id. unfold editedRelation. destruct (installs part r) as [key|] eqn:Hi.
      * destruct (installs_id _ _ _ _ (bind_id _ _ _ _ Hb) Hi) as [-> Ha].
        destruct relation, (publishesKey part); rewrite ?elem_of_js_dedup, ?elem_of_app, ?list_elem_of_singleton; naive_solver.
      * destruct relation, (publishesKey part); rewrite ?elem_of_js_dedup, ?elem_of_app, ?list_elem_of_singleton; naive_solver.
Qed.

(** ** A bind run again *)

(** A head that one bind's entry made of another. *)
Record bound_head published (part : UnlockInventoryPart) (publication : UnlockKeyAgreementPublication) r
    published' : Prop := {
  head_did_kept : pub_did published' = pub_did published;
  head_log : ∃ entry, pub_log published' = pub_log published ++ [entry] ∧ state entry = Some (pub_doc published');
  head_hashes hash : hash ∈ pub_nextKeyHashes published ∨
      hash ∈ default [] (ef_commitHashes (inventoryFields publish_inventory part publication published r)) →
    hash ∈ pub_nextKeyHashes published';
  head_methods : verificationMethod (pub_doc published') = Some (boundMethods part publication published r);
  head_relations relation : relationIds (relationOf (pub_doc published') relation) =
    editedRelation publish_inventory part (pub_doc published) r relation;
  head_member : credentialMember (pub_doc published') (pub_did published) (vmId r) =
    if publishesKey part then Some (unlockKeyVerificationMethod (pub_did published) publication (anchorOf r))
    else credentialMember (pub_doc published) (pub_did published) (vmId r)
}.

(** A document that lists the credential's member exactly when it publishes
    it, and lists no client under the ladder VM's id. *)
Record orderly_head published r : Prop := {
  orderly_doc : last (pub_log published) ≫= state = Some (pub_doc published);
  orderly_did : before_hash (vmId r) = pub_did published ∧ pub_did published ≠ "";
  orderly_member : publishesMethod (pub_doc published) (vmId r) =
    bool_decide (is_Some (credentialMember (pub_doc published) (pub_did published) (vmId r)));
  orderly_ids : installedId r ≠ Some (vmId r);
  orderly_vm id : installedId r = Some id → id ∉ relationIds (relationOf (pub_doc published) capabilityInvocation)
}.

Section again.
Context (published published' : PublishedWebvhLog) (part : UnlockInventoryPart) (unlockKeys : StandingUnlockKeys)
  (ladderSeed : option string) (r : InventoryReading).
Local Notation publication := (unlock_keyAgreement unlockKeys).
Context (Hb : bind_of published unlockKeys ladderSeed r) (Ho : orderly_head published r)
  (Hh : bound_head published part publication r published') (Hanchor : anchorOf r ≠ "").

Lemma member_id publication' anchor : method_id (unlockKeyVerificationMethod (pub_did published) publication' anchor) =
  Some (unlockKeyVmId (pub_did published) publication').
Proof. by destruct publication'. Qed.

Lemma again_stands : publishesMethod (pub_doc published') (vmId r) = publishesKey part || memberStands r.
Proof.
  destruct (bind_entry_of published unlockKeys ladderSeed part publication r Hb) as [_ _ _ _ (document & Hd & Hm & _)].
  cbn in Hd. injection Hd as <-. cbn in Hm.
  unfold publishesMethod at 1. rewrite (head_methods _ _ _ _ _ Hh). cbn. rewrite (bind_stands _ _ _ _ Hb).
  unfold publishesMethod. destruct (publishesKey part) eqn:Hk; cbn.
  - apply bool_decide_eq_true, list_elem_of_fmap. eexists. split; [|apply Hm; by left].
    by rewrite member_id, (bind_member _ _ _ _ Hb).
  - apply bool_decide_ext. rewrite !list_elem_of_fmap. split.
    + intros (method & Hid & Hin). apply Hm in Hin as [[? _]|[(key & Hi & ->)|[Hin _]]]; [done| |eauto].
      exfalso. destruct (installs_id _ _ _ _ (bind_id _ _ _ _ Hb) Hi) as [Hi' _]. apply (orderly_ids _ _ Ho). by rewrite Hi', Hid.
    + intros (method & Hid & Hin). exists method. split; [done|]. apply Hm. right. right. split; [done|]. rewrite <- Hid.
      split; [done|]. destruct (publishesAuthority part); [|done]. intros He. by apply (orderly_ids _ _ Ho).
Qed.

Lemma again_reading : publishesKey part || memberStands r = true →
  ∃ reading, credentialLadderCommitment (pub_log published') (vmId r) = Some reading ∧
    named reading = Some (anchorOf r) ∧ retargeted reading = false ∧
    (from_option committed false (commitmentReading r) = true → committed reading = true).
Proof.
  intros Hstands. destruct (head_log _ _ _ _ _ Hh) as (entry & -> & Hst). destruct (orderly_did _ _ Ho) as [Hdid Hne].
  rewrite reading_extends by congruence. unfold reads_entry. rewrite Hst, Hdid, (head_member _ _ _ _ _ Hh).
  destruct (memberStands r) eqn:Hm.
  - destruct (bind_standing _ _ _ _ Hb Hm) as (reading & -> & Hr & Hn & Ht).
    pose proof (orderly_member _ _ Ho) as Horder. rewrite <- (bind_stands _ _ _ _ Hb), Hm in Horder.
    assert (stands reading = true) as Hs.
    { erewrite reading_stands_last; [|rewrite Hdid; exact Hne|exact (orderly_doc _ _ Ho)|exact Hr]. by rewrite Hdid. }
    rewrite Hr.
    assert (∀ member, truthy (ladderCommitment member) = Some (anchorOf r) →
      ∃ reading', Some (readMember (indexedLadderLog (pub_log published ++ [entry])) (length (pub_log published)) member (Some reading)) = Some reading' ∧
        named reading' = Some (anchorOf r) ∧ retargeted reading' = false ∧ (committed reading = true → committed reading' = true)) as Hgo.
    { intros member Hv. eexists. split; [done|]. unfold readMember. rewrite Hs, Hv, decide_False by congruence.
      cbn. split_and!; [done..|]. by intros ->. }
    destruct (publishesKey part).
    + apply Hgo. destruct publication; cbn; unfold truthy; destruct (anchorOf r); done.
    + symmetry in Horder. apply bool_decide_eq_true in Horder as [member Hmem]. rewrite Hmem. apply Hgo.
      rewrite (log_member (pub_log published) (vmId r) (pub_doc published) reading member); [done| |exact (orderly_doc _ _ Ho)|exact Hr| |exact Ht];
        by rewrite Hdid.
  - rewrite orb_false_r in Hstands. rewrite Hstands. eexists. split; [done|].
    assert (truthy (ladderCommitment (unlockKeyVerificationMethod (pub_did published) publication (anchorOf r))) = Some (anchorOf r)) as Hv
      by (destruct publication; cbn; unfold truthy; destruct (anchorOf r); done).
    pose proof (orderly_member _ _ Ho) as Horder. rewrite <- (bind_stands _ _ _ _ Hb), Hm in Horder.
    assert (from_option stands false (credentialLadderCommitment (pub_log published) (vmId r)) = false) as Hs.
    { destruct (credentialLadderCommitment (pub_log published) (vmId r)) as [reading|] eqn:Hr; [|done]. cbn.
      erewrite reading_stands_last; [|rewrite Hdid; exact Hne|exact (orderly_doc _ _ Ho)|exact Hr]. by rewrite Hdid. }
    assert (commitmentReading r = None) as Hnone by exact (bind_unread _ _ _ _ Hb Hm).
    unfold readMember. rewrite Hv, Hnone. destruct (credentialLadderCommitment _ _) as [reading|]; cbn in Hs; [rewrite Hs|]; done.
Qed.

Lemma again_vm id : publishesAuthority part = true → installedId r = Some id → id ∈ ladderVmIds (pub_doc published').
Proof.
  intros Ha Hi. pose proof (bind_id _ _ _ _ Hb) as Hid. rewrite Hi in Hid.
  destruct (installedKey r) as [key|] eqn:Hk; [|done].
  unfold ladderVmIds. rewrite list_elem_of_filter, !(head_relations _ _ _ _ _ Hh). unfold editedRelation, installs.
  rewrite Ha, Hk, Hi. split; [by apply (orderly_vm _ _ Ho)|].
  rewrite elem_of_js_dedup, elem_of_app, list_elem_of_singleton. by right.
Qed.

(** What a second run reads. *)
Definition again_read : InventoryReading :=
  mkReading (vmId r) (anchorOf r) (publishesKey part || memberStands r)
    (if publishesKey part || memberStands r then credentialLadderCommitment (pub_log published') (vmId r) else None)
    nothing_standing (installedKey r) (installedId r) (mkClaim None [] []).

Lemma again_runs : readInventory publish_inventory unlockKeys ladderSeed published' = Ok again_read.
Proof.
  assert (assertBindable (publishesKey part || memberStands r) (commitmentReading again_read)
    (match ladderSeed with Some _ => Some (anchorOf r) | None => None end) (deriveNextKeyHash (unlock_updateKey unlockKeys)) (anchorOf r) = Ok ()) as Hok.
  { apply bindable_spec. split.
    - intros [_ Hm]%orb_false_iff hash Hs. destruct ladderSeed; [|done]. injection Hs as <-. by apply (bind_fresh _ _ _ _ Hb).
    - intros Hm. destruct (again_reading Hm) as (reading & Hr & Hn & Ht & _). cbn. rewrite Hm. eauto. }
  unfold readInventory. cbn zeta. rewrite (head_did_kept _ _ _ _ _ Hh), <- (bind_member _ _ _ _ Hb), again_stands.
  pose proof (bind_anchor _ _ _ _ Hb) as Ha. pose proof (bind_key _ _ _ _ Hb) as Hk.
  pose proof (bind_id _ _ _ _ Hb) as Hi. unfold again_read in *. cbn [commitmentReading] in Hok. destruct ladderSeed as [seed|].
  - destruct Ha as (rung0 & Hr0 & Ha), Hk as (key & Hk & Hk'). rewrite Hr0. cbn. rewrite <- Ha, Hok, Hk. cbn.
    by rewrite Hi, Hk'.
  - cbn. rewrite <- Ha in Hok |- *. rewrite Hok. cbn. by rewrite Hi, Hk.
Qed.

Lemma again_settled : settled publish_inventory part published' again_read = true.
Proof.
  unfold settled. cbn [memberStands installedId again_read]. apply andb_true_iff. split; [by destruct (publishesKey part)|].
  destruct (publishesAuthority part) eqn:Ha; [|done]. cbn. apply andb_true_iff. split.
  - unfold hashCommitted. cbn [anchorOf commitmentReading again_read]. apply orb_true_iff.
    destruct (hashCommitted published r) eqn:Hc.
    + unfold hashCommitted in Hc. apply orb_true_iff in Hc as [Hc|Hc].
      * left. apply bool_decide_eq_true in Hc. apply bool_decide_eq_true, (head_hashes _ _ _ _ _ Hh). by left.
      * right. destruct (memberStands r) eqn:Hm; [|by rewrite (bind_unread _ _ _ _ Hb Hm) in Hc]. rewrite orb_true_r.
        destruct again_reading as (reading & -> & _ & _ & Hcom); [by rewrite Hm, orb_true_r|]. by apply Hcom.
    + left. apply bool_decide_eq_true, (head_hashes _ _ _ _ _ Hh). right. cbn. rewrite Ha, Hc. cbn. apply list_elem_of_here.
  - destruct (installedId r) as [id|] eqn:Hi; [|done]. by apply bool_decide_eq_true, again_vm.
Qed.
End again.
End bind.

(** ** Who a removal leaves able *)

Section spares.
Context {readers : DocumentReaders} {writer : WebvhWriter} {hashes : HashLibrary} {keys : WebvhKeys}.

Lemma removal_keeps_able `{!Inj (=) (=) deriveNextKeyHash} published unlockKeys ladderSeed r cs es c client :
  read_head published → removal_of published unlockKeys ladderSeed r →
  history (effectiveParameters (pub_log published)) cs es → c ∈ cs →
  client ∈ listEnrolledWebvhClients (pub_log published) → client_updateKey client = Some (c_update c) →
  ¬ retiring (head_did (pub_log published)) [vmId r] client →
  unclaimed c [] (committedHashes (standingInventory r)) →
  able (filter (λ key, key ∉ revealedKeys (standingInventory r)) (pub_updateKeys published))
    (filter (λ hash, hash ∉ committedHashes (standingInventory r)) (pub_nextKeyHashes published)) c.
Proof.
  intros [_ Hpar] Hr Hh Hc Hl Hk Hret Hun.
  destruct (removal_spares _ _ _ _ Hr client Hl Hret _ Hk) as (Hnk & Hnh & Hst).
  pose proof (history_stands _ _ _ Hh) as Hroster. pose proof (client_keys_distinct _ _ _ _ Hroster Hc) as Hne.
  assert (last (effectiveParameters (pub_log published)) = Some (pub_updateKeys published, pub_nextKeyHashes published)) as Hlast.
  { pose proof (history_stands _ _ _ Hh) as (_ & Hcs & _). rewrite Forall_forall in Hcs.
    destruct (Hcs c Hc) as [(A & C & Hlast & _) _]. unfold currentLogParameters in Hpar. rewrite Hlast in Hpar. cbn in Hpar. by simplify_eq. }
  destruct (standing_able _ _ _ _ _ _ Hh Hlast Hc) as (Hu & Hs & Hhu & Hhs).
  destruct Hroster as (_ & Hcs & _). rewrite Forall_forall in Hcs.
  rewrite (attribution_exact _ _ _ _ (Hcs c Hc) Hne Hun) in Hst. cbn in Hst.
  assert (deriveNextKeyHash (c_staged c) ∉ committedHashes (standingInventory r)) by (apply Hst; left).
  unfold able. rewrite !list_elem_of_filter. tauto.
Qed.

(** No relation loses an id the clients are enrolled under. *)
Lemma removal_keeps_clients published unlockKeys ladderSeed r part id relation :
  removal_of published unlockKeys ladderSeed r →
  id ∈ relationIds (relationOf (pub_doc published) capabilityInvocation) → id ≠ vmId r →
  id ∈ relationIds (relationOf (pub_doc published) relation) →
  id ∈ editedRelation remove_inventory part (pub_doc published) r relation.
Proof.
  intros Hr Hinv Hne Hid. cbn. rewrite list_elem_of_filter. split; [|done]. unfold struckIds.
  rewrite elem_of_cons. intros [?|Hs]; [done|]. apply (removal_vms _ _ _ _ Hr) in Hs.
  unfold ladderVmIds in Hs. rewrite list_elem_of_filter in Hs. by destruct Hs.
Qed.

Lemma removal_keeps_methods published unlockKeys ladderSeed r method id :
  removal_of published unlockKeys ladderSeed r →
  id ∈ relationIds (relationOf (pub_doc published) capabilityInvocation) → id ≠ vmId r →
  method ∈ default [] (verificationMethod (pub_doc published)) → method_id method = Some id →
  method ∈ keptMethods published r.
Proof.
  intros Hr Hinv Hne Hm Hid. unfold keptMethods. rewrite list_elem_of_filter, Hid. split; [|done]. cbn.
  apply Forall_singleton. pose proof (removal_keeps_clients published unlockKeys ladderSeed r all_part id capabilityInvocation Hr Hinv Hne Hinv) as H.
  cbn in H. rewrite list_elem_of_filter in H. by destruct H.
Qed.
End spares.


(** A bind converges. Run again over the head its own entry made, it
    publishes nothing: it reads the member it published or the one that
    already stood as bound by the same ladder, finds the commitment standing
    or spent since and the ladder VM installed, whichever half of the
    inventory it was asked for. *)
Theorem bind_settles_once_published {readers : DocumentReaders} {writer : WebvhWriter} {hashes : HashLibrary}
    {keys : WebvhKeys} published published' part unlockKeys ladderSeed r :
  readInventory publish_inventory unlockKeys ladderSeed published = Ok r →
  orderly_head published r → anchorOf r ≠ "" →
  bound_head published part (unlock_keyAgreement unlockKeys) r published' →
  ∃ r', readInventory publish_inventory unlockKeys ladderSeed published' = Ok r' ∧
    settled publish_inventory part published' r' = true.
Proof.
  intros Hr Ho Ha Hh. apply bind_facts in Hr. eexists. split; [by eapply again_runs|by eapply again_settled].
Qed.

(** * The edits of a standing credential's inventory, as ceremonies

    [publishUnlockKey] and [removeUnlockKey] under any store and any number of
    lost races: the entries they put, and what they return. *)

Section edits.
Context {W : Type} {readers : DocumentReaders} {resolver : WebvhResolver} {writer : WebvhWriter}
  {hashes : HashLibrary} {keys : WebvhKeys}.
Variables (updateDID : UpdateDID) (logger : Logger W).
Context {cell : Cell W LadderVmRemovalReport} {cell_laws : CellLaws W LadderVmRemovalReport}.
Variables (I : W → Prop) (K : PublishedWebvhLog → Prop) (o : InventoryOptions (W:=W)) (polarity : InventoryPolarity)
  (part : UnlockInventoryPart).
Local Notation unlockKeys := (inv_unlockKeys o).
Local Notation seed := (inv_ladderSeed o).

(** What an edit knows of the head, and the entry it states. *)
Definition reads_as (published : PublishedWebvhLog) (r : InventoryReading) : Prop :=
  match polarity with
  | remove_inventory => removal_of published unlockKeys seed r
  | publish_inventory => bind_of published unlockKeys seed r
  end.
Definition states_edit (published : PublishedWebvhLog) (r : InventoryReading) (fields : AccountEntryFields) : Prop :=
  match polarity with
  | remove_inventory => removal_entry published r fields
  | publish_inventory => bind_entry published part (unlock_keyAgreement unlockKeys) r fields
  end.

(** An entry an edit may put over a head, and the reading it is of. *)
Definition edit_of (published : PublishedWebvhLog) (r : InventoryReading) (updated : Updated) : Prop :=
  reads_as published r ∧ settled polarity part published r = false ∧
  ∃ fields, states_edit published r fields ∧ disciplined updateDID (LogSigner (inv_signer o)) published fields updated.

(** What an edit returns: a head where nothing was left to do, or the one its
    entry made. *)
Definition edit_returns (outcome : InventoryOutcome) : Prop :=
  ∃ published r, K published ∧ reads_as published r ∧
    ((settled polarity part published r = true ∧
      (outcome_did outcome, outcome_doc outcome, outcome_log outcome) = head_of published) ∨
     ∃ updated, edit_of published r updated ∧
       (outcome_did outcome, outcome_doc outcome, outcome_log outcome) = (upd_did updated, upd_doc updated, upd_log updated)).

(** The environment does not touch the local. *)
Definition blind {A} (c : comp W A) : Prop := ∀ v, keeps (λ w, get_cell w = v ∧ I w) c.

Record edit_environment : Prop := {
  edit_raw v : triple (λ w, get_cell w = v ∧ I w) (getIdResourceRaw (inv_idStore o) DID_LOG_RESOURCE)
    (λ read w, heads K read ∧ get_cell w = v ∧ I w) (λ _ w, get_cell w = v ∧ I w);
  edit_pin_read id : blind (pin_read (id_pinStore (inv_idStore o)) id);
  edit_pin_write id pin : blind (pin_write (id_pinStore (inv_idStore o)) id pin);
  edit_log event : blind (logger event);
  edit_doc store doc : inv_projectionStore o = Some store → blind (document_put store doc);
  edit_put published r updated : K published → edit_of published r updated →
    blind (log_put (inv_idStore o) (upd_log updated) (pub_etag published));
  edit_heads published : K published → read_head published;
  edit_cell (v : LadderVmRemovalReport) w : I w → I (set_cell v w)
}.
Hypothesis env : edit_environment.

Lemma blind_keeps {A} (c : comp W A) : blind c → keeps I c.
Proof.
  intros Hc w Hi. specialize (Hc (get_cell w) w (conj eq_refl Hi)). destruct (c w) as [[a|e] w']; apply Hc.
Qed.

Lemma edit_store : store_keeps I K (inv_idStore o).
Proof.
  constructor; intros; [|apply blind_keeps; apply env..].
  intros w Hi. pose proof (edit_raw env (get_cell w) w (conj eq_refl Hi)) as H.
  destruct (getIdResourceRaw _ _ w) as [[read|e] w']; [by destruct H as (? & _ & ?)|by destruct H].
Qed.

(** What the build answers over a head. *)
Definition edit_answers (published : PublishedWebvhLog) (fields : option AccountEntryFields) : Prop :=
  ∃ r, readInventory polarity unlockKeys seed published = Ok r ∧
    match fields with
    | None => settled polarity part published r = true
    | Some fields => settled polarity part published r = false ∧
        fields = inventoryFields polarity part (unlock_keyAgreement unlockKeys) published r
    end.

Lemma build_edits : build_answers I (inventoryBuild polarity part unlockKeys seed) edit_answers.
Proof.
  intros ctx Hconcl. unfold inventoryBuild. cbn zeta.
  eapply (triple_bind _ _ _ (λ r w, readInventory polarity unlockKeys seed (ctx_published ctx) = Ok r ∧ I w)).
  { apply triple_lift. intros w Hw. by destruct (readInventory _ _ _ _). }
  intros r. apply triple_pure. intros Hr.
  eapply (triple_bind _ _ _ (λ _, I)); [apply triple_modify; intros w Hw; by apply env|]. intros ?.
  destruct (settled _ _ _ _) eqn:Hs.
  - eapply triple_bind; [exact Hconcl|]. intros head. apply triple_pure. intros _. apply triple_ret. intros w Hw.
    split; [|done]. by exists r.
  - apply triple_ret. intros w Hw. split; [|done]. by exists r.
Qed.

Lemma reads_of published r : K published → readInventory polarity unlockKeys seed published = Ok r → reads_as published r.
Proof.
  intros HK Hr. unfold reads_as. pose proof (edit_heads env _ HK). destruct polarity; [by eapply bind_facts|by apply removal_facts].
Qed.

Lemma edits_of published fields updated : K published → edit_answers published (Some fields) →
  disciplined updateDID (LogSigner (inv_signer o)) published fields updated → ∃ r, edit_of published r updated.
Proof.
  intros HK (r & Hr & Hs & ->) Hd. exists r. pose proof (reads_of _ _ HK Hr) as Hreads. split_and!; [done..|].
  eexists. split; [|exact Hd]. unfold states_edit, reads_as in *. destruct polarity; [by eapply bind_entry_of|apply removal_entry_of].
Qed.

Lemma edit_once : triple I (setUnlockKeyInventoryOnce updateDID logger o polarity part)
  (λ outcome w, edit_returns outcome ∧ I w) (λ _, I).
Proof.
  unfold setUnlockKeyInventoryOnce.
  eapply (triple_bind _ _ _ (λ _, I)); [apply triple_modify; intros w Hw; by apply env|]. intros ?.
  eapply triple_bind.
  { apply (seam_publishes_disciplined updateDID logger I K _ edit_answers); cbn [inventoryEntryOptions opt_idStore opt_published opt_projectionStore opt_skip opt_build opt_signer].
    - apply edit_store.
    - done.
    - intros event. apply blind_keeps, env.
    - intros store doc Hst. by apply blind_keeps, (edit_doc env).
    - done.
    - apply build_edits.
    - intros published fields updated HK Ha Hd. destruct (edits_of _ _ _ HK Ha Hd) as [r Hr]. by apply blind_keeps, (edit_put env _ r). }
  intros outcome. apply triple_pure. intros (Ho & Hskip & HK).
  eapply (triple_bind _ _ _ (λ _, I)); [by apply triple_gets|]. intros report. apply triple_ret. intros w Hw. split; [|done].
  cbn [inventoryEntryOptions opt_skip opt_signer] in *. unfold outcome_of in Ho. destruct (out_updated outcome) as [updated|].
  - destruct Ho as (fields & Ha & Hd). destruct (edits_of _ _ _ HK Ha Hd) as [r Hr]. exists (out_published outcome), r.
    split_and!; [done|apply Hr|]. right. by exists updated.
  - destruct Ho as [Hs|(r & Hr & Hs)]; [by rewrite Hskip in Hs|]. exists (out_published outcome), r.
    split_and!; [done|by apply reads_of|]. by left.
Qed.
End edits.

(** C14: an edit of a standing credential's inventory writes what it is for.
    Binding one or removing one, over any store, any answers and any number of
    lost races, puts only entries the account log's discipline allows, each
    over a head whose reading it is of. A bind states no update key and
    commits at most its ladder's rung-0 hash, adds the credential's member
    and the ladder VM to the methods and relations they belong to and takes
    nothing else away, and over a standing member proceeds only under the
    commitment the log reads there. A removal strikes exactly the keys and
    hashes the credential's ladder has standing, the member and the ladder
    VMs claimed for it, from a reading no surviving client's key is in. It
    returns only a head where nothing was left to do or the one its entry
    made. *)
Theorem credential_edits_write_as_specified {W} {readers : DocumentReaders} {resolver : WebvhResolver}
    {writer : WebvhWriter} {hashes : HashLibrary} {keys : WebvhKeys} (updateDID : UpdateDID) (logger : Logger W)
    {cell : Cell W LadderVmRemovalReport} {cell_laws : CellLaws W LadderVmRemovalReport}
    (I : W → Prop) K (o : InventoryOptions (W:=W)) polarity part :
  edit_environment updateDID logger I K o polarity part →
  triple I (match polarity with
            | publish_inventory => publishUnlockKey updateDID logger o part
            | remove_inventory => removeUnlockKey updateDID logger o
            end)
    (λ outcome w, edit_returns updateDID K o polarity (match polarity with publish_inventory => part | remove_inventory => all_part end) outcome ∧ I w)
    (λ _, I).
Proof.
  intros env. destruct polarity; apply retry_keeps; [by eapply edit_once|].
  apply (edit_once _ _ _ _ _ _ all_part). destruct env. by constructor.
Qed.
