(* ===== verification/CredentialRetirement.v ===== *)
(** * The retirement of a standing credential

    [src/src/unlock/retire.ts]: the inventory edit, the annex reach, the
    roster's rotation and the collections' move, and what they leave. *)

From Stdlib Require QArith_base.
From S2P Require Import Prelude Json JsText CeremonyEvents AccountDocument LadderRungs ResourceController AccountLog LogStore KeyRotation LadderIndex LadderInventory ClientListing ClientRevocation AccountEntry EntryDiscipline Descriptors UserKeyRoster RosterConvergence UserKeyCascade RosterCascade AnnexGc StandingCredential StandingSafety.

(** ** Data *)

Inductive InventoryAction := action_struck | action_swapped | action_clean | action_skipped.
Inductive InventorySkip := skip_no_pointer | skip_no_ladder_seed | skip_failed.
#[export] Instance InventoryAction_eq_dec : EqDecision InventoryAction.
Proof. solve_decision. Defined.
#[export] Instance InventorySkip_eq_dec : EqDecision InventorySkip.
Proof. solve_decision. Defined.

Record ClientAnnexInventoryRetirement := mkAnnexRetirement {
  annex_action : InventoryAction;
  annex_reason : option InventorySkip;
  annex_revoke : option ClientAnnexSwapRevokeOutcome
}.

Record UnlockCredentialRetirementResult := mkRetirement {
  ret_rotated : bool;
  ret_ladderVm : LadderVmRemovalReport;
  ret_rosterSeal : option SealOutcome;
  ret_collections : UserKeyCascadeResult;
  ret_document : AccountDocument;
  ret_userKey : option UserKey;
  ret_rosterDescriptor : option CollectionEncryption;
  ret_clientAnnex : option ClientAnnexInventoryRetirement
}.

Definition UNLOCK_CREDENTIAL_RETIREMENT_STAGES : list string :=
  ["inventory-edit"; "annex-inventory"; "roster-rotation"; "collection-epochs"].
Definition UNLOCK_CREDENTIAL_RETIREMENT_REFUSALS : list string :=
  ["UnclaimedLadderVmRetirementError"; "LadderAttributionError"].

Definition retirement_run (runId : string) : CeremonyRun :=
  mkRun "unlock-credential-rotation" runId UNLOCK_CREDENTIAL_RETIREMENT_REFUSALS [].

Section retirement.
Context {W : Type} {readers : DocumentReaders} {resolver : WebvhResolver} {writer : WebvhWriter}
  {hashes : HashLibrary} {keys : WebvhKeys} {commitments : CommitmentLibrary} {library : EpochLibrary} {shape : ThrownShape}.
Context {report : Cell W LadderVmRemovalReport} {emitter : Cell W EmitterState}.
Variables (updateDID : UpdateDID) (logger : Logger W).

Record RetirementOptions := mkRetirementOptions {
  rt_edit : InventoryOptions (W:=W);
  rt_rosterStore : EncryptionDescriptorStore W;
  rt_userKey : option UserKey;
  rt_clientKeyAgreementKey : KeyAgreementKey;
  rt_pinnedEpochId : option string;
  rt_onUserKeyAdopted : option (AdoptedUserKey → comp W ());
  rt_collections : CascadeCollections W;
  rt_retireClientAnnexInventory : option (AccountDocument → comp W ClientAnnexInventoryRetirement);
  rt_onRotationAdopted : option (UserKey → comp W ())
}.

(** Best-effort: a closure that throws is a failed skip. *)
Definition annexReach (events : CeremonyRun) (options : RetirementOptions) (doc : AccountDocument) :
    comp W (option ClientAnnexInventoryRetirement) :=
  match rt_retireClientAnnexInventory options with
  | None => mret None
  | Some retire =>
      clientAnnex ← try_catch (retire doc) (λ _, mret (mkAnnexRetirement action_skipped (Some skip_failed) None));
      (if decide (annex_action clientAnnex = action_skipped) then mret ()
       else stage logger events "annex-inventory" (priorUnless (negb (bool_decide (annex_action clientAnnex = action_clean)))));;
      mret (Some clientAnnex)
  end.

Definition announceAdoption (options : RetirementOptions) (tail : RosterCascadeResult) (userKey : UserKey) : comp W () :=
  match tail_rotated tail, rt_onRotationAdopted options with
  | true, Some adopted => adopted userKey
  | _, _ => mret ()
  end.

Definition concludeRetirement (options : RetirementOptions) (outcome : InventoryOutcome)
    (clientAnnex : option ClientAnnexInventoryRetirement) (tail : RosterCascadeResult) :
    comp W UnlockCredentialRetirementResult :=
  match rosterDescriptor tail, tail_userKey tail with
  | Some descriptor, Some userKey =>
      announceAdoption options tail userKey;;
      mret (mkRetirement (tail_rotated tail) (outcome_ladderVm outcome) (rosterSeal tail) (tail_collections tail)
        (outcome_doc outcome) (Some userKey) (Some descriptor) clientAnnex)
  | _, _ =>
      mret (mkRetirement false (outcome_ladderVm outcome) None (tail_collections tail) (outcome_doc outcome) None None
        clientAnnex)
  end.

Definition runUnlockCredentialRetirement (events : CeremonyRun) (options : RetirementOptions) :
    comp W UnlockCredentialRetirementResult :=
  outcome ← removeUnlockKey updateDID logger (rt_edit options);
  stage logger events "inventory-edit" NoDetail;;
  clientAnnex ← annexReach events options (outcome_doc outcome);
  tail ← rotateRosterToDocumentAndCascade (rt_rosterStore options) (outcome_did outcome) (outcome_doc outcome)
    (outcome_log outcome) (rt_userKey options) (rt_clientKeyAgreementKey options) (rt_pinnedEpochId options)
    (rt_onUserKeyAdopted options) (rt_collections options);
  tailStages logger events tail;;
  concludeRetirement options outcome clientAnnex tail.

(** How a retirement that returned is classified. *)
Definition retirementOutcome (result : UnlockCredentialRetirementResult) : MendOutcomeKind * Detail :=
  let reason := ret_clientAnnex result ≫= annex_reason in
  let failedStages :=
    (if decide (reason = Some skip_failed) then 1 else 0) +
    (match ret_rosterSeal result with Some (seal_failed _) => 1 | _ => 0 end) in
  let failedCollections := length (cascade_failed (ret_collections result)) in
  (if decide (0 < failedStages ∨ 0 < failedCollections ∨ reason = Some skip_no_ladder_seed ∨
              report_unclaimed (ret_ladderVm result) ≠ []) then partial else clean,
   DetailOf [("failedStages", count failedStages); ("failedCollections", count failedCollections)]).

Definition retireUnlockCredential (runId : string) (options : RetirementOptions) :
    comp W UnlockCredentialRetirementResult :=
  modify (set_cell fresh_emitter);;
  let events := retirement_run runId in
  CeremonyEvents.run logger events (runUnlockCredentialRetirement events options) (λ result, mret (retirementOutcome result)).

(** ** The edit moves no descriptor *)

Section still.
Context {K : Type} (held : W → K → option DescriptorStoreRead) (options : RetirementOptions).

Record retirement_still : Prop := {
  rts_entry : entry_still held logger (inv_idStore (rt_edit options)) (inv_projectionStore (rt_edit options));
  rts_report (value : LadderVmRemovalReport) w k : held (set_cell value w) k = held w k;
  rts_emitter (value : EmitterState) w k : held (set_cell value w) k = held w k;
  rts_annex f doc : rt_retireClientAnnexInventory options = Some f → still held (f doc);
  rts_adopted f key : rt_onRotationAdopted options = Some f → still held (f key)
}.
Context (seams : retirement_still).

Lemma remove_still : still held (removeUnlockKey updateDID logger (rt_edit options)).
Proof.
  apply retry_still. unfold setUnlockKeyInventoryOnce. apply still_bind; [apply modify_still, (rts_report seams)|intros ?].
  apply still_bind; [|intros ?; apply still_bind; [apply gets_still|intros; apply still_ret]].
  apply sign_still; [apply (rts_entry seams)|done|]. intros ctx Hc. cbn [opt_build inventoryEntryOptions]. unfold inventoryBuild.
  apply still_bind; [apply still_lift|intros r]. apply still_bind; [apply modify_still, (rts_report seams)|intros ?].
  case_match; [|apply still_ret]. apply still_bind; [exact Hc|intros; apply still_ret].
Qed.

Lemma retirement_stage_still events name detail : still held (stage logger events name detail).
Proof. apply stage_still; [apply (still_logger _ _ _ _ (rts_entry seams))|apply (rts_emitter seams)]. Qed.

Lemma reach_still events doc : still held (annexReach events options doc).
Proof.
  unfold annexReach. destruct (rt_retireClientAnnexInventory options) as [f|] eqn:Hf; [|apply still_ret].
  apply still_bind; [apply still_try; [by apply (rts_annex seams)|intros; apply still_ret]|intros annex].
  apply still_bind; [|intros; apply still_ret]. case_decide; [apply still_ret|apply retirement_stage_still].
Qed.

Lemma conclude_retirement_still outcome annex tail : still held (concludeRetirement options outcome annex tail).
Proof.
  unfold concludeRetirement. destruct (rosterDescriptor tail); [|apply still_ret]. destruct (tail_userKey tail); [|apply still_ret].
  apply still_bind; [|intros; apply still_ret]. unfold announceAdoption. destruct (tail_rotated tail); [|apply still_ret].
  destruct (rt_onRotationAdopted options) as [f|] eqn:Hf; [by apply (rts_adopted seams)|apply still_ret].
Qed.
End still.

Lemma conclude_retirement_reports options outcome annex tail next userKey w r w' :
  rosterDescriptor tail = Some next → tail_userKey tail = Some userKey →
  concludeRetirement options outcome annex tail w = (Ok r, w') →
  ret_document r = outcome_doc outcome ∧ ret_rosterDescriptor r = Some next ∧ ret_userKey r = Some userKey ∧
  ret_collections r = tail_collections tail.
Proof.
  intros Hd Hk. unfold concludeRetirement. rewrite Hd, Hk. unfold mbind, comp_bind.
  destruct (announceAdoption _ _ _ w) as [[u|] w1]; [|done]. by intros [= <- _].
Qed.

Lemma conclude_retirement_document options outcome annex tail w r w' :
  concludeRetirement options outcome annex tail w = (Ok r, w') → ret_document r = outcome_doc outcome.
Proof.
  unfold concludeRetirement. destruct (rosterDescriptor tail); [|by intros [= <- _]].
  destruct (tail_userKey tail); [|by intros [= <- _]]. unfold mbind, comp_bind.
  destruct (announceAdoption _ _ _ w) as [[x|] w1]; [|done]. by intros [= <- _].
Qed.
End retirement.

(** The entry library publishes the document it is given. *)
Definition publishes_stated {readers : DocumentReaders} {writer : WebvhWriter} (updateDID : UpdateDID) : Prop :=
  ∀ log meta s document services A C updated, updateDID log meta s (Some document) services A C = Ok updated →
    verificationMethod (upd_doc updated) = Some (fields_methods document).

Lemma removed_member {W} {readers : DocumentReaders} {resolver : WebvhResolver} {writer : WebvhWriter}
    {hashes : HashLibrary} {keys : WebvhKeys} (updateDID : UpdateDID) K (o : InventoryOptions (W:=W)) outcome :
  publishes_stated updateDID → edit_returns updateDID K o remove_inventory all_part outcome →
  ∃ did, publishesMethod (outcome_doc outcome) (unlockKeyVmId did (unlock_keyAgreement (inv_unlockKeys o))) = false ∧
    ∃ published, K published ∧ pub_did published = did.
Proof.
  intros Hp (published & r & HK & Hr & Hcase). exists (pub_did published). split; [|by exists published]. cbn in Hr.
  rewrite <- (removal_member _ _ _ _ Hr). destruct Hcase as [[Hs Ho]|(updated & (_ & _ & fields & He & _ & key & s & A & C & _ & _ & Hu) & Ho)].
  - injection Ho as _ -> _. rewrite <- (removal_stands _ _ _ _ Hr). apply andb_true_iff in Hs as [Hs _]. by apply negb_true_iff in Hs.
  - injection Ho as _ -> _. destruct (entry_document _ _ _ He) as (document & Hd & Hm & _). rewrite Hd in Hu.
    apply Hp in Hu. unfold publishesMethod. rewrite Hu. cbn. apply bool_decide_eq_false.
    intros (method & Hid & Hin)%list_elem_of_fmap. apply Hm in Hin as [_ Hn]. apply (Hn (vmId r)); [done|]. apply list_elem_of_here.
Qed.

(** C15: retiring a credential cuts it off. In an account whose roster and
    collections only their own stores move, when the retirement returns, the
    document it returns no longer publishes the credential's member; the roster it
    holds wraps the current user key exactly to the recipients that document
    backs, so no other key id, the retired credential's among them, has a wrap
    of the current epoch; the user key it reports is that epoch's, and every
    collection an outcome is tallied for has its current epoch on that key and
    on no earlier generation of it. A closure of the annex that throws changes
    none of this. *)
Theorem retirement_cuts_off {W K} `{!EqDecision K} (held : W → K → option DescriptorStoreRead) (kr : K) (key : string → K)
    {readers : DocumentReaders} {resolver : WebvhResolver} {writer : WebvhWriter}
    {hashes : HashLibrary} {keys : WebvhKeys}
    {commitments : CommitmentLibrary} {library : EpochLibrary} {shape : ThrownShape}
    {report : Cell W LadderVmRemovalReport} {report_laws : CellLaws W LadderVmRemovalReport} {emitter : Cell W EmitterState}
    (updateDID : UpdateDID) (logger : Logger W) (I : W → Prop) (heads : PublishedWebvhLog → Prop)
    events (options : RetirementOptions (W:=W)) roster etag w r w' :
  EpochLibraryLaws → FragmentReaderLaws →
  QuietAccount held kr key (rt_rosterStore options) (rt_onUserKeyAdopted options) (rt_collections options) →
  retirement_still logger held options → publishes_stated updateDID →
  edit_environment updateDID logger I heads (rt_edit options) remove_inventory all_part → I w →
  held w kr = Some (mkRead roster etag) →
  runUnlockCredentialRetirement updateDID logger events options w = (Ok r, w') →
  markedSoundly (ret_document r) →
  (∃ published, heads published ∧ publishesMethod (ret_document r)
     (unlockKeyVmId (pub_did published) (unlock_keyAgreement (inv_unlockKeys (rt_edit options)))) = false) ∧
  ∃ next userKey, ret_rosterDescriptor r = Some next ∧ ret_userKey r = Some userKey ∧
    cutOff held kr key (rt_collections options) (rt_clientKeyAgreementKey options) (ret_document r) roster w
      next userKey (ret_collections r) w' ∧
    ∀ kid, ¬ backed (ret_document r) kid → kid ∉ currentKids next.
Proof.
  intros Hlaws Hfl Hacc Hseams Hpub env Hi Hh Hrun Hm. unfold runUnlockCredentialRetirement in Hrun.
  unfold mbind at 1, comp_bind at 1 in Hrun.
  pose proof (remove_still updateDID logger held options Hseams w) as H1.
  pose proof (retry_keeps I (setUnlockKeyInventoryOnce updateDID logger (rt_edit options) remove_inventory all_part) _ 3
    (edit_once updateDID logger I heads _ _ _ env) w Hi) as Hedit.
  change (retryAttempts 3 _) with (removeUnlockKey updateDID logger (rt_edit options)) in Hedit.
  destruct (removeUnlockKey _ _ _ w) as [[outcome|] w1]; [|done]. cbn in H1. destruct Hedit as [Hedit _].
  unfold mbind at 1, comp_bind at 1 in Hrun.
  pose proof (retirement_stage_still logger held options Hseams events "inventory-edit" NoDetail w1) as H2.
  destruct (stage logger events _ _ w1) as [[u|] w2]; [|done]. cbn in H2.
  unfold mbind at 1, comp_bind at 1 in Hrun.
  pose proof (reach_still logger held options Hseams events (outcome_doc outcome) w2) as H3.
  destruct (annexReach _ _ _ _ w2) as [[annex|] w3]; [|done]. cbn in H3.
  unfold mbind at 1, comp_bind at 1 in Hrun.
  destruct (rotateRosterToDocumentAndCascade _ _ _ _ _ _ _ _ _ w3) as [[tail|] w4] eqn:Ht; [|done].
  unfold mbind at 1, comp_bind at 1 in Hrun.
  pose proof (tailStages_still held logger (still_logger _ _ _ _ (rts_entry _ _ _ Hseams)) (rts_emitter _ _ _ Hseams) events tail w4) as H5.
  destruct (tailStages logger events tail w4) as [[u'|] w5]; [|done]. cbn in H5.
  pose proof (conclude_retirement_still logger held options Hseams outcome annex tail w5) as H6. rewrite Hrun in H6. cbn in H6.
  pose proof (conclude_retirement_document _ _ _ _ _ _ _ Hrun) as Hdoc.
  pose proof (tail_settles held kr key _ _ _ Hacc (outcome_did outcome) (outcome_doc outcome) (outcome_log outcome)
    (rt_userKey options) (rt_clientKeyAgreementKey options) (rt_pinnedEpochId options) roster etag w3
    ltac:(by rewrite H3, H2, H1) ltac:(by rewrite <- Hdoc)) as Htail.
  rewrite Ht in Htail. destruct Htail as (next & userKey & Hn & Hk & Hcut). rewrite Hdoc in Hm |- *. split.
  { destruct (removed_member _ _ _ _ Hpub Hedit) as (did & Hrem & published & HK & <-). by exists published. }
  destruct (conclude_retirement_reports _ _ _ _ _ _ _ _ _ Hn Hk Hrun) as (_ & Hrn & Hrk & Hrc).
  eapply cutOff_between in Hcut; [|intros k; by rewrite H3, H2, H1|intros k; by rewrite H6, H5].
  exists next, userKey. rewrite Hrc. split_and!; [done..|]. intros kid. by eapply cutOff_unbacked.
Qed.
