(* ===== verification/StandingDemo.v ===== *)
(** * A concrete passkey, retired and bound

    The account of two clients and a passkey: the passkey removed through a
    store that loses a race, and another credential bound to it twice. *)

From S2P Require Import Prelude Json JsText CeremonyEvents AccountDocument LadderRungs LadderDemo AccountLog LogStore KeyRotation LadderIndex LadderInventory ClientListing ClientRevocation AccountEntry RevocationHistory StrikeSafety ClientDemo EntryDiscipline UserKeyRoster StandingCredential StandingSafety.

Module StandingDemo.
Import ClientDemo.

Definition document_of (fields : DocumentFields) : AccountDocument :=
  mkDocument did (Some (fields_methods fields)) (λ relation, Some (Reference <$> fields_relation fields relation)) None.

Definition extended (log : DIDLog) (signer : string) (fields : option DocumentFields) (A C : list string) : DIDLog :=
  log ++ [step "next" signer A C (from_option document_of (account_doc ["c1"; "c2"] [passkey]) fields)].

(** ** The removal *)

Definition log0 : DIDLog := log.
Definition without_passkey : AccountDocument := account_doc ["c1"; "c2"] [].
Definition log1 : DIDLog := log0 ++ [step "next" "u" ["u"; "p"] ["#u"; "#s"; "#p"; "#q"] without_passkey].

Definition text_of (log : DIDLog) : string :=
  if decide (currentLogParameters log = currentLogParameters log0) then "0"
  else if decide (currentLogParameters log = currentLogParameters log1) then "1" else "other".
Definition log_of (text : string) : option DIDLog :=
  if decide (text = "0") then Some log0 else if decide (text = "1") then Some log1 else None.

#[export] Instance store_writer : WebvhWriter := {|
  WebDoc := ();
  Signer := string;
  logToJsonlString := text_of;
  generateParallelDidWeb _ _ := ();
  updateKeyMultibase seed := Ok seed;
  updateKeySigner seed := Ok seed
|}.

#[export] Instance resolver : WebvhResolver := {|
  readLogFromString text := match log_of text with Some log => Ok log | None => Throw (plain_error "unreadable") end;
  resolveDIDFromLog log :=
    Ok (mkResolution (Some did) (last log ≫= state)
      (mkMeta None (Some (currentLogParameters log).1) (Some (currentLogParameters log).2)))
|}.

Definition updateDID : UpdateDID := λ log _ signer fields _ A C,
  let log := extended log signer fields A C in
  Ok (mkUpdated did (default empty_document (last log ≫= state)) log (mkMeta None (Some A) (Some C)) (Some tt)).

Record world := mkWorld { served : string; races : nat; local : LadderVmRemovalReport }.
#[export] Instance local_cell : Cell world LadderVmRemovalReport :=
  {| get_cell := local; set_cell report w := mkWorld (served w) (races w) report |}.
#[export] Instance local_laws : CellLaws world LadderVmRemovalReport.
Proof. by intros w s. Qed.

Definition put (write : PutIdResource) : comp world (option (option string)) := λ w,
  match put_content write with
  | WebDocument _ => (Ok None, w)
  | LogText text =>
      if decide (races w ≠ 0) then (Throw (JsError "PreconditionFailedError" ""), mkWorld (served w) (pred (races w)) (local w))
      else if decide (put_ifMatch write ≠ Some (served w)) then (Throw (JsError "PreconditionFailedError" ""), w)
      else if decide (log_of text = None) then (Throw (plain_error "refused"), w)
      else (Ok (Some (Some text)), mkWorld text (races w) (local w))
  end.
Definition idStore : WebvhIdStore world :=
  mkIdStore (λ _ w, (Ok (Some (served w, Some (served w))), w)) put (mkPinStore (λ _, mret None) (λ _ _, mret ())) "id".

Definition unlockKeys : StandingUnlockKeys := mkUnlockKeys (verbatim "pk") "r0".
Definition options : InventoryOptions (W:=world) :=
  mkInventoryOptions idStore (enrolled (mkUpdateKeys "u" "s" None)) None unlockKeys None None None.
Definition silent : Logger world := λ _, mret ().

Definition params_of (text : string) : list string * list string := from_option currentLogParameters ([], []) (log_of text).
(** The first client can go on. *)
Definition first_able (w : world) : Prop := "u" ∈ (params_of (served w)).1 ∧ "#u" ∈ (params_of (served w)).2.

(** A head is what the text its validator names resolves to. *)
Definition read_from (published : PublishedWebvhLog) : Prop :=
  ∃ text log, log_of text = Some log ∧ pub_etag published = Some text ∧ pub_log published = log ∧
    pub_did published = did ∧ last log ≫= state = Some (pub_doc published) ∧
    currentLogParameters log = (pub_updateKeys published, pub_nextKeyHashes published).

Lemma first_listed text log : log_of text = Some log →
  ∃ client, client ∈ listEnrolledWebvhClients log ∧ client_updateKey client = Some "u" ∧
    ¬ retiring (head_did log) [unlockKeyVmId did (unlock_keyAgreement unlockKeys)] client.
Proof.
  unfold log_of. case_decide; [|case_decide; [|done]]; intros [= <-].
  - destruct (listEnrolledWebvhClients log0) as [|client rest] eqn:Hl; [exfalso; revert Hl; by vm_compute|].
    exists client. split; [left|]. assert (client = default client (head (listEnrolledWebvhClients log0))) as -> by by rewrite Hl.
    split; [revert Hl; vm_compute; by intros [= <- _]|]. unfold retiring. rewrite <- Forall_Exists_neg.
    apply (bool_decide_eq_true_1 _). revert Hl. vm_compute. by intros [= <- _].
  - destruct (listEnrolledWebvhClients log1) as [|client rest] eqn:Hl; [exfalso; revert Hl; by vm_compute|].
    exists client. split; [left|]. split; [revert Hl; vm_compute; by intros [= <- _]|]. unfold retiring. rewrite <- Forall_Exists_neg.
    apply (bool_decide_eq_true_1 _). revert Hl. vm_compute. by intros [= <- _].
Qed.

Lemma standing_text_params log : log_of (text_of log) ≠ None → params_of (text_of log) = currentLogParameters log.
Proof.
  unfold params_of, text_of. repeat case_decide; intros H'; [..|by destruct H'].
  - change (log_of "0") with (Some log0). cbn -[currentLogParameters]. done.
  - change (log_of "1") with (Some log1). cbn -[currentLogParameters]. done.
Qed.

(** What a removal's entry keeps of the first client. *)
Lemma removal_keeps_first published r updated text log :
  log_of text = Some log → pub_log published = log → pub_did published = did →
  currentLogParameters log = (pub_updateKeys published, pub_nextKeyHashes published) →
  "u" ∈ pub_updateKeys published → "#u" ∈ pub_nextKeyHashes published →
  edit_of updateDID options remove_inventory all_part published r updated →
  ∃ signer fields A C, upd_log updated = extended log signer fields A C ∧ "u" ∈ A ∧ "#u" ∈ C.
Proof.
  intros Ht Hl Hd Hp Hu Hh (Hr & _ & fields & He & _ & key & s & A & C & _ & [HA HC] & Hup).
  cbn in Hr, He. injection Hup as <-. rewrite Hl. exists s, (ef_document fields), A, C. split; [done|].
  destruct (first_listed _ _ Ht) as (client & Hc & Hk & Hret).
  assert (vmId r = unlockKeyVmId did (unlock_keyAgreement unlockKeys)) as Hvm by by rewrite (removal_member _ _ _ _ Hr), Hd.
  destruct (removal_spares _ _ _ _ Hr client) with (key := "u") as (Hnk & Hnh & _); [by rewrite Hl|by rewrite Hl, Hvm|done|].
  split.
  - apply HA. left. apply (entry_keys _ _ _ He). done.
  - apply HC. left. apply (entry_hashes _ _ _ He). done.
Qed.

Lemma standing_environment : edit_environment updateDID silent first_able read_from options remove_inventory all_part.
Proof.
  constructor.
  - intros v w [Hv Hi]. cbn. split; [|done]. intros text etag log published [= <- <-] Hlog Hr.
    unfold resolvedHead in Hr. cbn -[currentLogParameters] in Hr, Hlog.
    destruct (log_of (served w)) as [log'|] eqn:Hs; [|done]. injection Hlog as <-.
    assert (∃ doc, last log' ≫= state = Some doc) as [doc Hdoc].
    { unfold log_of in Hs. case_decide; [|case_decide; [|done]]; injection Hs as <-; eexists; by vm_compute. }
    rewrite Hdoc in Hr. injection Hr as <-. exists (served w), log'. cbn -[currentLogParameters].
    split_and!; [done..|]. by destruct (currentLogParameters log').
  - intros id v w Hw. exact Hw.
  - intros id pin v w Hw. exact Hw.
  - intros event v w Hw. exact Hw.
  - done.
  - intros published r updated (text & log & Ht & Hetag & Hl & Hd & _ & Hp) Hed v w [Hv Hi].
    unfold log_put, options, inv_idStore, idStore, putIdResource, put. cbn -[log_of text_of]. case_decide; [by split|].
    case_decide as He; [by split|]. case_decide as Hlt; [by split|]. split; [done|]. unfold first_able. cbn [served].
    assert (text = served w) as -> by congruence.
    unfold first_able, params_of in Hi. rewrite Ht in Hi. cbn -[currentLogParameters] in Hi. rewrite Hp in Hi. destruct Hi as [Hu Hh].
    destruct (removal_keeps_first _ _ _ _ _ Ht Hl Hd Hp Hu Hh Hed) as (s & fields & A & C & Hlog & HA & HC).
    rewrite (standing_text_params _ Hlt), Hlog. unfold currentLogParameters, effectiveParameters, extended.
    by rewrite (Demo.effective_last _ _ _ _ A C) by done.
  - intros published (text & log & _ & _ & Hl & _ & Hdoc & Hp). by split; rewrite Hl.
  - intros v w Hw. exact Hw.
Qed.

Lemma credential_edits_write_as_specified_witness :
  match removeUnlockKey updateDID silent options (mkWorld "0" 1 (mkRemovalReport [] [])) with
  | (Ok outcome, w) =>
      edit_returns updateDID read_from options remove_inventory all_part outcome ∧ first_able w ∧ served w = "1"
  | _ => False
  end.
Proof.
  pose proof (credential_edits_write_as_specified updateDID silent first_able read_from options remove_inventory all_part standing_environment
    (mkWorld "0" 1 (mkRemovalReport [] [])) ltac:(split; apply (bool_decide_eq_true_1 _); by vm_compute)) as H.
  assert (match removeUnlockKey updateDID silent options (mkWorld "0" 1 (mkRemovalReport [] [])) with
          | (Ok _, w) => served w | _ => "" end = "1") as Hrun by (vm_compute; reflexivity).
  cbn -[removeUnlockKey] in H.
  destruct (removeUnlockKey _ _ _ _) as [[outcome|e] w]; [|done]. destruct H as [Ha Hi]. by split_and!.
Defined.

(** ** What the removal leaves *)

Definition reading_or (r : result InventoryReading) : InventoryReading :=
  match r with Ok r => r | Throw _ => mkReading "" "" false None nothing_standing None None (mkClaim None [] []) end.
Definition retired : InventoryReading := reading_or (readInventory remove_inventory unlockKeys None published).

Lemma published_read : read_head published.
Proof. split; by vm_compute. Qed.


(** ** Another passkey, bound twice *)

Definition other : StandingUnlockKeys := mkUnlockKeys (verbatim "pk2") "L/rung/0".
Definition bound : InventoryReading := reading_or (readInventory publish_inventory other (Some "L") published).
Definition bound_document : AccountDocument :=
  document_of (mkFields (boundMethods all_part (verbatim "pk2") published bound)
    (editedRelation publish_inventory all_part (account_doc ["c1"; "c2"] [passkey]) bound)).
Definition rebound : PublishedWebvhLog :=
  mkPublished (log0 ++ [step "5" "u" ["u"; "p"] ["#u"; "#s"; "#r0"; "#p"; "#q"; "#L/rung/0"] bound_document]) did bound_document
    ["u"; "p"] ["#u"; "#s"; "#r0"; "#p"; "#q"; "#L/rung/0"] (mkMeta None None None) None.

Lemma bound_first : orderly_head published bound.
Proof.
  constructor.
  - by vm_compute.
  - by split.
  - by vm_compute.
  - by vm_compute.
  - intros id [= <-]. apply (bool_decide_eq_true_1 _). by vm_compute.
Qed.

Lemma rebound_head : bound_head published all_part (verbatim "pk2") bound rebound.
Proof.
  constructor.
  - done.
  - by eexists.
  - assert (Forall (λ hash, hash ∈ pub_nextKeyHashes rebound) (pub_nextKeyHashes published ++
      default [] (ef_commitHashes (inventoryFields publish_inventory all_part (verbatim "pk2") published bound)))) as H
      by (apply (bool_decide_eq_true_1 _); by vm_compute).
    rewrite Forall_forall in H. intros hash Hh. apply H. by rewrite elem_of_app.
  - done.
  - intros relation. destruct relation; by vm_compute.
  - by vm_compute.
Qed.

Lemma bind_settles_once_published_witness :
  ∃ r', readInventory publish_inventory other (Some "L") rebound = Ok r' ∧
    settled publish_inventory all_part rebound r' = true ∧ installedId r' = Some (vm_id did "L/vm") ∧
    settled publish_inventory all_part published bound = false.
Proof.
  destruct (bind_settles_once_published published rebound all_part other (Some "L") bound ltac:(by vm_compute) bound_first
    ltac:(by vm_compute) rebound_head) as (r' & Hr & Hs).
  exists r'. split; [exact Hr|]. split; [exact Hs|]. split; [|by vm_compute].
  assert (installedId (reading_or (readInventory publish_inventory other (Some "L") rebound)) = Some (vm_id did "L/vm")) as H
    by by vm_compute.
  by rewrite Hr in H.
Defined.
End StandingDemo.
