(* ===== verification/RetirementDemo.v ===== *)
(** * A concrete retirement, from the log to the collections

    The passkey of [ClientDemo]'s account retired: its member and its
    commitment leave the log, its wrap the roster, and the one collection
    moves to the fresh user key. *)

From Stdlib Require Import Ascii.
From S2P Require Import Prelude Json JsText CeremonyEvents AccountDocument LadderRungs ResourceController LadderDemo AccountLog LogStore KeyRotation LadderIndex LadderInventory ClientListing ClientRevocation AccountEntry ClientDemo EntryDiscipline EntryDemo Descriptors UserKeyRoster RosterConvergence UserKeyCascade RosterCascade EpochLibraryDemo StandingCredential StandingSafety CredentialRetirement.

Module RetirementDemo.
Import ClientDemo EpochLibraryDemo.
#[local] Existing Instance EpochLibraryDemo.keys.

(** ** The world *)

Record world := mkWorld {
  published_text : string;
  local : LadderVmRemovalReport;
  events_state : EmitterState;
  descriptors : gmap (option string) DescriptorStoreRead
}.
#[export] Instance local_cell : Cell world LadderVmRemovalReport :=
  {| get_cell := local; set_cell report w := mkWorld (published_text w) report (events_state w) (descriptors w) |}.
#[export] Instance local_laws : CellLaws world LadderVmRemovalReport.
Proof. by intros w s. Qed.
#[export] Instance events_cell : Cell world EmitterState :=
  {| get_cell := events_state; set_cell state w := mkWorld (published_text w) (local w) state (descriptors w) |}.

Definition held (w : world) (k : option string) : option DescriptorStoreRead := descriptors w !! k.

Definition next_etag (etag : option string) : option string := Some ("v" ++ default "" etag)%string.
Definition store_at (k : option string) : EncryptionDescriptorStore world :=
  mkDescriptorStore
    (λ w, (Ok (descriptors w !! k), w))
    (λ next etag w,
       if decide (etag = (descriptors w !! k) ≫= read_etag) then
         (Ok (), mkWorld (published_text w) (local w) (events_state w) (<[k := mkRead next (next_etag etag)]> (descriptors w)))
       else (Throw (JsError PRECONDITION_FAILED_ERROR_NAME ""), w))
    None (Some (mret false)) (Some (λ _, mret ())).

#[export] Instance store_quiet k : QuietStore held k (store_at k).
Proof.
  split; [intros w; by exists w|]. intros w next etag. cbn. case_decide; [|done]. unfold held. cbn. split.
  - intros k' Hne. by rewrite lookup_insert_ne.
  - eexists. by rewrite lookup_insert_eq.
Qed.
#[export] Instance store_seals k : QuietSeal held (store_at k).
Proof. by intros seal setMinimum [= <- <-]. Qed.

(** ** The account *)

Definition client (name : string) : string := rosterRecipientKid name ("x" ++ name).
Definition passkey_kid : string := "did:key:ps#pk".
Definition c1_key : KeyAgreementKey := mkKeyAgreement (client "c1") "".
Definition roster : CollectionEncryption := mkDescriptor (Some "did:key:uk0")
  (Some [mkEpoch "did:key:uk0" (wrap_of "did:key:uk0" <$> [client "c1"; client "c2"; passkey_kid])]).
Definition docs : CollectionEncryption := mkDescriptor (Some "e0")
  (Some [mkEpoch "e0" [wrap_of "e0" (epochKeyIdFor "did:key:uk0"); wrap_of "e0" "did:key:app#app"]]).
Definition start : world := mkWorld "4" (mkRemovalReport [] []) fresh_emitter
  {[None := mkRead roster (Some "1"); Some "docs" := mkRead docs (Some "1")]}.

#[export] Instance store_writer : WebvhWriter := {|
  WebDoc := ();
  Signer := string;
  logToJsonlString log := if decide (length log = 4) then "4" else "5";
  generateParallelDidWeb _ _ := ();
  updateKeyMultibase seed := Ok seed;
  updateKeySigner seed := Ok seed
|}.
#[export] Instance resolver : WebvhResolver := {|
  readLogFromString text := if decide (text = "4") then Ok log else Throw (plain_error "unreadable");
  resolveDIDFromLog log :=
    Ok (mkResolution (Some did) (Some (account_doc ["c1"; "c2"] [passkey]))
      (mkMeta None (Some (currentLogParameters log).1) (Some (currentLogParameters log).2)))
|}.
Definition document_of (fields : DocumentFields) : AccountDocument :=
  mkDocument did (Some (fields_methods fields)) (λ relation, Some (Reference <$> fields_relation fields relation)) None.
Definition updateDID : UpdateDID := λ log _ signer fields _ A C,
  let doc := from_option document_of (account_doc ["c1"; "c2"] [passkey]) fields in
  Ok (mkUpdated did doc (log ++ [step "5" signer A C doc]) (mkMeta None (Some A) (Some C)) (Some tt)).

Definition put (write : PutIdResource) : comp world (option (option string)) := λ w,
  match put_content write with
  | WebDocument _ => (Ok None, w)
  | LogText text => (Ok (Some (Some text)), mkWorld text (local w) (events_state w) (descriptors w))
  end.
Definition idStore : WebvhIdStore world :=
  mkIdStore (λ _ w, (Ok (Some (published_text w, Some (published_text w))), w)) put
    (mkPinStore (λ _, mret None) (λ _ _, mret ())) "id".
Definition silent : Logger world := λ _, mret ().
Definition collections : CascadeCollections world :=
  mkCollections (GivenIds ["docs"]) (λ id, store_at (Some id)) (Some (λ _, mret true)).
Definition edit : InventoryOptions (W:=world) :=
  mkInventoryOptions idStore (enrolled (mkUpdateKeys "u" "s" None)) None (mkUnlockKeys (verbatim "pk") "r0") None None None.
(** The annex's closure fails, and nothing comes of it. *)
Definition options : RetirementOptions (W:=world) :=
  mkRetirementOptions edit (store_at None) None c1_key (Some "did:key:uk0") None collections
    (Some (λ _, mthrow (plain_error "offline"))) None.
#[export] Instance shape : ThrownShape := plain_shape.

Local Notation outcome := (runUnlockCredentialRetirement updateDID silent (retirement_run "r") options start).

(** ** What the theorem asks of it *)

Lemma retiring_account : QuietAccount held None Some (rt_rosterStore options) (rt_onUserKeyAdopted options) (rt_collections options).
Proof.
  split; cbn; try by intros.
  - apply store_quiet.
  - apply store_seals.
  - intros id. apply store_quiet.
  - intros id. apply store_seals.
  - apply _.
  - intros f id [= <-]. apply still_ret.
  - intros w ids [= <-]. split; [apply NoDup_singleton|]. by rewrite list_elem_of_singleton.
Qed.

Lemma retiring_still : retirement_still silent held options.
Proof.
  split; try done.
  - split; try done. intros write w k. cbn. unfold put. by destruct (put_content write).
  - intros f doc [= <-]. apply still_throw.
Qed.

Definition head_read (published : PublishedWebvhLog) : Prop := read_head published ∧ pub_did published = did.

Lemma retiring_environment : edit_environment updateDID silent (λ _, True) head_read edit remove_inventory all_part.
Proof.
  constructor.
  - intros v w [Hv _]. cbn. split; [|done]. intros text etag log published [= <- <-] Hlog Hr.
    unfold resolvedHead in Hr. cbn -[currentLogParameters] in Hr, Hlog.
    destruct (decide (published_text w = "4")); [|done]. injection Hlog as <-. injection Hr as <-.
    split; [|done]. by split; vm_compute.
  - intros id v w Hw. exact Hw.
  - intros id pin v w Hw. exact Hw.
  - intros event v w Hw. exact Hw.
  - done.
  - intros published r updated _ _ v w Hw. exact Hw.
  - by intros published [? _].
  - done.
Qed.

Definition doc_after : AccountDocument :=
  match outcome.1 with Ok r => ret_document r | Throw _ => empty_document end.

Lemma retirement_sound_after : markedSoundly doc_after.
Proof.
  intros method signingKey key Hin Hc Hk.
  assert (resolvedKeyAgreementMethods doc_after = [twin_method "c1"; twin_method "c2"]) as Hmethods by (vm_compute; reflexivity).
  rewrite Hmethods in Hin. apply elem_of_cons in Hin as [->|Hin%list_elem_of_singleton]; [|subst method].
  - assert (signingKey = "c1") as -> by (cbn in Hc; injection Hc as Hc; by vm_compute in Hc).
    injection Hk as <-. split_and!; [apply (bool_decide_eq_true_1 _); by vm_compute..|done].
  - assert (signingKey = "c2") as -> by (cbn in Hc; injection Hc as Hc; by vm_compute in Hc).
    injection Hk as <-. split_and!; [apply (bool_decide_eq_true_1 _); by vm_compute..|done].
Qed.

Lemma retirement_cuts_off_witness :
  ∃ r w' next, outcome = (Ok r, w') ∧ ret_rosterDescriptor r = Some next ∧
    publishesMethod (ret_document r) (vm_id did "pk") = false ∧
    passkey_kid ∈ currentKids roster ∧ passkey_kid ∉ currentKids next ∧ client "c2" ∈ currentKids next ∧
    outcomes (ret_collections r) = {["docs" := outcome_rotated]} ∧
    (annex_reason <$> ret_clientAnnex r) = Some (Some skip_failed).
Proof.
  destruct outcome as [[r|err] w'] eqn:Hrun; [|by vm_compute in Hrun].
  pose proof (retirement_cuts_off held None Some updateDID silent (λ _, True) head_read (retirement_run "r") options roster (Some "1") start r w'
    library_laws fragment_laws retiring_account retiring_still ltac:(by intros log meta s document services A C updated [= <-])
    retiring_environment I eq_refl Hrun) as H.
  assert (match outcome.1 with
          | Ok r => (outcomes (ret_collections r), annex_reason <$> ret_clientAnnex r, from_option currentKids [] (ret_rosterDescriptor r))
          | Throw _ => (∅, None, [])
          end = ({["docs" := outcome_rotated]}, Some (Some skip_failed), [client "c1"; client "c2"])) as Hv by (vm_compute; reflexivity).
  assert (ret_document r = doc_after) as Hdoc by (unfold doc_after; by rewrite Hrun).
  rewrite Hrun in Hv. cbn [fst] in Hv. injection Hv as Hout Hannex Hkids.
  destruct H as ((published & [_ Hd] & Hm) & next & userKey & Hn & _ & _ & Hcut); [rewrite Hdoc; exact retirement_sound_after|].
  rewrite Hn in Hkids. cbn [from_option] in Hkids. rewrite Hd in Hm.
  exists r, w', next. split; [reflexivity|]. split; [exact Hn|]. split; [exact Hm|].
  split; [apply (bool_decide_eq_true_1 _); by vm_compute|]. split; [|split; [rewrite Hkids; right; left|split; [exact Hout|exact Hannex]]].
  apply Hcut. rewrite Hdoc. intros [x Hx]. by vm_compute in Hx.
Defined.
End RetirementDemo.
