(* ===== verification/RecoverySpend.v ===== *)
(** * Spending a recovery code

    [src/src/recovery/continuation.ts] and its two variants, the enrolled
    client's of [src/src/recovery/recoveryWebvh.ts] and the fresh ladder's of
    [src/src/clientAnnex/recoveryLadderAnchored.ts]; the issuance and the
    revocation of a code. *)

From S2P Require Import Prelude Json JsText ConnEntry CeremonyEvents AccountDocument LadderRungs AccountLog LogStore KeyRotation LadderIndex LadderInventory ClientListing ClientRevocation AccountEntry StrikeSafety Descriptors UserKeyRoster UserKeyCascade RosterCascade AnnexDocument StandingCredential.

(** ** Stages and refusals *)

Definition RECOVERY_CODE_SPEND_STAGES : list string := ["reveal-commit"; "successor-persisted"; "add-retire"].
Definition RECOVERY_CODE_SPEND_REFUSALS : list string :=
  ["RecoveryKeyNotCommittedError"; "RecoveryCredentialStandingError"; "BuiltOnHeadNotReachedError"; "AccountLogMissingError"].
Definition RECOVERY_CODE_ISSUANCE_STAGES : list string := ["key-entry"; "authority-entry"; "inventory-entry"].
Definition RECOVERY_CODE_REVOCATION_STAGES : list string := ["inventory-removal"].

Definition ISSUANCE_STAGE_OF_PART (part : UnlockInventoryPart) : string :=
  match part with key_part => "key-entry" | authority_part => "authority-entry" | all_part => "inventory-entry" end.

Definition RecoveryKeyNotCommittedError : js_error :=
  JsError "RecoveryKeyNotCommittedError" "The account log no longer commits this recovery code; the code was already spent, revoked, or never issued.".

Definition RecoveryCredentialStandingError (credentialVmIds : list string) : js_error :=
  JsError "RecoveryCredentialStandingError"
    ("The recovery would re-bind a credential the account already stands on (" ++ String.concat ", " credentialVmIds ++
     "); choose a credential the account has not used.")%string.

(** ** Data *)

(** The public halves of a code. *)
Record RecoveryPublicKeys := mkRecoveryKeys { recovery_keyAgreement : string; recovery_updateKey : string }.

(** The code being spent: its public halves and the seed of its rung 0. *)
Record SpentCode := mkSpent { spent_keys : RecoveryPublicKeys; spent_seed : string }.

Record ReplacementRecoveryPublicKeys := mkReplacement { replacement_keys : RecoveryPublicKeys; replacement_ladderVmKey : string }.

(** The key the second entry authorizes, its seed, and its staged partner. *)
Record Successor := mkSuccessor { successor_updateKey : string; successor_seed : string; successor_stagedKey : string }.

Record RecoverySpendRetirement := mkSpendRetirement {
  retiredCredentialVmIds : list string;
  struckRungHashes : list string;
  spend_unclaimed : list string
}.
#[export] Instance RecoverySpendRetirement_eq_dec : EqDecision RecoverySpendRetirement.
Proof. solve_decision. Defined.

Definition nothing_retired : RecoverySpendRetirement := mkSpendRetirement [] [] [].

(** What a variant adds: methods, the ids each relation gains, services. *)
Record RecoveryAddedInventory := mkAdded {
  added_methods : list ResolvedKeyAgreementMethod;
  added_relations : DocumentRelation → option (list string);
  added_services : option (list members)
}.

(** The locals the second entry's build sets. *)
Record SpendLocals := mkSpendLocals { local_retired : list string; local_strike : StruckRungs }.
Definition no_spend_locals : SpendLocals := mkSpendLocals [] (mkStruck [] [] []).

Definition recoveryVmId (did keyAgreementKeyMultibase : string) : string := vm_id did keyAgreementKeyMultibase.

Section spend.
Context {W Persisted : Type} {readers : DocumentReaders} {resolver : WebvhResolver} {writer : WebvhWriter}
  {hashes : HashLibrary} {keys : WebvhKeys} {shape : ThrownShape}.
Context {emitter : Cell W EmitterState} {locals : Cell W SpendLocals}.
Variables (updateDID : UpdateDID) (logger : Logger W).
Implicit Types (log : DIDLog) (doc : AccountDocument) (did : string).

(** ** What a spend retired, read off the log *)

(** The first entry whose update keys authorize the key. *)
Definition authorizingEntry log (key : string) : option nat :=
  fst <$> list_find (λ entry : list string * list string, key ∈ entry.1) (effectiveParameters log).

Definition retiredCredentialVmIdsFromLog log did (successorKeyMultibase spentVmId : string) : list string :=
  match authorizingEntry log successorKeyMultibase with
  | Some (S before) =>
      match log !! before ≫= state, log !! S before ≫= state with
      | Some previous, Some entryDoc => filter (λ id, id ≠ spentVmId) (retiredCredentialKeys entryDoc (Some previous) did)
      | _, _ => []
      end
  | _ => []
  end.

Definition firstKeyHashingTo (keys : list string) (hash : string) : option string :=
  snd <$> list_find (λ key, deriveNextKeyHash key = hash) keys.

(** The hashes a spend commits, in their order. *)
Definition committedBySpend (successorKey stagedKey replacementKey : string) : list string :=
  [deriveNextKeyHash successorKey; deriveNextKeyHash stagedKey; deriveNextKeyHash replacementKey].

(** The spent code's key, by the commitment its member names. *)
Definition spentKeyFromLog log (spentVmId : string) : option string :=
  truthy (anchorHash ← credentialLadderAnchor log spentVmId; firstKeyHashingTo (currentLogParameters log).1 anchorHash).

Definition recoverySpendRetirementFromLog log did (successorKey stagedKey replacementKey spentKeyAgreementKey : string) :
    comp W RecoverySpendRetirement :=
  match authorizingEntry log successorKey with
  | None => mret nothing_retired
  | Some entryIndex =>
      let spentVmId := recoveryVmId did spentKeyAgreementKey in
      let retired := retiredCredentialVmIdsFromLog log did successorKey spentVmId in
      let protectedHashes := committedBySpend successorKey stagedKey replacementKey in
      strike ← retiredCredentialRungsBeforeKey logger log successorKey retired protectedHashes [successorKey] LADDER_MAX_SCAN;
      let prefix := take entryIndex log in
      abandoned ← match spentKeyFromLog prefix spentVmId with
                  | Some spentKey => abandonedSpendCommitments logger prefix spentKey protectedHashes
                  | None => mret []
                  end;
      mret (mkSpendRetirement retired (js_dedup (struckHashes strike ++ abandoned)) (unclaimedCredentialVmIds strike))
  end.

(** ** The continuation *)

Record RecoveryOptions := mkRecovery {
  rc_store : WebvhIdStore W;
  rc_recovery : SpentCode;
  rc_successor : Successor;
  rc_replacement : ReplacementRecoveryPublicKeys;
  rc_onCommitted : BuiltOnHead → comp W Persisted;
  rc_added : string → AccountDocument → Persisted → result RecoveryAddedInventory;
  rc_credentialVmIds : option (string → list string);
  rc_builtOnHead : option json;
  rc_expectedDid : option string;
  rc_events : option CeremonyRun
}.

Record RecoveryContinuationOutcome := mkSpendOutcome {
  spend_did : string;
  spend_doc : AccountDocument;
  spend_log : DIDLog;
  spend_webDoc : option WebDoc;
  spend_committed : bool;
  spend_retirement : RecoverySpendRetirement
}.

Implicit Type o : RecoveryOptions.

Definition spentKey o : string := recovery_updateKey (spent_keys (rc_recovery o)).
Definition spentMember o : string := recovery_keyAgreement (spent_keys (rc_recovery o)).
Definition replacementKey o : string := recovery_updateKey (replacement_keys (rc_replacement o)).
Definition replacementMember o : string := recovery_keyAgreement (replacement_keys (rc_replacement o)).
Definition recoveryHash o : string := deriveNextKeyHash (spentKey o).
Definition protectedHashesOf o : list string :=
  committedBySpend (successor_updateKey (rc_successor o)) (successor_stagedKey (rc_successor o)) (replacementKey o).
Definition protectedKeysOf o : list string := [successor_updateKey (rc_successor o)].

Definition complete o (read : PublishedWebvhLog) : bool :=
  bool_decide (successor_updateKey (rc_successor o) ∈ pub_updateKeys read).

(** The members the spend would bind that stand already. *)
Definition standingMembers o (read : PublishedWebvhLog) : list string :=
  filter (λ id, Some id ∈ method_id <$> credentialKeyAgreementMethods (pub_doc read) (pub_did read))
    (from_option (λ ids, ids (pub_did read)) [] (rc_credentialVmIds o)).

Definition revealSkip o (read : PublishedWebvhLog) : comp W bool :=
  if complete o read then mret true
  else
    match standingMembers o read with
    | [] =>
        let revealed := bool_decide (spentKey o ∈ pub_updateKeys read) in
        if negb revealed && negb (bool_decide (recoveryHash o ∈ pub_nextKeyHashes read)) then
          mthrow RecoveryKeyNotCommittedError
        else mret (revealed && bool_decide (Forall (λ hash, hash ∈ pub_nextKeyHashes read) (protectedHashesOf o)))
    | standing => mthrow (RecoveryCredentialStandingError standing)
    end.

Definition nothingToRecover : string := "did:webvh: did.jsonl is missing; nothing to recover.".

Definition revealOptions o : EntryOptions :=
  mkEntryOptions (rc_store o) (committed_key (spent_seed (rc_recovery o)))
    (λ _, mret (Some (mkEntryFields None None (Some (protectedHashesOf o)) None None)))
    (Some (revealSkip o)) None (rc_expectedDid o) (rc_builtOnHead o) (Some nothingToRecover)
    (Some "spending a recovery code") None false.

Definition spendStage o (name : string) (detail : Detail) : comp W () :=
  match rc_events o with Some events => stage logger events name detail | None => mret () end.

(** Everything the second entry publishes. *)
Definition allAdded o did (variant : RecoveryAddedInventory) : list ResolvedKeyAgreementMethod :=
  added_methods variant ++
  [unlockKeyVerificationMethod did (verbatim (replacementMember o)) (deriveNextKeyHash (replacementKey o));
   ladderVerificationMethod did (replacement_ladderVmKey (rc_replacement o))].

Definition allRelations o did (variant : RecoveryAddedInventory) (relation : DocumentRelation) : option (list string) :=
  let given := added_relations variant relation in
  match relation with
  | assertionMethod | capabilityDelegation => Some (default [] given ++ [vm_id did (replacement_ladderVmKey (rc_replacement o))])
  | keyAgreement => Some (default [] given ++ [recoveryVmId did (replacementMember o)])
  | authentication | capabilityInvocation => given
  end.

(** Every credential member of the document the entry does not publish. *)
Definition struckCredentials doc did (addedVmIds : list string) : list string :=
  filter (λ id, id ∉ addedVmIds) (omap method_id (credentialKeyAgreementMethods doc did)).

Definition struckByAdd o doc did (addedVmIds : list string) (id : string) : bool :=
  bool_decide (id = recoveryVmId did (spentMember o)) || bool_decide (id ∈ ladderVmIds doc) ||
  bool_decide (id ∈ struckCredentials doc did addedVmIds).

(** The fields of the second entry, given what was struck. *)
Definition addFields o (read : PublishedWebvhLog) (variant : RecoveryAddedInventory) (strike : StruckRungs) :
    result AccountEntryFields :=
  let did := pub_did read in
  let doc := pub_doc read in
  let methods := allAdded o did variant in
  let struck := recoveryHash o :: struckHashes strike in
  nextKeyHashes ← assertNextKeyHashesRemain (filter (λ hash, hash ∉ struck) (pub_nextKeyHashes read))
    "the recovery add-and-retire entry";
  Ok (mkEntryFields
    (Some (filter (λ key, key ≠ spentKey o ∧ key ∉ struckKeys strike) (pub_updateKeys read)))
    (Some nextKeyHashes) None
    (Some (mergedFields (mergeVerificationMethods doc methods (allRelations o did variant)
       (Some (struckByAdd o doc did (omap method_id methods))))))
    (added_services variant)).

(** What the second entry strikes: the retired credentials' rungs, and what an
    abandoned attempt left. *)
Definition spendStrike o (read : PublishedWebvhLog) (retired : list string) : comp W StruckRungs :=
  strike ← attributeRetiredCredentialRungs logger (pub_log read) retired (protectedHashesOf o) (protectedKeysOf o) LADDER_MAX_SCAN;
  abandoned ← abandonedSpendCommitments logger (pub_log read) (spentKey o) (protectedHashesOf o);
  mret (mkStruck (js_dedup (struckHashes strike ++ abandoned)) (struckKeys strike) (unclaimedCredentialVmIds strike)).

Definition retiredByAdd o (read : PublishedWebvhLog) (variant : RecoveryAddedInventory) : list string :=
  filter (λ id, id ≠ recoveryVmId (pub_did read) (spentMember o))
    (struckCredentials (pub_doc read) (pub_did read) (omap method_id (allAdded o (pub_did read) variant))).

Definition addRetireBuild o (persisted : Persisted) (ctx : BuildContext (W:=W)) : comp W (option AccountEntryFields) :=
  let read := ctx_published ctx in
  variant ← lift (rc_added o (pub_did read) (pub_doc read) persisted);
  let retired := retiredByAdd o read variant in
  strike ← spendStrike o read retired;
  modify (set_cell (mkSpendLocals retired strike));;
  fields ← lift (addFields o read variant strike);
  mret (Some fields).

Definition addOptions o (published : PublishedWebvhLog) (persisted : Persisted) : EntryOptions :=
  mkEntryOptions (rc_store o) (committed_key (successor_seed (rc_successor o))) (addRetireBuild o persisted) None
    (Some published) (Some (pub_did published)) None None (Some "spending a recovery code") None false.

(** The run of a spend whose second entry stands. *)
Definition completedSpend o (published : PublishedWebvhLog) : comp W RecoveryContinuationOutcome :=
  retirement ← recoverySpendRetirementFromLog (pub_log published) (pub_did published)
    (successor_updateKey (rc_successor o)) (successor_stagedKey (rc_successor o)) (replacementKey o) (spentMember o);
  spendStage o "add-retire" (priorUnless false);;
  mret (mkSpendOutcome (pub_did published) (pub_doc published) (pub_log published) None false retirement).

(** The head the second entry is built on: re-read where the first entry's
    PUT served no validator. *)
Definition headForAdd o (reveal : AccountEntryOutcome) (published : PublishedWebvhLog) : comp W PublishedWebvhLog :=
  match out_updated reveal, pub_etag published with
  | Some _, None => readPublishedLogOrThrow (rc_store o) (Some (pub_did published)) (Some nothingToRecover)
  | _, _ => mret published
  end.

(** [add.updated!], read. *)
Definition committedSpend (add : AccountEntryOutcome) (report : SpendLocals) : result RecoveryContinuationOutcome :=
  match out_updated add with
  | None => mthrow (JsError "TypeError" "Cannot read properties of undefined (reading 'did')")
  | Some updated =>
      Ok (mkSpendOutcome (upd_did updated) (upd_doc updated) (upd_log updated) (upd_webDoc updated) true
        (mkSpendRetirement (local_retired report) (struckHashes (local_strike report))
          (unclaimedCredentialVmIds (local_strike report))))
  end.

Definition addAndRetire o (published : PublishedWebvhLog) : comp W RecoveryContinuationOutcome :=
  head ← lift (servedHead (pub_log published));
  persisted ← rc_onCommitted o head;
  spendStage o "successor-persisted" NoDetail;;
  modify (set_cell no_spend_locals);;
  add ← signAccountEntry updateDID logger (addOptions o published persisted);
  spendStage o "add-retire" NoDetail;;
  report ← gets get_cell;
  lift (committedSpend add report).

Definition recoveryContinuationOnce o : comp W RecoveryContinuationOutcome :=
  reveal ← signAccountEntry updateDID logger (revealOptions o);
  let published := accountEntryHead reveal in
  spendStage o "reveal-commit" (priorUnless (bool_decide (is_Some (out_updated reveal))));;
  if complete o published then completedSpend o published
  else
    published ← headForAdd o reveal published;
    addAndRetire o published.

Definition spendOutcome (outcome : RecoveryContinuationOutcome) : MendOutcomeKind * Detail :=
  (match spend_unclaimed (spend_retirement outcome) with
   | [] => if spend_committed outcome then clean else noop
   | _ => partial
   end, NoDetail).

(** The event run of a spend, around its conflict retry. *)
Definition spend_run (runId : string) : CeremonyRun := mkRun "recovery-code-spend" runId RECOVERY_CODE_SPEND_REFUSALS [].

Definition spendUnderEvents (runId : string) (o : CeremonyRun → RecoveryOptions) : comp W RecoveryContinuationOutcome :=
  modify (set_cell fresh_emitter);;
  let events := spend_run runId in
  CeremonyEvents.run logger events (withLogConflictRetry (recoveryContinuationOnce (o events)))
    (λ outcome, mret (spendOutcome outcome)).
End spend.

(** ** The two variants *)

Section variants.
Context {W : Type} {readers : DocumentReaders} {resolver : WebvhResolver} {writer : WebvhWriter}
  {hashes : HashLibrary} {keys : WebvhKeys} {twins : TwinLibrary} {shape : ThrownShape}.
Context {emitter : Cell W EmitterState} {locals : Cell W SpendLocals}.
Variables (updateDID : UpdateDID) (logger : Logger W).

(** [typeof options.onCommitted !== 'function']. *)
Definition requireSeam {A} (message : string) (onCommitted : option A) : comp W A :=
  match onCommitted with Some seam => mret seam | None => mthrow (JsError "TypeError" message) end.

(** *** The enrolled client's *)

Record ClientRecovery := mkClientRecovery {
  cr_store : WebvhIdStore W;
  cr_recovery : SpentCode;
  cr_newClientKeys : WebvhEnrollmentKeys;
  cr_newClientUpdateSeeds : ClientWebvhUpdateKeys;
  cr_replacement : ReplacementRecoveryPublicKeys;
  cr_onCommitted : option (BuiltOnHead → comp W ());
  cr_resume : option json;
  cr_expectedDid : option string
}.

Definition clientAdded (newClientKeys : WebvhEnrollmentKeys) (did : string) (doc : AccountDocument) (persisted : ()) :
    result RecoveryAddedInventory :=
  '(methods, relations) ← clientAdditionFields did (enroll_signingKey newClientKeys) (enroll_keyAgreementKey newClientKeys);
  Ok (mkAdded methods relations None).

Definition clientSpend (c : ClientRecovery) (onCommitted : BuiltOnHead → comp W ()) (events : CeremonyRun) : RecoveryOptions :=
  mkRecovery (cr_store c) (cr_recovery c)
    (mkSuccessor (enroll_updateKey (cr_newClientKeys c)) (updateSeed (cr_newClientUpdateSeeds c)) (enroll_stagedKey (cr_newClientKeys c)))
    (cr_replacement c) onCommitted (clientAdded (cr_newClientKeys c)) None (cr_resume c) (cr_expectedDid c) (Some events).

(** The document and the log stay inside. *)
Record RememberedOutcome := mkRemembered {
  remembered_did : string;
  remembered_webDoc : option WebDoc;
  remembered_committed : bool;
  remembered_retirement : RecoverySpendRetirement
}.

Definition recoverWebvhClient (runId : string) (c : ClientRecovery) : comp W RememberedOutcome :=
  onCommitted ← requireSeam "recoverWebvhClient requires onCommitted: the successor material must be persisted before the add-and-retire entry retires the spent code." (cr_onCommitted c);
  lift (assertCanonicalClientKeys (enroll_signingKey (cr_newClientKeys c)) (enroll_keyAgreementKey (cr_newClientKeys c)));;
  outcome ← spendUnderEvents updateDID logger runId (clientSpend c onCommitted);
  mret (mkRemembered (spend_did outcome) (spend_webDoc outcome) (spend_committed outcome) (spend_retirement outcome)).

(** *** The fresh ladder's *)

Record LadderRecovery := mkLadderRecovery {
  lr_store : WebvhIdStore W;
  lr_recovery : SpentCode;
  lr_ladderSeed : string;
  lr_credentialKeyAgreement : UnlockKeyAgreementPublication;
  lr_replacement : ReplacementRecoveryPublicKeys;
  lr_expectedDid : option string;
  lr_onCommitted : option (BuiltOnHead → comp W string);
  lr_resume : option json
}.

(** What is derived of the fresh ladder: its rungs 0 and 1 and its VM's
    key. *)
Record FreshLadder := mkFreshLadder { fresh_rung0 : LadderRung; fresh_rung1 : LadderRung; fresh_vmKey : string }.
Definition freshLadder (ladderSeed : string) : result FreshLadder :=
  rung0 ← ladderRung ladderSeed 0;
  rung1 ← ladderRung ladderSeed 1;
  vmKey ← ladderVmKeyMultibase ladderSeed;
  Ok (mkFreshLadder rung0 rung1 vmKey).

(** The seam hands back the DID of the annex generation the document is to
    point at. *)
Definition ladderAdded (fresh : FreshLadder) (credential : UnlockKeyAgreementPublication) (did : string)
    (doc : AccountDocument) (clientAnnexDid : string) : result RecoveryAddedInventory :=
  clientAnnexDidParts clientAnnexDid;;
  let ladderVmId := vm_id did (fresh_vmKey fresh) in
  Ok (mkAdded
    [ladderVerificationMethod did (fresh_vmKey fresh);
     unlockKeyVerificationMethod did credential (deriveNextKeyHash (rung_keyMultibase (fresh_rung0 fresh)))]
    (λ relation, match relation with
                 | assertionMethod | capabilityDelegation => Some [ladderVmId]
                 | keyAgreement => Some [unlockKeyVmId did credential]
                 | authentication | capabilityInvocation => None
                 end)
    (Some (servicesPointedAtClientAnnex doc did clientAnnexDid))).

Definition ladderSpend (l : LadderRecovery) (fresh : FreshLadder) (onCommitted : BuiltOnHead → comp W string)
    (events : CeremonyRun) : RecoveryOptions :=
  mkRecovery (lr_store l) (lr_recovery l)
    (mkSuccessor (rung_keyMultibase (fresh_rung0 fresh)) (rung_seed (fresh_rung0 fresh)) (rung_keyMultibase (fresh_rung1 fresh)))
    (lr_replacement l) onCommitted (ladderAdded fresh (lr_credentialKeyAgreement l))
    (Some (λ did, [unlockKeyVmId did (lr_credentialKeyAgreement l)])) (lr_resume l) (lr_expectedDid l) (Some events).

Definition recoverWebvhLadderAnchored (runId : string) (l : LadderRecovery) : comp W RecoveryContinuationOutcome :=
  onCommitted ← requireSeam "recoverWebvhLadderAnchored requires onCommitted: the replacement code and the fresh credential record must be persisted before the add entry publishes the ladder VM." (lr_onCommitted l);
  fresh ← lift (freshLadder (lr_ladderSeed l));
  spendUnderEvents updateDID logger runId (ladderSpend l fresh onCommitted).

(** ** Issuing and revoking a code *)

Context {report : Cell W LadderVmRemovalReport}.

Definition recoveryUnlockKeys (recovery : RecoveryPublicKeys) : StandingUnlockKeys :=
  mkUnlockKeys (verbatim (recovery_keyAgreement recovery)) (recovery_updateKey recovery).

Definition publishRecoveryKey (runId : string) (idStore : WebvhIdStore W) (signer : AccountLogSigner)
    (recovery : RecoveryPublicKeys) (ladderSeed : string) (part : option UnlockInventoryPart)
    (projectionStore : option (WebvhIdStore W)) (expectedDid : option string) : comp W InventoryOutcome :=
  modify (set_cell fresh_emitter);;
  let events := mkRun "recovery-code-issuance" runId ["LadderAttributionError"; "AccountLogMissingError"] [] in
  CeremonyEvents.run logger events
    (published ← publishUnlockKey updateDID logger
       (mkInventoryOptions idStore signer projectionStore (recoveryUnlockKeys recovery) (Some ladderSeed) expectedDid
          (Some "issuing a recovery code")) (default all_part part);
     stage logger events (ISSUANCE_STAGE_OF_PART (default all_part part)) NoDetail;;
     mret published)
    always_clean.

Definition removeRecoveryKey (runId : string) (idStore : WebvhIdStore W) (signer : AccountLogSigner)
    (recovery : RecoveryPublicKeys) (ladderSeed : option string)
    (projectionStore : option (WebvhIdStore W)) (expectedDid : option string) : comp W InventoryOutcome :=
  modify (set_cell fresh_emitter);;
  let events := mkRun "recovery-code-revocation" runId
    ["UnclaimedLadderVmRetirementError"; "LadderAttributionError"; "AccountLogMissingError"] [] in
  CeremonyEvents.run logger events
    (removed ← removeUnlockKey updateDID logger
       (mkInventoryOptions idStore signer projectionStore (recoveryUnlockKeys recovery) ladderSeed expectedDid
          (Some "revoking a recovery code"));
     stage logger events "inventory-removal" NoDetail;;
     mret removed)
    always_clean.
End variants.
