(* ===== verification/RecoverySafety.v ===== *)
(** * What a recovery spend writes

    The two entries of a spend under any store: what the second one strikes,
    publishes and keeps, and that it is put only after the seam has returned. *)

From S2P Require Import Prelude Json JsText ConnEntry CeremonyEvents AccountDocument LadderRungs AccountLog LogStore KeyRotation LadderIndex LadderInventory ClientListing ClientRevocation AccountEntry RevocationHistory StrikeSafety EntryDiscipline Descriptors UserKeyRoster UserKeyCascade RosterCascade AnnexDocument StandingCredential StandingSafety RecoverySpend.

(** ** The strikes depend on the log alone *)

Section strikes.
Context {readers : DocumentReaders} {resolver : WebvhResolver} {writer : WebvhWriter} {hashes : HashLibrary} {keys : WebvhKeys}.

Definition quiet : Logger () := λ _, mret ().

(** What a computation over a log answers, its log lines aside. *)
Definition answers_of {A} (c : comp () A) (r : A) : Prop := c () = (Ok r, ()).

Lemma quiet_total event w : ∃ w', quiet event w = (Ok (), w').
Proof. by exists w. Qed.

Section answered.
Context {W : Type} (logger : Logger W) (I : W → Prop) (logs : ∀ event, keeps I (logger event)).

Lemma retired_answer log ids protectedHashes protectedKeys maxScan :
  triple I (attributeRetiredCredentialRungs logger log ids protectedHashes protectedKeys maxScan)
    (λ strike w, answers_of (attributeRetiredCredentialRungs quiet log ids protectedHashes protectedKeys maxScan) strike ∧ I w)
    (λ _, I).
Proof.
  unfold answers_of, attributeRetiredCredentialRungs. case_decide as Ha.
  - eapply (triple_bind _ _ _ (λ _, I)); [apply logs|]. intros u. by apply triple_ret.
  - by apply triple_ret.
Qed.

Lemma abandoned_answer log spent protectedHashes :
  triple I (abandonedSpendCommitments logger log spent protectedHashes)
    (λ abandoned w, answers_of (abandonedSpendCommitments quiet log spent protectedHashes) abandoned ∧ I w) (λ _, I).
Proof.
  unfold answers_of, abandonedSpendCommitments. case_decide as Hc; [by apply triple_ret|]. case_decide as Ha.
  - eapply (triple_bind _ _ _ (λ _, I)); [apply logs|]. intros u. by apply triple_ret.
  - eapply (triple_bind _ _ _ (λ _, I)); [case_decide; [apply logs|by apply triple_ret]|]. intros u. apply triple_ret. intros w Hw.
    split; [|done]. by case_decide.
Qed.
End answered.

Lemma abandoned_spares log spent protectedHashes abandoned :
  answers_of (abandonedSpendCommitments quiet log spent protectedHashes) abandoned →
  let candidates := spendCandidates log spent protectedHashes in
  abandoned ⊆ candidates ∧
  ∀ client, client ∈ listEnrolledWebvhClients log →
    match client_updateKey client with
    | None => abandoned = []
    | Some key => deriveNextKeyHash key ∉ abandoned ∧
        ∀ hash, hash ∈ stagedHashes (attributeStagedHash (effectiveParameters log) key [] candidates) → hash ∉ abandoned
    end.
Proof.
  intros Ha candidates. unfold answers_of, abandonedSpendCommitments in Ha. fold candidates in Ha.
  case_decide as Hc.
  { injection Ha as <-. split; [set_solver|]. intros client _. destruct (client_updateKey client); set_solver. }
  set (surviving := survivingClientKeyProtection log [] candidates) in *.
  assert (∀ client, client ∈ listEnrolledWebvhClients log → protects (effectiveParameters log) (head_did log) [] candidates surviving client)
    as Hp by (intros client; apply surviving_protects).
  assert (∀ client, ¬ retiring (head_did log) [] client) as Hn.
  { intros client. unfold retiring. rewrite Exists_exists. intros (x & _ & Hx). by apply elem_of_nil in Hx. }
  case_decide as Hamb.
  { injection Ha as <-. split; [set_solver|]. intros client _. destruct (client_updateKey client); set_solver. }
  assert (abandoned = filter (λ hash, hash ∉ kept_hashes surviving) candidates) as ->.
  { revert Ha. case_decide; intros Ha; by injection Ha as <-. }
  split; [intros x; rewrite list_elem_of_filter; tauto|]. intros client Hcl. specialize (Hp client Hcl (Hn client)).
  destruct (client_updateKey client) as [key|].
  - destruct Hp as (_ & Hh & Hs). split; [|intros hash Hhash]; rewrite list_elem_of_filter; [tauto|].
    intros [Hx _]. by apply Hx, Hs.
  - exfalso. clear Ha. rewrite Hamb in Hp. by apply elem_of_nil in Hp.
Qed.

Lemma candidate_stands log spent protectedHashes hash :
  hash ∈ spendCandidates log spent protectedHashes → hash ∉ protectedHashes ∧ hash ∈ (currentLogParameters log).2.
Proof.
  unfold spendCandidates. destruct (lastAddition _ _); [|by intros ?%elem_of_nil].
  rewrite elem_of_js_dedup, list_elem_of_filter. intros [[Hp Hs] _]. split; [done|].
  unfold currentLogParameters. unfold indexedLadderLog in Hs. destruct (indexLadderLog _ _). cbn in Hs.
  by destruct (last (effectiveParameters log)).
Qed.
End strikes.

(** ** The second entry *)

Section entry.
Context {W Persisted : Type} {readers : DocumentReaders} {resolver : WebvhResolver} {writer : WebvhWriter}
  {hashes : HashLibrary} {keys : WebvhKeys}.
Variables (updateDID : UpdateDID) (o : RecoveryOptions (W:=W) (Persisted:=Persisted)).
Implicit Types (published : PublishedWebvhLog) (variant : RecoveryAddedInventory) (strike : StruckRungs).

(** What the spend leaves a client that is not retired with a credential. *)
Definition spend_spares (log : DIDLog) (retired : list string) strike (client : EnrolledWebvhClient) : Prop :=
  ¬ retiring (head_did log) retired client →
  match client_updateKey client with
  | None => struckKeys strike = [] ∧ struckHashes strike = []
  | Some key =>
      key ∉ struckKeys strike ∧ deriveNextKeyHash key ∉ struckHashes strike ∧
      ∀ hash, hash ∈ stagedHashes (attributeStagedHash (effectiveParameters log) key [] (claimedHashes log retired LADDER_MAX_SCAN)) →
        hash ∈ stagedHashes (attributeStagedHash (effectiveParameters log) key [] (spendCandidates log (spentKey o) (protectedHashesOf o))) →
        hash ∉ struckHashes strike
  end.

(** The rungs a strike takes: of a retired credential's ladder, or left
    committed by an abandoned attempt. *)
Record spend_strikes (log : DIDLog) (retired : list string) strike : Prop := {
  strikes_hash hash : hash ∈ struckHashes strike →
    hash ∉ protectedHashesOf o ∧ hash ∈ (currentLogParameters log).2 ∧
    ((∃ id inventory, id ∈ retired ∧ claimLadderInventory log id LADDER_MAX_SCAN = Some inventory ∧ hash ∈ committedHashes inventory) ∨
     hash ∈ spendCandidates log (spentKey o) (protectedHashesOf o));
  strikes_key key : key ∈ struckKeys strike →
    key ∉ protectedKeysOf o ∧ key ∈ (currentLogParameters log).1 ∧
    ∃ id inventory, id ∈ retired ∧ claimLadderInventory log id LADDER_MAX_SCAN = Some inventory ∧ key ∈ revealedKeys inventory;
  strikes_all id : id ∈ retired → id ∉ unclaimedCredentialVmIds strike →
    ∃ inventory, claimLadderInventory log id LADDER_MAX_SCAN = Some inventory ∧
      committedHashes inventory ⊆ struckHashes strike ∧ revealedKeys inventory ⊆ struckKeys strike ∧
      (committedHashes inventory ≠ [] ∨ revealedKeys inventory ≠ []);
  strikes_spare client : client ∈ listEnrolledWebvhClients log → spend_spares log retired strike client
}.

Definition strike_answer published (retired : list string) strike : Prop :=
  ∃ first abandoned,
    answers_of (attributeRetiredCredentialRungs quiet (pub_log published) retired (protectedHashesOf o) (protectedKeysOf o) LADDER_MAX_SCAN) first ∧
    answers_of (abandonedSpendCommitments quiet (pub_log published) (spentKey o) (protectedHashesOf o)) abandoned ∧
    strike = mkStruck (js_dedup (struckHashes first ++ abandoned)) (struckKeys first) (unclaimedCredentialVmIds first).

Lemma strike_answered published retired strike :
  strike_answer published retired strike → spend_strikes (pub_log published) retired strike.
Proof.
  intros (first & abandoned & Hf & Ha & ->).
  destruct (strike_spares quiet (pub_log published) retired (protectedHashesOf o) (protectedKeysOf o) LADDER_MAX_SCAN () quiet_total)
    as (first' & [] & Hf' & (Hh & Hk) & Hre & Hsp). unfold answers_of in Hf. rewrite Hf in Hf'. injection Hf' as <-.
  destruct (abandoned_spares _ _ _ _ Ha) as [Hsub Hab]. constructor; cbn.
  - intros hash. rewrite elem_of_js_dedup, elem_of_app. intros [Hin|Hin].
    + destruct (Hh _ Hin) as (? & ? & id & inventory & ? & ? & ?). split_and!; [done..|]. left. by exists id, inventory.
    + apply Hsub in Hin. pose proof (candidate_stands _ _ _ _ Hin) as [? ?]. auto.
  - intros key Hin. destruct (Hk _ Hin) as (? & ? & id & inventory & ? & ? & ?). split_and!; [done..|]. by exists id, inventory.
  - intros id Hid Hun. destruct (Hre id Hid Hun) as (inventory & ? & Hc & ? & ?). exists inventory. split_and!; [done| |done..].
    intros x Hx. rewrite elem_of_js_dedup, elem_of_app. auto.
  - intros client Hc Hr. specialize (Hsp client Hc Hr). specialize (Hab client Hc). destruct (client_updateKey client) as [key|].
    + destruct Hsp as (? & ? & Hs), Hab as (? & Hs'). cbn. split_and!; [done| |]; [|intros hash Hs1 Hs2];
        rewrite elem_of_js_dedup, elem_of_app; intros [?|?]; [by auto..|by apply (Hs hash)|by apply (Hs' hash)].
    + by rewrite Hsp, Hab.
Qed.

(** What the second entry states over a head. *)
Record add_states published variant strike (fields : AccountEntryFields) : Prop := {
  add_keys : ∃ stated, ef_updateKeys fields = Some stated ∧
    ∀ key, key ∈ stated ↔ key ∈ pub_updateKeys published ∧ key ≠ spentKey o ∧ key ∉ struckKeys strike;
  add_hashes : ∃ stated, ef_nextKeyHashes fields = Some stated ∧ stated ≠ [] ∧
    ∀ hash, hash ∈ stated ↔ hash ∈ pub_nextKeyHashes published ∧ hash ≠ recoveryHash o ∧ hash ∉ struckHashes strike;
  add_commits : ef_commitHashes fields = None;
  add_services : ef_services fields = added_services variant;
  add_document : ∃ document, ef_document fields = Some document ∧
    let methods := allAdded o (pub_did published) variant in
    let struck := struckByAdd o (pub_doc published) (pub_did published) (omap method_id methods) in
    (∀ method, method ∈ fields_methods document ↔
       method ∈ methods ∨
       (method ∈ default [] (verificationMethod (pub_doc published)) ∧ retired struck (method_id method) = false ∧
        method_id method ∉ (method_id <$> methods))) ∧
    ∀ relation id, id ∈ fields_relation document relation ↔
      (id ∈ relationIds (relationOf (pub_doc published) relation) ∧ struck id = false) ∨
      id ∈ default [] (allRelations o (pub_did published) variant relation)
}.

Lemma add_fields_state published variant strike fields :
  addFields o published variant strike = Ok fields → add_states published variant strike fields.
Proof.
  unfold addFields. intros (next & Hn & [= <-])%result_bind_ok. unfold assertNextKeyHashesRemain in Hn.
  assert (next = filter (λ hash, hash ∉ recoveryHash o :: struckHashes strike) (pub_nextKeyHashes published) ∧ next ≠ []) as [-> Hne].
  { destruct (filter _ _); [done|]. by injection Hn as <-. }
  constructor; cbn; [..|done|done|].
  - eexists. split; [done|]. intros key. rewrite list_elem_of_filter. tauto.
  - eexists. split_and!; [done..|]. intros hash. rewrite list_elem_of_filter, not_elem_of_cons. tauto.
  - eexists. split; [done|].
    pose proof (merge_spec (pub_doc published) (allAdded o (pub_did published) variant) (allRelations o (pub_did published) variant)
      (Some (struckByAdd o (pub_doc published) (pub_did published) (omap method_id (allAdded o (pub_did published) variant))))) as [Hm Hr].
    split; [exact Hm|]. intros relation id. apply Hr.
Qed.

(** A credential member or ladder VM of the head stands on only where the
    entry itself publishes it. *)
Lemma add_retires published variant strike fields document :
  add_states published variant strike fields → ef_document fields = Some document →
  ∀ id, Some id ∈ (method_id <$> credentialKeyAgreementMethods (pub_doc published) (pub_did published)) ∨
        id ∈ ladderVmIds (pub_doc published) ∨ id = recoveryVmId (pub_did published) (spentMember o) →
  (∀ relation, id ∈ fields_relation document relation →
     id ∈ omap method_id (allAdded o (pub_did published) variant) ∨
     id ∈ default [] (allRelations o (pub_did published) variant relation)) ∧
  ∀ method, method ∈ fields_methods document → method_id method = Some id →
    id ∈ omap method_id (allAdded o (pub_did published) variant).
Proof.
  intros Hs Hd id Hid. destruct (add_document _ _ _ _ Hs) as (document' & Hd' & Hm & Hr). rewrite Hd in Hd'. injection Hd' as <-.
  set (methods := allAdded o (pub_did published) variant) in *.
  assert (id ∈ omap method_id methods ∨ struckByAdd o (pub_doc published) (pub_did published) (omap method_id methods) id = true) as Hstruck.
  { destruct (decide (id ∈ omap method_id methods)) as [|Hn]; [by left|right]. unfold struckByAdd.
    rewrite !orb_true_iff, !bool_decide_eq_true. unfold struckCredentials.
    destruct Hid as [(method & Heq & Hin)%list_elem_of_fmap|[Hid|Hid]]; [right|left; by right|left; by left].
    rewrite list_elem_of_filter. split; [done|]. apply list_elem_of_omap. by exists method. }
  split.
  - intros relation [[_ Hf]|Hin]%Hr; [|by right]. destruct Hstruck as [|Ht]; [by left|congruence].
  - intros method [Hin|(_ & Hf & _)]%Hm Hmid; [apply list_elem_of_omap; by exists method|].
    destruct Hstruck as [|Ht]; [done|]. rewrite Hmid in Hf. cbn in Hf. congruence.
Qed.

(** An entry the spend may put second, over a head, with what was persisted. *)
Definition add_of published (persisted : Persisted) (retirement : RecoverySpendRetirement) (updated : Updated) : Prop :=
  ∃ variant strike fields,
    rc_added o (pub_did published) (pub_doc published) persisted = Ok variant ∧
    retirement = mkSpendRetirement (retiredByAdd o published variant) (struckHashes strike) (unclaimedCredentialVmIds strike) ∧
    spend_strikes (pub_log published) (retiredByAdd o published variant) strike ∧
    add_states published variant strike fields ∧
    disciplined updateDID (committed_key (successor_seed (rc_successor o))) published fields updated.

(** An entry it may put first. *)
Definition reveal_of published (updated : Updated) : Prop :=
  complete o published = false ∧ standingMembers o published = [] ∧
  (spentKey o ∈ pub_updateKeys published ∨ recoveryHash o ∈ pub_nextKeyHashes published) ∧
  disciplined updateDID (committed_key (spent_seed (rc_recovery o))) published
    (mkEntryFields None None (Some (protectedHashesOf o)) None None) updated.

(** The head an entry's publishing leaves. *)
Definition head_after (updated : Updated) (etag : option string) : PublishedWebvhLog :=
  mkPublished (upd_log updated) (upd_did updated) (upd_doc updated)
    (default [] (meta_updateKeys (upd_meta updated))) (default [] (meta_nextKeyHashes (upd_meta updated)))
    (upd_meta updated) etag.
End entry.

(** ** The spend *)

Section ceremony.
Context {W Persisted : Type} {readers : DocumentReaders} {resolver : WebvhResolver} {writer : WebvhWriter}
  {hashes : HashLibrary} {keys : WebvhKeys} {shape : ThrownShape}.
Context {emitter : Cell W EmitterState} {locals : Cell W SpendLocals} {locals_laws : CellLaws W SpendLocals}.
Variables (updateDID : UpdateDID) (logger : Logger W).
Variables (I : W → Prop) (K : PublishedWebvhLog → Prop) (durable : BuiltOnHead → Persisted → W → Prop).
Variable o : RecoveryOptions (W:=W) (Persisted:=Persisted).

(** What the seam has persisted in this attempt, if it has returned. *)
Definition holding (seam : option (BuiltOnHead * Persisted)) (w : W) : Prop :=
  match seam with None => True | Some (head, persisted) => durable head persisted w end.
Definition at_seam (v : SpendLocals) seam (w : W) : Prop := get_cell w = v ∧ holding seam w ∧ I w.
Definition undisturbed {A} (c : comp W A) : Prop := ∀ v seam, keeps (at_seam v seam) c.

(** What a spend's callers and stores do, and the entries they accept: the
    second only from a world where what the seam persisted on that very head
    is durable. *)
Record spend_environment : Prop := {
  se_raw v seam : triple (at_seam v seam) (getIdResourceRaw (rc_store o) DID_LOG_RESOURCE)
    (λ read w, heads K read ∧ at_seam v seam w) (λ _, at_seam v seam);
  se_pin_read id : undisturbed (pin_read (id_pinStore (rc_store o)) id);
  se_pin_write id pin : undisturbed (pin_write (id_pinStore (rc_store o)) id pin);
  se_log event : undisturbed (logger event);
  se_emits (state : EmitterState) v seam w : at_seam v seam w → at_seam v seam (set_cell state w);
  se_sets (v : SpendLocals) seam w : holding seam w ∧ I w → holding seam (set_cell v w) ∧ I (set_cell v w);
  se_seam head v : triple (at_seam v None) (rc_onCommitted o head)
    (λ persisted, at_seam v (Some (head, persisted))) (λ _, at_seam v None);
  se_reveal published updated v : K published → reveal_of updateDID o published updated →
    triple (at_seam v None) (log_put (rc_store o) (upd_log updated) (pub_etag published))
      (λ written w, K (head_after updated (default None written)) ∧ at_seam v None w) (λ _, at_seam v None);
  se_add published head persisted retirement updated v : K published → servedHead (pub_log published) = Ok head →
    add_of updateDID o published persisted retirement updated →
    keeps (at_seam v (Some (head, persisted))) (log_put (rc_store o) (upd_log updated) (pub_etag published))
}.
Hypothesis env : spend_environment.

(** What a spend returns: the report read off a head where it is complete, or
    what its second entry made, and retired. *)
Definition spend_returns (outcome : RecoveryContinuationOutcome) : Prop :=
  (∃ published, K published ∧ complete o published = true ∧
     (spend_did outcome, spend_doc outcome, spend_log outcome) = head_of published ∧
     spend_committed outcome = false ∧
     answers_of (recoverySpendRetirementFromLog quiet (pub_log published) (pub_did published)
       (successor_updateKey (rc_successor o)) (successor_stagedKey (rc_successor o)) (replacementKey o) (spentMember o))
       (spend_retirement outcome)) ∨
  (∃ published persisted updated, K published ∧
     add_of updateDID o published persisted (spend_retirement outcome) updated ∧
     (spend_did outcome, spend_doc outcome, spend_log outcome) = (upd_did updated, upd_doc updated, upd_log updated) ∧
     spend_committed outcome = true).

Lemma seam_store v seam : store_keeps (at_seam v seam) K (rc_store o).
Proof. constructor; intros; [apply (se_raw env)|apply (se_pin_read env)|apply (se_pin_write env)]. Qed.

Lemma spend_stage_keeps v seam name detail : keeps (at_seam v seam) (spendStage logger o name detail).
Proof.
  unfold spendStage. destruct (rc_events o); [|apply keeps_ret]. apply stage_keeps; [intros; apply (se_log env)|].
  intros; by apply (se_emits env).
Qed.

(** *** The first entry *)

Lemma reveal_skip_answers v published :
  triple (at_seam v None) (revealSkip o published)
    (λ skip w, (skip = false → complete o published = false ∧ standingMembers o published = [] ∧
       (spentKey o ∈ pub_updateKeys published ∨ recoveryHash o ∈ pub_nextKeyHashes published)) ∧ at_seam v None w)
    (λ _, at_seam v None).
Proof.
  unfold revealSkip. destruct (complete o published); [by apply triple_ret|].
  destruct (standingMembers o published); [|by apply triple_throw].
  destruct (bool_decide (spentKey o ∈ _)) eqn:Hr; cbn [negb andb].
  - apply triple_ret. intros w Hw. split; [|done]. intros _. apply bool_decide_eq_true in Hr. auto.
  - destruct (bool_decide (recoveryHash o ∈ _)) eqn:Hh; cbn [negb]; [|by apply triple_throw].
    apply triple_ret. intros w Hw. split; [|done]. intros _. apply bool_decide_eq_true in Hh. auto.
Qed.

Lemma reveal_step v :
  triple (at_seam v None) (signAccountEntry updateDID logger (revealOptions o))
    (λ reveal w, K (accountEntryHead reveal) ∧ at_seam v None w) (λ _, at_seam v None).
Proof.
  eapply triple_conseq; [apply (seam_stages updateDID logger (at_seam v None) (at_seam v None) K (revealOptions o)
    (λ _ fields, fields = Some (mkEntryFields None None (Some (protectedHashesOf o)) None None))
    (λ published skip, skip = false → complete o published = false ∧ standingMembers o published = [] ∧
       (spentKey o ∈ pub_updateKeys published ∨ recoveryHash o ∈ pub_nextKeyHashes published))
    (λ _ updated etag, K (head_after updated etag)))|done|..].
  - apply seam_store.
  - done.
  - intros. apply (se_pin_write env).
  - intros. apply (se_log env).
  - done.
  - done.
  - intros published _. apply reveal_skip_answers.
  - intros ctx _ _ _ _. apply triple_ret. done.
  - intros published fields updated HK HS [= ->] Hd. destruct (HS eq_refl) as (? & ? & ?).
    by apply (se_reveal env).
  - intros reveal w (HK & _ & _ & Ho). unfold accountEntryHead. destruct (out_updated reveal) as [updated|].
    + destruct Ho as (_ & Hi & HP & _). done.
    + destruct Ho as [[_ Hi]|(_ & _ & Hi)]; done.
  - intros e w Hw. by destruct Hw.
Qed.

(** *** The report of a completed spend *)

Lemma before_key_answer v seam log key ids protectedHashes protectedKeys maxScan :
  triple (at_seam v seam) (retiredCredentialRungsBeforeKey logger log key ids protectedHashes protectedKeys maxScan)
    (λ strike w, answers_of (retiredCredentialRungsBeforeKey quiet log key ids protectedHashes protectedKeys maxScan) strike ∧
       at_seam v seam w) (λ _, at_seam v seam).
Proof.
  unfold answers_of, retiredCredentialRungsBeforeKey. destruct (fst <$> _) as [[|n]|]; [by apply triple_throw| |by apply triple_throw].
  apply retired_answer. intros. apply (se_log env).
Qed.

Lemma resumed_answer v seam log did successorKey stagedKey replacement spent :
  triple (at_seam v seam) (recoverySpendRetirementFromLog logger log did successorKey stagedKey replacement spent)
    (λ retirement w, answers_of (recoverySpendRetirementFromLog quiet log did successorKey stagedKey replacement spent) retirement ∧
       at_seam v seam w) (λ _, at_seam v seam).
Proof.
  unfold answers_of, recoverySpendRetirementFromLog. destruct (authorizingEntry log successorKey) as [index|]; [|by apply triple_ret].
  cbn zeta. eapply triple_bind; [apply before_key_answer|]. intros strike. apply triple_pure. intros Hs.
  rewrite (comp_bind_ok _ _ _ _ _ Hs). destruct (spentKeyFromLog _ _) as [key|].
  - eapply triple_bind; [apply abandoned_answer; intros; apply (se_log env)|]. intros abandoned. apply triple_pure. intros Ha.
    rewrite (comp_bind_ok _ _ _ _ _ Ha). by apply triple_ret.
  - eapply (triple_bind _ _ _ (λ abandoned w, abandoned = [] ∧ at_seam v seam w)); [by apply triple_ret|].
    intros abandoned. apply triple_pure. intros ->. by apply triple_ret.
Qed.

Lemma completed_stage v published : K published → complete o published = true →
  triple (at_seam v None) (completedSpend logger o published) (λ outcome w, spend_returns outcome ∧ I w) (λ _, I).
Proof.
  intros HK Hc. unfold completedSpend.
  eapply triple_bind; [eapply (triple_conseq _ _ _ _ _ (λ _, at_seam v None)); [apply resumed_answer|done|done|by intros e w (_ & _ & ?)]|].
  intros retirement. apply triple_pure. intros Hr.
  eapply (triple_bind _ _ _ (λ _, at_seam v None)).
  { eapply triple_conseq; [apply spend_stage_keeps|done|done|by intros e w (_ & _ & ?)]. }
  intros _. apply triple_ret. intros w (_ & _ & Hi). split; [|done]. left. by exists published.
Qed.
(** *** The second entry *)

Lemma strike_stage v seam published retired :
  triple (at_seam v seam) (spendStrike logger o published retired)
    (λ strike w, strike_answer o published retired strike ∧ at_seam v seam w) (λ _, at_seam v seam).
Proof.
  unfold spendStrike. eapply triple_bind; [apply retired_answer; intros; apply (se_log env)|].
  intros first. apply triple_pure. intros Hf. eapply triple_bind; [apply abandoned_answer; intros; apply (se_log env)|].
  intros abandoned. apply triple_pure. intros Ha. apply triple_ret. intros w Hw. split; [|done]. by exists first, abandoned.
Qed.

Lemma strike_answer_det published retired strike strike' :
  strike_answer o published retired strike → strike_answer o published retired strike' → strike = strike'.
Proof.
  unfold strike_answer, answers_of. intros (f & a & Hf & Ha & ->) (f' & a' & Hf' & Ha' & ->).
  rewrite Hf in Hf'. rewrite Ha in Ha'. by injection Hf' as ->; injection Ha' as ->.
Qed.

(** The locals once the build has run over a head. *)
Definition built published persisted (report : SpendLocals) : Prop :=
  ∃ variant strike, rc_added o (pub_did published) (pub_doc published) persisted = Ok variant ∧
    strike_answer o published (retiredByAdd o published variant) strike ∧
    report = mkSpendLocals (retiredByAdd o published variant) strike.
Definition built_fields published persisted (fields : option AccountEntryFields) : Prop :=
  ∃ variant strike stated, rc_added o (pub_did published) (pub_doc published) persisted = Ok variant ∧
    strike_answer o published (retiredByAdd o published variant) strike ∧
    addFields o published variant strike = Ok stated ∧ fields = Some stated.

Definition after_build published persisted seam (w : W) : Prop :=
  ∃ v, built published persisted v ∧ at_seam v seam w.

Lemma after_keeps {A} published persisted seam (c : comp W A) :
  (∀ v, built published persisted v → keeps (at_seam v seam) c) → keeps (after_build published persisted seam) c.
Proof.
  intros Hc w (v & Hb & Hw). specialize (Hc v Hb w Hw). by destruct (c w) as [[a|e] w']; exists v.
Qed.

Lemma add_build_answers v seam persisted ctx :
  triple (at_seam v seam) (addRetireBuild logger o persisted ctx)
    (λ fields w, built_fields (ctx_published ctx) persisted fields ∧ after_build (ctx_published ctx) persisted seam w)
    (λ _ w, at_seam v seam w ∨ after_build (ctx_published ctx) persisted seam w).
Proof.
  unfold addRetireBuild. cbn zeta.
  eapply (triple_bind _ _ _ (λ variant w, rc_added o (pub_did (ctx_published ctx)) (pub_doc (ctx_published ctx)) persisted = Ok variant ∧ at_seam v seam w)).
  { apply triple_lift. intros w Hw. destruct (rc_added o _ _ _); [done|by left]. }
  intros variant. apply triple_pure. intros Hv.
  eapply triple_bind; [eapply (triple_conseq _ _ _ _ _ (λ _, at_seam v seam)); [apply strike_stage|done|done|by left]|].
  intros strike. apply triple_pure. intros Hs.
  eapply (triple_bind _ _ _ (λ _, after_build (ctx_published ctx) persisted seam)).
  { apply triple_modify. intros w (_ & Hi). exists (mkSpendLocals (retiredByAdd o (ctx_published ctx) variant) strike).
    split; [by exists variant, strike|]. split; [apply get_set_cell|by apply (se_sets env)]. }
  intros _. eapply (triple_bind _ _ _ (λ stated w, addFields o (ctx_published ctx) variant strike = Ok stated ∧ after_build (ctx_published ctx) persisted seam w)).
  { apply triple_lift. intros w Hw. destruct (addFields _ _ _ _); [done|by right]. }
  intros stated. apply triple_pure. intros Hf. apply triple_ret. intros w Hw. split; [|done]. by exists variant, strike, stated.
Qed.

(** What the built fields are, as an entry. *)
Lemma built_add published persisted fields updated :
  built_fields published persisted (Some fields) →
  disciplined updateDID (committed_key (successor_seed (rc_successor o))) published fields updated →
  ∃ variant strike, built published persisted (mkSpendLocals (retiredByAdd o published variant) strike) ∧
    add_of updateDID o published persisted
      (mkSpendRetirement (retiredByAdd o published variant) (struckHashes strike) (unclaimedCredentialVmIds strike)) updated.
Proof.
  intros (variant & strike & stated & Hv & Hs & Hf & [= ->]) Hd. exists variant, strike. split; [by exists variant, strike|].
  exists variant, strike, stated. split_and!; [done..|by apply strike_answered|by apply add_fields_state|done].
Qed.

Lemma built_det published persisted v v' : built published persisted v → built published persisted v' → v = v'.
Proof.
  intros (variant & strike & Hv & Hs & ->) (variant' & strike' & Hv' & Hs' & ->). rewrite Hv in Hv'. injection Hv' as <-.
  by rewrite (strike_answer_det _ _ _ _ Hs Hs').
Qed.

Lemma sign_add published head persisted :
  K published → servedHead (pub_log published) = Ok head →
  triple (at_seam no_spend_locals (Some (head, persisted))) (signAccountEntry updateDID logger (addOptions logger o published persisted))
    (λ add w, (∃ updated variant strike, out_updated add = Some updated ∧
        built published persisted (mkSpendLocals (retiredByAdd o published variant) strike) ∧
        add_of updateDID o published persisted
          (mkSpendRetirement (retiredByAdd o published variant) (struckHashes strike) (unclaimedCredentialVmIds strike)) updated) ∧
      after_build published persisted (Some (head, persisted)) w) (λ _, I).
Proof.
  intros HK Hh.
  eapply triple_conseq; [apply (seam_stages updateDID logger (at_seam no_spend_locals (Some (head, persisted)))
    (after_build published persisted (Some (head, persisted))) K (addOptions logger o published persisted)
    (λ read fields, read = published ∧ built_fields published persisted fields)
    (λ _ skip, skip = false) (λ _ _ _, True))|done|..].
  - apply seam_store.
  - by intros ? [= <-].
  - intros. apply after_keeps. intros. apply (se_pin_write env).
  - intros. apply after_keeps. intros. apply (se_log env).
  - done.
  - done.
  - intros ? _. by apply triple_ret.
  - intros ctx _ Hgiven _ _. rewrite <- (Hgiven published eq_refl).
    eapply triple_conseq; [apply add_build_answers|done|by intros fields w [? ?]|done].
  - intros read fields updated _ _ [-> Hf] Hd. destruct (built_add _ _ _ _ Hf Hd) as (variant & strike & _ & Hadd).
    assert (keeps (after_build published persisted (Some (head, persisted)))
      (log_put (rc_store o) (upd_log updated) (pub_etag published))) as Hput.
    { apply after_keeps. intros v _. by eapply (se_add env). }
    by eapply triple_conseq; [exact Hput|done|intros|done].
  - intros add w (_ & Hgiven & -> & Ho). rewrite (Hgiven published eq_refl) in Ho. destruct (out_updated add) as [updated|].
    + destruct Ho as (_ & Hi & _ & fields & [_ Hf] & Hd). split; [|done].
      destruct (built_add _ _ _ _ Hf Hd) as (variant & strike & Hb & Hadd). by exists updated, variant, strike.
    + destruct Ho as [[? _]|(_ & [_ (variant & strike & stated & _ & _ & _ & ?)] & _)]; done.
  - intros e w [(_ & _ & Hi)|(v & _ & _ & _ & Hi)]; done.
Qed.

(** What a second entry over the head returns. *)
Definition add_returns published (outcome : RecoveryContinuationOutcome) : Prop :=
  ∃ persisted updated variant strike, built published persisted (mkSpendLocals (retiredByAdd o published variant) strike) ∧
    add_of updateDID o published persisted (spend_retirement outcome) updated ∧
    outcome = mkSpendOutcome (upd_did updated) (upd_doc updated) (upd_log updated) (upd_webDoc updated) true
      (mkSpendRetirement (retiredByAdd o published variant) (struckHashes strike) (unclaimedCredentialVmIds strike)).

Lemma add_stage v published : K published →
  triple (at_seam v None) (addAndRetire updateDID logger o published) (λ outcome w, add_returns published outcome ∧ I w) (λ _, I).
Proof.
  intros HK. unfold addAndRetire.
  eapply (triple_bind _ _ _ (λ head w, servedHead (pub_log published) = Ok head ∧ at_seam v None w)).
  { apply triple_lift. intros w Hw. destruct (servedHead _); [done|apply Hw]. }
  intros head. apply triple_pure. intros Hh.
  eapply triple_bind; [eapply (triple_conseq _ _ _ _ _ (λ _, at_seam v None)); [apply (se_seam env)|done|done|by intros e w (_ & _ & ?)]|].
  intros persisted. eapply (triple_bind _ _ _ (λ _, at_seam v (Some (head, persisted)))).
  { eapply triple_conseq; [apply spend_stage_keeps|done|done|by intros e w (_ & _ & ?)]. }
  intros _. eapply (triple_bind _ _ _ (λ _, at_seam no_spend_locals (Some (head, persisted)))).
  { apply triple_modify. intros w (_ & Hi). split; [apply get_set_cell|by apply (se_sets env)]. }
  intros _. eapply triple_bind; [by apply sign_add|]. intros add. apply triple_pure.
  intros (updated & variant & strike & Hu & Hb & Hadd).
  eapply (triple_bind _ _ _ (λ _, after_build published persisted (Some (head, persisted)))).
  { eapply triple_conseq; [apply after_keeps; intros; apply spend_stage_keeps|done|done|by intros e w (? & _ & _ & _ & ?)]. }
  intros _. eapply (triple_bind _ _ _ (λ report w, report = mkSpendLocals (retiredByAdd o published variant) strike ∧ I w)).
  { apply triple_gets. intros w (report & Hb' & Hc & _ & Hi). split; [|done]. rewrite Hc. by eapply built_det. }
  intros report. apply triple_pure. intros ->. unfold committedSpend. rewrite Hu. apply triple_ret. intros w Hi. split; [|done].
  by exists persisted, updated, variant, strike.
Qed.

Lemma spend_once : triple I (recoveryContinuationOnce updateDID logger o) (λ outcome w, spend_returns outcome ∧ I w) (λ _, I).
Proof.
  intros w0 Hi0. generalize (conj eq_refl (conj Logic.I Hi0) : at_seam (get_cell w0) None w0). generalize (get_cell w0). intros v. revert w0 Hi0.
  enough (triple (at_seam v None) (recoveryContinuationOnce updateDID logger o) (λ outcome w, spend_returns outcome ∧ I w) (λ _, I)) as H
    by (intros w _ Hw; exact (H w Hw)).
  unfold recoveryContinuationOnce.
  eapply triple_bind; [eapply (triple_conseq _ _ _ _ _ (λ _, at_seam v None)); [apply reveal_step|done|done|by intros e w (_ & _ & ?)]|].
  intros reveal. apply triple_pure. intros HK. cbn zeta.
  eapply (triple_bind _ _ _ (λ _, at_seam v None)).
  { eapply triple_conseq; [apply spend_stage_keeps|done|done|by intros e w (_ & _ & ?)]. }
  intros _. destruct (complete o (accountEntryHead reveal)) eqn:Hc; [by apply completed_stage|].
  eapply (triple_bind _ _ _ (λ published w, K published ∧ at_seam v None w)).
  - unfold headForAdd. assert (triple (at_seam v None) (mret (accountEntryHead reveal) : comp W PublishedWebvhLog)
      (λ published w, K published ∧ at_seam v None w) (λ _, I)) as Hret by (by apply triple_ret).
    destruct (out_updated reveal); [|exact Hret]. destruct (pub_etag _); [exact Hret|].
    eapply (triple_conseq _ _ _ _ _ (λ _, at_seam v None)); [apply readOrThrow_keeps, seam_store|done|done|by intros e w (_ & _ & ?)].
  - intros published. apply triple_pure. intros HK'.
    eapply triple_conseq; [by apply add_stage|done| |done].
    intros outcome w [(persisted & updated & variant & strike & _ & Hadd & ->) Hi]. split; [|done]. right.
    by exists published, persisted, updated.
Qed.

(** A spend under its events, and after any number of lost races. *)
Lemma emits_keep (state : EmitterState) w : I w → I (set_cell state w).
Proof. intros Hi. by destruct (se_emits env state (get_cell w) None w) as (_ & _ & ?). Qed.

Lemma undisturbed_keeps {A} (c : comp W A) : undisturbed c → keeps I c.
Proof.
  intros Hc w Hi. specialize (Hc (get_cell w) None w (conj eq_refl (conj Logic.I Hi))).
  destruct (c w) as [[a|e] w']; apply Hc.
Qed.

Lemma events_spend runId (of_events : CeremonyRun → RecoveryOptions) : of_events (spend_run runId) = o →
  triple I (spendUnderEvents updateDID logger runId of_events) (λ outcome w, spend_returns outcome ∧ I w) (λ _, I).
Proof.
  intros Ho. unfold spendUnderEvents. eapply (triple_bind _ _ _ (λ _, I)).
  { apply triple_modify. intros w Hi. by apply emits_keep. }
  intros _. cbn zeta. rewrite Ho. apply (run_answers logger I).
  - intros event. apply undisturbed_keeps, (se_log env).
  - apply emits_keep.
  - apply retry_keeps, spend_once.
  - intros outcome. apply keeps_ret.
Qed.
End ceremony.
