(* ===== verification/RecoveryLaws.v ===== *)
(** * What the two recovery ceremonies promise

    The remembered and the transient spend under any store, and the report of
    a spend that is run again after it completed. *)

From S2P Require Import Prelude Json JsText ConnEntry CeremonyEvents AccountDocument LadderRungs AccountLog LogStore KeyRotation LadderIndex LadderInventory ClientListing ClientRevocation AccountEntry RevocationHistory StrikeSafety EntryDiscipline Descriptors UserKeyRoster UserKeyCascade RosterCascade AnnexDocument StandingCredential StandingSafety RecoverySpend RecoverySafety.


(** ** The transient recovery *)

Section ladder.
Context {W : Type} {readers : DocumentReaders} {resolver : WebvhResolver} {writer : WebvhWriter} {hashes : HashLibrary}
  {keys : WebvhKeys} {twins : TwinLibrary}.
Variables (updateDID : UpdateDID) (l : LadderRecovery (W:=W)) (fresh : FreshLadder).
Variables (onCommitted : BuiltOnHead → comp W string) (events : CeremonyRun).
Local Notation o := (ladderSpend l fresh onCommitted events).

(** The one entry in which the fresh ladder takes over: its VM and the
    replacement's are the only ladder VMs that stand after it of those it
    names or found standing, the pointer goes to the generation the seam
    handed back, and its rung 0 is authorized and committed. *)
Record takes_over (published : PublishedWebvhLog) (clientAnnexDid : string) (updated : Updated) : Prop := {
  take_entry : ∃ document s A C,
    updateDID (pub_log published) (pub_meta published) s (Some document)
      (Some (servicesPointedAtClientAnnex (pub_doc published) (pub_did published) clientAnnexDid)) A C = Ok updated ∧
    rung_keyMultibase (fresh_rung0 fresh) ∈ A ∧ deriveNextKeyHash (rung_keyMultibase (fresh_rung0 fresh)) ∈ C ∧
    (spentKey o ∈ A → spentKey o = rung_keyMultibase (fresh_rung0 fresh)) ∧
    (∀ hash, hash ∈ protectedHashesOf o → hash ∈ pub_nextKeyHashes published → hash ≠ recoveryHash o → hash ∈ C) ∧
    ladderVerificationMethod (pub_did published) (fresh_vmKey fresh) ∈ fields_methods document ∧
    unlockKeyVerificationMethod (pub_did published) (lr_credentialKeyAgreement l)
      (deriveNextKeyHash (rung_keyMultibase (fresh_rung0 fresh))) ∈ fields_methods document ∧
    (∀ relation, relation = assertionMethod ∨ relation = capabilityDelegation →
       vm_id (pub_did published) (fresh_vmKey fresh) ∈ fields_relation document relation ∧
       ∀ id, id ∈ fields_relation document relation → id ∈ ladderVmIds (pub_doc published) →
         id = vm_id (pub_did published) (fresh_vmKey fresh) ∨
         id = vm_id (pub_did published) (replacement_ladderVmKey (lr_replacement l))) ∧
    (∀ id, id ∈ fields_relation document keyAgreement →
       Some id ∈ (method_id <$> credentialKeyAgreementMethods (pub_doc published) (pub_did published)) →
       id ∈ omap method_id (allAdded o (pub_did published)
         (mkAdded [ladderVerificationMethod (pub_did published) (fresh_vmKey fresh);
                   unlockKeyVerificationMethod (pub_did published) (lr_credentialKeyAgreement l)
                     (deriveNextKeyHash (rung_keyMultibase (fresh_rung0 fresh)))] (λ _, None) None)));
  take_pointer : ∃ parts, clientAnnexDidParts clientAnnexDid = Ok parts
}.

Lemma ladder_takes_over published clientAnnexDid retirement updated :
  updateKeyMultibase (rung_seed (fresh_rung0 fresh)) = Ok (rung_keyMultibase (fresh_rung0 fresh)) →
  add_of updateDID o published clientAnnexDid retirement updated → takes_over published clientAnnexDid updated.
Proof.
  intros Hseed (variant & strike & fields & Hv & _ & Hst & Ha & Hd). cbn [rc_added ladderSpend] in Hv.
  unfold ladderAdded in Hv. apply result_bind_ok in Hv as (parts & Hparts & Hv). injection Hv as <-.
  split; [|by exists parts]. destruct (add_document _ _ _ _ _ Ha) as (document & Hdoc & Hm & Hr).
  pose proof (add_retires _ _ _ _ _ _ Ha Hdoc) as Hret.
  destruct Hd as (_ & key & s & A & C & (_ & Hk & _) & [HA HC] & Hu). cbn [ladderSpend rc_successor successor_seed] in Hk.
  rewrite Hseed in Hk. injection Hk as <-. rewrite Hdoc, (add_services _ _ _ _ _ Ha) in Hu. cbn [added_services] in Hu.
  destruct (add_keys _ _ _ _ _ Ha) as (keys' & Hkeys & Hks). destruct (add_hashes _ _ _ _ _ Ha) as (hs & Hhashes & _ & Hhs).
  rewrite Hkeys in HA. rewrite Hhashes, (add_commits _ _ _ _ _ Ha) in HC. cbn in HA, HC.
  exists document, s, A, C. split_and!.
  - done.
  - apply HA. right. left.
  - apply HC. right. left.
  - intros [Hin|Hin]%HA; [by apply Hks in Hin as (_ & [] & _)|]. by apply list_elem_of_singleton in Hin.
  - intros hash Hp Hin Hne. apply HC. left. rewrite app_nil_r. apply Hhs. split_and!; [done..|].
    intros Hs. by apply (strikes_hash _ _ _ _ Hst) in Hs as [? _].
  - apply Hm. left. unfold allAdded. cbn. by left.
  - apply Hm. left. unfold allAdded. cbn. right. by left.
  - intros relation Hrel. split.
    + apply Hr. right. destruct Hrel as [->| ->]; left.
    + intros id [[_ Hf]|Hin]%Hr Hl.
      * unfold struckByAdd in Hf. rewrite (bool_decide_eq_true_2 (id ∈ ladderVmIds _)) in Hf by done.
        by rewrite orb_true_r in Hf.
      * destruct Hrel as [->| ->]; cbn in Hin; rewrite !elem_of_cons in Hin;
          destruct Hin as [?|[?|Hin%elem_of_nil]]; [by left|by right|done|by left|by right|done].
  - intros id Hin Hcred. destruct (Hret id (or_introl Hcred)) as [Hrel _]. destruct (Hrel _ Hin) as [Hadd|Hadd]; [exact Hadd|].
    cbn in Hadd. rewrite !elem_of_cons in Hadd. unfold allAdded. cbn.
    destruct Hadd as [->|[->|Hadd%elem_of_nil]]; [..|done].
    + right. unfold unlockKeyVerificationMethod. destruct (lr_credentialKeyAgreement l); cbn; left.
    + unfold unlockKeyVerificationMethod. destruct (lr_credentialKeyAgreement l); cbn; right; right; left.
Qed.
End ladder.

(** C7: the transient recovery hands the account over in one entry. Over any
    store, any answers and any number of lost races, every entry
    [recoverWebvhLadderAnchored] puts is one the recovery spend may put, its
    add-and-retire entry only once the seam has made durable what it returns.
    A run that committed put an entry that at once authorizes and commits the
    fresh ladder's rung 0, publishes its VM and the credential's member naming
    that rung, leaves of the head's ladder VMs none but its own and the
    replacement's, leaves of the head's credential members none it does not
    publish itself, and points the document at the annex generation the seam
    handed back, whose DID is well formed. *)
Theorem transient_recovery_takes_over_at_once {W} {readers : DocumentReaders} {resolver : WebvhResolver}
    {writer : WebvhWriter} {hashes : HashLibrary} {keys : WebvhKeys} {twins : TwinLibrary} {shape : ThrownShape}
    {emitter : Cell W EmitterState} {locals : Cell W SpendLocals} {locals_laws : CellLaws W SpendLocals}
    (updateDID : UpdateDID) (logger : Logger W) (I : W → Prop) K (durable : BuiltOnHead → string → W → Prop)
    runId (l : LadderRecovery (W:=W)) onCommitted :
  lr_onCommitted l = Some onCommitted →
  (∀ fresh, freshLadder (lr_ladderSeed l) = Ok fresh →
     spend_environment updateDID logger I K durable (ladderSpend l fresh onCommitted (spend_run runId))) →
  triple I (recoverWebvhLadderAnchored updateDID logger runId l)
    (λ outcome w,
      (∃ fresh, freshLadder (lr_ladderSeed l) = Ok fresh ∧
        spend_returns updateDID K (ladderSpend l fresh onCommitted (spend_run runId)) outcome ∧
        (spend_committed outcome = true → ∃ published clientAnnexDid updated, K published ∧
           takes_over updateDID l fresh onCommitted (spend_run runId) published clientAnnexDid updated ∧
           (spend_did outcome, spend_doc outcome, spend_log outcome) = (upd_did updated, upd_doc updated, upd_log updated))) ∧
      I w) (λ _, I).
Proof.
  intros Hseam env. unfold recoverWebvhLadderAnchored, requireSeam. rewrite Hseam.
  eapply (triple_bind _ _ _ (λ seam w, seam = onCommitted ∧ I w)); [by apply triple_ret|].
  intros seam. apply triple_pure. intros ->.
  eapply (triple_bind _ _ _ (λ fresh w, freshLadder (lr_ladderSeed l) = Ok fresh ∧ I w)).
  { apply triple_lift. intros w Hw. by destruct (freshLadder _). }
  intros fresh. apply triple_pure. intros Hfresh.
  eapply triple_conseq; [by eapply (events_spend _ _ _ _ _ _ (env fresh Hfresh))|done| |done].
  intros outcome w [Hret Hi]. split; [|done]. exists fresh. split_and!; [done..|]. intros Hcom.
  destruct Hret as [(? & _ & _ & _ & Hf & _)|(published & persisted & updated & HK & Hadd & Hhead & _)]; [congruence|].
  exists published, persisted, updated. split_and!; [done| |done]. eapply ladder_takes_over; [|done].
  unfold freshLadder in Hfresh. apply result_bind_ok in Hfresh as (rung0 & Hrung & Hfresh).
  apply result_bind_ok in Hfresh as (rung1 & _ & Hfresh). apply result_bind_ok in Hfresh as (vm & _ & [= <-]). cbn.
  unfold ladderRung in Hrung. apply result_bind_ok in Hrung as (sd & _ & Hrung).
  by apply result_bind_ok in Hrung as (key & Hkey & [= <-]).
Qed.

(** ** A completed spend, run again *)

Section again.
Context {W Persisted : Type} {readers : DocumentReaders} {resolver : WebvhResolver} {writer : WebvhWriter}
  {hashes : HashLibrary} {keys : WebvhKeys}.
Implicit Types (log : DIDLog).

(** An entry of the library is appended, and states what it was told. *)
Definition appends_entry (updateDID : UpdateDID) : Prop :=
  ∀ log meta s document services A C updated, updateDID log meta s document services A C = Ok updated →
    ∃ entry, upd_log updated = log ++ [entry] ∧ p_updateKeys entry = Some A ∧ state entry = Some (upd_doc updated).

Lemma filter_ext_in {A} (P Q : A → Prop) `{!∀ x, Decision (P x), !∀ x, Decision (Q x)} (xs : list A) :
  (∀ x, x ∈ xs → P x ↔ Q x) → filter P xs = filter Q xs.
Proof.
  induction xs as [|x xs IH]; intros HPQ; [done|]. rewrite !filter_cons.
  assert (P x ↔ Q x) as Hx by (apply HPQ; left). rewrite IH by (intros y Hy; apply HPQ; by right).
  by destruct (decide (P x)), (decide (Q x)); [|tauto|tauto|].
Qed.

Lemma first_authorized log entry key A :
  authorizingEntry log key = None → p_updateKeys entry = Some A → key ∈ A →
  authorizingEntry (log ++ [entry]) key = Some (length log).
Proof.
  unfold authorizingEntry. intros Hn HA Hk. unfold effectiveParameters. rewrite effectiveFrom_app, HA. change (default (from_option fst [] (last (effectiveFrom [] [] log))) (Some A)) with A.
  destruct (list_find _ _) as [p|] eqn:Hf in Hn; [done|]. apply list_find_None in Hf.
  assert (list_find (λ entry : list string * list string, key ∈ entry.1)
    (effectiveFrom [] [] log ++ [(A, default (from_option snd [] (last (effectiveFrom [] [] log))) (p_nextKeyHashes entry))]) =
    Some (length (effectiveFrom [] [] log), (A, default (from_option snd [] (last (effectiveFrom [] [] log))) (p_nextKeyHashes entry)))) as ->.
  { apply list_find_Some. split_and!; [by rewrite lookup_app_r, Nat.sub_diag by done|done|].
    intros j y Hj Hlt. apply lookup_lt_Some in Hj as Hlt'. rewrite lookup_app_l in Hj by lia.
    rewrite Forall_forall in Hf. apply Hf. by eapply list_elem_of_lookup_2. }
  cbn. by rewrite effectiveFrom_length.
Qed.

Lemma spent_key_found log member key :
  Inj (=) (=) deriveNextKeyHash → credentialLadderAnchor log member = Some (deriveNextKeyHash key) →
  key ∈ (currentLogParameters log).1 → key ≠ "" → spentKeyFromLog log member = Some key.
Proof.
  intros Hinj Ha Hin Hne. unfold spentKeyFromLog. rewrite Ha. cbn. unfold firstKeyHashingTo.
  destruct (list_find _ _) as [[i k]|] eqn:Hf.
  - apply list_find_Some in Hf as (_ & Hk & _). apply Hinj in Hk as ->. cbn. by destruct key.
  - apply list_find_None in Hf. rewrite Forall_forall in Hf. by destruct (Hf key Hin).
Qed.
(** With a logger that always returns, the strikes return what they answer. *)
Lemma retired_returns {V} (logger : Logger V) log ids protectedHashes protectedKeys maxScan strike v :
  (∀ event v, ∃ v', logger event v = (Ok (), v')) →
  answers_of (attributeRetiredCredentialRungs quiet log ids protectedHashes protectedKeys maxScan) strike →
  ∃ v', attributeRetiredCredentialRungs logger log ids protectedHashes protectedKeys maxScan v = (Ok strike, v').
Proof.
  intros Ht Ha. destruct (strike_spares logger log ids protectedHashes protectedKeys maxScan v Ht) as (strike' & v' & Hs & _).
  exists v'. pose proof (retired_answer logger (λ _, True) (λ event v _, ltac:(by destruct (Ht event v) as [v1 ->]))
    log ids protectedHashes protectedKeys maxScan v Logic.I) as Hr. rewrite Hs in Hr. destruct Hr as [Hr _].
  unfold answers_of in *. rewrite Ha in Hr. by injection Hr as <-.
Qed.

Lemma abandoned_returns {V} (logger : Logger V) log key protectedHashes abandoned v :
  (∀ event v, ∃ v', logger event v = (Ok (), v')) →
  answers_of (abandonedSpendCommitments quiet log key protectedHashes) abandoned →
  ∃ v', abandonedSpendCommitments logger log key protectedHashes v = (Ok abandoned, v').
Proof.
  intros Ht Ha. assert (∃ r v', abandonedSpendCommitments logger log key protectedHashes v = (Ok r, v')) as (r & v' & Hs).
  { unfold abandonedSpendCommitments. case_decide; [by eexists _, v|]. unfold mbind, comp_bind. case_decide.
    - edestruct Ht as [v' ->]. by eexists _, v'.
    - case_decide; [edestruct Ht as [v' ->]; by eexists _, v'|by eexists _, v]. }
  exists v'. pose proof (abandoned_answer logger (λ _, True) (λ event v _, ltac:(by destruct (Ht event v) as [v1 ->]))
    log key protectedHashes v Logic.I) as Hr. rewrite Hs in Hr. destruct Hr as [Hr _].
  unfold answers_of in *. rewrite Ha in Hr. by injection Hr as <-.
Qed.

Lemma resumed_report (logger : Logger W) (o : RecoveryOptions (W:=W) (Persisted:=Persisted)) published entry A doc retired strike w :
  (∀ event w, ∃ w', logger event w = (Ok (), w')) →
  last (pub_log published) ≫= state = Some (pub_doc published) →
  authorizingEntry (pub_log published) (successor_updateKey (rc_successor o)) = None →
  p_updateKeys entry = Some A → successor_updateKey (rc_successor o) ∈ A → state entry = Some doc →
  filter (λ id, id ≠ recoveryVmId (pub_did published) (spentMember o))
    (retiredCredentialKeys doc (Some (pub_doc published)) (pub_did published)) = retired →
  strike_answer o published retired strike →
  spentKeyFromLog (pub_log published) (recoveryVmId (pub_did published) (spentMember o)) = Some (spentKey o) →
  ∃ w', recoverySpendRetirementFromLog logger (pub_log published ++ [entry]) (pub_did published)
    (successor_updateKey (rc_successor o)) (successor_stagedKey (rc_successor o)) (replacementKey o) (spentMember o) w =
    (Ok (mkSpendRetirement retired (struckHashes strike) (unclaimedCredentialVmIds strike)), w').
Proof.
  intros Ht Hlast Hnone HA Hk Hdoc Hret (first & abandoned & Hf & Ha & ->) Hspent.
  pose proof (first_authorized _ _ _ _ Hnone HA Hk) as Hfirst.
  destruct (pub_log published) as [|e0 rest] eqn:Hlog using rev_ind; [done|]. clear IHrest.
  rewrite last_snoc in Hlast. cbn in Hlast.
  unfold recoverySpendRetirementFromLog. rewrite Hfirst. cbn zeta.
  assert (retiredCredentialVmIdsFromLog ((rest ++ [e0]) ++ [entry]) (pub_did published) (successor_updateKey (rc_successor o))
    (recoveryVmId (pub_did published) (spentMember o)) = retired) as ->.
  { unfold retiredCredentialVmIdsFromLog. rewrite Hfirst, length_app. cbn [length]. rewrite Nat.add_1_r.
    rewrite (lookup_app_l (rest ++ [e0])) by (rewrite length_app; cbn; lia).
    rewrite lookup_app_r, Nat.sub_diag by done. cbn. rewrite Hlast.
    rewrite lookup_app_r by (rewrite length_app; cbn; lia).
    replace (S (length rest) - length (rest ++ [e0])) with 0 by (rewrite length_app; cbn; lia). cbn. by rewrite Hdoc. }
  rewrite take_app_length.
  destruct (retired_returns logger _ _ _ _ _ _ w Ht Hf) as [w1 Hw1].
  assert (retiredCredentialRungsBeforeKey logger ((rest ++ [e0]) ++ [entry]) (successor_updateKey (rc_successor o)) retired
    (committedBySpend (successor_updateKey (rc_successor o)) (successor_stagedKey (rc_successor o)) (replacementKey o))
    [successor_updateKey (rc_successor o)] LADDER_MAX_SCAN w = (Ok first, w1)) as Hbefore.
  { unfold retiredCredentialRungsBeforeKey. unfold authorizingEntry in Hfirst. rewrite Hfirst.
    assert (length (rest ++ [e0]) = S (length rest)) as Hlen by (rewrite length_app; cbn; lia).
    rewrite Hlen. rewrite <- Hlen, take_app_length. exact Hw1. }
  rewrite (comp_bind_ok _ _ _ _ _ Hbefore), Hspent.
  destruct (abandoned_returns logger _ _ _ _ w1 Ht Ha) as [w2 Hw2]. rewrite (comp_bind_ok _ _ _ _ _ Hw2). by exists w2.
Qed.
End again.

Lemma stage_returns {W} {emitter : Cell W EmitterState} (logger : Logger W) r name detail w :
  (stage logger r name detail w).1 = Ok ().
Proof. unfold stage, mbind, comp_bind, gets, modify. case_decide; [done|]. apply emit_returns. Qed.

