(* ===== verification/RecoveryDemo.v ===== *)
(** * A concrete recovery code, spent twice over

    The account of two clients and a passkey, with a recovery code beside it:
    the code spent for a third client through a store that loses a race, spent
    for a fresh ladder, and the completed spend run again. *)

From S2P Require Import Prelude Json JsText ConnEntry CeremonyEvents AccountDocument LadderRungs LadderDemo AccountLog LogStore KeyRotation LadderIndex LadderInventory ClientListing ClientRevocation AccountEntry RevocationHistory StrikeSafety ClientDemo EntryDiscipline EntryDemo Descriptors UserKeyRoster UserKeyCascade RosterCascade AnnexDocument StandingCredential StandingSafety RecoverySpend RecoverySafety RecoveryLaws.

Module RecoveryDemo.
Import ClientDemo.
#[local] Existing Instance EntryDemo.twins.
#[export] Instance shape : ThrownShape := plain_shape.

(** ** The logs *)

Definition code : ResolvedKeyAgreementMethod := passkey_method "#k0" "ck".
Definition before_doc : AccountDocument := account_doc ["c1"; "c2"] [passkey; code].
Definition log0 : DIDLog :=
  log ++ [step "5" "u" ["u"; "p"] ["#u"; "#s"; "#r0"; "#p"; "#q"; "#k0"] before_doc].

Definition document_of (fields : DocumentFields) (services : option (list members)) : AccountDocument :=
  mkDocument did (Some (fields_methods fields)) (λ relation, Some (Reference <$> fields_relation fields relation)) services.
Definition extended (log : DIDLog) (signer : string) (fields : option DocumentFields) (services : option (list members))
    (A C : list string) : DIDLog :=
  log ++ [step "next" signer A C (match fields with Some fields => document_of fields services | None => before_doc end)].

(** The logs the store knows, by the parameters of their heads. *)
Definition stated (A C : list string) : DIDLog := extended log0 "" None None A C.
Definition known : list (string * DIDLog) := [
  ("0", log0);
  ("1", stated ["u"; "p"; "k0"] ["#u"; "#s"; "#r0"; "#p"; "#q"; "#k0"; "#n"; "#m"; "#rr"]);
  ("2", stated ["u"; "p"; "n"] ["#u"; "#s"; "#p"; "#q"; "#n"; "#m"; "#rr"]);
  ("3", stated ["u"; "p"; "k0"] ["#u"; "#s"; "#r0"; "#p"; "#q"; "#k0"; "#L/rung/0"; "#L/rung/1"; "#rr"]);
  ("4", stated ["u"; "p"; "L/rung/0"] ["#u"; "#s"; "#p"; "#q"; "#L/rung/0"; "#L/rung/1"; "#rr"])
].
Definition text_of (log : DIDLog) : string :=
  from_option (λ p, p.2.1) "other" (list_find (λ p : string * DIDLog, currentLogParameters p.2 = currentLogParameters log) known).
Definition log_of (text : string) : option DIDLog :=
  (λ p, p.2.2) <$> list_find (λ p : string * DIDLog, p.1 = text) known.

#[export] Instance store_writer : WebvhWriter := {|
  WebDoc := ();
  Signer := string;
  logToJsonlString := text_of;
  generateParallelDidWeb _ _ := ();
  updateKeyMultibase seed := Ok seed;
  updateKeySigner seed := Ok seed
|}.
#[export] Instance resolver : WebvhResolver := {|
  readLogFromString text := match log_of text with Some log => Ok log | None => Throw (plain_error "unreadable") end;
  resolveDIDFromLog log :=
    Ok (mkResolution (Some did) (last log ≫= state)
      (mkMeta None (Some (currentLogParameters log).1) (Some (currentLogParameters log).2)))
|}.
Definition updateDID : UpdateDID := λ log _ signer fields services A C,
  let log := extended log signer fields services A C in
  Ok (mkUpdated did (default empty_document (last log ≫= state)) log (mkMeta None (Some A) (Some C)) (Some tt)).

(** ** The world *)

Record world := mkWorld {
  served : string;
  races : nat;
  local : SpendLocals;
  events_state : EmitterState;
  persisted_heads : list BuiltOnHead
}.
#[export] Instance local_cell : Cell world SpendLocals :=
  {| get_cell := local; set_cell v w := mkWorld (served w) (races w) v (events_state w) (persisted_heads w) |}.
#[export] Instance local_laws : CellLaws world SpendLocals.
Proof. by intros w s. Qed.
#[export] Instance events_cell : Cell world EmitterState :=
  {| get_cell := events_state; set_cell v w := mkWorld (served w) (races w) (local w) v (persisted_heads w) |}.

Definition put (write : PutIdResource) : comp world (option (option string)) := λ w,
  match put_content write with
  | WebDocument _ => (Ok None, w)
  | LogText text =>
      if decide (races w ≠ 0) then
        (Throw (JsError "PreconditionFailedError" ""), mkWorld (served w) (pred (races w)) (local w) (events_state w) (persisted_heads w))
      else if decide (put_ifMatch write ≠ Some (served w)) then (Throw (JsError "PreconditionFailedError" ""), w)
      else if decide (log_of text = None) then (Throw (plain_error "refused"), w)
      else (Ok (Some (Some text)), mkWorld text (races w) (local w) (events_state w) (persisted_heads w))
  end.
Definition idStore : WebvhIdStore world :=
  mkIdStore (λ _ w, (Ok (Some (served w, Some (served w))), w)) put (mkPinStore (λ _, mret None) (λ _ _, mret ())) "id".
Definition silent : Logger world := λ _, mret ().

(** The seam of a caller: the material is stored with the head it goes
    with. *)
Definition persist {P} (value : P) (head : BuiltOnHead) : comp world P :=
  modify (λ w, mkWorld (served w) (races w) (local w) (events_state w) (head :: persisted_heads w));; mret value.
Definition stored {P} (head : BuiltOnHead) (value : P) (w : world) : Prop := head ∈ persisted_heads w.

Definition params_of (text : string) : list string * list string := from_option currentLogParameters ([], []) (log_of text).
(** A served log that authorizes the successor was put after something was
    persisted. *)
Definition persisted_first (successor : string) (w : world) : Prop :=
  successor ∈ (params_of (served w)).1 → persisted_heads w ≠ [].
(** A head states its log's parameters. *)
Definition stated_head (published : PublishedWebvhLog) : Prop :=
  currentLogParameters (pub_log published) = (pub_updateKeys published, pub_nextKeyHashes published).

Lemma known_params log : log_of (text_of log) ≠ None → params_of (text_of log) = currentLogParameters log.
Proof.
  unfold params_of, text_of. destruct (list_find _ known) as [[i [name l]]|] eqn:Hf; [|by intros []].
  apply list_find_Some in Hf as (Hi & Heq & _). cbn in Heq |- *. intros _. rewrite <- Heq.
  unfold known in Hi. repeat (destruct i as [|i]; [injection Hi as <- <-; reflexivity|cbn in Hi]). done.
Qed.

Lemma extended_params log signer fields services A C : currentLogParameters (extended log signer fields services A C) = (A, C).
Proof. unfold currentLogParameters, effectiveParameters, extended. by rewrite (Demo.effective_last _ _ _ _ A C). Qed.

(** ** What a spend asks of this world *)

Section environment.
Context {P : Type} (o : RecoveryOptions (W:=world) (Persisted:=P)) (value : P).
Local Notation successor := (successor_updateKey (rc_successor o)).
Hypotheses (Hstore : rc_store o = idStore) (Hseam : rc_onCommitted o = persist value)
  (Hspent : spent_seed (rc_recovery o) ≠ successor).

Lemma put_environment (seam : option (BuiltOnHead * P)) v published updated :
  (∀ A C, currentLogParameters (upd_log updated) = (A, C) → ∀ w, holding (stored (P:=P)) seam w → persisted_first successor w →
     successor ∈ A → persisted_heads w ≠ []) →
  triple (at_seam (persisted_first successor) (stored (P:=P)) v seam)
    (log_put idStore (upd_log updated) (pub_etag published))
    (λ _, at_seam (persisted_first successor) (stored (P:=P)) v seam) (λ _, at_seam (persisted_first successor) (stored (P:=P)) v seam).
Proof.
  intros HA w (Hv & Hh & Hi). unfold log_put, idStore, putIdResource, put. cbn -[log_of text_of].
  case_decide; [by split|]. case_decide; [by split|]. case_decide as Hlt; [by split|]. split; [done|]. split.
  - by destruct seam as [[? ?]|].
  - unfold persisted_first. cbn [served persisted_heads]. rewrite (known_params _ Hlt).
    destruct (currentLogParameters (upd_log updated)) as [A C] eqn:Hp. cbn. by apply (HA A C).
Qed.

Lemma recovery_environment : spend_environment updateDID silent (persisted_first successor) stated_head stored o.
Proof.
  constructor.
  - intros v seam w Hw. rewrite Hstore. cbn. split; [|done]. intros text etag log published [= <- <-] Hlog Hr.
    unfold resolvedHead in Hr. cbn -[currentLogParameters] in Hr. destruct (last log ≫= state); [|done].
    injection Hr as <-. unfold stated_head. cbn -[currentLogParameters]. by destruct (currentLogParameters log).
  - intros id v seam w Hw. rewrite Hstore. exact Hw.
  - intros id pin v seam w Hw. rewrite Hstore. exact Hw.
  - intros event v seam w Hw. exact Hw.
  - intros st v [[head p]|] w Hw; exact Hw.
  - intros v [[head p]|] w Hw; exact Hw.
  - intros head v w (Hv & _ & Hi). rewrite Hseam. cbn. split; [done|]. split; [by left|]. by intros _.
  - intros published updated v HK (Hc & _ & _ & _ & key & s & A & C & (_ & Hk & _) & [HA _] & Hu). rewrite Hstore.
    injection Hk as <-. injection Hu as <-.
    eapply triple_conseq; [apply (put_environment None)|done|intros written w Hw; split; [|exact Hw]|done].
    + cbn [upd_log]. rewrite extended_params. intros A' C' [= <- <-] w _ _ Hin. apply HA in Hin as [Hin|Hin].
      * cbn in Hin. by apply bool_decide_eq_false in Hc.
      * apply list_elem_of_singleton in Hin. by destruct Hspent.
    + unfold stated_head. cbn -[currentLogParameters extended]. by rewrite extended_params.
  - intros published head p retirement updated v HK Hh _. rewrite Hstore. apply put_environment.
    intros A C _ w Hin _ _ Hn. cbn in Hin. unfold stored in Hin. rewrite Hn in Hin. by apply elem_of_nil in Hin.
Qed.
End environment.

(** ** Spent for a client *)

Definition spent : SpentCode := mkSpent (mkRecoveryKeys "ck" "k0") "k0".
Definition replacement : ReplacementRecoveryPublicKeys := mkReplacement (mkRecoveryKeys "rk" "rr") "rvm".
Definition newClient : WebvhEnrollmentKeys := mkEnrollment "c3" "xc3" "n" "m".
Definition client : ClientRecovery (W:=world) :=
  mkClientRecovery idStore spent newClient (mkUpdateKeys "n" "m" None) replacement (Some (persist ())) None None.
Definition start (races : nat) : world := mkWorld "0" races no_spend_locals fresh_emitter [].
Local Notation client_run := (recoverWebvhClient updateDID silent "run" client).

(** ** Spent for a fresh ladder *)

Definition annexDid : string := "did:webvh:Qm1:host:space:abc:gen-AAAAAAAAAAAAAAAA".
Definition ladder_recovery : LadderRecovery (W:=world) :=
  mkLadderRecovery idStore spent "L" (verbatim "pk3") replacement None (Some (persist annexDid)) None.
Local Notation ladder_run := (recoverWebvhLadderAnchored updateDID silent "run" ladder_recovery).

Lemma fresh_ladder_environment fresh : freshLadder "L" = Ok fresh →
  spend_environment updateDID silent (persisted_first "L/rung/0") stated_head stored
    (ladderSpend ladder_recovery fresh (persist annexDid) (spend_run "run")).
Proof.
  intros Hf. assert (rung_keyMultibase (fresh_rung0 fresh) = "L/rung/0") as Hk.
  { apply (f_equal (λ r, match r with Ok f => rung_keyMultibase (fresh_rung0 f) | Throw _ => "" end)) in Hf.
    vm_compute in Hf. by symmetry. }
  pose proof (recovery_environment (ladderSpend ladder_recovery fresh (persist annexDid) (spend_run "run")) annexDid eq_refl eq_refl) as H.
  cbn [ladderSpend rc_successor successor_updateKey rc_recovery] in H. rewrite Hk in H. by apply H.
Qed.

Lemma transient_recovery_takes_over_at_once_witness :
  match ladder_run (start 1) with
  | (Ok outcome, w) =>
      spend_committed outcome = true ∧ spend_retirement outcome = mkSpendRetirement [vm_id did "pk"] ["#r0"] [] ∧
      served w = "4" ∧ delegatedClientsPointer (spend_doc outcome) = Some annexDid ∧ persisted_first "L/rung/0" w ∧
      ∃ fresh published pointed updated,
        takes_over updateDID ladder_recovery fresh (persist annexDid) (spend_run "run") published pointed updated ∧
        spend_log outcome = upd_log updated
  | _ => False
  end.
Proof.
  pose proof (transient_recovery_takes_over_at_once updateDID silent (persisted_first "L/rung/0") stated_head stored "run"
    ladder_recovery (persist annexDid) eq_refl fresh_ladder_environment
    (start 1) ltac:(intros Hin; exfalso; revert Hin; apply (bool_decide_eq_true_1 _); by vm_compute)) as H.
  assert (match ladder_run (start 1) with
          | (Ok outcome, w) =>
              (spend_committed outcome, spend_retirement outcome, served w, delegatedClientsPointer (spend_doc outcome))
          | _ => (false, nothing_retired, "", None)
          end = (true, mkSpendRetirement [vm_id did "pk"] ["#r0"] [], "4", Some annexDid)) as Hrun by (vm_compute; reflexivity).
  destruct (ladder_run (start 1)) as [[outcome|e] w]; [|done].
  destruct H as [(fresh & _ & _ & Hcom) Hi].
  assert (spend_committed outcome = true) as Hc by by injection Hrun.
  destruct (Hcom Hc) as (published & pointed & updated & _ & Htake & Hhead).
  injection Hrun as _ Hr Hs Hp. injection Hhead as _ _ Hl. split_and!; [done..|]. by exists fresh, published, pointed, updated.
Defined.

(** ** The completed spend, run again *)

Local Notation spend_options := (clientSpend client (persist ()) (spend_run "run")).
Definition head_of_text (text : string) : PublishedWebvhLog :=
  let log := default [] (log_of text) in
  mkPublished log did (default empty_document (last log ≫= state)) (currentLogParameters log).1 (currentLogParameters log).2
    (mkMeta None (Some (currentLogParameters log).1) (Some (currentLogParameters log).2)) (Some text).
Definition revealed : PublishedWebvhLog := head_of_text "1".
Definition revealed_world : world := mkWorld "1" 0 no_spend_locals fresh_emitter [].
Local Notation first_run := (addAndRetire updateDID silent spend_options revealed revealed_world).

Lemma locals_environment : spend_environment updateDID silent (λ _, True) (λ _, True) (λ _ _ _, True) spend_options.
Proof.
  constructor.
  - intros v seam w Hw. cbn. split; [|exact Hw]. done.
  - intros id v seam w Hw. exact Hw.
  - intros id pin v seam w Hw. exact Hw.
  - intros event v seam w Hw. exact Hw.
  - intros st v [[head p]|] w Hw; exact Hw.
  - intros v [[head p]|] w Hw; exact Hw.
  - intros head v w (Hv & _ & _). by split.
  - intros published updated v _ _ w Hw. unfold log_put, putIdResource. cbn -[log_of text_of]. unfold put. cbn -[log_of text_of].
    repeat (case_decide; [exact Hw|]). by split.
  - intros published head p retirement updated v _ _ _ w Hw. unfold log_put, putIdResource. cbn -[log_of text_of]. unfold put.
    cbn -[log_of text_of]. repeat (case_decide; [exact Hw|]). exact Hw.
Qed.

Lemma silent_returns event w : ∃ w', silent event w = (Ok (), w').
Proof. by exists w. Qed.

Lemma appended_stated : appends_entry updateDID.
Proof. intros log meta s document services A C updated [= <-]. eexists. split_and!; [reflexivity|reflexivity|]. cbn [upd_doc]. unfold extended. by rewrite last_snoc. Qed.

(** What the first run's document publishes of the members that stood. *)
Definition members_after (doc : AccountDocument) : bool :=
  forallb (λ id, bool_decide (id ∉ credentialIds (Some doc) did)) (credentialIds (Some before_doc) did).

Lemma added_ids persisted variant : rc_added spend_options did before_doc persisted = Ok variant →
  omap method_id (allAdded spend_options did variant) = [vm_id did "c3"; vm_id did "xc3"; vm_id did "rk"; vm_id did "rvm"].
Proof.
  intros Hv. apply (f_equal (λ r, match r with Ok v => omap method_id (added_methods v) | Throw _ => [] end)) in Hv.
  assert (omap method_id (added_methods variant) = [vm_id did "c3"; vm_id did "xc3"]) as Hm by (vm_compute in Hv |- *; by symmetry).
  unfold allAdded. rewrite omap_app, Hm. by vm_compute.
Qed.

End RecoveryDemo.
