(* ===== verification/LadderCeremonies.v ===== *)
(** * The entries a ladder signs

    [src/src/clientAnnex/ladderAnchored.ts]: the account-log ceremonies of a
    credential's own ladder (the self-enrollment of a client, the entry that
    forgets one, the ladder VM and the bare reveal); and over them
    [src/src/clientAnnex/forget.ts], which retires the client's wrap first. *)

From Stdlib Require QArith_base.
From S2P Require Import Prelude Json JsText CeremonyEvents AccountDocument LadderRungs ResourceController AccountLog LogStore KeyRotation LadderIndex LadderInventory ClientListing ClientRevocation AccountEntry Descriptors UserKeyRoster UserKeyCascade RosterCascade StandingCredential.

Section ladder.
Context {W : Type} {readers : DocumentReaders} {resolver : WebvhResolver} {writer : WebvhWriter}
  {hashes : HashLibrary} {keys : WebvhKeys} {twins : TwinLibrary}.
Variables (updateDID : UpdateDID) (logger : Logger W).

(** ** The ladder-signed entry *)

Record LadderEntry := mkLadderEntry {
  le_store : WebvhIdStore W;
  le_ladderSeed : string;
  le_expectedDid : option string;
  le_builtOnHead : option json;
  le_skip : option (PublishedWebvhLog → comp W bool);
  le_build : PublishedWebvhLog → LadderParts → comp W (option AccountEntryFields);
  le_projectionStore : option (WebvhIdStore W);
  le_removesInventory : bool
}.

Definition nothingToEnrollInto : string := "did:webvh: did.jsonl is missing; nothing to enroll into.".

(** The ladder arm attributes a rung before it builds, so a build always has
    one. *)
Definition withParts (build : PublishedWebvhLog → LadderParts → comp W (option AccountEntryFields)) (ctx : BuildContext (W:=W)) :
    comp W (option AccountEntryFields) :=
  match ctx_parts ctx with
  | Some parts => build (ctx_published ctx) parts
  | None => mthrow (JsError "TypeError" "Cannot read properties of undefined (reading 'index')")
  end.

Definition ladderEntryOptions (e : LadderEntry) : EntryOptions :=
  mkEntryOptions (le_store e) (LogSigner (ladder (le_ladderSeed e))) (withParts (le_build e)) (le_skip e) None
    (le_expectedDid e) (le_builtOnHead e) (Some nothingToEnrollInto) None (le_projectionStore e) (le_removesInventory e).

(** The outcome with its members as the seam gave them: a skipped entry has
    no rung. *)
Definition ladderSignedAccountEntry (e : LadderEntry) : comp W AccountEntryOutcome :=
  signAccountEntry updateDID logger (ladderEntryOptions e).

(** ** Self-enrollment *)

Record SelfEnrollment := mkSelfEnrollment {
  sf_store : WebvhIdStore W;
  sf_ladderSeed : string;
  sf_newClientKeys : WebvhEnrollmentKeys;
  sf_newClientUpdateSeeds : ClientWebvhUpdateKeys;
  sf_onCommitted : option (BuiltOnHead → comp W ());
  sf_builtOnHead : option json;
  sf_expectedDid : option string
}.

Record EnrolledOutcome := mkEnrolled { enrolled_did : string; enrolled_webDoc : option WebDoc; enrolled_committed : bool }.

Definition selfEnrollSkip (newClientKeys : WebvhEnrollmentKeys) (read : PublishedWebvhLog) : comp W bool :=
  mret (bool_decide (enroll_updateKey newClientKeys ∈ pub_updateKeys read)).

(** The hashes the reveal entry commits, in their order. *)
Definition selfEnrollHashes (newClientKeys : WebvhEnrollmentKeys) (nextRung : LadderRung) : list string :=
  [deriveNextKeyHash (enroll_updateKey newClientKeys); deriveNextKeyHash (enroll_stagedKey newClientKeys);
   deriveNextKeyHash (rung_keyMultibase nextRung)].

Definition selfEnrollReveal (ladderSeed : string) (newClientKeys : WebvhEnrollmentKeys) (read : PublishedWebvhLog)
    (parts : LadderParts) : comp W (option AccountEntryFields) :=
  nextRung ← lift (ladderRung ladderSeed (rung_index (part_rung parts) + 1));
  let commitHashes := selfEnrollHashes newClientKeys nextRung in
  mret (if decide (part_state parts = revealed_rung ∧ Forall (λ hash, hash ∈ pub_nextKeyHashes read) commitHashes) then None
        else Some (mkEntryFields None None (Some commitHashes) None None)).

Definition selfEnrollRevealEntry (s : SelfEnrollment) : LadderEntry :=
  mkLadderEntry (sf_store s) (sf_ladderSeed s) (sf_expectedDid s) (sf_builtOnHead s)
    (Some (selfEnrollSkip (sf_newClientKeys s))) (selfEnrollReveal (sf_ladderSeed s) (sf_newClientKeys s)) None false.

(** The head the adding entry is built on: one with a validator, or a fresh
    read. *)
Definition headWithValidator (store : WebvhIdStore W) (reveal : AccountEntryOutcome) : comp W PublishedWebvhLog :=
  let head := accountEntryHead reveal in
  match pub_etag head with
  | Some _ => mret head
  | None => readPublishedLogOrThrow store (Some (pub_did (out_published reveal))) (Some nothingToEnrollInto)
  end.

(** What the adding entry authorizes and commits. *)
Definition selfEnrolledKeys (newClientKeys : WebvhEnrollmentKeys) (spent : LadderParts) (updateKeys : list string) : list string :=
  js_dedup (filter (λ key, key ≠ rung_keyMultibase (part_rung spent)) updateKeys ++ [enroll_updateKey newClientKeys]).
Definition selfEnrolledHashes (spent : LadderParts) (nextKeyHashes : list string) : list string :=
  filter (λ hash, hash ≠ part_hash spent) nextKeyHashes.

(** The adding entry: the client in, the spent rung out, signed by the
    client's own update key. *)
Definition addSelfEnrolled (newClientKeys : WebvhEnrollmentKeys) (seeds : ClientWebvhUpdateKeys) (spent : LadderParts)
    (published : PublishedWebvhLog) : result Updated :=
  '(methods, relations) ← clientAdditionFields (pub_did published) (enroll_signingKey newClientKeys)
    (enroll_keyAgreementKey newClientKeys);
  signer ← updateKeySigner (updateSeed seeds);
  updateDID (pub_log published) (pub_meta published) signer
    (Some (mergedFields (mergeVerificationMethods (pub_doc published) methods relations None))) None
    (selfEnrolledKeys newClientKeys spent (pub_updateKeys published)) (selfEnrolledHashes spent (pub_nextKeyHashes published)).

Definition selfEnrollWebvhClientOnce (s : SelfEnrollment) (onCommitted : BuiltOnHead → comp W ()) : comp W EnrolledOutcome :=
  reveal ← ladderSignedAccountEntry (selfEnrollRevealEntry s);
  if skipped reveal then mret (mkEnrolled (pub_did (out_published reveal)) None false)
  else
    published ← headWithValidator (sf_store s) reveal;
    head ← lift (servedHead (pub_log published));
    onCommitted head;;
    spent ← lift (match out_parts reveal with
                  | Some parts => Ok parts
                  | None => mthrow (JsError "TypeError" "Cannot read properties of undefined (reading 'keyMultibase')")
                  end);
    updated ← lift (addSelfEnrolled (sf_newClientKeys s) (sf_newClientUpdateSeeds s) spent published);
    publishEntryPinned (sf_store s) (upd_log updated) (pub_etag published);;
    mret (mkEnrolled (upd_did updated) (upd_webDoc updated) true).

Definition selfEnrollWebvhClient (s : SelfEnrollment) : comp W EnrolledOutcome :=
  onCommitted ← (match sf_onCommitted s with
                 | Some seam => mret seam
                 | None => mthrow (JsError "TypeError" "selfEnrollWebvhClient requires onCommitted: the pending client-key record must be persisted before the add entry publishes the client.")
                 end);
  lift (assertCanonicalClientKeys (enroll_signingKey (sf_newClientKeys s)) (enroll_keyAgreementKey (sf_newClientKeys s)));;
  withLogConflictRetry (selfEnrollWebvhClientOnce s onCommitted).

(** ** Forgetting a client *)

Definition LastEnrolledClientForgetError : js_error :=
  JsError "LastEnrolledClientForgetError" "did:webvh: the client being forgotten is the last enrolled client; forgetting it takes the ladder-anchored transition ceremony, not the plain removal entry.".

Record ForgetEntry := mkForgetEntry {
  fo_store : WebvhIdStore W;
  fo_projectionStore : option (WebvhIdStore W);
  fo_ladderSeed : string;
  fo_forgottenClient : RevokedClientKeys;
  fo_knownLatentHashes : list string;
  fo_expectedDid : option string
}.

Record SettledEntry := mkSettled { settled_did : string; settled_doc : AccountDocument; settled_log : DIDLog; settled_wrote : bool }.

(** [entry.updated ?? entry.published], and whether the entry was written. *)
Definition settledEntry (entry : AccountEntryOutcome) : SettledEntry :=
  match out_updated entry with
  | Some updated => mkSettled (upd_did updated) (upd_doc updated) (upd_log updated) true
  | None =>
      let published := out_published entry in mkSettled (pub_did published) (pub_doc published) (pub_log published) false
  end.

Definition assertNotLastClient (published : PublishedWebvhLog) (target : ClientRemovalTarget) : comp W () :=
  if isLastEnrolledClient (pub_doc published) (signingVmId target) then mthrow LastEnrolledClientForgetError else mret ().

(** The hashes of the rungs 0 to [index]. *)
Definition ladderHashesTo (ladderSeed : string) (index : Z) : result (list string) :=
  mapM (λ i : nat, rung ← ladderRung ladderSeed (Z.of_nat i); Ok (deriveNextKeyHash (rung_keyMultibase rung)))
    (seq 0 (Z.to_nat (index + 1))).

(** [target], the local the skip sets and the build reads, is a cell. *)
Context `{!Cell W (option ClientRemovalTarget)}.

Definition forgetSkip (e : ForgetEntry) (assertRemovable : PublishedWebvhLog → ClientRemovalTarget → comp W ())
    (published : PublishedWebvhLog) : comp W bool :=
  target ← lift (clientRemovalTarget published (fo_forgottenClient e));
  modify (set_cell (Some target));;
  if present target then
    assertRemovable published target;;
    mret false
  else mret true.

Definition removalEntryFields (fields : RemovalFields) : AccountEntryFields :=
  mkEntryFields (Some (removal_updateKeys fields)) (Some (removal_nextKeyHashes fields)) None
    (Some (removal_document fields)) None.

Definition forgetBuild (e : ForgetEntry) (published : PublishedWebvhLog) (parts : LadderParts) :
    comp W (option AccountEntryFields) :=
  ladderHashes ← lift (ladderHashesTo (fo_ladderSeed e) (rung_index (part_rung parts) + 1));
  target ← gets get_cell;
  match target : option ClientRemovalTarget with
  | Some target =>
      fields ← clientRemovalFields logger published target (fo_knownLatentHashes e ++ ladderHashes);
      mret (Some (removalEntryFields fields))
  | None => mthrow (JsError "TypeError" "Cannot read properties of undefined (reading 'keyPresent')")
  end.

Definition clientForgetEntryOnce (e : ForgetEntry) (assertRemovable : PublishedWebvhLog → ClientRemovalTarget → comp W ()) :
    comp W SettledEntry :=
  modify (set_cell None);;
  entry ← ladderSignedAccountEntry
    (mkLadderEntry (fo_store e) (fo_ladderSeed e) (fo_expectedDid e) None (Some (forgetSkip e assertRemovable)) (forgetBuild e)
       (fo_projectionStore e) true);
  mret (settledEntry entry).

Definition forgetWebvhClient (e : ForgetEntry) : comp W SettledEntry :=
  withLogConflictRetry (clientForgetEntryOnce e assertNotLastClient).

(** ** The ladder VM *)

(** The document with the ladder VM in it, or out of it. *)
Definition ladderVmPresenceFields (ladderVmKey : string) (present : bool) (published : PublishedWebvhLog) : AccountEntryFields :=
  let did := pub_did published in
  let doc := pub_doc published in
  let ladderVmId := vm_id did ladderVmKey in
  let inRelation relation :=
    let ids := relationIds (relationOf doc relation) in
    if present then js_dedup (ids ++ [ladderVmId]) else filter (λ id, id ≠ ladderVmId) ids in
  let otherMethods := filter (λ method, method_id method ≠ Some ladderVmId) (default [] (verificationMethod doc)) in
  mkEntryFields None None None
    (Some (mkFields
       (if present then otherMethods ++ [ladderVerificationMethod did ladderVmKey] else otherMethods)
       (λ relation, match relation with
                    | assertionMethod | capabilityDelegation => inRelation relation
                    | _ => relationIds (relationOf doc relation)
                    end))) None.

Definition ladderVmPresenceBuild (ladderVmKey : string) (present : bool) (published : PublishedWebvhLog) (parts : LadderParts) :
    comp W (option AccountEntryFields) :=
  mret (Some (ladderVmPresenceFields ladderVmKey present published)).

Definition setLadderVmPresenceOnce (store : WebvhIdStore W) (ladderSeed : string) (expectedDid : option string)
    (present : bool) : comp W SettledEntry :=
  ladderVmKey ← lift (ladderVmKeyMultibase ladderSeed);
  entry ← ladderSignedAccountEntry
    (mkLadderEntry store ladderSeed expectedDid None
       (Some (λ published, mret (bool_decide (bool_decide (vm_id (pub_did published) ladderVmKey ∈ ladderVmIds (pub_doc published)) = present))))
       (ladderVmPresenceBuild ladderVmKey present) None false);
  mret (settledEntry entry).

Definition installLadderVmWebvhOnce (store : WebvhIdStore W) (ladderSeed : string) (expectedDid : option string) :
    comp W SettledEntry := setLadderVmPresenceOnce store ladderSeed expectedDid true.
Definition installLadderVmWebvh (store : WebvhIdStore W) (ladderSeed : string) (expectedDid : option string) :
    comp W SettledEntry := withLogConflictRetry (installLadderVmWebvhOnce store ladderSeed expectedDid).
Definition strikeLadderVmWebvhOnce (store : WebvhIdStore W) (ladderSeed : string) (expectedDid : option string) :
    comp W SettledEntry := setLadderVmPresenceOnce store ladderSeed expectedDid false.
Definition strikeLadderVmWebvh (store : WebvhIdStore W) (ladderSeed : string) (expectedDid : option string) :
    comp W SettledEntry := withLogConflictRetry (strikeLadderVmWebvhOnce store ladderSeed expectedDid).

(** ** The bare reveal *)

Record RevealedRung := mkRevealed { revealed_now : bool; revealed_parts : option LadderParts; revealed_published : PublishedWebvhLog }.

Definition revealLadderRungBuild (ladderSeed : string) (published : PublishedWebvhLog) (parts : LadderParts) :
    comp W (option AccountEntryFields) :=
  match part_state parts with
  | revealed_rung => mret None
  | committed_rung =>
      nextRung ← lift (ladderRung ladderSeed (rung_index (part_rung parts) + 1));
      mret (Some (mkEntryFields None None (Some [deriveNextKeyHash (rung_keyMultibase nextRung)]) None None))
  end.

Definition revealLadderRungWebvh (store : WebvhIdStore W) (ladderSeed : string) (expectedDid : option string) :
    comp W RevealedRung :=
  entry ← ladderSignedAccountEntry
    (mkLadderEntry store ladderSeed expectedDid None None (revealLadderRungBuild ladderSeed) None false);
  mret (mkRevealed (bool_decide (is_Some (out_updated entry))) (out_parts entry) (accountEntryHead entry)).

(** ** Forgetting a client with its wrap *)

Context {commitments : CommitmentLibrary} {library : EpochLibrary} {shape : ThrownShape} {emitter : Cell W EmitterState}.

Definition FORGET_CLIENT_EVENT_STAGES : list string := ["roster-rotation"; "collection-epochs"; "removal-entry"].
Definition FORGET_CLIENT_REFUSALS : list string := ["LastEnrolledClientForgetError"].

Record EnrolledClientForgetResult := mkForgotten {
  forgotten_rotated : bool;
  forgotten_collections : UserKeyCascadeResult;
  forgotten_did : string;
  forgotten_document : AccountDocument;
  forgotten_userKey : option UserKey;
  forgotten_rosterDescriptor : option CollectionEncryption
}.

Definition cascadeFoundAllCurrent (collections : UserKeyCascadeResult) : bool :=
  bool_decide (cascade_failed collections = []) &&
  forallb (λ entry, bool_decide (entry.2 = outcome_noop)) (map_to_list (outcomes collections)).

Record ForgetOptions := mkForgetOptions {
  fg_entry : ForgetEntry;
  fg_forgottenKeyAgreementKey : string;
  fg_rosterStore : EncryptionDescriptorStore W;
  fg_credentialKeyAgreementKey : KeyAgreementKey;
  fg_userKey : option UserKey;
  fg_pinnedEpochId : option string;
  fg_onUserKeyAdopted : option (AdoptedUserKey → comp W ());
  fg_collections : CascadeCollections W
}.

Definition nothingToForget : string := "did:webvh: did.jsonl is missing; nothing to forget from.".
Definition forgottenKid (o : ForgetOptions) : string :=
  rosterRecipientKid (revoked_signingKey (fo_forgottenClient (fg_entry o))) (fg_forgottenKeyAgreementKey o).

Definition forgetStages (events : CeremonyRun) (tail : RosterCascadeResult) : comp W () :=
  stage logger events "roster-rotation" (priorUnless (tail_rotated tail));;
  if decide (cascade_failed (tail_collections tail) = []) then
    stage logger events "collection-epochs" (priorUnless (negb (cascadeFoundAllCurrent (tail_collections tail))))
  else mret ().

Definition forgetEnrolledClientCore (events : CeremonyRun) (o : ForgetOptions) : comp W (EnrolledClientForgetResult * bool) :=
  let e := fg_entry o in
  published ← readPublishedLogOrThrow (fo_store e) (fo_expectedDid e) (Some nothingToForget);
  if isLastEnrolledClient (pub_doc published) (vm_id (pub_did published) (revoked_signingKey (fo_forgottenClient e))) then
    mthrow LastEnrolledClientForgetError
  else
    tail ← retireRosterRecipientAndCascade (fg_rosterStore o) (pub_did published) (pub_doc published) (pub_log published)
      (forgottenKid o) (fg_userKey o) (fg_credentialKeyAgreementKey o) (fg_pinnedEpochId o) (fg_onUserKeyAdopted o)
      (fg_collections o);
    forgetStages events tail;;
    removed ← forgetWebvhClient e;
    let removalPrior := negb (settled_wrote removed) in
    stage logger events "removal-entry" (priorUnless (negb removalPrior));;
    mret (mkForgotten (tail_rotated tail) (tail_collections tail) (settled_did removed) (settled_doc removed)
            (match rosterDescriptor tail with Some _ => tail_userKey tail | None => None end)
            (match tail_userKey tail with Some _ => rosterDescriptor tail | None => None end),
          negb (tail_rotated tail) && cascadeFoundAllCurrent (tail_collections tail) && removalPrior).

Definition forgetOutcome (result : EnrolledClientForgetResult) (allPrior : bool) : MendOutcomeKind :=
  match cascade_failed (forgotten_collections result) with
  | [] => if allPrior then noop else clean
  | _ => partial
  end.

Definition forgetEnrolledClient (runId : string) (o : ForgetOptions) : comp W EnrolledClientForgetResult :=
  modify (set_cell fresh_emitter);;
  let events := mkRun "forget-client" runId FORGET_CLIENT_REFUSALS [] in
  forgotten ← CeremonyEvents.run logger events (forgetEnrolledClientCore events o)
    (λ forgotten, mret (forgetOutcome forgotten.1 forgotten.2,
       DetailOf [("failedCollections", count (length (cascade_failed (forgotten_collections forgotten.1))))]));
  mret forgotten.1.
End ladder.
