(* ===== verification/LadderSafety.v ===== *)
(** * Forgetting a client, and enrolling one under a ladder

    The removal entry of [LadderCeremonies] under any store and any number of
    lost races; the whole of a forget, whose roster half comes first; and the
    rung a self-enrollment spends. *)

From S2P Require Import Prelude Json JsText CeremonyEvents AccountDocument LadderRungs ResourceController AccountLog LogStore KeyRotation LadderIndex LadderInventory ClientListing ClientRevocation AccountEntry EntryDiscipline Descriptors UserKeyRoster RosterConvergence UserKeyCascade RosterCascade StandingCredential CredentialRetirement LadderCeremonies.

(** ** The staged hash is no one else's *)

Section staged.
Context {keys : WebvhKeys}.

Lemma isolate_in params revokedHash index candidates hash :
  isolate params revokedHash index candidates = Isolated (Some hash) → hash ∈ candidates.
Proof.
  unfold isolate. destruct candidates as [|a [|b rest]]; [done|intros [= ->]; left|].
  unfold stagedByPosition. destruct (positionalSuccessor _ _ _) as [s|]; [|done]. case_decide; [by intros [= <-]|done].
Qed.

Lemma pruned_unknown params revokedHash known derived index hash :
  hash ∈ prune params revokedHash known derived index → hash ≠ revokedHash ∧ hash ∉ known.
Proof. unfold prune. rewrite list_elem_of_filter. tauto. Qed.

Lemma staged_unknown params key known derived hash :
  attributeStagedHash params key known derived = Isolated (Some hash) → hash ≠ deriveNextKeyHash key ∧ hash ∉ known.
Proof.
  unfold attributeStagedHash. destruct (revealIndex _ _) as [revealed|]; [|done].
  destruct (prune _ _ _ _ revealed) as [|a rest] eqn:Hp.
  - destruct (commitIndexOf _ _ _) as [committed|]; [|done]. intros Hi%isolate_in. by eapply pruned_unknown.
  - rewrite <- Hp. intros Hi%isolate_in. by eapply pruned_unknown.
Qed.
End staged.

(** ** The removal entry *)

Section forget.
Context {W : Type} {readers : DocumentReaders} {resolver : WebvhResolver} {writer : WebvhWriter}
  {hashes : HashLibrary} {keys : WebvhKeys}.
Variables (updateDID : UpdateDID) (logger : Logger W).
Context {cell : Cell W (option ClientRemovalTarget)} {cell_laws : CellLaws W (option ClientRemovalTarget)}.
Variables (I : W → Prop) (K : PublishedWebvhLog → Prop) (e : ForgetEntry (W:=W)).
Implicit Types (published : PublishedWebvhLog) (target : ClientRemovalTarget).

(** What makes a client removable over a head, and the check of it. *)
Variables (removable : PublishedWebvhLog → ClientRemovalTarget → Prop)
  (assertRemovable : PublishedWebvhLog → ClientRemovalTarget → comp W ()).
Hypothesis asserts : ∀ published target (J : W → Prop),
  triple J (assertRemovable published target) (λ _ w, removable published target ∧ J w) (λ _, J).

Definition target_of published target : Prop := clientRemovalTarget published (fo_forgottenClient e) = Ok target.

(** The fields a forget states over a head: the removal's, whose staged hash
    is none of its own ladder's rungs. *)
Definition forgets published (fields : AccountEntryFields) : Prop :=
  ∃ target staged rung st ladderHashes,
    target_of published target ∧ present target = true ∧ removable published target ∧
    attributeLadderRung (fo_ladderSeed e) (pub_updateKeys published) (pub_nextKeyHashes published) LADDER_MAX_SCAN = Ok (rung, st) ∧
    ladderHashesTo (fo_ladderSeed e) (rung_index rung + 1) = Ok ladderHashes ∧
    (∀ hash, staged = Some hash → keyPresent target = true ∧ hash ≠ removedHash target ∧
       hash ∉ fo_knownLatentHashes e ++ ladderHashes) ∧
    fields = removalEntryFields (removalFields published target staged).

Definition forget_entry published (updated : Updated) : Prop :=
  ∃ fields, forgets published fields ∧ disciplined updateDID (LogSigner (ladder (fo_ladderSeed e))) published fields updated.

(** What a forget returns: a head the client is gone from, or the one its
    entry made. *)
Definition forget_returns (settled : SettledEntry) : Prop :=
  ∃ published target, K published ∧ target_of published target ∧
    if settled_wrote settled then
      ∃ updated, forget_entry published updated ∧
        settled = mkSettled (upd_did updated) (upd_doc updated) (upd_log updated) true
    else present target = false ∧ settled = mkSettled (pub_did published) (pub_doc published) (pub_log published) false.

(** The environment does not touch the local. *)
Definition unseen {A} (c : comp W A) : Prop := ∀ v, keeps (λ w, get_cell w = v ∧ I w) c.

Record forget_environment : Prop := {
  forget_raw : triple I (getIdResourceRaw (fo_store e) DID_LOG_RESOURCE) (λ read w, heads K read ∧ I w) (λ _, I);
  forget_pin_read id : keeps I (pin_read (id_pinStore (fo_store e)) id);
  forget_pin_write id pin : keeps I (pin_write (id_pinStore (fo_store e)) id pin);
  forget_log event : unseen (logger event);
  forget_doc store doc : fo_projectionStore e = Some store → unseen (document_put store doc);
  forget_put published updated : K published → forget_entry published updated →
    keeps I (log_put (fo_store e) (upd_log updated) (pub_etag published));
  forget_cell (v : option ClientRemovalTarget) w : I w → I (set_cell v w)
}.
Hypothesis env : forget_environment.

Lemma unseen_keeps {A} (c : comp W A) : unseen c → keeps I c.
Proof.
  intros Hc w Hi. specialize (Hc (get_cell w) w (conj eq_refl Hi)). destruct (c w) as [[a|err] w']; by destruct Hc.
Qed.

(** The invariant between the skip and the build: the local holds the target
    of the head. *)
Definition targeted published (w : W) : Prop :=
  (∃ target, get_cell w = Some target ∧ target_of published target ∧ present target = true ∧ removable published target) ∧ I w.

Lemma targeted_keeps {A} (c : comp W A) published : unseen c → keeps (targeted published) c.
Proof.
  intros Hc w [(target & Hg & Ht) Hi]. specialize (Hc (Some target) w (conj Hg Hi)).
  destruct (c w) as [[a|err] w']; destruct Hc as [Hg' Hi']; (split; [by exists target|done]).
Qed.

Lemma skip_answers published :
  triple I (forgetSkip e assertRemovable published)
    (λ skip w, (∃ target, target_of published target ∧ (skip = true → present target = false)) ∧
       if skip then I w else targeted published w) (λ _, I).
Proof.
  unfold forgetSkip. eapply (triple_bind _ _ _ (λ target w, target_of published target ∧ I w)).
  { apply triple_lift. intros w Hw. unfold target_of. by destruct (clientRemovalTarget _ _). }
  intros target. apply triple_pure. intros Ht.
  eapply (triple_bind _ _ _ (λ _ w, get_cell w = Some target ∧ I w)).
  { apply triple_modify. intros w Hw. split; [by rewrite get_set_cell|by apply (forget_cell env)]. }
  intros _. destruct (present target) eqn:Hp.
  - eapply triple_bind; [eapply triple_throws; [apply asserts|by intros err w [_ ?]]|].
    intros ?. apply triple_ret. intros w (Hl & Hg & Hi). split; [by exists target|]. split; [by exists target|done].
  - apply triple_ret. intros w [Hg Hi]. split; [by exists target|done].
Qed.

Lemma latent_vouched log vouched :
  triple I (latentHashesToExclude logger log vouched) (λ r w, r.1 = vouched ∧ I w) (λ _, I).
Proof.
  pose proof (λ event, unseen_keeps _ (forget_log env event)) as Hl.
  unfold latentHashesToExclude. eapply (triple_bind _ _ _ (λ _, I)); [apply keeps_lift|intros [derived ids]].
  eapply (triple_bind _ _ _ (λ _, I)); [case_decide; [apply Hl|apply keeps_ret]|intros _].
  eapply (triple_bind _ _ _ (λ _, I)); [case_decide; [apply Hl|apply keeps_ret]|intros _]. by apply triple_ret.
Qed.

Lemma removal_answers published target known :
  triple I (clientRemovalFields logger published target known)
    (λ fields w, (∃ staged, fields = removalFields published target staged ∧
       ∀ hash, staged = Some hash → keyPresent target = true ∧ hash ≠ deriveNextKeyHash (removedUpdateKey target) ∧ hash ∉ known) ∧ I w)
    (λ _, I).
Proof.
  unfold clientRemovalFields. eapply (triple_bind _ _ _ (λ staged w, (∀ hash, staged = Some hash →
    keyPresent target = true ∧ hash ≠ deriveNextKeyHash (removedUpdateKey target) ∧ hash ∉ known) ∧ I w)).
  - destruct (keyPresent target) eqn:Hk; [|by apply triple_ret].
    eapply triple_bind; [apply latent_vouched|].
    intros [k derived]. apply triple_pure. cbn. intros ->.
    apply triple_lift. intros w Hw. destruct (attributeStagedHash _ _ known derived) as [hash|] eqn:Ha; [|done].
    split; [|done]. intros h ->. split; [done|]. by eapply staged_unknown.
  - intros staged. apply triple_pure. intros Hs. apply triple_ret. intros w Hw. split; [|done]. by exists staged.
Qed.

Definition forget_options : EntryOptions :=
  ladderEntryOptions (mkLadderEntry (fo_store e) (fo_ladderSeed e) (fo_expectedDid e) None
    (Some (forgetSkip e assertRemovable)) (forgetBuild logger e) (fo_projectionStore e) true).

Definition forget_answers published (fields : option AccountEntryFields) : Prop :=
  match fields with Some fields => forgets published fields | None => False end.

Lemma build_forgets ctx :
  attributeParts (LogSigner (ladder (fo_ladderSeed e))) (ctx_published ctx) = Ok (ctx_parts ctx) →
  triple (targeted (ctx_published ctx)) (withParts (forgetBuild logger e) ctx)
    (λ fields w, forget_answers (ctx_published ctx) fields ∧ I w) (λ _, I).
Proof.
  intros Hp. cbn [attributeParts] in Hp. apply result_bind_ok in Hp as ([rung st] & Ha & Hp). injection Hp as Hp.
  unfold withParts. rewrite <- Hp. unfold forgetBuild. cbn [part_rung].
  eapply (triple_bind _ _ _ (λ ladderHashes w, ladderHashesTo (fo_ladderSeed e) (rung_index rung + 1) = Ok ladderHashes ∧ targeted (ctx_published ctx) w)).
  { apply triple_lift. intros w Hw. destruct (ladderHashesTo _ _); [done|apply Hw]. }
  intros ladderHashes. apply triple_pure. intros Hh.
  eapply (triple_bind _ _ _ (λ local w, (∃ t, local = Some t ∧ target_of (ctx_published ctx) t ∧ present t = true ∧
    removable (ctx_published ctx) t) ∧ I w)).
  { apply triple_gets. intros w [(t & Hg & Ht) Hi]. split; [by exists t|done]. }
  intros local. apply triple_pure. intros (t & -> & Ht & Hpr & Hlast).
  eapply triple_bind; [apply removal_answers|]. intros fields. apply triple_pure. intros (staged & -> & Hs).
  apply triple_ret. intros w Hw. split; [|done]. cbn. exists t, staged, rung, st, ladderHashes.
  split_and!; [done..| |done]. intros hash Hst. destruct (Hs hash Hst) as (? & Hne & ?). split_and!; [done| |done].
  unfold target_of, clientRemovalTarget in Ht. apply result_bind_ok in Ht as (k & _ & [= <-]). exact Hne.
Qed.

Lemma forget_once :
  triple I (clientForgetEntryOnce updateDID logger e assertRemovable) (λ settled w, forget_returns settled ∧ I w) (λ _, I).
Proof.
  unfold clientForgetEntryOnce. eapply (triple_bind _ _ _ (λ _, I)).
  { apply triple_modify. intros w Hw. by apply (forget_cell env). }
  intros _. eapply triple_bind.
  - unfold ladderSignedAccountEntry.
    eapply triple_conseq; [apply (seam_threads updateDID logger I targeted I K forget_options forget_answers
      (λ published skip, ∃ target, target_of published target ∧ (skip = true → present target = false)) (λ _ _ _, True))|done|..].
    + by intros published w [_ ?].
    + constructor; apply env.
    + done.
    + apply env.
    + intros event. apply unseen_keeps, env.
    + intros published store doc Hs. by apply targeted_keeps, (forget_doc env).
    + intros store doc Hs. by apply unseen_keeps, (forget_doc env).
    + intros published _. apply skip_answers.
    + intros ctx _ _ _ Hp _. eapply triple_conseq; [by apply build_forgets|done|done|by right].
    + intros published fields updated Hk _ Ha Hd.
      eapply triple_conseq; [apply (forget_put env published updated Hk); by exists fields|done|by intros|done].
    + intros outcome w H. exact H.
    + intros err w Hw. by destruct Hw.
  - intros outcome. apply triple_ret. intros w (Hk & _ & (target & Ht & Hskip) & Ho). unfold settledEntry.
    destruct (out_updated outcome) as [updated|].
    + destruct Ho as (_ & Hi & _ & fields & Ha & Hd). split; [|done]. exists (out_published outcome), target.
      split_and!; [done..|]. exists updated. split; [by exists fields|done].
    + destruct Ho as [[Hs Hi]|(_ & [] & _)]. split; [|done]. exists (out_published outcome), target. split; [done|]. split; [done|].
      cbn. auto.
Qed.

Lemma forget_keeps :
  triple I (withLogConflictRetry (clientForgetEntryOnce updateDID logger e assertRemovable)) (λ settled w, forget_returns settled ∧ I w) (λ _, I).
Proof. apply retry_keeps, forget_once. Qed.
End forget.

(** The logger and the stores do not touch the local. *)
Definition leaves_local {W} {writer : WebvhWriter} {cell : Cell W (option ClientRemovalTarget)} (logger : Logger W) (e : ForgetEntry (W:=W)) : Prop :=
  (∀ event, unseen (λ _, True) (logger event)) ∧
  ∀ store doc, fo_projectionStore e = Some store → unseen (λ _, True) (document_put store doc).

Lemma keeps_True {W A} (c : comp W A) : keeps (λ _, True) c.
Proof. intros w _. by destruct (c w) as [[]]. Qed.

(** The plain forget's check. *)
Definition not_last {readers : DocumentReaders} (published : PublishedWebvhLog) (target : ClientRemovalTarget) : Prop :=
  isLastEnrolledClient (pub_doc published) (signingVmId target) = false.

Lemma asserts_not_last {W} {readers : DocumentReaders} published target (J : W → Prop) :
  triple J (assertNotLastClient published target) (λ _ w, not_last published target ∧ J w) (λ _, J).
Proof. unfold assertNotLastClient, not_last. destruct (isLastEnrolledClient _ _); [by apply triple_throw|by apply triple_ret]. Qed.

(** Under no invariant at all, a forget still returns what it returns. *)
Lemma forget_anyhow {W} {readers : DocumentReaders} {resolver : WebvhResolver} {writer : WebvhWriter}
    {hashes : HashLibrary} {keys : WebvhKeys} {cell : Cell W (option ClientRemovalTarget)}
    {cell_laws : CellLaws W (option ClientRemovalTarget)} (updateDID : UpdateDID) (logger : Logger W) (e : ForgetEntry (W:=W)) :
  leaves_local logger e →
  triple (λ _, True) (forgetWebvhClient updateDID logger e) (λ settled w, forget_returns updateDID (λ _, True) e not_last settled ∧ True) (λ _ _, True).
Proof.
  intros [Hl Hd]. refine (forget_keeps updateDID logger (λ _, True) (λ _, True) e not_last assertNotLastClient asserts_not_last _). constructor; [|intros; apply keeps_True..|exact Hl|exact Hd|intros; apply keeps_True|done].
  intros w _. by destruct (getIdResourceRaw _ _ w) as [[read|]].
Qed.

(** ** The members that are gone *)

Section members.
Context {W : Type} {readers : DocumentReaders} {resolver : WebvhResolver} {writer : WebvhWriter}
  {hashes : HashLibrary} {keys : WebvhKeys}.
Variables (updateDID : UpdateDID) (e : ForgetEntry (W:=W)).

(** The ids of the client's methods, of its target over a head. *)
Definition client_method (target : ClientRemovalTarget) (id : string) : Prop :=
  id = signingVmId target ∨ id ∈ keyAgreementVmIds target.

Lemma client_method_id published target id :
  target_of e published target → client_method target id → ∃ fragment, id = vm_id (pub_did published) fragment.
Proof.
  unfold target_of, clientRemovalTarget. intros (k & _ & [= <-])%result_bind_ok [-> | Hin]; [by eexists|].
  cbn in Hin. apply elem_of_list_to_set, list_elem_of_fmap in Hin as (f & -> & _). by eexists.
Qed.

Lemma truthy_vm_id did fragment : truthy (Some (vm_id did fragment)) = Some (vm_id did fragment).
Proof. unfold vm_id. by destruct did. Qed.

Lemma absent_unpublished published target id :
  target_of e published target → present target = false → client_method target id →
  publishesMethod (pub_doc published) id = false.
Proof.
  unfold target_of, clientRemovalTarget. intros (k & _ & [= <-])%result_bind_ok. cbn. intros [[Hvm _]%orb_false_iff _]%orb_false_iff Hid.
  unfold publishesMethod. apply bool_decide_eq_false. intros (method & Hm & Hin)%list_elem_of_fmap.
  assert (existsb (isRemovedMethod (vm_id (pub_did published) (revoked_signingKey (fo_forgottenClient e)))
    (list_to_set (vm_id (pub_did published) <$> markedKeyAgreementMultibases (pub_doc published) (revoked_signingKey (fo_forgottenClient e)))))
    (default [] (verificationMethod (pub_doc published))) = true) as Hx; [|by rewrite Hx in Hvm].
  apply existsb_exists. exists method. split; [by apply list_elem_of_In|]. unfold isRemovedMethod. rewrite <- Hm.
  apply orb_true_iff. destruct Hid as [-> | Hid]; [left|right]; by apply bool_decide_eq_true_2.
Qed.

Lemma forget_unpublished K removable settled :
  publishes_stated updateDID → forget_returns updateDID K e removable settled →
  ∃ published target, K published ∧ target_of e published target ∧
    ∀ id, client_method target id → publishesMethod (settled_doc settled) id = false.
Proof.
  intros Hp (published & target & HK & Ht & Hr). exists published, target. split_and!; [done..|]. intros id Hid.
  destruct (settled_wrote settled).
  - destruct Hr as (updated & (fields & (target' & staged & rung & st & hs & Ht' & _ & _ & _ & _ & _ & ->) & Hd) & ->).
    assert (target' = target) as -> by (unfold target_of in *; congruence). cbn [settled_doc].
    destruct Hd as [_ (key & s & A & C & _ & _ & Hu)]. cbn [ef_document removalEntryFields] in Hu. apply Hp in Hu.
    unfold publishesMethod. rewrite Hu. cbn. apply bool_decide_eq_false.
    intros (method & Hm & [Hkept _]%list_elem_of_filter)%list_elem_of_fmap.
    destruct (client_method_id _ _ _ Ht Hid) as [fragment ->]. unfold keptMethod in Hkept.
    rewrite <- Hm, truthy_vm_id in Hkept. apply negb_true_iff, orb_false_iff in Hkept as [H1 H2].
    destruct Hid as [Hid|Hid]; [by rewrite bool_decide_true in H1|by rewrite bool_decide_true in H2].
  - destruct Hr as [Hpr ->]. by eapply absent_unpublished.
Qed.
End members.

(** ** The whole of a forget *)

Section core.
Context {W K : Type} (held : W → K → option DescriptorStoreRead).
Context {readers : DocumentReaders} {resolver : WebvhResolver} {writer : WebvhWriter}
  {hashes : HashLibrary} {keys : WebvhKeys} {commitments : CommitmentLibrary} {library : EpochLibrary} {shape : ThrownShape}.
Context {cell : Cell W (option ClientRemovalTarget)} {emitter : Cell W EmitterState}.
Variables (updateDID : UpdateDID) (logger : Logger W) (o : ForgetOptions (W:=W)).

(** The seams of the log's half, and the locals, hold no descriptor. *)
Record forget_still : Prop := {
  fgs_entry : entry_still held logger (fo_store (fg_entry o)) (fo_projectionStore (fg_entry o));
  fgs_target (value : option ClientRemovalTarget) w k : held (set_cell value w) k = held w k;
  fgs_emitter (value : EmitterState) w k : held (set_cell value w) k = held w k
}.
Context (seams : forget_still).

Lemma forgetting_still : still held (forgetWebvhClient updateDID logger (fg_entry o)).
Proof.
  pose proof (still_logger _ _ _ _ (fgs_entry seams)) as Hl.
  apply retry_still. unfold clientForgetEntryOnce. apply still_bind; [apply modify_still, (fgs_target seams)|intros _].
  apply still_bind; [|intros; apply still_ret]. apply sign_still; [apply (fgs_entry seams)|..].
  - intros skip published [= <-]. unfold forgetSkip. apply still_bind; [apply still_lift|intros target].
    apply still_bind; [apply modify_still, (fgs_target seams)|intros _]. destruct (present target); [|apply still_ret].
    apply still_bind; [unfold assertNotLastClient; case_match; [apply still_throw|apply still_ret]|intros; apply still_ret].
  - intros ctx _. change (still held (withParts (forgetBuild logger (fg_entry o)) ctx)). unfold withParts. destruct (ctx_parts ctx) as [parts|]; [|apply still_throw].
    unfold forgetBuild, clientRemovalFields, latentHashesToExclude.
    repeat first [apply still_ret | apply still_throw | apply still_lift | apply gets_still | apply still_bind; [|intros ?]
      | apply Hl | case_match].
Qed.

Lemma forget_stage_still events name detail : still held (stage logger events name detail).
Proof. apply stage_still; [apply (still_logger _ _ _ _ (fgs_entry seams))|apply (fgs_emitter seams)]. Qed.

Lemma forgetStages_still events tail : still held (forgetStages logger events tail).
Proof.
  unfold forgetStages. apply still_bind; [apply forget_stage_still|intros _].
  case_decide; [apply forget_stage_still|apply still_ret].
Qed.
End core.


(** ** A self-enrollment spends one rung *)

Section advance.
Context {writer : WebvhWriter} {hashes : HashLibrary} {keys : WebvhKeys} `{!Inj (=) (=) deriveNextKeyHash}.

(** A scan has every rung up to its bound. *)
Lemma scanned_rung seed maxScan scanned s :
  deriveLadderRungs seed maxScan = Ok scanned → s ∈ scanned →
  (0 ≤ rung_index s.1 < Z.of_nat maxScan)%Z ∧ ladderRung seed (rung_index s.1) = Ok s.1.
Proof.
  intros Hsc%mapM_result_ok Hs. destruct (list_elem_of_lookup_1 _ _ Hs) as [i Hi].
  destruct (Forall2_lookup_r _ _ _ _ _ Hsc Hi) as (index & Hin & Hr). rewrite result_bind_ok in Hr.
  destruct Hr as (rung & Hr & [= <-]). cbn.
  assert (rung_index rung = index) as Hidx.
  { unfold ladderRung in Hr. apply result_bind_ok in Hr as (sd & _ & (key & _ & [= <-])%result_bind_ok). done. }
  rewrite Hidx. split; [|done]. apply list_elem_of_lookup_2 in Hin. unfold scan_indices in Hin.
  apply list_elem_of_fmap in Hin as (n & -> & Hn%elem_of_seq). lia.
Qed.

Lemma rung_scanned seed maxScan scanned index :
  deriveLadderRungs seed maxScan = Ok scanned → (0 ≤ index < Z.of_nat maxScan)%Z →
  ∃ rung, ladderRung seed index = Ok rung ∧ rung_index rung = index ∧
    (rung, deriveNextKeyHash (rung_keyMultibase rung)) ∈ scanned.
Proof.
  intros Hsc%mapM_result_ok Hi.
  assert (scan_indices maxScan !! Z.to_nat index = Some index) as Hl.
  { unfold scan_indices. rewrite list_lookup_fmap, lookup_seq_lt by lia. cbn. f_equal. lia. }
  destruct (Forall2_lookup_l _ _ _ _ _ Hsc Hl) as (s & Hs & Hr). rewrite result_bind_ok in Hr.
  destruct Hr as (rung & Hr & [= <-]). exists rung. split; [done|]. split; [|by eapply list_elem_of_lookup_2].
  unfold ladderRung in Hr. apply result_bind_ok in Hr as (sd & _ & (key & _ & [= <-])%result_bind_ok). done.
Qed.

(** What the head has after the reveal, or had without it. *)
Definition revealed_head (newClient : WebvhEnrollmentKeys) (published : PublishedWebvhLog) (parts : LadderParts)
    (next : LadderRung) (head : list string * list string) : Prop :=
  (∀ k, k ∈ head.1 ↔ k ∈ pub_updateKeys published ∨ k = rung_keyMultibase (part_rung parts)) ∧
  ∀ h, h ≠ part_hash parts → (h ∈ head.2 ↔ h ∈ pub_nextKeyHashes published ∨ h ∈ selfEnrollHashes newClient next).

Lemma reveal_head {W} seed newClient published parts next fields verb (w w' : W) head :
  attributeParts (LogSigner (ladder seed)) published = Ok (Some parts) →
  ladderRung seed (rung_index (part_rung parts) + 1) = Ok next →
  selfEnrollReveal seed newClient published parts w = (Ok fields, w') →
  match fields with
  | Some fields => ∃ signed, signedParameters (LogSigner (ladder seed)) (Some parts) published verb fields = Ok signed ∧
      head = (sp_updateKeys signed, sp_nextKeyHashes signed)
  | None => head = (pub_updateKeys published, pub_nextKeyHashes published)
  end → revealed_head newClient published parts next head.
Proof.
  intros Hp Hnext Hr Hhead. unfold selfEnrollReveal in Hr. rewrite Hnext in Hr.
  rewrite (comp_bind_ok (lift (Ok next)) _ w next w) in Hr by done. case_decide as Hd; injection Hr as <- <-.
  - subst head. destruct Hd as [Hst Hall]. rewrite Forall_forall in Hall. split; cbn -[selfEnrollHashes].
    + intros k. split; [by left|intros [?| ->]; [done|]]. cbn [attributeParts] in Hp.
      apply result_bind_ok in Hp as ([rung st] & Ha & [= <-]). cbn in Hst |- *. subst st.
      unfold attributeLadderRung in Ha. apply result_bind_ok in Ha as (scanned & Hsc & Ha).
      destruct (attribution_cases seed (pub_updateKeys published) (pub_nextKeyHashes published) _ scanned rung revealed_rung Hsc) as [_ [Hrev _]].
      { unfold attributeLadderRung. by rewrite Hsc. }
      assert (rung ∈ revealedRungs (pub_updateKeys published) scanned) as Hin by (rewrite Hrev; left).
      unfold revealedRungs in Hin. by apply list_elem_of_fmap in Hin as (s & -> & [Hin _]%list_elem_of_filter).
    + intros h _. split; [by left|]. intros [?|Hh]; [done|by apply Hall].
  - destruct Hhead as (signed & Hs & ->). cbn -[selfEnrollHashes] in Hs. apply result_bind_ok in Hs as (s & _ & [= <-]).
    split; cbn -[selfEnrollHashes].
    + intros k. rewrite elem_of_js_dedup. set_solver.
    + intros h Hne. rewrite elem_of_js_dedup, elem_of_app, elem_of_cons. tauto.
Qed.

Lemma advanced_attribution seed newClient published parts next scanned head :
  deriveLadderRungs seed LADDER_MAX_SCAN = Ok scanned → NoDup ((λ s, rung_keyMultibase s.1) <$> scanned) →
  attributeParts (LogSigner (ladder seed)) published = Ok (Some parts) →
  ladderRung seed (rung_index (part_rung parts) + 1) = Ok next →
  (rung_index (part_rung parts) + 1 < Z.of_nat LADDER_MAX_SCAN)%Z →
  (∀ s, s ∈ scanned → rung_keyMultibase s.1 ≠ enroll_updateKey newClient ∧ rung_keyMultibase s.1 ≠ enroll_stagedKey newClient) →
  (part_state parts = revealed_rung → ∀ s, s ∈ scanned → s.2 ∈ pub_nextKeyHashes published →
     rung_index s.1 = rung_index (part_rung parts) ∨ rung_index s.1 = (rung_index (part_rung parts) + 1)%Z) →
  revealed_head newClient published parts next head →
  attributeLadderRung seed (selfEnrolledKeys newClient parts head.1) (selfEnrolledHashes parts head.2) LADDER_MAX_SCAN =
    Ok (next, committed_rung).
Proof.
  intros Hsc Hnd Hp Hnext Hlt Hnew Hstand [HA HC]. cbn [attributeParts] in Hp.
  apply result_bind_ok in Hp as ([rung st] & Ha & [= <-]). unfold selfEnrolledKeys, selfEnrolledHashes.
  cbn [part_rung part_hash part_state] in *.
  destruct (attribution_cases _ _ _ _ _ _ _ Hsc Ha) as [[hash Hin] Hcases].
  assert (∀ s s', s ∈ scanned → s' ∈ scanned → rung_index s.1 = rung_index s'.1 → s = s') as Hidx.
  { intros s s' Hs Hs' Heq. apply (scanned_distinct s s' Hnd Hs Hs').
    apply (scanned_rung _ _ _ _ Hsc) in Hs as [_ Hs], Hs' as [_ Hs']. rewrite Heq in Hs. congruence. }
  destruct (scanned_rung _ _ _ _ Hsc Hin) as [Hrange _]. cbn in Hrange.
  destruct (rung_scanned seed LADDER_MAX_SCAN scanned (rung_index rung + 1) Hsc ltac:(lia)) as (next' & Hn' & Hni & Hnin).
  assert (next' = next) as -> by congruence.
  assert (∀ s, s ∈ scanned → s.2 = deriveNextKeyHash (rung_keyMultibase s.1)) as Hhash by (intros s Hs; by apply (derived_rungs _ _ _ Hsc)).
  assert (∀ s, s ∈ scanned → rung_keyMultibase s.1 ∈ pub_updateKeys published → rung_keyMultibase s.1 = rung_keyMultibase rung) as Hold.
  { intros s Hs HsA. assert (s.1 ∈ revealedRungs (pub_updateKeys published) scanned) as Hx
      by by apply list_elem_of_fmap_2, list_elem_of_filter.
    destruct st; destruct Hcases as [Hrev _]; rewrite Hrev in Hx; [by apply elem_of_nil in Hx|].
    by apply list_elem_of_singleton in Hx as ->. }
  assert (∀ s, s ∈ scanned → s.2 ∈ pub_nextKeyHashes published →
     rung_index s.1 = rung_index rung ∨ rung_index s.1 = (rung_index rung + 1)%Z) as Hnear.
  { destruct st; [|by apply Hstand]. intros s Hs HsC. left. destruct Hcases as [Hrev Hcom].
    assert (s.1 ∈ committedRungs (pub_updateKeys published) (pub_nextKeyHashes published) scanned) as Hx.
    { apply list_elem_of_fmap_2, list_elem_of_filter. split_and!; [|done..]. intros HsA.
      assert (s.1 ∈ revealedRungs (pub_updateKeys published) scanned) as Hx by by apply list_elem_of_fmap_2, list_elem_of_filter.
      rewrite Hrev in Hx. by apply elem_of_nil in Hx. }
    rewrite Hcom in Hx. by apply list_elem_of_singleton in Hx as ->. }
  set (A := js_dedup _). set (C := filter _ _).
  assert (∀ s, s ∈ scanned → rung_keyMultibase s.1 ∉ A) as HnoA.
  { intros s Hs. unfold A. rewrite elem_of_js_dedup, elem_of_app, list_elem_of_filter, list_elem_of_singleton, HA.
    intros [[Hne [HsA|?]]|He]; [by apply Hne, Hold|done|by destruct (Hnew s Hs)]. }
  assert (∀ s, s ∈ scanned → s.2 ∈ C ↔ s = (next, deriveNextKeyHash (rung_keyMultibase next))) as HinC.
  { intros s Hs. unfold C. rewrite list_elem_of_filter. split.
    - intros [Hne [HsC|HsC]%HC]; [..|done].
      + destruct (Hnear s Hs HsC) as [Hi|Hi]; [|apply Hidx; [done..|]; cbn; congruence].
        assert (s = (rung, hash)) as -> by (apply Hidx; [done..|]; exact Hi). cbn in Hne.
        destruct Hne. by apply (Hhash (rung, hash)).
      + unfold selfEnrollHashes in HsC. rewrite (Hhash s Hs), !elem_of_cons in HsC. destruct (Hnew s Hs) as [Hu Hst].
        destruct HsC as [Hx|[Hx|[Hx|[]%elem_of_nil]]]; apply (inj deriveNextKeyHash) in Hx; [done..|].
        by apply (scanned_distinct s _ Hnd Hs Hnin).
    - intros ->. cbn. assert (deriveNextKeyHash (rung_keyMultibase next) ≠ deriveNextKeyHash (rung_keyMultibase rung)) as Hne.
      { intros Hx%(inj deriveNextKeyHash). pose proof (scanned_distinct _ _ Hnd Hnin Hin Hx) as [= -> _]. lia. }
      split; [done|]. apply HC; [done|]. right. unfold selfEnrollHashes. right. right. left. }
  unfold attributeLadderRung. rewrite Hsc. cbn -[A C].
  assert (revealedRungs A scanned = []) as ->.
  { unfold revealedRungs. rewrite filter_none; [done|]. intros s Hs. by apply HnoA. }
  assert (committedRungs A C scanned = [next]) as ->; [|done].
  unfold committedRungs. rewrite (filter_only _ _ (next, deriveNextKeyHash (rung_keyMultibase next))); [done| |done|].
  - by apply (NoDup_fmap_1 (λ s, rung_keyMultibase s.1)).
  - intros s Hs. rewrite <- HinC by done. specialize (HnoA s Hs). tauto.
Qed.
End advance.

(** C13: a self-enrollment spends one rung of its ladder. From a head on which
    the ladder's rung is attributed, committed or already revealed, the two
    entries leave a log that differs from that head by the enrolled key and
    its two commitments in, the spent rung's key and hash out and the next
    rung's hash committed; every update key still has its own hash committed
    where it had, so the next entry is not refused; and the ladder is
    attributed to the next rung, unspent. A run resumed after the revealing
    entry, which publishes none, ends the same. *)
Theorem self_enrollment_spends_one_rung {W} {writer : WebvhWriter} {hashes : HashLibrary} {keys : WebvhKeys}
    `{!Inj (=) (=) deriveNextKeyHash} seed newClient published parts next fields verb (w w' : W) head scanned :
  deriveLadderRungs seed LADDER_MAX_SCAN = Ok scanned → NoDup ((λ s, rung_keyMultibase s.1) <$> scanned) →
  attributeParts (LogSigner (ladder seed)) published = Ok (Some parts) →
  ladderRung seed (rung_index (part_rung parts) + 1) = Ok next →
  (rung_index (part_rung parts) + 1 < Z.of_nat LADDER_MAX_SCAN)%Z →
  (∀ s, s ∈ scanned → rung_keyMultibase s.1 ≠ enroll_updateKey newClient ∧ rung_keyMultibase s.1 ≠ enroll_stagedKey newClient) →
  (part_state parts = revealed_rung → ∀ s, s ∈ scanned → s.2 ∈ pub_nextKeyHashes published →
     rung_index s.1 = rung_index (part_rung parts) ∨ rung_index s.1 = (rung_index (part_rung parts) + 1)%Z) →
  selfEnrollReveal seed newClient published parts w = (Ok fields, w') →
  match fields with
  | Some fields => ∃ signed, signedParameters (LogSigner (ladder seed)) (Some parts) published verb fields = Ok signed ∧
      head = (sp_updateKeys signed, sp_nextKeyHashes signed)
  | None => head = (pub_updateKeys published, pub_nextKeyHashes published)
  end →
  let A := selfEnrolledKeys newClient parts head.1 in
  let C := selfEnrolledHashes parts head.2 in
  let spent := rung_keyMultibase (part_rung parts) in
  attributeLadderRung seed A C LADDER_MAX_SCAN = Ok (next, committed_rung) ∧
  (∀ k, k ∈ A ↔ (k ∈ pub_updateKeys published ∧ k ≠ spent) ∨ k = enroll_updateKey newClient) ∧
  (∀ h, h ∈ C ↔ h ≠ deriveNextKeyHash spent ∧ (h ∈ pub_nextKeyHashes published ∨
     h ∈ [deriveNextKeyHash (enroll_updateKey newClient); deriveNextKeyHash (enroll_stagedKey newClient);
          deriveNextKeyHash (rung_keyMultibase next)])) ∧
  (carried (pub_updateKeys published) (pub_nextKeyHashes published) → carried A C).
Proof.
  intros Hsc Hnd Hp Hnext Hlt Hnew Hstand Hr Hhead A C spent.
  pose proof (reveal_head _ _ _ _ _ _ _ _ _ _ Hp Hnext Hr Hhead) as Hrev.
  assert (part_hash parts = deriveNextKeyHash spent) as Hspent by by eapply parts_of_attribution.
  assert (spent ≠ enroll_updateKey newClient) as Hne.
  { cbn [attributeParts] in Hp. apply result_bind_ok in Hp as ([rung st] & Ha & [= <-]).
    destruct (attribution_cases _ _ _ _ _ _ _ Hsc Ha) as [[hash Hin] _]. by destruct (Hnew _ Hin). }
  assert (∀ k, k ∈ A ↔ (k ∈ pub_updateKeys published ∧ k ≠ spent) ∨ k = enroll_updateKey newClient) as HA.
  { intros k. unfold A, selfEnrolledKeys. rewrite elem_of_js_dedup, elem_of_app, list_elem_of_filter, list_elem_of_singleton.
    rewrite (proj1 Hrev). fold spent. tauto. }
  assert (∀ h, h ∈ C ↔ h ≠ deriveNextKeyHash spent ∧ (h ∈ pub_nextKeyHashes published ∨ h ∈ selfEnrollHashes newClient next)) as HC.
  { intros h. unfold C, selfEnrolledHashes. rewrite list_elem_of_filter, Hspent. split; intros [Hn Hh]; (split; [done|]);
      by apply (proj2 Hrev h ltac:(by rewrite Hspent)). }
  split; [by eapply advanced_attribution|]. split_and!; [done|done|]. intros Hcar k [[Hk Hn]| ->]%HA; apply HC.
  - split; [by intros ?%(inj deriveNextKeyHash)|]. left. by apply Hcar.
  - split; [by intros ?%(inj deriveNextKeyHash)|]. right. left.
Qed.

(** ** A self-enrollment persists before it publishes *)

Section enroll.
Context {W : Type} {readers : DocumentReaders} {resolver : WebvhResolver} {writer : WebvhWriter}
  {hashes : HashLibrary} {keys : WebvhKeys} {twins : TwinLibrary}.
Variables (updateDID : UpdateDID) (logger : Logger W) (s : SelfEnrollment (W:=W)).
Variables (I : W → Prop) (K : PublishedWebvhLog → Prop) (P : BuiltOnHead → W → Prop).
Local Notation newClient := (sf_newClientKeys s).
Local Notation seed := (sf_ladderSeed s).

(** The entry that reveals the rung over a head: it commits the client's two
    keys and the next rung, and states nothing else. *)
Definition reveals (published : PublishedWebvhLog) (fields : AccountEntryFields) : Prop :=
  ∃ rung st next,
    attributeLadderRung seed (pub_updateKeys published) (pub_nextKeyHashes published) LADDER_MAX_SCAN = Ok (rung, st) ∧
    ladderRung seed (rung_index rung + 1) = Ok next ∧
    fields = mkEntryFields None None (Some (selfEnrollHashes newClient next)) None None.
Definition reveal_entry (published : PublishedWebvhLog) (updated : Updated) : Prop :=
  enroll_updateKey newClient ∉ pub_updateKeys published ∧
  ∃ fields, reveals published fields ∧ disciplined updateDID (LogSigner (ladder seed)) published fields updated.

(** The heads an adding entry is built on: one read from the store, or what
    the revealing entry left, with the rung attributed on the head before. *)
Definition standing_on (published : PublishedWebvhLog) (spent : LadderParts) : Prop :=
  ∃ read, K read ∧ enroll_updateKey newClient ∉ pub_updateKeys read ∧
    attributeParts (LogSigner (ladder seed)) read = Ok (Some spent) ∧
    (K published ∨ ∃ revealed etag, reveal_entry read revealed ∧
       published = accountEntryHead (mkEntryOutcome false read (Some spent) (Some revealed) etag)).

(** The adding entry over its head. *)
Definition adds (published : PublishedWebvhLog) (spent : LadderParts) (updated : Updated) : Prop :=
  standing_on published spent ∧
  ∃ methods relations signer,
    clientAdditionFields (pub_did published) (enroll_signingKey newClient) (enroll_keyAgreementKey newClient) = Ok (methods, relations) ∧
    updateKeySigner (updateSeed (sf_newClientUpdateSeeds s)) = Ok signer ∧
    updateDID (pub_log published) (pub_meta published) signer
      (Some (mergedFields (mergeVerificationMethods (pub_doc published) methods relations None))) None
      (selfEnrolledKeys newClient spent (pub_updateKeys published)) (selfEnrolledHashes spent (pub_nextKeyHashes published)) = Ok updated.

Definition enroll_returns (r : EnrolledOutcome) : Prop :=
  if enrolled_committed r then
    ∃ published spent updated, adds published spent updated ∧ r = mkEnrolled (upd_did updated) (upd_webDoc updated) true
  else ∃ published, K published ∧ enroll_updateKey newClient ∈ pub_updateKeys published ∧ r = mkEnrolled (pub_did published) None false.

(** The seam leaves the pending client persisted against the head it is
    handed, and an adding entry need only be accepted where it is. *)
Record self_enrollment_environment (onCommitted : BuiltOnHead → comp W ()) : Prop := {
  self_store : store_keeps I K (sf_store s);
  self_log event : keeps I (logger event);
  self_seam head : triple I (onCommitted head) (λ _ w, P head w ∧ I w) (λ _, I);
  self_reveal published updated : K published → reveal_entry published updated →
    keeps I (log_put (sf_store s) (upd_log updated) (pub_etag published));
  self_add published spent updated head : adds published spent updated → servedHead (pub_log published) = Ok head →
    triple (λ w, P head w ∧ I w) (log_put (sf_store s) (upd_log updated) (pub_etag published)) (λ _, I) (λ _, I)
}.
Context (onCommitted : BuiltOnHead → comp W ()) (env : self_enrollment_environment onCommitted).

Definition reveal_options : EntryOptions := ladderEntryOptions (selfEnrollRevealEntry s).

Definition enroll_answers (published : PublishedWebvhLog) (fields : option AccountEntryFields) : Prop :=
  match fields with Some fields => reveals published fields | None => True end.
Definition enroll_skip (published : PublishedWebvhLog) (skip : bool) : Prop :=
  if skip then enroll_updateKey newClient ∈ pub_updateKeys published else enroll_updateKey newClient ∉ pub_updateKeys published.

Lemma reveal_seam :
  triple I (signAccountEntry updateDID logger reveal_options)
    (seam_outcome updateDID I I K reveal_options enroll_answers enroll_skip (λ _ _ _, True)) (λ _ w, I w ∨ I w).
Proof.
  apply (seam_threads updateDID logger I (λ _, I) I).
  - done.
  - apply (self_store _ env).
  - done.
  - apply (keeps_pin_write _ _ _ (self_store _ env)).
  - apply (self_log _ env).
  - done.
  - done.
  - intros published _. apply triple_ret. intros w' Hw'. unfold enroll_skip. case_bool_decide; done.
  - intros ctx _ _ _ Hp _. cbn [opt_signer reveal_options ladderEntryOptions] in Hp.
    cbn [attributeParts selfEnrollRevealEntry le_ladderSeed] in Hp. apply result_bind_ok in Hp as ([rung st] & Ha & Hp). injection Hp as Hp.
    change (triple I (withParts (selfEnrollReveal seed newClient) ctx)
      (λ fields w, enroll_answers (ctx_published ctx) fields ∧ I w) (λ _ w, I w ∨ I w)).
    unfold withParts. rewrite <- Hp. unfold selfEnrollReveal. cbn [part_rung part_state].
    eapply (triple_bind _ _ _ (λ next w, ladderRung seed (rung_index rung + 1) = Ok next ∧ I w)).
    { apply triple_lift. intros w' Hw'. destruct (ladderRung _ _); [done|by left]. }
    intros next. apply triple_pure. intros Hn. case_decide; apply triple_ret; intros w' Hw'; [done|].
    split; [|done]. by exists rung, st, next.
  - intros published fields updated Hk Hn Ha Hd.
    eapply triple_conseq; [apply (self_reveal _ env published updated Hk); split; [exact Hn|by exists fields]|done|by intros|done].
Qed.

Lemma revealing_stage :
  triple I (ladderSignedAccountEntry updateDID logger (selfEnrollRevealEntry s))
    (λ outcome w, (K (out_published outcome) ∧
       if skipped outcome then enroll_updateKey newClient ∈ pub_updateKeys (out_published outcome)
       else enroll_updateKey newClient ∉ pub_updateKeys (out_published outcome) ∧
         attributeParts (LogSigner (ladder seed)) (out_published outcome) = Ok (out_parts outcome) ∧
         match out_updated outcome with Some updated => reveal_entry (out_published outcome) updated | None => True end) ∧ I w)
    (λ _, I).
Proof.
  intros w Hw. pose proof (reveal_seam w Hw) as Ht. unfold ladderSignedAccountEntry.
  pose proof (sign_parts updateDID logger reveal_options w) as Hparts.
  change (ladderEntryOptions (selfEnrollRevealEntry s)) with reveal_options.
  destruct (signAccountEntry _ _ _ w) as [[outcome|err] w']; [|tauto].
  destruct Ht as (Hk & _ & Hs & Ho). specialize (Hparts _ _ eq_refl). unfold enroll_skip in Hs.
  destruct (out_updated outcome) as [updated|].
  - destruct Ho as (Hsk & Hi & _ & fields & Ha & Hd). rewrite Hsk in *. split; [|done]. split; [done|].
    split_and!; [done|by apply Hparts|split; [done|by exists fields]].
  - split; [|by destruct Ho as [[_ ?]|(_ & _ & ?)]]. split; [done|].
    destruct (skipped outcome); [done|]. split_and!; [done|by apply Hparts|done].
Qed.

Lemma head_read outcome :
  K (out_published outcome) →
  triple I (headWithValidator (sf_store s) outcome)
    (λ published w, (K published ∨ published = accountEntryHead outcome) ∧ I w) (λ _, I).
Proof.
  intros Hk. unfold headWithValidator. destruct (pub_etag (accountEntryHead outcome)).
  - apply triple_ret. intros w Hw. split; [by right|done].
  - eapply triple_conseq; [apply readOrThrow_keeps, (self_store _ env)|done| |done].
    intros published w [? ?]. split; [by left|done].
Qed.

Lemma added_answer published spent :
  standing_on published spent → ∀ w, I w →
  match addSelfEnrolled updateDID newClient (sf_newClientUpdateSeeds s) spent published with
  | Ok updated => adds published spent updated
  | Throw _ => True
  end.
Proof.
  intros Hst w _. destruct (addSelfEnrolled _ _ _ _ _) as [updated|] eqn:Ha; [|done]. unfold addSelfEnrolled in Ha.
  apply result_bind_ok in Ha as ([methods relations] & Hm & (signer & Hsg & Hu)%result_bind_ok).
  split; [done|]. by exists methods, relations, signer.
Qed.

Lemma self_enroll_once :
  triple I (selfEnrollWebvhClientOnce updateDID logger s onCommitted) (λ r w, enroll_returns r ∧ I w) (λ _, I).
Proof.
  unfold selfEnrollWebvhClientOnce. eapply triple_bind; [apply revealing_stage|]. intros outcome. apply triple_pure. intros [Hk Ho].
  destruct (skipped outcome) eqn:Hskip.
  { apply triple_ret. intros w Hw. split; [|done]. cbn. by exists (out_published outcome). }
  destruct Ho as (Hnew & Hparts & Hup). eapply triple_bind; [by apply head_read|].
  intros published. apply triple_pure. intros Hpub.
  eapply (triple_bind _ _ _ (λ head w, servedHead (pub_log published) = Ok head ∧ I w)).
  { apply triple_lift. intros w Hw. by destruct (servedHead _). }
  intros head. apply triple_pure. intros Hhead. eapply triple_bind; [apply (self_seam _ env)|]. intros u.
  destruct (out_parts outcome) as [spent|] eqn:Hsp.
  2:{ cbn [attributeParts] in Hparts. by apply result_bind_ok in Hparts as ([rung st] & _ & Hno). }
  eapply (triple_bind _ _ _ (λ parts w, parts = spent ∧ P head w ∧ I w)); [by apply triple_lift|].
  intros parts. apply triple_pure. intros ->.
  assert (standing_on published spent) as Hst.
  { exists (out_published outcome). split_and!; [done..|]. destruct Hpub as [Hpub| ->]; [by left|].
    destruct outcome as [sk read ps [updated|] etag]; cbn in *; [|by left]. subst. right. by exists updated, etag. }
  eapply (triple_bind _ _ _ (λ updated w, adds published spent updated ∧ P head w ∧ I w)).
  { apply triple_lift. intros w [HP Hw]. pose proof (added_answer published spent Hst w Hw) as Ha.
    destruct (addSelfEnrolled _ _ _ _ _); [done|exact Hw]. }
  intros updated. apply triple_pure. intros Ha.
  eapply (triple_bind _ _ _ (λ _, I)).
  { unfold publishEntryPinned, putLogResource.
    eapply triple_bind; [eapply triple_try; [by apply (self_add _ env published spent updated head)|]|].
    { intros err. by apply triple_throw. }
    intros written. eapply (triple_bind _ _ _ (λ _, I)); [apply keeps_lift|]. intros pin.
    eapply (triple_bind _ _ _ (λ _, I)); [apply (keeps_pin_write _ _ _ (self_store _ env))|]. intros ?. by apply triple_ret. }
  intros ?. apply triple_ret. intros w Hw. split; [|done]. cbn. by exists published, spent, updated.
Qed.
End enroll.

(** C12: a self-enrollment persists before it publishes. Whatever its store
    answers and however often it loses the race, the first entry it puts only
    reveals the rung attributed on the head it read and commits the client's
    two keys and the next rung; the second is put only where the seam has
    returned for the very head it is built on, publishes the client's two
    methods and its key and takes out the spent rung alone, which was
    attributed on a head that did not authorize the client. It returns only
    what that entry made, or a head that authorizes the client; without a seam
    or with a pair that is not canonical it does nothing. *)
Theorem self_enrollment_persists_first {W} {readers : DocumentReaders} {resolver : WebvhResolver} {writer : WebvhWriter}
    {hashes : HashLibrary} {keys : WebvhKeys} {twins : TwinLibrary} (updateDID : UpdateDID) (logger : Logger W)
    (s : SelfEnrollment (W:=W)) (I : W → Prop) (K : PublishedWebvhLog → Prop) (P : BuiltOnHead → W → Prop) w :
  (∀ onCommitted, sf_onCommitted s = Some onCommitted → self_enrollment_environment updateDID logger s I K P onCommitted) → I w →
  match selfEnrollWebvhClient updateDID logger s w with
  | (Ok r, w') => enroll_returns updateDID s K r ∧ I w' ∧
      keyAgreementTwinMultibase (enroll_signingKey (sf_newClientKeys s)) = Ok (enroll_keyAgreementKey (sf_newClientKeys s))
  | (Throw _, w') => I w' ∧ (sf_onCommitted s = None → w' = w)
  end.
Proof.
  intros env Hi. unfold selfEnrollWebvhClient. destruct (sf_onCommitted s) as [onCommitted|]; [|done].
  specialize (env _ eq_refl). rewrite (comp_bind_ok (mret onCommitted) _ w onCommitted w) by done.
  unfold assertCanonicalClientKeys. destruct (keyAgreementTwinMultibase _) as [twin|err]; [|done].
  pose proof (retry_keeps I _ _ 3 (self_enroll_once updateDID logger s I K P onCommitted env) w Hi) as Hr.
  unfold withLogConflictRetry, mbind, comp_bind. cbn [mbind result_bind lift].
  destruct (decide (enroll_keyAgreementKey (sf_newClientKeys s) = twin)) as [<-|Hne]; [|done].
  cbn -[retryAttempts]. destruct (retryAttempts 3 _ w) as [[r|err] w']; [|done]. by destruct Hr.
Qed.
