(* ===== verification/LadderSafetyDemo.v ===== *)
(** * A concrete ladder at work

    The account of two clients and a passkey with a rung of ladder [L]
    committed: a third client enrolled under the ladder through a store that
    loses a race, and the second client forgotten, its wrap first. *)

From S2P Require Import Prelude Json JsText CeremonyEvents AccountDocument LadderRungs ResourceController LadderDemo AccountLog LogStore KeyRotation LadderIndex LadderInventory ClientListing ClientRevocation AccountEntry ClientDemo EntryDiscipline EntryDemo Descriptors UserKeyRoster RosterConvergence UserKeyCascade RosterCascade EpochLibraryDemo StandingCredential CredentialRetirement LadderCeremonies LadderSafety.

Module LadderSafetyDemo.
Import ClientDemo EpochLibraryDemo.
#[local] Existing Instance EpochLibraryDemo.keys.
#[local] Existing Instance EntryDemo.twins.
#[export] Instance shape : ThrownShape := plain_shape.

(** ** The logs *)

Definition before_doc : AccountDocument := account_doc ["c1"; "c2"] [passkey].
Definition log0 : DIDLog := log ++ [step "5" "u" ["u"; "p"] ["#u"; "#s"; "#r0"; "#p"; "#q"; "#L/rung/0"] before_doc].
Definition document_of (fields : DocumentFields) : AccountDocument :=
  mkDocument did (Some (fields_methods fields)) (λ relation, Some (Reference <$> fields_relation fields relation)) None.
Definition extended (log : DIDLog) (signer : string) (fields : option DocumentFields) (A C : list string) : DIDLog :=
  log ++ [step "next" signer A C (from_option document_of before_doc fields)].

(** The logs the store knows, by the parameters of their heads. *)
Definition stated (A C : list string) : DIDLog := extended log0 "" None A C.
Definition known : list (string * DIDLog) := [
  ("0", log0);
  ("1", stated ["u"; "p"; "L/rung/0"] ["#u"; "#s"; "#r0"; "#p"; "#q"; "#L/rung/0"; "#n"; "#m"; "#L/rung/1"]);
  ("2", stated ["u"; "p"; "n"] ["#u"; "#s"; "#r0"; "#p"; "#q"; "#n"; "#m"; "#L/rung/1"]);
  ("3", stated ["u"; "L/rung/0"] ["#u"; "#s"; "#r0"; "#L/rung/0"])
].
Definition text_of (log : DIDLog) : string :=
  from_option (λ p, p.2.1) "other" (list_find (λ p : string * DIDLog, currentLogParameters p.2 = currentLogParameters log) known).
Definition log_of (text : string) : option DIDLog :=
  (λ p, p.2.2) <$> list_find (λ p : string * DIDLog, p.1 = text) known.

#[export] Instance store_writer : WebvhWriter := {|
  WebDoc := ();
  Signer := string;
  logToJsonlString := text_of;
  generateParallelDidWeb _ _ := ();
  updateKeyMultibase seed := Ok seed;
  updateKeySigner seed := Ok seed
|}.
#[export] Instance resolver : WebvhResolver := {|
  readLogFromString text := match log_of text with Some log => Ok log | None => Throw (plain_error "unreadable") end;
  resolveDIDFromLog log :=
    Ok (mkResolution (Some did) (last log ≫= state)
      (mkMeta None (Some (currentLogParameters log).1) (Some (currentLogParameters log).2)))
|}.
Definition updateDID : UpdateDID := λ log _ signer fields _ A C,
  let log := extended log signer fields A C in
  Ok (mkUpdated did (from_option document_of before_doc fields) log (mkMeta None (Some A) (Some C)) (Some tt)).

(** ** The world *)

Record world := mkWorld {
  served : string;
  races : nat;
  local : option ClientRemovalTarget;
  events_state : EmitterState;
  pending : list BuiltOnHead;
  descriptors : gmap (option string) DescriptorStoreRead
}.
#[export] Instance local_cell : Cell world (option ClientRemovalTarget) :=
  {| get_cell := local; set_cell v w := mkWorld (served w) (races w) v (events_state w) (pending w) (descriptors w) |}.
#[export] Instance local_laws : CellLaws world (option ClientRemovalTarget).
Proof. by intros w s. Qed.
#[export] Instance events_cell : Cell world EmitterState :=
  {| get_cell := events_state; set_cell v w := mkWorld (served w) (races w) (local w) v (pending w) (descriptors w) |}.
Definition serving (text : string) (races : nat) (w : world) : world :=
  mkWorld text races (local w) (events_state w) (pending w) (descriptors w).

Definition put (write : PutIdResource) : comp world (option (option string)) := λ w,
  match put_content write with
  | WebDocument _ => (Ok None, w)
  | LogText text =>
      if decide (races w ≠ 0) then (Throw (JsError "PreconditionFailedError" ""), serving (served w) (pred (races w)) w)
      else if decide (put_ifMatch write ≠ Some (served w)) then (Throw (JsError "PreconditionFailedError" ""), w)
      else if decide (log_of text = None) then (Throw (plain_error "refused"), w)
      else (Ok (Some (Some text)), serving text (races w) w)
  end.
Definition idStore : WebvhIdStore world :=
  mkIdStore (λ _ w, (Ok (Some (served w, Some (served w))), w)) put (mkPinStore (λ _, mret None) (λ _ _, mret ())) "id".
Definition silent : Logger world := λ _, mret ().
Definition params_of (text : string) : list string * list string := from_option currentLogParameters ([], []) (log_of text).

Lemma served_params log : log_of (text_of log) ≠ None → params_of (text_of log) = currentLogParameters log.
Proof.
  unfold params_of, text_of. destruct (list_find _ known) as [[i [name l]]|] eqn:Hf; [|by intros []].
  apply list_find_Some in Hf as (Hi & Heq & _). cbn in Heq |- *. intros _. rewrite <- Heq.
  unfold known in Hi. repeat (destruct i as [|i]; [injection Hi as <- <-; reflexivity|cbn in Hi]). done.
Qed.

Lemma logged_params log signer fields A C : currentLogParameters (extended log signer fields A C) = (A, C).
Proof. unfold currentLogParameters, effectiveParameters, extended. by rewrite (Demo.effective_last _ _ _ _ A C). Qed.

(** ** A third client enrolled under the ladder *)

Definition persist (head : BuiltOnHead) : comp world () :=
  modify (λ w, mkWorld (served w) (races w) (local w) (events_state w) (head :: pending w) (descriptors w)).
Definition newClient : WebvhEnrollmentKeys := mkEnrollment "c3" "xc3" "n" "m".
Definition enrollment : SelfEnrollment (W:=world) :=
  mkSelfEnrollment idStore "L" newClient (mkUpdateKeys "n" "m" None) (Some persist) None None.
Definition start (races : nat) : world := mkWorld "0" races None fresh_emitter [] ∅.
Local Notation enrolling := (selfEnrollWebvhClient updateDID silent enrollment).

(** A served log that authorizes the client was put with the client
    pending. *)
Definition pending_first (w : world) : Prop := "n" ∈ (params_of (served w)).1 → pending w ≠ [].
Definition stated_head (published : PublishedWebvhLog) : Prop :=
  currentLogParameters (pub_log published) = (pub_updateKeys published, pub_nextKeyHashes published).

Lemma put_pending log etag (Q : world → Prop) :
  (∀ w races, Q w → Q (serving (served w) races w)) → (∀ w, Q w → pending_first w) →
  (∀ w A C, Q w → currentLogParameters log = (A, C) → "n" ∈ A → pending w ≠ []) →
  triple Q (log_put idStore log etag) (λ _, pending_first) (λ _, pending_first).
Proof.
  intros Hr HQ HA w Hw. unfold log_put, idStore, putIdResource, put. cbn -[log_of text_of].
  case_decide; [by apply HQ, Hr|]. case_decide; [by apply HQ|]. case_decide as Hlt; [by apply HQ|].
  unfold pending_first. cbn [serving served pending]. rewrite (served_params _ Hlt).
  destruct (currentLogParameters log) as [A C] eqn:Hp. by apply (HA w A C).
Qed.

Definition scanned : list (LadderRung * string) :=
  match deriveLadderRungs "L" LADDER_MAX_SCAN with Ok scanned => scanned | Throw _ => [] end.
Lemma scanned_derived : deriveLadderRungs "L" LADDER_MAX_SCAN = Ok scanned.
Proof. by vm_compute. Qed.
Lemma rungs_fresh : Forall (λ s : LadderRung * string, rung_keyMultibase s.1 ≠ "n" ∧ rung_keyMultibase s.1 ≠ "m") scanned.
Proof. apply (bool_decide_eq_true_1 _). by vm_compute. Qed.

Lemma attributed_fresh A C rung st : attributeLadderRung "L" A C LADDER_MAX_SCAN = Ok (rung, st) → rung_keyMultibase rung ≠ "n".
Proof.
  intros Ha. destruct (attribution_cases _ _ _ _ _ _ _ scanned_derived Ha) as [[hash Hin] _].
  pose proof rungs_fresh as Hf. rewrite Forall_forall in Hf. by destruct (Hf _ Hin).
Qed.

Lemma enrolling_environment :
  self_enrollment_environment updateDID silent enrollment pending_first stated_head (λ head w, head ∈ pending w) persist.
Proof.
  constructor.
  - constructor; [|by intros ? w|by intros ? ? w]. intros w Hw. cbn. split; [|done]. intros text etag log published [= <- <-] Hlog Hr.
    unfold resolvedHead in Hr. cbn -[currentLogParameters] in Hr. destruct (last log ≫= state); [|done].
    injection Hr as <-. unfold stated_head. cbn -[currentLogParameters]. by destruct (currentLogParameters log).
  - by intros event w.
  - intros head w Hw. cbn. split; [left|]. by intros _.
  - intros published updated _ (Hn & fields & (rung & st & next & _ & _ & ->) & _ & key & s & A & C & [_ [(r & st' & Ha & ->) _]] & [HA _] & Hu).
    injection Hu as <-. apply put_pending; [done|done|]. cbn [upd_log]. rewrite logged_params. intros w A' C' Hw [= <- <-] Hin.
    exfalso. apply HA in Hin as [Hin|Hin%list_elem_of_singleton]; [by apply Hn|]. by apply (attributed_fresh _ _ _ _ Ha).
  - intros published spent updated head _ _. eapply (put_pending _ _ (λ w, head ∈ pending w ∧ pending_first w)); [done|by intros w [_ ?]|].
    intros w A C [Hin _] _ _ Hn. rewrite Hn in Hin. by apply elem_of_nil in Hin.
Qed.

Lemma self_enrollment_persists_first_witness :
  match enrolling (start 1) with
  | (Ok r, w) => enroll_returns updateDID enrollment stated_head r ∧ enrolled_committed r = true ∧ served w = "2" ∧ pending w ≠ []
  | _ => False
  end.
Proof.
  pose proof (self_enrollment_persists_first updateDID silent enrollment pending_first stated_head (λ head w, head ∈ pending w) (start 1)
    ltac:(intros onCommitted [= <-]; exact enrolling_environment)
    ltac:(intros Hin; exfalso; revert Hin; apply (bool_decide_eq_true_1 _); by vm_compute)) as H.
  assert (match enrolling (start 1) with (Ok r, w) => (enrolled_committed r, served w) | _ => (false, "") end = (true, "2"))
    as Hrun by (vm_compute; reflexivity).
  destruct (enrolling (start 1)) as [[r|e] w]; [|done]. destruct H as (Hr & Hi & _). injection Hrun as Hc Hs.
  split_and!; [done..|]. apply Hi. rewrite Hs. apply (bool_decide_eq_true_1 _). by vm_compute.
Defined.

(** ** The rung it spends *)

Definition head : PublishedWebvhLog :=
  mkPublished log0 did before_doc ["u"; "p"] ["#u"; "#s"; "#r0"; "#p"; "#q"; "#L/rung/0"] (mkMeta None None None) None.
Definition rung (index : Z) (key : string) : LadderRung := mkRung index key key.
Definition committed : AccountEntryFields := mkEntryFields None None (Some ["#n"; "#m"; "#L/rung/1"]) None None.

Lemma self_enrollment_spends_one_rung_witness :
  attributeLadderRung "L" ["u"; "p"; "n"] ["#u"; "#s"; "#r0"; "#p"; "#q"; "#n"; "#m"; "#L/rung/1"] LADDER_MAX_SCAN =
    Ok (rung 1 "L/rung/1", committed_rung).
Proof.
  refine (proj1 (self_enrollment_spends_one_rung "L" newClient head (mkParts (rung 0 "L/rung/0") "#L/rung/0" committed_rung)
    (rung 1 "L/rung/1") (Some committed) "enrolling" (start 0) (start 0)
    (["u"; "p"; "L/rung/0"], ["#u"; "#s"; "#r0"; "#p"; "#q"; "#L/rung/0"; "#n"; "#m"; "#L/rung/1"]) scanned
    scanned_derived _ _ _ _ _ _ _ _)).
  - apply (bool_decide_eq_true_1 _). by vm_compute.
  - by vm_compute.
  - by vm_compute.
  - done.
  - intros s Hs. pose proof rungs_fresh as Hf. rewrite Forall_forall in Hf. by apply Hf.
  - done.
  - by vm_compute.
  - eexists. split; [by vm_compute|done].
Defined.

(** ** The second client forgotten *)

Definition client (name : string) : string := rosterRecipientKid name ("x" ++ name).
Definition passkey_kid : string := "did:key:ps#pk".
Definition credential_key : KeyAgreementKey := mkKeyAgreement passkey_kid "".
Definition roster : CollectionEncryption := mkDescriptor (Some "did:key:uk0")
  (Some [mkEpoch "did:key:uk0" (wrap_of "did:key:uk0" <$> [client "c1"; client "c2"; passkey_kid])]).
Definition docs : CollectionEncryption := mkDescriptor (Some "e0")
  (Some [mkEpoch "e0" [wrap_of "e0" (epochKeyIdFor "did:key:uk0"); wrap_of "e0" "did:key:app#app"]]).
Definition account : world := mkWorld "0" 1 None fresh_emitter []
  {[None := mkRead roster (Some "1"); Some "docs" := mkRead docs (Some "1")]}.

Definition held (w : world) (k : option string) : option DescriptorStoreRead := descriptors w !! k.
Definition next_etag (etag : option string) : option string := Some ("v" ++ default "" etag)%string.
Definition store_at (k : option string) : EncryptionDescriptorStore world :=
  mkDescriptorStore
    (λ w, (Ok (descriptors w !! k), w))
    (λ next etag w,
       if decide (etag = (descriptors w !! k) ≫= read_etag) then
         (Ok (), mkWorld (served w) (races w) (local w) (events_state w) (pending w) (<[k := mkRead next (next_etag etag)]> (descriptors w)))
       else (Throw (JsError PRECONDITION_FAILED_ERROR_NAME ""), w))
    None (Some (mret false)) (Some (λ _, mret ())).

#[export] Instance store_quiet k : QuietStore held k (store_at k).
Proof.
  split; [intros w; by exists w|]. intros w next etag. cbn. case_decide; [|done]. unfold held. cbn. split.
  - intros k' Hne. by rewrite lookup_insert_ne.
  - eexists. by rewrite lookup_insert_eq.
Qed.
#[export] Instance store_seals k : QuietSeal held (store_at k).
Proof. by intros seal setMinimum [= <- <-]. Qed.

Definition collections : CascadeCollections world :=
  mkCollections (GivenIds ["docs"]) (λ id, store_at (Some id)) (Some (λ _, mret true)).
Definition forgetting : ForgetOptions (W:=world) :=
  mkForgetOptions (mkForgetEntry idStore None "L" (mkRevoked "c2" "p") [] None) "xc2" (store_at None) credential_key None
    (Some "did:key:uk0") None collections.
Definition forget_run : CeremonyRun := mkRun "forget-client" "r" FORGET_CLIENT_REFUSALS [].
Local Notation outcome := (forgetEnrolledClientCore updateDID silent forget_run forgetting account).

Lemma forgetting_account :
  QuietAccount held None Some (fg_rosterStore forgetting) (fg_onUserKeyAdopted forgetting) (fg_collections forgetting).
Proof.
  split; cbn; try by intros.
  - apply store_quiet.
  - apply store_seals.
  - intros id. apply store_quiet.
  - intros id. apply store_seals.
  - apply _.
  - intros f id [= <-]. apply still_ret.
  - intros w ids [= <-]. split; [apply NoDup_singleton|]. by rewrite list_elem_of_singleton.
Qed.

Lemma forgetting_seams : forget_still held silent forgetting.
Proof.
  split; try done. split; try done. intros write w k. cbn -[log_of put]. unfold put. destruct (put_content write); [|done].
  by repeat (match goal with |- context [if ?b then _ else _] => destruct b end; [done|]).
Qed.

End LadderSafetyDemo.
