(* ===== verification/LastClient.v ===== *)
(** * Forgetting the last client

    [src/src/clientAnnex/forgetLast.ts]: the transition of an account to its
    ladder alone, and [ladderVmZcapClient] of [src/src/clientAnnex/zcap.ts].
    The revocations a stage sends together are run in their order. *)

From Stdlib Require QArith_base.
From S2P Require Import Prelude Json JsText ConnEntry CeremonyEvents AccountDocument LadderRungs ResourceController AccountLog LogStore KeyRotation LadderIndex LadderInventory ClientListing ClientRevocation AccountEntry Descriptors UserKeyRoster UserKeyCascade RosterCascade AnnexDocument AnnexLog AnnexGenesis LadderCeremonies.

Inductive GenerationSkip := no_pointer | log_unreadable | rung_uncommitted | already_removed.
#[export] Instance GenerationSkip_eq_dec : EqDecision GenerationSkip.
Proof. solve_decision. Defined.

Definition generationSkipName (skip : GenerationSkip) : string :=
  match skip with
  | no_pointer => "no-pointer"
  | log_unreadable => "log-unreadable"
  | rung_uncommitted => "rung-uncommitted"
  | already_removed => "already-removed"
  end.

Record GenerationDelegationRetirement := mkGeneration {
  gen_revoked : list string;
  gen_replaced : bool;
  gen_skipped : option GenerationSkip
}.

Record LastEnrolledClientForgetResult := mkLastForgotten {
  lf_reinstalled : bool;
  lf_rotated : bool;
  lf_collections : UserKeyCascadeResult;
  lf_generation : GenerationDelegationRetirement;
  lf_did : string;
  lf_document : AccountDocument;
  lf_userKey : option UserKey;
  lf_rosterDescriptor : option CollectionEncryption
}.

Definition LAST_CLIENT_TRANSITION_EVENT_STAGES : list string :=
  ["ladder-vm-reinstall"; "roster-rotation"; "collection-epochs"; "generation-delegations"; "record-rebind"; "removal-entry"].

Definition lastClientTransitionOutcome (result : LastEnrolledClientForgetResult) : MendOutcomeKind :=
  let skipped := gen_skipped (lf_generation result) in
  if decide (skipped = Some already_removed) then noop
  else if decide (cascade_failed (lf_collections result) ≠ [] ∨ skipped = Some log_unreadable ∨ skipped = Some rung_uncommitted)
  then partial else clean.

Section transition.
Context {W : Type} {readers : DocumentReaders} {resolver : WebvhResolver} {writer : WebvhWriter}
  {hashes : HashLibrary} {keys : WebvhKeys} {twins : TwinLibrary} {host : JsHost} {signers : SignerReaders}
  {annex_host : AnnexHost W} {commitments : CommitmentLibrary} {library : EpochLibrary} {shape : ThrownShape}.
Context `{!Cell W (option ClientRemovalTarget)} {emitter : Cell W EmitterState}.
Variables (updateDID : UpdateDID) (logger : Logger W).

(** The storage client of a signer, of its id and its key's seed. *)
Variable zcapClientForSigner : string → string → Delegator W.

Definition ladderVmZcapClient (accountDid ladderSeed : string) : result (Delegator W) :=
  publicKeyMultibase ← ladderVmKeyMultibase ladderSeed;
  Ok (zcapClientForSigner (vm_id accountDid publicKeyMultibase) (ladderVmSeed ladderSeed)).

Record AnnexReach := mkReach {
  rc_storeFor : ClientAnnexDidParts → WebvhIdStore W;
  rc_revoke : json → comp W ();
  rc_baseServerUrl : string;
  rc_accountSpaceId : string
}.

(** ** The generation stage *)

Definition zcap_id (zcap : json) : option string := as_string (member "id" zcap).

(** The delegations of a history that the ladder VM signed. *)
Definition doomedDelegations (ladderVmKey : string) (history : list json) : list json :=
  filter (λ delegation, delegationProofKeyId delegation ≫= vmFragmentOf = Some ladderVmKey) history.

(** A history lists no delegation without a text id. *)
Definition isEmbedded (embedded : option json) (delegation : json) : bool :=
  bool_decide (is_Some (embedded ≫= zcap_id) ∧ zcap_id delegation = embedded ≫= zcap_id).

(** The settled revocations: the ids taken off the account, and the first
    rejection. *)
Definition settleRevocations (settled : list (json * result RevokeGenerationDelegationOutcome)) : list string * option js_error :=
  (omap (λ s, match s.2 with Ok revoked | Ok already_revoked => zcap_id s.1 | _ => None end) settled,
   head (omap (λ s, match s.2 with Throw err => Some err | Ok _ => None end) settled)).

Definition revokeDoomed (annex : AnnexReach) (doc : AccountDocument) (now : Z) (delegations : list json) : comp W (list string) :=
  settled ← promise_all (λ delegation,
    try_catch (outcome ← revokeTreatingAlreadyRevokedAsSuccess (rc_revoke annex) delegation now doc; mret (delegation, Ok outcome))
      (λ err, mret (delegation, Throw err))) delegations;
  match (settleRevocations settled).2 with
  | Some err => mthrow err
  | None => mret (settleRevocations settled).1
  end.

Definition replacement (annex : AnnexReach) (store : WebvhIdStore W) (ladderSeed pointedDid : string) (doc : AccountDocument)
    (ladderClient : Delegator W) (retiring : list string) (now : Z) : RenewOptions (W:=W) :=
  mkRenew store ladderSeed
    (λ clientAnnexDid, mintGenerationDelegation ladderClient (rc_baseServerUrl annex) (rc_accountSpaceId annex) clientAnnexDid now)
    (Some pointedDid) (Some doc) retiring None now.

(** Whether the replacement was written, or its rung is not committed. *)
Definition ensureReplaced (renewal : RenewOptions (W:=W)) : comp W (bool * bool) :=
  try_catch (ensured ← ensureGenerationDelegationCurrent updateDID renewal None; mret (ens_renewed ensured, false))
    (λ err, if decide (err_name err = "ClientAnnexRungUncommittedError") then mret (false, true) else mthrow err).

Definition retireLadderGenerationDelegations (doc : AccountDocument) (accountDid ladderSeed retiringSigningKeyMultibase : string)
    (annex : AnnexReach) (now : Z) : comp W GenerationDelegationRetirement :=
  match delegatedClientsPointer doc with
  | None => mret (mkGeneration [] false (Some no_pointer))
  | Some pointedDid =>
      parts ← lift (clientAnnexDidParts pointedDid);
      let store := rc_storeFor annex parts in
      published ← readClientAnnexLogOrAbsent store (Some pointedDid);
      match published with
      | None => mret (mkGeneration [] false (Some log_unreadable))
      | Some published =>
          ladderVmKey ← lift (ladderVmKeyMultibase ladderSeed);
          history ← lift (generationDelegationHistory (pub_log published));
          let doomed := doomedDelegations ladderVmKey history in
          let embedded := isEmbedded (embeddedGenerationDelegation (pub_doc published)) in
          historical ← revokeDoomed annex doc now (filter (λ delegation, embedded delegation = false) doomed);
          ladderClient ← lift (ladderVmZcapClient accountDid ladderSeed);
          '(replaced, uncommitted) ← ensureReplaced (replacement annex store ladderSeed pointedDid doc ladderClient
            [ladderVmKey; retiringSigningKeyMultibase] now);
          current ← revokeDoomed annex doc now (filter (λ delegation, embedded delegation = true) doomed);
          mret (mkGeneration (historical ++ current) replaced (if uncommitted : bool then Some rung_uncommitted else None))
      end
  end.

(** ** The removal entry *)

Definition ladderNotInstalled : js_error :=
  plain_error "did:webvh: the ladder VM is not installed in the document; the last-client removal entry would strand the account (the install entry runs first).".

Definition assertLadderAnchorStands (ladderSeed : string) (published : PublishedWebvhLog) : comp W () :=
  ladderVmKey ← lift (ladderVmKeyMultibase ladderSeed);
  if decide (vm_id (pub_did published) ladderVmKey ∈ ladderVmIds (pub_doc published)) then mret () else mthrow ladderNotInstalled.

Definition forgetLastWebvhClient (e : ForgetEntry (W:=W)) : comp W SettledEntry :=
  withLogConflictRetry (clientForgetEntryOnce updateDID logger e (λ published _, assertLadderAnchorStands (fo_ladderSeed e) published)).

(** ** The transition *)

Record Rebind := mkRebind { rb_did : string; rb_doc : AccountDocument; rb_log : DIDLog }.

Record LastForgetOptions := mkLastForgetOptions {
  lo_logStore : WebvhIdStore W;
  lo_clientLogStore : option (WebvhIdStore W);
  lo_ladderSeed : string;
  lo_forgottenClient : RevokedClientKeys;
  lo_forgottenKeyAgreementKey : string;
  lo_knownLatentHashes : list string;
  lo_expectedDid : string;
  lo_rosterStore : EncryptionDescriptorStore W;
  lo_credentialKeyAgreementKey : KeyAgreementKey;
  lo_userKey : option UserKey;
  lo_pinnedEpochId : option string;
  lo_onUserKeyAdopted : option (AdoptedUserKey → comp W ());
  lo_collections : CascadeCollections W;
  lo_annex : AnnexReach;
  lo_onBeforeRemoval : option (Rebind → comp W ());
  lo_now : Z
}.

Definition required (message : string) : js_error := JsError "TypeError" message.
Definition onBeforeRemovalRequired : js_error := required "forgetLastEnrolledClient requires onBeforeRemoval: the login credential's record is re-bound only through that seam".
Definition clientLogStoreRequired : js_error := required "forgetLastEnrolledClient requires clientLogStore: the ladder VM strike and reinstall publish under the enrolled client's root authority".
Definition sealableRosterRequired : js_error := required "forgetLastEnrolledClient requires a log-governed rosterStore: the ladder-signed rotation is anchored at the reinstall version through setMinimumControllerVersion".
Definition anotherClientRemains : js_error := plain_error "did:webvh: another enrolled client remains; the last-client transition ceremony does not apply -- run the ordinary forget.".

Definition lastForgottenKid (o : LastForgetOptions) : string :=
  rosterRecipientKid (revoked_signingKey (lo_forgottenClient o)) (lo_forgottenKeyAgreementKey o).

Definition removalEntry (o : LastForgetOptions) (clientLogStore : WebvhIdStore W) : ForgetEntry (W:=W) :=
  mkForgetEntry (lo_logStore o) (Some clientLogStore) (lo_ladderSeed o) (lo_forgottenClient o) (lo_knownLatentHashes o)
    (Some (lo_expectedDid o)).

(** Whether the roster still wraps the client, read before any entry. *)
Definition rosterStillWraps (o : LastForgetOptions) (before : PublishedWebvhLog) : comp W bool :=
  anchorRosterStoreAt (lo_rosterStore o) (pub_did before) (pub_log before);;
  current ← store_read (lo_rosterStore o);
  match current with
  | Some current => lift (rosterWrapsRecipient (read_descriptor current) (lastForgottenKid o))
  | None => mret false
  end.

(** The strike and the reinstall, and the head the later stages stand on. *)
Definition reinstallLadderVm (o : LastForgetOptions) (clientLogStore : WebvhIdStore W) (before : PublishedWebvhLog)
    (owed : bool) : comp W (bool * Rebind) :=
  if owed then
    strikeLadderVmWebvh updateDID logger clientLogStore (lo_ladderSeed o) (Some (lo_expectedDid o));;
    install ← installLadderVmWebvh updateDID logger clientLogStore (lo_ladderSeed o) (Some (lo_expectedDid o));
    mret (settled_wrote install, mkRebind (settled_did install) (settled_doc install) (settled_log install))
  else mret (false, mkRebind (pub_did before) (pub_doc before) (pub_log before)).

Definition generationDetail (generation : GenerationDelegationRetirement) : Detail :=
  match gen_skipped generation with
  | Some skip => DetailOf [("reason", Ok (UJson (JStr (generationSkipName skip))))]
  | None => priorUnless (negb (bool_decide (gen_revoked generation = []) && negb (gen_replaced generation)))
  end.

(** The stages past the guards, each reported as it lands. *)
Definition transitionStages (events : CeremonyRun) (o : LastForgetOptions) (clientLogStore : WebvhIdStore W)
    (onBeforeRemoval : Rebind → comp W ()) (before : PublishedWebvhLog) : comp W LastEnrolledClientForgetResult :=
  wrapped ← rosterStillWraps o before;
  ladderVmKey ← lift (ladderVmKeyMultibase (lo_ladderSeed o));
  let vmStands := bool_decide (vm_id (pub_did before) ladderVmKey ∈ ladderVmIds (pub_doc before)) in
  '(reinstalled, anchor) ← reinstallLadderVm o clientLogStore before (wrapped || negb vmStands);
  stage logger events "ladder-vm-reinstall" (priorUnless reinstalled);;
  tail ← retireRosterRecipientAndCascade (lo_rosterStore o) (rb_did anchor) (rb_doc anchor) (rb_log anchor)
    (lastForgottenKid o) (lo_userKey o) (lo_credentialKeyAgreementKey o) (lo_pinnedEpochId o) (lo_onUserKeyAdopted o)
    (lo_collections o);
  forgetStages logger events tail;;
  generation ← retireLadderGenerationDelegations (rb_doc anchor) (rb_did anchor) (lo_ladderSeed o)
    (revoked_signingKey (lo_forgottenClient o)) (lo_annex o) (lo_now o);
  stage logger events "generation-delegations" (generationDetail generation);;
  onBeforeRemoval anchor;;
  stage logger events "record-rebind" NoDetail;;
  removed ← forgetLastWebvhClient (removalEntry o clientLogStore);
  stage logger events "removal-entry" (priorUnless (settled_wrote removed));;
  mret (mkLastForgotten reinstalled (tail_rotated tail) (tail_collections tail) generation (settled_did removed) (settled_doc removed)
          (match rosterDescriptor tail with Some _ => tail_userKey tail | None => None end)
          (match tail_userKey tail with Some _ => rosterDescriptor tail | None => None end)).

Definition alreadyRemoved (before : PublishedWebvhLog) : LastEnrolledClientForgetResult :=
  mkLastForgotten false false no_cascade (mkGeneration [] false (Some already_removed)) (pub_did before) (pub_doc before) None None.

(** Another client is enrolled. *)
Definition anotherEnrolled (doc : AccountDocument) (signingVmId : string) : bool :=
  negb (bool_decide (enrolledClientVmIds doc = [])) && negb (isLastEnrolledClient doc signingVmId).

Definition forgetLastEnrolledClientCore (events : CeremonyRun) (o : LastForgetOptions) : comp W LastEnrolledClientForgetResult :=
  match lo_onBeforeRemoval o, lo_clientLogStore o, isSealableDescriptorStore (lo_rosterStore o) with
  | None, _, _ => mthrow onBeforeRemovalRequired
  | _, None, _ => mthrow clientLogStoreRequired
  | _, _, None => mthrow sealableRosterRequired
  | Some onBeforeRemoval, Some clientLogStore, Some _ =>
      before ← readPublishedLogOrThrow (lo_logStore o) (Some (lo_expectedDid o)) (Some nothingToEnrollInto);
      preTarget ← lift (clientRemovalTarget before (lo_forgottenClient o));
      if negb (present preTarget) then mret (alreadyRemoved before)
      else if anotherEnrolled (pub_doc before) (vm_id (pub_did before) (revoked_signingKey (lo_forgottenClient o))) then
        mthrow anotherClientRemains
      else transitionStages events o clientLogStore onBeforeRemoval before
  end.

Definition transitionDetail (result : LastEnrolledClientForgetResult) : Detail :=
  DetailOf [("failedCollections", count (length (cascade_failed (lf_collections result))));
            ("reason", Ok (match gen_skipped (lf_generation result) with
                           | Some skip => UJson (JStr (generationSkipName skip))
                           | None => UOther
                           end))].

Definition forgetLastEnrolledClient (runId : string) (o : LastForgetOptions) : comp W LastEnrolledClientForgetResult :=
  modify (set_cell fresh_emitter);;
  let events := mkRun "last-client-transition" runId [] [] in
  CeremonyEvents.run logger events (forgetLastEnrolledClientCore events o)
    (λ result, mret (lastClientTransitionOutcome result, transitionDetail result)).
End transition.
