(* ===== verification/LastClientSafety.v ===== *)
(** * When the last client is removed

    The transition of [LastClient] under what its stores and its host
    answered: the entry that removes the account's last client is put only on
    the evidence the stages before it gather, and never off the account's one
    remaining anchor. *)

From S2P Require Import Prelude Json JsText ConnEntry CeremonyEvents AccountDocument LadderRungs ResourceController AccountLog LogStore KeyRotation LadderIndex LadderInventory ClientListing ClientRevocation AccountEntry RevocationHistory EntryDiscipline Descriptors UserKeyRoster UserKeyCascade RosterCascade AnnexDocument AnnexLog AnnexGenesis AnnexDiscipline AnnexGcSafety CredentialRetirement LadderCeremonies LadderSafety LastClient.

(** ** The tail leaves an invariant of its stores alone *)

Section tail.
Context {W : Type} {readers : DocumentReaders} {keys : WebvhKeys} {commitments : CommitmentLibrary}
  {library : EpochLibrary} {laws : EpochLibraryLaws}.
Variable I : W → Prop.

Record descriptors_keep (store : EncryptionDescriptorStore W) : Prop := {
  keep_read : keeps I (store_read store);
  keep_replace next etag : keeps I (store_replace store next etag);
  keep_seals seal setMinimum : isSealableDescriptorStore store = Some (seal, setMinimum) →
    keeps I seal ∧ ∀ controller, keeps I (setMinimum controller)
}.

Record tail_keeps (rosterStore : EncryptionDescriptorStore W) (adopt : option (AdoptedUserKey → comp W ()))
    (collections : CascadeCollections W) : Prop := {
  tail_roster : descriptors_keep rosterStore;
  tail_adopts f a : adopt = Some f → keeps I (f a);
  tail_lists c : collectionIds collections = ListedIds c → keeps I c;
  tail_encrypts f id : isEncrypted collections = Some f → keeps I (f id);
  tail_stores id : descriptors_keep (storeFor collections id)
}.

Lemma run_keeps {V} (J : V → Prop) (store : EncryptionDescriptorStore V) built standing w r w' :
  keeps J (store_read store) → (∀ next etag, keeps J (store_replace store next etag)) →
  recipientRun store built standing w r w' → J w → J w'.
Proof.
  intros Hread Hrep Hrun.
  assert (∀ w r w1, store_read store w = (r, w1) → J w → J w1) as Hr.
  { intros v x v1 He Hj. specialize (Hread v Hj). rewrite He in Hread. by destruct x. }
  assert (∀ next etag w r w1, store_replace store next etag w = (r, w1) → J w → J w1) as Hw.
  { intros next etag v x v1 He Hj. specialize (Hrep next etag v Hj). rewrite He in Hrep. by destruct x. }
  induction Hrun; eauto.
Qed.

(** Each operation is a run. *)
Lemma operation_keeps {V} (J : V → Prop) store built standing (op : comp V CollectionEncryption) :
  keeps J (store_read store) → (∀ next etag, keeps J (store_replace store next etag)) →
  (∀ w, recipientRun store built standing w (op w).1 (op w).2) → keeps J op.
Proof.
  intros Hread Hrep Hrun w Hw. pose proof (run_keeps J store built standing w _ _ Hread Hrep (Hrun w) Hw).
  by destruct (op w) as [[next|err] w'].
Qed.

Lemma anchor_keeps rosterStore did log : descriptors_keep rosterStore → keeps I (anchorRosterStoreAt rosterStore did log).
Proof.
  intros Hs. unfold anchorRosterStoreAt. apply keeps_bind; [apply keeps_lift|]. intros controller.
  apply keeps_bind; [|intros; apply keeps_ret].
  destruct (isSealableDescriptorStore rosterStore) as [[seal setMinimum]|] eqn:He; [|apply keeps_ret].
  by destruct (keep_seals _ Hs _ _ He).
Qed.

Lemma rotate_keeps rosterStore doc kid current :
  descriptors_keep rosterStore → keeps I (rotateUserKeyRoster rosterStore doc kid (Some current)).
Proof.
  intros Hs. unfold rotateUserKeyRoster, with_seed.
  assert (keeps (λ ws : W * option DescriptorStoreRead, I ws.1)
    (removeRecipient (seededDescriptorStore rosterStore) kid (userKeyRosterRecipientResolver doc) (mret ()))) as Hk.
  { eapply operation_keeps; [| |intros ws; apply removeRecipient_run].
    - intros [w [served|]] Hw; cbn; [done|]. unfold on_fst. cbn. pose proof (keep_read _ Hs w Hw) as Hr.
      by destruct (store_read rosterStore w) as [[read|err] w'].
    - intros next etag [w seed] Hw. cbn. unfold on_fst. cbn. pose proof (keep_replace _ Hs next etag w Hw) as Hr.
      by destruct (store_replace rosterStore next etag w) as [[u|err] w']. }
  intros w Hw. specialize (Hk (w, Some current) Hw).
  by destruct (removeRecipient _ _ _ _ (w, Some current)) as [[next|err] [w' seed]].
Qed.

Lemma rotation_keeps store userKey generations :
  descriptors_keep store → keeps I (rotateCollectionEpochsToUserKey store userKey generations).
Proof.
  intros Hs. unfold rotateCollectionEpochsToUserKey. apply keeps_bind; [by apply keep_read|].
  intros [current|]; [|apply keeps_ret]. destruct (readCollectionEpochs _ _ _) as [|refusal|stale owner| |owner].
  - unfold sealCurrent. destruct (isSealableDescriptorStore store) as [[seal setMinimum]|] eqn:He; [|apply keeps_ret].
    apply keeps_bind; [by destruct (keep_seals _ Hs _ _ He)|intros; apply keeps_ret].
  - apply keeps_throw.
  - destruct (generationNamed _ _); [|apply keeps_throw]. apply keeps_bind; [apply keeps_lift|]. intros vault.
    apply keeps_bind; [|intros; apply keeps_ret]. eapply operation_keeps; [apply Hs|apply Hs|intros w; apply replaceRecipient_run].
  - apply keeps_throw.
  - destruct (generationNamed _ _); [|apply keeps_throw]. apply keeps_bind; [apply keeps_lift|]. intros vault.
    apply keeps_bind; [|intros; apply keeps_ret]. eapply operation_keeps; [apply Hs|apply Hs|intros w; apply addRecipient_run].
Qed.

Lemma retire_keeps rosterStore did doc log kid userKey credentialKey pinned adopt collections :
  tail_keeps rosterStore adopt collections →
  keeps I (retireRosterRecipientAndCascade rosterStore did doc log kid userKey credentialKey pinned adopt collections).
Proof.
  intros Ht. pose proof (tail_roster _ _ _ Ht) as Hs. unfold retireRosterRecipientAndCascade.
  apply keeps_bind; [by apply anchor_keeps|]. intros controller. apply keeps_bind; [by apply keep_read|].
  intros [current|]; [|apply keeps_ret]. apply keeps_bind.
  { unfold retireWrapped. apply keeps_bind; [apply keeps_lift|]. intros [|]; [|apply keeps_ret].
    apply keeps_bind; [by apply rotate_keeps|intros; apply keeps_ret]. }
  intros [descriptor rotated]. apply keeps_bind.
  { unfold adoptRotatedUserKey. apply keeps_bind; [apply keeps_lift|]. intros read. apply keeps_bind; [|intros; apply keeps_ret].
    destruct (rosterRead_rotated read); [|apply keeps_ret]. destruct adopt as [f|] eqn:Ha; [by eapply (tail_adopts _ _ _ Ht)|apply keeps_ret]. }
  intros [[changed key] adopted]. apply keeps_bind; [|intros; apply keeps_ret]. unfold fanOutToCollections, collectionIdsOf.
  apply keeps_bind; [destruct (collectionIds collections) eqn:Hc; [apply keeps_ret|by eapply (tail_lists _ _ _ Ht)]|]. intros ids.
  unfold cascadeCollectionsToUserKey. apply keeps_bind; [apply keeps_lift|]. intros generations.
  apply keeps_bind; [|intros; apply keeps_ret]. apply preserves_promise_all. intros id. unfold cascadeOne.
  apply keeps_try; [|intros; apply keeps_ret].
  apply keeps_bind; [destruct (isEncrypted collections) as [f|] eqn:Hf; [by apply (tail_encrypts _ _ _ Ht)|apply keeps_ret]|].
  intros [|]; cbn [negb]; [|apply keeps_ret]. pose proof (tail_stores _ _ _ Ht id) as Hid. apply keeps_bind.
  { destruct (isSealableDescriptorStore (storeFor collections id)) as [[seal setMinimum]|] eqn:He; [|apply keeps_ret].
    by destruct (keep_seals _ Hid _ _ He). }
  intros u. apply keeps_bind; [by apply rotation_keeps|intros; apply keeps_ret].
Qed.
End tail.

(** ** Evidence *)

(** What a transition was answered. *)
Inductive transition_fact :=
  | generation_answered (parts : ClientAnnexDidParts) (read : option (string * option string))
  | revocation_answered (zcap : json) (refusal : option js_error)
  | record_rebound (anchor : Rebind).

Section transition.
Context {W : Type} {readers : DocumentReaders} {resolver : WebvhResolver} {writer : WebvhWriter}
  {hashes : HashLibrary} {keys : WebvhKeys} {twins : TwinLibrary} {host : JsHost} {signers : SignerReaders}
  {annex_host : AnnexHost W} {commitments : CommitmentLibrary} {library : EpochLibrary} {laws : EpochLibraryLaws} {shape : ThrownShape}.
Context {cell : Cell W (option ClientRemovalTarget)} {cell_laws : CellLaws W (option ClientRemovalTarget)} {emitter : Cell W EmitterState}.
Variables (updateDID : UpdateDID) (logger : Logger W) (zcapClientForSigner : string → string → Delegator W).
Variables (I : W → Prop) (past : transition_fact → W → Prop) (K : PublishedWebvhLog → Prop) (o : LastForgetOptions (W:=W)).
Implicit Types (published : PublishedWebvhLog) (F : list transition_fact).
Local Notation known := (known I past).
Local Notation seed := (lo_ladderSeed o).
Local Notation annex := (lo_annex o).

(** The ladder VM of the credential stands in the head's document. *)
Definition ladder_stands published : Prop :=
  ∃ key, ladderVmKeyMultibase seed = Ok key ∧ vm_id (pub_did published) key ∈ ladderVmIds (pub_doc published).

(** The entry that puts the ladder VM in, or takes it out. *)
Definition vm_entry (presence : bool) published (updated : Updated) : Prop :=
  ∃ key, ladderVmKeyMultibase seed = Ok key ∧
    bool_decide (vm_id (pub_did published) key ∈ ladderVmIds (pub_doc published)) = negb presence ∧
    disciplined updateDID (LogSigner (ladder seed)) published (ladderVmPresenceFields key presence published) updated.

(** What the strike or the reinstall leaves: its entry, or a head that needed
    none. *)
Definition vm_settles (presence : bool) (settled : SettledEntry) : Prop :=
  ∃ published, K published ∧
    if settled_wrote settled then
      ∃ updated, vm_entry presence published updated ∧ settled = mkSettled (upd_did updated) (upd_doc updated) (upd_log updated) true
    else settled = mkSettled (pub_did published) (pub_doc published) (pub_log published) false ∧
      ∃ key, ladderVmKeyMultibase seed = Ok key ∧
        bool_decide (vm_id (pub_did published) key ∈ ladderVmIds (pub_doc published)) = presence.

(** The state the later stages stand on: a head with the ladder VM, or the
    one the reinstall made. *)
Definition anchored (anchor : Rebind) : Prop :=
  ∃ published, K published ∧
    (ladder_stands published ∧ anchor = mkRebind (pub_did published) (pub_doc published) (pub_log published) ∨
     ∃ updated, vm_entry true published updated ∧ anchor = mkRebind (upd_did updated) (upd_doc updated) (upd_log updated)).

(** A delegation no server honors. *)
Definition ended F (zcap : json) (doc : AccountDocument) : Prop :=
  delegationExpired zcap (lo_now o) = true ∨ revocation_answered zcap None ∈ F ∨
  ∃ err, (err_name err = "AlreadyRevokedError" ∨ err_name err = "ValidationError" ∧
    (delegationAtExpiry zcap (lo_now o) = true ∨ delegationSignerGone zcap doc = true)) ∧
    revocation_answered zcap (Some err) ∈ F.

(** The delegations of the answered generation that the ladder VM signed. *)
Definition doomed_of F (parts : ClientAnnexDidParts) (doomed : list json) : Prop :=
  ∃ read published history key, generation_answered parts read ∈ F ∧ resolves read published ∧
    generationDelegationHistory (pub_log published) = Ok history ∧ ladderVmKeyMultibase seed = Ok key ∧
    doomed = doomedDelegations key history.

(** The generation stage is done: the account points at no generation, its
    log is gone, or every delegation its history holds of the ladder VM has
    ended. *)
Definition generation_settled F (doc : AccountDocument) : Prop :=
  match delegatedClientsPointer doc with
  | None => True
  | Some pointedDid => ∃ parts, clientAnnexDidParts pointedDid = Ok parts ∧
      (generation_answered parts None ∈ F ∨
       ∃ doomed, doomed_of F parts doomed ∧ ∀ zcap, zcap ∈ doomed → ended F zcap doc)
  end.

(** The entry leaves the ladder VM a delegating member that does not invoke,
    unless the client's signing key is its key. *)
Definition leaves_ladder published (fields : AccountEntryFields) : Prop :=
  ∃ key document, ladderVmKeyMultibase seed = Ok key ∧ ef_document fields = Some document ∧
    (revoked_signingKey (lo_forgottenClient o) ≠ key →
     vm_id (pub_did published) key ∈ fields_relation document capabilityDelegation ∧
     vm_id (pub_did published) key ∉ fields_relation document capabilityInvocation).

(** The removal entry over a head: the forget's, where the ladder VM stands,
    and it leaves it standing. *)
Definition removes (store : WebvhIdStore W) published (updated : Updated) : Prop :=
  ∃ fields, forgets (removalEntry o store) (λ published _, ladder_stands published) published fields ∧
    leaves_ladder published fields ∧ disciplined updateDID (LogSigner (ladder seed)) published fields updated.

(** What the removal leaves: a head the client is gone from, or its entry. *)
Definition removal_returns (store : WebvhIdStore W) (settled : SettledEntry) : Prop :=
  ∃ published target, K published ∧ target_of (removalEntry o store) published target ∧
    if settled_wrote settled then
      ∃ updated, removes store published updated ∧ settled = mkSettled (upd_did updated) (upd_doc updated) (upd_log updated) true
    else present target = false ∧ settled = mkSettled (pub_did published) (pub_doc published) (pub_log published) false.

(** What a transition returns: the head the client was gone from already, or
    what the removal left of an account with no other client. *)
Definition transition_returns (r : LastEnrolledClientForgetResult) : Prop :=
  ∃ before target, K before ∧ clientRemovalTarget before (lo_forgottenClient o) = Ok target ∧
    if present target then
      anotherEnrolled (pub_doc before) (signingVmId target) = false ∧ gen_skipped (lf_generation r) ≠ Some already_removed ∧
      ∃ store settled, lo_clientLogStore o = Some store ∧ removal_returns store settled ∧
        lf_did r = settled_did settled ∧ lf_document r = settled_doc settled
    else r = alreadyRemoved before.

(** The evidence the entry that removes the client needs. *)
Definition may_remove (store : WebvhIdStore W) F published (updated : Updated) : Prop :=
  K published ∧ removes store published updated ∧
  ∃ anchor, anchored anchor ∧ record_rebound anchor ∈ F ∧ generation_settled F (rb_doc anchor).

(** What the stores and the host are assumed to do. A revocation is asked of
    what the ladder VM signed alone, and the client's removal put on its
    evidence. *)
Record transition_environment (store : WebvhIdStore W) (rebind : Rebind → comp W ()) : Prop := {
  te_account F : store_keeps (known F) K (lo_logStore o);
  te_client F : store_keeps (known F) K store;
  te_log F event : unseen (known F) (logger event);
  te_doc F doc : unseen (known F) (document_put store doc);
  te_target F (v : option ClientRemovalTarget) w : known F w → known F (set_cell v w);
  te_emitter F (state : EmitterState) w : known F w → known F (set_cell state w);
  te_vm presence published updated : K published → vm_entry presence published updated →
    keeps (known []) (log_put store (upd_log updated) (pub_etag published));
  te_tail : tail_keeps (known []) (lo_rosterStore o) (lo_onUserKeyAdopted o) (lo_collections o);
  te_annex F parts : triple (known F) (getIdResourceRaw (rc_storeFor annex parts) DID_LOG_RESOURCE)
    (λ read, known (generation_answered parts read :: F)) (λ _, known F);
  te_annex_pin_read F parts id : keeps (known F) (pin_read (id_pinStore (rc_storeFor annex parts)) id);
  te_annex_pin_write F parts id pin : keeps (known F) (pin_write (id_pinStore (rc_storeFor annex parts)) id pin);
  te_annex_put F parts put : keeps (known F) (putIdResource (rc_storeFor annex parts) put);
  te_delegate F signer key options : keeps (known F) (zcapClientForSigner signer key options);
  te_revoke F parts doomed zcap : doomed_of F parts doomed → zcap ∈ doomed →
    triple (known F) (rc_revoke annex zcap)
      (λ _, known (revocation_answered zcap None :: F)) (λ err, known (revocation_answered zcap (Some err) :: F));
  te_rebind F anchor : anchored anchor → generation_settled F (rb_doc anchor) →
    triple (known F) (rebind anchor) (λ _, known (record_rebound anchor :: F)) (λ _, known F);
  te_remove F published updated : may_remove store F published updated →
    keeps (known F) (log_put (lo_logStore o) (upd_log updated) (pub_etag published))
}.
Context (store : WebvhIdStore W) (rebind : Rebind → comp W ()) (env : transition_environment store rebind).

Lemma logs_keep F event : keeps (known F) (logger event).
Proof. apply unseen_keeps, (te_log _ _ env). Qed.

(** ** The strike and the reinstall *)

Lemma presence_once presence :
  triple (known []) (setLadderVmPresenceOnce updateDID logger store seed (Some (lo_expectedDid o)) presence)
    (λ settled w, vm_settles presence settled ∧ known [] w) (λ _, known []).
Proof.
  unfold setLadderVmPresenceOnce. eapply (triple_bind _ _ _ (λ key w, ladderVmKeyMultibase seed = Ok key ∧ known [] w)).
  { apply triple_lift. intros w Hw. by destruct (ladderVmKeyMultibase seed). }
  intros key. apply triple_pure. intros Hkey. eapply triple_bind.
  - unfold ladderSignedAccountEntry.
    eapply triple_conseq; [apply (seam_stages updateDID logger (known []) (known []) K _
      (λ published fields, fields = Some (ladderVmPresenceFields key presence published))
      (λ published skip, skip = bool_decide (bool_decide (vm_id (pub_did published) key ∈ ladderVmIds (pub_doc published)) = presence))
      (λ _ _ _, True))|done|..].
    + apply (te_client _ _ env).
    + done.
    + apply (te_client _ _ env).
    + apply logs_keep.
    + done.
    + done.
    + intros published _. by apply triple_ret.
    + intros ctx _ _ _ _. cbn [opt_build ladderEntryOptions le_build]. unfold withParts.
      destruct (ctx_parts ctx); [by apply triple_ret|by apply triple_throw; left].
    + intros published fields updated Hk Hs [= ->] Hd.
      eapply triple_conseq; [apply (te_vm _ _ env presence published updated Hk)|done|by intros|done]. exists key. split_and!; [done| |done].
      symmetry in Hs. apply bool_decide_eq_false in Hs. by destruct (bool_decide (vm_id _ _ ∈ _)), presence.
    + intros outcome w H. exact H.
    + intros err w Hw. by destruct Hw.
  - intros outcome. apply triple_ret. intros w (Hk & _ & Hs & Ho). unfold settledEntry.
    destruct (out_updated outcome) as [updated|].
    + destruct Ho as (Hsk & Hi & _ & fields & [= ->] & Hd). split; [|done]. exists (out_published outcome). split; [done|].
      exists updated. split; [|done]. exists key. split_and!; [done| |done]. rewrite Hsk in Hs. symmetry in Hs.
      apply bool_decide_eq_false in Hs. by destruct (bool_decide (vm_id _ _ ∈ _)), presence.
    + destruct Ho as [[Hsk Hi]|(_ & Hno & _)]; [|done]. split; [|done]. exists (out_published outcome). split; [done|]. split; [done|].
      exists key. split; [done|]. rewrite Hsk in Hs. by symmetry in Hs; apply bool_decide_eq_true in Hs.
Qed.

Lemma reinstall_anchors before (owed : bool) :
  K before → (owed = false → ladder_stands before) →
  triple (known []) (reinstallLadderVm updateDID logger o store before owed)
    (λ result w, anchored result.2 ∧ known [] w) (λ _, known []).
Proof.
  intros Hk Howed. unfold reinstallLadderVm. destruct owed.
  - eapply (triple_bind _ _ _ (λ _, known [])).
    { eapply triple_post; [apply retry_keeps, (presence_once false)|by intros settled w [_ ?]|done]. }
    intros struck. eapply triple_bind; [apply retry_keeps, (presence_once true)|]. intros install. apply triple_pure.
    intros (published & Hp & Hinstall). apply triple_ret. intros w Hw. split; [|done]. exists published. split; [done|]. cbn.
    destruct (settled_wrote install).
    + destruct Hinstall as (updated & Hu & ->). right. by exists updated.
    + destruct Hinstall as (-> & key & Hkey & Hin%bool_decide_eq_true). left. split; [by exists key|done].
  - apply triple_ret. intros w Hw. split; [|done]. exists before. split; [done|]. left. auto.
Qed.

(** ** The generation stage *)

Lemma ended_mono F F' zcap doc : F ⊆ F' → ended F zcap doc → ended F' zcap doc.
Proof. intros Hs [He|[Hr|(err & Hc & Hr)]]; [by left|right; left; auto|right; right; exists err; auto]. Qed.

Lemma doomed_mono F F' parts doomed : F ⊆ F' → doomed_of F parts doomed → doomed_of F' parts doomed.
Proof. intros Hs (read & published & history & key & Hr & H). exists read, published, history, key. auto. Qed.

Lemma revoke_ends F parts doomed zcap doc :
  doomed_of F parts doomed → zcap ∈ doomed →
  triple (known F) (revokeTreatingAlreadyRevokedAsSuccess (rc_revoke annex) zcap (lo_now o) doc)
    (λ _ w, ∃ F', (F ⊆ F' ∧ ended F' zcap doc) ∧ known F' w) (λ _, known F).
Proof.
  intros Hd Hin.
  eapply triple_conseq; [apply (revoke_told (known F) (λ refusal, known (revocation_answered zcap refusal :: F))), (te_revoke _ _ env F parts doomed zcap Hd Hin)|done| |].
  - intros outcome w [[He Hw]|[Hw|(err & Hc & Hw)]]; [exists F; split; [split; [done|by left]|done]|..];
      (eexists; split; [split|exact Hw]; [set_solver|]); right; [by left; left|right; exists err; split; [done|by left]].
  - intros err w. apply known_mono. set_solver.
Qed.

(** What a run of settled revocations ended. *)
Definition settles F (doc : AccountDocument) (settled : list (json * result RevokeGenerationDelegationOutcome)) : Prop :=
  ∀ zcap outcome, (zcap, Ok outcome) ∈ settled → ended F zcap doc.

Lemma settle_revocations F parts doomed doc delegations :
  doomed_of F parts doomed → delegations ⊆ doomed →
  triple (known F) (promise_all (λ delegation,
      try_catch (outcome ← revokeTreatingAlreadyRevokedAsSuccess (rc_revoke annex) delegation (lo_now o) doc; mret (delegation, Ok outcome))
        (λ err, mret (delegation, Throw err))) delegations)
    (λ settled w, ∃ F', (F ⊆ F' ∧ settled.*1 = delegations ∧ settles F' doc settled) ∧ known F' w) (λ _, known F).
Proof.
  revert F. induction delegations as [|zcap delegations IH]; intros F Hd Hsub; cbn [promise_all].
  { apply triple_ret. intros w Hw. exists F. split; [|done]. split_and!; [done..|]. by intros ? ? ?%elem_of_nil. }
  eapply (triple_bind _ _ _ (λ one w, ∃ F', (F ⊆ F' ∧ one.1 = zcap ∧ settles F' doc [one]) ∧ known F' w)).
  - eapply (triple_try _ _ _ _ _ (λ _, known F)).
    + eapply triple_bind; [apply (revoke_ends F parts doomed zcap doc Hd); set_solver|]. intros outcome.
      apply triple_ret. intros w (F' & [Hs He] & Hw). exists F'. split; [|done]. split_and!; [done..|].
      by intros z r [= -> _]%list_elem_of_singleton.
    + intros err. apply triple_ret. intros w Hw. exists F. split; [|done]. split_and!; [done..|].
      by intros z r ?%list_elem_of_singleton.
  - intros one. apply triple_exists. intros F1. apply triple_pure. intros (Hs1 & Hone & He1).
    eapply triple_bind; [eapply triple_throws; [apply (IH F1); [by eapply doomed_mono|set_solver]|intros e w; by apply known_mono]|].
    intros rest. apply triple_ret. intros w (F2 & (Hs2 & Hrest & He2) & Hw). exists F2. split; [|done].
    split_and!; [set_solver|cbn; by rewrite Hone, Hrest|]. intros z r [Hz|Hz]%elem_of_cons; [|by eapply He2].
    eapply ended_mono; [exact Hs2|]. eapply (He1 z r). rewrite Hz. apply list_elem_of_singleton. done.
Qed.

Lemma revokes F parts doomed doc delegations :
  doomed_of F parts doomed → delegations ⊆ doomed →
  triple (known F) (revokeDoomed annex doc (lo_now o) delegations)
    (λ _ w, ∃ F', (F ⊆ F' ∧ ∀ zcap, zcap ∈ delegations → ended F' zcap doc) ∧ known F' w) (λ _, known F).
Proof.
  intros Hd Hsub. unfold revokeDoomed. eapply triple_bind; [by apply (settle_revocations F parts doomed)|]. intros settled.
  apply triple_exists. intros F'. apply triple_pure. intros (Hs & Hall & He).
  eapply triple_throws; [|intros e w; by apply (known_mono F' F)].
  destruct (settleRevocations settled).2 as [err|] eqn:Hthrow; [by apply triple_throw|].
  apply triple_ret. intros w Hw. exists F'. split; [|done]. split; [done|]. intros zcap Hin. rewrite <- Hall in Hin.
  apply list_elem_of_fmap in Hin as ([z [outcome|err]] & -> & Hin); [by eapply He|].
  unfold settleRevocations in Hthrow. cbn [snd] in Hthrow. apply head_None in Hthrow.
  assert (err ∈ omap (λ s : json * result RevokeGenerationDelegationOutcome, match s.2 with Throw err => Some err | Ok _ => None end) settled) as Hx.
  { apply list_elem_of_omap. by exists (z, Throw err). }
  rewrite Hthrow in Hx. by apply elem_of_nil in Hx.
Qed.

Lemma generation_store_keeps F parts : store_keeps (known F) (λ _, True) (rc_storeFor annex parts).
Proof.
  constructor; [|apply (te_annex_pin_read _ _ env)|apply (te_annex_pin_write _ _ env)].
  eapply triple_conseq; [apply (te_annex _ _ env)|done| |done]. intros read w Hw. split; [done|]. eapply known_mono; [|exact Hw]. set_solver.
Qed.

Lemma replacement_keeps F parts pointedDid doc did key retiring :
  ladderVmZcapClient zcapClientForSigner did seed = Ok key →
  keeps (known F) (ensureReplaced updateDID (replacement annex (rc_storeFor annex parts) seed pointedDid doc key retiring (lo_now o))).
Proof.
  intros Hkey. unfold ladderVmZcapClient in Hkey. apply result_bind_ok in Hkey as (multibase & _ & [= <-]).
  unfold ensureReplaced. apply keeps_try; [|intros err; case_decide; [apply keeps_ret|apply keeps_throw]].
  apply keeps_bind; [|intros; apply keeps_ret].
  eapply triple_post; [apply (renew_keeps updateDID (known F) (λ _, True))|by intros a w [_ Hw]|done].
  - apply generation_store_keeps.
  - done.
  - intros clientAnnexDid. cbn. unfold mintGenerationDelegation. apply keeps_bind; [apply keeps_lift|]. intros ?. apply (te_delegate _ _ env).
  - intros published updated _ _. apply (te_annex_put _ _ env).
Qed.

Lemma stage_settles F doc did :
  triple (known F)
    (retireLadderGenerationDelegations updateDID zcapClientForSigner doc did seed (revoked_signingKey (lo_forgottenClient o)) annex (lo_now o))
    (λ generation w, gen_skipped generation ≠ Some already_removed ∧ ∃ F', generation_settled F' doc ∧ known F' w) (λ _, known F).
Proof.
  unfold retireLadderGenerationDelegations, generation_settled. destruct (delegatedClientsPointer doc) as [pointedDid|].
  2:{ apply triple_ret. intros w Hw. split; [done|]. by exists F. }
  eapply (triple_bind _ _ _ (λ parts w, clientAnnexDidParts pointedDid = Ok parts ∧ known F w)).
  { apply triple_lift. intros w Hw. by destruct (clientAnnexDidParts pointedDid). }
  intros parts. apply triple_pure. intros Hparts. unfold readClientAnnexLogOrAbsent.
  eapply triple_bind; [apply (read_records I past (rc_storeFor annex parts) (generation_answered parts)); [intros F'; apply (te_annex _ _ env)|intros F'; apply (te_annex_pin_read _ _ env)|intros F'; apply (te_annex_pin_write _ _ env)]|].
  intros [published|]; cbn beta iota; apply triple_exists; intros read; apply triple_pure; intros Hread.
  2:{ apply triple_ret. intros w Hw. split; [done|]. exists (generation_answered parts read :: F). split; [|done]. exists parts. split; [done|].
      left. rewrite Hread. by left. }
  set (F1 := generation_answered parts read :: F). assert (F ⊆ F1) as Hs1 by (unfold F1; set_solver).
  eapply triple_throws; [|intros e w; by apply (known_mono F1 F)].
  eapply (triple_bind _ _ _ (λ key w, ladderVmKeyMultibase seed = Ok key ∧ known F1 w)).
  { apply triple_lift. intros w Hw. by destruct (ladderVmKeyMultibase seed). }
  intros key. apply triple_pure. intros Hkey.
  eapply (triple_bind _ _ _ (λ history w, generationDelegationHistory (pub_log published) = Ok history ∧ known F1 w)).
  { apply triple_lift. intros w Hw. by destruct (generationDelegationHistory _). }
  intros history. apply triple_pure. intros Hhist. set (doomed := doomedDelegations key history).
  assert (doomed_of F1 parts doomed) as Hd by (exists read, published, history, key; split_and!; [by left|done..]).
  eapply triple_bind; [apply (revokes F1 parts doomed); [done|by intros z [_ ?]%list_elem_of_filter]|]. intros historical.
  apply triple_exists. intros F2. apply triple_pure. intros [Hs2 Hhis].
  eapply triple_throws; [|intros e w; by apply (known_mono F2 F1)].
  eapply (triple_bind _ _ _ (λ client w, ladderVmZcapClient zcapClientForSigner did seed = Ok client ∧ known F2 w)).
  { apply triple_lift. intros w Hw. by destruct (ladderVmZcapClient _ _ _). }
  intros client. apply triple_pure. intros Hclient.
  eapply (triple_bind _ _ _ (λ _, known F2)); [by eapply replacement_keeps|]. intros [replaced uncommitted].
  eapply triple_bind; [apply (revokes F2 parts doomed); [by eapply doomed_mono|by intros z [_ ?]%list_elem_of_filter]|].
  intros current. apply triple_ret. intros w (F3 & [Hs3 Hcur] & Hw). split; [by destruct uncommitted|]. exists F3. split; [|done]. exists parts. split; [done|]. right.
  exists doomed. split; [eapply doomed_mono; [|exact Hd]; set_solver|]. intros zcap Hin.
  destruct (isEmbedded (embeddedGenerationDelegation (pub_doc published)) zcap) eqn:He.
  - apply Hcur, list_elem_of_filter. done.
  - eapply ended_mono; [exact Hs3|]. apply Hhis, list_elem_of_filter. done.
Qed.

(** ** The removal *)

Lemma forget_removes published updated :
  forget_entry updateDID (removalEntry o store) (λ published _, ladder_stands published) published updated →
  removes store published updated.
Proof.
  intros (fields & Hf & Hd). exists fields. split_and!; [done| |done].
  destruct Hf as (target & staged & rung & st & hs & Ht & _ & (key & Hkey & Hin) & _ & _ & _ & ->).
  exists key, (removal_document (removalFields published target staged)). split_and!; [done..|]. cbn. intros Hne.
  unfold ladderVmIds in Hin. apply list_elem_of_filter in Hin as [Hno Hin].
  unfold target_of, clientRemovalTarget in Ht. apply result_bind_ok in Ht as (k & _ & [= <-]). cbn. split.
  - apply list_elem_of_filter. split; [|done]. by intros ?%vm_id_inj.
  - by intros [_ ?]%list_elem_of_filter.
Qed.

Lemma asserts_anchor published (target : ClientRemovalTarget) (J : W → Prop) :
  triple J (assertLadderAnchorStands seed published) (λ _ w, ladder_stands published ∧ J w) (λ _, J).
Proof.
  unfold assertLadderAnchorStands. eapply (triple_bind _ _ _ (λ key w, ladderVmKeyMultibase seed = Ok key ∧ J w)).
  { apply triple_lift. intros w Hw. by destruct (ladderVmKeyMultibase seed). }
  intros key. apply triple_pure. intros Hkey. case_decide; [apply triple_ret|by apply triple_throw].
  intros w Hw. split; [by exists key|done].
Qed.

Lemma forget_removal settled :
  forget_returns updateDID K (removalEntry o store) (λ published _, ladder_stands published) settled → removal_returns store settled.
Proof.
  intros (published & target & Hk & Ht & Hs). exists published, target. split_and!; [done..|].
  destruct (settled_wrote settled); [|done]. destruct Hs as (updated & Hu & ->). exists updated. split; [by apply forget_removes|done].
Qed.

Lemma removal_keeps F anchor :
  anchored anchor → record_rebound anchor ∈ F → generation_settled F (rb_doc anchor) →
  triple (known F) (forgetLastWebvhClient updateDID logger (removalEntry o store))
    (λ settled w, removal_returns store settled ∧ known F w) (λ _, known F).
Proof.
  intros Ha Hr Hg. unfold forgetLastWebvhClient. eapply triple_post;
    [apply (forget_keeps updateDID logger (known F) K (removalEntry o store) (λ published _, ladder_stands published))| |done].
  - intros published target J. by apply asserts_anchor.
  - constructor.
    + apply (te_account _ _ env).
    + apply (te_account _ _ env).
    + apply (te_account _ _ env).
    + apply (te_log _ _ env).
    + intros s doc [= <-]. apply (te_doc _ _ env).
    + intros published updated Hk Hu. apply (te_remove _ _ env). split_and!; [done|by apply forget_removes|]. by exists anchor.
    + apply (te_target _ _ env).
  - intros settled w [Hs ?]. split; [by apply forget_removal|done].
Qed.

Lemma wraps_keeps before : keeps (known []) (rosterStillWraps o before).
Proof.
  unfold rosterStillWraps. pose proof (tail_roster _ _ _ _ (te_tail _ _ env)) as Hs.
  apply keeps_bind; [by apply anchor_keeps|]. intros controller. apply keeps_bind; [by apply keep_read|].
  intros [current|]; [apply keeps_lift|apply keeps_ret].
Qed.

Lemma reports_keep F events name detail : keeps (known F) (stage logger events name detail).
Proof. apply stage_keeps; [apply logs_keep|apply (te_emitter _ _ env)]. Qed.

Lemma tail_reports F events tail : keeps (known F) (forgetStages logger events tail).
Proof.
  unfold forgetStages. apply keeps_bind; [apply reports_keep|]. intros u. case_decide; [apply reports_keep|apply keeps_ret].
Qed.

Lemma stages_return events before :
  K before →
  triple (known []) (transitionStages updateDID logger zcapClientForSigner events o store rebind before)
    (λ r w, (gen_skipped (lf_generation r) ≠ Some already_removed ∧
       ∃ settled, removal_returns store settled ∧ lf_did r = settled_did settled ∧ lf_document r = settled_doc settled) ∧ I w)
    (λ _, I).
Proof.
  intros Hk. unfold transitionStages. assert (∀ F w, known F w → I w) as Hless by by intros F w [? _].
  eapply (triple_throws _ _ _ (λ _, known [])); [|intros e; apply Hless].
  eapply (triple_bind _ _ _ (λ _, known [])); [apply wraps_keeps|]. intros wrapped.
  eapply (triple_bind _ _ _ (λ key w, ladderVmKeyMultibase seed = Ok key ∧ known [] w)).
  { apply triple_lift. intros w Hw. by destruct (ladderVmKeyMultibase seed). }
  intros key. apply triple_pure. intros Hkey. eapply triple_bind; [apply reinstall_anchors; [done|]|].
  { intros [_ Hv%negb_false_iff%bool_decide_eq_true]%orb_false_iff. by exists key. }
  intros [reinstalled anchor]. apply triple_pure. cbn [snd]. intros Ha.
  eapply (triple_bind _ _ _ (λ _, known [])); [apply reports_keep|]. intros ?.
  eapply (triple_bind _ _ _ (λ _, known [])); [by apply retire_keeps, (te_tail _ _ env)|]. intros tail.
  eapply (triple_bind _ _ _ (λ _, known [])); [apply tail_reports|]. intros ?.
  eapply triple_bind; [apply stage_settles|]. intros generation. apply triple_pure. intros Hgen.
  apply triple_exists. intros F. apply triple_pure. intros Hsettled.
  eapply triple_throws; [|intros e w; apply (known_mono F []); set_solver].
  eapply (triple_bind _ _ _ (λ _, known F)); [apply reports_keep|]. intros ?.
  eapply triple_bind; [by apply (te_rebind _ _ env)|]. intros ?.
  eapply triple_throws; [|intros e w; apply (known_mono (record_rebound anchor :: F) F); set_solver].
  eapply (triple_bind _ _ _ (λ _, known (record_rebound anchor :: F))); [apply reports_keep|]. intros ?.
  eapply triple_bind; [apply (removal_keeps (record_rebound anchor :: F) anchor); [done|by left|]|].
  { unfold generation_settled in *. destruct (delegatedClientsPointer (rb_doc anchor)); [|done].
    destruct Hsettled as (parts & Hp & Hc). exists parts. split; [done|]. destruct Hc as [Hc|(doomed & Hd & He)]; [left; by right|].
    right. exists doomed. split; [eapply doomed_mono; [|exact Hd]; set_solver|]. intros zcap Hz. eapply ended_mono; [|by apply He]. set_solver. }
  intros removed. apply triple_pure. intros Hrem.
  eapply (triple_bind _ _ _ (λ _, known (record_rebound anchor :: F))); [apply reports_keep|]. intros ?.
  apply triple_ret. intros w Hw. split; [|by apply (Hless (record_rebound anchor :: F))]. split; [done|]. by exists removed.
Qed.
End transition.

(** C9: an account's last client is removed last. Whatever its stores and its
    server answer and however often it loses a race, the transition puts the
    entry that takes the client out only over a head where the credential's
    ladder VM stands, and that entry leaves it standing; and only where the
    unlock record has been re-bound for a state the ladder VM stands in, and,
    of the generation that state points at, either the log is gone or every
    delegation its history holds of the ladder VM has ended: expired, revoked,
    or refused in a way that says so. Revocations are asked for those
    delegations alone, and the record is re-bound only after them. What it
    returns is a head the client was gone from or what that entry made, of an
    account with no other client; without its three required stores and seams
    it does nothing. *)
Theorem last_client_removed_last {W} {readers : DocumentReaders} {resolver : WebvhResolver} {writer : WebvhWriter}
    {hashes : HashLibrary} {keys : WebvhKeys} {twins : TwinLibrary} {host : JsHost} {signers : SignerReaders}
    {annex_host : AnnexHost W} {commitments : CommitmentLibrary} {library : EpochLibrary} {shape : ThrownShape}
    {cell : Cell W (option ClientRemovalTarget)} {cell_laws : CellLaws W (option ClientRemovalTarget)} {emitter : Cell W EmitterState}
    (updateDID : UpdateDID) (logger : Logger W) (zcapClientForSigner : string → string → Delegator W)
    (I : W → Prop) (past : transition_fact → W → Prop) (K : PublishedWebvhLog → Prop) events (o : LastForgetOptions (W:=W)) w :
  EpochLibraryLaws →
  (∀ store rebind, lo_clientLogStore o = Some store → lo_onBeforeRemoval o = Some rebind →
     transition_environment updateDID logger zcapClientForSigner I past K o store rebind) →
  I w →
  match forgetLastEnrolledClientCore updateDID logger zcapClientForSigner events o w with
  | (Ok r, w') => transition_returns updateDID K o r ∧ I w'
  | (Throw _, w') => I w' ∧
      (lo_clientLogStore o = None ∨ lo_onBeforeRemoval o = None ∨ isSealableDescriptorStore (lo_rosterStore o) = None → w' = w)
  end.
Proof.
  intros laws env Hi. unfold forgetLastEnrolledClientCore.
  destruct (lo_onBeforeRemoval o) as [rebind|]; [|done]. destruct (lo_clientLogStore o) as [store|] eqn:Hst; [|done].
  destruct (isSealableDescriptorStore (lo_rosterStore o)) as [sealable|]; [|done].
  specialize (env store rebind eq_refl eq_refl).
  assert (known I past [] w) as Hw by (split; [done|by intros f ?%elem_of_nil]).
  assert (∀ F w, known I past F w → I w) as Hless by by intros F v [? _].
  assert (triple (known I past [])
    (before ← readPublishedLogOrThrow (lo_logStore o) (Some (lo_expectedDid o)) (Some nothingToEnrollInto);
     preTarget ← lift (clientRemovalTarget before (lo_forgottenClient o));
     if negb (present preTarget) then mret (alreadyRemoved before)
     else if anotherEnrolled (pub_doc before) (vm_id (pub_did before) (revoked_signingKey (lo_forgottenClient o))) then
       mthrow anotherClientRemains
     else transitionStages updateDID logger zcapClientForSigner events o store rebind before)
    (λ r w, transition_returns updateDID K o r ∧ I w) (λ _, I)) as Ht.
  { eapply triple_bind; [eapply triple_throws; [apply readOrThrow_keeps, (te_account _ _ _ _ _ _ _ _ _ env)|intros e; apply Hless]|].
    intros before. apply triple_pure. intros Hk.
    eapply (triple_bind _ _ _ (λ target w, clientRemovalTarget before (lo_forgottenClient o) = Ok target ∧ known I past [] w)).
    { apply triple_lift. intros v Hv. destruct (clientRemovalTarget before _); [done|by eapply Hless]. }
    intros target. apply triple_pure. intros Htarget.
    assert (signingVmId target = vm_id (pub_did before) (revoked_signingKey (lo_forgottenClient o))) as Hvm.
    { unfold clientRemovalTarget in Htarget. by apply result_bind_ok in Htarget as (k & _ & [= <-]). }
    destruct (present target) eqn:Hp; cbn [negb].
    2:{ apply triple_ret. intros v Hv. split; [|by eapply Hless]. exists before, target. split_and!; [done..|]. by rewrite Hp. }
    destruct (anotherEnrolled _ _) eqn:Hother; [apply triple_throw; intros v; apply Hless|].
    eapply triple_post; [by apply stages_return| |done].
    intros r v [[Hskip (settled & Hs & Hd & Hdoc)] Hv]. split; [|done]. exists before, target. split_and!; [done..|].
    rewrite Hp, Hvm. split_and!; [done..|]. by exists store, settled. }
  specialize (Ht w Hw). match goal with |- match ?c with (_, _) => _ end => destruct c as [[r|err] w'] end; [done|].
  split; [done|]. by intros [|[|]].
Qed.
