(* ===== verification/LastClientDemo.v ===== *)
(** * A concrete last client

    An account of one client and a passkey, whose generation embeds a
    delegation of the passkey's ladder VM: the client forgotten, through a
    lost race. *)

From S2P Require Import Prelude Json JsText ConnEntry CeremonyEvents AccountDocument LadderRungs ResourceController LadderDemo AccountLog LogStore KeyRotation LadderIndex LadderInventory ClientListing ClientRevocation AccountEntry ClientDemo EntryDiscipline EntryDemo Descriptors UserKeyRoster UserKeyCascade RosterCascade EpochLibraryDemo AnnexDocument AnnexLog AnnexGenesis AnnexGcSafety StandingCredential CredentialRetirement LadderCeremonies LadderSafety LastClient LastClientSafety.

From Stdlib Require Import Ascii.

Module LastClientDemo.
Import ClientDemo EpochLibraryDemo.
#[local] Existing Instance EpochLibraryDemo.keys.
#[local] Existing Instance EntryDemo.twins.
#[export] Instance shape : ThrownShape := plain_shape.
#[export] Instance host : JsHost := {| date_parse s := parseInt s; toISOString n := pretty n; url_href := Some |}.
#[export] Instance signers : SignerReaders := {|
  parseVersionedVm id := match split_at "#"%char id with [did; fragment] => Some (did, fragment) | _ => None end;
  relationMemberNamed doc relation did fragment :=
    snd <$> list_find (λ member, memberId member = Some (vm_id did fragment)) (relationMembers doc relation)
|}.

(** ** The logs *)

Definition ladder_key : string := ladderDerive "L" LADDER_VM_INFO.
Definition ladder_vm : ResolvedKeyAgreementMethod := ladderVerificationMethod did ladder_key.
Definition annex_did : string := "did:webvh:s:host:space:annex:gen-aaaaaaaaaaaaaaaa".
Definition one_client : AccountDocument :=
  mkDocument did (Some [signing_method "c1"; twin_method "c1"; passkey; ladder_vm])
    (λ relation, Some (Reference <$> match relation with
       | keyAgreement => [vm_id did "xc1"; vm_id did "pk"]
       | assertionMethod | capabilityDelegation => [vm_id did "c1"; vm_id did ladder_key]
       | _ => [vm_id did "c1"]
       end)) (Some [delegatedClientsServiceEntry did annex_did]).
Definition last_doc (log : DIDLog) : AccountDocument := default empty_document (last log ≫= state).
Definition updated_doc (doc : AccountDocument) (fields : option DocumentFields) (services : option (list members)) : AccountDocument :=
  mkDocument (document_id doc)
    (match fields with Some f => Some (fields_methods f) | None => verificationMethod doc end)
    (match fields with Some f => λ relation, Some (Reference <$> fields_relation f relation) | None => relationOf doc end)
    (match services with Some s => Some s | None => doc_service doc end).
Definition log0 : DIDLog := [step "1" "u" ["u"] ["#u"; "#s"; "#L/rung/0"] one_client].
Definition delegation (id : string) : json :=
  JObj [("id", JStr id); ("expires", JStr "9000000000"); ("proof", JObj [("verificationMethod", JStr (vm_id did ladder_key))])].
Definition generation (id : string) : DIDLog :=
  [step "1" "L/annex/rung/0" ["L/annex/rung/0"] ["#L/annex/rung/0"]
     (mkDocument annex_did (Some []) (λ _, Some []) (Some [generationDelegationServiceEntry annex_did (delegation id)]))].

(** What tells the known logs apart. *)
Definition reading (log : DIDLog) : list string * list string * list string * option string :=
  (currentLogParameters log, ladderVmIds (last_doc log), embeddedGenerationDelegation (last_doc log) ≫= zcap_id).
Definition without_vm : DocumentFields :=
  mkFields [signing_method "c1"; twin_method "c1"; passkey] (λ relation, match relation with
    | keyAgreement => [vm_id did "xc1"; vm_id did "pk"] | _ => [vm_id did "c1"] end).
Definition without_client : DocumentFields :=
  mkFields [passkey; ladder_vm] (λ relation, match relation with
    | keyAgreement => [vm_id did "pk"]
    | assertionMethod | capabilityDelegation => [vm_id did ladder_key]
    | _ => []
    end).
Definition stated (fields : option DocumentFields) (A C : list string) : DIDLog :=
  log0 ++ [step "next" "" A C (updated_doc one_client fields None)].
Definition known : list (string * DIDLog) := [
  ("0", log0);
  ("1", stated (Some without_vm) ["u"; "L/rung/0"] ["#u"; "#s"; "#L/rung/0"]);
  ("2", stated None ["u"; "L/rung/0"] ["#u"; "#s"; "#L/rung/0"]);
  ("3", stated (Some without_client) ["L/rung/0"] ["#L/rung/0"]);
  ("old", generation "urn:old");
  ("new", generation "urn:new")
].
Definition text_of (log : DIDLog) : string :=
  from_option (λ p, p.2.1) "other" (list_find (λ p : string * DIDLog, reading p.2 = reading log) known).
Definition log_of (text : string) : option DIDLog := assoc_get text known.

#[export] Instance store_writer : WebvhWriter := {|
  WebDoc := ();
  Signer := string;
  logToJsonlString := text_of;
  generateParallelDidWeb _ _ := ();
  updateKeyMultibase seed := Ok seed;
  updateKeySigner seed := Ok seed
|}.
#[export] Instance resolver : WebvhResolver := {|
  readLogFromString text := match log_of text with Some log => Ok log | None => Throw (plain_error "unreadable") end;
  resolveDIDFromLog log :=
    Ok (mkResolution (Some (document_id (last_doc log))) (Some (last_doc log))
      (mkMeta None (Some (currentLogParameters log).1) (Some (currentLogParameters log).2)))
|}.

Definition updateDID : UpdateDID := λ log _ signer fields services A C,
  let doc := updated_doc (last_doc log) fields services in
  Ok (mkUpdated (document_id doc) doc (log ++ [step "next" signer A C doc]) (mkMeta None (Some A) (Some C)) None).

(** ** The world *)

Record world := mkWorld {
  account_text : string;
  annex_text : string;
  races : nat;
  facts : list transition_fact;
  local : option ClientRemovalTarget;
  events_state : EmitterState;
  descriptors : gmap (option string) DescriptorStoreRead
}.
#[export] Instance local_cell : Cell world (option ClientRemovalTarget) := {|
  get_cell := local;
  set_cell v w := mkWorld (account_text w) (annex_text w) (races w) (facts w) v (events_state w) (descriptors w)
|}.
#[export] Instance local_laws : CellLaws world (option ClientRemovalTarget).
Proof. by intros w s. Qed.
#[export] Instance events_cell : Cell world EmitterState := {|
  get_cell := events_state;
  set_cell v w := mkWorld (account_text w) (annex_text w) (races w) (facts w) (local w) v (descriptors w)
|}.
Definition noting (fact : transition_fact) (w : world) : world :=
  mkWorld (account_text w) (annex_text w) (races w) (fact :: facts w) (local w) (events_state w) (descriptors w).
Definition serving (text : string) (races : nat) (w : world) : world :=
  mkWorld text (annex_text w) races (facts w) (local w) (events_state w) (descriptors w).
Definition serving_annex (text : string) (w : world) : world :=
  mkWorld (account_text w) text (races w) (facts w) (local w) (events_state w) (descriptors w).
Definition describing (k : option string) (read : DescriptorStoreRead) (w : world) : world :=
  mkWorld (account_text w) (annex_text w) (races w) (facts w) (local w) (events_state w) (<[k := read]> (descriptors w)).
Definition past (fact : transition_fact) (w : world) : Prop := fact ∈ facts w.

Definition refused : js_error := JsError "PreconditionFailedError" "".
Definition put_account (write : PutIdResource) : comp world (option (option string)) := λ w,
  match put_content write with
  | WebDocument _ => (Ok None, w)
  | LogText text =>
      if decide (races w ≠ 0) then (Throw refused, serving (account_text w) (pred (races w)) w)
      else if decide (put_ifMatch write ≠ Some (account_text w)) then (Throw refused, w)
      else if decide (log_of text = None) then (Throw (plain_error "refused"), w)
      else (Ok (Some (Some text)), serving text (races w) w)
  end.
Definition pins : ResourceLogPinStore world := mkPinStore (λ _, mret None) (λ _ _, mret ()).
Definition account_store : WebvhIdStore world :=
  mkIdStore (λ _ w, (Ok (Some (account_text w, Some (account_text w))), w)) put_account pins "id".
Definition put_annex (write : PutIdResource) : comp world (option (option string)) := λ w,
  match put_content write with
  | WebDocument _ => (Ok None, w)
  | LogText text => if decide (put_ifMatch write = Some (annex_text w)) then (Ok (Some (Some text)), serving_annex text w) else (Throw refused, w)
  end.
Definition annex_read (w : world) : option (string * option string) := Some (annex_text w, Some (annex_text w)).
Definition annex_store (parts : ClientAnnexDidParts) : WebvhIdStore world :=
  mkIdStore (λ _ w, (Ok (annex_read w), noting (generation_answered parts (annex_read w)) w)) put_annex pins "annex".

#[export] Instance annex_host : AnnexHost world := {|
  describeWithEtag _ := mret None;
  configureSpace _ _ types := mret (mkSpaceRead (Some types) None);
  configureCollection _ _ := mret ();
  randomSuffix := mret "cccccccccccccccc";
  spaceUrlById base spaceId := (base ++ spaceId)%string;
  rootCapabilityId := id;
  pathnameOf := Ok;
  decodeURIComponent := Ok
|}.

Definition next_etag (etag : option string) : option string := Some ("v" ++ default "" etag)%string.
Definition store_at (k : option string) : EncryptionDescriptorStore world :=
  mkDescriptorStore (λ w, (Ok (descriptors w !! k), w))
    (λ next etag w,
       if decide (etag = (descriptors w !! k) ≫= read_etag) then (Ok (), describing k (mkRead next (next_etag etag)) w)
       else (Throw refused, w))
    None (Some (mret false)) (Some (λ _, mret ())).

Definition client_kid : string := rosterRecipientKid "c1" "xc1".
Definition passkey_kid : string := "did:key:ps#pk".
Definition roster : CollectionEncryption := mkDescriptor (Some "did:key:uk0")
  (Some [mkEpoch "did:key:uk0" (wrap_of "did:key:uk0" <$> [client_kid; passkey_kid])]).
Definition rebind (anchor : Rebind) : comp world () := λ w, (Ok (), noting (record_rebound anchor) w).
Definition reach : AnnexReach (W:=world) :=
  mkReach annex_store (λ zcap w, (Ok (), noting (revocation_answered zcap None) w)) "https://host/" "account".
Definition forgetting : LastForgetOptions (W:=world) :=
  mkLastForgetOptions account_store (Some account_store) "L" (mkRevoked "c1" "u") "xc1" [] did (store_at None)
    (mkKeyAgreement passkey_kid "") None (Some "did:key:uk0") None
    (mkCollections (GivenIds []) (λ id, store_at (Some id)) (Some (λ _, mret true))) reach (Some rebind) 5000.
Definition delegating (signer key : string) : Delegator world := λ options, mret (delegation "urn:new").
Definition silent : Logger world := λ _, mret ().
Definition account : world := mkWorld "0" "old" 1 [] None fresh_emitter {[None := mkRead roster (Some "1")]}.
Definition transition_run : CeremonyRun := mkRun "last-client-transition" "r" [] [].
Local Notation outcome := (forgetLastEnrolledClientCore updateDID silent delegating transition_run forgetting account).

(** ** What holds of it *)

Definition params_of (text : string) : list string * list string := from_option currentLogParameters ([], []) (log_of text).

(** An account log without the client's key was put with the record
    re-bound. *)
Definition rebound_first (w : world) : Prop :=
  "u" ∉ (params_of (account_text w)).1 → ∃ anchor, record_rebound anchor ∈ facts w.
Definition stated_head (published : PublishedWebvhLog) : Prop :=
  ∃ text, pub_etag published = Some text ∧ pub_updateKeys published = (params_of text).1.
Local Notation holds := (EntryDiscipline.known rebound_first past).

Lemma remembered_holds F fact w : holds F w → holds (fact :: F) (noting fact w).
Proof.
  intros [Hi HF]. split; [intros Hu; destruct (Hi Hu) as [anchor Ha]; exists anchor; by right|].
  intros f [->|Hf]%elem_of_cons; [by left|]. right. by apply HF.
Qed.

Lemma account_reads F : store_keeps (holds F) stated_head account_store.
Proof.
  constructor; [|by intros ? w|by intros ? ? w]. intros w Hw. cbn. split; [|exact Hw].
  intros text etag log published [= <- <-] Hlog Hr. exists (account_text w). cbn [readLogFromString resolver] in Hlog.
  unfold params_of. destruct (log_of (account_text w)) as [log'|]; [|done]. injection Hlog as ->.
  unfold resolvedHead in Hr. cbn -[currentLogParameters last_doc] in Hr. destruct (document_id (last_doc log)); [done|].
  injection Hr as <-. cbn -[currentLogParameters]. split; [done|]. by destruct (currentLogParameters log).
Qed.

Lemma put_params log signer A C doc text :
  log_of (text_of (log ++ [step "next" signer A C doc])) = Some text → currentLogParameters text = (A, C).
Proof.
  set (log' := log ++ _). assert (currentLogParameters log' = (A, C)) as <-
    by (unfold currentLogParameters, effectiveParameters, log'; by rewrite (Demo.effective_last _ _ _ _ A C)).
  unfold text_of. destruct (list_find _ known) as [[i [name l]]|] eqn:Hf; [|done]. apply list_find_Some in Hf as (Hi & Hr & _).
  unfold reading in Hr. cbn [snd] in Hr. injection Hr as Hr _ _. cbn [from_option snd fst]. intros Hl. rewrite <- Hr. f_equal.
  repeat (destruct i as [|i]; [cbn in Hi; injection Hi as <- <-; vm_compute in Hl; by injection Hl as <-|]). done.
Qed.

(** A put of an entry keeps the claim where the client's key is left in, or
    the record is re-bound. *)
Lemma account_put_holds F published signer A C doc :
  stated_head published → ("u" ∉ A → "u" ∉ pub_updateKeys published ∨ ∃ anchor, record_rebound anchor ∈ F) →
  keeps (holds F) (log_put account_store (pub_log published ++ [step "next" signer A C doc]) (pub_etag published)).
Proof.
  intros (text & -> & Hkeys) HA w [Hi HF]. unfold log_put. cbn -[text_of log_of]. unfold put_account. cbn -[text_of log_of].
  case_decide; [done|]. case_decide as He; [done|]. case_decide as Hl; [done|]. split; [|done].
  destruct (log_of (text_of (pub_log published ++ [step "next" signer A C doc]))) as [log|] eqn:Hlog; [|done].
  unfold rebound_first. cbn [serving account_text facts]. unfold params_of. rewrite Hlog. cbn [from_option].
  rewrite (put_params _ _ _ _ _ _ Hlog). cbn [fst]. intros [Hu|[anchor Ha]]%HA; [|exists anchor; by apply HF].
  injection He as ->.
  apply Hi. by rewrite <- Hkeys.
Qed.

Lemma forgetting_environment : transition_environment updateDID silent delegating rebound_first past stated_head forgetting account_store rebind.
Proof.
  constructor; intros; try (intros w Hw; exact Hw); try (intros w Hw; by apply remembered_holds); try done; try apply account_reads.
  - by intros v w Hw.
  - by intros v w Hw.
  - destruct H0 as (key & _ & _ & _ & k & signer & A & C & _ & [HA _] & Hu). injection Hu as <-.
    apply account_put_holds; [done|]. intros Hn. left. intros Hin. apply Hn, HA. by left.
  - assert (∀ k, descriptors_keep (holds []) (store_at k)) as Hst.
    { intros k. constructor; [by intros w Hw|intros next etag w Hw; cbn; by case_decide|]. intros seal setMinimum [= <- <-].
      split; [by intros w Hw|by intros controller w Hw]. }
    constructor; cbn; [apply Hst|done|done|by intros f id [= <-] w Hw|intros id; apply Hst].
  - intros w Hw. cbn. unfold put_annex. destruct (put_content put); [|exact Hw]. case_decide; exact Hw.
  - destruct H as (Hk & (fields & _ & _ & _ & k & signer & A & C & _ & _ & Hu) & anchor & _ & Hr & _). injection Hu as <-.
    apply account_put_holds; [done|]. intros _. right. by exists anchor.
Qed.

Lemma last_client_removed_last_witness :
  match outcome with
  | (Ok r, w) =>
      transition_returns updateDID stated_head forgetting r ∧ account_text w = "3" ∧ annex_text w = "new" ∧
      (∃ anchor, record_rebound anchor ∈ facts w) ∧ lf_generation r = mkGeneration ["urn:old"] true None ∧
      ladderVmIds (lf_document r) = [vm_id did ladder_key] ∧ enrolledClientVmIds (lf_document r) = []
  | _ => False
  end.
Proof.
  pose proof (last_client_removed_last updateDID silent delegating rebound_first past stated_head transition_run forgetting account
    library_laws ltac:(intros store seam [= <-] [= <-]; exact forgetting_environment)
    ltac:(intros Hn; exfalso; apply Hn; apply (bool_decide_eq_true_1 _); by vm_compute)) as H.
  assert (match outcome with
          | (Ok r, w) => (account_text w, annex_text w, lf_generation r, ladderVmIds (lf_document r), enrolledClientVmIds (lf_document r))
          | _ => ("", "", mkGeneration [] false None, [], [])
          end = ("3", "new", mkGeneration ["urn:old"] true None, [vm_id did ladder_key], [])) as Hv by (vm_compute; reflexivity).
  destruct outcome as [[r|err] w]; [|done]. destruct H as [Hr Hi]. injection Hv as Ht Ha Hg Hl He.
  split_and!; [done..| |done|done|done]. apply Hi. rewrite Ht. apply (bool_decide_eq_true_1 _). by vm_compute.
Defined.
End LastClientDemo.
