(* ===== verification/AnnexHeal.v ===== *)
(** * The annex a visit heals

    [src/src/clientAnnex/heal.ts]: what a session holding one standing
    credential mends before it enrolls; with it the single-verb capability of
    [spaceCapability.ts] it probes with, the bridge of
    [src/src/recovery/recoveryDelegation.ts] it renews, and the bare did:key
    agent of [zcap.ts] it creates a Space as. *)

From S2P Require Import Prelude Json JsText ConnEntry CeremonyEvents AccountDocument LadderRungs AccountLog LogStore KeyRotation LadderIndex LadderInventory ClientListing ClientRevocation AccountEntry UserKeyRoster AnnexDocument AnnexLog AnnexGenesis AnnexGc LastClient.

(** ** Refusals *)

Inductive ClientAnnexGenerationUnavailableReason := ladder_vm_not_anchored | update_key_not_attributable.

Definition ClientAnnexGenerationUnavailableError (reason : ClientAnnexGenerationUnavailableReason) : js_error :=
  JsError "ClientAnnexGenerationUnavailableError"
    match reason with
    | ladder_vm_not_anchored => "This credential's ladder VM is not a verification method of the account document, so a transient visit cannot mend the client annex."
    | update_key_not_attributable => "The account log carries no rung of this credential's ladder, or the attribution is ambiguous; the pointer entry could not be signed, so nothing is minted."
    end.

Definition OnRebindRecordMissing : js_error :=
  JsError "TypeError" "ensureCredentialClientAnnexGeneration requires onRebindRecord: a fresh bridge or sibling delegation must be re-sealed into the unlock record.".

(** ** Data *)

(** The verified view of the account log. *)
Record AccountView := mkAccountView { av_did : string; av_doc : AccountDocument; av_log : DIDLog }.

(** The ladder VM's key as a bare did:key. *)
Record KeyAgent := mkAgent { ka_id : string; ka_seed : string }.

(** The storage client that signs as a key agent: its Space calls, its
    Metadata request, and [space(id).configure] over a description just
    read. *)
Record BootstrapClient (W : Type) := mkBootstrap {
  bc_annex : AnnexHost W;
  bc_gc : GcHost W;
  bc_configure : string → SpaceDescriptionRead → string → comp W ()
}.
Arguments mkBootstrap {W}.
Arguments bc_annex {W}.
Arguments bc_gc {W}.
Arguments bc_configure {W}.

Record SpaceResolution := mkSpaceResolution {
  rs_pointer : option string;
  rs_siblingSpaceId : option string;
  rs_annexSpaceId : option string
}.

Record ClientAnnexGenerationEnsureOutcome := mkEnsureOutcome {
  he_clientAnnexDid : string;
  he_generationDelegation : json;
  he_delegation : json;
  he_delegatedClients : json;
  he_generationMinted : bool;
  he_spaceMinted : bool;
  he_pointedSpaceMissing : bool;
  he_delegationRenewed : bool;
  he_siblingReminted : bool;
  he_bridgeReminted : bool;
  he_bridgeResealError : option js_error;
  he_generationLog : option PublishedWebvhLog
}.

Definition DELETION_ZCAP_TTL_MS : Z := 10 * 60 * 1000.
Inductive SpaceCapabilityVerb := verb_DELETE | verb_GET | verb_POST | verb_PUT.
Definition verbName (verb : SpaceCapabilityVerb) : string :=
  match verb with verb_DELETE => "DELETE" | verb_GET => "GET" | verb_POST => "POST" | verb_PUT => "PUT" end.

Definition RECOVERY_DELEGATION_TTL_MS : Z := STANDING_ZCAP_TTL_MS.

Section heal.
Context {W : Type} {readers : DocumentReaders} {resolver : WebvhResolver} {writer : WebvhWriter}
  {hashes : HashLibrary} {keys : WebvhKeys} {twins : TwinLibrary} {host : JsHost} {signers : SignerReaders}
  {addresses : WebvhAddresses} {digest : ReplicaDigest} {pws : PwsResources W} {annex_host : AnnexHost W} {gc_host : GcHost W}.
Variables (updateDID : UpdateDID) (createDID : CreateDID) (logger : Logger W).
Variables (zcapClientForSigner : string → string → Delegator W).

(** [spaceMetaUrl] of the storage client's paths, and thirty-two random bytes
    as base64url. *)
Variables (spaceMetaUrl : string → string) (mintSpaceId : comp W string).

(** ** Capabilities *)

Definition spaceVerbTarget (baseServerUrl spaceId : string) (verb : SpaceCapabilityVerb) : string :=
  let spaceUrl := spaceUrlById baseServerUrl spaceId in
  match verb with verb_GET => spaceMetaUrl spaceUrl | _ => spaceUrl end.

(** The child of a Space's synthesized root, which has no expiry of its own. *)
Definition mintSpaceRootVerbCapability (delegate : Delegator W) (baseServerUrl spaceId : string) (verb : SpaceCapabilityVerb)
    (controller : string) (now : Z) : comp W json :=
  delegate (mkDelegate (Some (rootCapabilityId (spaceUrlById baseServerUrl spaceId))) (spaceVerbTarget baseServerUrl spaceId verb)
    controller [verbName verb] (now + DELETION_ZCAP_TTL_MS)%Z).

Definition delegateLogWrite (delegate : Delegator W) (spaceUrl recoveryClientDid : string) (now : Z) : comp W json :=
  target ← lift (accountLogUrl spaceUrl);
  delegate (mkDelegate None target recoveryClientDid ["PUT"] (now + RECOVERY_DELEGATION_TTL_MS)%Z).

Definition ladderVmAgent (ladderSeed : string) : result KeyAgent :=
  publicKeyMultibase ← ladderVmKeyMultibase ladderSeed;
  Ok (mkAgent ("did:key:" ++ publicKeyMultibase) (ladderVmSeed ladderSeed)).

Definition ladderSignedGenerationDelegationMinter (accountDid ladderSeed baseServerUrl spaceId : string) (now : Z) : Minter W :=
  λ clientAnnexDid,
    zcapClient ← lift (ladderVmZcapClient zcapClientForSigner accountDid ladderSeed);
    mintGenerationDelegation zcapClient baseServerUrl spaceId clientAnnexDid now.

(** ** The pointer *)

Definition resolveClientAnnexSpaceId (doc : AccountDocument) (delegatedClients : option json) : result SpaceResolution :=
  let pointer := delegatedClientsPointer doc in
  siblingSpaceId ← match delegatedClients with
                   | None => Ok None
                   | Some delegation => delegatedClientsDelegationSpaceId delegation
                   end;
  annexSpaceId ← match pointer with
                 | Some did => parts ← clientAnnexDidParts did; Ok (Some (ap_spaceId parts))
                 | None => Ok siblingSpaceId
                 end;
  Ok (mkSpaceResolution pointer siblingSpaceId annexSpaceId).

Definition attributePointerEntryRung (ladderSeed : string) (log : DIDLog) : result (LadderRung * LadderRungState) :=
  let current := currentLogParameters log in
  match attributeLadderRung ladderSeed current.1 current.2 LADDER_MAX_SCAN with
  | Ok attributed => Ok attributed
  | Throw err =>
      if decide (err_name err = "LadderAttributionError") then
        mthrow (ClientAnnexGenerationUnavailableError update_key_not_attributable)
      else mthrow err
  end.

Definition movedAsLadder (idStore : WebvhIdStore W) (ladderSeed clientAnnexDid accountDid : string)
    (projectionStore : option (WebvhIdStore W)) : PointerOptions (W:=W) :=
  mkPointerOptions idStore (ladder ladderSeed) clientAnnexDid (Some accountDid) projectionStore None.

Definition movePointerAsLadder (idStore : WebvhIdStore W) (ladderSeed clientAnnexDid accountDid : string)
    (projectionStore : option (WebvhIdStore W)) (published : option PublishedWebvhLog) : comp W PointerEntryOutcome :=
  setDelegatedClientsPointer updateDID logger (movedAsLadder idStore ladderSeed clientAnnexDid accountDid projectionStore) published.

(** ** The ensure *)

Record HealOptions := mkHeal {
  ho_baseServerUrl : string;
  ho_spaceId : string;
  ho_account : AccountView;
  ho_ladderSeed : string;
  ho_standingClientDid : string;
  ho_bootstrapPwsFor : KeyAgent → BootstrapClient W;
  ho_delegation : json;
  ho_idStoreFor : json → WebvhIdStore W;
  ho_onRebindRecord : option (json → json → comp W ());
  ho_delegatedClients : option json;
  ho_now : Z
}.

Section ensure.
Variables (o : HealOptions) (onRebindRecord : json → json → comp W ()).
Let account := ho_account o.
Let seed := ho_ladderSeed o.
Let now := ho_now o.

Definition zcapStale (zcap : json) : bool := standingZcapStale zcap (Some (av_doc account)) [] now.

Definition mintDelegation : Minter W :=
  ladderSignedGenerationDelegationMinter (av_did account) seed (ho_baseServerUrl o) (ho_spaceId o) now.

(** What the arms share: the ladder's client, the Space of the record's
    sibling, and the usable bridge. *)
Record Visit := mkVisitState {
  vs_ladderClient : Delegator W;
  vs_siblingSpaceId : option string;
  vs_usableBridge : json;
  vs_bridgeReminted : bool
}.
Implicit Types v : Visit.

Definition vs_idStore v : WebvhIdStore W := ho_idStoreFor o (vs_usableBridge v).

Definition renewBridge (ladderClient : Delegator W) : comp W (json * bool) :=
  if zcapStale (ho_delegation o) then
    usableBridge ← delegateLogWrite ladderClient (spaceUrlById (ho_baseServerUrl o) (ho_spaceId o)) (ho_standingClientDid o) now;
    mret (usableBridge, true)
  else mret (ho_delegation o, false).

Definition resealRecord v (usableSibling : json) (siblingReminted : bool) : comp W (option js_error) :=
  if negb siblingReminted && negb (vs_bridgeReminted v) then mret None
  else
    try_catch (onRebindRecord (vs_usableBridge v) usableSibling;; mret None)
      (λ err, if siblingReminted then mthrow err else mret (Some err)).

Definition mintFreshAnnexSpace : comp W string :=
  freshSpaceId ← mintSpaceId;
  keyAgent ← lift (ladderVmAgent seed);
  let bootstrapPws := ho_bootstrapPwsFor o keyAgent in
  created ← ensureClientAnnexSpace (annex_host := bc_annex bootstrapPws) freshSpaceId (ka_id keyAgent);
  bc_configure bootstrapPws freshSpaceId created (av_did account);;
  mret freshSpaceId.

Definition annexSpaceAbsent v (annexSpaceId : string) : comp W bool :=
  probe ← mintSpaceRootVerbCapability (vs_ladderClient v) (ho_baseServerUrl o) annexSpaceId verb_GET (ho_standingClientDid o) now;
  delegated ← readSpaceMetadata annexSpaceId (Some probe);
  match delegated with
  | space_present => mret false
  | space_not_found =>
      keyAgent ← lift (ladderVmAgent seed);
      asBootstrap ← readSpaceMetadata (gc_host := bc_gc (ho_bootstrapPwsFor o keyAgent)) annexSpaceId None;
      mret (match asBootstrap with space_not_found => true | space_present => false end)
  end.

(** The sibling the requests of one Space ride. *)
Definition usableSiblingIn v (annexSpaceId : string) : comp W (json * bool) :=
  let fresh :=
    sibling ← mintDelegatedClientsDelegation (vs_ladderClient v) (ho_baseServerUrl o) annexSpaceId (ho_standingClientDid o) now;
    mret (sibling, true) in
  match ho_delegatedClients o with
  | None => fresh
  | Some sibling =>
      if decide (vs_siblingSpaceId v ≠ Some annexSpaceId ∨ zcapStale sibling = true) then fresh else mret (sibling, false)
  end.

Definition generationStore v (annexSpaceId : string) (usableSibling : json) (generationId : string) : result (WebvhIdStore W) :=
  clientAnnexLogStore annexSpaceId generationId (id_pinStore (vs_idStore v)) (Some usableSibling).

(** What a renewal of the pointed generation is told. *)
Definition renewalOf (store : WebvhIdStore W) (pointer : string) : RenewOptions (W:=W) :=
  mkRenew store seed mintDelegation (Some pointer) (Some (av_doc account)) [] None now.

(** The pointed generation renewed in place, and the record re-sealed. *)
Definition renewPointed v (store : WebvhIdStore W) (pointer : string) (pointedLog : PublishedWebvhLog)
    (usableSibling : json) (siblingReminted spaceMinted pointedSpaceMissing : bool) : comp W ClientAnnexGenerationEnsureOutcome :=
  ensured ← ensureGenerationDelegationCurrent updateDID (renewalOf store pointer) (Some pointedLog);
  resealed ← resealRecord v usableSibling siblingReminted;
  mret (mkEnsureOutcome pointer (ens_delegation ensured) (vs_usableBridge v) usableSibling false spaceMinted pointedSpaceMissing
    (ens_renewed ensured) siblingReminted (vs_bridgeReminted v) resealed (ens_published ensured)).

(** The fresh generation's standing set and the replica pointers of the
    readable log it supersedes. *)
Definition restated (superseded : option PublishedWebvhLog) : option (list string) :=
  (λ p, standingRungHashesOf (pub_updateKeys p) (pub_nextKeyHashes p)) <$> superseded.
Definition carriedPointers (superseded : option PublishedWebvhLog) : option InstalledServices :=
  (λ p, replicaPointerInstaller (replicaServerPointers (pub_doc p))) <$> superseded.

Definition freshGeneration v (annexSpaceId : string) (usableSibling : json) (siblingReminted spaceMinted pointedSpaceMissing : bool)
    (superseded : option PublishedWebvhLog) : comp W ClientAnnexGenerationEnsureOutcome :=
  lift (attributePointerEntryRung seed (av_log account));;
  '(clientAnnexDid, generationDelegation, _) ← mintPointedClientAnnexGeneration updateDID createDID
    (mkPlace (ho_baseServerUrl o) annexSpaceId (id_pinStore (vs_idStore v)) (Some usableSibling)) (av_did account) seed mintDelegation
    (restated superseded) (carriedPointers superseded) None
    (λ clientAnnexDid, movePointerAsLadder (vs_idStore v) seed clientAnnexDid (av_did account) None None) now;
  resealed ← resealRecord v usableSibling siblingReminted;
  mret (mkEnsureOutcome clientAnnexDid generationDelegation (vs_usableBridge v) usableSibling true spaceMinted pointedSpaceMissing
    false siblingReminted (vs_bridgeReminted v) resealed None).

(** The run in one Space; [replacements] is how often the pointed Space may
    still be replaced: once, and not in a Space this visit created. *)
Fixpoint runInAnnexSpace (replacements : nat) v (annexSpaceId : string) (pointer : option string)
    (spaceMinted pointedSpaceMissing : bool) : comp W ClientAnnexGenerationEnsureOutcome :=
  '(usableSibling, siblingReminted) ← usableSiblingIn v annexSpaceId;
  let fresh := freshGeneration v annexSpaceId usableSibling siblingReminted spaceMinted pointedSpaceMissing in
  match pointer with
  | None => fresh None
  | Some did =>
      parts ← lift (clientAnnexDidParts did);
      store ← lift (generationStore v annexSpaceId usableSibling (ap_generationId parts));
      pointedLog ← readClientAnnexLogOrAbsent store (Some did);
      match pointedLog with
      | Some published =>
          commits ← lift (logCommitsRung seed (pub_updateKeys published) (pub_nextKeyHashes published));
          if commits : bool then
            answer ← try_catch
              (outcome ← renewPointed v store did published usableSibling siblingReminted spaceMinted pointedSpaceMissing;
               mret (Ok outcome))
              (λ err, if decide (err_name err = "ClientAnnexRungUncommittedError") then mret (Throw err) else mthrow err);
            match answer with
            | Ok outcome => mret outcome
            | Throw _ => superseded ← readClientAnnexLogOrAbsent store (Some did); fresh superseded
            end
          else fresh (Some published)
      | None =>
          match replacements with
          | 0 => fresh None
          | S replacements =>
              absent ← annexSpaceAbsent v annexSpaceId;
              if absent : bool then
                lift (attributePointerEntryRung seed (av_log account));;
                freshSpaceId ← mintFreshAnnexSpace;
                runInAnnexSpace replacements v freshSpaceId None true true
              else fresh None
          end
      end
  end.

Definition ensureCredentialClientAnnexGenerationChecked : comp W ClientAnnexGenerationEnsureOutcome :=
  vmKey ← lift (ladderVmKeyMultibase seed);
  if decide (vm_id (av_did account) vmKey ∉ ladderVmIds (av_doc account)) then
    mthrow (ClientAnnexGenerationUnavailableError ladder_vm_not_anchored)
  else
    resolved ← lift (resolveClientAnnexSpaceId (av_doc account) (ho_delegatedClients o));
    ladderClient ← lift (ladderVmZcapClient zcapClientForSigner (av_did account) seed);
    '(usableBridge, bridgeReminted) ← renewBridge ladderClient;
    let v := mkVisitState ladderClient (rs_siblingSpaceId resolved) usableBridge bridgeReminted in
    match rs_annexSpaceId resolved with
    | None =>
        lift (attributePointerEntryRung seed (av_log account));;
        freshSpaceId ← mintFreshAnnexSpace;
        runInAnnexSpace 0 v freshSpaceId None true false
    | Some annexSpaceId => runInAnnexSpace 1 v annexSpaceId (rs_pointer resolved) false false
    end.
End ensure.

Definition ensureCredentialClientAnnexGeneration (o : HealOptions) : comp W ClientAnnexGenerationEnsureOutcome :=
  match ho_onRebindRecord o with
  | None => mthrow OnRebindRecordMissing
  | Some onRebindRecord => ensureCredentialClientAnnexGenerationChecked o onRebindRecord
  end.
End heal.
