(* ===== verification/AnnexHealSafety.v ===== *)
(** * What a visit's heal may replace

    The ensure of [AnnexHeal] under what its storage clients answered: a Space
    is created, a generation minted and the account's pointer moved only on
    the evidence the stages before them gather. *)

From S2P Require Import Prelude Json JsText ConnEntry CeremonyEvents AccountDocument LadderRungs AccountLog LogStore KeyRotation LadderIndex LadderInventory ClientListing ClientRevocation AccountEntry EntryDiscipline UserKeyRoster AnnexDocument AnnexLog AnnexGenesis AnnexDiscipline AnnexGc AnnexGcSafety LastClient AnnexHeal.

(** ** Computations that learn *)

Section grows.
Context {W Fact : Type} (I : W → Prop) (past : Fact → W → Prop).
Local Notation known := (known I past).

(** From facts [F], the computation ends with more facts, of which [Q]
    holds; what it throws forgets none. *)
Definition grows {A} (F : list Fact) (c : comp W A) (Q : A → list Fact → Prop) : Prop :=
  triple (known F) c (λ a w, ∃ F', (F ⊆ F' ∧ Q a F') ∧ known F' w) (λ _, known F).

Lemma grows_ret {A} F (a : A) (Q : A → list Fact → Prop) : Q a F → grows F (mret a) Q.
Proof. intros Hq. apply triple_ret. intros w Hw. by exists F. Qed.

Lemma grows_throw {A} F (e : js_error) (Q : A → list Fact → Prop) : grows F (mthrow e : comp W A) Q.
Proof. by apply triple_throw. Qed.

Lemma grows_lift {A} F (r : result A) (Q : A → list Fact → Prop) : (∀ a, r = Ok a → Q a F) → grows F (lift r) Q.
Proof. intros Hq. apply triple_lift. intros w Hw. destruct r as [a|]; [|done]. exists F. auto. Qed.

Lemma grows_bind {A B} F (c : comp W A) (k : A → comp W B) Q R :
  grows F c Q → (∀ a F', F ⊆ F' → Q a F' → grows F' (k a) R) → grows F (c ≫= k) R.
Proof.
  intros Hc Hk. eapply triple_bind; [exact Hc|]. intros a. apply triple_exists. intros F'. apply triple_pure. intros [Hs Hq].
  eapply triple_conseq; [apply (Hk a F' Hs Hq)|done| |intros e w; by apply known_mono].
  intros b w (F'' & [Hs' Hr] & Hw). exists F''. split; [split; [by etrans|done]|done].
Qed.

Lemma grows_post {A} F (c : comp W A) (Q R : A → list Fact → Prop) :
  grows F c Q → (∀ a F', F ⊆ F' → Q a F' → R a F') → grows F c R.
Proof. intros Hc Hr. eapply triple_post; [exact Hc| |done]. intros a w (F' & [Hs Hq] & Hw). exists F'. auto. Qed.

Lemma grows_try {A} F (c : comp W A) h (Q : A → list Fact → Prop) : grows F c Q → (∀ e, grows F (h e) Q) → grows F (try_catch c h) Q.
Proof. intros Hc Hh. eapply triple_try; [exact Hc|done]. Qed.

Lemma grows_keeps {A} F (c : comp W A) : keeps (known F) c → grows F c (λ _ _, True).
Proof. intros Hc. eapply triple_post; [exact Hc| |done]. intros a w Hw. by exists F. Qed.

Lemma grows_told {A} F (c : comp W A) (P : A → Prop) : triple (known F) c (λ a w, P a ∧ known F w) (λ _, known F) → grows F c (λ a _, P a).
Proof. intros Hc. eapply triple_post; [exact Hc| |done]. intros a w [Hp Hw]. by exists F. Qed.

Lemma grows_fact {A} F (c : comp W A) (f : A → Fact) (P : A → Prop) :
  triple (known F) c (λ a w, P a ∧ known (f a :: F) w) (λ _, known F) → grows F c (λ a F', P a ∧ f a ∈ F').
Proof. intros Hc. eapply triple_post; [exact Hc| |done]. intros a w [Hp Hw]. exists (f a :: F). split; [split; [set_solver|split; [done|by left]]|done]. Qed.

Lemma grows_keeps_bind {A B} F (c : comp W A) (k : A → comp W B) R :
  keeps (known F) c → (∀ a, grows F (k a) R) → grows F (c ≫= k) R.
Proof. intros Hc Hk. eapply triple_bind; [exact Hc|done]. Qed.

Lemma grows_lift_bind {A B} F (r : result A) (k : A → comp W B) R : (∀ a, r = Ok a → grows F (k a) R) → grows F (lift r ≫= k) R.
Proof.
  intros Hk. eapply (triple_bind _ _ _ (λ a w, r = Ok a ∧ known F w)).
  { apply triple_lift. intros w Hw. by destruct r. }
  intros a. apply triple_pure. apply Hk.
Qed.

(** What threw it can be named by the run that threw. *)
Lemma grows_caught {A} F (c : comp W A) (h : js_error → comp W A) (Q : A → list Fact → Prop) :
  grows F c Q → (∀ e, (∃ w w', c w = (Throw e, w')) → grows F (h e) Q) → grows F (try_catch c h) Q.
Proof.
  intros Hc Hh. eapply (triple_try _ _ _ _ _ (λ e w', (∃ w, c w = (Throw e, w')) ∧ known F w')).
  - intros w Hw. specialize (Hc w Hw). destruct (c w) as [[a|e] w'] eqn:He; [done|]. split; [by exists w|done].
  - intros e w' [[w He] Hw]. apply (Hh e); [by exists w, w'|done].
Qed.
End grows.

(** ** Evidence *)

(** What a heal was told. *)
Inductive heal_fact :=
  | zcap_minted (options : DelegateOptions) (zcap : json)
  | log_answered (handle : CollectionHandle) (read : option (string * option string))
  | metadata_answered (capability : option json) (spaceId : string) (answer : result Z)
  | controller_set (spaceId : string)
  | genesis_put (handle : CollectionHandle) (text : string)
  | record_resealed (bridge sibling : json).

Section evidence.
Context {W : Type} {readers : DocumentReaders} {resolver : WebvhResolver} {writer : WebvhWriter}
  {hashes : HashLibrary} {keys : WebvhKeys} {host : JsHost} {signers : SignerReaders}
  {addresses : WebvhAddresses} {digest : ReplicaDigest} {pws : PwsResources W} {annex_host : AnnexHost W} {gc_host : GcHost W}.
Variables (updateDID : UpdateDID) (createDID : CreateDID) (logger : Logger W) (zcapClientForSigner : string → string → Delegator W).
Variables (spaceMetaUrl : string → string) (mintSpaceId : comp W string).
Variables (I : W → Prop) (past : heal_fact → W → Prop) (K : PublishedWebvhLog → Prop) (G : CollectionHandle → PublishedWebvhLog → Prop).
Variables (o : HealOptions (W:=W)) (rebind : json → json → comp W ()).
Implicit Types (F : list heal_fact) (published : PublishedWebvhLog) (spaceId : string).
Local Notation known := (known I past).
Local Notation grows := (grows I past).
Local Notation account := (ho_account o).
Local Notation seed := (ho_ladderSeed o).

(** The ladder VM of the credential stands in the verified document, and the
    verified log carries a rung of its ladder. *)
Definition able : Prop :=
  (∃ key, ladderVmKeyMultibase seed = Ok key ∧ vm_id (av_did account) key ∈ ladderVmIds (av_doc account)) ∧
  ∃ attributed, attributePointerEntryRung seed (av_log account) = Ok attributed.

(** A usable delegation is the record's own, and not stale, or one the
    ladder's client minted in this run for what it is used for. *)
Definition usable (reminted : bool) (minted : Prop) (own : option json) (zcap : json) : Prop :=
  if reminted then minted else own = Some zcap ∧ zcapStale o zcap = false.

Definition bridge_usable F (reminted : bool) (bridge : json) : Prop :=
  usable reminted
    (∃ target, accountLogUrl (spaceUrlById (ho_baseServerUrl o) (ho_spaceId o)) = Ok target ∧
       zcap_minted (mkDelegate None target (ho_standingClientDid o) ["PUT"] (ho_now o + RECOVERY_DELEGATION_TTL_MS)%Z) bridge ∈ F)
    (Some (ho_delegation o)) bridge.

Definition sibling_usable F spaceId (reminted : bool) (sibling : json) : Prop :=
  let spaceUrl := spaceUrlById (ho_baseServerUrl o) spaceId in
  usable reminted
    (zcap_minted (mkDelegate (Some (rootCapabilityId spaceUrl)) spaceUrl (ho_standingClientDid o)
       DELEGATED_CLIENTS_DELEGATION_ACTIONS (ho_now o + DELEGATED_CLIENTS_DELEGATION_TTL_MS)%Z) sibling ∈ F)
    (ho_delegatedClients o) sibling ∧
  (reminted = false → delegatedClientsDelegationSpaceId sibling = Ok (Some spaceId)).

(** A Metadata answer that is a 404. *)
Definition unfound (client : GcHost W) (answer : result Z) : Prop :=
  match answer with Ok status => status = 404%Z | Throw err => rawRequestStatus (gc_host := client) err = Some (jint 404) end.

(** Two readers of the Space, each the controller's where the other is not,
    were answered a 404. *)
Definition gone F spaceId : Prop :=
  ∃ probe agent answer answer',
    zcap_minted (mkDelegate (Some (rootCapabilityId (spaceUrlById (ho_baseServerUrl o) spaceId)))
      (spaceVerbTarget spaceMetaUrl (ho_baseServerUrl o) spaceId verb_GET) (ho_standingClientDid o) ["GET"]
      (ho_now o + DELETION_ZCAP_TTL_MS)%Z) probe ∈ F ∧
    metadata_answered (Some probe) spaceId answer ∈ F ∧ unfound gc_host answer ∧
    ladderVmAgent seed = Ok agent ∧
    metadata_answered None spaceId answer' ∈ F ∧ unfound (bc_gc (ho_bootstrapPwsFor o agent)) answer'.

Definition generation_of (parts : ClientAnnexDidParts) (sibling : json) : CollectionHandle :=
  plaintextCollection (ap_spaceId parts) (ap_generationId parts) (Some sibling).

Definition answers (read : option (string * option string)) (published : option PublishedWebvhLog) : Prop :=
  match published with Some p => resolves read p | None => read = None end.

(** A renewal over a head that committed the rung was refused as
    uncommitted: the rung left the log meanwhile. *)
Definition renewal_refused F (pointer : string) (handle : CollectionHandle) : Prop :=
  ∃ first published v store sibling reminted created missing err w w',
    log_answered handle first ∈ F ∧ resolves first published ∧
    logCommitsRung seed (pub_updateKeys published) (pub_nextKeyHashes published) = Ok true ∧
    renewPointed updateDID zcapClientForSigner o rebind v store pointer published sibling reminted created missing w = (Throw err, w') ∧
    err_name err = "ClientAnnexRungUncommittedError".

(** Why a fresh generation may be pointed at, and what it supersedes: the
    account points at none; or the log of the one it points at is absent, or
    readable and without this credential's rung. *)
Definition supersedes F (superseded : option PublishedWebvhLog) : Prop :=
  match delegatedClientsPointer (av_doc account) with
  | None => superseded = None
  | Some pointer => ∃ parts sibling read, clientAnnexDidParts pointer = Ok parts ∧
      log_answered (generation_of parts sibling) read ∈ F ∧ answers read superseded ∧
      match superseded with
      | None => True
      | Some published =>
          logCommitsRung seed (pub_updateKeys published) (pub_nextKeyHashes published) = Ok false ∨
          renewal_refused F pointer (generation_of parts sibling)
      end
  end.

(** The pointed Space is gone, and with it the log. *)
Definition space_gone F : Prop :=
  ∃ pointer parts sibling, delegatedClientsPointer (av_doc account) = Some pointer ∧ clientAnnexDidParts pointer = Ok parts ∧
    log_answered (generation_of parts sibling) None ∈ F ∧ gone F (ap_spaceId parts).

(** Nothing names a Space, or the one named is gone. *)
Definition may_create F : Prop :=
  able ∧ ((∃ resolved, resolveClientAnnexSpaceId (av_doc account) (ho_delegatedClients o) = Ok resolved ∧ rs_annexSpaceId resolved = None) ∨
    space_gone F).

(** The Space the account or the record names, or one this run created and
    handed to the account. *)
Definition works_in F spaceId : Prop :=
  (∃ resolved, resolveClientAnnexSpaceId (av_doc account) (ho_delegatedClients o) = Ok resolved ∧ rs_annexSpaceId resolved = Some spaceId) ∨
  controller_set spaceId ∈ F.

Definition may_mint F spaceId : Prop := able ∧ works_in F spaceId ∧ ∃ superseded, supersedes F superseded.

(** The generation's genesis was put, under a usable sibling, committing this
    credential's rung and the standing set of the log it supersedes. *)
Definition mints F (did : string) (superseded : option PublishedWebvhLog) : Prop :=
  ∃ spaceId generationId sibling reminted rung signer created,
    works_in F spaceId ∧ sibling_usable F spaceId reminted sibling ∧
    clientAnnexRung seed = Ok rung ∧ updateKeySigner (annex_seed rung) = Ok signer ∧
    createClientAnnexLog createDID (ho_baseServerUrl o) spaceId generationId (annex_key rung)
      (genesisHashes (deriveNextKeyHash (annex_key rung)) (default [] (restated superseded))) signer = Ok created ∧
    gen_did created = did ∧
    genesis_put (plaintextCollection spaceId generationId (Some sibling)) (logToJsonlString (gen_log created)) ∈ F.

Definition may_point F (did : string) : Prop := able ∧ ∃ superseded, supersedes F superseded ∧ mints F did superseded.

Definition pointing (bridge : json) (did : string) : PointerOptions (W:=W) :=
  movedAsLadder (ho_idStoreFor o bridge) seed did (av_did account) None.

(** What the storage clients, the ladder's client and the record's seam are
    assumed to do: they answer, and only what the evidence allows is asked of
    them. *)
Record heal_environment : Prop := {
  he_env_delegate F key options : ladderVmKeyMultibase seed = Ok key →
    triple (known F) (zcapClientForSigner (vm_id (av_did account) key) (ladderVmSeed seed) options)
      (λ zcap, known (zcap_minted options zcap :: F)) (λ _, known F);
  he_env_account F bridge : store_keeps (known F) K (ho_idStoreFor o bridge);
  he_env_logger F event : keeps (known F) (logger event);
  he_env_read F handle : triple (known F) (getTextWithEtag handle DID_LOG_RESOURCE)
    (λ read, known (log_answered handle read :: F)) (λ _, known F);
  he_env_heads handle read w : past (log_answered handle read) w → heads (G handle) read;
  he_env_update F handle text etag : keeps (known F) (putBytes handle DID_LOG_RESOURCE text "text/jsonl" etag false);
  he_env_random F : keeps (known F) randomSuffix;
  he_env_space_id F : keeps (known F) mintSpaceId;
  he_env_metadata F spaceId capability : triple (known F) (requestSpaceMeta spaceId (Some capability))
    (λ status, known (metadata_answered (Some capability) spaceId (Ok status) :: F))
    (λ err, known (metadata_answered (Some capability) spaceId (Throw err) :: F));
  he_env_bootstrap_metadata F agent spaceId :
    triple (known F) (requestSpaceMeta (GcHost := bc_gc (ho_bootstrapPwsFor o agent)) spaceId None)
      (λ status, known (metadata_answered None spaceId (Ok status) :: F))
      (λ err, known (metadata_answered None spaceId (Throw err) :: F));
  he_env_describe F agent spaceId : keeps (known F) (describeWithEtag (AnnexHost := bc_annex (ho_bootstrapPwsFor o agent)) spaceId);
  he_env_create F agent spaceId : may_create F → ladderVmAgent seed = Ok agent →
    keeps (known F) (configureSpace (AnnexHost := bc_annex (ho_bootstrapPwsFor o agent)) spaceId (ka_id agent) CLIENT_ANNEX_SPACE_TYPE);
  he_env_flip F agent spaceId read : may_create F → ladderVmAgent seed = Ok agent →
    triple (known F) (bc_configure (ho_bootstrapPwsFor o agent) spaceId read (av_did account))
      (λ _, known (controller_set spaceId :: F)) (λ _, known F);
  he_env_collection F handle name : may_mint F (h_spaceId handle) → keeps (known F) (configureCollection handle name);
  he_env_genesis F handle text : may_mint F (h_spaceId handle) →
    triple (known F) (putBytes handle DID_LOG_RESOURCE text "text/jsonl" None true)
      (λ _, known (genesis_put handle text :: F)) (λ _, known F);
  he_env_point F bridge reminted did published updated :
    bridge_usable F reminted bridge → may_point F did → K published → repoints updateDID (pointing bridge did) published updated →
    keeps (known F) (log_put (ho_idStoreFor o bridge) (upd_log updated) (pub_etag published));
  he_env_rebind F bridge reminted spaceId reminted' sibling :
    bridge_usable F reminted bridge → works_in F spaceId → sibling_usable F spaceId reminted' sibling →
    triple (known F) (rebind bridge sibling) (λ _, known (record_resealed bridge sibling :: F)) (λ _, known F)
}.

(** The record holds whatever was minted; only a lost re-seal of a bridge is
    reported instead. *)
Definition recorded F (bridge sibling : json) (bridgeReminted siblingReminted : bool) (resealError : option js_error) : Prop :=
  match resealError with
  | None => siblingReminted || bridgeReminted = true → record_resealed bridge sibling ∈ F
  | Some _ => siblingReminted = false ∧ bridgeReminted = true
  end.

(** The pointed generation stands, renewed, or a fresh one is pointed at. *)
Definition generation_healed F (r : ClientAnnexGenerationEnsureOutcome) : Prop :=
  if he_generationMinted r then
    ∃ superseded pointed, supersedes F superseded ∧ mints F (he_clientAnnexDid r) superseded ∧
      pointed_truly updateDID K (pointing (he_delegation r) (he_clientAnnexDid r)) pointed
  else
    delegatedClientsPointer (av_doc account) = Some (he_clientAnnexDid r) ∧
    ∃ store handle, renewed_truly updateDID (G handle) (renewalOf zcapClientForSigner o store (he_clientAnnexDid r))
      (mkEnsured (he_generationDelegation r) (he_delegationRenewed r) (he_generationLog r)).

Definition healed F (r : ClientAnnexGenerationEnsureOutcome) : Prop :=
  bridge_usable F (he_bridgeReminted r) (he_delegation r) ∧
  (∃ spaceId, works_in F spaceId ∧ sibling_usable F spaceId (he_siblingReminted r) (he_delegatedClients r)) ∧
  recorded F (he_delegation r) (he_delegatedClients r) (he_bridgeReminted r) (he_siblingReminted r) (he_bridgeResealError r) ∧
  (he_pointedSpaceMissing r = true → space_gone F) ∧
  generation_healed F r.

Hypothesis env : heal_environment.

(** ** Evidence is not lost *)

Lemma usable_mono (minted minted' : Prop) reminted own zcap : (minted → minted') → usable reminted minted own zcap → usable reminted minted' own zcap.
Proof. destruct reminted; cbn; auto. Qed.

Lemma bridge_mono F F' reminted bridge : F ⊆ F' → bridge_usable F reminted bridge → bridge_usable F' reminted bridge.
Proof. intros Hs. apply usable_mono. intros (target & Ht & Hin). exists target. auto. Qed.

Lemma sibling_mono F F' spaceId reminted sibling : F ⊆ F' → sibling_usable F spaceId reminted sibling → sibling_usable F' spaceId reminted sibling.
Proof. intros Hs [Hu Hd]. split; [|done]. eapply usable_mono; [|exact Hu]. auto. Qed.

Lemma gone_mono F F' spaceId : F ⊆ F' → gone F spaceId → gone F' spaceId.
Proof. intros Hs (probe & agent & a & a' & H). exists probe, agent, a, a'. naive_solver. Qed.

Lemma space_gone_mono F F' : F ⊆ F' → space_gone F → space_gone F'.
Proof. intros Hs (pointer & parts & sibling & H1 & H2 & H3 & H4). exists pointer, parts, sibling. split_and!; [done..|auto|by eapply gone_mono]. Qed.

Lemma supersedes_mono F F' superseded : F ⊆ F' → supersedes F superseded → supersedes F' superseded.
Proof.
  intros Hs. unfold supersedes. destruct (delegatedClientsPointer _) as [pointer|]; [|done].
  intros (parts & sibling & read & Hp & Hr & Ha & Hc). exists parts, sibling, read. split_and!; [done|auto|done|].
  destruct superseded as [published|]; [|done]. destruct Hc as [Hc|Hc]; [by left|right].
  destruct Hc as (first & p & v & store & sib & reminted & created & missing & err & w & w' & Hf & Hrest).
  exists first, p, v, store, sib, reminted, created, missing, err, w, w'. auto.
Qed.

Lemma works_mono F F' spaceId : F ⊆ F' → works_in F spaceId → works_in F' spaceId.
Proof. intros Hs [Hw|Hw]; [by left|right; auto]. Qed.

Lemma mints_mono F F' did superseded : F ⊆ F' → mints F did superseded → mints F' did superseded.
Proof.
  intros Hs (spaceId & generationId & sibling & reminted & rung & signer & created & Hw & Hu & H).
  exists spaceId, generationId, sibling, reminted, rung, signer, created.
  split; [by eapply works_mono|]. split; [by eapply sibling_mono|]. destruct H as (? & ? & ? & ? & ?). split_and!; auto.
Qed.

Lemma create_mono F F' : F ⊆ F' → may_create F → may_create F'.
Proof. intros Hs [Ha [Hc|Hc]]; (split; [done|]); [by left|right; by eapply space_gone_mono]. Qed.

Lemma mint_mono F F' spaceId : F ⊆ F' → may_mint F spaceId → may_mint F' spaceId.
Proof. intros Hs (Ha & Hw & superseded & Hsu). split_and!; [done|by eapply works_mono|exists superseded; by eapply supersedes_mono]. Qed.

(** ** The stages *)

(** What the arms are handed. *)
Definition visit_ok F (v : Visit (W:=W)) : Prop :=
  (∃ key, ladderVmKeyMultibase seed = Ok key ∧ vs_ladderClient v = zcapClientForSigner (vm_id (av_did account) key) (ladderVmSeed seed)) ∧
  bridge_usable F (vs_bridgeReminted v) (vs_usableBridge v) ∧
  ∃ resolved, resolveClientAnnexSpaceId (av_doc account) (ho_delegatedClients o) = Ok resolved ∧ vs_siblingSpaceId v = rs_siblingSpaceId resolved.

Lemma visit_mono F F' v : F ⊆ F' → visit_ok F v → visit_ok F' v.
Proof. intros Hs (Hk & Hb & Hr). split_and!; [done|by eapply bridge_mono|done]. Qed.

Lemma mints_zcap F client options :
  (∃ key, ladderVmKeyMultibase seed = Ok key ∧ client = zcapClientForSigner (vm_id (av_did account) key) (ladderVmSeed seed)) →
  grows F (client options) (λ zcap F', zcap_minted options zcap ∈ F').
Proof.
  intros (key & Hk & ->). eapply grows_post; [eapply (grows_fact _ _ _ _ (zcap_minted options) (λ _, True))|by intros zcap F' _ [_ ?]].
  eapply triple_post; [by apply (he_env_delegate env)|by intros zcap w Hw|done].
Qed.

Lemma bridge_renewed F client :
  (∃ key, ladderVmKeyMultibase seed = Ok key ∧ client = zcapClientForSigner (vm_id (av_did account) key) (ladderVmSeed seed)) →
  grows F (renewBridge o client) (λ renewed F', bridge_usable F' renewed.2 renewed.1).
Proof.
  intros Hc. unfold renewBridge. destruct (zcapStale o (ho_delegation o)) eqn:Hst; [|by apply grows_ret].
  unfold delegateLogWrite. eapply (grows_bind _ _ _ _ _ (λ zcap F', bridge_usable F' true zcap)).
  { apply grows_lift_bind. intros target Ht. eapply grows_post; [by apply mints_zcap|]. intros zcap F' _ Hz. by exists target. }
  intros zcap F' _ Hz. by apply grows_ret.
Qed.

Lemma sibling_opened F v spaceId :
  visit_ok F v → grows F (usableSiblingIn o v spaceId) (λ opened F', sibling_usable F' spaceId opened.2 opened.1).
Proof.
  intros (Hc & _ & resolved & Hr & Hsib). unfold usableSiblingIn.
  assert (grows F (sibling ← mintDelegatedClientsDelegation (vs_ladderClient v) (ho_baseServerUrl o) spaceId (ho_standingClientDid o) (ho_now o);
    mret (sibling, true)) (λ opened F', sibling_usable F' spaceId opened.2 opened.1)) as Hfresh.
  { eapply grows_bind; [by apply mints_zcap|]. intros zcap F' _ Hz. apply grows_ret. by split. }
  destruct (ho_delegatedClients o) as [sibling|] eqn:Ho; [|exact Hfresh]. case_decide as Hd; [exact Hfresh|].
  apply grows_ret. split; [split; [done|]; destruct (zcapStale o sibling) eqn:Hst; [destruct Hd; by right|done]|]. intros _.
  cbn [fst]. unfold resolveClientAnnexSpaceId in Hr. apply result_bind_ok in Hr as (sp & Hsp & Hr). apply result_bind_ok in Hr as (an & _ & [= <-]).
  cbn in Hsib. destruct (decide (vs_siblingSpaceId v = Some spaceId)) as [He|]; [|destruct Hd; by left]. by rewrite Hsp, <- Hsib, He.
Qed.

(** A Metadata read, and the answer it rests on. *)
Lemma metadata_read {client : GcHost W} F spaceId capability :
  triple (known F) (requestSpaceMeta spaceId capability) (λ status, known (metadata_answered capability spaceId (Ok status) :: F))
    (λ err, known (metadata_answered capability spaceId (Throw err) :: F)) →
  grows F (readSpaceMetadata spaceId capability)
    (λ answer F', answer = space_not_found → ∃ a, metadata_answered capability spaceId a ∈ F' ∧ unfound client a).
Proof.
  intros Hr. unfold readSpaceMetadata.
  eapply (grows_bind _ _ _ _ _ (λ status F', match status with
    | Some status => metadata_answered capability spaceId (Ok status) ∈ F'
    | None => ∃ err, metadata_answered capability spaceId (Throw err) ∈ F' ∧ unfound client (Throw err) end)).
  - unfold EntryDiscipline.known in *.
    eapply (triple_try _ _ _ _ _ (λ err, EntryDiscipline.known I past (metadata_answered capability spaceId (Throw err) :: F))).
    + eapply triple_bind; [exact Hr|]. intros status. apply triple_ret. intros w Hw. eexists. split; [split; [|by left]|exact Hw]. set_solver.
    + intros err. case_decide.
      * apply triple_ret. intros w Hw. eexists. split; [split; [|exists err; split; [by left|done]]|exact Hw]. set_solver.
      * apply triple_throw. intros w. apply known_mono. set_solver.
  - intros [status|] F' _ Hs; [|apply grows_ret; intros _; destruct Hs as (err & ? & ?); by exists (Throw err)].
    case_decide; [by apply grows_ret|]. case_decide; [|by apply grows_throw]. apply grows_ret. intros _. by exists (Ok status).
Qed.

Lemma space_probed F v spaceId :
  visit_ok F v → grows F (annexSpaceAbsent spaceMetaUrl o v spaceId) (λ absent F', absent = true → gone F' spaceId).
Proof.
  intros (Hc & _). unfold annexSpaceAbsent, mintSpaceRootVerbCapability. eapply grows_bind; [by apply mints_zcap|]. intros probe F1 _ Hp.
  eapply grows_bind; [apply metadata_read, (he_env_metadata env)|]. intros [|] F2 Hs2 Hd; [by apply grows_ret|].
  destruct (Hd eq_refl) as (a & Ha & Hua). apply grows_lift_bind. intros agent Hag.
  eapply grows_bind; [apply (metadata_read (client := bc_gc (ho_bootstrapPwsFor o agent))), (he_env_bootstrap_metadata env)|].
  intros [|] F3 Hs3 Hb; [by apply grows_ret|]. destruct (Hb eq_refl) as (a' & Ha' & Hua'). apply grows_ret. intros _.
  exists probe, agent, a, a'. split_and!; auto.
Qed.

Lemma space_minted F :
  may_create F → grows F (mintFreshAnnexSpace mintSpaceId o) (λ spaceId F', controller_set spaceId ∈ F').
Proof.
  intros Hc. unfold mintFreshAnnexSpace. apply grows_keeps_bind; [apply (he_env_space_id env)|]. intros spaceId.
  apply grows_lift_bind. intros agent Hag. apply grows_keeps_bind.
  { unfold ensureClientAnnexSpace. apply keeps_bind; [apply (he_env_describe env)|]. intros [read|]; [apply keeps_lift|].
    apply keeps_bind; [by apply (he_env_create env)|intros; apply keeps_lift]. }
  intros read. eapply grows_bind.
  - eapply (grows_fact _ _ _ _ (λ _, controller_set spaceId) (λ _, True)).
    eapply triple_post; [by apply (he_env_flip env)|by intros u w Hw|done].
  - intros u F' _ [_ Hin]. by apply grows_ret.
Qed.

Lemma record_sealed F v spaceId sibling reminted :
  visit_ok F v → works_in F spaceId → sibling_usable F spaceId reminted sibling →
  grows F (resealRecord rebind v sibling reminted)
    (λ failed F', recorded F' (vs_usableBridge v) sibling (vs_bridgeReminted v) reminted failed).
Proof.
  intros (_ & Hb & _) Hw Hs. unfold resealRecord. destruct (negb reminted && negb (vs_bridgeReminted v)) eqn:Hn.
  { apply grows_ret. intros Ho. by destruct reminted, (vs_bridgeReminted v). }
  apply grows_try.
  - eapply grows_bind.
    + eapply (grows_fact _ _ _ _ (λ _, record_resealed (vs_usableBridge v) sibling) (λ _, True)).
      eapply triple_post; [by eapply (he_env_rebind env)|by intros u w ?|done].
    + intros u F' _ [_ Hin]. apply grows_ret. by intros _.
  - intros err. destruct reminted; [apply grows_throw|]. apply grows_ret. by destruct (vs_bridgeReminted v).
Qed.

(** ** A generation's log *)

Definition storeIn v spaceId (generationId : string) (sibling : json) : WebvhIdStore W :=
  pwsWebvhLogStore spaceId generationId (id_pinStore (vs_idStore o v)) (Some sibling).

Lemma store_opened spaceId generationId pins capability store :
  clientAnnexLogStore spaceId generationId pins capability = Ok store → store = pwsWebvhLogStore spaceId generationId pins capability.
Proof. unfold clientAnnexLogStore. rewrite result_bind_ok. by intros (? & _ & [= <-]). Qed.

Lemma log_keeps F v spaceId generationId sibling :
  store_keeps (known F) (G (plaintextCollection spaceId generationId (Some sibling))) (storeIn v spaceId generationId sibling).
Proof.
  constructor; [|apply (he_env_account env)..]. eapply triple_post; [apply (he_env_read env)| |done].
  intros read w Hw. split; [|eapply known_mono; [|exact Hw]; set_solver]. eapply (he_env_heads env). destruct Hw as [_ Hf]. apply Hf. by left.
Qed.

Lemma log_read F v spaceId generationId sibling did :
  grows F (readClientAnnexLogOrAbsent (storeIn v spaceId generationId sibling) did)
    (λ answer F', ∃ read, log_answered (plaintextCollection spaceId generationId (Some sibling)) read ∈ F' ∧ answers read answer ∧
       ∀ p, answer = Some p → G (plaintextCollection spaceId generationId (Some sibling)) p).
Proof.
  unfold readClientAnnexLogOrAbsent. set (handle := plaintextCollection spaceId generationId (Some sibling)).
  eapply triple_post; [apply (read_records I past (storeIn v spaceId generationId sibling) (log_answered handle));
    [intros F'; apply (he_env_read env)|intros F'; apply (he_env_account env)..]| |done].
  intros answer w (read & Hr & Hw). exists (log_answered handle read :: F). split; [split; [set_solver|]|exact Hw].
  exists read. split; [by left|]. split; [done|]. intros p ->. destruct Hr as (text & etag & log & -> & Hl & Hh).
  destruct Hw as [_ Hf]. eapply (he_env_heads env); [apply Hf; by left|done..].
Qed.

Lemma minter_keeps F did : keeps (known F) (mintDelegation zcapClientForSigner o did).
Proof.
  unfold mintDelegation, ladderSignedGenerationDelegationMinter. eapply (triple_bind _ _ _ (λ client w, (∃ key, ladderVmKeyMultibase seed = Ok key ∧
    client = zcapClientForSigner (vm_id (av_did account) key) (ladderVmSeed seed)) ∧ known F w)).
  { apply triple_lift. intros w Hw. unfold ladderVmZcapClient. destruct (ladderVmKeyMultibase seed) as [key|] eqn:Hk; [|done]. cbn. eauto. }
  intros client. apply triple_pure. intros Hc. unfold mintGenerationDelegation. apply keeps_bind; [apply keeps_lift|]. intros parts.
  eapply triple_post; [by apply mints_zcap| |done]. intros zcap w (F' & [Hs _] & Hw). by eapply known_mono.
Qed.

Lemma delegation_renewed F v spaceId generationId sibling (P : PublishedWebvhLog → Prop) renewal head :
  ro_store renewal = storeIn v spaceId generationId sibling → ro_mintGenerationDelegation renewal = mintDelegation zcapClientForSigner o →
  (∀ p, G (plaintextCollection spaceId generationId (Some sibling)) p → P p) → (∀ p, head = Some p → P p) →
  grows F (ensureGenerationDelegationCurrent updateDID renewal head) (λ ensured _, renewed_truly updateDID P renewal ensured).
Proof.
  intros Hst Hm HG Hh. apply grows_told, renew_keeps; rewrite ?Hst, ?Hm; [|done|apply minter_keeps|].
  - destruct (log_keeps F v spaceId generationId sibling) as [Hraw Hpr Hpw]. constructor; [|done..].
    eapply triple_post; [exact Hraw| |done]. intros read w [Hd Hw]. split; [|done]. intros text etag log p Hr Hl Hp. apply HG. by eapply Hd.
  - intros p updated _ _. apply (he_env_update env).
Qed.

(** ** A fresh generation *)

Lemma genesis_published F v spaceId generationId sibling text :
  may_mint F spaceId →
  grows F (putLogResource (storeIn v spaceId generationId sibling) text None true)
    (λ _ F', genesis_put (plaintextCollection spaceId generationId (Some sibling)) (logToJsonlString text) ∈ F').
Proof.
  intros Hm. unfold putLogResource. eapply grows_bind.
  - apply grows_try; [|intros e; apply grows_throw].
    eapply (grows_fact _ _ _ _ (λ _, genesis_put (plaintextCollection spaceId generationId (Some sibling)) (logToJsonlString text)) (λ _, True)).
    eapply triple_post; [by apply (he_env_genesis env)|by intros u w ?|done].
  - intros written F' _ [_ Hin]. apply grows_lift_bind. intros pin _.
    eapply grows_bind; [apply grows_keeps, (he_env_account env)|]. intros u F'' Hs _. apply grows_ret. auto.
Qed.

Lemma pointer_moved F v did :
  visit_ok F v → may_point F did →
  grows F (movePointerAsLadder updateDID logger (vs_idStore o v) seed did (av_did account) None None)
    (λ pointed _, pointed_truly updateDID K (pointing (vs_usableBridge v) did) pointed).
Proof.
  intros (_ & Hb & _) Hm. apply grows_told, pointer_keeps; [apply (he_env_account env)|done|apply (he_env_logger env)|done|].
  intros published updated HK Hr. by eapply (he_env_point env).
Qed.

Lemma generation_minted F v spaceId sibling reminted superseded :
  able → visit_ok F v → works_in F spaceId → sibling_usable F spaceId reminted sibling → supersedes F superseded →
  grows F (mintPointedClientAnnexGeneration updateDID createDID
      (mkPlace (ho_baseServerUrl o) spaceId (id_pinStore (vs_idStore o v)) (Some sibling)) (av_did account) seed
      (mintDelegation zcapClientForSigner o) (restated superseded) (carriedPointers superseded) None
      (λ did, movePointerAsLadder updateDID logger (vs_idStore o v) seed did (av_did account) None None) (ho_now o))
    (λ minted F', mints F' minted.1.1 superseded ∧ pointed_truly updateDID K (pointing (vs_usableBridge v) minted.1.1) minted.2).
Proof.
  intros Hable Hv Hw Hs Hsup. assert (may_mint F spaceId) as Hmay by (split_and!; eauto).
  unfold mintPointedClientAnnexGeneration. eapply (grows_bind _ _ _ _ _ (λ minted F',
    mints F' (pub_did (min_published minted)) superseded)).
  - unfold mintCredentialClientAnnexGeneration. cbn [mp_capability mp_spaceId].
    apply grows_keeps_bind; [apply keeps_ret|]. intros description.
    apply grows_keeps_bind; [apply keeps_bind; [apply (he_env_random env)|intros; apply keeps_ret]|]. intros generationId.
    apply grows_lift_bind. intros rung Hrung. apply grows_lift_bind. intros signer Hsigner.
    unfold publishClientAnnexGenesis. cbn [mp_capability mp_spaceId mp_pinStore mp_baseServerUrl].
    eapply (grows_bind _ _ _ _ _ (λ published F', mints F' (pub_did published) superseded)); [|intros published F' _ Hp; by apply grows_ret].
    apply grows_keeps_bind; [by apply (he_env_collection env)|]. intros u. apply grows_lift_bind. intros created Hcreated.
    apply grows_lift_bind. intros store ->%store_opened. eapply grows_bind; [by apply (genesis_published F v)|].
    intros etag F' Hs' Hput. apply grows_ret.
    exists spaceId, generationId, sibling, reminted, rung, signer, created.
    split_and!; [by eapply works_mono|by eapply sibling_mono|done..].
  - intros minted F1 Hs1 Hminted. apply grows_lift_bind. intros store ->%store_opened. cbn [mp_capability mp_spaceId mp_pinStore].
    eapply grows_bind; [apply (delegation_renewed F1 v spaceId (min_generationId minted) sibling (λ _, True)); done|].
    intros ensured F2 Hs2 _. apply grows_keeps_bind; [apply keeps_ret|]. intros u.
    eapply grows_bind; [apply (pointer_moved F2 v)|].
    + eapply visit_mono; [|exact Hv]. set_solver.
    + split; [done|]. exists superseded. split; [eapply supersedes_mono; [|exact Hsup]; set_solver|by eapply mints_mono].
    + intros pointed F3 Hs3 Hp. apply grows_ret. split; [|done]. eapply mints_mono; [|exact Hminted]. set_solver.
Qed.

(** ** The arms *)

Section arms.
Hypothesis gated : ∃ key, ladderVmKeyMultibase seed = Ok key ∧ vm_id (av_did account) key ∈ ladderVmIds (av_doc account).

Lemma attributed_able attributed : attributePointerEntryRung seed (av_log account) = Ok attributed → able.
Proof. intros Ha. split; [exact gated|by exists attributed]. Qed.

Lemma fresh_heals F v spaceId sibling reminted created missing superseded :
  visit_ok F v → works_in F spaceId → sibling_usable F spaceId reminted sibling → supersedes F superseded →
  (missing = true → space_gone F) →
  grows F (freshGeneration updateDID createDID logger zcapClientForSigner o rebind v spaceId sibling reminted created missing superseded)
    (λ r F', healed F' r).
Proof.
  intros Hv Hw Hs Hsup Hgone. unfold freshGeneration. apply grows_lift_bind. intros attributed Hat%attributed_able.
  eapply grows_bind; [by eapply generation_minted|]. intros [[did delegation] pointed] F1 Hs1 [Hm Hp].
  assert (visit_ok F1 v) as Hv1 by by eapply visit_mono. cbn in Hm, Hp.
  eapply grows_bind; [eapply record_sealed; [done|by eapply works_mono|by eapply sibling_mono]|]. intros failed F2 Hs2 Hrec.
  apply grows_ret. split_and!; cbn.
  - destruct Hv1 as (_ & Hb & _). by eapply bridge_mono.
  - exists spaceId. split; [eapply works_mono; [|exact Hw]|eapply sibling_mono; [|exact Hs]]; set_solver.
  - done.
  - intros Hmi. eapply space_gone_mono; [|by apply Hgone]. set_solver.
  - exists superseded, pointed. split_and!; [eapply supersedes_mono; [|exact Hsup]; set_solver|by eapply mints_mono|done].
Qed.

Lemma renewal_heals F v spaceId generationId sibling reminted created missing did published :
  visit_ok F v → works_in F spaceId → sibling_usable F spaceId reminted sibling →
  delegatedClientsPointer (av_doc account) = Some did → G (plaintextCollection spaceId generationId (Some sibling)) published →
  (missing = true → space_gone F) →
  grows F (renewPointed updateDID zcapClientForSigner o rebind v (storeIn v spaceId generationId sibling) did published sibling reminted created missing)
    (λ r F', healed F' r).
Proof.
  intros Hv Hw Hs Hptr HG Hgone. unfold renewPointed.
  eapply grows_bind; [apply (delegation_renewed F v spaceId generationId sibling (G (plaintextCollection spaceId generationId (Some sibling)))); [done..|by intros ? [= <-]]|].
  intros ensured F1 Hs1 He. assert (visit_ok F1 v) as Hv1 by by eapply visit_mono.
  eapply grows_bind; [eapply record_sealed; [done|by eapply works_mono|by eapply sibling_mono]|]. intros failed F2 Hs2 Hrec.
  apply grows_ret. split_and!; cbn.
  - destruct Hv1 as (_ & Hb & _). by eapply bridge_mono.
  - exists spaceId. split; [eapply works_mono; [|exact Hw]|eapply sibling_mono; [|exact Hs]]; set_solver.
  - done.
  - intros Hmi. eapply space_gone_mono; [|by apply Hgone]. set_solver.
  - unfold generation_healed. cbn. split; [done|]. eexists _, _. destruct ensured. exact He.
Qed.

Lemma unpointed_heals n F v spaceId created missing :
  visit_ok F v → works_in F spaceId → supersedes F None → (missing = true → space_gone F) →
  grows F (runInAnnexSpace updateDID createDID logger zcapClientForSigner spaceMetaUrl mintSpaceId o rebind n v spaceId None created missing)
    (λ r F', healed F' r).
Proof.
  intros Hv Hw Hsup Hgone. assert (∀ sibling reminted F', F ⊆ F' → sibling_usable F' spaceId reminted sibling →
    grows F' (freshGeneration updateDID createDID logger zcapClientForSigner o rebind v spaceId sibling reminted created missing None)
      (λ r F'', healed F'' r)) as Hfresh.
  { intros sibling reminted F' Hs Hu. apply fresh_heals; [by eapply visit_mono|by eapply works_mono|done|by eapply supersedes_mono|].
    intros Hmi. by eapply space_gone_mono, Hgone. }
  destruct n; cbn [runInAnnexSpace]; (eapply grows_bind; [by apply sibling_opened|]); intros [sibling reminted] F' Hs Hu; by apply Hfresh.
Qed.

(** The renewal's answer, and what an uncommitted one rests on. *)
Lemma renewal_answers F v spaceId generationId sibling reminted created missing did published :
  visit_ok F v → works_in F spaceId → sibling_usable F spaceId reminted sibling →
  delegatedClientsPointer (av_doc account) = Some did → G (plaintextCollection spaceId generationId (Some sibling)) published →
  (missing = true → space_gone F) →
  let renewal := renewPointed updateDID zcapClientForSigner o rebind v (storeIn v spaceId generationId sibling) did published sibling reminted created missing in
  grows F (try_catch (outcome ← renewal; mret (Ok outcome))
      (λ err, if decide (err_name err = "ClientAnnexRungUncommittedError") then mret (Throw err) else mthrow err))
    (λ answer F', match answer with
      | Ok r => healed F' r
      | Throw err => err_name err = "ClientAnnexRungUncommittedError" ∧ ∃ w w', renewal w = (Throw err, w')
      end).
Proof.
  intros Hv Hw Hs Hptr HG Hgone renewal. apply grows_caught.
  - eapply grows_bind; [by apply renewal_heals|]. intros r F' _ Hr. by apply grows_ret.
  - intros err (w & w' & Hc). case_decide; [|apply grows_throw]. apply grows_ret. split; [done|]. exists w, w'.
    unfold mbind, comp_bind in Hc. fold renewal in Hc. by destruct (renewal w) as [[r|e] w1]; simplify_eq/=.
Qed.

Lemma pointed_heals F v did parts :
  visit_ok F v → delegatedClientsPointer (av_doc account) = Some did → clientAnnexDidParts did = Ok parts → works_in F (ap_spaceId parts) →
  grows F (runInAnnexSpace updateDID createDID logger zcapClientForSigner spaceMetaUrl mintSpaceId o rebind 1 v (ap_spaceId parts) (Some did) false false)
    (λ r F', healed F' r).
Proof.
  intros Hv Hptr Hparts Hw. cbn [runInAnnexSpace]. eapply grows_bind; [by apply sibling_opened|]. intros [sibling reminted] F1 Hs1 Hu.
  cbn [fst snd] in Hu. rewrite Hparts. apply grows_lift_bind. intros ? [= <-]. apply grows_lift_bind. intros store ->%store_opened.
  set (handle := generation_of parts sibling).
  assert (∀ F' superseded, F1 ⊆ F' → supersedes F' superseded →
    grows F' (freshGeneration updateDID createDID logger zcapClientForSigner o rebind v (ap_spaceId parts) sibling reminted false false superseded)
      (λ r F'', healed F'' r)) as Hfresh.
  { intros F' superseded Hs Hsup. apply fresh_heals; [|by eapply works_mono, Hw; set_solver|by eapply sibling_mono|done..].
    eapply visit_mono; [|exact Hv]. set_solver. }
  eapply grows_bind; [apply (log_read F1 v)|]. fold handle. intros [published|] F2 Hs2 (read & Hread & Hans & HG).
  - apply grows_lift_bind. intros commits Hcommits. destruct commits.
    + eapply grows_bind; [apply (renewal_answers F2 v); [eapply visit_mono; [|exact Hv]; set_solver|eapply works_mono; [|exact Hw]; set_solver|
        by eapply sibling_mono|done|by apply HG|done]|].
      intros [r|err] F3 Hs3 Hr; [by apply grows_ret|]. destruct Hr as (Hname & w & w' & Hthrow).
      eapply grows_bind; [apply (log_read F3 v)|]. fold handle. intros superseded F4 Hs4 (again & Hagain & Hans' & _).
      apply Hfresh; [set_solver|]. unfold supersedes. rewrite Hptr. exists parts, sibling, again. split_and!; [done..|].
      destruct superseded as [latest|]; [right|done].
      exists read, published, v, (storeIn v (ap_spaceId parts) (ap_generationId parts) sibling), sibling, reminted, false, false, err, w, w'.
      split_and!; [auto|done..].
    + apply Hfresh; [set_solver|]. unfold supersedes. rewrite Hptr. exists parts, sibling, read. split_and!; [done..|by left].
  - assert (supersedes F2 None) as Hsup by (unfold supersedes; rewrite Hptr; exists parts, sibling, read; by split_and!).
    eapply grows_bind; [apply space_probed; eapply visit_mono; [|exact Hv]; set_solver|]. intros [|] F3 Hs3 Habsent.
    + assert (space_gone F3) as Hgone.
      { exists did, parts, sibling. split_and!; [done..| |by apply Habsent]. cbn in Hans. rewrite <- Hans. auto. }
      apply grows_lift_bind. intros attributed Hable%attributed_able.
      eapply grows_bind; [apply space_minted; split; [done|by right]|]. intros spaceId F4 Hs4 Hset.
      apply (unpointed_heals 0); [eapply visit_mono; [|exact Hv]; set_solver|by right|eapply supersedes_mono; [|exact Hsup]; set_solver|].
      intros _. by eapply space_gone_mono.
    + apply Hfresh; [set_solver|by eapply supersedes_mono].
Qed.
End arms.

(** C10: what a visit's heal may replace. However the storage clients answer and
    however often a race is lost, the ensure mints a generation and moves the
    account's pointer only where the credential's ladder VM stands in the
    verified document and its log carries a rung of the ladder, and only for a
    reason it was told: the account points at no generation, or the log of the
    one it points at answered absent, or readable and without this
    credential's rung; a readable log's standing set is in the fresh genesis,
    which was put, under a usable sibling delegation, before an entry names
    it. A Space is created only where none is named, or where the pointed log
    is absent and two readers of the Space were both answered a 404; a
    generation is minted in a created Space only after its
    controller was set to the account. A heal that returns gives usable
    delegations, the record holding every one it minted, save a bridge whose
    lost re-seal it reports, and either the pointed generation with a current
    delegation or the fresh one pointed at. Without the ladder VM in the
    document it refuses and asks nothing of anyone. *)
Theorem heal_replaces_only_the_dead :
  ho_onRebindRecord o = Some rebind →
  triple (known []) (ensureCredentialClientAnnexGeneration updateDID createDID logger zcapClientForSigner spaceMetaUrl mintSpaceId o)
    (λ r w, (∃ F, (∀ fact, fact ∈ F → past fact w) ∧ healed F r) ∧ I w) (λ _, I) ∧
  (∀ key w, ladderVmKeyMultibase seed = Ok key → vm_id (av_did account) key ∉ ladderVmIds (av_doc account) →
     ensureCredentialClientAnnexGeneration updateDID createDID logger zcapClientForSigner spaceMetaUrl mintSpaceId o w =
       (Throw (ClientAnnexGenerationUnavailableError ladder_vm_not_anchored), w)).
Proof.
  intros Ho. unfold ensureCredentialClientAnnexGeneration. rewrite Ho. split; cycle 1.
  { intros key w Hk Hno. unfold ensureCredentialClientAnnexGenerationChecked. rewrite Hk. unfold mbind, comp_bind, lift. cbn. by rewrite decide_True. }
  assert (grows [] (ensureCredentialClientAnnexGenerationChecked updateDID createDID logger zcapClientForSigner spaceMetaUrl mintSpaceId o rebind)
    (λ r F, healed F r)) as Hgrows.
  2:{ eapply triple_conseq; [exact Hgrows|done|intros r w (F & [_ Hr] & [Hi HF]); split; [by exists F|exact Hi]|by intros e w [Hi _]]. }
  unfold ensureCredentialClientAnnexGenerationChecked. apply grows_lift_bind. intros key Hk.
  case_decide as Hvm; [apply grows_throw|].
  assert (∃ key, ladderVmKeyMultibase seed = Ok key ∧ vm_id (av_did account) key ∈ ladderVmIds (av_doc account)) as gated.
  { exists key. split; [done|]. by destruct (decide (vm_id (av_did account) key ∈ ladderVmIds (av_doc account))). }
  apply grows_lift_bind. intros resolved Hres. apply grows_lift_bind. intros client Hclient.
  assert (∃ key, ladderVmKeyMultibase seed = Ok key ∧ client = zcapClientForSigner (vm_id (av_did account) key) (ladderVmSeed seed)) as Hc.
  { exists key. split; [done|]. unfold ladderVmZcapClient in Hclient. rewrite Hk in Hclient. by injection Hclient as <-. }
  eapply grows_bind; [by apply bridge_renewed|]. intros [bridge reminted] F1 _ Hb.
  set (v := mkVisitState client (rs_siblingSpaceId resolved) bridge reminted).
  assert (visit_ok F1 v) as Hv by (split_and!; [done..|by exists resolved]).
  pose proof Hres as Hparts. unfold resolveClientAnnexSpaceId in Hparts. apply result_bind_ok in Hparts as (sp & _ & Hparts).
  apply result_bind_ok in Hparts as (an & Han & Hreseq).
  destruct (rs_annexSpaceId resolved) as [spaceId|] eqn:Hsp.
  - assert (works_in F1 spaceId) as Hw by (left; by exists resolved).
    destruct (rs_pointer resolved) as [did|] eqn:Hptr; injection Hreseq as <-; cbn in Hsp, Hptr; subst an; rewrite Hptr in Han.
    + apply result_bind_ok in Han as (parts & Hp & [= <-]). by apply pointed_heals.
    + apply (unpointed_heals gated 1); [done|done| |done]. unfold supersedes. by rewrite Hptr.
  - apply grows_lift_bind. intros attributed Hat. assert able as Hable by (split; [exact gated|by exists attributed]).
    eapply grows_bind; [apply space_minted; split; [done|left; by exists resolved]|]. intros spaceId F2 Hs2 Hset.
    apply (unpointed_heals gated 0); [by eapply visit_mono|by right| |done]. unfold supersedes. injection Hreseq as <-. cbn in Hsp. subst an.
    destruct (delegatedClientsPointer (av_doc account)); [|done]. apply result_bind_ok in Han as (? & _ & ?). done.
Qed.
End evidence.
