(* ===== verification/AnnexHealDemo.v ===== *)
(** * A concrete heal

    A visit to an account whose pointed generation is gone with its Space:
    two readers are answered a 404, a fresh Space and generation are made, and
    the pointer is moved through a lost race. *)

From S2P Require Import Prelude Json JsText ConnEntry CeremonyEvents AccountDocument LadderRungs LadderDemo AccountLog LogStore KeyRotation LadderIndex LadderInventory ClientListing ClientRevocation AccountEntry ClientDemo EntryDiscipline UserKeyRoster AnnexDocument AnnexLog AnnexGenesis AnnexDiscipline AnnexGc AnnexGcSafety AnnexDemo LastClient AnnexHeal AnnexHealSafety.

Module AnnexHealDemo.
#[local] Existing Instance AnnexDemo.hashes.
#[local] Existing Instance AnnexDemo.host.
#[local] Existing Instance AnnexDemo.signers.
#[local] Existing Instance AnnexDemo.addresses.
#[local] Existing Instance AnnexDemo.digest.

(** ** The logs *)

Definition did : string := "did:account".
Definition ladder_key : string := ladderDerive "L" LADDER_VM_INFO.
Definition gone_did : string := AnnexDemo.annex_did AnnexDemo.genA.
Definition fresh_did : string := "did:webvh:s:host:space:fresh:gen-cccccccccccccccc".
Definition account_doc (pointed : string) : AccountDocument :=
  mkDocument did (Some [ClientDemo.signing_method "c1"])
    (λ relation, Some (match relation with
       | capabilityDelegation => [Reference (vm_id did "c1"); Reference (vm_id did ladder_key)]
       | _ => [Reference (vm_id did "c1")]
       end)) (Some [delegatedClientsServiceEntry did pointed]).
Definition entry (signer : string) (A C : list string) (doc : AccountDocument) : DIDLogEntry := AnnexDemo.entry "now" signer A C doc.
Definition log0 : DIDLog := [entry "u" ["u"] ["#u"; "#s"; "#L/rung/0"] (account_doc gone_did)].
Definition log1 : DIDLog :=
  log0 ++ [entry "L/rung/0" ["u"; "L/rung/0"] ["#u"; "#s"; "#L/rung/0"; "#L/rung/1"] (account_doc fresh_did)].
Definition genesis (keys hashes : list string) : DIDLog := [entry "L/annex/rung/0" keys hashes (AnnexDemo.doc_of fresh_did [] [])].
Definition born : DIDLog := genesis ["L/annex/rung/0"] ["#L/annex/rung/0"].
Definition installed : DIDLog :=
  born ++ [entry "L/annex/rung/0" ["L/annex/rung/0"] ["#L/annex/rung/0"]
    (AnnexDemo.doc_of fresh_did [] [generationDelegationServiceEntry fresh_did (JObj [])])].
Definition known : list (string * DIDLog) := [("0", log0); ("1", log1); ("born", born); ("installed", installed)].

(** What tells the known logs apart. *)
Definition reading (log : DIDLog) : list string * list string * option string * nat :=
  (currentLogParameters log, (last log ≫= state) ≫= delegatedClientsPointer, length (from_option services_of [] (last log ≫= state))).
Definition text_of (log : DIDLog) : string :=
  match list_find (λ k : string * DIDLog, reading k.2 = reading log) known with Some (_, (text, _)) => text | None => "other" end.
Definition log_of (text : string) : option DIDLog := assoc_get text known.

#[export] Instance writer : WebvhWriter := {|
  WebDoc := ();
  Signer := string;
  logToJsonlString := text_of;
  generateParallelDidWeb _ _ := ();
  updateKeyMultibase seed := Ok seed;
  updateKeySigner seed := Ok seed
|}.
#[export] Instance resolver : WebvhResolver := {|
  readLogFromString text := match log_of text with Some log => Ok log | None => Throw (plain_error "unreadable") end;
  resolveDIDFromLog log :=
    Ok (mkResolution (Some (document_id (AnnexDemo.last_doc log))) (Some (AnnexDemo.last_doc log))
      (mkMeta None (Some (currentLogParameters log).1) (Some (currentLogParameters log).2)))
|}.
Definition updateDID : UpdateDID := λ log _ signer fields services A C,
  let doc := AnnexDemo.updated_doc (AnnexDemo.last_doc log) fields services in
  Ok (mkUpdated (document_id doc) doc (log ++ [entry signer A C doc]) (mkMeta None (Some A) (Some C)) None).
Definition createDID : CreateDID := λ _ _ _ keys hashes _,
  Ok (mkCreated (genesis keys hashes) (Some fresh_did) (Some (AnnexDemo.doc_of fresh_did [] []))
    (mkMeta None (Some keys) (Some hashes))).

(** ** The hosts *)

Record world := mkWorld { account_text : string; annex_text : option string; races : nat; facts : list heal_fact }.
Definition noting (fact : heal_fact) (w : world) : world := mkWorld (account_text w) (annex_text w) (races w) (fact :: facts w).

(** A text is served under itself as its validator. *)
Definition honest (fact : heal_fact) : Prop :=
  match fact with log_answered _ (Some (text, etag)) => etag = Some text | _ => True end.
Definition past (fact : heal_fact) (w : world) : Prop := fact ∈ facts w ∧ honest fact.

Definition refused : js_error := JsError "PreconditionFailedError" "".
Definition not_found : js_error := JsError "NotFoundError" "".
Definition put_account (write : PutIdResource) : comp world (option (option string)) := λ w,
  match put_content write with
  | WebDocument _ => (Ok None, w)
  | LogText text =>
      if decide (races w ≠ 0) then (Throw refused, mkWorld (account_text w) (annex_text w) (pred (races w)) (facts w))
      else if decide (put_ifMatch write ≠ Some (account_text w)) then (Throw refused, w)
      else (Ok (Some (Some text)), mkWorld text (annex_text w) (races w) (facts w))
  end.
Definition pins : ResourceLogPinStore world := mkPinStore (λ _, mret None) (λ _ _, mret ()).
Definition account_store : WebvhIdStore world :=
  mkIdStore (λ _ w, (Ok (Some (account_text w, Some (account_text w))), w)) put_account pins "account".

Definition annex_read (handle : CollectionHandle) (w : world) : option (string * option string) :=
  if decide (h_spaceId handle = "fresh") then (λ text, (text, Some text)) <$> annex_text w else None.
Definition holding (text : string) (w : world) : world := mkWorld (account_text w) (Some text) (races w) (facts w).
#[export] Instance pws : PwsResources world := {|
  getTextWithEtag handle _ w := (Ok (annex_read handle w), noting (log_answered handle (annex_read handle w)) w);
  putBytes handle _ text _ ifMatch ifNoneMatch w :=
    if decide (h_spaceId handle ≠ "fresh") then (Throw not_found, w)
    else if ifNoneMatch : bool then (Ok (Some (Some text)), noting (genesis_put handle text) (holding text w))
    else if decide (ifMatch = annex_text w) then (Ok (Some (Some text)), holding text w) else (Throw refused, w);
  stringifyDocument _ := ""
|}.
Definition annex_host_of (created : string → list string → comp world SpaceDescriptionRead) : AnnexHost world := {|
  describeWithEtag _ := mret None;
  configureSpace _ := created;
  configureCollection _ _ := mret ();
  randomSuffix := mret "cccccccccccccccc";
  spaceUrlById base spaceId := (base ++ "space/" ++ spaceId ++ "/")%string;
  rootCapabilityId := id;
  pathnameOf := Ok;
  decodeURIComponent := Ok
|}.
#[export] Instance annex_host : AnnexHost world := annex_host_of (λ _ _, mthrow not_found).

(** One reader is answered 404, the other's request throws it. *)
Definition status_of (err : js_error) : option json := if decide (err_name err = "NotFoundError") then Some (jint 404) else None.
Definition gc_host_of (answer : result Z) : GcHost world := {|
  collectionsPages _ := mret [];
  deleteCollection _ _ := mret ();
  revokeZcap _ := mret ();
  requestSpaceMeta spaceId capability w := (answer, noting (metadata_answered capability spaceId answer) w);
  err_status := status_of;
  err_responseStatus _ := None
|}.
#[export] Instance gc_host : GcHost world := gc_host_of (Ok 404%Z).
Definition bootstrap : BootstrapClient world := mkBootstrap
  (annex_host_of (λ _ types, mret (mkSpaceRead (Some types) (Some "e0")))) (gc_host_of (Throw not_found))
  (λ spaceId _ _ w, (Ok (), noting (controller_set spaceId) w)).

Definition delegating (signer key : string) : Delegator world := λ options w,
  let zcap := JObj [("invocationTarget", JStr (dg_invocationTarget options)); ("expires", jint (dg_expires options))] in
  (Ok zcap, noting (zcap_minted options zcap) w).
Definition rebind (bridge sibling : json) : comp world () := λ w, (Ok (), noting (record_resealed bridge sibling) w).
Definition silent : Logger world := λ _, mret ().
Definition expired_bridge : json := JObj [("expires", JStr "1000")].
Definition visit : HealOptions (W:=world) :=
  mkHeal "https://host/" "account" (mkAccountView did (account_doc gone_did) log0) "L" "did:key:standing" (λ _, bootstrap)
    expired_bridge (λ _, account_store) (Some rebind) None 5000.
Definition meta_url (spaceUrl : string) : string := (spaceUrl ++ "meta")%string.
Definition arrival : world := mkWorld "0" None 1 [].
Local Notation outcome :=
  (ensureCredentialClientAnnexGeneration updateDID createDID silent delegating meta_url (mret "fresh") visit arrival).

(** ** What holds of it *)

(** The pointer was moved only with a fresh genesis put. *)
Definition moved_to_a_genesis (w : world) : Prop := account_text w ≠ "0" → ∃ handle text, genesis_put handle text ∈ facts w.
Definition served (published : PublishedWebvhLog) : Prop := ∃ text, pub_etag published = Some text ∧ log_of text = Some (pub_log published).
Local Notation holds := (EntryDiscipline.known moved_to_a_genesis past).

Lemma heal_noted F fact w : honest fact → holds F w → holds (fact :: F) (noting fact w).
Proof.
  intros Hh [Hi HF]. split; [intros Hm; destruct (Hi Hm) as (handle & text & Hg); exists handle, text; by right|].
  intros f [->|Hf]%elem_of_cons; [split; [by left|done]|]. destruct (HF f Hf). split; [by right|done].
Qed.

Lemma serves text etag log published :
  etag = Some text → readLogFromString text = Ok log → resolvedHead log brokenLog etag = Ok published → served published.
Proof.
  intros -> Hl Hr. exists text. cbn [readLogFromString resolver] in Hl. destruct (log_of text) as [log'|] eqn:Hlog; [|done]. injection Hl as ->.
  unfold resolvedHead in Hr. cbn -[currentLogParameters AnnexDemo.last_doc] in Hr.
  destruct (document_id (AnnexDemo.last_doc log)); [done|]. injection Hr as <-. done.
Qed.

Lemma put_keeps F handle text etag : keeps (holds F) (putBytes handle DID_LOG_RESOURCE text "text/jsonl" etag false).
Proof. intros w Hw. cbn. case_decide; [exact Hw|]. case_decide; exact Hw. Qed.

Lemma visit_environment :
  heal_environment updateDID createDID silent delegating meta_url (mret "fresh") moved_to_a_genesis past served (λ _, served) visit rebind.
Proof.
  constructor; intros; try (intros w Hw; exact Hw); try (intros w Hw; by apply heal_noted); try apply put_keeps.
  - constructor; [|by intros id w Hw|by intros id pin w Hw]. intros w Hw. cbn. split; [|exact Hw].
    intros text etag log published [= <- <-]. by apply serves.
  - intros w Hw. cbn. apply heal_noted; [|done]. unfold annex_read. case_decide; [by destruct (annex_text w)|done].
  - destruct H as [_ Hh]. intros text etag log published -> Hl Hr. cbn in Hh. by eapply serves.
  - intros w Hw. cbn. case_decide; [exact Hw|]. apply heal_noted; [done|exact Hw].
  - destruct H0 as (_ & superseded & _ & spaceId & gid & sibling & rem & rung & signer & created & _ & _ & _ & _ & _ & _ & Hput).
    intros w [Hi HF]. unfold log_put. cbn. unfold put_account. cbn. case_decide; [done|]. case_decide; [done|].
    split; [|done]. intros _. cbn. destruct (HF _ Hput) as [Hin _]. eauto.
Qed.

Lemma heal_replaces_only_the_dead_witness :
  match outcome with
  | (Ok r, w) =>
      (∃ F, (∀ fact, fact ∈ F → past fact w) ∧
         healed updateDID createDID delegating meta_url served (λ _, served) visit rebind F r) ∧
      (∃ handle text, genesis_put handle text ∈ facts w) ∧ controller_set "fresh" ∈ facts w ∧
      account_text w = "1" ∧ annex_text w = Some "installed" ∧ he_clientAnnexDid r = fresh_did ∧
      he_pointedSpaceMissing r = true ∧ he_siblingReminted r = true ∧ he_bridgeReminted r = true
  | _ => False
  end.
Proof.
  pose proof (heal_replaces_only_the_dead updateDID createDID silent delegating meta_url (mret "fresh") moved_to_a_genesis past
    served (λ _, served) visit rebind visit_environment eq_refl) as [H _].
  specialize (H arrival ltac:(split; [intros Hn; by destruct Hn|by intros f ?%elem_of_nil])).
  assert (match outcome with
          | (Ok r, w) => (account_text w, annex_text w, he_clientAnnexDid r,
              [he_pointedSpaceMissing r; he_siblingReminted r; he_bridgeReminted r])
          | _ => ("", None, "", []) end = ("1", Some "installed", fresh_did, [true; true; true])) as Hv by (vm_compute; reflexivity).
  assert (match outcome with
          | (Ok _, w) => existsb (λ fact, match fact with controller_set spaceId => bool_decide (spaceId = "fresh") | _ => false end) (facts w)
          | _ => false end = true) as Hs by (vm_compute; reflexivity).
  destruct outcome as [[r|err] w]; [|done]. destruct H as [Hr Hi]. injection Hv as Ht Ha Hd Hm Hsib Hb.
  apply existsb_exists in Hs as (fact & Hin & Hf). split_and!; [done|by apply Hi; rewrite Ht| |done..].
  destruct fact; try done. apply bool_decide_eq_true in Hf as ->. by apply list_elem_of_In.
Defined.
End AnnexHealDemo.
